(* ===== verification/_CoqProject ===== *)
-Q . S2P
Prelude.v
Time.v
CostModel.v
DeltaTracking.v
DeltaProps.v
Fab.v
FabSerial.v
Scale.v
Coin.v
MerkleTree.v
FieldRepr.v
Mpt.v
MptSpec.v
MptProps.v
TimeFilterMap.v
TimeMapTrie.v
Zswap.v
ZswapProps.v
ZswapFilter.v
StateValue.v
VmOps.v
Vm.v
VmSafety.v
VmProps.v
Runtime.v
RuntimeProps.v
LedgerData.v
LedgerCost.v
Dust.v
Ledger.v
ToyLedger.v
DustProps.v
ReplayProps.v
LedgerProps.v
LedgerInv.v
LedgerTotal.v
VerifyData.v
Balance.v
EffectsCheck.v
Sequencing.v
WellFormed.v
ToyVerify.v
WellFormedProps.v
StorageDb.v
Gc.v
GcProps.v
Backend.v
BackendInv.v
BackendCounts.v
BackendOps.v
BackendFlush.v
BackendFetch.v
BackendProps.v
ToyStorage.v
Zkir.v
ZkirProps.v
CoinKeys.v
Wallet.v
WalletProps.v
WorkerPool.v
PoolProps.v
Merge.v
MergeProps.v
VmGas.v
Partition.v
PartitionProps.v
