(* ===== verification/Prelude.v ===== *)
(** * Verification of the Midnight ledger

    The Midnight ledger keeps shielded coins (Zswap), unshielded tokens (Night
    and others), Dust that pays for fees, and contracts with their public
    state.  A transaction is checked for well-formedness against a reference
    state, then applied section by section; contract code runs on a stack
    machine with gas; every map and tree of the state lives in Merkle-Patricia
    tries or sparse Merkle trees kept by a storage back end with reference
    counts and garbage collection.  Wallets follow the ledger and build offers,
    and a proof server runs the circuits of contracts.

    This library translates those parts from the Rust sources, function by
    function, and proves what makes them correct.  Definitions keep the names of
    the code where that is possible; the files that hold them name their source.

    ** Conventions

    - Integers are [Z] (indices [nat]).  Arithmetic that wraps in a release
      build is written with its wrap-around, saturating and checked operations
      as such, and bounds on machine words are part of the invariants.
    - [outcome E A] is the result of fallible code: [Ok], [Err e], or [Panic]
      for an unwrap, an index out of range, an explicit panic.  Theorems on the
      absence of panics exclude the third.
    - Loops that are not structural take fuel.  Each has a theorem that the
      fuel given by its callers is enough (the collection by reference counts
      apart, of which only runs on small stores are evaluated): the VM takes one unit per
      instruction ([run_program] gives the length of the program), tries and
      trees the length of a key or the height, sequencing and partitioning the
      number of calls (a walk over a forest of calls from [n] of them, at most
      [n * n + n] steps),
      the back end and the collector the number of stored nodes, delta tracking
      the number of edges of the node graph.
    - Code outside of the repository is a parameter: a type class with the laws
      that the code relies on, and at least one instance to evaluate with.
      [Hashing] (hash functions into the field), [FieldOrder], [StateStorage]
      and [StateArena] (content addresses of state values), [KeyTypes],
      [LedgerHashing], [SystemHashing] (hashes of ledger data), [Sizes]
      (serialized sizes), [ProofSystem] and [Statements] (proofs, signatures
      and what they are about), [LruCache], [DB], [HashOrder] (databases,
      caches and the order of hash tables), [Features] (build features),
      [EmbeddedCurve], [CurveIdentity] (curve arithmetic), [ZkStdLib] (the
      gadgets of the proof library), [EmbeddedField] (the order of the field of
      binding randomness), [PreTranscriptSizes] (serialized sizes of calls);
      [LedgerLaws] (addresses are hashes, the arena keeps charged nodes).
    - Transactions come in two forms: sealed ones, with proofs, signatures and
      binding commitments ([VerifyData.v]), on which well-formedness is checked,
      and verified ones, erased of them ([LedgerData.v]), which are applied.

    ** Parts, files and theorems

    Base crypto.  [Time.v], [CostModel.v] (costs and fee prices), [Fab.v] and
    [FabSerial.v] (field-aligned binary values, their consumption by alignments
    and their byte encoding, with round trips and rejection of non-canonical
    bytes), [Scale.v] (compact integers), [Coin.v] (addresses and token types).

    Transient crypto.  [MerkleTree.v]: sparse Merkle trees with collapsing,
    paths, insertion evidence and updates.  [FieldRepr.v]: values as field
    elements, with the round trip to the binary form that is hashed.
    [CoinKeys.v]: coins, keys and the encryption of coins; a coin reaches the
    owner of the key it was encrypted for.

    Storage.  [Mpt.v], [MptSpec.v], [MptProps.v]: tries as finite maps, with
    canonical forms; [TimeFilterMap.v], [TimeMapTrie.v]: multisets and maps
    from timestamps and their refinement to tries; [DeltaTracking.v],
    [DeltaProps.v]: which nodes an update writes and deletes, against graph
    reachability.  [StorageDb.v], [Backend.v], [BackendInv.v],
    [BackendCounts.v], [BackendOps.v], [BackendFlush.v], [BackendFetch.v],
    [BackendProps.v]: the back end refines a store of objects with root counts,
    its reference counts are exact until garbage is collected, reading,
    pre-fetching and flushing lose nothing.  [Gc.v], [GcProps.v]: on sound
    storage (what a needed stored node refers to is stored, as after a flush of
    all changes) the incremental collector deletes no reachable node and, with
    enough time, every other one.  [ToyStorage.v] evaluates small back ends and
    shows two collections that lose data: by reference counts, and by marking
    when the database is behind the caches.

    Zswap.  [Zswap.v], [ZswapProps.v], [ZswapFilter.v]: offers applied to the
    commitment tree, nullifiers and roots; no double spends, and a coin whose
    commitment is in the tree can be spent against the root of a block.
    [Wallet.v], [WalletProps.v]: the wallet state; it never rejects what the
    ledger accepted, its tree has the ledger's root, and it can spend the coins
    it holds.

    Contracts.  [StateValue.v], [VmOps.v], [Vm.v], [VmSafety.v], [VmProps.v]:
    the VM never panics, keeps values well-formed and stays within the gas
    limit, and [VmGas.v] that a limit which covers the cost of a run does not
    change it.  [Runtime.v], [RuntimeProps.v]: contract calls, their effects and
    queries.  [Zkir.v], [ZkirProps.v]: circuits of contracts; the layout of a
    circuit accepts what the run outside of it computed.

    Ledger.  [LedgerData.v], [LedgerCost.v], [Dust.v], [Ledger.v] (state and
    application of transactions, system transactions and blocks), with
    [DustProps.v], [ReplayProps.v], [LedgerProps.v], [LedgerInv.v] and
    [LedgerTotal.v]: conservation of Night, replay protection, no double spend
    of Dust, atomic sections, the invariant of reachable states, and that a node
    which records everything (no whitelist) does not panic.
    [VerifyData.v], [Balance.v], [EffectsCheck.v], [Sequencing.v],
    [WellFormed.v], [WellFormedProps.v]: well-formed transactions are balanced,
    authorized, ordered by causality and claim the calls that run; rechecking
    against a newer state equals a full check.  [ToyLedger.v] and [ToyVerify.v]
    hold concrete instances.  [Merge.v], [MergeProps.v]: merged offers and
    transactions keep proofs, commitments and balances.  [Partition.v],
    [PartitionProps.v]: the partition of calls into guaranteed and fallible
    transcripts ends, gives transcripts that run with the gas and the effects
    they declare, and keeps every call on the side of its caller; the few
    floating-point operations are written out on mantissas and exponents.

    Proof server.  [WorkerPool.v], [PoolProps.v]: the pool of workers as a
    transition system; work runs at most once and its result is the one
    reported, the pool drains, and a job cancelled in the queue is never run.

    Of the properties that spec/properties.md asks for there are theorems on
    balance preservation (conservation of Night, balanced transactions) and on
    causality.  Its properties of binding, infragility and self-determination
    have no theorem here.

    ** Not modelled

    - The arena ([storage-core/src/arena.rs], [storable.rs]): smart pointers
      whose clone and drop call the back end; the calls they make are modelled
      and values elsewhere carry no sharing.  The SQL and Parity databases.
    - Serialization of ledger and coin types (derived by macros) and their
      serde and textual forms; sizes enter through [Sizes].
    - Proof preimages and the construction of intents and offers from parts,
      the Dust wallet, random sampling.
    - [zkir-v3], which is experimental, keys and proving (external crates).
    - WASM bindings and the HTTP endpoints of the proof server, which hold no
      logic of their own. *)

From Stdlib Require Export ZArith Lia.
From stdpp Require Export base gmap sets list strings pretty countable numbers.

#[global] Open Scope Z_scope.
#[export] Set Default Proof Using "Type".

(** ** Fallible code

    [outcome E A] is what a Rust call can do: return a value, return an error
    value of type [E] ([Result::Err]), or panic (an [unwrap]/[expect] on a
    missing value, an index out of range, [unreachable!]). *)
Inductive outcome (E A : Type) : Type :=
  | Ok (a : A)
  | Err (e : E)
  | Panic.
Arguments Ok {E A} a.
Arguments Err {E A} e.
Arguments Panic {E A}.

#[global] Instance outcome_ret {E} : MRet (outcome E) := fun A a => Ok a.
#[global] Instance outcome_bind {E} : MBind (outcome E) := fun A B f m =>
  match m with Ok a => f a | Err e => Err e | Panic => Panic end.
#[global] Instance outcome_fmap {E} : FMap (outcome E) := fun A B f m =>
  match m with Ok a => Ok (f a) | Err e => Err e | Panic => Panic end.

(** [Option::ok_or] and the panicking [Option::unwrap]/[expect]. *)
Definition ok_or {E A} (o : option A) (e : E) : outcome E A :=
  match o with Some a => Ok a | None => Err e end.
Definition unwrap {E A} (o : option A) : outcome E A :=
  match o with Some a => Ok a | None => Panic end.
Definition is_ok {E A} (m : outcome E A) : bool :=
  match m with Ok _ => true | _ => false end.
Definition map_err {E F A} (f : E -> F) (m : outcome E A) : outcome F A :=
  match m with Ok a => Ok a | Err e => Err (f e) | Panic => Panic end.

(** Code that panics or returns, and assertions. *)
Abbreviation may_panic A := (outcome Empty_set A).
Definition assert_that (b : bool) : may_panic unit := if b then Ok tt else Panic.

(** Byte strings given as literals. *)
Definition ascii_bytes (s : string) : list Z := (fun c => Z.of_nat (Ascii.nat_of_ascii c)) <$> String.list_ascii_of_string s.

(** [Iterator::try_fold]. *)
Fixpoint try_fold {E A B} (f : A -> B -> outcome E A) (acc : A) (l : list B) : outcome E A :=
  match l with
  | [] => Ok acc
  | x :: l => a ← f acc x; try_fold f a l
  end.

Lemma bind_Ok_inv {E A B} (m : outcome E A) (f : A -> outcome E B) b :
  (m ≫= f) = Ok b -> exists a, m = Ok a /\ f a = Ok b.
Proof. destruct m; simpl; intros; try discriminate; eauto. Qed.

Lemma ok_or_Ok_inv {E A} (o : option A) (e : E) a : ok_or o e = Ok a -> o = Some a.
Proof. destruct o; simpl; intros; congruence. Qed.

Lemma try_fold_app {E A B} (f : A -> B -> outcome E A) l1 l2 acc :
  try_fold f acc (l1 ++ l2) = (try_fold f acc l1 ≫= fun a => try_fold f a l2).
Proof.
  revert acc; induction l1 as [|x l1 IH]; intros acc; simpl; [done|].
  destruct (f acc x); simpl; auto.
Qed.

(** An invariant kept by each step is kept by the fold. *)
Lemma try_fold_inv {E A B} (P : A -> Prop) (f : A -> B -> outcome E A) l acc r :
  P acc -> (forall a x a', x ∈ l -> P a -> f a x = Ok a' -> P a') ->
  try_fold f acc l = Ok r -> P r.
Proof.
  revert acc; induction l as [|x l IH]; intros acc Hacc Hstep; simpl; [congruence|].
  intros (a & Hf & Hrest)%bind_Ok_inv.
  eapply IH; [eapply Hstep; [left|exact Hacc|exact Hf]| |exact Hrest].
  intros; eapply Hstep; [right|..]; eauto.
Qed.

(** Inversion of successful monadic code, one bind at a time. *)
Ltac inv_bind :=
  match goal with
  | H : Ok _ = Ok _ |- _ => injection H; clear H; intros; subst
  | H : Err _ = Ok _ |- _ => discriminate H
  | H : Panic = Ok _ |- _ => discriminate H
  | H : mret _ = Ok _ |- _ => unfold mret, outcome_ret in H
  | H : mbind _ _ = Ok _ |- _ =>
      let a := fresh "a" in let E := fresh "E" in
      apply bind_Ok_inv in H; destruct H as (a & E & H)
  | H : ok_or _ _ = Ok _ |- _ => apply ok_or_Ok_inv in H
  end.
Ltac inv_binds := repeat inv_bind.

(** [safe m Q]: the call does not panic, and if it returns, [Q] holds of the
    result.  The rules below follow the structure of the code. *)
Definition safe {E A} (m : outcome E A) (Q : A -> Prop) : Prop :=
  match m with Ok a => Q a | Err _ => True | Panic => False end.

Lemma safe_ret {E A} (a : A) (Q : A -> Prop) : Q a -> safe (@Ok E A a) Q.
Proof. done. Qed.
Lemma safe_bind {E A B} (m : outcome E A) (f : A -> outcome E B) (P : A -> Prop) Q :
  safe m P -> (forall a, P a -> safe (f a) Q) -> safe (m ≫= f) Q.
Proof. destruct m; simpl; auto. Qed.
Lemma safe_assoc {E A B C} (m : outcome E A) (g : A -> outcome E B) (f : B -> outcome E C) Q :
  safe (m ≫= (fun a => g a ≫= f)) Q -> safe ((m ≫= g) ≫= f) Q.
Proof. by destruct m. Qed.
Lemma safe_impl {E A} (m : outcome E A) (P Q : A -> Prop) :
  safe m P -> (forall a, P a -> Q a) -> safe m Q.
Proof. destruct m; simpl; auto. Qed.
Lemma safe_ok_or {E A} (o : option A) (e : E) (Q : A -> Prop) :
  (forall a, o = Some a -> Q a) -> safe (ok_or o e) Q.
Proof. destruct o; simpl; auto. Qed.
Lemma safe_map_err {E F A} (f : E -> F) (m : outcome E A) (Q : A -> Prop) :
  safe m Q -> safe (map_err f m) Q.
Proof. by destruct m. Qed.

Lemma safe_try_fold {E A B} (P : A -> Prop) (f : A -> B -> outcome E A) l acc :
  P acc -> (forall a x, P a -> safe (f a x) P) -> safe (try_fold f acc l) P.
Proof.
  intros Ha Hf. revert acc Ha. induction l as [|x l IH]; intros acc Ha; [done|]. cbn [try_fold]. eapply safe_bind; eauto.
Qed.

(** [safe_or P m Q]: if the call returns, [Q] holds; if it panics, [P] does. *)
Definition safe_or {E A} (P : Prop) (m : outcome E A) (Q : A -> Prop) : Prop :=
  match m with Ok a => Q a | Err _ => True | Panic => P end.
Lemma safe_or_safe {E A} P (m : outcome E A) Q : safe m Q -> safe_or P m Q.
Proof. by destruct m. Qed.
Lemma safe_or_bind {E A B} P (m : outcome E A) (f : A -> outcome E B) R Q :
  safe_or P m R -> (forall a, R a -> safe_or P (f a) Q) -> safe_or P (m ≫= f) Q.
Proof. destruct m; simpl; auto. Qed.
Lemma safe_or_bind_eq {E A B} P (m : outcome E A) (f : A -> outcome E B) R Q :
  safe_or P m R -> (forall a, m = Ok a -> R a -> safe_or P (f a) Q) -> safe_or P (m ≫= f) Q.
Proof. destruct m; simpl; auto. Qed.
Lemma safe_or_map_err {E F A} P (f : E -> F) (m : outcome E A) Q : safe_or P m Q -> safe_or P (map_err f m) Q.
Proof. by destruct m. Qed.
Lemma safe_or_try_fold {E A B} P (R : A -> Prop) (f : A -> B -> outcome E A) l acc :
  R acc -> (forall a x, x ∈ l -> R a -> safe_or P (f a x) R) -> safe_or P (try_fold f acc l) R.
Proof.
  revert acc. induction l as [|x l IH]; intros acc Ha Hf; [done|]. cbn [try_fold]. eapply safe_or_bind; [apply Hf; [left|done]|].
  intros a Hr. apply IH; [done|]. intros; apply Hf; [by right|done].
Qed.
Lemma safe_or_any {E A} P (m : outcome E A) : m <> Panic -> safe_or P m (fun _ => True).
Proof. by destruct m. Qed.
Lemma safe_or_mono {E A} (P P' : Prop) (m : outcome E A) Q Q' :
  safe_or P m Q -> (P -> P') -> (forall a, m = Ok a -> Q a -> Q' a) -> safe_or P' m Q'.
Proof. destruct m; simpl; auto. Qed.

(** ** Machine integers

    A [w]-bit unsigned integer is a [Z] in [0, 2^w); a signed one lies in
    [[-2^(w-1), 2^(w-1))].  The operations below are the ones of Rust's
    standard library. *)
Definition u8_max : Z := 2 ^ 8 - 1.
Definition u16_max : Z := 2 ^ 16 - 1.
Definition u32_max : Z := 2 ^ 32 - 1.
Definition u64_max : Z := 2 ^ 64 - 1.
Definition u128_max : Z := 2 ^ 128 - 1.
Definition i128_max : Z := 2 ^ 127 - 1.
Definition i128_min : Z := - 2 ^ 127.

Definition in_u (max x : Z) : Prop := 0 <= x <= max.
Abbreviation is_u8 := (in_u u8_max).
Abbreviation is_u16 := (in_u u16_max).
Abbreviation is_u32 := (in_u u32_max).
Abbreviation is_u64 := (in_u u64_max).
Abbreviation is_u128 := (in_u u128_max).
Definition is_i128 (x : Z) : Prop := i128_min <= x <= i128_max.

Definition sat_add (max a b : Z) : Z := Z.min max (a + b).
Definition sat_sub (a b : Z) : Z := Z.max 0 (a - b).
Definition sat_mul (max a b : Z) : Z := Z.min max (a * b).
Definition checked_add (max a b : Z) : option Z :=
  if a + b <=? max then Some (a + b) else None.
Definition checked_sub (a b : Z) : option Z :=
  if b <=? a then Some (a - b) else None.
(** [x as uN]: truncation. *)
Definition trunc (max x : Z) : Z := x mod (max + 1).
(** [x as i128]: two's complement truncation. *)
Definition wrap_i128 (x : Z) : Z := (x + 2 ^ 127) mod 2 ^ 128 - 2 ^ 127.
(** [a.div_ceil(b)] on unsigned integers, [b > 0]. *)
Definition div_ceil (a b : Z) : Z := (a + b - 1) / b.

Create HintDb ints.
#[export] Hint Unfold in_u is_i128 u8_max u16_max u32_max u64_max u128_max i128_max
  i128_min sat_add sat_sub sat_mul : ints.
Ltac ints := autounfold with ints in *; lia.

Lemma sat_add_in_u max a b : in_u max a -> in_u max b -> in_u max (sat_add max a b).
Proof. ints. Qed.
Lemma sat_sub_in_u max a b : in_u max a -> 0 <= b -> in_u max (sat_sub a b).
Proof. ints. Qed.
Lemma sat_mul_in_u max a b : in_u max a -> 0 <= b -> in_u max (sat_mul max a b).
Proof. autounfold with ints; nia. Qed.
#[export] Hint Resolve sat_add_in_u sat_sub_in_u sat_mul_in_u : ints.

Lemma sat_add_comm max a b : sat_add max a b = sat_add max b a.
Proof. ints. Qed.
Lemma sat_add_assoc max a b c :
  0 <= a -> 0 <= b -> 0 <= c -> 0 <= max ->
  sat_add max a (sat_add max b c) = sat_add max (sat_add max a b) c.
Proof. ints. Qed.
Lemma sat_add_le_l max a b : a <= max -> 0 <= b -> a <= sat_add max a b.
Proof. ints. Qed.

Lemma wrap_i128_id x : is_i128 x -> wrap_i128 x = x.
Proof.
  unfold wrap_i128. intros H. rewrite Z.mod_small; [lia|].
  unfold is_i128, i128_min, i128_max in H. lia.
Qed.
Lemma wrap_i128_range x : is_i128 (wrap_i128 x).
Proof.
  unfold wrap_i128, is_i128, i128_min, i128_max.
  pose proof (Z.mod_pos_bound (x + 2 ^ 127) (2 ^ 128) ltac:(lia)). lia.
Qed.

Lemma trunc_id max x : in_u max x -> trunc max x = x.
Proof. intros [? ?]. apply Z.mod_small. lia. Qed.

(** [div_ceil] is the least integer at least [a / b]. *)
Lemma div_ceil_spec a b c : 0 < b -> div_ceil a b <= c <-> a <= c * b.
Proof.
  intros Hb. unfold div_ceil. split; intros H.
  - pose proof (Z.mul_succ_div_gt (a + b - 1) b Hb). nia.
  - apply Z.lt_succ_r, Z.div_lt_upper_bound; nia.
Qed.
Lemma div_ceil_ub a b : 0 < b -> a <= div_ceil a b * b.
Proof. intros. by apply div_ceil_spec. Qed.
Lemma div_ceil_lb a b : 0 < b -> (div_ceil a b - 1) * b < a.
Proof.
  intros Hb. apply Z.nle_gt. intros H. apply div_ceil_spec in H; lia.
Qed.
