(* ===== verification/Time.v ===== *)
(** * Timestamps and durations ([base-crypto/src/time.rs])

    A [Timestamp] is a [u64] number of seconds, a [Duration] an [i128] one;
    moving a timestamp by a duration saturates at both ends. *)
From S2P Require Import Prelude.

(** [checked_abs().and_then(u64::try_from).unwrap_or(u64::MAX)]. *)
Definition abs_duration (d : Z) : Z :=
  if d =? i128_min then u64_max else if Z.abs d <=? u64_max then Z.abs d else u64_max.
Definition Timestamp_add (self rhs : Z) : Z :=
  if 0 <=? rhs then sat_add u64_max self (trunc u64_max rhs) else sat_sub self (abs_duration rhs).
Definition Timestamp_sub (self rhs : Z) : Z :=
  if 0 <=? rhs then sat_sub self (trunc u64_max rhs) else sat_add u64_max self (abs_duration rhs).
(** [Sub<Timestamp> for Timestamp]: the difference fits an [i128]. *)
Definition Timestamp_diff (self rhs : Z) : Z := self - rhs.

Lemma abs_duration_range d : is_u64 (abs_duration d).
Proof. unfold abs_duration. repeat case_match; ints. Qed.
Lemma trunc_range max x : 0 <= max -> in_u max (trunc max x).
Proof. intros. unfold trunc, in_u. pose proof (Z.mod_pos_bound x (max + 1)). lia. Qed.
Lemma Timestamp_add_range t d : is_u64 t -> is_u64 (Timestamp_add t d).
Proof.
  intros Ht. pose proof (abs_duration_range d). pose proof (trunc_range u64_max d ltac:(ints)).
  unfold Timestamp_add. case_match; ints.
Qed.
Lemma Timestamp_sub_range t d : is_u64 t -> is_u64 (Timestamp_sub t d).
Proof.
  intros Ht. pose proof (abs_duration_range d). pose proof (trunc_range u64_max d ltac:(ints)).
  unfold Timestamp_sub. case_match; ints.
Qed.
Lemma Timestamp_sub_small t d : is_u64 d -> Timestamp_sub t d = Z.max 0 (t - d).
Proof.
  intros Hd. unfold Timestamp_sub. rewrite (proj2 (Z.leb_le _ _)), trunc_id by (done || apply Hd). done.
Qed.
Lemma Timestamp_add_small t d : is_u64 d -> Timestamp_add t d = Z.min u64_max (t + d).
Proof.
  intros Hd. unfold Timestamp_add. rewrite (proj2 (Z.leb_le _ _)), trunc_id by (done || apply Hd). done.
Qed.
