(* ===== verification/CostModel.v ===== *)
(** * Cost primitives: [base-crypto/src/cost_model.rs]

    Picosecond durations ([CostDuration], saturating [u64] arithmetic), the
    running, synthetic and normalised cost records, the deterministic 64.64
    fixed-point numbers ([FixedPoint], an [i128] scaled by [2^64]), the fee
    prices and their per-block adjustment.  Conversions to and from [f64] are
    used for display and heuristics only and are left out. *)
From S2P Require Import Prelude.

(** ** Durations *)

(** [CostDuration(u64)], in picoseconds. *)
Definition CostDuration := Z.

Definition CostDuration_ZERO : CostDuration := 0.
Definition CostDuration_SECOND : CostDuration := 1000000000000.

Definition CostDuration_add (a b : CostDuration) : CostDuration := sat_add u64_max a b.
Definition CostDuration_sub (a b : CostDuration) : CostDuration := sat_sub a b.
Definition CostDuration_mul (a : CostDuration) (n : Z) : CostDuration := sat_mul u64_max a n.

(** [Sum for CostDuration]: [reduce] with saturating addition, 0 when empty. *)
Definition CostDuration_sum (l : list CostDuration) : CostDuration :=
  match l with
  | [] => 0
  | x :: l => fold_left (sat_add u64_max) l x
  end.

(** [Div<u64> for CostDuration]; [u64::div_ceil] panics on 0. *)
Definition CostDuration_div_u64 (a : CostDuration) (n : Z) : option CostDuration :=
  if n =? 0 then None else Some (div_ceil a n).

(** ** Fixed-point numbers *)

(** [FixedPoint(i128)]: [x] stands for the rational [x / 2^64]. *)
Definition FixedPoint := Z.

(** [FixedPoint::from_u64_div]: [a << 64] fits [u128]; the quotient is cast
    with [as i128]. *)
Definition from_u64_div (a b : Z) : FixedPoint :=
  if b =? 0 then i128_max
  else wrap_i128 (div_ceil (Z.shiftl a 64) b).

(** [FixedPoint::from_u128_div]: 256-bit intermediate, truncated division with
    the remainder deciding whether to round up; the bound tested is
    [u128::MAX], the cast is [as_i128]. *)
Definition from_u128_div (a b : Z) : FixedPoint :=
  if b =? 0 then i128_max
  else
    let ashift := a * 2 ^ 64 in
    let c := (if Z.rem ashift b =? 0 then 0 else 1) + Z.quot ashift b in
    if u128_max <? c then i128_max else wrap_i128 c.

Definition FixedPoint_ZERO : FixedPoint := 0.
Definition FixedPoint_ONE : FixedPoint := from_u64_div 1 1.
Definition FixedPoint_MAX : FixedPoint := i128_max.

Definition sat_i128 (x : Z) : Z := Z.max i128_min (Z.min i128_max x).

Definition FixedPoint_add (a b : FixedPoint) : FixedPoint := sat_i128 (a + b).
Definition FixedPoint_sub (a b : FixedPoint) : FixedPoint := sat_i128 (a - b).
Definition FixedPoint_neg (a : FixedPoint) : FixedPoint := sat_i128 (- a).

(** [Mul]: the 256-bit product shifted right arithmetically, capped from above
    only, then truncated by [as_i128]. *)
Definition FixedPoint_mul (a b : FixedPoint) : FixedPoint :=
  wrap_i128 (Z.min i128_max (Z.shiftr (a * b) 64)).

(** [Div]: magnitudes divided by [from_u128_div], the signs multiplied in. *)
Definition FixedPoint_div (a b : FixedPoint) : FixedPoint :=
  if b =? 0 then i128_max
  else wrap_i128 (from_u128_div (Z.abs a) (Z.abs b) * Z.sgn a * Z.sgn b).

(** [FixedPoint::into_atomic_units]. *)
Definition into_atomic_units (x : FixedPoint) (base_unit : Z) : Z :=
  let raw := x * base_unit in
  let res := (if Z.rem raw (2 ^ 64) <=? 0 then 0 else 1) + Z.quot raw (2 ^ 64) in
  if res <? 0 then 0 else if u128_max <? res then u128_max else res.

(** The square-and-multiply loop of [FixedPoint::powi], low bit first. *)
Fixpoint powi_loop (acc cur : FixedPoint) (exp : positive) : FixedPoint :=
  match exp with
  | xH => FixedPoint_mul acc cur
  | xO e => powi_loop acc (FixedPoint_mul cur cur) e
  | xI e => powi_loop (FixedPoint_mul acc cur) (FixedPoint_mul cur cur) e
  end.
Definition powi (x : FixedPoint) (exp : Z) : FixedPoint :=
  match exp with
  | Z0 => FixedPoint_ONE
  | Zpos e => powi_loop FixedPoint_ONE x e
  | Zneg e => FixedPoint_div FixedPoint_ONE (powi_loop FixedPoint_ONE x e)
  end.

(** [Div for CostDuration]. *)
Definition CostDuration_div (a b : CostDuration) : FixedPoint := from_u64_div a b.

(** ** Cost records *)

Record RunningCost := mkRunningCost {
  rc_read_time : CostDuration;
  rc_compute_time : CostDuration;
  rc_bytes_written : Z;
  rc_bytes_deleted : Z;
}.
#[global] Instance RunningCost_eq_dec : EqDecision RunningCost.
Proof. solve_decision. Defined.

Definition RunningCost_ZERO : RunningCost := mkRunningCost 0 0 0 0.
Definition RunningCost_compute (time : CostDuration) : RunningCost :=
  mkRunningCost 0 time 0 0.
Definition RunningCost_max_time (c : RunningCost) : CostDuration :=
  Z.max (rc_read_time c) (rc_compute_time c).
Definition RunningCost_add (a b : RunningCost) : RunningCost :=
  {| rc_read_time := CostDuration_add (rc_read_time a) (rc_read_time b);
     rc_compute_time := CostDuration_add (rc_compute_time a) (rc_compute_time b);
     rc_bytes_written := sat_add u64_max (rc_bytes_written a) (rc_bytes_written b);
     rc_bytes_deleted := sat_add u64_max (rc_bytes_deleted a) (rc_bytes_deleted b) |}.
Definition RunningCost_mul (a : RunningCost) (n : Z) : RunningCost :=
  {| rc_read_time := CostDuration_mul (rc_read_time a) n;
     rc_compute_time := CostDuration_mul (rc_compute_time a) n;
     rc_bytes_written := sat_mul u64_max (rc_bytes_written a) n;
     rc_bytes_deleted := sat_mul u64_max (rc_bytes_deleted a) n |}.
Definition RunningCost_sum (l : list RunningCost) : RunningCost :=
  fold_left RunningCost_add l RunningCost_ZERO.

Record SyntheticCost := mkSyntheticCost {
  sc_read_time : CostDuration;
  sc_compute_time : CostDuration;
  sc_block_usage : Z;
  sc_bytes_written : Z;
  sc_bytes_churned : Z;
}.

Definition SyntheticCost_ZERO : SyntheticCost := mkSyntheticCost 0 0 0 0 0.
Definition SyntheticCost_max_time (c : SyntheticCost) : CostDuration :=
  Z.max (sc_read_time c) (sc_compute_time c).
Definition SyntheticCost_add (a b : SyntheticCost) : SyntheticCost :=
  {| sc_read_time := CostDuration_add (sc_read_time a) (sc_read_time b);
     sc_compute_time := CostDuration_add (sc_compute_time a) (sc_compute_time b);
     sc_block_usage := sat_add u64_max (sc_block_usage a) (sc_block_usage b);
     sc_bytes_written := sat_add u64_max (sc_bytes_written a) (sc_bytes_written b);
     sc_bytes_churned := sat_add u64_max (sc_bytes_churned a) (sc_bytes_churned b) |}.

(** [From<RunningCost> for SyntheticCost]: net bytes written, the rest churn. *)
Definition SyntheticCost_of_running (v : RunningCost) : SyntheticCost :=
  let bytes_written := sat_sub (rc_bytes_written v) (rc_bytes_deleted v) in
  {| sc_read_time := rc_read_time v;
     sc_compute_time := rc_compute_time v;
     sc_block_usage := 0;
     sc_bytes_written := bytes_written;
     sc_bytes_churned := rc_bytes_written v - bytes_written |}.
(** [From<SyntheticCost> for RunningCost], the lossy way back. *)
Definition RunningCost_of_synthetic (v : SyntheticCost) : RunningCost :=
  {| rc_read_time := sc_read_time v;
     rc_compute_time := sc_compute_time v;
     rc_bytes_written := sc_bytes_written v;
     rc_bytes_deleted := 0 |}.

Record NormalizedCost := mkNormalizedCost {
  nc_read_time : FixedPoint;
  nc_compute_time : FixedPoint;
  nc_block_usage : FixedPoint;
  nc_bytes_written : FixedPoint;
  nc_bytes_churned : FixedPoint;
}.
Definition NormalizedCost_ZERO : NormalizedCost := mkNormalizedCost 0 0 0 0 0.
Definition nc_values (c : NormalizedCost) : list FixedPoint :=
  [nc_read_time c; nc_compute_time c; nc_block_usage c; nc_bytes_written c;
   nc_bytes_churned c].

(** [SyntheticCost::normalize]. *)
Definition normalize (self limits : SyntheticCost) : option NormalizedCost :=
  let res :=
    {| nc_read_time := CostDuration_div (sc_read_time self) (sc_read_time limits);
       nc_compute_time := CostDuration_div (sc_compute_time self) (sc_compute_time limits);
       nc_block_usage := from_u64_div (sc_block_usage self) (sc_block_usage limits);
       nc_bytes_written := from_u64_div (sc_bytes_written self) (sc_bytes_written limits);
       nc_bytes_churned := from_u64_div (sc_bytes_churned self) (sc_bytes_churned limits) |} in
  if existsb (fun val => FixedPoint_ONE <? val) (nc_values res) then None else Some res.

(** ** Fee prices *)

Record FeePrices := mkFeePrices {
  overall_price : FixedPoint;
  read_factor : FixedPoint;
  compute_factor : FixedPoint;
  block_usage_factor : FixedPoint;
  write_factor : FixedPoint;
}.

(** The interpolation table of [price_adjustment_function]. *)
Definition POINTS : list FixedPoint :=
  [-84764999863455367168; -84764999863455367168; -71791413020114739200;
   -64122702906348363776; -58624745660900909056; -54315312289337933824;
   -50756867729459126272; -47715996328766365696; -45053350700638961664;
   -42679031418590216192; -40531639450585882624; -38567365939524018176;
   -36753849332779208704; -35066499762404089856; -33486189434148528128;
   -31997741738730885120; -30588908944945000448; -29249660330515177472;
   -27971674063185141760; -26747966611833823232; -25572617290405310464;
   -24440560042528645120; -23347423671542177792; -22289407577085239296;
   -21263183918842343424; -20265819725292941312; -19294714246602784768;
   -18347548093616457728; -17422241585731162112; -16516920363702972416;
   -15629886784764432384; -14759595957603760128; -13904635528415858688;
   -13063708520358164480; -12235618674138603520; -11419257849061355520;
   -10613595130224742400; -9817667354921738240; -9030570824192866304;
   -8251454007294845952; -7479511080090284032; -6713976164925600768;
   -5954118160879564800; -5199236070424976384; -4448654742390539264;
   -3701720962283612672; -2957799830037197824; -2216271372462491904;
   -1476527343420476672; -737968169202023424; 0; 737968169202024192;
   1476527343420477440; 2216271372462496512; 2957799830037204480;
   3701720962283612672; 4448654742390539264; 5199236070424971264;
   5954118160879561728; 6713976164925597696; 7479511080090281984;
   8251454007294848000; 9030570824192860160; 9817667354921742336;
   10613595130224742400; 11419257849061359616; 12235618674138605568;
   13063708520358168576; 13904635528415862784; 14759595957603747840;
   15629886784764430336; 16516920363702964224; 17422241585731166208;
   18347548093616463872; 19294714246602788864; 20265819725292945408;
   21263183918842335232; 22289407577085243392; 23347423671542181888;
   24440560042528653312; 25572617290405310464; 26747966611833827328;
   27971674063185145856; 29249660330515173376; 30588908944945000448;
   31997741738730881024; 33486189434148524032; 35066499762404098048;
   36753849332779192320; 38567365939524001792; 40531639450585874432;
   42679031418590240768; 45053350700638978048; 47715996328766390272;
   50756867729459134464; 54315312289337958400; 58624745660900876288;
   64122702906348298240; 71791413020114722816; 84764999863455252480;
   84764999863455252480].
Definition POINT_LEN_FP : Z := Z.quot FixedPoint_ONE (Z.of_nat (length POINTS) - 1).

(** [price_adjustment_function]: the segment the usage falls on, linear
    interpolation between its end points, divided by [a]. *)
Definition price_adjustment_bucket (usage : FixedPoint) : Z :=
  Z.max 0 (Z.min (Z.of_nat (length POINTS) - 2) (Z.quot usage POINT_LEN_FP)).
Definition price_adjustment_function (usage a : FixedPoint) : FixedPoint :=
  let bucket := price_adjustment_bucket usage in
  let b := nth (Z.to_nat bucket) POINTS 0 in
  let c := nth (Z.to_nat bucket + 1) POINTS 0 in
  let frac := from_u128_div (Z.max 0 (usage - bucket * POINT_LEN_FP)) POINT_LEN_FP in
  FixedPoint_div
    (FixedPoint_add (FixedPoint_mul b (FixedPoint_sub FixedPoint_ONE frac))
                    (FixedPoint_mul c frac)) a.

Definition MIN_COST : FixedPoint := 100.

(** [FeePrices::update_from_fullness].  [dimensions] is the array of the four
    factors, in the code's order: read, compute, block usage, write. *)
Definition update_from_fullness (self : FeePrices) (detailed : NormalizedCost)
    (overall min_ratio a : FixedPoint) : FeePrices :=
  let multiplier frac := FixedPoint_add (price_adjustment_function frac a) FixedPoint_ONE in
  let overall_price := FixedPoint_mul (overall_price self) (multiplier overall) in
  let d0 := FixedPoint_mul (read_factor self) (multiplier (nc_read_time detailed)) in
  let d1 := FixedPoint_mul (compute_factor self) (multiplier (nc_compute_time detailed)) in
  let d2 := FixedPoint_mul (block_usage_factor self) (multiplier (nc_block_usage detailed)) in
  let d3 := FixedPoint_mul (write_factor self)
      (multiplier (Z.max (nc_bytes_written detailed) (nc_bytes_churned detailed))) in
  let most_expensive_dimension := Z.max (Z.max (Z.max d0 d1) d2) d3 in
  let floor d := Z.max d (FixedPoint_mul most_expensive_dimension min_ratio) in
  let '(d0, d1, d2, d3) := (floor d0, floor d1, floor d2, floor d3) in
  let overall_price := Z.max overall_price MIN_COST in
  let factor_mean :=
    FixedPoint_div
      (FixedPoint_add (FixedPoint_add (FixedPoint_add (FixedPoint_add 0 d0) d1) d2) d3)
      (from_u64_div 4 1) in
  {| overall_price := overall_price;
     read_factor := FixedPoint_div d0 factor_mean;
     compute_factor := FixedPoint_div d1 factor_mean;
     block_usage_factor := FixedPoint_div d2 factor_mean;
     write_factor := FixedPoint_div d3 factor_mean |}.

(** [FeePrices::overall_cost]. *)
Definition overall_cost (self : FeePrices) (tx : NormalizedCost) : FixedPoint :=
  let read_cost := FixedPoint_mul (read_factor self) (nc_read_time tx) in
  let compute_cost := FixedPoint_mul (compute_factor self) (nc_compute_time tx) in
  let block_usage_cost := FixedPoint_mul (block_usage_factor self) (nc_block_usage tx) in
  let write_cost := FixedPoint_mul (write_factor self) (nc_bytes_written tx) in
  let churn_cost := FixedPoint_mul (write_factor self) (nc_bytes_churned tx) in
  let utilization_cost := Z.max read_cost (Z.max compute_cost block_usage_cost) in
  FixedPoint_mul (overall_price self)
    (FixedPoint_add (FixedPoint_add utilization_cost write_cost) churn_cost).

(** ** Fixed-point lemmas *)

Lemma FixedPoint_ONE_eq : FixedPoint_ONE = 2 ^ 64.
Proof. reflexivity. Qed.

(** With [a < b * 2^63] the quotient fits [i128]: no truncation. *)
Lemma from_u64_div_ceil a b :
  0 < b <= u64_max -> 0 <= a -> a < b * 2 ^ 63 -> from_u64_div a b = div_ceil (a * 2 ^ 64) b.
Proof.
  unfold u64_max. intros Hb Ha Hab. unfold from_u64_div.
  destruct (Z.eqb_spec b 0); [lia|].
  rewrite Z.shiftl_mul_pow2 by lia. apply wrap_i128_id.
  unfold is_i128, i128_min, i128_max. split.
  - unfold div_ceil. pose proof (Z.div_pos (a * 2 ^ 64 + b - 1) b). lia.
  - apply div_ceil_spec; nia.
Qed.

Lemma from_u64_div_le_ONE a b :
  0 < b <= u64_max -> 0 <= a -> a < b * 2 ^ 63 ->
  from_u64_div a b <= FixedPoint_ONE <-> a <= b.
Proof.
  intros. rewrite from_u64_div_ceil, FixedPoint_ONE_eq by done.
  rewrite div_ceil_spec by lia. nia.
Qed.

(** [from_u128_div] rounds up as well, when the quotient fits. *)
Lemma from_u128_div_ceil a b :
  0 < b -> 0 <= a -> div_ceil (a * 2 ^ 64) b <= i128_max ->
  from_u128_div a b = div_ceil (a * 2 ^ 64) b.
Proof.
  intros Hb Ha Hfit. unfold from_u128_div. destruct (Z.eqb_spec b 0); [lia|].
  set (x := a * 2 ^ 64) in *. assert (Hx : 0 <= x) by (subst x; lia).
  rewrite Z.rem_mod_nonneg, Z.quot_div_nonneg by lia.
  assert (Hc : (if x mod b =? 0 then 0 else 1) + x / b = div_ceil x b).
  { unfold div_ceil. pose proof (Z.div_mod x b ltac:(lia)) as Hdm.
    pose proof (Z.mod_pos_bound x b Hb).
    destruct (Z.eqb_spec (x mod b) 0) as [E|E].
    - rewrite <- (Z.div_unique_pos (x + b - 1) b (x / b) (b - 1)); lia.
    - rewrite <- (Z.div_unique_pos (x + b - 1) b (x / b + 1) (x mod b - 1)); lia. }
  rewrite Hc. unfold i128_max, u128_max in *.
  destruct (Z.ltb_spec (2 ^ 128 - 1) (div_ceil x b)); [lia|].
  apply wrap_i128_id. unfold is_i128, i128_min, i128_max. split; [|lia].
  unfold div_ceil. pose proof (Z.div_pos (x + b - 1) b). lia.
Qed.

Lemma FixedPoint_mul_floor a b :
  is_i128 a -> 0 <= b <= 2 ^ 64 -> FixedPoint_mul a b = (a * b) / 2 ^ 64.
Proof.
  unfold FixedPoint_mul, is_i128, i128_min, i128_max. intros Ha Hb.
  rewrite Z.shiftr_div_pow2 by lia.
  assert (- 2 ^ 127 <= a * b / 2 ^ 64 <= 2 ^ 127 - 1).
  { split; [apply Z.div_le_lower_bound|apply Z.lt_succ_r, Z.div_lt_upper_bound]; nia. }
  rewrite Z.min_r by lia. apply wrap_i128_id.
  unfold is_i128, i128_min, i128_max. lia.
Qed.

Lemma FixedPoint_mul_nonneg a b :
  0 <= a -> 0 <= b -> FixedPoint_mul a b = Z.min i128_max (a * b / 2 ^ 64).
Proof.
  unfold FixedPoint_mul. intros. rewrite Z.shiftr_div_pow2 by lia.
  apply wrap_i128_id. unfold is_i128, i128_min, i128_max.
  pose proof (Z.div_pos (a * b) (2 ^ 64)). nia.
Qed.

Lemma FixedPoint_mul_mono a b b' :
  0 <= a -> 0 <= b <= b' -> FixedPoint_mul a b <= FixedPoint_mul a b'.
Proof.
  intros Ha Hb. rewrite !FixedPoint_mul_nonneg by lia.
  apply Z.min_le_compat_l, Z.div_le_mono; nia.
Qed.
Lemma FixedPoint_mul_pos a b : 0 <= a -> 0 <= b -> 0 <= FixedPoint_mul a b <= i128_max.
Proof.
  intros. rewrite FixedPoint_mul_nonneg by done.
  pose proof (Z.div_pos (a * b) (2 ^ 64)). unfold i128_max in *. nia.
Qed.
Lemma FixedPoint_add_mono a b a' b' :
  a <= a' -> b <= b' -> FixedPoint_add a b <= FixedPoint_add a' b'.
Proof. unfold FixedPoint_add, sat_i128. lia. Qed.
Lemma FixedPoint_add_pos a b :
  0 <= a -> 0 <= b -> 0 <= FixedPoint_add a b.
Proof. unfold FixedPoint_add, sat_i128, i128_max. lia. Qed.
#[export] Hint Resolve FixedPoint_mul_mono FixedPoint_mul_pos FixedPoint_add_mono
  FixedPoint_add_pos : ints.

(** ** Interpolation *)

(** Every table entry lies within the two extreme points. *)
Definition points_bound : Z := 84764999863455367168.
Lemma POINTS_bound i :
  - points_bound <= nth i POINTS 0 <= points_bound.
Proof.
  assert (Hall : Forall (fun p => - points_bound <= p <= points_bound) POINTS).
  { apply (bool_decide_unpack _). vm_compute. exact I. }
  destruct (nth_in_or_default i POINTS 0) as [Hin| ->]; [|unfold points_bound; lia].
  rewrite List.Forall_forall in Hall. by apply Hall.
Qed.

(** The position within the segment is a fraction of it. *)
Lemma frac_range usage :
  0 <= usage <= FixedPoint_ONE ->
  let d := Z.max 0 (usage - price_adjustment_bucket usage * POINT_LEN_FP) in
  0 <= d <= POINT_LEN_FP + 16.
Proof.
  rewrite FixedPoint_ONE_eq. unfold price_adjustment_bucket.
  change POINT_LEN_FP with 184467440737095516.
  change (Z.of_nat (length POINTS) - 2) with 99.
  intros Hu. rewrite Z.quot_div_nonneg by lia.
  pose proof (Z.div_mod usage 184467440737095516 ltac:(lia)).
  pose proof (Z.mod_pos_bound usage 184467440737095516 ltac:(lia)).
  pose proof (Z.div_pos usage 184467440737095516). lia.
Qed.


Lemma frac_le_ONE usage :
  0 <= usage <= FixedPoint_ONE ->
  0 <= from_u128_div (Z.max 0 (usage - price_adjustment_bucket usage * POINT_LEN_FP))
         POINT_LEN_FP <= FixedPoint_ONE + 1601.
Proof.
  intros Hu%frac_range. cbv zeta in Hu.
  revert Hu. generalize (Z.max 0 (usage - price_adjustment_bucket usage * POINT_LEN_FP)).
  rewrite FixedPoint_ONE_eq. change POINT_LEN_FP with 184467440737095516.
  intros d Hd.
  assert (Hc : div_ceil (d * 2 ^ 64) 184467440737095516 <= 2 ^ 64 + 1601)
    by (apply div_ceil_spec; lia).
  rewrite from_u128_div_ceil by (unfold i128_max; lia).
  split; [|done]. unfold div_ceil. apply Z.div_pos; lia.
Qed.

(** The product of two numbers that are far from the [i128] limits. *)
Lemma FixedPoint_mul_small a b :
  Z.abs a <= 2 ^ 100 -> Z.abs b <= 2 ^ 66 -> FixedPoint_mul a b = (a * b) / 2 ^ 64.
Proof.
  intros Ha Hb. unfold FixedPoint_mul. rewrite Z.shiftr_div_pow2 by lia.
  assert (- 2 ^ 127 <= a * b / 2 ^ 64 <= 2 ^ 127 - 1).
  { split; [apply Z.div_le_lower_bound|apply Z.lt_succ_r, Z.div_lt_upper_bound]; nia. }
  unfold i128_max. rewrite Z.min_r by lia. apply wrap_i128_id.
  unfold is_i128, i128_min, i128_max. lia.
Qed.

Lemma interpolation_bound b c frac :
  - points_bound <= b <= points_bound -> - points_bound <= c <= points_bound ->
  0 <= frac <= FixedPoint_ONE + 1601 ->
  Z.abs (FixedPoint_add (FixedPoint_mul b (FixedPoint_sub FixedPoint_ONE frac))
           (FixedPoint_mul c frac)) <= points_bound + 20000.
Proof.
  rewrite FixedPoint_ONE_eq. unfold points_bound. intros Hb Hc Hf.
  assert (Hs : FixedPoint_sub (2 ^ 64) frac = 2 ^ 64 - frac)
    by (unfold FixedPoint_sub, sat_i128, i128_min, i128_max; lia).
  rewrite Hs, !FixedPoint_mul_small by lia.
  assert (Hx : Z.abs (b * (2 ^ 64 - frac) + c * frac)
               <= 84764999863455367168 * (2 ^ 64 + 3202)) by nia.
  pose proof (Z.div_mod (b * (2 ^ 64 - frac)) (2 ^ 64) ltac:(lia)).
  pose proof (Z.mod_pos_bound (b * (2 ^ 64 - frac)) (2 ^ 64) ltac:(lia)).
  pose proof (Z.div_mod (c * frac) (2 ^ 64) ltac:(lia)).
  pose proof (Z.mod_pos_bound (c * frac) (2 ^ 64) ltac:(lia)).
  unfold FixedPoint_add, sat_i128, i128_min, i128_max. lia.
Qed.

(** Division of a bounded number by a parameter of at least 100.0. *)
Lemma FixedPoint_div_bound x a :
  Z.abs x <= points_bound + 20000 -> 100 * FixedPoint_ONE <= a ->
  Z.abs (FixedPoint_div x a) <= FixedPoint_ONE / 20.
Proof.
  rewrite FixedPoint_ONE_eq. unfold points_bound, FixedPoint_div. intros Hx Ha.
  destruct (Z.eqb_spec a 0); [lia|].
  rewrite (Z.sgn_pos a), (Z.abs_eq a), Z.mul_1_r by lia.
  assert (Hc : div_ceil (Z.abs x * 2 ^ 64) a <= 2 ^ 64 / 20).
  { change (2 ^ 64 / 20) with 922337203685477580. apply div_ceil_spec; nia. }
  assert (0 <= div_ceil (Z.abs x * 2 ^ 64) a) by (apply Z.div_pos; lia).
  change (2 ^ 64 / 20) with 922337203685477580 in *.
  rewrite from_u128_div_ceil by (unfold i128_max; lia).
  rewrite wrap_i128_id by (unfold is_i128, i128_min, i128_max; nia). nia.
Qed.

Lemma price_adjustment_bound usage a :
  0 <= usage <= FixedPoint_ONE -> 100 * FixedPoint_ONE <= a ->
  Z.abs (price_adjustment_function usage a) <= FixedPoint_ONE / 20.
Proof.
  intros Hu Ha. unfold price_adjustment_function. apply FixedPoint_div_bound; [|done].
  apply interpolation_bound; auto using POINTS_bound, frac_le_ONE.
Qed.

(** The block-to-block price multiplier stays within five percent of one. *)
Lemma multiplier_bound usage a :
  0 <= usage <= FixedPoint_ONE -> 100 * FixedPoint_ONE <= a ->
  19 * FixedPoint_ONE <=
    20 * FixedPoint_add (price_adjustment_function usage a) FixedPoint_ONE
    <= 21 * FixedPoint_ONE.
Proof.
  intros Hu Ha. pose proof (price_adjustment_bound usage a Hu Ha) as H.
  rewrite FixedPoint_ONE_eq in *. change (2 ^ 64 / 20) with 922337203685477580 in H.
  unfold FixedPoint_add, sat_i128, i128_min, i128_max. lia.
Qed.

(** A price below [2^100] (about 6.9e10 DUST) times a multiplier within five
    percent of one. *)
Lemma price_step p m :
  2 <= p <= 2 ^ 100 -> 19 * FixedPoint_ONE <= 20 * m <= 21 * FixedPoint_ONE ->
  19 * p - 20 <= 20 * FixedPoint_mul p m <= 21 * p /\ 1 <= FixedPoint_mul p m.
Proof.
  rewrite FixedPoint_ONE_eq. intros Hp Hm. rewrite FixedPoint_mul_small by lia.
  pose proof (Z.div_mod (p * m) (2 ^ 64) ltac:(lia)).
  pose proof (Z.mod_pos_bound (p * m) (2 ^ 64) ltac:(lia)).
  assert (19 * 2 ^ 64 * p <= 20 * (p * m) <= 21 * 2 ^ 64 * p) by nia. lia.
Qed.

(** Dividing by the mean: positive, and within a rounding step of the exact
    quotient. *)
Lemma div_by_mean d mean :
  1 <= d -> 1 <= mean -> d <= 4 * mean -> mean <= 2 ^ 103 ->
  1 <= FixedPoint_div d mean /\
  (FixedPoint_div d mean - 1) * mean < d * FixedPoint_ONE /\
  d * FixedPoint_ONE <= FixedPoint_div d mean * mean.
Proof.
  rewrite FixedPoint_ONE_eq. intros Hd Hm Hdm Hub. unfold FixedPoint_div.
  destruct (Z.eqb_spec mean 0); [lia|].
  rewrite !Z.sgn_pos, !Z.abs_eq, !Z.mul_1_r by lia.
  assert (Hc : div_ceil (d * 2 ^ 64) mean <= 4 * 2 ^ 64) by (apply div_ceil_spec; nia).
  pose proof (div_ceil_ub (d * 2 ^ 64) mean ltac:(lia)).
  pose proof (div_ceil_lb (d * 2 ^ 64) mean ltac:(lia)).
  assert (1 <= div_ceil (d * 2 ^ 64) mean) by nia.
  rewrite from_u128_div_ceil, wrap_i128_id
    by (unfold is_i128, i128_min, i128_max; lia). lia.
Qed.

(** ** Cost arithmetic *)

Definition RunningCost_wf (c : RunningCost) : Prop :=
  is_u64 (rc_read_time c) /\ is_u64 (rc_compute_time c) /\
  is_u64 (rc_bytes_written c) /\ is_u64 (rc_bytes_deleted c).

(** Pointwise order of running costs. *)
Definition RunningCost_le (a b : RunningCost) : Prop :=
  rc_read_time a <= rc_read_time b /\ rc_compute_time a <= rc_compute_time b /\
  rc_bytes_written a <= rc_bytes_written b /\ rc_bytes_deleted a <= rc_bytes_deleted b.
#[global] Instance RunningCost_le_preorder : PreOrder RunningCost_le.
Proof. split; red; unfold RunningCost_le; intuition lia. Qed.

Lemma RunningCost_ZERO_wf : RunningCost_wf RunningCost_ZERO.
Proof. unfold RunningCost_wf, RunningCost_ZERO; simpl; ints. Qed.
Lemma RunningCost_add_wf a b :
  RunningCost_wf a -> RunningCost_wf b -> RunningCost_wf (RunningCost_add a b).
Proof.
  unfold RunningCost_wf, RunningCost_add, CostDuration_add; simpl.
  intuition auto with ints.
Qed.
Lemma RunningCost_mul_wf a n :
  RunningCost_wf a -> 0 <= n -> RunningCost_wf (RunningCost_mul a n).
Proof.
  unfold RunningCost_wf, RunningCost_mul, CostDuration_mul; simpl.
  intuition auto with ints.
Qed.
Lemma RunningCost_le_add a b :
  RunningCost_wf a -> RunningCost_wf b -> RunningCost_le a (RunningCost_add a b).
Proof.
  unfold RunningCost_wf, RunningCost_le, RunningCost_add, CostDuration_add; simpl.
  autounfold with ints. intuition lia.
Qed.
#[export] Hint Resolve RunningCost_ZERO_wf RunningCost_add_wf RunningCost_mul_wf
  RunningCost_le_add : ints.

Definition SyntheticCost_wf (c : SyntheticCost) : Prop :=
  is_u64 (sc_read_time c) /\ is_u64 (sc_compute_time c) /\ is_u64 (sc_block_usage c) /\
  is_u64 (sc_bytes_written c) /\ is_u64 (sc_bytes_churned c).
(** Block limits of at least 2 in each dimension. *)
Definition limits_wf (c : SyntheticCost) : Prop :=
  SyntheticCost_wf c /\ 2 <= sc_read_time c /\ 2 <= sc_compute_time c /\
  2 <= sc_block_usage c /\ 2 <= sc_bytes_written c /\ 2 <= sc_bytes_churned c.
Definition within_limits (c l : SyntheticCost) : Prop :=
  sc_read_time c <= sc_read_time l /\ sc_compute_time c <= sc_compute_time l /\
  sc_block_usage c <= sc_block_usage l /\ sc_bytes_written c <= sc_bytes_written l /\
  sc_bytes_churned c <= sc_bytes_churned l.

Lemma dim_within a b :
  is_u64 a -> is_u64 b -> 2 <= b -> (FixedPoint_ONE <? from_u64_div a b) = false <-> a <= b.
Proof.
  intros Ha Hb H2. rewrite Z.ltb_ge. apply from_u64_div_le_ONE; ints.
Qed.

(** A block cost normalises exactly when it stays within the block limits
    in every dimension, provided every limit is at least 2. *)
Theorem normalize_within_limits (c l : SyntheticCost) :
  SyntheticCost_wf c -> limits_wf l ->
  (exists n, normalize c l = Some n) <-> within_limits c l.
Proof.
  unfold SyntheticCost_wf, limits_wf, within_limits.
  intros (?&?&?&?&?) ((?&?&?&?&?)&?&?&?&?&?).
  rewrite <- !dim_within by done.
  assert (Hif : forall (b : bool) (r : NormalizedCost),
    (exists n, (if b then None else Some r) = Some n) <-> b = false).
  { intros [] r; split; intros H'; [destruct H' as [? ?]; congruence|congruence|done|eauto]. }
  unfold normalize, CostDuration_div. rewrite Hif. simpl.
  rewrite !orb_false_iff. tauto.
Qed.
Lemma normalize_within_limits_witness :
  (exists n, normalize (mkSyntheticCost 5 7 1 0 2) (mkSyntheticCost 10 7 4 2 2) = Some n)
  <-> within_limits (mkSyntheticCost 5 7 1 0 2) (mkSyntheticCost 10 7 4 2 2).
Proof.
  apply normalize_within_limits; unfold limits_wf, SyntheticCost_wf; simpl;
    repeat split; vm_compute; congruence.
Defined.

(** With a block limit of 1 the cast of the quotient to [i128] wraps to a
    negative fraction, and a cost of [2^63] against a limit of 1 is accepted. *)
Theorem normalize_accepts_overflow :
  exists c l n, SyntheticCost_wf c /\ SyntheticCost_wf l /\ 0 < sc_bytes_written l /\
    ~ within_limits c l /\ normalize c l = Some n.
Proof.
  exists (mkSyntheticCost 0 0 0 (2 ^ 63) 0), (mkSyntheticCost 5 5 5 1 5).
  eexists. unfold SyntheticCost_wf, within_limits; simpl.
  repeat split; try (vm_compute; congruence); try lia.
Qed.

(** ** Fee pricing *)

(** The prices for which no intermediate product saturates. *)
Definition prices_wf (p : FeePrices) : Prop :=
  2 <= overall_price p <= 2 ^ 100 /\ 2 <= read_factor p <= 2 ^ 100 /\
  2 <= compute_factor p <= 2 ^ 100 /\ 2 <= block_usage_factor p <= 2 ^ 100 /\
  2 <= write_factor p <= 2 ^ 100.
Definition in_unit (x : FixedPoint) : Prop := 0 <= x <= FixedPoint_ONE.

(** The floor applied to every dimension keeps it between 1 and the maximum. *)
Lemma floor_range d m min_ratio :
  1 <= d <= m -> m <= 2 ^ 101 -> in_unit min_ratio ->
  1 <= Z.max d (FixedPoint_mul m min_ratio) <= m.
Proof.
  unfold in_unit. rewrite FixedPoint_ONE_eq. intros Hd Hm Hr.
  rewrite FixedPoint_mul_nonneg by lia.
  assert (m * min_ratio / 2 ^ 64 <= m) by (apply Z.div_le_upper_bound; nia).
  lia.
Qed.

Lemma mean_eq s :
  0 <= s <= 2 ^ 110 -> FixedPoint_div s (from_u64_div 4 1) = div_ceil s 4.
Proof.
  intros Hs. change (from_u64_div 4 1) with (4 * 2 ^ 64). unfold FixedPoint_div.
  destruct (Z.eqb_spec (4 * 2 ^ 64) 0); [lia|].
  assert (Hc : div_ceil (s * 2 ^ 64) (4 * 2 ^ 64) = div_ceil s 4).
  { apply Z.le_antisymm; apply div_ceil_spec; try lia.
    - pose proof (div_ceil_ub s 4). nia.
    - pose proof (div_ceil_ub (s * 2 ^ 64) (4 * 2 ^ 64)). nia. }
  assert (0 <= div_ceil s 4) by (apply Z.div_pos; lia).
  assert (div_ceil s 4 <= 2 ^ 110) by (apply div_ceil_spec; lia).
  destruct (Z.eq_dec s 0) as [->|]; [reflexivity|].
  rewrite !Z.abs_eq, !Z.sgn_pos, from_u128_div_ceil, Hc
    by (unfold i128_max in *; lia).
  rewrite !Z.mul_1_r. apply wrap_i128_id. unfold is_i128, i128_min, i128_max. lia.
Qed.

(** The normalisation of four dimensions by their mean. *)
Lemma normalised_factors d0 d1 d2 d3 mean :
  1 <= d0 <= 2 ^ 101 -> 1 <= d1 <= 2 ^ 101 -> 1 <= d2 <= 2 ^ 101 -> 1 <= d3 <= 2 ^ 101 ->
  mean = div_ceil (d0 + d1 + d2 + d3) 4 ->
  let f d := FixedPoint_div d mean in
  1 <= f d0 /\ 1 <= f d1 /\ 1 <= f d2 /\ 1 <= f d3 /\
  f d0 + f d1 + f d2 + f d3 <= 4 * FixedPoint_ONE + 4.
Proof.
  intros H0 H1 H2 H3 ->. cbv zeta. set (s := d0 + d1 + d2 + d3).
  pose proof (div_ceil_ub s 4 ltac:(lia)) as Hub.
  pose proof (div_ceil_lb s 4 ltac:(lia)) as Hlb.
  set (m := div_ceil s 4) in *.
  destruct (div_by_mean d0 m) as (?&?&?); [lia..|].
  destruct (div_by_mean d1 m) as (?&?&?); [lia..|].
  destruct (div_by_mean d2 m) as (?&?&?); [lia..|].
  destruct (div_by_mean d3 m) as (?&?&?); [lia..|].
  rewrite FixedPoint_ONE_eq in *. repeat split; try lia.
  enough (FixedPoint_div d0 m + FixedPoint_div d1 m + FixedPoint_div d2 m
           + FixedPoint_div d3 m - 4 < 4 * 2 ^ 64) by lia.
  apply (Zmult_lt_reg_r _ _ m); [lia|]. lia.
Qed.

Lemma sum4_eq d0 d1 d2 d3 :
  1 <= d0 <= 2 ^ 101 -> 1 <= d1 <= 2 ^ 101 -> 1 <= d2 <= 2 ^ 101 -> 1 <= d3 <= 2 ^ 101 ->
  FixedPoint_add (FixedPoint_add (FixedPoint_add (FixedPoint_add 0 d0) d1) d2) d3
  = d0 + d1 + d2 + d3.
Proof. intros. unfold FixedPoint_add, sat_i128, i128_min, i128_max. lia. Qed.

(** One block's price update, from prices below [2^100] and a block between
    empty and full, with adjustment parameter [a >= 100.0] and
    [0 <= min_ratio <= 1]: the overall price moves by at most five percent and
    never falls below [MIN_COST]; every price factor stays positive and the
    factors still average (at most) one, up to rounding. *)
Theorem update_from_fullness_bounded (p : FeePrices) (n : NormalizedCost)
    (overall min_ratio a : FixedPoint) :
  prices_wf p -> Forall in_unit (overall :: min_ratio :: nc_values n) ->
  100 * FixedPoint_ONE <= a ->
  let p' := update_from_fullness p n overall min_ratio a in
  MIN_COST <= overall_price p' /\
  Z.max (20 * MIN_COST) (19 * overall_price p - 20) <= 20 * overall_price p' /\
  20 * overall_price p' <= Z.max (20 * MIN_COST) (21 * overall_price p) /\
  1 <= read_factor p' /\ 1 <= compute_factor p' /\ 1 <= block_usage_factor p' /\
  1 <= write_factor p' /\
  read_factor p' + compute_factor p' + block_usage_factor p' + write_factor p'
    <= 4 * FixedPoint_ONE + 4.
Proof.
  intros (Hp&Hr&Hc&Hb&Hw) Hu Ha. cbv zeta.
  unfold nc_values in Hu. rewrite !Forall_cons_iff in Hu.
  destruct Hu as (Huo & Hum & Hu0 & Hu1 & Hu2 & Hu3 & Hu4 & _).
  assert (Hstep : forall x u, 2 <= x <= 2 ^ 100 -> in_unit u ->
    let y := FixedPoint_mul x (FixedPoint_add (price_adjustment_function u a) FixedPoint_ONE) in
    (19 * x - 20 <= 20 * y <= 21 * x) /\ 1 <= y)
    by (intros; apply price_step; auto using multiplier_bound).
  unfold update_from_fullness. simpl.
  destruct (Hstep _ overall Hp Huo) as [Ho _].
  destruct (Hstep _ (nc_read_time n) Hr Hu0) as [H0 H0'].
  destruct (Hstep _ (nc_compute_time n) Hc Hu1) as [H1 H1'].
  destruct (Hstep _ (nc_block_usage n) Hb Hu2) as [H2 H2'].
  destruct (Hstep _ (Z.max (nc_bytes_written n) (nc_bytes_churned n)) Hw) as [H3 H3'];
    [unfold in_unit in *; lia|].
  clear Hstep.
  generalize dependent (FixedPoint_mul (read_factor p)
    (FixedPoint_add (price_adjustment_function (nc_read_time n) a) FixedPoint_ONE)).
  generalize dependent (FixedPoint_mul (compute_factor p)
    (FixedPoint_add (price_adjustment_function (nc_compute_time n) a) FixedPoint_ONE)).
  generalize dependent (FixedPoint_mul (block_usage_factor p)
    (FixedPoint_add (price_adjustment_function (nc_block_usage n) a) FixedPoint_ONE)).
  generalize dependent (FixedPoint_mul (write_factor p)
    (FixedPoint_add (price_adjustment_function
       (Z.max (nc_bytes_written n) (nc_bytes_churned n)) a) FixedPoint_ONE)).
  intros d3 Hd3 Hd3' d2 Hd2 Hd2' d1 Hd1 Hd1' d0 Hd0 Hd0'.
  set (m := Z.max (Z.max (Z.max d0 d1) d2) d3).
  assert (m <= 2 ^ 101) by lia.
  pose proof (floor_range d0 m min_ratio ltac:(lia) ltac:(lia) Hum).
  pose proof (floor_range d1 m min_ratio ltac:(lia) ltac:(lia) Hum).
  pose proof (floor_range d2 m min_ratio ltac:(lia) ltac:(lia) Hum).
  pose proof (floor_range d3 m min_ratio ltac:(lia) ltac:(lia) Hum).
  rewrite sum4_eq, mean_eq by lia.
  pose proof (normalised_factors
    (Z.max d0 (FixedPoint_mul m min_ratio)) (Z.max d1 (FixedPoint_mul m min_ratio))
    (Z.max d2 (FixedPoint_mul m min_ratio)) (Z.max d3 (FixedPoint_mul m min_ratio)) _
    ltac:(lia) ltac:(lia) ltac:(lia) ltac:(lia) eq_refl) as (?&?&?&?&?).
  unfold MIN_COST. split_and!; first [assumption | lia].
Qed.
Lemma update_from_fullness_bounded_witness :
  MIN_COST <= overall_price (update_from_fullness
    (mkFeePrices (2 ^ 64) (2 ^ 64) (2 ^ 64) (2 ^ 64) (2 ^ 64)) NormalizedCost_ZERO
    0 (2 ^ 62) (100 * 2 ^ 64)).
Proof.
  apply (update_from_fullness_bounded (mkFeePrices (2 ^ 64) (2 ^ 64) (2 ^ 64) (2 ^ 64) (2 ^ 64))
    NormalizedCost_ZERO 0 (2 ^ 62) (100 * 2 ^ 64)).
  - unfold prices_wf; simpl; lia.
  - rewrite Forall_forall; simpl; unfold in_unit; rewrite FixedPoint_ONE_eq.
    intros x Hx. set_unfold in Hx. lia.
  - rewrite FixedPoint_ONE_eq; lia.
Defined.

(** Pointwise order of normalised costs. *)
Definition nc_le (a b : NormalizedCost) : Prop := Forall2 Z.le (nc_values a) (nc_values b).

(** Fees are monotone: with non-negative prices, a transaction that uses at
    least as much of every dimension never pays less. *)
Theorem overall_cost_monotone (p : FeePrices) (a b : NormalizedCost) :
  0 <= overall_price p -> 0 <= read_factor p -> 0 <= compute_factor p ->
  0 <= block_usage_factor p -> 0 <= write_factor p ->
  Forall (fun x => 0 <= x) (nc_values a) -> nc_le a b ->
  overall_cost p a <= overall_cost p b.
Proof.
  intros ????? Ha Hab. unfold nc_le, nc_values in *.
  rewrite !Forall_cons_iff in Ha. rewrite !Forall2_cons_iff in Hab.
  destruct Ha as (?&?&?&?&?&_), Hab as (?&?&?&?&?&_).
  assert (Hm : forall f x y, 0 <= f -> 0 <= x -> x <= y ->
    0 <= FixedPoint_mul f x <= FixedPoint_mul f y).
  { intros. split; [apply FixedPoint_mul_pos|apply FixedPoint_mul_mono]; lia. }
  unfold overall_cost.
  apply Hm; [done| |].
  - repeat apply FixedPoint_add_pos; try apply FixedPoint_mul_pos; try lia.
    apply Z.max_le_iff. left. by apply FixedPoint_mul_pos.
  - repeat apply FixedPoint_add_mono; try apply FixedPoint_mul_mono; try lia.
    repeat apply Z.max_le_compat; apply FixedPoint_mul_mono; lia.
Qed.
Lemma overall_cost_monotone_witness :
  overall_cost (mkFeePrices 8 (2 ^ 64) (2 ^ 64) (2 ^ 64) (2 ^ 64)) NormalizedCost_ZERO <=
  overall_cost (mkFeePrices 8 (2 ^ 64) (2 ^ 64) (2 ^ 64) (2 ^ 64))
    (mkNormalizedCost 1 2 3 4 (2 ^ 63)).
Proof.
  apply overall_cost_monotone; simpl; try lia.
  - apply (bool_decide_unpack _). vm_compute. exact I.
  - unfold nc_le. apply (bool_decide_unpack _). vm_compute. exact I.
Defined.

(** [into_atomic_units] rounds up to the next atomic unit, returns zero for
    negative prices and caps at [u128::MAX]. *)
Theorem into_atomic_units_spec (x : FixedPoint) (base_unit : Z) :
  is_i128 x -> is_u128 base_unit ->
  into_atomic_units x base_unit
  = Z.max 0 (Z.min u128_max (div_ceil (x * base_unit) (2 ^ 64))).
Proof.
  intros Hx Hb. unfold into_atomic_units.
  set (raw := x * base_unit).
  assert (Hc : (if Z.rem raw (2 ^ 64) <=? 0 then 0 else 1) + Z.quot raw (2 ^ 64)
               = div_ceil raw (2 ^ 64)).
  { unfold div_ceil. pose proof (Z.quot_rem raw (2 ^ 64) ltac:(lia)).
    destruct (Z.leb_spec (Z.rem raw (2 ^ 64)) 0).
    - assert (Hrem : - 2 ^ 64 < Z.rem raw (2 ^ 64) <= 0).
      { pose proof (Z.rem_bound_abs raw (2 ^ 64) ltac:(lia)). lia. }
      apply (Z.div_unique_pos _ _ _ (2 ^ 64 - 1 + Z.rem raw (2 ^ 64))); lia.
    - assert (0 <= raw) by (destruct (Z.le_gt_cases 0 raw); [done|];
        pose proof (Z.rem_nonpos raw (2 ^ 64)); lia).
      pose proof (Z.rem_bound_pos raw (2 ^ 64) ltac:(lia) ltac:(lia)).
      apply (Z.div_unique_pos _ _ _ (Z.rem raw (2 ^ 64) - 1)); lia. }
  rewrite Hc. destruct (Z.ltb_spec (div_ceil raw (2 ^ 64)) 0).
  - unfold u128_max. lia.
  - destruct (Z.ltb_spec u128_max (div_ceil raw (2 ^ 64))); unfold u128_max in *; lia.
Qed.
Lemma into_atomic_units_spec_witness :
  into_atomic_units (2 ^ 63 + 1) 1000
  = Z.max 0 (Z.min u128_max (div_ceil ((2 ^ 63 + 1) * 1000) (2 ^ 64))).
Proof. apply into_atomic_units_spec; ints. Defined.

(** [Div] is documented as rounding up and multiplication/addition as
    saturating, but a quotient in [2^127, 2^128) is cast to a negative number:
    dividing two positive prices can give a negative one. *)
Theorem FixedPoint_div_wraps :
  exists a b, is_i128 a /\ is_i128 b /\ 0 < a /\ 0 < b /\ FixedPoint_div a b < 0.
Proof.
  exists (2 ^ 100), (2 ^ 37). unfold is_i128, i128_min, i128_max.
  repeat split; try lia; vm_compute; congruence.
Qed.
