(* ===== verification/DeltaTracking.v ===== *)
(** * Write and delete costing ([storage/src/delta_tracking])

    A contract pays for the storage nodes its state adds and is credited for the
    ones it frees.  An [RcMap] holds the charged nodes with their reference
    counts; [incremental_write_delete_costs] compares it with the nodes
    reachable from the new state.  The storage back end is the finite map
    [backend] of its nodes. *)
From S2P Require Import Prelude CostModel.

Abbreviation ArenaHash := (list Z).

(** [ArenaKey]: a reference into the back end, or a small node held directly. *)
Inductive ArenaKey : Type :=
| AK_Ref (h : ArenaHash)
| AK_Direct (hash : ArenaHash) (data : list Z) (children : list ArenaKey).

Fixpoint key_to_tree (k : ArenaKey) : gen_tree (list Z) :=
  match k with
  | AK_Ref h => GenLeaf h
  | AK_Direct hash data cs => GenNode 0 (GenLeaf hash :: GenLeaf data :: map key_to_tree cs)
  end.
Fixpoint key_of_tree (t : gen_tree (list Z)) : ArenaKey :=
  match t with
  | GenLeaf h => AK_Ref h
  | GenNode _ (GenLeaf hash :: GenLeaf data :: ts) => AK_Direct hash data (map key_of_tree ts)
  | GenNode _ _ => AK_Ref []
  end.
Lemma key_of_to_tree k : key_of_tree (key_to_tree k) = k.
Proof.
  revert k. fix IH 1. intros [h|hash data cs]; simpl; [done|]. f_equal.
  induction cs as [|c cs IHcs]; simpl; [done|]. by rewrite IH, IHcs.
Qed.
#[global] Instance ArenaKey_eq_dec : EqDecision ArenaKey.
Proof.
  intros k1 k2. destruct (decide (key_to_tree k1 = key_to_tree k2)) as [E|Hne].
  - left. by rewrite <- (key_of_to_tree k1), <- (key_of_to_tree k2), E.
  - right. congruence.
Defined.
#[global] Instance ArenaKey_countable : Countable ArenaKey :=
  inj_countable' key_to_tree key_of_tree key_of_to_tree.

(** [ArenaKey::refs]: the references embedded in a key; the frontier is a stack. *)
Fixpoint refs (self : ArenaKey) : list ArenaHash :=
  match self with
  | AK_Ref h => [h]
  | AK_Direct _ _ children => concat (reverse (map refs children))
  end.

Record OnDiskNode := { node_children : list ArenaKey; node_size : Z }.
Abbreviation Backend := (gmap ArenaHash OnDiskNode).

(** The references a key holds; [None] when its node cannot be loaded. *)
Definition child_refs (backend : Backend) (key : ArenaKey) : option (list ArenaHash) :=
  match key with
  | AK_Ref h => (fun n => concat (map refs (node_children n))) <$> backend !! h
  | AK_Direct _ _ _ => Some (refs key)
  end.

(** ** [RcMap] *)
Record RcMap := { rc_ge_1 : gmap ArenaHash Z; rc_0 : gset ArenaKey }.
Definition RcMap_default : RcMap := {| rc_ge_1 := ∅; rc_0 := ∅ |}.

Definition get_rc (self : RcMap) (key : ArenaKey) : option Z :=
  let zero := if bool_decide (key ∈ rc_0 self) then Some 0 else None in
  match key with
  | AK_Ref h => match rc_ge_1 self !! h with Some count => Some count | None => zero end
  | AK_Direct _ _ _ => zero
  end.
Definition rc_contains (self : RcMap) (key : ArenaKey) : bool := bool_decide (is_Some (get_rc self key)).
Definition ins_root (self : RcMap) (key : ArenaKey) : RcMap :=
  {| rc_ge_1 := rc_ge_1 self; rc_0 := {[ key ]} ∪ rc_0 self |}.
Definition rm_root (self : RcMap) (key : ArenaKey) : RcMap :=
  {| rc_ge_1 := rc_ge_1 self; rc_0 := rc_0 self ∖ {[ key ]} |}.
Definition modify_rc (self : RcMap) (key : ArenaHash) (updated : Z) : RcMap :=
  let curr := default 0 (rc_ge_1 self !! key) in
  if curr =? 0 then
    if updated =? 0 then {| rc_ge_1 := rc_ge_1 self; rc_0 := {[ AK_Ref key ]} ∪ rc_0 self |}
    else {| rc_ge_1 := <[key := updated]> (rc_ge_1 self); rc_0 := rc_0 self ∖ {[ AK_Ref key ]} |}
  else
    if updated =? 0
    then {| rc_ge_1 := delete key (rc_ge_1 self); rc_0 := {[ AK_Ref key ]} ∪ rc_0 self |}
    else {| rc_ge_1 := <[key := updated]> (rc_ge_1 self); rc_0 := rc_0 self |}.
Definition get_unreachable_keys_not_in (self : RcMap) (roots : gset ArenaKey) : list ArenaKey :=
  filter (fun key => key ∉ roots) (elements (rc_0 self)).
Definition remove_unreachable_key (self : RcMap) (key : ArenaKey) : option RcMap :=
  if bool_decide (key ∈ rc_0 self)
  then Some {| rc_ge_1 := rc_ge_1 self; rc_0 := rc_0 self ∖ {[ key ]} |} else None.

Section tracking.
Context {E : Type} (backend : Backend).

(** ** [get_writes] *)

(** The loop; the top of the stack is the head of [queue]. *)
Fixpoint get_writes_loop (fuel : nat) (rcmap : RcMap) (queue : list ArenaKey) (keys_added : gset ArenaKey)
    : outcome E (gset ArenaKey) :=
  match queue with
  | [] => Ok keys_added
  | key :: queue =>
      match fuel with
      | O => Panic
      | S fuel =>
          if negb (rc_contains rcmap key) && bool_decide (key ∉ keys_added) then
            children ← unwrap (child_refs backend key);
            get_writes_loop fuel rcmap (reverse (AK_Ref <$> children) ++ queue) ({[ key ]} ∪ keys_added)
          else get_writes_loop fuel rcmap queue keys_added
      end
  end.

(** Every round pops a key; a key pushes its references once, so the stack, the
    references of direct roots and those of all nodes bound the rounds. *)
Definition key_weight (key : ArenaKey) : nat :=
  match key with AK_Ref _ => 1 | AK_Direct _ _ _ => S (length (refs key)) end.
Definition edges (m : Backend) : nat :=
  map_fold (fun _ n acc => length (concat (map refs (node_children n))) + acc)%nat 0%nat m.
Definition get_writes (rcmap : RcMap) (roots : list ArenaKey) : outcome E (gset ArenaKey) :=
  get_writes_loop (sum_list_with key_weight roots + edges backend) rcmap (reverse roots) ∅.

(** ** [update_rcmap] *)
Definition count_child (inc : gmap ArenaKey Z) (child : ArenaHash) : gmap ArenaKey Z :=
  <[AK_Ref child := trunc u64_max (default 0 (inc !! AK_Ref child) + 1)]> inc.
Definition count_children (inc : gmap ArenaKey Z) (key : ArenaKey) : outcome E (gmap ArenaKey Z) :=
  children ← unwrap (child_refs backend key); Ok (foldl count_child inc children).
Definition apply_increment (rcmap : RcMap) (entry : ArenaKey * Z) : RcMap :=
  match entry.1 with
  | AK_Ref r => modify_rc rcmap r (trunc u64_max (default 0 (get_rc rcmap (AK_Ref r)) + entry.2))
  | AK_Direct _ _ _ => ins_root rcmap entry.1
  end.
Definition update_rcmap (rcmap : RcMap) (keys_added : gset ArenaKey) : outcome E RcMap :=
  inc_map ← try_fold count_children (gset_to_gmap 0 keys_added) (elements keys_added);
  Ok (foldl apply_increment rcmap (map_to_list inc_map)).

(** ** [gc_rcmap] *)
Record GcState := {
  gc_queue : list ArenaKey;
  gc_cache : gmap ArenaKey Z;
  gc_update : gmap ArenaKey Z;
  gc_removed : gset ArenaKey
}.
Definition gc_child (rcmap : RcMap) (roots : gset ArenaKey) (st : GcState) (r : ArenaHash) : GcState :=
  let child := AK_Ref r in
  let existing := match gc_cache st !! child with
                  | Some x => x
                  | None => default 0 (get_rc rcmap child)
                  end in
  let sub := trunc u64_max (default 0 (gc_update st !! child) + 1) in
  {| gc_queue := if (existing <=? sub) && bool_decide (child ∉ roots)
                 then child :: gc_queue st else gc_queue st;
     gc_cache := <[child := existing]> (gc_cache st);
     gc_update := <[child := sub]> (gc_update st);
     gc_removed := gc_removed st |}.
(** The first loop: at most [steps] keys, first the unreachable ones of the map,
    then the ones found on the way. *)
Fixpoint gc_loop (steps : nat) (rcmap : RcMap) (roots : gset ArenaKey) (storage_queue : list ArenaKey)
    (st : GcState) : outcome E GcState :=
  match steps with
  | O => Ok st
  | S steps =>
      let visit key storage_queue st :=
        children ← unwrap (child_refs backend key);
        let st := foldl (gc_child rcmap roots) st children in
        gc_loop steps rcmap roots storage_queue
          {| gc_queue := gc_queue st; gc_cache := gc_cache st; gc_update := gc_update st;
             gc_removed := {[ key ]} ∪ gc_removed st |} in
      match storage_queue, gc_queue st with
      | key :: storage_queue, _ => visit key storage_queue st
      | [], key :: queue =>
          visit key [] {| gc_queue := queue; gc_cache := gc_cache st; gc_update := gc_update st;
                          gc_removed := gc_removed st |}
      | [], [] => Ok st
      end
  end.
Definition apply_decrement (cache : gmap ArenaKey Z) (rcmap : RcMap) (entry : ArenaKey * Z)
    : outcome E RcMap :=
  match entry.1 with
  | AK_Ref r => original ← unwrap (cache !! entry.1); Ok (modify_rc rcmap r (sat_sub original entry.2))
  | AK_Direct _ _ _ => Ok (rm_root rcmap entry.1)
  end.
Definition gc_rcmap (orig_rcmap : RcMap) (roots : gset ArenaKey) (step_limit : nat)
    : outcome E (RcMap * gset ArenaKey) :=
  st ← gc_loop step_limit orig_rcmap roots (get_unreachable_keys_not_in orig_rcmap roots)
         {| gc_queue := []; gc_cache := ∅; gc_update := ∅; gc_removed := ∅ |};
  rcmap ← try_fold (apply_decrement (gc_cache st)) orig_rcmap (map_to_list (gc_update st));
  rcmap ← try_fold (fun rcmap key => unwrap (remove_unreachable_key rcmap key)) rcmap
            (elements (gc_removed st));
  Ok (rcmap, gc_removed st).

(** ** Costs *)
Record WriteDeleteResults := {
  wd_bytes_written : Z;
  wd_bytes_deleted : Z;
  wd_nodes_written : Z;
  wd_nodes_deleted : Z;
  wd_processing_cost : RunningCost;
  wd_updated_charged_keys : RcMap
}.
(** [key_size] is the serialized size of a direct key.  The sums are [u64]s and wrap. *)
Definition compute_bytes_from_keys (key_size : ArenaKey -> Z) (keys : gset ArenaKey) : outcome E Z :=
  try_fold (fun acc key =>
    match key with
    | AK_Ref h => n ← unwrap (backend !! h); Ok (trunc u64_max (acc + trunc u64_max (trunc u64_max (node_size n + 32) + 4)))
    | AK_Direct _ _ _ => Ok (trunc u64_max (acc + trunc u64_max (key_size key * 2)))
    end) 0 (elements keys).
Definition WriteDeleteResults_new (key_size : ArenaKey -> Z) (keys_added keys_removed : gset ArenaKey)
    (new_charged_keys : RcMap) (cpu_cost : Z -> Z -> RunningCost) : outcome E WriteDeleteResults :=
  let nodes_written := Z.of_nat (size keys_added) in
  let nodes_deleted := Z.of_nat (size keys_removed) in
  bytes_written ← compute_bytes_from_keys key_size keys_added;
  bytes_deleted ← compute_bytes_from_keys key_size keys_removed;
  Ok {| wd_bytes_written := bytes_written; wd_bytes_deleted := bytes_deleted;
        wd_nodes_written := nodes_written; wd_nodes_deleted := nodes_deleted;
        wd_processing_cost := cpu_cost nodes_written nodes_deleted;
        wd_updated_charged_keys := new_charged_keys |}.
Definition wd_running_cost (self : WriteDeleteResults) : RunningCost :=
  RunningCost_add (mkRunningCost 0 0 (wd_bytes_written self) (wd_bytes_deleted self))
    (wd_processing_cost self).

Definition initial_write_delete_costs (key_size : ArenaKey -> Z) (r0 : list ArenaKey)
    (cpu_cost : Z -> Z -> RunningCost) : outcome E WriteDeleteResults :=
  keys ← get_writes RcMap_default r0;
  k0 ← update_rcmap RcMap_default keys;
  WriteDeleteResults_new key_size keys ∅ k0 cpu_cost.
Definition incremental_write_delete_costs (key_size : ArenaKey -> Z) (k0 : RcMap) (r1 : list ArenaKey)
    (cpu_cost : Z -> Z -> RunningCost) (gc_limit : RunningCost -> nat) : outcome E WriteDeleteResults :=
  keys_added ← get_writes k0 r1;
  let added_cost := cpu_cost (Z.of_nat (size keys_added)) 0 in
  k ← update_rcmap k0 keys_added;
  '(k1, keys_removed) ← gc_rcmap k (list_to_set r1) (gc_limit added_cost);
  WriteDeleteResults_new key_size keys_added keys_removed k1 cpu_cost.
End tracking.
