(* ===== verification/DeltaProps.v ===== *)
(** * Correctness of write and delete costing

    The charged set of an [RcMap] against plain graph reachability: what
    [get_writes] adds, that [update_rcmap] and [gc_rcmap] keep the reference
    counts exact, and that a complete incremental update charges exactly the
    nodes reachable from the new roots. *)
From S2P Require Import Prelude CostModel DeltaTracking.

Section delta.
Context {E : Type} (backend : Backend).
Implicit Types (C A R : gset ArenaKey) (h : ArenaHash) (k : ArenaKey) (rc : RcMap).

(** ** The graph of nodes *)
Definition kids (k : ArenaKey) : list ArenaHash := default [] (child_refs backend k).
Definition loadable (k : ArenaKey) : Prop :=
  is_Some (child_refs backend k) /\ forall h, h ∈ kids k -> is_Some (backend !! h).
Definition child_of (k c : ArenaKey) : Prop := exists h, c = AK_Ref h /\ h ∈ kids k.
Definition reachable (roots : list ArenaKey) (k : ArenaKey) : Prop :=
  exists r, r ∈ roots /\ rtc child_of r k.
(** Every reference of a stored node is stored. *)
Definition backend_closed : Prop := forall h, is_Some (backend !! h) -> loadable (AK_Ref h).

Lemma kid_loadable h k : backend_closed -> loadable k -> h ∈ kids k -> loadable (AK_Ref h).
Proof. intros Hcl [_ Hk] Hh. auto. Qed.

Lemma reachable_loadable roots k :
  backend_closed -> Forall loadable roots -> reachable roots k -> loadable k.
Proof.
  intros Hcl Hroots (r & Hr & Hk). assert (Hl : loadable r) by (eapply (proj1 (list.Forall_forall _ _)); eauto).
  clear Hr Hroots. induction Hk as [|x y z (h & -> & Hh) _ IH]; [done|]. eauto using kid_loadable.
Qed.

(** The keys reachable through keys that are not charged yet. *)
Inductive fresh (rc : RcMap) (roots : list ArenaKey) : ArenaKey -> Prop :=
| fresh_root k : k ∈ roots -> rc_contains rc k = false -> fresh rc roots k
| fresh_child k c : fresh rc roots k -> child_of k c -> rc_contains rc c = false -> fresh rc roots c.

(** ** [get_writes] terminates with exactly the fresh keys *)
Definition edges_left (A : gset ArenaKey) (m : Backend) : nat :=
  map_fold (fun h n acc => (if decide (AK_Ref h ∈ A) then 0 else length (concat (map refs (node_children n)))) + acc)%nat 0%nat m.

Lemma edges_left_insert A m h n :
  m !! h = None ->
  edges_left A (<[h := n]> m) =
  ((if decide (AK_Ref h ∈ A) then 0 else length (concat (map refs (node_children n)))) + edges_left A m)%nat.
Proof. intros. unfold edges_left. rewrite map_fold_insert_L; [done|intros; lia|done]. Qed.
Lemma edges_insert m h n :
  m !! h = None ->
  edges (<[h := n]> m) = (length (concat (map refs (node_children n))) + edges m)%nat.
Proof. intros. unfold edges. rewrite map_fold_insert_L; [done|intros; lia|done]. Qed.
Lemma edges_left_empty m : edges_left ∅ m = edges m.
Proof.
  induction m as [|h n m Hn IH] using map_ind; [done|].
  rewrite edges_left_insert, edges_insert, IH by done. by rewrite decide_False by set_solver.
Qed.
Lemma edges_left_other A m h : m !! h = None -> edges_left ({[AK_Ref h]} ∪ A) m = edges_left A m.
Proof.
  induction m as [|h' n m Hn IH] using map_ind; intros Hm; [done|].
  rewrite !edges_left_insert by done. rewrite lookup_insert_None in Hm. destruct Hm as [Hm Hne].
  rewrite IH by done. f_equal. destruct (decide _), (decide _); set_solver.
Qed.
Lemma edges_left_take A m h n :
  m !! h = Some n -> AK_Ref h ∉ A ->
  edges_left A m = (length (concat (map refs (node_children n))) + edges_left ({[AK_Ref h]} ∪ A) m)%nat.
Proof.
  intros Hm HA. rewrite <- (insert_delete_id m h n Hm), !edges_left_insert by apply lookup_delete_eq.
  rewrite edges_left_other by apply lookup_delete_eq.
  rewrite decide_False, decide_True by set_solver. lia.
Qed.
Lemma edges_left_direct A m hs d cs : edges_left ({[AK_Direct hs d cs]} ∪ A) m = edges_left A m.
Proof.
  induction m as [|h n m Hn IH] using map_ind; [done|].
  rewrite !edges_left_insert, IH by done. f_equal. destruct (decide _), (decide _); set_solver.
Qed.

Lemma sum_list_with_reverse {X} (f : X -> nat) l : sum_list_with f (reverse l) = sum_list_with f l.
Proof.
  induction l as [|x l IH]; [done|]. rewrite reverse_cons, sum_list_with_app. simpl. lia.
Qed.
Lemma refs_weight l : sum_list_with key_weight (reverse (AK_Ref <$> l)) = length l.
Proof.
  rewrite sum_list_with_reverse. induction l as [|h l IH]; [done|]. rewrite fmap_cons. simpl. by f_equal.
Qed.

(** A round that visits [key] pays for the references it pushes. *)
Lemma visit_pays A key children :
  child_refs backend key = Some children -> key ∉ A ->
  (key_weight key + edges_left A backend =
   1 + length children + edges_left ({[key]} ∪ A) backend)%nat.
Proof.
  destruct key as [h|hs d cs]; simpl; intros Hc HA.
  - destruct (backend !! h) as [n|] eqn:Hn; simpl in Hc; [|done]. simplify_eq.
    rewrite (edges_left_take _ _ _ _ Hn HA). simpl. lia.
  - simplify_eq. rewrite edges_left_direct. lia.
Qed.

Lemma key_weight_pos k : (1 <= key_weight k)%nat.
Proof. destruct k; simpl; lia. Qed.

(** What the loop has still to do. *)
Record writes_inv rc roots queue A : Prop := {
  wi_queue : forall k, k ∈ queue -> rc_contains rc k = false -> fresh rc roots k;
  wi_load : Forall loadable queue;
  wi_sound : forall k, k ∈ A -> fresh rc roots k;
  wi_roots : forall k, k ∈ roots -> rc_contains rc k = false -> k ∈ A \/ k ∈ queue;
  wi_kids : forall k c, k ∈ A -> child_of k c -> rc_contains rc c = false -> c ∈ A \/ c ∈ queue
}.

Lemma writes_inv_skip rc roots k queue A :
  writes_inv rc roots (k :: queue) A -> rc_contains rc k = true \/ k ∈ A -> writes_inv rc roots queue A.
Proof.
  intros [Hq Hl Hs Hr Hk] Hskip. constructor; [intros; apply Hq; set_solver|by inv Hl|done|..].
  - intros k' H1 H2. destruct (Hr k' H1 H2) as [?|[->|?]%elem_of_cons]; [auto| |auto].
    destruct Hskip; [congruence|auto].
  - intros k' c H1 H2 H3. destruct (Hk k' c H1 H2 H3) as [?|[->|?]%elem_of_cons]; [auto| |auto].
    destruct Hskip; [congruence|auto].
Qed.
Lemma writes_inv_visit rc roots k queue A children :
  backend_closed -> writes_inv rc roots (k :: queue) A -> rc_contains rc k = false ->
  child_refs backend k = Some children ->
  writes_inv rc roots (reverse (AK_Ref <$> children) ++ queue) ({[k]} ∪ A).
Proof.
  intros Hcl [Hq Hl Hs Hr Hk] Hrc Hch. apply Forall_cons_1 in Hl as [Hlk Hl].
  assert (Hf : fresh rc roots k) by (apply Hq; [left|done]).
  assert (Hkids : kids k = children) by (unfold kids; by rewrite Hch).
  assert (Hc : forall c, c ∈ reverse (AK_Ref <$> children) <-> child_of k c).
  { intros c. rewrite elem_of_reverse, list_elem_of_fmap. unfold child_of. rewrite Hkids. done. }
  constructor.
  - intros c [Hin%Hc|Hin]%elem_of_app Hcc; [by eapply fresh_child|apply Hq; [by right|done]].
  - apply Forall_app; split; [|done]. apply list.Forall_forall. intros c (h & -> & Hh)%Hc. by apply (kid_loadable h k).
  - intros k' [->%elem_of_singleton|]%elem_of_union; auto.
  - intros k' H1 H2. destruct (Hr k' H1 H2) as [?|[->|?]%elem_of_cons]; set_solver.
  - intros k' c [->%elem_of_singleton|Hin]%elem_of_union H2 H3.
    + right. apply elem_of_app. left. by apply Hc.
    + destruct (Hk k' c Hin H2 H3) as [?|[->|?]%elem_of_cons]; set_solver.
Qed.

Lemma get_writes_loop_ok rc roots fuel queue A :
  backend_closed -> writes_inv rc roots queue A ->
  (sum_list_with key_weight queue + edges_left A backend <= fuel)%nat ->
  exists A', get_writes_loop (E := E) backend fuel rc queue A = Ok A' /\ writes_inv rc roots [] A'.
Proof.
  intros Hcl. revert queue A. induction fuel as [|fuel IH]; intros [|k queue] A Hinv Hfuel; simpl in *; eauto.
  - pose proof (key_weight_pos k). lia.
  - destruct (rc_contains rc k) eqn:Hrc; simpl.
    { apply IH; [eapply writes_inv_skip; eauto|]. pose proof (key_weight_pos k). lia. }
    case_bool_decide as HA; simpl.
    + pose proof (wi_load _ _ _ _ Hinv) as [[[children Hch] _] _]%Forall_cons_1.
      rewrite Hch. simpl. apply IH; [by eapply writes_inv_visit|].
      rewrite sum_list_with_app, refs_weight. pose proof (visit_pays _ _ _ Hch HA). lia.
    + apply IH; [eapply writes_inv_skip; eauto; right; by apply dec_stable|].
      pose proof (key_weight_pos k). lia.
Qed.

Lemma get_writes_ok rc roots :
  backend_closed -> Forall loadable roots ->
  exists A, get_writes (E := E) backend rc roots = Ok A /\ forall k, k ∈ A <-> fresh rc roots k.
Proof.
  intros Hcl Hl. destruct (get_writes_loop_ok rc roots
    (sum_list_with key_weight roots + edges backend) (reverse roots) ∅) as (A & HA & Hinv); [done| |..].
  - constructor.
    + intros k Hk Hrc. rewrite elem_of_reverse in Hk. by apply fresh_root.
    + rewrite list.Forall_forall in Hl |- *. intros k Hk. rewrite elem_of_reverse in Hk. auto.
    + by intros k ?%not_elem_of_empty.
    + intros k Hk _. right. by apply elem_of_reverse.
    + by intros k c ?%not_elem_of_empty.
  - rewrite sum_list_with_reverse, edges_left_empty. done.
  - exists A. split; [done|]. intros k. destruct Hinv as [_ _ Hs Hr Hk]. split; [apply Hs|].
    induction 1 as [k Hin Hrc|k c _ IH Hc Hrc].
    + destruct (Hr k Hin Hrc) as [?|?%elem_of_nil]; done.
    + destruct (Hk k c IH Hc Hrc) as [?|?%elem_of_nil]; done.
Qed.

(** ** Exact reference counts *)
Definition cnt (h : ArenaHash) (l : list ArenaHash) : Z := Z.of_nat (length (filter (fun x => x = h) l)).
Definition indeg (C : gset ArenaKey) (h : ArenaHash) : Z := cnt h (elements C ≫= kids).

Lemma cnt_nil h : cnt h [] = 0. Proof. done. Qed.
Lemma cnt_app h l1 l2 : cnt h (l1 ++ l2) = cnt h l1 + cnt h l2.
Proof. unfold cnt. rewrite list.filter_app, length_app. lia. Qed.
Lemma cnt_single h x : cnt h [x] = if decide (x = h) then 1 else 0.
Proof. unfold cnt. rewrite filter_cons. by destruct (decide (x = h)). Qed.
Lemma cnt_perm h l1 l2 : l1 ≡ₚ l2 -> cnt h l1 = cnt h l2.
Proof. intros Hp. unfold cnt. by rewrite Hp. Qed.
Lemma cnt_nonneg h l : 0 <= cnt h l. Proof. unfold cnt. lia. Qed.
Lemma cnt_pos h l : 0 < cnt h l <-> h ∈ l.
Proof.
  induction l as [|x l IH]; [split; [done|set_solver]|]. pose proof (cnt_nonneg h l).
  rewrite elem_of_cons, <- IH. change (x :: l) with ([x] ++ l). rewrite cnt_app, cnt_single.
  destruct (decide _); naive_solver lia.
Qed.
Lemma indeg_union C A h : C ## A -> indeg (C ∪ A) h = indeg C h + indeg A h.
Proof.
  intros Hd. unfold indeg. rewrite <- cnt_app. apply cnt_perm.
  rewrite elements_disj_union by done. by rewrite bind_app.
Qed.
Lemma indeg_nonneg C h : 0 <= indeg C h. Proof. apply cnt_nonneg. Qed.
Lemma indeg_pos C h : 0 < indeg C h <-> exists k, k ∈ C /\ h ∈ kids k.
Proof.
  unfold indeg. rewrite cnt_pos, list_elem_of_bind. setoid_rewrite elem_of_elements. naive_solver.
Qed.

Definition rcount rc h : Z := default 0 (rc_ge_1 rc !! h).
Definition charged rc : gset ArenaKey := set_map AK_Ref (dom (rc_ge_1 rc)) ∪ rc_0 rc.
(** The two parts of the map are disjoint and no count is zero. *)
Definition rc_wf rc : Prop := forall h n, rc_ge_1 rc !! h = Some n -> 1 <= n /\ AK_Ref h ∉ rc_0 rc.
(** Every stored count is the number of references from charged nodes. *)
Record rc_exact rc : Prop := {
  re_wf : rc_wf rc;
  re_count : forall h, rcount rc h = indeg (charged rc) h;
  re_load : forall k, k ∈ charged rc -> loadable k
}.

Lemma elem_of_charged_ref rc h : AK_Ref h ∈ charged rc <-> is_Some (rc_ge_1 rc !! h) \/ AK_Ref h ∈ rc_0 rc.
Proof. unfold charged. rewrite elem_of_union, elem_of_map. setoid_rewrite elem_of_dom. naive_solver. Qed.
Lemma elem_of_charged_direct rc a d cs : AK_Direct a d cs ∈ charged rc <-> AK_Direct a d cs ∈ rc_0 rc.
Proof. unfold charged. rewrite elem_of_union, elem_of_map. naive_solver. Qed.
Lemma rc_contains_charged rc k : rc_contains rc k = true <-> k ∈ charged rc.
Proof.
  unfold rc_contains. rewrite bool_decide_eq_true. destruct k as [h|a d cs]; simpl.
  - rewrite elem_of_charged_ref. destruct (rc_ge_1 rc !! h) eqn:Hh; [naive_solver|].
    case_bool_decide; [naive_solver|]. split; [by intros [? ?]|intros [[? ?]|?]; congruence].
  - rewrite elem_of_charged_direct. case_bool_decide; [naive_solver|]. split; [by intros [? ?]|done].
Qed.
Lemma get_rc_ref rc h : default 0 (get_rc rc (AK_Ref h)) = rcount rc h.
Proof. unfold rcount. simpl. destruct (rc_ge_1 rc !! h); [done|]. by case_bool_decide. Qed.
Lemma rcount_nonneg rc h : rc_wf rc -> 0 <= rcount rc h.
Proof. intros Hwf. unfold rcount. destruct (rc_ge_1 rc !! h) eqn:Hh; simpl; [|done]. apply Hwf in Hh. lia. Qed.
Lemma rcount_zero_root rc h : rc_wf rc -> rcount rc h = 0 -> AK_Ref h ∈ charged rc -> AK_Ref h ∈ rc_0 rc.
Proof.
  intros Hwf Hz [[n Hn]|?]%elem_of_charged_ref; [|done]. unfold rcount in Hz. rewrite Hn in Hz. simpl in Hz.
  apply Hwf in Hn. lia.
Qed.
Lemma rcount_pos_charged rc h : 0 < rcount rc h -> AK_Ref h ∈ charged rc.
Proof.
  unfold rcount. intros Hp. apply elem_of_charged_ref. left. destruct (rc_ge_1 rc !! h); [eauto|]. simpl in Hp. lia.
Qed.
(** A map with exact counts is closed under references. *)
Lemma exact_closed rc k h : rc_exact rc -> k ∈ charged rc -> h ∈ kids k -> AK_Ref h ∈ charged rc.
Proof.
  intros Hex Hk Hh. apply rcount_pos_charged. rewrite (re_count _ Hex). apply indeg_pos. eauto.
Qed.

Lemma modify_rc_spec rc r u :
  rc_wf rc -> 0 <= u ->
  rc_wf (modify_rc rc r u) /\
  (forall h, rcount (modify_rc rc r u) h = if decide (h = r) then u else rcount rc h) /\
  charged (modify_rc rc r u) = {[AK_Ref r]} ∪ charged rc.
Proof.
  intros Hwf Hu. unfold modify_rc. fold (rcount rc r).
  assert (Hnone : rcount rc r = 0 -> rc_ge_1 rc !! r = None).
  { unfold rcount. destruct (rc_ge_1 rc !! r) eqn:Hr; [|done]. apply Hwf in Hr. simpl. lia. }
  assert (Hsome : rcount rc r <> 0 -> AK_Ref r ∉ rc_0 rc).
  { unfold rcount. destruct (rc_ge_1 rc !! r) eqn:Hr; [|done]. intros _. apply Hwf in Hr. tauto. }
  destruct (Z.eqb_spec (rcount rc r) 0) as [Hc|Hc], (Z.eqb_spec u 0) as [->|Hu0];
    (split; [|split]; [intros h n; simpl|intros h; unfold rcount; simpl|]).
  - intros Hn. destruct (Hwf _ _ Hn) as [? ?]. split; [done|]. apply not_elem_of_union. split; [|done].
    rewrite not_elem_of_singleton. naive_solver.
  - destruct (decide _) as [->|]; [|done]. by rewrite Hnone.
  - unfold charged; simpl. set_solver.
  - destruct (decide (h = r)) as [->|Hne].
    + rewrite lookup_insert_eq. intros [= <-]. split; [lia|set_solver].
    + rewrite lookup_insert_ne by done. intros Hn. destruct (Hwf _ _ Hn). split; [done|set_solver].
  - destruct (decide _) as [->|]; [by rewrite lookup_insert_eq|]. by rewrite lookup_insert_ne.
  - unfold charged; simpl. rewrite dom_insert_L, set_map_union_L, set_map_singleton_L.
    apply set_eq. intros k. destruct (decide (k = AK_Ref r)); set_solver.
  - destruct (decide (h = r)) as [->|Hne].
    + by rewrite lookup_delete_eq.
    + rewrite lookup_delete_ne by done. intros Hn. destruct (Hwf _ _ Hn). split; [done|set_solver].
  - destruct (decide _) as [->|]; [by rewrite lookup_delete_eq|]. by rewrite lookup_delete_ne.
  - unfold charged; simpl. rewrite dom_delete_L. apply set_eq. intros k.
    rewrite !elem_of_union, !elem_of_map, elem_of_singleton. setoid_rewrite elem_of_difference.
    setoid_rewrite elem_of_singleton. split; [naive_solver|]. intros [->|[(h & -> & Hh)|?]]; [tauto| |tauto].
    destruct (decide (h = r)) as [->|]; [tauto|]. left. eauto.
  - destruct (decide (h = r)) as [->|Hne].
    + rewrite lookup_insert_eq. intros [= <-]. split; [lia|auto].
    + rewrite lookup_insert_ne by done. apply Hwf.
  - destruct (decide _) as [->|]; [by rewrite lookup_insert_eq|]. by rewrite lookup_insert_ne.
  - unfold charged; simpl. rewrite dom_insert_L, set_map_union_L, set_map_singleton_L. set_solver.
Qed.

(** ** [update_rcmap] keeps the counts exact *)
Lemma count_child_spec hs inc :
  (forall h, 0 <= default 0 (inc !! AK_Ref h)) ->
  (forall h, default 0 (inc !! AK_Ref h) + cnt h hs <= u64_max) ->
  (forall h, default 0 (foldl count_child inc hs !! AK_Ref h) = default 0 (inc !! AK_Ref h) + cnt h hs) /\
  (forall k, is_Some (foldl count_child inc hs !! k) <-> is_Some (inc !! k) \/ exists h, k = AK_Ref h /\ h ∈ hs).
Proof.
  revert inc. induction hs as [|x hs IH]; intros inc Hpos Hmax.
  { split; [intros h; rewrite cnt_nil; simpl; lia|]. intros k. simpl. set_solver. }
  assert (Hsplit : forall h, cnt h (x :: hs) = (if decide (x = h) then 1 else 0) + cnt h hs).
  { intros h. change (x :: hs) with ([x] ++ hs). by rewrite cnt_app, cnt_single. }
  assert (Hstep : forall h, default 0 (count_child inc x !! AK_Ref h) =
                            default 0 (inc !! AK_Ref h) + if decide (x = h) then 1 else 0).
  { intros h. unfold count_child. destruct (decide (x = h)) as [->|Hne].
    - rewrite lookup_insert_eq. simpl. apply trunc_id. specialize (Hpos h). specialize (Hmax h).
      rewrite Hsplit, decide_True in Hmax by done. pose proof (cnt_nonneg h hs). split; lia.
    - rewrite lookup_insert_ne by congruence. lia. }
  destruct (IH (count_child inc x)) as [IHv IHd].
  - intros h. rewrite Hstep. specialize (Hpos h). destruct (decide _); lia.
  - intros h. rewrite Hstep. specialize (Hmax h). rewrite Hsplit in Hmax. lia.
  - split; simpl.
    + intros h. rewrite IHv, Hstep, Hsplit. lia.
    + intros k. rewrite IHd. unfold count_child. destruct (decide (k = AK_Ref x)) as [->|Hne].
      * rewrite lookup_insert_eq. set_solver.
      * rewrite lookup_insert_ne by done. set_solver.
Qed.
Lemma count_children_ok l inc :
  Forall loadable l -> try_fold (count_children (E := E) backend) inc l = Ok (foldl count_child inc (l ≫= kids)).
Proof.
  revert inc. induction l as [|k l IH]; intros inc Hl; [done|]. apply Forall_cons_1 in Hl as [[[cs Hcs] _] Hl].
  assert (Hk : count_children (E := E) backend inc k = Ok (foldl count_child inc (kids k))).
  { unfold count_children, kids. by rewrite Hcs. }
  simpl. rewrite Hk. simpl. by rewrite IH, foldl_app.
Qed.

(** The increments [inc], applied in any order. *)
Lemma apply_increments_spec (l : list (ArenaKey * Z)) rc :
  NoDup l.*1 -> rc_wf rc -> (forall k n, (k, n) ∈ l -> 0 <= n) ->
  (forall h n, (AK_Ref h, n) ∈ l -> rcount rc h + n <= u64_max) ->
  rc_wf (foldl apply_increment rc l) /\
  (forall h, rcount (foldl apply_increment rc l) h =
             rcount rc h + default 0 ((list_to_map l : gmap ArenaKey Z) !! AK_Ref h)) /\
  charged (foldl apply_increment rc l) = charged rc ∪ list_to_set l.*1.
Proof.
  revert rc. induction l as [|[k n] l IH]; intros rc Hnd Hwf Hpos Hmax.
  { split; [done|]. split; [intros h; simpl; rewrite lookup_empty; simpl; lia|set_solver]. }
  apply list.NoDup_cons in Hnd as [Hk Hnd]. simpl in Hk.
  set (rc1 := apply_increment rc (k, n)).
  assert (H1 : rc_wf rc1 /\ charged rc1 = {[k]} ∪ charged rc /\
               forall h, rcount rc1 h = rcount rc h + if decide (k = AK_Ref h) then n else 0).
  { unfold rc1, apply_increment. destruct k as [r|a d cs]; cbn [fst snd].
    - rewrite get_rc_ref. pose proof (rcount_nonneg rc r Hwf).
      assert (0 <= n) by (eapply Hpos; left). assert (rcount rc r + n <= u64_max) by (apply Hmax; left).
      rewrite trunc_id by (split; lia). destruct (modify_rc_spec rc r (rcount rc r + n)) as (Hw & Hc & Hch); [done|lia|].
      split; [done|]. split; [done|]. intros h. rewrite Hc.
      destruct (decide (h = r)), (decide (AK_Ref r = AK_Ref h)); naive_solver lia.
    - split; [|split].
      + intros h m Hm. destruct (Hwf h m Hm). split; [done|]. simpl. set_solver.
      + unfold charged. simpl. set_solver.
      + intros h. rewrite decide_False by done. unfold rcount. simpl. lia. }
  destruct H1 as (Hwf1 & Hch1 & Hc1). destruct (IH rc1) as (Hw & Hc & Hch); [done|done|..].
  - intros k' n' Hin. eapply Hpos. by right.
  - intros h n' Hin. rewrite Hc1, decide_False; [rewrite Z.add_0_r; apply Hmax; by right|].
    intros ->. apply Hk, list_elem_of_fmap. by exists (AK_Ref h, n').
  - split; [done|]. split.
    + intros h. simpl. fold rc1. rewrite Hc, Hc1. destruct (decide (k = AK_Ref h)) as [->|Hne].
      * rewrite lookup_insert_eq. rewrite not_elem_of_list_to_map_1 by done. simpl. lia.
      * rewrite lookup_insert_ne by done. lia.
    + simpl. fold rc1. rewrite Hch, Hch1. set_solver.
Qed.

Definition fits rc A : Prop := forall h, indeg (charged rc ∪ A) h <= u64_max.

(** The map of increments that a set [A] of new keys gives. *)
Definition increments A : gmap ArenaKey Z := foldl count_child (gset_to_gmap 0 A) (elements A ≫= kids).
Lemma zeros_lookup A k : default 0 ((gset_to_gmap 0 A : gmap ArenaKey Z) !! k) = 0.
Proof.
  destruct (_ !! k) as [z|] eqn:Hk; [|done]. by apply lookup_gset_to_gmap_Some in Hk as [_ <-].
Qed.
Lemma increments_direct A a d cs : default 0 (increments A !! AK_Direct a d cs) = 0.
Proof.
  transitivity (default 0 ((gset_to_gmap 0 A : gmap ArenaKey Z) !! AK_Direct a d cs)); [|apply zeros_lookup].
  unfold increments. generalize (gset_to_gmap 0 A : gmap ArenaKey Z).
  induction (elements A ≫= kids) as [|x l IH]; intros i; [done|].
  simpl. rewrite IH. unfold count_child. by rewrite lookup_insert_ne.
Qed.
Lemma increments_spec A :
  (forall h, indeg A h <= u64_max) ->
  (forall h, default 0 (increments A !! AK_Ref h) = indeg A h) /\
  (forall k, is_Some (increments A !! k) <-> k ∈ A \/ exists k', k' ∈ A /\ child_of k' k).
Proof.
  intros Hmax. destruct (count_child_spec (elements A ≫= kids) (gset_to_gmap 0 A)) as [Hv Hd].
  { intros h. by rewrite zeros_lookup. }
  { intros h. rewrite zeros_lookup. apply Hmax. }
  split.
  - intros h. unfold increments. by rewrite Hv, zeros_lookup.
  - intros k. unfold increments. rewrite Hd. f_equiv.
    + split; [intros [n [? _]%lookup_gset_to_gmap_Some]; done|].
      intros. exists 0. by apply lookup_gset_to_gmap_Some.
    + unfold child_of. setoid_rewrite list_elem_of_bind. setoid_rewrite elem_of_elements. naive_solver.
Qed.
Lemma increments_nonneg A k n :
  (forall h, indeg A h <= u64_max) -> (k, n) ∈ map_to_list (increments A) -> 0 <= n.
Proof.
  intros Hmax Hin%elem_of_map_to_list. destruct k as [h|a d cs].
  - pose proof (indeg_nonneg A h) as Hp. rewrite <- (proj1 (increments_spec A Hmax)), Hin in Hp. done.
  - pose proof (increments_direct A a d cs) as Hz. rewrite Hin in Hz. simpl in Hz. lia.
Qed.

Lemma fresh_set_disjoint rc roots A : (forall k, k ∈ A <-> fresh rc roots k) -> charged rc ## A.
Proof.
  intros HA k Hk Hk'%HA. apply rc_contains_charged in Hk. destruct Hk'; congruence.
Qed.
(** What the new keys refer to is charged or new. *)
Lemma fresh_set_closed rc roots A k c :
  (forall k, k ∈ A <-> fresh rc roots k) -> k ∈ A -> child_of k c -> c ∈ charged rc ∪ A.
Proof.
  intros HA Hk%HA Hc. apply elem_of_union. destruct (rc_contains rc c) eqn:Hrc.
  - left. by apply rc_contains_charged.
  - right. apply HA. by eapply fresh_child.
Qed.

Lemma update_rcmap_ok rc roots A :
  rc_exact rc -> (forall k, k ∈ A <-> fresh rc roots k) -> (forall k, k ∈ A -> loadable k) -> fits rc A ->
  exists rc', update_rcmap (E := E) backend rc A = Ok rc' /\ rc_exact rc' /\ charged rc' = charged rc ∪ A.
Proof.
  intros [Hwf Hcount Hload] HA HAl Hfits. pose proof (fresh_set_disjoint _ _ _ HA) as Hdisj.
  assert (Hall : forall h, indeg (charged rc) h + indeg A h <= u64_max).
  { intros h. rewrite <- indeg_union by done. apply Hfits. }
  assert (Hmax : forall h, indeg A h <= u64_max).
  { intros h. pose proof (indeg_nonneg (charged rc) h). specialize (Hall h). lia. }
  destruct (increments_spec A Hmax) as [Hvalue Hdom].
  destruct (apply_increments_spec (map_to_list (increments A)) rc) as (Hw & Hc & Hch);
    [apply NoDup_fst_map_to_list|done|eauto using increments_nonneg|..].
  { intros h n Hin%elem_of_map_to_list. specialize (Hvalue h). rewrite Hin in Hvalue. simpl in Hvalue.
    rewrite Hcount, Hvalue. apply Hall. }
  set (rc' := foldl apply_increment rc (map_to_list (increments A))) in *.
  assert (Hcharged : charged rc' = charged rc ∪ A).
  { rewrite Hch. apply set_eq. intros k. rewrite elem_of_union, <- (dom_alt (increments A)), elem_of_dom, Hdom. split.
    - intros [?|[?|(k' & Hk' & Hc')]]; [set_solver..|]. by eapply fresh_set_closed.
    - rewrite elem_of_union. tauto. }
  exists rc'. split; [|split; [constructor|]]; [|done|..|done].
  - unfold update_rcmap. rewrite count_children_ok; [done|].
    apply list.Forall_forall. intros k ?%elem_of_elements. auto.
  - intros h. rewrite Hc, list_to_map_to_list, Hvalue, Hcharged, indeg_union by done. by rewrite Hcount.
  - rewrite Hcharged. intros k [?|?]%elem_of_union; auto.
Qed.

(** ** [gc_rcmap] removes unreferenced keys and keeps the counts exact *)
Section gc.
Context (rc : RcMap) (roots : gset ArenaKey).
Hypothesis Hex : rc_exact rc.
Hypothesis Hfit : forall h, rcount rc h <= u64_max.

(** All references to [k] are among the removed ones [hs]. *)
Definition dead (hs : list ArenaHash) (k : ArenaKey) : Prop :=
  match k with AK_Ref h => rcount rc h = cnt h hs | AK_Direct _ _ _ => True end.

(** [pend] are the queued keys, [R] the visited ones, [hs] the references they held. *)
Record gc_inv (hs : list ArenaHash) (R : gset ArenaKey) (pend : list ArenaKey) (st : GcState) : Prop := {
  gi_nodup : NoDup pend;
  gi_disj : forall k, k ∈ pend -> k ∉ R;
  gi_in : forall k, k ∈ pend \/ k ∈ R -> k ∈ charged rc /\ (k ∉ roots) /\ dead hs k;
  gi_all : forall k, k ∈ charged rc -> k ∉ roots -> dead hs k -> k ∈ pend \/ k ∈ R;
  gi_upd : forall h, default 0 (gc_update st !! AK_Ref h) = cnt h hs;
  gi_upd_dom : forall k, is_Some (gc_update st !! k) ->
    exists h, k = AK_Ref h /\ 0 < cnt h hs /\ gc_cache st !! k = Some (rcount rc h);
  gi_cache : forall h x, gc_cache st !! AK_Ref h = Some x -> x = rcount rc h;
  gi_bound : forall h, cnt h hs <= rcount rc h
}.

Lemma dead_app hs l k : (forall h, cnt h (hs ++ l) <= rcount rc h) -> dead hs k -> dead (hs ++ l) k.
Proof.
  destruct k as [h|]; simpl; [|done]. intros Hb Hd. specialize (Hb h). rewrite cnt_app in *.
  pose proof (cnt_nonneg h l). lia.
Qed.

Lemma gc_child_inv hs R sq st r :
  gc_inv hs R (sq ++ gc_queue st) st -> (forall h, cnt h (hs ++ [r]) <= rcount rc h) ->
  let st' := gc_child rc roots st r in
  gc_inv (hs ++ [r]) R (sq ++ gc_queue st') st' /\ gc_removed st' = gc_removed st.
Proof using Hex Hfit.
  intros [Hnd Hdj Hin Hall Hupd Hud Hcache Hb] Hb'. cbv zeta. split; [|done].
  pose proof (Hb' r) as Hr. rewrite cnt_app, cnt_single, decide_True in Hr by done.
  pose proof (cnt_nonneg r hs) as Hr0.
  assert (Hcnt : forall h, cnt h (hs ++ [r]) = cnt h hs + (if decide (h = r) then 1 else 0)).
  { intros h. rewrite cnt_app, cnt_single. destruct (decide (r = h)), (decide (h = r)); naive_solver. }
  assert (Hsub : trunc u64_max (default 0 (gc_update st !! AK_Ref r) + 1) = cnt r hs + 1).
  { rewrite Hupd. apply trunc_id. specialize (Hfit r). split; lia. }
  assert (Hext : match gc_cache st !! AK_Ref r with Some x => x | None => default 0 (get_rc rc (AK_Ref r)) end
                 = rcount rc r).
  { destruct (gc_cache st !! AK_Ref r) eqn:Hc; [by apply Hcache|apply get_rc_ref]. }
  assert (Hrc : AK_Ref r ∈ charged rc) by (apply rcount_pos_charged; lia).
  assert (Hnew : (AK_Ref r ∉ sq ++ gc_queue st) /\ AK_Ref r ∉ R).
  { split; intros Hc; destruct (Hin (AK_Ref r)) as (_ & _ & Hd); simpl in *; auto; lia. }
  assert (Hother : forall k, k <> AK_Ref r -> dead (hs ++ [r]) k <-> dead hs k).
  { intros [h|] Hne; simpl; [|done]. rewrite Hcnt, decide_False by congruence. lia. }
  set (push := (rcount rc r <=? cnt r hs + 1) && bool_decide (AK_Ref r ∉ roots)).
  assert (Hpush : push = true <-> dead (hs ++ [r]) (AK_Ref r) /\ AK_Ref r ∉ roots).
  { unfold push. rewrite andb_true_iff, Z.leb_le, bool_decide_eq_true. simpl. rewrite Hcnt, decide_True by done.
    split; intros [? ?]; (split; [lia|done]). }
  assert (Hq : gc_queue (gc_child rc roots st r) = if push then AK_Ref r :: gc_queue st else gc_queue st).
  { unfold gc_child. cbn [gc_queue]. by rewrite Hext, Hsub. }
  assert (Hpend : forall k, k ∈ sq ++ gc_queue (gc_child rc roots st r) <->
                            k ∈ sq ++ gc_queue st \/ (push = true /\ k = AK_Ref r)).
  { intros k. rewrite Hq. destruct push; set_solver. }
  constructor.
  - rewrite Hq. destruct push; [|done]. rewrite <- Permutation_middle. apply list.NoDup_cons. tauto.
  - intros k [Hk|[_ ->]]%Hpend; [by apply Hdj|tauto].
  - intros k Hk. rewrite Hpend in Hk.
    destruct Hk as [[Hk|[Hp ->]]|Hk]; [|apply Hpush in Hp; tauto|];
      (destruct (Hin k) as (? & ? & ?); [auto|]; split_and?; [done|done|by apply dead_app]).
  - intros k Hk Hnr Hd. rewrite Hpend. destruct (decide (k = AK_Ref r)) as [->|Hne].
    + left. right. split; [by apply Hpush|done].
    + apply Hother in Hd; [|done]. destruct (Hall k Hk Hnr Hd); auto.
  - intros h. unfold gc_child. cbn [gc_update]. rewrite Hsub, Hcnt. destruct (decide (h = r)) as [->|Hne].
    + by rewrite lookup_insert_eq.
    + rewrite lookup_insert_ne by congruence. rewrite Hupd. lia.
  - intros k. unfold gc_child. cbn [gc_update gc_cache]. rewrite Hext. destruct (decide (k = AK_Ref r)) as [->|Hne].
    + intros _. exists r. split; [done|]. rewrite Hcnt, decide_True by done. split; [lia|apply lookup_insert_eq].
    + rewrite !lookup_insert_ne by done. intros Hs. destruct (Hud k Hs) as (h & -> & Hp & Hc). exists h.
      rewrite Hcnt, decide_False by congruence. split; [done|]. split; [lia|done].
  - intros h x. unfold gc_child. cbn [gc_cache]. rewrite Hext. destruct (decide (h = r)) as [->|Hne].
    + rewrite lookup_insert_eq. congruence.
    + rewrite lookup_insert_ne by congruence. apply Hcache.
  - done.
Qed.
Lemma gc_children_inv children hs R sq st :
  gc_inv hs R (sq ++ gc_queue st) st -> (forall h, cnt h (hs ++ children) <= rcount rc h) ->
  let st' := foldl (gc_child rc roots) st children in
  gc_inv (hs ++ children) R (sq ++ gc_queue st') st' /\ gc_removed st' = gc_removed st.
Proof using Hex Hfit.
  revert hs st. induction children as [|r children IH]; intros hs st Hinv Hb; cbv zeta.
  { rewrite app_nil_r. done. }
  assert (Hb1 : forall h, cnt h (hs ++ [r]) <= rcount rc h).
  { intros h. specialize (Hb h). rewrite (cons_middle r hs children), app_assoc, cnt_app in Hb.
    pose proof (cnt_nonneg h children). lia. }
  destruct (gc_child_inv hs R sq st r Hinv Hb1) as [Hinv1 Hrem].
  destruct (IH (hs ++ [r]) _ Hinv1) as [Hinv2 Hrem2].
  { intros h. rewrite <- app_assoc. apply Hb. }
  rewrite <- app_assoc in Hinv2. simpl. by rewrite Hrem2.
Qed.

Lemma gc_inv_perm hs hs' R pend st : hs ≡ₚ hs' -> gc_inv hs R pend st -> gc_inv hs' R pend st.
Proof.
  intros Hp [Hnd Hdj Hin Hall Hupd Hud Hcache Hb].
  assert (Hc : forall h, cnt h hs' = cnt h hs) by (intros; symmetry; by apply cnt_perm).
  assert (Hdead : forall k, dead hs' k <-> dead hs k) by (intros [h|]; simpl; rewrite ?Hc; done).
  constructor; intros *; rewrite ?Hdead, ?Hc; auto.
  intros Hs. destruct (Hud k Hs) as (h & -> & ? & ?). exists h. by rewrite Hc.
Qed.

Definition edges_of (R : gset ArenaKey) : list ArenaHash := elements R ≫= kids.

(** Moving the next key from the queue to the visited ones, with its references. *)
Lemma gc_take_inv hs R key pend st :
  gc_inv hs R (key :: pend) st -> gc_inv hs ({[key]} ∪ R) pend st /\ key ∈ charged rc /\ key ∉ R.
Proof using Hex Hfit.
  intros [Hnd Hdj Hin Hall Hupd Hud Hcache Hb]. apply list.NoDup_cons in Hnd as [Hk Hnd].
  split; [|split; [apply Hin; left; left|apply Hdj; left]].
  constructor; try done.
  - intros k Hkp. apply not_elem_of_union. split; [|apply Hdj; by right]. intros ->%elem_of_singleton. done.
  - intros k Hkp. apply Hin. set_solver.
  - intros k H1 H2 H3. destruct (Hall k H1 H2 H3); set_solver.
Qed.

Lemma gc_bound R : (forall k, k ∈ R -> k ∈ charged rc) -> forall h, cnt h (edges_of R) <= rcount rc h.
Proof using Hex Hfit.
  intros Hsub h. rewrite (re_count _ Hex).
  assert (Hu : charged rc = R ∪ (charged rc ∖ R)) by (apply set_eq; intros k; destruct (decide (k ∈ R)); set_solver).
  rewrite Hu, indeg_union by set_solver. pose proof (indeg_nonneg (charged rc ∖ R) h). unfold indeg, edges_of in *. lia.
Qed.

Lemma gc_visit_inv R key sq queue st children :
  gc_inv (edges_of R) R (key :: sq ++ queue) st -> gc_queue st = queue -> gc_removed st = R ->
  child_refs backend key = Some children ->
  let st' := foldl (gc_child rc roots) st children in
  gc_inv (edges_of ({[key]} ∪ R)) ({[key]} ∪ R) (sq ++ gc_queue st') st' /\ gc_removed st' = R.
Proof using Hex Hfit.
  intros Hinv Hq HR Hch. apply gc_take_inv in Hinv as (Hinv & Hk & HkR).
  assert (He : edges_of ({[key]} ∪ R) ≡ₚ edges_of R ++ children).
  { unfold edges_of. rewrite elements_union_singleton by done. simpl.
    replace (kids key) with children by (unfold kids; by rewrite Hch). apply Permutation_app_comm. }
  destruct (gc_children_inv children (edges_of R) ({[key]} ∪ R) sq st) as [H1 H2].
  - by rewrite Hq.
  - intros h. rewrite <- (cnt_perm h _ _ He). apply gc_bound. intros k [->%elem_of_singleton|Hin]%elem_of_union; [done|].
    eapply gi_in; [exact Hinv|right; set_solver].
  - split; [|by rewrite H2]. by eapply gc_inv_perm.
Qed.

Lemma gc_loop_ok steps sq st :
  gc_inv (edges_of (gc_removed st)) (gc_removed st) (sq ++ gc_queue st) st ->
  exists st' pend, gc_loop (E := E) backend steps rc roots sq st = Ok st' /\
    gc_inv (edges_of (gc_removed st')) (gc_removed st') pend st' /\
    (size (charged rc) <= steps + size (gc_removed st) -> pend = [])%nat.
Proof using Hex Hfit.
  revert sq st. induction steps as [|steps IH]; intros sq st Hinv.
  { exists st, (sq ++ gc_queue st). split; [done|]. split; [done|]. intros Hs.
    destruct (sq ++ gc_queue st) as [|k l]; [done|]. exfalso.
    apply gc_take_inv in Hinv as (Hinv & Hk & HkR).
    assert (Hss : {[k]} ∪ gc_removed st ⊆ charged rc) by (intros x Hx; eapply gi_in; eauto).
    apply subseteq_size in Hss. rewrite size_union, size_singleton in Hss by set_solver. lia. }
  assert (Hvisit : forall key sq' queue st0,
    gc_inv (edges_of (gc_removed st)) (gc_removed st) (key :: sq' ++ queue) st0 ->
    gc_queue st0 = queue -> gc_removed st0 = gc_removed st ->
    exists st' pend,
      (children ← unwrap (child_refs backend key);
       let st1 := foldl (gc_child rc roots) st0 children in
       gc_loop (E := E) backend steps rc roots sq'
         {| gc_queue := gc_queue st1; gc_cache := gc_cache st1; gc_update := gc_update st1;
            gc_removed := {[ key ]} ∪ gc_removed st1 |}) = Ok st' /\
      gc_inv (edges_of (gc_removed st')) (gc_removed st') pend st' /\
      (size (charged rc) <= S steps + size (gc_removed st) -> pend = [])%nat).
  { intros key sq' queue st0 Hinv0 Hq HR. destruct (gc_take_inv _ _ _ _ _ Hinv0) as (_ & Hk & HkR).
    destruct (re_load _ Hex _ Hk) as [[children Hch] _].
    destruct (gc_visit_inv _ _ _ _ _ _ Hinv0 Hq HR Hch) as [Hinv1 Hrem]. rewrite Hch. simpl. rewrite Hrem.
    destruct Hinv1 as [Hnd Hdj Hin Hall Hupd Hud Hcache Hb].
    edestruct (IH sq') as (st' & pend & HO & Hi & Hsz); [|eexists st', pend; split; [exact HO|split; [exact Hi|]]].
    - constructor; simpl; try done.
    - intros Hs. apply Hsz. simpl. rewrite size_union, size_singleton by set_solver. lia. }
  simpl. destruct sq as [|key sq].
  - destruct (gc_queue st) as [|key queue] eqn:Hq.
    + exists st, []. split; [done|]. split; [done|done].
    + apply (Hvisit key [] queue); [|done|done]. destruct Hinv as [Hnd Hdj Hin Hall Hupd Hud Hcache Hb].
      constructor; simpl; done.
  - apply (Hvisit key sq (gc_queue st)); done.
Qed.
Lemma gc_init_inv st :
  gc_queue st = [] -> gc_cache st = ∅ -> gc_update st = ∅ -> gc_removed st = ∅ ->
  gc_inv (edges_of (gc_removed st)) (gc_removed st)
    (get_unreachable_keys_not_in rc roots ++ gc_queue st) st.
Proof using Hex Hfit.
  intros Hq Hc Hu Hr. rewrite Hq, Hr, app_nil_r. unfold edges_of. rewrite elements_empty. simpl.
  assert (Hz : forall h, AK_Ref h ∈ rc_0 rc -> rcount rc h = 0).
  { intros h Hh. unfold rcount. destruct (rc_ge_1 rc !! h) eqn:Hn; [|done]. by apply (re_wf _ Hex) in Hn as [_ ?]. }
  constructor.
  - apply list.NoDup_filter, NoDup_elements.
  - intros k _. apply not_elem_of_empty.
  - intros k [Hk|Hk%not_elem_of_empty]; [|done]. apply list_elem_of_filter in Hk as [Hnr Hk%elem_of_elements].
    split; [unfold charged; set_solver|]. split; [done|]. destruct k; simpl; [by apply Hz|done].
  - intros k Hk Hnr Hd. left. apply list_elem_of_filter. split; [done|]. apply elem_of_elements.
    destruct k as [h|]; [by apply rcount_zero_root; [apply Hex| |]|by apply elem_of_charged_direct].
  - intros h. by rewrite Hu, lookup_empty.
  - intros k. rewrite Hu, lookup_empty. by intros [? ?].
  - intros h x. by rewrite Hc, lookup_empty.
  - intros h. apply rcount_nonneg, Hex.
Qed.
End gc.

Lemma apply_decrements_spec cache (l : list (ArenaKey * Z)) rc :
  NoDup l.*1 -> rc_wf rc ->
  (forall k n, (k, n) ∈ l -> exists h, k = AK_Ref h /\ cache !! k = Some (rcount rc h) /\
     k ∈ charged rc /\ 0 <= n <= rcount rc h) ->
  exists rc', try_fold (apply_decrement (E := E) cache) rc l = Ok rc' /\ rc_wf rc' /\
    (forall h, rcount rc' h = rcount rc h - default 0 ((list_to_map l : gmap ArenaKey Z) !! AK_Ref h)) /\
    charged rc' = charged rc.
Proof.
  revert rc. induction l as [|[k n] l IH]; intros rc Hnd Hwf Hl.
  { exists rc. split; [done|]. split; [done|]. split; [|done]. intros h. simpl. rewrite lookup_empty. simpl. lia. }
  apply list.NoDup_cons in Hnd as [Hk Hnd]. simpl in Hk.
  destruct (Hl k n) as (r & -> & Hcache & Hch & Hn); [left|].
  destruct (modify_rc_spec rc r (sat_sub (rcount rc r) n)) as (Hw1 & Hc1 & Hch1); [done|unfold sat_sub; lia|].
  set (rc1 := modify_rc rc r (sat_sub (rcount rc r) n)) in *.
  assert (Hkeep : forall h n', (AK_Ref h, n') ∈ l -> h <> r).
  { intros h n' Hin ->. apply Hk, list_elem_of_fmap. by exists (AK_Ref r, n'). }
  destruct (IH rc1) as (rc' & HO & Hw & Hc & Hch'); [done|done|..].
  { intros k' n' Hin. destruct (Hl k' n') as (h & -> & H1 & H2 & H3); [by right|]. exists h.
    rewrite Hc1, Hch1, decide_False by eauto. split; [done|]. split; [done|]. split; [set_solver|done]. }
  assert (Hstep : apply_decrement (E := E) cache rc (AK_Ref r, n) = Ok rc1).
  { unfold apply_decrement. cbn [fst snd]. by rewrite Hcache. }
  exists rc'. simpl. rewrite Hstep. simpl. split; [done|]. split; [done|]. split; [|rewrite Hch', Hch1; set_solver].
  intros h. rewrite Hc, Hc1. destruct (decide (h = r)) as [->|Hne].
  - rewrite lookup_insert_eq, not_elem_of_list_to_map_1 by done. unfold sat_sub. simpl. lia.
  - rewrite lookup_insert_ne by congruence. done.
Qed.

Lemma remove_keys_ok l rc :
  NoDup l -> (forall k, k ∈ l -> k ∈ rc_0 rc) ->
  try_fold (fun rcmap key => unwrap (E := E) (remove_unreachable_key rcmap key)) rc l =
  Ok {| rc_ge_1 := rc_ge_1 rc; rc_0 := rc_0 rc ∖ list_to_set l |}.
Proof.
  revert rc. induction l as [|k l IH]; intros rc Hnd Hl.
  { simpl. f_equal. destruct rc; simpl. f_equal. set_solver. }
  apply list.NoDup_cons in Hnd as [Hk Hnd].
  assert (Hstep : remove_unreachable_key rc k = Some {| rc_ge_1 := rc_ge_1 rc; rc_0 := rc_0 rc ∖ {[ k ]} |}).
  { unfold remove_unreachable_key. rewrite bool_decide_eq_true_2; [done|apply Hl; left]. }
  simpl. rewrite Hstep. simpl. rewrite IH; [|done|].
  - simpl. f_equal. f_equal. set_solver.
  - intros k' Hk'. simpl. assert (k' <> k) by congruence. pose proof (Hl k' ltac:(by right)). set_solver.
Qed.

(** What a collection leaves: exact counts for the charged keys less [R]. *)
Lemma gc_finish rc R rc' :
  rc_exact rc -> (forall k, k ∈ R -> k ∈ charged rc) -> rc_wf rc' ->
  (forall h, rcount rc' h = rcount rc h - indeg R h) -> charged rc' = charged rc ->
  (forall k, k ∈ R -> k ∈ rc_0 rc') ->
  let rc'' := {| rc_ge_1 := rc_ge_1 rc'; rc_0 := rc_0 rc' ∖ R |} in
  rc_exact rc'' /\ charged rc'' = charged rc ∖ R.
Proof.
  intros Hex HR Hwf Hc Hch HR0. cbv zeta.
  assert (Hch'' : charged {| rc_ge_1 := rc_ge_1 rc'; rc_0 := rc_0 rc' ∖ R |} = charged rc ∖ R).
  { rewrite <- Hch. unfold charged. simpl. apply set_eq. intros k.
    rewrite elem_of_difference, !elem_of_union, elem_of_difference. split; [|tauto].
    intros [Hk|?]; [|tauto]. split; [auto|]. intros HkR. apply elem_of_map in Hk as (h & -> & [n Hn]%elem_of_dom).
    apply Hwf in Hn as [_ Hn]. auto. }
  split; [|done]. constructor.
  - intros h n Hn. simpl in *. apply Hwf in Hn as [? ?]. split; [done|set_solver].
  - intros h. change (rcount _ h) with (rcount rc' h). rewrite Hch'', Hc, (re_count _ Hex).
    assert (Hu : charged rc = (charged rc ∖ R) ∪ R) by (apply set_eq; intros k; destruct (decide (k ∈ R)); set_solver).
    rewrite Hu at 1. rewrite indeg_union by set_solver. lia.
  - rewrite Hch''. intros k Hk. apply (re_load _ Hex). set_solver.
Qed.

Lemma gc_rcmap_ok rc roots limit :
  rc_exact rc -> (forall h, rcount rc h <= u64_max) ->
  exists rc' R, gc_rcmap (E := E) backend rc roots limit = Ok (rc', R) /\ rc_exact rc' /\
    charged rc' = charged rc ∖ R /\ R ⊆ charged rc /\ R ## roots /\
    ((size (charged rc) <= limit)%nat -> forall k, k ∈ charged rc' ->
       k ∈ roots \/ exists h, k = AK_Ref h /\ 0 < rcount rc' h).
Proof.
  intros Hex Hfit. unfold gc_rcmap.
  destruct (gc_loop_ok rc roots Hex Hfit limit (get_unreachable_keys_not_in rc roots)
    {| gc_queue := []; gc_cache := ∅; gc_update := ∅; gc_removed := ∅ |}) as (st & pend & HO & Hinv & Hpend);
    [by apply gc_init_inv|]. rewrite HO. simpl in Hpend |- *.
  set (R := gc_removed st) in *. destruct Hinv as [_ _ Hin Hall Hupd Hud _ Hb].
  destruct (apply_decrements_spec (gc_cache st) (map_to_list (gc_update st)) rc) as (rc' & HO' & Hwf & Hc & Hch);
    [apply NoDup_fst_map_to_list|apply Hex|..].
  { intros k n Hn%elem_of_map_to_list. destruct (Hud k) as (h & -> & Hp & Hcc); [eauto|]. exists h.
    specialize (Hupd h). rewrite Hn in Hupd. simpl in Hupd. specialize (Hb h).
    split; [done|]. split; [done|]. split; [apply rcount_pos_charged; lia|lia]. }
  rewrite HO'. simpl. setoid_rewrite list_to_map_to_list in Hc.
  assert (Hc' : forall h, rcount rc' h = rcount rc h - indeg R h) by (intros h; rewrite Hc, Hupd; done).
  assert (HR0 : forall k, k ∈ R -> k ∈ rc_0 rc').
  { intros k Hk. destruct (Hin k (or_intror Hk)) as (Hkc & _ & Hd). rewrite <- Hch in Hkc.
    destruct k as [h|]; [|by apply elem_of_charged_direct]. apply rcount_zero_root; [done| |done].
    rewrite Hc'. unfold indeg. simpl in Hd. unfold edges_of in Hd. lia. }
  destruct (gc_finish rc R rc' Hex) as [Hex' Hch']; [|done..|].
  { intros k Hk. by apply Hin; right. }
  rewrite remove_keys_ok; [|apply NoDup_elements|intros k ?%elem_of_elements; auto]. simpl.
  rewrite list_to_set_elements_L. eexists _, R. split; [done|]. split; [done|]. split; [done|].
  split; [intros k Hk; by apply Hin; right|]. split; [intros k Hk Hr; by apply (Hin k (or_intror Hk))|].
  intros Hlim k Hk. rewrite Hch' in Hk. apply elem_of_difference in Hk as [Hk HkR].
  destruct (decide (k ∈ roots)) as [|Hnr]; [auto|]. right.
  rewrite Hpend in * by lia. destruct k as [h|].
  - exists h. split; [done|]. change (0 < rcount rc' h). rewrite Hc'. specialize (Hb h). unfold indeg, edges_of in *.
    destruct (decide (rcount rc h = cnt h (elements R ≫= kids))) as [He|He]; [|lia].
    destruct (Hall (AK_Ref h) Hk Hnr He) as [?%elem_of_nil|?]; done.
  - destruct (Hall _ Hk Hnr I) as [?%elem_of_nil|?]; done.
Qed.

(** ** The charged set against reachability *)
Lemma fresh_reachable rc roots k :
  rc_exact rc -> fresh rc roots k <-> reachable roots k /\ k ∉ charged rc.
Proof.
  intros Hex. split.
  - intros Hf. split; [|destruct Hf; rewrite <- rc_contains_charged; congruence].
    induction Hf as [k Hk|k c _ (r & Hr & Hrk) Hc]; [by exists k|]. exists r. split; [done|]. by eapply rtc_r.
  - intros [(r & Hr & Hk) Hnc].
    assert (Hback : forall x, rtc child_of x k -> x ∉ charged rc).
    { clear Hk. intros x Hx. induction Hx as [|x y z (h & -> & Hh) _ IH]; [done|]. intros Hin. apply IH; [done|].
      by eapply exact_closed. }
    assert (Hrc : forall x, rtc child_of x k -> rc_contains rc x = false).
    { intros x Hx. apply not_true_iff_false. rewrite rc_contains_charged. by apply Hback. }
    assert (Hf : fresh rc roots r) by (apply fresh_root; auto).
    clear Hr Hback Hnc. induction Hk as [|x y z Hxy Hyz IH]; [done|].
    apply IH; [done|]. eapply fresh_child; eauto.
Qed.
Lemma closed_reachable rc roots k :
  rc_exact rc -> (forall r, r ∈ roots -> r ∈ charged rc) -> reachable roots k -> k ∈ charged rc.
Proof.
  intros Hex Hr (r & Hin & Hk). apply Hr in Hin. induction Hk as [|x y z (h & -> & Hh) _ IH]; [done|].
  apply IH. by eapply exact_closed.
Qed.
(** In an acyclic graph, keys that all have a charged parent or are roots are reachable. *)
Lemma parents_reachable rc (rank : ArenaKey -> nat) roots :
  rc_exact rc -> (forall k c, child_of k c -> (rank c < rank k)%nat) ->
  (forall k, k ∈ charged rc -> k ∈ roots \/ exists h, k = AK_Ref h /\ 0 < rcount rc h) ->
  forall k, k ∈ charged rc -> reachable roots k.
Proof.
  intros Hex Hrank Hpar. set (M := max_list (rank <$> elements (charged rc))).
  assert (HM : forall k, k ∈ charged rc -> (rank k <= M)%nat).
  { intros k Hk. apply max_list_elem_of_le, list_elem_of_fmap_2, elem_of_elements, Hk. }
  intros k. remember (M - rank k)%nat as n eqn:Hn. revert k Hn.
  induction n as [n IH] using lt_wf_ind. intros k Hn Hk.
  destruct (Hpar k Hk) as [Hr|(h & -> & Hc)]; [exists k; done|].
  rewrite (re_count _ Hex), indeg_pos in Hc. destruct Hc as (k' & Hk' & Hh).
  assert (Hch : child_of k' (AK_Ref h)) by (by exists h). pose proof (Hrank _ _ Hch). pose proof (HM _ Hk').
  destruct (IH (M - rank k')%nat ltac:(lia) k' eq_refl Hk') as (r & Hr & Hrk).
  exists r. split; [done|]. by eapply rtc_r.
Qed.

(** The bytes of a node: a stored one with its hash and its count, a direct one as key and value. *)
Definition key_bytes (key_size : ArenaKey -> Z) (k : ArenaKey) : Z :=
  match k with AK_Ref h => from_option node_size 0 (backend !! h) + 36 | AK_Direct _ _ _ => 2 * key_size k end.
Definition total_bytes (key_size : ArenaKey -> Z) (A : gset ArenaKey) : Z := foldr Z.add 0 (key_bytes key_size <$> elements A).
Lemma compute_bytes_ok key_size (A : gset ArenaKey) :
  (forall k, k ∈ A -> loadable k) ->
  compute_bytes_from_keys (E := E) backend key_size A = Ok (total_bytes key_size A mod 2 ^ 64).
Proof.
  intros HA. unfold compute_bytes_from_keys, total_bytes.
  assert (Hl : Forall loadable (elements A)) by (apply list.Forall_forall; intros k ?%elem_of_elements; auto).
  change 0 with (0 mod 2 ^ 64) at 1. rewrite <- (Z.add_0_l (foldr _ _ _)). generalize 0 at 1 2 as n.
  induction (elements A) as [|k l IH]; intros n; [cbn [try_fold fmap list_fmap foldr]; by rewrite Z.add_0_r|].
  apply Forall_cons_1 in Hl as [[[cs Hcs] _] Hl]. cbn [try_fold fmap list_fmap foldr]. rewrite Z.add_assoc, <- IH by done.
  unfold trunc, u64_max. rewrite !Z.sub_add. destruct k as [h|a d c]; cbn [key_bytes] in *.
  - cbn in Hcs. destruct (backend !! h) as [nd|]; [|done]. cbn [unwrap from_option mbind outcome_bind option_bind].
    f_equal. rewrite ?Zplus_mod_idemp_l, ?Zplus_mod_idemp_r, ?Zplus_mod_idemp_l. f_equal. lia.
  - cbn [mbind outcome_bind]. f_equal. rewrite ?Zplus_mod_idemp_l, ?Zplus_mod_idemp_r, ?Zplus_mod_idemp_l. f_equal. lia.
Qed.

(** What an update returns, whatever the collection limit. *)
Lemma incremental_ok key_size rc roots cpu_cost gc_limit :
  backend_closed -> Forall loadable roots -> rc_exact rc ->
  (forall A, get_writes (E := E) backend rc roots = Ok A -> fits rc A) ->
  exists res A R, incremental_write_delete_costs (E := E) backend key_size rc roots cpu_cost gc_limit = Ok res /\
    get_writes (E := E) backend rc roots = Ok A /\ (forall k, k ∈ A <-> reachable roots k /\ k ∉ charged rc) /\
    rc_exact (wd_updated_charged_keys res) /\
    charged (wd_updated_charged_keys res) = (charged rc ∪ A) ∖ R /\
    (forall r, r ∈ roots -> r ∈ charged (wd_updated_charged_keys res)) /\
    wd_nodes_written res = Z.of_nat (size A) /\ wd_nodes_deleted res = Z.of_nat (size R) /\
    R ⊆ charged rc ∪ A /\
    wd_bytes_written res = total_bytes key_size A mod 2 ^ 64 /\ wd_bytes_deleted res = total_bytes key_size R mod 2 ^ 64 /\
    ((size (charged rc ∪ A) <= gc_limit (cpu_cost (Z.of_nat (size A)) 0%Z))%nat ->
       forall k, k ∈ charged (wd_updated_charged_keys res) ->
       k ∈ roots \/ exists h, k = AK_Ref h /\ 0 < rcount (wd_updated_charged_keys res) h).
Proof.
  intros Hcl Hl Hex Hfits. destruct (get_writes_ok rc roots Hcl Hl) as (A & HA & HAf).
  specialize (Hfits A HA).
  assert (HAr : forall k, k ∈ A <-> reachable roots k /\ k ∉ charged rc).
  { intros k. rewrite HAf. by apply fresh_reachable. }
  assert (HAl : forall k, k ∈ A -> loadable k).
  { intros k [Hk _]%HAr. by eapply reachable_loadable. }
  destruct (update_rcmap_ok rc roots A Hex HAf HAl Hfits) as (rc1 & H1 & Hex1 & Hch1).
  set (limit := gc_limit (cpu_cost (Z.of_nat (size A)) 0)).
  destruct (gc_rcmap_ok rc1 (list_to_set roots) limit Hex1) as (rc2 & R & H2 & Hex2 & Hch2 & HR & Hdj & Hgc).
  { intros h. rewrite (re_count _ Hex1), Hch1. apply Hfits. }
  pose proof (compute_bytes_ok key_size A HAl) as Hbw.
  assert (Hbd : compute_bytes_from_keys (E := E) backend key_size R = Ok (total_bytes key_size R mod 2 ^ 64)).
  { apply compute_bytes_ok. intros k Hk. apply (re_load _ Hex1). set_solver. }
  exists {| wd_bytes_written := total_bytes key_size A mod 2 ^ 64; wd_bytes_deleted := total_bytes key_size R mod 2 ^ 64; wd_nodes_written := Z.of_nat (size A);
       wd_nodes_deleted := Z.of_nat (size R);
       wd_processing_cost := cpu_cost (Z.of_nat (size A)) (Z.of_nat (size R));
       wd_updated_charged_keys := rc2 |}, A, R.
  unfold incremental_write_delete_costs, WriteDeleteResults_new.
  rewrite HA. simpl. rewrite H1. simpl. fold limit. rewrite H2. simpl. rewrite Hbw. simpl. rewrite Hbd. simpl.
  repeat match goal with |- _ /\ _ => split end; try done.
  - by rewrite Hch2, Hch1.
  - intros r Hr. rewrite Hch2, Hch1. apply elem_of_difference.
    split; [|intros HrR; apply (Hdj r HrR); by apply elem_of_list_to_set].
    destruct (decide (r ∈ charged rc)); [set_solver|]. apply elem_of_union_r, HAr. split; [by exists r|done].
  - by rewrite <- Hch1.
  - intros Hs k Hk. rewrite <- Hch1 in Hs. destruct (Hgc Hs k Hk) as [Hr%elem_of_list_to_set|?]; auto.
Qed.

(** C37: Let the back end be closed (what a stored node refers to is stored), the new roots be loadable, the counts
    of the charged keys before the update be exact and the references to a node
    fit 64 bits after it.  Then, whatever the garbage-collection limit, an
    incremental update of the charged keys returns a result: [get_writes]
    terminates within its fuel and no back-end read or map access fails.  The
    new map has exact reference counts and charges every node reachable from the
    new roots.  Written are the reachable nodes not charged before, deleted are
    nodes that were charged or written and are charged no more, none of them
    reachable, and the bytes billed for both are the sums of their sizes, 36
    bytes more for a stored node and twice the key for a direct one, modulo
    [2^64]. *)
Theorem incremental_costs_safe key_size rc roots cpu_cost gc_limit :
  backend_closed -> Forall loadable roots -> rc_exact rc ->
  (forall A, get_writes (E := E) backend rc roots = Ok A -> fits rc A) ->
  exists res A R, incremental_write_delete_costs (E := E) backend key_size rc roots cpu_cost gc_limit = Ok res /\
    rc_exact (wd_updated_charged_keys res) /\
    (forall k, reachable roots k -> k ∈ charged (wd_updated_charged_keys res)) /\
    (forall k, k ∈ A <-> reachable roots k /\ k ∉ charged rc) /\
    (forall k, k ∈ R <-> (k ∈ charged rc \/ k ∈ A) /\ k ∉ charged (wd_updated_charged_keys res)) /\
    (forall k, k ∈ R -> ~ reachable roots k) /\
    wd_nodes_written res = Z.of_nat (size A) /\ wd_nodes_deleted res = Z.of_nat (size R) /\
    wd_bytes_written res = total_bytes key_size A mod 2 ^ 64 /\ wd_bytes_deleted res = total_bytes key_size R mod 2 ^ 64.
Proof.
  intros Hcl Hl Hex Hfits.
  destruct (incremental_ok key_size rc roots cpu_cost gc_limit Hcl Hl Hex Hfits)
    as (res & A & R & HO & _ & HA & Hex' & Hch & Hroots & Hn & Hd & HR & Hbw & Hbd & _).
  assert (Hreach : forall k, reachable roots k -> k ∈ charged (wd_updated_charged_keys res)) by (intros k Hk; by eapply closed_reachable).
  assert (HRk : forall k, k ∈ R <-> (k ∈ charged rc \/ k ∈ A) /\ k ∉ charged (wd_updated_charged_keys res)).
  { intros k. rewrite Hch, elem_of_difference, elem_of_union. specialize (HR k). rewrite elem_of_union in HR. destruct (decide (k ∈ R)); tauto. }
  exists res, A, R. repeat match goal with |- _ /\ _ => split end; try done.
  intros k [_ Hk]%HRk Hr. by apply Hk, Hreach.
Qed.

(** When the collection limit covers the charged nodes and the node graph
    has no cycle, an incremental update charges exactly the nodes reachable from
    the new roots, and bills as deleted exactly the previously charged nodes
    that are no longer reachable. *)
Theorem incremental_costs_complete key_size rc roots cpu_cost gc_limit (rank : ArenaKey -> nat) :
  backend_closed -> Forall loadable roots -> rc_exact rc ->
  (forall k c, child_of k c -> (rank c < rank k)%nat) ->
  (forall A, get_writes (E := E) backend rc roots = Ok A ->
     fits rc A /\ (size (charged rc ∪ A) <= gc_limit (cpu_cost (Z.of_nat (size A)) 0%Z))%nat) ->
  exists res R, incremental_write_delete_costs (E := E) backend key_size rc roots cpu_cost gc_limit = Ok res /\
    (forall k, k ∈ charged (wd_updated_charged_keys res) <-> reachable roots k) /\
    (forall k, k ∈ R <-> k ∈ charged rc /\ ~ reachable roots k) /\
    wd_nodes_deleted res = Z.of_nat (size R) /\
    wd_bytes_deleted res = total_bytes key_size R mod 2 ^ 64.
Proof.
  intros Hcl Hl Hex Hrank Hlim.
  destruct (incremental_ok key_size rc roots cpu_cost gc_limit Hcl Hl Hex) as
    (res & A & R & HO & HA & HAr & Hex' & Hch & Hroots & _ & Hn & HR & _ & Hb & Hgc); [naive_solver|].
  assert (Hreach : forall k, k ∈ charged (wd_updated_charged_keys res) <-> reachable roots k).
  { intros k. split; [|intros; by eapply closed_reachable].
    eapply parents_reachable; [done|done|]. apply Hgc. naive_solver. }
  exists res, R. repeat match goal with |- _ /\ _ => split end; try done.
  intros k. rewrite <- Hreach, Hch, elem_of_difference. split.
  - intros Hk. split; [|tauto]. pose proof (HR k Hk) as [?|HkA]%elem_of_union; [done|].
    apply HAr in HkA as [HkA _]. apply Hreach in HkA. rewrite Hch in HkA. set_solver.
  - intros [Hk Hnot]. destruct (decide (k ∈ R)); [done|]. exfalso. apply Hnot. set_solver.
Qed.
End delta.

(** ** An example: state 4 shares node 2 with its successor 1 *)
Definition ex_node (cs : list ArenaHash) (n : Z) : OnDiskNode :=
  {| node_children := AK_Ref <$> cs; node_size := n |}.
Definition ex_backend : Backend :=
  <[[1] := ex_node [[2]; [3]] 10]> (<[[2] := ex_node [] 20]>
  (<[[3] := ex_node [[2]] 30]> (<[[4] := ex_node [[2]] 40]> ∅))).
Definition ex_rc : RcMap := {| rc_ge_1 := {[ [2] := 1 ]}; rc_0 := {[ AK_Ref [4] ]} |}.
Definition ex_rank (k : ArenaKey) : nat :=
  match k with
  | AK_Ref [2] => 1 | AK_Ref [3] => 2 | AK_Ref [1] | AK_Ref [4] => 3 | AK_Ref _ => 0
  | AK_Direct _ _ _ => 10
  end.

Lemma ex_nodes h n : ex_backend !! h = Some n ->
  Forall (fun c => is_Some (ex_backend !! c) /\ (ex_rank (AK_Ref c) < ex_rank (AK_Ref h))%nat)
    (concat (map refs (node_children n))).
Proof.
  revert h n. change (map_Forall (fun h n => Forall (fun c => is_Some (ex_backend !! c) /\
    (ex_rank (AK_Ref c) < ex_rank (AK_Ref h))%nat) (concat (map refs (node_children n)))) ex_backend).
  apply (bool_decide_eq_true_1 _). vm_compute. reflexivity.
Qed.
Lemma ex_closed : backend_closed ex_backend.
Proof.
  intros h [n Hn]. unfold loadable, kids. simpl. rewrite Hn. simpl. split; [eauto|].
  intros c Hc. pose proof (ex_nodes h n Hn) as Hf. rewrite list.Forall_forall in Hf. by apply Hf.
Qed.
Lemma ex_acyclic k c : child_of ex_backend k c -> (ex_rank c < ex_rank k)%nat.
Proof.
  intros (x & -> & Hx). destruct k as [h|a d cs].
  - unfold kids in Hx. simpl in Hx. destruct (ex_backend !! h) as [n|] eqn:Hn; simpl in Hx; [|set_solver].
    pose proof (ex_nodes h n Hn) as Hf. rewrite list.Forall_forall in Hf. by apply Hf.
  - change (ex_rank (AK_Direct a d cs)) with 10%nat. unfold ex_rank. repeat case_match; lia.
Qed.
Lemma ex_exact : rc_exact ex_backend ex_rc.
Proof.
  constructor.
  - intros h n Hn. simpl in Hn. revert Hn. intros [<- <-]%lookup_singleton_Some. split; [lia|]. by apply (bool_decide_eq_true_1 _).
  - intros h. unfold indeg. replace (elements (charged ex_rc) ≫= kids ex_backend) with [[2]] by (by vm_compute).
    rewrite cnt_single. unfold rcount. simpl. destruct (decide ([2] = h)) as [<-|Hne].
    + by rewrite lookup_singleton_eq.
    + by rewrite lookup_singleton_ne.
  - intros [h|a d cs]; [|by rewrite elem_of_charged_direct; simpl; intros ?%elem_of_singleton].
    rewrite elem_of_charged_ref. simpl. rewrite <- elem_of_dom, dom_singleton, !elem_of_singleton.
    intros [->|[= ->]]; apply ex_closed; vm_compute; eauto.
Qed.
Lemma ex_roots : Forall (loadable ex_backend) [AK_Ref [1]].
Proof. repeat constructor; apply ex_closed; vm_compute; eauto. Qed.
Lemma cnt_le_length h l : cnt h l <= Z.of_nat (length l).
Proof. unfold cnt. pose proof (length_filter (fun x => x = h) l). lia. Qed.
Lemma ex_fits A : get_writes (E := unit) ex_backend ex_rc [AK_Ref [1]] = Ok A ->
  fits ex_backend ex_rc A /\ (size (charged ex_rc ∪ A) <= 4)%nat.
Proof.
  intros HA. assert (Hv : get_writes (E := unit) ex_backend ex_rc [AK_Ref [1]] = Ok {[AK_Ref [1]; AK_Ref [3]]})
    by (by vm_compute). rewrite Hv in HA. injection HA as <-. split.
  - intros h. unfold indeg. etransitivity; [apply cnt_le_length|]. by vm_compute.
  - vm_compute. lia.
Qed.

Lemma incremental_costs_safe_witness :
  exists res A R, incremental_write_delete_costs (E := unit) ex_backend (fun _ => 0) ex_rc [AK_Ref [1]]
      (fun _ _ => RunningCost_ZERO) (fun _ => 1%nat) = Ok res /\
    rc_exact ex_backend (wd_updated_charged_keys res) /\
    (forall k, reachable ex_backend [AK_Ref [1]] k -> k ∈ charged (wd_updated_charged_keys res)) /\
    (forall k, k ∈ A <-> reachable ex_backend [AK_Ref [1]] k /\ k ∉ charged ex_rc) /\
    (forall k, k ∈ R <-> (k ∈ charged ex_rc \/ k ∈ A) /\ k ∉ charged (wd_updated_charged_keys res)) /\
    (forall k, k ∈ R -> ~ reachable ex_backend [AK_Ref [1]] k) /\
    wd_nodes_written res = Z.of_nat (size A) /\ wd_nodes_deleted res = Z.of_nat (size R) /\
    wd_bytes_written res = total_bytes ex_backend (fun _ => 0) A mod 2 ^ 64 /\
    wd_bytes_deleted res = total_bytes ex_backend (fun _ => 0) R mod 2 ^ 64.
Proof.
  apply (incremental_costs_safe ex_backend (fun _ => 0) ex_rc [AK_Ref [1]]);
    [apply ex_closed|apply ex_roots|apply ex_exact|apply ex_fits].
Defined.
Lemma incremental_costs_complete_witness :
  exists res R, incremental_write_delete_costs (E := unit) ex_backend (fun _ => 0) ex_rc [AK_Ref [1]]
      (fun _ _ => RunningCost_ZERO) (fun _ => 4%nat) = Ok res /\
    (forall k, k ∈ charged (wd_updated_charged_keys res) <-> reachable ex_backend [AK_Ref [1]] k) /\
    (forall k, k ∈ R <-> k ∈ charged ex_rc /\ ~ reachable ex_backend [AK_Ref [1]] k) /\
    wd_nodes_deleted res = Z.of_nat (size R) /\
    wd_bytes_deleted res = total_bytes ex_backend (fun _ => 0) R mod 2 ^ 64.
Proof.
  apply (incremental_costs_complete ex_backend (fun _ => 0) ex_rc [AK_Ref [1]] _ _ ex_rank);
    [apply ex_closed|apply ex_roots|apply ex_exact|apply ex_acyclic|apply ex_fits].
Defined.
