(* ===== verification/Fab.v ===== *)
(** * Field-aligned binary values: [base-crypto/src/fab]

    Values are sequences of byte strings ([Value], [ValueAtom]); an
    [Alignment] says how to read them (fixed-width bytes, a field element,
    data to compress, or a tagged union of alignments).  [AlignedValue] pairs
    the two.  Modelled: [encoding.rs] (normal form, [fits]/[consume],
    [concat], [default]), [alignments.rs] and the conversions of builtin types
    of [conversions.rs].  Debug output, sampling and serde are left out. *)
From S2P Require Import Prelude.
Set Warnings "-register-all".

(** ** Data *)

(** A byte string, each element a [u8]. *)
Abbreviation ValueAtom := (list Z).
Abbreviation Value := (list ValueAtom).

Inductive AlignmentAtom :=
  | Compress
  | Bytes (length : Z)
  | Field.

Inductive AlignmentSegment :=
  | Atom (atom : AlignmentAtom)
  | Option (options : list (list AlignmentSegment)).

Abbreviation Alignment := (list AlignmentSegment).

Record AlignedValue := mkAlignedValue {
  av_value : Value;
  av_alignment : Alignment;
}.

(** [InvalidBuiltinDecode(&'static str)]. *)
Abbreviation InvalidBuiltinDecode := string.

Definition FIELD_BYTE_LIMIT : nat := 64.
Definition PERSISTENT_HASH_BYTES : nat := 32.

(** *** Induction over nested alignments *)
Section segment_ind.
  Variable P : AlignmentSegment -> Prop.
  Hypothesis HAtom : forall a, P (Atom a).
  Hypothesis HOption : forall os, Forall (Forall P) os -> P (Option os).
Fixpoint AlignmentSegment_ind' (s : AlignmentSegment) : P s :=
    match s with
    | Atom a => HAtom a
    | Option os =>
        HOption os
          ((fix outer (os : list (list AlignmentSegment)) : Forall (Forall P) os :=
              match os with
              | [] => Forall_nil_2 _
              | al :: os =>
                  Forall_cons_2 _ al os
                    ((fix inner (al : list AlignmentSegment) : Forall P al :=
                        match al with
                        | [] => Forall_nil_2 _
                        | s :: al => Forall_cons_2 _ s al (AlignmentSegment_ind' s) (inner al)
                        end) al)
                    (outer os)
              end) os)
    end.
End segment_ind.

(** *** Equality and countability, for use as map keys *)
#[global] Instance AlignmentAtom_eq_dec : EqDecision AlignmentAtom.
Proof. solve_decision. Defined.
#[global] Instance AlignmentAtom_countable : Countable AlignmentAtom.
Proof.
  apply (inj_countable'
    (fun a => match a with Compress => inl (inl tt) | Bytes n => inr n | Field => inl (inr tt) end)
    (fun s => match s with inl (inl _) => Compress | inr n => Bytes n | inl (inr _) => Field end)).
  by intros [].
Defined.

Fixpoint segment_to_tree (s : AlignmentSegment) : gen_tree AlignmentAtom :=
  match s with
  | Atom a => GenLeaf a
  | Option os => GenNode 0 (map (fun al => GenNode 1 (map segment_to_tree al)) os)
  end.
Fixpoint segment_of_tree (t : gen_tree AlignmentAtom) : AlignmentSegment :=
  match t with
  | GenLeaf a => Atom a
  | GenNode _ os =>
      Option (map (fun t => match t with
                            | GenNode _ al => map segment_of_tree al
                            | GenLeaf _ => []
                            end) os)
  end.
Lemma segment_of_to_tree s : segment_of_tree (segment_to_tree s) = s.
Proof.
  induction s as [a|os IH] using AlignmentSegment_ind'; simpl; [done|].
  f_equal. induction IH as [|al os Hal _ IHos]; simpl; [done|]. f_equal; [|exact IHos].
  induction Hal as [|s al Hs _ IHal]; simpl; [done|]. by f_equal.
Qed.
#[global] Instance AlignmentSegment_eq_dec : EqDecision AlignmentSegment.
Proof.
  intros x y. destruct (decide (segment_to_tree x = segment_to_tree y)) as [H|H].
  - left. by rewrite <- (segment_of_to_tree x), H, segment_of_to_tree.
  - right. congruence.
Defined.
#[global] Instance AlignmentSegment_countable : Countable AlignmentSegment :=
  inj_countable' segment_to_tree segment_of_tree segment_of_to_tree.
#[global] Instance AlignedValue_eq_dec : EqDecision AlignedValue.
Proof. solve_decision. Defined.
#[global] Instance AlignedValue_countable : Countable AlignedValue.
Proof.
  apply (inj_countable' (fun av => (av_value av, av_alignment av))
           (fun p => mkAlignedValue p.1 p.2)).
  by intros [].
Defined.

(** ** Normal form *)

(** The loop of [normalize]: drop the zeros at the end (here: the head of the
    reversed string). *)
Fixpoint pop_zeros (l : list Z) : list Z :=
  match l with
  | b :: l' => if b =? 0 then pop_zeros l' else l
  | [] => []
  end.
Definition normalize_atom (a : ValueAtom) : ValueAtom := reverse (pop_zeros (reverse a)).
Definition is_in_normal_form (a : ValueAtom) : bool := bool_decide (list.last a <> Some 0).

(** ** Alignment *)

Definition atom_fits (self : AlignmentAtom) (value : ValueAtom) : bool :=
  match self with
  | Compress => true
  | Bytes length =>
      (trunc u32_max (Z.of_nat (List.length value)) <=? length) && is_in_normal_form value
  | Field => (List.length value <=? FIELD_BYTE_LIMIT)%nat && is_in_normal_form value
  end.

(** *** Little-endian integers *)
Fixpoint from_le_bytes (l : list Z) : Z :=
  match l with
  | [] => 0
  | b :: l => b + 256 * from_le_bytes l
  end.
Fixpoint to_le_bytes (n : nat) (x : Z) : list Z :=
  match n with
  | O => []
  | S n => x mod 256 :: to_le_bytes n (x / 256)
  end.

(** [TryFrom<&ValueAtom> for u128]: at most 16 bytes, zero extended.  (The
    error carries the name "Fr", as in the source.) *)
Definition u128_try_from (value : ValueAtom) : outcome InvalidBuiltinDecode Z :=
  if (List.length value <=? 128 / 8)%nat then Ok (from_le_bytes value) else Err "Fr".
(** [wrap_via_u128!]: the narrower integers, for [max] in u8, u16, u32, u64. *)
Definition uint_try_from (max : Z) (ty : string) (value : ValueAtom)
    : outcome InvalidBuiltinDecode Z :=
  x ← u128_try_from value; if x <=? max then Ok x else Err ty.
Definition bool_try_from (value : ValueAtom) : outcome InvalidBuiltinDecode bool :=
  byte ← uint_try_from u8_max "u8" value;
  if byte =? 0 then Ok false else if byte =? 1 then Ok true else Err "bool".
(** [TryFrom<&ValueAtom> for HashOutput]: at most 32 bytes, zero extended. *)
Abbreviation HashOutput := (list Z).
Definition hash_try_from (value : ValueAtom) : outcome InvalidBuiltinDecode HashOutput :=
  if (List.length value <=? PERSISTENT_HASH_BYTES)%nat
  then Ok (value ++ replicate (PERSISTENT_HASH_BYTES - List.length value) 0)
  else Err "HashOutput".

(** [forward_primitive_value!]: a value holds one atom. *)
Definition single_try_from {A} (conv : ValueAtom -> outcome InvalidBuiltinDecode A) (ty : string)
    (value : Value) : outcome InvalidBuiltinDecode A :=
  match value with
  | [a] => conv a
  | _ => Err ty
  end.
Definition u8_of_value := single_try_from (uint_try_from u8_max "u8") "u8".
Definition u16_of_value := single_try_from (uint_try_from u16_max "u16") "u16".
Definition u64_of_value := single_try_from (uint_try_from u64_max "u64") "u64".
Definition u128_of_value := single_try_from u128_try_from "u128".
Definition bool_of_value := single_try_from bool_try_from "bool".
Definition hash_of_value := single_try_from hash_try_from "HashOutput".

(** *** [Alignment::consume_internal]

    [consume_loop] is the [for] loop over the segments, [pick_branch] the
    [tys.get(branch)] lookup. *)
Section consume.
  Context {T : Type} (f : T -> AlignmentAtom -> T) (len : T -> nat).

  Section loop.
    Variable step : AlignmentSegment -> Value -> T -> option (T * Value).
Fixpoint consume_loop (al : Alignment) (value : Value) (acc : T) : option T :=
      match al with
      | [] => Some acc
      | ts :: al => '(acc, value) ← step ts value acc; consume_loop al value acc
      end.
  End loop.

  Section pick.
    Variable k : Alignment -> option T.
Fixpoint pick_branch (tys : list Alignment) (n : nat) : option T :=
      match tys, n with
      | al :: _, O => k al
      | _ :: tys, S n => pick_branch tys n
      | [], _ => None
      end.
  End pick.

Fixpoint consume_segment (ts : AlignmentSegment) (value : Value) (acc : T)
      : option (T * Value) :=
    match ts with
    | Atom pty =>
        match value with
        | v :: rest => if atom_fits pty v then Some (f acc pty, rest) else None
        | [] => None
        end
    | Option tys =>
        match value with
        | v :: rest =>
            if atom_fits (Bytes 2) v then
              match u16_of_value [v] with
              | Ok branch =>
                  let acc := f acc (Bytes 2) in
                  let prev_consumed := len acc in
                  acc ← pick_branch (fun al => consume_loop consume_segment al rest acc)
                          tys (Z.to_nat branch);
                  let consumed := (len acc - prev_consumed)%nat in
                  Some (acc, drop consumed rest)
              | _ => None
              end
            else None
        | [] => None
        end
    end.

Definition consume_internal (self : Alignment) (value : Value) (acc : T) : option T :=
    consume_loop consume_segment self value acc.
End consume.

(** The counting closure every caller passes. *)
Definition count_atoms (self : Alignment) (value : Value) : option nat :=
  consume_internal (fun ctr _ => S ctr) (fun ctr => ctr) self value 0%nat.

(** [Alignment::consume]: the aligned prefix and the rest. *)
Definition consume (self : Alignment) (value : Value) : option (Value * Value) :=
  split_point ← count_atoms self value;
  Some (take split_point value, drop split_point value).
(** [Alignment::fits]. *)
Definition fits (self : Alignment) (value : Value) : bool :=
  match consume self value with
  | Some (_, []) => true
  | _ => false
  end.

Definition Alignment_singleton (pty : AlignmentAtom) : Alignment := [Atom pty].
Definition Alignment_concat (l : list Alignment) : Alignment := concat l.
Definition Value_concat (l : list Value) : Value := concat l.

(** [Alignment::default]. *)
Fixpoint segment_default (ts : AlignmentSegment) : Value :=
  match ts with
  | Atom _ => [[]]
  | Option [] => []
  | Option (ty :: _) => concat (map segment_default ty)
  end.
Definition Alignment_default (self : Alignment) : Value := concat (map segment_default self).

(** [AlignedValue::new] and [AlignedValue::concat]. *)
Definition AlignedValue_new (value : Value) (alignment : Alignment) : option AlignedValue :=
  if fits alignment value then Some (mkAlignedValue value alignment) else None.
Definition AlignedValue_concat (l : list AlignedValue) : AlignedValue :=
  mkAlignedValue (concat (map av_value l)) (concat (map av_alignment l)).

(** [TryFrom<AlignedValueUnchecked> for AlignedValue], the check applied to
    values that come in through serde. *)
Definition AlignedValue_try_from_unchecked (value : Value) (alignment : Alignment)
    : option AlignedValue :=
  if negb (fits alignment value) then None
  else if negb (forallb is_in_normal_form value) then None
  else Some (mkAlignedValue value alignment).

(** ** Builtin types as aligned values

    [From<T> for AlignedValue] computes the value and its alignment and
    [expect]s them to fit. *)
Definition AlignedValue_from (value : Value) (alignment : Alignment)
    : outcome InvalidBuiltinDecode AlignedValue := unwrap (AlignedValue_new value alignment).

Definition uint_atom (x : Z) : ValueAtom := normalize_atom (to_le_bytes 16 x).
Definition bool_atom (b : bool) : ValueAtom := normalize_atom [if b then 1 else 0].
Definition hash_atom (h : HashOutput) : ValueAtom := normalize_atom h.

Definition u8_alignment : Alignment := Alignment_singleton (Bytes 1).
Definition u64_alignment : Alignment := Alignment_singleton (Bytes 8).
Definition bool_alignment : Alignment := Alignment_singleton (Bytes 1).
Definition hash_alignment : Alignment := Alignment_singleton (Bytes 32).
Definition field_alignment : Alignment := Alignment_singleton Field.

Definition av_of_u8 (x : Z) : AlignedValue := mkAlignedValue [uint_atom x] u8_alignment.
Definition av_of_u64 (x : Z) : AlignedValue := mkAlignedValue [uint_atom x] u64_alignment.
Definition av_of_bool (b : bool) : AlignedValue := mkAlignedValue [bool_atom b] bool_alignment.
Definition av_of_hash (h : HashOutput) : AlignedValue := mkAlignedValue [hash_atom h] hash_alignment.
Definition av_of_unit : AlignedValue := mkAlignedValue [] [].

#[global] Arguments atom_fits : simpl never.
#[global] Arguments u16_of_value : simpl never.

(** ** Normal form lemmas *)

Definition bytes_wf (a : ValueAtom) : Prop := Forall is_u8 a.

Lemma normalize_atom_snoc a b :
  normalize_atom (a ++ [b]) = if b =? 0 then normalize_atom a else a ++ [b].
Proof.
  unfold normalize_atom. rewrite reverse_app. simpl.
  destruct (b =? 0); [done|]. rewrite reverse_cons, reverse_involutive. done.
Qed.
Lemma normalize_atom_nil : normalize_atom [] = [].
Proof. reflexivity. Qed.

Lemma normal_form_snoc a b : is_in_normal_form (a ++ [b]) = negb (b =? 0).
Proof.
  unfold is_in_normal_form. rewrite last_snoc.
  destruct (Z.eqb_spec b 0) as [->|]; [done|]. apply bool_decide_eq_true_2. congruence.
Qed.

Lemma normalize_normal a : is_in_normal_form (normalize_atom a) = true.
Proof.
  induction a as [|b a IH] using rev_ind; [done|].
  rewrite normalize_atom_snoc. destruct (b =? 0) eqn:E; [done|].
  by rewrite normal_form_snoc, E.
Qed.
Lemma normalize_id a : is_in_normal_form a = true -> normalize_atom a = a.
Proof.
  destruct a as [|b a _] using rev_ind; [done|].
  rewrite normal_form_snoc, normalize_atom_snoc. by destruct (b =? 0).
Qed.
Lemma length_normalize a : (length (normalize_atom a) <= length a)%nat.
Proof.
  induction a as [|b a IH] using rev_ind; [done|].
  rewrite normalize_atom_snoc. destruct (b =? 0); [|done].
  rewrite length_app. simpl. lia.
Qed.
Lemma normalize_bytes_wf a : bytes_wf a -> bytes_wf (normalize_atom a).
Proof.
  unfold bytes_wf. induction a as [|b a IH] using rev_ind; [done|].
  rewrite normalize_atom_snoc. intros H. destruct (b =? 0); [|done].
  apply Forall_app in H as [? _]. auto.
Qed.
#[export] Hint Resolve normalize_normal normalize_bytes_wf length_normalize : core.

Lemma from_le_bytes_snoc a b :
  from_le_bytes (a ++ [b]) = from_le_bytes a + 256 ^ Z.of_nat (length a) * b.
Proof.
  induction a as [|c a IH]; cbn [from_le_bytes app length]; [lia|].
  rewrite IH, Nat2Z.inj_succ, Z.pow_succ_r by lia. lia.
Qed.
Lemma from_le_bytes_normalize a : from_le_bytes (normalize_atom a) = from_le_bytes a.
Proof.
  induction a as [|b a IH] using rev_ind; [done|].
  rewrite normalize_atom_snoc. destruct (Z.eqb_spec b 0); [|done].
  subst. rewrite from_le_bytes_snoc, IH. lia.
Qed.
Lemma from_to_le_bytes n x : 0 <= x < 256 ^ Z.of_nat n -> from_le_bytes (to_le_bytes n x) = x.
Proof.
  revert x; induction n as [|n IH]; intros x; cbn [from_le_bytes to_le_bytes]; [simpl; lia|].
  rewrite Nat2Z.inj_succ, Z.pow_succ_r by lia. intros Hx.
  rewrite IH. 2: { split; [apply Z.div_pos|apply Z.div_lt_upper_bound]; lia. }
  pose proof (Z.div_mod x 256 ltac:(lia)). lia.
Qed.
Lemma length_to_le_bytes n x : length (to_le_bytes n x) = n.
Proof. revert x; induction n; intros; simpl; auto. Qed.
Lemma to_le_bytes_wf n x : bytes_wf (to_le_bytes n x).
Proof.
  revert x; induction n as [|n IH]; intros x; [constructor|].
  constructor; [|apply IH]. pose proof (Z.mod_pos_bound x 256). ints.
Qed.
Lemma from_le_bytes_bound a : bytes_wf a -> 0 <= from_le_bytes a < 256 ^ Z.of_nat (length a).
Proof.
  induction 1 as [|b a Hb _ IH]; cbn [from_le_bytes length]; [simpl; lia|].
  rewrite Nat2Z.inj_succ, Z.pow_succ_r by lia. unfold in_u, u8_max in Hb. lia.
Qed.

(** A normalised string has its highest byte non-zero, so it is no longer than
    needed. *)
Lemma normal_length_le a n :
  bytes_wf a -> is_in_normal_form a = true -> from_le_bytes a < 256 ^ Z.of_nat n ->
  (length a <= n)%nat.
Proof.
  destruct a as [|b a _] using rev_ind; [simpl; lia|].
  rewrite normal_form_snoc, from_le_bytes_snoc. intros Hwf Hb Hlt.
  unfold bytes_wf in Hwf. rewrite Forall_app, Forall_singleton in Hwf. destruct Hwf as [Ha Hb'].
  pose proof (from_le_bytes_bound a Ha). destruct (Z.eqb_spec b 0); [done|].
  rewrite length_app. simpl. unfold in_u in *.
  destruct (decide (length a < n)%nat) as [|Hge]; [lia|]. exfalso.
  assert (256 ^ Z.of_nat n <= 256 ^ Z.of_nat (length a)) by (apply Z.pow_le_mono_r; lia).
  nia.
Qed.

Lemma length_uint_atom n x :
  (n <= 16)%nat -> 0 <= x < 256 ^ Z.of_nat n -> (length (uint_atom x) <= n)%nat.
Proof.
  intros Hn Hx. unfold uint_atom.
  assert (x < 256 ^ Z.of_nat 16).
  { eapply Z.lt_le_trans; [apply Hx|]. apply Z.pow_le_mono_r; lia. }
  apply normal_length_le; auto using to_le_bytes_wf.
  rewrite from_le_bytes_normalize, from_to_le_bytes; lia.
Qed.

(** ** The declarative reading of alignments *)

(** [al_matches al v]: [v] is one instance of [al], every union resolved by its
    discriminant. *)
Inductive seg_matches : AlignmentSegment -> Value -> Prop :=
  | match_atom a v : atom_fits a v = true -> seg_matches (Atom a) [v]
  | match_option tys v branch al rest :
      atom_fits (Bytes 2) v = true -> u16_of_value [v] = Ok branch ->
      tys !! Z.to_nat branch = Some al -> al_matches al rest ->
      seg_matches (Option tys) (v :: rest)
with al_matches : Alignment -> Value -> Prop :=
  | match_nil : al_matches [] []
  | match_cons ts al v1 v2 :
      seg_matches ts v1 -> al_matches al v2 -> al_matches (ts :: al) (v1 ++ v2).
#[export] Hint Constructors seg_matches al_matches : core.

Lemma al_matches_app a b v w :
  al_matches a v -> al_matches b w -> al_matches (a ++ b) (v ++ w).
Proof.
  intros Ha Hb. revert v Ha. induction a as [|ts a IH]; intros v Ha.
  - inversion Ha; subst. done.
  - inversion Ha; subst. rewrite <- app_assoc. simpl. constructor; auto.
Qed.

Lemma pick_branch_lookup {T} (k : Alignment -> option T) tys n :
  pick_branch k tys n = tys !! n ≫= k.
Proof. revert n; induction tys as [|al tys IH]; intros [|n]; simpl; auto. Qed.

Abbreviation seg_count := (consume_segment (fun ctr _ => S ctr) (fun ctr => ctr)).
Abbreviation loop_count := (consume_loop seg_count).

Definition seg_count_spec (ts : AlignmentSegment) : Prop :=
  forall value acc acc' rest,
    seg_count ts value acc = Some (acc', rest) <->
    exists v1, value = v1 ++ rest /\ seg_matches ts v1 /\ acc' = (acc + length v1)%nat.

Lemma loop_count_spec al :
  Forall seg_count_spec al -> forall value acc acc',
  loop_count al value acc = Some acc' <->
  exists v1 rest, value = v1 ++ rest /\ al_matches al v1 /\ acc' = (acc + length v1)%nat.
Proof.
  induction 1 as [|ts al Hts _ IH]; intros value acc acc'; simpl.
  - split.
    + intros [= <-]. exists [], value. eauto with lia.
    + intros (v1 & rest & -> & Hm & ->). inversion Hm; subst. simpl. f_equal. lia.
  - split.
    + destruct (seg_count ts value acc) as [[acc1 rest1]|] eqn:E; [|discriminate].
      apply Hts in E as (v1 & -> & Hm1 & ->). simpl.
      intros (v2 & rest & -> & Hm2 & ->)%IH.
      exists (v1 ++ v2), rest. rewrite <- app_assoc, length_app. eauto with lia.
    + intros (v & rest & -> & Hm & ->). inversion Hm as [|? ? v1 v2 Hm1 Hm2]; subst.
      assert (E : seg_count ts ((v1 ++ v2) ++ rest) acc
                  = Some ((acc + length v1)%nat, v2 ++ rest)).
      { apply Hts. exists v1. by rewrite <- app_assoc. }
      rewrite E. simpl. apply IH. exists v2, rest. rewrite length_app. eauto with lia.
Qed.

Lemma seg_count_ok ts : seg_count_spec ts.
Proof.
  induction ts as [a|tys IH] using AlignmentSegment_ind'; intros value acc acc' rest; simpl.
  - split.
    + destruct value as [|v vs]; [done|]. destruct (atom_fits a v) eqn:E; [|done].
      intros [= <- <-]. exists [v]. simpl. eauto with lia.
    + intros (v1 & -> & Hm & ->). inversion Hm as [? v Hfit|]; subst. simpl.
      rewrite Hfit. do 2 f_equal. lia.
  - assert (Hbr : forall n al, tys !! n = Some al -> Forall seg_count_spec al).
    { intros n al Hl. rewrite Forall_lookup in IH. eauto. }
    split.
    + destruct value as [|v vs]; [done|].
      destruct (atom_fits (Bytes 2) v) eqn:E; [|done].
      destruct (u16_of_value [v]) as [br| |] eqn:E2; [|done..].
      rewrite pick_branch_lookup. destruct (tys !! Z.to_nat br) as [al|] eqn:E3; simpl; [|done].
      destruct (loop_count al vs (S acc)) as [acc1|] eqn:E4; simpl; [|done].
      intros [= <- <-].
      apply (loop_count_spec al (Hbr _ _ E3)) in E4 as (v1 & r & -> & Hm & ->).
      replace (S acc + length v1 - S acc)%nat with (length v1) by lia.
      rewrite drop_app_length. exists (v :: v1). simpl. eauto 6 with lia.
    + intros (v1 & -> & Hm & ->). inversion Hm as [|? v br al r Hf Hu Hl Hal]; subst. simpl.
      rewrite Hf, Hu, pick_branch_lookup, Hl. simpl.
      assert (E : loop_count al (r ++ rest) (S acc) = Some (S acc + length r)%nat).
      { apply (loop_count_spec al (Hbr _ _ Hl)). eauto 6. }
      rewrite E. simpl. replace (acc + length r - acc)%nat with (length r) by lia.
      rewrite drop_app_length. do 2 f_equal. lia.
Qed.

Lemma count_atoms_spec al value n :
  count_atoms al value = Some n <->
  exists v1 rest, value = v1 ++ rest /\ al_matches al v1 /\ n = length v1.
Proof.
  unfold count_atoms, consume_internal. rewrite loop_count_spec.
  - simpl. naive_solver.
  - apply Forall_forall. intros; apply seg_count_ok.
Qed.

(** ** Properties *)

(** [Alignment::consume] splits off exactly the prefix the alignment
    describes: it returns [(v, rest)] precisely when the value is [v] followed
    by [rest] and [v] is an instance of the alignment (unions resolved by their
    discriminant).  In particular the split is unique. *)
Theorem consume_spec (al : Alignment) (value v rest : Value) :
  consume al value = Some (v, rest) <-> value = v ++ rest /\ al_matches al v.
Proof.
  unfold consume. split.
  - destruct (count_atoms al value) as [n|] eqn:E; simpl; [|done].
    intros [= <- <-]. apply count_atoms_spec in E as (v1 & r & -> & Hm & ->).
    by rewrite take_app_length, drop_app_length.
  - intros [-> Hm].
    assert (E : count_atoms al (v ++ rest) = Some (length v)) by (apply count_atoms_spec; eauto).
    rewrite E. simpl. by rewrite take_app_length, drop_app_length.
Qed.

Lemma fits_matches al v : fits al v = true <-> al_matches al v.
Proof.
  unfold fits, consume. split.
  - destruct (count_atoms al v) as [n|] eqn:E; simpl; [|done].
    apply count_atoms_spec in E as (v1 & r & -> & Hm & ->).
    rewrite drop_app_length. destruct r; [|done]. by rewrite app_nil_r.
  - intros Hm. assert (E : count_atoms al v = Some (length v)).
    { apply count_atoms_spec. exists v, []. by rewrite app_nil_r. }
    rewrite E. simpl. by rewrite drop_all.
Qed.

(** Aligned values, as every constructor of the code produces them. *)
Definition av_aligned (av : AlignedValue) : Prop :=
  fits (av_alignment av) (av_value av) = true.

(** Concatenating aligned values gives an aligned value:
    [AlignedValue::concat] needs no check, and the checked construction the VM
    uses for [concat] never fails on aligned operands. *)
Theorem AlignedValue_concat_aligned (l : list AlignedValue) :
  Forall av_aligned l ->
  av_aligned (AlignedValue_concat l) /\
  AlignedValue_new (Value_concat (map av_value l)) (Alignment_concat (map av_alignment l))
    = Some (AlignedValue_concat l).
Proof.
  intros Hl. assert (Hc : av_aligned (AlignedValue_concat l)).
  { unfold av_aligned, AlignedValue_concat. simpl. apply fits_matches.
    induction Hl as [|av l Hav _ IH]; simpl; [constructor|].
    apply al_matches_app; [by apply fits_matches|done]. }
  split; [done|]. unfold AlignedValue_new, Value_concat, Alignment_concat.
  unfold av_aligned, AlignedValue_concat in Hc. simpl in Hc. by rewrite Hc.
Qed.
Lemma AlignedValue_concat_aligned_witness :
  av_aligned (AlignedValue_concat [av_of_u64 300; av_of_bool true; av_of_unit]).
Proof.
  apply AlignedValue_concat_aligned.
  repeat constructor; vm_compute; reflexivity.
Defined.

(** No tagged union, and declared lengths are [u32] (so non-negative). *)
Definition plain_segment (ts : AlignmentSegment) : Prop :=
  match ts with
  | Atom (Bytes n) => 0 <= n
  | Atom _ => True
  | Option _ => False
  end.

Lemma atom_fits_nil a : plain_segment (Atom a) -> atom_fits a [] = true.
Proof.
  destruct a as [|n|]; unfold atom_fits; simpl; [done| |done].
  intros Hn. change (trunc u32_max 0) with 0. apply andb_true_intro. split; [by apply Z.leb_le|done].
Qed.

(** [Alignment::default] is an aligned value for every alignment without
    tagged unions. *)
Theorem default_fits_plain (al : Alignment) :
  Forall plain_segment al -> fits al (Alignment_default al) = true.
Proof.
  intros Hal. apply fits_matches. unfold Alignment_default.
  induction Hal as [|ts al Hts _ IH]; simpl; [constructor|].
  destruct ts as [a|tys]; simpl; [|done].
  apply (match_cons (Atom a) al [[]]); [|exact IH].
  constructor. by apply atom_fits_nil.
Qed.
Lemma default_fits_plain_witness :
  fits [Atom (Bytes 8); Atom Field; Atom Compress]
    (Alignment_default [Atom (Bytes 8); Atom Field; Atom Compress]) = true.
Proof. apply default_fits_plain. repeat constructor; simpl; lia. Defined.

(** Unions all of whose branches, at any depth, are non-empty lists. *)
Fixpoint no_empty_union (ts : AlignmentSegment) : bool :=
  match ts with
  | Atom _ => true
  | Option tys => negb (bool_decide (tys = [])) && forallb (forallb no_empty_union) tys
  end.

(** The documented guarantee of [Alignment::default] ("aligned, except if
    the alignment contains an empty disjoint union") fails: the discriminant of
    a union is not emitted, so already the union of one empty alignment has a
    default that does not fit. *)
Theorem default_union_not_aligned :
  exists al, forallb no_empty_union al = true /\ fits al (Alignment_default al) = false.
Proof. exists [Option [[Atom (Bytes 1)]]]. by vm_compute. Qed.

Lemma uint_atom_decode max ty x :
  max <= u128_max -> in_u max x -> uint_try_from max ty (uint_atom x) = Ok x.
Proof.
  intros Hmax Hx. unfold uint_try_from, u128_try_from.
  assert (Hlen : (length (uint_atom x) <= 16)%nat)
    by (apply length_uint_atom; [lia|]; change (256 ^ Z.of_nat 16) with (2 ^ 128); ints).
  destruct (Nat.leb_spec (length (uint_atom x)) (128 / 8)) as [_|H]; [|simpl in H; lia]. simpl.
  unfold uint_atom. rewrite from_le_bytes_normalize, from_to_le_bytes.
  - destruct (Z.leb_spec x max); [done|ints].
  - change (256 ^ Z.of_nat 16) with (2 ^ 128). ints.
Qed.

Lemma uint_atom_fits n x :
  (n <= 16)%nat -> 0 <= x < 256 ^ Z.of_nat n -> atom_fits (Bytes (Z.of_nat n)) (uint_atom x) = true.
Proof.
  intros Hn Hx. pose proof (length_uint_atom n x Hn Hx). unfold atom_fits.
  rewrite trunc_id by (unfold in_u, u32_max; lia).
  apply andb_true_intro. split; [apply Z.leb_le; lia|]. apply normalize_normal.
Qed.

Lemma single_aligned a v : atom_fits a v = true -> av_aligned (mkAlignedValue [v] [Atom a]).
Proof.
  intros H. apply fits_matches. simpl. change [v] with ([v] ++ []).
  repeat constructor; done.
Qed.

Lemma pad_normalize h :
  normalize_atom h ++ replicate (length h - length (normalize_atom h)) 0 = h.
Proof.
  induction h as [|b h IH] using rev_ind; [done|].
  rewrite normalize_atom_snoc, length_app. simpl.
  destruct (Z.eqb_spec b 0) as [->|].
  - replace (length h + 1 - length (normalize_atom h))%nat
      with (S (length h - length (normalize_atom h)))
      by (pose proof (length_normalize h); lia).
    rewrite replicate_S_end, app_assoc, IH. done.
  - rewrite length_app. simpl.
    replace (length h + 1 - (length h + 1))%nat with 0%nat by lia. by rewrite app_nil_r.
Qed.

Definition hash_wf (h : HashOutput) : Prop :=
  length h = PERSISTENT_HASH_BYTES /\ bytes_wf h.

(** Aligned, of bytes. *)
Definition av_wf (av : AlignedValue) : Prop := av_aligned av /\ Forall bytes_wf (av_value av).

Lemma uint_atom_wf x : bytes_wf (uint_atom x).
Proof. apply normalize_bytes_wf, to_le_bytes_wf. Qed.

Lemma av_of_u8_wf x : is_u8 x -> av_wf (av_of_u8 x).
Proof.
  intros Hx. split; [|repeat constructor; apply uint_atom_wf].
  apply single_aligned, (uint_atom_fits 1); [lia|]. simpl; ints.
Qed.
Lemma av_of_u64_wf x : is_u64 x -> av_wf (av_of_u64 x).
Proof.
  intros Hx. split; [|repeat constructor; apply uint_atom_wf].
  apply single_aligned, (uint_atom_fits 8); [lia|].
  change (256 ^ Z.of_nat 8) with (2 ^ 64). ints.
Qed.
Lemma av_of_bool_wf b : av_wf (av_of_bool b).
Proof.
  split; [by destruct b; vm_compute|].
  destruct b; apply (bool_decide_unpack _); vm_compute; exact I.
Qed.
Lemma av_of_unit_wf : av_wf av_of_unit.
Proof. split; [by vm_compute|constructor]. Qed.
Lemma av_of_hash_wf h : hash_wf h -> av_wf (av_of_hash h).
Proof.
  intros [Hlen Hwf]. pose proof (length_normalize h) as Hn. unfold PERSISTENT_HASH_BYTES in Hlen.
  split; [|repeat constructor; by apply normalize_bytes_wf].
  apply single_aligned. unfold atom_fits, hash_atom.
  rewrite trunc_id by (unfold in_u, u32_max; lia).
  apply andb_true_intro. split; [apply Z.leb_le; lia|]. apply normalize_normal.
Qed.
Lemma av_concat_wf l : Forall av_wf l -> av_wf (AlignedValue_concat l).
Proof.
  intros Hl. split.
  - unfold av_aligned, AlignedValue_concat. simpl. apply fits_matches.
    induction Hl as [|av l [Hav _] _ IH]; simpl; [constructor|].
    apply al_matches_app; [by apply fits_matches|done].
  - simpl. induction Hl as [|av l [_ Hav] _ IH]; simpl; [constructor|]. by apply Forall_app.
Qed.

(** Decoded numbers are in range. *)
Lemma uint_try_from_range max ty a x :
  bytes_wf a -> uint_try_from max ty a = Ok x -> in_u max x.
Proof.
  unfold uint_try_from, u128_try_from. intros Hwf H. inv_binds.
  destruct (_ <=? _)%nat; inv_binds. destruct (Z.leb_spec (from_le_bytes a) max); inv_binds.
  pose proof (from_le_bytes_bound a Hwf). unfold in_u. lia.
Qed.
Lemma single_try_from_inv {A} (conv : ValueAtom -> outcome InvalidBuiltinDecode A) ty v x :
  single_try_from conv ty v = Ok x -> exists a, v = [a] /\ conv a = Ok x.
Proof. destruct v as [|a [|]]; simpl; try done. eauto. Qed.
Lemma u8_of_value_range v x : Forall bytes_wf v -> u8_of_value v = Ok x -> is_u8 x.
Proof.
  intros Hv (a & -> & H)%single_try_from_inv. apply Forall_cons_1 in Hv as [Ha _].
  by eapply uint_try_from_range.
Qed.
Lemma u64_of_value_range v x : Forall bytes_wf v -> u64_of_value v = Ok x -> is_u64 x.
Proof.
  intros Hv (a & -> & H)%single_try_from_inv. apply Forall_cons_1 in Hv as [Ha _].
  by eapply uint_try_from_range.
Qed.
Lemma hash_of_value_wf v h : Forall bytes_wf v -> hash_of_value v = Ok h -> hash_wf h.
Proof.
  intros Hv (a & -> & H)%single_try_from_inv. apply Forall_cons_1 in Hv as [Ha _].
  unfold hash_try_from in H. destruct (Nat.leb_spec (length a) PERSISTENT_HASH_BYTES); inv_binds.
  split; [rewrite length_app, length_replicate; lia|]. apply Forall_app. split; [done|].
  apply Forall_replicate. ints.
Qed.
(** Conversions return errors, they do not panic. *)
Lemma decode_no_panic {A} (conv : ValueAtom -> outcome InvalidBuiltinDecode A) ty v :
  (forall a, conv a <> Panic) -> single_try_from conv ty v <> Panic.
Proof. intros Hc. destruct v as [|a [|]]; simpl; [done|apply Hc|done]. Qed.
Lemma uint_no_panic max ty a : uint_try_from max ty a <> Panic.
Proof. unfold uint_try_from, u128_try_from. destruct (_ <=? _)%nat; simpl; [|done]. by case_match. Qed.
Lemma u8_no_panic v : u8_of_value v <> Panic.
Proof. apply decode_no_panic. intros. apply uint_no_panic. Qed.
Lemma u64_no_panic v : u64_of_value v <> Panic.
Proof. apply decode_no_panic. intros. apply uint_no_panic. Qed.
Lemma bool_no_panic v : bool_of_value v <> Panic.
Proof.
  apply decode_no_panic. intros a. unfold bool_try_from.
  destruct (uint_try_from u8_max "u8" a) eqn:E; simpl; [by repeat case_match|done|].
  by apply uint_no_panic in E.
Qed.

(** Builtin values survive the trip through the field-aligned encoding, and
    building them never panics: [u8], [u64], [bool] and hashes encode to an
    aligned value that decodes to the original. *)
Theorem builtin_roundtrip :
  (forall x, is_u8 x -> av_aligned (av_of_u8 x) /\ u8_of_value (av_value (av_of_u8 x)) = Ok x) /\
  (forall x, is_u64 x ->
     av_aligned (av_of_u64 x) /\ u64_of_value (av_value (av_of_u64 x)) = Ok x) /\
  (forall b, av_aligned (av_of_bool b) /\ bool_of_value (av_value (av_of_bool b)) = Ok b) /\
  (forall h, hash_wf h ->
     av_aligned (av_of_hash h) /\ hash_of_value (av_value (av_of_hash h)) = Ok h).
Proof.
  split_and!.
  - intros x Hx. split; [by apply av_of_u8_wf|by apply uint_atom_decode].
  - intros x Hx. split; [by apply av_of_u64_wf|by apply uint_atom_decode].
  - intros b. split; [apply av_of_bool_wf|by destruct b; vm_compute].
  - intros h Hwf. split; [by apply av_of_hash_wf|]. destruct Hwf as [Hlen _].
    pose proof (length_normalize h) as Hn.
    unfold hash_of_value, single_try_from, hash_try_from, av_of_hash, hash_atom. simpl.
    destruct (Nat.leb_spec (length (normalize_atom h)) PERSISTENT_HASH_BYTES) as [|Hlt];
      [|unfold PERSISTENT_HASH_BYTES in *; lia].
    rewrite <- Hlen. by rewrite pad_normalize.
Qed.
Lemma builtin_roundtrip_witness : u64_of_value (av_value (av_of_u64 65537)) = Ok 65537.
Proof. apply builtin_roundtrip. unfold in_u, u64_max. lia. Defined.
