(* ===== verification/FabSerial.v ===== *)
(** * Binary encoding of field-aligned values: [base-crypto/src/fab/serialize.rs]

    Writers produce the bytes they write; readers take the remaining bytes and
    return the value with the bytes left over.  [Deserializable::check_rec]
    increments the recursion depth and fails once it passes [RECURSION_LIMIT]:
    the readers below carry the number [rem] of increments still allowed, which
    is also what makes them structurally recursive. *)
From S2P Require Import Prelude Fab.

Inductive io_error :=
  | UnexpectedEof
  | InvalidInput (msg : string)
  | InvalidData (msg : string).

Abbreviation writes := (outcome io_error (list Z)).
Abbreviation reads A := (outcome io_error (A * list Z)).

(** The release limit. *)
Definition RECURSION_LIMIT : nat := 250.
Definition rec_error : io_error := InvalidData "exceeded recursion depth deserializing".

(** ** Flagged integers *)
Definition ONE_BYTE_LIMIT : Z := Z.shiftl 1 5 - 1.
Definition TWO_BYTE_START : Z := ONE_BYTE_LIMIT + 1.
Definition TWO_BYTE_LIMIT : Z := Z.shiftl 1 12 - 1.
Definition THREE_BYTE_START : Z := TWO_BYTE_LIMIT + 1.
Definition THREE_BYTE_LIMIT : Z := Z.shiftl 1 19 - 1.

Definition flag_u8 (x y : bool) : Z :=
  Z.lor (Z.shiftl (Z.b2z x) 7) (Z.shiftl (Z.b2z y) 6).

Definition write_flagged_int (x y : bool) (int : Z) : writes :=
  let flag := flag_u8 x y in
  if (0 <=? int) && (int <=? ONE_BYTE_LIMIT) then
    Ok [Z.lor flag (trunc u8_max int)]
  else if (TWO_BYTE_START <=? int) && (int <=? TWO_BYTE_LIMIT) then
    Ok [Z.lor (Z.lor flag 0x20) (trunc u8_max (int mod 0x20));
        trunc u8_max (Z.shiftr int 5)]
  else if (THREE_BYTE_START <=? int) && (int <=? THREE_BYTE_LIMIT) then
    Ok [Z.lor (Z.lor flag 0x20) (trunc u8_max (int mod 0x20));
        Z.lor 0x80 (trunc u8_max (Z.shiftr int 5 mod 0x80));
        trunc u8_max (Z.shiftr int 12)]
  else Err (InvalidInput "integer out of three-byte limit").

Definition flagged_int_size (int : Z) : Z :=
  if (0 <=? int) && (int <=? ONE_BYTE_LIMIT) then 1
  else if (TWO_BYTE_START <=? int) && (int <=? TWO_BYTE_LIMIT) then 2
  else if (THREE_BYTE_START <=? int) && (int <=? THREE_BYTE_LIMIT) then 3
  else 1000.

(** [Read::read_exact] on one byte and on [n] bytes. *)
Definition read_byte (r : list Z) : reads Z :=
  match r with b :: r => Ok (b, r) | [] => Err UnexpectedEof end.
Definition read_exact (n : nat) (r : list Z) : reads (list Z) :=
  if (n <=? length r)%nat then Ok (take n r, drop n r) else Err UnexpectedEof.

Definition longer_error : io_error :=
  InvalidInput "use of longer encoding than necessary for flagged int".

Definition read_flagged_int (r : list Z) : reads (bool * bool * Z) :=
  '(byte, r) ← read_byte r;
  let x := negb (Z.land byte 0x80 =? 0) in
  let y := negb (Z.land byte 0x40 =? 0) in
  let a := byte mod 0x20 in
  if Z.land byte 0x20 =? 0 then Ok ((x, y, a), r) else
  '(byte, r) ← read_byte r;
  let b := byte mod 0x80 in
  if Z.land byte 0x80 =? 0 then
    if b =? 0 then Err longer_error
    else Ok ((x, y, Z.lor a (Z.shiftl b 5)), r)
  else
  '(byte, r) ← read_byte r;
  let c := byte mod 0x80 in
  if Z.land byte 0x80 =? 0 then
    if c =? 0 then Err longer_error
    else Ok ((x, y, Z.lor (Z.lor a (Z.shiftl b 5)) (Z.shiftl c 12)), r)
  else Err (InvalidInput "use of reserved flag in three-byte flagged int encoding").

(** ** Loops *)
Definition len_u32 {A} (l : list A) : Z := trunc u32_max (Z.of_nat (length l)).

(** [for x in l { x.serialize(writer)? }]. *)
Definition serialize_seq {A} (f : A -> writes) : list A -> writes :=
  fix go l :=
    match l with
    | [] => Ok []
    | x :: l => b ← f x; bs ← go l; Ok (b ++ bs)
    end.
(** [for _ in 0..n { res.push(deserialize(reader)?) }]. *)
Definition deserialize_seq {A} (f : list Z -> reads A) : nat -> list Z -> reads (list A) :=
  fix go n r :=
    match n with
    | O => Ok ([], r)
    | S n => '(x, r) ← f r; '(xs, r) ← go n r; Ok (x :: xs, r)
    end.
(** [l.iter().map(serialized_size).sum()]. *)
Definition size_sum {A} (f : A -> Z) : list A -> Z :=
  fix go l := match l with [] => 0 | x :: l => f x + go l end.

(** ** Writers *)
Definition ValueAtom_serialize_normal (self : ValueAtom) : writes :=
  match self with
  | [b] => if b <? 32 then write_flagged_int false false b
           else h ← write_flagged_int false true (len_u32 self); Ok (h ++ self)
  | _ => h ← write_flagged_int false true (len_u32 self); Ok (h ++ self)
  end.
Definition ValueAtom_serialize (self : ValueAtom) : writes :=
  if is_in_normal_form self then ValueAtom_serialize_normal self
  else ValueAtom_serialize_normal (normalize_atom self).

Definition Value_serialize (self : Value) : writes :=
  match self with
  | [a] => ValueAtom_serialize a
  | _ => h ← write_flagged_int true false (len_u32 self);
         b ← serialize_seq ValueAtom_serialize self; Ok (h ++ b)
  end.

Definition AlignmentAtom_serialize (self : AlignmentAtom) : writes :=
  match self with
  | Compress => write_flagged_int false true 0
  | Field => write_flagged_int false true 1
  | Bytes length => write_flagged_int false false length
  end.

Definition Alignment_serialize_with (seg : AlignmentSegment -> writes) (self : Alignment)
    : writes :=
  match self with
  | [s] => seg s
  | _ => h ← write_flagged_int true true (len_u32 self);
         b ← serialize_seq seg self; Ok (h ++ b)
  end.
Fixpoint AlignmentSegment_serialize (self : AlignmentSegment) : writes :=
  match self with
  | Atom atom => AlignmentAtom_serialize atom
  | Option branches =>
      h ← write_flagged_int true false (len_u32 branches);
      b ← serialize_seq (Alignment_serialize_with AlignmentSegment_serialize) branches;
      Ok (h ++ b)
  end.
Definition Alignment_serialize : Alignment -> writes :=
  Alignment_serialize_with AlignmentSegment_serialize.

Definition AlignedValue_serialize (self : AlignedValue) : writes :=
  v ← Value_serialize (av_value self);
  a ← Alignment_serialize (av_alignment self); Ok (v ++ a).

(** ** Sizes *)
Definition ValueAtom_size_normal (self : ValueAtom) : Z :=
  match self with
  | [b] => if b <? 32 then flagged_int_size b
           else flagged_int_size (len_u32 self) + Z.of_nat (length self)
  | _ => flagged_int_size (len_u32 self) + Z.of_nat (length self)
  end.
Definition ValueAtom_serialized_size (self : ValueAtom) : Z :=
  if is_in_normal_form self then ValueAtom_size_normal self
  else ValueAtom_size_normal (normalize_atom self).
Definition Value_serialized_size (self : Value) : Z :=
  match self with
  | [a] => ValueAtom_serialized_size a
  | _ => flagged_int_size (len_u32 self) + size_sum ValueAtom_serialized_size self
  end.
Definition AlignmentAtom_serialized_size (self : AlignmentAtom) : Z :=
  match self with
  | Bytes length => flagged_int_size length
  | Compress | Field => 1
  end.
Definition Alignment_size_with (seg : AlignmentSegment -> Z) (self : Alignment) : Z :=
  match self with
  | [s] => seg s
  | _ => flagged_int_size (len_u32 self) + size_sum seg self
  end.
Fixpoint AlignmentSegment_serialized_size (self : AlignmentSegment) : Z :=
  match self with
  | Atom atom => AlignmentAtom_serialized_size atom
  | Option branches =>
      flagged_int_size (len_u32 branches) +
      size_sum (Alignment_size_with AlignmentSegment_serialized_size) branches
  end.
Definition Alignment_serialized_size : Alignment -> Z :=
  Alignment_size_with AlignmentSegment_serialized_size.
Definition AlignedValue_serialized_size (self : AlignedValue) : Z :=
  Value_serialized_size (av_value self) + Alignment_serialized_size (av_alignment self).

(** ** Readers *)
Definition ValueAtom_with_flagged_int (x y : bool) (int : Z) (r : list Z) : reads ValueAtom :=
  if x then Err (InvalidData "x-flag may not be 1 for value atom")
  else if y then
    '(res, r) ← read_exact (Z.to_nat int) r;
    if (0 <? int) && bool_decide (list.last res = Some 0)
    then Err (InvalidData "ValueAtom ended with zero byte")
    else if (int =? 1) && match res with b :: _ => b <? 32 | [] => false end
    then Err (InvalidData "ValueAtom fitting into single-byte form encoded as multiple bytes")
    else Ok (res, r)
  else if (int <? 32) && (0 <? int) then Ok ([trunc u8_max int], r)
  else Err (InvalidData "singleton ValueAtom out of range").
Definition ValueAtom_deserialize (r : list Z) : reads ValueAtom :=
  '((x, y, int), r) ← read_flagged_int r; ValueAtom_with_flagged_int x y int r.

Definition Value_deserialize (rem : nat) (r : list Z) : reads Value :=
  match rem with
  | O => Err rec_error
  | S _ =>
      '((x, y, int), r) ← read_flagged_int r;
      match x, y with
      | false, _ => '(a, r) ← ValueAtom_with_flagged_int x y int r; Ok ([a], r)
      | true, false =>
          if int =? 1 then Err (InvalidData "singleton value encoded as multi-entry value")
          else deserialize_seq ValueAtom_deserialize (Z.to_nat int) r
      | true, true => Err (InvalidData "Attempted to decode Value with reserved flags '11'")
      end
  end.

Definition AlignmentAtom_with_flagged_int (x y : bool) (int : Z) (r : list Z)
    : reads AlignmentAtom :=
  match x, y with
  | false, false => Ok (Bytes int, r)
  | false, true =>
      if int =? 0 then Ok (Compress, r)
      else if int =? 1 then Ok (Field, r)
      else Err (InvalidData "illegal value for alignment atom")
  | _, _ => Err (InvalidData "illegal value for alignment atom")
  end.
Definition AlignmentAtom_deserialize (r : list Z) : reads AlignmentAtom :=
  '((x, y, int), r) ← read_flagged_int r; AlignmentAtom_with_flagged_int x y int r.

(** [AlignmentSegment::deserialize_with_flagged_int], given the reader of the
    branches. *)
Definition Segment_with_flagged_int (branch : list Z -> reads Alignment)
    (x y : bool) (int : Z) (r : list Z) : reads AlignmentSegment :=
  match x, y with
  | false, _ => '(a, r) ← AlignmentAtom_with_flagged_int x y int r; Ok (Atom a, r)
  | true, false => '(branches, r) ← deserialize_seq branch (Z.to_nat int) r;
                   Ok (Option branches, r)
  | true, true => Err (InvalidData "Use of reserved flag '11' in AlignmentSegment")
  end.
(** [Alignment::deserialize_with_flagged_int], given the readers of segments
    and of branches. *)
Definition Alignment_with_flagged_int (segment : list Z -> reads AlignmentSegment)
    (branch : list Z -> reads Alignment) (x y : bool) (int : Z) (r : list Z)
    : reads Alignment :=
  if x && y then
    if int =? 1
    then Err (InvalidData "singleton alignment encoded as multi-entry alignment")
    else deserialize_seq segment (Z.to_nat int) r
  else '(s, r) ← Segment_with_flagged_int branch x y int r; Ok ([s], r).

Fixpoint Alignment_deserialize (rem : nat) (r : list Z) : reads Alignment :=
  match rem with
  | O => Err rec_error
  | S rem =>
      '((x, y, int), r) ← read_flagged_int r;
      Alignment_with_flagged_int (Segment_deserialize rem) (Alignment_deserialize rem) x y int r
  end
with Segment_deserialize (rem : nat) (r : list Z) : reads AlignmentSegment :=
  match rem with
  | O => Err rec_error
  | S rem =>
      '((x, y, int), r) ← read_flagged_int r;
      Segment_with_flagged_int (Alignment_deserialize rem) x y int r
  end.

Definition AlignedValue_deserialize (rem : nat) (r : list Z) : reads AlignedValue :=
  match rem with
  | O => Err rec_error
  | S rem =>
      '(value, r) ← Value_deserialize rem r;
      '(alignment, r) ← Alignment_deserialize rem r;
      if negb (fits alignment value)
      then Err (InvalidData "deserialized AlignedValue is not aligned")
      else Ok (mkAlignedValue value alignment, r)
  end.

#[global] Arguments ValueAtom_with_flagged_int : simpl never.
#[global] Arguments AlignmentAtom_with_flagged_int : simpl never.
#[global] Arguments write_flagged_int : simpl never.
#[global] Arguments read_flagged_int : simpl never.
#[global] Arguments flagged_int_size : simpl never.
#[global] Arguments len_u32 : simpl never.

(** ** Flagged integers: bit-level facts *)

(** A decidable predicate on bytes holds of all of them if it does on the
    enumeration. *)
Lemma byte_check (n : nat) (P : Z -> bool) :
  forallb (fun i => P (Z.of_nat i)) (seq 0 n) = true ->
  forall b, 0 <= b < Z.of_nat n -> P b = true.
Proof.
  intros H b Hb. rewrite forallb_forall in H.
  replace b with (Z.of_nat (Z.to_nat b)) by lia. apply H, in_seq. lia.
Qed.

Lemma first_byte_decode x y e a :
  0 <= a < 32 -> let b := Z.lor (Z.lor (flag_u8 x y) (if e : bool then 0x20 else 0)) a in
  negb (Z.land b 0x80 =? 0) = x /\ negb (Z.land b 0x40 =? 0) = y /\
  b mod 0x20 = a /\ (Z.land b 0x20 =? 0) = negb e.
Proof.
  intros Ha b. subst b.
  set (P := fun a => let b := Z.lor (Z.lor (flag_u8 x y) (if e then 0x20 else 0)) a in
    bool_decide (negb (Z.land b 0x80 =? 0) = x /\ negb (Z.land b 0x40 =? 0) = y /\
                 b mod 0x20 = a /\ (Z.land b 0x20 =? 0) = negb e)).
  apply (bool_decide_eq_true_1 _), (byte_check 32 P); [|lia].
  destruct x, y, e; vm_compute; reflexivity.
Qed.
Lemma first_byte_encode b :
  is_u8 b ->
  b = Z.lor (Z.lor (flag_u8 (negb (Z.land b 0x80 =? 0)) (negb (Z.land b 0x40 =? 0)))
               (if Z.land b 0x20 =? 0 then 0 else 0x20)) (b mod 0x20).
Proof.
  intros Hb. apply Z.eqb_eq.
  apply (byte_check 256 (fun b => b =? Z.lor (Z.lor (flag_u8 (negb (Z.land b 0x80 =? 0))
    (negb (Z.land b 0x40 =? 0))) (if Z.land b 0x20 =? 0 then 0 else 0x20)) (b mod 0x20)));
    [vm_compute; reflexivity|ints].
Qed.
Lemma next_byte_decode b :
  0 <= b < 128 ->
  (Z.land b 0x80 =? 0) = true /\ b mod 0x80 = b /\
  (Z.land (Z.lor 0x80 b) 0x80 =? 0) = false /\ Z.lor 0x80 b mod 0x80 = b.
Proof.
  intros Hb.
  set (P := fun b => bool_decide ((Z.land b 0x80 =? 0) = true /\ b mod 0x80 = b /\
    (Z.land (Z.lor 0x80 b) 0x80 =? 0) = false /\ Z.lor 0x80 b mod 0x80 = b)).
  apply (bool_decide_eq_true_1 _), (byte_check 128 P); [vm_compute; reflexivity|lia].
Qed.
Lemma next_byte_encode b :
  is_u8 b -> b = if Z.land b 0x80 =? 0 then b mod 0x80 else Z.lor 0x80 (b mod 0x80).
Proof.
  intros Hb. apply Z.eqb_eq.
  apply (byte_check 256 (fun b => b =? if Z.land b 0x80 =? 0 then b mod 0x80
                                       else Z.lor 0x80 (b mod 0x80)));
    [vm_compute; reflexivity|ints].
Qed.

Lemma lor_shiftl a b n : 0 <= n -> 0 <= a < 2 ^ n -> Z.lor a (Z.shiftl b n) = a + b * 2 ^ n.
Proof.
  intros Hn Ha. rewrite <- Z.shiftl_mul_pow2 by lia.
  assert (Hl : Z.land a (Z.shiftl b n) = 0).
  { apply Z.bits_inj'. intros i Hi. rewrite Z.land_spec, Z.bits_0.
    destruct (Z.lt_ge_cases i n).
    - rewrite (Z.shiftl_spec_low b n i) by lia. apply andb_false_r.
    - replace (Z.testbit a i) with false; [done|]. symmetry.
      destruct (Z.eq_dec a 0) as [->|]; [apply Z.bits_0|].
      apply Z.bits_above_log2; [lia|].
      apply Z.log2_lt_pow2; [lia|]. eapply Z.lt_le_trans; [apply Ha|].
      apply Z.pow_le_mono_r; lia. }
  pose proof (Z.add_lor_land a (Z.shiftl b n)). lia.
Qed.

Lemma flagged_bounds :
  ONE_BYTE_LIMIT = 31 /\ TWO_BYTE_START = 32 /\ TWO_BYTE_LIMIT = 4095 /\
  THREE_BYTE_START = 4096 /\ THREE_BYTE_LIMIT = 524287.
Proof. by vm_compute. Qed.

(** The three shapes of an encoding. *)
Inductive flagged_enc (x y : bool) : Z -> list Z -> Prop :=
  | enc1 a : 0 <= a < 32 -> flagged_enc x y a [Z.lor (Z.lor (flag_u8 x y) 0) a]
  | enc2 a b : 0 <= a < 32 -> 0 < b < 128 ->
      flagged_enc x y (a + b * 32) [Z.lor (Z.lor (flag_u8 x y) 0x20) a; b]
  | enc3 a b c : 0 <= a < 32 -> 0 <= b < 128 -> 0 < c < 128 ->
      flagged_enc x y (a + b * 32 + c * 4096)
        [Z.lor (Z.lor (flag_u8 x y) 0x20) a; Z.lor 0x80 b; c].

Lemma div_shape int p q : 0 < q -> int = p + (int / q) * q -> 0 <= p < q -> int mod q = p.
Proof. intros. rewrite Z.mod_eq by lia. lia. Qed.

Lemma write_flagged_enc x y int bs :
  write_flagged_int x y int = Ok bs -> flagged_enc x y int bs.
Proof.
  unfold write_flagged_int. destruct flagged_bounds as (-> & -> & -> & -> & ->).
  rewrite !Z.shiftr_div_pow2 by lia. change (2 ^ 5) with 32. change (2 ^ 12) with 4096.
  pose proof (Z.div_mod int 32 ltac:(lia)). pose proof (Z.mod_pos_bound int 32 ltac:(lia)).
  destruct ((0 <=? int) && (int <=? 31)) eqn:E1;
    [|destruct ((32 <=? int) && (int <=? 4095)) eqn:E2;
      [|destruct ((4096 <=? int) && (int <=? 524287)) eqn:E3; [|intros; discriminate]]];
    rewrite ?andb_true_iff, ?Z.leb_le in *; intros [= <-].
  - rewrite trunc_id by ints. rewrite <- (Z.lor_0_r (flag_u8 x y)) at 1. constructor. lia.
  - rewrite !trunc_id by ints. replace int with (int mod 32 + int / 32 * 32) at 1 by lia.
    constructor; lia.
  - pose proof (Z.div_mod (int / 32) 128 ltac:(lia)).
    pose proof (Z.mod_pos_bound (int / 32) 128 ltac:(lia)).
    assert (int / 4096 = int / 32 / 128) by (rewrite Z.div_div by lia; reflexivity).
    rewrite !trunc_id by ints.
    replace int with (int mod 32 + (int / 32) mod 128 * 32 + int / 4096 * 4096) at 1 by lia.
    constructor; lia.
Qed.

Lemma flagged_enc_write x y int bs :
  flagged_enc x y int bs ->
  write_flagged_int x y int = Ok bs /\ flagged_int_size int = Z.of_nat (length bs).
Proof.
  unfold write_flagged_int, flagged_int_size.
  destruct flagged_bounds as (-> & -> & -> & -> & ->).
  intros [a Ha|a b Ha Hb|a b c Ha Hb Hc]; rewrite !Z.shiftr_div_pow2 by lia;
    change (2 ^ 5) with 32; change (2 ^ 12) with 4096.
  - replace ((0 <=? a) && (a <=? 31)) with true by (symmetry; apply andb_true_intro; lia).
    rewrite trunc_id, Z.lor_0_r by ints. done.
  - replace ((0 <=? a + b * 32) && (a + b * 32 <=? 31)) with false by lia.
    replace ((32 <=? a + b * 32) && (a + b * 32 <=? 4095)) with true by lia.
    assert (E1 : (a + b * 32) / 32 = b) by (rewrite Z.div_add by lia; rewrite Z.div_small; lia).
    assert (E2 : (a + b * 32) mod 32 = a) by (rewrite Z.mod_eq; lia).
    rewrite E1, E2, !trunc_id by ints. done.
  - set (n := a + b * 32 + c * 4096).
    replace ((0 <=? n) && (n <=? 31)) with false by lia.
    replace ((32 <=? n) && (n <=? 4095)) with false by lia.
    replace ((4096 <=? n) && (n <=? 524287)) with true by lia.
    assert (E1 : n / 32 = b + c * 128) by (subst n;
      replace (a + b * 32 + c * 4096) with (a + (b + c * 128) * 32) by lia;
      rewrite Z.div_add by lia; rewrite Z.div_small; lia).
    assert (E2 : n mod 32 = a) by (rewrite Z.mod_eq; lia).
    assert (E3 : (b + c * 128) mod 128 = b)
      by (rewrite Z.mod_add by lia; apply Z.mod_small; lia).
    assert (E4 : n / 4096 = c) by (subst n; rewrite Z.div_add by lia; rewrite Z.div_small; lia).
    rewrite E1, E2, E3, E4, !trunc_id by ints. done.
Qed.

Lemma read_flagged_enc x y int bs rest :
  flagged_enc x y int bs -> read_flagged_int (bs ++ rest) = Ok ((x, y, int), rest).
Proof.
  unfold read_flagged_int.
  intros [a Ha|a b Ha Hb|a b c Ha Hb Hc]; cbn [app read_byte mbind outcome_bind].
  - destruct (first_byte_decode x y false a Ha) as (-> & -> & -> & ->). done.
  - destruct (first_byte_decode x y true a Ha) as (-> & -> & -> & ->). cbn.
    destruct (next_byte_decode b) as (-> & -> & _); [lia|].
    replace (b =? 0) with false by lia. rewrite lor_shiftl by lia. done.
  - destruct (first_byte_decode x y true a Ha) as (-> & -> & -> & ->). cbn.
    destruct (next_byte_decode b) as (_ & _ & -> & ->); [lia|].
    destruct (next_byte_decode c) as (-> & -> & _); [lia|].
    replace (c =? 0) with false by lia. rewrite (lor_shiftl _ _ 5), lor_shiftl by lia. done.
Qed.

Lemma flagged_enc_read x y int r rest :
  bytes_wf r -> read_flagged_int r = Ok ((x, y, int), rest) ->
  exists bs, flagged_enc x y int bs /\ r = bs ++ rest.
Proof.
  intros Hwf. unfold read_flagged_int.
  destruct r as [|b0 r]; [done|]. inversion_clear Hwf as [|? ? Hb0 Hwf1]. cbn.
  pose proof (first_byte_encode b0 Hb0) as Hb0'.
  pose proof (Z.mod_pos_bound b0 32 ltac:(lia)).
  destruct (Z.land b0 32 =? 0).
  { intros [= <- <- <- <-]. eexists; split; [apply enc1; lia|]. simpl. by f_equal. }
  destruct r as [|b1 r]; [done|]. inversion_clear Hwf1 as [|? ? Hb1 Hwf2]. cbn.
  pose proof (next_byte_encode b1 Hb1) as Hb1'.
  pose proof (Z.mod_pos_bound b1 128 ltac:(lia)).
  destruct (Z.land b1 128 =? 0).
  { destruct (Z.eqb_spec (b1 mod 128) 0); [done|]. intros [= <- <- <- <-].
    rewrite lor_shiftl by lia. eexists; split; [apply enc2; lia|]. simpl. by do 2 f_equal. }
  destruct r as [|b2 r]; [done|]. inversion_clear Hwf2 as [|? ? Hb2 _]. cbn.
  pose proof (next_byte_encode b2 Hb2) as Hb2'.
  pose proof (Z.mod_pos_bound b2 128 ltac:(lia)).
  destruct (Z.land b2 128 =? 0); [|done].
  destruct (Z.eqb_spec (b2 mod 128) 0); [done|]. intros [= <- <- <- <-].
  rewrite (lor_shiftl _ _ 5), lor_shiftl by lia. eexists; split; [apply enc3; lia|]. simpl. by do 3 f_equal.
Qed.

(** ** Well-formed encodable data

    Byte strings in normal form and lengths within the three-byte limit;
    [segment_depth] is the recursion depth reading needs. *)
Definition fits_flag (n : nat) : bool := Z.of_nat n <=? THREE_BYTE_LIMIT.
Definition atom_enc_ok (a : ValueAtom) : bool :=
  forallb (fun b => (0 <=? b) && (b <=? u8_max)) a && is_in_normal_form a && fits_flag (length a).
Definition value_enc_ok (v : Value) : bool := forallb atom_enc_ok v && fits_flag (length v).
Definition alignment_enc_ok_of (f : AlignmentSegment -> bool) (al : Alignment) : bool :=
  forallb f al && fits_flag (length al).
Fixpoint segment_enc_ok (s : AlignmentSegment) : bool :=
  match s with
  | Atom (Bytes n) => (0 <=? n) && (n <=? THREE_BYTE_LIMIT)
  | Atom _ => true
  | Option os => forallb (alignment_enc_ok_of segment_enc_ok) os && fits_flag (length os)
  end.
Definition alignment_enc_ok : Alignment -> bool := alignment_enc_ok_of segment_enc_ok.

Definition alignment_depth_of (f : AlignmentSegment -> nat) (al : Alignment) : nat :=
  S match al with
    | [s] => f s
    | _ => max_list_with (fun s => S (f s)) al
    end.
Fixpoint segment_depth (s : AlignmentSegment) : nat :=
  match s with
  | Atom _ => 0
  | Option os => max_list_with (alignment_depth_of segment_depth) os
  end.
Definition alignment_depth : Alignment -> nat := alignment_depth_of segment_depth.

Lemma fits_flag_len {A} (l : list A) :
  fits_flag (length l) = true ->
  len_u32 l = Z.of_nat (length l) /\ 0 <= Z.of_nat (length l) <= THREE_BYTE_LIMIT.
Proof.
  unfold fits_flag, len_u32. intros H%Z.leb_le. split; [|lia].
  apply trunc_id. revert H. destruct flagged_bounds as (_ & _ & _ & _ & ->). ints.
Qed.
Lemma write_flagged_ok x y int :
  0 <= int <= THREE_BYTE_LIMIT -> exists h, write_flagged_int x y int = Ok h.
Proof.
  intros H. unfold write_flagged_int. revert H.
  destruct flagged_bounds as (-> & -> & -> & -> & ->). intros H.
  destruct (_ && _) eqn:?; [eauto|]. destruct ((32 <=? int) && (int <=? 4095)) eqn:?; [eauto|].
  replace ((4096 <=? int) && (int <=? 524287)) with true by lia. eauto.
Qed.

(** ** A framing calculus

    [encodes]: the writer succeeds, its size function is exact, and the reader
    returns the value and leaves what follows untouched.  [framed]: the same,
    for a reader that gets the leading flagged integer already decoded. *)
Definition encodes {A} (ser : A -> writes) (size : A -> Z) (de : list Z -> reads A) (a : A) : Prop :=
  exists bs, ser a = Ok bs /\ Z.of_nat (length bs) = size a /\
             forall rest, de (bs ++ rest) = Ok (a, rest).
Definition framed {A} (P : bool -> bool -> Prop) (ser : A -> writes) (size : A -> Z)
    (de : bool -> bool -> Z -> list Z -> reads A) (a : A) : Prop :=
  exists x y int h b, P x y /\ flagged_enc x y int h /\ ser a = Ok (h ++ b) /\
    Z.of_nat (length (h ++ b)) = size a /\
    forall rest, de x y int (b ++ rest) = Ok (a, rest).

Lemma framed_encodes {A} P ser size (de : bool -> bool -> Z -> list Z -> reads A) a :
  framed P ser size de a ->
  encodes ser size (fun r => '((x, y, int), r) ← read_flagged_int r; de x y int r) a.
Proof.
  intros (x & y & int & h & b & _ & Henc & Hser & Hsz & Hde). exists (h ++ b).
  split_and!; [done..|]. intros rest. rewrite <- app_assoc.
  rewrite (read_flagged_enc _ _ _ _ _ Henc). simpl. apply Hde.
Qed.

Lemma seq_encodes {A} ser size (de : list Z -> reads A) l :
  Forall (encodes ser size de) l ->
  exists bs, serialize_seq ser l = Ok bs /\ Z.of_nat (length bs) = size_sum size l /\
             forall rest, deserialize_seq de (length l) (bs ++ rest) = Ok (l, rest).
Proof.
  induction 1 as [|a l (b & Hs & Hz & Hd) _ (bs & IHs & IHz & IHd)]; simpl.
  - by exists [].
  - exists (b ++ bs). rewrite Hs. simpl. rewrite IHs. simpl. split_and!; [done| |].
    + rewrite length_app. lia.
    + intros rest. rewrite <- app_assoc, Hd. simpl. by rewrite IHd.
Qed.

(** A counted sequence behind a flagged integer. *)
Lemma counted_encodes {A} x y ser size (de : list Z -> reads A) l :
  fits_flag (length l) = true -> Forall (encodes ser size de) l ->
  exists h bs, flagged_enc x y (len_u32 l) h /\ write_flagged_int x y (len_u32 l) = Ok h /\
    serialize_seq ser l = Ok bs /\
    Z.of_nat (length (h ++ bs)) = flagged_int_size (len_u32 l) + size_sum size l /\
    Z.to_nat (len_u32 l) = length l /\
    forall rest, deserialize_seq de (Z.to_nat (len_u32 l)) (bs ++ rest) = Ok (l, rest).
Proof.
  intros Hlen Hl. destruct (fits_flag_len l Hlen) as [E Hb].
  destruct (seq_encodes _ _ _ _ Hl) as (bs & Hs & Hz & Hd).
  destruct (write_flagged_ok x y (len_u32 l)) as [h Hh]; [by rewrite E|].
  pose proof (write_flagged_enc _ _ _ _ Hh) as Henc.
  destruct (flagged_enc_write _ _ _ _ Henc) as [_ Hsz].
  exists h, bs. rewrite length_app. split_and!; [done..|lia|lia|].
  intros rest. replace (Z.to_nat (len_u32 l)) with (length l) by lia. apply Hd.
Qed.

Lemma take_drop_exact (l r : list Z) : read_exact (length l) (l ++ r) = Ok (l, r).
Proof.
  unfold read_exact. rewrite length_app.
  replace (length l <=? length l + length r)%nat with true by (symmetry; apply Nat.leb_le; lia).
  by rewrite take_app_length, drop_app_length.
Qed.

Lemma max_list_with_le {A} (f : A -> nat) l n :
  (max_list_with f l <= n)%nat -> Forall (fun x => f x <= n)%nat l.
Proof. induction l as [|x l IH]; simpl; constructor; [lia|]. apply IH. lia. Qed.
Lemma forallb_Forall {A} (f : A -> bool) l : forallb f l = true -> Forall (fun x => f x = true) l.
Proof.
  induction l as [|x l IH]; simpl; [constructor|]. rewrite andb_true_iff. intros [? ?].
  constructor; auto.
Qed.

Definition is_short (a : ValueAtom) : bool :=
  match a with [b] => b <? 32 | _ => false end.
Lemma serialize_long a :
  is_short a = false ->
  ValueAtom_serialize_normal a
    = (h ← write_flagged_int false true (len_u32 a); Ok (h ++ a)) /\
  ValueAtom_size_normal a = flagged_int_size (len_u32 a) + Z.of_nat (length a).
Proof. destruct a as [|b [|]]; simpl; [done| |done]. by intros ->. Qed.

Lemma atom_framed a :
  atom_enc_ok a = true ->
  framed (fun x _ => x = false) ValueAtom_serialize ValueAtom_serialized_size
    ValueAtom_with_flagged_int a.
Proof.
  unfold atom_enc_ok. rewrite !andb_true_iff. intros [[Hb Hn] Hl].
  unfold framed, ValueAtom_serialize, ValueAtom_serialized_size. rewrite Hn.
  destruct (fits_flag_len a Hl) as [E Hb'].
  destruct (is_short a) eqn:Hs.
  - destruct a as [|b [|]]; [done| |done]. simpl in Hs, Hb. unfold ValueAtom_serialize_normal,
      ValueAtom_size_normal. rewrite Hs.
    assert (Hb0 : 0 < b < 32).
    { destruct (Z.eqb_spec b 0); [subst; by vm_compute in Hn|lia]. }
    destruct (write_flagged_ok false false b) as [h Hh];
      [destruct flagged_bounds as (_ & _ & _ & _ & ->); lia|].
    apply write_flagged_enc in Hh as He.
    destruct (flagged_enc_write _ _ _ _ He) as [_ Hsz].
    exists false, false, b, h, []. rewrite app_nil_r. split_and!; [done..|].
    intros rest. unfold ValueAtom_with_flagged_int.
    replace ((b <? 32) && (0 <? b)) with true by lia. by rewrite trunc_id by ints.
  - destruct (serialize_long a Hs) as [-> ->].
    destruct (write_flagged_ok false true (len_u32 a)) as [h Hh]; [lia|].
    apply write_flagged_enc in Hh as He.
    destruct (flagged_enc_write _ _ _ _ He) as [_ Hsz].
    exists false, true, (len_u32 a), h, a. rewrite Hh, length_app. split_and!; [done..|lia|].
    intros rest. unfold ValueAtom_with_flagged_int. rewrite E, Nat2Z.id, take_drop_exact. simpl.
    replace (bool_decide (list.last a = Some 0)) with false.
    2: { unfold is_in_normal_form in Hn. apply bool_decide_eq_true in Hn.
         symmetry. by apply bool_decide_eq_false. }
    rewrite andb_false_r. destruct (Z.eqb_spec (Z.of_nat (length a)) 1) as [E1|]; [|done].
    destruct a as [|b [|]]; [done| |simpl in E1; lia]. simpl in Hs |- *. by rewrite Hs.
Qed.

Lemma value_encodes v rem :
  value_enc_ok v = true -> encodes Value_serialize Value_serialized_size
                             (Value_deserialize (S rem)) v.
Proof.
  unfold value_enc_ok. rewrite andb_true_iff. intros [Hv Hl].
  assert (Ha : Forall (fun a => atom_enc_ok a = true) v) by by apply forallb_Forall.
  destruct (decide (length v = 1%nat)) as [H1|H1].
  - destruct v as [|a [|]]; [done| |done]. apply Forall_cons_1 in Ha as [Ha _].
    destruct (atom_framed a Ha) as (x & y & int & h & b & -> & He & Hs & Hz & Hd).
    exists (h ++ b). split_and!; [done..|]. intros rest. rewrite <- app_assoc. simpl.
    rewrite (read_flagged_enc _ _ _ _ _ He). simpl. by rewrite Hd.
  - destruct (counted_encodes true false ValueAtom_serialize ValueAtom_serialized_size
                ValueAtom_deserialize v Hl) as (h & bs & He & Hh & Hs & Hz & Hn & Hd).
    { eapply Forall_impl; [|exact Ha]. intros a Hok. eapply framed_encodes, atom_framed, Hok. }
    exists (h ++ bs). unfold Value_serialize, Value_serialized_size.
    assert (E : forall {B} (f : ValueAtom -> B) g,
              (match v with [a] => f a | _ => g end) = g) by by intros; destruct v as [|? [|]].
    rewrite !E, Hh. simpl. rewrite Hs. simpl. split_and!; [done..|].
    intros rest. rewrite <- app_assoc, (read_flagged_enc _ _ _ _ _ He). simpl.
    destruct (Z.eqb_spec (len_u32 v) 1); [lia|]. apply Hd.
Qed.

Lemma alignment_atom_framed a :
  segment_enc_ok (Atom a) = true ->
  framed (fun x _ => x = false) AlignmentAtom_serialize AlignmentAtom_serialized_size
    AlignmentAtom_with_flagged_int a.
Proof.
  assert (K : forall y int, 0 <= int <= THREE_BYTE_LIMIT -> exists h,
            write_flagged_int false y int = Ok h /\ flagged_enc false y int h /\
            flagged_int_size int = Z.of_nat (length h)).
  { intros y int Hi. destruct (write_flagged_ok false y int Hi) as [h Hh]. exists h.
    apply write_flagged_enc in Hh as He. split_and!; [done..|].
    by apply flagged_enc_write in He as [_ ?]. }
  intros H. destruct a as [|n|]; simpl in H.
  - destruct (K true 0) as (h & Hh & He & Hz); [by vm_compute|].
    exists false, true, 0, h, []. rewrite app_nil_r. by split_and!.
  - rewrite andb_true_iff, !Z.leb_le in H. destruct (K false n H) as (h & Hh & He & Hz).
    exists false, false, n, h, []. rewrite app_nil_r. by split_and!.
  - destruct (K true 1) as (h & Hh & He & Hz); [by vm_compute|].
    exists false, true, 1, h, []. rewrite app_nil_r. by split_and!.
Qed.

Definition segment_ok (s : AlignmentSegment) : Prop :=
  forall rem, segment_enc_ok s = true -> (segment_depth s <= rem)%nat ->
  framed (fun x y => x && y = false) AlignmentSegment_serialize AlignmentSegment_serialized_size
    (Segment_with_flagged_int (Alignment_deserialize rem)) s.

Lemma alignment_ok al rem :
  Forall segment_ok al -> alignment_enc_ok al = true -> (alignment_depth al <= rem)%nat ->
  encodes Alignment_serialize Alignment_serialized_size (Alignment_deserialize rem) al.
Proof.
  intros Hok. unfold alignment_enc_ok, alignment_enc_ok_of. rewrite andb_true_iff.
  intros [Hf%forallb_Forall Hl] Hd.
  destruct rem as [|rem]; [unfold alignment_depth, alignment_depth_of in Hd; lia|].
  destruct (decide (length al = 1%nat)) as [H1|H1].
  - destruct al as [|s [|]]; [done| |done]. apply Forall_cons_1 in Hf as [Hf _].
    apply Forall_cons_1 in Hok as [Hok _]. unfold alignment_depth, alignment_depth_of in Hd.
    destruct (Hok rem Hf ltac:(lia)) as (x & y & int & h & b & Hxy & He & Hs & Hz & Hde).
    exists (h ++ b). split_and!; [done..|]. intros rest. rewrite <- app_assoc. simpl.
    rewrite (read_flagged_enc _ _ _ _ _ He). simpl. unfold Alignment_with_flagged_int.
    rewrite Hxy, Hde. done.
  - assert (E : forall {B} (f : AlignmentSegment -> B) g,
              (match al with [a] => f a | _ => g end) = g) by by intros; destruct al as [|? [|]].
    unfold alignment_depth, alignment_depth_of in Hd. rewrite E in Hd.
    apply le_S_n, max_list_with_le in Hd.
    destruct (counted_encodes true true AlignmentSegment_serialize
                AlignmentSegment_serialized_size (Segment_deserialize rem) al Hl)
      as (h & bs & He & Hh & Hs & Hz & Hn & Hde).
    { rewrite Forall_forall in Hok, Hf, Hd |- *. intros s Hin.
      destruct rem as [|rem]; [specialize (Hd s Hin); simpl in Hd; lia|].
      eapply framed_encodes, Hok; auto. specialize (Hd s Hin). simpl in Hd. lia. }
    exists (h ++ bs). unfold Alignment_serialize, Alignment_serialize_with,
      Alignment_serialized_size, Alignment_size_with.
    rewrite !E, Hh. simpl. rewrite Hs. simpl. split_and!; [done..|].
    intros rest. rewrite <- app_assoc, (read_flagged_enc _ _ _ _ _ He). simpl.
    unfold Alignment_with_flagged_int. simpl.
    destruct (Z.eqb_spec (len_u32 al) 1); [lia|]. apply Hde.
Qed.

Lemma segment_ok_all s : segment_ok s.
Proof.
  induction s as [a|os IH] using AlignmentSegment_ind'; intros rem Hok Hd.
  - destruct (alignment_atom_framed a Hok) as (x & y & int & h & b & -> & He & Hs & Hz & Hde).
    exists false, y, int, h, b. split_and!; [done..|]. intros rest. simpl. by rewrite Hde.
  - simpl in Hok, Hd. rewrite andb_true_iff in Hok. destruct Hok as [Hf%forallb_Forall Hl].
    apply max_list_with_le in Hd.
    destruct (counted_encodes true false Alignment_serialize Alignment_serialized_size
                (Alignment_deserialize rem) os Hl) as (h & bs & He & Hh & Hs & Hz & Hn & Hde).
    { rewrite Forall_forall in IH, Hf, Hd |- *. intros al Hin. apply alignment_ok; auto. }
    exists true, false, (len_u32 os), h, bs. simpl. rewrite Hh. simpl.
    change (Alignment_serialize_with AlignmentSegment_serialize) with Alignment_serialize.
    rewrite Hs. simpl. split_and!; [done..|]. intros rest. by rewrite Hde.
Qed.

(** ** Canonicity: a reader accepts nothing but what the writer produces *)
Definition canonical {A} (ser : A -> writes) (de : list Z -> reads A) : Prop :=
  forall r a rest, bytes_wf r -> de r = Ok (a, rest) ->
  exists bs, ser a = Ok bs /\ r = bs ++ rest.
Definition framed_canonical {A} (ser : A -> writes) (de : bool -> bool -> Z -> list Z -> reads A)
    : Prop :=
  forall x y int h r a rest, flagged_enc x y int h -> bytes_wf r -> de x y int r = Ok (a, rest) ->
  exists b, ser a = Ok (h ++ b) /\ r = b ++ rest.

Lemma bytes_wf_suffix bs (rest : list Z) : bytes_wf (bs ++ rest) -> bytes_wf rest.
Proof. unfold bytes_wf. rewrite Forall_app. tauto. Qed.

Lemma framed_canonical_read {A} ser (de : bool -> bool -> Z -> list Z -> reads A) :
  framed_canonical ser de ->
  canonical ser (fun r => '((x, y, int), r) ← read_flagged_int r; de x y int r).
Proof.
  intros Hc r a rest Hwf H. inv_binds. destruct a0 as [[[x y] int] r1].
  destruct (flagged_enc_read _ _ _ _ _ Hwf E) as (h & He & ->).
  destruct (Hc _ _ _ _ _ _ _ He (bytes_wf_suffix _ _ Hwf) H) as (b & Hs & ->).
  exists (h ++ b). by rewrite <- app_assoc.
Qed.

Lemma seq_canonical {A} ser (de : list Z -> reads A) n :
  canonical ser de -> forall r l rest,
  bytes_wf r -> deserialize_seq de n r = Ok (l, rest) ->
  length l = n /\ exists bs, serialize_seq ser l = Ok bs /\ r = bs ++ rest.
Proof.
  intros Hc. induction n as [|n IH]; simpl; intros r l rest Hwf H.
  - injection H as <- <-. split; [done|]. by exists [].
  - inv_binds. destruct a as [x r1]. inv_binds. destruct a as [xs r2]. inv_binds.
    destruct (Hc _ _ _ Hwf E) as (b & Hb & ->). apply bytes_wf_suffix in Hwf.
    destruct (IH _ _ _ Hwf E0) as (Hl & bs & Hbs & ->).
    split; [simpl; lia|]. exists (b ++ bs). simpl. rewrite Hb. simpl. rewrite Hbs. simpl.
    by rewrite app_assoc.
Qed.

Lemma flagged_enc_bound x y int h : flagged_enc x y int h -> 0 <= int <= THREE_BYTE_LIMIT.
Proof. destruct flagged_bounds as (_ & _ & _ & _ & ->). intros []; lia. Qed.
Lemma len_u32_of_int {A} x y int h (l : list A) :
  flagged_enc x y int h -> length l = Z.to_nat int ->
  write_flagged_int x y (len_u32 l) = Ok h /\ Z.of_nat (length l) = int.
Proof.
  intros He Hl. pose proof (flagged_enc_bound _ _ _ _ He) as Hb.
  assert (E : len_u32 l = int).
  { unfold len_u32. rewrite Hl, Z2Nat.id by lia. apply trunc_id.
    destruct flagged_bounds as (_ & _ & _ & _ & E); rewrite E in Hb. ints. }
  rewrite E. split; [by apply flagged_enc_write|lia].
Qed.

Lemma atom_canonical : framed_canonical ValueAtom_serialize ValueAtom_with_flagged_int.
Proof.
  intros x y int h r a rest He Hwf. unfold ValueAtom_with_flagged_int, ValueAtom_serialize.
  destruct x; [done|]. destruct y.
  - unfold read_exact. destruct (Nat.leb_spec (Z.to_nat int) (length r)) as [Hl|]; [|done]. simpl.
    destruct ((0 <? int) && _) eqn:E1; [done|].
    destruct ((int =? 1) && _) eqn:E2; [done|]. intros [= <- <-].
    assert (Hlen : length (take (Z.to_nat int) r) = Z.to_nat int) by (rewrite length_take; lia).
    destruct (len_u32_of_int _ _ _ _ _ He Hlen) as [Hw Hi].
    assert (Hn : is_in_normal_form (take (Z.to_nat int) r) = true).
    { unfold is_in_normal_form. apply bool_decide_eq_true. intros Hlast.
      rewrite (bool_decide_eq_true_2 _ Hlast), andb_true_r in E1.
      assert (Hz : int = 0) by (pose proof (flagged_enc_bound _ _ _ _ He); lia).
      subst. by destruct r. }
    assert (Hs : is_short (take (Z.to_nat int) r) = false).
    { destruct (take (Z.to_nat int) r) as [|b [|]]; [done| |done]. simpl in Hi, E2 |- *.
      subst int. done. }
    rewrite Hn. destruct (serialize_long _ Hs) as [-> _]. rewrite Hw. simpl.
    exists (take (Z.to_nat int) r). by rewrite take_drop.
  - destruct ((int <? 32) && (0 <? int)) eqn:E; [|done]. intros [= <- <-].
    rewrite trunc_id by ints. exists []. rewrite app_nil_r. split; [|done].
    unfold is_in_normal_form. rewrite bool_decide_eq_true_2 by (intros [= ->]; lia).
    simpl. replace (int <? 32) with true by lia. by apply flagged_enc_write.
Qed.

Lemma value_canonical rem : canonical Value_serialize (Value_deserialize rem).
Proof.
  destruct rem as [|rem]; [done|].
  apply (framed_canonical_read Value_serialize (fun x y int r =>
    match x, y with
    | false, _ => '(a, r) ← ValueAtom_with_flagged_int x y int r; Ok ([a], r)
    | true, false =>
        if int =? 1 then Err (InvalidData "singleton value encoded as multi-entry value")
        else deserialize_seq ValueAtom_deserialize (Z.to_nat int) r
    | true, true => Err (InvalidData "Attempted to decode Value with reserved flags '11'")
    end)).
  intros x y int h r v rest He Hwf H. destruct x; [destruct y; [done|]|].
  - destruct (Z.eqb_spec int 1) as [|H1]; [done|].
    eapply (seq_canonical ValueAtom_serialize) in H as (Hl & bs & Hs & ->);
      [|apply framed_canonical_read, atom_canonical|done].
    destruct (len_u32_of_int _ _ _ _ _ He Hl) as [Hw Hi].
    exists bs. split; [|done]. unfold Value_serialize.
    destruct v as [|a [|]]; [|simpl in Hi; lia|]; rewrite Hw; cbn [mbind outcome_bind]; by rewrite Hs.
  - inv_binds. destruct a as [a r1]. inv_binds.
    by apply (atom_canonical _ _ _ _ _ _ _ He Hwf) in E.
Qed.

Lemma alignment_atom_canonical :
  framed_canonical AlignmentAtom_serialize AlignmentAtom_with_flagged_int.
Proof.
  intros x y int h r a rest He _. unfold AlignmentAtom_with_flagged_int.
  pose proof (flagged_enc_write _ _ _ _ He) as [Hw _].
  destruct x, y; try done.
  - destruct (Z.eqb_spec int 0) as [->|]; [|destruct (Z.eqb_spec int 1) as [->|]; [|done]];
      intros [= <- <-]; exists []; by rewrite app_nil_r.
  - intros [= <- <-]. exists []. by rewrite app_nil_r.
Qed.

Lemma segment_with_canonical (de : list Z -> reads Alignment) :
  canonical Alignment_serialize de ->
  framed_canonical AlignmentSegment_serialize (Segment_with_flagged_int de).
Proof.
  intros Hc x y int h r s rest He Hwf. unfold Segment_with_flagged_int.
  destruct x; [destruct y; [done|]|]; intros H; inv_binds; destruct a as [a r1]; inv_binds.
  - destruct (seq_canonical _ _ _ Hc _ _ _ Hwf E) as (Hl & bs & Hs & ->).
    destruct (len_u32_of_int _ _ _ _ _ He Hl) as [Hw _].
    exists bs. split; [|done]. simpl. rewrite Hw. simpl.
    change (Alignment_serialize_with AlignmentSegment_serialize) with Alignment_serialize.
    by rewrite Hs.
  - by apply (alignment_atom_canonical _ _ _ _ _ _ _ He Hwf) in E.
Qed.

Lemma alignment_with_canonical (seg : list Z -> reads AlignmentSegment) br :
  canonical AlignmentSegment_serialize seg -> canonical Alignment_serialize br ->
  framed_canonical Alignment_serialize (Alignment_with_flagged_int seg br).
Proof.
  intros Hseg Hbr x y int h r al rest He Hwf H. unfold Alignment_with_flagged_int in H.
  destruct (x && y) eqn:Exy.
  - apply andb_true_iff in Exy as [-> ->]. destruct (Z.eqb_spec int 1); [done|].
    destruct (seq_canonical _ _ _ Hseg _ _ _ Hwf H) as (Hl & bs & Hs & ->).
    destruct (len_u32_of_int _ _ _ _ _ He Hl) as [Hw Hi].
    exists bs. split; [|done]. unfold Alignment_serialize, Alignment_serialize_with.
    destruct al as [|a [|]]; [|simpl in Hi; lia|]; rewrite Hw; cbn [mbind outcome_bind]; by rewrite Hs.
  - inv_binds. destruct a as [s r1]. inv_binds.
    by apply (segment_with_canonical br Hbr _ _ _ _ _ _ _ He Hwf) in E.
Qed.

Lemma alignment_canonical rem :
  canonical Alignment_serialize (Alignment_deserialize rem) /\
  canonical AlignmentSegment_serialize (Segment_deserialize rem).
Proof.
  induction rem as [|rem [IHa IHs]]; [by split|]. split.
  - apply (framed_canonical_read Alignment_serialize (Alignment_with_flagged_int
             (Segment_deserialize rem) (Alignment_deserialize rem))).
    by apply alignment_with_canonical.
  - apply (framed_canonical_read AlignmentSegment_serialize
             (Segment_with_flagged_int (Alignment_deserialize rem))).
    by apply segment_with_canonical.
Qed.

(** ** Properties *)

(** The values the encoding can carry: byte strings in normal form, lengths
    within the three-byte limit, and an aligned pair. *)
Definition aligned_enc_ok (av : AlignedValue) : bool :=
  fits (av_alignment av) (av_value av) &&
  value_enc_ok (av_value av) && alignment_enc_ok (av_alignment av).

(** Flagged integers below 2^19 round-trip, in exactly [flagged_int_size]
    bytes, whatever follows them; conversely whatever [read_flagged_int]
    accepts is the encoding [write_flagged_int] would have produced (no
    overlong or reserved form is accepted). *)
Theorem flagged_int_roundtrip (x y : bool) (int : Z) (r rest : list Z) :
  bytes_wf r ->
  (0 <= int <= THREE_BYTE_LIMIT ->
   exists bs, write_flagged_int x y int = Ok bs /\ Z.of_nat (length bs) = flagged_int_size int /\
              read_flagged_int (bs ++ rest) = Ok ((x, y, int), rest)) /\
  (read_flagged_int r = Ok ((x, y, int), rest) ->
   exists bs, write_flagged_int x y int = Ok bs /\ r = bs ++ rest).
Proof.
  intros Hwf. split.
  - intros Hi. destruct (write_flagged_ok x y int Hi) as [bs Hbs]. exists bs.
    apply write_flagged_enc in Hbs as He. split_and!; [done| |by apply read_flagged_enc].
    by apply flagged_enc_write in He as [_ ?].
  - intros (bs & He & ->)%flagged_enc_read; [|done]. exists bs.
    by apply flagged_enc_write in He as [? _].
Qed.
Lemma flagged_int_roundtrip_witness :
  exists bs, write_flagged_int true false 70000 = Ok bs /\
    Z.of_nat (length bs) = flagged_int_size 70000 /\
    read_flagged_int (bs ++ [7]) = Ok ((true, false, 70000), [7]).
Proof.
  apply (flagged_int_roundtrip true false 70000 [] [7]); [constructor|]. vm_compute. split; congruence.
Defined.

Lemma AlignedValue_deserialize_S rem r :
  AlignedValue_deserialize (S rem) r =
    ('(value, r) ← Value_deserialize rem r;
     '(alignment, r) ← Alignment_deserialize rem r;
     if negb (fits alignment value)
     then Err (InvalidData "deserialized AlignedValue is not aligned")
     else Ok (mkAlignedValue value alignment, r)).
Proof. reflexivity. Qed.

(** [AlignedValue] round-trips: every aligned value whose strings are in
    normal form and whose lengths fit serializes, to exactly [serialized_size]
    bytes, and reads back unchanged at any recursion budget at least its
    nesting, leaving the following bytes in the reader. *)
Theorem AlignedValue_roundtrip (av : AlignedValue) (rem : nat) :
  aligned_enc_ok av = true -> (alignment_depth (av_alignment av) < rem)%nat ->
  exists bs, AlignedValue_serialize av = Ok bs /\
    Z.of_nat (length bs) = AlignedValue_serialized_size av /\
    forall rest, AlignedValue_deserialize rem (bs ++ rest) = Ok (av, rest).
Proof.
  unfold aligned_enc_ok. rewrite !andb_true_iff. intros [[Hf Hv] Ha] Hd.
  destruct rem as [|rem]; [lia|].
  assert (Hok : Forall segment_ok (av_alignment av))
    by (apply Forall_forall; intros; apply segment_ok_all).
  destruct (alignment_ok _ rem Hok Ha ltac:(lia)) as (ba & Hsa & Hza & Hda).
  destruct rem as [|rem]; [unfold alignment_depth, alignment_depth_of in Hd; lia|].
  destruct (value_encodes _ rem Hv) as (bv & Hsv & Hzv & Hdv).
  exists (bv ++ ba). unfold AlignedValue_serialize, AlignedValue_serialized_size.
  rewrite Hsv. cbn [mbind outcome_bind]. rewrite Hsa. split_and!; [done|rewrite length_app; lia|].
  intros rest. rewrite AlignedValue_deserialize_S, <- app_assoc, Hdv.
  cbn [mbind outcome_bind]. rewrite Hda. cbn [mbind outcome_bind]. rewrite Hf. by destruct av.
Qed.
Definition sample_av : AlignedValue :=
  mkAlignedValue [[1]; [1; 2; 3]; []] [Option [[Atom Field]; [Atom (Bytes 4); Atom Compress]]].
Lemma AlignedValue_roundtrip_witness :
  exists bs, AlignedValue_serialize sample_av = Ok bs /\
    Z.of_nat (length bs) = AlignedValue_serialized_size sample_av /\
    forall rest, AlignedValue_deserialize RECURSION_LIMIT (bs ++ rest) = Ok (sample_av, rest).
Proof.
  apply AlignedValue_roundtrip; [vm_compute; reflexivity|].
  apply (bool_decide_unpack _). vm_compute. exact I.
Defined.

(** The encoding is canonical: any bytes that decode to an aligned value are
    the bytes that value serializes to (so no two encodings denote the same
    value, and maps keyed by the encoding cannot be split), and the value is
    aligned. *)
Theorem AlignedValue_canonical (rem : nat) (r rest : list Z) (av : AlignedValue) :
  bytes_wf r -> AlignedValue_deserialize rem r = Ok (av, rest) ->
  av_aligned av /\ exists bs, AlignedValue_serialize av = Ok bs /\ r = bs ++ rest.
Proof.
  intros Hwf H. destruct rem as [|rem]; [done|]. simpl in H.
  inv_binds. destruct a as [v r1]. inv_binds. destruct a as [al r2].
  destruct (fits al v) eqn:Hf; simpl in H; inv_binds. split; [exact Hf|].
  apply value_canonical in E as (bv & Hbv & ->); [|done]. apply bytes_wf_suffix in Hwf.
  apply alignment_canonical in E0 as (ba & Hba & ->); [|done].
  exists (bv ++ ba). unfold AlignedValue_serialize. simpl. rewrite Hbv. simpl. rewrite Hba.
  by rewrite <- app_assoc.
Qed.
Lemma AlignedValue_canonical_witness :
  exists bs, AlignedValue_serialize (mkAlignedValue [[1; 2]] [Atom (Bytes 4)]) = Ok bs /\
    [66; 1; 2; 4; 9] = bs ++ [9].
Proof.
  apply (AlignedValue_canonical 3 [66; 1; 2; 4; 9] [9]).
  - apply (bool_decide_unpack _). vm_compute. exact I.
  - vm_compute. reflexivity.
Defined.
