(* ===== verification/Scale.v ===== *)
(** * Compact integers ([serialize/src/util.rs])

    [ScaleBigInt]: the variable-length encoding of [u32], [u64] and [u128].
    Values below [2^6], [2^14] and [2^30] take one, two and four bytes, larger
    ones a length byte and their bytes without trailing zeros. *)
From S2P Require Import Prelude Fab FabSerial.

Definition SCALE_MAX_BYTES : nat := 67.
Definition SCALE_ONE_BYTE_MARKER : Z := 0.
Definition SCALE_TWO_BYTE_MARKER : Z := 1.
Definition SCALE_FOUR_BYTE_MARKER : Z := 2.
Definition SCALE_N_BYTE_MARKER : Z := 3.

(** Bit operations on bytes. *)
Definition top2bits (b : Z) : Z := Z.shiftr (Z.land b 0xc0) 6.
Definition bot6bits (b : Z) : Z := trunc u8_max (Z.shiftl (Z.land b 0x3f) 2).
Definition top6bits (b : Z) : Z := Z.shiftr (Z.land b 0xfc) 2.
Definition bot2bits (b : Z) : Z := trunc u8_max (Z.shiftl (Z.land b 0x03) 6).

(** A [ScaleBigInt] is [SCALE_MAX_BYTES] bytes. *)
Abbreviation ScaleBigInt := (list Z).
Definition scale_at (self : ScaleBigInt) (i : nat) : Z := nth i self 0.

(** [ScaleBigInt::serialized_size]. *)
Definition occupied (self : ScaleBigInt) : nat := length (normalize_atom self).
Definition scale_size (self : ScaleBigInt) : nat :=
  let n := occupied self in
  let can_squeeze := scale_at self (n - 1) <? 64 in
  match n, can_squeeze with
  | 0, _ | 1, true => 1
  | 1, false | 2, true => 2
  | 2, false | 3, _ | 4, true => 4
  | n, _ => n + 1
  end%nat.
Definition scale_serialize (self : ScaleBigInt) : list Z :=
  let b i := scale_at self i in
  match scale_size self with
  | 1%nat => [Z.lor (bot6bits (b 0%nat)) SCALE_ONE_BYTE_MARKER]
  | 2%nat => [Z.lor (bot6bits (b 0%nat)) SCALE_TWO_BYTE_MARKER; Z.lor (top2bits (b 0%nat)) (bot6bits (b 1%nat))]
  | 4%nat => [Z.lor (bot6bits (b 0%nat)) SCALE_FOUR_BYTE_MARKER; Z.lor (top2bits (b 0%nat)) (bot6bits (b 1%nat));
              Z.lor (top2bits (b 1%nat)) (bot6bits (b 2%nat)); Z.lor (top2bits (b 2%nat)) (bot6bits (b 3%nat))]
  | n => Z.lor (trunc u8_max (Z.shiftl (Z.of_nat n - 5) 2)) SCALE_N_BYTE_MARKER :: take (n - 1) self
  end.

Definition scale_pad (bytes : list Z) : ScaleBigInt := bytes ++ replicate (SCALE_MAX_BYTES - length bytes) 0.
Definition non_canonical : io_error := InvalidData "non-canonical scale encoding".
Definition scale_deserialize (r : list Z) : reads ScaleBigInt :=
  '(first, r) ← read_byte r;
  let marker := Z.land first 3 in
  if marker =? SCALE_ONE_BYTE_MARKER then Ok (scale_pad [top6bits first], r)
  else if marker =? SCALE_TWO_BYTE_MARKER then
    '(second, r) ← read_byte r;
    if second =? 0 then Err non_canonical
    else Ok (scale_pad [Z.lor (top6bits first) (bot2bits second); top6bits second], r)
  else if marker =? SCALE_FOUR_BYTE_MARKER then
    '(second, r) ← read_byte r;
    '(third, r) ← read_byte r;
    '(fourth, r) ← read_byte r;
    if (third =? 0) && (fourth =? 0) then Err non_canonical
    else Ok (scale_pad [Z.lor (top6bits first) (bot2bits second); Z.lor (top6bits second) (bot2bits third);
                        Z.lor (top6bits third) (bot2bits fourth); top6bits fourth], r)
  else if marker =? SCALE_N_BYTE_MARKER then
    let n := (Z.to_nat (top6bits first) + 4)%nat in
    '(bytes, r) ← read_exact n r;
    if (nth (n - 1) bytes 0 =? 0) || ((n =? 4)%nat && (nth 3 bytes 0 <? 64)) then Err non_canonical
    else Ok (scale_pad bytes, r)
  else Panic.

(** [via_scale!]: an [n]-byte unsigned integer. *)
Definition scale_of_uint (n : nat) (val : Z) : ScaleBigInt := scale_pad (to_le_bytes n val).
Definition uint_serialize (n : nat) (val : Z) : list Z := scale_serialize (scale_of_uint n val).
Definition uint_deserialize (n : nat) (ty : string) (r : list Z) : reads Z :=
  '(val, r) ← scale_deserialize r;
  if existsb (fun b => negb (b =? 0)) (drop n val) then Err (InvalidData ("out of range for " +:+ ty))
  else Ok (from_le_bytes (take n val), r).

(** ** Bits of bytes as arithmetic *)
Definition byte_bits_ok (b : Z) : bool :=
  (top2bits b =? b / 64) && (bot6bits b =? 4 * (b mod 64)) && (top6bits b =? b / 4) && (bot2bits b =? 64 * (b mod 4))
  && (Z.land b 3 =? b mod 4)
  && forallb (fun m => Z.lor (4 * (b mod 64)) m =? 4 * (b mod 64) + m) [0; 1; 2; 3]
  && forallb (fun m => Z.lor (b / 4) (64 * m) =? b / 4 + 64 * m) [0; 1; 2; 3].
Lemma byte_bits_all : forallb byte_bits_ok (seqZ 0 256) = true.
Proof. by vm_compute. Qed.
Lemma byte_bits b : is_u8 b -> byte_bits_ok b = true.
Proof.
  intros Hb. pose proof byte_bits_all as Ha. rewrite forallb_forall in Ha. apply Ha, list_elem_of_In, elem_of_seqZ.
  ints.
Qed.
Lemma byte_split b : is_u8 b ->
  top2bits b = b / 64 /\ bot6bits b = 4 * (b mod 64) /\ top6bits b = b / 4 /\ bot2bits b = 64 * (b mod 4) /\
  Z.land b 3 = b mod 4.
Proof. intros Hb%byte_bits. unfold byte_bits_ok in Hb. lia. Qed.
Lemma digit4 m : 0 <= m < 4 -> m = 0 \/ m = 1 \/ m = 2 \/ m = 3.
Proof. lia. Qed.
Lemma lor_low b m : is_u8 b -> 0 <= m < 4 -> Z.lor (4 * (b mod 64)) m = 4 * (b mod 64) + m.
Proof.
  intros Hb%byte_bits Hm%digit4. unfold byte_bits_ok in Hb. simpl forallb in Hb.
  destruct Hm as [->|[->|[->| ->]]]; lia.
Qed.
Lemma lor_high b m : is_u8 b -> 0 <= m < 4 -> Z.lor (b / 4) (64 * m) = b / 4 + 64 * m.
Proof.
  intros Hb%byte_bits Hm%digit4. unfold byte_bits_ok in Hb. simpl forallb in Hb.
  destruct Hm as [->|[->|[->| ->]]]; lia.
Qed.

(** ** The encoding of a number without trailing zeros *)
Definition scale_enc (v : list Z) : list Z :=
  match v with
  | [] => [0]
  | [b0] => if b0 <? 64 then [4 * b0] else [4 * (b0 mod 64) + 1; b0 / 64]
  | [b0; b1] => if b1 <? 64 then [4 * (b0 mod 64) + 1; b0 / 64 + 4 * b1]
                else [4 * (b0 mod 64) + 2; b0 / 64 + 4 * (b1 mod 64); b1 / 64; 0]
  | [b0; b1; b2] => [4 * (b0 mod 64) + 2; b0 / 64 + 4 * (b1 mod 64); b1 / 64 + 4 * (b2 mod 64); b2 / 64]
  | b0 :: b1 :: b2 :: b3 :: l =>
      if (length l =? 0)%nat && (b3 <? 64)
      then [4 * (b0 mod 64) + 2; b0 / 64 + 4 * (b1 mod 64); b1 / 64 + 4 * (b2 mod 64); b2 / 64 + 4 * b3]
      else (4 * Z.of_nat (length l) + 3) :: v
  end.

Lemma normalize_zeros v k : normalize_atom (v ++ replicate k 0) = normalize_atom v.
Proof.
  induction k as [|k IH]; [by rewrite app_nil_r|].
  rewrite replicate_S_end, app_assoc, normalize_atom_snoc. by rewrite Z.eqb_refl.
Qed.
Lemma normalize_pad v : normalize_atom (scale_pad v) = normalize_atom v.
Proof. apply normalize_zeros. Qed.
Lemma occupied_pad v : is_in_normal_form v = true -> occupied (scale_pad v) = length v.
Proof. intros Hn. unfold occupied. by rewrite normalize_pad, normalize_id. Qed.
Lemma nth_zeros k i : nth i (replicate k 0) 0 = 0.
Proof. revert i. induction k; intros [|i]; simpl; auto. Qed.
Lemma pad_at v i : scale_at (scale_pad v) i = nth i v 0.
Proof.
  unfold scale_at, scale_pad. destruct (Nat.lt_ge_cases i (length v)).
  - by rewrite app_nth1.
  - rewrite app_nth2 by lia. rewrite (nth_overflow v) by lia. apply nth_zeros.
Qed.
Ltac divlia := autounfold with ints in *; Z.to_euclidean_division_equations; lia.
Lemma top2_pack b c : is_u8 b -> is_u8 c -> Z.lor (top2bits b) (bot6bits c) = b / 64 + 4 * (c mod 64).
Proof.
  intros Hb Hc. destruct (byte_split b Hb) as (-> & _). destruct (byte_split c Hc) as (_ & -> & _).
  rewrite Z.lor_comm, lor_low; [lia|done|divlia].
Qed.
Lemma bot6_mark b m : is_u8 b -> 0 <= m < 4 -> Z.lor (bot6bits b) m = 4 * (b mod 64) + m.
Proof. intros Hb Hm. destruct (byte_split b Hb) as (_ & -> & _). by apply lor_low. Qed.
Lemma u8_zero : is_u8 0. Proof. ints. Qed.
#[local] Hint Resolve u8_zero : core.

Ltac bytes_inv := unfold bytes_wf in *;
  repeat match goal with H : Forall _ (_ :: _) |- _ => apply Forall_cons_1 in H as [? H] end.

Definition scale_enc_size (v : list Z) : nat :=
  match v with
  | [] => 1%nat
  | [b0] => if b0 <? 64 then 1%nat else 2%nat
  | [_; b1] => if b1 <? 64 then 2%nat else 4%nat
  | [_; _; _] => 4%nat
  | _ :: _ :: _ :: b3 :: l => if (length l =? 0)%nat && (b3 <? 64) then 4%nat else S (4 + length l)
  end.
Lemma scale_size_pad v : is_in_normal_form v = true -> scale_size (scale_pad v) = scale_enc_size v.
Proof.
  intros Hn. unfold scale_size. rewrite occupied_pad, pad_at by done.
  destruct v as [|b0 [|b1 [|b2 [|b3 [|b4 l]]]]]; cbn [length Nat.sub nth Nat.eqb andb scale_enc_size]; try done; try (by case_match).
  by rewrite Nat.add_comm.
Qed.
Lemma take_pad v n : n = length v -> take n (scale_pad v) = v.
Proof. intros ->. unfold scale_pad. by rewrite take_app_length. Qed.
Lemma length_marker n : 0 <= n < 64 -> Z.lor (trunc u8_max (Z.shiftl n 2)) 3 = 4 * n + 3.
Proof.
  intros Hn. rewrite Z.shiftl_mul_pow2 by lia. rewrite trunc_id by ints.
  replace (n * 2 ^ 2) with (4 * (n mod 64)) by (rewrite Z.mod_small; lia).
  rewrite lor_low by (ints || lia). rewrite Z.mod_small; lia.
Qed.
Lemma scale_serialize_pad v :
  is_in_normal_form v = true -> bytes_wf v -> (length v <= SCALE_MAX_BYTES)%nat ->
  scale_serialize (scale_pad v) = scale_enc v.
Proof.
  intros Hn Hb Hl. unfold scale_serialize. rewrite scale_size_pad by done. rewrite !pad_at.
  unfold SCALE_ONE_BYTE_MARKER, SCALE_TWO_BYTE_MARKER, SCALE_FOUR_BYTE_MARKER, SCALE_N_BYTE_MARKER.
  destruct v as [|b0 [|b1 [|b2 [|b3 l]]]]; bytes_inv; cbn [nth scale_enc scale_enc_size].
  - by vm_compute.
  - destruct (Z.ltb_spec b0 64); rewrite ?top2_pack, ?bot6_mark by (done || lia).
    + f_equal. rewrite Z.mod_small by ints. lia.
    + change (0 mod 64) with 0; change (0 / 64) with 0. by rewrite Z.mul_0_r, !Z.add_0_r.
  - destruct (Z.ltb_spec b1 64); rewrite ?top2_pack, ?bot6_mark by (done || lia).
    + by rewrite (Z.mod_small b1 64) by ints.
    + change (0 mod 64) with 0; change (0 / 64) with 0. by rewrite Z.mul_0_r, !Z.add_0_r.
  - rewrite ?top2_pack, ?bot6_mark by (done || lia). change (0 mod 64) with 0; change (0 / 64) with 0. by rewrite Z.mul_0_r, !Z.add_0_r.
  - destruct (Nat.eqb_spec (length l) 0) as [E|E], (Z.ltb_spec b3 64); cbn [andb].
    + rewrite ?top2_pack, ?bot6_mark by (done || lia). by rewrite (Z.mod_small b3 64) by ints.
    + destruct l; [|done]. cbn [length Nat.add Nat.sub]. rewrite take_pad by done.
      rewrite length_marker by lia. done.
    + destruct l as [|b4 l]; [done|]. cbn [length Nat.add Nat.sub] in *. rewrite take_pad by done.
      rewrite length_marker by (unfold SCALE_MAX_BYTES in Hl; lia). f_equal. lia.
    + destruct l as [|b4 l]; [done|]. cbn [length Nat.add Nat.sub] in *. rewrite take_pad by done.
      rewrite length_marker by (unfold SCALE_MAX_BYTES in Hl; lia). f_equal. lia.
Qed.

(** ** Decoding *)
Lemma split4 x m : 0 <= x < 64 -> 0 <= m < 4 ->
  Z.land (4 * x + m) 3 = m /\ top6bits (4 * x + m) = x /\ bot2bits (m + 4 * x) = 64 * m.
Proof.
  intros Hx Hm. destruct (byte_split (4 * x + m)) as (_ & _ & H1 & _ & H2); [ints|].
  destruct (byte_split (m + 4 * x)) as (_ & _ & _ & H3 & _); [ints|]. rewrite H1, H2, H3. divlia.
Qed.
Lemma unpack x m hi lo : 0 <= x < 64 -> 0 <= m < 4 -> 0 <= hi < 4 -> 0 <= lo < 64 ->
  Z.lor (top6bits (4 * x + m)) (bot2bits (hi + 4 * lo)) = x + 64 * hi.
Proof.
  intros Hx Hm Hhi Hlo. destruct (split4 x m) as (_ & -> & _); [done..|]. destruct (split4 lo hi) as (_ & _ & ->); [done..|].
  pose proof (lor_high (4 * x) hi ltac:(ints) Hhi) as Hl. rewrite Z.mul_comm, Z.div_mul in Hl by lia. exact Hl.
Qed.
Lemma recombine b : is_u8 b -> b mod 64 + 64 * (b / 64) = b /\ 0 <= b mod 64 < 64 /\ 0 <= b / 64 < 4.
Proof. intros Hb. divlia. Qed.

(** What the decoder does with each kind of encoding. *)
Lemma decode1 x r : 0 <= x < 64 -> scale_deserialize (4 * x :: r) = Ok (scale_pad [x], r).
Proof.
  intros Hx. destruct (split4 x 0) as (H1 & H2 & _); [lia..|]. rewrite Z.add_0_r in *.
  unfold scale_deserialize. simpl. by rewrite H1, H2.
Qed.
Lemma decode2 x hi lo r : 0 <= x < 64 -> 0 <= hi < 4 -> 0 <= lo < 64 -> hi + 4 * lo <> 0 ->
  scale_deserialize (4 * x + 1 :: hi + 4 * lo :: r) = Ok (scale_pad [x + 64 * hi; lo], r).
Proof.
  intros Hx Hh Hlo Hnz. destruct (split4 x 1) as (H1 & _); [lia..|]. destruct (split4 lo hi) as (_ & H2 & _); [lia..|].
  unfold scale_deserialize. cbn [read_byte mbind outcome_bind]. rewrite H1. cbn [Z.eqb SCALE_ONE_BYTE_MARKER SCALE_TWO_BYTE_MARKER Pos.eqb].
  rewrite (proj2 (Z.eqb_neq _ _) Hnz), unpack by lia. rewrite (Z.add_comm hi), H2. done.
Qed.
Lemma decode4 x h1 l1 h2 l2 h3 l3 r :
  0 <= x < 64 -> 0 <= h1 < 4 -> 0 <= l1 < 64 -> 0 <= h2 < 4 -> 0 <= l2 < 64 -> 0 <= h3 < 4 -> 0 <= l3 < 64 ->
  h2 + 4 * l2 <> 0 \/ h3 + 4 * l3 <> 0 ->
  scale_deserialize (4 * x + 2 :: h1 + 4 * l1 :: h2 + 4 * l2 :: h3 + 4 * l3 :: r) =
  Ok (scale_pad [x + 64 * h1; l1 + 64 * h2; l2 + 64 * h3; l3], r).
Proof.
  intros Hx Hh1 Hl1 Hh2 Hl2 Hh3 Hl3 Hnz. destruct (split4 x 2) as (H1 & _); [lia..|].
  destruct (split4 l3 h3) as (_ & H2 & _); [lia..|].
  unfold scale_deserialize. cbn [read_byte mbind outcome_bind]. rewrite H1.
  cbn [Z.eqb SCALE_ONE_BYTE_MARKER SCALE_TWO_BYTE_MARKER SCALE_FOUR_BYTE_MARKER Pos.eqb].
  replace ((h2 + 4 * l2 =? 0) && (h3 + 4 * l3 =? 0)) with false by lia.
  rewrite (unpack x 2) by lia. rewrite (Z.add_comm h1 (4 * l1)), (unpack l1 h1) by lia.
  rewrite (Z.add_comm h2 (4 * l2)), (unpack l2 h2) by lia. rewrite (Z.add_comm h3 (4 * l3)), H2. done.
Qed.
Lemma decodeN v r :
  (4 <= length v <= SCALE_MAX_BYTES)%nat -> nth (length v - 1) v 0 <> 0 -> (length v = 4%nat -> 64 <= nth 3 v 0) ->
  scale_deserialize (4 * (Z.of_nat (length v) - 4) + 3 :: v ++ r) = Ok (scale_pad v, r).
Proof.
  unfold SCALE_MAX_BYTES. intros Hl Hlast H4. destruct (split4 (Z.of_nat (length v) - 4) 3) as (H1 & H2 & _); [lia..|].
  unfold scale_deserialize. cbn [read_byte mbind outcome_bind]. rewrite H1.
  cbn [Z.eqb SCALE_ONE_BYTE_MARKER SCALE_TWO_BYTE_MARKER SCALE_FOUR_BYTE_MARKER SCALE_N_BYTE_MARKER Pos.eqb].
  rewrite H2. replace (Z.to_nat (Z.of_nat (length v) - 4) + 4)%nat with (length v) by lia.
  unfold read_exact. rewrite length_app. rewrite (proj2 (Nat.leb_le _ _)) by lia.
  rewrite take_app_length, drop_app_length. cbn [mbind outcome_bind].
  rewrite (proj2 (Z.eqb_neq _ _) Hlast). cbn [orb].
  destruct (Nat.eqb_spec (length v) 4) as [E|E]; cbn [andb]; [|done].
  rewrite (proj2 (Z.ltb_ge _ _)) by auto. done.
Qed.
Lemma normal_last v : is_in_normal_form v = true -> v <> [] -> nth (length v - 1) v 0 <> 0.
Proof.
  destruct v as [|b v _] using rev_ind; [done|]. rewrite normal_form_snoc. intros Hb _.
  rewrite length_app. simpl. replace (length v + 1 - 1)%nat with (length v) by lia.
  rewrite app_nth2, Nat.sub_diag by lia. simpl. lia.
Qed.

Lemma pad_zero v k : (length v + k <= SCALE_MAX_BYTES)%nat -> scale_pad (v ++ replicate k 0) = scale_pad v.
Proof.
  intros Hl. unfold scale_pad. rewrite <- app_assoc, length_app, length_replicate, <- replicate_add.
  do 3 f_equal. unfold SCALE_MAX_BYTES in *. lia.
Qed.

Lemma scale_enc_decode v r :
  is_in_normal_form v = true -> bytes_wf v -> (length v <= SCALE_MAX_BYTES)%nat ->
  scale_deserialize (scale_enc v ++ r) = Ok (scale_pad v, r).
Proof.
  intros Hn Hb Hl. pose proof (normal_last v Hn) as Hlast.
  destruct v as [|b0 [|b1 [|b2 [|b3 l]]]]; bytes_inv; cbn [scale_enc]; try specialize (Hlast ltac:(done)); simpl in Hlast.
  - by vm_compute.
  - destruct (Z.ltb_spec b0 64); [apply decode1; ints|]. destruct (recombine b0) as (E & ? & ?); [done|].
    pose proof (decode2 (b0 mod 64) (b0 / 64) 0 r ltac:(lia) ltac:(lia) ltac:(lia)) as Hd.
    rewrite Z.mul_0_r, Z.add_0_r, E in Hd. simpl. rewrite Hd by lia. by rewrite <- (pad_zero [b0] 1) by (by apply Nat.leb_le).
  - destruct (recombine b0) as (E0 & ? & ?); [done|]. destruct (recombine b1) as (E1 & ? & ?); [done|].
    destruct (Z.ltb_spec b1 64).
    + simpl. rewrite decode2 by (done || ints). by rewrite E0.
    + pose proof (decode4 (b0 mod 64) (b0 / 64) (b1 mod 64) (b1 / 64) 0 0 0 r) as Hd.
      rewrite !Z.mul_0_r, !Z.add_0_r, E0, E1 in Hd. simpl. rewrite Hd by lia.
      by rewrite <- (pad_zero [b0; b1] 2) by (by apply Nat.leb_le).
  - destruct (recombine b0) as (E0 & ? & ?); [done|]. destruct (recombine b1) as (E1 & ? & ?); [done|].
    destruct (recombine b2) as (E2 & ? & ?); [done|].
    pose proof (decode4 (b0 mod 64) (b0 / 64) (b1 mod 64) (b1 / 64) (b2 mod 64) (b2 / 64) 0 r) as Hd.
    rewrite Z.mul_0_r, !Z.add_0_r, E0, E1, E2 in Hd. simpl. rewrite Hd by lia.
    by rewrite <- (pad_zero [b0; b1; b2] 1) by (by apply Nat.leb_le).
  - destruct (Nat.eqb_spec (length l) 0) as [E|E], (Z.ltb_spec b3 64); cbn [andb].
    + destruct l; [|done]. simpl in Hlast.
      destruct (recombine b0) as (E0 & ? & ?); [done|]. destruct (recombine b1) as (E1 & ? & ?); [done|].
      destruct (recombine b2) as (E2 & ? & ?); [done|].
      simpl. rewrite decode4 by (done || ints). by rewrite E0, E1, E2.
    + pose proof (decodeN (b0 :: b1 :: b2 :: b3 :: l) r) as Hd. destruct l; [|done]. apply Hd; [unfold SCALE_MAX_BYTES in *; simpl in *; lia|exact Hlast|simpl; lia].
    + pose proof (decodeN (b0 :: b1 :: b2 :: b3 :: l) r) as Hd. cbn [app].
      replace (4 * (Z.of_nat (length (b0 :: b1 :: b2 :: b3 :: l)) - 4) + 3) with (4 * Z.of_nat (length l) + 3) in Hd by (simpl; lia).
      apply Hd; [unfold SCALE_MAX_BYTES in *; simpl in *; lia|exact Hlast|simpl; lia].
    + pose proof (decodeN (b0 :: b1 :: b2 :: b3 :: l) r) as Hd. cbn [app].
      replace (4 * (Z.of_nat (length (b0 :: b1 :: b2 :: b3 :: l)) - 4) + 3) with (4 * Z.of_nat (length l) + 3) in Hd by (simpl; lia).
      apply Hd; [unfold SCALE_MAX_BYTES in *; simpl in *; lia|exact Hlast|simpl; lia].
Qed.

(** ** Decoding accepts only canonical encodings *)
Lemma byte4 b : is_u8 b -> exists x m, b = 4 * x + m /\ 0 <= x < 64 /\ 0 <= m < 4.
Proof. intros. exists (b / 4), (b mod 4). divlia. Qed.
Lemma divmod64 l h : 0 <= l < 64 -> (l + 64 * h) mod 64 = l /\ (l + 64 * h) / 64 = h.
Proof. intros. divlia. Qed.
Lemma normal_snoc v b : b <> 0 -> is_in_normal_form (v ++ [b]) = true.
Proof. intros. rewrite normal_form_snoc. lia. Qed.

Definition canonical_for (r : list Z) (l : ScaleBigInt) (rest : list Z) : Prop :=
  exists v, l = scale_pad v /\ is_in_normal_form v = true /\ bytes_wf v /\ (length v <= SCALE_MAX_BYTES)%nat /\
    r = scale_enc v ++ rest.
Lemma canonical_intro v r rest :
  is_in_normal_form v = true -> Forall is_u8 v -> (length v <= SCALE_MAX_BYTES)%nat -> r = scale_enc v ++ rest ->
  canonical_for r (scale_pad v) rest.
Proof. intros. by exists v. Qed.

Lemma canonical1 x rest : 0 <= x < 64 -> canonical_for (4 * x :: rest) (scale_pad [x]) rest.
Proof.
  intros Hx. destruct (decide (x = 0)) as [->|Hnz].
  - change (scale_pad [0]) with (scale_pad []). apply canonical_intro; [done|constructor|by apply Nat.leb_le|done].
  - apply canonical_intro; [by apply (normal_snoc [])|repeat constructor; ints|by apply Nat.leb_le|].
    cbn [scale_enc]. by rewrite (proj2 (Z.ltb_lt _ _)) by lia.
Qed.
Lemma canonical2 x hi lo rest : 0 <= x < 64 -> 0 <= hi < 4 -> 0 <= lo < 64 -> hi + 4 * lo <> 0 ->
  canonical_for (4 * x + 1 :: 4 * lo + hi :: rest) (scale_pad [x + 64 * hi; lo]) rest.
Proof.
  intros Hx Hh Hl Hnz. destruct (divmod64 x hi Hx) as [E1 E2]. destruct (decide (lo = 0)) as [->|Hlo].
  - change [x + 64 * hi; 0] with ([x + 64 * hi] ++ replicate 1 0). rewrite pad_zero by (by apply Nat.leb_le).
    apply canonical_intro; [apply (normal_snoc []); lia|repeat constructor; ints|by apply Nat.leb_le|].
    cbn [scale_enc]. rewrite (proj2 (Z.ltb_ge _ _)), E1, E2 by lia. done.
  - apply canonical_intro; [by apply (normal_snoc [_])|repeat constructor; ints|by apply Nat.leb_le|].
    cbn [scale_enc]. rewrite (proj2 (Z.ltb_lt _ _)), E1, E2 by lia. by rewrite (Z.add_comm hi).
Qed.
Lemma canonical4 x h1 l1 h2 l2 h3 l3 rest :
  0 <= x < 64 -> 0 <= h1 < 4 -> 0 <= l1 < 64 -> 0 <= h2 < 4 -> 0 <= l2 < 64 -> 0 <= h3 < 4 -> 0 <= l3 < 64 ->
  ~ (h2 + 4 * l2 = 0 /\ h3 + 4 * l3 = 0) ->
  canonical_for (4 * x + 2 :: 4 * l1 + h1 :: 4 * l2 + h2 :: 4 * l3 + h3 :: rest)
    (scale_pad [x + 64 * h1; l1 + 64 * h2; l2 + 64 * h3; l3]) rest.
Proof.
  intros Hx Hh1 Hl1 Hh2 Hl2 Hh3 Hl3 Hnz.
  destruct (divmod64 x h1 Hx) as [E1 E2], (divmod64 l1 h2 Hl1) as [E3 E4], (divmod64 l2 h3 Hl2) as [E5 E6].
  destruct (decide (l3 = 0)) as [->|Hn3]; [destruct (decide (l2 + 64 * h3 = 0)) as [E|Hn2]|].
  - assert (l2 = 0) as -> by lia. assert (h3 = 0) as -> by lia.
    change [x + 64 * h1; l1 + 64 * h2; 0 + 64 * 0; 0] with ([x + 64 * h1; l1 + 64 * h2] ++ replicate 2 0).
    rewrite pad_zero by (by apply Nat.leb_le).
    apply canonical_intro; [apply (normal_snoc [_]); lia|repeat constructor; ints|by apply Nat.leb_le|].
    cbn [scale_enc]. rewrite (proj2 (Z.ltb_ge _ _)), E1, E2, E3, E4 by lia. rewrite (Z.add_comm h1). done.
  - change [x + 64 * h1; l1 + 64 * h2; l2 + 64 * h3; 0] with ([x + 64 * h1; l1 + 64 * h2; l2 + 64 * h3] ++ replicate 1 0).
    rewrite pad_zero by (by apply Nat.leb_le).
    apply canonical_intro; [by apply (normal_snoc [_; _])|repeat constructor; ints|by apply Nat.leb_le|].
    cbn [scale_enc]. rewrite E1, E2, E3, E4, E5, E6. by rewrite (Z.add_comm h1), (Z.add_comm h2).
  - apply canonical_intro; [by apply (normal_snoc [_; _; _])|repeat constructor; ints|by apply Nat.leb_le|].
    cbn [scale_enc length Nat.eqb andb]. rewrite (proj2 (Z.ltb_lt _ _)), E1, E2, E3, E4, E5, E6 by lia.
    by rewrite (Z.add_comm h1), (Z.add_comm h2), (Z.add_comm h3).
Qed.
Lemma canonicalN v rest :
  Forall is_u8 v -> (4 <= length v <= SCALE_MAX_BYTES)%nat -> nth (length v - 1) v 0 <> 0 ->
  (length v = 4%nat -> 64 <= nth 3 v 0) ->
  canonical_for (4 * (Z.of_nat (length v) - 4) + 3 :: v ++ rest) (scale_pad v) rest.
Proof.
  intros Hb Hl Hlast H4. apply canonical_intro; [|done|lia|].
  - destruct v as [|b v _] using rev_ind; [done|]. apply normal_snoc. revert Hlast. rewrite length_app. simpl.
    replace (length v + 1 - 1)%nat with (length v) by lia. by rewrite app_nth2, Nat.sub_diag by lia.
  - destruct v as [|b0 [|b1 [|b2 [|b3 l]]]]; simpl in Hl; try lia. cbn [scale_enc].
    replace ((length l =? 0)%nat && (b3 <? 64)) with false; [simpl; f_equal; lia|].
    destruct (Nat.eqb_spec (length l) 0); [|done]. simpl in H4. specialize (H4 ltac:(lia)). simpl. lia.
Qed.

Lemma scale_deserialize_canonical r l rest :
  bytes_wf r -> scale_deserialize r = Ok (l, rest) -> canonical_for r l rest.
Proof.
  intros Hb Hd. destruct r as [|b r]; [done|]. bytes_inv. destruct (byte4 b) as (x & m & -> & Hx & Hm); [done|].
  destruct (split4 x m Hx Hm) as (H1 & H2 & _). unfold scale_deserialize in Hd. cbn [read_byte mbind outcome_bind] in Hd.
  rewrite H1 in Hd. apply digit4 in Hm.
  unfold SCALE_ONE_BYTE_MARKER, SCALE_TWO_BYTE_MARKER, SCALE_FOUR_BYTE_MARKER, SCALE_N_BYTE_MARKER in Hd.
  destruct Hm as [->|[->|[->| ->]]]; cbn [Z.eqb Pos.eqb] in Hd.
  - injection Hd as <- <-. rewrite H2, Z.add_0_r. by apply canonical1.
  - destruct r as [|c r]; [done|]. bytes_inv. destruct (byte4 c) as (lo & hi & -> & Hlo & Hhi); [done|].
    cbn [read_byte mbind outcome_bind] in Hd. destruct (Z.eqb_spec (4 * lo + hi) 0); [done|]. injection Hd as <- <-.
    destruct (split4 lo hi Hlo Hhi) as (_ & H3 & _). rewrite H3, (Z.add_comm (4 * lo)), unpack by lia.
    rewrite (Z.add_comm hi). apply canonical2; lia.
  - destruct r as [|c1 [|c2 [|c3 r]]]; try done. bytes_inv. destruct (byte4 c1) as (l1 & h1 & -> & ? & ?); [done|].
    destruct (byte4 c2) as (l2 & h2 & -> & ? & ?); [done|]. destruct (byte4 c3) as (l3 & h3 & -> & ? & ?); [done|].
    cbn [read_byte mbind outcome_bind] in Hd. destruct ((4 * l2 + h2 =? 0) && _) eqn:Hz; [done|]. injection Hd as <- <-.
    destruct (split4 l3 h3) as (_ & E3 & _); [done..|]. rewrite E3.
    rewrite (Z.add_comm (4 * l1) h1), (unpack x 2) by lia. rewrite (Z.add_comm h1), (Z.add_comm (4 * l2) h2), (unpack l1 h1) by lia.
    rewrite (Z.add_comm h2), (Z.add_comm (4 * l3) h3), (unpack l2 h2) by lia. rewrite (Z.add_comm h3).
    apply canonical4; lia.
  - rewrite H2 in Hd. unfold read_exact in Hd. destruct (Nat.leb_spec (Z.to_nat x + 4) (length r)) as [Hl|]; [|done].
    cbn [mbind outcome_bind] in Hd. destruct ((nth _ _ 0 =? 0) || _) eqn:Hz; [done|]. injection Hd as <- <-.
    set (v := take (Z.to_nat x + 4) r) in *. assert (Hlv : length v = (Z.to_nat x + 4)%nat) by (apply length_take_le; lia).
    rewrite <- (take_drop (Z.to_nat x + 4) r) at 1. fold v.
    replace (4 * x + 3) with (4 * (Z.of_nat (length v) - 4) + 3) by lia. rewrite <- Hlv in Hz.
    apply canonicalN; [by apply Forall_take|unfold SCALE_MAX_BYTES; lia|lia|].
    intros E. rewrite E in Hz. simpl in Hz. lia.
Qed.

(** ** Integers *)
Lemma to_from_le_bytes l : bytes_wf l -> to_le_bytes (length l) (from_le_bytes l) = l.
Proof.
  induction 1 as [|b l Hb _ IH]; [done|]. cbn [length from_le_bytes to_le_bytes]. f_equal.
  - divlia.
  - etransitivity; [|exact IH]. f_equal. divlia.
Qed.
Lemma bytes_pad v : bytes_wf v -> bytes_wf (scale_pad v).
Proof. intros. apply Forall_app. split; [done|]. by apply Forall_replicate. Qed.
Lemma pad_of_bytes l : length l = SCALE_MAX_BYTES -> scale_pad (normalize_atom l) = l.
Proof. intros Hl. unfold scale_pad. rewrite <- Hl. apply pad_normalize. Qed.
Lemma scale_of_uint_ok n x : (n <= SCALE_MAX_BYTES)%nat ->
  exists v, scale_of_uint n x = scale_pad v /\ is_in_normal_form v = true /\ bytes_wf v /\ (length v <= n)%nat.
Proof.
  intros Hn. exists (normalize_atom (to_le_bytes n x)). pose proof (length_normalize (to_le_bytes n x)) as Hl.
  rewrite length_to_le_bytes in Hl. split; [|split; [apply normalize_normal|split; [apply normalize_bytes_wf, to_le_bytes_wf|done]]].
  unfold scale_of_uint. rewrite <- (pad_normalize (to_le_bytes n x)) at 1. rewrite length_to_le_bytes. apply pad_zero.
  rewrite <- (length_to_le_bytes n x) in Hn at 1. rewrite length_to_le_bytes in Hn. lia.
Qed.
Lemma existsb_zeros k : existsb (fun b => negb (b =? 0)) (replicate k 0) = false.
Proof. by induction k. Qed.

(** Reading back the compact encoding of an unsigned integer of up to 67
    bytes (all of [u32], [u64], [u128]) gives the integer and leaves the rest of
    the input. *)
Theorem scale_uint_roundtrip (n : nat) (ty : string) (x : Z) (rest : list Z) :
  (n <= SCALE_MAX_BYTES)%nat -> 0 <= x < 256 ^ Z.of_nat n ->
  uint_deserialize n ty (uint_serialize n x ++ rest) = Ok (x, rest).
Proof.
  intros Hn Hx. destruct (scale_of_uint_ok n x Hn) as (v & Hv & Hnf & Hb & Hl).
  unfold uint_deserialize, uint_serialize. rewrite Hv, scale_serialize_pad, scale_enc_decode by (done || lia).
  rewrite <- Hv. unfold scale_of_uint, scale_pad. cbn [mbind outcome_bind].
  rewrite take_app_length' by (by rewrite length_to_le_bytes). rewrite drop_app_length' by (by rewrite length_to_le_bytes).
  by rewrite existsb_zeros, from_to_le_bytes.
Qed.

(** Each integer has one encoding: bytes that decode are the encoding of
    the result followed by the rest of the input, so overlong and otherwise
    non-canonical encodings are rejected. *)
Theorem scale_uint_canonical (n : nat) (ty : string) (r : list Z) (x : Z) (rest : list Z) :
  (n <= SCALE_MAX_BYTES)%nat -> bytes_wf r -> uint_deserialize n ty r = Ok (x, rest) ->
  r = uint_serialize n x ++ rest /\ 0 <= x < 256 ^ Z.of_nat n.
Proof.
  intros Hn Hb Hd. unfold uint_deserialize in Hd. apply bind_Ok_inv in Hd as ([l rest'] & Hl & Hd).
  destruct (existsb _ _) eqn:Hz; [done|]. injection Hd as <- <-.
  apply scale_deserialize_canonical in Hl as (v & -> & Hnf & Hbv & Hlv & ->); [|done].
  assert (Hlp : length (scale_pad v) = SCALE_MAX_BYTES).
  { unfold scale_pad. rewrite length_app, length_replicate. lia. }
  assert (Hlt : length (take n (scale_pad v)) = n) by (apply length_take_le; lia).
  assert (Hbt : bytes_wf (take n (scale_pad v))) by (apply Forall_take, bytes_pad, Hbv).
  split.
  - unfold uint_serialize. f_equal. rewrite <- scale_serialize_pad by done. f_equal.
    pose proof (to_from_le_bytes _ Hbt) as Htf. rewrite Hlt in Htf.
    unfold scale_of_uint. rewrite Htf. rewrite <- (take_drop n (scale_pad v)) at 1.
    unfold scale_pad at 3. rewrite Hlt. f_equal.
    assert (Hzs : Forall (fun b => b = 0) (drop n (scale_pad v))).
    { apply list.Forall_forall. intros b Hin%list_elem_of_In. rewrite <- not_true_iff_false, existsb_exists in Hz.
      destruct (Z.eq_dec b 0); [done|]. exfalso. apply Hz. exists b. split; [done|lia]. }
    rewrite <- Hlp, <- length_drop. clear -Hzs. induction Hzs as [|b l -> _ IH]; [done|]. simpl. by rewrite <- IH.
  - rewrite <- Hlt at 3. by apply from_le_bytes_bound.
Qed.
Lemma scale_uint_roundtrip_witness :
  uint_deserialize 16 "u128" (uint_serialize 16 (2 ^ 100 + 5) ++ [1; 2]) = Ok (2 ^ 100 + 5, [1; 2]).
Proof. apply scale_uint_roundtrip; [by apply Nat.leb_le|]. change (256 ^ Z.of_nat 16) with (2 ^ 128). lia. Defined.
Lemma scale_uint_canonical_witness : [2; 0; 4; 0; 9] = uint_serialize 8 65536 ++ [9] /\ 0 <= 65536 < 256 ^ Z.of_nat 8.
Proof.
  apply (scale_uint_canonical 8 "u64" [2; 0; 4; 0; 9] 65536 [9]); [by apply Nat.leb_le| |by vm_compute].
  by apply (bool_decide_unpack _); vm_compute.
Defined.
