(* ===== verification/Coin.v ===== *)
(** * Token types and addresses ([coin-structure/src/coin.rs], [fab.rs])

    The identifiers that contract effects and unshielded transfers use, with
    their representation as field-aligned values.  Hash newtypes
    ([ContractAddress], [UserAddress], [Nullifier], [Commitment] and the raw
    token types) are hashes and share the conversions of the macro
    [via_hash_output!]. *)
From S2P Require Import Prelude Fab.

Create HintDb no_panic.

Abbreviation UserAddress := HashOutput.
Abbreviation UnshieldedTokenType := HashOutput.
Abbreviation ShieldedTokenType := HashOutput.

Inductive TokenType : Type :=
| Unshielded (raw : UnshieldedTokenType)
| Shielded (raw : ShieldedTokenType)
| DustToken.
Inductive PublicAddress : Type :=
| PA_Contract (addr : HashOutput)
| PA_User (addr : UserAddress).

#[global] Instance TokenType_eq_dec : EqDecision TokenType.
Proof. solve_decision. Defined.
#[global] Instance TokenType_countable : Countable TokenType.
Proof.
  apply (inj_countable'
    (fun t => match t with Unshielded h => inl h | Shielded h => inr (inl h) | DustToken => inr (inr tt) end)
    (fun s => match s with inl h => Unshielded h | inr (inl h) => Shielded h | inr (inr _) => DustToken end)).
  by intros [].
Defined.
#[global] Instance PublicAddress_eq_dec : EqDecision PublicAddress.
Proof. solve_decision. Defined.
#[global] Instance PublicAddress_countable : Countable PublicAddress.
Proof.
  apply (inj_countable' (fun a => match a with PA_Contract h => inl h | PA_User h => inr h end)
    (fun s => match s with inl h => PA_Contract h | inr h => PA_User h end)).
  by intros [].
Defined.

(** The native token. *)
Definition NIGHT : UnshieldedTokenType := replicate 32 0.

(** ** Field elements as atoms ([transient-crypto/src/fab.rs])

    The order of the scalar field belongs to the curve library. *)
Class FieldOrder := { fr_modulus : Z }.
Class FieldOrderLaws `{FieldOrder} : Prop := {
  fr_modulus_lb : 2 ^ 248 <= fr_modulus;
  fr_modulus_ub : fr_modulus <= 2 ^ 256;
}.
Definition FR_BYTE_LEN : nat := 32.
Definition fr_wf `{FieldOrder} (x : Z) : Prop := 0 <= x < fr_modulus.
(** [Fr::from_le_bytes]: only reduced representations are accepted. *)
Definition fr_from_le_bytes `{FieldOrder} (bytes : list Z) : option Z :=
  if (length bytes <=? FR_BYTE_LEN)%nat then
    let x := from_le_bytes bytes in if x <? fr_modulus then Some x else None
  else None.
Definition fr_atom (x : Z) : ValueAtom := normalize_atom (to_le_bytes FR_BYTE_LEN x).
Definition fr_try_from `{FieldOrder} (value : ValueAtom) : outcome InvalidBuiltinDecode Z :=
  if (length value <=? FR_BYTE_LEN)%nat then ok_or (fr_from_le_bytes value) "Fr" else Err "Fr".

(** ** Conversions *)

(** [TryFrom<&ValueAtom> for ()]: the empty atom. *)
Definition unit_try_from (value : ValueAtom) : outcome InvalidBuiltinDecode unit :=
  match value with [] => Ok tt | _ => Err "()" end.
(** [via_hash_output!]: at most 32 bytes, zero extended. *)
Definition hash_newtype_try_from (ty : string) (value : ValueAtom)
    : outcome InvalidBuiltinDecode HashOutput :=
  if (length value <=? PERSISTENT_HASH_BYTES)%nat
  then Ok (value ++ replicate (PERSISTENT_HASH_BYTES - length value) 0) else Err ty.
Definition hash_newtype_of_value (ty : string) : Value -> outcome InvalidBuiltinDecode HashOutput :=
  single_try_from (hash_newtype_try_from ty) ty.

Definition TokenType_value (token : TokenType) : Value :=
  match token with
  | Unshielded h => [uint_atom 1; hash_atom h; []]
  | Shielded h => [uint_atom 0; []; hash_atom h]
  | DustToken => [uint_atom 2; []; []]
  end.
Definition TokenType_of_value (value : Value) : outcome InvalidBuiltinDecode TokenType :=
  match value with
  | [v0; v1; v2] =>
      variant ← uint_try_from u8_max "u8" v0;
      if variant =? 0 then
        _ ← unit_try_from v1; h ← hash_newtype_try_from "ShieldedTokenType" v2; Ok (Shielded h)
      else if variant =? 1 then
        _ ← unit_try_from v2; h ← hash_newtype_try_from "UnshieldedTokenType" v1; Ok (Unshielded h)
      else if variant =? 2 then
        _ ← unit_try_from v1; _ ← unit_try_from v2; Ok DustToken
      else Err "TokenType"
  | _ => Err "TokenType"
  end.
Definition TokenType_alignment : Alignment := u8_alignment ++ hash_alignment ++ hash_alignment.

Definition PublicAddress_value (addr : PublicAddress) : Value :=
  match addr with
  | PA_Contract addr => [bool_atom true; hash_atom addr; []]
  | PA_User addr => [bool_atom false; []; hash_atom addr]
  end.
Definition PublicAddress_of_value (value : Value) : outcome InvalidBuiltinDecode PublicAddress :=
  match value with
  | [v0; v1; v2] =>
      is_left ← bool_try_from v0;
      if is_left : bool then
        _ ← unit_try_from v2; h ← hash_newtype_try_from "ContractAddress" v1; Ok (PA_Contract h)
      else
        _ ← unit_try_from v1; h ← hash_newtype_try_from "UserAddress" v2; Ok (PA_User h)
  | _ => Err "PublicAddress"
  end.
Definition PublicAddress_alignment : Alignment := bool_alignment ++ hash_alignment ++ hash_alignment.

(** ** Decoding inverts encoding *)
Definition TokenType_wf (token : TokenType) : Prop :=
  match token with Unshielded h | Shielded h => hash_wf h | DustToken => True end.
Definition PublicAddress_wf (a : PublicAddress) : Prop :=
  match a with PA_Contract h | PA_User h => hash_wf h end.

Lemma unit_try_from_nil : unit_try_from [] = Ok tt.
Proof. done. Qed.
Lemma hash_newtype_decode ty h : hash_wf h -> hash_newtype_try_from ty (hash_atom h) = Ok h.
Proof.
  intros [Hlen _]. pose proof (length_normalize h). unfold hash_newtype_try_from, hash_atom.
  rewrite (proj2 (Nat.leb_le _ _)) by lia. by rewrite <- Hlen, pad_normalize.
Qed.
Lemma u8_atom_decode x : is_u8 x -> uint_try_from u8_max "u8" (uint_atom x) = Ok x.
Proof. apply uint_atom_decode. ints. Qed.
Lemma bool_atom_decode b : bool_try_from (bool_atom b) = Ok b.
Proof. by destruct b; vm_compute. Qed.
Lemma fr_atom_decode `{FieldOrderLaws} x : fr_wf x -> fr_try_from (fr_atom x) = Ok x.
Proof.
  intros Hx. pose proof fr_modulus_ub. unfold fr_wf in Hx. unfold fr_try_from, fr_from_le_bytes, fr_atom.
  pose proof (length_normalize (to_le_bytes FR_BYTE_LEN x)) as Hl. rewrite length_to_le_bytes in Hl.
  rewrite (proj2 (Nat.leb_le _ _) Hl), from_le_bytes_normalize, from_to_le_bytes.
  - by rewrite (proj2 (Z.ltb_lt _ _)) by lia.
  - change (256 ^ Z.of_nat FR_BYTE_LEN) with (2 ^ 256). lia.
Qed.

Lemma TokenType_roundtrip t : TokenType_wf t -> TokenType_of_value (TokenType_value t) = Ok t.
Proof.
  destruct t as [h|h|]; intros Hh; cbn [TokenType_value TokenType_of_value];
    rewrite u8_atom_decode by ints; cbn; by rewrite ?hash_newtype_decode.
Qed.
Lemma PublicAddress_roundtrip a :
  PublicAddress_wf a -> PublicAddress_of_value (PublicAddress_value a) = Ok a.
Proof.
  destruct a as [h|h]; intros Hh; cbn [PublicAddress_value PublicAddress_of_value];
    rewrite bool_atom_decode; cbn; by rewrite hash_newtype_decode.
Qed.

(** ** Builtin types as a record of their conversions

    What [StateValue] conversions use of a type: encoding, decoding, alignment;
    [bt_ok] holds of the values that survive the trip. *)
Record Builtin (A : Type) := {
  bt_value : A -> Value;
  bt_of_value : Value -> outcome InvalidBuiltinDecode A;
  bt_alignment : Alignment;
}.
Arguments bt_value {A}. Arguments bt_of_value {A}. Arguments bt_alignment {A}.
Record BuiltinLaws {A} (b : Builtin A) (ok : A -> Prop) : Prop := {
  bt_roundtrip : forall a, ok a -> bt_of_value b (bt_value b a) = Ok a;
  bt_wf : forall a, ok a -> av_wf (mkAlignedValue (bt_value b a) (bt_alignment b));
  bt_no_panic : forall v, bt_of_value b v <> Panic;
}.
(** [From<T> for AlignedValue]; the value is aligned, so [expect] succeeds. *)
Definition bt_av {A} (b : Builtin A) (a : A) : AlignedValue :=
  mkAlignedValue (bt_value b a) (bt_alignment b).

Definition b_hash (ty : string) : Builtin HashOutput := {|
  bt_value h := [hash_atom h]; bt_of_value := hash_newtype_of_value ty; bt_alignment := hash_alignment |}.
Definition b_uint (n : nat) (ty : string) : Builtin Z := {|
  bt_value x := [uint_atom x];
  bt_of_value := single_try_from (uint_try_from (256 ^ Z.of_nat n - 1) ty) ty;
  bt_alignment := Alignment_singleton (Bytes (Z.of_nat n)) |}.
Definition b_u32 : Builtin Z := b_uint 4 "u32".
Definition b_u64 : Builtin Z := b_uint 8 "u64".
Definition b_u128 : Builtin Z := {|
  bt_value x := [uint_atom x]; bt_of_value := u128_of_value;
  bt_alignment := Alignment_singleton (Bytes 16) |}.
Definition b_unit : Builtin unit := {|
  bt_value _ := [];
  bt_of_value v := match v with [] => Ok tt | _ => Err "()" end;
  bt_alignment := [] |}.
Definition b_token_type : Builtin TokenType := {|
  bt_value := TokenType_value; bt_of_value := TokenType_of_value; bt_alignment := TokenType_alignment |}.
Definition b_public_address : Builtin PublicAddress := {|
  bt_value := PublicAddress_value; bt_of_value := PublicAddress_of_value;
  bt_alignment := PublicAddress_alignment |}.

(** ** The laws of the builtin types *)
Lemma atom_wf a v : atom_fits a v = true -> bytes_wf v -> av_wf (mkAlignedValue [v] [Atom a]).
Proof. intros Hf Hv. split; [by apply single_aligned|by repeat constructor]. Qed.
Lemma atoms_wf (l : list (AlignmentAtom * ValueAtom)) :
  Forall (fun p => atom_fits p.1 p.2 = true /\ bytes_wf p.2) l ->
  av_wf (mkAlignedValue l.*2 (Atom <$> l.*1)).
Proof.
  intros Hl.
  assert (Heq : AlignedValue_concat ((fun p => mkAlignedValue [p.2] [Atom p.1]) <$> l) =
                mkAlignedValue l.*2 (Atom <$> l.*1)).
  { unfold AlignedValue_concat. clear Hl.
    f_equal; (induction l as [|p l IH]; simpl; [done|by f_equal]). }
  rewrite <- Heq. apply av_concat_wf, Forall_fmap. eapply Forall_impl; [|exact Hl].
  intros p [? ?]. by apply atom_wf.
Qed.

Lemma hash_atom_ok h : hash_wf h -> atom_fits (Bytes 32) (hash_atom h) = true /\ bytes_wf (hash_atom h).
Proof.
  intros Hh. destruct (av_of_hash_wf h Hh) as [Ha Hb]. split; [|by apply Forall_cons_1 in Hb as [? _]].
  destruct Hh as [Hlen _]. pose proof (length_normalize h) as Hn. unfold PERSISTENT_HASH_BYTES in Hlen.
  unfold atom_fits, hash_atom. rewrite trunc_id by (unfold in_u, u32_max; lia).
  apply andb_true_intro. split; [apply Z.leb_le; lia|]. apply normalize_normal.
Qed.
Lemma empty_atom_ok n : 0 <= n -> atom_fits (Bytes n) [] = true /\ bytes_wf [].
Proof.
  intros Hn. split; [|constructor]. unfold atom_fits. rewrite trunc_id by (unfold in_u, u32_max; simpl; lia).
  apply andb_true_intro. split; [apply Z.leb_le; simpl; lia|done].
Qed.
Lemma uint_atom_ok n x :
  (n <= 16)%nat -> 0 <= x < 256 ^ Z.of_nat n ->
  atom_fits (Bytes (Z.of_nat n)) (uint_atom x) = true /\ bytes_wf (uint_atom x).
Proof. intros Hn Hx. split; [by apply uint_atom_fits|apply uint_atom_wf]. Qed.
Lemma bool_atom_ok b : atom_fits (Bytes 1) (bool_atom b) = true /\ bytes_wf (bool_atom b).
Proof. destruct b; (split; [by vm_compute|by apply (bool_decide_unpack _); vm_compute]). Qed.
Lemma u128_no_panic v : u128_of_value v <> Panic.
Proof. apply decode_no_panic. intros a. unfold u128_try_from. by case_match. Qed.
Lemma hash_newtype_no_panic ty a : hash_newtype_try_from ty a <> Panic.
Proof. unfold hash_newtype_try_from. by case_match. Qed.
Lemma unit_no_panic a : unit_try_from a <> Panic.
Proof. by destruct a. Qed.
Lemma bind_no_panic {E A B} (m : outcome E A) (f : A -> outcome E B) :
  m <> Panic -> (forall a, f a <> Panic) -> (m ≫= f) <> Panic.
Proof. destruct m; simpl; intros; auto. Qed.
Lemma bool_atom_no_panic a : bool_try_from a <> Panic.
Proof. apply bind_no_panic; [apply uint_no_panic|]. intros x. by repeat case_match. Qed.
#[export] Hint Resolve uint_no_panic u128_no_panic hash_newtype_no_panic unit_no_panic bool_atom_no_panic : no_panic.

Ltac no_panic := repeat first
  [ done | apply bind_no_panic; [solve [auto with no_panic]|intros ?] | case_match | solve [auto with no_panic] ].

Lemma builtin_laws_weaken {A} (b : Builtin A) (P Q : A -> Prop) :
  BuiltinLaws b P -> (forall a, Q a -> P a) -> BuiltinLaws b Q.
Proof. intros [H1 H2 H3] HQ. split; auto. Qed.
Lemma b_hash_laws ty : BuiltinLaws (b_hash ty) hash_wf.
Proof.
  split.
  - intros h Hh. cbn. by rewrite hash_newtype_decode.
  - intros h Hh. by apply (atoms_wf [(Bytes 32, hash_atom h)]), Forall_singleton, hash_atom_ok.
  - intros v. apply decode_no_panic. auto with no_panic.
Qed.
Lemma b_uint_laws n ty : (n <= 16)%nat -> BuiltinLaws (b_uint n ty) (fun x => 0 <= x < 256 ^ Z.of_nat n).
Proof.
  intros Hn. assert (256 ^ Z.of_nat n <= 256 ^ 16) by (apply Z.pow_le_mono_r; lia). split.
  - intros x Hx. cbn. apply uint_atom_decode; unfold in_u, u128_max; lia.
  - intros x Hx. by apply (atoms_wf [(Bytes (Z.of_nat n), uint_atom x)]), Forall_singleton, uint_atom_ok.
  - intros v. apply decode_no_panic. auto with no_panic.
Qed.
Lemma b_u32_laws : BuiltinLaws b_u32 is_u32.
Proof.
  apply (builtin_laws_weaken _ _ _ (b_uint_laws 4 "u32" ltac:(lia))).
  intros x Hx. change (256 ^ Z.of_nat 4) with (u32_max + 1). ints.
Qed.
Lemma b_u64_laws : BuiltinLaws b_u64 is_u64.
Proof.
  apply (builtin_laws_weaken _ _ _ (b_uint_laws 8 "u64" ltac:(lia))).
  intros x Hx. change (256 ^ Z.of_nat 8) with (u64_max + 1). ints.
Qed.
Lemma b_u128_laws : BuiltinLaws b_u128 is_u128.
Proof.
  assert (Hp : 256 ^ Z.of_nat 16 = u128_max + 1) by done. split.
  - intros x Hx. change (u128_try_from (uint_atom x) = Ok x). pose proof (uint_atom_decode u128_max "u128" x ltac:(lia) Hx) as Hd.
    unfold uint_try_from in Hd. destruct (u128_try_from (uint_atom x)) as [y| |]; cbn [mbind outcome_bind] in Hd; try done.
    by destruct (y <=? u128_max).
  - intros x Hx. apply (atoms_wf [(Bytes 16, uint_atom x)]), Forall_singleton, (uint_atom_ok 16); [lia|].
    rewrite Hp. ints.
  - intros v. apply u128_no_panic.
Qed.
Lemma b_unit_laws : BuiltinLaws b_unit (fun _ => True).
Proof. split; [by intros []|intros [] _; apply av_of_unit_wf|by intros []]. Qed.
Lemma b_token_type_laws : BuiltinLaws b_token_type TokenType_wf.
Proof.
  split.
  - apply TokenType_roundtrip.
  - intros [h|h|] Hh.
    + apply (atoms_wf [(Bytes 1, uint_atom 1); (Bytes 32, hash_atom h); (Bytes 32, [])]).
      repeat constructor; cbn [fst snd]; try apply (uint_atom_ok 1); try apply hash_atom_ok;
        try apply empty_atom_ok; done.
    + apply (atoms_wf [(Bytes 1, uint_atom 0); (Bytes 32, []); (Bytes 32, hash_atom h)]).
      repeat constructor; cbn [fst snd]; try apply (uint_atom_ok 1); try apply hash_atom_ok;
        try apply empty_atom_ok; done.
    + apply (atoms_wf [(Bytes 1, uint_atom 2); (Bytes 32, []); (Bytes 32, [])]).
      repeat constructor; cbn [fst snd]; try apply (uint_atom_ok 1); try apply empty_atom_ok; done.
  - intros v. cbn. destruct v as [|v0 [|v1 [|v2 [|]]]]; try done. cbn [TokenType_of_value]. no_panic.
Qed.
Lemma b_public_address_laws : BuiltinLaws b_public_address PublicAddress_wf.
Proof.
  split.
  - apply PublicAddress_roundtrip.
  - intros [h|h] Hh.
    + apply (atoms_wf [(Bytes 1, bool_atom true); (Bytes 32, hash_atom h); (Bytes 32, [])]).
      repeat constructor; cbn [fst snd]; try apply bool_atom_ok; try apply hash_atom_ok;
        try apply empty_atom_ok; done.
    + apply (atoms_wf [(Bytes 1, bool_atom false); (Bytes 32, []); (Bytes 32, hash_atom h)]).
      repeat constructor; cbn [fst snd]; try apply bool_atom_ok; try apply hash_atom_ok;
        try apply empty_atom_ok; done.
  - intros v. cbn. destruct v as [|v0 [|v1 [|v2 [|]]]]; try done. cbn [PublicAddress_of_value]. no_panic.
Qed.
