(* ===== verification/MerkleTree.v ===== *)
(** * Sparse Merkle trees: [transient-crypto/src/merkle_tree.rs]

    A tree of height [h] has [2^h] leaf positions.  Absent subtrees are [Stub]s
    with root 0, and subtrees may be [Collapsed] to their root.  Node hashes are
    computed lazily by [rehash].  The hash functions are the third-party
    Poseidon and SHA-256 and are taken from an interface.

    Storage pointers ([Sp]) are transparent.  Shifts [1 << h] are those of a
    release build: the amount is taken modulo the width.  An underflow of a
    height ([u8]) is a panic. *)
From S2P Require Import Prelude Fab.

(** ** Interface to the hash functions

    A field element is its canonical representative, [Fr::default()] is 0. *)
Abbreviation Fr := Z.
Class Hashing := {
  transient_hash : list Fr -> Fr;
  persistent_hash : list Z -> HashOutput;
}.

Definition FR_BYTES_STORED : nat := 31.
(** [persistent.field_vec()[1]]: the field representation of 32 bytes is the
    stray last byte followed by the element of the first 31. *)
Definition degrade_to_transient (persistent : HashOutput) : Fr :=
  from_le_bytes (take FR_BYTES_STORED persistent).

Definition LEAF_HASH_DOMAIN_SEP : list Z := [109; 100; 110; 58; 108; 104].
Definition leaf_hash `{Hashing} (binary_repr : list Z) : HashOutput :=
  persistent_hash (LEAF_HASH_DOMAIN_SEP ++ binary_repr).

Definition shl_u64 (h : Z) : Z := 2 ^ (h mod 64).
Definition shl_u128 (h : Z) : Z := 2 ^ (h mod 128).

(** ** Ranges *)
Inductive Bound :=
  | Included (n : Z)
  | Excluded (n : Z)
  | Unbounded.

Definition range_force_inclusive (range : Bound * Bound) : option (Z * Z) :=
  inclusive_start ← match range.1 with
                    | Unbounded => Some 0
                    | Included n => Some n
                    | Excluded n => if n =? u64_max then None else Some (n + 1)
                    end;
  inclusive_end ← match range.2 with
                  | Unbounded => Some u64_max
                  | Included n => Some n
                  | Excluded n => if n =? 0 then None else Some (n - 1)
                  end;
  Some (inclusive_start, inclusive_end).

Definition range_empty (range : Bound * Bound) : bool :=
  match range_force_inclusive range with
  | Some (start, end_) => end_ <? start
  | None => true
  end.

Definition range_sub (range : Bound * Bound) (sub : Z) : option (Bound * Bound) :=
  let start := match range.1 with
               | Unbounded => Unbounded
               | Included n => match checked_sub n sub with
                               | Some m => Included m | None => Unbounded end
               | Excluded n => match checked_sub n sub with
                               | Some m => Excluded m | None => Unbounded end
               end in
  end_ ← match range.2 with
         | Unbounded => Some Unbounded
         | Included n => m ← checked_sub n sub; Some (Included m)
         | Excluded n => m ← checked_sub n sub; Some (Excluded m)
         end;
  if range_empty (start, end_) then None else Some (start, end_).

Definition overlap (a b : Bound * Bound) : option (Z * Z) :=
  '(a0, a1) ← range_force_inclusive a;
  '(b0, b1) ← range_force_inclusive b;
  let start := Z.max a0 b0 in
  let end_ := Z.min a1 b1 in
  if start <=? end_ then Some (start, end_) else None.

(** [RangeBounds::contains]. *)
Definition range_contains (range : Bound * Bound) (n : Z) : bool :=
  match range.1 with Unbounded => true | Included s => s <=? n | Excluded s => s <? n end &&
  match range.2 with Unbounded => true | Included e => n <=? e | Excluded e => n <? e end.

(** ** Trees *)
Inductive InvalidUpdate :=
  | CollapsedIndex (idx height : Z)
  | StubUpdate (idx height : Z)
  | EndBeforeStart (start end_ : Z)
  | EndOutOfTree (end_ : Z)
  | IndexOutOfTree (index : Z)
  | WrongNumberOfSegments (a b : Z)
  | NotFullyRehashed
  | BadUpdatePath.
#[global] Instance InvalidUpdate_eq_dec : EqDecision InvalidUpdate.
Proof. solve_decision. Defined.

Inductive InvalidIndex := mkInvalidIndex (index : Z).

Inductive MerkleTreeNode (A : Type) : Type :=
  | Leaf (hash : HashOutput) (aux : A)
  | Collapsed (hash : Fr) (height : Z)
  | Stub (height : Z)
  | Node (hash : option Fr) (lhs rhs : MerkleTreeNode A) (height : Z).
Arguments Leaf {A} _ _.
Arguments Collapsed {A} _ _.
Arguments Stub {A} _.
Arguments Node {A} _ _ _ _.

#[global] Instance MerkleTreeNode_eq_dec `{EqDecision A} : EqDecision (MerkleTreeNode A).
Proof. solve_decision. Defined.

Record MerklePathEntry := mkMerklePathEntry {
  mpe_sibling : Fr;
  mpe_goes_left : bool;
}.
Record MerklePath (T : Type) := mkMerklePath {
  mp_leaf : T;
  mp_path : list MerklePathEntry;
}.
Arguments mkMerklePath {T} _ _.
Arguments mp_leaf {T} _.
Arguments mp_path {T} _.

Record TreeInsertionPathEntry := mkTreeInsertionPathEntry {
  tipe_hash : option Fr;
  tipe_goes_left : bool;
}.
Record TreeInsertionPath (A : Type) := mkTreeInsertionPath {
  tip_leaf : HashOutput * A;
  tip_path : list TreeInsertionPathEntry;
}.
Arguments mkTreeInsertionPath {A} _ _.
Arguments tip_leaf {A} _.
Arguments tip_path {A} _.

Record MerkleTreeCollapsedUpdate := mkMerkleTreeCollapsedUpdate {
  mcu_start : Z;
  mcu_end : Z;
  mcu_hashes : list Fr;
}.

Inductive LeafOrCollapsed (A : Type) : Type :=
  | LLeaf (index : Z) (hash : HashOutput) (aux : A)
  | LCollapsed (start end_ : Z).
Arguments LLeaf {A} _ _ _.
Arguments LCollapsed {A} _ _.

Definition upgrade {A} (self : LeafOrCollapsed A) (shift : Z) : LeafOrCollapsed A :=
  match self with
  | LLeaf index hash aux => LLeaf (index + shift) hash aux
  | LCollapsed start end_ => LCollapsed (start + shift) (end_ + shift)
  end.

Section tree.
  Context `{Hashing} {A : Type}.
  Implicit Types t : MerkleTreeNode A.

Definition mt_height t : Z :=
  match t with
  | Leaf _ _ => 0
  | Stub height | Collapsed _ height | Node _ _ _ height => height
  end.

Definition mt_root t : option Fr :=
  match t with
  | Leaf hash _ => Some (degrade_to_transient hash)
  | Stub _ => Some 0
  | Collapsed hash _ => Some hash
  | Node hash _ _ _ => hash
  end.

Definition is_collapsed t : bool :=
  match t with Collapsed _ _ => true | _ => false end.

(** [MerkleTreeNode::invariant], checked at each node on deserialization. *)
Definition MerkleTreeNode_invariant t : bool :=
  match t with
  | Node hash lhs rhs height =>
      negb ((height =? 0) || negb (height - 1 =? mt_height lhs)
            || negb (height - 1 =? mt_height rhs)) &&
      negb (bool_decide (is_Some hash) &&
            (bool_decide (mt_root lhs = None) || bool_decide (mt_root rhs = None)))
  | _ => true
  end.

Definition blank (height : Z) : MerkleTreeNode A := Stub height.

Fixpoint mt_index t (index : Z) : option (HashOutput * A) :=
  match t with
  | Leaf hash aux => Some (hash, aux)
  | Stub _ | Collapsed _ _ => None
  | Node _ lhs rhs height =>
      let cmp := shl_u64 (height - 1) in
      if index <? cmp then mt_index lhs index else mt_index rhs (index - cmp)
  end.

Fixpoint rehash {E} t : outcome E (MerkleTreeNode A) :=
  match t with
  | Node None lhs rhs height =>
      lhs ← rehash lhs;
      rhs ← rehash rhs;
      l ← unwrap (mt_root lhs);
      r ← unwrap (mt_root rhs);
      Ok (Node (Some (transient_hash [l; r])) lhs rhs height)
  | _ => Ok t
  end.

(** The recursions below open a [Stub] into a node of two smaller ones, so they
    are bounded by [mt_size], which counts the levels they can visit; an
    exhausted bound, like a failed [unreachable!()], is a panic.  The equations
    of each function without the bound are proved below. *)
Fixpoint mt_size t : nat :=
  match t with
  | Leaf _ _ | Collapsed _ _ => 1
  | Stub height => S (Z.to_nat height)
  | Node _ lhs rhs _ => S (Nat.max (mt_size lhs) (mt_size rhs))
  end.

Definition open_stub (hash : option Fr) t : MerkleTreeNode A :=
  match t with
  | Stub height => Node hash (Stub (height - 1)) (Stub (height - 1)) height
  | _ => t
  end.

Fixpoint try_update_hash_rec (fuel : nat) t (index : Z) (new_leaf : HashOutput) (new_aux : A)
    : outcome InvalidUpdate (MerkleTreeNode A) :=
  match fuel with
  | O => Panic
  | S fuel =>
      if shl_u128 (mt_height t) <=? index then Err (IndexOutOfTree index) else
      let h := mt_height t in
      if is_collapsed t then Err (CollapsedIndex index h) else
      if h =? 0 then Ok (Leaf new_leaf new_aux) else
      match open_stub None t with
      | Node _ lhs rhs height =>
          let cmp := shl_u64 (h - 1) in
          if index <? cmp then
            lhs ← try_update_hash_rec fuel lhs index new_leaf new_aux;
            Ok (Node None lhs rhs height)
          else
            rhs ← try_update_hash_rec fuel rhs (index - cmp) new_leaf new_aux;
            Ok (Node None lhs rhs height)
      | _ => Panic
      end
  end.
Definition try_update_hash t := try_update_hash_rec (mt_size t) t.
Definition try_update t (index : Z) (binary_repr : list Z) (aux : A) :=
  try_update_hash t index (leaf_hash binary_repr) aux.
(** The deprecated [update_hash]. *)
Definition update_hash t (index : Z) (new_leaf : HashOutput) (new_aux : A)
    : outcome InvalidUpdate (MerkleTreeNode A) :=
  match try_update_hash t index new_leaf new_aux with
  | Ok t => Ok t
  | _ => Panic
  end.

(** [self.rehash().root().expect(..)]. *)
Definition rehashed_root {E} t : outcome E Fr :=
  t ← rehash t; unwrap (mt_root t).

Fixpoint collapse_rec {E} (fuel : nat) t (start end_ : Z) : outcome E (MerkleTreeNode A) :=
  match fuel with
  | O => Panic
  | S fuel =>
      match t with
      | Leaf hash _ => Ok (Collapsed (degrade_to_transient hash) 0)
      | Collapsed _ _ => Ok t
      | _ =>
          let h := mt_height t in
          if (start =? 0) && (end_ =? shl_u64 h - 1) then
            r ← rehashed_root t; Ok (Collapsed r h)
          else
            match open_stub (Some 0) t with
            | Node hash lhs rhs height =>
                let cmp := shl_u64 (h - 1) in
                lhs ← (if start <? cmp
                        then collapse_rec fuel lhs start (Z.min end_ (cmp - 1)) else Ok lhs);
                rhs ← (if cmp <=? end_
                         then collapse_rec fuel rhs (sat_sub start cmp) (end_ - cmp)
                         else Ok rhs);
                if is_collapsed lhs && is_collapsed rhs then
                  r ← rehashed_root t; Ok (Collapsed r height)
                else Ok (Node hash lhs rhs height)
            | _ => Panic
            end
      end
  end.
Definition collapse {E} t : Z -> Z -> outcome E (MerkleTreeNode A) := collapse_rec (mt_size t) t.

(** ** Iteration over leaves *)
Fixpoint leaves_in_range t (range : Bound * Bound) : list (LeafOrCollapsed A) :=
  match t with
  | Leaf hash aux => if range_contains range 0 then [LLeaf 0 hash aux] else []
  | Stub _ => []
  | Collapsed _ _ =>
      match overlap range (Included 0, Excluded (shl_u64 (mt_height t))) with
      | Some (start, end_) => [LCollapsed start end_]
      | None => []
      end
  | Node _ lhs rhs _ =>
      let mid := shl_u64 (mt_height lhs) in
      leaves_in_range lhs range ++
      match range_sub range mid with
      | Some sub_range => map (fun l => upgrade l mid) (leaves_in_range rhs sub_range)
      | None => []
      end
  end.
Definition leaves t := leaves_in_range t (Unbounded, Unbounded).

Definition leaf_only (l : LeafOrCollapsed A) : option (Z * (HashOutput * A)) :=
  match l with
  | LLeaf index hash aux => Some (index, (hash, aux))
  | LCollapsed _ _ => None
  end.
Definition iter_aux t : list (Z * (HashOutput * A)) := omap leaf_only (leaves t).
Definition iter t : list (Z * HashOutput) := map (fun p => (p.1, p.2.1)) (iter_aux t).

(** ** Paths *)

(** The [while at.height() > 1] loop of [path_for_index_internal]: it descends
    one node per round, so it is structural on the tree. *)
Fixpoint path_loop t (siblings : bool) (index i : Z) (path : list (option Fr))
    (goes_left : list bool) : outcome InvalidIndex (list (option Fr) * list bool) :=
  if 1 <? mt_height t then
    match t with
    | Leaf _ _ => Panic
    | Stub _ | Collapsed _ _ => Err (mkInvalidIndex index)
    | Node _ lhs rhs height =>
        let cmp := shl_u64 (height - 1) in
        if i <? cmp then
          path_loop lhs siblings index i
            (path ++ [if siblings then mt_root rhs else mt_root t]) (goes_left ++ [true])
        else
          path_loop rhs siblings index (i - cmp)
            (path ++ [if siblings then mt_root lhs else mt_root t]) (goes_left ++ [false])
    end
  else
    let goes_left := goes_left ++ [i =? 0] in
    path_elem ← match siblings, i, t with
                | _, _, Stub _ => Err (mkInvalidIndex index)
                | false, _, t => Ok (mt_root t)
                | true, 0, Node _ _ rhs _ => Ok (mt_root rhs)
                | true, 1, Node _ lhs _ _ => Ok (mt_root lhs)
                | _, _, _ => Panic
                end;
    Ok (path ++ [path_elem], goes_left).

Definition path_for_index_internal t (index : Z) (siblings : bool)
    : outcome InvalidIndex (list (option Fr) * list bool) :=
  if negb (1 <=? mt_height t) then Panic
  else path_loop t siblings index index [] [].

(** [collect::<Result<_, _>>()] of the entries. *)
Fixpoint collect_entries (index : Z) (l : list (option Fr * bool))
    : outcome InvalidIndex (list MerklePathEntry) :=
  match l with
  | [] => Ok []
  | (sibling, goes_left) :: l =>
      sibling ← ok_or sibling (mkInvalidIndex index);
      l ← collect_entries index l;
      Ok (mkMerklePathEntry sibling goes_left :: l)
  end.

Definition path_for_leaf {T} t (index : Z) (leaf : T) : outcome InvalidIndex (MerklePath T) :=
  if mt_height t =? 0 then
    if index =? 0 then Ok (mkMerklePath leaf []) else Err (mkInvalidIndex index)
  else
    '(path, lefts) ← path_for_index_internal t index true;
    entries ← collect_entries index (reverse (zip path lefts));
    Ok (mkMerklePath leaf entries).

(** [MerklePath::root], for a leaf with the given binary representation. *)
Definition path_step (acc : Fr) (entry : MerklePathEntry) : Fr :=
  if mpe_goes_left entry then transient_hash [acc; mpe_sibling entry]
  else transient_hash [mpe_sibling entry; acc].
Definition MerklePath_root {T} (binary_repr : T -> list Z) (self : MerklePath T) : Fr :=
  foldl path_step (degrade_to_transient (leaf_hash (binary_repr (mp_leaf self)))) (mp_path self).

(** [.ok()]: an error becomes [None], a panic stays one. *)
Fixpoint find_path_loop {T} t (hash : HashOutput) (leaf : T) (l : list (Z * HashOutput))
    : outcome InvalidIndex (option (MerklePath T)) :=
  match l with
  | [] => Ok None
  | (index, h) :: l =>
      if bool_decide (hash = h) then
        match path_for_leaf t index leaf with
        | Ok p => Ok (Some p)
        | Err _ => Ok None
        | Panic => Panic
        end
      else find_path_loop t hash leaf l
  end.
Definition find_path_for_leaf_inner {T} t (hash : HashOutput) (leaf : T) (range : Bound * Bound) :=
  find_path_loop t hash leaf
    (map (fun p => (p.1, p.2.1)) (omap leaf_only (leaves_in_range t range))).

(** ** Insertion evidence *)
Definition insertion_evidence t (index : Z) : outcome InvalidIndex (TreeInsertionPath A) :=
  if mt_height t =? 0 then Err (mkInvalidIndex index) else
  '(path, lefts) ← path_for_index_internal t index false;
  leaf ← ok_or (mt_index t index) (mkInvalidIndex index);
  Ok (mkTreeInsertionPath leaf
        (map (fun p => mkTreeInsertionPathEntry p.1 p.2) (reverse (zip path lefts)))).

(** The path is stored from the leaf up and consumed from its end
    ([path.last()], [&path[..len - 1]]): here it comes reversed, from the root. *)
Fixpoint update_from_evidence_rec t (leaf : HashOutput * A) (rpath : list TreeInsertionPathEntry)
    : outcome InvalidUpdate (MerkleTreeNode A) :=
  match t with
  | Collapsed _ height =>
      hash ← match rpath with
             | [] => Ok (degrade_to_transient leaf.1)
             | entry :: _ => ok_or (tipe_hash entry) BadUpdatePath
             end;
      Ok (Collapsed hash height)
  | _ =>
      match rpath with
      | [] => Ok (Leaf leaf.1 leaf.2)
      | entry :: rpath =>
          match t with
          | Node _ lhs rhs height =>
              if tipe_goes_left entry then
                lhs ← update_from_evidence_rec lhs leaf rpath;
                Ok (Node None lhs rhs height)
              else
                rhs ← update_from_evidence_rec rhs leaf rpath;
                Ok (Node None lhs rhs height)
          | _ => Err BadUpdatePath
          end
      end
  end.
Definition update_from_evidence t (insertion : TreeInsertionPath A) :=
  update_from_evidence_rec t (tip_leaf insertion) (reverse (tip_path insertion)).

(** ** Collapsed updates *)

(** [step_sizes]: stage 1, the bits of [a] from below. *)
Fixpoint step_up (bit : nat) (rounds : nat) (a : Z) (res : list Z) : Z * list Z :=
  match rounds with
  | O => (a, res)
  | S rounds =>
      let shifted := Z.shiftl 1 (Z.of_nat bit) in
      if negb (Z.land a shifted =? 0)
      then step_up (S bit) rounds (a + shifted) (res ++ [Z.of_nat bit])
      else step_up (S bit) rounds a res
  end.
(** Stage 2: the bits of [b] from above. *)
Fixpoint step_down (bit : nat) (b : Z) (res : list Z) : list Z :=
  match bit with
  | O => res
  | S bit =>
      if negb (Z.land b (Z.shiftl 1 (Z.of_nat bit)) =? 0)
      then step_down bit b (res ++ [Z.of_nat bit]) else step_down bit b res
  end.
(** [(b ^ a).ilog2()] panics on 0. *)
Definition step_sizes (a b : Z) : outcome InvalidUpdate (list Z) :=
  if Z.lxor b a =? 0 then Panic else
  let msb_diff := Z.log2 (Z.lxor b a) in
  let '(a, res) := step_up 0 (Z.to_nat msb_diff) a [] in
  let res := if Z.land a (Z.shiftl 1 msb_diff) =? 0 then res ++ [msb_diff] else res in
  Ok (step_down (Z.to_nat msb_diff) b res).

(** The descent of [partial_index]: [n] levels remain, the bit looked at is
    [height + n - 1]. *)
Fixpoint partial_index_loop t (idx height : Z) (n : nat) : outcome InvalidUpdate Fr :=
  match n with
  | O => ok_or (mt_root t) NotFullyRehashed
  | S n =>
      let go_left := Z.land idx (Z.shiftl 1 (height + Z.of_nat n)) =? 0 in
      match t with
      | Leaf _ _ => Panic
      | Node _ lhs rhs _ => partial_index_loop (if go_left then lhs else rhs) idx height n
      | Collapsed _ _ => Err (CollapsedIndex idx height)
      | Stub _ => Err (StubUpdate idx height)
      end
  end.
Definition partial_index t (idx height : Z) : outcome InvalidUpdate Fr :=
  if mt_height t <? height then Panic else
  partial_index_loop t idx height (Z.to_nat (mt_height t - height)).

Fixpoint collect_hashes t (curr : Z) (steps : list Z) : outcome InvalidUpdate (list Fr) :=
  match steps with
  | [] => Ok []
  | step :: steps =>
      h ← partial_index t curr step;
      hs ← collect_hashes t (curr + Z.shiftl 1 step) steps;
      Ok (h :: hs)
  end.
Definition MerkleTreeCollapsedUpdate_new t (start end_ : Z)
    : outcome InvalidUpdate MerkleTreeCollapsedUpdate :=
  if end_ <? start then Err (EndBeforeStart start end_) else
  if shl_u128 (mt_height t) <=? end_ then Err (EndOutOfTree end_) else
  steps ← step_sizes start (trunc u64_max (end_ + 1));
  hashes ← collect_hashes t start steps;
  Ok (mkMerkleTreeCollapsedUpdate start end_ hashes).

(** [partial_insert]: the descent pushes the siblings on a stack and the fold
    rebuilds the nodes around the inserted digest.  The two are fused: the node
    rebuilt at depth [n] has height [height + n]. *)
Fixpoint partial_insert_loop t (idx height : Z) (digest : Fr) (n : nat)
    : outcome InvalidUpdate (MerkleTreeNode A) :=
  match n with
  | O => Ok (Collapsed digest height)
  | S n =>
      let go_left := Z.land idx (Z.shiftl 1 (height + Z.of_nat n)) =? 0 in
      let rebuild lhs rhs :=
        if go_left then
          acc ← partial_insert_loop lhs idx height digest n;
          Ok (Node None acc rhs (height + 1 + Z.of_nat n))
        else
          acc ← partial_insert_loop rhs idx height digest n;
          Ok (Node None lhs acc (height + 1 + Z.of_nat n)) in
      match t with
      | Leaf _ _ => Panic
      | Node _ lhs rhs _ => rebuild lhs rhs
      | Stub h => rebuild (Stub (h - 1)) (Stub (h - 1))
      | Collapsed _ _ => Err (CollapsedIndex idx height)
      end
  end.
Definition partial_insert t (idx height : Z) (digest : Fr) :=
  if mt_height t <? height then Panic else
  partial_insert_loop t idx height digest (Z.to_nat (mt_height t - height)).

Fixpoint apply_segments t (curr_idx : Z) (l : list (Z * Fr))
    : outcome InvalidUpdate (MerkleTreeNode A) :=
  match l with
  | [] => Ok t
  | (segment, hash) :: l =>
      t ← partial_insert t curr_idx segment hash;
      apply_segments t (curr_idx + Z.shiftl 1 segment) l
  end.
Definition apply_collapsed_update t (update : MerkleTreeCollapsedUpdate)
    : outcome InvalidUpdate (MerkleTreeNode A) :=
  segments ← step_sizes (mcu_start update) (trunc u64_max (mcu_end update + 1));
  if negb (length segments =? length (mcu_hashes update))%nat
  then Err (WrongNumberOfSegments (Z.of_nat (length segments))
              (Z.of_nat (length (mcu_hashes update))))
  else apply_segments t (mcu_start update) (zip segments (mcu_hashes update)).

(** ** Well-formed trees *)

(** The invariant of the source at every node, heights being [u8]. *)
Fixpoint mt_wf t : Prop :=
  match t with
  | Leaf _ _ => True
  | Stub h | Collapsed _ h => 0 <= h
  | Node _ l r _ => MerkleTreeNode_invariant t = true /\ mt_wf l /\ mt_wf r
  end.

(** The root [rehash] computes. *)
Fixpoint root_spec t : Fr :=
  match t with
  | Leaf h _ => degrade_to_transient h
  | Stub _ => 0
  | Collapsed h _ => h
  | Node (Some h) _ _ _ => h
  | Node None l r _ => transient_hash [root_spec l; root_spec r]
  end.

(** Subtrees without data: what collapsing parts of a stub leaves. *)
Fixpoint mt_blank t : Prop :=
  match t with
  | Leaf _ _ => False
  | Stub _ => True
  | Collapsed h _ => h = 0
  | Node h l r _ => h = Some 0 /\ mt_blank l /\ mt_blank r
  end.

(** Stored hashes are those of the children, except over blank subtrees, whose
    root is 0. *)
Fixpoint hash_ok t : Prop :=
  match t with
  | Node h l r _ =>
      (forall x, h = Some x ->
         mt_blank t \/ exists a b, mt_root l = Some a /\ mt_root r = Some b /\
                                  x = transient_hash [a; b]) /\
      hash_ok l /\ hash_ok r
  | _ => True
  end.

(** Position [i] lies in a collapsed subtree. *)
Fixpoint collapsed_at t (i : Z) : bool :=
  match t with
  | Collapsed _ _ => true
  | Leaf _ _ | Stub _ => false
  | Node _ l r h => if i <? 2 ^ (h - 1) then collapsed_at l i else collapsed_at r (i - 2 ^ (h - 1))
  end.

Lemma shl_u64_small h : 0 <= h <= 63 -> shl_u64 h = 2 ^ h.
Proof. intros. unfold shl_u64. by rewrite Z.mod_small by lia. Qed.
Lemma shl_u128_small h : 0 <= h <= 127 -> shl_u128 h = 2 ^ h.
Proof. intros. unfold shl_u128. by rewrite Z.mod_small by lia. Qed.

Lemma mt_wf_node hash l r h :
  mt_wf (Node hash l r h) <->
  1 <= h /\ mt_height l = h - 1 /\ mt_height r = h - 1 /\
  (is_Some hash -> is_Some (mt_root l) /\ is_Some (mt_root r)) /\ mt_wf l /\ mt_wf r.
Proof.
  assert (Hpos : forall t, mt_wf t -> 0 <= mt_height t).
  { induction t as [| | |? l' IHl r' IHr h']; simpl; [lia..|]. intros (Hi & Hl & Hr).
    apply IHl in Hl. revert Hi. unfold MerkleTreeNode_invariant.
    destruct (Z.eqb_spec (h' - 1) (mt_height l')); [lia|]. by rewrite orb_true_r. }
  simpl. unfold MerkleTreeNode_invariant.
  destruct (Z.eqb_spec h 0), (Z.eqb_spec (h - 1) (mt_height l)),
    (Z.eqb_spec (h - 1) (mt_height r)); simpl;
    try (split; [intros (? & ? & ?); done|intros (? & ? & ? & ? & ? & ?); lia]).
  rewrite negb_true_iff, andb_false_iff, orb_false_iff, !bool_decide_eq_false, <- !not_eq_None_Some.
  split.
  - intros (Hi & Hl & Hr). apply Hpos in Hl as ?. split_and!; try lia; [|done..].
    intros Hs. destruct Hi as [|[]]; done.
  - intros (? & ? & ? & Hi & ? & ?). split_and!; [|done..].
    destruct hash; [right|left; by intros []]. apply Hi. done.
Qed.
Lemma mt_height_nonneg t : mt_wf t -> 0 <= mt_height t.
Proof. destruct t; [simpl; lia..|]. rewrite mt_wf_node. simpl. lia. Qed.

Lemma root_spec_root t a : mt_root t = Some a -> root_spec t = a.
Proof. destruct t as [| | |[]]; simpl; congruence. Qed.

#[local] Arguments mt_wf : simpl never.
#[local] Arguments Z.pow : simpl never.
#[local] Arguments Z.sub : simpl never.

Lemma mt_wf_stub_open hash h :
  1 <= h -> mt_wf (Node hash (Stub (h - 1)) (Stub (h - 1)) h).
Proof. intros. apply mt_wf_node. unfold mt_wf. simpl. split_and!; try lia; eauto. Qed.

(** Opening a stub changes nothing observable. *)
Lemma open_stub_spec hash t :
  mt_wf t -> 1 <= mt_height t <= 63 -> is_collapsed t = false ->
  exists hash' l r h, open_stub hash t = Node hash' l r h /\ h = mt_height t /\
    mt_wf (open_stub hash t) /\
    (mt_size l < mt_size t)%nat /\ (mt_size r < mt_size t)%nat /\
    (forall j, mt_index (open_stub hash t) j = mt_index t j) /\
    (forall j, collapsed_at (open_stub hash t) j = collapsed_at t j) /\
    ((forall x, hash = Some x -> x = 0) -> hash_ok t -> hash_ok (open_stub hash t)).
Proof.
  intros Hwf Hh Hc. destruct t as [| |h|hash' l r h]; try done; simpl in *; [lia| |].
  - eexists _, _, _, _. split; [done|]. unfold mt_wf in Hwf.
    split_and!; [done|apply mt_wf_stub_open; lia|simpl; lia|simpl; lia| | |].
    + intros j. by destruct (_ <? _).
    + intros j. by destruct (_ <? _).
    + intros Hz _. split; [|done]. intros x Hx. left. rewrite Hx. rewrite (Hz _ Hx). done.
  - eexists _, _, _, _. split_and!; try done; lia.
Qed.

Lemma pow2_split h : 1 <= h -> 2 ^ h = 2 ^ (h - 1) + 2 ^ (h - 1).
Proof. intros. rewrite <- (Z.succ_pred h) at 1. rewrite Z.pow_succ_r by lia.
  replace (Z.pred h) with (h - 1) by lia. lia. Qed.

(** What a successful update does. *)
Definition updated t t' (i : Z) (leaf : HashOutput) (aux : A) : Prop :=
  mt_wf t' /\ mt_height t' = mt_height t /\ (hash_ok t -> hash_ok t') /\
  (forall j, 0 <= j < 2 ^ mt_height t ->
     mt_index t' j = if decide (j = i) then Some (leaf, aux) else mt_index t j) /\
  (forall j, 0 <= j < 2 ^ mt_height t -> collapsed_at t' j = collapsed_at t j).

Lemma updated_node hash hash' l r h l' i leaf aux (side : bool) :
  mt_wf (Node hash l r h) -> h <= 63 ->
  let c := if side then l else r in
  let off := if side then 0 else 2 ^ (h - 1) in
  updated c l' (i - off) leaf aux -> 0 <= i - off < 2 ^ (h - 1) ->
  updated (Node hash' l r h) (if side then Node None l' r h else Node None l l' h) i leaf aux.
Proof.
  intros Hwf Hh c off (Hwf' & Hht & Hok & Hidx & Hcol) Hi.
  apply mt_wf_node in Hwf as (H1 & Hl & Hr & _ & Hwl & Hwr).
  pose proof (pow2_split h H1) as Hpow.
  assert (Hc : mt_height c = h - 1) by (subst c; by destruct side).
  rewrite Hc in *.
  assert (Hs : shl_u64 (h - 1) = 2 ^ (h - 1)) by (apply shl_u64_small; lia).
  unfold updated. cbn [mt_height]. split_and!.
  - destruct side; apply mt_wf_node; split_and!; try done; try lia; by intros [? ?].
  - by destruct side.
  - destruct side; simpl; intros (_ & Hol & Hor); split_and!; try done; auto.
  - intros j Hj. destruct side; subst c off; simpl; rewrite Hs;
      destruct (Z.ltb_spec j (2 ^ (h - 1))).
    + rewrite Hidx by lia. repeat case_decide; try done; lia.
    + case_decide; [lia|done].
    + case_decide; [lia|done].
    + rewrite Hidx by lia. repeat case_decide; try done; lia.
  - intros j Hj. destruct side; subst c off; simpl;
      destruct (Z.ltb_spec j (2 ^ (h - 1))); try done; apply Hcol; lia.
Qed.

Lemma try_update_hash_rec_spec n : forall t i leaf aux,
  mt_wf t -> mt_height t <= 63 -> 0 <= i -> (mt_size t <= n)%nat ->
  match try_update_hash_rec n t i leaf aux with
  | Ok t' => i < 2 ^ mt_height t /\ collapsed_at t i = false /\ updated t t' i leaf aux
  | Err (IndexOutOfTree j) => j = i /\ 2 ^ mt_height t <= i
  | Err (CollapsedIndex _ _) => i < 2 ^ mt_height t /\ collapsed_at t i = true
  | _ => False
  end.
Proof.
  induction n as [|n IH]; intros t i leaf aux Hwf Hh Hi Hn; [destruct t; simpl in Hn; lia|].
  pose proof (mt_height_nonneg t Hwf). simpl. rewrite shl_u128_small by lia.
  destruct (Z.leb_spec (2 ^ mt_height t) i); [done|].
  destruct (is_collapsed t) eqn:Hc; [by destruct t|].
  destruct (Z.eqb_spec (mt_height t) 0) as [Hz|Hz].
  { rewrite Hz in *. change (2 ^ 0) with 1 in *. replace i with 0 by lia.
    split; [lia|]. split.
    - destruct t as [| | |? ? ? ?]; try done. apply mt_wf_node in Hwf. simpl in Hz. lia.
    - unfold updated. rewrite Hz. split_and!; try done.
      + intros j Hj. case_decide; [done|lia].
      + destruct t; try done. apply mt_wf_node in Hwf. simpl in Hz. lia. }
  destruct (open_stub_spec None t Hwf ltac:(lia) Hc)
    as (hash' & l & r & h & Eo & -> & Hwfo & Hsl & Hsr & Hix & Hcx & Hok).
  rewrite Eo in *. apply mt_wf_node in Hwfo as Hch. destruct Hch as (Hge & Hl & Hr & _ & Hwl & Hwr).
  pose proof (pow2_split _ Hge) as Hpow. rewrite shl_u64_small by lia.
  assert (Hto : forall t', updated (Node hash' l r (mt_height t)) t' i leaf aux ->
                           updated t t' i leaf aux).
  { intros t' (? & ? & ? & Hx & Hy). unfold updated in *. cbn [mt_height] in *. split_and!; auto.
    - intros Ht. apply Hok in Ht; [auto|done].
    - intros j Hj. rewrite Hx by done. case_decide; [done|apply Hix].
    - intros j Hj. rewrite Hy by done. apply Hcx. }
  specialize (Hcx i). simpl in Hcx. destruct (Z.ltb_spec i (2 ^ (mt_height t - 1))).
  - specialize (IH l i leaf aux Hwl ltac:(lia) Hi ltac:(lia)). rewrite Hl in IH.
    destruct (try_update_hash_rec n l i leaf aux) as [l'|[]|]; simpl; try done;
      try (destruct IH; exfalso; lia); try (destruct IH; split; [lia|congruence]).
    destruct IH as (? & Hcl & Hu). split_and!; [lia|congruence|]. apply Hto.
    eapply (updated_node hash' hash' l r _ l' i leaf aux true); try done; try lia.
    by rewrite Z.sub_0_r.
  - specialize (IH r (i - 2 ^ (mt_height t - 1)) leaf aux Hwr ltac:(lia) ltac:(lia) ltac:(lia)).
    rewrite Hr in IH.
    destruct (try_update_hash_rec n r _ leaf aux) as [r'|[]|]; simpl; try done;
      try (destruct IH; exfalso; lia); try (destruct IH; split; [lia|congruence]).
    destruct IH as (? & Hcr & Hu). split_and!; [lia|congruence|]. apply Hto.
    eapply (updated_node hash' hash' l r _ r' i leaf aux false); try done; lia.
Qed.

(** ** Rehashing *)
Lemma rehash_spec {E} t :
  exists t', @rehash E t = Ok t' /\ mt_root t' = Some (root_spec t) /\
    mt_height t' = mt_height t /\ (mt_wf t -> mt_wf t') /\ (hash_ok t -> hash_ok t') /\
    (forall j, mt_index t' j = mt_index t j) /\
    (forall j, collapsed_at t' j = collapsed_at t j).
Proof.
  induction t as [hash aux|hash h|h|[x|] l IHl r IHr h];
    [eexists; split_and!; first [done|reflexivity]..|].
  destruct IHl as (l' & El & Rl & Hl & Wl & Ol & Il & Cl).
  destruct IHr as (r' & Er & Rr & Hr & Wr & Or & Ir & Cr).
  simpl. rewrite El. simpl. rewrite Er. simpl. rewrite Rl, Rr. simpl.
  eexists. split; [done|]. split_and!; try done.
  - rewrite !mt_wf_node. intros (? & ? & ? & _ & ? & ?).
    rewrite Rl, Rr. split_and!; auto; congruence.
  - simpl. intros (_ & ? & ?). split_and!; auto. intros x [= <-]. right. eauto.
  - intros j. simpl. by rewrite Il, Ir.
  - intros j. simpl. by rewrite Cl, Cr.
Qed.
Lemma rehashed_root_spec {E} t : @rehashed_root E t = Ok (root_spec t).
Proof.
  unfold rehashed_root. destruct (@rehash_spec E t) as (t' & -> & Hr & _). simpl. by rewrite Hr.
Qed.

Lemma blank_index t j : mt_blank t -> mt_index t j = None.
Proof.
  revert j. induction t as [| | |? l IHl r IHr h]; simpl; try done. intros j (_ & Hl & Hr).
  destruct (_ <? _); auto.
Qed.
Lemma blank_root t : mt_blank t -> mt_root t = Some 0 /\ root_spec t = 0.
Proof. destruct t; simpl; try done; intros; destruct_and?; by subst. Qed.

(** ** Collapsing *)
Definition collapsed_to t t' (s e : Z) : Prop :=
  mt_wf t' /\ mt_height t' = mt_height t /\ root_spec t' = root_spec t /\
  (forall x, mt_root t = Some x -> mt_root t' = Some x) /\
  (mt_blank t -> mt_blank t') /\ (hash_ok t -> hash_ok t') /\
  (forall j, 0 <= j < 2 ^ mt_height t ->
     mt_index t' j = if decide (s <= j <= e) then None else mt_index t j) /\
  (forall j, 0 <= j < 2 ^ mt_height t ->
     collapsed_at t' j = bool_decide (s <= j <= e) || collapsed_at t j).

(** The whole tree collapsed, where nothing outside the range was present. *)
Lemma collapsed_to_root t s e :
  mt_wf t ->
  (forall j, 0 <= j < 2 ^ mt_height t -> ~ s <= j <= e ->
     mt_index t j = None /\ collapsed_at t j = true) ->
  collapsed_to t (Collapsed (root_spec t) (mt_height t)) s e.
Proof.
  intros Hwf Hout. unfold collapsed_to. split_and!; try done.
  - by apply mt_height_nonneg.
  - intros x Hx. simpl. f_equal. by apply root_spec_root.
  - intros Hb%blank_root. simpl. tauto.
  - intros j Hj. simpl. case_decide; [done|]. by destruct (Hout j).
  - intros j Hj. simpl. case_bool_decide; [done|]. by destruct (Hout j) as [_ ->].
Qed.

Lemma collapsed_to_self t s e :
  mt_wf t -> (forall j, 0 <= j < 2 ^ mt_height t -> ~ s <= j <= e) ->
  collapsed_to t t s e.
Proof.
  intros Hwf Hout. unfold collapsed_to. split_and!; try done.
  - intros j Hj. case_decide; [|done]. by destruct (Hout j Hj).
  - intros j Hj. rewrite bool_decide_eq_false_2 by (by apply Hout). done.
Qed.

Lemma collapsed_to_node hash l r h l' r' s e :
  mt_wf (Node hash l r h) -> h <= 63 -> 0 <= s ->
  collapsed_to l l' s (Z.min e (2 ^ (h - 1) - 1)) ->
  collapsed_to r r' (Z.max 0 (s - 2 ^ (h - 1))) (e - 2 ^ (h - 1)) ->
  collapsed_to (Node hash l r h) (Node hash l' r' h) s e.
Proof.
  intros Hwf Hh Hs (Wl & Hl & Sl & Rl & Bl & Ol & Il & Cl) (Wr & Hr & Sr & Rr & Br & Or & Ir & Cr).
  apply mt_wf_node in Hwf as (Hge & Hhl & Hhr & Hroots & _ & _).
  pose proof (pow2_split h Hge) as Hpow. rewrite Hhl in *. rewrite Hhr in *.
  unfold collapsed_to. cbn [mt_height]. split_and!.
  - apply mt_wf_node. split_and!; try done. intros Hi. destruct (Hroots Hi) as [[a Ha] [b Hb]].
    rewrite (Rl a Ha), (Rr b Hb). eauto.
  - done.
  - simpl. by rewrite Sl, Sr.
  - done.
  - simpl. intuition.
  - simpl. intros (Hx & ? & ?). split_and!; auto. intros x ->.
    destruct (Hx x eq_refl) as [(? & ? & ?)|(a & b & Ha & Hb & ->)]; [left; auto|].
    right. exists a, b. auto.
  - intros j Hj. simpl. rewrite shl_u64_small by lia. destruct (Z.ltb_spec j (2 ^ (h - 1))).
    + rewrite Il by lia. repeat case_decide; try done; lia.
    + rewrite Ir by lia. repeat case_decide; try done; lia.
  - intros j Hj. simpl. destruct (Z.ltb_spec j (2 ^ (h - 1))).
    + rewrite Cl by lia. f_equal. apply bool_decide_ext. lia.
    + rewrite Cr by lia. f_equal. apply bool_decide_ext. lia.
Qed.

Lemma collapse_rec_spec {E} n : forall t s e,
  mt_wf t -> mt_height t <= 63 -> 0 <= s <= e + 1 -> 0 <= e < 2 ^ mt_height t ->
  s < 2 ^ mt_height t -> (mt_size t <= n)%nat ->
  exists t', @collapse_rec E n t s e = Ok t' /\ collapsed_to t t' s e.
Proof.
  induction n as [|n IH]; intros t s e Hwf Hh Hse He Hlt Hn; [destruct t; simpl in Hn; lia|].
  pose proof (mt_height_nonneg t Hwf) as Hpos.
  assert (Hall : s = 0 -> e = 2 ^ mt_height t - 1 ->
            collapsed_to t (Collapsed (root_spec t) (mt_height t)) s e).
  { intros -> ->. apply collapsed_to_root; [done|]. intros j Hj []. lia. }
  destruct (is_collapsed t) eqn:Hc.
  { destruct t; try done. eexists. split; [reflexivity|].
    apply (collapsed_to_root (Collapsed hash height)); done. }
  destruct (decide (mt_height t = 0)) as [Hz|Hz].
  { rewrite Hz in *. change (2 ^ 0) with 1 in *. assert (s = 0) by lia. assert (e = 0) by lia.
    subst s e. destruct t as [hash aux| |h|]; [|done| |].
    - eexists. split; [reflexivity|]. by apply Hall.
    - simpl in Hz. subst h. eexists. split; [reflexivity|]. by apply Hall.
    - apply mt_wf_node in Hwf. simpl in Hz. lia. }
  destruct (open_stub_spec (Some 0) t Hwf ltac:(lia) Hc)
    as (hash' & l & r & h & Eo & -> & Hwfo & Hsl & Hsr & Hix & Hcx & Hok).
  assert (Eq : @collapse_rec E (S n) t s e =
    if (s =? 0) && (e =? 2 ^ mt_height t - 1)
    then Ok (Collapsed (root_spec t) (mt_height t))
    else
      l' ← (if s <? 2 ^ (mt_height t - 1)
            then collapse_rec n l s (Z.min e (2 ^ (mt_height t - 1) - 1)) else Ok l);
      r' ← (if 2 ^ (mt_height t - 1) <=? e
            then collapse_rec n r (sat_sub s (2 ^ (mt_height t - 1))) (e - 2 ^ (mt_height t - 1))
            else Ok r);
      if is_collapsed l' && is_collapsed r' then Ok (Collapsed (root_spec t) (mt_height t))
      else Ok (Node hash' l' r' (mt_height t))).
  { rewrite <- !(shl_u64_small (mt_height t)), <- !(shl_u64_small (mt_height t - 1)) by lia.
    destruct t; try done; cbn [collapse_rec]; rewrite Eo, !rehashed_root_spec; reflexivity. }
  rewrite Eq. clear Eq.
  destruct (_ && _) eqn:Ese; [eexists; split; [done|]; apply Hall; lia|].
  rewrite Eo in *. apply mt_wf_node in Hwfo as Hch. destruct Hch as (Hge & Hl & Hr & _ & Hwl & Hwr).
  pose proof (pow2_split _ Hge) as Hpow.
  assert (HL : exists l', (if s <? 2 ^ (mt_height t - 1)
      then @collapse_rec E n l s (Z.min e (2 ^ (mt_height t - 1) - 1)) else Ok l) = Ok l' /\
      collapsed_to l l' s (Z.min e (2 ^ (mt_height t - 1) - 1))).
  { destruct (Z.ltb_spec s (2 ^ (mt_height t - 1))).
    - apply IH; try done; rewrite ?Hl; lia.
    - eexists. split; [done|]. apply collapsed_to_self; [done|intros; rewrite Hl in *; lia]. }
  assert (HR : exists r', (if 2 ^ (mt_height t - 1) <=? e
      then @collapse_rec E n r (sat_sub s (2 ^ (mt_height t - 1))) (e - 2 ^ (mt_height t - 1))
      else Ok r) = Ok r' /\
      collapsed_to r r' (sat_sub s (2 ^ (mt_height t - 1))) (e - 2 ^ (mt_height t - 1))).
  { unfold sat_sub. destruct (Z.leb_spec (2 ^ (mt_height t - 1)) e).
    - apply IH; try done; rewrite ?Hr; lia.
    - eexists. split; [done|]. apply collapsed_to_self; [done|intros; rewrite Hr in *; lia]. }
  destruct HL as (l' & -> & HL), HR as (r' & -> & HR). cbn [mbind outcome_bind].
  pose proof (collapsed_to_node _ _ _ _ _ _ s e Hwfo Hh ltac:(lia) HL HR) as HN.
  destruct (is_collapsed l' && is_collapsed r') eqn:Eb; eexists; (split; [done|]).
  - apply collapsed_to_root; [done|]. intros j Hj Hout. rewrite <- Hix.
    destruct HN as (_ & _ & _ & _ & _ & _ & HI & HC). specialize (HI j Hj). specialize (HC j Hj).
    rewrite decide_False in HI by done. rewrite bool_decide_eq_false_2 in HC by done.
    rewrite Hcx in HC. rewrite <- HI. apply andb_true_iff in Eb as [Ecl Ecr].
    destruct l', r'; try done. simpl in HC |- *. rewrite <- HC.
    split; [by destruct (j <? shl_u64 (mt_height t - 1))|by destruct (j <? 2 ^ (mt_height t - 1))].
  - rewrite <- Eo in HN. destruct t as [| |h'|]; try done.
    destruct HN as (? & ? & ? & HR' & HB & HO & HI & HC). unfold collapsed_to.
    split_and!; try done.
    + intros _. by apply HB.
    + intros _. apply HO. rewrite Eo. apply Hok; [|done]. by intros x [= <-].
    + intros j Hj. rewrite HI by done. case_decide; [done|]. rewrite Eo. apply Hix.
    + intros j Hj. rewrite HC by done. rewrite Eo, Hcx. done.
Qed.

(** ** Membership paths *)
Definition entry_of (p : Fr * bool) : MerklePathEntry := mkMerklePathEntry p.1 p.2.

Lemma collect_entries_some idx (l : list (Fr * bool)) :
  collect_entries idx (map (fun p => (Some p.1, p.2)) l) = Ok (map entry_of l).
Proof. induction l as [|[x b] l IH]; simpl; [done|]. by rewrite IH. Qed.
Lemma zip_map_some (P : list Fr) (L : list bool) :
  zip (map Some P) L = map (fun p => (Some p.1, p.2)) (zip P L).
Proof. revert L; induction P as [|x P IH]; intros [|b L]; simpl; [done..|]. by rewrite IH. Qed.

(** The siblings from the root down, and the root recomputed from the leaf. *)
Definition path_proves (hash : HashOutput) (P : list Fr) (L : list bool) (root : Fr) : Prop :=
  foldl path_step (degrade_to_transient hash) (map entry_of (reverse (zip P L))) = root.

Lemma path_proves_cons hash P L a sib goes root :
  path_proves hash P L a -> root = path_step a (mkMerklePathEntry sib goes) ->
  path_proves hash (sib :: P) (goes :: L) root.
Proof.
  unfold path_proves. intros <- ->. simpl. rewrite reverse_cons, map_app, foldl_app. done.
Qed.

(** A present leaf has no blank node above it, so stored hashes are genuine. *)
Lemma node_root_children x l r h i v :
  mt_wf (Node (Some x) l r h) -> hash_ok (Node (Some x) l r h) ->
  mt_index (Node (Some x) l r h) i = Some v ->
  exists a b, mt_root l = Some a /\ mt_root r = Some b /\ x = transient_hash [a; b].
Proof.
  intros _ (Hx & _ & _) Hi. destruct (Hx x eq_refl) as [Hb|]; [|done].
  apply (blank_index _ i) in Hb. congruence.
Qed.

Lemma height0_leaf t v : mt_wf t -> mt_height t = 0 -> mt_index t 0 = Some v ->
  exists hash aux, t = Leaf hash aux /\ v = (hash, aux).
Proof.
  intros Hwf Hh Hi. destruct t as [hash aux| | |]; try done.
  - injection Hi as <-. eauto.
  - apply mt_wf_node in Hwf. simpl in Hh. lia.
Qed.

Lemma path_loop_spec t : forall i idx path lefts root hash aux,
  mt_wf t -> hash_ok t -> 1 <= mt_height t <= 63 -> 0 <= i < 2 ^ mt_height t ->
  mt_root t = Some root -> mt_index t i = Some (hash, aux) ->
  exists P L, path_loop t true idx i path lefts = Ok (path ++ map Some P, lefts ++ L) /\
    length P = Z.to_nat (mt_height t) /\ length L = length P /\ path_proves hash P L root.
Proof.
  induction t as [h0 a0|h0 a0|h0|[x|] l IHl r IHr h]; intros i idx path lefts root hash aux
    Hwf Hok Hh Hi Hroot Hidx; [simpl in Hh; lia|done|done| |done].
  injection Hroot as ->.
  destruct (node_root_children _ _ _ _ _ _ Hwf Hok Hidx) as (a & b & Ha & Hb & ->).
  apply mt_wf_node in Hwf as (Hge & Hl & Hr & _ & Hwl & Hwr). destruct Hok as (_ & Hol & Hor).
  pose proof (pow2_split h Hge). cbn [mt_height] in *. cbn [mt_index] in Hidx.
  cbn [path_loop mt_height]. rewrite shl_u64_small in * by lia. rewrite Hl in IHl. rewrite Hr in IHr.
  destruct (Z.ltb_spec 1 h).
  - destruct (Z.ltb_spec i (2 ^ (h - 1))).
    + destruct (IHl i idx (path ++ [mt_root r]) (lefts ++ [true]) a hash aux)
        as (P & L & -> & HP & HL & Hp); try done; try lia. rewrite Hb.
      exists (b :: P), (true :: L). rewrite <- !app_assoc. split_and!; [done|simpl; lia|simpl; lia|].
      eapply path_proves_cons; [exact Hp|reflexivity..].
    + destruct (IHr (i - 2 ^ (h - 1)) idx (path ++ [mt_root l]) (lefts ++ [false]) b hash aux)
        as (P & L & -> & HP & HL & Hp); try done; try lia. rewrite Ha.
      exists (a :: P), (false :: L). rewrite <- !app_assoc. split_and!; [done|simpl; lia|simpl; lia|].
      eapply path_proves_cons; [exact Hp|reflexivity..].
  - assert (h = 1) by lia. subst h. change (2 ^ (1 - 1)) with 1 in *. change (1 - 1) with 0 in *.
    assert (i = 0 \/ i = 1) as [->| ->] by lia; simpl in Hidx |- *.
    + destruct (height0_leaf l _ Hwl Hl Hidx) as (? & ? & -> & [= <- <-]). injection Ha as <-.
      rewrite Hb. exists [b], [true]. by split_and!.
    + destruct (height0_leaf r _ Hwr Hr Hidx) as (? & ? & -> & [= <- <-]). injection Hb as <-.
      rewrite Ha. exists [a], [false]. by split_and!.
Qed.

(** ** Iteration *)
Definition bound_wf (b : Bound) : Prop :=
  match b with Included n | Excluded n => is_u64 n | Unbounded => True end.
Definition range_wf (range : Bound * Bound) : Prop := bound_wf range.1 /\ bound_wf range.2.

Lemma range_empty_contains range n :
  range_wf range -> is_u64 n -> range_contains range n = true -> range_empty range = false.
Proof.
  destruct range as [[a|a|] [b|b|]]; unfold range_wf, range_contains, range_empty,
    range_force_inclusive, bound_wf; simpl; intros [Ha Hb] Hn Hc;
    repeat match goal with |- context [?x =? ?y] => destruct (Z.eqb_spec x y); simpl end; ints.
Qed.

Lemma range_sub_spec range sub n :
  range_wf range -> is_u64 sub -> is_u64 n -> sub <= n ->
  range_contains range n = match range_sub range sub with
                           | Some range' => range_contains range' (n - sub)
                           | None => false
                           end.
Proof.
  intros Hr Hs Hn Hle.
  assert (Hi : forall r', range_wf r' ->
            range_contains r' (n - sub) =
            match (if range_empty r' then None else Some r') with
            | Some r => range_contains r (n - sub) | None => false end).
  { intros r' Hr'. destruct (range_empty r') eqn:He; [|done].
    destruct (range_contains r' (n - sub)) eqn:Hc; [|done].
    apply range_empty_contains in Hc; [congruence|done|ints]. }
  unfold range_sub. destruct range as [[a|a|] [b|b|]], Hr as [Ha Hb]; simpl in *;
    unfold checked_sub;
    repeat match goal with |- context [sub <=? ?y] => destruct (Z.leb_spec sub y); simpl end;
    rewrite <- ?Hi by (split; simpl; ints); unfold range_contains; simpl; ints.
Qed.
Lemma range_sub_wf range sub range' :
  range_wf range -> 0 <= sub -> range_sub range sub = Some range' -> range_wf range'.
Proof.
  unfold range_sub. destruct range as [[a|a|] [b|b|]]; intros [Ha Hb] Hs; simpl in *;
    unfold checked_sub;
    repeat match goal with |- context [sub <=? ?y] => destruct (Z.leb_spec sub y); simpl end;
    intros; repeat case_match; simplify_eq/=; split; simpl; ints.
Qed.

Lemma leaves_in_range_spec t : forall range i hash aux,
  mt_wf t -> mt_height t <= 63 -> range_wf range ->
  @LLeaf A i hash aux ∈ leaves_in_range t range <->
  range_contains range i = true /\ 0 <= i < 2 ^ mt_height t /\ mt_index t i = Some (hash, aux).
Proof.
  induction t as [hash0 aux0|h0 h|h|x l IHl r IHr h]; intros range i hash aux Hwf Hh Hrange; simpl.
  - change (2 ^ 0) with 1. destruct (range_contains range 0) eqn:Hc.
    + rewrite list_elem_of_singleton. split.
      * intros [= -> -> ->]. split_and!; try done; lia.
      * intros (_ & Hi & [= -> ->]). f_equal. lia.
    + split; [by intros ?%elem_of_nil|]. intros (Hc' & Hi & _). replace i with 0 in Hc' by lia.
      congruence.
  - destruct (overlap _ _) as [[]|]; split; try (intros (_ & _ & ?); done).
    + by intros ?%list_elem_of_singleton.
    + by intros ?%elem_of_nil.
  - split; [by intros ?%elem_of_nil|]. by intros (_ & _ & ?).
  - apply mt_wf_node in Hwf as (Hge & Hl & Hr & _ & Hwl & Hwr). simpl in Hh.
    pose proof (pow2_split h Hge). rewrite Hl, !shl_u64_small by lia.
    rewrite Hl in IHl. rewrite Hr in IHr.
    assert (Hmid : 2 ^ (h - 1) <= 2 ^ 62) by (apply Z.pow_le_mono_r; lia).
    assert (0 < 2 ^ (h - 1)) by (apply Z.pow_pos_nonneg; lia).
    rewrite elem_of_app, IHl by (try done; lia).
    assert (Hrt : LLeaf i hash aux ∈ match range_sub range (2 ^ (h - 1)) with
        | Some sub_range => map (fun l => upgrade l (2 ^ (h - 1))) (leaves_in_range r sub_range)
        | None => [] end <->
      range_contains range i = true /\ 2 ^ (h - 1) <= i < 2 ^ h /\
      mt_index r (i - 2 ^ (h - 1)) = Some (hash, aux)).
    { destruct (decide (2 ^ (h - 1) <= i < 2 ^ h)) as [Hi|Hi].
      - rewrite (range_sub_spec range (2 ^ (h - 1)) i) by (try done; ints).
        destruct (range_sub range _) as [range'|] eqn:Er.
        + apply range_sub_wf in Er; [|done|lia]. rewrite list_elem_of_fmap. split.
          * intros ([i' h' a'|] & [= -> -> ->] & Hin).
            apply IHr in Hin; [|done|lia|done].
            replace (i' + 2 ^ (h - 1) - 2 ^ (h - 1)) with i' by lia. tauto.
          * intros (Hc & _ & Hx). exists (LLeaf (i - 2 ^ (h - 1)) hash aux). split.
            { simpl. f_equal. lia. }
            apply IHr; [done|lia|done|]. split_and!; [done|lia|lia|done].
        + split; [by intros ?%elem_of_nil|]. by intros (? & _).
      - split; [|tauto]. destruct (range_sub range _) as [range'|] eqn:Er;
          [|by intros ?%elem_of_nil].
        apply range_sub_wf in Er; [|done|lia].
        intros ([i' h' a'|] & [= -> -> ->] & Hin)%list_elem_of_fmap.
        apply IHr in Hin; [|done|lia|done]. lia. }
    rewrite Hrt. destruct (Z.ltb_spec i (2 ^ (h - 1))); split; intuition lia.
Qed.

(** ** The trees the public operations build *)
Inductive built (h : Z) : MerkleTreeNode A -> Prop :=
  | built_blank : built h (blank h)
  | built_update t i leaf aux t' :
      built h t -> 0 <= i -> try_update_hash t i leaf aux = Ok t' -> built h t'
  | built_rehash t t' : built h t -> @rehash InvalidUpdate t = Ok t' -> built h t'
  | built_collapse t s e t' :
      built h t -> 0 <= s <= e -> e < 2 ^ h -> @collapse InvalidUpdate t s e = Ok t' -> built h t'.

Lemma built_ok h t :
  0 <= h <= 63 -> built h t -> mt_wf t /\ hash_ok t /\ mt_height t = h.
Proof.
  intros Hh. induction 1 as [|t i leaf aux t' _ (Hwf & Hok & Ht) Hi Hup
    |t t' _ (Hwf & Hok & Ht) Hre|t s e t' _ (Hwf & Hok & Ht) Hse He Hco].
  - split_and!; try done. apply Hh.
  - pose proof (try_update_hash_rec_spec (mt_size t) t i leaf aux Hwf ltac:(lia) Hi ltac:(lia)) as Hs.
    unfold try_update_hash in Hup. rewrite Hup in Hs.
    destruct Hs as (_ & _ & ? & ? & ? & _). split_and!; auto. lia.
  - destruct (@rehash_spec InvalidUpdate t) as (t2 & E & _ & ? & ? & ? & _).
    rewrite E in Hre. injection Hre as <-. split_and!; auto. lia.
  - destruct (@collapse_rec_spec InvalidUpdate (mt_size t) t s e) as (t2 & E & ? & ? & ? & ? & ? & ? & _);
      try done; try (rewrite ?Ht; lia).
    unfold collapse in Hco. rewrite E in Hco. injection Hco as <-. split_and!; auto. lia.
Qed.

(** On any well-formed tree with genuine hashes. *)
Lemma path_for_leaf_ok {T} (h : Z) (t : MerkleTreeNode A)
    (i : Z) (leaf : T) (hash : HashOutput) (aux : A) (root : Fr) :
  0 <= h <= 63 -> mt_wf t -> hash_ok t -> mt_height t = h -> mt_root t = Some root -> 0 <= i < 2 ^ h ->
  mt_index t i = Some (hash, aux) ->
  exists p, path_for_leaf t i leaf = Ok p /\ mp_leaf p = leaf /\
    length (mp_path p) = Z.to_nat h /\ foldl path_step (degrade_to_transient hash) (mp_path p) = root.
Proof.
  intros Hh Hwf Hok Ht Hroot Hi Hidx.
  unfold path_for_leaf. rewrite Ht. destruct (Z.eqb_spec h 0) as [->|Hnz].
  - change (2 ^ 0) with 1 in Hi. replace i with 0 in * by lia.
    destruct (height0_leaf t _ Hwf Ht Hidx) as (hash' & a & -> & [= <- <-]).
    injection Hroot as <-. eexists. by split_and!.
  - destruct (path_loop_spec t i i [] [] root hash aux)
      as (P & L & EP & HP & HL & Hp); try done; try lia; [by rewrite Ht|].
    unfold path_for_index_internal. rewrite Ht. destruct (Z.leb_spec 1 h); [|lia]. simpl.
    rewrite EP. simpl. rewrite zip_map_some. change map with (@fmap list _).
    rewrite <- fmap_reverse. change (@fmap list _) with map. rewrite collect_entries_some. simpl.
    eexists. split_and!; try done. simpl.
    rewrite length_map, length_reverse, length_zip_with, HL, HP, Ht. lia.
Qed.

(** ** Properties *)

(** Every tree built from the empty one by updates, rehashing and
    collapsing satisfies the structural invariant that deserialization checks
    (consistent heights, no hash over unhashed children), keeps its height, and
    stores only genuine hashes (or 0 over regions without data). *)
Theorem built_invariant (h : Z) (t : MerkleTreeNode A) :
  0 <= h <= 63 -> built h t ->
  mt_wf t /\ hash_ok t /\ mt_height t = h /\ MerkleTreeNode_invariant t = true.
Proof.
  intros Hh Hb. destruct (built_ok h t Hh Hb) as (Hwf & Hok & Ht). split_and!; try done.
  destruct t; try done. apply Hwf.
Qed.

(** [try_update_hash] on a well-formed tree never panics.  It succeeds
    exactly when the index is in the tree and not under a collapsed node, and
    then the tree keeps its height, the new leaf is found at the index and every
    other position reads as before; otherwise the error names the reason. *)
Theorem try_update_hash_spec (t : MerkleTreeNode A) (i : Z) (leaf : HashOutput) (aux : A) :
  mt_wf t -> mt_height t <= 63 -> 0 <= i ->
  match try_update_hash t i leaf aux with
  | Ok t' => i < 2 ^ mt_height t /\ collapsed_at t i = false /\
             mt_wf t' /\ mt_height t' = mt_height t /\
             (forall j, 0 <= j < 2 ^ mt_height t ->
                mt_index t' j = if decide (j = i) then Some (leaf, aux) else mt_index t j)
  | Err (IndexOutOfTree j) => j = i /\ 2 ^ mt_height t <= i
  | Err (CollapsedIndex _ _) => i < 2 ^ mt_height t /\ collapsed_at t i = true
  | _ => False
  end.
Proof using A H.
  intros Hwf Hh Hi. pose proof (try_update_hash_rec_spec (mt_size t) t i leaf aux Hwf Hh Hi
    ltac:(lia)) as Hs. unfold try_update_hash.
  destruct (try_update_hash_rec _ t i leaf aux) as [t'|[]|]; try done.
  unfold updated in Hs. tauto.
Qed.

(** Collapsing a range never panics and keeps the root: a membership root
    computed before stays valid.  Exactly the leaves in the range become
    unavailable. *)
Theorem collapse_preserves_root (t : MerkleTreeNode A) (s e : Z) :
  mt_wf t -> mt_height t <= 63 -> 0 <= s <= e -> e < 2 ^ mt_height t ->
  exists t', @collapse InvalidUpdate t s e = Ok t' /\ mt_height t' = mt_height t /\
    @rehashed_root InvalidUpdate t' = @rehashed_root InvalidUpdate t /\
    (forall x, mt_root t = Some x -> mt_root t' = Some x) /\
    (forall j, 0 <= j < 2 ^ mt_height t ->
       mt_index t' j = if decide (s <= j <= e) then None else mt_index t j) /\
    (forall j, s <= j <= e -> collapsed_at t' j = true).
Proof.
  intros Hwf Hh Hse He.
  destruct (@collapse_rec_spec InvalidUpdate (mt_size t) t s e) as (t' & E & Hc); try done; try lia.
  exists t'. rewrite !rehashed_root_spec. destruct Hc as (_ & ? & Hr & ? & _ & _ & ? & HC).
  split_and!; try done; [by rewrite Hr|]. intros j Hj. rewrite HC by lia.
  by rewrite bool_decide_eq_true_2.
Qed.

(** Membership proofs are complete: for every leaf present in a built and
    rehashed tree, [path_for_leaf] returns a path (one entry per level) whose
    [root] is the root of the tree. *)
Theorem path_for_leaf_complete {T} (repr : T -> list Z) (h : Z) (t : MerkleTreeNode A)
    (i : Z) (leaf : T) (aux : A) (root : Fr) :
  0 <= h <= 63 -> built h t -> mt_root t = Some root -> 0 <= i < 2 ^ h ->
  mt_index t i = Some (leaf_hash (repr leaf), aux) ->
  exists p, path_for_leaf t i leaf = Ok p /\ mp_leaf p = leaf /\
    length (mp_path p) = Z.to_nat h /\ MerklePath_root repr p = root.
Proof.
  intros Hh Hb Hroot Hi Hidx. destruct (built_ok h t Hh Hb) as (Hwf & Hok & Ht).
  destruct (path_for_leaf_ok h t i leaf _ aux root Hh Hwf Hok Ht Hroot Hi Hidx) as (p & E & <- & Hl & Hr).
  exists p. by split_and!.
Qed.

(** [iter_aux] lists exactly the leaves that [index] finds. *)
Theorem iter_aux_complete (t : MerkleTreeNode A) (i : Z) (hash : HashOutput) (aux : A) :
  mt_wf t -> mt_height t <= 63 ->
  (i, (hash, aux)) ∈ iter_aux t <->
  0 <= i < 2 ^ mt_height t /\ mt_index t i = Some (hash, aux).
Proof.
  intros Hwf Hh. unfold iter_aux, leaves. rewrite list_elem_of_omap.
  pose proof (leaves_in_range_spec t (Unbounded, Unbounded) i hash aux Hwf Hh
                (conj I I)) as Hs. split.
  - intros ([i' h' a'|] & Hin & [= -> -> ->]). by apply Hs in Hin as [_ ?].
  - intros Hi. exists (LLeaf i hash aux). split; [|done]. by apply Hs.
Qed.
End tree.

(** ** Witnesses *)

(** Small stand-ins for the hash functions. *)
Definition toy_hashing : Hashing := {|
  transient_hash l := foldl (fun a x => (31 * a + x + 7) mod 1000003) 1 l;
  persistent_hash l := to_le_bytes 32 (foldl (fun a x => 131 * a + x + 1) 0 l);
|}.

Section witnesses.
#[local] Existing Instance toy_hashing.
Definition toy_leaf : HashOutput := leaf_hash [5].
Definition toy_tree : MerkleTreeNode unit :=
  match try_update_hash (blank 2) 2 toy_leaf tt with Ok t => t | _ => blank 2 end.
Definition toy_rehashed : MerkleTreeNode unit :=
  match @rehash _ _ InvalidUpdate toy_tree with Ok t => t | _ => blank 2 end.

Lemma built_invariant_witness : mt_wf toy_rehashed /\ hash_ok toy_rehashed /\
  mt_height toy_rehashed = 2 /\ MerkleTreeNode_invariant toy_rehashed = true.
Proof.
  apply built_invariant; [lia|].
  apply (built_rehash _ toy_tree); [|by vm_compute].
  apply (built_update _ (blank 2) 2 toy_leaf tt); [constructor|lia|by vm_compute].
Defined.

Lemma try_update_hash_spec_witness :
  exists t', try_update_hash toy_rehashed 1 toy_leaf tt = Ok t' /\
             mt_index t' 2 = Some (toy_leaf, tt).
Proof.
  assert (Hwf : mt_wf toy_rehashed) by (vm_compute; intuition congruence).
  pose proof (try_update_hash_spec toy_rehashed 1 toy_leaf tt Hwf
    ltac:(vm_compute; congruence) ltac:(lia)) as Hs.
  destruct (try_update_hash toy_rehashed 1 toy_leaf tt) as [t'|e|] eqn:E;
    [|vm_compute in E; discriminate..].
  exists t'. split; [done|]. destruct Hs as (_ & _ & _ & _ & Hi). rewrite Hi; [done|].
  vm_compute. intuition congruence.
Defined.

Lemma collapse_preserves_root_witness :
  exists t', @collapse _ _ InvalidUpdate toy_rehashed 0 1 = Ok t' /\
             mt_root t' = mt_root toy_rehashed.
Proof.
  destruct (collapse_preserves_root toy_rehashed 0 1) as (t' & E & _ & _ & Hr & _).
  - vm_compute; intuition congruence.
  - vm_compute; congruence.
  - lia.
  - vm_compute. congruence.
  - exists t'. split; [done|]. apply Hr. vm_compute. reflexivity.
Defined.

Lemma path_for_leaf_complete_witness :
  exists p, path_for_leaf toy_rehashed 2 [5] = Ok p /\
            Some (MerklePath_root (fun x => x) p) = mt_root toy_rehashed.
Proof.
  destruct (path_for_leaf_complete (fun x => x) 2 toy_rehashed 2 [5] tt
              (root_spec toy_rehashed)) as (p & E & _ & _ & Hr).
  - lia.
  - apply (built_rehash _ toy_tree); [|by vm_compute].
    apply (built_update _ (blank 2) 2 toy_leaf tt); [constructor|lia|by vm_compute].
  - vm_compute. reflexivity.
  - lia.
  - vm_compute. reflexivity.
  - exists p. split; [done|]. rewrite Hr. vm_compute. reflexivity.
Defined.

Lemma iter_aux_complete_witness : (2, (toy_leaf, tt)) ∈ iter_aux toy_rehashed.
Proof.
  apply iter_aux_complete; [vm_compute; intuition congruence|vm_compute; congruence|].
  split; [vm_compute; intuition congruence|vm_compute; reflexivity].
Defined.
End witnesses.

(** [path_for_leaf] reports a collapsed position of a taller tree as
    [InvalidIndex], but in a pair of leaves that was collapsed (a [Collapsed]
    node of height 1) it reaches [unreachable!()] and panics, on a rehashed,
    well-formed tree and an index in range. *)
Theorem path_for_leaf_collapsed_pair (H : Hashing) :
  exists (t4 t1 : MerkleTreeNode unit) r4 r1,
    mt_wf t4 /\ mt_wf t1 /\ mt_root t4 = Some r4 /\ mt_root t1 = Some r1 /\
    mt_height t4 = 2 /\ mt_height t1 = 1 /\
    path_for_leaf t4 0 tt = Err (mkInvalidIndex 0) /\ path_for_leaf t1 0 tt = Panic.
Proof.
  exists (Collapsed 5 2), (Collapsed 5 1), 5, 5. split_and!; try reflexivity; simpl; lia.
Qed.
