(* ===== verification/FieldRepr.v ===== *)
(** * Values as field elements ([transient-crypto/src/fab.rs], [repr.rs], [curve.rs])

    The proof system sees a value as a sequence of field elements.  An atom of
    [n] bytes is cut into chunks of 31 bytes from its start, each a
    little-endian element, and the chunks are written last one first; a union
    is padded to its widest alternative.  [parse_field_repr] goes the other way
    and rejects what no value is written as.  The binary form of a value is
    what the persistent hash is applied to. *)
From S2P Require Import Prelude Fab Coin MerkleTree.

(** ** Field elements *)
Definition FR_BITS : nat := 255.
(** [Fr::from] on unsigned and negative integers, and the operators. *)
Definition fr_from `{FieldOrder} (x : Z) : Fr := x mod fr_modulus.
Definition fr_add `{FieldOrder} (x y : Fr) : Fr := (x + y) mod fr_modulus.
Definition fr_mul `{FieldOrder} (x y : Fr) : Fr := (x * y) mod fr_modulus.
Definition fr_neg `{FieldOrder} (x : Fr) : Fr := (- x) mod fr_modulus.
Definition fr_from_bool (b : bool) : Fr := if b then 1 else 0.
Definition as_le_bytes (x : Fr) : list Z := to_le_bytes FR_BYTE_LEN x.
Definition from_uniform_bytes `{FieldOrder} (bytes : list Z) : Fr := from_le_bytes bytes mod fr_modulus.
(** [TryFrom<Fr> for u16]. *)
Definition u16_try_from_fr (x : Fr) : option Z := if x <=? u16_max then Some x else None.

(** The order has 255 bits ([FR_BITS] is [Scalar::NUM_BITS]). *)
Class FrBits `{FieldOrder} : Prop := { fr_bits : 2 ^ 254 <= fr_modulus < 2 ^ 255 }.

(** ** Byte strings as field elements *)

(** [slice::chunks], from the front. *)
Fixpoint chunks_from (fuel n : nat) (l : list Z) : list (list Z) :=
  match fuel, l with
  | S fuel, _ :: _ => take n l :: chunks_from fuel n (drop n l)
  | _, _ => []
  end.
Definition chunks31 (l : list Z) : list (list Z) := chunks_from (length l) FR_BYTES_STORED l.
(** [FieldRepr for [u8]]: the stray bytes at the end first, then full chunks
    from the back; every round shortens the slice. *)
Fixpoint bytes_repr_loop (fuel : nat) (slice : list Z) : list Fr :=
  match fuel, slice with
  | S fuel, _ :: _ =>
      let len := length slice in
      let stray := (len mod FR_BYTES_STORED)%nat in
      if negb (stray =? 0)%nat
      then from_le_bytes (drop (len - stray) slice) :: bytes_repr_loop fuel (take (len - stray) slice)
      else
        let start := (len - Nat.min FR_BYTES_STORED len)%nat in
        from_le_bytes (drop start slice) :: bytes_repr_loop fuel (take start slice)
  | _, _ => []
  end.
Definition bytes_field_repr (l : list Z) : list Fr := bytes_repr_loop (length l) l.
Definition bytes_field_size (l : list Z) : nat := Z.to_nat (div_ceil (Z.of_nat (length l)) 31).
(** [HashOutput::field_vec]. *)
Definition hash_field_repr (h : HashOutput) : list Fr := bytes_field_repr h.

(** The closure [bytes_from] and [bytes_from_field_repr]; also the rest of the
    elements is returned. *)
Definition bytes_from (k : nat) (f : Fr) : option (list Z) :=
  let repr := as_le_bytes f in
  if existsb (fun b => negb (b =? 0)) (drop k repr) then None else Some (take k repr).
Definition bytes_from_field_repr (repr : list Fr) (n : nat) : option (list Z * list Fr) :=
  let stray := (n mod FR_BYTES_STORED)%nat in
  let chunks := (n / FR_BYTES_STORED)%nat in
  let expected_size := (chunks + if stray =? 0 then 0 else 1)%nat in
  if (length repr <? expected_size)%nat then None
  else
    '(tail, repr) ← (if (0 <? stray)%nat
                     then f ← head repr; t ← bytes_from stray f; Some (t, drop 1 repr)
                     else Some ([], repr));
    res ← mapM (bytes_from FR_BYTES_STORED) (reverse (take chunks repr));
    Some (concat res ++ tail, drop chunks repr).
(** [FromFieldRepr for [u8; 32]]. *)
Definition bytes32_from_field_repr (repr : list Fr) : option (list Z) :=
  match repr with
  | [repr0; repr1] =>
      let repr0 := as_le_bytes repr0 in
      let repr1 := as_le_bytes repr1 in
      if existsb (fun b => negb (b =? 0)) (drop 1 repr0) then None
      else if existsb (fun b => negb (b =? 0)) (drop 31 repr1) then None
      else Some (take 31 repr1 ++ take 1 repr0)
  | _ => None
  end.

(** ** Lengths *)
Definition atom_field_len (self : AlignmentAtom) : nat :=
  match self with
  | Compress | Field => 1
  | Bytes length => Z.to_nat (div_ceil length 31)
  end.
Definition atom_bin_len (self : AlignmentAtom) : nat :=
  match self with
  | Compress | Field => FR_BYTE_LEN
  | Bytes length => Z.to_nat length
  end.
Fixpoint segment_field_len (self : AlignmentSegment) : nat :=
  match self with
  | Atom atom => atom_field_len atom
  | Option options => (1 + max_list_with (sum_list_with segment_field_len) options)%nat
  end.
Fixpoint segment_bin_len (self : AlignmentSegment) : nat :=
  match self with
  | Atom atom => atom_bin_len atom
  | Option options => (2 + max_list_with (sum_list_with segment_bin_len) options)%nat
  end.
Definition field_len (self : Alignment) : nat := sum_list_with segment_field_len self.
Definition bin_len (self : Alignment) : nat := sum_list_with segment_bin_len self.

(** ** Writing *)
Section write.
Context `{FieldOrder} `{Hashing}.

Definition transient_commit (value : list Fr) (opening : Fr) : Fr := transient_hash (opening :: value).
Definition upgrade_from_transient (transient : Fr) : HashOutput := take FR_BYTES_STORED (as_le_bytes transient) ++ [0].
(** [hash_to_field]: a domain separator in front of the data. *)
Definition FIELD_HASH_DOMAIN_SEP : list Z := [109; 105; 100; 110; 105; 103; 104; 116; 58; 102; 105; 101; 108; 100; 95; 104; 97; 115; 104].
Definition hash_to_field (data : list Z) : Fr :=
  transient_hash (bytes_field_repr FIELD_HASH_DOMAIN_SEP ++ bytes_field_repr data).

(** [value_atom_as_field]; the assertion is the [Panic]. *)
Definition value_atom_as_field (atom : ValueAtom) : may_panic Fr :=
  if (length atom <=? FIELD_BYTE_LIMIT)%nat
  then Ok (from_uniform_bytes (atom ++ replicate (FIELD_BYTE_LIMIT - length atom) 0)) else Panic.
Definition compressed (atom : ValueAtom) : Fr :=
  transient_commit (bytes_field_repr atom) (Z.of_nat (length atom)).

(** The subtractions are on [usize]: the caller has checked that the value
    fits. *)
Definition atom_field_repr_unchecked (self : ValueAtom) (ty : AlignmentAtom) : may_panic (list Fr) :=
  match ty with
  | Compress => Ok (match self with [] => [0] | _ => [compressed self] end)
  | Bytes len =>
      let total := Z.to_nat (div_ceil len 31) in
      if (bytes_field_size self <=? total)%nat
      then Ok (replicate (total - bytes_field_size self) 0 ++ reverse (map from_le_bytes (chunks31 self))) else Panic
  | Field => f ← value_atom_as_field self; Ok [f]
  end.
Definition atom_binary_repr_unchecked (self : ValueAtom) (ty : AlignmentAtom) : may_panic (list Z) :=
  match ty with
  | Compress => Ok (as_le_bytes (compressed self))
  | Bytes len =>
      if Z.of_nat (length self) <=? len
      then Ok (self ++ replicate (Z.to_nat len - length self) 0) else Panic
  | Field => f ← value_atom_as_field self; Ok (as_le_bytes f)
  end.

(** [Value::repr_traverse]; [len] measures an alignment, a union is padded to
    its longest alternative.  The slice of atoms that are left is returned. *)
Section traverse.
  Context {A : Type} (f : ValueAtom -> AlignmentAtom -> may_panic (list A)) (len : Alignment -> nat) (zero : A).

  Section loop.
    Variable step : AlignmentSegment -> Value -> may_panic (list A * Value).
Fixpoint traverse_loop (align : Alignment) (atoms : Value) : may_panic (list A * Value) :=
      match align with
      | [] => Ok ([], atoms)
      | segment :: align =>
          '(out, atoms) ← step segment atoms;
          '(rest, atoms) ← traverse_loop align atoms;
          Ok (out ++ rest, atoms)
      end.
  End loop.
  Section choose.
    Variable k : Alignment -> may_panic (list A * Value).
Fixpoint traverse_choice (options : list Alignment) (n : nat) : may_panic (list A * Value) :=
      match options, n with
      | al :: _, O => k al
      | _ :: options, S n => traverse_choice options n
      | [], _ => Panic
      end.
  End choose.
Fixpoint traverse_segment (segment : AlignmentSegment) (atoms : Value) : may_panic (list A * Value) :=
    match segment with
    | Atom atom =>
        match atoms with
        | a :: atoms => out ← f a atom; Ok (out, atoms)
        | [] => Panic
        end
    | Option options =>
        match atoms with
        | a :: atoms =>
            match u16_of_value [a] with
            | Ok discriminant =>
                head ← f a (Bytes 2);
                '(out, atoms) ←
                  traverse_choice
                    (fun choice =>
                       '(out, atoms) ← traverse_loop traverse_segment choice atoms;
                       Ok (out ++ replicate (max_list_with len options - len choice) zero, atoms))
                    options (Z.to_nat discriminant);
                Ok (head ++ out, atoms)
            | _ => Panic
            end
        | [] => Panic
        end
    end.
Definition repr_traverse (align : Alignment) (atoms : Value) : may_panic (list A) :=
    '(out, _) ← traverse_loop traverse_segment align atoms; Ok out.
End traverse.

Definition field_repr_unchecked (self : Value) (align : Alignment) : may_panic (list Fr) :=
  repr_traverse atom_field_repr_unchecked field_len 0 align self.
Definition binary_repr_unchecked (self : Value) (align : Alignment) : may_panic (list Z) :=
  repr_traverse atom_binary_repr_unchecked bin_len 0 align self.
Definition value_only_field_repr (self : AlignedValue) : may_panic (list Fr) :=
  field_repr_unchecked (av_value self) (av_alignment self).

(** *** Alignments as field elements *)
Definition atom_type_field_repr (self : AlignmentAtom) : list Fr :=
  match self with
  | Bytes length => [length]
  | Compress => [fr_from (-1)]
  | Field => [fr_from (-2)]
  end.
Fixpoint segment_type_field_repr (self : AlignmentSegment) : list Fr :=
  match self with
  | Atom atom => atom_type_field_repr atom
  | Option options =>
      [fr_from (-3); Z.of_nat (length options)] ++
      concat (map (fun al => Z.of_nat (length al) :: concat (map segment_type_field_repr al)) options)
  end.
Definition alignment_field_repr (self : Alignment) : list Fr :=
  Z.of_nat (length self) :: concat (map segment_type_field_repr self).
Definition AlignedValue_field_repr (self : AlignedValue) : may_panic (list Fr) :=
  out ← value_only_field_repr self; Ok (alignment_field_repr (av_alignment self) ++ out).
End write.

(** ** Parsing *)
Definition atom_parse_field_repr (self : AlignmentAtom) (repr : list Fr) : option (ValueAtom * list Fr) :=
  match self with
  | Compress => None
  | Field => match repr with res :: repr => Some (normalize_atom (as_le_bytes res), repr) | [] => None end
  | Bytes length => bytes_from_field_repr repr (Z.to_nat length)
  end.
Section parse_loop.
  Variable step : AlignmentSegment -> list Fr -> option (Value * list Fr).
Fixpoint parse_loop (segments : Alignment) (repr : list Fr) : option (Value * list Fr) :=
    match segments with
    | [] => Some ([], repr)
    | segment :: segments =>
        '(v, repr) ← step segment repr;
        '(w, repr) ← parse_loop segments repr;
        Some (v ++ w, repr)
    end.
End parse_loop.
Section parse_choice.
  Variable k : Alignment -> option (Value * list Fr).
Fixpoint parse_choice (options : list Alignment) (n : nat) : option (Value * list Fr) :=
    match options, n with
    | al :: _, O => k al
    | _ :: options, S n => parse_choice options n
    | [], _ => None
    end.
End parse_choice.
Fixpoint parse_field_repr_segment (segment : AlignmentSegment) (repr : list Fr) : option (Value * list Fr) :=
  match segment with
  | Atom atom => '(a, repr) ← atom_parse_field_repr atom repr; Some ([a], repr)
  | Option options =>
      match repr with
      | f :: repr =>
          variant ← u16_try_from_fr f;
          '(v, repr) ←
            parse_choice
              (fun choice =>
                 '(v, repr) ← parse_loop parse_field_repr_segment choice repr;
                 let padding := (max_list_with field_len options - field_len choice)%nat in
                 if (length repr <? padding)%nat || existsb (fun f => negb (f =? 0)) (take padding repr)
                 then None else Some (v, drop padding repr))
              options (Z.to_nat variant);
          Some (uint_atom variant :: v, repr)
      | [] => None
      end
  end.
Definition parse_field_repr_inner : Alignment -> list Fr -> option (Value * list Fr) :=
  parse_loop parse_field_repr_segment.
Definition parse_field_repr (self : Alignment) (repr : list Fr) : option AlignedValue :=
  '(value, _) ← parse_field_repr_inner self repr; Some (mkAlignedValue value self).

(** ** The two directions agree *)
Lemma traverse_choice_lookup {A} (k : Alignment -> may_panic (list A * Value)) options n :
  traverse_choice k options n = match options !! n with Some al => k al | None => Panic end.
Proof. revert n. induction options as [|al options IH]; intros [|n]; cbn; auto. Qed.
Lemma parse_choice_lookup (k : Alignment -> option (Value * list Fr)) options n :
  parse_choice k options n = options !! n ≫= k.
Proof. revert n. induction options as [|al options IH]; intros [|n]; cbn; auto. Qed.

(** *** Byte strings *)
Lemma from_le_bytes_zeros l n : from_le_bytes (l ++ replicate n 0) = from_le_bytes l.
Proof.
  induction l as [|b l IH]; cbn [from_le_bytes app]; [|by rewrite IH].
  induction n as [|n IH]; cbn [from_le_bytes replicate]; lia.
Qed.
Lemma from_le_bytes_app a b : from_le_bytes (a ++ b) = from_le_bytes a + 256 ^ Z.of_nat (length a) * from_le_bytes b.
Proof.
  induction a as [|x a IH]; cbn [from_le_bytes app length]; [cbn; lia|].
  rewrite IH, Nat2Z.inj_succ, Z.pow_succ_r by lia. lia.
Qed.
Lemma as_le_bytes_value `{FieldOrderLaws} x : fr_wf x -> from_le_bytes (as_le_bytes x) = x.
Proof.
  intros Hx. apply from_to_le_bytes. pose proof fr_modulus_ub. unfold fr_wf in Hx.
  change (256 ^ Z.of_nat FR_BYTE_LEN) with (2 ^ 256). lia.
Qed.
Lemma no_other_bytes l : existsb (fun b => negb (b =? 0)) l = false -> l = replicate (length l) 0.
Proof.
  induction l as [|b l IH]; cbn; [done|]. intros [Hb Hl]%orb_false_iff.
  apply negb_false_iff, Z.eqb_eq in Hb. subst. f_equal. auto.
Qed.
Lemma bytes_from_spec `{FieldOrderLaws} k f b : (k <= FR_BYTE_LEN)%nat -> fr_wf f -> bytes_from k f = Some b ->
  length b = k /\ from_le_bytes b = f /\ bytes_wf b.
Proof.
  intros Hk Hf. unfold bytes_from. destruct (existsb _ _) eqn:E; [done|]. intros [= <-].
  apply no_other_bytes in E. split_and!.
  - rewrite length_take. unfold as_le_bytes. rewrite length_to_le_bytes. lia.
  - rewrite <- (as_le_bytes_value f) at 2 by done.
    rewrite <- (take_drop k (as_le_bytes f)) at 2. rewrite E. by rewrite from_le_bytes_zeros.
  - apply Forall_take, to_le_bytes_wf.
Qed.

Lemma chunks_fuel fuel n l : (0 < n)%nat -> (length l <= fuel)%nat ->
  chunks_from fuel n l = match l with [] => [] | _ => take n l :: chunks_from (length (drop n l)) n (drop n l) end.
Proof.
  intros Hn. revert l. induction fuel as [fuel IH] using (well_founded_induction lt_wf). intros [|x l] Hl; [by destruct fuel|].
  destruct fuel as [|fuel]; [cbn in Hl; lia|]. cbn [chunks_from]. f_equal.
  assert (length (drop n (x :: l)) <= fuel)%nat as Hd by (rewrite length_drop; cbn in *; lia).
  rewrite (IH fuel ltac:(lia) _ Hd). destruct (drop n (x :: l)) as [|y r] eqn:E; [done|].
  destruct (decide (length (y :: r) < S fuel)%nat) as [Hlt|]; [|lia].
  symmetry. apply IH; [|done]. lia.
Qed.
Lemma chunks31_nil : chunks31 [] = [].
Proof. done. Qed.
Lemma chunks31_cons a l : length a = FR_BYTES_STORED -> chunks31 (a ++ l) = a :: chunks31 l.
Proof.
  intros Ha. unfold chunks31 at 1. rewrite chunks_fuel by (unfold FR_BYTES_STORED; lia).
  destruct a as [|x a]; [done|]. cbn [app]. change (x :: a ++ l) with ((x :: a) ++ l).
  by rewrite take_app_length', drop_app_length' by done.
Qed.
Lemma chunks31_last a : (0 < length a <= FR_BYTES_STORED)%nat -> chunks31 a = [a].
Proof.
  intros Ha. unfold chunks31. rewrite chunks_fuel by (unfold FR_BYTES_STORED; lia).
  destruct a as [|x a]; [cbn in Ha; lia|]. rewrite take_ge by lia. rewrite drop_ge by lia. done.
Qed.
Lemma chunks31_concat res tail : Forall (fun c => length c = FR_BYTES_STORED) res -> (length tail < FR_BYTES_STORED)%nat ->
  chunks31 (concat res ++ tail) = res ++ match tail with [] => [] | _ => [tail] end.
Proof.
  intros Hr Ht. induction Hr as [|c res Hc _ IH].
  - destruct tail; [done|]. apply chunks31_last. cbn in *. lia.
  - change (concat (c :: res)) with (c ++ concat res). by rewrite <- app_assoc, chunks31_cons, IH.
Qed.

Abbreviation full_chunks := (Forall (fun c : list Z => length c = FR_BYTES_STORED)).
Lemma length_full res : full_chunks res -> length (concat res) = (length res * FR_BYTES_STORED)%nat.
Proof.
  induction 1 as [|c res Hc _ IH]; [done|]. change (concat (c :: res)) with (c ++ concat res).
  rewrite length_app, Hc, IH. cbn [length]. lia.
Qed.
Lemma split31 l : exists res tail, l = concat res ++ tail /\ full_chunks res /\ (length tail < FR_BYTES_STORED)%nat.
Proof.
  remember (length l) as n eqn:En. revert l En. induction n as [n IH] using (well_founded_induction lt_wf). intros l ->.
  destruct (decide (length l < FR_BYTES_STORED)%nat) as [Hl|Hl]; [by exists [], l|].
  destruct (IH (length (drop FR_BYTES_STORED l))) with (drop FR_BYTES_STORED l) as (res & tail & E & Hr & Ht);
    [rewrite length_drop; unfold FR_BYTES_STORED in *; lia|done|].
  exists (take FR_BYTES_STORED l :: res), tail. split_and!; [|constructor; [rewrite length_take; lia|done]|done].
  change (concat (?x :: ?y)) with (x ++ concat y). by rewrite <- app_assoc, <- E, take_drop.
Qed.
Lemma bytes_repr_full fuel res : full_chunks res -> (length (concat res) <= fuel)%nat ->
  bytes_repr_loop fuel (concat res) = reverse (map from_le_bytes res).
Proof.
  revert fuel. induction res as [|c res IH] using rev_ind; intros fuel Hr Hf; [by destruct fuel|].
  apply list.Forall_app in Hr as [Hr Hc]. rewrite list.Forall_singleton in Hc. rewrite concat_app in *.
  change (concat [c]) with (c ++ []) in *. rewrite app_nil_r in *. pose proof (length_full res Hr) as Hlen.
  rewrite length_app, Hc, Hlen in Hf. destruct fuel as [|fuel]; [unfold FR_BYTES_STORED in Hf; lia|].
  destruct (concat res ++ c) as [|x l] eqn:E; [apply (f_equal length) in E; rewrite length_app, Hc in E; unfold FR_BYTES_STORED in E; cbn in E; lia|].
  cbn [bytes_repr_loop]. rewrite <- E, length_app, Hc, Hlen.
  replace ((length res * FR_BYTES_STORED + FR_BYTES_STORED) mod FR_BYTES_STORED)%nat with 0%nat
    by (rewrite <- Nat.mul_succ_l; symmetry; apply Nat.Div0.mod_mul).
  cbn [negb Nat.eqb]. rewrite Nat.min_l by lia. rewrite Nat.add_sub.
  rewrite drop_app_length', take_app_length' by done. rewrite map_app, reverse_app. cbn. f_equal.
  apply IH; [done|]. unfold FR_BYTES_STORED in *. lia.
Qed.
Lemma bytes_field_repr_chunks l : bytes_field_repr l = reverse (map from_le_bytes (chunks31 l)).
Proof.
  destruct (split31 l) as (res & tail & -> & Hr & Ht). rewrite chunks31_concat by done. unfold bytes_field_repr.
  destruct tail as [|x tail]; [rewrite !app_nil_r; by apply bytes_repr_full|].
  rewrite map_app, reverse_app. cbn [map reverse rev_append].
  assert (length (concat res ++ x :: tail) = length res * FR_BYTES_STORED + length (x :: tail))%nat as Hlen
    by (by rewrite length_app, length_full).
  rewrite Hlen at 1. cbn [length] in *. rewrite Nat.add_succ_r.
  destruct (concat res ++ x :: tail) as [|y l] eqn:E; [by destruct (concat res)|].
  cbn [bytes_repr_loop]. rewrite <- E in Hlen |- *. rewrite Hlen.
  rewrite Nat.add_comm, Nat.Div0.mod_add, Nat.mod_small by done. cbn [negb Nat.eqb].
  replace (S (length tail) + length res * FR_BYTES_STORED - S (length tail))%nat with (length (concat res))
    by (rewrite length_full; [lia|done]).
  rewrite drop_app_length, take_app_length. cbn. f_equal. apply bytes_repr_full; [done|].
  rewrite length_full by done. lia.
Qed.

Lemma mapM_bytes_from `{FieldOrderLaws} fs res : Forall fr_wf fs -> mapM (bytes_from FR_BYTES_STORED) fs = Some res ->
  full_chunks res /\ map from_le_bytes res = fs /\ Forall bytes_wf res.
Proof.
  intros Hf E%mapM_Some_1. revert Hf. induction E as [|f b fs res Hb _ IH]; [by intros _; split_and!|].
  intros [Hf1 Hf]%list.Forall_cons. destruct (IH Hf) as (? & ? & ?).
  apply bytes_from_spec in Hb as (? & ? & ?); [|unfold FR_BYTES_STORED, FR_BYTE_LEN; lia|done].
  split_and!; [by constructor|cbn; congruence|by constructor].
Qed.
Lemma div_ceil_31 n : Z.to_nat (div_ceil (Z.of_nat n) 31) = (n / FR_BYTES_STORED + if n mod FR_BYTES_STORED =? 0 then 0 else 1)%nat.
Proof.
  unfold div_ceil, FR_BYTES_STORED. pose proof (Nat.div_mod_eq n 31) as Hn. pose proof (Nat.mod_upper_bound n 31 ltac:(lia)).
  set (q := (n / 31)%nat) in *. set (m := (n mod 31)%nat) in *. clearbody q m. subst n.
  destruct (Nat.eqb_spec m 0) as [->|Hm].
  - apply Nat2Z.inj. rewrite Z2Nat.id by (apply Z.div_pos; lia). symmetry. apply Z.div_unique with (r := 30); lia.
  - apply Nat2Z.inj. rewrite Z2Nat.id by (apply Z.div_pos; lia).
    symmetry. apply Z.div_unique with (r := Z.of_nat m - 1); lia.
Qed.
Lemma bytes_field_size_div l : bytes_field_size l = (length l / FR_BYTES_STORED + if length l mod FR_BYTES_STORED =? 0 then 0 else 1)%nat.
Proof. apply div_ceil_31. Qed.

Lemma bytes_from_field_repr_spec `{FieldOrderLaws} repr n v rest :
  Forall fr_wf repr -> bytes_from_field_repr repr n = Some (v, rest) ->
  exists used, repr = used ++ rest /\ length used = Z.to_nat (div_ceil (Z.of_nat n) 31) /\ length v = n /\
    reverse (map from_le_bytes (chunks31 v)) = used /\ bytes_wf v.
Proof.
  intros Hw. unfold bytes_from_field_repr. rewrite div_ceil_31.
  pose proof (Nat.div_mod_eq n FR_BYTES_STORED) as Hn.
  pose proof (Nat.mod_upper_bound n FR_BYTES_STORED ltac:(unfold FR_BYTES_STORED; lia)) as Hm.
  set (stray := (n mod FR_BYTES_STORED)%nat) in *. set (chunks := (n / FR_BYTES_STORED)%nat) in *.
  destruct (Nat.ltb_spec (length repr) (chunks + if stray =? 0 then 0 else 1)%nat) as [|Hlen]; [done|].
  assert (forall tail fs hd, full_chunks tail -> (length hd = stray) -> length tail = chunks -> map from_le_bytes tail = reverse fs ->
    length (concat tail ++ hd) = n /\
    reverse (map from_le_bytes (chunks31 (concat tail ++ hd))) = (match hd with [] => [] | _ => [from_le_bytes hd] end) ++ fs) as Hout.
  { intros tail fs hd Ht Hh Hc Hfs. rewrite length_app, length_full, Hc, Hh by done. split; [rewrite Nat.mul_comm; lia|].
    rewrite chunks31_concat by (done || lia). rewrite map_app, reverse_app, Hfs, reverse_involutive. by destruct hd. }
  destruct (Nat.ltb_spec 0 stray) as [Hs|Hs].
  - destruct (Nat.eqb_spec stray 0); [lia|]. destruct repr as [|f repr]; [cbn in Hlen; lia|]. apply list.Forall_cons in Hw as [Hf Hw].
    intros E. apply bind_Some in E as ([hd repr'] & E & E'). apply bind_Some in E' as (res & Er & [= <- <-]).
    cbn [list.head mbind option_bind] in E. apply bind_Some in E as (hd' & Eh & [= <- <-]). change (drop 1 (f :: repr)) with repr in *.
    apply bytes_from_spec in Eh as (Hh1 & Hh2 & Hh3); [|unfold FR_BYTES_STORED, FR_BYTE_LEN in *; lia|done].
    apply mapM_bytes_from in Er as (Hr1 & Hr2 & Hr3); [|by apply Forall_reverse, Forall_take].
    clearbody chunks stray. rewrite drop_0 in *. exists (f :: take chunks repr). cbn in Hlen. rewrite <- app_comm_cons, take_drop. cbn [length]. rewrite length_take.
    destruct (Hout res (take chunks repr) hd') as [-> ->]; [done|done| |done|].
    { apply (f_equal length) in Hr2. rewrite length_map, length_reverse, length_take in Hr2. lia. }
    split_and!; [done|lia|done|by destruct hd'; [cbn in Hh1; lia|rewrite Hh2]|].
    apply list.Forall_app. split; [|done]. by apply Forall_concat.
  - destruct (Nat.eqb_spec stray 0) as [Hz|]; [|lia]. intros E.
    apply bind_Some in E as ([hd repr'] & [= <- <-] & E). apply bind_Some in E as (res & Er & [= <- <-]).
    apply mapM_bytes_from in Er as (Hr1 & Hr2 & Hr3); [|by apply Forall_reverse, Forall_take].
    exists (take chunks repr). rewrite take_drop, length_take.
    destruct (Hout res (take chunks repr) []) as [-> ->]; [done|done| |done|].
    { apply (f_equal length) in Hr2. rewrite length_map, length_reverse, length_take in Hr2. lia. }
    split_and!; [done|lia|done|done|]. rewrite app_nil_r. by apply Forall_concat.
Qed.

Lemma max_list_with_elem {A} (f : A -> nat) l x : x ∈ l -> (f x <= max_list_with f l)%nat.
Proof. induction 1; cbn; lia. Qed.

#[global] Arguments as_le_bytes : simpl never.
#[global] Arguments bytes_from_field_repr : simpl never.
#[global] Arguments normalize_atom : simpl never.
#[global] Arguments uint_atom : simpl never.

(** *** Parsing gives a value with the same field elements *)
Section parse_sound.
#[local] Set Default Proof Using "All".
Context `{FieldOrderLaws} `{Hashing}.

Lemma to_nat_div_ceil n : Z.to_nat (div_ceil (Z.of_nat (Z.to_nat n)) 31) = Z.to_nat (div_ceil n 31).
Proof.
  destruct (Z.le_gt_cases 0 n); [by rewrite Z2Nat.id|]. rewrite (Z2Nat.nonpos n) by lia.
  symmetry. apply Z2Nat.nonpos, (proj2 (div_ceil_spec n 31 0 ltac:(lia))). lia.
Qed.
Lemma field_atom_value x : fr_wf x -> value_atom_as_field (normalize_atom (as_le_bytes x)) = Ok x.
Proof.
  intros Hx. unfold value_atom_as_field. pose proof (length_normalize (as_le_bytes x)) as Hl.
  unfold as_le_bytes in Hl at 2. rewrite length_to_le_bytes in Hl. unfold FR_BYTE_LEN, FIELD_BYTE_LIMIT in *.
  destruct (Nat.leb_spec (length (normalize_atom (as_le_bytes x))) 64); [|lia].
  unfold from_uniform_bytes. rewrite from_le_bytes_zeros, from_le_bytes_normalize, as_le_bytes_value by done.
  by rewrite Z.mod_small.
Qed.
Lemma atom_parse_sound a repr v rest : Forall fr_wf repr -> atom_parse_field_repr a repr = Some (v, rest) ->
  exists used, repr = used ++ rest /\ length used = atom_field_len a /\ atom_field_repr_unchecked v a = Ok used.
Proof.
  intros Hw. destruct a as [|n|]; cbn; [done| |].
  - intros (used & -> & Hl & Hv & Hu & _)%bytes_from_field_repr_spec; [|done]. exists used.
    rewrite to_nat_div_ceil in Hl. split_and!; [done|done|]. unfold bytes_field_size. rewrite Hv, to_nat_div_ceil, Nat.leb_refl.
    by rewrite Nat.sub_diag, Hu.
  - destruct repr as [|x repr]; [done|]. intros [= <- <-]. apply list.Forall_cons in Hw as [Hx _].
    exists [x]. by rewrite field_atom_value.
Qed.

Lemma u16_try_from_fr_range f x : u16_try_from_fr f = Some x -> fr_wf f -> f = x /\ is_u16 x.
Proof. unfold u16_try_from_fr, fr_wf. destruct (Z.leb_spec f u16_max); [|done]. intros [= <-] ?. split; [done|ints]. Qed.
Lemma variant_decode x : is_u16 x -> u16_of_value [uint_atom x] = Ok x.
Proof. intros Hx. apply uint_atom_decode; [done|ints]. Qed.
Lemma variant_field_repr x : is_u16 x -> atom_field_repr_unchecked (uint_atom x) (Bytes 2) = Ok [x].
Proof.
  intros Hx. cbn. assert (length (uint_atom x) <= 2)%nat as Hl by (apply length_uint_atom; [lia|cbn; ints]).
  assert (from_le_bytes (uint_atom x) = x) as Hv.
  { unfold uint_atom. rewrite from_le_bytes_normalize, from_to_le_bytes; [done|]. cbn. ints. }
  unfold bytes_field_size. rewrite div_ceil_31. change (Z.to_nat (div_ceil 2 31)) with 1%nat.
  destruct (uint_atom x) as [|b l] eqn:E; cbn in Hv; [by subst x|].
  rewrite Nat.div_small, Nat.mod_small by (unfold FR_BYTES_STORED; lia). cbn [length Nat.eqb Nat.add Nat.leb Nat.sub replicate app].
  rewrite chunks31_last by (unfold FR_BYTES_STORED; cbn in *; lia). cbn. by rewrite Hv.
Qed.

(** What a parse of [repr] into [v] says. *)
Definition parsed (writes : Value -> may_panic (list Fr * Value)) (n : nat) repr (v : Value) rest : Prop :=
  exists used, repr = used ++ rest /\ length used = n /\ forall atoms, writes (v ++ atoms) = Ok (used, atoms).
Abbreviation write_segment := (traverse_segment atom_field_repr_unchecked field_len 0).
Abbreviation segment_parses segment := (forall repr v rest, Forall fr_wf repr ->
  parse_field_repr_segment segment repr = Some (v, rest) ->
  parsed (write_segment segment) (segment_field_len segment) repr v rest).

Lemma parse_loop_sound al repr v rest : Forall (fun s => segment_parses s) al -> Forall fr_wf repr ->
  parse_loop parse_field_repr_segment al repr = Some (v, rest) ->
  parsed (traverse_loop write_segment al) (field_len al) repr v rest.
Proof.
  intros Hal. revert repr v rest. induction Hal as [|s al Hs _ IH]; intros repr v rest Hw; cbn.
  - intros [= <- <-]. by exists [].
  - intros ([v1 r1] & E1 & ([v2 r2] & E2 & [= <- <-])%bind_Some)%bind_Some.
    apply Hs in E1 as (u1 & -> & Hl1 & Hw1); [|done]. apply list.Forall_app in Hw as [_ Hw].
    apply IH in E2 as (u2 & -> & Hl2 & Hw2); [|done]. exists (u1 ++ u2). rewrite <- app_assoc, length_app. split_and!; [done|unfold field_len in *; lia|].
    intros atoms. rewrite <- app_assoc, Hw1. cbn. by rewrite Hw2.
Qed.
Lemma segment_parse_sound segment : segment_parses segment.
Proof.
  induction segment as [a|options IH] using AlignmentSegment_ind'; intros repr v rest Hw; cbn.
  - intros ([x r] & (used & -> & Hl & Hu)%atom_parse_sound & [= <- <-])%bind_Some; [|done].
    exists used. split_and!; [done|done|]. intros atoms. cbn. by rewrite Hu.
  - destruct repr as [|f repr]; [done|]. apply list.Forall_cons in Hw as [Hf Hw].
    intros (variant & [-> Hv]%u16_try_from_fr_range & E)%bind_Some; [|done].
    apply bind_Some in E as ([v1 r1] & E & [= <- <-]). rewrite parse_choice_lookup in E.
    apply bind_Some in E as (choice & Hc & E). apply bind_Some in E as ([v2 r2] & E & Hpad).
    rewrite list.Forall_forall in IH. apply parse_loop_sound in E as (used & -> & Hl & Hu);
      [|apply IH; by eapply list_elem_of_lookup_2|done].
    cbv zeta in Hpad. destruct (_ || _) eqn:Epad; [discriminate|]. apply orb_false_iff in Epad as [Elt Ez].
    injection Hpad as <- <-. apply no_other_bytes in Ez. apply Nat.ltb_ge in Elt.
    rewrite length_take_le in Ez by done.
    pose proof (max_list_with_elem field_len options choice (list_elem_of_lookup_2 _ _ _ Hc)) as Hmax.
    set (padding := (max_list_with field_len options - field_len choice)%nat) in *.
    exists (variant :: used ++ take padding r2). split_and!.
    + cbn. by rewrite <- app_assoc, take_drop.
    + cbn [length segment_field_len]. rewrite length_app, length_take_le by done.
      change (sum_list_with segment_field_len) with field_len. subst padding. lia.
    + intros atoms. cbn [app traverse_segment]. rewrite variant_decode by done.
      pose proof (variant_field_repr variant Hv) as Hvr. cbn [atom_field_repr_unchecked] in Hvr |- *. rewrite Hvr. cbn [mbind outcome_bind].
      rewrite traverse_choice_lookup, Hc, Hu. cbn. fold padding. by rewrite Ez at 1.
Qed.

Theorem parse_field_repr_sound (al : Alignment) (repr : list Fr) (av : AlignedValue) :
  Forall fr_wf repr -> parse_field_repr al repr = Some av ->
  av_alignment av = al /\
  exists used rest, repr = used ++ rest /\ length used = field_len al /\ value_only_field_repr av = Ok used.
Proof.
  intros Hw ([v rest] & E & [= <-])%bind_Some. split; [done|].
  apply parse_loop_sound in E as (used & -> & Hl & Hu); [|apply list.Forall_forall; intros s _; apply segment_parse_sound|done].
  exists used, rest. split_and!; [done|done|]. unfold value_only_field_repr, field_repr_unchecked, repr_traverse.
  specialize (Hu []). rewrite app_nil_r in Hu. cbn. by rewrite Hu.
Qed.
End parse_sound.

(** *** What is written parses back *)
Section write_parse.
#[local] Set Default Proof Using "All".
Context `{FieldOrderLaws} `{Hashing}.

Lemma to_le_bytes_zero n : to_le_bytes n 0 = replicate n 0.
Proof. induction n as [|n IH]; [done|]. cbn [to_le_bytes replicate]. rewrite Z.div_0_l, Z.mod_0_l by lia. by rewrite IH. Qed.
Lemma to_from_padded n b : bytes_wf b -> (length b <= n)%nat ->
  to_le_bytes n (from_le_bytes b) = b ++ replicate (n - length b) 0.
Proof.
  intros Hb. revert n. induction Hb as [|x b Hx Hb IH]; intros n Hn.
  - cbn [from_le_bytes app length]. rewrite Nat.sub_0_r. apply to_le_bytes_zero.
  - destruct n as [|n]; [cbn in Hn; lia|]. cbn [from_le_bytes to_le_bytes length app Nat.sub].
    assert (0 <= x < 256) as Hx' by ints.
    replace ((x + 256 * from_le_bytes b) mod 256) with x by (rewrite Z.mul_comm, Z_mod_plus_full, Z.mod_small; lia).
    replace ((x + 256 * from_le_bytes b) / 256) with (from_le_bytes b)
      by (rewrite Z.mul_comm, Z.div_add, Z.div_small by lia; lia).
    rewrite IH by (cbn in Hn; lia). done.
Qed.
Lemma existsb_replicate n : existsb (fun b => negb (b =? 0)) (replicate n 0) = false.
Proof. by induction n. Qed.
Lemma bytes_from_exact b : bytes_wf b -> (length b <= FR_BYTES_STORED)%nat -> bytes_from (length b) (from_le_bytes b) = Some b.
Proof.
  intros Hb Hl. unfold bytes_from, as_le_bytes. rewrite to_from_padded by (done || unfold FR_BYTES_STORED, FR_BYTE_LEN in *; lia).
  by rewrite drop_app_length, existsb_replicate, take_app_length.
Qed.
Lemma mapM_exact res : full_chunks res -> Forall bytes_wf res ->
  mapM (bytes_from FR_BYTES_STORED) (map from_le_bytes res) = Some res.
Proof.
  intros Hr Hw. apply mapM_Some_2. induction Hr as [|c res Hc _ IH]; [constructor|].
  apply list.Forall_cons in Hw as [Hcw Hw]. constructor; [|by apply IH]. rewrite <- Hc. apply bytes_from_exact; [done|lia].
Qed.
Lemma split31_wf res tail : bytes_wf (concat res ++ tail) -> Forall bytes_wf res /\ bytes_wf tail.
Proof.
  intros [Hr Ht]%list.Forall_app. split; [|done]. induction res as [|c res IH]; [constructor|].
  change (concat (c :: res)) with (c ++ concat res) in Hr. apply list.Forall_app in Hr as [? ?]. constructor; auto.
Qed.
Lemma bytes_parse_exact w rest : bytes_wf w ->
  bytes_from_field_repr (reverse (map from_le_bytes (chunks31 w)) ++ rest) (length w) = Some (w, rest).
Proof.
  intros Hw. destruct (split31 w) as (res & tail & -> & Hr & Ht). apply split31_wf in Hw as [Hres Htail].
  rewrite chunks31_concat, map_app, reverse_app by done. unfold bytes_from_field_repr.
  rewrite (length_app (concat res) tail), length_full by done.
  assert ((length res * FR_BYTES_STORED + length tail) mod FR_BYTES_STORED = length tail)%nat as ->
    by (rewrite Nat.add_comm, Nat.Div0.mod_add, Nat.mod_small; done).
  assert ((length res * FR_BYTES_STORED + length tail) / FR_BYTES_STORED = length res)%nat as ->
    by (rewrite Nat.add_comm, Nat.div_add, Nat.div_small; [done|done|unfold FR_BYTES_STORED; lia]).
  assert (length (reverse (map from_le_bytes res)) = length res) as Hlen by (by rewrite length_reverse, length_map).
  assert (take (length res) (reverse (map from_le_bytes res) ++ rest) = reverse (map from_le_bytes res)) as Htake
    by (by apply take_app_length').
  assert (drop (length res) (reverse (map from_le_bytes res) ++ rest) = rest) as Hdrop by (by apply drop_app_length').
  destruct tail as [|x tail].
  - cbn [length map reverse rev_append app Nat.eqb Nat.add]. rewrite Nat.add_0_r.
    destruct (Nat.ltb_spec (length (reverse (map from_le_bytes res) ++ rest)) (length res)) as [Hlt|_];
      [rewrite length_app, Hlen in Hlt; lia|].
    cbn [Nat.ltb Nat.leb mbind option_bind]. rewrite Htake, Hdrop, reverse_involutive, mapM_exact by done. done.
  - change (reverse (map from_le_bytes [x :: tail])) with [from_le_bytes (x :: tail)].
    cbn [length app Nat.eqb].
    destruct (Nat.ltb_spec (S (length (reverse (map from_le_bytes res) ++ rest))) (length res + 1)) as [Hlt|_];
      [rewrite length_app, Hlen in Hlt; lia|].
    replace (0 <? S (length tail))%nat with true by done.
    pose proof (bytes_from_exact (x :: tail) Htail ltac:(lia)) as Hb. cbn [length] in Hb.
    cbn [list.head mbind option_bind]. rewrite Hb.
    change (drop 1 (?f :: ?l)) with (drop 0 l). rewrite drop_0. cbn [mbind option_bind].
    rewrite Htake, Hdrop, reverse_involutive, mapM_exact by done. done.
Qed.

Lemma length_chunks31 l : length (chunks31 l) = bytes_field_size l.
Proof.
  rewrite bytes_field_size_div. destruct (split31 l) as (res & tail & -> & Hr & Ht).
  rewrite chunks31_concat, !length_app, length_full by done.
  rewrite (Nat.add_comm (length res * _)), Nat.Div0.mod_add, Nat.mod_small, Nat.div_add, Nat.div_small by (done || (unfold FR_BYTES_STORED; lia)).
  destruct tail; cbn; lia.
Qed.
Lemma chunks31_zeros m : exists k, map from_le_bytes (chunks31 (replicate m 0)) = replicate k 0.
Proof.
  exists (length (chunks31 (replicate m 0))). destruct (split31 (replicate m 0)) as (res & tail & E & Hr & Ht).
  rewrite E, chunks31_concat by done. assert (forall c, c ∈ res ++ [tail] -> from_le_bytes c = 0) as Hz.
  { intros c Hc. assert (exists n, c = replicate n 0) as [n ->]; [|by apply (from_le_bytes_zeros [] n)].
    exists (length c). symmetry. apply replicate_as_Forall. split; [done|]. apply list.Forall_forall. intros x Hx.
    enough (x ∈ replicate m 0) as [-> _]%elem_of_replicate by done. rewrite E.
    apply elem_of_app in Hc as [Hc|Hc%list_elem_of_singleton]; [|subst; set_solver].
    apply elem_of_app. left. apply list_elem_of_In, in_concat. exists c. by rewrite <- !list_elem_of_In. }
  assert (forall l, (forall c, c ∈ l -> from_le_bytes c = 0) -> map from_le_bytes l = replicate (length l) 0) as Hmap.
  { intros l Hl. induction l as [|c l IH]; [done|]. cbn. rewrite Hl, IH by set_solver. done. }
  apply Hmap. intros c Hc. apply Hz. destruct tail; set_solver.
Qed.
Lemma chunks31_pad v m :
  reverse (map from_le_bytes (chunks31 (v ++ replicate m 0))) =
  replicate (bytes_field_size (v ++ replicate m 0) - bytes_field_size v) 0 ++ reverse (map from_le_bytes (chunks31 v)).
Proof.
  assert (exists k, map from_le_bytes (chunks31 (v ++ replicate m 0)) = map from_le_bytes (chunks31 v) ++ replicate k 0) as [k E].
  { destruct (split31 v) as (res & tail & -> & Hr & Ht). rewrite <- app_assoc, (chunks31_concat res tail) by done.
    assert (forall l, chunks31 (concat res ++ l) = res ++ chunks31 l) as Hres.
    { intros l. clear -Hr. induction Hr as [|c res Hc _ IH]; [done|]. change (concat (c :: res)) with (c ++ concat res).
      by rewrite <- app_assoc, chunks31_cons, IH. }
    rewrite Hres. destruct tail as [|x tail].
    - destruct (chunks31_zeros m) as [k Hk]. exists k. cbn [app]. by rewrite app_nil_r, map_app, Hk.
    - destruct (decide (length (x :: tail) + m <= FR_BYTES_STORED)%nat) as [Hm|Hm].
      + exists 0%nat. rewrite chunks31_last by (rewrite length_app, length_replicate; cbn in *; lia).
        rewrite app_nil_r, !map_app. cbn [map]. by rewrite from_le_bytes_zeros.
      + replace (replicate m 0) with (replicate (FR_BYTES_STORED - length (x :: tail)) 0 ++ replicate (m - (FR_BYTES_STORED - length (x :: tail))) 0)
          by (rewrite <- replicate_add; f_equal; lia).
        destruct (chunks31_zeros (m - (FR_BYTES_STORED - length (x :: tail)))) as [k Hk]. exists k.
        rewrite app_assoc, chunks31_cons by (rewrite length_app, length_replicate; lia).
        rewrite !map_app, <- app_assoc. cbn [map]. by rewrite from_le_bytes_zeros, Hk. }
  pose proof (f_equal length E) as El. rewrite length_app, !length_map, !length_chunks31, length_replicate in El.
  rewrite E, reverse_app, reverse_replicate. do 2 f_equal. lia.
Qed.

Fixpoint no_compress (segment : AlignmentSegment) : bool :=
  match segment with
  | Atom Compress => false
  | Atom (Bytes n) => 0 <=? n
  | Atom Field => true
  | Option options => forallb (forallb no_compress) options
  end.
(** Byte strings of a length that fits [u32]. *)
Definition atom_ok (a : ValueAtom) : Prop := bytes_wf a /\ Z.of_nat (length a) <= u32_max.

Lemma atom_write_parse a v : no_compress (Atom a) = true -> atom_ok v -> atom_fits a v = true ->
  exists out v' bin, atom_field_repr_unchecked v a = Ok out /\ length out = atom_field_len a /\
    (forall rest, atom_parse_field_repr a (out ++ rest) = Some (v', rest)) /\
    atom_binary_repr_unchecked v a = Ok bin /\ atom_binary_repr_unchecked v' a = Ok bin /\ length bin = atom_bin_len a.
Proof.
  intros Ha [Hw Hl]. destruct a as [|n|]; cbn [no_compress] in Ha; [done| |]; unfold atom_fits.
  - apply Z.leb_le in Ha. intros [Hn%Z.leb_le _]%andb_true_iff. rewrite trunc_id in Hn by ints.
    set (w := v ++ replicate (Z.to_nat n - length v) 0).
    assert (length w = Z.to_nat n) as Hlw by (unfold w; rewrite length_app, length_replicate; lia).
    assert (bytes_field_size w = Z.to_nat (div_ceil n 31)) as Hs by (unfold bytes_field_size; by rewrite Hlw, Z2Nat.id).
    assert (bytes_wf w) as Hww by (apply list.Forall_app; split; [done|apply Forall_replicate; ints]).
    assert (bytes_field_size v <= bytes_field_size w)%nat as Hle.
    { rewrite <- !length_chunks31. pose proof (f_equal length (chunks31_pad v (Z.to_nat n - length v))) as E. fold w in E.
      rewrite length_reverse, length_map, length_app, length_reverse, length_map, length_replicate in E. lia. }
    pose proof (chunks31_pad v (Z.to_nat n - length v)) as Hout. fold w in Hout.
    exists (reverse (map from_le_bytes (chunks31 w))), w, w. cbn [atom_field_repr_unchecked atom_binary_repr_unchecked].
    rewrite <- Hs. destruct (Nat.leb_spec (bytes_field_size v) (bytes_field_size w)); [|lia].
    split_and!; [by rewrite <- Hout| | | | |done].
    + rewrite length_reverse, length_map, length_chunks31. done.
    + intros rest. cbn [atom_parse_field_repr]. rewrite <- Hlw. by apply bytes_parse_exact.
    + destruct (Z.leb_spec (Z.of_nat (length v)) n); [done|lia].
    + rewrite Hlw. destruct (Z.leb_spec (Z.of_nat (Z.to_nat n)) n); [|lia]. by rewrite Nat.sub_diag, app_nil_r.
  - intros [Hlen%Nat.leb_le _]%andb_true_iff. assert (exists x, value_atom_as_field v = Ok x /\ fr_wf x) as (x & Hx & Hxw).
    { unfold value_atom_as_field. destruct (Nat.leb_spec (length v) FIELD_BYTE_LIMIT); [|lia]. eexists. split; [done|].
      pose proof fr_modulus_lb. apply Z.mod_pos_bound. lia. }
    exists [x], (normalize_atom (as_le_bytes x)), (as_le_bytes x).
    cbn [atom_field_repr_unchecked atom_binary_repr_unchecked]. rewrite Hx, field_atom_value by done. cbn.
    split_and!; [done..|]. apply length_to_le_bytes.
Qed.

Abbreviation write_segment := (traverse_segment atom_field_repr_unchecked field_len 0).
Abbreviation bin_segment := (traverse_segment atom_binary_repr_unchecked bin_len 0).
Definition roundtrips (match_ : Value -> Prop) (write : Value -> may_panic (list Fr * Value)) (n : nat)
    (parse : list Fr -> option (Value * list Fr)) (bin : Value -> may_panic (list Z * Value)) (m : nat) : Prop :=
  forall v, match_ v -> Forall atom_ok v ->
  exists out v' b, (forall atoms, write (v ++ atoms) = Ok (out, atoms)) /\ length out = n /\
    (forall rest, parse (out ++ rest) = Some (v', rest)) /\
    (forall atoms, bin (v ++ atoms) = Ok (b, atoms)) /\ (forall atoms, bin (v' ++ atoms) = Ok (b, atoms)) /\ length b = m.
Abbreviation segment_roundtrips s :=
  (roundtrips (seg_matches s) (write_segment s) (segment_field_len s) (parse_field_repr_segment s) (bin_segment s) (segment_bin_len s)).
Lemma loop_roundtrips al : Forall (fun s => segment_roundtrips s) al ->
  roundtrips (al_matches al) (traverse_loop write_segment al) (field_len al)
    (parse_loop parse_field_repr_segment al) (traverse_loop bin_segment al) (bin_len al).
Proof.
  induction 1 as [|s al Hs _ IH]; intros v Hm Hok; inversion Hm; subst.
  - exists [], [], []. by split_and!.
  - apply list.Forall_app in Hok as [Hok1 Hok2].
    destruct (Hs v1) as (o1 & w1 & b1 & Hw1 & Hl1 & Hp1 & Hb1 & Hc1 & Hm1); [done..|].
    destruct (IH v2) as (o2 & w2 & b2 & Hw2 & Hl2 & Hp2 & Hb2 & Hc2 & Hm2); [done..|].
    exists (o1 ++ o2), (w1 ++ w2), (b1 ++ b2). cbn [traverse_loop parse_loop field_len bin_len sum_list_with].
    rewrite !length_app, Hl1, Hl2, Hm1, Hm2. split_and!; try done.
    + intros atoms. rewrite <- app_assoc, Hw1. cbn. by rewrite Hw2.
    + intros rest. rewrite <- app_assoc, Hp1. cbn. by rewrite Hp2.
    + intros atoms. rewrite <- app_assoc, Hb1. cbn. by rewrite Hb2.
    + intros atoms. rewrite <- app_assoc, Hc1. cbn. by rewrite Hc2.
Qed.

Lemma variant_exact v branch : atom_ok v -> atom_fits (Bytes 2) v = true -> u16_of_value [v] = Ok branch ->
  v = uint_atom branch /\ is_u16 branch.
Proof.
  intros [Hw Hl] [Hlen%Z.leb_le Hn]%andb_true_iff E. rewrite trunc_id in Hlen by ints.
  unfold u16_of_value, single_try_from, uint_try_from, u128_try_from in E. inv_binds.
  destruct (length v <=? 128 / 8)%nat; [|done]. injection E0 as <-.
  destruct (from_le_bytes v <=? u16_max) eqn:Ex; [|done]. injection E as <-. apply Z.leb_le in Ex.
  pose proof (from_le_bytes_bound v Hw). split; [|ints]. unfold uint_atom. rewrite to_from_padded by (done || lia).
  rewrite <- (normalize_id v) at 1 by done. clear. generalize (16 - length v)%nat as m. intros m.
  induction m as [|m IH]; [by rewrite app_nil_r|].
  replace (S m) with (m + 1)%nat by lia. rewrite replicate_add, app_assoc. cbn [replicate].
  rewrite normalize_atom_snoc. exact IH.
Qed.
Lemma variant_binary x : is_u16 x -> exists b, atom_binary_repr_unchecked (uint_atom x) (Bytes 2) = Ok b /\ length b = 2%nat.
Proof.
  intros Hx. assert (length (uint_atom x) <= 2)%nat as Hl by (apply length_uint_atom; [lia|cbn; ints]).
  cbn [atom_binary_repr_unchecked]. destruct (Z.leb_spec (Z.of_nat (length (uint_atom x))) 2); [|lia]. eexists. split; [done|].
  rewrite length_app, length_replicate. lia.
Qed.
Lemma segment_roundtrip s : no_compress s = true -> segment_roundtrips s.
Proof.
  induction s as [a|options IH] using AlignmentSegment_ind'; intros Hc v Hm Hok; inversion Hm as [? w Hf|? w branch al rest Hf Hdec Hlk Hmt]; subst.
  - apply list.Forall_cons in Hok as [Hok _].
    destruct (atom_write_parse a w) as (out & v' & b & Hw & Hl & Hp & Hb & Hb' & Hlb); [done..|].
    exists out, [v'], b. cbn. rewrite Hw, Hb, Hb'. split_and!; try done. intros rest. by rewrite Hp.
  - apply list.Forall_cons in Hok as [Hv Hok]. apply variant_exact in Hdec as [-> Hb]; [|done..].
    rewrite list.Forall_forall in IH. cbn [no_compress] in Hc. rewrite forallb_forall in Hc.
    pose proof (list_elem_of_lookup_2 _ _ _ Hlk) as Hin.
    assert (Forall (fun s => segment_roundtrips s) al) as Hal.
    { specialize (Hc al ltac:(by apply list_elem_of_In)). rewrite forallb_forall in Hc. specialize (IH al Hin).
      rewrite list.Forall_forall in IH |- *. intros s Hs. apply IH; [done|]. apply Hc. by apply list_elem_of_In. }
    destruct (loop_roundtrips al Hal rest) as (out & v' & b & Hw & Hl & Hp & Hb1 & Hb2 & Hlb); [done..|].
    pose proof (max_list_with_elem field_len options al Hin) as Hmax. pose proof (max_list_with_elem bin_len options al Hin) as Hmaxb.
    set (padding := (max_list_with field_len options - field_len al)%nat).
    destruct (variant_binary branch Hb) as (hb & Hhb & Hhl).
    exists (branch :: out ++ replicate padding 0), (uint_atom branch :: v'),
      (hb ++ b ++ replicate (max_list_with bin_len options - bin_len al) 0).
    pose proof (variant_field_repr branch Hb) as Hvr. cbn [atom_field_repr_unchecked atom_binary_repr_unchecked] in Hvr, Hhb.
    split_and!.
    + intros atoms. cbn [app traverse_segment]. rewrite variant_decode by done. cbn [atom_field_repr_unchecked]. rewrite Hvr.
      cbn [mbind outcome_bind]. rewrite traverse_choice_lookup, Hlk, Hw. done.
    + cbn [length segment_field_len]. rewrite length_app, length_replicate, Hl.
      change (sum_list_with segment_field_len) with field_len. subst padding. lia.
    + intros rest'. cbn [app parse_field_repr_segment]. unfold u16_try_from_fr.
      destruct (Z.leb_spec branch u16_max); [|ints]. cbn [mbind option_bind].
      rewrite parse_choice_lookup, Hlk. cbn [mbind option_bind]. rewrite <- app_assoc, Hp. cbn [mbind option_bind]. fold padding.
      rewrite take_app_length' by (by rewrite length_replicate). rewrite existsb_replicate.
      rewrite length_app, length_replicate. destruct (Nat.ltb_spec (padding + length rest') padding); [lia|].
      cbn [orb mbind option_bind]. by rewrite drop_app_length' by (by rewrite length_replicate).
    + intros atoms. cbn [app traverse_segment]. rewrite variant_decode by done. cbn [atom_binary_repr_unchecked]. rewrite Hhb.
      cbn [mbind outcome_bind]. rewrite traverse_choice_lookup, Hlk, Hb1. done.
    + intros atoms. cbn [app traverse_segment]. rewrite variant_decode by done. cbn [atom_binary_repr_unchecked]. rewrite Hhb.
      cbn [mbind outcome_bind]. rewrite traverse_choice_lookup, Hlk, Hb2. done.
    + cbn [segment_bin_len]. rewrite !length_app, length_replicate, Hhl, Hlb.
      change (sum_list_with segment_bin_len) with bin_len. lia.
Qed.

(** C32: a value survives the translation to field elements and back: an aligned
    value without compressed atoms is written as exactly [field_len] elements,
    those parse, and the value that comes back has the same binary form, which
    is the one that is hashed and has [bin_len] bytes. *)
Theorem field_repr_roundtrip (av : AlignedValue) :
  av_aligned av -> Forall atom_ok (av_value av) -> forallb no_compress (av_alignment av) = true ->
  exists out av' bin,
    value_only_field_repr av = Ok out /\ length out = field_len (av_alignment av) /\
    parse_field_repr (av_alignment av) out = Some av' /\ av_alignment av' = av_alignment av /\
    binary_repr_unchecked (av_value av) (av_alignment av) = Ok bin /\
    binary_repr_unchecked (av_value av') (av_alignment av') = Ok bin /\ length bin = bin_len (av_alignment av).
Proof.
  destruct av as [v al]. unfold av_aligned. cbn [av_value av_alignment]. rewrite fits_matches, forallb_forall.
  intros Hm Hok Hc. destruct (loop_roundtrips al) with v as (out & v' & b & Hw & Hl & Hp & Hb1 & Hb2 & Hlb); [|done..|].
  { apply list.Forall_forall. intros s Hs. apply segment_roundtrip, Hc. by apply list_elem_of_In. }
  exists out, (mkAlignedValue v' al), b. unfold value_only_field_repr, field_repr_unchecked, binary_repr_unchecked, repr_traverse.
  cbn [av_value av_alignment]. specialize (Hw []). specialize (Hp []). specialize (Hb1 []). specialize (Hb2 []). rewrite !app_nil_r in *.
  rewrite Hw, Hb1, Hb2. cbn. unfold parse_field_repr, parse_field_repr_inner. rewrite Hp. by split_and!.
Qed.
End write_parse.

(** *** Hashes: the last byte, then the first 31 *)
Lemma hash_field_repr_spec h : hash_wf h -> hash_field_repr h = [from_le_bytes (drop 31 h); from_le_bytes (take 31 h)].
Proof.
  intros [Hl _]. unfold hash_field_repr. rewrite bytes_field_repr_chunks.
  unfold PERSISTENT_HASH_BYTES in Hl. rewrite <- (take_drop 31 h) at 1.
  rewrite chunks31_cons by (rewrite length_take; unfold FR_BYTES_STORED; lia).
  rewrite chunks31_last by (rewrite length_drop; unfold FR_BYTES_STORED; lia). done.
Qed.
Lemma short_bytes_wf `{FrBits} b : bytes_wf b -> (length b <= 31)%nat -> fr_wf (from_le_bytes b).
Proof.
  intros Hb Hl. pose proof (from_le_bytes_bound b Hb) as Hx. pose proof fr_bits. split; [lia|].
  assert (256 ^ Z.of_nat (length b) <= 256 ^ 31) by (apply Z.pow_le_mono_r; lia). change (256 ^ 31) with (2 ^ 248) in *. lia.
Qed.

(** The scalar field of BLS12-381, and a value for the witness. *)
Definition bls_order : FieldOrder :=
  {| fr_modulus := 52435875175126190479447740508185965837690552500527637822603658699938581184513 |}.
Lemma bls_order_laws : @FieldOrderLaws bls_order.
Proof. split; vm_compute; congruence. Qed.
Lemma bls_order_bits : @FrBits bls_order.
Proof. split. split; vm_compute; congruence. Qed.
Definition plain_hashing : Hashing := {| transient_hash := fun l => Z.of_nat (length l); persistent_hash := fun l => replicate 32 0 |}.
Definition sample_value : AlignedValue :=
  mkAlignedValue [[1]; [7]; [5; 0; 9]] [Option [[Atom (Bytes 40)]; [Atom Field]]; Atom (Bytes 33)].

#[local] Existing Instance bls_order.
#[local] Existing Instance bls_order_laws.
#[local] Existing Instance plain_hashing.
Lemma field_repr_roundtrip_witness : exists out av',
  value_only_field_repr sample_value = Ok out /\ length out = 5%nat /\
  parse_field_repr (av_alignment sample_value) out = Some av'.
Proof.
  destruct (field_repr_roundtrip sample_value) as (out & av' & bin & Hw & Hl & Hp & _);
    [vm_compute; reflexivity|repeat constructor; vm_compute; congruence|reflexivity|].
  exists out, av'. rewrite Hw, Hp. split; [reflexivity|]. split; [exact Hl|reflexivity].
Defined.

(** The value that comes back need not be aligned itself: byte strings are not
    brought to normal form. *)
Lemma parse_field_repr_not_aligned : exists av,
  parse_field_repr [Atom (Bytes 2)] [1] = Some av /\ fits (av_alignment av) (av_value av) = false.
Proof. exists (mkAlignedValue [[1; 0]] [Atom (Bytes 2)]). split; vm_compute; reflexivity. Qed.
