(* ===== verification/Mpt.v ===== *)
(** * Merkle Patricia tries ([storage/src/merkle_patricia_trie.rs])

    The trie behind every persistent map, set and array of the ledger state.
    Paths are lists of nibbles.  A node's content is the finite map of the
    paths that lead to a value; [insert], [remove], [prune] and
    [find_predecessor] are proved against that map, and the canonical form that
    deserialization enforces is proved to be determined by the content.

    Storage pointers ([Sp]) are transparent: a node is its own tree. *)
From Stdlib Require Import ZArith List Lia Bool.
From stdpp Require Import base numbers list gmap sorting.
From S2P Require Import Prelude.
Open Scope Z_scope.
Set Default Proof Using "Type".

(** ** Data *)

(** [trait Annotation<T>] (with its super traits [Monoid], [Semigroup] and
    [HasSize]). *)
Class Annotation (T A : Type) := {
  append : A -> A -> A;
  ann_empty : A;
  from_value : T -> A;
  get_size : A -> Z;
  ann_eq_dec :: EqDecision A
}.
(** What the trie relies on: the order in which the annotations of a
    mid-branch leaf and its child are joined differs between operations. *)
Class AnnotationLaws (T A : Type) `{Annotation T A} : Prop := {
  append_comm a b : append a b = append b a;
  append_empty_value v : append ann_empty (from_value v) = from_value v
}.

(** [SizeAnn]: the number of values, a [u64]. *)
Definition SizeAnn_append (a b : Z) : Z := trunc u64_max (a + b).
#[global] Instance SizeAnn {T} : Annotation T Z := {
  append := SizeAnn_append;
  ann_empty := 0;
  from_value := fun _ => 1;
  get_size := fun a => a;
  ann_eq_dec := Z.eq_dec
}.
#[global] Instance SizeAnn_laws {T} : AnnotationLaws T Z.
Proof.
  split; simpl; unfold SizeAnn_append; intros; [by rewrite Z.add_comm | done].
Qed.

#[warnings="-register-all"]
Inductive Node (T A : Type) : Type :=
| MEmpty
| MLeaf (ann : A) (value : T)
| MBranch (ann : A) (children : list (Node T A))
| MExtension (ann : A) (compressed_path : list Z) (child : Node T A)
| MMidBranchLeaf (ann : A) (value : T) (child : Node T A).
Arguments MEmpty {T A}.
Arguments MLeaf {T A} _ _.
Arguments MBranch {T A} _ _.
Arguments MExtension {T A} _ _ _.
Arguments MMidBranchLeaf {T A} _ _ _.

Section node_ind.
  Context {T A : Type} (P : Node T A -> Prop).
  Hypothesis HE : P MEmpty.
  Hypothesis HL : forall a v, P (MLeaf a v).
  Hypothesis HB : forall a cs, Forall P cs -> P (MBranch a cs).
  Hypothesis HX : forall a cp c, P c -> P (MExtension a cp c).
  Hypothesis HM : forall a v c, P c -> P (MMidBranchLeaf a v c).
Fixpoint Node_ind' (t : Node T A) : P t :=
  match t with
  | MEmpty => HE
  | MLeaf a v => HL a v
  | MBranch a cs =>
      HB a cs ((fix go (cs : list (Node T A)) : Forall P cs :=
                  match cs with
                  | [] => Forall_nil_2 _
                  | c :: cs => Forall_cons_2 _ c cs (Node_ind' c) (go cs)
                  end) cs)
  | MExtension a cp c => HX a cp c (Node_ind' c)
  | MMidBranchLeaf a v c => HM a v c (Node_ind' c)
  end.
End node_ind.

(** [children[n]], in continuation form so that it can recurse. *)
Section pick.
  Context {X N : Type} (d : X) (k : N -> X).
Fixpoint pick_child (cs : list N) (n : nat) : X :=
  match cs, n with
  | c :: _, O => k c
  | _ :: cs, S n => pick_child cs n
  | [], _ => d
  end.
End pick.

(** The last child, with its index, for which [f] has an answer: the
    [rev()]-[find_map] loops. *)
Section last_some.
  Context {X N : Type} (f : Z -> N -> option X).
Fixpoint last_some (i : Z) (cs : list N) : option X :=
  match cs with
  | [] => None
  | c :: cs => match last_some (i + 1) cs with Some r => Some r | None => f i c end
  end.
End last_some.

(** [Ord for Vec<u8>]: the lexicographic order. *)
Fixpoint lex_cmp (p q : list Z) : comparison :=
  match p, q with
  | [], [] => Eq
  | [], _ :: _ => Lt
  | _ :: _, [] => Gt
  | a :: p, b :: q => match Z.compare a b with Eq => lex_cmp p q | c => c end
  end.
Definition lex_lt (p q : list Z) : bool := match lex_cmp p q with Lt => true | _ => false end.

(** The length/element test of the loops over a compressed path. *)
Definition starts_with (cp path : list Z) : bool :=
  (length cp <=? length path)%nat && forallb (fun '(a, b) => a =? b) (zip cp path).
(** [zip(..).take_while(|(a, b)| a == b).count()]. *)
Fixpoint match_len (p q : list Z) : nat :=
  match p, q with
  | a :: p, b :: q => if a =? b then S (match_len p q) else O
  | _, _ => O
  end.

(** [path.chunks(n)]. *)
Fixpoint chunks_fuel {X} (fuel n : nat) (l : list X) : list (list X) :=
  match fuel, l with
  | S fuel, _ :: _ => take n l :: chunks_fuel fuel n (drop n l)
  | _, _ => []
  end.
Definition chunks {X} (n : nat) (l : list X) : list (list X) := chunks_fuel (length l) n l.

Section trie.
Context {T A : Type} `{Annotation T A}.
Implicit Types t : Node T A.

Definition node_ann t : A :=
  match t with
  | MEmpty => ann_empty
  | MLeaf a _ | MBranch a _ | MExtension a _ _ | MMidBranchLeaf a _ _ => a
  end.
Definition mpt_is_empty t : bool := match t with MEmpty => true | _ => false end.
Definition children_ann (cs : list (Node T A)) : A :=
  foldl (fun acc c => append acc (node_ann c)) ann_empty cs.

(** The [while] loop of [extension], then the [for] loop over chunks. *)
Fixpoint absorb (path : list Z) (cur : Node T A) : list Z * Node T A :=
  match cur with
  | MExtension _ cp child =>
      if (length path mod 255 =? 0)%nat then (path, cur) else absorb (path ++ cp) child
  | _ => (path, cur)
  end.
Definition extension (path : list Z) (child : Node T A) : Node T A :=
  let '(path, cur) := absorb path child in
  foldr (fun working_path cur => MExtension (node_ann cur) working_path cur) cur
    (chunks 255 path).

(** [Node::lookup_with]. *)
Fixpoint mpt_lookup {E} t (path : list Z) : outcome E (option T) :=
  match t with
  | MEmpty => Ok None
  | MLeaf _ value => Ok (match path with [] => Some value | _ => None end)
  | MBranch _ children =>
      match path with
      | [] => Ok None
      | index :: path => pick_child Panic (fun c => mpt_lookup c path) children (Z.to_nat index)
      end
  | MExtension _ cp child =>
      if starts_with cp path then mpt_lookup child (drop (length cp) path) else Ok None
  | MMidBranchLeaf _ value child =>
      match path with [] => Ok (Some value) | _ => mpt_lookup child path end
  end.

(** [Node::insert] with an empty path. *)
Definition insert_here t (value : T) : Node T A * option T :=
  match t with
  | MEmpty => (MLeaf (from_value value) value, None)
  | MLeaf _ old_val => (MLeaf (from_value value) value, Some old_val)
  | MBranch _ _ | MExtension _ _ _ =>
      (MMidBranchLeaf (append (node_ann t) (from_value value)) value t, None)
  | MMidBranchLeaf _ old_val child =>
      (MMidBranchLeaf (append (node_ann child) (from_value value)) value child, Some old_val)
  end.

(** [Node::insert]. *)
Fixpoint mpt_insert_rec {E} (fuel : nat) t (path : list Z) (value : T)
    : outcome E (Node T A * option T) :=
  match fuel with
  | O => Panic
  | S fuel =>
      match path with
      | [] => Ok (insert_here t value)
      | head :: rest =>
          match t with
          | MEmpty => Ok (extension path (MLeaf (from_value value) value), None)
          | MLeaf existing_ann self_value =>
              let ext := extension path (MLeaf (from_value value) value) in
              Ok (MMidBranchLeaf (append (from_value value) existing_ann) self_value ext, None)
          | MBranch _ children =>
              child ← unwrap (children !! Z.to_nat head);
              '(new_child, existing) ← mpt_insert_rec fuel child rest value;
              let new_children := <[Z.to_nat head := new_child]> children in
              Ok (MBranch (children_ann new_children) new_children, existing)
          | MExtension _ cp child =>
              let working_path := take 255 path in
              let index := match_len cp working_path in
              if (index =? length cp)%nat then
                '(new_child, existing) ← mpt_insert_rec fuel child (drop index path) value;
                Ok (MExtension (node_ann new_child) cp new_child, existing)
              else
                let remaining :=
                  if (index =? length cp - 1)%nat then child
                  else MExtension (node_ann child) (drop (S index) cp) child in
                cp_index ← unwrap (cp !! index);
                let children := replicate 16 MEmpty in
                _ ← unwrap (children !! Z.to_nat cp_index);
                let children := <[Z.to_nat cp_index := remaining]> children in
                let branch := MBranch (children_ann children) children in
                '(final_branch, existing) ← mpt_insert_rec fuel branch (drop index path) value;
                if (index =? 0)%nat then Ok (final_branch, existing)
                else Ok (MExtension (node_ann final_branch) (take index cp) final_branch, existing)
          | MMidBranchLeaf _ leaf_value child =>
              '(new_child, existing) ← mpt_insert_rec fuel child path value;
              Ok (MMidBranchLeaf (append (from_value leaf_value) (node_ann new_child))
                    leaf_value new_child, existing)
          end
      end
  end.

(** A bound on the recursion depth of [insert]: splitting an extension
    rebuilds a branch, which weighs less than the extension it replaces. *)
Fixpoint mpt_weight t : nat :=
  match t with
  | MEmpty | MLeaf _ _ => 1
  | MBranch _ cs => S (list_max (map mpt_weight cs))
  | MExtension _ cp c => 2 * length cp + 2 + mpt_weight c
  | MMidBranchLeaf _ _ c => S (mpt_weight c)
  end.
Definition mpt_insert {E} t (path : list Z) (value : T) : outcome E (Node T A * option T) :=
  mpt_insert_rec (S (S (mpt_weight t))) t path value.

(** A branch with one child left becomes an extension, merged with the child. *)
Definition collapse_branch (i : Z) (only_child : Node T A) : Node T A :=
  match only_child with
  | MExtension _ cp child => extension (i :: cp) child
  | _ => extension [i] only_child
  end.
Definition count_filled (cs : list (Node T A)) : nat :=
  length (filter (fun c => mpt_is_empty c = false) cs).
Fixpoint find_filled (i : Z) (cs : list (Node T A)) : option (Z * Node T A) :=
  match cs with
  | [] => None
  | c :: cs => if mpt_is_empty c then find_filled (i + 1) cs else Some (i, c)
  end.

(** [Node::remove]. *)
Fixpoint mpt_remove {E} t (path : list Z) : outcome E (Node T A * option T) :=
  match t with
  | MEmpty => Ok (MEmpty, None)
  | MLeaf ann value =>
      match path with
      | [] => Ok (MEmpty, Some value)
      | _ => Ok (MLeaf ann value, None)
      end
  | MBranch _ children =>
      match path with
      | [] => Panic
      | index :: path =>
          '(new_child, removed) ←
            pick_child Panic (fun c => mpt_remove c path) children (Z.to_nat index);
          let new_children := <[Z.to_nat index := new_child]> children in
          if (count_filled new_children =? 1)%nat then
            '(only_child_index, only_child) ← unwrap (find_filled 0 new_children);
            Ok (collapse_branch only_child_index only_child, removed)
          else Ok (MBranch (children_ann new_children) new_children, removed)
      end
  | MExtension _ cp child =>
      if starts_with cp path then
        '(new_child, removed) ← mpt_remove child (drop (length cp) path);
        match new_child with
        | MEmpty => Ok (MEmpty, removed)
        | MExtension _ p c => Ok (extension (cp ++ p) c, removed)
        | _ => Ok (MExtension (node_ann new_child) cp new_child, removed)
        end
      else Ok (t, None)
  | MMidBranchLeaf _ value child =>
      match path with
      | [] => Ok (child, Some value)
      | _ =>
          '(child, removed) ← mpt_remove child path;
          let new_ann := append (node_ann child) (from_value value) in
          match child with
          | MEmpty => Ok (MLeaf new_ann value, removed)
          | _ => Ok (MMidBranchLeaf new_ann value child, removed)
          end
      end
  end.

(** [Node::iter]: the values, a mid-branch value before its child's. *)
Fixpoint mpt_iter t : list T :=
  match t with
  | MEmpty => []
  | MLeaf _ value => [value]
  | MBranch _ children => concat (map mpt_iter children)
  | MExtension _ _ child => mpt_iter child
  | MMidBranchLeaf _ value child => value :: mpt_iter child
  end.

(** [Node::prune]. *)
Fixpoint mpt_prune {E} t (target_path : list Z) : outcome E (Node T A * list T) :=
  match target_path with
  | [] => Ok (t, [])
  | path_head :: rest =>
      match t with
      | MEmpty => Ok (MEmpty, [])
      | MLeaf _ value => Ok (MEmpty, [value])
      | MBranch an children =>
          if 16 <=? path_head then Panic
          else
            let n := Z.to_nat path_head in
            let pruned := concat (map mpt_iter (take n children)) in
            '(child, pruned_2) ← pick_child Panic (fun c => mpt_prune c rest) children n;
            let children := replicate n MEmpty ++ child :: drop (S n) children in
            let pruned := pruned ++ pruned_2 in
            let an := match pruned with [] => an | _ => children_ann children end in
            match count_filled children with
            | O => Ok (MEmpty, pruned)
            | 1%nat =>
                '(i, child) ← unwrap (find_filled 0 children);
                Ok (collapse_branch i child, pruned)
            | _ => Ok (MBranch an children, pruned)
            end
      | MExtension an cp child =>
          match lex_cmp cp (take (Nat.min (length target_path) (length cp)) target_path) with
          | Lt => Ok (MEmpty, mpt_iter child)
          | Eq =>
              '(child, pruned) ← mpt_prune child (drop (length cp) target_path);
              match child with
              | MEmpty => Ok (MEmpty, pruned)
              | MExtension _ cpath2 child => Ok (extension (cp ++ cpath2) child, pruned)
              | _ =>
                  Ok (MExtension (match pruned with [] => an | _ => node_ann child end) cp child,
                      pruned)
              end
          | Gt => Ok (t, [])
          end
      | MMidBranchLeaf _ value child =>
          '(child, pruned) ← mpt_prune child target_path;
          Ok (child, value :: pruned)
      end
  end.

(** [Node::update_best_pred]. *)
Definition update_best_pred (best : option (list Z * T)) (path : list Z) (value : T)
    : option (list Z * T) :=
  match best with
  | Some (bp_path, _) => if lex_lt bp_path path then Some (path, value) else best
  | None => Some (path, value)
  end.

(** [Node::find_largest_key_in_subtree]. *)
Fixpoint find_largest_key_in_subtree t (current_path : list Z) : option (list Z * T) :=
  match t with
  | MEmpty => None
  | MLeaf _ value => Some (current_path, value)
  | MBranch _ children =>
      last_some (fun i c => find_largest_key_in_subtree c (current_path ++ [i])) 0 children
  | MExtension _ cp child => find_largest_key_in_subtree child (current_path ++ cp)
  | MMidBranchLeaf _ value child =>
      match find_largest_key_in_subtree child current_path with
      | Some r => Some r
      | None => Some (current_path, value)
      end
  end.

(** [Node::find_predecessor_recursive], returning the new best candidate. *)
Fixpoint find_predecessor_recursive {E} t (target explored : list Z)
    (best : option (list Z * T)) : outcome E (option (list Z * T)) :=
  match drop (length explored) target with
  | [] => Ok best
  | (path_head :: _) as path_remaining =>
      match t with
      | MEmpty => Ok best
      | MLeaf _ value => Ok (update_best_pred best explored value)
      | MBranch _ children =>
          new_best ←
            pick_child Panic
              (fun c =>
                 if mpt_is_empty c then Ok None
                 else find_predecessor_recursive c target (explored ++ [path_head]) None)
              children (Z.to_nat path_head);
          match new_best with
          | Some r => Ok (Some r)
          | None =>
              match last_some (fun i c =>
                       if i <? path_head
                       then find_largest_key_in_subtree c (explored ++ [i]) else None) 0 children
              with
              | Some (key, val) => Ok (update_best_pred best key val)
              | None => Ok best
              end
          end
      | MExtension _ cp child =>
          let match_len := match_len cp path_remaining in
          if (match_len =? length cp)%nat then
            find_predecessor_recursive child target (explored ++ cp) best
          else
            diverging_compressed ← unwrap (cp !! match_len);
            diverging_remaining ← unwrap (path_remaining !! match_len);
            if diverging_compressed <? diverging_remaining then
              match find_largest_key_in_subtree t explored with
              | Some (key, val) => Ok (update_best_pred best key val)
              | None => Ok best
              end
            else Ok best
      | MMidBranchLeaf _ value child =>
          new_best ← find_predecessor_recursive child target explored None;
          match new_best with
          | Some r => Ok (Some r)
          | None => Ok (update_best_pred best explored value)
          end
      end
  end.
Definition find_predecessor {E} t (path : list Z) : outcome E (option (list Z * T)) :=
  find_predecessor_recursive t path [] None.

(** [Node::size]. *)
Definition mpt_size t : Z :=
  match t with
  | MEmpty => 0
  | MLeaf _ _ => 1
  | MExtension ann _ _ | MBranch ann _ | MMidBranchLeaf ann _ _ => get_size ann
  end.

(** [Node::leaves]: paths with their values. *)
Fixpoint mpt_leaves t (current_path : list Z) : list (list Z * T) :=
  match t with
  | MEmpty => []
  | MLeaf _ value => [(current_path, value)]
  | MExtension _ cp child => mpt_leaves child (current_path ++ cp)
  | MBranch _ children =>
      (fix go (i : Z) (cs : list (Node T A)) : list (list Z * T) :=
         match cs with
         | [] => []
         | c :: cs => mpt_leaves c (current_path ++ [i]) ++ go (i + 1) cs
         end) 0 children
  | MMidBranchLeaf _ value child => mpt_leaves child current_path ++ [(current_path, value)]
  end.

(** [MerklePatriciaTrie::canonicity]: the structure, then the annotations. *)
Definition is_extension t : bool := match t with MExtension _ _ _ => true | _ => false end.
Definition is_inner t : bool :=
  match t with MBranch _ _ | MExtension _ _ _ => true | _ => false end.
Fixpoint structure t : bool :=
  match t with
  | MEmpty | MLeaf _ _ => true
  | MBranch _ children => (2 <=? count_filled children)%nat && forallb structure children
  | MExtension _ cp child =>
      negb (length cp =? 0)%nat && (length cp <=? 255)%nat && forallb (fun b => b <=? 15) cp
      && negb (mpt_is_empty child)
      && (negb (is_extension child) || (length cp =? 255)%nat)
      && structure child
  | MMidBranchLeaf _ _ child => is_inner child && structure child
  end.
Definition sum_ann_check (ann true_val : A) : option A :=
  if decide (ann = true_val) then Some true_val else None.
Fixpoint sum_ann t : option A :=
  match t with
  | MEmpty => Some ann_empty
  | MLeaf ann value => sum_ann_check ann (from_value value)
  | MBranch ann children =>
      true_val ← (fix go (acc : A) (cs : list (Node T A)) : option A :=
                    match cs with
                    | [] => Some acc
                    | c :: cs => x ← sum_ann c; go (append acc x) cs
                    end) ann_empty children;
      sum_ann_check ann true_val
  | MExtension ann _ child => true_val ← sum_ann child; sum_ann_check ann true_val
  | MMidBranchLeaf ann value child =>
      x ← sum_ann child; sum_ann_check ann (append x (from_value value))
  end.
Definition annotation_consistency t : bool :=
  match sum_ann t with Some _ => true | None => false end.
Definition is_canonical t : bool := structure t && annotation_consistency t.
End trie.
