(* ===== verification/MptSpec.v ===== *)
(** * Content and canonical form of Merkle Patricia tries

    [mpt_get] is the abstract content of a node.  [insert] and [remove] are
    point-wise changes of it ([insert_rec_spec], [remove_spec]); [canon] is the
    canonical form that [MerklePatriciaTrie::canonicity] checks
    ([canon_reflect]), kept by the operations ([insert_canon], [remove_spec])
    and determined by the content ([canon_unique]). *)
From Stdlib Require Import ZArith List Lia Bool.
From stdpp Require Import base numbers list gmap.
From S2P Require Import Prelude Mpt.
Open Scope Z_scope.
Set Default Proof Using "Type".

(** ** Content of a trie *)
Definition nibble (n : Z) : Prop := 0 <= n < 16.
Definition nibbles (p : list Z) : Prop := Forall nibble p.

(** [f] shifted below the prefix [cp]. *)
Definition under {X} (cp : list Z) (f : list Z -> option X) (q : list Z) : option X :=
  if starts_with cp q then f (drop (length cp) q) else None.

Section content.
Context {T A : Type}.
Implicit Types t : Node T A.

Fixpoint mpt_get t (p : list Z) : option T :=
  match t with
  | MEmpty => None
  | MLeaf _ v => match p with [] => Some v | _ => None end
  | MBranch _ cs =>
      match p with [] => None | n :: p => pick_child None (fun c => mpt_get c p) cs (Z.to_nat n) end
  | MExtension _ cp c => under cp (mpt_get c) p
  | MMidBranchLeaf _ v c => match p with [] => Some v | _ => mpt_get c p end
  end.

(** Branches are 16-element arrays and extension paths are non-empty and consist
    of nibbles. *)
Fixpoint node_ok t : Prop :=
  match t with
  | MEmpty | MLeaf _ _ => True
  | MBranch _ cs =>
      length cs = 16%nat /\
      (fix go (cs : list (Node T A)) : Prop :=
         match cs with [] => True | c :: cs => node_ok c /\ go cs end) cs
  | MExtension _ cp c => cp <> [] /\ nibbles cp /\ node_ok c
  | MMidBranchLeaf _ _ c => node_ok c
  end.
Lemma node_ok_branch a cs :
  node_ok (MBranch a cs) <-> length cs = 16%nat /\ Forall node_ok cs.
Proof.
  simpl. split; intros [Hl Hr]; (split; [done|]); clear Hl.
  - induction cs as [|c cs IH]; [done|]. destruct Hr. by constructor; auto.
  - by induction Hr.
Qed.
Lemma pick_child_lookup {X N} (d : X) (k : N -> X) cs n :
  pick_child d k cs n = match cs !! n with Some c => k c | None => d end.
Proof. revert n; induction cs as [|c cs IH]; intros [|n]; simpl; auto. Qed.
End content.
Arguments node_ok {T A} !_ /.

#[local] Arguments Nat.modulo : simpl never.

Lemma starts_with_spec cp q : starts_with cp q = true <-> exists r, q = cp ++ r.
Proof.
  unfold starts_with. revert q. induction cp as [|a cp IH]; intros q; simpl.
  { split; [by exists q | done]. }
  destruct q as [|b q]; simpl.
  - split; [done | by intros [r Hr]].
  - specialize (IH q). rewrite andb_true_iff in IH. rewrite !andb_true_iff, Z.eqb_eq.
    split.
    + intros (? & -> & ?). destruct IH as [[r ->] _]; [done|]. by exists r.
    + intros [r [= -> ->]]. destruct IH as [_ [? ?]]; [by exists r|]. done.
Qed.
Lemma starts_with_app cp r : starts_with cp (cp ++ r) = true.
Proof. apply starts_with_spec. by exists r. Qed.
Lemma nibbles_app p q : nibbles (p ++ q) <-> nibbles p /\ nibbles q.
Proof. apply Forall_app. Qed.

Lemma under_spec {X} cp (f : list Z -> option X) q x :
  under cp f q = Some x <-> exists r, q = cp ++ r /\ f r = Some x.
Proof.
  unfold under. destruct (starts_with cp q) eqn:Hs.
  - apply starts_with_spec in Hs as [r ->]. rewrite drop_app_length.
    split; [intros Hf; by exists r | intros (r' & Hr & Hf); by simplify_list_eq].
  - split; [done|]. intros (r & -> & _). by rewrite starts_with_app in Hs.
Qed.
Lemma under_app_r {X} cp (f : list Z -> option X) r : under cp f (cp ++ r) = f r.
Proof. unfold under. by rewrite starts_with_app, drop_app_length. Qed.
Lemma under_nil {X} (f : list Z -> option X) q : under [] f q = f q.
Proof. done. Qed.
Lemma under_under {X} c1 c2 (f : list Z -> option X) q :
  under (c1 ++ c2) f q = under c1 (under c2 f) q.
Proof.
  apply option_eq. intros x. rewrite !under_spec. setoid_rewrite under_spec. split.
  - intros (r & -> & Hf). exists (c2 ++ r). rewrite app_assoc. eauto.
  - intros (r & -> & r' & -> & Hf). exists r'. by rewrite app_assoc.
Qed.
Lemma under_cons {X} a cp (f : list Z -> option X) m q :
  under (a :: cp) f (m :: q) = if a =? m then under cp f q else None.
Proof.
  unfold under, starts_with. simpl. destruct (a =? m); simpl; [done|]. by rewrite andb_false_r.
Qed.
Lemma under_ext {X} cp (f g : list Z -> option X) q :
  nibbles q -> (forall r, nibbles r -> f r = g r) -> under cp f q = under cp g q.
Proof.
  intros Hq Hfg. unfold under. destruct (starts_with cp q); [|done].
  apply Hfg, Forall_drop, Hq.
Qed.
(** A point-wise change below a prefix is a point-wise change. *)
Lemma under_change {X} cp (f g : list Z -> option X) p x q :
  nibbles q -> (forall r, nibbles r -> g r = if decide (r = p) then x else f r) ->
  under cp g q = if decide (q = cp ++ p) then x else under cp f q.
Proof.
  intros Hq Hg. unfold under. destruct (starts_with cp q) eqn:Hs.
  - apply starts_with_spec in Hs as [r ->]. apply nibbles_app in Hq as [_ Hr].
    rewrite drop_app_length, Hg by done.
    destruct (decide (r = p)), (decide (cp ++ r = cp ++ p)); by simplify_list_eq.
  - destruct (decide (q = cp ++ p)) as [->|]; [|done]. by rewrite starts_with_app in Hs.
Qed.
Lemma under_none {X} cp (f : list Z -> option X) q :
  (forall r, f r = None) -> under cp f q = None.
Proof. intros Hf. unfold under. by destruct (starts_with cp q). Qed.

Lemma match_len_split p q :
  exists c p' q', p = c ++ p' /\ q = c ++ q' /\ match_len p q = length c /\
    match p', q' with a :: _, b :: _ => a <> b | _, _ => True end.
Proof.
  revert q. induction p as [|a p IH]; intros q.
  { by exists [], [], q. }
  destruct q as [|b q]; [by exists [], (a :: p), []|]. simpl.
  destruct (Z.eqb_spec a b) as [->|Hne].
  - destruct (IH q) as (c & p' & q' & -> & -> & -> & Hd). by exists (b :: c), p', q'.
  - by exists [], (a :: p), (b :: q).
Qed.
Lemma chunks_concat {X} n (l : list X) : (0 < n)%nat -> concat (chunks n l) = l.
Proof.
  intros Hn. unfold chunks. assert (Hf : (length l <= length l)%nat) by done. revert Hf.
  generalize (length l) at 2 3 as f. intros f. revert l.
  induction f as [|f IH]; intros [|x l] Hl; simpl in *; try lia; [done..|].
  rewrite IH; [by rewrite take_drop|]. rewrite length_drop. simpl. lia.
Qed.

Lemma chunks_nonempty {X} n (l : list X) : (0 < n)%nat -> Forall (fun c => c <> []) (chunks n l).
Proof.
  intros Hn. unfold chunks. generalize (length l) as f. intros f. revert l.
  induction f as [|f IH]; intros [|x l]; simpl; constructor; [|apply IH].
  by destruct n; [lia|].
Qed.

Section ops.
Context {T A : Type} `{Annotation T A}.
Implicit Types (t c d : Node T A) (cs ds : list (Node T A)).

Lemma mpt_lookup_get {E} t p :
  node_ok t -> nibbles p -> mpt_lookup (E := E) t p = Ok (mpt_get t p).
Proof.
  revert p. induction t as [|a v|a cs IH|a cp c IH|a v c IH] using Node_ind'; intros p Ht Hp; simpl.
  - done.
  - done.
  - apply node_ok_branch in Ht as [Hl Hcs]. destruct p as [|n p]; [done|].
    apply Forall_cons_1 in Hp as [Hn Hp]. rewrite !pick_child_lookup.
    destruct (lookup_lt_is_Some_2 cs (Z.to_nat n)) as [c Hc]; [unfold nibble in Hn; lia|].
    rewrite Hc. apply (Forall_lookup_1 _ _ _ _ IH Hc); [|done].
    apply (Forall_lookup_1 _ _ _ _ Hcs Hc).
  - destruct Ht as (_ & Hcp & Hc). unfold under. destruct (starts_with cp p); [|done].
    apply IH; [done|]. by apply Forall_drop.
  - destruct p; auto.
Qed.

Lemma get_foldr_chunks (ws : list (list Z)) (cur : Node T A) q :
  mpt_get (foldr (fun wp cur => MExtension (node_ann cur) wp cur) cur ws) q
  = under (concat ws) (mpt_get cur) q.
Proof.
  revert q. induction ws as [|cp ws IH]; intros q; simpl; [by rewrite under_nil|].
  rewrite under_under. unfold under at 1 2. destruct (starts_with cp q); [|done]. apply IH.
Qed.
Lemma get_absorb path (cur : Node T A) q :
  let '(path', cur') := absorb path cur in
  under path' (mpt_get cur') q = under path (mpt_get cur) q.
Proof.
  revert path. induction cur as [|a v|a cs IH|a cp c IH|a v c IH] using Node_ind';
    intros path; simpl; try done.
  destruct (length path mod 255 =? 0)%nat; [done|]. specialize (IH (path ++ cp)).
  destruct (absorb (path ++ cp) c). by rewrite IH, under_under.
Qed.
Lemma get_extension path (c : Node T A) q : mpt_get (extension path c) q = under path (mpt_get c) q.
Proof.
  unfold extension. pose proof (get_absorb path c q) as Ha. destruct (absorb path c) as [p' c'].
  by rewrite get_foldr_chunks, chunks_concat by lia.
Qed.
Lemma absorb_ok path (cur : Node T A) :
  nibbles path -> node_ok cur ->
  nibbles (absorb path cur).1 /\ node_ok (absorb path cur).2.
Proof.
  revert path. induction cur as [|a v|a cs IH|a cp c IH|a v c IH] using Node_ind';
    intros path Hp Hc; simpl; try done.
  destruct (length path mod 255 =? 0)%nat; [done|]. destruct Hc as (? & ? & ?).
  apply IH; [|done]. by apply nibbles_app.
Qed.
Lemma extension_ok path (c : Node T A) : nibbles path -> node_ok c -> node_ok (extension path c).
Proof.
  intros Hp Hc. unfold extension. destruct (absorb_ok path c Hp Hc) as [Hp' Hc'].
  destruct (absorb path c) as [p' c']. simpl in *.
  rewrite <- (chunks_concat 255 p') in Hp' by lia.
  pose proof (chunks_nonempty 255 p' ltac:(lia)) as Hne.
  induction (chunks 255 p') as [|w ws IH]; simpl in *; [done|].
  apply nibbles_app in Hp' as [??]. apply Forall_cons_1 in Hne as [??].
  split_and!; [done..|]. by apply IH.
Qed.



(** ** [insert] *)
Lemma mpt_weight_pos t : (1 <= mpt_weight t)%nat.
Proof. destruct t; simpl; lia. Qed.
Lemma weight_child (a : A) cs i (c : Node T A) :
  cs !! i = Some c -> (mpt_weight c < mpt_weight (MBranch a cs))%nat.
Proof.
  intros Hc. simpl. assert (Hle : (mpt_weight c <= list_max (map mpt_weight cs))%nat); [|lia].
  pose proof (proj1 (list_max_le (map mpt_weight cs) _) (Nat.le_refl _)) as Hall.
  rewrite Forall_lookup in Hall. apply (Hall i). by rewrite list_lookup_fmap, Hc.
Qed.
Lemma node_ok_insert (a : A) cs i (c : Node T A) :
  node_ok (MBranch a cs) -> node_ok c -> node_ok (MBranch a (<[i := c]> cs)).
Proof.
  rewrite !node_ok_branch, length_insert. intros [Hl Hf] Hc. split; [done|].
  by apply Forall_insert.
Qed.
(** Replacing one child of a branch changes the content below that nibble. *)
Lemma get_branch_insert (a a' : A) (cs : list (Node T A)) n c x p q :
  length cs = 16%nat -> nibble n -> nibbles q ->
  (forall r, nibbles r -> mpt_get c r = if decide (r = p) then x
     else match cs !! Z.to_nat n with Some c0 => mpt_get c0 r | None => None end) ->
  mpt_get (MBranch a (<[Z.to_nat n := c]> cs)) q
  = if decide (q = n :: p) then x else mpt_get (MBranch a' cs) q.
Proof.
  intros Hl Hn Hq Hc. destruct q as [|m q]; simpl; [done|].
  apply Forall_cons_1 in Hq as [Hm Hq]. rewrite !pick_child_lookup. unfold nibble in *.
  destruct (decide (m = n)) as [->|Hne].
  - rewrite list_lookup_insert_eq by lia. rewrite Hc by done.
    destruct (decide (q = p)), (decide (n :: q = n :: p)); by simplify_eq.
  - rewrite list_lookup_insert_ne by lia.
    by destruct (decide (m :: q = n :: p)); simplify_eq.
Qed.
#[local] Opaque extension.

(** What [insert] promises: the old value, and a point-wise change. *)
Definition inserts t (p : list Z) (v : T) (r : Node T A * option T) : Prop :=
  node_ok r.1 /\ r.2 = mpt_get t p /\
  forall q, nibbles q -> mpt_get r.1 q = if decide (q = p) then Some v else mpt_get t q.

Lemma insert_here_spec t v : node_ok t -> inserts t [] v (insert_here t v).
Proof.
  intros Ht. unfold inserts. destruct t as [|a w|a cs|a cp c|a w c]; cbn [insert_here fst snd];
    (split; [done|]); (split; [try done|by intros [|]]).
  by destruct Ht as [Hne _], cp.
Qed.
(** A fresh leaf below a path. *)
Lemma get_fresh path v q :
  mpt_get (extension path (MLeaf (from_value v) v)) q
  = if decide (q = path) then Some v else None.
Proof.
  rewrite get_extension. apply option_eq. intros x. rewrite under_spec. simpl. split.
  - intros ([|] & -> & Hx); [|done]. rewrite app_nil_r. by rewrite decide_True.
  - destruct (decide (q = path)) as [->|]; [|done]. intros Hx. exists []. by rewrite app_nil_r.
Qed.
(** The branch [insert] builds when a path leaves an extension has the content
    of the extension's rest. *)
Lemma split_branch a0 a1 cp a cp' c (remaining : Node T A) :
  node_ok (MExtension a0 cp c) -> cp = a :: cp' ->
  remaining = (if (length cp' =? 0)%nat then c else MExtension a1 cp' c) ->
  let branch := MBranch (children_ann (<[Z.to_nat a := remaining]> (replicate 16 MEmpty)))
                  (<[Z.to_nat a := remaining]> (replicate 16 MEmpty)) in
  node_ok branch /\ (mpt_weight branch < mpt_weight (MExtension a0 cp c))%nat /\
  forall q, nibbles q -> mpt_get branch q = mpt_get (MExtension a0 cp c) q.
Proof.
  intros (_ & Hn & Hc) -> Hr branch. apply Forall_cons_1 in Hn as [Ha Hn].
  assert (Hrem : node_ok remaining /\ (mpt_weight remaining <= 2 * length cp' + 2 + mpt_weight c)%nat
                 /\ forall r, mpt_get remaining r = under cp' (mpt_get c) r).
  { subst remaining. destruct cp' as [|b cp']; simpl.
    - split_and!; [done|lia|]. intros r. by rewrite under_nil.
    - split; [done|]. split; [lia|done]. }
  destruct Hrem as (Hok & Hw & Hg). split_and!.
  - unfold branch. apply (node_ok_insert _ (replicate 16 MEmpty)); [|done].
    apply node_ok_branch. split; [done|]. by apply Forall_replicate.
  - assert (Hm : (list_max (map mpt_weight (<[Z.to_nat a := remaining]> (replicate 16 MEmpty)))
              <= 2 * length cp' + 2 + mpt_weight c)%nat); [|simpl in *; lia].
    apply list_max_le. apply Forall_map. apply Forall_insert; [|done].
    apply Forall_replicate. simpl. pose proof (mpt_weight_pos c). lia.
  - intros q Hq. unfold branch. destruct q as [|m q]; [done|].
    apply Forall_cons_1 in Hq as [Hm Hq]. unfold nibble in *.
    cbn [mpt_get]. rewrite under_cons, pick_child_lookup.
    destruct (Z.eqb_spec a m) as [->|Hne].
    + rewrite list_lookup_insert_eq by (rewrite length_replicate; lia). apply Hg.
    + rewrite list_lookup_insert_ne by lia. rewrite lookup_replicate_2 by lia. done.
Qed.
(** The extension case, given the recursive calls. *)
Lemma insert_extension {E} fuel a cp c n p v :
  (forall t p, node_ok t -> nibbles p -> (mpt_weight t < fuel)%nat ->
     exists r, mpt_insert_rec (E := E) fuel t p v = Ok r /\ inserts t p v r) ->
  node_ok (MExtension a cp c) -> nibbles (n :: p) ->
  (mpt_weight (MExtension a cp c) < S fuel)%nat ->
  exists r, mpt_insert_rec (E := E) (S fuel) (MExtension a cp c) (n :: p) v = Ok r /\
    inserts (MExtension a cp c) (n :: p) v r.
Proof.
  intros IH (Hne & Hcp & Hc) Hp Hf. cbn [mpt_insert_rec].
  set (path := n :: p) in *. clearbody path.
  destruct (match_len_split cp (take 255 path)) as (c0 & cp' & w' & Hcp0 & Hw & Hlen & _).
  assert (Hpath : path = c0 ++ (w' ++ drop 255 path)) by (by rewrite app_assoc, <- Hw, take_drop).
  set (p' := w' ++ drop 255 path) in *. clearbody p'. rewrite Hlen. clear Hlen Hw. subst path.
  apply nibbles_app in Hp as [_ Hp]. rewrite drop_app_length.
  subst cp. apply nibbles_app in Hcp as [Hc0 Hcp]. destruct cp' as [|b cp'].
  - rewrite app_nil_r in *. rewrite Nat.eqb_refl.
    destruct (IH c p') as ([c' old] & -> & Hok & Hold & Hg); [done..|simpl in Hf; lia|].
    simpl in Hok, Hold, Hg. eexists. split; [reflexivity|]. split_and!; [done|..].
    + simpl. by rewrite under_app_r.
    + intros q Hq. simpl. by apply under_change.
  - rewrite length_app. simpl length. rewrite (proj2 (Nat.eqb_neq _ _)) by lia.
    rewrite list_lookup_middle by done. cbn [unwrap mbind outcome_bind].
    pose proof Hcp as [Hb _]%Forall_cons_1. unfold nibble in Hb.
    rewrite lookup_replicate_2 by lia. cbn [unwrap mbind outcome_bind].
    replace (length c0 =? length c0 + S (length cp') - 1)%nat with (length cp' =? 0)%nat
      by (apply eq_true_iff_eq; rewrite !Nat.eqb_eq; lia).
    replace (drop (S (length c0)) (c0 ++ b :: cp')) with cp'
      by (rewrite drop_app_ge by lia; by replace (S (length c0) - length c0)%nat with 1%nat by lia).
    rewrite take_app_length.
    destruct (split_branch a (node_ann c) (b :: cp') b cp' c _ ltac:(done) eq_refl eq_refl)
      as (Hbok & Hbw & Hbg).
    destruct (IH _ p' Hbok Hp) as ([fb old] & Hi & Hok & Hold & Hg).
    { simpl in *. rewrite length_app in Hf. simpl in Hf. lia. }
    rewrite Hi. cbn [fst snd] in Hok, Hold, Hg. cbn [mbind outcome_bind].
    assert (Hall : forall q, nibbles q -> under c0 (mpt_get fb) q
              = if decide (q = c0 ++ p') then Some v else under (c0 ++ b :: cp') (mpt_get c) q).
    { intros q Hq. rewrite (under_change _ _ _ _ _ _ Hq Hg), under_under.
      by rewrite (under_ext c0 _ _ q Hq Hbg). }
    assert (Hold' : old = under (c0 ++ b :: cp') (mpt_get c) (c0 ++ p'))
      by (by rewrite under_under, under_app_r, Hold; apply Hbg).
    destruct c0 as [|x c0]; simpl (_ =? _)%nat; eexists; (split; [reflexivity|]);
      (split_and!; [done..|]); done.
Qed.
Lemma insert_rec_spec {E} fuel t p v :
  node_ok t -> nibbles p -> (mpt_weight t < fuel)%nat ->
  exists r, mpt_insert_rec (E := E) fuel t p v = Ok r /\ inserts t p v r.
Proof.
  revert t p. induction fuel as [|fuel IH]; intros t p Ht Hp Hf; [lia|].
  destruct p as [|n p].
  { eexists. split; [reflexivity|]. by apply insert_here_spec. }
  pose proof Hp as [Hn Hp']%Forall_cons_1. unfold nibble in Hn.
  destruct t as [|a w|a cs|a cp c|a w c]; cbn [mpt_insert_rec].
  - eexists. split; [reflexivity|]. split_and!; [by apply extension_ok|done|].
    intros q _. apply get_fresh.
  - eexists. split; [reflexivity|]. split_and!; [exact (extension_ok (n :: p) (MLeaf (from_value v) v) Hp I)|done|].
    intros [|m q] Hq; simpl; [done|]. apply get_fresh.
  - pose proof (proj1 (node_ok_branch _ _) Ht) as [Hl Hcs].
    destruct (lookup_lt_is_Some_2 cs (Z.to_nat n)) as [c Hc]; [lia|].
    rewrite Hc. cbn [unwrap mbind outcome_bind].
    destruct (IH c p) as ([c' old] & Hi & Hok & Hold & Hg);
      [by apply (Forall_lookup_1 _ _ _ _ Hcs Hc)|done|pose proof (weight_child a cs _ c Hc); lia|].
    rewrite Hi. cbn [mbind outcome_bind]. eexists. split; [reflexivity|]. simpl in Hok, Hold, Hg.
    split_and!.
    + apply (node_ok_insert _ cs); [|done]. by apply node_ok_branch.
    + simpl. by rewrite pick_child_lookup, Hc.
    + intros q Hq. simpl fst. apply get_branch_insert; [done..|]. by rewrite Hc.
  - by apply insert_extension.
  - destruct (IH c (n :: p)) as ([c' old] & Hi & Hok & Hold & Hg); [done..|simpl in Hf; lia|].
    rewrite Hi. cbn [mbind outcome_bind]. eexists. split; [reflexivity|]. split_and!; [done..|].
    intros [|m q] Hq; simpl; [done|]. by apply Hg.
Qed.

(** ** Canonical form *)
Fixpoint canon t : Prop :=
  match t with
  | MEmpty => True
  | MLeaf a v => a = from_value v
  | MBranch a cs =>
      length cs = 16%nat /\ (2 <= count_filled cs)%nat /\ a = children_ann cs /\
      (fix go (cs : list (Node T A)) : Prop :=
         match cs with [] => True | c :: cs => canon c /\ go cs end) cs
  | MExtension a cp c =>
      cp <> [] /\ (length cp <= 255)%nat /\ nibbles cp /\ c <> MEmpty /\
      (is_extension c = true -> length cp = 255%nat) /\ a = node_ann c /\ canon c
  | MMidBranchLeaf a v c => is_inner c = true /\ a = append (node_ann c) (from_value v) /\ canon c
  end.
Lemma canon_branch a cs :
  canon (MBranch a cs) <->
  length cs = 16%nat /\ (2 <= count_filled cs)%nat /\ a = children_ann cs /\ Forall canon cs.
Proof.
  simpl. split; intros (Hl & Hn & Ha & Hr); (split_and!; [done..|]); clear Hl Hn Ha.
  - induction cs as [|c cs IH]; [done|]. destruct Hr. by constructor; auto.
  - by induction Hr.
Qed.
Lemma canon_ok t : canon t -> node_ok t.
Proof.
  induction t as [|a v|a cs IH|a cp c IH|a v c IH] using Node_ind'; try done.
  - rewrite canon_branch, node_ok_branch. intros (Hl & _ & _ & Hcs). split; [done|].
    rewrite Forall_forall in *. auto.
  - intros (? & ? & ? & ? & ? & ? & ?). split_and!; auto.
  - intros (? & ? & ?). by apply IH.
Qed.

(** *** Counting the filled children *)
Definition filled t : nat := if mpt_is_empty t then 0 else 1.
Lemma count_filled_cons c cs : count_filled (c :: cs) = (filled c + count_filled cs)%nat.
Proof. unfold count_filled, filled. rewrite filter_cons. by destruct c. Qed.
Lemma count_filled_app cs ds : count_filled (cs ++ ds) = (count_filled cs + count_filled ds)%nat.
Proof.
  induction cs as [|c cs IH]; [done|]. simpl app. rewrite !count_filled_cons. lia.
Qed.
Lemma count_filled_insert cs i c c' :
  cs !! i = Some c ->
  (count_filled (<[i := c']> cs) + filled c = count_filled cs + filled c')%nat.
Proof.
  revert i. induction cs as [|d cs IH]; intros [|i] Hi; simplify_eq/=; rewrite !count_filled_cons.
  - lia.
  - specialize (IH i Hi). lia.
Qed.
Lemma count_filled_lookup cs :
  (1 <= count_filled cs)%nat -> exists i c, cs !! i = Some c /\ c <> MEmpty.
Proof.
  induction cs as [|d cs IH]; [unfold count_filled; simpl; lia|]. rewrite count_filled_cons.
  intros Hc. destruct (mpt_is_empty d) eqn:Hd.
  - destruct IH as (i & c & Hi & Hne); [unfold filled in Hc; rewrite Hd in Hc; lia|].
    by exists (S i), c.
  - exists 0%nat, d. split; [done|]. by intros ->.
Qed.
Lemma count_filled_two cs i :
  (2 <= count_filled cs)%nat -> exists j c, j <> i /\ cs !! j = Some c /\ c <> MEmpty.
Proof.
  intros Hc. destruct (cs !! i) as [d|] eqn:Hd.
  - pose proof (count_filled_insert cs i d MEmpty Hd) as Hn.
    destruct (count_filled_lookup (<[i := MEmpty]> cs)) as (j & c & Hj & Hne).
    { unfold filled in Hn. destruct (mpt_is_empty d); simpl in *; lia. }
    destruct (decide (i = j)) as [->|Hij].
    + rewrite list_lookup_insert_eq in Hj by (by eapply lookup_lt_Some). by simplify_eq.
    + rewrite list_lookup_insert_ne in Hj by done. by exists j, c.
  - destruct (count_filled_lookup cs) as (j & c & Hj & Hne); [lia|]. exists j, c.
    split; [|done]. by intros ->; rewrite Hd in Hj.
Qed.
Lemma find_filled_spec cs k :
  count_filled cs = 1%nat ->
  exists i c, find_filled k cs = Some (k + Z.of_nat i, c) /\ cs !! i = Some c /\ c <> MEmpty /\
    forall j d, cs !! j = Some d -> d <> MEmpty -> j = i.
Proof.
  revert k. induction cs as [|d cs IH]; intros k; [done|]. rewrite count_filled_cons.
  intros Hc. simpl. unfold filled in Hc. destruct (mpt_is_empty d) eqn:Hd.
  - destruct (IH (k + 1)) as (i & c & -> & Hi & Hne & Huniq); [lia|].
    exists (S i), c. split; [do 2 f_equal; lia|]. split_and!; [done..|].
    intros [|j] e Hj He; simplify_eq/=; [by destruct e|]. f_equal. by eapply Huniq.
  - exists 0%nat, d. split; [do 2 f_equal; lia|]. split_and!; [done|by intros ->|].
    intros [|j] e Hj He; [done|]. exfalso. simpl in Hj.
    pose proof (count_filled_insert cs j e MEmpty Hj) as Hn. unfold filled in Hn.
    destruct e; simpl in *; [done|lia..].
Qed.

(** A canonical node other than [Empty] stores something. *)
Lemma canon_inhabited t : canon t -> t <> MEmpty -> exists q v, nibbles q /\ mpt_get t q = Some v.
Proof.
  induction t as [|a v|a cs IH|a cp c IH|a v c IH] using Node_ind'; intros Ht Hne; [done|..].
  - exists [], v. split; [constructor|done].
  - apply canon_branch in Ht as (Hl & Hn & _ & Hcs).
    destruct (count_filled_lookup cs) as (i & c & Hi & Hc); [lia|].
    pose proof (lookup_lt_Some _ _ _ Hi).
    destruct (Forall_lookup_1 _ _ _ _ IH Hi) as (q & v & Hq & Hv);
      [by apply (Forall_lookup_1 _ _ _ _ Hcs Hi)|done|].
    exists (Z.of_nat i :: q), v. split; [constructor; [unfold nibble; lia|done]|].
    simpl. by rewrite pick_child_lookup, Nat2Z.id, Hi.
  - destruct Ht as (_ & _ & Hcp & Hc & _ & _ & Hcc). destruct IH as (q & v & Hq & Hv); [done..|].
    exists (cp ++ q), v. split; [by apply nibbles_app|]. simpl. by rewrite under_app_r.
  - exists [], v. split; [constructor|done].
Qed.

(** [extension] restores canonical form. *)
Lemma absorb_canon path (cur : Node T A) :
  nibbles path -> canon cur -> cur <> MEmpty ->
  nibbles (absorb path cur).1 /\ canon (absorb path cur).2 /\ (absorb path cur).2 <> MEmpty /\
  (length path <= length (absorb path cur).1)%nat /\
  (is_extension (absorb path cur).2 = true -> (length (absorb path cur).1 mod 255 = 0)%nat).
Proof.
  revert path. induction cur as [|a v|a cs IH|a cp c IH|a v c IH] using Node_ind';
    intros path Hp Hc Hne; cbn [absorb]; try (by do 4 (split; [done|])).
  destruct (Nat.eqb_spec (length path mod 255) 0); [by do 4 (split; [done|])|].
  destruct Hc as (? & ? & ? & ? & ? & ? & ?).
  destruct (IH (path ++ cp)) as (? & ? & ? & Hlen & ?); [by apply nibbles_app|done..|].
  rewrite length_app in Hlen. do 3 (split; [done|]). split; [lia|done].
Qed.
Lemma chunks_canon f path (cur : Node T A) :
  (length path <= f)%nat -> nibbles path -> canon cur -> cur <> MEmpty ->
  (is_extension cur = true -> (length path mod 255 = 0)%nat) ->
  let t := foldr (fun wp cur => MExtension (node_ann cur) wp cur) cur (chunks_fuel f 255 path) in
  canon t /\ t <> MEmpty /\ (path <> [] -> is_extension t = true).
Proof.
  revert path. induction f as [|f IH]; intros [|x path] Hl Hp Hc Hne Hx;
    try (by do 2 (split; [done|])); [simpl in Hl; lia|].
  set (l := x :: path) in *. cbn [chunks_fuel foldr].
  destruct (IH (drop 255 l)) as (Hrc & Hrne & Hrx); [subst l; rewrite length_drop; simpl in *; lia|
    by apply Forall_drop|done..| |].
  { intros He. rewrite length_drop. specialize (Hx He).
    apply Nat.Div0.mod_divides in Hx as [k Hk]. rewrite Hk.
    destruct k as [|k]; [done|]. replace (255 * S k - 255)%nat with (k * 255)%nat by lia.
    apply Nat.Div0.mod_mul. }
  unfold l at 1 3. cbn [chunks_fuel foldr]. fold l. split_and!; [|done..].
  assert (Hlt : (length (take 255 l) = Nat.min 255 (length l))%nat) by apply length_take.
  split_and!; [done|rewrite Hlt; lia|by apply Forall_take|done| |done|done].
  intros He. destruct (decide (drop 255 l = [])) as [Hd|Hd].
  - rewrite Hd in He. destruct f; simpl in He; specialize (Hx He);
      apply Nat.Div0.mod_divides in Hx as [k Hk]; rewrite Hlt;
      (assert (Hll : (length l - 255 = 0)%nat) by (by rewrite <- length_drop, Hd));
      unfold l in Hk; simpl length in Hk; unfold l; simpl length; unfold l in Hll;
      simpl length in Hll; lia.
  - assert (Hll : (0 < length (drop 255 l))%nat) by (by destruct (drop 255 l); [done|simpl; lia]).
    rewrite length_drop in Hll. lia.
Qed.
Lemma extension_canon path c :
  nibbles path -> path <> [] -> canon c -> c <> MEmpty ->
  canon (extension path c) /\ is_extension (extension path c) = true.
Proof.
  intros Hp Hne Hc Hcne. destruct (absorb_canon path c Hp Hc Hcne) as (Hp' & Hc' & Hne' & Hl & Hx).
  with_strategy transparent [extension] unfold extension.
  destruct (absorb path c) as [path' cur]. cbn [fst snd] in *.
  destruct (chunks_canon (length path') path' cur) as (Ht & _ & Hext); [done..|].
  split; [done|]. apply Hext. intros ->. destruct path; [done|simpl in Hl; lia].
Qed.

Lemma extension_inner t : is_extension t = true -> is_inner t = true.
Proof. by destruct t. Qed.
Lemma collapse_branch_spec (i : Z) c :
  nibble i -> canon c -> c <> MEmpty ->
  canon (collapse_branch i c) /\ is_extension (collapse_branch i c) = true /\
  forall q, mpt_get (collapse_branch i c) q = under [i] (mpt_get c) q.
Proof.
  intros Hi Hc Hne.
  assert (Hplain : canon (extension [i] c) /\ is_extension (extension [i] c) = true /\
            forall q, mpt_get (extension [i] c) q = under [i] (mpt_get c) q).
  { destruct (extension_canon [i] c); [by constructor|done..|].
    split_and!; [done..|]. intros q. apply get_extension. }
  (* absorbing the child's path first makes no difference *)
  by destruct c.
Qed.
Lemma iter_extension path c : mpt_iter (extension path c) = mpt_iter c.
Proof.
  with_strategy transparent [extension] unfold extension.
  assert (Ha : mpt_iter (absorb path c).2 = mpt_iter c).
  { revert path. induction c as [|a v|a cs IH|a cp c IH|a v c IH] using Node_ind'; intros path;
      cbn [absorb]; try done.
    destruct (length path mod 255 =? 0)%nat; [done|]. by apply IH. }
  destruct (absorb path c) as [p' c']. cbn [snd] in Ha. rewrite <- Ha.
  by induction (chunks 255 p').
Qed.
Lemma iter_collapse i c : mpt_iter (collapse_branch i c) = mpt_iter c.
Proof. destruct c; cbn [collapse_branch]; by rewrite iter_extension. Qed.
Lemma iter_single cs i c :
  cs !! i = Some c -> (forall j d, cs !! j = Some d -> d <> MEmpty -> j = i) ->
  concat (map mpt_iter cs) = mpt_iter c.
Proof.
  revert i. induction cs as [|d cs IH]; intros [|i] Hi Hu; simplify_eq/=.
  - rewrite <- (app_nil_r (mpt_iter c)) at 2. f_equal.
    assert (He : Forall (fun d => mpt_iter d = []) cs).
    { apply Forall_lookup_2. intros j d Hj. destruct d as [|a v|a ds|a cp d|a v d]; [done|..];
        specialize (Hu (S j) _ Hj ltac:(done)); done. }
    clear -He. induction He as [|d cs Hd _ IHe]; simpl; [done|]. by rewrite Hd.
  - rewrite (IH i); [|done|]. 2: { intros j e Hj He. specialize (Hu (S j) e Hj He). lia. }
    destruct d as [|a v|a ds|a cp d|a v d]; [done|..]; by specialize (Hu 0%nat _ eq_refl ltac:(done)).
Qed.
(** A branch with a single filled child is that child below its nibble. *)
Lemma single_child a cs :
  length cs = 16%nat -> count_filled cs = 1%nat -> Forall canon cs ->
  exists i c, find_filled 0 cs = Some (i, c) /\
    canon (collapse_branch i c) /\ is_extension (collapse_branch i c) = true /\
    (forall q, nibbles q -> mpt_get (collapse_branch i c) q = mpt_get (MBranch a cs) q) /\
    mpt_iter (collapse_branch i c) = concat (map mpt_iter cs).
Proof.
  intros Hl Hn Hcs. destruct (find_filled_spec cs 0 Hn) as (i & c & -> & Hi & Hne & Huniq).
  pose proof (lookup_lt_Some _ _ _ Hi) as Hlt. rewrite Hl in Hlt.
  exists (Z.of_nat i), c.
  destruct (collapse_branch_spec (Z.of_nat i) c) as (? & ? & Hg); [unfold nibble; lia| |done|].
  { by apply (Forall_lookup_1 _ _ _ _ Hcs Hi). }
  split; [done|]. split; [done|]. split; [done|].
  split; [|rewrite iter_collapse; symmetry; by eapply iter_single]. intros q Hq. rewrite Hg.
  destruct q as [|m q]; [done|]. apply Forall_cons_1 in Hq as [Hm Hq]. unfold nibble in Hm.
  simpl mpt_get. rewrite under_cons, under_nil, pick_child_lookup.
  destruct (Z.eqb_spec (Z.of_nat i) m) as [<-|Him]; [by rewrite Nat2Z.id, Hi|].
  destruct (cs !! Z.to_nat m) as [d|] eqn:Hd; [|done].
  destruct (decide (mpt_is_empty d = true)) as [He|He]; [by destruct d|].
  exfalso. specialize (Huniq _ _ Hd). destruct d; (done || (specialize (Huniq ltac:(done)); lia)).
Qed.

(** ** [remove] *)

(** [p] is stored, or nothing is stored strictly below it. *)
Definition unextended t (p : list Z) : Prop :=
  mpt_get t p = None -> forall q, nibbles q -> q <> [] -> mpt_get t (p ++ q) = None.

Definition removes t (p : list Z) (r : Node T A * option T) : Prop :=
  canon r.1 /\ (is_inner t = true -> is_inner r.1 = true \/ r.1 = MEmpty) /\ r.2 = mpt_get t p /\
  forall q, nibbles q -> mpt_get r.1 q = if decide (q = p) then None else mpt_get t q.

Definition removable {E} t : Prop :=
  forall p, canon t -> nibbles p -> unextended t p ->
  exists r, mpt_remove (E := E) t p = Ok r /\ removes t p r.

Lemma remove_branch {E} a cs : Forall (removable (E := E)) cs -> removable (E := E) (MBranch a cs).
Proof.
  intros IH p Ht Hp Hu. cbn [mpt_remove].
  apply canon_branch in Ht as (Hl & Hn & Ha & Hcs). destruct p as [|n p].
  { exfalso. destruct (canon_inhabited (MBranch a cs)) as ([|m q] & w & Hq & Hw); [|done..|].
    - by apply canon_branch.
    - specialize (Hu eq_refl (m :: q) Hq ltac:(done)). simpl app in Hu. by rewrite Hu in Hw. }
  apply Forall_cons_1 in Hp as [Hn0 Hp]. pose proof Hn0 as Hnib. unfold nibble in Hn0.
  rewrite pick_child_lookup. destruct (lookup_lt_is_Some_2 cs (Z.to_nat n)) as [c Hc]; [lia|].
  rewrite Hc. destruct (Forall_lookup_1 _ _ _ _ IH Hc p) as ([c' old] & -> & Hcc & Hinn & Hold & Hg);
    [by apply (Forall_lookup_1 _ _ _ _ Hcs Hc)|done| |].
  { intros Hnone q Hq Hne. specialize (Hu ltac:(simpl; by rewrite pick_child_lookup, Hc) q Hq Hne).
    simpl in Hu. by rewrite pick_child_lookup, Hc in Hu. }
  cbn [mbind outcome_bind fst snd] in *.
  set (cs' := <[Z.to_nat n := c']> cs).
  assert (Hl' : length cs' = 16%nat) by (by unfold cs'; rewrite length_insert).
  assert (Hcs' : Forall canon cs') by (by apply Forall_insert).
  pose proof (count_filled_insert cs _ c c' Hc) as Hcount. fold cs' in Hcount.
  assert (Hget : forall b q, nibbles q -> mpt_get (MBranch b cs') q
            = if decide (q = n :: p) then None else mpt_get (MBranch a cs) q).
  { intros b q Hq. apply get_branch_insert; [done..|]. by rewrite Hc. }
  assert (Hold' : old = mpt_get (MBranch a cs) (n :: p))
    by (simpl; by rewrite pick_child_lookup, Hc).
  destruct (Nat.eqb_spec (count_filled cs') 1) as [H1|H1].
  + destruct (single_child a cs' Hl' H1 Hcs') as (i & d & -> & Hcan & Hex & Hgd & _).
    eexists. split; [reflexivity|]. split; [done|].
    split; [left; by apply extension_inner|]. split; [done|]. intros q Hq. simpl fst.
    by rewrite Hgd, Hget.
  + eexists. split; [reflexivity|]. split; [|split; [by left|split; [done|]]].
    * apply canon_branch. split_and!; [done| |done..].
      unfold filled in Hcount. destruct (mpt_is_empty c), (mpt_is_empty c'); lia.
    * intros q Hq. by apply Hget.
Qed.
Lemma remove_extension {E} a cp c : removable (E := E) c -> removable (E := E) (MExtension a cp c).
Proof.
  intros IH p Ht Hp Hu. cbn [mpt_remove].
  destruct Ht as (Hne & Hlen & Hcp & Hcne & Hx & Ha & Hc). destruct (starts_with cp p) eqn:Hs.
  + apply starts_with_spec in Hs as [r ->]. rewrite drop_app_length.
    apply nibbles_app in Hp as [_ Hr].
    destruct (IH r Hc Hr) as ([c' old] & -> & Hcc & Hinn & Hold & Hg).
    { intros Hnone q Hq Hqne. specialize (Hu ltac:(simpl; by rewrite under_app_r) q Hq Hqne).
      rewrite <- app_assoc in Hu. simpl in Hu. by rewrite under_app_r in Hu. }
    cbn [mbind outcome_bind fst snd] in *.
    assert (Hget : forall q, nibbles q -> under cp (mpt_get c') q
              = if decide (q = cp ++ r) then None else under cp (mpt_get c) q)
      by (intros q Hq; by apply under_change).
    assert (Hold' : old = under cp (mpt_get c) (cp ++ r)) by (by rewrite under_app_r).
    destruct c' as [|b w|b ds|b cp2 d|b w d]; eexists; (split; [reflexivity|]);
      (split; [|split; [|split; [done|]]]); try (by split_and!); try (by left); try (by right);
      try (by intros q Hq; rewrite <- Hget).
    * done.
    * intros q Hq. rewrite <- Hget by done. symmetry. by apply under_none.
    * destruct Hcc as (? & ? & ? & ? & ? & ? & ?).
      apply extension_canon; [by apply nibbles_app| |done..]. by destruct cp.
    * destruct Hcc as (? & ? & ? & ? & ? & ? & ?). left. apply extension_inner.
      apply extension_canon; [by apply nibbles_app| |done..]. by destruct cp.
    * intros q Hq. rewrite <- Hget by done. cbn [fst]. rewrite get_extension, under_under.
      done.
  + eexists. split; [reflexivity|]. split; [by split_and!|]. split; [by left|].
    assert (Hnone : under cp (mpt_get c) p = None) by (unfold under; by rewrite Hs).
    split; [done|]. intros q Hq. simpl. destruct (decide (q = p)) as [->|]; done.
Qed.
Lemma remove_mid `{!AnnotationLaws T A} {E} a v c :
  removable (E := E) c -> removable (E := E) (MMidBranchLeaf a v c).
Proof.
  intros IH p Ht Hp Hu. cbn [mpt_remove].
  destruct Ht as (Hin & Ha & Hc). destruct p as [|n p].
  + eexists. split; [reflexivity|]. split; [done|]. split; [done|]. split; [done|].
    intros [|m q] Hq; simpl; [|done].
    destruct c as [| | |b cp d|]; try done. destruct Hc as (? & _). simpl.
    by destruct cp.
  + destruct (IH (n :: p) Hc Hp) as ([c' old] & -> & Hcc & Hinn & Hold & Hg); [done|].
    cbn [mbind outcome_bind fst snd] in *.
    assert (Hget : forall q, nibbles q -> q <> [] -> mpt_get c' q
              = if decide (q = n :: p) then None else mpt_get (MMidBranchLeaf a v c) q)
      by (intros [|m q] Hq Hqne; [done|]; by rewrite Hg).
    destruct (Hinn Hin) as [Hin'| ->].
    * assert (Hr : removes (MMidBranchLeaf a v c) (n :: p)
                (MMidBranchLeaf (append (node_ann c') (from_value v)) v c', old)).
      { split; [by split_and!|]. split; [done|]. split; [done|]. intros [|m q] Hq; [done|].
        by apply Hget. }
      destruct c'; try done; by eexists.
    * eexists. split; [reflexivity|]. split; [apply append_empty_value|].
      split; [done|]. split; [done|]. intros [|m q] Hq; [done|]. by rewrite <- Hget.
Qed.
Lemma remove_spec `{!AnnotationLaws T A} {E} t : removable (E := E) t.
Proof.
  induction t as [|a v|a cs IH|a cp c IH|a v c IH] using Node_ind';
    [..|by apply remove_branch|by apply remove_extension|by apply remove_mid];
    intros p Ht Hp Hu; cbn [mpt_remove].
  - eexists. split; [done|]. split; [done|]. split; [done|]. split; [done|]. intros q _. by destruct (decide (q = p)).
  - destruct p as [|n p]; eexists; (split; [reflexivity|]); (split; [done|]; split; [done|]; split; [done|]);
      intros [|m q] _; simpl; try done. by destruct (decide _).
Qed.

(** ** Canonical form is kept

    [insert] needs two conditions, which the theorems at the end show to be
    necessary: a path that is not already stored must not be a strict prefix of
    a stored one, and stored paths are at most 255 nibbles long. *)
Definition short t : Prop :=
  forall q, nibbles q -> mpt_get t q <> None -> (length q <= 255)%nat.

Lemma ann_extension path c : canon c -> node_ann (extension path c) = node_ann c.
Proof.
  intros Hc. with_strategy transparent [extension] unfold extension.
  assert (Ha : node_ann (absorb path c).2 = node_ann c).
  { revert path. induction c as [|a v|a cs IH|a cp c IH|a v c IH] using Node_ind'; intros path;
      cbn [absorb]; try done.
    destruct (length path mod 255 =? 0)%nat; [done|]. destruct Hc as (? & ? & ? & ? & ? & -> & ?).
    by apply IH. }
  destruct (absorb path c) as [p' c']. cbn [snd] in Ha. rewrite <- Ha.
  by destruct (chunks 255 p') as [|w ws]; [|induction ws].
Qed.
Lemma insert_empty_canon {E} fuel p v r :
  nibbles p -> mpt_insert_rec (E := E) fuel MEmpty p v = Ok r -> canon r.1 /\ r.1 <> MEmpty.
Proof.
  intros Hp Hi. destruct fuel; [done|]. destruct p as [|n p]; simpl in Hi; inv_binds; [done|].
  cbn [fst]. destruct (extension_canon (n :: p) (MLeaf (from_value v) v)) as [? Hx]; [done..|].
  split; [done|]. intros He. by rewrite He in Hx.
Qed.
Lemma short_child a cs i c :
  short (MBranch a cs) -> cs !! i = Some c -> (i < 16)%nat -> short c.
Proof.
  intros Hs Hi Hlt q Hq Hne.
  specialize (Hs (Z.of_nat i :: q)). simpl in Hs. rewrite pick_child_lookup, Nat2Z.id, Hi in Hs.
  assert (S (length q) <= 255)%nat; [|lia]. apply Hs; [|done].
  constructor; [unfold nibble; lia|done].
Qed.
Lemma short_ext a cp c : canon (MExtension a cp c) -> short (MExtension a cp c) ->
  short c /\ is_extension c = false.
Proof.
  intros (? & ? & Hcp & Hne & Hx & _ & Hc) Hs.
  assert (Hc0 : forall q, nibbles q -> mpt_get c q <> None -> (length cp + length q <= 255)%nat).
  { intros q Hq Hg. rewrite <- length_app. apply Hs; [by apply nibbles_app|]. simpl.
    by rewrite under_app_r. }
  split. { intros q Hq Hg. specialize (Hc0 q Hq Hg). lia. }
  destruct (is_extension c) eqn:Hxc; [|done]. exfalso.
  destruct (canon_inhabited c Hc Hne) as (q & w & Hq & Hw).
  specialize (Hc0 q Hq ltac:(by rewrite Hw)). rewrite (Hx eq_refl) in Hc0.
  destruct c as [| | |b cp2 d|]; try done. destruct Hc as (Hne2 & _). simpl in Hw.
  apply under_spec in Hw as (r & -> & _). rewrite length_app in Hc0. destruct cp2; [done|simpl in Hc0; lia].
Qed.

(** The branch built when the new path leaves an extension. *)
Lemma split_canon {E} fuel b x rest a c cp' v r :
  let remaining := if (length cp' =? 0)%nat then c else MExtension (node_ann c) cp' c in
  nibble b -> nibbles cp' -> (length cp' <= 255)%nat -> nibbles (x :: rest) -> x <> b ->
  canon c -> c <> MEmpty -> is_extension c = false ->
  mpt_insert_rec (E := E) fuel (MBranch a (<[Z.to_nat b := remaining]> (replicate 16 MEmpty)))
    (x :: rest) v = Ok r ->
  canon r.1 /\ is_extension r.1 = false /\ is_inner r.1 = true.
Proof.
  intros remaining Hb Hcp' Hlen [Hx Hrest]%Forall_cons_1 Hxb Hc Hne Hnx Hi.
  assert (Hr : canon remaining /\ remaining <> MEmpty).
  { unfold remaining. destruct cp' as [|y cp']; [done|]. simpl.
    split; [|done]. split_and!; try done. by rewrite Hnx. }
  destruct fuel as [|fuel]; [done|]. cbn [mpt_insert_rec] in Hi. unfold nibble in *.
  rewrite list_lookup_insert_ne, lookup_replicate_2 in Hi by lia.
  cbn [unwrap mbind outcome_bind] in Hi. inv_binds. destruct a0 as [new_child existing].
  apply insert_empty_canon in E0 as [Hnc Hnne]; [|done]. inv_binds. cbn [fst] in *.
  split; [|done]. apply canon_branch. rewrite !length_insert.
  assert (Hx0 : replicate 16 (MEmpty (T := T) (A := A)) !! Z.to_nat b = Some MEmpty)
    by (apply lookup_replicate_2; lia).
  pose proof (count_filled_insert _ _ _ remaining Hx0) as Hc1.
  assert (Hx1 : <[Z.to_nat b := remaining]> (replicate 16 MEmpty) !! Z.to_nat x = Some MEmpty)
    by (rewrite list_lookup_insert_ne by lia; apply lookup_replicate_2; lia).
  pose proof (count_filled_insert _ _ _ new_child Hx1) as Hc2.
  split_and!; [done| |done|].
  - unfold filled in *. destruct Hr as [_ Hr]. clearbody remaining.
    destruct remaining, new_child; simpl in *; (done || lia).
  - apply Forall_insert; [|done]. apply Forall_insert; [|by destruct Hr].
    by apply (Forall_replicate canon 16 MEmpty).
Qed.

Definition insert_keeps t (p : list Z) (r : Node T A * option T) : Prop :=
  canon r.1 /\ r.1 <> MEmpty /\
  (is_extension r.1 = true -> is_extension t = true \/ t = MEmpty) /\
  (p <> [] -> is_inner t = true -> is_inner r.1 = true).

Lemma insert_here_canon t v : canon t -> insert_keeps t [] (insert_here t v).
Proof. intros Hc. destruct t; try done. by destruct Hc as (? & ? & ?). Qed.

Lemma unextended_below a cp c r :
  unextended (MExtension a cp c) (cp ++ r) -> unextended c r.
Proof.
  intros Hu Hn q Hq Hne. specialize (Hu ltac:(simpl; by rewrite under_app_r) q Hq Hne).
  rewrite <- app_assoc in Hu. simpl in Hu. by rewrite under_app_r in Hu.
Qed.
(** A path that ends inside an extension has something stored below it. *)
Lemma unextended_inside a (c0 : list Z) b cp c :
  canon (MExtension a (c0 ++ b :: cp) c) -> unextended (MExtension a (c0 ++ b :: cp) c) c0 -> False.
Proof.
  intros (_ & _ & Hcp & Hne & _ & _ & Hc) Hu. apply nibbles_app in Hcp as [_ Hcp].
  destruct (canon_inhabited c Hc Hne) as (q & w & Hq & Hw).
  pose proof (under_app_r c0 (under (b :: cp) (mpt_get c)) []) as Hn.
  rewrite app_nil_r, <- under_under in Hn.
  specialize (Hu Hn ((b :: cp) ++ q) ltac:(by apply nibbles_app) ltac:(done)).
  rewrite app_assoc in Hu. simpl in Hu. rewrite under_app_r in Hu. congruence.
Qed.
Lemma insert_extension_canon {E} fuel a cp c n p v r :
  (forall t p r, canon t -> nibbles p -> short t -> unextended t p ->
     mpt_insert_rec (E := E) fuel t p v = Ok r -> insert_keeps t p r) ->
  canon (MExtension a cp c) -> nibbles (n :: p) -> short (MExtension a cp c) ->
  unextended (MExtension a cp c) (n :: p) ->
  mpt_insert_rec (E := E) (S fuel) (MExtension a cp c) (n :: p) v = Ok r ->
  insert_keeps (MExtension a cp c) (n :: p) r.
Proof.
  intros IH Ht Hp Hs Hu Hi. destruct (short_ext _ _ _ Ht Hs) as [Hsc Hnx].
  pose proof Ht as (Hne & Hlen & Hcp & Hcne & Hx & Ha & Hc). cbn [mpt_insert_rec] in Hi.
  assert (Hpne : n :: p <> []) by done. set (path := n :: p) in *. clearbody path.
  destruct (match_len_split cp (take 255 path)) as (c0 & cp' & w' & Hcp0 & Hw & Hml & Hd).
  assert (Hpath : path = c0 ++ (w' ++ drop 255 path)) by (by rewrite app_assoc, <- Hw, take_drop).
  assert (Hw0 : w' = [] -> (length c0 = Nat.min 255 (length path))%nat)
    by (intros ->; rewrite app_nil_r in Hw; by rewrite <- Hw, length_take).
  rewrite Hml in Hi. clear Hml Hw. subst cp. apply nibbles_app in Hcp as [Hc0 Hcp].
  rewrite length_app in Hi, Hlen. destruct cp' as [|b cp'].
  - rewrite app_nil_r in *. simpl length in Hi. rewrite Nat.add_0_r, Nat.eqb_refl in Hi.
    inv_binds. destruct a0 as [c' old]. inv_binds.
    rewrite Hpath, drop_app_length in E0. rewrite Hpath in Hp, Hu. apply nibbles_app in Hp as [_ Hp].
    destruct (IH _ _ _ Hc Hp Hsc (unextended_below _ _ _ _ Hu) E0) as (Hc' & Hne' & Hx' & _).
    simpl length in Hlen. cbn [fst] in *.
    split; [|by split; [|split; [intros _; left|]]].
    split_and!; [done|lia|done|done| |done|done]. intros He. destruct (Hx' He); congruence.
  - simpl length in Hi, Hlen. rewrite (proj2 (Nat.eqb_neq _ _)) in Hi by lia.
    rewrite list_lookup_middle in Hi by done.
    apply Forall_cons_1 in Hcp as [Hb Hcp]. pose proof Hb as Hb'. unfold nibble in Hb'.
    cbn [unwrap mbind outcome_bind] in Hi. rewrite lookup_replicate_2 in Hi by lia.
    cbn [unwrap mbind outcome_bind] in Hi.
    replace (length c0 =? length c0 + S (length cp') - 1)%nat with (length cp' =? 0)%nat in Hi
      by (apply eq_true_iff_eq; rewrite !Nat.eqb_eq; lia).
    replace (drop (S (length c0)) (c0 ++ b :: cp')) with cp' in Hi
      by (rewrite drop_app_ge by lia; by replace (S (length c0) - length c0)%nat with 1%nat by lia).
    rewrite take_app_length in Hi.
    destruct w' as [|x rest].
    { exfalso. specialize (Hw0 eq_refl). rewrite Hpath in Hu at 1. simpl app in Hu.
      rewrite drop_ge, app_nil_r in Hu by lia. by eapply unextended_inside. }
    rewrite Hpath in Hi. rewrite drop_app_length in Hi. rewrite Hpath in Hp.
    apply nibbles_app in Hp as [_ Hp]. simpl app in Hi, Hp.
    inv_binds. destruct a0 as [fb old].
    apply split_canon in E0 as (Hfb & Hfx & Hfi); [|done|done|lia|done|congruence|done..].
    cbn [fst] in *. destruct (Nat.eqb_spec (length c0) 0); inv_binds; unfold insert_keeps; cbn [fst].
    + split; [done|]. split; [by destruct fb|]. by split; [rewrite Hfx|].
    + split; [|by split; [|split; [intros _; left|]]].
      split_and!; [by intros ->|lia|done|by destruct fb|by rewrite Hfx|done|done].
Qed.
Lemma insert_canon `{!AnnotationLaws T A} {E} fuel t p v r :
  canon t -> nibbles p -> short t -> unextended t p ->
  mpt_insert_rec (E := E) fuel t p v = Ok r -> insert_keeps t p r.
Proof.
  revert t p r. induction fuel as [|fuel IH]; intros t p r Ht Hp Hs Hu Hi; [done|].
  destruct p as [|n p]; [simpl in Hi; inv_binds; by apply insert_here_canon|].
  destruct t as [|a w|a cs|a cp c|a w c]; [..|by eapply insert_extension_canon|];
    cbn [mpt_insert_rec] in Hi; inv_binds.
  - destruct (extension_canon (n :: p) (MLeaf (from_value v) v)) as [? Hx]; [done..|].
    split; [done|]. cbn [fst]. split; [by intros He; rewrite He in Hx|]. by split; [right|].
  - destruct (extension_canon (n :: p) (MLeaf (from_value v) v)) as [? Hx]; [done..|].
    split; [|by split_and!]. simpl in Ht. subst a.
    split; [by apply extension_inner|]. split; [by rewrite ann_extension|done].
  - apply canon_branch in Ht as (Hl & Hn & Ha & Hcs). destruct a1 as [c' old]. inv_binds.
    apply Forall_cons_1 in Hp as [Hn0 Hp]. unfold nibble in Hn0.
    destruct (cs !! Z.to_nat n) as [c|] eqn:Hc; [|done]. simpl in E0. inv_binds.
    destruct (IH a0 p (c', old)) as (Hc' & Hne' & _); [by apply (Forall_lookup_1 _ _ _ _ Hcs Hc)|done| | |done|].
    + eapply short_child; [done..|lia].
    + intros Hnone q Hq Hqne. specialize (Hu ltac:(simpl; by rewrite pick_child_lookup, Hc) q Hq Hqne).
      simpl in Hu. by rewrite pick_child_lookup, Hc in Hu.
    + split; [|by split_and!]. cbn [fst] in *. apply canon_branch. rewrite length_insert.
      pose proof (count_filled_insert cs _ a0 c' Hc) as Hcount. unfold filled in Hcount.
      split_and!; [done| |done|by apply Forall_insert].
      destruct (mpt_is_empty a0), c'; simpl in Hcount; (done || lia).
  - destruct Ht as (Hin & Ha & Hc). destruct a0 as [c' old]. inv_binds.
    destruct (IH c (n :: p) (c', old)) as (Hc' & _ & _ & Hinn); [done..| | |done|].
    + intros [|m q] Hq Hne; [simpl; lia|]. by apply Hs.
    + intros Hn q Hq Hne. by apply Hu.
    + split; [|by split_and!]. cbn [fst] in *. split; [by apply Hinn|].
      split; [apply append_comm|done].
Qed.

(** ** The content determines the trie *)
Lemma canon_branch_heads a cs i c :
  canon (MBranch a cs) -> cs !! i = Some c -> c <> MEmpty ->
  exists q v, nibbles (Z.of_nat i :: q) /\ mpt_get (MBranch a cs) (Z.of_nat i :: q) = Some v.
Proof.
  intros (Hl & _ & _ & Hcs)%canon_branch Hi Hne. pose proof (lookup_lt_Some _ _ _ Hi).
  destruct (canon_inhabited c) as (q & v & Hq & Hv);
    [by apply (Forall_lookup_1 _ _ _ _ Hcs Hi)|done|].
  exists q, v. split; [constructor; [unfold nibble; lia|done]|].
  simpl. by rewrite pick_child_lookup, Nat2Z.id, Hi.
Qed.
(** Whatever starts with a fixed nibble is not a branch. *)
Lemma branch_not_under a cs n cp (f : list Z -> option T) :
  canon (MBranch a cs) ->
  ~ (forall q, nibbles q -> mpt_get (MBranch a cs) q = under (n :: cp) f q).
Proof.
  intros Hc Hf. pose proof Hc as (Hl & Hn & _ & _)%canon_branch.
  destruct (count_filled_two cs (Z.to_nat n) Hn) as (j & d & Hj & Hd & Hne).
  destruct (canon_branch_heads a cs j d Hc Hd Hne) as (q & v & Hq & Hv).
  rewrite Hf, under_cons in Hv by done. destruct (Z.eqb_spec n (Z.of_nat j)); [lia|done].
Qed.
Lemma get_nil t : canon t -> is_inner t = true -> mpt_get t [] = None.
Proof. destruct t as [| | |a cp c|]; try done. intros (Hne & _) _. by destruct cp. Qed.

Definition same (t1 t2 : Node T A) : Prop :=
  forall q, nibbles q -> mpt_get t1 q = mpt_get t2 q.
Lemma same_sym t1 t2 : same t1 t2 -> same t2 t1.
Proof. intros Hs q Hq. by rewrite Hs. Qed.

(** An extension's content fixes its path: the other path cannot be longer,
    since the child is not an extension unless the path is full. *)
Lemma ext_paths a1 cp1 c1 a2 cp2 c2 :
  canon (MExtension a1 cp1 c1) -> canon (MExtension a2 cp2 c2) ->
  same (MExtension a1 cp1 c1) (MExtension a2 cp2 c2) -> (length cp1 <= length cp2)%nat ->
  cp1 = cp2.
Proof.
  intros Ht1 Ht2 Hs Hle. pose proof Ht1 as (_ & _ & Hcp1 & Hne1 & Hx1 & _ & Hc1).
  pose proof Ht2 as (_ & Hl2 & Hcp2 & Hne2 & _ & _ & Hc2).
  assert (Hpre : exists r, cp2 = cp1 ++ r).
  { destruct (canon_inhabited c2 Hc2 Hne2) as (q & v & Hq & Hv).
    specialize (Hs (cp2 ++ q) ltac:(by apply nibbles_app)). simpl in Hs.
    rewrite under_app_r, Hv in Hs. apply under_spec in Hs as (r & Hr & _).
    apply app_eq_inv in Hr as [(k & -> & _)|(k & -> & _)]; [by exists k|].
    exists []. rewrite length_app in Hle. destruct k; [by rewrite !app_nil_r|simpl in Hle; lia]. }
  destruct Hpre as [[|n r] ->]; [by rewrite app_nil_r|]. exfalso.
  assert (Hc : forall q, nibbles q -> mpt_get c1 q = under (n :: r) (mpt_get c2) q).
  { intros q Hq. specialize (Hs (cp1 ++ q) ltac:(by apply nibbles_app)). simpl in Hs.
    by rewrite under_under, !under_app_r in Hs. }
  rewrite length_app in Hl2. simpl in Hl2.
  destruct c1 as [|b w|b cs|b cp c|b w c]; [done|..].
  - by specialize (Hc [] ltac:(constructor)).
  - by eapply branch_not_under.
  - specialize (Hx1 eq_refl). lia.
  - by specialize (Hc [] ltac:(constructor)).
Qed.
(** Nodes of different kinds differ in content. *)
Definition kind t : nat :=
  match t with
  | MEmpty => 0 | MLeaf _ _ => 1 | MBranch _ _ => 2 | MExtension _ _ _ => 3
  | MMidBranchLeaf _ _ _ => 4
  end.
Lemma same_kind_le t1 t2 :
  canon t1 -> canon t2 -> same t1 t2 -> (kind t1 < kind t2)%nat -> False.
Proof.
  intros H1 H2 Hs Hk. pose proof (Hs [] ltac:(constructor)) as Hnil.
  destruct (canon_inhabited t2 H2) as (q & v & Hq & Hv); [by intros ->; simpl in Hk; lia|].
  rewrite <- Hs in Hv by done.
  destruct t1 as [|a1 v1|a1 cs1|a1 cp1 c1|a1 v1 c1], t2 as [|a2 v2|a2 cs2|a2 cp2 c2|a2 v2 c2];
    simpl in Hk; try lia; try done.
  - destruct H2 as (Hne & _). by destruct cp2.
  - destruct H2 as (Hin & _ & Hc2).
    destruct (canon_inhabited c2 Hc2) as ([|m q'] & w & Hq' & Hw); [by intros ->|..].
    + by rewrite get_nil in Hw.
    + specialize (Hs (m :: q') Hq'). simpl in Hs. congruence.
  - destruct cp2 as [|n cp2]; [by destruct H2 as (? & _)|]. by eapply branch_not_under.
  - destruct H1 as (Hne & _). by destruct cp1.
Qed.
Lemma same_kind t1 t2 : canon t1 -> canon t2 -> same t1 t2 -> kind t1 = kind t2.
Proof.
  intros H1 H2 Hs. destruct (Nat.lt_trichotomy (kind t1) (kind t2)) as [?|[?|?]]; [|done|].
  - exfalso. by eapply (same_kind_le t1 t2).
  - exfalso. by eapply (same_kind_le t2 t1); [..|apply same_sym|].
Qed.
Lemma canon_unique t1 t2 : canon t1 -> canon t2 -> same t1 t2 -> t1 = t2.
Proof.
  revert t2. induction t1 as [|a1 v1|a1 cs1 IH|a1 cp1 c1 IH|a1 v1 c1 IH] using Node_ind';
    intros t2 H1 H2 Hs;
    pose proof (same_kind _ _ H1 H2 Hs) as Hk;
    destruct t2 as [|a2 v2|a2 cs2|a2 cp2 c2|a2 v2 c2]; try done; clear Hk.
  - specialize (Hs [] ltac:(constructor)). simpl in *. congruence.
  - apply canon_branch in H1 as (Hl1 & _ & -> & Hc1). apply canon_branch in H2 as (Hl2 & _ & -> & Hc2).
    assert (cs1 = cs2) as ->; [|done]. apply list_eq_same_length with 16%nat; [done..|].
    intros i d1 d2 Hi Hd1 Hd2. apply (Forall_lookup_1 _ _ _ _ IH Hd1);
      [by apply (Forall_lookup_1 _ _ _ _ Hc1 Hd1)|by apply (Forall_lookup_1 _ _ _ _ Hc2 Hd2)|].
    intros q Hq. specialize (Hs (Z.of_nat i :: q)). simpl in Hs.
    rewrite !pick_child_lookup, Nat2Z.id, Hd1, Hd2 in Hs. apply Hs.
    constructor; [unfold nibble; lia|done].
  - assert (cp1 = cp2) as ->.
    { destruct (decide (length cp1 <= length cp2)%nat); [by eapply ext_paths|].
      symmetry. eapply ext_paths; [done..|by apply same_sym|lia]. }
    destruct H1 as (? & ? & Hcp & ? & ? & -> & H1), H2 as (? & ? & ? & ? & ? & -> & H2).
    assert (c1 = c2) as ->; [|done]. apply IH; [done..|]. intros q Hq.
    specialize (Hs (cp2 ++ q) ltac:(by apply nibbles_app)). simpl in Hs. by rewrite !under_app_r in Hs.
  - destruct H1 as (Hi1 & -> & H1), H2 as (Hi2 & -> & H2).
    pose proof (Hs [] ltac:(constructor)) as Hnil. simpl in Hnil. injection Hnil as ->.
    assert (c1 = c2) as ->; [|done]. apply IH; [done..|]. intros [|m q] Hq.
    + by rewrite !get_nil.
    + apply (Hs (m :: q) Hq).
Qed.

(** *** [canon] is what [MerklePatriciaTrie::canonicity] checks *)
Lemma forallb_Forall_iff {X} (f : X -> bool) (l : list X) :
  forallb f l = true <-> Forall (fun x => f x = true) l.
Proof.
  induction l as [|x l IH]; simpl; [by split; [constructor|]|]. rewrite andb_true_iff, IH.
  split; [intros [??]; by constructor|]. intros [??]%Forall_cons_1. done.
Qed.
(** What the types of the code give: branches are arrays of 16, paths are bytes. *)
Fixpoint node_typed t : bool :=
  match t with
  | MEmpty | MLeaf _ _ => true
  | MBranch _ cs => (length cs =? 16)%nat && forallb node_typed cs
  | MExtension _ cp c => forallb (fun b => 0 <=? b) cp && node_typed c
  | MMidBranchLeaf _ _ c => node_typed c
  end.
Definition sum_children : A -> list (Node T A) -> option A :=
  fix go acc cs := match cs with [] => Some acc | c :: cs => x ← sum_ann c; go (append acc x) cs end.
Lemma sum_ann_node t x : sum_ann t = Some x -> x = node_ann t.
Proof.
  destruct t as [|a v|a cs|a cp c|a v c]; simpl; unfold sum_ann_check; try (by intros [= <-]).
  - case_decide; congruence.
  - fold sum_children. destruct (sum_children ann_empty cs); simpl; [|done]. case_decide; congruence.
  - destruct (sum_ann c); simpl; [|done]. case_decide; congruence.
  - destruct (sum_ann c); simpl; [|done]. case_decide; congruence.
Qed.
Lemma sum_children_spec acc cs x :
  sum_children acc cs = Some x <->
  Forall (fun c => sum_ann c = Some (node_ann c)) cs /\
  x = foldl (fun acc c => append acc (node_ann c)) acc cs.
Proof.
  revert acc. induction cs as [|c cs IH]; intros acc; simpl.
  { split; [intros [= <-]; split; [constructor|done]|by intros [_ ->]]. }
  destruct (sum_ann c) as [y|] eqn:Hy; simpl.
  - apply sum_ann_node in Hy as Hy'. subst y. rewrite IH. split.
    + intros [? ->]. split; [by constructor|done].
    + intros [[_ ?]%Forall_cons_1 ->]. done.
  - split; [done|]. intros [[? _]%Forall_cons_1 _]. congruence.
Qed.
Lemma canon_checks t :
  canon t <-> node_typed t = true /\ structure t = true /\ sum_ann t = Some (node_ann t).
Proof.
  induction t as [|a v|a cs IH|a cp c IH|a v c IH] using Node_ind'.
  - done.
  - simpl. unfold sum_ann_check. case_decide; subst; [done|]. split; [done|]. by intros (_ & _ & ?).
  - rewrite canon_branch. cbn [node_typed structure sum_ann]. fold sum_children.
    rewrite !andb_true_iff, Nat.leb_le, Nat.eqb_eq, !forallb_Forall_iff.
    assert (Hcs : Forall canon cs <-> Forall (fun c => node_typed c = true) cs /\
        Forall (fun c => structure c = true) cs /\ Forall (fun c => sum_ann c = Some (node_ann c)) cs).
    { clear -IH. induction IH as [|c cs Hc _ IHc]; [by repeat constructor|].
      rewrite !Forall_cons_iff, Hc, IHc. tauto. }
    rewrite Hcs. unfold sum_ann_check. destruct (sum_children ann_empty cs) as [x|] eqn:Hx; simpl.
    + apply sum_children_spec in Hx as [Hf ->]. fold (children_ann cs).
      case_decide; subst; [tauto|]. split; [tauto|]. by intros (_ & _ & ?).
    + split; [|by intros (_ & _ & ?)]. intros (? & ? & ? & ? & ? & Hs).
      assert (sum_children ann_empty cs = Some (children_ann cs)) by (by apply sum_children_spec).
      congruence.
  - simpl. rewrite !andb_true_iff, IH, !forallb_Forall_iff, negb_true_iff, Nat.eqb_neq, Nat.leb_le.
    rewrite negb_true_iff, orb_true_iff, negb_true_iff, Nat.eqb_eq.
    assert (Hn : nibbles cp <-> Forall (fun b => (0 <=? b) = true) cp /\ Forall (fun b => (b <=? 15) = true) cp).
    { unfold nibbles. clear. induction cp as [|b cp IH]; [by repeat constructor|].
      rewrite !Forall_cons_iff, IH, !Z.leb_le. unfold nibble.
      assert (b <= 15 <-> b < 16) by lia. tauto. }
    assert (He : c <> MEmpty <-> mpt_is_empty c = false) by (by destruct c).
    assert (Hl : cp <> [] <-> length cp <> 0%nat) by (by destruct cp).
    assert (Hx : (is_extension c = true -> length cp = 255%nat) <->
                 is_extension c = false \/ length cp = 255%nat)
      by (destruct (is_extension c); intuition congruence).
    rewrite Hn, He, Hl, Hx. unfold sum_ann_check.
    destruct (sum_ann c) as [x|] eqn:Hs; simpl.
    + apply sum_ann_node in Hs as ->. case_decide; subst; [tauto|]. split; [tauto|].
      by intros (_ & _ & ?).
    + split; [by intros (? & ? & ? & ? & ? & ? & ? & ? & ?)|by intros (_ & _ & ?)].
  - simpl. rewrite andb_true_iff, IH. unfold sum_ann_check.
    destruct (sum_ann c) as [x|] eqn:Hx; simpl; [|by split; [intros (? & ? & ? & ? & ?)|intros (? & ? & ?)]].
    apply sum_ann_node in Hx as ->. case_decide; subst; [tauto|]. split; [tauto|]. by intros (_ & _ & ?).
Qed.
(** [MerklePatriciaTrie::canonicity] accepts exactly the canonical tries. *)
Lemma canon_reflect t : canon t <-> node_typed t = true /\ is_canonical t = true.
Proof.
  rewrite canon_checks. unfold is_canonical, annotation_consistency. rewrite andb_true_iff.
  destruct (sum_ann t) as [x|] eqn:Hx; [apply sum_ann_node in Hx as ->|]; intuition congruence.
Qed.
End ops.
