(* ===== verification/MptProps.v ===== *)
(** * [prune], [find_predecessor] and iteration of Merkle Patricia tries

    And the properties of the trie's interface: what the maps, sets and arrays
    of the ledger rely on. *)
From Stdlib Require Import ZArith List Lia Bool.
From stdpp Require Import base numbers list gmap.
From S2P Require Import Prelude Mpt MptSpec.
Open Scope Z_scope.
Set Default Proof Using "Type".
#[local] Opaque extension.

Section queries.
Context {T A : Type} `{Annotation T A}.
Implicit Types (t c d : Node T A) (cs ds : list (Node T A)).

(** ** [prune] *)
Lemma lex_lt_cons a p b q : lex_lt (a :: p) (b :: q) = (a <? b) || ((a =? b) && lex_lt p q).
Proof.
  unfold lex_lt. simpl. unfold Z.ltb. rewrite Z.eqb_compare. by destruct (a ?= b).
Qed.
Lemma lex_lt_app pre p q : lex_lt (pre ++ p) (pre ++ q) = lex_lt p q.
Proof.
  induction pre as [|x pre IH]; simpl app; [done|].
  by rewrite lex_lt_cons, Z.ltb_irrefl, Z.eqb_refl.
Qed.
Lemma lex_lt_nil p : lex_lt p [] = false.
Proof. by destruct p. Qed.
Lemma lex_take cp target r :
  match lex_cmp cp (take (Nat.min (length target) (length cp)) target) with
  | Lt => lex_lt (cp ++ r) target = true
  | Gt => lex_lt (cp ++ r) target = false
  | Eq => exists rest, target = cp ++ rest
  end.
Proof.
  revert target. induction cp as [|a cp IH]; intros [|b target]; simpl.
  - by exists [].
  - by eexists.
  - done.
  - rewrite lex_lt_cons. specialize (IH target). unfold Z.ltb. rewrite Z.eqb_compare.
    destruct (Z.compare_spec a b) as [->| |]; simpl; [|done..].
    destruct (lex_cmp cp _); [|done..]. destruct IH as [rest ->]. by exists rest.
Qed.

Lemma canon_iter_nil t : canon t -> mpt_iter t = [] -> t = MEmpty.
Proof.
  induction t as [|a v|a cs IH|a cp c IH|a v c IH] using Node_ind'; try done.
  - intros (Hl & Hn & _ & Hcs)%canon_branch Hi. exfalso.
    destruct (count_filled_lookup cs) as (i & c & Hc & Hne); [lia|]. apply Hne.
    apply (Forall_lookup_1 _ _ _ _ IH Hc); [by apply (Forall_lookup_1 _ _ _ _ Hcs Hc)|].
    simpl in Hi. rewrite <- (take_drop_middle cs i c Hc), map_app, concat_app in Hi.
    by apply app_nil in Hi as [_ [? _]%app_nil].
  - intros (_ & _ & _ & Hne & _ & _ & Hc) Hi. by destruct Hne; apply IH.
Qed.
Lemma count_filled_zero cs : count_filled cs = 0%nat -> Forall (fun c => c = MEmpty) cs.
Proof.
  induction cs as [|c cs IH]; [by constructor|]. rewrite count_filled_cons. intros Hc.
  constructor; [|apply IH; lia]. unfold filled in Hc. by destruct c; simpl in Hc; try lia.
Qed.

Lemma iter_nil_replicate cs :
  Forall canon cs -> concat (map mpt_iter cs) = [] -> cs = replicate (length cs) MEmpty.
Proof.
  induction 1 as [|c cs Hc _ IH]; simpl; [done|]. intros [Hi Hr]%app_nil.
  f_equal; [by apply canon_iter_nil|by apply IH].
Qed.

(** What [prune] promises: everything below the target is removed and
    returned, the rest is kept. *)
Definition prunes t (target : list Z) (r : Node T A * list T) : Prop :=
  canon r.1 /\ (r.2 = [] -> r.1 = t) /\ mpt_iter t ≡ₚ r.2 ++ mpt_iter r.1 /\
  forall q, nibbles q -> mpt_get r.1 q = if lex_lt q target then None else mpt_get t q.
Definition prunable {E} t : Prop :=
  forall target, canon t -> nibbles target ->
  exists r, mpt_prune (E := E) t target = Ok r /\ prunes t target r.

(** The branch left after pruning below child [n]. *)
Lemma pruned_children a cs n c c' rest pruned :
  length cs = 16%nat -> Forall canon cs -> cs !! n = Some c -> prunes c rest (c', pruned) ->
  let cs' := replicate n MEmpty ++ c' :: drop (S n) cs in
  let removed := concat (map mpt_iter (take n cs)) ++ pruned in
  length cs' = 16%nat /\ Forall canon cs' /\ (removed = [] -> cs' = cs) /\
  concat (map mpt_iter cs) ≡ₚ removed ++ concat (map mpt_iter cs') /\
  forall q, nibbles q -> mpt_get (MBranch a cs') q
    = if lex_lt q (Z.of_nat n :: rest) then None else mpt_get (MBranch a cs) q.
Proof.
  intros Hl Hcs Hc (Hcc & Hsame & Hperm & Hg) cs' removed. cbn [fst snd] in *.
  pose proof (lookup_lt_Some _ _ _ Hc) as Hlt. unfold cs', removed. split_and!.
  - rewrite length_app, length_replicate. simpl. rewrite length_drop. lia.
  - apply Forall_app. split; [by apply Forall_replicate|]. constructor; [done|by apply Forall_drop].
  - intros [Ht Hp]%app_nil. rewrite (Hsame Hp).
    apply iter_nil_replicate in Ht; [|by apply Forall_take].
    rewrite length_take_le in Ht by lia. rewrite <- Ht. by apply take_drop_middle.
  - rewrite <- (take_drop_middle cs n c Hc) at 1. rewrite !map_app, !concat_app. simpl.
    assert (Hr : concat (map mpt_iter (replicate n (MEmpty (T := T) (A := A)))) = [])
      by (clear; by induction n). rewrite Hr. simpl. rewrite Hperm. by rewrite <- !app_assoc.
  - intros [|m q] Hq; [done|]. apply Forall_cons_1 in Hq as [Hm Hq]. unfold nibble in Hm.
    rewrite lex_lt_cons. cbn [mpt_get]. rewrite !pick_child_lookup.
    destruct (Z.ltb_spec m (Z.of_nat n)) as [Hmn|Hmn]; simpl.
    + rewrite lookup_app_l by (rewrite length_replicate; lia). by rewrite lookup_replicate_2 by lia.
    + rewrite lookup_app_r by (rewrite length_replicate; lia). rewrite length_replicate.
      destruct (Z.eqb_spec m (Z.of_nat n)) as [->|Hne]; simpl.
      * rewrite Nat2Z.id, Nat.sub_diag, Hc. by apply Hg.
      * replace (Z.to_nat m - n)%nat with (S (Z.to_nat m - S n)) by lia. simpl.
        rewrite lookup_drop. by replace (S n + (Z.to_nat m - S n))%nat with (Z.to_nat m) by lia.
Qed.
Lemma prune_branch {E} a cs : Forall (prunable (E := E)) cs -> prunable (E := E) (MBranch a cs).
Proof.
  intros IH [|n rest] Ht Hp; cbn [mpt_prune].
  { eexists. split; [reflexivity|]. split; [done|]. split; [done|]. split; [done|].
    intros q _. by rewrite lex_lt_nil. }
  apply canon_branch in Ht as (Hl & Hn & Ha & Hcs).
  apply Forall_cons_1 in Hp as [Hn0 Hrest]. unfold nibble in Hn0.
  destruct (Z.leb_spec 16 n); [lia|]. rewrite pick_child_lookup.
  destruct (lookup_lt_is_Some_2 cs (Z.to_nat n)) as [c Hc]; [lia|]. rewrite Hc.
  destruct (Forall_lookup_1 _ _ _ _ IH Hc rest) as ([c' pruned] & -> & Hpr);
    [by apply (Forall_lookup_1 _ _ _ _ Hcs Hc)|done|].
  cbn [mbind outcome_bind].
  destruct (pruned_children a cs _ c c' rest pruned Hl Hcs Hc Hpr) as (Hl' & Hcs' & Hsame & Hperm & Hg).
  rewrite Z2Nat.id in Hg by lia.
  set (cs' := replicate (Z.to_nat n) MEmpty ++ c' :: drop (S (Z.to_nat n)) cs) in *.
  set (removed := concat (map mpt_iter (take (Z.to_nat n) cs)) ++ pruned) in *.
  clearbody cs' removed.
  destruct (count_filled cs') as [|[|k]] eqn:Hcount.
  - pose proof (count_filled_zero _ Hcount) as Hz. eexists. split; [reflexivity|]. split; [done|].
    split; [intros Hr; rewrite (Hsame Hr) in Hcount; lia|].
    assert (He : concat (map mpt_iter cs') = []) by (clear -Hz; by induction Hz as [|? ? ->]).
    split; [simpl; by rewrite Hperm, He|]. intros q Hq. rewrite <- Hg by done.
    destruct q as [|m q]; [done|]. simpl. rewrite pick_child_lookup.
    destruct (cs' !! Z.to_nat m) as [d|] eqn:Hd; [|done].
    by rewrite (Forall_lookup_1 _ _ _ _ Hz Hd).
  - destruct (single_child a cs' Hl' Hcount Hcs') as (i & d & -> & Hcan & Hx & Hgd & Hit).
    eexists. split; [reflexivity|]. split; [done|].
    split; [intros Hr; rewrite (Hsame Hr) in Hcount; lia|].
    split; [simpl; by rewrite Hperm, Hit|]. intros q Hq. cbn [fst]. by rewrite Hgd, Hg.
  - eexists. split; [reflexivity|].
    assert (Han : match removed with [] => a | _ => children_ann cs' end = children_ann cs')
      by (destruct removed; [by rewrite Hsame|done]).
    rewrite Han. split; [apply canon_branch; split_and!; [done|lia|done..]|].
    split; [intros Hr; by rewrite (Hsame Hr), Ha|]. split; [done|].
    intros q Hq. by apply Hg.
Qed.
Lemma prune_extension {E} a cp c : prunable (E := E) c -> prunable (E := E) (MExtension a cp c).
Proof.
  intros IH [|n rest] Ht Hp; cbn [mpt_prune].
  { eexists. split; [reflexivity|]. split; [done|]. split; [done|]. split; [done|].
    intros q _. by rewrite lex_lt_nil. }
  set (target := n :: rest) in *. clearbody target. pose proof (lex_take cp target) as Htake.
  pose proof Ht as (Hne & Hlen & Hcp & Hcne & Hx & Ha & Hc).
  destruct (lex_cmp cp _).
  - destruct (Htake []) as [rest' ->]. apply nibbles_app in Hp as [_ Hrest]. rewrite drop_app_length.
    destruct (IH rest' Hc Hrest) as ([c' pruned] & -> & Hcc & Hsame & Hperm & Hg).
    cbn [mbind outcome_bind fst snd] in *.
    assert (Hget : forall q, nibbles q -> under cp (mpt_get c') q
              = if lex_lt q (cp ++ rest') then None else under cp (mpt_get c) q).
    { intros q Hq. unfold under. destruct (starts_with cp q) eqn:Hs; [|by destruct (lex_lt _ _)].
      apply starts_with_spec in Hs as [r ->]. rewrite drop_app_length, lex_lt_app.
      apply Hg. by apply nibbles_app in Hq as [_ ?]. }
    assert (Hkeep : c' <> MEmpty -> is_extension c' = false ->
      prunes (MExtension a cp c) (cp ++ rest')
        (MExtension (match pruned with [] => a | _ => node_ann c' end) cp c', pruned)).
    { intros Hc'ne Hc'x. split; [|split; [intros Hr; cbn [snd] in Hr; by rewrite Hr, (Hsame Hr)|]].
      - split_and!; try done; [by rewrite Hc'x|]. destruct pruned; [by rewrite Hsame|done].
      - split; [done|]. intros q Hq. by apply Hget. }
    destruct c' as [|b w|b ds|b cp2 d|b w d]; try (eexists; split; [reflexivity|]; by apply Hkeep).
    + eexists. split; [reflexivity|]. split; [done|].
      split; [intros Hr; by rewrite <- (Hsame Hr) in Hcne|]. split; [done|].
      intros q Hq. cbn [fst mpt_get]. rewrite <- (Hget q Hq). symmetry. by apply under_none.
    + destruct Hcc as (? & ? & ? & ? & ? & ? & ?).
      eexists. split; [reflexivity|]. split.
      { apply extension_canon; [by apply nibbles_app| |done..]. by destruct cp. }
      split; [|split; [by simpl; rewrite iter_extension|]].
      * intros Hr. apply canon_unique; [|done|].
        { apply extension_canon; [by apply nibbles_app| |done..]. by destruct cp. }
        intros q Hq. cbn [fst]. by rewrite get_extension, under_under, <- (Hsame Hr).
      * intros q Hq. cbn [fst]. rewrite get_extension, under_under. by apply Hget.
  - eexists. split; [reflexivity|]. split; [done|].
    split; [by intros Hr; destruct Hcne; apply canon_iter_nil|].
    split; [simpl; by rewrite app_nil_r|].
    intros q Hq. simpl. unfold under. destruct (lex_lt q target) eqn:Hlt; [done|].
    destruct (starts_with cp q) eqn:Hs; [|done]. apply starts_with_spec in Hs as [r ->].
    by rewrite Htake in Hlt.
  - eexists. split; [reflexivity|]. split; [done|]. split; [done|]. split; [done|].
    intros q Hq. simpl. unfold under. destruct (starts_with cp q) eqn:Hs; [|by destruct (lex_lt _ _)].
    apply starts_with_spec in Hs as [r ->]. by rewrite Htake.
Qed.
Lemma prune_spec {E} t : prunable (E := E) t.
Proof.
  induction t as [|a v|a cs IH|a cp c IH|a v c IH] using Node_ind';
    [..|by apply prune_branch|by apply prune_extension|];
    intros [|n rest] Ht Hp; cbn [mpt_prune];
    try (eexists; split; [reflexivity|]; split; [done|]; split; [done|]; split; [done|];
         intros q _; rewrite ?lex_lt_nil; first [done|by destruct (lex_lt _ _)]).
  - eexists. split; [reflexivity|]. split; [done|]. split; [done|]. split; [done|].
    intros [|m q] _; [done|]. simpl. by destruct (lex_lt _ _).
  - destruct Ht as (Hin & Ha & Hc).
    destruct (IH (n :: rest) Hc Hp) as ([c' pruned] & -> & Hcc & Hsame & Hperm & Hg).
    eexists. split; [reflexivity|]. split; [done|]. split; [done|].
    split; [simpl; by rewrite Hperm|]. intros [|m q] Hq; cbn [fst].
    + by rewrite Hg.
    + by apply Hg.
Qed.

(** ** [find_predecessor] *)

(** [r] is the largest stored path with property [P], below the prefix [pre]. *)
Definition best_below t (pre : list Z) (P : list Z -> bool) (r : option (list Z * T)) : Prop :=
  match r with
  | None => forall q w, nibbles q -> P q = true -> mpt_get t q <> Some w
  | Some (k, v) =>
      exists k', k = pre ++ k' /\ nibbles k' /\ P k' = true /\ mpt_get t k' = Some v /\
        forall q w, nibbles q -> P q = true -> mpt_get t q = Some w ->
          q = k' \/ lex_lt q k' = true
  end.

Lemma last_some_spec {X} (f : Z -> Node T A -> option X) i cs :
  match last_some f i cs with
  | Some r => exists j c, cs !! j = Some c /\ f (i + Z.of_nat j) c = Some r /\
      forall k d, (j < k)%nat -> cs !! k = Some d -> f (i + Z.of_nat k) d = None
  | None => forall j c, cs !! j = Some c -> f (i + Z.of_nat j) c = None
  end.
Proof.
  revert i. induction cs as [|c cs IH]; intros i; simpl; [done|]. specialize (IH (i + 1)).
  destruct (last_some f (i + 1) cs) as [r|] eqn:Hr.
  - destruct IH as (j & d & Hj & Hf & Hk). exists (S j), d. split; [done|].
    split; [rewrite <- Hf; f_equal; lia|]. intros [|k] e Hlt He; [lia|].
    rewrite <- (Hk k e) by (done || lia). f_equal. lia.
  - assert (Hall : forall k d, cs !! k = Some d -> f (i + Z.of_nat (S k)) d = None)
      by (intros k d Hd; rewrite <- (IH k d Hd); f_equal; lia).
    destruct (f i c) as [r|] eqn:Hc.
    + exists 0%nat, c. split; [done|]. split; [by rewrite Z.add_0_r|].
      intros [|k] d Hlt Hd; [lia|]. by apply Hall.
    + intros [|j] d Hd; simplify_eq/=; [by rewrite Z.add_0_r|]. by apply Hall.
Qed.
Lemma branch_best a cs pre P f :
  length cs = 16%nat ->
  (forall j c, cs !! j = Some c ->
     best_below c (pre ++ [Z.of_nat j]) (fun q => P (Z.of_nat j :: q)) (f (Z.of_nat j) c)) ->
  best_below (MBranch a cs) pre P (last_some f 0 cs).
Proof.
  intros Hl Hf. pose proof (last_some_spec f 0 cs) as Hs.
  assert (Hq : forall q w, nibbles q -> mpt_get (MBranch a cs) q = Some w ->
            exists j c q', q = Z.of_nat j :: q' /\ nibbles q' /\ cs !! j = Some c /\ mpt_get c q' = Some w).
  { intros [|m q] w Hq Hw; [done|]. apply Forall_cons_1 in Hq as [Hm Hq]. unfold nibble in Hm.
    simpl in Hw. rewrite pick_child_lookup in Hw. destruct (cs !! Z.to_nat m) as [c|] eqn:Hc; [|done].
    exists (Z.to_nat m), c, q. by rewrite Z2Nat.id by lia. }
  destruct (last_some f 0 cs) as [[k v]|].
  - destruct Hs as (j & c & Hj & Hfj & Hk). specialize (Hf j c Hj) as Hb. rewrite Z.add_0_l in Hfj.
    rewrite Hfj in Hb. destruct Hb as (k' & -> & Hk' & HP & Hv & Hmax).
    pose proof (lookup_lt_Some _ _ _ Hj). exists (Z.of_nat j :: k').
    split; [by rewrite <- app_assoc|]. split; [constructor; [unfold nibble; lia|done]|].
    split; [done|]. split; [simpl; by rewrite pick_child_lookup, Nat2Z.id, Hj|].
    intros q w Hnq HPq Hw. destruct (Hq q w Hnq Hw) as (i & d & q' & -> & Hq' & Hd & Hw').
    rewrite lex_lt_cons. destruct (Nat.lt_trichotomy i j) as [?|[->|Hij]].
    + right. rewrite (proj2 (Z.ltb_lt _ _)) by lia. done.
    + simplify_eq. rewrite Z.ltb_irrefl, Z.eqb_refl. destruct (Hmax q' w); naive_solver.
    + specialize (Hf i d Hd). rewrite (Hk i d Hij Hd : f (Z.of_nat i) d = None) in Hf.
      by destruct (Hf q' w Hq' HPq).
  - intros q w Hnq HPq Hw. destruct (Hq q w Hnq Hw) as (i & d & q' & -> & Hq' & Hd & Hw').
    specialize (Hf i d Hd). rewrite (Hs i d Hd : f (Z.of_nat i) d = None) in Hf.
    by destruct (Hf q' w Hq' HPq).
Qed.
Lemma ext_best a cp c pre P r :
  nibbles cp -> best_below c (pre ++ cp) (fun q => P (cp ++ q)) r ->
  best_below (MExtension a cp c) pre P r.
Proof.
  intros Hcp Hr. destruct r as [[k v]|].
  - destruct Hr as (k' & -> & Hk' & HP & Hv & Hmax). exists (cp ++ k').
    split; [by rewrite app_assoc|]. split; [by apply nibbles_app|]. split; [done|].
    split; [simpl; by rewrite under_app_r|].
    intros q w Hq HPq Hw. simpl in Hw. apply under_spec in Hw as (q' & -> & Hw).
    apply nibbles_app in Hq as [_ Hq]. rewrite lex_lt_app.
    destruct (Hmax q' w Hq HPq Hw) as [->|]; auto.
  - intros q w Hq HPq Hw. simpl in Hw. apply under_spec in Hw as (q' & -> & Hw).
    apply nibbles_app in Hq as [_ Hq]. by destruct (Hr q' w).
Qed.
Lemma mid_best a v c pre P r :
  mpt_get c [] = None -> P [] = true -> best_below c pre P r ->
  best_below (MMidBranchLeaf a v c) pre P
    (match r with Some r => Some r | None => Some (pre, v) end).
Proof.
  intros Hnil HP Hr. destruct r as [[k w]|].
  - destruct Hr as (k' & -> & Hk' & HPk & Hw & Hmax). exists k'.
    destruct k' as [|n k']; [congruence|]. split; [done|]. split; [done|]. split; [done|].
    split; [done|]. intros [|m q] x Hq HPq Hx; [by right|]. by eapply Hmax.
  - exists []. split; [by rewrite app_nil_r|]. split; [constructor|]. split; [done|]. split; [done|].
    intros [|m q] x Hq HPq Hx; [by left|]. by destruct (Hr (m :: q) x).
Qed.
Lemma best_ext t pre P Q r :
  (forall q, nibbles q -> mpt_get t q <> None -> P q = Q q) -> best_below t pre P r ->
  best_below t pre Q r.
Proof.
  intros HPQ Hr. destruct r as [[k v]|].
  - destruct Hr as (k' & -> & Hk' & HP & Hv & Hmax). exists k'. split; [done|]. split; [done|].
    split; [rewrite <- HPQ; [done..|congruence]|]. split; [done|]. intros q w Hq HQ Hw.
    eapply Hmax; [done| |done]. rewrite HPQ; [done..|congruence].
  - intros q w Hq HQ Hw. apply (Hr q w Hq); [|done]. rewrite HPQ; [done..|congruence].
Qed.

Lemma find_largest_spec t pre :
  canon t -> best_below t pre (fun _ => true) (find_largest_key_in_subtree t pre).
Proof.
  revert pre. induction t as [|a v|a cs IH|a cp c IH|a v c IH] using Node_ind'; intros pre Ht; simpl.
  - done.
  - exists []. split; [by rewrite app_nil_r|]. split; [constructor|]. split; [done|]. split; [done|].
    intros [|] w _ _; [by left|done].
  - apply canon_branch in Ht as (Hl & _ & _ & Hcs). apply branch_best; [done|]. intros j c Hj.
    apply (Forall_lookup_1 _ _ _ _ IH Hj), (Forall_lookup_1 _ _ _ _ Hcs Hj).
  - destruct Ht as (_ & _ & Hcp & _ & _ & _ & Hc). apply ext_best; [done|]. by apply IH.
  - destruct Ht as (Hin & _ & Hc). apply mid_best; [by apply get_nil|done|]. by apply IH.
Qed.

(** Below a prefix that matches the target so far. *)
Definition finds_pred {E} t : Prop := forall explored rest,
  canon t -> nibbles rest ->
  (forall k, nibbles k -> k <> [] -> mpt_get t (rest ++ k) = None) ->
  exists r, find_predecessor_recursive (E := E) t (explored ++ rest) explored None = Ok r /\
    best_below t explored (fun q => lex_lt q rest) r.

Lemma pred_branch {E} a cs : Forall (finds_pred (E := E)) cs -> finds_pred (E := E) (MBranch a cs).
Proof.
  intros IH explored rest Ht Hrest Hfree. cbn [find_predecessor_recursive].
  rewrite drop_app_length. destruct rest as [|n rest].
  { exists None. split; [done|]. intros q w _ Hq. by rewrite lex_lt_nil in Hq. }
  apply canon_branch in Ht as (Hl & _ & _ & Hcs).
  apply Forall_cons_1 in Hrest as [Hn Hrest]. unfold nibble in Hn. rewrite pick_child_lookup.
  destruct (lookup_lt_is_Some_2 cs (Z.to_nat n)) as [c Hc]; [lia|]. rewrite Hc.
  assert (Hchild : exists r,
    (if mpt_is_empty c then Ok None
     else find_predecessor_recursive (E := E) c (explored ++ n :: rest) (explored ++ [n]) None) = Ok r /\
    best_below c (explored ++ [n]) (fun q => lex_lt q rest) r).
  { destruct (mpt_is_empty c) eqn:He; [exists None; by destruct c|].
    destruct (Forall_lookup_1 _ _ _ _ IH Hc (explored ++ [n]) rest) as (r & Hr & Hb);
      [by apply (Forall_lookup_1 _ _ _ _ Hcs Hc)|done| |].
    - intros k Hk Hne. specialize (Hfree k Hk Hne). simpl in Hfree.
      by rewrite pick_child_lookup, Hc in Hfree.
    - rewrite <- app_assoc in Hr. by exists r. }
  destruct Hchild as (r & -> & Hb). cbn [mbind outcome_bind].
  assert (Hlow : best_below (MBranch a cs) explored (fun q => match q with [] => false | i :: _ => i <? n end)
    (last_some (fun i c => if i <? n then find_largest_key_in_subtree c (explored ++ [i]) else None) 0 cs)).
  { apply branch_best; [done|]. intros j d Hj. destruct (Z.of_nat j <? n) eqn:Hjn; [|done].
    apply find_largest_spec, (Forall_lookup_1 _ _ _ _ Hcs Hj). }
  assert (Hsplit : forall q w, nibbles q -> lex_lt q (n :: rest) = true ->
    mpt_get (MBranch a cs) q = Some w ->
    (exists q', q = n :: q' /\ nibbles q' /\ lex_lt q' rest = true /\ mpt_get c q' = Some w) \/
    match q with [] => false | i :: _ => i <? n end = true).
  { intros [|m q] w Hq Hlt Hw; [done|]. apply Forall_cons_1 in Hq as [Hm Hq]. rewrite lex_lt_cons in Hlt.
    destruct (m <? n) eqn:Hmn; [by right|]. destruct (Z.eqb_spec m n) as [->|]; [|done]. left.
    simpl in Hw. rewrite pick_child_lookup, Hc in Hw. by exists q. }
  destruct r as [[k v]|].
  - eexists. split; [reflexivity|]. destruct Hb as (k' & -> & Hk' & HP & Hv & Hmax).
    exists (n :: k'). split; [by rewrite <- app_assoc|]. split; [by constructor|].
    split; [by rewrite lex_lt_cons, Z.ltb_irrefl, Z.eqb_refl|].
    split; [simpl; by rewrite pick_child_lookup, Hc|]. intros q w Hq HPq Hw.
    destruct (Hsplit q w Hq HPq Hw) as [(q' & -> & Hq' & Hlt & Hw')|Hlow'].
    + rewrite lex_lt_cons, Z.ltb_irrefl, Z.eqb_refl. simpl.
      destruct (Hmax q' w Hq' Hlt Hw') as [->|]; auto.
    + destruct q as [|i q]; [done|]. right. by rewrite lex_lt_cons, Hlow'.
  - exists (last_some (fun i c => if i <? n then find_largest_key_in_subtree c (explored ++ [i]) else None) 0 cs).
    split; [by destruct (last_some _ 0 cs) as [[??]|]|].
    eapply best_ext; [|exact Hlow]. intros q Hq Hg. destruct (mpt_get (MBranch a cs) q) as [w|] eqn:Hw; [|done].
    destruct (lex_lt q (n :: rest)) eqn:Hlt.
    + destruct (Hsplit q w Hq Hlt Hw) as [(q' & -> & Hq' & Hlt' & Hw')|?]; [|done].
      by destruct (Hb q' w).
    + destruct q as [|i q]; [done|]. rewrite lex_lt_cons in Hlt. by destruct (i <? n).
Qed.

Lemma match_len_lex cp rest :
  (match_len cp rest < length cp)%nat -> (match_len cp rest < length rest)%nat ->
  exists x y, cp !! match_len cp rest = Some x /\ rest !! match_len cp rest = Some y /\ x <> y /\
    forall q, lex_lt (cp ++ q) rest = (x <? y).
Proof.
  intros H1 H2. destruct (match_len_split cp rest) as (pre & p' & q' & -> & -> & Hm & Hd).
  rewrite Hm in *. rewrite length_app in H1, H2.
  destruct p' as [|x p'], q' as [|y q']; simpl in H1, H2; try lia.
  exists x, y. rewrite !list_lookup_middle by done. split; [done|]. split; [done|]. split; [done|].
  intros q. rewrite <- app_assoc, lex_lt_app. simpl app. rewrite lex_lt_cons.
  destruct (Z.eqb_spec x y); [done|]. by rewrite orb_false_r.
Qed.
Lemma pred_extension {E} a cp c : finds_pred (E := E) c -> finds_pred (E := E) (MExtension a cp c).
Proof.
  intros IH explored rest Ht Hrest Hfree. cbn [find_predecessor_recursive].
  rewrite drop_app_length. destruct rest as [|n rest].
  { exists None. split; [done|]. intros q w _ Hq. by rewrite lex_lt_nil in Hq. }
  set (target := n :: rest) in *. clearbody target.
  pose proof Ht as (_ & _ & Hcp & Hcne & _ & _ & Hc).
  destruct (match_len_split cp target) as (pre & cp' & r' & Hcp0 & Htar & Hlen & _).
  assert (Hlcp : length cp = (length pre + length cp')%nat) by (by rewrite Hcp0, length_app).
  destruct (Nat.eqb_spec (match_len cp target) (length cp)) as [Heq|Hneq].
  - destruct cp' as [|x cp']; [|simpl in Hlcp; lia].
    rewrite app_nil_r in Hcp0. subst pre. clear Heq Hlen Hlcp. subst target.
    apply nibbles_app in Hrest as [_ Hr'].
    destruct (IH (explored ++ cp) r' Hc Hr') as (r & Hr & Hb).
    { intros k Hk Hne. specialize (Hfree k Hk Hne). rewrite <- app_assoc in Hfree. simpl in Hfree.
      by rewrite under_app_r in Hfree. }
    rewrite <- app_assoc in Hr. exists r. split; [done|]. apply ext_best; [done|].
    eapply best_ext; [|exact Hb]. intros q _ _. by rewrite lex_lt_app.
  - assert (Hl1 : (match_len cp target < length cp)%nat) by lia.
    assert (Hl2 : (match_len cp target < length target)%nat).
    { destruct r' as [|y r']; [|rewrite Hlen, Htar, length_app; simpl; lia]. exfalso.
      rewrite app_nil_r in Htar. subst pre. destruct (canon_inhabited c Hc Hcne) as (q & w & Hq & Hw).
      specialize (Hfree (cp' ++ q)). rewrite app_assoc, <- Hcp0 in Hfree. simpl in Hfree.
      rewrite under_app_r, Hw in Hfree. rewrite Hcp0 in Hcp. apply nibbles_app in Hcp as [_ Hcp'].
      enough (Some w = None) by done. apply Hfree; [by apply nibbles_app|].
      intros [-> ->]%app_nil. simpl in Hlcp. lia. }
    destruct (match_len_lex cp target Hl1 Hl2) as (x & y & -> & -> & Hxy & Hlex).
    cbn [unwrap mbind outcome_bind].
    assert (Hall : forall q, nibbles q -> mpt_get (MExtension a cp c) q <> None ->
              lex_lt q target = (x <? y)).
    { intros q Hq Hg. simpl in Hg. destruct (under cp (mpt_get c) q) as [w|] eqn:Hw; [|done].
      apply under_spec in Hw as (q' & -> & _). apply Hlex. }
    destruct (x <? y) eqn:Hlt.
    + exists (find_largest_key_in_subtree (MExtension a cp c) explored).
      split; [by destruct (find_largest_key_in_subtree _ _) as [[??]|]|].
      eapply best_ext; [|by apply find_largest_spec]. intros q Hq Hg. symmetry. by apply Hall.
    + exists None. split; [done|]. intros q w Hq HP Hw. rewrite Hall in HP by (done || congruence).
      done.
Qed.
Lemma pred_spec {E} t : finds_pred (E := E) t.
Proof.
  induction t as [|a v|a cs IH|a cp c IH|a v c IH] using Node_ind';
    [..|by apply pred_branch|by apply pred_extension|];
    intros explored rest Ht Hrest Hfree; cbn [find_predecessor_recursive];
    rewrite drop_app_length; destruct rest as [|n rest];
    try (exists None; split; [done|]; intros q w _ Hq; by rewrite lex_lt_nil in Hq).
  - by exists None.
  - eexists. split; [reflexivity|]. exists []. split; [by rewrite app_nil_r|]. split; [constructor|].
    split; [done|]. split; [done|]. intros [|] w _ _; [by left|done].
  - destruct Ht as (Hin & _ & Hc). destruct (IH explored (n :: rest) Hc Hrest) as (r & -> & Hb).
    { intros k Hk Hne. by apply (Hfree k). }
    eexists. split; [|apply mid_best; [by apply get_nil|done|exact Hb]]. by destruct r.
Qed.

(** ** Iteration *)
Definition leaves_from (pre : list Z) : Z -> list (Node T A) -> list (list Z * T) :=
  fix go (i : Z) (cs : list (Node T A)) : list (list Z * T) :=
    match cs with
    | [] => []
    | c :: cs => mpt_leaves c (pre ++ [i]) ++ go (i + 1) cs
    end.
Lemma leaves_from_elem pre i cs x :
  x ∈ leaves_from pre i cs <->
  exists j c, cs !! j = Some c /\ x ∈ mpt_leaves c (pre ++ [i + Z.of_nat j]).
Proof.
  revert i. induction cs as [|c cs IH]; intros i; simpl.
  - split; [by intros ?%elem_of_nil|by intros (j & c & ? & _)].
  - rewrite elem_of_app, IH. split.
    + intros [Hx|(j & d & Hd & Hx)]; [exists 0%nat, c; by rewrite Z.add_0_r|].
      exists (S j), d. split; [done|]. by replace (i + Z.of_nat (S j)) with (i + 1 + Z.of_nat j) by lia.
    + intros ([|j] & d & Hd & Hx); simplify_eq/=; [left; by rewrite Z.add_0_r in Hx|].
      right. exists j, d. split; [done|]. by replace (i + 1 + Z.of_nat j) with (i + Z.of_nat (S j)) by lia.
Qed.
Lemma leaves_elem t pre q v :
  canon t -> (q, v) ∈ mpt_leaves t pre <->
  exists k, q = pre ++ k /\ nibbles k /\ mpt_get t k = Some v.
Proof.
  revert pre. induction t as [|a w|a cs IH|a cp c IH|a w c IH] using Node_ind'; intros pre Ht;
    cbn [mpt_leaves].
  - rewrite elem_of_nil. split; [done|]. by intros (k & _ & _ & ?).
  - rewrite list_elem_of_singleton. split.
    + intros [= -> ->]. exists []. rewrite app_nil_r. split; [done|]. split; [constructor|done].
    + intros ([|] & -> & _ & [= ->]). by rewrite app_nil_r.
  - fold (leaves_from pre). rewrite leaves_from_elem.
    apply canon_branch in Ht as (Hl & _ & _ & Hcs). split.
    + intros (j & c & Hj & Hx). pose proof (lookup_lt_Some _ _ _ Hj).
      apply (Forall_lookup_1 _ _ _ _ IH Hj) in Hx as (k & -> & Hk & Hv);
        [|apply (Forall_lookup_1 _ _ _ _ Hcs Hj)].
      exists (Z.of_nat j :: k). split; [by rewrite <- app_assoc|].
      split; [constructor; [unfold nibble; lia|done]|].
      simpl. by rewrite pick_child_lookup, Nat2Z.id, Hj.
    + intros ([|m k] & -> & Hk & Hv); [done|]. apply Forall_cons_1 in Hk as [Hm Hk].
      unfold nibble in Hm. simpl in Hv. rewrite pick_child_lookup in Hv.
      destruct (cs !! Z.to_nat m) as [c|] eqn:Hc; [|done]. exists (Z.to_nat m), c. split; [done|].
      apply (Forall_lookup_1 _ _ _ _ IH Hc); [apply (Forall_lookup_1 _ _ _ _ Hcs Hc)|].
      exists k. split; [|done]. rewrite <- app_assoc. simpl. do 2 f_equal. lia.
  - destruct Ht as (_ & _ & Hcp & _ & _ & _ & Hc). rewrite IH by done. split.
    + intros (k & -> & Hk & Hv). exists (cp ++ k). split; [by rewrite app_assoc|].
      split; [by apply nibbles_app|]. simpl. by rewrite under_app_r.
    + intros (k & -> & Hk & Hv). simpl in Hv. apply under_spec in Hv as (r & -> & Hv).
      apply nibbles_app in Hk as [_ Hk]. exists r. by rewrite app_assoc.
  - destruct Ht as (Hin & _ & Hc). rewrite elem_of_app, list_elem_of_singleton, IH by done. split.
    + intros [(k & -> & Hk & Hv)|[= -> ->]].
      * exists k. split; [done|]. split; [done|]. destruct k; [|done]. by rewrite get_nil in Hv.
      * exists []. rewrite app_nil_r. split; [done|]. split; [constructor|done].
    + intros ([|m k] & -> & Hk & Hv); [right; simpl in Hv; rewrite app_nil_r; congruence|].
      left. by exists (m :: k).
Qed.
Lemma leaves_NoDup t pre : canon t -> NoDup (mpt_leaves t pre).*1.
Proof.
  revert pre. induction t as [|a w|a cs IH|a cp c IH|a w c IH] using Node_ind'; intros pre Ht;
    cbn [mpt_leaves].
  - constructor.
  - apply NoDup_singleton.
  - fold (leaves_from pre). apply canon_branch in Ht as (_ & _ & _ & Hcs). generalize 0 as i.
    induction cs as [|c cs IHcs]; intros i; [constructor|].
    apply Forall_cons_1 in IH as [IHc IH]. apply Forall_cons_1 in Hcs as [Hc Hcs].
    change (leaves_from pre i (c :: cs)) with (mpt_leaves c (pre ++ [i]) ++ leaves_from pre (i + 1) cs).
    rewrite fmap_app. apply list.NoDup_app. split; [by apply IHc|]. split; [|by apply IHcs].
    intros q [[q1 v1] [-> H1]]%list_elem_of_fmap_1 [[q2 v2] [Heq H2]]%list_elem_of_fmap_1.
    apply leaves_elem in H1 as (k1 & -> & _ & _); [|done].
    apply leaves_from_elem in H2 as (j & d & Hd & H2).
    apply leaves_elem in H2 as (k2 & -> & _ & _); [|apply (Forall_lookup_1 _ _ _ _ Hcs Hd)].
    simpl in Heq. rewrite <- !app_assoc in Heq. simplify_list_eq. lia.
  - destruct Ht as (_ & _ & _ & _ & _ & _ & Hc). by apply IH.
  - destruct Ht as (Hin & _ & Hc). rewrite fmap_app. apply list.NoDup_app. split; [by apply IH|].
    split; [|apply NoDup_singleton]. intros q [[q1 v1] [-> H1]]%list_elem_of_fmap_1 Hq.
    apply list_elem_of_singleton in Hq. simpl in Hq. subst q1.
    apply leaves_elem in H1 as (k & Hk & _ & Hv); [|done]. rewrite <- (app_nil_r pre) in Hk at 1.
    simplify_list_eq. by rewrite get_nil in Hv.
Qed.
End queries.

(** The recorded size is the number of stored paths, as a [u64]. *)
Section size.
Context {T : Type}.
Implicit Types (t c : Node T Z) (cs : list (Node T Z)).
Lemma trunc_add a b : trunc u64_max (trunc u64_max a + b) = trunc u64_max (a + b).
Proof. unfold trunc. by rewrite Zplus_mod_idemp_l. Qed.
Lemma size_leaves t pre :
  canon t -> node_ann t = trunc u64_max (Z.of_nat (length (mpt_leaves t pre))).
Proof.
  revert pre. induction t as [|a w|a cs IH|a cp c IH|a w c IH] using Node_ind'; intros pre Ht;
    cbn [mpt_leaves node_ann].
  - done.
  - by rewrite Ht.
  - apply canon_branch in Ht as (_ & _ & -> & Hcs). fold (leaves_from pre (T := T) (A := Z)).
    unfold children_ann. change (ann_empty (T := T) : Z) with (trunc u64_max 0).
    assert (Hgen : forall acc i,
      foldl (fun acc c => append (T := T) acc (node_ann c)) (trunc u64_max acc) cs
      = trunc u64_max (acc + Z.of_nat (length (leaves_from pre i cs)))).
    { induction cs as [|c cs IHcs]; intros acc i; [by rewrite Z.add_0_r|].
      apply Forall_cons_1 in IH as [IHc IH]. apply Forall_cons_1 in Hcs as [Hc Hcs].
      cbn [foldl]. rewrite (IHc (pre ++ [i]) Hc). simpl append. unfold SizeAnn_append.
      rewrite trunc_add, Z.add_comm, trunc_add, (IHcs IH Hcs _ (i + 1)). f_equal.
      change (leaves_from pre i (c :: cs)) with (mpt_leaves c (pre ++ [i]) ++ leaves_from pre (i + 1) cs).
      rewrite length_app. lia. }
    rewrite (Hgen 0 0). done.
  - destruct Ht as (_ & _ & _ & _ & _ & -> & Hc). by apply IH.
  - destruct Ht as (_ & -> & Hc). rewrite (IH pre Hc). simpl append. unfold SizeAnn_append.
    rewrite trunc_add, length_app. simpl. f_equal. lia.
Qed.
End size.

(** ** Properties *)
Section properties.
Context {T A : Type} `{AnnotationLaws T A}.
Implicit Types t : Node T A.

(** C19: [insert] never panics on nibble paths. It returns the value stored before,
    and afterwards the inserted path holds the new value and every other path
    what it held. *)
Theorem mpt_insert_lookup t p v :
  node_ok t -> nibbles p ->
  exists t' old, mpt_insert (E := Empty_set) t p v = Ok (t', old) /\ node_ok t' /\
    mpt_lookup (E := Empty_set) t p = Ok old /\
    mpt_lookup (E := Empty_set) t' p = Ok (Some v) /\
    forall q, nibbles q -> q <> p ->
      mpt_lookup (E := Empty_set) t' q = mpt_lookup (E := Empty_set) t q.
Proof.
  intros Ht Hp. destruct (insert_rec_spec (E := Empty_set) (S (S (mpt_weight t))) t p v Ht Hp)
    as ([t' old] & Hi & Hok & Hold & Hg); [lia|]. cbn [fst snd] in *.
  exists t', old. split; [done|]. split; [done|]. rewrite !mpt_lookup_get, Hg, Hold by done.
  split; [done|]. split; [by rewrite decide_True|].
  intros q Hq Hne. rewrite !mpt_lookup_get, Hg by done. by rewrite decide_False.
Qed.

(** [remove] on a canonical trie, for a path that is stored or has nothing
    stored strictly below it: no panic, the stored value is returned, the path
    becomes free, every other path keeps its value and the trie stays canonical. *)
Theorem mpt_remove_lookup t p :
  node_typed t = true -> is_canonical t = true -> nibbles p -> unextended t p ->
  exists t' old, mpt_remove (E := Empty_set) t p = Ok (t', old) /\ is_canonical t' = true /\
    mpt_lookup (E := Empty_set) t p = Ok old /\
    mpt_lookup (E := Empty_set) t' p = Ok None /\
    forall q, nibbles q -> q <> p ->
      mpt_lookup (E := Empty_set) t' q = mpt_lookup (E := Empty_set) t q.
Proof using All.
  intros Hty Hcan Hp Hu. pose proof (proj2 (canon_reflect t) (conj Hty Hcan)) as Ht.
  destruct (remove_spec (E := Empty_set) t p Ht Hp Hu) as ([t' old] & Hr & Hc & _ & Hold & Hg).
  cbn [fst snd] in *. exists t', old. split; [done|]. split; [by apply canon_reflect|].
  apply canon_ok in Ht as Hok, Hc as Hok'. rewrite !mpt_lookup_get, Hold, Hg by done.
  split; [done|]. split; [by rewrite decide_True|].
  intros q Hq Hne. rewrite !mpt_lookup_get, Hg by done. by rewrite decide_False.
Qed.

(** [prune] on a canonical trie: no panic; exactly the paths below the target
    (lexicographically) disappear and the others, the target included, keep
    their values; the removed values together with the remaining ones are the
    values there were; the trie stays canonical. *)
Theorem mpt_prune_lookup t target :
  node_typed t = true -> is_canonical t = true -> nibbles target ->
  exists t' removed, mpt_prune (E := Empty_set) t target = Ok (t', removed) /\
    is_canonical t' = true /\ mpt_iter t ≡ₚ removed ++ mpt_iter t' /\
    forall q, nibbles q -> mpt_lookup (E := Empty_set) t' q
      = if lex_lt q target then Ok None else mpt_lookup (E := Empty_set) t q.
Proof.
  intros Hty Hcan Hp. pose proof (proj2 (canon_reflect t) (conj Hty Hcan)) as Ht.
  destruct (prune_spec (E := Empty_set) t target Ht Hp) as ([t' removed] & Hr & Hc & _ & Hperm & Hg).
  cbn [fst snd] in *. exists t', removed. split; [done|]. split; [by apply canon_reflect|].
  split; [done|]. apply canon_ok in Ht as Hok, Hc as Hok'.
  intros q Hq. rewrite !mpt_lookup_get, Hg by done. by destruct (lex_lt q target).
Qed.

(** [find_predecessor] on a canonical trie with nothing stored strictly below
    the target returns the entry with the largest path below the target, or
    nothing if there is none; it does not panic. *)
Theorem mpt_find_predecessor_best t target :
  node_typed t = true -> is_canonical t = true -> nibbles target ->
  (forall k, nibbles k -> k <> [] -> mpt_lookup (E := Empty_set) t (target ++ k) = Ok None) ->
  exists r, find_predecessor (E := Empty_set) t target = Ok r /\
    match r with
    | Some (k, v) =>
        mpt_lookup (E := Empty_set) t k = Ok (Some v) /\ lex_lt k target = true /\
        forall q w, nibbles q -> mpt_lookup (E := Empty_set) t q = Ok (Some w) ->
          lex_lt q target = true -> q = k \/ lex_lt q k = true
    | None => forall q w, nibbles q -> lex_lt q target = true ->
                mpt_lookup (E := Empty_set) t q <> Ok (Some w)
    end.
Proof.
  intros Hty Hcan Hp Hfree. pose proof (proj2 (canon_reflect t) (conj Hty Hcan)) as Ht.
  apply canon_ok in Ht as Hok.
  destruct (pred_spec (E := Empty_set) t [] target Ht Hp) as (r & Hr & Hb).
  { intros k Hk Hne. specialize (Hfree k Hk Hne).
    rewrite mpt_lookup_get in Hfree; [congruence|done|by apply nibbles_app]. }
  exists r. split; [done|]. destruct r as [[k v]|].
  - destruct Hb as (k' & -> & Hk & Hlt & Hv & Hmax). simpl. rewrite mpt_lookup_get, Hv by done.
    split; [done|]. split; [done|]. intros q w Hq Hw Hql.
    rewrite mpt_lookup_get in Hw by done. injection Hw as Hw. by eapply Hmax.
  - intros q w Hq Hql. rewrite mpt_lookup_get by done. intros [= Hw]. by eapply Hb.
Qed.

(** A canonical trie is determined by its content: two canonical tries that
    look up the same value for every path are the same tree, annotations
    included, and so have the same hash. *)
Theorem mpt_canonical_unique t1 t2 :
  node_typed t1 = true -> is_canonical t1 = true ->
  node_typed t2 = true -> is_canonical t2 = true ->
  (forall q, nibbles q ->
     mpt_lookup (E := Empty_set) t1 q = mpt_lookup (E := Empty_set) t2 q) ->
  t1 = t2.
Proof.
  intros Hy1 Hc1 Hy2 Hc2 Hs.
  pose proof (proj2 (canon_reflect t1) (conj Hy1 Hc1)) as H1.
  pose proof (proj2 (canon_reflect t2) (conj Hy2 Hc2)) as H2.
  apply canon_unique; [done..|]. intros q Hq. specialize (Hs q Hq).
  rewrite !mpt_lookup_get in Hs by (done || by apply canon_ok). by injection Hs.
Qed.

(** Tries made by the operations, within the conditions [insert] and [remove]
    need. *)
Inductive mpt_built : Node T A -> Prop :=
| mpt_built_new : mpt_built MEmpty
| mpt_built_insert t p v r :
    mpt_built t -> nibbles p -> short t -> unextended t p ->
    mpt_insert (E := Empty_set) t p v = Ok r -> mpt_built r.1
| mpt_built_remove t p r :
    mpt_built t -> nibbles p -> unextended t p ->
    mpt_remove (E := Empty_set) t p = Ok r -> mpt_built r.1
| mpt_built_prune t p r :
    mpt_built t -> nibbles p -> mpt_prune (E := Empty_set) t p = Ok r -> mpt_built r.1.
Lemma mpt_built_canon t : mpt_built t -> canon t.
Proof using All.
  induction 1 as [|t p v r _ IH Hp Hs Hu Hi|t p r _ IH Hp Hu Hr|t p r _ IH Hp Hr].
  - done.
  - by apply insert_canon in Hi as [? _].
  - destruct (remove_spec (E := Empty_set) t p IH Hp Hu) as (r' & Hr' & Hc & _). congruence.
  - destruct (prune_spec (E := Empty_set) t p IH Hp) as (r' & Hr' & Hc & _). congruence.
Qed.
(** Every trie built by [insert], [remove] and [prune] is canonical, and so is
    accepted when it is read back, as long as inserted paths are stored already
    or are no strict prefixes of stored ones, and stored paths are at most 255
    nibbles long when something is inserted. *)
Theorem mpt_built_canonical t :
  mpt_built t -> node_typed t = true /\ is_canonical t = true.
Proof using All. intros Hb. apply canon_reflect. by apply mpt_built_canon. Qed.

(** Iterating over a canonical trie lists every stored path exactly once, with
    its value. *)
Theorem mpt_leaves_exact t :
  node_typed t = true -> is_canonical t = true ->
  NoDup (mpt_leaves t []).*1 /\
  forall q v, (q, v) ∈ mpt_leaves t [] <->
    nibbles q /\ mpt_lookup (E := Empty_set) t q = Ok (Some v).
Proof.
  intros Hty Hcan. pose proof (proj2 (canon_reflect t) (conj Hty Hcan)) as Ht.
  split; [by apply leaves_NoDup|]. intros q v. rewrite leaves_elem by done. split.
  - intros (k & -> & Hk & Hv). simpl. rewrite mpt_lookup_get, Hv; [done|by apply canon_ok|done].
  - intros [Hq Hv]. rewrite mpt_lookup_get in Hv by (done || by apply canon_ok).
    exists q. split; [done|]. split; [done|]. by injection Hv.
Qed.
End properties.

(** ** A concrete trie *)
Definition insert_all (l : list (list Z * Z)) : Node Z Z :=
  foldl (fun t kv => match mpt_insert (E := Empty_set) t kv.1 kv.2 with
                     | Ok (t', _) => t' | _ => t end) MEmpty l.
Definition toy_trie : Node Z Z := insert_all [([1;2;3], 100); ([1;2;4], 104); ([2;2;4], 105)].

Lemma mpt_insert_lookup_witness :
  exists t' old, mpt_insert (E := Empty_set) toy_trie [1;2;4] 7 = Ok (t', old) /\
    mpt_lookup (E := Empty_set) t' [1;2;4] = Ok (Some 7).
Proof.
  destruct (mpt_insert_lookup toy_trie [1;2;4] 7) as (t' & old & Hi & _ & _ & Hl & _).
  - apply canon_ok, canon_reflect. vm_compute. done.
  - repeat constructor; lia.
  - by exists t', old.
Defined.
Lemma toy_unextended : unextended toy_trie [1;2;3].
Proof. by intros Hn. Qed.
Lemma mpt_remove_lookup_witness :
  exists t' old, mpt_remove (E := Empty_set) toy_trie [1;2;3] = Ok (t', old) /\
    mpt_lookup (E := Empty_set) t' [1;2;3] = Ok None.
Proof.
  destruct (mpt_remove_lookup toy_trie [1;2;3]) as (t' & old & Hr & _ & _ & Hl & _).
  - reflexivity.
  - vm_compute. reflexivity.
  - repeat constructor; lia.
  - apply toy_unextended.
  - by exists t', old.
Defined.
Lemma mpt_prune_lookup_witness :
  exists t' removed, mpt_prune (E := Empty_set) toy_trie [1;2;4] = Ok (t', removed) /\
    mpt_lookup (E := Empty_set) t' [1;2;3] = Ok None.
Proof.
  destruct (mpt_prune_lookup toy_trie [1;2;4]) as (t' & removed & Hr & _ & _ & Hl).
  - reflexivity.
  - vm_compute. reflexivity.
  - repeat constructor; lia.
  - exists t', removed. split; [done|]. rewrite (Hl [1;2;3]); [done|]. repeat constructor; lia.
Defined.
Lemma mpt_find_predecessor_best_witness :
  exists r, find_predecessor (E := Empty_set) toy_trie [2;2;4] = Ok r.
Proof.
  destruct (mpt_find_predecessor_best toy_trie [2;2;4]) as (r & Hr & _).
  - reflexivity.
  - vm_compute. reflexivity.
  - repeat constructor; lia.
  - intros k Hk Hne. destruct k; [done|reflexivity].
  - by exists r.
Defined.
Lemma mpt_canonical_unique_witness :
  toy_trie = insert_all [([2;2;4], 105); ([1;2;4], 104); ([1;2;3], 100)].
Proof.
  apply mpt_canonical_unique; try (vm_compute; reflexivity).
Defined.
Lemma mpt_built_canonical_witness : is_canonical (extension [3] (MLeaf 1 9)) = true.
Proof.
  eapply (mpt_built_canonical (T := Z) (A := Z)),
    (mpt_built_insert MEmpty [3] 9 (extension [3] (MLeaf 1 9), None)).
  - apply mpt_built_new.
  - repeat constructor; lia.
  - by intros q Hq.
  - by intros Hn q Hq.
  - reflexivity.
Defined.
Lemma mpt_leaves_exact_witness : NoDup (mpt_leaves toy_trie []).*1.
Proof. apply mpt_leaves_exact; vm_compute; reflexivity. Defined.

(** Both conditions of [mpt_built_canonical] are needed. Two keys of 600 nibbles
    (300 bytes) with a common prefix of 200 give different tries depending on
    the order of insertion, neither of which is canonical, so maps with the
    same entries get different hashes and do not deserialize. Inserting a
    strict prefix of a stored path leaves a branch with one child, and removing
    a strict prefix of stored paths panics. *)
Theorem mpt_insert_not_canonical :
  let p1 := replicate 600 0 in
  let p2 := replicate 200 0 ++ replicate 400 1 in
  is_canonical (insert_all [(p1, 5); (p2, 6)]) = false /\
  is_canonical (insert_all [(p2, 6); (p1, 5)]) = false /\
  insert_all [(p1, 5); (p2, 6)] <> insert_all [(p2, 6); (p1, 5)] /\
  is_canonical (insert_all [([1;2], 5); ([1], 6)]) = false /\
  mpt_remove (E := Empty_set) (insert_all [([1;2], 5); ([1;3], 6)]) [1] = Panic.
Proof.
  split; [vm_compute; reflexivity|]. split; [vm_compute; reflexivity|].
  split; [|split; vm_compute; reflexivity]. intros Heq.
  apply (f_equal (fun t => match t with
    | MExtension _ _ (MBranch _ (MExtension _ cp _ :: _)) => length cp | _ => 0%nat end)) in Heq.
  by vm_compute in Heq.
Qed.
