(* ===== verification/TimeFilterMap.v ===== *)
(** * Multisets and time filter maps ([storage/src/storage.rs])

    A [TimeFilterMap] keeps containers under timestamps together with a
    multiset of all their items, so that membership is one lookup and old
    entries can be dropped at once.  The ledger uses it for recent Merkle roots
    and for replay protection.  [Map] and [HashMap] are finite maps here;
    [TimeMapTrie] relates the map from timestamps to the trie that stores it. *)
From stdpp Require Import base numbers list gmap sorting.
From S2P Require Import Prelude Mpt.

(** ** [MultiSet]: counts are [u32]s *)
Abbreviation MultiSet V := (gmap V Z).
Section multiset.
Context `{Countable V}.

Definition ms_count (self : MultiSet V) (element : V) : Z := default 0 (self !! element).
Definition ms_insert (self : MultiSet V) (element : V) : MultiSet V :=
  <[element := trunc u32_max (ms_count self element + 1)]> self.
Definition ms_remove_n (self : MultiSet V) (element : V) (n : Z) : MultiSet V :=
  let result := default 0 (checked_sub (ms_count self element) n) in
  if result =? 0 then delete element self else <[element := result]> self.
Definition ms_remove (self : MultiSet V) (element : V) : MultiSet V := ms_remove_n self element 1.
Definition ms_member (self : MultiSet V) (element : V) : bool := bool_decide (is_Some (self !! element)).
Definition ms_has_subset (self other : MultiSet V) : bool :=
  forallb (fun '(x, n) => negb (ms_count self x <? n)) (map_to_list other).
Definition ms_invariant (self : MultiSet V) : bool :=
  negb (existsb (fun '(_, n) => n =? 0) (map_to_list self)).
End multiset.

(** ** [Container] and [TimeFilterMap] *)
Class Container (C Item : Type) := {
  iter_items : C -> list Item;
  once : Item -> C
}.
(** [Identity<V>] and [HashSet<V>]. *)
Definition Identity (V : Type) : Type := V.
#[global] Instance Identity_container V : Container (Identity V) V := {
  iter_items := fun c => [c];
  once := fun v => v
}.
#[global] Instance HashSet_container `{Countable V} : Container (gset V) V := {
  iter_items := fun c => elements c;
  once := fun v => {[ v ]}
}.

Section time_filter_map.
Context {C Item : Type} `{Countable Item} `{!Container C Item}.

Record TimeFilterMap := { tf_time_map : gmap Z C; tf_set : MultiSet Item }.

Definition tf_new : TimeFilterMap := {| tf_time_map := ∅; tf_set := ∅ |}.

(** The items of a map of containers, as [time_map.iter().flat_map(..)]. *)
Definition map_items (m : gmap Z C) : list Item := concat (iter_items <$> (map_to_list m).*2).
Definition tf_items (self : TimeFilterMap) : list Item := map_items (tf_time_map self).

(** [TimeFilterMap::invariant]. *)
Definition tf_invariant (self : TimeFilterMap) : bool :=
  bool_decide (foldl ms_insert ∅ (tf_items self) = tf_set self).

(** [TimeFilterMap::get]: the entry at [ts], or else the latest one before. *)
Definition latest_before (m : gmap Z C) (ts : Z) : option (Z * C) :=
  map_fold (fun k c best =>
      if k <? ts then
        match best with Some (k0, _) => if k0 <? k then Some (k, c) else best
                      | None => Some (k, c) end
      else best) None m.
Definition tf_get (self : TimeFilterMap) (ts : Z) : option C :=
  match tf_time_map self !! ts with
  | Some res => Some res
  | None => snd <$> latest_before (tf_time_map self) ts
  end.

(** [TimeFilterMap::insert]. *)
Definition tf_insert (self : TimeFilterMap) (ts : Z) (v : Item) : TimeFilterMap :=
  let set :=
    match tf_time_map self !! ts with
    | Some x => foldl ms_remove (tf_set self) (iter_items x)
    | None => tf_set self
    end in
  {| tf_time_map := <[ts := once v]> (tf_time_map self); tf_set := ms_insert set v |}.

(** [TimeFilterMap::upsert], with [C::default()] and [Semigroup::append]. *)
Definition tf_upsert (default_c : C) (append : C -> C -> C) (self : TimeFilterMap) (ts : Z) (v : C)
    : TimeFilterMap :=
  let xs := default default_c (tf_time_map self !! ts) in
  {| tf_time_map := <[ts := append xs v]> (tf_time_map self);
     tf_set := foldl ms_insert (tf_set self) (iter_items v) |}.
Definition tf_upsert_one (default_c : C) (append : C -> C -> C) (self : TimeFilterMap) (ts : Z)
    (v : Item) : TimeFilterMap := tf_upsert default_c append self ts (once v).

Definition tf_contains (self : TimeFilterMap) (v : Item) : bool := ms_member (tf_set self) v.
Definition tf_contains_all (self : TimeFilterMap) (v : C) : bool :=
  forallb (ms_member (tf_set self)) (iter_items v).

(** [TimeFilterMap::filter]: entries before the cutoff are pruned from the map
    and their items taken off the multiset. *)
Definition tf_filter (self : TimeFilterMap) (cutoff : Z) : TimeFilterMap :=
  let kept := filter (fun kv => cutoff <= kv.1) (tf_time_map self) in
  let removed := filter (fun kv => kv.1 < cutoff) (tf_time_map self) in
  {| tf_time_map := kept; tf_set := foldl ms_remove (tf_set self) (map_items removed) |}.
End time_filter_map.
Arguments TimeFilterMap C Item {_ _}.

(** ** Multisets as occurrence counts *)
Section multiset_lemmas.
Context `{Countable V}.
Implicit Types (s : MultiSet V) (l : list V) (x : V).

Fixpoint occ (x : V) (l : list V) : Z :=
  match l with [] => 0 | y :: l => (if decide (x = y) then 1 else 0) + occ x l end.
(** [s] holds exactly the items of [l]. *)
Definition ms_of s l : Prop :=
  Z.of_nat (length l) <= u32_max /\
  forall x, s !! x = if occ x l =? 0 then None else Some (occ x l).

Lemma occ_range x l : 0 <= occ x l <= Z.of_nat (length l).
Proof. induction l as [|y l IH]; simpl; [lia|]. destruct (decide (x = y)); lia. Qed.
Lemma occ_app x l k : occ x (l ++ k) = occ x l + occ x k.
Proof. induction l as [|y l IH]; simpl; lia. Qed.
Lemma occ_perm x l k : l ≡ₚ k -> occ x l = occ x k.
Proof. induction 1; simpl; lia. Qed.
Lemma occ_elem x l : x ∈ l <-> 0 < occ x l.
Proof.
  induction l as [|y l IH]; simpl; [rewrite elem_of_nil; lia|]. rewrite elem_of_cons.
  pose proof (occ_range x l). destruct (decide (x = y)); [split; [lia|by left]|].
  rewrite Z.add_0_l, <- IH. tauto.
Qed.
Lemma ms_of_perm s l k : l ≡ₚ k -> ms_of s l -> ms_of s k.
Proof.
  intros Hp [Hl Hs]. split; [by rewrite <- Hp|]. intros x. by rewrite Hs, (occ_perm x l k Hp).
Qed.
Lemma ms_of_count s l x : ms_of s l -> ms_count s x = occ x l.
Proof. intros [_ Hs]. unfold ms_count. rewrite Hs. destruct (Z.eqb_spec (occ x l) 0); simpl; lia. Qed.
Lemma ms_of_member s l x : ms_of s l -> ms_member s x = true <-> x ∈ l.
Proof.
  intros [_ Hs]. unfold ms_member. rewrite bool_decide_eq_true, Hs, occ_elem.
  pose proof (occ_range x l). destruct (Z.eqb_spec (occ x l) 0); [|split; [lia|by eexists]].
  split; [by intros [? ?]|lia].
Qed.
Lemma ms_of_insert s l x :
  ms_of s l -> Z.of_nat (length l) < u32_max -> ms_of (ms_insert s x) (x :: l).
Proof.
  intros Hs Hl. split; [simpl; lia|]. intros y. unfold ms_insert. rewrite (ms_of_count s l) by done.
  pose proof (occ_range x l). rewrite trunc_id by (unfold in_u; lia). simpl.
  destruct (decide (y = x)) as [->|Hne].
  - rewrite lookup_insert_eq. destruct (Z.eqb_spec (1 + occ x l) 0); [lia|]. f_equal. lia.
  - rewrite lookup_insert_ne by done. apply Hs.
Qed.
Lemma ms_of_remove s l x : ms_of s (x :: l) -> ms_of (ms_remove s x) l.
Proof.
  intros Hs. split; [destruct Hs as [Hl _]; simpl in Hl; lia|]. intros y.
  unfold ms_remove, ms_remove_n. rewrite (ms_of_count s (x :: l)) by done. simpl.
  rewrite decide_True by done. pose proof (occ_range x l). unfold checked_sub.
  destruct (Z.leb_spec 1 (1 + occ x l)); [|lia]. simpl default.
  replace (1 + occ x l - 1) with (occ x l) by lia. destruct Hs as [_ Hs]. specialize (Hs y). simpl in Hs.
  destruct (Z.eqb_spec (occ x l) 0), (decide (y = x)) as [->|Hne]; simplify_map_eq; try done.
  - by rewrite (proj2 (Z.eqb_eq _ _)).
  - by rewrite (proj2 (Z.eqb_neq _ _)).
Qed.
Lemma ms_of_remove_all s k l : ms_of s (k ++ l) -> ms_of (foldl ms_remove s k) l.
Proof.
  revert s. induction k as [|x k IH]; intros s Hs; simpl in *; [done|].
  apply IH. by apply ms_of_remove.
Qed.
Lemma ms_of_insert_all s k l :
  ms_of s l -> Z.of_nat (length k + length l) <= u32_max -> ms_of (foldl ms_insert s k) (k ++ l).
Proof.
  revert s l. induction k as [|x k IH]; intros s l Hs Hl; simpl in *; [done|].
  eapply ms_of_perm; [|apply (IH _ (x :: l)); [apply ms_of_insert; [done|lia]|simpl; lia]].
  symmetry. apply Permutation_middle.
Qed.
Lemma ms_of_empty : ms_of ∅ [].
Proof. split; [done|]. intros x. by rewrite lookup_empty. Qed.
Lemma ms_of_unique s1 s2 l : ms_of s1 l -> ms_of s2 l -> s1 = s2.
Proof. intros [_ H1] [_ H2]. apply map_eq. intros x. by rewrite H1, H2. Qed.
End multiset_lemmas.

(** ** The set and the map agree *)
Section time_filter_lemmas.
Context {C Item : Type} `{Countable Item} `{!Container C Item}.
Implicit Types (m : gmap Z C) (f : TimeFilterMap C Item).

Lemma map_items_perm l m : map_to_list m ≡ₚ l -> map_items m ≡ₚ concat (iter_items <$> l.*2).
Proof. intros Hl. unfold map_items. by rewrite Hl. Qed.
Lemma map_items_insert m ts c :
  m !! ts = None -> map_items (<[ts := c]> m) ≡ₚ iter_items c ++ map_items m.
Proof. intros Hm. by rewrite map_items_perm by (by apply map_to_list_insert). Qed.
Lemma map_items_delete m ts c :
  m !! ts = Some c -> map_items m ≡ₚ iter_items c ++ map_items (delete ts m).
Proof. intros Hm. rewrite map_items_perm by (symmetry; by apply map_to_list_delete). done. Qed.
Lemma map_items_union m1 m2 :
  m1 ##ₘ m2 -> map_items (m1 ∪ m2) ≡ₚ map_items m1 ++ map_items m2.
Proof.
  revert m2. induction m1 as [|ts c m1 Hts IH] using map_ind; intros m2 Hd.
  { rewrite left_id_L by apply _. unfold map_items at 2. by rewrite map_to_list_empty. }
  apply map_disjoint_insert_l in Hd as [H2 Hd].
  rewrite <- insert_union_l, !map_items_insert, IH, app_assoc; [done..|].
  by apply lookup_union_None.
Qed.
Lemma map_items_elem m x :
  x ∈ map_items m <-> exists ts c, m !! ts = Some c /\ x ∈ iter_items c.
Proof.
  unfold map_items. rewrite list_elem_of_In, in_concat. setoid_rewrite <- list_elem_of_In. split.
  - intros (l & [c [-> Hc]]%list_elem_of_fmap_1 & Hx).
    apply list_elem_of_fmap_1 in Hc as ([ts c'] & -> & Hc).
    apply elem_of_map_to_list in Hc. by exists ts, c'.
  - intros (ts & c & Hc & Hx). exists (iter_items c). split; [|done].
    apply list_elem_of_fmap_2. apply (list_elem_of_fmap_2' snd _ (ts, c)); [|done].
    by apply elem_of_map_to_list.
Qed.

(** What [TimeFilterMap::invariant] checks, plus that no count overflows. *)
Definition tf_ok f : Prop := ms_of (tf_set f) (tf_items f).

Lemma tf_ok_invariant f : tf_ok f -> tf_invariant f = true.
Proof.
  intros Hf. unfold tf_invariant. apply bool_decide_eq_true.
  eapply ms_of_unique; [|exact Hf]. rewrite <- (app_nil_r (tf_items f)) at 2.
  apply ms_of_insert_all; [apply ms_of_empty|]. destruct Hf as [Hl _]. simpl. lia.
Qed.
Lemma tf_new_ok : tf_ok (tf_new (C := C)).
Proof. unfold tf_ok, tf_items, map_items. simpl. rewrite map_to_list_empty. apply ms_of_empty. Qed.
Lemma tf_contains_items f x : tf_ok f -> tf_contains f x = true <-> x ∈ tf_items f.
Proof. intros Hf. by apply ms_of_member. Qed.

Lemma tf_insert_ok f ts v :
  iter_items (once (C := C) v) = [v] -> tf_ok f -> Z.of_nat (length (tf_items f)) < u32_max ->
  tf_ok (tf_insert f ts v).
Proof.
  intros Ho Hf Hl. unfold tf_ok, tf_insert, tf_items. cbn [tf_time_map tf_set].
  destruct (tf_time_map f !! ts) as [c|] eqn:Hc.
  - pose proof (map_items_delete _ _ _ Hc) as Hp.
    rewrite <- insert_delete_eq. eapply ms_of_perm; [symmetry; apply map_items_insert, lookup_delete_eq|].
    rewrite Ho. simpl. apply ms_of_insert.
    + apply ms_of_remove_all. by eapply ms_of_perm.
    + unfold tf_items in Hl. rewrite Hp, length_app in Hl. lia.
  - eapply ms_of_perm; [symmetry; by apply map_items_insert|]. rewrite Ho. by apply ms_of_insert.
Qed.
Lemma map_items_split m cutoff :
  map_items m ≡ₚ map_items (filter (fun kv => kv.1 < cutoff) m)
                 ++ map_items (filter (fun kv => cutoff <= kv.1) m).
Proof.
  rewrite <- map_items_union.
  - assert (Hm : m = filter (fun kv => kv.1 < cutoff) m
                     ∪ filter (fun kv => cutoff <= kv.1) m); [|by rewrite <- Hm].
    apply map_eq. intros ts. rewrite lookup_union, !map_lookup_filter.
    destruct (m !! ts) as [c|]; simpl; [|done].
    destruct (decide (ts < cutoff)).
    + rewrite option_guard_True, option_guard_False by lia. done.
    + rewrite option_guard_False, option_guard_True by lia. done.
  - apply map_disjoint_spec. intros ts c1 c2 [_ H1]%map_lookup_filter_Some [_ H2]%map_lookup_filter_Some.
    simpl in *. lia.
Qed.
Lemma tf_filter_ok f cutoff : tf_ok f -> tf_ok (tf_filter f cutoff).
Proof.
  intros Hf. unfold tf_ok, tf_filter, tf_items. cbn [tf_time_map tf_set].
  apply ms_of_remove_all. eapply ms_of_perm; [apply map_items_split|done].
Qed.
Lemma tf_filter_lookup f cutoff ts :
  tf_time_map (tf_filter f cutoff) !! ts = if cutoff <=? ts then tf_time_map f !! ts else None.
Proof.
  unfold tf_filter. cbn [tf_time_map]. destruct (Z.leb_spec cutoff ts).
  - destruct (tf_time_map f !! ts) as [c|] eqn:Hc.
    + by apply map_lookup_filter_Some.
    + apply map_lookup_filter_None. by left.
  - apply map_lookup_filter_None. right. simpl. lia.
Qed.
End time_filter_lemmas.

(** [upsert] into a set container keeps the two in step only if the items are
    new at that timestamp. *)
Lemma tf_upsert_ok `{Countable Item} (f : TimeFilterMap (gset Item) Item) ts v :
  default ∅ (tf_time_map f !! ts) ## v -> tf_ok f ->
  Z.of_nat (size v + length (tf_items f)) <= u32_max ->
  tf_ok (tf_upsert ∅ (∪) f ts v).
Proof.
  intros Hd Hf Hl. unfold tf_ok, tf_upsert, tf_items. cbn [tf_time_map tf_set].
  eapply ms_of_perm; [|apply ms_of_insert_all; [exact Hf|exact Hl]]. unfold tf_items.
  rewrite <- (insert_delete_eq (tf_time_map f)), map_items_insert by apply lookup_delete_eq.
  change (iter_items (default ∅ (tf_time_map f !! ts) ∪ v))
    with (elements (default ∅ (tf_time_map f !! ts) ∪ v)).
  rewrite elements_disj_union by done. change (iter_items v) with (elements v).
  destruct (tf_time_map f !! ts) as [xs|] eqn:Hxs; simpl.
  - rewrite (map_items_delete _ _ _ Hxs). change (iter_items xs) with (elements xs).
    by rewrite <- app_assoc, (Permutation_app_swap_app (elements v)).
  - rewrite elements_empty, delete_id by done. done.
Qed.

(** ** Properties *)
Section time_filter_properties.
Context {C Item : Type} `{Countable Item} `{!Container C Item}.

(** Maps made by inserting and filtering. *)
Inductive tf_built : TimeFilterMap C Item -> Prop :=
| tf_built_new : tf_built tf_new
| tf_built_insert f ts v :
    tf_built f -> Z.of_nat (length (tf_items f)) < u32_max -> tf_built (tf_insert f ts v)
| tf_built_filter f cutoff : tf_built f -> tf_built (tf_filter f cutoff).

Lemma tf_built_ok f :
  (forall v, iter_items (once (C := C) v) = [v]) -> tf_built f -> tf_ok f.
Proof.
  intros Ho. induction 1; [apply tf_new_ok|by apply tf_insert_ok|by apply tf_filter_ok].
Qed.

(** In a time filter map made by insertions and filtering, the multiset always
    matches the map (the invariant checked on deserialization), and after
    [filter] an item is contained exactly if some entry at or after the cutoff
    holds it. *)
Theorem tf_filter_contains f cutoff x :
  (forall v, iter_items (once (C := C) v) = [v]) -> tf_built f ->
  tf_invariant (tf_filter f cutoff) = true /\
  (tf_contains (tf_filter f cutoff) x = true <->
   exists ts c, tf_time_map f !! ts = Some c /\ cutoff <= ts /\ x ∈ iter_items c).
Proof.
  intros Ho Hb. pose proof (tf_filter_ok f cutoff (tf_built_ok f Ho Hb)) as Hf.
  split; [by apply tf_ok_invariant|]. rewrite tf_contains_items by done. unfold tf_items.
  rewrite map_items_elem. setoid_rewrite tf_filter_lookup. split.
  - intros (ts & c & Hc & Hx). destruct (Z.leb_spec cutoff ts); [|done]. by exists ts, c.
  - intros (ts & c & Hc & Hle & Hx). exists ts, c. by rewrite (proj2 (Z.leb_le _ _) Hle).
Qed.
End time_filter_properties.

Lemma tf_filter_contains_witness :
  tf_contains (tf_filter (tf_insert (tf_new (C := Identity Z)) 7 42) 5) 42 = true.
Proof.
  apply (tf_filter_contains (C := Identity Z) (tf_insert tf_new 7 42) 5 42).
  - done.
  - apply tf_built_insert; [apply tf_built_new|done].
  - exists 7, 42. split; [reflexivity|]. split; [lia|]. simpl. by left.
Defined.

(** Upserting an item that is already stored at the timestamp counts it twice
    in the multiset but once in the map. *)
Example tf_upsert_twice :
  let f := tf_upsert_one ∅ (∪) (tf_new (C := gset Z)) 7 42 in
  tf_invariant f = true /\ tf_invariant (tf_upsert_one ∅ (∪) f 7 42) = false.
Proof. by vm_compute. Qed.
