(* ===== verification/TimeMapTrie.v ===== *)
(** * The trie behind a map from timestamps ([Map<BigEndianU64, V>])

    Timestamps are stored under their big-endian nibbles, so that the
    lexicographic order of paths is the order of time.  [repr t m] relates a
    trie with the finite map used in [TimeFilterMap]; the trie operations
    simulate the map operations. *)
From Stdlib Require Import Bool.
From stdpp Require Import base numbers list gmap.
From S2P Require Import Prelude Mpt MptSpec MptProps TimeFilterMap.

(** [to_be_bytes], [to_nibbles] and the key of a timestamp. *)
Definition to_be_bytes (x : Z) : list Z :=
  (fun i => Z.land (Z.shiftr x (8 * i)) 255) <$> [7; 6; 5; 4; 3; 2; 1; 0].
Definition to_nibbles (bytes : list Z) : list Z :=
  concat ((fun b => [Z.shiftr (Z.land b 240) 4; Z.land b 15]) <$> bytes).
Definition time_key (ts : Z) : list Z := to_nibbles (to_be_bytes ts).

(** ** Order of keys *)
Definition nib_val (l : list Z) : Z := foldl (fun acc d => acc * 16 + d) 0 l.
Lemma nib_val_from acc l : foldl (fun acc d => acc * 16 + d) acc l = acc * 16 ^ Z.of_nat (length l) + nib_val l.
Proof.
  unfold nib_val. revert acc. induction l as [|d l IH]; intros acc; simpl length; [simpl; lia|].
  cbn [foldl]. rewrite IH, (IH (0 * 16 + d)). rewrite Nat2Z.inj_succ, Z.pow_succ_r by lia. lia.
Qed.
Lemma nib_val_cons d l : nib_val (d :: l) = d * 16 ^ Z.of_nat (length l) + nib_val l.
Proof. unfold nib_val at 1. cbn [foldl]. rewrite nib_val_from. lia. Qed.
Lemma nib_val_range l : nibbles l -> 0 <= nib_val l < 16 ^ Z.of_nat (length l).
Proof.
  induction 1 as [|d l Hd Hl IH]; [by simpl|]. rewrite nib_val_cons. simpl length.
  rewrite Nat2Z.inj_succ, Z.pow_succ_r by lia. unfold nibble in Hd. nia.
Qed.
Lemma nib_val_lt p q :
  nibbles p -> nibbles q -> length p = length q -> lex_lt p q = (nib_val p <? nib_val q).
Proof.
  intros Hp. revert q. induction Hp as [|a p Ha Hp IH]; intros [|b q] Hq Hl; simplify_eq/=; [done|].
  apply Forall_cons_1 in Hq as [Hb Hq]. rewrite lex_lt_cons, IH, !nib_val_cons, Hl by done.
  pose proof (nib_val_range p Hp). pose proof (nib_val_range q Hq). rewrite Hl in *.
  unfold nibble in *. destruct (Z.ltb_spec a b); simpl.
  - symmetry. apply Z.ltb_lt. nia.
  - destruct (Z.eqb_spec a b) as [->|Hne]; simpl.
    + apply eq_true_iff_eq. rewrite !Z.ltb_lt. lia.
    + symmetry. apply Z.ltb_ge. nia.
Qed.
Lemma nib_val_inj p q :
  nibbles p -> nibbles q -> length p = length q -> nib_val p = nib_val q -> p = q.
Proof.
  intros Hp. revert q. induction Hp as [|a p Ha Hp IH]; intros [|b q] Hq Hl Hv; simplify_eq/=; [done|].
  apply Forall_cons_1 in Hq as [Hb Hq]. rewrite !nib_val_cons, Hl in Hv.
  pose proof (nib_val_range p Hp). pose proof (nib_val_range q Hq). rewrite Hl in *.
  unfold nibble in *. assert (a = b) as -> by nia. f_equal. apply IH; [done..|lia].
Qed.

Lemma to_nibbles_val bytes :
  Forall (in_u u8_max) bytes ->
  nibbles (to_nibbles bytes) /\ length (to_nibbles bytes) = (2 * length bytes)%nat /\
  nib_val (to_nibbles bytes) = foldl (fun acc b => acc * 256 + b) 0 bytes.
Proof.
  intros Hb. unfold to_nibbles. induction bytes as [|b bytes IH] using rev_ind; [by split; [constructor|]|].
  apply Forall_app in Hb as [Hb1 Hb]. apply Forall_cons_1 in Hb as [Hb _].
  destruct (IH Hb1) as (Hn & Hl & Hv). rewrite fmap_app, concat_app, foldl_app. cbn [fmap list_fmap concat foldl].
  unfold in_u, u8_max in Hb.
  assert (H1 : 0 <= Z.shiftr (Z.land b 240) 4 < 16 /\ 0 <= Z.land b 15 < 16 /\
               b = Z.shiftr (Z.land b 240) 4 * 16 + Z.land b 15).
  { assert (Hc : forallb (fun n => let b := Z.of_nat n in
      (0 <=? Z.shiftr (Z.land b 240) 4) && (Z.shiftr (Z.land b 240) 4 <? 16) &&
      (0 <=? Z.land b 15) && (Z.land b 15 <? 16) &&
      (b =? Z.shiftr (Z.land b 240) 4 * 16 + Z.land b 15)) (seq 0 256) = true) by (vm_compute; reflexivity).
    rewrite forallb_forall in Hc. specialize (Hc (Z.to_nat b)). rewrite Z2Nat.id in Hc by lia.
    rewrite !andb_true_iff, !Z.leb_le, !Z.ltb_lt, Z.eqb_eq in Hc.
    destruct Hc as ((((? & ?) & ?) & ?) & ?); [apply in_seq; lia|]. done. }
  destruct H1 as (H1 & H2 & H3). rewrite app_nil_r. split.
  - apply nibbles_app. split; [done|]. constructor; [done|]. constructor; [done|constructor].
  - rewrite !length_app, Hl. simpl length. split; [lia|]. unfold nib_val in *.
    rewrite foldl_app, Hv. cbn [foldl]. lia.
Qed.
Lemma time_key_spec ts :
  in_u u64_max ts -> nibbles (time_key ts) /\ length (time_key ts) = 16%nat /\ nib_val (time_key ts) = ts.
Proof.
  intros Hts. unfold time_key.
  destruct (to_nibbles_val (to_be_bytes ts)) as (Hn & Hl & Hv).
  { unfold to_be_bytes. apply Forall_fmap, Forall_forall. intros i _. unfold compose, in_u, u8_max.
    change 255 with (Z.ones 8). rewrite Z.land_ones by lia.
    pose proof (Z.mod_pos_bound (Z.shiftr ts (8 * i)) (2 ^ 8) eq_refl). lia. }
  split; [done|]. split; [done|]. rewrite Hv. unfold to_be_bytes. cbn [fmap list_fmap foldl].
  change 255 with (Z.ones 8). rewrite !Z.land_ones, !Z.shiftr_div_pow2 by lia.
  unfold in_u, u64_max in Hts. clear -Hts. simpl Z.mul.
  change (2 ^ 8) with 256. Z.to_euclidean_division_equations. lia.
Qed.

(** ** The simulation *)
Section simulation.
Context {C : Type}.
Implicit Types (t : Node C Z) (m : gmap Z C).

Definition time_repr t m : Prop :=
  canon t /\ (forall ts c, m !! ts = Some c -> in_u u64_max ts) /\
  forall q, nibbles q -> mpt_get t q = if decide (length q = 16%nat) then m !! nib_val q else None.

Lemma repr_key t m ts : time_repr t m -> in_u u64_max ts -> mpt_get t (time_key ts) = m !! ts.
Proof.
  intros (_ & _ & Hg) Hts. destruct (time_key_spec ts Hts) as (Hn & Hl & Hv).
  rewrite Hg by done. by rewrite decide_True, Hv.
Qed.
Lemma repr_short t m : time_repr t m -> short t.
Proof.
  intros (_ & _ & Hg) q Hq Hne. rewrite Hg in Hne by done. case_decide; [lia|done].
Qed.
Lemma repr_below t m ts k :
  time_repr t m -> in_u u64_max ts -> nibbles k -> k <> [] -> mpt_get t (time_key ts ++ k) = None.
Proof.
  intros (_ & _ & Hg) Hts Hk Hne. destruct (time_key_spec ts Hts) as (Hn & Hl & Hv).
  rewrite Hg by (by apply nibbles_app). rewrite decide_False; [done|].
  rewrite length_app. destruct k; [done|simpl; lia].
Qed.
Lemma key_of_val q : nibbles q -> length q = 16%nat -> q = time_key (nib_val q) /\ in_u u64_max (nib_val q).
Proof.
  intros Hq Hl. pose proof (nib_val_range q Hq) as Hr. rewrite Hl in Hr.
  assert (Hu : in_u u64_max (nib_val q)) by (unfold in_u, u64_max; lia). split; [|done].
  destruct (time_key_spec _ Hu) as (Hn & Hl' & Hv). apply nib_val_inj; [done..|congruence|done].
Qed.

Lemma values_items m : map_items (C := Identity C) m = (map_to_list m).*2.
Proof.
  assert (Hl : forall l : list C, concat (iter_items (C := Identity C) <$> l) = l)
    by (induction l as [|c l IH]; [done|]; simpl; f_equal; exact IH).
  apply Hl.
Qed.

(** The values of the trie are the values of the map. *)
Lemma iter_leaves t pre : mpt_iter t ≡ₚ (mpt_leaves t pre).*2.
Proof.
  revert pre. induction t as [|a w|a cs IH|a cp c IH|a w c IH] using Node_ind'; intros pre;
    cbn [mpt_leaves mpt_iter]; try done.
  - fold (leaves_from pre (T := C) (A := Z)). generalize 0 as i.
    induction IH as [|c cs Hc _ IHcs]; intros i; [done|].
    change (leaves_from pre i (c :: cs)) with (mpt_leaves c (pre ++ [i]) ++ leaves_from pre (i + 1) cs).
    simpl. by rewrite fmap_app, <- Hc, <- IHcs.
  - rewrite fmap_app, <- IH. simpl. by rewrite Permutation_app_comm.
Qed.
Lemma repr_values t m : time_repr t m -> mpt_iter t ≡ₚ (map_to_list m).*2.
Proof.
  intros (Hc & Hm & Hg). rewrite (iter_leaves t []).
  set (f := fun p : list Z * C => (nib_val p.1, p.2)).
  assert (Hkeys : forall q v, (q, v) ∈ mpt_leaves t [] -> nibbles q /\ length q = 16%nat /\ m !! nib_val q = Some v).
  { intros q v Hq. apply leaves_elem in Hq as (k & -> & Hk & Hv); [|done].
    simpl in *. rewrite Hg in Hv by done. by case_decide. }
  assert (Hp : f <$> mpt_leaves t [] ≡ₚ map_to_list m).
  { apply NoDup_Permutation.
    - apply (NoDup_fmap_1 fst). rewrite <- list_fmap_compose.
      change (fst ∘ f) with (nib_val ∘ (fst (A := list Z) (B := C))). rewrite list_fmap_compose.
      apply NoDup_fmap_2_strong; [|by apply leaves_NoDup].
      intros x y [[qx vx] [-> Hx]]%list_elem_of_fmap_1 [[qy vy] [-> Hy]]%list_elem_of_fmap_1 Heq.
      destruct (Hkeys _ _ Hx) as (? & ? & _), (Hkeys _ _ Hy) as (? & ? & _).
      apply nib_val_inj; [done..|simpl; congruence|done].
    - apply NoDup_map_to_list.
    - intros [ts v]. rewrite elem_of_map_to_list, list_elem_of_fmap. split.
      + intros ([q w] & [= -> ->] & Hq). by apply Hkeys in Hq as (_ & _ & ?).
      + intros Hv. destruct (time_key_spec ts (Hm _ _ Hv)) as (Hn & Hl & Hval).
        exists (time_key ts, v). unfold f. simpl. rewrite Hval. split; [done|].
        apply leaves_elem; [done|]. exists (time_key ts). split; [done|]. split; [done|].
        rewrite Hg by done. by rewrite decide_True, Hval. }
  rewrite <- Hp, <- list_fmap_compose. done.
Qed.

Lemma repr_empty : time_repr MEmpty ∅.
Proof.
  split; [done|]. split; [done|]. intros q _. rewrite lookup_empty. by destruct (decide _).
Qed.
Lemma repr_insert t m ts c :
  time_repr t m -> in_u u64_max ts ->
  exists t', mpt_insert (E := Empty_set) t (time_key ts) c = Ok (t', m !! ts) /\ time_repr t' (<[ts := c]> m).
Proof.
  intros Hr Hts. pose proof Hr as (Hc & Hm & Hg). destruct (time_key_spec ts Hts) as (Hn & Hl & Hv).
  destruct (insert_rec_spec (E := Empty_set) (S (S (mpt_weight t))) t (time_key ts) c (canon_ok t Hc) Hn)
    as ([t' old] & Hi & _ & Hold & Hgi); [lia|]. cbn [fst snd] in *.
  exists t'. rewrite (repr_key t m) in Hold by done. rewrite <- Hold. split; [done|].
  apply (insert_canon (E := Empty_set)) in Hi as [Hc' _]; [|done..|by eapply repr_short|
    intros _ q Hq Hne; by eapply repr_below]. split; [done|]. split.
  - intros ts' c' [[-> _]|[_ ?]]%lookup_insert_Some; [done|by eapply Hm].
  - intros q Hq. rewrite Hgi, Hg by done. destruct (decide (q = time_key ts)) as [->|Hne].
    + by rewrite decide_True, Hv, lookup_insert_eq.
    + case_decide as Hlq; [|done]. rewrite lookup_insert_ne; [done|]. intros ->.
      by destruct (key_of_val q Hq Hlq) as [? _].
Qed.
Lemma repr_prune t m cutoff :
  time_repr t m -> in_u u64_max cutoff ->
  exists t' removed, mpt_prune (E := Empty_set) t (time_key cutoff) = Ok (t', removed) /\
    time_repr t' (filter (fun kv => cutoff <= kv.1) m) /\
    removed ≡ₚ (map_to_list (filter (fun kv => kv.1 < cutoff) m)).*2.
Proof.
  intros Hr Hts. pose proof Hr as (Hc & Hm & Hg). destruct (time_key_spec cutoff Hts) as (Hn & Hl & Hv).
  destruct (prune_spec (E := Empty_set) t (time_key cutoff) Hc Hn) as ([t' removed] & Hp & Hc' & _ & Hperm & Hgp).
  cbn [fst snd] in *. exists t', removed. split; [done|].
  assert (Hr' : time_repr t' (filter (fun kv => cutoff <= kv.1) m)).
  { split; [done|]. split; [intros ts c [? _]%map_lookup_filter_Some; by eapply Hm|].
    intros q Hq. rewrite Hgp, Hg by done. case_decide as Hlq; [|by destruct (lex_lt _ _)].
    rewrite nib_val_lt, Hv by (done || congruence). rewrite map_lookup_filter.
    destruct (m !! nib_val q); simpl; [|by destruct (_ <? _)].
    destruct (Z.ltb_spec (nib_val q) cutoff).
    - by rewrite option_guard_False by lia.
    - by rewrite option_guard_True by lia. }
  split; [done|]. apply (Permutation_app_inv_r (mpt_iter t')). rewrite <- Hperm.
  rewrite (repr_values _ _ Hr), (repr_values _ _ Hr').
  rewrite <- !values_items. apply map_items_split.
Qed.

(** [latest_before] is the entry with the largest timestamp below. *)
Lemma latest_before_spec m ts :
  match latest_before m ts with
  | None => forall k c, m !! k = Some c -> ts <= k
  | Some (k, c) => m !! k = Some c /\ k < ts /\ forall k' c', m !! k' = Some c' -> k' < ts -> k' <= k
  end.
Proof.
  unfold latest_before. apply (map_fold_weak_ind (fun r m =>
    match r with
    | None => forall k c, m !! k = Some c -> ts <= k
    | Some (k, c) => m !! k = Some c /\ k < ts /\ forall k' c', m !! k' = Some c' -> k' < ts -> k' <= k
    end)); [done|].
  intros k c m0 best Hk Hb. destruct (Z.ltb_spec k ts) as [Hlt|Hge].
  - destruct best as [[k0 c0]|].
    + destruct Hb as (Hk0 & Hlt0 & Hmax). destruct (Z.ltb_spec k0 k).
      * rewrite lookup_insert_eq. split; [done|]. split; [done|].
        intros k' c' [[<- _]|[_ Hk']]%lookup_insert_Some Hl; [lia|]. specialize (Hmax _ _ Hk' Hl). lia.
      * rewrite lookup_insert_ne by congruence. split; [done|]. split; [done|].
        intros k' c' [[<- _]|[_ Hk']]%lookup_insert_Some Hl; [lia|]. by eapply Hmax.
    + rewrite lookup_insert_eq. split; [done|]. split; [done|].
      intros k' c' [[<- _]|[_ Hk']]%lookup_insert_Some Hl; [lia|]. specialize (Hb _ _ Hk'). lia.
  - destruct best as [[k0 c0]|].
    + destruct Hb as (Hk0 & Hlt0 & Hmax). rewrite lookup_insert_ne by congruence. split; [done|].
      split; [done|]. intros k' c' [[<- _]|[_ Hk']]%lookup_insert_Some Hl; [lia|]. by eapply Hmax.
    + intros k' c' [[<- _]|[_ Hk']]%lookup_insert_Some; [lia|]. by eapply Hb.
Qed.
Lemma repr_predecessor t m ts :
  time_repr t m -> in_u u64_max ts ->
  find_predecessor (E := Empty_set) t (time_key ts)
  = Ok ((fun kc => (time_key kc.1, kc.2)) <$> latest_before m ts).
Proof.
  intros Hr Hts. pose proof Hr as (Hc & Hm & Hg). destruct (time_key_spec ts Hts) as (Hn & Hl & Hv).
  destruct (pred_spec (E := Empty_set) t [] (time_key ts) Hc Hn) as (r & Hp & Hb);
    [intros k Hk Hne; by eapply repr_below|]. unfold find_predecessor. simpl app in Hp. rewrite Hp. f_equal.
  assert (Hkey : forall k c, m !! k = Some c -> nibbles (time_key k) /\
            mpt_get t (time_key k) = Some c /\ lex_lt (time_key k) (time_key ts) = (k <? ts)).
  { intros k c Hk. destruct (time_key_spec k (Hm _ _ Hk)) as (Hnk & Hlk & Hvk). split; [done|].
    split; [by rewrite (repr_key t m) by (done || by eapply Hm)|].
    by rewrite nib_val_lt, Hv, Hvk by (done || congruence). }
  pose proof (latest_before_spec m ts) as Hlb. destruct r as [[k v]|].
  - destruct Hb as (k' & -> & Hk & Hlt & Hv' & Hmax). simpl app. rewrite Hg in Hv' by done.
    case_decide as Hlen; [|done]. destruct (key_of_val k' Hk Hlen) as [Hk' Hu].
    rewrite nib_val_lt, Hv, Z.ltb_lt in Hlt by (done || congruence).
    destruct (latest_before m ts) as [[k0 c0]|]; [|specialize (Hlb _ _ Hv'); lia].
    destruct Hlb as (Hk0 & Hlt0 & Hmax0). specialize (Hmax0 _ _ Hv' Hlt).
    destruct (Hkey _ _ Hk0) as (Hn0 & Hg0 & Hl0).
    destruct (time_key_spec k0 (Hm _ _ Hk0)) as (_ & Hl0' & Hv0).
    destruct (Hmax (time_key k0) c0 Hn0) as [<-|Hlex];
      [rewrite Hl0; by apply Z.ltb_lt|done|simpl; rewrite Hv0 in Hv'; congruence|].
    rewrite nib_val_lt, Hv0, Z.ltb_lt in Hlex by (done || congruence). lia.
  - destruct (latest_before m ts) as [[k0 c0]|]; [|done]. destruct Hlb as (Hk0 & Hlt0 & _).
    destruct (Hkey _ _ Hk0) as (Hn0 & Hg0 & Hl0). destruct (Hb _ c0 Hn0); [|done].
    rewrite Hl0. by apply Z.ltb_lt.
Qed.

(** The trie under a map from timestamps implements the finite map that
    [TimeFilterMap] is stated with: lookup, insertion, pruning and predecessor
    search agree, the pruned values being those before the cutoff, and the
    relation is kept. *)
Theorem time_map_refines t m :
  time_repr t m ->
  (forall ts, in_u u64_max ts -> mpt_lookup (E := Empty_set) t (time_key ts) = Ok (m !! ts)) /\
  (forall ts c, in_u u64_max ts -> exists t',
     mpt_insert (E := Empty_set) t (time_key ts) c = Ok (t', m !! ts) /\ time_repr t' (<[ts := c]> m)) /\
  (forall cutoff, in_u u64_max cutoff -> exists t' removed,
     mpt_prune (E := Empty_set) t (time_key cutoff) = Ok (t', removed) /\
     time_repr t' (filter (fun kv => cutoff <= kv.1) m) /\
     removed ≡ₚ (map_to_list (filter (fun kv => kv.1 < cutoff) m)).*2) /\
  (forall ts, in_u u64_max ts ->
     find_predecessor (E := Empty_set) t (time_key ts)
     = Ok ((fun kc => (time_key kc.1, kc.2)) <$> latest_before m ts)).
Proof.
  intros Hr. split; [|split; [|split]].
  - intros ts Hts. destruct (time_key_spec ts Hts) as (Hn & _). pose proof Hr as (Hc & _).
    rewrite mpt_lookup_get by (done || by apply canon_ok). by rewrite (repr_key t m).
  - intros ts c Hts. by apply repr_insert.
  - intros cutoff Hts. by apply repr_prune.
  - intros ts Hts. by apply repr_predecessor.
Qed.
End simulation.

Lemma time_map_refines_witness :
  exists t', mpt_insert (E := Empty_set) (MEmpty (A := Z)) (time_key 5) 9 = Ok (t', None) /\
    time_repr t' {[5 := 9]}.
Proof.
  destruct (time_map_refines MEmpty ∅ (repr_empty (C := Z))) as (_ & Hi & _).
  apply (Hi 5 9). by vm_compute.
Defined.
