(* ===== verification/Zswap.v ===== *)
(** * The Zswap ledger state ([zswap/src/ledger.rs])

    Shielded coins live in a Merkle tree of commitments; spending one reveals
    its nullifier together with a recent root of the tree.  An offer is applied
    in three passes, over its inputs, its outputs and its transients, and at the
    end of a block the root of the rehashed tree is recorded for an hour. *)
From S2P Require Import Prelude Time Fab MerkleTree TimeFilterMap.

Definition ZSWAP_TREE_HEIGHT : Z := 32.
Abbreviation Commitment := HashOutput.
Abbreviation Nullifier := HashOutput.
Abbreviation ContractAddress := HashOutput.

(** [zswap::error::TransactionInvalid]. *)
Inductive ZswapInvalid : Type :=
| NullifierAlreadyPresent (n : Nullifier)
| CommitmentAlreadyPresent (c : Commitment)
| UnknownMerkleRoot (r : Fr)
| MerkleTreeError (e : InvalidUpdate).

(** How long a root stays valid, in seconds. *)
Definition ROOT_WINDOW : Z := 3600.

Section zswap.
(** Value commitments, proofs and ciphertexts are carried but not read by the
    ledger state. *)
Context {Pedersen Proof Ciphertext TokenType : Type} `{Hashing}.

Record ZswapInput := {
  inp_nullifier : Nullifier;
  inp_value_commitment : Pedersen;
  inp_contract_address : option ContractAddress;
  inp_merkle_tree_root : Fr;
  inp_proof : Proof
}.
Record ZswapOutput := {
  out_coin_com : Commitment;
  out_value_commitment : Pedersen;
  out_contract_address : option ContractAddress;
  out_ciphertext : option Ciphertext;
  out_proof : Proof
}.
Record ZswapTransient := {
  tr_nullifier : Nullifier;
  tr_coin_com : Commitment;
  tr_value_commitment_input : Pedersen;
  tr_value_commitment_output : Pedersen;
  tr_contract_address : option ContractAddress;
  tr_ciphertext : option Ciphertext;
  tr_proof_input : Proof;
  tr_proof_output : Proof
}.
Record ZswapDelta := { delta_token_type : TokenType; delta_value : Z }.
Record ZswapOffer := {
  offer_inputs : list ZswapInput;
  offer_outputs : list ZswapOutput;
  offer_transient : list ZswapTransient;
  offer_deltas : list ZswapDelta
}.

(** [State]; the maps to [()] are sets. *)
Record ZswapState := {
  coin_coms : MerkleTreeNode (option ContractAddress);
  coin_coms_set : gset Commitment;
  first_free : Z;
  nullifiers : gset Nullifier;
  past_roots : TimeFilterMap (Identity Fr) Fr
}.
Definition ZswapState_default : ZswapState := {|
  coin_coms := blank ZSWAP_TREE_HEIGHT;
  coin_coms_set := ∅;
  first_free := 0;
  nullifiers := ∅;
  past_roots := tf_new
|}.

(** [State::on_whitelist]. *)
Definition on_whitelist (whitelist : option (gset ContractAddress)) (contract : option ContractAddress)
    : bool :=
  match whitelist, contract with
  | Some list, Some addr => bool_decide (addr ∈ list)
  | Some _, None => false
  | None, _ => true
  end.

(** [State::apply_input]. *)
Definition apply_input (self : ZswapState) (inp : ZswapInput)
    (whitelist : option (gset ContractAddress)) : outcome ZswapInvalid ZswapState :=
  if negb (tf_contains (past_roots self) (inp_merkle_tree_root inp))
  then Err (UnknownMerkleRoot (inp_merkle_tree_root inp))
  else if bool_decide (inp_nullifier inp ∈ nullifiers self)
  then Err (NullifierAlreadyPresent (inp_nullifier inp))
  else
    Ok {| coin_coms := coin_coms self; coin_coms_set := coin_coms_set self;
          first_free := first_free self;
          nullifiers := if on_whitelist whitelist (inp_contract_address inp)
                        then {[ inp_nullifier inp ]} ∪ nullifiers self else nullifiers self;
          past_roots := past_roots self |}.

(** The part [apply_output] and [apply_transient] share: the commitment goes
    into the set and to the next free leaf, which is collapsed right away when
    its owner is not tracked. *)
Definition add_commitment (self : ZswapState) (com : Commitment) (contract : option ContractAddress)
    (whitelist : option (gset ContractAddress)) : outcome ZswapInvalid (ZswapState * Commitment * Z) :=
  let index := first_free self in
  tree ← map_err MerkleTreeError (try_update_hash (coin_coms self) index com contract);
  tree ← (if negb (on_whitelist whitelist contract) then collapse tree index index else Ok tree);
  Ok ({| coin_coms := tree; coin_coms_set := {[ com ]} ∪ coin_coms_set self;
         first_free := trunc u64_max (index + 1); nullifiers := nullifiers self;
         past_roots := past_roots self |}, com, index).

(** [State::apply_output]. *)
Definition apply_output (self : ZswapState) (out : ZswapOutput)
    (whitelist : option (gset ContractAddress)) : outcome ZswapInvalid (ZswapState * Commitment * Z) :=
  if bool_decide (out_coin_com out ∈ coin_coms_set self)
  then Err (CommitmentAlreadyPresent (out_coin_com out))
  else add_commitment self (out_coin_com out) (out_contract_address out) whitelist.

(** [State::apply_transient]. *)
Definition apply_transient (self : ZswapState) (trans : ZswapTransient)
    (whitelist : option (gset ContractAddress)) : outcome ZswapInvalid (ZswapState * Commitment * Z) :=
  if bool_decide (tr_coin_com trans ∈ coin_coms_set self)
  then Err (CommitmentAlreadyPresent (tr_coin_com trans))
  else if bool_decide (tr_nullifier trans ∈ nullifiers self)
  then Err (NullifierAlreadyPresent (tr_nullifier trans))
  else
    let self :=
      {| coin_coms := coin_coms self; coin_coms_set := coin_coms_set self;
         first_free := first_free self;
         nullifiers := if on_whitelist whitelist (tr_contract_address trans)
                       then {[ tr_nullifier trans ]} ∪ nullifiers self else nullifiers self;
         past_roots := past_roots self |} in
    add_commitment self (tr_coin_com trans) (tr_contract_address trans) whitelist.

(** [State::try_apply]. *)
Definition try_apply (self : ZswapState) (offer : ZswapOffer)
    (whitelist : option (gset ContractAddress))
    : outcome ZswapInvalid (ZswapState * gmap Commitment Z) :=
  new_st ← try_fold (fun st inp => apply_input st inp whitelist) self (offer_inputs offer);
  res ← try_fold (fun '(st, indices) out =>
           '(st, com, index) ← apply_output st out whitelist;
           Ok (st, <[com := index]> indices)) (new_st, ∅) (offer_outputs offer);
  try_fold (fun '(st, indices) trans =>
           '(st, com, index) ← apply_transient st trans whitelist;
           Ok (st, <[com := index]> indices)) res (offer_transient offer).

(** [State::filter]: everything but the leaves of the given contracts is
    collapsed. *)
Definition retained (keep : list ContractAddress) (entry : Z * (HashOutput * option ContractAddress))
    : bool :=
  match entry.2.2 with Some aux => bool_decide (aux ∈ keep) | None => false end.
Definition filter_step {E} (acc : MerkleTreeNode (option ContractAddress) * Z) (i : Z)
    : outcome E (MerkleTreeNode (option ContractAddress) * Z) :=
  let '(tree, p) := acc in
  tree ← (if 0 <? i then collapse tree p (i - 1) else Ok tree);
  Ok (tree, if i <? u64_max then i + 1 else p).
Definition zswap_filter {E} (self : ZswapState) (keep : list ContractAddress)
    : outcome E (MerkleTreeNode (option ContractAddress)) :=
  let retained_indices :=
    fst <$> List.filter (retained keep) (iter_aux (coin_coms self)) in
  '(tree, p) ← try_fold filter_step (coin_coms self, 0) retained_indices;
  if 0 <? first_free self then collapse tree p (first_free self - 1) else Ok tree.

(** [State::post_block_update]. *)
Definition zswap_post_block_update {E} (self : ZswapState) (tblock : Z) : outcome E ZswapState :=
  tree ← rehash (coin_coms self);
  root ← unwrap (mt_root tree);
  let roots := tf_insert (past_roots self) tblock root in
  let roots := tf_filter roots (Timestamp_sub tblock ROOT_WINDOW) in
  Ok {| coin_coms := tree; coin_coms_set := coin_coms_set self; first_free := first_free self;
        nullifiers := nullifiers self; past_roots := roots |}.
End zswap.
Arguments ZswapInput : clear implicits.
Arguments ZswapOutput : clear implicits.
Arguments ZswapTransient : clear implicits.
Arguments ZswapOffer : clear implicits.
