(* ===== verification/ZswapProps.v ===== *)
(** * Properties of the Zswap ledger state

    The state invariant [zswap_wf] ties the commitment tree, the commitment set
    and the next free index together; an offer is applied exactly if it spends
    unspent coins against known roots and creates new commitments. *)
From Stdlib Require Import Bool.
From S2P Require Import Prelude Time Fab MerkleTree TimeFilterMap Zswap.

Section zswap_lemmas.
Context {Pedersen Proof Ciphertext TokenType : Type} `{Hashing}.
Local Abbreviation Offer := (ZswapOffer Pedersen Proof Ciphertext TokenType).
Implicit Types st : ZswapState.

(** ** The invariant

    Exactly the leaves from [first_free] on are unused: the others hold a
    commitment of the set, or are collapsed (with a whitelist). *)
Definition zswap_wf st : Prop :=
  mt_wf (coin_coms st) /\ hash_ok (coin_coms st) /\ mt_height (coin_coms st) = ZSWAP_TREE_HEIGHT /\
  0 <= first_free st <= 2 ^ 32 /\
  (forall j, 0 <= j < 2 ^ 32 ->
     first_free st <= j <-> mt_index (coin_coms st) j = None /\ collapsed_at (coin_coms st) j = false) /\
  (forall j c a, 0 <= j < 2 ^ 32 -> mt_index (coin_coms st) j = Some (c, a) -> c ∈ coin_coms_set st) /\
  Z.of_nat (size (coin_coms_set st)) = first_free st /\
  tf_ok (past_roots st).

(** Without a whitelist every coin is recorded: each leaf below [first_free]
    holds a commitment of the set, every commitment of the set is at a leaf, and
    at no other one. *)
Definition coins_recorded st : Prop :=
  (forall j, 0 <= j < first_free st -> exists c a, mt_index (coin_coms st) j = Some (c, a) /\ c ∈ coin_coms_set st) /\
  (forall c, c ∈ coin_coms_set st -> exists j a, 0 <= j < first_free st /\ mt_index (coin_coms st) j = Some (c, a)) /\
  (forall i j c a b, 0 <= i < first_free st -> 0 <= j < first_free st ->
     mt_index (coin_coms st) i = Some (c, a) -> mt_index (coin_coms st) j = Some (c, b) -> i = j).

Lemma zswap_default_wf : zswap_wf ZswapState_default.
Proof. unfold zswap_wf. simpl. split_and!; try done. intros j Hj. split; [done|intros _; lia]. Qed.
Lemma default_recorded : coins_recorded ZswapState_default.
Proof. split_and!; cbn; [lia|set_solver|lia]. Qed.

Lemma add_commitment_spec st com contract wl :
  zswap_wf st -> com ∉ coin_coms_set st ->
  match add_commitment st com contract wl with
  | Ok (st', com', index) =>
      first_free st < 2 ^ 32 /\ com' = com /\ index = first_free st /\ zswap_wf st' /\
      first_free st' = first_free st + 1 /\ coin_coms_set st' = {[ com ]} ∪ coin_coms_set st /\
      nullifiers st' = nullifiers st /\ past_roots st' = past_roots st /\
      (on_whitelist wl contract = true -> mt_index (coin_coms st') index = Some (com, contract)) /\
      (forall j, 0 <= j < 2 ^ 32 -> j <> index ->
         mt_index (coin_coms st') j = mt_index (coin_coms st) j)
  | Err e => first_free st = 2 ^ 32 /\ e = MerkleTreeError (IndexOutOfTree (first_free st))
  | Panic => False
  end.
Proof.
  intros (Hwf & Hok & Hh & Hff & Hfree & Hset & Hsize & Htf) Hcom. unfold add_commitment.
  unfold ZSWAP_TREE_HEIGHT in *.
  pose proof (try_update_hash_rec_spec (mt_size (coin_coms st)) (coin_coms st) (first_free st) com contract
    Hwf ltac:(lia) ltac:(lia) ltac:(lia)) as Hu. rewrite Hh in Hu. unfold try_update_hash.
  destruct (try_update_hash_rec _ _ _ _ _) as [t1|[]|]; simpl; try done.
  2: { destruct Hu as [Hlt Hcol]. destruct (proj1 (Hfree (first_free st) ltac:(lia))) as [_ Hnc]; [lia|congruence]. }
  2: { destruct Hu as [-> Hge]. split; [lia|done]. }
  destruct Hu as (Hlt & _ & Hwf1 & Hh1 & Hok1 & Hidx1 & Hcol1). rewrite Hh in *.
  assert (Htree : exists t2,
    (if negb (on_whitelist wl contract) then collapse (E := ZswapInvalid) t1 (first_free st) (first_free st)
     else Ok t1) = Ok t2 /\ mt_wf t2 /\ hash_ok t2 /\ mt_height t2 = 32 /\
    (on_whitelist wl contract = true -> mt_index t2 (first_free st) = Some (com, contract)) /\
    (forall c a, mt_index t2 (first_free st) = Some (c, a) -> c = com) /\
    (mt_index t2 (first_free st) = None -> collapsed_at t2 (first_free st) = true) /\
    (forall j, 0 <= j < 2 ^ 32 -> j <> first_free st ->
       mt_index t2 j = mt_index (coin_coms st) j /\ collapsed_at t2 j = collapsed_at (coin_coms st) j)).
  { destruct (on_whitelist wl contract); simpl.
    - exists t1. specialize (Hidx1 (first_free st)) as Hi. rewrite decide_True in Hi by done.
      split_and!; try done; [by apply Hok1|intros _; apply Hi; lia|..].
      + intros c a. rewrite Hi by lia. by intros [= -> ->].
      + rewrite Hi by lia. done.
      + intros j Hj Hne. rewrite Hidx1, decide_False, Hcol1 by (done || lia). done.
    - destruct (collapse_rec_spec (E := ZswapInvalid) (mt_size t1) t1 (first_free st) (first_free st))
        as (t2 & E2 & Hwf2 & Hh2 & _ & _ & _ & Hok2 & Hidx2 & Hcol2); try done; try (rewrite ?Hh1; lia).
      exists t2. unfold collapse. rewrite Hh1 in *. split_and!; try done; [by apply Hok2, Hok1|..].
      + intros c a. rewrite Hidx2, decide_True by lia. done.
      + intros _. rewrite Hcol2 by lia. by rewrite bool_decide_eq_true_2 by lia.
      + intros j Hj Hne. rewrite Hidx2, decide_False, Hidx1, decide_False, Hcol2, Hcol1 by lia.
        rewrite bool_decide_eq_false_2 by lia. done. }
  destruct Htree as (t2 & -> & Hwf2 & Hok2 & Hh2 & Hhit & Hown & Hused & Hother). cbn [mbind outcome_bind].
  rewrite trunc_id by (unfold in_u, u64_max; lia).
  assert (Hsz : size ({[com]} ∪ coin_coms_set st) = S (size (coin_coms_set st))).
  { rewrite size_union by (by apply disjoint_singleton_l). by rewrite size_singleton. }
  split_and!; try done. 2: { intros j Hj Hne. by apply Hother. }
  unfold zswap_wf. simpl. split_and!; try done; try lia.
  - intros j Hj. destruct (decide (j = first_free st)) as [->|Hne].
    + split; [lia|]. intros [Hn Hc]. rewrite Hused in Hc by done. done.
    + destruct (Hother j) as [-> ->]; [lia..|]. rewrite <- Hfree by done. lia.
  - intros j c a Hj Hi. destruct (decide (j = first_free st)) as [->|Hne].
    + apply Hown in Hi as ->. by apply elem_of_union_l, elem_of_singleton.
    + destruct (Hother j Hj Hne) as [Hi' _]. rewrite Hi' in Hi. apply Hset in Hi; [by apply elem_of_union_r|done].
Qed.

(** ** Offers as lists of commitments and nullifiers *)
Abbreviation item := (Commitment * option ContractAddress * option Nullifier)%type.
Definition item_of_output (o : ZswapOutput Pedersen Proof Ciphertext) : item :=
  (out_coin_com o, out_contract_address o, None).
Definition item_of_transient (t : ZswapTransient Pedersen Proof Ciphertext) : item :=
  (tr_coin_com t, tr_contract_address t, Some (tr_nullifier t)).
Definition offer_items (o : Offer) : list item :=
  (item_of_output <$> offer_outputs o) ++ (item_of_transient <$> offer_transient o).
Definition item_coms (l : list item) : list Commitment := (fun i => i.1.1) <$> l.
Definition item_nulls (l : list item) : list Nullifier := omap snd l.

Definition with_null st (n : Nullifier) : ZswapState :=
  {| coin_coms := coin_coms st; coin_coms_set := coin_coms_set st; first_free := first_free st;
     nullifiers := {[ n ]} ∪ nullifiers st; past_roots := past_roots st |}.
Definition apply_item (acc : ZswapState * gmap Commitment Z) (i : item)
    : outcome ZswapInvalid (ZswapState * gmap Commitment Z) :=
  let '(st, indices) := acc in
  '(st, com, index) ←
    (if bool_decide (i.1.1 ∈ coin_coms_set st) then Err (CommitmentAlreadyPresent i.1.1)
     else match i.2 with
          | None => add_commitment st i.1.1 i.1.2 None
          | Some n =>
              if bool_decide (n ∈ nullifiers st) then Err (NullifierAlreadyPresent n)
              else add_commitment (with_null st n) i.1.1 i.1.2 None
          end);
  Ok (st, <[com := index]> indices).
Lemma try_fold_map {E A B C} (f : A -> C -> outcome E A) (g : B -> C) l acc :
  try_fold f acc (g <$> l) = try_fold (fun a b => f a (g b)) acc l.
Proof. revert acc. induction l as [|x l IH]; intros acc; simpl; [done|]. by destruct (f acc (g x)); simpl. Qed.
Lemma try_fold_ext {E A B} (f g : A -> B -> outcome E A) l acc :
  (forall a b, f a b = g a b) -> try_fold f acc l = try_fold g acc l.
Proof. intros Hfg. revert acc. induction l as [|x l IH]; intros acc; simpl; [done|]. rewrite Hfg. by destruct (g acc x); simpl. Qed.
Lemma try_apply_items st (o : Offer) :
  try_apply st o None =
  (st ← try_fold (fun st inp => apply_input st inp None) st (offer_inputs o);
   try_fold apply_item (st, ∅) (offer_items o)).
Proof.
  unfold try_apply, offer_items. destruct (try_fold _ st (offer_inputs o)) as [st1| |]; simpl; [|done..].
  rewrite try_fold_app, !try_fold_map.
  rewrite (try_fold_ext (fun a b => apply_item a (item_of_output b))
    (fun '(st, indices) out => '(st, com, index) ← apply_output st out None;
                               Ok (st, <[com := index]> indices))) by (by intros [s ix] b).
  destruct (try_fold _ (st1, ∅) (offer_outputs o)) as [[st2 ix2]| |]; simpl; [|done..].
  rewrite try_fold_map. apply try_fold_ext. intros [s ix] b.
  unfold apply_item, item_of_transient, apply_transient. simpl.
  destruct (bool_decide (tr_coin_com b ∈ coin_coms_set s)); [done|].
  destruct (bool_decide (tr_nullifier b ∈ nullifiers s)); done.
Qed.

(** ** One pass over the items *)
Definition items_ok st (l : list item) : Prop :=
  NoDup (item_coms l) /\ (forall c, c ∈ item_coms l -> c ∉ coin_coms_set st) /\
  NoDup (item_nulls l) /\ (forall n, n ∈ item_nulls l -> n ∉ nullifiers st) /\
  first_free st + Z.of_nat (length l) <= 2 ^ 32.
Definition items_added st (ix : gmap Commitment Z) (l : list item) st' (ix' : gmap Commitment Z) : Prop :=
  zswap_wf st' /\
  nullifiers st' = list_to_set (item_nulls l) ∪ nullifiers st /\
  coin_coms_set st' = list_to_set (item_coms l) ∪ coin_coms_set st /\
  first_free st' = first_free st + Z.of_nat (length l) /\
  past_roots st' = past_roots st /\
  (forall j, 0 <= j < first_free st -> mt_index (coin_coms st') j = mt_index (coin_coms st) j) /\
  (forall k c a n, l !! k = Some (c, a, n) ->
     mt_index (coin_coms st') (first_free st + Z.of_nat k) = Some (c, a) /\
     ix' !! c = Some (first_free st + Z.of_nat k)) /\
  (forall c, c ∉ item_coms l -> ix' !! c = ix !! c).

Lemma with_null_wf st n : zswap_wf st -> zswap_wf (with_null st n).
Proof. done. Qed.

Lemma apply_item_spec st ix c a n :
  zswap_wf st ->
  match apply_item (st, ix) (c, a, n) with
  | Ok (st', ix') => items_ok st [(c, a, n)] /\ items_added st ix [(c, a, n)] st' ix'
  | Err _ => ~ items_ok st [(c, a, n)]
  | Panic => False
  end.
Proof.
  intros Hwf. unfold apply_item. cbn [fst snd].
  case_bool_decide as Hc; simpl.
  { intros (_ & Hf & _). apply (Hf c); [by left|done]. }
  set (st0 := match n with Some n => with_null st n | None => st end).
  assert (Hadd : (match n with
     | Some n => if bool_decide (n ∈ nullifiers st) then Err (NullifierAlreadyPresent n)
                 else add_commitment (with_null st n) c a None
     | None => add_commitment st c a None end) =
     if match n with Some n => bool_decide (n ∈ nullifiers st) | None => false end
     then Err (NullifierAlreadyPresent (default [] n)) else add_commitment st0 c a None)
    by (by destruct n).
  rewrite Hadd. clear Hadd.
  destruct (match n with Some n => bool_decide (n ∈ nullifiers st) | None => false end) eqn:Hn.
  { destruct n as [n|]; [|done]. apply bool_decide_eq_true in Hn.
    intros (_ & _ & _ & Hf & _). apply (Hf n); [by left|done]. }
  assert (Hst0 : zswap_wf st0 /\ coin_coms st0 = coin_coms st /\ coin_coms_set st0 = coin_coms_set st /\
            first_free st0 = first_free st /\ past_roots st0 = past_roots st /\
            nullifiers st0 = list_to_set (item_nulls [(c, a, n)]) ∪ nullifiers st).
  { subst st0. destruct n as [n|]; cbn; (split; [done|]); split_and!; try done;
      by rewrite ?union_empty_r_L, ?union_empty_l_L. }
  destruct Hst0 as (Hwf0 & Ht0 & Hs0 & Hf0 & Hr0 & Hn0).
  pose proof (add_commitment_spec st0 c a None Hwf0 ltac:(by rewrite Hs0)) as Hspec.
  destruct (add_commitment st0 c a None) as [[[st' c'] index]|e|]; simpl; [|..|done].
  - destruct Hspec as (Hlt & -> & -> & Hwf' & Hff & Hset & Hnul & Hroots & Hhit & Hother).
    rewrite Ht0, Hs0, Hf0, Hr0, Hn0 in *. split.
    + split_and!; simpl; try lia.
      * apply NoDup_singleton.
      * intros x ->%list_elem_of_singleton. done.
      * destruct n; simpl; [apply NoDup_singleton|constructor].
      * destruct n as [n|]; simpl; [|by intros x ?%elem_of_nil].
        intros x ->%list_elem_of_singleton. by apply bool_decide_eq_false in Hn.
    + split_and!; try done.
      * rewrite Hset. simpl. by rewrite union_empty_r_L.
      * intros j Hj. apply Hother; destruct Hwf as (_ & _ & _ & ? & _); lia.
      * intros [|k] c0 a0 n0 Hk; [|done]. simplify_eq/=. rewrite Z.add_0_r. split; [by apply Hhit|].
        by rewrite lookup_insert_eq.
      * intros x Hx. rewrite lookup_insert_ne; [done|]. intros ->. apply Hx. by left.
  - destruct Hspec as [Hff _]. rewrite Hf0 in Hff. intros (_ & _ & _ & _ & Hl). simpl in Hl. lia.
Qed.

Lemma items_ok_cons st ix i l st1 ix1 :
  items_added st ix [i] st1 ix1 -> items_ok st [i] ->
  items_ok st (i :: l) <-> items_ok st1 l.
Proof.
  destruct i as [[c a] n].
  intros (_ & Hn1 & Hc1 & Hf1 & _) (_ & Hcf & _ & Hnf & _). unfold items_ok.
  rewrite Hn1, Hc1, Hf1.
  change (item_coms ((c, a, n) :: l)) with (c :: item_coms l).
  change (item_coms [(c, a, n)]) with [c] in *.
  assert (Hnulls : item_nulls ((c, a, n) :: l) = item_nulls [(c, a, n)] ++ item_nulls l)
    by (by destruct n).
  rewrite Hnulls, list.NoDup_cons, list.NoDup_app. cbn [length list_to_set].
  assert (Hnd : NoDup (item_nulls [(c, a, n)]))
    by (destruct n; cbn; [apply NoDup_singleton|constructor]).
  rewrite Nat2Z.inj_succ. split.
  - intros ([Hcl HNc] & Hcf' & (_ & Hdis & HNn) & Hnf' & Hl). split_and!; try done; try lia.
    + intros x Hx. rewrite not_elem_of_union, union_empty_r_L, not_elem_of_singleton.
      split; [by intros ->|]. apply Hcf'. by right.
    + intros x Hx. rewrite not_elem_of_union, elem_of_list_to_set. split; [|apply Hnf', elem_of_app; by right].
      intros Hx'. by apply (Hdis x).
  - intros (HNc & Hcf' & HNn & Hnf' & Hl). split_and!; try done; try lia.
    + intros Hx. apply Hcf' in Hx. rewrite not_elem_of_union, union_empty_r_L, not_elem_of_singleton in Hx.
      by destruct Hx.
    + intros x [->|Hx]%elem_of_cons; [by apply Hcf; left|]. apply Hcf' in Hx.
      by apply not_elem_of_union in Hx as [_ ?].
    + intros x Hx Hx'. apply Hnf' in Hx'. apply not_elem_of_union in Hx' as [Hx' _].
      by apply Hx', elem_of_list_to_set.
    + intros x [Hx|Hx]%elem_of_app; [by apply Hnf|]. apply Hnf' in Hx.
      by apply not_elem_of_union in Hx as [_ ?].
Qed.
Lemma items_added_cons st ix i l st1 ix1 st2 ix2 :
  zswap_wf st -> items_added st ix [i] st1 ix1 -> items_ok st1 l -> items_added st1 ix1 l st2 ix2 ->
  items_added st ix (i :: l) st2 ix2.
Proof.
  destruct i as [[c a] n].
  intros Hwf (_ & Hn1 & Hc1 & Hf1 & Hr1 & Hj1 & Hk1 & Hx1) (_ & Hfresh & _)
    (Hwf2 & Hn2 & Hc2 & Hf2 & Hr2 & Hj2 & Hk2 & Hx2).
  destruct Hwf as (_ & _ & _ & Hff & _).
  destruct (Hk1 0%nat c a n eq_refl) as [Hi1 Hic]. rewrite Z.add_0_r in Hi1, Hic.
  assert (Hcl : c ∉ item_coms l).
  { intros Hcl. apply Hfresh in Hcl. rewrite Hc1 in Hcl. apply Hcl. cbn.
    by apply elem_of_union_l, elem_of_union_l, elem_of_singleton. }
  cbn [length] in *. split_and!; [done|..].
  - rewrite Hn2, Hn1. clear. destruct n; cbn; set_solver.
  - rewrite Hc2, Hc1. clear. cbn. set_solver.
  - cbn [length]. lia.
  - congruence.
  - intros j Hj. rewrite Hj2, Hj1; [done|lia..].
  - intros [|k] c0 a0 n0 Hk.
    + simplify_eq/=. rewrite Z.add_0_r. rewrite Hj2 by lia. split; [done|]. by rewrite Hx2.
    + simpl in Hk. destruct (Hk2 k c0 a0 n0 Hk) as [? ?].
      by replace (first_free st + Z.of_nat (S k)) with (first_free st1 + Z.of_nat k) by lia.
  - intros x Hx. change (item_coms ((c, a, n) :: l)) with (c :: item_coms l) in Hx.
    apply not_elem_of_cons in Hx as [Hxc Hxl]. rewrite Hx2 by done. apply Hx1.
    intros ->%list_elem_of_singleton. done.
Qed.
Lemma items_added_nil st ix : zswap_wf st -> items_added st ix [] st ix.
Proof. intros Hwf. split_and!; try done; cbn; [by rewrite union_empty_l_L..|lia]. Qed.
Lemma items_ok_app_l st l k : items_ok st (l ++ k) -> items_ok st l.
Proof.
  unfold items_ok, item_coms, item_nulls. rewrite fmap_app, omap_app, !list.NoDup_app, length_app.
  intros ((? & _) & Hc & (? & _) & Hn & Hl). split_and!; try done; try lia.
  - intros x Hx. apply Hc, elem_of_app. by left.
  - intros x Hx. apply Hn, elem_of_app. by left.
Qed.

(** Applying a list of items succeeds exactly under [items_ok], never panics,
    and has the effect [items_added]. *)
Lemma apply_items_spec l : forall st ix,
  zswap_wf st ->
  match try_fold apply_item (st, ix) l with
  | Ok (st', ix') => items_ok st l /\ items_added st ix l st' ix'
  | Err _ => ~ items_ok st l
  | Panic => False
  end.
Proof.
  induction l as [|[[c a] n] l IH]; intros st ix Hwf.
  { split; [|by apply items_added_nil]. destruct Hwf as (_ & _ & _ & ? & _).
    split_and!; cbn; try (by constructor); try (by intros x ?%elem_of_nil); lia. }
  cbn [try_fold]. pose proof (apply_item_spec st ix c a n Hwf) as Hi.
  destruct (apply_item (st, ix) (c, a, n)) as [[st1 ix1]|e|]; simpl; [|..|done].
  - destruct Hi as [Hok Hadd]. specialize (IH st1 ix1 ltac:(apply Hadd)).
    destruct (try_fold apply_item (st1, ix1) l) as [[st2 ix2]|e|]; [|..|done].
    + destruct IH as [Hok2 Hadd2]. split.
      * by apply (items_ok_cons st ix (c, a, n) l st1 ix1).
      * by eapply items_added_cons.
    + rewrite (items_ok_cons st ix (c, a, n) l st1 ix1) by done. done.
  - intros Hok. apply Hi. by apply (items_ok_app_l st [_] l).
Qed.

Lemma items_recorded st ix l st' ix' : zswap_wf st -> items_ok st l -> items_added st ix l st' ix' -> coins_recorded st -> coins_recorded st'.
Proof.
  intros (_ & _ & _ & Hff & _) (Hnd & Hfresh & _) (_ & _ & Hc & Hf & _ & Hold & Hnew & _) (Hat & Hin & Hinj).
  assert (forall j, 0 <= j < first_free st' -> exists c a, mt_index (coin_coms st') j = Some (c, a) /\
    ((j < first_free st /\ mt_index (coin_coms st) j = Some (c, a) /\ c ∈ coin_coms_set st) \/
     exists k n, l !! k = Some (c, a, n) /\ j = first_free st + Z.of_nat k)) as Hj.
  { intros j Hj. destruct (Z.lt_ge_cases j (first_free st)) as [Hlt|Hge].
    - destruct (Hat j ltac:(lia)) as (c & a & Hl & Hs). exists c, a. rewrite Hold by lia. auto.
    - destruct (lookup_lt_is_Some_2 l (Z.to_nat (j - first_free st))) as [[[c a] n] Hl]; [lia|]. exists c, a.
      destruct (Hnew _ _ _ _ Hl) as [Hx _]. rewrite Z2Nat.id in Hx by lia. replace (first_free st + (j - first_free st)) with j in Hx by lia.
      split; [done|]. right. exists (Z.to_nat (j - first_free st)), n. split; [done|lia]. }
  assert (forall k c a n, l !! k = Some (c, a, n) -> item_coms l !! k = Some c) as Hcom.
  { intros k c a n Hl. unfold item_coms. by rewrite list_lookup_fmap, Hl. }
  split_and!.
  - intros j Hr. destruct (Hj j Hr) as (c & a & Hl & [(_ & _ & Hs)|(k & n & Hk & _)]); exists c, a; (split; [done|]); rewrite Hc; apply elem_of_union; [by right|left].
    apply elem_of_list_to_set. eapply list_elem_of_lookup_2, Hcom, Hk.
  - intros c. rewrite Hc, elem_of_union, elem_of_list_to_set. intros [Hl|Hs].
    + apply list_elem_of_lookup in Hl as [k Hk]. unfold item_coms in Hk. rewrite list_lookup_fmap in Hk. apply fmap_Some in Hk as ([[c' a] n] & Hk & ->).
      exists (first_free st + Z.of_nat k), a. pose proof (lookup_lt_Some _ _ _ Hk). split; [lia|]. by destruct (Hnew _ _ _ _ Hk).
    + destruct (Hin c Hs) as (j & a & Hr & Hl). exists j, a. split; [lia|]. by rewrite Hold.
  - intros i j c a b Hi Hr Ei Ej. destruct (Hj i Hi) as (c1 & a1 & E1 & H1'), (Hj j Hr) as (c2 & a2 & E2 & H2').
    rewrite Ei in E1. injection E1 as <- <-. rewrite Ej in E2. injection E2 as <- <-.
    destruct H1' as [(Hi' & E1 & S1)|(k1 & n1 & K1 & ->)], H2' as [(Hr' & E2 & S2)|(k2 & n2 & K2 & ->)].
    + eapply (Hinj i j); try done; lia.
    + exfalso. apply (Hfresh c); [|done]. eapply list_elem_of_lookup_2, Hcom, K2.
    + exfalso. apply (Hfresh c); [|done]. eapply list_elem_of_lookup_2, Hcom, K1.
    + do 2 f_equal. eapply (proj1 (NoDup_alt _) Hnd); [exact (Hcom _ _ _ _ K1)|exact (Hcom _ _ _ _ K2)].
Qed.

(** ** The pass over the inputs *)
Abbreviation Input := (ZswapInput Pedersen Proof).
Definition inputs_ok st (l : list Input) : Prop :=
  Forall (fun i => tf_contains (past_roots st) (inp_merkle_tree_root i) = true) l /\
  NoDup (inp_nullifier <$> l) /\ (forall n, n ∈ inp_nullifier <$> l -> n ∉ nullifiers st).
Definition with_nulls st (l : list Nullifier) : ZswapState :=
  {| coin_coms := coin_coms st; coin_coms_set := coin_coms_set st; first_free := first_free st;
     nullifiers := list_to_set l ∪ nullifiers st; past_roots := past_roots st |}.
Lemma apply_input_unfold st (i : Input) :
  apply_input st i None =
  if negb (tf_contains (past_roots st) (inp_merkle_tree_root i))
  then Err (UnknownMerkleRoot (inp_merkle_tree_root i))
  else if bool_decide (inp_nullifier i ∈ nullifiers st)
  then Err (NullifierAlreadyPresent (inp_nullifier i)) else Ok (with_nulls st [inp_nullifier i]).
Proof. unfold apply_input, with_nulls. cbn. by rewrite union_empty_r_L. Qed.
Lemma apply_inputs_spec (l : list Input) : forall st,
  match try_fold (fun st inp => apply_input st inp None) st l with
  | Ok st' => inputs_ok st l /\ st' = with_nulls st (inp_nullifier <$> l)
  | Err _ => ~ inputs_ok st l
  | Panic => False
  end.
Proof.
  induction l as [|i l IH]; intros st.
  { split; [split_and!; try constructor; by intros n ?%elem_of_nil|].
    unfold with_nulls. cbn. rewrite union_empty_l_L. by destruct st. }
  cbn [try_fold]. rewrite apply_input_unfold.
  destruct (tf_contains (past_roots st) (inp_merkle_tree_root i)) eqn:Hr; cbn [negb].
  2: { intros ([? _]%Forall_cons_1 & _). congruence. }
  case_bool_decide as Hn.
  { intros (_ & _ & Hf). apply (Hf (inp_nullifier i)); [by left|done]. }
  cbn [mbind outcome_bind]. specialize (IH (with_nulls st [inp_nullifier i])).
  assert (Hiff : inputs_ok st (i :: l) <-> inputs_ok (with_nulls st [inp_nullifier i]) l).
  { unfold inputs_ok. cbn. rewrite Forall_cons_iff, list.NoDup_cons, union_empty_r_L. split.
    - intros ((_ & ?) & (Hni & ?) & Hf). split_and!; try done. intros x Hx.
      rewrite not_elem_of_union, not_elem_of_singleton. split; [by intros ->|]. apply Hf. by right.
    - intros (? & ? & Hf). split_and!; try done.
      + intros Hx. apply Hf in Hx. rewrite not_elem_of_union, not_elem_of_singleton in Hx. by destruct Hx.
      + intros x [->|Hx]%elem_of_cons; [done|]. apply Hf in Hx. by apply not_elem_of_union in Hx as [_ ?]. }
  destruct (try_fold _ (with_nulls st [inp_nullifier i]) l) as [st'|e|]; [|by rewrite Hiff|done].
  destruct IH as [Hok ->]. split; [by apply Hiff|]. unfold with_nulls. cbn. f_equal. clear. set_solver.
Qed.

(** ** Whole offers *)
Definition offer_nulls (o : Offer) : list Nullifier :=
  (inp_nullifier <$> offer_inputs o) ++ (tr_nullifier <$> offer_transient o).
Definition offer_coms (o : Offer) : list Commitment :=
  (out_coin_com <$> offer_outputs o) ++ (tr_coin_com <$> offer_transient o).
Definition offer_applicable st (o : Offer) : Prop :=
  Forall (fun i => tf_contains (past_roots st) (inp_merkle_tree_root i) = true) (offer_inputs o) /\
  NoDup (offer_nulls o) /\ (forall n, n ∈ offer_nulls o -> n ∉ nullifiers st) /\
  NoDup (offer_coms o) /\ (forall c, c ∈ offer_coms o -> c ∉ coin_coms_set st) /\
  first_free st + Z.of_nat (length (offer_coms o)) <= 2 ^ 32.

Lemma offer_items_coms (o : Offer) : item_coms (offer_items o) = offer_coms o.
Proof. unfold item_coms, offer_items, offer_coms. by rewrite fmap_app, <- !list_fmap_compose. Qed.
Lemma offer_items_nulls (o : Offer) : item_nulls (offer_items o) = tr_nullifier <$> offer_transient o.
Proof.
  unfold item_nulls, offer_items. rewrite omap_app.
  assert (Hout : omap snd (item_of_output <$> offer_outputs o) = [])
    by (induction (offer_outputs o); simpl; auto).
  rewrite Hout. simpl. induction (offer_transient o) as [|t l IH]; simpl; [done|]. by f_equal.
Qed.
Lemma offer_items_length (o : Offer) : length (offer_items o) = length (offer_coms o).
Proof. unfold offer_items, offer_coms. by rewrite !length_app, !length_fmap. Qed.

Lemma offer_applicable_items st (o : Offer) :
  offer_applicable st o <->
  inputs_ok st (offer_inputs o) /\
  items_ok (with_nulls st (inp_nullifier <$> offer_inputs o)) (offer_items o).
Proof.
  unfold offer_applicable, inputs_ok, items_ok.
  rewrite offer_items_coms, offer_items_nulls, offer_items_length. cbn [coin_coms_set first_free nullifiers with_nulls].
  unfold offer_nulls. rewrite list.NoDup_app. setoid_rewrite elem_of_app.
  setoid_rewrite not_elem_of_union. setoid_rewrite elem_of_list_to_set. split.
  - intros (Hr & (Hi & Hd & Ht) & Hn & Hc & Hcf & Hl). repeat split; auto. intros Hx. by eapply Hd.
  - intros ((Hr & Hi & Hin) & Hc & Hcf & Ht & Htn & Hl). split_and!; auto.
    + intros x Hx Hx'. by destruct (Htn x Hx').
    + intros x [Hx|Hx]; [by apply Hin|by destruct (Htn x Hx)].
Qed.

Lemma try_apply_spec st (o : Offer) :
  zswap_wf st ->
  match try_apply st o None with
  | Ok (st', ix') =>
      offer_applicable st o /\
      items_added (with_nulls st (inp_nullifier <$> offer_inputs o)) ∅ (offer_items o) st' ix'
  | Err _ => ~ offer_applicable st o
  | Panic => False
  end.
Proof.
  intros Hwf. rewrite try_apply_items. pose proof (offer_applicable_items st o) as Happ.
  pose proof (apply_inputs_spec (offer_inputs o) st) as Hi.
  destruct (try_fold _ st (offer_inputs o)) as [st1|e|]; cbn [mbind outcome_bind]; [|tauto|done].
  destruct Hi as [Hi ->].
  pose proof (apply_items_spec (offer_items o) (with_nulls st (inp_nullifier <$> offer_inputs o)) ∅ Hwf) as Hs.
  destruct (try_fold apply_item _ (offer_items o)) as [[st' ix']|e|]; tauto.
Qed.

(** ** Runs of the ledger: offers and block ends at non-decreasing times *)
Inductive zswap_step : Z * ZswapState -> Z * ZswapState -> Prop :=
| step_apply now st (o : Offer) st' ix :
    try_apply st o None = Ok (st', ix) -> zswap_step (now, st) (now, st')
| step_block now st tblock st' :
    now <= tblock -> zswap_post_block_update (E := ZswapInvalid) st tblock = Ok st' ->
    zswap_step (now, st) (tblock, st').
Definition zswap_reachable : Z * ZswapState -> Prop := rtc zswap_step (0, ZswapState_default).

(** The recorded roots of a reachable state are at most an hour old. *)
Definition roots_recent (now : Z) st : Prop :=
  forall ts, is_Some (tf_time_map (past_roots st) !! ts) -> now - ROOT_WINDOW <= ts <= now.

Lemma identity_items_length (m : gmap Z (Identity Fr)) : length (map_items m) = size m.
Proof.
  rewrite <- length_map_to_list. unfold map_items.
  induction (map_to_list m) as [|x l IH]; simpl; [done|]. by f_equal.
Qed.
Lemma roots_recent_bound now st :
  roots_recent now st -> Z.of_nat (length (tf_items (past_roots st))) < u32_max.
Proof.
  intros Hr. unfold tf_items. rewrite identity_items_length, <- size_dom.
  assert (Hsub : dom (tf_time_map (past_roots st)) ⊆@{gset Z} list_to_set (seqZ (now - ROOT_WINDOW) (ROOT_WINDOW + 1))).
  { intros ts Hts%elem_of_dom%Hr. apply elem_of_list_to_set, elem_of_seqZ. lia. }
  apply subseteq_size in Hsub. rewrite size_list_to_set, length_seqZ in Hsub by apply NoDup_seqZ.
  unfold ROOT_WINDOW in Hsub. unfold u32_max. lia.
Qed.

Lemma root_cutoff tblock : Timestamp_sub tblock ROOT_WINDOW = Z.max 0 (tblock - ROOT_WINDOW).
Proof. apply Timestamp_sub_small. unfold ROOT_WINDOW. ints. Qed.
Lemma post_block_spec {E} st now tblock :
  zswap_wf st -> roots_recent now st -> now <= tblock ->
  exists st', zswap_post_block_update (E := E) st tblock = Ok st' /\ zswap_wf st' /\
    roots_recent tblock st' /\
    coin_coms_set st' = coin_coms_set st /\ nullifiers st' = nullifiers st /\ first_free st' = first_free st /\
    mt_root (coin_coms st') = Some (root_spec (coin_coms st)) /\
    (forall j, mt_index (coin_coms st') j = mt_index (coin_coms st) j) /\
    past_roots st' = tf_filter (tf_insert (past_roots st) tblock (root_spec (coin_coms st)))
                       (Timestamp_sub tblock ROOT_WINDOW).
Proof.
  intros (Hwf & Hok & Hh & Hff & Hfree & Hset & Hsize & Htf) Hr Hnow. unfold zswap_post_block_update.
  destruct (rehash_spec (E := E) (coin_coms st)) as (t' & -> & Hroot & Hh' & Hwf' & Hok' & Hidx & Hcol).
  cbn [mbind outcome_bind]. rewrite Hroot. cbn [unwrap].
  eexists. split; [reflexivity|]. split; [|split; [|by split_and!]].
  - unfold zswap_wf. simpl. split_and!; try done; auto; try congruence; try lia.
    + intros j Hj. rewrite Hidx, Hcol. by apply Hfree.
    + intros j c a Hj. rewrite Hidx. by apply Hset.
    + apply tf_filter_ok, tf_insert_ok; [done..|]. by apply (roots_recent_bound now).
  - intros ts. cbn [past_roots]. rewrite tf_filter_lookup, root_cutoff.
    destruct (Z.leb_spec (Z.max 0 (tblock - ROOT_WINDOW)) ts) as [Hle|]; [|by intros [? ?]].
    cbn [tf_insert tf_time_map]. destruct (decide (ts = tblock)) as [->|Hne]; [unfold ROOT_WINDOW; lia|].
    rewrite lookup_insert_ne by done. intros ?%Hr. lia.
Qed.

Lemma post_block_recorded {E} st now tblock st' : zswap_wf st -> roots_recent now st -> now <= tblock ->
  zswap_post_block_update (E := E) st tblock = Ok st' -> coins_recorded st -> coins_recorded st'.
Proof.
  intros Hwf Hr Hle Eq. destruct (post_block_spec (E := E) st now tblock Hwf Hr Hle) as (st2 & E2 & _ & _ & Hc & _ & Hf & _ & Hi & _).
  rewrite Eq in E2. injection E2 as <-. unfold coins_recorded. rewrite Hc, Hf. by setoid_rewrite Hi.
Qed.
Lemma apply_recorded st (o : Offer) st' ix : zswap_wf st -> try_apply st o None = Ok (st', ix) -> coins_recorded st -> coins_recorded st'.
Proof.
  intros Hwf Ha Hr. pose proof (try_apply_spec st o Hwf) as Hs. rewrite Ha in Hs. destruct Hs as [Happ Hadd].
  apply offer_applicable_items in Happ as [_ Hok]. by eapply items_recorded; [|exact Hok|exact Hadd|].
Qed.

(** The root of the tree is accepted after the block. *)
Lemma post_block_root {E} st now tblock st' :
  zswap_wf st -> roots_recent now st -> now <= tblock -> 0 <= now ->
  zswap_post_block_update (E := E) st tblock = Ok st' -> tf_contains (past_roots st') (root_spec (coin_coms st)) = true.
Proof.
  intros Hwf Hr Hle Hnow Eq. destruct (post_block_spec (E := E) st now tblock Hwf Hr Hle) as (st2 & E2 & Hwf' & _ & _ & _ & _ & _ & _ & Hp).
  rewrite Eq in E2. injection E2 as <-. destruct Hwf' as (_ & _ & _ & _ & _ & _ & _ & Htf).
  apply tf_contains_items; [done|]. unfold tf_items. apply map_items_elem. exists tblock, (root_spec (coin_coms st)). split; [|by left].
  rewrite Hp, tf_filter_lookup, (proj2 (Z.leb_le _ _)) by (rewrite root_cutoff; unfold ROOT_WINDOW; lia). apply lookup_insert_eq.
Qed.

Lemma zswap_step_ok s s' :
  zswap_step s s' -> zswap_wf s.2 /\ roots_recent s.1 s.2 ->
  zswap_wf s'.2 /\ roots_recent s'.1 s'.2 /\ nullifiers s.2 ⊆ nullifiers s'.2 /\
  coin_coms_set s.2 ⊆ coin_coms_set s'.2 /\ s.1 <= s'.1.
Proof.
  intros Hs [Hwf Hr]. destruct Hs as [now st o st' ix Ha|now st tblock st' Hle Hb]; simpl in *.
  - pose proof (try_apply_spec st o Hwf) as Hspec. rewrite Ha in Hspec.
    destruct Hspec as (_ & Hwf' & Hn & Hc & _ & Hp & _). split_and!; [done|..].
    + unfold roots_recent. by rewrite Hp.
    + rewrite Hn. cbn. set_solver.
    + rewrite Hc. cbn. set_solver.
    + done.
  - destruct (post_block_spec (E := ZswapInvalid) st now tblock Hwf Hr Hle)
      as (st2 & E & ? & ? & Hc & Hn & _). rewrite E in Hb. injection Hb as ->. rewrite Hc, Hn. by split_and!.
Qed.
Lemma zswap_run_ok s s' :
  rtc zswap_step s s' -> zswap_wf s.2 /\ roots_recent s.1 s.2 ->
  zswap_wf s'.2 /\ roots_recent s'.1 s'.2 /\ nullifiers s.2 ⊆ nullifiers s'.2 /\
  coin_coms_set s.2 ⊆ coin_coms_set s'.2 /\ s.1 <= s'.1.
Proof.
  induction 1 as [s|s1 s2 s3 H12 _ IH]; intros Hok; [destruct Hok; by split_and!|].
  destruct (zswap_step_ok _ _ H12 Hok) as (Hwf & Hr & Hn & Hc & Hle).
  destruct (IH (conj Hwf Hr)) as (? & ? & ? & ? & ?). split_and!; try done; [set_solver..|lia].
Qed.
Lemma zswap_reachable_ok s : zswap_reachable s -> zswap_wf s.2 /\ roots_recent s.1 s.2.
Proof.
  intros Hs. destruct (zswap_run_ok _ _ Hs) as (? & ? & _); [|done].
  split; [apply zswap_default_wf|]. intros ts [? [=]].
Qed.
Lemma zswap_reachable_now s : zswap_reachable s -> 0 <= s.1.
Proof.
  intros Hs. destruct (zswap_run_ok _ _ Hs) as (_ & _ & _ & _ & ?); [|done].
  split; [apply zswap_default_wf|]. intros ts [? [=]].
Qed.

(** ** Properties *)

(** Every state reached from the empty one by applying offers and ending
    blocks (at non-decreasing times) is well formed: the commitment tree has
    height 32 and genuine hashes, exactly the leaves from [first_free] on are
    unused, every leaf's commitment is in the commitment set, which has
    [first_free] elements (so no commitment occurs twice), and the recorded
    roots are no more than an hour old. *)
Theorem zswap_reachable_invariant (now : Z) st :
  zswap_reachable (now, st) -> zswap_wf st /\ roots_recent now st.
Proof. apply zswap_reachable_ok. Qed.

(** C18: In a reachable state of a node that records every coin (no whitelist)
    [try_apply] never panics, and it accepts an offer
    exactly if all roots its inputs use are recorded, its nullifiers (of inputs
    and transients) are pairwise distinct and unspent, its commitments (of
    outputs and transients) are pairwise distinct and new, and the tree has
    room for them. *)
Theorem zswap_try_apply_iff (now : Z) st (o : Offer) :
  zswap_reachable (now, st) ->
  try_apply st o None <> Panic /\
  ((exists r, try_apply st o None = Ok r) <-> offer_applicable st o).
Proof.
  intros [Hwf _]%zswap_reachable_ok. pose proof (try_apply_spec st o Hwf) as Hs. simpl in *.
  destruct (try_apply st o None) as [[st' ix]|e|]; [..|done]; (split; [done|]).
  - split; [intros _; apply Hs|by eexists].
  - split; [by intros [? ?]|done].
Qed.

(** An accepted offer adds exactly its nullifiers and its commitments, its
    k-th new coin (outputs first, then transients) sits at index
    [first_free + k] with its contract address and is reported there in the
    returned map, all earlier leaves and the recorded roots are unchanged. *)
Theorem zswap_try_apply_effect (now : Z) st (o : Offer) st' ix :
  zswap_reachable (now, st) -> try_apply st o None = Ok (st', ix) ->
  nullifiers st' = list_to_set (offer_nulls o) ∪ nullifiers st /\
  coin_coms_set st' = list_to_set (offer_coms o) ∪ coin_coms_set st /\
  first_free st' = first_free st + Z.of_nat (length (offer_coms o)) /\
  past_roots st' = past_roots st /\
  (forall j, 0 <= j < first_free st -> mt_index (coin_coms st') j = mt_index (coin_coms st) j) /\
  (forall k c a n, offer_items o !! k = Some (c, a, n) ->
     mt_index (coin_coms st') (first_free st + Z.of_nat k) = Some (c, a) /\
     ix !! c = Some (first_free st + Z.of_nat k)) /\
  (forall c, c ∉ offer_coms o -> ix !! c = None).
Proof.
  intros [Hwf _]%zswap_reachable_ok Ha. pose proof (try_apply_spec st o Hwf) as Hs. simpl in *.
  rewrite Ha in Hs. destruct Hs as (_ & _ & Hn & Hc & Hf & Hp & Hj & Hk & Hix).
  rewrite offer_items_coms in Hc, Hix. rewrite offer_items_nulls in Hn. rewrite offer_items_length in Hf.
  split_and!; try done. rewrite Hn. unfold offer_nulls. cbn. rewrite list_to_set_app_L. set_solver.
Qed.

(** C20: No coin is spent twice at a node that records every coin (no
    whitelist): once an offer with a nullifier has been applied,
    no later offer with the same nullifier is ever accepted, whatever offers
    and block ends come in between. *)
Theorem zswap_no_double_spend (now now' : Z) st st1 ix st2 (o1 o2 : Offer) (n : Nullifier) :
  zswap_reachable (now, st) -> try_apply st o1 None = Ok (st1, ix) ->
  rtc zswap_step (now, st1) (now', st2) -> n ∈ offer_nulls o1 -> n ∈ offer_nulls o2 ->
  exists e, try_apply st2 o2 None = Err e.
Proof.
  intros Hr Ha Hrun H1 H2.
  assert (Hr1 : zswap_reachable (now, st1)) by (eapply rtc_r; [exact Hr|by eapply step_apply]).
  destruct (zswap_run_ok _ _ Hrun (zswap_reachable_ok _ Hr1)) as (Hwf2 & _ & Hsub & _).
  destruct (zswap_reachable_ok _ Hr) as [Hwf _]. pose proof (try_apply_spec st o1 Hwf) as Hs1.
  simpl in *. rewrite Ha in Hs1. destruct Hs1 as (_ & _ & Hn & _).
  assert (Hin : n ∈ nullifiers st2).
  { apply Hsub. rewrite Hn, offer_items_nulls. cbn. unfold offer_nulls in H1. set_solver. }
  pose proof (try_apply_spec st2 o2 Hwf2) as Hs2.
  destruct (try_apply st2 o2 None) as [[st3 ix3]|e|]; [|by exists e|done].
  destruct Hs2 as [(_ & _ & Hf & _) _]. by destruct (Hf n H2).
Qed.

(** Ending a block never fails, and afterwards a root is accepted exactly if
    it is the root of the current commitment tree or was recorded in the
    window of an hour before the block (an older root at the same timestamp is
    replaced). *)
Theorem zswap_root_window (now tblock : Z) st (r : Fr) :
  zswap_reachable (now, st) -> now <= tblock ->
  exists st', zswap_post_block_update (E := ZswapInvalid) st tblock = Ok st' /\
    (tf_contains (past_roots st') r = true <->
     rehashed_root (E := ZswapInvalid) (coin_coms st) = Ok r \/
     exists ts, tf_time_map (past_roots st) !! ts = Some r /\
                Timestamp_sub tblock ROOT_WINDOW <= ts < tblock).
Proof.
  intros Hreach Hle. pose proof (zswap_reachable_now _ Hreach) as Hnow.
  apply zswap_reachable_ok in Hreach as [Hwf Hr]. simpl in *.
  destruct (post_block_spec (E := ZswapInvalid) st now tblock Hwf Hr Hle)
    as (st' & E & Hwf' & _ & _ & _ & _ & _ & _ & Hp).
  exists st'. split; [done|]. rewrite tf_contains_items by apply Hwf'. unfold tf_items.
  rewrite map_items_elem, rehashed_root_spec, Hp. setoid_rewrite tf_filter_lookup.
  rewrite root_cutoff. cbn [tf_insert tf_time_map]. split.
  - intros (ts & c & Hc & ->%list_elem_of_singleton). destruct (Z.leb_spec (Z.max 0 (tblock - ROOT_WINDOW)) ts); [|done].
    destruct (decide (ts = tblock)) as [->|Hne].
    + rewrite lookup_insert_eq in Hc. left. by injection Hc as ->.
    + rewrite lookup_insert_ne in Hc by done. right. exists ts. split; [done|].
      pose proof (Hr ts (ex_intro _ _ Hc)). lia.
  - intros [[= <-]|(ts & Hts & Hge)].
    + exists tblock, (root_spec (coin_coms st)). split; [|by left].
      rewrite (proj2 (Z.leb_le _ _)) by (unfold ROOT_WINDOW; lia). apply lookup_insert_eq.
    + exists ts, r. rewrite (proj2 (Z.leb_le _ _)), lookup_insert_ne by lia. split; [done|by left].
Qed.

(** Coins can be spent: after the next block end, [path_for_leaf] yields for
    every coin in the tree a membership path of 32 entries that leads from its
    commitment to a root which the ledger accepts, so an input with that root
    and an unspent nullifier is applied. *)
Theorem zswap_coin_spendable {T} (now tblock : Z) st (i : Z) (com : Commitment)
    (contract : option ContractAddress) (leaf : T) :
  zswap_reachable (now, st) -> now <= tblock -> 0 <= i < first_free st ->
  mt_index (coin_coms st) i = Some (com, contract) ->
  exists st' p, zswap_post_block_update (E := ZswapInvalid) st tblock = Ok st' /\
    path_for_leaf (coin_coms st') i leaf = Ok p /\ length (mp_path p) = 32%nat /\
    forall inp : Input,
      inp_merkle_tree_root inp = foldl path_step (degrade_to_transient com) (mp_path p) ->
      inp_nullifier inp ∉ nullifiers st ->
      apply_input st' inp None = Ok (with_nulls st' [inp_nullifier inp]).
Proof.
  intros Hreach Hle Hi Hidx. pose proof (zswap_reachable_now _ Hreach) as Hnow.
  apply zswap_reachable_ok in Hreach as [Hwf Hr]. simpl in *.
  destruct (post_block_spec (E := ZswapInvalid) st now tblock Hwf Hr Hle)
    as (st' & E & Hwf' & _ & _ & Hnul & Hff & Hroot & Hidx' & Hp).
  destruct Hwf' as (Hw & Hok & Hh & Hff' & _ & _ & _ & Htf). unfold ZSWAP_TREE_HEIGHT in Hh.
  destruct (path_for_leaf_ok 32 (coin_coms st') i leaf com contract (root_spec (coin_coms st)))
    as (p & Ep & _ & Hlen & Hpath); try done; [lia|by rewrite Hidx'|].
  exists st', p. split_and!; try done. intros inp Hir Hin. rewrite apply_input_unfold, Hir, Hpath.
  rewrite bool_decide_eq_false_2 by (by rewrite Hnul).
  by rewrite (post_block_root (E := ZswapInvalid) st now tblock).
Qed.
End zswap_lemmas.

(** ** Witnesses: one coin is created, a block ends, the coin is spent *)
Section witnesses.
#[local] Existing Instance toy_hashing.
Local Abbreviation TOffer := (ZswapOffer unit unit unit unit).

Definition toy_com : Commitment := to_le_bytes 32 77.
Definition toy_null : Nullifier := to_le_bytes 32 99.
Definition toy_create : TOffer := {|
  offer_inputs := [];
  offer_outputs := [{| out_coin_com := toy_com; out_value_commitment := tt; out_contract_address := None;
                       out_ciphertext := None; out_proof := tt |}];
  offer_transient := []; offer_deltas := [] |}.
Definition toy_state1 : ZswapState :=
  match try_apply ZswapState_default toy_create None with Ok (st, _) => st | _ => ZswapState_default end.
Definition toy_state2 : ZswapState :=
  match zswap_post_block_update (E := ZswapInvalid) toy_state1 5000 with Ok st => st | _ => ZswapState_default end.
Definition toy_spend : TOffer := {|
  offer_inputs := [{| inp_nullifier := toy_null; inp_value_commitment := tt; inp_contract_address := None;
                      inp_merkle_tree_root := root_spec (coin_coms toy_state1); inp_proof := tt |}];
  offer_outputs := []; offer_transient := []; offer_deltas := [] |}.
Definition toy_state3 : ZswapState :=
  match try_apply toy_state2 toy_spend None with Ok (st, _) => st | _ => ZswapState_default end.
Local Abbreviation reachable := (zswap_reachable (Pedersen := unit) (Proof := unit) (Ciphertext := unit) (TokenType := unit)).

Lemma toy_reach1 : reachable (0, toy_state1).
Proof. apply rtc_once. apply (step_apply _ _ toy_create _ {[ toy_com := 0 ]}). by vm_compute. Qed.
Lemma toy_reach2 : reachable (5000, toy_state2).
Proof. eapply rtc_r; [apply toy_reach1|]. apply step_block; [lia|by vm_compute]. Qed.
Lemma toy_spent : try_apply toy_state2 toy_spend None = Ok (toy_state3, ∅).
Proof. by vm_compute. Qed.

Lemma zswap_reachable_invariant_witness : zswap_wf toy_state2 /\ roots_recent 5000 toy_state2.
Proof. apply (zswap_reachable_invariant 5000 toy_state2 toy_reach2). Defined.
Lemma zswap_try_apply_iff_witness : offer_applicable toy_state2 toy_spend.
Proof.
  apply (zswap_try_apply_iff 5000 toy_state2 toy_spend toy_reach2).
  exists (toy_state3, ∅). apply toy_spent.
Defined.
Lemma zswap_try_apply_effect_witness : nullifiers toy_state3 = {[ toy_null ]}.
Proof.
  destruct (zswap_try_apply_effect 5000 toy_state2 toy_spend toy_state3 ∅ toy_reach2 toy_spent) as [Hn _].
  rewrite Hn. by vm_compute.
Defined.
Lemma zswap_no_double_spend_witness : exists e, try_apply toy_state3 toy_spend None = Err e.
Proof.
  apply (zswap_no_double_spend 5000 5000 toy_state2 toy_state3 ∅ toy_state3 toy_spend toy_spend toy_null toy_reach2 toy_spent);
    [apply rtc_refl|by left|by left].
Defined.
Lemma zswap_root_window_witness :
  exists st', zswap_post_block_update (E := ZswapInvalid) toy_state2 6000 = Ok st' /\
    tf_contains (past_roots st') (root_spec (coin_coms toy_state1)) = true.
Proof.
  destruct (zswap_root_window 5000 6000 toy_state2 (root_spec (coin_coms toy_state1)) toy_reach2)
    as (st' & E & Hc); [lia|].
  exists st'. split; [done|]. apply Hc. right. exists 5000. split; [by vm_compute|by vm_compute].
Defined.
Lemma zswap_coin_spendable_witness :
  exists st' p, zswap_post_block_update (E := ZswapInvalid) toy_state1 5000 = Ok st' /\
    path_for_leaf (coin_coms st') 0 tt = Ok p.
Proof.
  destruct (zswap_coin_spendable 0 5000 toy_state1 0 toy_com None tt toy_reach1) as (st' & p & E & Ep & _);
    [lia|by vm_compute|by vm_compute|].
  by exists st', p.
Defined.
End witnesses.
