(* ===== verification/ZswapFilter.v ===== *)
(** * Filtered views of the commitment tree ([State::filter] in [zswap/src/ledger.rs])

    A contract's view of the tree keeps the leaves of the chosen contracts and
    collapses everything else, leaving the root as it is. *)
From stdpp Require Import sorting.
From S2P Require Import Prelude Time Fab MerkleTree TimeFilterMap Zswap ZswapProps.

Section filter.
Context `{Hashing}.
Local Abbreviation Tree := (MerkleTreeNode (option ContractAddress)).

(** ** [iter_aux] lists the leaves in the order of their indices *)
Lemma leaf_only_upgrade {A} (l : list (LeafOrCollapsed A)) m :
  fst <$> omap leaf_only (map (fun x => upgrade x m) l) = (fun i => i + m) <$> (fst <$> omap leaf_only l).
Proof. induction l as [|[i h a|s e] l IH]; simpl; [done|by f_equal|done]. Qed.

Lemma iter_aux_elem (t : Tree) i :
  mt_wf t -> mt_height t <= 63 ->
  i ∈ fst <$> iter_aux t <-> 0 <= i < 2 ^ mt_height t /\ is_Some (mt_index t i).
Proof.
  intros Hwf Hh. unfold iter_aux, leaves. rewrite list_elem_of_fmap. split.
  - intros ([j [hash aux]] & -> & ([j' h' a'|] & Hin & [= -> -> ->])%list_elem_of_omap).
    apply leaves_in_range_spec in Hin as (_ & Hj & Hx); [|done..]. split; [done|by eexists].
  - intros (Hi & [hash aux] & Hx). exists (i, (hash, aux)). split; [done|].
    apply list_elem_of_omap. exists (LLeaf i hash aux). split; [|done]. by apply leaves_in_range_spec.
Qed.

Lemma iter_aux_sorted (t : Tree) :
  mt_wf t -> mt_height t <= 63 -> StronglySorted Z.lt (fst <$> iter_aux t).
Proof.
  induction t as [hash aux|hash h|h|x l IHl r IHr h]; intros Hwf Hh.
  1-3: unfold iter_aux, leaves; simpl; repeat case_match; repeat constructor.
  pose proof Hwf as (Hge & Hl & Hr & _ & Hwl & Hwr)%mt_wf_node. simpl in Hh.
  assert (Hnode : fst <$> iter_aux (Node x l r h) =
    (fst <$> iter_aux l) ++ ((fun i => i + 2 ^ (h - 1)) <$> (fst <$> iter_aux r))).
  { unfold iter_aux, leaves. cbn [leaves_in_range]. rewrite Hl, shl_u64_small by lia.
    rewrite omap_app, fmap_app, <- leaf_only_upgrade. do 2 f_equal. }
  rewrite Hnode. apply StronglySorted_app_2.
  - intros i j Hi Hj. apply iter_aux_elem in Hi as [Hi _]; [|done|lia].
    apply list_elem_of_fmap in Hj as (k & -> & Hk).
    apply iter_aux_elem in Hk as [Hk _]; [|done|lia]. rewrite Hl in Hi. lia.
  - apply IHl; [done|lia].
  - apply StronglySorted_fmap with (R1 := Z.lt); [lia|]. apply IHr; [done|lia].
Qed.

(** ** The loop over the retained leaves *)

(** [t'] is [t] with all leaves below [p] but the [kept] ones collapsed. *)
Definition filtered_below (t t' : Tree) (kept : list Z) (p : Z) : Prop :=
  mt_wf t' /\ mt_height t' = mt_height t /\ (hash_ok t -> hash_ok t') /\
  root_spec t' = root_spec t /\ (forall x, mt_root t = Some x -> mt_root t' = Some x) /\
  forall j, 0 <= j < 2 ^ mt_height t ->
    mt_index t' j = if decide (j < p /\ j ∉ kept) then None else mt_index t j.

Lemma filtered_collapse {E} (t t' : Tree) kept p q :
  filtered_below t t' kept p -> mt_height t <= 63 -> 0 <= p <= q -> 0 < q <= 2 ^ mt_height t ->
  p < 2 ^ mt_height t -> (forall j, j ∈ kept -> j < p \/ q <= j) ->
  exists t2, collapse (E := E) t' p (q - 1) = Ok t2 /\ filtered_below t t2 kept q.
Proof.
  intros (Hwf & Hh & Hok & Hr & Hroot & Hidx) Hle Hp Hq Hlt Hk.
  destruct (collapse_rec_spec (E := E) (mt_size t') t' p (q - 1))
    as (t2 & E2 & Hwf2 & Hh2 & Hr2 & Hroot2 & _ & Hok2 & Hidx2 & _); try done; try (rewrite ?Hh; lia).
  exists t2. split; [done|]. split_and!; try congruence; auto. intros j Hj.
  rewrite Hidx2, Hidx by (rewrite ?Hh; lia).
  destruct (decide (p <= j <= q - 1)) as [Hin|Hout].
  - rewrite decide_True; [done|]. split; [lia|]. intros [?|?]%Hk; lia.
  - destruct (decide (j < p /\ j ∉ kept)) as [[? ?]|Hn].
    + rewrite decide_True; [done|]. split; [lia|done].
    + rewrite decide_False; [done|]. intros [? ?]. apply Hn. split; [lia|done].
Qed.

Lemma filtered_keep (t t' : Tree) kept i :
  filtered_below t t' kept i -> i ∈ kept -> filtered_below t t' kept (i + 1).
Proof.
  intros (Hwf & Hh & Hok & Hr & Hroot & Hidx) Hi. split_and!; try done. intros j Hj. rewrite Hidx by done.
  destruct (decide (j = i)) as [->|Hne].
  - rewrite !decide_False; [done|tauto..].
  - destruct (decide (j < i /\ j ∉ kept)) as [[? ?]|Hn].
    + rewrite decide_True; [done|]. split; [lia|done].
    + rewrite decide_False; [done|]. intros [? ?]. apply Hn. split; [lia|done].
Qed.

Lemma filter_loop {E} (t : Tree) kept l : forall t' p,
  mt_height t <= 63 -> filtered_below t t' kept p -> 0 <= p -> StronglySorted Z.lt l ->
  (forall j, j ∈ l -> p <= j < 2 ^ mt_height t) -> (forall j, j ∈ l -> j ∈ kept) ->
  (forall j, j ∈ kept -> j < p \/ j ∈ l) ->
  exists t2 p2, try_fold (filter_step (E := E)) (t', p) l = Ok (t2, p2) /\
    filtered_below t t2 kept p2 /\ 0 <= p2 /\ (p2 = p \/ p2 - 1 ∈ l) /\ forall j, j ∈ kept -> j < p2.
Proof.
  induction l as [|i l IH]; intros t' p Hh Ht' Hp Hs Hl Hlk Hk.
  { exists t', p. split_and!; try done; [by left|]. intros j [?|?%elem_of_nil]%Hk; done. }
  apply StronglySorted_inv in Hs as [Hs Hi]. rewrite Forall_forall in Hi. setoid_rewrite <- list_elem_of_In in Hi.
  pose proof (Hl i ltac:(by left)) as Hir.
  assert (H63 : 2 ^ mt_height t <= 2 ^ 63).
  { destruct (Z.le_gt_cases 0 (mt_height t)); [apply Z.pow_le_mono_r; lia|rewrite Z.pow_neg_r; lia]. }
  assert (Hstep : exists t1, (if 0 <? i then collapse (E := E) t' p (i - 1) else Ok t') = Ok t1 /\
                    filtered_below t t1 kept i).
  { destruct (Z.ltb_spec 0 i).
    - apply filtered_collapse; try done; try lia.
      intros j [?|[->|Hj]%elem_of_cons]%Hk; [by left|right; lia|right]. apply Hi, Z.lt_le_incl in Hj. done.
    - exists t'. split; [done|]. by replace i with p by lia. }
  destruct Hstep as (t1 & E1 & Ht1). cbn [try_fold filter_step]. rewrite E1. cbn [mbind outcome_bind].
  rewrite (proj2 (Z.ltb_lt i u64_max)) by ints.
  destruct (IH t1 (i + 1)) as (t2 & p2 & E2 & Ht2 & Hp2 & Hin & Hlast); try done; try lia.
  - apply filtered_keep; [done|]. apply Hlk. by left.
  - intros j Hj. pose proof (Hi j Hj). pose proof (Hl j ltac:(by right)). lia.
  - intros j Hj. apply Hlk. by right.
  - intros j [?|[->|?]%elem_of_cons]%Hk; [left; lia|left; lia|by right].
  - exists t2, p2. split_and!; try done. right. destruct Hin as [->|Hin]; [|by right].
    replace (i + 1 - 1) with i by lia. by left.
Qed.

(** ** The property *)
Definition kept_leaf (keep : list ContractAddress) (x : HashOutput * option ContractAddress)
    : option (HashOutput * option ContractAddress) :=
  match x.2 with
  | Some aux => if bool_decide (aux ∈ keep) then Some x else None
  | None => None
  end.

Lemma retained_indices_elem (t : Tree) keep j :
  mt_wf t -> mt_height t <= 63 ->
  j ∈ fst <$> List.filter (retained keep) (iter_aux t) <->
  0 <= j < 2 ^ mt_height t /\ is_Some (mt_index t j ≫= kept_leaf keep).
Proof.
  intros Hwf Hh. rewrite list_elem_of_fmap. split.
  - intros ([i [hash aux]] & -> & [Hin Hr]%list_elem_of_In%filter_In).
    apply list_elem_of_In in Hin. unfold iter_aux, leaves in Hin.
    apply list_elem_of_omap in Hin as ([i' h' a'|] & Hin & [= -> -> ->]).
    apply leaves_in_range_spec in Hin as (_ & Hj & Hx); [|done..]. split; [done|]. simpl. rewrite Hx.
    unfold retained in Hr. simpl in Hr. unfold kept_leaf. simpl. destruct aux as [a|]; [|done]. rewrite Hr. by eexists.
  - intros (Hj & y & Hy). destruct (mt_index t j) as [[hash aux]|] eqn:Hx; [|done]. simpl in Hy.
    exists (j, (hash, aux)). split; [done|]. apply list_elem_of_In, filter_In. split.
    + apply list_elem_of_In. unfold iter_aux, leaves. apply list_elem_of_omap.
      exists (LLeaf j hash aux). split; [|done]. by apply leaves_in_range_spec.
    + unfold retained, kept_leaf in *. simpl in *. destruct aux as [a|]; [|done]. by destruct (bool_decide _).
Qed.
Lemma retained_sorted (t : Tree) keep :
  mt_wf t -> mt_height t <= 63 ->
  StronglySorted Z.lt (fst <$> List.filter (retained keep) (iter_aux t)).
Proof.
  intros Hwf Hh. pose proof (iter_aux_sorted t Hwf Hh) as Hs.
  induction (iter_aux t) as [|e l IH]; simpl in *; [constructor|].
  apply StronglySorted_inv in Hs as [Hs He]. destruct (retained keep e); simpl; [|by apply IH].
  constructor; [by apply IH|]. rewrite Forall_forall in *. intros j Hj.
  apply He. rewrite <- list_elem_of_In in *. apply list_elem_of_fmap in Hj as (x & -> & Hx). apply list_elem_of_fmap_2.
  rewrite list_elem_of_In in *. by apply filter_In in Hx as [? _].
Qed.

Lemma zswap_filter_spec {E} (st : ZswapState) keep :
  zswap_wf st -> first_free st < 2 ^ 32 ->
  exists t', zswap_filter (E := E) st keep = Ok t' /\
    filtered_below (coin_coms st) t' (fst <$> List.filter (retained keep) (iter_aux (coin_coms st)))
      (first_free st).
Proof.
  intros (Hwf & _ & Hh & Hff & Hfree & _) Hroom. unfold ZSWAP_TREE_HEIGHT in Hh. unfold zswap_filter.
  set (kept := fst <$> List.filter (retained keep) (iter_aux (coin_coms st))).
  assert (Hkept : forall j, j ∈ kept -> 0 <= j < first_free st).
  { intros j [Hj Hx]%retained_indices_elem; [|done|lia]. rewrite Hh in Hj.
    destruct (Z.lt_ge_cases j (first_free st)) as [|Hge]; [lia|].
    destruct (proj1 (Hfree j ltac:(lia)) ltac:(lia)) as [Hnone _]. rewrite Hnone in Hx. by destruct Hx. }
  destruct (filter_loop (E := E) (coin_coms st) kept kept (coin_coms st) 0)
    as (t2 & p2 & -> & Ht2 & Hp2 & Hin & Hlast); try done; try lia.
  - split_and!; try done. intros j Hj. rewrite decide_False; [done|]. lia.
  - apply retained_sorted; [done|lia].
  - intros j Hj%Hkept. rewrite Hh. lia.
  - by right.
  - cbn [mbind outcome_bind].
    assert (Hpf : p2 <= first_free st) by (destruct Hin as [->|Hin%Hkept]; lia).
    destruct (Z.ltb_spec 0 (first_free st)).
    + apply filtered_collapse; try done; rewrite ?Hh; try lia. intros j Hj. left. by apply Hlast.
    + exists t2. split; [done|]. by replace (first_free st) with p2 by lia.
Qed.

(** Filtering a reachable state's tree (with room left) for a set of
    contracts never fails: the result has the same root, keeps exactly the
    leaves owned by these contracts, and collapses all others. *)
Theorem zswap_filter_keeps {Pedersen Proof Ciphertext TokenType : Type} (now : Z) (st : ZswapState) keep :
  zswap_reachable (Pedersen := Pedersen) (Proof := Proof) (Ciphertext := Ciphertext) (TokenType := TokenType)
    (now, st) ->
  first_free st < 2 ^ 32 ->
  exists t', zswap_filter (E := ZswapInvalid) st keep = Ok t' /\ mt_wf t' /\ hash_ok t' /\
    rehashed_root (E := ZswapInvalid) t' = rehashed_root (coin_coms st) /\
    (forall x, mt_root (coin_coms st) = Some x -> mt_root t' = Some x) /\
    (forall j, 0 <= j < 2 ^ 32 -> mt_index t' j = mt_index (coin_coms st) j ≫= kept_leaf keep).
Proof.
  intros [Hst _]%zswap_reachable_ok Hroom. simpl in Hst.
  destruct (zswap_filter_spec (E := ZswapInvalid) st keep Hst Hroom) as (t' & Ef & Hwf' & _ & Hok' & Hr & Hroot & Hidx).
  destruct Hst as (Hwf & Hok & Hh & Hff & Hfree & _). unfold ZSWAP_TREE_HEIGHT in Hh.
  exists t'. rewrite !rehashed_root_spec, Hr. split_and!; auto. intros j Hj. rewrite Hidx by (rewrite Hh; lia).
  pose proof (retained_indices_elem (coin_coms st) keep j Hwf ltac:(lia)) as Hret. rewrite Hh in Hret.
  destruct (Z.lt_ge_cases j (first_free st)) as [Hlt|Hge].
  - destruct (mt_index (coin_coms st) j ≫= kept_leaf keep) as [y|] eqn:Hy.
    + rewrite decide_False.
      2: { intros [_ Hn]. apply Hn, Hret. split; [exact Hj|]. by exists y. }
      unfold kept_leaf in Hy. destruct (mt_index (coin_coms st) j) as [[h [a|]]|]; simpl in *; try done.
      destruct (bool_decide _); congruence.
    + apply decide_True. split; [done|]. rewrite Hret. by intros (_ & ? & ?).
  - destruct (proj1 (Hfree j ltac:(lia)) ltac:(lia)) as [-> _]. by destruct (decide _).
Qed.
End filter.

(** A state with two contract-owned coins, of which one is kept. *)
Section witness.
#[local] Existing Instance toy_hashing.
Definition toy_output (com : Z) (owner : Z) : ZswapOutput unit unit unit :=
  {| out_coin_com := to_le_bytes 32 com; out_value_commitment := tt;
     out_contract_address := Some (to_le_bytes 32 owner); out_ciphertext := None; out_proof := tt |}.
Definition toy_two_coins : ZswapOffer unit unit unit unit :=
  {| offer_inputs := []; offer_outputs := [toy_output 5 1; toy_output 6 2]; offer_transient := [];
     offer_deltas := [] |}.
Definition toy_two_state : ZswapState :=
  match try_apply ZswapState_default toy_two_coins None with Ok (st, _) => st | _ => ZswapState_default end.
Lemma toy_two_reach :
  zswap_reachable (Pedersen := unit) (Proof := unit) (Ciphertext := unit) (TokenType := unit) (0, toy_two_state).
Proof.
  apply rtc_once. apply (step_apply _ _ toy_two_coins _ {[ to_le_bytes 32 5 := 0; to_le_bytes 32 6 := 1 ]}).
  by vm_compute.
Qed.
Lemma toy_two_leaves :
  mt_index (coin_coms toy_two_state) 0 ≫= kept_leaf [to_le_bytes 32 2] = None /\
  mt_index (coin_coms toy_two_state) 1 ≫= kept_leaf [to_le_bytes 32 2] =
    Some (to_le_bytes 32 6, Some (to_le_bytes 32 2)).
Proof. by vm_compute. Qed.
Lemma zswap_filter_keeps_witness :
  exists t', zswap_filter (E := ZswapInvalid) toy_two_state [to_le_bytes 32 2] = Ok t' /\
    mt_index t' 0 = None /\ mt_index t' 1 = Some (to_le_bytes 32 6, Some (to_le_bytes 32 2)).
Proof.
  destruct (zswap_filter_keeps 0 toy_two_state [to_le_bytes 32 2] toy_two_reach)
    as (t' & Ef & _ & _ & _ & _ & Hidx).
  - vm_compute. reflexivity.
  - exists t'. split; [exact Ef|]. rewrite !Hidx by lia. exact toy_two_leaves.
Defined.
End witness.
