(* ===== verification/StateValue.v ===== *)
(** * Contract state values: [onchain-state/src/state.rs]

    The values contracts keep and the VM computes with.  Arrays are vectors,
    maps are finite maps keyed by aligned values, Merkle trees carry no
    auxiliary data.  The layout of values in the storage arena is not modelled:
    the sizes the VM charges for come from the interface [StateStorage]. *)
From S2P Require Import Prelude Fab FabSerial MerkleTree.
Set Warnings "-register-all".

(** The size limit for cells, 32 kiB. *)
Definition CELL_BOUND : Z := Z.shiftl 1 15.

Inductive StateValue : Type :=
  | Null
  | Cell (v : AlignedValue)
  | Map (m : gmap AlignedValue StateValue)
  | Array (a : list StateValue)
  | BoundedMerkleTree (t : MerkleTreeNode unit).

(** What the VM uses of the storage arena: the serialized size of a value, and
    the data sizes of the nodes of a value, unless they exceed a bound. *)
Class StateStorage := {
  StateValue_serialized_size : StateValue -> Z;
  serialize_to_node_list_bounded : StateValue -> Z -> option (list Z);
}.

(** [StateValue::invariant], checked at each value on deserialization. *)
Definition StateValue_invariant (self : StateValue) : outcome io_error unit :=
  match self with
  | Null | Map _ => Ok tt
  | Cell v =>
      if CELL_BOUND <? AlignedValue_serialized_size v
      then Err (InvalidData "Cell exceeded maximum bound") else Ok tt
  | Array arr =>
      if (16 <? length arr)%nat
      then Err (InvalidData "Array eceeded maximum length of 16") else Ok tt
  | BoundedMerkleTree bmt =>
      if 32 <? mt_height bmt then Err (InvalidData "BMT exceeded maximum height of 32")
      else if mt_height bmt =? 0 then Err (InvalidData "BMT has invalid height of 0")
      else match mt_root bmt with
           | None => Err (InvalidData "BMT must be rehashed")
           | Some _ => Ok tt
           end
  end.

(** [next_power_of_two] is the least power of two at least [n], and 1 for 0. *)
Definition next_power_of_two (n : Z) : Z := 2 ^ Z.log2_up n.
Definition log_size (self : StateValue) : Z :=
  match self with
  | Null => 0
  | Cell a => Z.log2 (next_power_of_two (AlignedValue_serialized_size a))
  | Map m => Z.log2 (next_power_of_two (Z.of_nat (size m)))
  | Array a => Z.log2 (next_power_of_two (Z.of_nat (length a)))
  | BoundedMerkleTree t => mt_height t
  end.

(** [From<AlignedValue>] and [From<u64>]. *)
Definition StateValue_from (val : AlignedValue) : StateValue := Cell val.
Definition StateValue_from_u64 (value : Z) : StateValue := Cell (av_of_u64 value).

(** Stored leaves are hashes. *)
Definition leaves_wf (t : MerkleTreeNode unit) : Prop :=
  forall i hash aux, 0 <= i < 2 ^ mt_height t -> mt_index t i = Some (hash, aux) -> hash_wf hash.

(** ** Well-formed values

    The invariant of the source at every value reachable, for trees also the
    structural invariant of trees, and aligned cells.  [slack] relaxes the bound
    on the size of cells. *)
Inductive sv_wf (slack : Z) : StateValue -> Prop :=
  | wf_null : sv_wf slack Null
  | wf_cell v :
      av_wf v -> AlignedValue_serialized_size v <= CELL_BOUND + slack ->
      sv_wf slack (Cell v)
  | wf_map m : map_Forall (fun _ v => sv_wf slack v) m -> sv_wf slack (Map m)
  | wf_array a : (length a <= 16)%nat -> (forall i v, a !! i = Some v -> sv_wf slack v) ->
      sv_wf slack (Array a)
  | wf_bmt t : mt_wf t -> 1 <= mt_height t <= 32 -> is_Some (mt_root t) -> leaves_wf t ->
      sv_wf slack (BoundedMerkleTree t).
#[export] Hint Constructors sv_wf : core.

Lemma sv_wf_invariant v : sv_wf 0 v -> StateValue_invariant v = Ok tt.
Proof.
  destruct 1 as [|v Hv Hsz|m Hm|a Hlen Ha|t Ht Hh [r Hr] _]; simpl; try done.
  - destruct (Z.ltb_spec CELL_BOUND (AlignedValue_serialized_size v)); [lia|done].
  - destruct (Nat.ltb_spec 16 (length a)); [lia|done].
  - destruct (Z.ltb_spec 32 (mt_height t)); [lia|].
    destruct (Z.eqb_spec (mt_height t) 0); [lia|]. by rewrite Hr.
Qed.
Lemma sv_wf_mono s s' v : s <= s' -> sv_wf s v -> sv_wf s' v.
Proof.
  intros Hs. revert v. fix IH 2. destruct 1 as [|v Hv Hsz|m Hm|a Hlen Ha|t Ht Hh Hr Hlv].
  - constructor.
  - constructor; [done|lia].
  - constructor. intros i v Hi. apply IH, (Hm i v Hi).
  - constructor; [done|]. intros i v Hi. apply IH, (Ha i v Hi).
  - by constructor.
Qed.
Lemma log_size_nonneg v s : sv_wf s v -> 0 <= log_size v.
Proof.
  destruct 1 as [|v Hv Hsz|m Hm|a Hlen Ha|t Ht Hh Hr Hlv]; simpl; try apply Z.log2_nonneg; lia.
Qed.
