(* ===== verification/VmOps.v ===== *)
(** * Instructions, values and prices of the on-chain VM

    Models [onchain-vm/src/ops.rs] (the instruction set), [vm_value.rs],
    [state_value_ext.rs], [error.rs], [result_mode.rs] and [cost_model.rs] with
    the prices of [gen/const_declaration.rs].  Instructions are parametrised by
    what a [popeq] carries, as the source does through [ResultMode]. *)
From S2P Require Import Prelude CostModel Fab FabSerial MerkleTree StateValue.
Set Warnings "-register-all".

(** ** Errors *)
Inductive OnchainProgramError :=
  | RanOffStack
  | RanPastProgramEnd
  | ExpectedCell (v : StateValue)
  | Decode (err : InvalidBuiltinDecode)
  | ArithmeticOverflow
  | TooLongForEqual
  | TypeError (msg : string)
  | OutOfGas
  | BoundsExceeded
  | LogBoundExceeded
  | InvalidArgs (msg : string)
  | MissingKey
  | CacheMiss
  | AttemptedArrayDelete
  | ReadMismatch (expected actual : AlignedValue)
  | CellBoundExceeded
  | StackOverflow
  | MerkleTreeError (err : InvalidUpdate).

Abbreviation vm_result A := (outcome OnchainProgramError A).

(** [?] on a decoding error. *)
Definition decode {A} (m : outcome InvalidBuiltinDecode A) : vm_result A := map_err Decode m.

(** ** Values on the stack *)
Inductive ValueStrength := Weak | Strong.
#[global] Instance ValueStrength_eq_dec : EqDecision ValueStrength.
Proof. solve_decision. Defined.

(** [BitAnd for ValueStrength]. *)
Definition strength_and (a b : ValueStrength) : ValueStrength :=
  match a, b with
  | Strong, Strong => Strong
  | _, _ => Weak
  end.

Record VmValue := mkVmValue {
  vm_strength : ValueStrength;
  vm_value : StateValue;
}.

Definition as_cell (self : StateValue) : vm_result AlignedValue :=
  match self with
  | Cell value => Ok value
  | _ => Err (ExpectedCell self)
  end.

(** ** Instructions *)
Inductive Key :=
  | Key_Value (v : AlignedValue)
  | Key_Stack.
Definition is_stack_key (key : Key) : bool :=
  match key with Key_Stack => true | Key_Value _ => false end.

Inductive Op (ReadResult : Type) :=
  | Op_Noop (n : Z)
  | Op_Lt
  | Op_Eq
  | Op_Type
  | Op_Size
  | Op_New
  | Op_And
  | Op_Or
  | Op_Neg
  | Op_Log
  | Op_Root
  | Op_Pop
  | Op_Popeq (cached : bool) (result : ReadResult)
  | Op_Addi (immediate : Z)
  | Op_Subi (immediate : Z)
  | Op_Push (storage : bool) (value : StateValue)
  | Op_Branch (skip : Z)
  | Op_Jmp (skip : Z)
  | Op_Add
  | Op_Sub
  | Op_Concat (cached : bool) (n : Z)
  | Op_Member
  | Op_Rem (cached : bool)
  | Op_Dup (n : nat)
  | Op_Swap (n : nat)
  | Op_Idx (cached push_path : bool) (path : list Key)
  | Op_Ins (cached : bool) (n : nat)
  | Op_Ckpt.
Arguments Op_Noop {_} n.
Arguments Op_Lt {_}.
Arguments Op_Eq {_}.
Arguments Op_Type {_}.
Arguments Op_Size {_}.
Arguments Op_New {_}.
Arguments Op_And {_}.
Arguments Op_Or {_}.
Arguments Op_Neg {_}.
Arguments Op_Log {_}.
Arguments Op_Root {_}.
Arguments Op_Pop {_}.
Arguments Op_Popeq {_} cached result.
Arguments Op_Addi {_} immediate.
Arguments Op_Subi {_} immediate.
Arguments Op_Push {_} storage value.
Arguments Op_Branch {_} skip.
Arguments Op_Jmp {_} skip.
Arguments Op_Add {_}.
Arguments Op_Sub {_}.
Arguments Op_Concat {_} cached n.
Arguments Op_Member {_}.
Arguments Op_Rem {_} cached.
Arguments Op_Dup {_} n.
Arguments Op_Swap {_} n.
Arguments Op_Idx {_} cached push_path path.
Arguments Op_Ins {_} cached n.
Arguments Op_Ckpt {_}.

(** [Op::invariant], checked on deserialization. *)
Definition Op_invariant {R} (self : Op R) : outcome io_error unit :=
  match self with
  | Op_Dup n | Op_Swap n | Op_Ins _ n =>
      if (16 <=? n)%nat
      then Err (InvalidData "stack operation out of legal encoding bound") else Ok tt
  | Op_Idx _ _ path =>
      if (1 <=? length path)%nat && (length path <=? 16)%nat then Ok tt
      else Err (InvalidData "invalid `idx` sequence length")
  | _ => Ok tt
  end.

(** [Op::translate]. *)
Definition translate {R R2} (f : R -> R2) (self : Op R) : Op R2 :=
  match self with
  | Op_Noop n => Op_Noop n
  | Op_Lt => Op_Lt
  | Op_Eq => Op_Eq
  | Op_Type => Op_Type
  | Op_Size => Op_Size
  | Op_New => Op_New
  | Op_And => Op_And
  | Op_Or => Op_Or
  | Op_Neg => Op_Neg
  | Op_Log => Op_Log
  | Op_Root => Op_Root
  | Op_Pop => Op_Pop
  | Op_Popeq cached result => Op_Popeq cached (f result)
  | Op_Addi immediate => Op_Addi immediate
  | Op_Subi immediate => Op_Subi immediate
  | Op_Push storage value => Op_Push storage value
  | Op_Branch skip => Op_Branch skip
  | Op_Jmp skip => Op_Jmp skip
  | Op_Add => Op_Add
  | Op_Sub => Op_Sub
  | Op_Concat cached n => Op_Concat cached n
  | Op_Member => Op_Member
  | Op_Rem cached => Op_Rem cached
  | Op_Dup n => Op_Dup n
  | Op_Swap n => Op_Swap n
  | Op_Idx cached push_path path => Op_Idx cached push_path path
  | Op_Ins cached n => Op_Ins cached n
  | Op_Ckpt => Op_Ckpt
  end.

(** ** Result modes *)
Class ResultMode (ReadResult Event : Type) := {
  process_read : ReadResult -> AlignedValue -> vm_result (option Event);
  process_log : StateValue -> option Event;
}.

(** [ResultModeVerify]: reads must match what the instruction claims. *)
Definition verify_process_read (expected actual : AlignedValue) : vm_result (option StateValue) :=
  if bool_decide (expected <> actual) then Err (ReadMismatch expected actual) else Ok None.
#[global] Instance ResultModeVerify : ResultMode AlignedValue StateValue := {|
  process_read := verify_process_read;
  process_log event := Some event;
|}.

(** [ResultModeGather]: reads are recorded as events. *)
Inductive GatherEvent :=
  | Gather_Read (v : AlignedValue)
  | Gather_Log (v : StateValue).
Definition gather_process_read (_ : unit) (real : AlignedValue) : vm_result (option GatherEvent) :=
  Ok (Some (Gather_Read real)).
#[global] Instance ResultModeGather : ResultMode unit GatherEvent := {|
  process_read := gather_process_read;
  process_log event := Some (Gather_Log event);
|}.

(** ** Prices *)
Record VmCostModel := mkVmCostModel {
  cm_noop_constant : CostDuration;
  cm_noop_coeff_arg : CostDuration;
  cm_lt : CostDuration;
  cm_eq : CostDuration;
  cm_type_null : CostDuration;
  cm_type_cell : CostDuration;
  cm_type_map : CostDuration;
  cm_type_bmt : CostDuration;
  cm_type_array : CostDuration;
  cm_size_map : CostDuration;
  cm_size_bmt : CostDuration;
  cm_size_array : CostDuration;
  cm_new_null : CostDuration;
  cm_new_cell : CostDuration;
  cm_new_map : CostDuration;
  cm_new_bmt : CostDuration;
  cm_new_array : CostDuration;
  cm_and : CostDuration;
  cm_or : CostDuration;
  cm_neg : CostDuration;
  cm_log_null_constant : CostDuration;
  cm_log_null_coeff_value_size : CostDuration;
  cm_log_cell_constant : CostDuration;
  cm_log_cell_coeff_value_size : CostDuration;
  cm_log_map_constant : CostDuration;
  cm_log_map_coeff_value_size : CostDuration;
  cm_log_bmt_constant : CostDuration;
  cm_log_bmt_coeff_value_size : CostDuration;
  cm_log_array_constant : CostDuration;
  cm_log_array_coeff_value_size : CostDuration;
  cm_root : CostDuration;
  cm_pop : CostDuration;
  cm_popeq_constant : CostDuration;
  cm_popeq_coeff_value_size : CostDuration;
  cm_popeqc_constant : CostDuration;
  cm_popeqc_coeff_value_size : CostDuration;
  cm_addi : CostDuration;
  cm_subi : CostDuration;
  cm_push_null : CostDuration;
  cm_push_cell : CostDuration;
  cm_push_map : CostDuration;
  cm_push_bmt : CostDuration;
  cm_push_array : CostDuration;
  cm_pushs_null : CostDuration;
  cm_pushs_cell : CostDuration;
  cm_pushs_map : CostDuration;
  cm_pushs_bmt : CostDuration;
  cm_pushs_array : CostDuration;
  cm_branch_constant : CostDuration;
  cm_branch_coeff_arg : CostDuration;
  cm_jmp_constant : CostDuration;
  cm_jmp_coeff_arg : CostDuration;
  cm_add : CostDuration;
  cm_sub : CostDuration;
  cm_concat_constant : CostDuration;
  cm_concat_coeff_total_size : CostDuration;
  cm_concatc_constant : CostDuration;
  cm_concatc_coeff_total_size : CostDuration;
  cm_member_constant : CostDuration;
  cm_member_coeff_key_size : CostDuration;
  cm_member_coeff_container_log_size : CostDuration;
  cm_rem_map_constant : CostDuration;
  cm_rem_map_coeff_key_size : CostDuration;
  cm_rem_map_coeff_container_log_size : CostDuration;
  cm_rem_bmt_constant : CostDuration;
  cm_rem_bmt_coeff_key_size : CostDuration;
  cm_rem_bmt_coeff_container_log_size : CostDuration;
  cm_remc_map_constant : CostDuration;
  cm_remc_map_coeff_key_size : CostDuration;
  cm_remc_map_coeff_container_log_size : CostDuration;
  cm_remc_bmt_constant : CostDuration;
  cm_remc_bmt_coeff_key_size : CostDuration;
  cm_remc_bmt_coeff_container_log_size : CostDuration;
  cm_dup_constant : CostDuration;
  cm_dup_coeff_arg : CostDuration;
  cm_swap_constant : CostDuration;
  cm_swap_coeff_arg : CostDuration;
  cm_idx_map_constant : CostDuration;
  cm_idx_map_coeff_key_size : CostDuration;
  cm_idx_map_coeff_container_log_size : CostDuration;
  cm_idx_bmt_constant : CostDuration;
  cm_idx_bmt_coeff_key_size : CostDuration;
  cm_idx_bmt_coeff_container_log_size : CostDuration;
  cm_idx_array : CostDuration;
  cm_idxp_map_constant : CostDuration;
  cm_idxp_map_coeff_key_size : CostDuration;
  cm_idxp_map_coeff_container_log_size : CostDuration;
  cm_idxp_bmt_constant : CostDuration;
  cm_idxp_bmt_coeff_key_size : CostDuration;
  cm_idxp_bmt_coeff_container_log_size : CostDuration;
  cm_idxp_array : CostDuration;
  cm_idxc_map_constant : CostDuration;
  cm_idxc_map_coeff_key_size : CostDuration;
  cm_idxc_map_coeff_container_log_size : CostDuration;
  cm_idxc_bmt_constant : CostDuration;
  cm_idxc_bmt_coeff_key_size : CostDuration;
  cm_idxc_bmt_coeff_container_log_size : CostDuration;
  cm_idxc_array : CostDuration;
  cm_idxpc_map_constant : CostDuration;
  cm_idxpc_map_coeff_key_size : CostDuration;
  cm_idxpc_map_coeff_container_log_size : CostDuration;
  cm_idxpc_bmt_constant : CostDuration;
  cm_idxpc_bmt_coeff_key_size : CostDuration;
  cm_idxpc_bmt_coeff_container_log_size : CostDuration;
  cm_idxpc_array : CostDuration;
  cm_ins_map_constant : CostDuration;
  cm_ins_map_coeff_key_size : CostDuration;
  cm_ins_map_coeff_container_log_size : CostDuration;
  cm_ins_bmt_constant : CostDuration;
  cm_ins_bmt_coeff_key_size : CostDuration;
  cm_ins_bmt_coeff_container_log_size : CostDuration;
  cm_ins_array : CostDuration;
  cm_insc_map_constant : CostDuration;
  cm_insc_map_coeff_key_size : CostDuration;
  cm_insc_map_coeff_container_log_size : CostDuration;
  cm_insc_bmt_constant : CostDuration;
  cm_insc_bmt_coeff_key_size : CostDuration;
  cm_insc_bmt_coeff_container_log_size : CostDuration;
  cm_insc_array : CostDuration;
  cm_ckpt : CostDuration;
  cm_signature_verify_constant : CostDuration;
  cm_signature_verify_coeff_size : CostDuration;
  cm_pedersen_valid : CostDuration;
  cm_verifier_key_load : CostDuration;
  cm_proof_verify_constant : CostDuration;
  cm_proof_verify_coeff_size : CostDuration;
  cm_hash_to_curve : CostDuration;
  cm_ec_add : CostDuration;
  cm_ec_mul : CostDuration;
  cm_transient_hash : CostDuration;
  cm_get_writes_constant : CostDuration;
  cm_get_writes_coeff_keys_added_size : CostDuration;
  cm_update_rcmap_constant : CostDuration;
  cm_update_rcmap_coeff_keys_added_size : CostDuration;
  cm_gc_rcmap_constant : CostDuration;
  cm_gc_rcmap_coeff_keys_removed_size : CostDuration;
  cm_read_time_batched_4k : CostDuration;
  cm_read_time_synchronous_4k : CostDuration;
}.

Definition INITIAL_COST_MODEL : VmCostModel := {|
  cm_noop_constant := 58049;
  cm_noop_coeff_arg := 0;
  cm_lt := 1004706;
  cm_eq := 1006414;
  cm_type_null := 647378;
  cm_type_cell := 757159;
  cm_type_map := 627432;
  cm_type_bmt := 749668;
  cm_type_array := 583371;
  cm_size_map := 1600393;
  cm_size_bmt := 725665;
  cm_size_array := 1350226;
  cm_new_null := 374871;
  cm_new_cell := 814951;
  cm_new_map := 978652;
  cm_new_bmt := 845753;
  cm_new_array := 842371;
  cm_and := 784624;
  cm_or := 781084;
  cm_neg := 836890;
  cm_log_null_constant := 155124;
  cm_log_null_coeff_value_size := 0;
  cm_log_cell_constant := 314563;
  cm_log_cell_coeff_value_size := 0;
  cm_log_map_constant := 1819826;
  cm_log_map_coeff_value_size := 0;
  cm_log_bmt_constant := 303821;
  cm_log_bmt_coeff_value_size := 1;
  cm_log_array_constant := 610437;
  cm_log_array_coeff_value_size := 18027;
  cm_root := 777264;
  cm_pop := 574527;
  cm_popeq_constant := 385050;
  cm_popeq_coeff_value_size := 15;
  cm_popeqc_constant := 383608;
  cm_popeqc_coeff_value_size := 14;
  cm_addi := 816807;
  cm_subi := 817066;
  cm_push_null := 624886;
  cm_push_cell := 235744;
  cm_push_map := 5763641;
  cm_push_bmt := 238126;
  cm_push_array := 737159;
  cm_pushs_null := 146496;
  cm_pushs_cell := 235886;
  cm_pushs_map := 1005698;
  cm_pushs_bmt := 245902;
  cm_pushs_array := 742982;
  cm_branch_constant := 314875;
  cm_branch_coeff_arg := 8;
  cm_jmp_constant := 54347;
  cm_jmp_coeff_arg := 3;
  cm_add := 1061118;
  cm_sub := 1057552;
  cm_concat_constant := 1283125;
  cm_concat_coeff_total_size := 446;
  cm_concatc_constant := 1293753;
  cm_concatc_coeff_total_size := 447;
  cm_member_constant := 2186970;
  cm_member_coeff_key_size := 1196;
  cm_member_coeff_container_log_size := 1451;
  cm_rem_map_constant := 2636844;
  cm_rem_map_coeff_key_size := 2244;
  cm_rem_map_coeff_container_log_size := 927384;
  cm_rem_bmt_constant := 1232736;
  cm_rem_bmt_coeff_key_size := 0;
  cm_rem_bmt_coeff_container_log_size := 51494566;
  cm_remc_map_constant := 2530191;
  cm_remc_map_coeff_key_size := 2176;
  cm_remc_map_coeff_container_log_size := 927358;
  cm_remc_bmt_constant := 1771176;
  cm_remc_bmt_coeff_key_size := 0;
  cm_remc_bmt_coeff_container_log_size := 51448725;
  cm_dup_constant := 1544062;
  cm_dup_coeff_arg := 455427;
  cm_swap_constant := 1076337;
  cm_swap_coeff_arg := 452216;
  cm_idx_map_constant := 3950157;
  cm_idx_map_coeff_key_size := 2710;
  cm_idx_map_coeff_container_log_size := 771;
  cm_idx_bmt_constant := 3370862;
  cm_idx_bmt_coeff_key_size := 0;
  cm_idx_bmt_coeff_container_log_size := 4721;
  cm_idx_array := 3499242;
  cm_idxp_map_constant := 4790418;
  cm_idxp_map_coeff_key_size := 2942;
  cm_idxp_map_coeff_container_log_size := 0;
  cm_idxp_bmt_constant := 3582794;
  cm_idxp_bmt_coeff_key_size := 0;
  cm_idxp_bmt_coeff_container_log_size := 5227;
  cm_idxp_array := 4206480;
  cm_idxc_map_constant := 3788871;
  cm_idxc_map_coeff_key_size := 2676;
  cm_idxc_map_coeff_container_log_size := 1408;
  cm_idxc_bmt_constant := 3042703;
  cm_idxc_bmt_coeff_key_size := 0;
  cm_idxc_bmt_coeff_container_log_size := 6069;
  cm_idxc_array := 3403868;
  cm_idxpc_map_constant := 4634201;
  cm_idxpc_map_coeff_key_size := 2953;
  cm_idxpc_map_coeff_container_log_size := 1779;
  cm_idxpc_bmt_constant := 3275175;
  cm_idxpc_bmt_coeff_key_size := 0;
  cm_idxpc_bmt_coeff_container_log_size := 6234;
  cm_idxpc_array := 4172169;
  cm_ins_map_constant := 12018964;
  cm_ins_map_coeff_key_size := 1268;
  cm_ins_map_coeff_container_log_size := 1191323;
  cm_ins_bmt_constant := 2961202;
  cm_ins_bmt_coeff_key_size := 0;
  cm_ins_bmt_coeff_container_log_size := 51303653;
  cm_ins_array := 8290200;
  cm_insc_map_constant := 12219353;
  cm_insc_map_coeff_key_size := 2177;
  cm_insc_map_coeff_container_log_size := 1112945;
  cm_insc_bmt_constant := 2866434;
  cm_insc_bmt_coeff_key_size := 0;
  cm_insc_bmt_coeff_container_log_size := 51322518;
  cm_insc_array := 8277527;
  cm_ckpt := 69432;
  cm_signature_verify_constant := 59433142;
  cm_signature_verify_coeff_size := 391;
  cm_pedersen_valid := 178190334;
  cm_verifier_key_load := 3407439241;
  cm_proof_verify_constant := 5825105409;
  cm_proof_verify_coeff_size := 3309321;
  cm_hash_to_curve := 236027131;
  cm_ec_add := 232259;
  cm_ec_mul := 85079549;
  cm_transient_hash := 52808019;
  cm_get_writes_constant := 19261586;
  cm_get_writes_coeff_keys_added_size := 789174;
  cm_update_rcmap_constant := 1055224883;
  cm_update_rcmap_coeff_keys_added_size := 24633794;
  cm_gc_rcmap_constant := 0;
  cm_gc_rcmap_coeff_keys_removed_size := 40271665;
  cm_read_time_batched_4k := 2000000;
  cm_read_time_synchronous_4k := 85000000;
|}.

Definition FR_BYTES : Z := 32.

Definition read_cell (self : VmCostModel) (size : Z) (sync : bool) : RunningCost :=
  let blocks := Z.max 1 (div_ceil size 4096) in
  if sync then
    let time := CostDuration_add (cm_read_time_synchronous_4k self)
                  (CostDuration_mul (cm_read_time_batched_4k self) (blocks - 1)) in
    {| rc_read_time := time; rc_compute_time := time;
       rc_bytes_written := 0; rc_bytes_deleted := 0 |}
  else
    {| rc_read_time := CostDuration_mul (cm_read_time_batched_4k self) blocks;
       rc_compute_time := CostDuration_ZERO; rc_bytes_written := 0; rc_bytes_deleted := 0 |}.
Definition read_map (self : VmCostModel) (log_size : Z) (sync : bool) : RunningCost :=
  let layers := div_ceil log_size 4 in
  RunningCost_mul (read_cell self (Z.of_nat PERSISTENT_HASH_BYTES * 16) sync) layers.
Definition read_array (self : VmCostModel) (sync : bool) : RunningCost :=
  read_cell self (Z.of_nat PERSISTENT_HASH_BYTES * 16) sync.
Definition read_bmt (self : VmCostModel) (log_size : Z) (sync : bool) : RunningCost :=
  RunningCost_mul (read_cell self (FR_BYTES * 3 + 2) sync) log_size.

#[global] Arguments read_cell : simpl never.
#[global] Arguments read_map : simpl never.
#[global] Arguments read_array : simpl never.
#[global] Arguments read_bmt : simpl never.
