(* ===== verification/Vm.v ===== *)
(** * The on-chain VM: [onchain-vm/src/vm.rs]

    [run_program] interprets a straight-line program with forward jumps over a
    stack of state values, charging gas and tracking which parts of the initial
    values have been loaded.  The stack is modelled with its top at the head;
    [Vec::pop().unwrap()] on an empty stack and indexing out of range are
    panics.  Text inside error messages that prints run-time numbers is left
    out. *)
From S2P Require Import Prelude CostModel Fab FabSerial MerkleTree StateValue VmOps.
Set Warnings "-register-all".

Definition MAX_LOG_SIZE : Z := Z.shiftl 1 19.
Definition MAX_STACK_HEIGHT : nat := Z.to_nat (Z.shiftl 1 16).

(** ** The cache

    [InnerCache None]: the whole value is loaded; [InnerCache (Some m)]: the
    entries of [m] are. *)
Inductive InnerCache := mkInnerCache (entries : option (gmap AlignedValue InnerCache)).
Abbreviation Cache := (list InnerCache).
Abbreviation CacheKey := (option (nat * list AlignedValue)).

Definition push_key (self : CacheKey) (key : AlignedValue) : CacheKey :=
  match self with
  | None => None
  | Some (idx, path) => Some (idx, path ++ [key])
  end.

(** The fold of [Cache::visit] walks down the path, creating missing entries;
    the flag says whether all of them were present. *)
Fixpoint visit_path (cache : InnerCache) (path : list AlignedValue) : InnerCache * bool :=
  match path with
  | [] => (cache, true)
  | key :: path =>
      match cache with
      | mkInnerCache None => (cache, true)
      | mkInnerCache (Some map) =>
          match map !! key with
          | Some sub =>
              let '(sub, found) := visit_path sub path in
              (mkInnerCache (Some (<[key := sub]> map)), found)
          | None =>
              let '(sub, _) := visit_path (mkInnerCache (Some ∅)) path in
              (mkInnerCache (Some (<[key := sub]> map)), false)
          end
      end
  end.
Definition visit (self : Cache) (key : CacheKey) : vm_result (Cache * bool) :=
  match key with
  | None => Ok (self, true)
  | Some (n, path) =>
      if (length self <? n)%nat then Ok (self, false) else
      c ← unwrap (self !! n);
      let '(c, found) := visit_path c path in
      Ok (<[n := c]> self, found)
  end.

(** ** Arithmetic and comparison *)
Definition vm_add (a : Value) (b : vm_result Z) : vm_result AlignedValue :=
  a ← decode (u64_of_value a);
  b ← b;
  r ← ok_or (checked_add u64_max a b) ArithmeticOverflow;
  Ok (av_of_u64 r).
(** The subtrahend is decoded first. *)
Definition vm_sub (a : Value) (b : vm_result Z) : vm_result AlignedValue :=
  b ← b;
  a ← decode (u64_of_value a);
  r ← ok_or (checked_sub a b) ArithmeticOverflow;
  Ok (av_of_u64 r).
Definition vm_lt (a b : Value) : vm_result AlignedValue :=
  a ← decode (u64_of_value a);
  b ← decode (u64_of_value b);
  Ok (av_of_bool (a <? b)).

Definition vm_concat (a b : AlignedValue) (bound : Z) : vm_result AlignedValue :=
  let size_a := AlignedValue_serialized_size a in
  let size_b := AlignedValue_serialized_size b in
  if size_a + size_b <=? bound then
    ok_or (AlignedValue_new (Value_concat [av_value a; av_value b])
             (Alignment_concat [av_alignment a; av_alignment b]))
      (TypeError "alignment doesn't fit in concat")
  else Err BoundsExceeded.

Definition eq_valid_input (x : AlignedValue) : bool := AlignedValue_serialized_size x <=? 64.
Definition vm_eq (a b : AlignedValue) : vm_result AlignedValue :=
  match eq_valid_input a, eq_valid_input b with
  | false, false => Err TooLongForEqual
  | false, true | true, false => Ok (av_of_bool false)
  | true, true => Ok (av_of_bool (bool_decide (a = b)))
  end.

(** [From<MerkleTreeDigest> for AlignedValue]: 32 little-endian bytes. *)
Definition av_of_fr (x : Fr) : AlignedValue :=
  mkAlignedValue [normalize_atom (to_le_bytes 32 x)] field_alignment.

(** [1u64.checked_shl(height)]. *)
Definition checked_shl_u64 (height : Z) : option Z :=
  if height <? 64 then Some (Z.shiftl 1 height) else None.

(** ** Looking up a key *)
Definition vm_idx (value : VmValue * CacheKey) (key : AlignedValue) (cache : Cache) (cached : bool)
    : vm_result ((VmValue * CacheKey) * Cache) :=
  let cache_key := push_key value.2 key in
  '(cache, hit) ← visit cache cache_key;
  let cache_miss := negb hit in
  match vm_value value.1 with
  | Array arr =>
      idx ← decode (u8_of_value (av_value key));
      if (Z.of_nat (length arr) <=? idx)
      then Err (TypeError "index out of bounds in idx")
      else
        res ← unwrap (arr !! Z.to_nat idx);
        if cached && cache_miss then Err CacheMiss
        else Ok ((mkVmValue (vm_strength value.1) res, cache_key), cache)
  | Map map =>
      let res := default Null (map !! key) in
      if cached && cache_miss then Err CacheMiss
      else Ok ((mkVmValue (vm_strength value.1) res, cache_key), cache)
  | BoundedMerkleTree tree =>
      key ← decode (u64_of_value (av_value key));
      if match checked_shl_u64 (mt_height tree) with Some bound => bound <=? key | None => false end
      then Err MissingKey
      else
        Ok ((match mt_index tree key with
             | Some (hash, _) => mkVmValue (vm_strength value.1) (Cell (av_of_hash hash))
             | None => mkVmValue (vm_strength value.1) Null
             end, cache_key), cache)
  | _ => Err (TypeError "tried to idx, only map, array, and bmt are supported")
  end.

(** ** Machine state *)
Abbreviation Entry := (VmValue * CacheKey)%type.
Record VmState (Event : Type) := mkVmState {
  st_stack : list Entry;
  st_events : list Event;
  st_cache : Cache;
  st_gas : RunningCost;
}.
Arguments mkVmState {Event} _ _ _ _.
Arguments st_stack {Event} _.
Arguments st_events {Event} _.
Arguments st_cache {Event} _.
Arguments st_gas {Event} _.

Record VmResults (Event : Type) := mkVmResults {
  res_stack : list VmValue;
  res_events : list Event;
  res_gas_cost : RunningCost;
}.
Arguments mkVmResults {Event} _ _ _.
Arguments res_stack {Event} _.
Arguments res_events {Event} _.
Arguments res_gas_cost {Event} _.

Definition pop (stack : list Entry) : vm_result (Entry * list Entry) :=
  match stack with e :: stack => Ok (e, stack) | [] => Panic end.
(** [vnew(Strong, v)] with no cache key. *)
Definition fresh_val (v : StateValue) : Entry := (mkVmValue Strong v, None).

(** The stack height each instruction needs. *)
Definition stack_req {R} (op : Op R) : nat :=
  match op with
  | Op_Noop _ | Op_Push _ _ | Op_Jmp _ | Op_Ckpt => 0
  | Op_Type | Op_Size | Op_New | Op_Neg | Op_Log | Op_Root | Op_Pop | Op_Popeq _ _
  | Op_Addi _ | Op_Subi _ | Op_Branch _ => 1
  | Op_Lt | Op_Eq | Op_And | Op_Or | Op_Add | Op_Sub | Op_Concat _ _ | Op_Member | Op_Rem _ => 2
  | Op_Dup n => n + 1
  | Op_Swap n => n + 2
  | Op_Idx _ _ path => length (List.filter is_stack_key path) + 1
  | Op_Ins _ n => n * 2 + 1
  end.

#[global] Arguments vm_add : simpl never.
#[global] Arguments vm_sub : simpl never.
#[global] Arguments vm_concat : simpl never.
#[global] Arguments vm_idx : simpl never.

Section vm.
  Context `{Hashing} `{StateStorage} {R Event : Type} `{!ResultMode R Event}.
  Context (gas_limit : option RunningCost) (cost_model : VmCostModel).
  #[local] Abbreviation state := (VmState Event).

Definition incr_gas_full (gas by_ : RunningCost) : vm_result RunningCost :=
  let gas := RunningCost_add gas by_ in
  match gas_limit with
  | Some limit =>
      if (rc_compute_time limit <? rc_compute_time gas) || (rc_read_time limit <? rc_read_time gas)
      then Err OutOfGas else Ok gas
  | None => Ok gas
  end.
Definition incr_gas (gas : RunningCost) (by_ : CostDuration) : vm_result RunningCost :=
  incr_gas_full gas {| rc_read_time := CostDuration_ZERO; rc_compute_time := by_;
                       rc_bytes_written := 0; rc_bytes_deleted := 0 |}.

(** [const + coeff * arg] *)
Definition affine (constant coeff arg : Z) : CostDuration :=
  CostDuration_add constant (CostDuration_mul coeff arg).

Definition exec_lt (st : state) : vm_result state :=
  gas ← incr_gas (st_gas st) (cm_lt cost_model);
  '(eb, stack) ← pop (st_stack st); b ← as_cell (vm_value eb.1);
  '(ea, stack) ← pop stack; a ← as_cell (vm_value ea.1);
  r ← vm_lt (av_value a) (av_value b);
  Ok (mkVmState (fresh_val (Cell r) :: stack) (st_events st) (st_cache st) gas).

Definition exec_eq (st : state) : vm_result state :=
  gas ← incr_gas (st_gas st) (cm_eq cost_model);
  '(ea, stack) ← pop (st_stack st); a ← as_cell (vm_value ea.1);
  '(eb, stack) ← pop stack; b ← as_cell (vm_value eb.1);
  r ← vm_eq a b;
  Ok (mkVmState (fresh_val (Cell r) :: stack) (st_events st) (st_cache st) gas).

Definition exec_type (st : state) : vm_result state :=
  '(e, stack) ← pop (st_stack st);
  '(ty, cost) ← match vm_value e.1 with
                | Cell _ => Ok (0, cm_type_cell cost_model)
                | Null => Ok (1, cm_type_null cost_model)
                | Map _ => Ok (2, cm_type_map cost_model)
                | Array a =>
                    if (16 <? length a)%nat
                    then Err (TypeError "attempted to take type of illegal array with >16 entries")
                    else Ok (trunc u8_max (3 + Z.of_nat (length a) * 8), cm_type_array cost_model)
                | BoundedMerkleTree t =>
                    Ok (trunc u8_max (4 + sat_sub (mt_height t) 1 * 8), cm_type_bmt cost_model)
                end;
  gas ← incr_gas (st_gas st) cost;
  Ok (mkVmState (fresh_val (Cell (av_of_u8 ty)) :: stack) (st_events st) (st_cache st) gas).

Definition exec_size (st : state) : vm_result state :=
  '(e, stack) ← pop (st_stack st);
  '(gas, sz) ← match vm_value e.1 with
               | Map m => gas ← incr_gas (st_gas st) (cm_size_map cost_model);
                          Ok (gas, trunc u64_max (Z.of_nat (size m)))
               | BoundedMerkleTree t => gas ← incr_gas (st_gas st) (cm_size_bmt cost_model);
                                        Ok (gas, mt_height t)
               | Array a => gas ← incr_gas (st_gas st) (cm_size_array cost_model);
                            Ok (gas, Z.of_nat (length a))
               | _ => Err (TypeError
                             "attempted to take size, only map, array, and bmt are supported")
               end;
  Ok (mkVmState (fresh_val (Cell (av_of_u64 sz)) :: stack) (st_events st) (st_cache st) gas).

(** The type tag is in the lower 3 bits, the container size above. *)
Definition exec_new (st : state) : vm_result state :=
  '(e, stack) ← pop (st_stack st);
  a ← as_cell (vm_value e.1);
  val ← decode (u8_of_value (av_value a));
  let gas := st_gas st in
  let tag := Z.land val 7 in
  '(gas, new_val) ←
    (if tag =? 0 then
       gas ← incr_gas gas (cm_new_cell cost_model); Ok (gas, Cell av_of_unit)
     else if tag =? 1 then
       gas ← incr_gas gas (cm_new_null cost_model); Ok (gas, Null)
     else if tag =? 2 then
       gas ← incr_gas gas (cm_new_map cost_model); Ok (gas, Map ∅)
     else if tag =? 3 then
       gas ← incr_gas gas (cm_new_array cost_model);
       let size := Z.shiftr val 3 in
       if 16 <? size then Err (InvalidArgs "new: array length > 16")
       else Ok (gas, Array (replicate (Z.to_nat size) Null))
     else if tag =? 4 then
       gas ← incr_gas gas (cm_new_bmt cost_model);
       Ok (gas, BoundedMerkleTree (blank (Z.shiftr val 3 + 1)))
     else Err (InvalidArgs "new: type tag > 4"));
  Ok (mkVmState (fresh_val new_val :: stack) (st_events st) (st_cache st) gas).

(** [and] and [or] decode both operands before combining them. *)
Definition exec_bool2 (cost : CostDuration) (f : bool -> bool -> bool) (st : state)
    : vm_result state :=
  gas ← incr_gas (st_gas st) cost;
  '(ea, stack) ← pop (st_stack st); ca ← as_cell (vm_value ea.1);
  a ← decode (bool_of_value (av_value ca));
  '(eb, stack) ← pop stack; cb ← as_cell (vm_value eb.1);
  b ← decode (bool_of_value (av_value cb));
  Ok (mkVmState (fresh_val (Cell (av_of_bool (f a b))) :: stack) (st_events st) (st_cache st) gas).

Definition exec_neg (st : state) : vm_result state :=
  gas ← incr_gas (st_gas st) (cm_neg cost_model);
  '(ea, stack) ← pop (st_stack st); ca ← as_cell (vm_value ea.1);
  a ← decode (bool_of_value (av_value ca));
  Ok (mkVmState (fresh_val (Cell (av_of_bool (negb a))) :: stack) (st_events st) (st_cache st) gas).

Definition push_event (events : list Event) (e : option Event) : list Event :=
  match e with Some e => events ++ [e] | None => events end.

Definition log_cost (val : StateValue) (size : Z) : CostDuration :=
  match val with
  | Null => affine (cm_log_null_constant cost_model) (cm_log_null_coeff_value_size cost_model) size
  | Cell _ => affine (cm_log_cell_constant cost_model) (cm_log_cell_coeff_value_size cost_model) size
  | Map _ => affine (cm_log_map_constant cost_model) (cm_log_map_coeff_value_size cost_model) size
  | BoundedMerkleTree _ =>
      affine (cm_log_bmt_constant cost_model) (cm_log_bmt_coeff_value_size cost_model) size
  | Array _ =>
      affine (cm_log_array_constant cost_model) (cm_log_array_coeff_value_size cost_model) size
  end.

Definition exec_log (st : state) : vm_result state :=
  '(e, stack) ← pop (st_stack st);
  let val := vm_value e.1 in
  nodes ← ok_or (serialize_to_node_list_bounded val MAX_LOG_SIZE) LogBoundExceeded;
  let size := foldr Z.add 0 (map (fun n => Z.of_nat PERSISTENT_HASH_BYTES + n) nodes) in
  gas ← incr_gas (st_gas st) (log_cost val size);
  gas ← incr_gas_full gas {| rc_read_time := CostDuration_ZERO; rc_compute_time := CostDuration_ZERO;
                             rc_bytes_written := size; rc_bytes_deleted := size |};
  Ok (mkVmState stack (push_event (st_events st) (process_log val)) (st_cache st) gas).

Definition exec_root (st : state) : vm_result state :=
  gas ← incr_gas (st_gas st) (cm_root cost_model);
  '(e, stack) ← pop (st_stack st);
  root ← match vm_value e.1 with
         | BoundedMerkleTree tree =>
             ok_or (mt_root tree) (TypeError
               "attempted to take root of non-rehashed bmt (this should not be possible!)")
         | _ => Err (TypeError "attempted to take root of non bmt")
         end;
  Ok (mkVmState (fresh_val (Cell (av_of_fr root)) :: stack) (st_events st) (st_cache st) gas).

Definition exec_pop (st : state) : vm_result state :=
  gas ← incr_gas (st_gas st) (cm_pop cost_model);
  '(_, stack) ← pop (st_stack st);
  Ok (mkVmState stack (st_events st) (st_cache st) gas).

Definition exec_popeq (result : R) (st : state) : vm_result state :=
  gas ← incr_gas (st_gas st) (cm_popeq_constant cost_model);
  '(e, stack) ← pop (st_stack st); value ← as_cell (vm_value e.1);
  gas ← incr_gas gas (CostDuration_mul (cm_popeq_coeff_value_size cost_model)
                        (AlignedValue_serialized_size value));
  event ← process_read result value;
  Ok (mkVmState stack (push_event (st_events st) event) (st_cache st) gas).

Definition exec_addi (immediate : Z) (st : state) : vm_result state :=
  gas ← incr_gas (st_gas st) (cm_addi cost_model);
  '(e, stack) ← pop (st_stack st); a ← as_cell (vm_value e.1);
  r ← vm_add (av_value a) (Ok immediate);
  Ok (mkVmState (fresh_val (Cell r) :: stack) (st_events st) (st_cache st) gas).
Definition exec_subi (immediate : Z) (st : state) : vm_result state :=
  gas ← incr_gas (st_gas st) (cm_subi cost_model);
  '(e, stack) ← pop (st_stack st); a ← as_cell (vm_value e.1);
  r ← vm_sub (av_value a) (Ok immediate);
  Ok (mkVmState (fresh_val (Cell r) :: stack) (st_events st) (st_cache st) gas).
Definition exec_add (st : state) : vm_result state :=
  gas ← incr_gas (st_gas st) (cm_add cost_model);
  '(ea, stack) ← pop (st_stack st); a ← as_cell (vm_value ea.1);
  '(eb, stack) ← pop stack; b ← as_cell (vm_value eb.1);
  r ← vm_add (av_value a) (decode (u64_of_value (av_value b)));
  Ok (mkVmState (fresh_val (Cell r) :: stack) (st_events st) (st_cache st) gas).
Definition exec_sub (st : state) : vm_result state :=
  gas ← incr_gas (st_gas st) (cm_sub cost_model);
  '(ea, stack) ← pop (st_stack st); a ← as_cell (vm_value ea.1);
  '(eb, stack) ← pop stack; b ← as_cell (vm_value eb.1);
  r ← vm_sub (av_value b) (decode (u64_of_value (av_value a)));
  Ok (mkVmState (fresh_val (Cell r) :: stack) (st_events st) (st_cache st) gas).

Definition push_cost (storage : bool) (value : StateValue) : CostDuration :=
  match storage, value with
  | true, Null => cm_pushs_null cost_model
  | false, Null => cm_push_null cost_model
  | true, Cell _ => cm_pushs_cell cost_model
  | false, Cell _ => cm_push_cell cost_model
  | true, Map _ => cm_pushs_map cost_model
  | false, Map _ => cm_push_map cost_model
  | true, BoundedMerkleTree _ => cm_pushs_bmt cost_model
  | false, BoundedMerkleTree _ => cm_push_bmt cost_model
  | true, Array _ => cm_pushs_array cost_model
  | false, Array _ => cm_push_array cost_model
  end.
Definition exec_push (storage : bool) (value : StateValue) (st : state) : vm_result state :=
  gas ← incr_gas (st_gas st) (push_cost storage value);
  Ok (mkVmState ((mkVmValue (if storage then Strong else Weak) value, None) :: st_stack st)
        (st_events st) (st_cache st) gas).

Definition exec_concat (n : Z) (st : state) : vm_result state :=
  if CELL_BOUND <? n then Err CellBoundExceeded else
  '(ea, stack) ← pop (st_stack st); a ← as_cell (vm_value ea.1);
  '(eb, stack) ← pop stack; b ← as_cell (vm_value eb.1);
  let total_len := AlignedValue_serialized_size a + AlignedValue_serialized_size b in
  gas ← incr_gas (st_gas st)
          (affine (cm_concat_constant cost_model) (cm_concat_coeff_total_size cost_model) total_len);
  r ← vm_concat b a n;
  Ok (mkVmState (fresh_val (Cell r) :: stack) (st_events st) (st_cache st) gas).

Definition exec_member (st : state) : vm_result state :=
  '(ek, stack) ← pop (st_stack st); key ← as_cell (vm_value ek.1);
  '(em, stack) ← pop stack;
  let map := vm_value em.1 in
  gas ← incr_gas (st_gas st)
          (CostDuration_add
             (affine (cm_member_constant cost_model) (cm_member_coeff_key_size cost_model)
                (AlignedValue_serialized_size key))
             (CostDuration_mul (cm_member_coeff_container_log_size cost_model) (log_size map)));
  gas ← incr_gas_full gas (read_map cost_model (log_size map) true);
  r ← match map with
      | Map map => Ok (bool_decide (is_Some (map !! key)))
      | _ => Err (TypeError "attempted to check membership, only map is supported")
      end;
  Ok (mkVmState (fresh_val (Cell (av_of_bool r)) :: stack) (st_events st) (st_cache st) gas).

(** [t.try_update_hash(..)?.rehash()]. *)
Definition update_rehash (t : MerkleTreeNode unit) (idx : Z) (hash : HashOutput)
    : vm_result (MerkleTreeNode unit) :=
  t ← map_err MerkleTreeError (try_update_hash t idx hash tt);
  rehash t.

Definition rem_cost (key : AlignedValue) (container : StateValue) : CostDuration :=
  match container with
  | Map _ =>
      CostDuration_add
        (affine (cm_rem_map_constant cost_model) (cm_rem_map_coeff_key_size cost_model)
           (AlignedValue_serialized_size key))
        (CostDuration_mul (cm_rem_map_coeff_container_log_size cost_model) (log_size container))
  | BoundedMerkleTree _ =>
      affine (cm_rem_bmt_constant cost_model) (cm_rem_bmt_coeff_container_log_size cost_model)
        (log_size container)
  | _ => CostDuration_ZERO
  end.
Definition exec_rem (cached : bool) (st : state) : vm_result state :=
  '(ek, stack) ← pop (st_stack st); key ← as_cell (vm_value ek.1);
  '(container, stack) ← pop stack;
  let cval := vm_value container.1 in
  gas ← incr_gas (st_gas st) (rem_cost key cval);
  gas ← (if negb cached then
           incr_gas_full gas
             match cval with
             | Map _ => read_map cost_model (log_size cval) true
             | BoundedMerkleTree _ => read_bmt cost_model (log_size cval) true
             | _ => RunningCost_ZERO
             end
         else Ok gas);
  '(cache, cache_hit) ← visit (st_cache st) (push_key container.2 key);
  if cached && negb cache_hit then Err CacheMiss else
  container_nxt ← match cval with
                  | Map m => Ok (Map (delete key m))
                  | BoundedMerkleTree t =>
                      idx ← decode (u64_of_value (av_value key));
                      t ← update_rehash t idx (replicate PERSISTENT_HASH_BYTES 0);
                      Ok (BoundedMerkleTree t)
                  | _ => Err (TypeError "attempted to rem, only map and bmt are supported")
                  end;
  Ok (mkVmState ((mkVmValue (vm_strength container.1) container_nxt, container.2) :: stack)
        (st_events st) cache gas).

Definition exec_dup (n : nat) (st : state) : vm_result state :=
  gas ← incr_gas (st_gas st)
          (affine (cm_dup_constant cost_model) (cm_dup_coeff_arg cost_model) (Z.of_nat n));
  e ← unwrap (st_stack st !! n);
  Ok (mkVmState (e :: st_stack st) (st_events st) (st_cache st) gas).
Definition exec_swap (n : nat) (st : state) : vm_result state :=
  gas ← incr_gas (st_gas st)
          (affine (cm_swap_constant cost_model) (cm_swap_coeff_arg cost_model) (Z.of_nat n));
  a ← unwrap (st_stack st !! 0%nat);
  b ← unwrap (st_stack st !! (n + 1)%nat);
  Ok (mkVmState (<[(n + 1)%nat := a]> (<[0%nat := b]> (st_stack st)))
        (st_events st) (st_cache st) gas).

(** *** [idx] *)

(** Constant, per key byte and per level prices. *)
Definition idx_costs (v : StateValue) (cached push_path : bool) : Z * Z * Z :=
  match v, cached, push_path with
  | Map _, true, true =>
      (cm_idxpc_map_constant cost_model, cm_idxpc_map_coeff_key_size cost_model,
       cm_idxpc_map_coeff_container_log_size cost_model)
  | Map _, true, false =>
      (cm_idxc_map_constant cost_model, cm_idxc_map_coeff_key_size cost_model,
       cm_idxc_map_coeff_container_log_size cost_model)
  | BoundedMerkleTree _, true, true =>
      (cm_idxpc_bmt_constant cost_model, cm_idxpc_bmt_coeff_key_size cost_model,
       cm_idxpc_bmt_coeff_container_log_size cost_model)
  | BoundedMerkleTree _, true, false =>
      (cm_idxc_bmt_constant cost_model, cm_idxc_bmt_coeff_key_size cost_model,
       cm_idxc_bmt_coeff_container_log_size cost_model)
  | Array _, true, true => (cm_idxpc_array cost_model, 0, 0)
  | Array _, true, false => (cm_idxc_array cost_model, 0, 0)
  | Map _, false, true =>
      (cm_idxp_map_constant cost_model, cm_idxp_map_coeff_key_size cost_model,
       cm_idxp_map_coeff_container_log_size cost_model)
  | Map _, false, false =>
      (cm_idx_map_constant cost_model, cm_idx_map_coeff_key_size cost_model,
       cm_idx_map_coeff_container_log_size cost_model)
  | BoundedMerkleTree _, false, true =>
      (cm_idxp_bmt_constant cost_model, cm_idxp_bmt_coeff_key_size cost_model,
       cm_idxp_bmt_coeff_container_log_size cost_model)
  | BoundedMerkleTree _, false, false =>
      (cm_idx_bmt_constant cost_model, cm_idx_bmt_coeff_key_size cost_model,
       cm_idx_bmt_coeff_container_log_size cost_model)
  | Array _, false, true => (cm_idxp_array cost_model, 0, 0)
  | Array _, false, false => (cm_idx_array cost_model, 0, 0)
  | _, _, _ => (0, 0, 0)
  end.

Definition access_cost (costs : Z * Z * Z) (key container : StateValue) : CostDuration :=
  let '(constant_cost, linear_cost, log_cost) := costs in
  CostDuration_add
    (affine constant_cost linear_cost (StateValue_serialized_size key))
    (CostDuration_mul log_cost (log_size container)).

Definition read_container (v : StateValue) : RunningCost :=
  match v with
  | Array _ => read_array cost_model true
  | Map _ => read_map cost_model (log_size v) true
  | BoundedMerkleTree _ => read_bmt cost_model (log_size v) true
  | _ => RunningCost_ZERO
  end.

(** The keys taken from the stack, in path order. *)
Fixpoint pop_keys (path : list Key) (stack : list Entry) : vm_result (list VmValue * list Entry) :=
  match path with
  | [] => Ok ([], stack)
  | Key_Value v :: path =>
      '(keys, stack) ← pop_keys path stack;
      Ok (mkVmValue Weak (Cell v) :: keys, stack)
  | Key_Stack :: path =>
      '(e, stack) ← pop stack;
      '(keys, stack) ← pop_keys path stack;
      Ok (e.1 :: keys, stack)
  end.

Fixpoint idx_loop (cached push_path : bool) (keys : list VmValue) (curr : Entry) (stack : list Entry)
    (cache : Cache) (gas : RunningCost) : vm_result (Entry * list Entry * Cache * RunningCost) :=
  match keys with
  | [] => Ok (curr, stack, cache, gas)
  | key :: keys =>
      gas ← incr_gas gas (access_cost (idx_costs (vm_value curr.1) cached push_path)
                            (vm_value key) (vm_value curr.1));
      gas ← (if negb cached then incr_gas_full gas (read_container (vm_value curr.1)) else Ok gas);
      let stack := if push_path then (key, None) :: curr :: stack else stack in
      key_val ← as_cell (vm_value key);
      '(curr, cache) ← vm_idx curr key_val cache cached;
      gas ← (if negb cached then
               let size := match vm_value curr.1 with
                           | Cell val => AlignedValue_serialized_size val
                           | _ => 1024
                           end in
               incr_gas_full gas (read_cell cost_model size true)
             else Ok gas);
      idx_loop cached push_path keys curr stack cache gas
  end.

Definition exec_idx (cached push_path : bool) (path : list Key) (st : state) : vm_result state :=
  '(keys, stack) ← pop_keys path (st_stack st);
  '(curr, stack) ← pop stack;
  '(curr, stack, cache, gas) ← idx_loop cached push_path keys curr stack (st_cache st) (st_gas st);
  Ok (mkVmState (curr :: stack) (st_events st) cache gas).

(** *** [ins] *)
Definition ins_costs (v : StateValue) (cached : bool) : Z * Z * Z :=
  match v, cached with
  | Map _, false =>
      (cm_ins_map_constant cost_model, cm_ins_map_coeff_key_size cost_model,
       cm_ins_map_coeff_container_log_size cost_model)
  | BoundedMerkleTree _, false =>
      (cm_ins_bmt_constant cost_model, cm_ins_bmt_coeff_key_size cost_model,
       cm_ins_bmt_coeff_container_log_size cost_model)
  | Array _, false => (cm_ins_array cost_model, 0, 0)
  | Map _, true =>
      (cm_insc_map_constant cost_model, cm_insc_map_coeff_key_size cost_model,
       cm_insc_map_coeff_container_log_size cost_model)
  | BoundedMerkleTree _, true =>
      (cm_insc_bmt_constant cost_model, cm_insc_bmt_coeff_key_size cost_model,
       cm_insc_bmt_coeff_container_log_size cost_model)
  | Array _, true => (cm_insc_array cost_model, 0, 0)
  | _, _ => (0, 0, 0)
  end.

Definition ins_value (container : StateValue) (key : AlignedValue) (curr : StateValue)
    : vm_result StateValue :=
  match container with
  | Array arr =>
      idx ← decode (u8_of_value (av_value key));
      if (Z.to_nat idx <? length arr)%nat then Ok (Array (<[Z.to_nat idx := curr]> arr))
      else Err (TypeError "index out of bounds in array ins")
  | Map m => Ok (Map (<[key := curr]> m))
  | BoundedMerkleTree t =>
      idx ← decode (u64_of_value (av_value key));
      if match checked_shl_u64 (mt_height t) with Some bound => idx <? bound | None => true end then
        cell ← match as_cell curr with
               | Ok c => Ok c
               | _ => Err (TypeError "attempted to ins a non-cell value into a bmt")
               end;
        hash ← match hash_of_value (av_value cell) with
               | Ok h => Ok h
               | _ => Err (TypeError "attempt to ins cell that doesn't repr hash into bmt")
               end;
        t ← update_rehash t idx hash;
        Ok (BoundedMerkleTree t)
      else Err BoundsExceeded
  | _ => Err (TypeError "attempted to ins, only array, map, and bmt are supported")
  end.

Fixpoint ins_loop (cached : bool) (n : nat) (curr : Entry) (stack : list Entry) (cache : Cache)
    (gas : RunningCost) : vm_result (Entry * list Entry * Cache * RunningCost) :=
  match n with
  | O => Ok (curr, stack, cache, gas)
  | S n =>
      '(ek, stack) ← pop stack;
      let key := vm_value ek.1 in
      '(container, stack) ← pop stack;
      let cval := vm_value container.1 in
      gas ← incr_gas gas (access_cost (ins_costs cval cached) key cval);
      gas ← (if negb cached then incr_gas_full gas (read_container cval) else Ok gas);
      key_cell ← as_cell key;
      '(cache, cache_hit) ← visit cache (push_key container.2 key_cell);
      if cached && negb cache_hit && match cval with Array _ => false | _ => true end
      then Err CacheMiss else
      next ← ins_value cval key_cell (vm_value curr.1);
      ins_loop cached n
        (mkVmValue (strength_and (vm_strength curr.1) (vm_strength container.1)) next, container.2)
        stack cache gas
  end.

Definition exec_ins (cached : bool) (n : nat) (st : state) : vm_result state :=
  '(curr, stack) ← pop (st_stack st);
  '(curr, stack, cache, gas) ← ins_loop cached n curr stack (st_cache st) (st_gas st);
  Ok (mkVmState (curr :: stack) (st_events st) cache gas).

(** ** One instruction *)
Definition charge (by_ : CostDuration) (st : state) : vm_result state :=
  gas ← incr_gas (st_gas st) by_;
  Ok (mkVmState (st_stack st) (st_events st) (st_cache st) gas).

Definition exec_op (op : Op R) (st : state) : vm_result state :=
  match op with
  | Op_Noop n => charge (affine (cm_noop_constant cost_model) (cm_noop_coeff_arg cost_model) n) st
  | Op_Branch skip =>
      charge (affine (cm_branch_constant cost_model) (cm_branch_coeff_arg cost_model) skip) st
  | Op_Jmp skip => charge (affine (cm_jmp_constant cost_model) (cm_jmp_coeff_arg cost_model) skip) st
  | Op_Ckpt => charge (cm_ckpt cost_model) st
  | Op_Lt => exec_lt st
  | Op_Eq => exec_eq st
  | Op_Type => exec_type st
  | Op_Size => exec_size st
  | Op_New => exec_new st
  | Op_And => exec_bool2 (cm_and cost_model) andb st
  | Op_Or => exec_bool2 (cm_or cost_model) orb st
  | Op_Neg => exec_neg st
  | Op_Log => exec_log st
  | Op_Root => exec_root st
  | Op_Pop => exec_pop st
  | Op_Popeq _ result => exec_popeq result st
  | Op_Addi immediate => exec_addi immediate st
  | Op_Subi immediate => exec_subi immediate st
  | Op_Push storage value => exec_push storage value st
  | Op_Add => exec_add st
  | Op_Sub => exec_sub st
  | Op_Concat _ n => exec_concat n st
  | Op_Member => exec_member st
  | Op_Rem cached => exec_rem cached st
  | Op_Dup n => exec_dup n st
  | Op_Swap n => exec_swap n st
  | Op_Idx cached push_path path => exec_idx cached push_path path st
  | Op_Ins cached n => exec_ins cached n st
  end.

(** The distance to the next instruction; a branch pops its condition.  A cell
    of one empty atom is false. *)
Definition is_falsy (v : Value) : bool :=
  match v with [[]] => true | _ => false end.
Definition next_skip (op : Op R) (st : state) : vm_result (Z * state) :=
  match op with
  | Op_Branch skip =>
      '(e, stack) ← pop (st_stack st); a ← as_cell (vm_value e.1);
      let st := mkVmState stack (st_events st) (st_cache st) (st_gas st) in
      Ok (1 + if is_falsy (av_value a) then 0 else skip, st)
  | Op_Jmp skip => Ok (1 + skip, st)
  | _ => Ok (1, st)
  end.

(** One round of the [while] loop, on the first instruction of [program]. *)
Definition vm_step (op : Op R) (program : list (Op R)) (st : state)
    : vm_result (list (Op R) * state) :=
  if (length (st_stack st) <? stack_req op)%nat then Err RanOffStack else
  st ← exec_op op st;
  '(skip, st) ← next_skip op st;
  if Z.of_nat (length program) <? skip then Err RanPastProgramEnd else
  if (MAX_STACK_HEIGHT <? length (st_stack st))%nat then Err StackOverflow else
  Ok (drop (Z.to_nat skip) program, st).

(** The loop.  Every round drops at least one instruction, so the length of the
    program bounds the rounds (see [run_loop_fuel]). *)
Fixpoint run_loop (fuel : nat) (step_limit : option nat) (steps_executed : nat)
    (program : list (Op R)) (st : state) : vm_result state :=
  match program with
  | [] => Ok st
  | op :: _ =>
      if match step_limit with Some limit => (limit <=? steps_executed)%nat | None => false end
      then Ok st
      else match fuel with
           | O => Panic
           | S fuel =>
               '(program, st) ← vm_step op program st;
               run_loop fuel step_limit (S steps_executed) program st
           end
  end.

(** Each initial value is its own cache root; weak values count as loaded. *)
Definition initial_entry (i : nat) (val : VmValue) : Entry := (val, Some (i, [])).
Definition initial_cache (val : VmValue) : InnerCache :=
  match vm_strength val with
  | Weak => mkInnerCache None
  | Strong => mkInnerCache (Some ∅)
  end.
Definition initial_state (initial : list VmValue) : state :=
  mkVmState (reverse (imap initial_entry initial)) [] (map initial_cache initial) RunningCost_ZERO.

Definition run_program_step_limited (initial : list VmValue) (program : list (Op R))
    (step_limit : option nat) : vm_result (VmResults Event) :=
  st ← run_loop (length program) step_limit 0 program (initial_state initial);
  Ok (mkVmResults (reverse (map fst (st_stack st))) (st_events st) (st_gas st)).
Definition run_program (initial : list VmValue) (program : list (Op R))
    : vm_result (VmResults Event) := run_program_step_limited initial program None.
End vm.
