(* ===== verification/VmSafety.v ===== *)
(** * Safety of the on-chain VM: the lemmas

    For each instruction of [Vm.v]: on a state whose values are well-formed and
    whose stack is high enough it does not panic, keeps the invariant and does
    not decrease the gas spent.  [VmProps.v] draws the conclusions. *)
From S2P Require Import Prelude CostModel Fab FabSerial MerkleTree StateValue VmOps Vm.
Set Warnings "-register-all".

(** ** What the VM relies on *)

(** Sizes are sizes, and the bounded node list respects its bound (each node
    counts 32 bytes for its hash). *)
Class StateStorageLaws (S : StateStorage) : Prop := {
  serialized_size_nonneg v : 0 <= StateValue_serialized_size v;
  node_list_bounded v bound nodes :
    serialize_to_node_list_bounded v bound = Some nodes ->
    Forall (Z.le 0) nodes /\
    foldr Z.add 0 (map (fun n => Z.of_nat PERSISTENT_HASH_BYTES + n) nodes) <= bound;
}.

(** Prices are [u64]s. *)
Definition cm_fields (cm : VmCostModel) : list Z :=
  [cm_noop_constant cm; cm_noop_coeff_arg cm; cm_lt cm; cm_eq cm; cm_type_null cm;
   cm_type_cell cm; cm_type_map cm; cm_type_bmt cm; cm_type_array cm; cm_size_map cm;
   cm_size_bmt cm; cm_size_array cm; cm_new_null cm; cm_new_cell cm; cm_new_map cm;
   cm_new_bmt cm; cm_new_array cm; cm_and cm; cm_or cm; cm_neg cm; cm_log_null_constant cm;
   cm_log_null_coeff_value_size cm; cm_log_cell_constant cm; cm_log_cell_coeff_value_size cm;
   cm_log_map_constant cm; cm_log_map_coeff_value_size cm; cm_log_bmt_constant cm;
   cm_log_bmt_coeff_value_size cm; cm_log_array_constant cm; cm_log_array_coeff_value_size cm;
   cm_root cm; cm_pop cm; cm_popeq_constant cm; cm_popeq_coeff_value_size cm;
   cm_popeqc_constant cm; cm_popeqc_coeff_value_size cm; cm_addi cm; cm_subi cm; cm_push_null cm;
   cm_push_cell cm; cm_push_map cm; cm_push_bmt cm; cm_push_array cm; cm_pushs_null cm;
   cm_pushs_cell cm; cm_pushs_map cm; cm_pushs_bmt cm; cm_pushs_array cm; cm_branch_constant cm;
   cm_branch_coeff_arg cm; cm_jmp_constant cm; cm_jmp_coeff_arg cm; cm_add cm; cm_sub cm;
   cm_concat_constant cm; cm_concat_coeff_total_size cm; cm_concatc_constant cm;
   cm_concatc_coeff_total_size cm; cm_member_constant cm; cm_member_coeff_key_size cm;
   cm_member_coeff_container_log_size cm; cm_rem_map_constant cm; cm_rem_map_coeff_key_size cm;
   cm_rem_map_coeff_container_log_size cm; cm_rem_bmt_constant cm; cm_rem_bmt_coeff_key_size cm;
   cm_rem_bmt_coeff_container_log_size cm; cm_remc_map_constant cm;
   cm_remc_map_coeff_key_size cm; cm_remc_map_coeff_container_log_size cm;
   cm_remc_bmt_constant cm; cm_remc_bmt_coeff_key_size cm;
   cm_remc_bmt_coeff_container_log_size cm; cm_dup_constant cm; cm_dup_coeff_arg cm;
   cm_swap_constant cm; cm_swap_coeff_arg cm; cm_idx_map_constant cm;
   cm_idx_map_coeff_key_size cm; cm_idx_map_coeff_container_log_size cm; cm_idx_bmt_constant cm;
   cm_idx_bmt_coeff_key_size cm; cm_idx_bmt_coeff_container_log_size cm; cm_idx_array cm;
   cm_idxp_map_constant cm; cm_idxp_map_coeff_key_size cm;
   cm_idxp_map_coeff_container_log_size cm; cm_idxp_bmt_constant cm;
   cm_idxp_bmt_coeff_key_size cm; cm_idxp_bmt_coeff_container_log_size cm; cm_idxp_array cm;
   cm_idxc_map_constant cm; cm_idxc_map_coeff_key_size cm;
   cm_idxc_map_coeff_container_log_size cm; cm_idxc_bmt_constant cm;
   cm_idxc_bmt_coeff_key_size cm; cm_idxc_bmt_coeff_container_log_size cm; cm_idxc_array cm;
   cm_idxpc_map_constant cm; cm_idxpc_map_coeff_key_size cm;
   cm_idxpc_map_coeff_container_log_size cm; cm_idxpc_bmt_constant cm;
   cm_idxpc_bmt_coeff_key_size cm; cm_idxpc_bmt_coeff_container_log_size cm; cm_idxpc_array cm;
   cm_ins_map_constant cm; cm_ins_map_coeff_key_size cm; cm_ins_map_coeff_container_log_size cm;
   cm_ins_bmt_constant cm; cm_ins_bmt_coeff_key_size cm; cm_ins_bmt_coeff_container_log_size cm;
   cm_ins_array cm; cm_insc_map_constant cm; cm_insc_map_coeff_key_size cm;
   cm_insc_map_coeff_container_log_size cm; cm_insc_bmt_constant cm;
   cm_insc_bmt_coeff_key_size cm; cm_insc_bmt_coeff_container_log_size cm; cm_insc_array cm;
   cm_ckpt cm; cm_signature_verify_constant cm; cm_signature_verify_coeff_size cm;
   cm_pedersen_valid cm; cm_verifier_key_load cm; cm_proof_verify_constant cm;
   cm_proof_verify_coeff_size cm; cm_hash_to_curve cm; cm_ec_add cm; cm_ec_mul cm;
   cm_transient_hash cm; cm_get_writes_constant cm; cm_get_writes_coeff_keys_added_size cm;
   cm_update_rcmap_constant cm; cm_update_rcmap_coeff_keys_added_size cm;
   cm_gc_rcmap_constant cm; cm_gc_rcmap_coeff_keys_removed_size cm; cm_read_time_batched_4k cm;
   cm_read_time_synchronous_4k cm].
Definition cm_wf (cm : VmCostModel) : Prop := Forall is_u64 (cm_fields cm).
Lemma cm_field_wf cm x : cm_wf cm -> In x (cm_fields cm) -> is_u64 x.
Proof. unfold cm_wf. rewrite List.Forall_forall. auto. Qed.
Ltac cm_field :=
  match goal with
  | Hcm : cm_wf ?cm |- in_u u64_max (_ ?cm) =>
      apply (cm_field_wf _ _ Hcm); unfold cm_fields; repeat (first [left; reflexivity | right])
  end.

Lemma INITIAL_COST_MODEL_wf : cm_wf INITIAL_COST_MODEL.
Proof. apply (bool_decide_unpack _). vm_compute. exact I. Qed.

(** ** Sizes *)
Lemma flagged_int_size_pos n : 1 <= flagged_int_size n.
Proof. unfold flagged_int_size. repeat case_match; lia. Qed.
Lemma size_sum_nonneg {A} (f : A -> Z) l : Forall (fun x => 0 <= f x) l -> 0 <= size_sum f l.
Proof. induction 1; simpl; lia. Qed.
Lemma atom_size_pos a : 1 <= ValueAtom_serialized_size a.
Proof.
  unfold ValueAtom_serialized_size. assert (K : forall a, 1 <= ValueAtom_size_normal a).
  { intros b. unfold ValueAtom_size_normal. pose proof (flagged_int_size_pos (len_u32 b)).
    destruct b as [|x [|]]; [lia| |lia]. pose proof (flagged_int_size_pos x).
    destruct (_ <? _); lia. }
  destruct (is_in_normal_form a); apply K.
Qed.
Lemma value_size_nonneg v : 0 <= Value_serialized_size v.
Proof.
  unfold Value_serialized_size. pose proof (flagged_int_size_pos (len_u32 v)).
  assert (0 <= size_sum ValueAtom_serialized_size v)
    by (apply size_sum_nonneg, List.Forall_forall; intros a _; pose proof (atom_size_pos a); lia).
  destruct v as [|a [|]]; [lia|pose proof (atom_size_pos a); lia|lia].
Qed.
Lemma alignment_with_nonneg f al :
  Forall (fun s => 0 <= f s) al -> 0 <= Alignment_size_with f al.
Proof.
  intros Hal. unfold Alignment_size_with. pose proof (flagged_int_size_pos (len_u32 al)).
  pose proof (size_sum_nonneg f al Hal).
  destruct al as [|s [|]]; [lia|by apply Forall_cons_1 in Hal as [? _]|lia].
Qed.
Lemma segment_size_nonneg s : 0 <= AlignmentSegment_serialized_size s.
Proof.
  induction s as [a|os IH] using AlignmentSegment_ind'; simpl.
  - destruct a as [|n|]; simpl; try lia. pose proof (flagged_int_size_pos n). lia.
  - pose proof (flagged_int_size_pos (len_u32 os)).
    assert (0 <= size_sum (Alignment_size_with AlignmentSegment_serialized_size) os).
    { apply size_sum_nonneg. eapply Forall_impl; [|exact IH]. intros al.
      apply alignment_with_nonneg. }
    lia.
Qed.
Lemma aligned_size_nonneg av : 0 <= AlignedValue_serialized_size av.
Proof.
  unfold AlignedValue_serialized_size. pose proof (value_size_nonneg (av_value av)).
  assert (0 <= Alignment_serialized_size (av_alignment av)); [|lia].
  apply alignment_with_nonneg, List.Forall_forall. intros. apply segment_size_nonneg.
Qed.

(** Lists are written with a header unless they are singletons, so
    concatenation adds at most one byte to the values and one to the
    alignments. *)
Definition header (n : nat) : Z := if decide (n = 1%nat) then 0 else flagged_int_size (Z.of_nat n).
Lemma header_add a b :
  Z.of_nat (a + b) <= THREE_BYTE_LIMIT -> header (a + b) <= header a + header b + 1.
Proof.
  unfold header, flagged_int_size.
  destruct flagged_bounds as (-> & -> & -> & -> & ->). intros Hab.
  repeat case_match; rewrite ?andb_true_iff, ?andb_false_iff, ?Z.leb_le, ?Z.leb_gt in *; lia.
Qed.
Lemma size_sum_app {A} (f : A -> Z) l k : size_sum f (l ++ k) = size_sum f l + size_sum f k.
Proof. induction l as [|x l IH]; simpl; [lia|]. rewrite IH. lia. Qed.
Lemma size_sum_length {A} (f : A -> Z) l :
  (forall x, 1 <= f x) -> Z.of_nat (length l) <= size_sum f l.
Proof. intros Hf. induction l as [|x l IH]; simpl; [lia|]. pose proof (Hf x). lia. Qed.
Lemma len_u32_small {A} (l : list A) :
  Z.of_nat (length l) <= THREE_BYTE_LIMIT -> len_u32 l = Z.of_nat (length l).
Proof. intros Hl. apply fits_flag_len. by apply Z.leb_le. Qed.

Lemma value_size_eq v :
  Z.of_nat (length v) <= THREE_BYTE_LIMIT ->
  Value_serialized_size v = header (length v) + size_sum ValueAtom_serialized_size v.
Proof.
  intros Hl. unfold Value_serialized_size, header. rewrite len_u32_small by done.
  destruct v as [|a [|b v]]; simpl; repeat case_decide; simplify_eq; lia.
Qed.
Lemma alignment_size_eq al :
  Z.of_nat (length al) <= THREE_BYTE_LIMIT ->
  Alignment_serialized_size al
  = header (length al) + size_sum AlignmentSegment_serialized_size al.
Proof.
  intros Hl. unfold Alignment_serialized_size, Alignment_size_with, header.
  rewrite len_u32_small by done.
  destruct al as [|a [|b al]]; simpl; repeat case_decide; simplify_eq; lia.
Qed.
Lemma segment_size_pos s : 1 <= AlignmentSegment_serialized_size s.
Proof.
  destruct s as [a|os]; simpl.
  - destruct a as [|n|]; simpl; try lia. apply flagged_int_size_pos.
  - pose proof (flagged_int_size_pos (len_u32 os)).
    assert (0 <= size_sum (Alignment_size_with AlignmentSegment_serialized_size) os); [|lia].
    apply size_sum_nonneg, List.Forall_forall. intros al _.
    apply alignment_with_nonneg, List.Forall_forall. intros. apply segment_size_nonneg.
Qed.

(** The number of atoms and segments is bounded by the size. *)
Lemma lengths_le_size av :
  AlignedValue_serialized_size av <= THREE_BYTE_LIMIT ->
  Z.of_nat (length (av_value av)) + Z.of_nat (length (av_alignment av))
  <= AlignedValue_serialized_size av.
Proof.
  unfold AlignedValue_serialized_size, Value_serialized_size, Alignment_serialized_size,
    Alignment_size_with. intros _.
  pose proof (size_sum_length ValueAtom_serialized_size (av_value av) atom_size_pos).
  pose proof (size_sum_length AlignmentSegment_serialized_size (av_alignment av) segment_size_pos).
  pose proof (flagged_int_size_pos (len_u32 (av_value av))).
  pose proof (flagged_int_size_pos (len_u32 (av_alignment av))).
  destruct (av_value av) as [|a [|b v]], (av_alignment av) as [|s [|s' al]]; simpl in *; lia.
Qed.

Lemma concat_size a b :
  AlignedValue_serialized_size a + AlignedValue_serialized_size b <= CELL_BOUND ->
  AlignedValue_serialized_size (AlignedValue_concat [a; b])
  <= AlignedValue_serialized_size a + AlignedValue_serialized_size b + 2.
Proof.
  intros Hb. assert (Hc : CELL_BOUND <= THREE_BYTE_LIMIT) by (vm_compute; congruence).
  pose proof (aligned_size_nonneg a). pose proof (aligned_size_nonneg b).
  pose proof (lengths_le_size a ltac:(lia)). pose proof (lengths_le_size b ltac:(lia)).
  unfold AlignedValue_concat, AlignedValue_serialized_size in *. simpl. rewrite !app_nil_r.
  rewrite !value_size_eq, !alignment_size_eq by (rewrite ?length_app; lia).
  rewrite !size_sum_app, !length_app.
  pose proof (header_add (length (av_value a)) (length (av_value b)) ltac:(lia)).
  pose proof (header_add (length (av_alignment a)) (length (av_alignment b)) ltac:(lia)). lia.
Qed.

Create HintDb vm.

(** ** Safety of the building blocks *)
#[global] Opaque CELL_BOUND.
Abbreviation vwf := (sv_wf 2).

Definition key_ok (n : nat) (k : CacheKey) : Prop :=
  match k with Some (i, _) => (i < n)%nat | None => True end.
Definition entry_ok (n : nat) (e : Entry) : Prop := vwf (vm_value e.1) /\ key_ok n e.2.

Lemma flagged_int_size_le n : flagged_int_size n <= 1000.
Proof. unfold flagged_int_size. repeat case_match; lia. Qed.
Lemma atom_size_le a : ValueAtom_serialized_size a <= 1000 + Z.of_nat (length a).
Proof.
  assert (K : forall b, ValueAtom_size_normal b <= 1000 + Z.of_nat (length b)).
  { intros b. unfold ValueAtom_size_normal. pose proof (flagged_int_size_le (len_u32 b)).
    destruct b as [|x [|]]; [lia| |lia]. pose proof (flagged_int_size_le x).
    destruct (_ <? _); simpl; lia. }
  unfold ValueAtom_serialized_size. pose proof (length_normalize a). pose proof (K a).
  pose proof (K (normalize_atom a)). destruct (is_in_normal_form a); lia.
Qed.
Lemma single_size_le a al :
  (length a <= 32)%nat ->
  AlignedValue_serialized_size (mkAlignedValue [a] [Atom al]) <= CELL_BOUND + 2.
Proof.
  intros Ha. unfold AlignedValue_serialized_size. simpl. unfold Alignment_serialized_size. simpl.
  pose proof (atom_size_le a).
  assert (AlignmentAtom_serialized_size al <= 1000)
    by (destruct al as [|n|]; simpl; [lia|apply flagged_int_size_le|lia]).
  assert (2032 + 1000 <= CELL_BOUND) by (vm_compute; congruence). lia.
Qed.
Lemma av_wf_bytes av : av_wf av -> Forall bytes_wf (av_value av).
Proof. by intros [_ ?]. Qed.
Lemma uint_atom_length x : (length (uint_atom x) <= 32)%nat.
Proof.
  unfold uint_atom. pose proof (length_normalize (to_le_bytes 16 x)).
  rewrite length_to_le_bytes in *. lia.
Qed.

Lemma cell_u8 x : is_u8 x -> vwf (Cell (av_of_u8 x)).
Proof. constructor; [by apply av_of_u8_wf|apply single_size_le, uint_atom_length]. Qed.
Lemma cell_u64 x : is_u64 x -> vwf (Cell (av_of_u64 x)).
Proof. constructor; [by apply av_of_u64_wf|apply single_size_le, uint_atom_length]. Qed.
Lemma cell_bool b : vwf (Cell (av_of_bool b)).
Proof.
  constructor; [by apply av_of_bool_wf|apply single_size_le].
  by destruct b; apply Nat.leb_le; vm_compute.
Qed.
Lemma cell_hash h : hash_wf h -> vwf (Cell (av_of_hash h)).
Proof.
  intros Hh. constructor; [by apply av_of_hash_wf|apply single_size_le].
  unfold hash_atom. pose proof (length_normalize h). destruct Hh as [Hl _].
  unfold PERSISTENT_HASH_BYTES in Hl. lia.
Qed.
Lemma cell_unit : vwf (Cell av_of_unit).
Proof. constructor; [apply av_of_unit_wf|]. by vm_compute. Qed.
Lemma cell_fr x : vwf (Cell (av_of_fr x)).
Proof.
  pose proof (length_normalize (to_le_bytes 32 x)) as Hl. rewrite length_to_le_bytes in Hl.
  constructor; [|by apply single_size_le]. split.
  - apply single_aligned. unfold atom_fits. rewrite normalize_normal, andb_true_r.
    apply Nat.leb_le. unfold FIELD_BYTE_LIMIT. lia.
  - repeat constructor. apply normalize_bytes_wf, to_le_bytes_wf.
Qed.
#[export] Hint Resolve cell_u8 cell_u64 cell_bool cell_hash cell_unit cell_fr : vm.

Lemma safe_pop n stack Q :
  Forall (entry_ok n) stack -> (1 <= length stack)%nat ->
  (forall e rest, stack = e :: rest -> entry_ok n e -> Forall (entry_ok n) rest -> Q (e, rest)) ->
  safe (pop stack) Q.
Proof.
  intros Hs Hl HQ. destruct stack as [|e rest]; [simpl in Hl; lia|].
  apply Forall_cons_1 in Hs as [He Hr]. by apply HQ.
Qed.
Lemma safe_as_cell v :
  vwf v -> safe (as_cell v) (fun c => av_wf c /\ AlignedValue_serialized_size c <= CELL_BOUND + 2).
Proof. by destruct 1. Qed.
Lemma safe_decode {A} (m : outcome InvalidBuiltinDecode A) (Q : A -> Prop) :
  m <> Panic -> (forall x, m = Ok x -> Q x) -> safe (decode m) Q.
Proof. destruct m; simpl; auto. Qed.

Lemma safe_u8 v : Forall bytes_wf v -> safe (decode (u8_of_value v)) is_u8.
Proof. intros Hv. apply safe_decode; [apply u8_no_panic|]. intros x. by apply u8_of_value_range. Qed.
Lemma safe_u64 v : Forall bytes_wf v -> safe (decode (u64_of_value v)) is_u64.
Proof. intros Hv. apply safe_decode; [apply u64_no_panic|]. intros x. by apply u64_of_value_range. Qed.
Lemma safe_bool v : safe (decode (bool_of_value v)) (fun _ => True).
Proof. by apply safe_decode; [apply bool_no_panic|]. Qed.

Lemma safe_visit (cache : Cache) k :
  key_ok (length cache) k -> safe (visit cache k) (fun r => length r.1 = length cache).
Proof.
  intros Hk. destruct k as [[i path]|]; [|done]. simpl in *.
  destruct (Nat.ltb_spec (length cache) i); [lia|].
  destruct (lookup_lt_is_Some_2 cache i Hk) as [c Hc]. rewrite Hc. simpl.
  destruct (visit_path c path) as [c' found]. simpl. by rewrite length_insert.
Qed.
Lemma key_ok_push n k key : key_ok n k -> key_ok n (push_key k key).
Proof. by destruct k as [[]|]. Qed.

Lemma vwf_bmt t :
  vwf (BoundedMerkleTree t) <->
  mt_wf t /\ 1 <= mt_height t <= 32 /\ is_Some (mt_root t) /\ leaves_wf t.
Proof. split; [by inversion 1|]. intros (? & ? & ? & ?). by constructor. Qed.
Lemma vwf_map m : vwf (Map m) <-> map_Forall (fun _ => vwf) m.
Proof. split; [by inversion 1|]. by constructor. Qed.
Lemma vwf_array a :
  vwf (Array a) <-> (length a <= 16)%nat /\ forall i v, a !! i = Some v -> vwf v.
Proof. split; [by inversion 1|]. intros []. by constructor. Qed.
Lemma vwf_cell v :
  vwf (Cell v) <-> av_wf v /\ AlignedValue_serialized_size v <= CELL_BOUND + 2.
Proof. split; [by inversion 1|]. intros []. by constructor. Qed.

Lemma safe_update_rehash `{Hashing} t idx hash :
  vwf (BoundedMerkleTree t) -> 0 <= idx -> hash_wf hash ->
  safe (update_rehash t idx hash) (fun t' => vwf (BoundedMerkleTree t')).
Proof.
  rewrite vwf_bmt. intros (Hwf & Hh & _ & Hlv) Hi Hhash. unfold update_rehash.
  pose proof (try_update_hash_rec_spec (mt_size t) t idx hash tt Hwf ltac:(lia) Hi
    ltac:(lia)) as Hs. unfold try_update_hash.
  destruct (try_update_hash_rec _ t idx hash tt) as [t1|[]|]; simpl; try done.
  destruct Hs as (_ & _ & Hwf1 & Hh1 & _ & Hi1 & _).
  destruct (@rehash_spec _ _ OnchainProgramError t1) as (t2 & -> & Hr & Hh2 & Hwf2 & _ & Hi2 & _).
  simpl. apply vwf_bmt. split_and!; [auto|lia|lia|eauto|].
  intros j h a Hj. rewrite Hi2, Hi1 by (rewrite <- Hh1, <- Hh2; lia).
  case_decide; [congruence|]. apply Hlv. rewrite <- Hh1, <- Hh2. lia.
Qed.

(** ** Gas *)
Lemma CostDuration_add_u64 a b : is_u64 a -> is_u64 b -> is_u64 (CostDuration_add a b).
Proof. apply sat_add_in_u. Qed.
Lemma CostDuration_mul_u64 a n : is_u64 a -> 0 <= n -> is_u64 (CostDuration_mul a n).
Proof. apply sat_mul_in_u. Qed.
Lemma affine_u64 c k n : is_u64 c -> is_u64 k -> 0 <= n -> is_u64 (affine c k n).
Proof. intros. by apply CostDuration_add_u64, CostDuration_mul_u64. Qed.
Lemma read_cell_wf cm size sync : cm_wf cm -> 0 <= size -> RunningCost_wf (read_cell cm size sync).
Proof.
  intros Hcm Hs. unfold read_cell.
  assert (Hb : 0 <= Z.max 1 (div_ceil size 4096) - 1) by lia.
  assert (Hb' : 0 <= Z.max 1 (div_ceil size 4096)) by lia.
  assert (is_u64 (cm_read_time_batched_4k cm)) by cm_field.
  assert (is_u64 (cm_read_time_synchronous_4k cm)) by cm_field.
  destruct sync; unfold RunningCost_wf; simpl; split_and!;
    auto using CostDuration_add_u64, CostDuration_mul_u64; try ints.
  unfold CostDuration_ZERO. ints.
Qed.
Lemma div_ceil_nonneg a b : 0 <= a -> 0 < b -> 0 <= div_ceil a b.
Proof. intros. unfold div_ceil. apply Z.div_pos; lia. Qed.
Lemma read_map_wf cm n sync : cm_wf cm -> 0 <= n -> RunningCost_wf (read_map cm n sync).
Proof.
  intros. apply RunningCost_mul_wf; [apply read_cell_wf; [done|lia]|]. apply div_ceil_nonneg; lia.
Qed.
Lemma read_bmt_wf cm n sync : cm_wf cm -> 0 <= n -> RunningCost_wf (read_bmt cm n sync).
Proof. intros. apply RunningCost_mul_wf; [apply read_cell_wf; [done|]|done]. unfold FR_BYTES. lia. Qed.
Lemma read_array_wf cm sync : cm_wf cm -> RunningCost_wf (read_array cm sync).
Proof. intros. apply read_cell_wf; [done|lia]. Qed.
Lemma compute_only_wf c : is_u64 c -> RunningCost_wf (mkRunningCost CostDuration_ZERO c 0 0).
Proof. intros. unfold RunningCost_wf, CostDuration_ZERO. simpl. split_and!; try done; ints. Qed.
Lemma zero_u64 : is_u64 0.
Proof. ints. Qed.
#[export] Hint Resolve CostDuration_add_u64 CostDuration_mul_u64 affine_u64 read_cell_wf read_map_wf
  read_bmt_wf read_array_wf compute_only_wf aligned_size_nonneg log_size_nonneg
  serialized_size_nonneg RunningCost_ZERO_wf Zle_0_nat zero_u64 : vm.
#[export] Hint Extern 1 (in_u u64_max (_ _)) => cm_field : vm.
#[export] Hint Extern 3 (_ <= _) => lia : vm.

Definition within (gas_limit : option RunningCost) (gas : RunningCost) : Prop :=
  match gas_limit with
  | Some limit => rc_compute_time gas <= rc_compute_time limit /\
                  rc_read_time gas <= rc_read_time limit
  | None => True
  end.

(** Reading never panics, whatever the mode. *)
Class ResultModeLaws {R Event} (M : ResultMode R Event) : Prop := {
  process_read_no_panic (r : R) v : process_read r v <> Panic;
}.
#[global] Instance ResultModeVerify_laws : ResultModeLaws ResultModeVerify.
Proof. split. intros r v. simpl. unfold verify_process_read. by case_match. Qed.
#[global] Instance ResultModeGather_laws : ResultModeLaws ResultModeGather.
Proof. by split. Qed.

(** What the type system guarantees of an instruction: unsigned immediates and
    well-formed literals. *)
Definition op_wf {R} (op : Op R) : Prop :=
  match op with
  | Op_Noop n | Op_Branch n | Op_Jmp n | Op_Addi n | Op_Subi n | Op_Concat _ n => is_u32 n
  | Op_Push _ v => vwf v
  | Op_Idx _ _ path => Forall (fun k => match k with Key_Value v => vwf (Cell v) | _ => True end) path
  | _ => True
  end.

Section safety.
  Context `{Hashing} {S : StateStorage} {SL : StateStorageLaws S}.
  Context {R Event : Type} {M : ResultMode R Event} {ML : ResultModeLaws M}.
  Context (gas_limit : option RunningCost) (cm : VmCostModel) (Hcm : cm_wf cm).

(** The invariant of the machine: [n] is the number of initial values. *)
Definition state_ok (n : nat) (st : VmState Event) : Prop :=
  Forall (entry_ok n) (st_stack st) /\ length (st_cache st) = n /\
  RunningCost_wf (st_gas st) /\ within gas_limit (st_gas st).
Definition post (n : nat) (gas : RunningCost) (st' : VmState Event) : Prop :=
  state_ok n st' /\ RunningCost_le gas (st_gas st').

Lemma safe_incr_gas_full gas by_ :
  RunningCost_wf gas -> RunningCost_wf by_ ->
  safe (incr_gas_full gas_limit gas by_)
    (fun g => RunningCost_wf g /\ RunningCost_le gas g /\ within gas_limit g).
Proof.
  intros Hg Hb. unfold incr_gas_full. pose proof (RunningCost_add_wf _ _ Hg Hb).
  pose proof (RunningCost_le_add _ _ Hg Hb). destruct gas_limit as [l|]; [|by split_and!].
  destruct (Z.ltb_spec (rc_compute_time l) (rc_compute_time (RunningCost_add gas by_))); [done|].
  destruct (Z.ltb_spec (rc_read_time l) (rc_read_time (RunningCost_add gas by_))); [done|].
  by split_and!.
Qed.

(** Rules for the calls that occur in the instructions. *)
Lemma bind_incr_full {A} gas by_ (f : RunningCost -> vm_result A) Q :
  RunningCost_wf gas -> RunningCost_wf by_ ->
  (forall g, RunningCost_wf g -> RunningCost_le gas g -> within gas_limit g -> safe (f g) Q) ->
  safe (incr_gas_full gas_limit gas by_ ≫= f) Q.
Proof.
  intros Hg Hb Hf. eapply safe_bind; [by apply safe_incr_gas_full|]. intros g (? & ? & ?). auto.
Qed.
Lemma bind_incr {A} gas by_ (f : RunningCost -> vm_result A) Q :
  RunningCost_wf gas -> is_u64 by_ ->
  (forall g, RunningCost_wf g -> RunningCost_le gas g -> within gas_limit g -> safe (f g) Q) ->
  safe (incr_gas gas_limit gas by_ ≫= f) Q.
Proof. intros Hg Hb Hf. apply bind_incr_full; auto. by apply compute_only_wf. Qed.
Lemma bind_pop {A} n stack (f : Entry * list Entry -> vm_result A) Q :
  Forall (entry_ok n) stack -> (1 <= length stack)%nat ->
  (forall e rest, stack = e :: rest -> vwf (vm_value e.1) -> key_ok n e.2 ->
     Forall (entry_ok n) rest -> safe (f (e, rest)) Q) ->
  safe (pop stack ≫= f) Q.
Proof.
  intros Hs Hl Hf. destruct stack as [|e rest]; [simpl in Hl; lia|].
  apply Forall_cons_1 in Hs as [[] ?]. simpl. auto.
Qed.
Lemma bind_as_cell {A} v (f : AlignedValue -> vm_result A) Q :
  vwf v -> (forall c, av_wf c -> AlignedValue_serialized_size c <= CELL_BOUND + 2 -> safe (f c) Q) ->
  safe (as_cell v ≫= f) Q.
Proof. intros Hv Hf. eapply safe_bind; [by apply safe_as_cell|]. intros c []. auto. Qed.
Lemma bind_u8 {A} v (f : Z -> vm_result A) Q :
  av_wf v -> (forall x, is_u8 x -> safe (f x) Q) -> safe (decode (u8_of_value (av_value v)) ≫= f) Q.
Proof. intros [_ Hv] Hf. eapply safe_bind; [by apply safe_u8|done]. Qed.
Lemma bind_u64 {A} v (f : Z -> vm_result A) Q :
  av_wf v -> (forall x, is_u64 x -> safe (f x) Q) -> safe (decode (u64_of_value (av_value v)) ≫= f) Q.
Proof. intros [_ Hv] Hf. eapply safe_bind; [by apply safe_u64|done]. Qed.
Lemma bind_bool {A} v (f : bool -> vm_result A) Q :
  (forall x, safe (f x) Q) -> safe (decode (bool_of_value v) ≫= f) Q.
Proof. intros Hf. eapply safe_bind; [by apply safe_bool|auto]. Qed.
Lemma bind_ok_or {A B} (o : option B) (e : OnchainProgramError) (f : B -> vm_result A) Q :
  (forall x, o = Some x -> safe (f x) Q) -> safe (ok_or o e ≫= f) Q.
Proof. destruct o; simpl; auto. Qed.
Lemma bind_visit {A} n (cache : Cache) k (f : Cache * bool -> vm_result A) Q :
  length cache = n -> key_ok n k ->
  (forall c b, length c = n -> safe (f (c, b)) Q) -> safe (visit cache k ≫= f) Q.
Proof.
  intros Hl Hk Hf. subst n. eapply safe_bind; [by apply safe_visit|]. intros [c b]. simpl. auto.
Qed.
Lemma post_intro n gas stack events cache g :
  Forall (entry_ok n) stack -> length cache = n -> RunningCost_wf g -> RunningCost_le gas g ->
  within gas_limit g -> post n gas (mkVmState stack events cache g).
Proof. intros. by split_and!. Qed.
Lemma fresh_ok n v stack : vwf v -> Forall (entry_ok n) stack -> Forall (entry_ok n) (fresh_val v :: stack).
Proof. intros. by constructor. Qed.
End safety.

(** One step of a safety proof, driven by the shape of the code. *)
Ltac vm_step_tac :=
  match goal with
  | |- safe (mbind _ (incr_gas _ _ _)) _ =>
      apply bind_incr; [assumption|eauto 4 with vm|intros ? ? ? ?]
  | |- safe (mbind _ (incr_gas_full _ _ _)) _ =>
      apply bind_incr_full; [assumption|eauto 4 with vm|intros ? ? ? ?]
  | |- safe (mbind _ (pop _)) _ =>
      eapply bind_pop; [eassumption|simpl in *; lia|intros ? ? -> ? ? ?]
  | |- safe (mbind _ (as_cell _)) _ => apply bind_as_cell; [assumption|intros ? ? ?]
  | |- safe (mbind _ (decode (u8_of_value _))) _ => apply bind_u8; [assumption|intros ? ?]
  | |- safe (mbind _ (decode (u64_of_value _))) _ => apply bind_u64; [assumption|intros ? ?]
  | |- safe (mbind _ (decode (bool_of_value _))) _ => apply bind_bool; intros ?
  | |- safe (mbind _ (ok_or _ _)) _ => apply bind_ok_or; intros ? ?
  | |- safe (mbind _ (visit _ _)) _ =>
      eapply bind_visit; [eassumption|by apply key_ok_push|intros ? ? ?]
  | |- safe (mbind _ (mbind _ _)) _ => apply safe_assoc
  | |- safe (Err _) _ => exact I
  | |- safe (mbind _ (Err _)) _ => exact I
  | |- safe (mbind ?f (Ok ?a)) ?Q => change (safe (f a) Q)
  | |- safe (mbind ?f (unwrap (Some ?a))) ?Q => change (safe (f a) Q)
  | |- safe ((fun _ => _) _) _ => cbv beta iota
  | |- safe (Ok _) _ => apply safe_ret
  | |- post _ _ _ (mkVmState _ _ _ _) =>
      apply post_intro; [|assumption|assumption|
        first [eassumption|etransitivity; eassumption|
               etransitivity; [eassumption|etransitivity; eassumption]]|assumption]
  | |- Forall (entry_ok _) (fresh_val _ :: _) => apply fresh_ok; [eauto 3 with vm|assumption]
  end.
Ltac vm_safe := repeat vm_step_tac.

Section instructions.
  Context `{Hashing} {S : StateStorage} {SL : StateStorageLaws S}.
  Context {R Event : Type} {M : ResultMode R Event} {ML : ResultModeLaws M}.
  Context (gas_limit : option RunningCost) (cm : VmCostModel) (Hcm : cm_wf cm).
  #[local] Abbreviation sok := (state_ok gas_limit).
  #[local] Abbreviation spost := (post gas_limit).

Lemma safe_vm_lt a b :
  av_wf a -> av_wf b -> safe (vm_lt (av_value a) (av_value b)) (fun c => vwf (Cell c)).
Proof. intros. unfold vm_lt. vm_safe. auto with vm. Qed.
Lemma safe_vm_eq a b : safe (vm_eq a b) (fun c => vwf (Cell c)).
Proof. unfold vm_eq. destruct (eq_valid_input a), (eq_valid_input b); simpl; auto with vm. Qed.
Lemma safe_vm_add a b :
  av_wf a -> safe b is_u64 -> safe (vm_add (av_value a) b) (fun c => vwf (Cell c)).
Proof.
  intros Ha Hb. unfold vm_add. vm_safe. eapply safe_bind; [exact Hb|]. intros y Hy. vm_safe.
  apply cell_u64. unfold checked_add in *. case_match; simplify_eq. ints.
Qed.
Lemma safe_vm_sub a b :
  av_wf a -> safe b is_u64 -> safe (vm_sub (av_value a) b) (fun c => vwf (Cell c)).
Proof.
  intros Ha Hb. unfold vm_sub. eapply safe_bind; [exact Hb|]. intros y Hy. vm_safe.
  apply cell_u64. unfold checked_sub in *. case_match; simplify_eq. ints.
Qed.
Lemma safe_vm_concat a b n :
  av_wf a -> av_wf b -> n <= CELL_BOUND -> safe (vm_concat a b n) (fun c => vwf (Cell c)).
Proof.
  intros Ha Hb Hn. unfold vm_concat.
  destruct (Z.leb_spec (AlignedValue_serialized_size a + AlignedValue_serialized_size b) n); [|done].
  assert (Hc : av_wf (AlignedValue_concat [a; b])) by (apply av_concat_wf; auto).
  unfold AlignedValue_new, Value_concat, Alignment_concat.
  change (concat [av_value a; av_value b]) with (av_value (AlignedValue_concat [a; b])).
  change (concat [av_alignment a; av_alignment b]) with (av_alignment (AlignedValue_concat [a; b])).
  destruct Hc as [Hf Hbytes]. rewrite Hf. simpl. apply vwf_cell. split; [by split|].
  pose proof (concat_size a b ltac:(lia)). unfold AlignedValue_concat in *. simpl in *. lia.
Qed.

Lemma safe_vm_idx n e key (cache : Cache) cached :
  vwf (vm_value e.1) -> key_ok n e.2 -> av_wf key -> length cache = n ->
  safe (vm_idx e key cache cached) (fun r => entry_ok n r.1 /\ length r.2 = n).
Proof.
  intros Hv Hk Hkey Hc. unfold vm_idx. vm_safe.
  destruct (vm_value e.1) as [|v|m|a|t] eqn:Ev; vm_safe.
  - destruct (cached && _); vm_safe. split; [split|done]; [|by apply key_ok_push]. simpl.
    destruct (m !! key) as [v|] eqn:Hm; simpl; [|constructor].
    apply vwf_map in Hv. exact (Hv key v Hm).
  - destruct (Z.leb_spec (Z.of_nat (length a)) x); vm_safe.
    destruct (lookup_lt_is_Some_2 a (Z.to_nat x)) as [v Hl]; [ints|]. rewrite Hl. vm_safe.
    destruct (cached && _); vm_safe. split; [split|done]; [|by apply key_ok_push]. simpl.
    apply vwf_array in Hv as [_ Hv]. eauto.
  - apply vwf_bmt in Hv as (Hwf & Hh & _ & Hlv).
    unfold checked_shl_u64. replace (mt_height t <? 64) with true by lia.
    rewrite Z.shiftl_1_l. destruct (Z.leb_spec (2 ^ mt_height t) x); vm_safe.
    destruct (mt_index t x) as [[h []]|] eqn:Hi;
      (split; [split|done]; [|by apply key_ok_push]); simpl; [|constructor].
    apply cell_hash, (Hlv x h tt); [ints|done].
Qed.

Lemma safe_ins_value c key v :
  vwf c -> av_wf key -> vwf v -> safe (ins_value c key v) vwf.
Proof.
  intros Hc Hk Hv. destruct c as [|w|m|a|t]; unfold ins_value; vm_safe.
  - apply vwf_map in Hc. apply vwf_map. by apply map_Forall_insert_2.
  - destruct (Nat.ltb_spec (Z.to_nat x) (length a)); vm_safe.
    apply vwf_array in Hc as [Hl Ha]. apply vwf_array. rewrite length_insert. split; [done|].
    intros i w [(<- & <- & _)|[_ Hi]]%list_lookup_insert_Some; eauto.
  - destruct (match _ with Some _ => _ | None => _ end); vm_safe.
    destruct v as [|w| | |]; cbn [as_cell]; vm_safe. apply vwf_cell in Hv as [[_ Hb] _].
    destruct (hash_of_value (av_value w)) as [h| |] eqn:Eh; vm_safe.
    eapply safe_bind.
    + apply safe_update_rehash; [done|ints|]. by eapply hash_of_value_wf.
    + intros t' Ht'. vm_safe. done.
Qed.


Implicit Types st : VmState Event.
#[local] Ltac start :=
  intros (Hs & Hn & Hg & Hw) Hr;
  match goal with st : VmState _ |- _ => destruct st as [stack ev ca g] end; simpl in *.

Lemma exec_lt_safe n st :
  sok n st -> (2 <= length (st_stack st))%nat -> safe (exec_lt gas_limit cm st) (spost n (st_gas st)).
Proof using Hcm.
  start. unfold exec_lt; simpl. vm_safe.
  eapply safe_bind; [by apply safe_vm_lt|]. intros. vm_safe.
Qed.
Lemma exec_eq_safe n st :
  sok n st -> (2 <= length (st_stack st))%nat -> safe (exec_eq gas_limit cm st) (spost n (st_gas st)).
Proof using Hcm.
  start. unfold exec_eq; simpl. vm_safe.
  eapply safe_bind; [by apply safe_vm_eq|]. intros. vm_safe.
Qed.
Lemma exec_type_safe n st :
  sok n st -> (1 <= length (st_stack st))%nat -> safe (exec_type gas_limit cm st) (spost n (st_gas st)).
Proof using Hcm.
  start. unfold exec_type; simpl. vm_safe.
  assert (Ht : forall x, is_u8 (trunc u8_max x)).
  { intros x. unfold trunc. pose proof (Z.mod_pos_bound x (u8_max + 1)). ints. }
  destruct (vm_value e.1) as [|v|m|a|t] eqn:Ev; vm_safe; try (apply cell_u8; ints).
  - destruct (Nat.ltb_spec 16 (length a)); vm_safe.
Qed.
Lemma exec_size_safe n st :
  sok n st -> (1 <= length (st_stack st))%nat -> safe (exec_size gas_limit cm st) (spost n (st_gas st)).
Proof using Hcm.
  start. unfold exec_size; simpl. vm_safe.
  destruct (vm_value e.1) as [|v|m|a|t] eqn:Ev; vm_safe; apply cell_u64.
  - unfold trunc. pose proof (Z.mod_pos_bound (Z.of_nat (size m)) (u64_max + 1)). ints.
  - apply vwf_array in H0 as [? _]. ints.
  - apply vwf_bmt in H0 as (_ & ? & _). ints.
Qed.
Lemma exec_new_safe n st :
  sok n st -> (1 <= length (st_stack st))%nat -> safe (exec_new gas_limit cm st) (spost n (st_gas st)).
Proof using Hcm.
  start. unfold exec_new; simpl. vm_safe.
  destruct (_ =? 0); vm_safe. destruct (_ =? 1); vm_safe. destruct (_ =? 2); vm_safe.
  { constructor. apply map_Forall_empty. }
  destruct (_ =? 3); vm_safe.
  { destruct (Z.ltb_spec 16 (Z.shiftr x 3)); vm_safe. apply vwf_array.
    rewrite length_replicate. split; [lia|]. intros i v [-> _]%lookup_replicate. constructor. }
  destruct (_ =? 4); vm_safe. apply vwf_bmt.
  assert (Hsh : 0 <= Z.shiftr x 3 < 32).
  { rewrite Z.shiftr_div_pow2 by lia. change (2 ^ 3) with 8.
    split; [apply Z.div_pos|apply Z.div_lt_upper_bound]; ints. }
  unfold blank. simpl. split_and!; [lia..|eauto|done].
Qed.
Lemma exec_bool2_safe n st cost f :
  is_u64 cost -> sok n st -> (2 <= length (st_stack st))%nat ->
  safe (exec_bool2 gas_limit cost f st) (spost n (st_gas st)).
Proof. intros Hc. start. unfold exec_bool2; simpl. vm_safe. Qed.
Lemma exec_neg_safe n st :
  sok n st -> (1 <= length (st_stack st))%nat -> safe (exec_neg gas_limit cm st) (spost n (st_gas st)).
Proof using Hcm. start. unfold exec_neg; simpl. vm_safe. Qed.

Lemma log_cost_u64 v size : 0 <= size -> is_u64 (log_cost cm v size).
Proof using Hcm. intros. destruct v; simpl; auto with vm. Qed.
Lemma log_sum_bound v nodes :
  serialize_to_node_list_bounded v MAX_LOG_SIZE = Some nodes ->
  is_u64 (foldr Z.add 0 (map (fun n => Z.of_nat PERSISTENT_HASH_BYTES + n) nodes)).
Proof using SL.
  intros [Hnn Hsum]%node_list_bounded.
  assert (MAX_LOG_SIZE <= u64_max) by (vm_compute; congruence). split; [|lia].
  clear Hsum. induction Hnn; simpl; [lia|]. unfold PERSISTENT_HASH_BYTES in *. lia.
Qed.
Lemma exec_log_safe n st :
  sok n st -> (1 <= length (st_stack st))%nat -> safe (exec_log gas_limit cm st) (spost n (st_gas st)).
Proof using Hcm SL.
  start. unfold exec_log; simpl. vm_safe; apply log_sum_bound in H3 as Hx.
  - apply log_cost_u64, Hx.
  - unfold RunningCost_wf, CostDuration_ZERO. simpl. split_and!; try done; ints.
  - done.
Qed.
Lemma exec_root_safe n st :
  sok n st -> (1 <= length (st_stack st))%nat -> safe (exec_root gas_limit cm st) (spost n (st_gas st)).
Proof using Hcm.
  start. unfold exec_root; simpl. vm_safe.
  destruct (vm_value e.1) as [|v|m|a|t] eqn:Ev; vm_safe.
Qed.
Lemma exec_pop_safe n st :
  sok n st -> (1 <= length (st_stack st))%nat -> safe (exec_pop gas_limit cm st) (spost n (st_gas st)).
Proof using Hcm. start. unfold exec_pop; simpl. by vm_safe. Qed.
Lemma exec_popeq_safe n st (r : R) :
  sok n st -> (1 <= length (st_stack st))%nat ->
  safe (exec_popeq gas_limit cm r st) (spost n (st_gas st)).
Proof using Hcm ML.
  start. unfold exec_popeq; simpl. vm_safe.
  pose proof (process_read_no_panic r c) as Hp. destruct (process_read r c); vm_safe; done.
Qed.
Lemma exec_addi_safe n st i :
  is_u32 i -> sok n st -> (1 <= length (st_stack st))%nat ->
  safe (exec_addi gas_limit cm i st) (spost n (st_gas st)).
Proof using Hcm.
  intros Hi. start. unfold exec_addi; simpl. vm_safe.
  eapply safe_bind; [apply safe_vm_add; [done|apply safe_ret; ints]|]. intros. vm_safe.
Qed.
Lemma exec_subi_safe n st i :
  is_u32 i -> sok n st -> (1 <= length (st_stack st))%nat ->
  safe (exec_subi gas_limit cm i st) (spost n (st_gas st)).
Proof using Hcm.
  intros Hi. start. unfold exec_subi; simpl. vm_safe.
  eapply safe_bind; [apply safe_vm_sub; [done|apply safe_ret; ints]|]. intros. vm_safe.
Qed.
Lemma exec_add_safe n st :
  sok n st -> (2 <= length (st_stack st))%nat -> safe (exec_add gas_limit cm st) (spost n (st_gas st)).
Proof using Hcm.
  start. unfold exec_add; simpl. vm_safe.
  eapply safe_bind; [apply safe_vm_add; [done|by apply safe_u64, av_wf_bytes]|]. intros. vm_safe.
Qed.
Lemma exec_sub_safe n st :
  sok n st -> (2 <= length (st_stack st))%nat -> safe (exec_sub gas_limit cm st) (spost n (st_gas st)).
Proof using Hcm.
  start. unfold exec_sub; simpl. vm_safe.
  eapply safe_bind; [apply safe_vm_sub; [done|by apply safe_u64, av_wf_bytes]|]. intros. vm_safe.
Qed.
Lemma exec_push_safe n st b v :
  vwf v -> sok n st -> safe (exec_push gas_limit cm b v st) (spost n (st_gas st)).
Proof using Hcm.
  intros Hv Hst. assert (Hr : True) by done. revert Hst Hr. start. unfold exec_push; simpl.
  assert (is_u64 (push_cost cm b v)) by (destruct b, v; simpl; auto with vm).
  vm_safe. by constructor.
Qed.
Lemma exec_concat_safe n st k :
  sok n st -> (2 <= length (st_stack st))%nat ->
  safe (exec_concat gas_limit cm k st) (spost n (st_gas st)).
Proof using Hcm.
  start. unfold exec_concat; simpl. destruct (Z.ltb_spec CELL_BOUND k); vm_safe.
  { apply affine_u64; auto with vm.
    pose proof (aligned_size_nonneg c). pose proof (aligned_size_nonneg c0). lia. }
  eapply safe_bind; [by apply safe_vm_concat|]. intros. vm_safe.
Qed.
Lemma exec_member_safe n st :
  sok n st -> (2 <= length (st_stack st))%nat ->
  safe (exec_member gas_limit cm st) (spost n (st_gas st)).
Proof using Hcm.
  start. unfold exec_member; simpl. vm_safe.
  destruct (vm_value e0.1) as [|v|m|a|t] eqn:Ev; vm_safe.
Qed.

Lemma read_container_wf v : vwf v -> RunningCost_wf (read_container cm v).
Proof using Hcm.
  intros Hv. pose proof (log_size_nonneg v 2 Hv).
  destruct v; unfold read_container; auto with vm.
Qed.
Lemma zeros_hash_wf : hash_wf (replicate PERSISTENT_HASH_BYTES 0).
Proof. split; [done|]. apply (bool_decide_unpack _). vm_compute. exact I. Qed.

Lemma exec_rem_safe n st cached :
  sok n st -> (2 <= length (st_stack st))%nat ->
  safe (exec_rem gas_limit cm cached st) (spost n (st_gas st)).
Proof using Hcm.
  start. unfold exec_rem; simpl. vm_safe.
  { destruct (vm_value e0.1) as [|v|m|a|t] eqn:Ev; unfold rem_cost; eauto with vm. }
  eapply safe_bind with (P := fun g' => RunningCost_wf g' /\ RunningCost_le g g' /\ within gas_limit g').
  { destruct cached; simpl; [by split_and!|]. eapply safe_impl.
    - apply safe_incr_gas_full; [done|].
      destruct (vm_value e0.1) as [|v|m|a|t] eqn:Ev; eauto with vm.
    - intros g' (? & ? & ?). split_and!; try done. by etransitivity. }
  intros g' (? & ? & ?). vm_safe. destruct (cached && negb b); vm_safe.
  destruct (vm_value e0.1) as [|v|m|a|t] eqn:Ev; vm_safe.
  - constructor; [|done]. split; [|done]. simpl. apply vwf_map.
    match goal with Hm : vwf (Map m) |- _ => apply vwf_map in Hm end. by apply map_Forall_delete.
  - eapply safe_bind; [apply safe_update_rehash; [done|ints|apply zeros_hash_wf]|].
    intros t' Ht'. vm_safe. by constructor.
Qed.

Lemma exec_dup_safe n st k :
  sok n st -> (k + 1 <= length (st_stack st))%nat ->
  safe (exec_dup gas_limit cm k st) (spost n (st_gas st)).
Proof using Hcm.
  start. unfold exec_dup; simpl. vm_safe.
  destruct (lookup_lt_is_Some_2 stack k) as [e He]; [lia|]. rewrite He. vm_safe.
  constructor; [|done]. rewrite Forall_lookup in Hs. eauto.
Qed.
Lemma exec_swap_safe n st k :
  sok n st -> (k + 2 <= length (st_stack st))%nat ->
  safe (exec_swap gas_limit cm k st) (spost n (st_gas st)).
Proof using Hcm.
  start. unfold exec_swap; simpl. vm_safe.
  destruct (lookup_lt_is_Some_2 stack 0) as [a Ha]; [lia|].
  destruct (lookup_lt_is_Some_2 stack (k + 1)) as [b Hb]; [lia|]. rewrite Ha, Hb. vm_safe.
  rewrite Forall_lookup in Hs. apply Forall_insert; [|by eauto].
  apply Forall_insert; [|by eauto]. by apply Forall_lookup.
Qed.

(** The keys of a path: as many stack entries are popped as the path asks for. *)
Lemma safe_pop_keys n path stack :
  Forall (fun k => match k with Key_Value v => vwf (Cell v) | _ => True end) path ->
  Forall (entry_ok n) stack -> (length (List.filter is_stack_key path) + 1 <= length stack)%nat ->
  safe (pop_keys path stack)
    (fun r => Forall (fun k => vwf (vm_value k)) r.1 /\ Forall (entry_ok n) r.2 /\
              (1 <= length r.2)%nat).
Proof.
  intros Hp. revert stack. induction Hp as [|k path Hk _ IH]; intros stack Hs Hl; simpl in *.
  - by split_and!.
  - destruct k as [v|]; simpl in *.
    + eapply safe_bind; [by apply IH|]. intros [ks rest] (? & ? & ?). simpl in *.
      split_and!; [by constructor|done..].
    + vm_safe. eapply safe_bind; [apply IH; [done|simpl in *; lia]|]. intros [ks rest'] (? & ? & ?).
      simpl in *. split_and!; [by constructor|done..].
Qed.

Lemma idx_costs_u64 v cached push :
  let c := idx_costs cm v cached push in is_u64 c.1.1 /\ is_u64 c.1.2 /\ is_u64 c.2.
Proof using Hcm. destruct v, cached, push; simpl; split_and!; auto with vm. Qed.
Lemma ins_costs_u64 v cached :
  let c := ins_costs cm v cached in is_u64 c.1.1 /\ is_u64 c.1.2 /\ is_u64 c.2.
Proof using Hcm. destruct v, cached; simpl; split_and!; auto with vm. Qed.
Lemma access_cost_u64 costs key v :
  is_u64 costs.1.1 /\ is_u64 costs.1.2 /\ is_u64 costs.2 -> vwf v ->
  is_u64 (access_cost costs key v).
Proof using SL.
  destruct costs as [[a b] c]. simpl. intros (? & ? & ?) Hv.
  apply CostDuration_add_u64; [apply affine_u64; auto with vm|apply CostDuration_mul_u64; eauto with vm].
Qed.

(** Charging, if not cached. *)
Lemma bind_uncached {A} (cached : bool) gas by_ (f : RunningCost -> vm_result A) Q :
  RunningCost_wf gas -> within gas_limit gas -> RunningCost_wf by_ ->
  (forall g, RunningCost_wf g -> RunningCost_le gas g -> within gas_limit g -> safe (f g) Q) ->
  safe ((if negb cached then incr_gas_full gas_limit gas by_ else Ok gas) ≫= f) Q.
Proof.
  intros Hg Hw Hb Hf. destruct cached; simpl; [by apply Hf|]. by apply bind_incr_full.
Qed.

Definition loop_post (n : nat) (gas : RunningCost) (len : nat)
    (r : Entry * list Entry * Cache * RunningCost) : Prop :=
  entry_ok n r.1.1.1 /\ Forall (entry_ok n) r.1.1.2 /\ length r.1.2 = n /\ RunningCost_wf r.2 /\
  RunningCost_le gas r.2 /\ within gas_limit r.2.

Lemma idx_loop_safe n cached push keys : forall curr stack cache gas,
  Forall (fun k => vwf (vm_value k)) keys -> entry_ok n curr -> Forall (entry_ok n) stack ->
  length cache = n -> RunningCost_wf gas -> within gas_limit gas ->
  safe (idx_loop gas_limit cm cached push keys curr stack cache gas) (loop_post n gas 0).
Proof using Hcm SL.
  induction keys as [|key keys IH]; intros curr stack cache gas Hk [Hcv Hck] Hs Hc Hg Hw; simpl.
  - by split_and!.
  - apply Forall_cons_1 in Hk as [Hkey Hk].
    apply bind_incr; [done|apply access_cost_u64; [apply idx_costs_u64|done]|intros g1 Hg1 Hl1 Hw1].
    apply bind_uncached; [done..|by apply read_container_wf|intros g2 Hg2 Hl2 Hw2].
    vm_safe. eapply safe_bind; [by apply safe_vm_idx|]. intros [curr' cache'] [Hcurr' Hc'].
    apply bind_uncached; [done..| |intros g3 Hg3 Hl3 Hw3].
    { apply read_cell_wf; [done|]. destruct (vm_value curr'.1); try lia. apply aligned_size_nonneg. }
    eapply safe_impl; [apply IH; try done|].
    + destruct push; [|done]. constructor; [by split|]. constructor; [by split|done].
    + intros [[[]]]. unfold loop_post. simpl. intros (? & ? & ? & ? & ? & ?).
      split_and!; try done. etransitivity; [exact Hl1|]. etransitivity; [exact Hl2|].
      by etransitivity.
Qed.

Lemma exec_idx_safe n st cached push path :
  Forall (fun k => match k with Key_Value v => vwf (Cell v) | _ => True end) path ->
  sok n st -> (length (List.filter is_stack_key path) + 1 <= length (st_stack st))%nat ->
  safe (exec_idx gas_limit cm cached push path st) (spost n (st_gas st)).
Proof using Hcm SL.
  intros Hp. start. unfold exec_idx; simpl.
  eapply safe_bind; [by apply safe_pop_keys|]. intros [keys rest] (? & ? & ?). simpl in *.
  vm_safe. eapply safe_bind; [by apply idx_loop_safe|].
  intros [[[curr stack'] cache'] g'] (? & ? & ? & ? & ? & ?). simpl in *. vm_safe. by constructor.
Qed.

Lemma ins_loop_safe cached k n : forall curr stack cache gas,
  entry_ok n curr -> Forall (entry_ok n) stack -> (k * 2 <= length stack)%nat ->
  length cache = n -> RunningCost_wf gas -> within gas_limit gas ->
  safe (ins_loop gas_limit cm cached k curr stack cache gas) (loop_post n gas 0).
Proof using Hcm SL.
  induction k as [|k IH]; intros curr stack cache gas [Hcv Hck] Hs Hl Hc Hg Hw; simpl.
  - by split_and!.
  - vm_safe; [apply access_cost_u64; [apply ins_costs_u64|done]|].
    apply bind_uncached; [done..|by apply read_container_wf|intros g2 Hg2 Hl2 Hw2].
    vm_safe. destruct (_ && _); vm_safe.
    eapply safe_bind; [by apply safe_ins_value|]. intros next Hnext.
    eapply safe_impl; [apply IH; try done; simpl in *; lia|].
    intros [[[]]]. unfold loop_post. simpl. intros (? & ? & ? & ? & ? & ?).
    split_and!; try done. etransitivity; [eassumption|]. etransitivity; eassumption.
Qed.
Lemma exec_ins_safe n st cached k :
  sok n st -> (k * 2 + 1 <= length (st_stack st))%nat ->
  safe (exec_ins gas_limit cm cached k st) (spost n (st_gas st)).
Proof using Hcm SL.
  start. unfold exec_ins; simpl. vm_safe.
  eapply safe_bind; [apply ins_loop_safe; try done; simpl in Hr; lia|].
  intros [[[curr stack'] cache'] g'] (? & ? & ? & ? & ? & ?). simpl in *. vm_safe. by constructor.
Qed.

Lemma charge_safe n st by_ :
  is_u64 by_ -> sok n st -> safe (charge gas_limit by_ st) (spost n (st_gas st)).
Proof.
  intros Hb Hst. assert (Hr : True) by done. revert Hst Hr. start. unfold charge; simpl. by vm_safe.
Qed.

(** Every instruction is safe once the stack is as high as [stack_req] says. *)
Lemma exec_op_safe n op st :
  op_wf op -> sok n st -> (stack_req op <= length (st_stack st))%nat ->
  safe (exec_op gas_limit cm op st) (spost n (st_gas st)).
Proof using Hcm SL ML.
  intros Hop Hst Hr.
  destruct op; cbn [op_wf stack_req exec_op] in *.
  - apply charge_safe; [apply affine_u64; [cm_field|cm_field|ints]|done].
  - by apply exec_lt_safe.
  - by apply exec_eq_safe.
  - by apply exec_type_safe.
  - by apply exec_size_safe.
  - by apply exec_new_safe.
  - by apply exec_bool2_safe; [cm_field|..].
  - by apply exec_bool2_safe; [cm_field|..].
  - by apply exec_neg_safe.
  - by apply exec_log_safe.
  - by apply exec_root_safe.
  - by apply exec_pop_safe.
  - by apply exec_popeq_safe.
  - by apply exec_addi_safe.
  - by apply exec_subi_safe.
  - by apply exec_push_safe.
  - apply charge_safe; [apply affine_u64; [cm_field|cm_field|ints]|done].
  - apply charge_safe; [apply affine_u64; [cm_field|cm_field|ints]|done].
  - by apply exec_add_safe.
  - by apply exec_sub_safe.
  - by apply exec_concat_safe.
  - by apply exec_member_safe.
  - by apply exec_rem_safe.
  - by apply exec_dup_safe.
  - by apply exec_swap_safe.
  - by apply exec_idx_safe.
  - by apply exec_ins_safe.
  - apply charge_safe; [cm_field|done].
Qed.

(** ** The loop *)
Lemma next_skip_safe n (op : Op R) st :
  op_wf op -> sok n st ->
  (match op with Op_Branch _ => 1 <= length (st_stack st) | _ => True end)%nat ->
  safe (next_skip op st) (fun r => 1 <= r.1 /\ spost n (st_gas st) r.2).
Proof using Type.
  intros Hop Hst Hr. assert (Hp : spost n (st_gas st) st) by (split; [done|reflexivity]).
  destruct op; simpl in Hop |- *; try (split; [ints|done]).
  destruct st as [stack ev ca g]; destruct Hst as (Hs & Hn & Hg & Hw); simpl in *.
  vm_safe. split.
  - destruct (is_falsy _); simpl; ints.
  - apply post_intro; try done.
Qed.

Lemma vm_step_safe n (op : Op R) program st :
  op_wf op -> sok n st ->
  safe (vm_step gas_limit cm op program st)
    (fun r => spost n (st_gas st) r.2 /\ (length (st_stack r.2) <= MAX_STACK_HEIGHT)%nat /\
              exists k, (1 <= k)%nat /\ r.1 = drop k program).
Proof using Hcm SL ML.
  intros Hop Hst. unfold vm_step.
  destruct (Nat.ltb_spec (length (st_stack st)) (stack_req op)) as [|Hr]; [done|].
  pose proof (exec_op_safe n op st Hop Hst Hr) as Hx.
  destruct (exec_op gas_limit cm op st) as [st1| |] eqn:Ex; [|done..].
  destruct Hx as [Hst1 Hle1].
  assert (Hbr : (match op with Op_Branch _ => 1 <= length (st_stack st1) | _ => True end)%nat).
  { destruct op; try done. simpl in Hr, Ex. unfold charge in Ex. inv_binds. done. }
  pose proof (next_skip_safe n op st1 Hop Hst1 Hbr) as Hn. cbn [mbind outcome_bind].
  destruct (next_skip op st1) as [[skip st2]| |]; [|done..]. destruct Hn as [Hk [Hst2 Hle2]].
  cbn [mbind outcome_bind]. destruct (_ <? skip); [done|].
  destruct (Nat.ltb_spec MAX_STACK_HEIGHT (length (st_stack st2))); [done|].
  simpl in *. split; [split; [done|by etransitivity]|]. split; [done|].
  exists (Z.to_nat skip). split; [lia|done].
Qed.

(** The program shrinks every round, so its length is enough fuel. *)
Lemma run_loop_safe n fuel step_limit : forall steps (program : list (Op R)) st,
  Forall op_wf program -> sok n st -> (length program <= fuel)%nat ->
  safe (run_loop gas_limit cm fuel step_limit steps program st)
    (fun st' => spost n (st_gas st) st' /\
       (length (st_stack st') <= Nat.max MAX_STACK_HEIGHT (length (st_stack st)))%nat).
Proof using Hcm SL ML.
  induction fuel as [|fuel IH]; intros steps program st Hp Hst Hf.
  - destruct program; [|simpl in Hf; lia]. simpl. split; [split; [done|reflexivity]|lia].
  - destruct program as [|op rest]; [simpl; split; [split; [done|reflexivity]|lia]|].
    cbn [run_loop]. destruct (match step_limit with Some _ => _ | None => _ end).
    { split; [split; [done|reflexivity]|lia]. }
    eapply safe_bind; [apply vm_step_safe; [by apply Forall_cons_1 in Hp as [? _]|done]|].
    intros [program' st1] ([Hst1 Hle1] & Hlen & k & Hk & Hpr). simpl in Hpr, Hlen. subst program'.
    eapply safe_impl; [apply IH|].
    + by apply Forall_drop.
    + done.
    + rewrite length_drop. simpl in *. lia.
    + simpl in *. intros st' [[Hst' Hle'] Hl]. split; [split; [done|by etransitivity]|lia].
Qed.

Lemma initial_state_ok initial :
  Forall (fun v => vwf (vm_value v)) initial -> within gas_limit RunningCost_ZERO ->
  sok (length initial) (initial_state (Event:=Event) initial).
Proof using Type.
  intros Hi Hw. unfold initial_state. split_and!; simpl.
  - apply Forall_reverse. rewrite Forall_lookup. intros i e He.
    rewrite list_lookup_imap in He. destruct (initial !! i) as [v|] eqn:Ev; [|done].
    injection He as <-. split; simpl.
    + rewrite Forall_lookup in Hi. eauto.
    + by eapply lookup_lt_Some.
  - by rewrite length_map.
  - apply RunningCost_ZERO_wf.
  - done.
Qed.

Lemma run_program_safe initial (program : list (Op R)) step_limit :
  Forall (fun v => vwf (vm_value v)) initial -> Forall op_wf program ->
  within gas_limit RunningCost_ZERO ->
  safe (run_program_step_limited gas_limit cm initial program step_limit)
    (fun res => Forall (fun v => vwf (vm_value v)) (res_stack res) /\
       RunningCost_wf (res_gas_cost res) /\ within gas_limit (res_gas_cost res) /\
       (length (res_stack res) <= Nat.max MAX_STACK_HEIGHT (length initial))%nat).
Proof using Hcm SL ML.
  intros Hi Hp Hw. unfold run_program_step_limited.
  eapply safe_bind; [apply (run_loop_safe (length initial)); [done|by apply initial_state_ok|lia]|].
  intros st [[(Hs & _ & Hg & Hwg) _] Hl]. simpl. split_and!; try done.
  - apply Forall_reverse, Forall_fmap. eapply Forall_impl; [|exact Hs]. by intros e [? _].
  - rewrite length_reverse, length_map. unfold initial_state in Hl. simpl in Hl.
    rewrite length_reverse, length_imap in Hl. done.
Qed.
End instructions.
