(* ===== verification/VmProps.v ===== *)
(** * Properties of the on-chain VM

    Programs never panic and keep every value well-formed; gas stays within the
    limit and a limit never changes a successful result; the verifying and the
    gathering mode agree; what [ins] stores is what [idx] reads. *)
From S2P Require Import Prelude CostModel Fab FabSerial MerkleTree StateValue VmOps Vm VmSafety.
Set Warnings "-register-all".

(** ** Relating two runs

    [rel m1 m2 Q]: if the first call returns, so does the second, with results
    related by [Q]. *)
Definition rel {A B} (m1 : vm_result A) (m2 : vm_result B) (Q : A -> B -> Prop) : Prop :=
  forall a, m1 = Ok a -> exists b, m2 = Ok b /\ Q a b.

Lemma rel_refl {A} (m : vm_result A) : rel m m eq.
Proof. intros a H. eauto. Qed.
Lemma rel_ret {A B} (a : A) (b : B) (Q : A -> B -> Prop) : Q a b -> rel (Ok a) (Ok b) Q.
Proof. intros HQ x [= <-]. eauto. Qed.
Lemma rel_err {A B} e (m : vm_result B) (Q : A -> B -> Prop) : rel (Err e) m Q.
Proof. done. Qed.
Lemma rel_bind {A B C D} (m1 : vm_result A) (m2 : vm_result B) (f : A -> vm_result C)
    (g : B -> vm_result D) P Q :
  rel m1 m2 P -> (forall a b, P a b -> rel (f a) (g b) Q) -> rel (m1 ≫= f) (m2 ≫= g) Q.
Proof.
  intros Hm Hf c Hc. apply bind_Ok_inv in Hc as (a & Ea & Hc).
  destruct (Hm a Ea) as (b & -> & HP). exact (Hf a b HP c Hc).
Qed.
Lemma rel_bind_eq {A C D} (m1 m2 : vm_result A) (f : A -> vm_result C) (g : A -> vm_result D) Q :
  rel m1 m2 eq -> (forall a, rel (f a) (g a) Q) -> rel (m1 ≫= f) (m2 ≫= g) Q.
Proof. intros Hm Hf. eapply rel_bind; [exact Hm|]. intros a b <-. apply Hf. Qed.

(** ** Gas limits *)
Section limits.
  Context `{Hashing} {S : StateStorage} {R Event : Type} {M : ResultMode R Event}.
  Context (cm : VmCostModel) (l1 l2 : option RunningCost).
  Hypothesis Hl : forall g, within l1 g -> within l2 g.
  Implicit Types st : VmState Event.

Lemma rel_incr_full gas by_ : rel (incr_gas_full l1 gas by_) (incr_gas_full l2 gas by_) eq.
Proof using Hl.
  intros g Hg. exists g. split; [|done].
  assert (Hw : g = RunningCost_add gas by_ /\ within l1 g).
  { unfold incr_gas_full in Hg. destruct l1 as [l|]; [|by injection Hg as <-].
    destruct (_ || _) eqn:E; [done|]. injection Hg as <-. split; [done|].
    apply orb_false_iff in E as [E1 E2]. unfold within. lia. }
  destruct Hw as [-> Hw%Hl]. unfold incr_gas_full. destruct l2 as [l|]; [|done].
  destruct (_ || _) eqn:E; [|done]. unfold within in Hw. apply orb_true_iff in E as [E|E]; lia.
Qed.
Lemma rel_incr gas by_ : rel (incr_gas l1 gas by_) (incr_gas l2 gas by_) eq.
Proof using Hl. apply rel_incr_full. Qed.

(** The two runs differ in the limit only. *)
#[local] Ltac rel_go tac :=
  cbv beta;
  lazymatch goal with
  | |- rel ?m ?m eq => apply rel_refl
  | |- rel (mbind _ _) (mbind _ _) _ => apply rel_bind_eq; [rel_go tac|intros ?; rel_go tac]
  | |- rel (incr_gas _ _ _) _ _ => apply rel_incr
  | |- rel (incr_gas_full _ _ _) _ _ => apply rel_incr_full
  | |- rel (if ?b then _ else _) _ _ => destruct b; rel_go tac
  | |- rel (match ?x with _ => _ end) _ _ => destruct x; rel_go tac
  | |- _ => tac
  end.

Lemma rel_idx_loop cached push keys : forall curr stack cache gas,
  rel (idx_loop l1 cm cached push keys curr stack cache gas)
      (idx_loop l2 cm cached push keys curr stack cache gas) eq.
Proof using Hl.
  induction keys as [|key keys IH]; intros curr stack cache gas; simpl; [apply rel_refl|].
  rel_go ltac:(apply IH).
Qed.
Lemma rel_ins_loop cached k : forall curr stack cache gas,
  rel (ins_loop l1 cm cached k curr stack cache gas)
      (ins_loop l2 cm cached k curr stack cache gas) eq.
Proof using Hl.
  induction k as [|k IH]; intros curr stack cache gas; simpl; [apply rel_refl|].
  rel_go ltac:(apply IH).
Qed.

Lemma rel_exec_op (op : Op R) st : rel (exec_op l1 cm op st) (exec_op l2 cm op st) eq.
Proof using Hl.
  destruct op; cbn [exec_op];
    unfold charge, exec_lt, exec_eq, exec_type, exec_size, exec_new, exec_bool2, exec_neg,
      exec_log, exec_root, exec_pop, exec_popeq, exec_addi, exec_subi, exec_push, exec_add,
      exec_sub, exec_concat, exec_member, exec_rem, exec_dup, exec_swap, exec_idx, exec_ins;
    rel_go ltac:(first [apply rel_idx_loop | apply rel_ins_loop]).
Qed.

Lemma rel_run_loop fuel step_limit : forall steps (program : list (Op R)) st,
  rel (run_loop l1 cm fuel step_limit steps program st)
      (run_loop l2 cm fuel step_limit steps program st) eq.
Proof using Hl.
  induction fuel as [|fuel IH]; intros steps program st; destruct program as [|op rest];
    cbn [run_loop]; try apply rel_refl.
  destruct (match step_limit with Some _ => _ | None => _ end); [apply rel_refl|].
  apply rel_bind_eq.
  - unfold vm_step. destruct (_ <? _)%nat; [apply rel_refl|].
    apply rel_bind_eq; [apply rel_exec_op|]. intros st1. apply rel_refl.
  - intros [program' st']. apply IH.
Qed.
Lemma rel_run_program initial (program : list (Op R)) step_limit :
  rel (run_program_step_limited l1 cm initial program step_limit)
      (run_program_step_limited l2 cm initial program step_limit) eq.
Proof using Hl.
  unfold run_program_step_limited. apply rel_bind_eq; [apply rel_run_loop|]. intros. apply rel_refl.
Qed.
End limits.

(** ** Result modes *)
Definition log_of (e : GatherEvent) : option StateValue :=
  match e with Gather_Log v => Some v | Gather_Read _ => None end.
Definition read_of (e : GatherEvent) : option AlignedValue :=
  match e with Gather_Read v => Some v | Gather_Log _ => None end.
(** Forget the reads an instruction claims. *)
Definition erase (op : Op AlignedValue) : Op unit := translate (fun _ => tt) op.

Section modes.
  Context `{Hashing} {S : StateStorage} (lim : option RunningCost) (cm : VmCostModel).

(** The two runs agree on everything but the recorded reads. *)
Definition sim (sv : VmState StateValue) (sg : VmState GatherEvent) : Prop :=
  st_stack sv = st_stack sg /\ st_cache sv = st_cache sg /\ st_gas sv = st_gas sg /\
  st_events sv = omap log_of (st_events sg).

#[local] Ltac mode_go :=
  cbv beta;
  lazymatch goal with
  | |- rel (Ok _) (Ok _) _ => apply rel_ret
  | |- rel (Err _) _ _ => apply rel_err
  | |- rel Panic _ _ => intros ? ?; discriminate
  | |- rel (mbind _ ?m) (mbind _ ?m) _ =>
      apply rel_bind_eq; [apply rel_refl|intros ?; mode_go]
  | |- rel (if ?b then _ else _) _ _ => destruct b; mode_go
  | |- rel (match ?x with _ => _ end) _ _ => destruct x; mode_go
  | |- _ => idtac
  end.

Lemma push_event_log events v :
  push_event (omap log_of events) (Some v) = omap log_of (push_event events (Some (Gather_Log v))).
Proof. simpl. by rewrite omap_app. Qed.
Lemma push_event_read events v :
  push_event (omap log_of events) None = omap log_of (push_event events (Some (Gather_Read v))).
Proof. simpl. rewrite omap_app. simpl. by rewrite app_nil_r. Qed.

Lemma sim_exec_op op sv sg :
  sim sv sg -> rel (exec_op lim cm op sv) (exec_op lim cm (erase op) sg) sim.
Proof.
  destruct sv as [stack ev ca g], sg as [stack' ev' ca' g']. intros (Es & Ec & Eg & Ee).
  simpl in Es, Ec, Eg, Ee. subst stack' ca' g' ev.
  destruct op; unfold erase; cbn [exec_op translate];
    unfold charge, exec_lt, exec_eq, exec_type, exec_size, exec_new, exec_bool2, exec_neg,
      exec_log, exec_root, exec_pop, exec_addi, exec_subi, exec_push, exec_add,
      exec_sub, exec_concat, exec_member, exec_rem, exec_dup, exec_swap, exec_idx, exec_ins;
    cbn [st_stack st_events st_cache st_gas]; mode_go;
    try (split_and!; simpl; first [done | apply push_event_log]).
  unfold exec_popeq. cbn [st_stack st_events st_cache st_gas]. mode_go.
  cbn [process_read ResultModeVerify ResultModeGather].
  intros st1 Hst1. apply bind_Ok_inv in Hst1 as (e & He & Hst1).
  unfold verify_process_read in He. destruct (bool_decide _); [done|]. injection He as <-.
  injection Hst1 as <-. eexists. split; [reflexivity|].
  split_and!; try done. apply push_event_read.
Qed.

Lemma stack_req_erase op : stack_req (erase op) = stack_req op.
Proof. by destruct op. Qed.
Lemma sim_next_skip op sv sg :
  sim sv sg ->
  rel (next_skip op sv) (next_skip (erase op) sg) (fun a b => a.1 = b.1 /\ sim a.2 b.2).
Proof.
  destruct sv as [stack ev ca g], sg as [stack' ev' ca' g']. intros (Es & Ec & Eg & Ee).
  simpl in Es, Ec, Eg, Ee. subst stack' ca' g' ev.
  destruct op; unfold erase; cbn [next_skip translate st_stack st_events st_cache st_gas]; mode_go;
    by split_and!.
Qed.

Definition sim_step (a : list (Op AlignedValue) * VmState StateValue)
    (b : list (Op unit) * VmState GatherEvent) : Prop :=
  b.1 = map erase a.1 /\ sim a.2 b.2.
Lemma sim_vm_step op program sv sg :
  sim sv sg ->
  rel (vm_step lim cm op program sv) (vm_step lim cm (erase op) (map erase program) sg) sim_step.
Proof.
  intros Hs. unfold vm_step. rewrite stack_req_erase, length_map.
  replace (length (st_stack sg)) with (length (st_stack sv)) by (by rewrite (proj1 Hs)).
  destruct (_ <? _)%nat; [apply rel_err|].
  eapply rel_bind; [by apply sim_exec_op|]. intros sv1 sg1 Hs1.
  eapply rel_bind; [by apply sim_next_skip|]. intros [k sv2] [k' sg2] [Ek Hs2]. simpl in Ek, Hs2.
  subst k'. destruct (_ <? k); [apply rel_err|].
  replace (length (st_stack sg2)) with (length (st_stack sv2)) by (by rewrite (proj1 Hs2)).
  destruct (_ <? _)%nat; [apply rel_err|]. apply rel_ret. split; [|done]. simpl.
  change map with (@fmap list _). by rewrite fmap_drop.
Qed.
Lemma sim_run_loop fuel step_limit : forall steps program sv sg,
  sim sv sg ->
  rel (run_loop lim cm fuel step_limit steps program sv)
      (run_loop lim cm fuel step_limit steps (map erase program) sg) sim.
Proof.
  induction fuel as [|fuel IH]; intros steps program sv sg Hs; destruct program as [|op rest];
    cbn [run_loop map]; try (by apply rel_ret).
  - destruct (match step_limit with Some _ => _ | None => _ end); [by apply rel_ret|].
    intros ? ?; discriminate.
  - destruct (match step_limit with Some _ => _ | None => _ end); [by apply rel_ret|].
    eapply rel_bind; [exact (sim_vm_step op (op :: rest) sv sg Hs)|].
    intros [p' sv'] [q' sg'] [Hp Hs']. simpl in Hp. subst q'. by apply IH.
Qed.
Lemma sim_initial initial : sim (initial_state initial) (initial_state initial).
Proof. by split_and!. Qed.

(** *** From a gathering run to a verifying one *)
Definition straight {R} (op : Op R) : bool :=
  match op with Op_Branch _ | Op_Jmp _ => false | _ => true end.

(** The instruction with the read recorded for it, if it is a [popeq]; returns
    the reads left. *)
Definition fill_op (op : Op unit) (reads : list AlignedValue)
    : option (Op AlignedValue * list AlignedValue) :=
  match op with
  | Op_Popeq cached _ =>
      match reads with
      | r :: reads => Some (Op_Popeq cached r, reads)
      | [] => None
      end
  | _ => Some (translate (fun _ => av_of_unit) op, reads)
  end.
Fixpoint fill (program : list (Op unit)) (reads : list AlignedValue)
    : option (list (Op AlignedValue)) :=
  match program with
  | [] => Some []
  | op :: program =>
      '(op, reads) ← fill_op op reads;
      program ← fill program reads;
      Some (op :: program)
  end.

Lemma gather_exec_op op sv sg sg1 :
  sim sv sg -> exec_op lim cm op sg = Ok sg1 ->
  exists new, st_events sg1 = st_events sg ++ new /\
  forall rest, exists op', fill_op op (omap read_of new ++ rest) = Some (op', rest) /\
    exists sv1, exec_op lim cm op' sv = Ok sv1 /\ sim sv1 sg1.
Proof.
  destruct sv as [stack ev ca g], sg as [stack' ev' ca' g']. intros (Es & Ec & Eg & Ee).
  simpl in Es, Ec, Eg, Ee. subst stack' ca' g' ev.
  set (P sv1 sg1 := sim sv1 sg1 /\ exists new, st_events sg1 = ev' ++ new /\ omap read_of new = []).
  assert (K : forall op', rel (exec_op lim cm op (mkVmState stack ev' ca g))
        (exec_op lim cm op' (mkVmState stack (omap log_of ev') ca g)) (fun b a => P a b) ->
      (forall reads, fill_op op reads = Some (op', reads)) ->
      exec_op lim cm op (mkVmState stack ev' ca g) = Ok sg1 ->
      exists new, st_events sg1 = ev' ++ new /\
      forall rest, exists op', fill_op op (omap read_of new ++ rest) = Some (op', rest) /\
        exists sv1, exec_op lim cm op' (mkVmState stack (omap log_of ev') ca g) = Ok sv1 /\
                    sim sv1 sg1).
  { intros op' Hrel Hfill Hx. destruct (Hrel _ Hx) as (sv1 & Hv & Hsim & new & Hev & Hnew).
    exists new. split; [done|]. intros rest. exists op'. rewrite Hnew. eauto. }
  destruct op;
    try (eapply K; [|reflexivity]; clear K; cbn [exec_op translate];
    unfold charge, exec_lt, exec_eq, exec_type, exec_size, exec_new, exec_bool2, exec_neg,
      exec_log, exec_root, exec_pop, exec_addi, exec_subi, exec_push, exec_add,
      exec_sub, exec_concat, exec_member, exec_rem, exec_dup, exec_swap, exec_idx, exec_ins;
    cbn [st_stack st_events st_cache st_gas]; mode_go;
    (split; [by split_and!|exists []; simpl; by rewrite app_nil_r])).
  - eapply K; [|reflexivity]. clear K. cbn [exec_op translate]. unfold exec_log.
    cbn [st_stack st_events st_cache st_gas]. mode_go. cbn [process_log ResultModeGather ResultModeVerify].
    split; [split_and!; try done; apply push_event_log|]. by eexists [_].
  - clear K P. cbn [exec_op]. unfold exec_popeq. cbn [st_stack st_events st_cache st_gas].
    intros Hx. inv_binds. destruct a0 as [e rest0]. inv_binds.
    cbn [process_read ResultModeGather] in *. unfold gather_process_read in *. inv_binds.
    eexists [_]. split; [reflexivity|]. intros rest. simpl. eexists. split; [reflexivity|].
    cbn [exec_op]. unfold exec_popeq. cbn [st_stack st_events st_cache st_gas].
    rewrite E. cbn [mbind outcome_bind]. rewrite E0. cbn [mbind outcome_bind].
    rewrite E1. cbn [mbind outcome_bind]. rewrite E2. cbn [mbind outcome_bind].
    cbn [process_read ResultModeVerify]. unfold verify_process_read.
    rewrite bool_decide_eq_false_2 by tauto. eexists. split; [reflexivity|].
    split_and!; try done. apply push_event_read.
Qed.

Lemma fill_op_shape op reads op' reads' :
  straight op = true -> fill_op op reads = Some (op', reads') ->
  stack_req op' = stack_req op /\ straight op' = true.
Proof. destruct op, reads; simpl; intros; simplify_eq; done. Qed.

Lemma straight_next_skip {R Event} (op : Op R) (st : VmState Event) :
  straight op = true -> next_skip op st = Ok (1, st).
Proof. by destruct op. Qed.

(** One round on a straight instruction. *)
Lemma straight_vm_step {R Event} {M : ResultMode R Event} (op : Op R) rest st st1 :
  straight op = true ->
  exec_op lim cm op st = Ok st1 -> (stack_req op <= length (st_stack st))%nat ->
  (length (st_stack st1) <= MAX_STACK_HEIGHT)%nat ->
  vm_step lim cm op (op :: rest) st = Ok (rest, st1).
Proof.
  intros Hop Hx Hr Hm. unfold vm_step.
  destruct (Nat.ltb_spec (length (st_stack st)) (stack_req op)); [lia|]. rewrite Hx. simpl.
  rewrite straight_next_skip by done. simpl.
  destruct (Z.ltb_spec (Z.of_nat (Datatypes.S (length rest))) 1); [lia|].
  destruct (Nat.ltb_spec MAX_STACK_HEIGHT (length (st_stack st1))); [lia|done].
Qed.
Lemma straight_vm_step_inv {R Event} {M : ResultMode R Event} (op : Op R) rest st r :
  straight op = true -> vm_step lim cm op (op :: rest) st = Ok r ->
  exists st1, r = (rest, st1) /\ exec_op lim cm op st = Ok st1 /\
    (stack_req op <= length (st_stack st))%nat /\ (length (st_stack st1) <= MAX_STACK_HEIGHT)%nat.
Proof.
  intros Hop. unfold vm_step.
  destruct (Nat.ltb_spec (length (st_stack st)) (stack_req op)); [done|].
  intros Hx. apply bind_Ok_inv in Hx as (st1 & Hx & Hr). rewrite straight_next_skip in Hr by done.
  simpl in Hr. destruct (_ <? 1); [done|].
  destruct (Nat.ltb_spec MAX_STACK_HEIGHT (length (st_stack st1))); [done|].
  injection Hr as <-. exists st1. by split_and!.
Qed.

Lemma sim_unique sv sv' sg : sim sv sg -> sim sv' sg -> sv' = sv.
Proof.
  destruct sv, sv'. intros (? & ? & ? & ?) (? & ? & ? & ?). simpl in *. congruence.
Qed.

Lemma gather_run_loop fuel : forall steps program sv sg sg',
  Forall (fun op => straight op = true) program -> sim sv sg ->
  run_loop lim cm fuel None steps program sg = Ok sg' ->
  exists new, st_events sg' = st_events sg ++ new /\
  forall rest, exists p', fill program (omap read_of new ++ rest) = Some p' /\
    length p' = length program /\
    exists sv', run_loop lim cm fuel None steps p' sv = Ok sv' /\ sim sv' sg'.
Proof.
  induction fuel as [|fuel IH]; intros steps program sv sg sg' Hst Hs Hrun;
    destruct program as [|op rest0]; cbn [run_loop] in Hrun; try done.
  1,2: injection Hrun as <-; exists []; rewrite app_nil_r; split; [done|]; intros rest;
    exists []; split_and!; [done..|]; exists sv; by split.
  apply Forall_cons_1 in Hst as [Hop Hst].
  apply bind_Ok_inv in Hrun as (r & Hstep & Hrun).
  apply straight_vm_step_inv in Hstep as (sg1 & -> & Hx & Hreq & Hmax); [|done].
  destruct (gather_exec_op _ _ _ _ Hs Hx) as (n1 & Hev1 & Hop1).
  destruct (Hop1 []) as (_ & _ & sv1 & _ & Hsim1).
  destruct (IH _ _ _ _ _ Hst Hsim1 Hrun) as (n2 & Hev2 & Hrest).
  exists (n1 ++ n2). split; [by rewrite Hev2, Hev1, app_assoc|]. intros rest.
  rewrite omap_app, <- app_assoc.
  destruct (Hop1 (omap read_of n2 ++ rest)) as (op' & Hfill & sv1' & Hx' & Hsim1').
  assert (sv1' = sv1) by (by eapply sim_unique). subst sv1'.
  destruct (Hrest rest) as (p' & Hfp & Hlen & sv' & Hrun' & Hsim').
  destruct (fill_op_shape _ _ _ _ Hop Hfill) as [Hreq' Hop'].
  exists (op' :: p'). cbn [fill]. rewrite Hfill. simpl. rewrite Hfp. split_and!; [done|simpl; lia|].
  exists sv'. split; [|done].
  rewrite (straight_vm_step op' p' sv sv1); [done..| |].
  - rewrite Hreq'. by rewrite (proj1 Hs).
  - by rewrite (proj1 Hsim1).
Qed.
End modes.

(** ** Properties *)

(** A wider limit (or none). *)
Definition limit_le (l1 l2 : option RunningCost) : Prop :=
  match l1, l2 with
  | _, None => True
  | Some a, Some b => rc_compute_time a <= rc_compute_time b /\ rc_read_time a <= rc_read_time b
  | None, Some _ => False
  end.
Lemma limit_le_within l1 l2 : limit_le l1 l2 -> forall g, within l1 g -> within l2 g.
Proof. destruct l1, l2; simpl; try done; intros []; intros g []; split; lia. Qed.

Section props.
  Context `{Hashing} {S : StateStorage} {SL : StateStorageLaws S}.
  Context {R Event : Type} {M : ResultMode R Event} {ML : ResultModeLaws M}.

(** C16: Running a program terminates with a result or an error and never
    panics: no pop of an empty stack, no index out of range and no
    [unreachable!()] is reached, for every program over well-formed literals and
    every well-formed initial stack, with any gas or step limit. *)
Theorem run_program_no_panic (limit : option RunningCost) (cm : VmCostModel)
    (initial : list VmValue) (program : list (Op R)) (step_limit : option nat) :
  cm_wf cm -> within limit RunningCost_ZERO ->
  Forall (fun v => sv_wf 2 (vm_value v)) initial -> Forall op_wf program ->
  run_program_step_limited limit cm initial program step_limit <> Panic.
Proof using ML SL.
  intros Hcm Hw Hi Hp Hx. pose proof (run_program_safe limit cm Hcm initial program step_limit Hi Hp Hw)
    as Hs. by rewrite Hx in Hs.
Qed.

(** C17: The gas a successful run reports is within the limit, in compute and in
    read time, and is made of [u64]s. *)
Theorem run_program_within_gas (limit : RunningCost) (cm : VmCostModel)
    (initial : list VmValue) (program : list (Op R)) (res : VmResults Event) :
  cm_wf cm -> RunningCost_wf limit ->
  Forall (fun v => sv_wf 2 (vm_value v)) initial -> Forall op_wf program ->
  run_program (Some limit) cm initial program = Ok res ->
  rc_compute_time (res_gas_cost res) <= rc_compute_time limit /\
  rc_read_time (res_gas_cost res) <= rc_read_time limit /\ RunningCost_wf (res_gas_cost res).
Proof using ML SL.
  intros Hcm Hl Hi Hp Hx. unfold run_program in Hx.
  pose proof (run_program_safe (Some limit) cm Hcm initial program None Hi Hp) as Hs.
  rewrite Hx in Hs. destruct Hs as (_ & Hg & [? ?] & _); [|by split_and!].
  destruct Hl as (? & ? & _). unfold within, RunningCost_ZERO. simpl. ints.
Qed.

(** C34: A successful run that starts with well-formed values and literals leaves
    only well-formed values on the stack (aligned
    cells within [CELL_BOUND + 2] bytes, arrays of at most 16 entries, rehashed
    trees of height 1 to 32 with consistent structure, at any depth), and the
    stack is no higher than [MAX_STACK_HEIGHT] or the initial one. *)
Theorem run_program_preserves_wf (limit : option RunningCost) (cm : VmCostModel)
    (initial : list VmValue) (program : list (Op R)) (res : VmResults Event) :
  cm_wf cm -> within limit RunningCost_ZERO ->
  Forall (fun v => sv_wf 2 (vm_value v)) initial -> Forall op_wf program ->
  run_program limit cm initial program = Ok res ->
  Forall (fun v => sv_wf 2 (vm_value v)) (res_stack res) /\
  (length (res_stack res) <= Nat.max MAX_STACK_HEIGHT (length initial))%nat.
Proof using ML SL.
  intros Hcm Hw Hi Hp Hx. unfold run_program in Hx.
  pose proof (run_program_safe limit cm Hcm initial program None Hi Hp Hw) as Hs.
  rewrite Hx in Hs. destruct Hs as (? & _ & _ & ?). by split.
Qed.

(** A gas limit can abort a run but never changes its outcome: a run that
    succeeds under a limit succeeds with the same stack, events and gas under
    any wider limit and under none. *)
Theorem gas_limit_only_aborts (l1 l2 : option RunningCost) (cm : VmCostModel)
    (initial : list VmValue) (program : list (Op R)) (res : VmResults Event) :
  limit_le l1 l2 -> run_program l1 cm initial program = Ok res ->
  run_program l2 cm initial program = Ok res.
Proof.
  intros Hl Hx.
  destruct (rel_run_program cm l1 l2 (limit_le_within _ _ Hl) initial program None res Hx)
    as (res' & Hx' & <-). done.
Qed.
End props.

Section mode_props.
  Context `{Hashing} {S : StateStorage}.

(** A program that verifies also runs in gathering mode once its claimed
    reads are forgotten, with the same final stack, the same gas and the same
    logged values. *)
Theorem verify_implies_gather (limit : option RunningCost) (cm : VmCostModel)
    (initial : list VmValue) (program : list (Op AlignedValue)) (res : VmResults StateValue) :
  run_program limit cm initial program = Ok res ->
  exists res', run_program limit cm initial (map erase program) = Ok res' /\
    res_stack res' = res_stack res /\ res_gas_cost res' = res_gas_cost res /\
    omap log_of (res_events res') = res_events res.
Proof.
  unfold run_program, run_program_step_limited. rewrite length_map. intros Hx.
  apply bind_Ok_inv in Hx as (sv & Hx & [= <-]).
  destruct (sim_run_loop limit cm _ _ _ _ _ _ (sim_initial initial) _ Hx)
    as (sg & -> & Es & _ & Eg & Ee). simpl. eexists. split; [reflexivity|]. simpl.
  by rewrite Es, Eg, Ee.
Qed.

(** Conversely, gathering and then verifying succeeds: if a program without
    jumps runs in gathering mode, filling the recorded reads into its [popeq]s
    in order gives a program that verifies, with the same final stack, gas and
    logs. *)
Theorem gather_implies_verify (limit : option RunningCost) (cm : VmCostModel)
    (initial : list VmValue) (program : list (Op unit)) (res : VmResults GatherEvent) :
  Forall (fun op => straight op = true) program ->
  run_program limit cm initial program = Ok res ->
  exists filled res', fill program (omap read_of (res_events res)) = Some filled /\
    run_program limit cm initial filled = Ok res' /\
    res_stack res' = res_stack res /\ res_gas_cost res' = res_gas_cost res /\
    res_events res' = omap log_of (res_events res).
Proof.
  unfold run_program, run_program_step_limited. intros Hst Hx.
  apply bind_Ok_inv in Hx as (sg & Hx & [= <-]). simpl.
  destruct (gather_run_loop limit cm _ _ _ _ _ _ Hst (sim_initial initial) Hx)
    as (new & Hev & Hrest).
  destruct (Hrest []) as (p' & Hfill & Hlen & sv & Hrun & Es & _ & Eg & Ee).
  simpl in Hev. subst new. rewrite app_nil_r in Hfill.
  exists p'. eexists. split; [exact Hfill|]. rewrite Hlen, Hrun. simpl.
  split; [reflexivity|]. simpl. by rewrite Es, Eg, Ee.
Qed.

(** What reading back an inserted value gives: the value itself, or the hash it
    denotes in a tree. *)
Definition stored (container v : StateValue) : StateValue :=
  match container, v with
  | BoundedMerkleTree _, Cell x =>
      match hash_of_value (av_value x) with Ok h => Cell (av_of_hash h) | _ => v end
  | _, _ => v
  end.

(** What [ins] stores under a key is what [idx] finds under it, in maps,
    arrays and Merkle trees. *)
Theorem ins_then_idx (c c' v : StateValue) (key : AlignedValue) (s : ValueStrength) (cache : Cache) :
  sv_wf 2 c -> av_wf key -> ins_value c key v = Ok c' ->
  vm_idx (mkVmValue s c', None) key cache false = Ok ((mkVmValue s (stored c v), None), cache).
Proof.
  intros Hc Hkey Hins. unfold vm_idx. simpl. destruct c as [|w|m|a|t]; simpl in Hins; try done.
  - injection Hins as <-. simpl. by rewrite lookup_insert_eq.
  - apply bind_Ok_inv in Hins as (i & Hi & Hins).
    destruct (Nat.ltb_spec (Z.to_nat i) (length a)) as [Hlt|]; [|done]. injection Hins as <-. simpl.
    rewrite Hi. simpl. rewrite length_insert.
    assert (Hr : safe (decode (u8_of_value (av_value key))) is_u8) by apply safe_u8, Hkey.
    rewrite Hi in Hr. simpl in Hr.
    destruct (Z.leb_spec (Z.of_nat (length a)) i); [ints|].
    by rewrite list_lookup_insert_eq.
  - apply vwf_bmt in Hc as (Hwf & Hh & _).
    apply bind_Ok_inv in Hins as (i & Hi & Hins).
    assert (Hr : safe (decode (u64_of_value (av_value key))) is_u64) by apply safe_u64, Hkey.
    rewrite Hi in Hr. simpl in Hr.
    unfold checked_shl_u64 in *. replace (mt_height t <? 64) with true in Hins by lia.
    destruct (Z.ltb_spec i (Z.shiftl 1 (mt_height t))) as [Hlt|]; [|done].
    destruct v as [|x| | |]; simpl in Hins; try done.
    destruct (hash_of_value (av_value x)) as [h| |] eqn:Eh; simpl in Hins; try done.
    apply bind_Ok_inv in Hins as (t2 & Hup & [= <-]). unfold update_rehash in Hup.
    apply bind_Ok_inv in Hup as (t1 & Ht1 & Hre).
    pose proof (try_update_hash_rec_spec (mt_size t) t i h tt Hwf ltac:(lia) ltac:(ints)
      ltac:(lia)) as Hs. unfold try_update_hash in Ht1.
    destruct (try_update_hash_rec _ t i h tt) as [t1'|[]|]; simpl in Ht1; try done.
    injection Ht1 as ->. destruct Hs as (Hir & _ & _ & Hh1 & _ & Hix & _).
    destruct (@rehash_spec _ _ OnchainProgramError t1) as (t2' & E & _ & Hh2 & _ & _ & Hix2 & _).
    rewrite Hre in E. injection E as <-. rewrite Hi. simpl. rewrite Hh2, Hh1.
    replace (mt_height t <? 64) with true by lia.
    destruct (Z.leb_spec (Z.shiftl 1 (mt_height t)) i); [lia|].
    rewrite Hix2, Hix by ints. rewrite decide_True by done. by rewrite Eh.
Qed.
End mode_props.

(** ** Witnesses *)

(** A storage that reports every value as one node of one byte. *)
Definition toy_storage : StateStorage := {|
  StateValue_serialized_size _ := 1;
  serialize_to_node_list_bounded _ bound := if 33 <=? bound then Some [1] else None;
|}.
Lemma toy_storage_laws : StateStorageLaws toy_storage.
Proof.
  split; simpl; [lia|]. intros _ bound nodes. destruct (Z.leb_spec 33 bound); [|done].
  intros [= <-]. split; [repeat constructor; lia|]. vm_compute (foldr _ _ _). lia.
Qed.

Section witnesses.
#[local] Existing Instance toy_hashing.
#[local] Existing Instance toy_storage.
#[local] Existing Instance toy_storage_laws.

Definition toy_limit : RunningCost := mkRunningCost (2 ^ 40) (2 ^ 40) 0 0.
Definition toy_stack : list VmValue := [mkVmValue Strong (Map ∅)].
(** Store 8 under key 1 of the map, read it back and compare. *)
Definition toy_program : list (Op AlignedValue) :=
  [Op_Push false (Cell (av_of_u64 1)); Op_Push true (Cell (av_of_u64 5)); Op_Addi 3;
   Op_Ins false 1; Op_Dup 0; Op_Idx false false [Key_Value (av_of_u64 1)];
   Op_Popeq false (av_of_u64 8); Op_Size; Op_Log].

Lemma toy_cell_ok n : is_u64 n -> sv_wf 2 (Cell (av_of_u64 n)).
Proof. apply cell_u64. Qed.
Lemma toy_program_wf : Forall op_wf toy_program.
Proof.
  unfold toy_program. repeat apply Forall_cons; simpl; try done; try (by apply toy_cell_ok; ints);
    try ints; repeat constructor; by apply toy_cell_ok; ints.
Qed.
Lemma toy_stack_wf : Forall (fun v => sv_wf 2 (vm_value v)) toy_stack.
Proof. repeat constructor. simpl. apply map_Forall_empty. Qed.

Definition toy_run : VmResults StateValue :=
  match run_program (Some toy_limit) INITIAL_COST_MODEL toy_stack toy_program with
  | Ok r => r | _ => mkVmResults [] [] RunningCost_ZERO end.
Lemma toy_run_ok :
  run_program (Some toy_limit) INITIAL_COST_MODEL toy_stack toy_program = Ok toy_run.
Proof. vm_compute. reflexivity. Qed.

Lemma run_program_no_panic_witness :
  run_program_step_limited (Some toy_limit) INITIAL_COST_MODEL toy_stack toy_program (Some 4%nat)
    <> Panic.
Proof.
  apply run_program_no_panic.
  - apply INITIAL_COST_MODEL_wf.
  - vm_compute. split; congruence.
  - apply toy_stack_wf.
  - apply toy_program_wf.
Defined.
Lemma run_program_within_gas_witness :
  rc_compute_time (res_gas_cost toy_run) <= 2 ^ 40 /\ rc_read_time (res_gas_cost toy_run) <= 2 ^ 40.
Proof.
  destruct (run_program_within_gas toy_limit INITIAL_COST_MODEL toy_stack toy_program toy_run)
    as (Hc & Hr & _).
  - apply INITIAL_COST_MODEL_wf.
  - unfold RunningCost_wf. simpl. split_and!; ints.
  - apply toy_stack_wf.
  - apply toy_program_wf.
  - apply toy_run_ok.
  - by split.
Defined.
Lemma run_program_preserves_wf_witness :
  Forall (fun v => sv_wf 2 (vm_value v)) (res_stack toy_run).
Proof.
  apply (run_program_preserves_wf (Some toy_limit) INITIAL_COST_MODEL toy_stack toy_program toy_run).
  - apply INITIAL_COST_MODEL_wf.
  - vm_compute. split; congruence.
  - apply toy_stack_wf.
  - apply toy_program_wf.
  - apply toy_run_ok.
Defined.
Lemma gas_limit_only_aborts_witness :
  run_program None INITIAL_COST_MODEL toy_stack toy_program = Ok toy_run.
Proof. apply (gas_limit_only_aborts (Some toy_limit) None); [done|apply toy_run_ok]. Defined.
Lemma verify_implies_gather_witness :
  exists res', run_program (Some toy_limit) INITIAL_COST_MODEL toy_stack (map erase toy_program)
                 = Ok res' /\ res_stack res' = res_stack toy_run.
Proof.
  destruct (verify_implies_gather (Some toy_limit) INITIAL_COST_MODEL toy_stack toy_program toy_run
    toy_run_ok) as (res' & E & Es & _). exists res'. by split.
Defined.
Lemma gather_implies_verify_witness :
  exists filled, fill (map erase toy_program) [av_of_u64 8] = Some filled /\
    is_ok (run_program (Some toy_limit) INITIAL_COST_MODEL toy_stack filled) = true.
Proof.
  destruct (run_program (Some toy_limit) INITIAL_COST_MODEL toy_stack (map erase toy_program))
    as [res| |] eqn:E; [|vm_compute in E; discriminate..].
  destruct (gather_implies_verify (Some toy_limit) INITIAL_COST_MODEL toy_stack
    (map erase toy_program) res) as (filled & res' & Hf & Hr & _); [|exact E|].
  - repeat constructor.
  - exists filled. rewrite Hr. split; [|done]. rewrite <- Hf. f_equal.
    vm_compute in E. injection E as <-. vm_compute. reflexivity.
Defined.
Lemma ins_then_idx_witness :
  vm_idx (mkVmValue Strong (Map {[ av_of_u64 7 := Null ]}), None) (av_of_u64 7) [] false
  = Ok ((mkVmValue Strong Null, None), []).
Proof.
  apply (ins_then_idx (Map ∅) _ Null).
  - constructor. apply map_Forall_empty.
  - apply av_of_u64_wf. ints.
  - vm_compute. reflexivity.
Defined.

(** Two cells of 16384 bytes each. *)
Definition half_cell : AlignedValue :=
  mkAlignedValue [replicate (Z.to_nat 16378) 1] [Atom (Bytes 16378)].

(** [concat] can build a cell larger than [CELL_BOUND]: the bound is compared
    with the sum of the operands' sizes, and joining two singletons adds two
    header bytes.  The result is a value that [StateValue::invariant] rejects,
    although both operands satisfy it. *)
Theorem concat_exceeds_cell_bound :
  exists r gas,
    StateValue_invariant (Cell half_cell) = Ok tt /\
    run_program (R := unit) (Event := GatherEvent) None INITIAL_COST_MODEL
      [mkVmValue Strong (Cell half_cell); mkVmValue Strong (Cell half_cell)]
      [Op_Concat false CELL_BOUND] = Ok (mkVmResults [mkVmValue Strong (Cell r)] [] gas) /\
    AlignedValue_serialized_size r = CELL_BOUND + 2 /\
    StateValue_invariant (Cell r) = Err (InvalidData "Cell exceeded maximum bound").
Proof.
  exists (AlignedValue_concat [half_cell; half_cell]), (mkRunningCost 0
    (affine (cm_concat_constant INITIAL_COST_MODEL) (cm_concat_coeff_total_size INITIAL_COST_MODEL)
       CELL_BOUND) 0 0).
  split_and!; vm_compute; reflexivity.
Qed.
End witnesses.
