(* ===== verification/Runtime.v ===== *)
(** * The contract runtime ([onchain-runtime/src/context.rs], [transcript.rs], [error.rs])

    Running a transcript against a contract: the call context and the effects
    go on the VM stack as state values, the program runs, and the effects and
    the new state are read back from the final stack.  The new state is charged
    for the storage it adds ([ChargedState] of [onchain-state/src/state.rs]). *)
From S2P Require Import Prelude CostModel Fab FabSerial MerkleTree StateValue VmOps Vm Coin DeltaTracking.
Set Warnings "-register-all".

Abbreviation ContractAddress := HashOutput.
Abbreviation Nullifier := HashOutput.
Abbreviation CoinCommitment := HashOutput.

(** ** What the runtime uses of the storage arena

    [as_child] is the arena key of a value, [direct_key_size] the serialized
    size of a direct key, [arena_nodes charged new] the nodes the arena holds
    once the value [new] is allocated next to the charged nodes.  [map_iter] is
    the order in which a state map lists its entries. *)
Class StateArena := {
  as_child : StateValue -> ArenaKey;
  direct_key_size : ArenaKey -> Z;
  arena_nodes : RcMap -> StateValue -> Backend;
  map_iter : gmap AlignedValue StateValue -> list (AlignedValue * StateValue);
}.
Class StateArenaLaws `{StateArena} : Prop := {
  map_iter_perm : forall m, map_iter m ≡ₚ map_to_list m;
}.

Section charged.
Context `{StateArena} {E : Type}.

Record ChargedState := { cs_state : StateValue; charged_keys : RcMap }.
Definition ChargedState_new (state : StateValue) : outcome E ChargedState :=
  res ← initial_write_delete_costs (arena_nodes RcMap_default state) direct_key_size [as_child state]
          (fun _ _ => RunningCost_ZERO);
  Ok {| cs_state := state; charged_keys := wd_updated_charged_keys res |}.
Definition ChargedState_update (self : ChargedState) (new_state : StateValue)
    (cpu_cost : Z -> Z -> RunningCost) (gc_limit : RunningCost -> nat) : outcome E (ChargedState * RunningCost) :=
  results ← incremental_write_delete_costs (arena_nodes (charged_keys self) new_state) direct_key_size
              (charged_keys self) [as_child new_state] cpu_cost gc_limit;
  Ok ({| cs_state := new_state; charged_keys := wd_updated_charged_keys results |}, wd_running_cost results).
End charged.

(** ** Contexts and effects *)
Record CallContext := {
  own_address : ContractAddress;
  cc_tblock : Z;
  cc_tblock_err : Z;
  cc_parent_block_hash : HashOutput;
  caller : option PublicAddress;
  cc_balance : gmap TokenType Z;
  com_indices : gmap CoinCommitment Z;
  cc_last_block_time : Z
}.
Definition HashOutput_default : HashOutput := replicate 32 0.
Definition CallContext_default : CallContext := {|
  own_address := HashOutput_default; cc_tblock := 0; cc_tblock_err := 0;
  cc_parent_block_hash := HashOutput_default; caller := None; cc_balance := ∅; com_indices := ∅;
  cc_last_block_time := 0 |}.
Record BlockContext := {
  tblock : Z;
  tblock_err : Z;
  parent_block_hash : HashOutput;
  last_block_time : Z
}.

Record ClaimedUnshieldedSpendsKey := { cus_token : TokenType; cus_address : PublicAddress }.
#[global] Instance ClaimedUnshieldedSpendsKey_eq_dec : EqDecision ClaimedUnshieldedSpendsKey.
Proof. solve_decision. Defined.
#[global] Instance ClaimedUnshieldedSpendsKey_countable : Countable ClaimedUnshieldedSpendsKey.
Proof.
  apply (inj_countable' (fun k => (cus_token k, cus_address k))
    (fun p => {| cus_token := p.1; cus_address := p.2 |})). by intros [].
Defined.
Record ClaimedContractCallsValue := {
  ccv_seq : Z;
  ccv_address : ContractAddress;
  ccv_ep_hash : HashOutput;
  ccv_comm : Z
}.
#[global] Instance ClaimedContractCallsValue_eq_dec : EqDecision ClaimedContractCallsValue.
Proof. solve_decision. Defined.
#[global] Instance ClaimedContractCallsValue_countable : Countable ClaimedContractCallsValue.
Proof.
  apply (inj_countable' (fun k => (ccv_seq k, ccv_address k, ccv_ep_hash k, ccv_comm k))
    (fun '(a, b, c, d) => {| ccv_seq := a; ccv_address := b; ccv_ep_hash := c; ccv_comm := d |})).
  by intros [].
Defined.

Definition ClaimedUnshieldedSpendsKey_value (val : ClaimedUnshieldedSpendsKey) : Value :=
  TokenType_value (cus_token val) ++ PublicAddress_value (cus_address val).
Definition ClaimedUnshieldedSpendsKey_of_value (value : Value)
    : outcome InvalidBuiltinDecode ClaimedUnshieldedSpendsKey :=
  if (length value =? 6)%nat then
    token ← TokenType_of_value (take 3 value);
    address ← PublicAddress_of_value (drop 3 value);
    Ok {| cus_token := token; cus_address := address |}
  else Err "ClaimedUnshieldedSpendsKey".
Definition b_spends_key : Builtin ClaimedUnshieldedSpendsKey := {|
  bt_value := ClaimedUnshieldedSpendsKey_value;
  bt_of_value := ClaimedUnshieldedSpendsKey_of_value;
  bt_alignment := TokenType_alignment ++ PublicAddress_alignment |}.

Definition ClaimedContractCallsValue_value (val : ClaimedContractCallsValue) : Value :=
  [uint_atom (ccv_seq val); hash_atom (ccv_address val); hash_atom (ccv_ep_hash val); fr_atom (ccv_comm val)].
Definition ClaimedContractCallsValue_of_value `{FieldOrder} (value : Value)
    : outcome InvalidBuiltinDecode ClaimedContractCallsValue :=
  match value with
  | [v0; v1; v2; v3] =>
      seq ← uint_try_from u64_max "u64" v0;
      address ← hash_newtype_try_from "ContractAddress" v1;
      ep_hash ← hash_try_from v2;
      comm ← fr_try_from v3;
      Ok {| ccv_seq := seq; ccv_address := address; ccv_ep_hash := ep_hash; ccv_comm := comm |}
  | _ => Err "ClaimedContractCallsValue"
  end.
Definition b_calls_value `{FieldOrder} : Builtin ClaimedContractCallsValue := {|
  bt_value := ClaimedContractCallsValue_value;
  bt_of_value := ClaimedContractCallsValue_of_value;
  bt_alignment := u64_alignment ++ hash_alignment ++ hash_alignment ++ field_alignment |}.
Definition b_hash_output : Builtin HashOutput := {|
  bt_value h := [hash_atom h]; bt_of_value := hash_of_value; bt_alignment := hash_alignment |}.

Record Effects := {
  claimed_nullifiers : gset Nullifier;
  claimed_shielded_receives : gset CoinCommitment;
  claimed_shielded_spends : gset CoinCommitment;
  claimed_contract_calls : gset ClaimedContractCallsValue;
  shielded_mints : gmap HashOutput Z;
  unshielded_mints : gmap HashOutput Z;
  unshielded_inputs : gmap TokenType Z;
  unshielded_outputs : gmap TokenType Z;
  claimed_unshielded_spends : gmap ClaimedUnshieldedSpendsKey Z
}.
Definition Effects_default : Effects := {|
  claimed_nullifiers := ∅; claimed_shielded_receives := ∅; claimed_shielded_spends := ∅;
  claimed_contract_calls := ∅; shielded_mints := ∅; unshielded_mints := ∅;
  unshielded_inputs := ∅; unshielded_outputs := ∅; claimed_unshielded_spends := ∅ |}.
#[global] Instance Effects_eq_dec : EqDecision Effects.
Proof. solve_decision. Defined.

(** ** Errors *)
Inductive TranscriptRejected :=
| Execution (err : OnchainProgramError)
| TR_Decode (err : InvalidBuiltinDecode)
| FinalStackWrongLength
| WeakStateReturned
| EffectDecodeError.
Abbreviation tr_result := (outcome TranscriptRejected).

(** ** Effects as a VM value, and back *)

(** [collect] into a map: later entries replace earlier ones. *)
Definition collect_map {K V} `{Countable K} (l : list (K * V)) : gmap K V :=
  foldl (fun m kv => <[kv.1 := kv.2]> m) ∅ l.

Definition set_value {A} `{Countable A} (b : Builtin A) (s : gset A) : StateValue :=
  Map (collect_map ((fun k => (bt_av b k, Null)) <$> elements s)).
Definition map_value {K} `{Countable K} (bk : Builtin K) (bv : Builtin Z) (m : gmap K Z) : StateValue :=
  Map (collect_map ((fun kv => (bt_av bk kv.1, Cell (bt_av bv kv.2))) <$> map_to_list m)).

Section runtime.
Context `{Hashing} {FO : FieldOrder} {SS : StateStorage} {SA : StateArena}.

Definition Effects_value (eff : Effects) : VmValue :=
  mkVmValue Weak (Array [
    set_value (b_hash "Nullifier") (claimed_nullifiers eff);
    set_value (b_hash "Commitment") (claimed_shielded_receives eff);
    set_value (b_hash "Commitment") (claimed_shielded_spends eff);
    set_value b_calls_value (claimed_contract_calls eff);
    map_value b_hash_output b_u64 (shielded_mints eff);
    map_value b_hash_output b_u64 (unshielded_mints eff);
    map_value b_token_type b_u128 (unshielded_inputs eff);
    map_value b_token_type b_u128 (unshielded_outputs eff);
    map_value b_spends_key b_u128 (claimed_unshielded_spends eff)]).

(** One entry of [map_from]; [dv] is [V::default()]. *)
Definition entry_from {K V} (bk : Builtin K) (bv : Builtin V) (dv : V) (kv : AlignedValue * StateValue)
    : tr_result (K * V) :=
  v ← match kv.2 with
      | Cell v => map_err TR_Decode (bt_of_value bv (av_value v))
      | Null => Ok dv
      | _ => Err EffectDecodeError
      end;
  k ← map_err TR_Decode (bt_of_value bk (av_value kv.1));
  Ok (k, v).
Definition insert_entry {K V} `{Countable K} (bk : Builtin K) (bv : Builtin V) (dv : V) (m : gmap K V)
    (kv : AlignedValue * StateValue) : tr_result (gmap K V) :=
  e ← entry_from bk bv dv kv; Ok (<[e.1 := e.2]> m).
Definition map_from {K V} `{Countable K} (bk : Builtin K) (bv : Builtin V) (dv : V) (st : StateValue)
    : tr_result (gmap K V) :=
  match st with
  | Map m => try_fold (insert_entry bk bv dv) ∅ (map_iter m)
  | _ => Err EffectDecodeError
  end.
Definition Effects_of_value (val : VmValue) : tr_result Effects :=
  match vm_value val with
  | Array [a0; a1; a2; a3; a4; a5; a6; a7; a8] =>
      m0 ← map_from (b_hash "Nullifier") b_unit tt a0;
      m1 ← map_from (b_hash "Commitment") b_unit tt a1;
      m2 ← map_from (b_hash "Commitment") b_unit tt a2;
      m3 ← map_from b_calls_value b_unit tt a3;
      m4 ← map_from b_hash_output b_u64 0 a4;
      m5 ← map_from b_hash_output b_u64 0 a5;
      m6 ← map_from b_token_type b_u128 0 a6;
      m7 ← map_from b_token_type b_u128 0 a7;
      m8 ← map_from b_spends_key b_u128 0 a8;
      Ok {| claimed_nullifiers := dom m0; claimed_shielded_receives := dom m1;
            claimed_shielded_spends := dom m2; claimed_contract_calls := dom m3;
            shielded_mints := m4; unshielded_mints := m5; unshielded_inputs := m6;
            unshielded_outputs := m7; claimed_unshielded_spends := m8 |}
  | _ => Err EffectDecodeError
  end.

(** ** Queries *)
Record QueryContext := {
  qc_state : ChargedState;
  qc_effects : Effects;
  qc_address : ContractAddress;
  call_context : CallContext
}.
Record QueryResults (Event : Type) := {
  qr_context : QueryContext;
  qr_events : list Event;
  qr_gas_cost : RunningCost
}.
Arguments qr_context {Event}. Arguments qr_events {Event}. Arguments qr_gas_cost {Event}.

Definition QueryContext_new (state : ChargedState) (address : ContractAddress) : QueryContext :=
  {| qc_state := state; qc_effects := Effects_default; qc_address := address; call_context := CallContext_default |}.

Definition QueryContext_value (context : QueryContext) : VmValue :=
  let cc := call_context context in
  mkVmValue Weak (Array [
    Cell (bt_av (b_hash "ContractAddress") (qc_address context));
    map_value (b_hash "Commitment") b_u64 (com_indices cc);
    Cell (bt_av b_u64 (cc_tblock cc));
    Cell (bt_av b_u32 (cc_tblock_err cc));
    Cell (bt_av b_hash_output (cc_parent_block_hash cc));
    map_value b_token_type b_u128 (cc_balance cc);
    match caller cc with Some x => Cell (bt_av b_public_address x) | None => Null end;
    Cell (bt_av b_u64 (cc_last_block_time cc))]).
Definition to_vm_stack (self : QueryContext) : list VmValue :=
  [QueryContext_value self; Effects_value (qc_effects self); mkVmValue Strong (cs_state (qc_state self))].

(** The derived order on [RunningCost]: lexicographic in the order of its fields. *)
Definition RunningCost_gt (a b : RunningCost) : bool :=
  (rc_read_time b <? rc_read_time a) || ((rc_read_time a =? rc_read_time b) &&
  ((rc_compute_time b <? rc_compute_time a) || ((rc_compute_time a =? rc_compute_time b) &&
  ((rc_bytes_written b <? rc_bytes_written a) || ((rc_bytes_written a =? rc_bytes_written b) &&
   (rc_bytes_deleted b <? rc_bytes_deleted a)))))).

Definition update_cpu_cost (cm : VmCostModel) (writes deletes : Z) : RunningCost :=
  let add := CostDuration_add in let mul := CostDuration_mul in
  RunningCost_compute
    (add (add (add (add (add (cm_gc_rcmap_constant cm)
      (mul (cm_gc_rcmap_coeff_keys_removed_size cm) deletes))
      (cm_update_rcmap_constant cm))
      (mul (cm_update_rcmap_coeff_keys_added_size cm) writes))
      (cm_get_writes_constant cm))
      (mul (cm_get_writes_coeff_keys_added_size cm) writes)).
Definition update_gc_limit (cm : VmCostModel) (budget : RunningCost) : nat :=
  Z.to_nat (trunc u64_max (into_atomic_units
    (CostDuration_div (rc_compute_time budget) (cm_gc_rcmap_coeff_keys_removed_size cm)) 1)).

Definition query {R Event} {M : ResultMode R Event} (self : QueryContext) (program : list (Op R))
    (gas_limit : option RunningCost) (cm : VmCostModel) : tr_result (QueryResults Event) :=
  res ← map_err Execution (run_program gas_limit cm (to_vm_stack self) program);
  match res_stack res with
  | [_; effects_val; state_val] =>
      match vm_strength state_val with
      | Weak => Err WeakStateReturned
      | Strong =>
          effects ← Effects_of_value effects_val;
          '(new_charged_state, state_cost) ←
            ChargedState_update (qc_state self) (vm_value state_val) (update_cpu_cost cm) (update_gc_limit cm);
          let gas_cost := RunningCost_add (res_gas_cost res) state_cost in
          if match gas_limit with Some gas_limit => RunningCost_gt gas_cost gas_limit | None => false end
          then Err (Execution OutOfGas)
          else Ok {| qr_context := {| qc_state := new_charged_state; qc_effects := effects;
                                      qc_address := qc_address self; call_context := call_context self |};
                     qr_events := res_events res; qr_gas_cost := gas_cost |}
      end
  | _ => Err FinalStackWrongLength
  end.

(** ** Transcripts *)
Record Transcript := {
  t_gas : RunningCost;
  t_effects : Effects;
  t_program : list (Op AlignedValue);
  t_version : option (Z * Z)
}.
Definition Transcript_VERSION : Z * Z := (2, 3).
Definition run_transcript (self : QueryContext) (transcript : Transcript) (cm : VmCostModel)
    : tr_result (QueryResults StateValue) :=
  query self (t_program transcript) (Some (t_gas transcript)) cm.
End runtime.
Arguments qr_context {Event}.
Arguments qr_events {Event}.
Arguments qr_gas_cost {Event}.
