(* ===== verification/RuntimeProps.v ===== *)
(** * Correctness of the contract runtime

    Effects survive the trip through the VM stack, queries never panic and keep
    the charged keys exact, and what a gas limit enforces. *)
From S2P Require Import Prelude CostModel Fab FabSerial MerkleTree StateValue VmOps Vm VmSafety VmProps Coin DeltaTracking DeltaProps Runtime.
Set Warnings "-register-all".

(** ** Collecting entries into maps *)
Section collect.
Context {K V : Type} `{Countable K}.
Implicit Types (l : list (K * V)).

Lemma collect_foldl l (m : gmap K V) :
  NoDup l.*1 -> (forall k, k ∈ l.*1 -> m !! k = None) ->
  foldl (fun m kv => <[kv.1 := kv.2]> m) m l = list_to_map l ∪ m.
Proof.
  revert m. induction l as [|[k v] l IH]; intros m Hnd Hm; simpl; [by rewrite (left_id_L ∅ (∪))|].
  apply list.NoDup_cons in Hnd as [Hk Hnd]. simpl in Hk. rewrite IH; [|done|].
  - rewrite <- insert_union_r; [by rewrite insert_union_l|]. by apply not_elem_of_list_to_map_1.
  - intros k' Hk'. simpl. rewrite lookup_insert_ne by (intros <-; done). apply Hm. by right.
Qed.
Lemma collect_map_nodup l : NoDup l.*1 -> collect_map l = list_to_map l.
Proof.
  intros. unfold collect_map. rewrite collect_foldl; [by rewrite (right_id_L ∅ (∪))|done|]. intros; apply lookup_empty.
Qed.
End collect.

(** ** The laws of the runtime's builtin types *)
Definition spends_key_wf (k : ClaimedUnshieldedSpendsKey) : Prop :=
  TokenType_wf (cus_token k) /\ PublicAddress_wf (cus_address k).
Definition calls_value_wf `{FieldOrder} (v : ClaimedContractCallsValue) : Prop :=
  is_u64 (ccv_seq v) /\ hash_wf (ccv_address v) /\ hash_wf (ccv_ep_hash v) /\ fr_wf (ccv_comm v).

Lemma b_hash_output_laws : BuiltinLaws b_hash_output hash_wf.
Proof.
  destruct (b_hash_laws "HashOutput") as [H1 H2 H3]. split; [|exact H2|].
  - intros h Hh. specialize (H1 h Hh). exact H1.
  - intros v. apply (H3 v).
Qed.
Lemma b_spends_key_laws : BuiltinLaws b_spends_key spends_key_wf.
Proof.
  destruct b_token_type_laws as [T1 T2 T3], b_public_address_laws as [P1 P2 P3]. split.
  - intros [t a] [Ht Ha]. simpl in *. specialize (T1 t Ht). specialize (P1 a Ha).
    unfold ClaimedUnshieldedSpendsKey_of_value, ClaimedUnshieldedSpendsKey_value. simpl.
    assert (Hl : length (TokenType_value t) = 3%nat /\ length (PublicAddress_value a) = 3%nat) by (by destruct t, a).
    destruct Hl as [Hl1 Hl2]. rewrite length_app, Hl1, Hl2. simpl.
    rewrite take_app_length', drop_app_length' by done. simpl in T1, P1. rewrite T1. simpl. by rewrite P1.
  - intros [t a] [Ht Ha]. specialize (T2 t Ht). specialize (P2 a Ha).
    pose proof (av_concat_wf [bt_av b_token_type t; bt_av b_public_address a]) as Hc.
    unfold AlignedValue_concat in Hc. simpl in Hc. rewrite !app_nil_r in Hc. apply Hc. constructor; [exact T2|constructor; [exact P2|constructor]].
  - intros v. simpl. unfold ClaimedUnshieldedSpendsKey_of_value. case_match; [|done].
    apply bind_no_panic; [apply (T3 (take 3 v))|]. intros t. apply bind_no_panic; [apply (P3 (drop 3 v))|]. done.
Qed.
Lemma fr_no_panic `{FieldOrder} a : fr_try_from a <> Panic.
Proof. unfold fr_try_from. case_match; [|done]. by destruct (fr_from_le_bytes a). Qed.
Lemma hash_no_panic a : hash_try_from a <> Panic.
Proof. unfold hash_try_from. by case_match. Qed.
#[export] Hint Resolve fr_no_panic hash_no_panic : no_panic.
Lemma fr_atom_ok x : atom_fits Field (fr_atom x) = true /\ bytes_wf (fr_atom x).
Proof.
  pose proof (cell_fr x) as Hc. inv Hc as [|? Hw _| | |]. destruct Hw as [Ha Hb].
  split; [|by apply Forall_cons_1 in Hb as [? _]].
  pose proof (length_normalize (to_le_bytes 32 x)) as Hl. rewrite length_to_le_bytes in Hl.
  unfold atom_fits, fr_atom, FR_BYTE_LEN. rewrite normalize_normal, andb_true_r. apply Nat.leb_le. unfold FIELD_BYTE_LIMIT. lia.
Qed.
Lemma b_calls_value_laws `{FieldOrderLaws} : BuiltinLaws b_calls_value calls_value_wf.
Proof.
  split.
  - intros [s a e c] (Hs & Ha & He & Hc).
    cbn [bt_of_value bt_value b_calls_value ClaimedContractCallsValue_value ClaimedContractCallsValue_of_value
         ccv_seq ccv_address ccv_ep_hash ccv_comm] in *.
    rewrite (uint_atom_decode u64_max "u64" s ltac:(ints) Hs). cbn [mbind outcome_bind].
    rewrite (hash_newtype_decode _ _ Ha). cbn [mbind outcome_bind].
    change (hash_try_from (hash_atom e)) with (hash_newtype_try_from "HashOutput" (hash_atom e)).
    rewrite (hash_newtype_decode _ _ He). cbn [mbind outcome_bind]. rewrite (fr_atom_decode _ Hc). reflexivity.
  - intros [s a e c] (Hs & Ha & He & Hc). cbn [ccv_seq ccv_address ccv_ep_hash ccv_comm] in *.
    apply (atoms_wf [(Bytes 8, uint_atom s); (Bytes 32, hash_atom a); (Bytes 32, hash_atom e); (Field, fr_atom c)]).
    assert (Hb : 0 <= s < 256 ^ Z.of_nat 8) by (change (256 ^ Z.of_nat 8) with (u64_max + 1); ints).
    constructor; [apply (uint_atom_ok 8 s ltac:(lia) Hb)|]. constructor; [apply (hash_atom_ok a Ha)|].
    constructor; [apply (hash_atom_ok e He)|]. constructor; [apply fr_atom_ok|constructor].
  - intros v. simpl. destruct v as [|v0 [|v1 [|v2 [|v3 [|]]]]]; try done. cbn [ClaimedContractCallsValue_of_value]. no_panic.
Qed.

(** ** Maps of encoded entries decode to the map *)
Section roundtrip.
Context {SA : StateArena} {SL : StateArenaLaws}.
Context {K V : Type} `{Countable K} (bk : Builtin K) (bv : Builtin V) (dv : V).
Context (okK : K -> Prop) (LK : BuiltinLaws bk okK).

Lemma bt_av_nodup (l : list K) : Forall okK l -> NoDup l -> NoDup (bt_av bk <$> l).
Proof using LK.
  intros Hok Hnd. apply (NoDup_fmap_2_strong _ _); [|done]. intros x y Hx Hy Heq.
  rewrite list.Forall_forall in Hok. injection Heq as Heq.
  pose proof (bt_roundtrip _ _ LK x (Hok x Hx)). rewrite Heq, (bt_roundtrip _ _ LK y (Hok y Hy)) in *. congruence.
Qed.
Lemma map_from_encoded (enc : V -> StateValue) (l : list (K * V)) :
  NoDup l.*1 -> Forall okK l.*1 ->
  (forall k v, (k, v) ∈ l -> entry_from bk bv dv (bt_av bk k, enc v) = Ok (k, v)) ->
  map_from bk bv dv (Map (collect_map ((fun kv => (bt_av bk kv.1, enc kv.2)) <$> l))) = Ok (list_to_map l).
Proof using LK SL.
  intros Hnd Hok Hdec.
  assert (Hk : ((fun kv => (bt_av bk kv.1, enc kv.2)) <$> l).*1 = bt_av bk <$> l.*1).
  { by rewrite <- !list_fmap_compose. }
  assert (Hndk : NoDup ((fun kv => (bt_av bk kv.1, enc kv.2)) <$> l).*1) by (rewrite Hk; by apply bt_av_nodup).
  rewrite collect_map_nodup by done. unfold map_from.
  assert (Hp : map_iter (list_to_map ((fun kv => (bt_av bk kv.1, enc kv.2)) <$> l)) ≡ₚ
               (fun kv => (bt_av bk kv.1, enc kv.2)) <$> l).
  { rewrite map_iter_perm. by apply map_to_list_to_map. }
  apply Permutation_map_inv in Hp as (l' & -> & Hl').
  rewrite (list_to_map_proper l l' Hnd Hl'). rewrite <- collect_map_nodup by (by rewrite <- Hl').
  assert (Hdec' : forall k v, (k, v) ∈ l' -> entry_from bk bv dv (bt_av bk k, enc v) = Ok (k, v)).
  { intros k v. rewrite <- Hl'. apply Hdec. }
  clear Hdec Hk Hndk Hl' Hnd Hok. unfold collect_map. generalize (∅ : gmap K V).
  induction l' as [|[k v] l' IH]; intros m; [done|].
  assert (Hstep : insert_entry bk bv dv m (bt_av bk k, enc v) = Ok (<[k := v]> m)).
  { unfold insert_entry. rewrite Hdec' by left. done. }
  simpl. rewrite Hstep. simpl. apply IH. intros. apply Hdec'. by right.
Qed.
End roundtrip.

#[local] Arguments set_value : simpl never.
#[local] Arguments map_value : simpl never.
#[local] Arguments map_from : simpl never.

Section effects.
Context {FO : FieldOrder} {FL : FieldOrderLaws} {SA : StateArena} {SL : StateArenaLaws}.

Lemma set_roundtrip {A} `{Countable A} (b : Builtin A) ok (s : gset A) :
  BuiltinLaws b ok -> set_Forall ok s ->
  exists m, map_from b b_unit tt (set_value b s) = Ok m /\ dom m = s.
Proof using SL.
  intros LB Hok. exists (list_to_map ((fun k => (k, tt)) <$> elements s)).
  assert (Hf : ((fun k => (k, tt)) <$> elements s).*1 = elements s) by (rewrite <- list_fmap_compose; apply list_fmap_id).
  split.
  - unfold set_value.
    replace ((fun k => (bt_av b k, Null)) <$> elements s)
      with ((fun kv => (bt_av b kv.1, (fun _ : unit => Null) kv.2)) <$> ((fun k => (k, tt)) <$> elements s))
      by (by rewrite <- list_fmap_compose).
    apply (map_from_encoded b b_unit tt ok LB (fun _ => Null)).
    + rewrite Hf. apply NoDup_elements.
    + rewrite Hf. apply set_Forall_elements, Hok.
    + intros k [] Hin. unfold entry_from. simpl. rewrite (bt_roundtrip _ _ LB); [done|].
      apply list_elem_of_fmap in Hin as (k' & [= ->] & Hin%elem_of_elements). by apply Hok.
  - rewrite dom_list_to_map_L, Hf. apply list_to_set_elements_L.
Qed.
Lemma map_roundtrip {K} `{Countable K} (bk : Builtin K) okK (bv : Builtin Z) okV (m : gmap K Z) :
  BuiltinLaws bk okK -> BuiltinLaws bv okV -> map_Forall (fun k v => okK k /\ okV v) m ->
  map_from bk bv 0 (map_value bk bv m) = Ok m.
Proof using SL.
  intros LK LV Hok. unfold map_value.
  rewrite (map_from_encoded bk bv 0 okK LK (fun v => Cell (bt_av bv v)) (map_to_list m)).
  - by rewrite list_to_map_to_list.
  - apply NoDup_fst_map_to_list.
  - apply list.Forall_forall. intros k ([k' v] & -> & Hin%elem_of_map_to_list)%list_elem_of_fmap. by apply (Hok k' v).
  - intros k v Hin%elem_of_map_to_list. destruct (Hok k v Hin). unfold entry_from. simpl.
    rewrite (bt_roundtrip _ _ LV) by done. simpl. by rewrite (bt_roundtrip _ _ LK).
Qed.

(** Hashes have 32 bytes, amounts fit their width. *)
Record Effects_wf (e : Effects) : Prop := {
  ewf_nullifiers : set_Forall hash_wf (claimed_nullifiers e);
  ewf_receives : set_Forall hash_wf (claimed_shielded_receives e);
  ewf_spends : set_Forall hash_wf (claimed_shielded_spends e);
  ewf_calls : set_Forall calls_value_wf (claimed_contract_calls e);
  ewf_smints : map_Forall (fun k v => hash_wf k /\ is_u64 v) (shielded_mints e);
  ewf_umints : map_Forall (fun k v => hash_wf k /\ is_u64 v) (unshielded_mints e);
  ewf_inputs : map_Forall (fun k v => TokenType_wf k /\ is_u128 v) (unshielded_inputs e);
  ewf_outputs : map_Forall (fun k v => TokenType_wf k /\ is_u128 v) (unshielded_outputs e);
  ewf_uspends : map_Forall (fun k v => spends_key_wf k /\ is_u128 v) (claimed_unshielded_spends e)
}.

(** The effects a contract call starts from and ends with survive their
    representation on the VM stack: reading back the encoding of any effects
    object gives the object, whatever the order in which maps list entries. *)
Theorem effects_roundtrip (e : Effects) : Effects_wf e -> Effects_of_value (Effects_value e) = Ok e.
Proof using FL SL.
  intros [H0 H1 H2 H3 H4 H5 H6 H7 H8]. destruct e as [e0 e1 e2 e3 e4 e5 e6 e7 e8]. simpl in *.
  unfold Effects_of_value, Effects_value. simpl.
  destruct (set_roundtrip (b_hash "Nullifier") hash_wf e0 (b_hash_laws _) H0) as (m0 & -> & <-). simpl.
  destruct (set_roundtrip (b_hash "Commitment") hash_wf e1 (b_hash_laws _) H1) as (m1 & -> & <-). simpl.
  destruct (set_roundtrip (b_hash "Commitment") hash_wf e2 (b_hash_laws _) H2) as (m2 & -> & <-). simpl.
  destruct (set_roundtrip b_calls_value calls_value_wf e3 b_calls_value_laws H3) as (m3 & -> & <-). simpl.
  rewrite !(map_roundtrip b_hash_output hash_wf b_u64 is_u64) by auto using b_hash_output_laws, b_u64_laws. simpl.
  rewrite (map_roundtrip b_token_type TokenType_wf b_u128 is_u128 e6) by auto using b_token_type_laws, b_u128_laws. simpl.
  rewrite (map_roundtrip b_token_type TokenType_wf b_u128 is_u128 e7) by auto using b_token_type_laws, b_u128_laws. simpl.
  by rewrite (map_roundtrip b_spends_key spends_key_wf b_u128 is_u128) by auto using b_spends_key_laws, b_u128_laws.
Qed.
End effects.

(** ** The initial stack is well-formed *)
Lemma collect_map_Forall {K V} `{Countable K} (P : V -> Prop) (l : list (K * V)) :
  Forall (fun kv => P kv.2) l -> map_Forall (fun _ v => P v) (collect_map l).
Proof.
  unfold collect_map. intros Hl.
  assert (Hg : forall m : gmap K V, map_Forall (fun _ v => P v) m ->
    map_Forall (fun _ v => P v) (foldl (fun m kv => <[kv.1 := kv.2]> m) m l)).
  { induction Hl as [|kv l Hkv _ IH]; intros m Hm; [done|]. simpl. apply IH. by apply map_Forall_insert_2. }
  apply Hg, map_Forall_empty.
Qed.
Lemma size_sum_le {A} (f : A -> Z) c l : Forall (fun x => f x <= c) l -> size_sum f l <= c * Z.of_nat (length l).
Proof. induction 1 as [|x l Hx _ IH]; simpl; lia. Qed.
(** A value of at most four atoms of at most 32 bytes fits a cell. *)
Lemma small_cell av :
  av_wf av -> (length (av_value av) <= 4)%nat -> (length (av_alignment av) <= 4)%nat ->
  Forall (fun a => length a <= 32)%nat (av_value av) ->
  Forall (fun s => exists a, s = Atom a) (av_alignment av) -> vwf (Cell av).
Proof.
  intros Hwf Hv Ha Hvs Has. constructor; [done|]. unfold AlignedValue_serialized_size.
  assert (H1 : size_sum ValueAtom_serialized_size (av_value av) <= 1032 * Z.of_nat (length (av_value av))).
  { apply size_sum_le. eapply Forall_impl; [|exact Hvs]. intros a Hl. simpl in Hl. pose proof (atom_size_le a). lia. }
  assert (H2 : size_sum AlignmentSegment_serialized_size (av_alignment av) <= 1000 * Z.of_nat (length (av_alignment av))).
  { apply size_sum_le. eapply Forall_impl; [|exact Has]. intros s [a ->].
    destruct a as [|n|]; simpl; [lia|apply flagged_int_size_le|lia]. }
  assert (Hc : 12000 <= CELL_BOUND) by (vm_compute; congruence).
  pose proof (flagged_int_size_le (len_u32 (av_value av))). pose proof (flagged_int_size_le (len_u32 (av_alignment av))).
  unfold Value_serialized_size, Alignment_serialized_size, Alignment_size_with.
  destruct (av_value av) as [|x [|]], (av_alignment av) as [|y [|]]; simpl in *; lia.
Qed.
Lemma hash_atom_length h : hash_wf h -> (length (hash_atom h) <= 32)%nat.
Proof. intros [Hl _]. unfold hash_atom. pose proof (length_normalize h). unfold PERSISTENT_HASH_BYTES in Hl. lia. Qed.

(** One-atom builtin types. *)
Lemma single_cell {A} (b : Builtin A) ok x :
  BuiltinLaws b ok -> ok x -> (exists a, bt_value b x = [a] /\ (length a <= 32)%nat) ->
  (exists a, bt_alignment b = [Atom a]) -> vwf (Cell (bt_av b x)).
Proof.
  intros LB Hx (a & Ha & Hl) (al & Hal). apply small_cell; [by apply LB| | | |]; simpl; rewrite ?Ha, ?Hal; simpl; try lia.
  - constructor; [done|constructor].
  - constructor; [eauto|constructor].
Qed.
Lemma cell_b_u64 x : is_u64 x -> vwf (Cell (bt_av b_u64 x)).
Proof. intros. eapply single_cell; [apply b_u64_laws|done|eauto using uint_atom_length|simpl; eauto]. Qed.
Lemma cell_b_u32 x : is_u32 x -> vwf (Cell (bt_av b_u32 x)).
Proof. intros. eapply single_cell; [apply b_u32_laws|done|eauto using uint_atom_length|simpl; eauto]. Qed.
Lemma cell_b_u128 x : is_u128 x -> vwf (Cell (bt_av b_u128 x)).
Proof. intros. eapply single_cell; [apply b_u128_laws|done|eauto using uint_atom_length|simpl; eauto]. Qed.
Lemma cell_b_hash ty h : hash_wf h -> vwf (Cell (bt_av (b_hash ty) h)).
Proof. intros. eapply single_cell; [apply b_hash_laws|done|eauto using hash_atom_length|simpl; eauto]. Qed.
Lemma cell_b_hash_output h : hash_wf h -> vwf (Cell (bt_av b_hash_output h)).
Proof. apply (cell_b_hash "HashOutput"). Qed.
Lemma cell_b_public_address a : PublicAddress_wf a -> vwf (Cell (bt_av b_public_address a)).
Proof.
  intros Ha. apply small_cell; [by apply b_public_address_laws| | | |].
  - destruct a; simpl; lia.
  - simpl. lia.
  - assert (forall b, length (bool_atom b) <= 32)%nat by (intros []; apply Nat.leb_le; by vm_compute).
    destruct a as [h|h]; simpl in *; repeat apply List.Forall_cons; try apply List.Forall_nil; first [by apply hash_atom_length|done|simpl; lia].
  - simpl. repeat apply List.Forall_cons; try apply List.Forall_nil; eauto.
Qed.
Lemma set_value_vwf {A} `{Countable A} (b : Builtin A) s : vwf (set_value b s).
Proof.
  constructor. apply collect_map_Forall, Forall_fmap, list.Forall_forall. intros k _. constructor.
Qed.
Lemma map_value_vwf {K} `{Countable K} (bk : Builtin K) (bv : Builtin Z) okV (m : gmap K Z) :
  (forall v, okV v -> vwf (Cell (bt_av bv v))) -> map_Forall (fun _ v => okV v) m -> vwf (map_value bk bv m).
Proof.
  intros Hv Hm. constructor. apply collect_map_Forall, Forall_fmap, list.Forall_forall.
  intros [k v] Hin%elem_of_map_to_list. apply Hv, (Hm k v Hin).
Qed.
Lemma map_Forall_snd {K} `{Countable K} (P : K -> Prop) (Q : Z -> Prop) (m : gmap K Z) :
  map_Forall (fun k v => P k /\ Q v) m -> map_Forall (fun _ v => Q v) m.
Proof. intros Hm k v Hk. by apply (Hm k v). Qed.
Lemma array_vwf l : (length l <= 16)%nat -> Forall vwf l -> vwf (Array l).
Proof. intros Hl Hf. constructor; [done|]. intros i v Hi. by eapply (proj1 (Forall_lookup _ _) Hf). Qed.

Lemma Forall_singleton_2 {A} (P : A -> Prop) x : P x -> Forall P [x].
Proof. intros. by apply Forall_singleton. Qed.

Section query.
Context `{Hashing} {FO : FieldOrder} {FL : FieldOrderLaws} {SS : StateStorage} {SSL : StateStorageLaws SS}.
Context {SA : StateArena} {SL : StateArenaLaws}.

Record CallContext_wf (c : CallContext) : Prop := {
  ccw_tblock : is_u64 (cc_tblock c);
  ccw_err : is_u32 (cc_tblock_err c);
  ccw_parent : hash_wf (cc_parent_block_hash c);
  ccw_caller : match caller c with Some a => PublicAddress_wf a | None => True end;
  ccw_balance : map_Forall (fun k v => TokenType_wf k /\ is_u128 v) (cc_balance c);
  ccw_indices : map_Forall (fun k v => hash_wf k /\ is_u64 v) (com_indices c);
  ccw_last : is_u64 (cc_last_block_time c)
}.
Record QueryContext_wf (q : QueryContext) : Prop := {
  qw_state : vwf (cs_state (qc_state q));
  qw_effects : Effects_wf (qc_effects q);
  qw_address : hash_wf (qc_address q);
  qw_context : CallContext_wf (call_context q)
}.

Lemma to_vm_stack_wf q : QueryContext_wf q -> Forall (fun v => vwf (vm_value v)) (to_vm_stack q).
Proof.
  intros [Hs [? ? ? ? ? ? ? ? ?] Ha [? ? ? Hc ? ? ?]].
  constructor; [|constructor; [|constructor; [exact Hs|constructor]]]; simpl; apply array_vwf; simpl; try lia.
  - repeat apply List.Forall_cons; try apply Forall_nil;
      eauto using cell_b_hash, cell_b_u64, cell_b_u32, cell_b_hash_output, map_value_vwf, cell_b_u64, cell_b_u128, map_Forall_snd.
    destruct (caller (call_context q)); [by apply cell_b_public_address|constructor].
  - repeat apply List.Forall_cons; try apply Forall_nil;
      eauto using set_value_vwf, map_value_vwf, cell_b_u64, cell_b_u128, map_Forall_snd.
Qed.

(** ** Reading effects back never panics *)
Lemma try_fold_no_panic {E A B} (f : A -> B -> outcome E A) l a :
  (forall a x, f a x <> Panic) -> try_fold f a l <> Panic.
Proof. intros Hf. revert a. induction l as [|x l IH]; intros a; simpl; [done|]. by apply bind_no_panic. Qed.
Lemma map_err_no_panic {E F A} (f : E -> F) (m : outcome E A) : m <> Panic -> map_err f m <> Panic.
Proof. by destruct m. Qed.
Lemma map_from_no_panic {K V} `{Countable K} (bk : Builtin K) (bv : Builtin V) okK okV dv st :
  BuiltinLaws bk okK -> BuiltinLaws bv okV -> map_from bk bv dv st <> Panic.
Proof.
  intros LK LV. unfold map_from. destruct st; try done. apply try_fold_no_panic. intros a [k v].
  unfold insert_entry, entry_from. apply bind_no_panic; [|done]. apply bind_no_panic.
  - destruct v; try done. simpl. apply map_err_no_panic, LV.
  - intros. apply bind_no_panic; [apply map_err_no_panic, LK|done].
Qed.
Lemma Effects_of_value_no_panic v : Effects_of_value v <> Panic.
Proof using FL.
  unfold Effects_of_value. destruct (vm_value v) as [| | |a|]; try done. do 10 (destruct a as [|? a]; try done).
  repeat (apply bind_no_panic; [eapply map_from_no_panic; eauto using b_hash_laws, b_unit_laws, b_calls_value_laws,
    b_hash_output_laws, b_u64_laws, b_u128_laws, b_token_type_laws, b_spends_key_laws|intros ?]). done.
Qed.

(** ** Queries *)

(** What the arena guarantees when a new value joins the charged nodes: stored
    nodes refer to stored nodes, the charged counts are exact, and no node is
    referred to more than [u64::MAX] times. *)
Definition arena_ok (cs : ChargedState) : Prop :=
  forall new, vwf new ->
    let b := arena_nodes (charged_keys cs) new in
    backend_closed b /\ loadable b (as_child new) /\ rc_exact b (charged_keys cs) /\
    forall A, get_writes (E := TranscriptRejected) b (charged_keys cs) [as_child new] = Ok A ->
      fits b (charged_keys cs) A.

Lemma ChargedState_update_ok cs new cpu gc :
  arena_ok cs -> vwf new ->
  exists cs' cost, ChargedState_update (E := TranscriptRejected) cs new cpu gc = Ok (cs', cost) /\
    cs_state cs' = new /\ rc_exact (arena_nodes (charged_keys cs) new) (charged_keys cs') /\
    (forall k, reachable (arena_nodes (charged_keys cs) new) [as_child new] k -> k ∈ charged (charged_keys cs')).
Proof.
  intros Har Hnew. destruct (Har new Hnew) as (Hcl & Hl & Hex & Hfits).
  destruct (incremental_ok (E := TranscriptRejected) _ direct_key_size _ [as_child new] cpu gc Hcl (Forall_singleton_2 _ _ Hl) Hex Hfits)
    as (res & A & R & HO & _ & _ & Hex' & _ & Hroots & _).
  eexists _, _. unfold ChargedState_update. rewrite HO. simpl. split; [done|]. split; [done|]. split; [done|].
  intros k. by apply closed_reachable.
Qed.

Context {R Event : Type} {M : ResultMode R Event} {ML : ResultModeLaws M}.

(** The path of a query through the program, the final stack and the update. *)
Lemma query_safe self (program : list (Op R)) limit cm :
  cm_wf cm -> within limit RunningCost_ZERO -> QueryContext_wf self -> arena_ok (qc_state self) ->
  Forall op_wf program ->
  safe (query self program limit cm) (fun r =>
    let new := cs_state (qc_state (qr_context r)) in
    let b := arena_nodes (charged_keys (qc_state self)) new in
    vwf new /\ rc_exact b (charged_keys (qc_state (qr_context r))) /\
    (forall k, reachable b [as_child new] k -> k ∈ charged (charged_keys (qc_state (qr_context r))))).
Proof using FL SSL ML.
  intros Hcm Hlim Hq Har Hp. unfold query. eapply safe_bind.
  { apply safe_map_err. apply (run_program_safe limit cm Hcm _ _ None); [by apply to_vm_stack_wf|done|done]. }
  intros res (Hst & _). destruct (res_stack res) as [|v0 [|v1 [|v2 [|]]]]; try exact I.
  assert (Hv2 : vwf (vm_value v2)) by (by apply (proj1 (Forall_lookup _ _) Hst 2%nat)).
  destruct (vm_strength v2); [exact I|]. eapply (safe_bind _ _ (fun _ => True)).
  { pose proof (Effects_of_value_no_panic v1). by destruct (Effects_of_value v1). }
  intros eff _. destruct (ChargedState_update_ok _ _ (update_cpu_cost cm) (update_gc_limit cm) Har Hv2)
    as (cs' & cost & -> & Hcs & Hex & Hreach). rewrite <- Hcs in *. simpl.
  destruct limit as [l|]; simpl; [destruct (RunningCost_gt _ l); [exact I|]|]; by split; [|split].
Qed.

(** A query never panics: for every well-formed context and program the
    result is a new context or an error, whether the final stack has the wrong
    height, the effects do not decode or the gas runs out. *)
Theorem query_no_panic self (program : list (Op R)) limit cm :
  cm_wf cm -> within limit RunningCost_ZERO -> QueryContext_wf self -> arena_ok (qc_state self) ->
  Forall op_wf program -> query self program limit cm <> Panic.
Proof using FL SSL ML.
  intros Hcm Hl Hq Har Hp Hx. pose proof (query_safe self program limit cm Hcm Hl Hq Har Hp) as Hs.
  by rewrite Hx in Hs.
Qed.

(** A successful query leaves a well-formed contract state all of whose
    storage nodes are charged, with exact reference counts. *)
Theorem query_charges_new_state self (program : list (Op R)) limit cm r :
  cm_wf cm -> within limit RunningCost_ZERO -> QueryContext_wf self -> arena_ok (qc_state self) ->
  Forall op_wf program -> query self program limit cm = Ok r ->
  let new := cs_state (qc_state (qr_context r)) in
  let b := arena_nodes (charged_keys (qc_state self)) new in
  vwf new /\ rc_exact b (charged_keys (qc_state (qr_context r))) /\
  (forall k, reachable b [as_child new] k -> k ∈ charged (charged_keys (qc_state (qr_context r)))).
Proof using FL SSL ML.
  intros Hcm Hl Hq Har Hp Hx. pose proof (query_safe self program limit cm Hcm Hl Hq Har Hp) as Hs.
  by rewrite Hx in Hs.
Qed.

(** The limit on written and deleted bytes is not enforced: a query that
    reads less than its limit allows succeeds just the same, with the same
    cost, when the limits on bytes are replaced by any others, zero included.
    (The final comparison is lexicographic and starts with the read time.) *)
Theorem query_ignores_byte_limits self (program : list (Op R)) (limit : RunningCost) cm r (written deleted : Z) :
  query self program (Some limit) cm = Ok r ->
  rc_read_time (qr_gas_cost r) < rc_read_time limit ->
  query self program
    (Some (mkRunningCost (rc_read_time limit) (rc_compute_time limit) written deleted)) cm = Ok r.
Proof.
  intros Hx Hlt. unfold query in *. apply bind_Ok_inv in Hx as (res & Hrun & Hx).
  destruct (run_program (Some limit) cm (to_vm_stack self) program) as [res0| |] eqn:Hres; simpl in Hrun; try done.
  injection Hrun as ->. set (limit' := mkRunningCost _ _ written deleted).
  assert (Hle : limit_le (Some limit) (Some limit')) by (simpl; lia).
  destruct (rel_run_program cm (Some limit) (Some limit') (limit_le_within _ _ Hle) _ _ None _ Hres) as (res' & Hres' & <-).
  unfold run_program at 1. rewrite Hres'. simpl.
  destruct (res_stack res) as [|v0 [|v1 [|v2 [|]]]]; try done. destruct (vm_strength v2); [done|].
  apply bind_Ok_inv in Hx as (eff & He & Hx). rewrite He. simpl.
  apply bind_Ok_inv in Hx as ([cs' cost] & Hu & Hx). rewrite Hu. simpl in *.
  destruct (RunningCost_gt _ limit) eqn:Hgt; [done|]. injection Hx as <-. simpl in Hlt.
  unfold RunningCost_gt, limit'. simpl.
  rewrite (proj2 (Z.ltb_ge _ _)), (proj2 (Z.eqb_neq _ _)) by lia. done.
Qed.
End query.

(** ** Witnesses *)

(** An arena that holds every value directly. *)
Definition toy_arena : StateArena := {|
  as_child _ := AK_Direct [] [] []; direct_key_size _ := 40; arena_nodes _ _ := ∅; map_iter m := map_to_list m |}.
Lemma toy_arena_laws : @StateArenaLaws toy_arena.
Proof. split. intros m. done. Qed.
Definition toy_field : FieldOrder := {| fr_modulus := 2 ^ 254 |}.
Lemma toy_field_laws : @FieldOrderLaws toy_field.
Proof. split; simpl; lia. Qed.

Section witnesses.
#[local] Existing Instance toy_hashing.
#[local] Existing Instance toy_storage.
#[local] Existing Instance toy_storage_laws.
#[local] Existing Instance toy_arena.
#[local] Existing Instance toy_arena_laws.
#[local] Existing Instance toy_field.
#[local] Existing Instance toy_field_laws.

Definition toy_hash (n : Z) : HashOutput := n :: replicate 31 0.
Lemma toy_hash_wf n : is_u8 n -> hash_wf (toy_hash n).
Proof.
  intros Hn. split; [done|]. unfold toy_hash. constructor; [ints|]. apply Forall_replicate. ints.
Qed.
Definition toy_effects : Effects := {|
  claimed_nullifiers := {[ toy_hash 1; toy_hash 2 ]};
  claimed_shielded_receives := {[ toy_hash 3 ]};
  claimed_shielded_spends := ∅;
  claimed_contract_calls :=
    {[ {| ccv_seq := 7; ccv_address := toy_hash 4; ccv_ep_hash := toy_hash 5; ccv_comm := 12345 |} ]};
  shielded_mints := {[ toy_hash 6 := 100 ]};
  unshielded_mints := ∅;
  unshielded_inputs := {[ Unshielded (toy_hash 7) := 1000 ]};
  unshielded_outputs := {[ DustToken := 3 ]};
  claimed_unshielded_spends :=
    {[ {| cus_token := Unshielded (toy_hash 7); cus_address := PA_User (toy_hash 8) |} := 50 ]} |}.
Lemma toy_effects_wf : Effects_wf toy_effects.
Proof.
  assert (H : forall n, 0 <= n <= 8 -> hash_wf (toy_hash n)) by (intros; apply toy_hash_wf; ints).
  assert (Hc : calls_value_wf {| ccv_seq := 7; ccv_address := toy_hash 4; ccv_ep_hash := toy_hash 5; ccv_comm := 12345 |}).
  { split; [cbn; ints|]. split; [apply H; lia|]. split; [apply H; lia|].
    unfold fr_wf. cbn [fr_modulus toy_field ccv_comm]. lia. }
  split; cbn [toy_effects claimed_nullifiers claimed_shielded_receives claimed_shielded_spends claimed_contract_calls
    shielded_mints unshielded_mints unshielded_inputs unshielded_outputs claimed_unshielded_spends].
  - apply set_Forall_union; apply set_Forall_singleton, H; lia.
  - apply set_Forall_singleton, H; lia.
  - apply set_Forall_empty.
  - by apply set_Forall_singleton.
  - apply map_Forall_singleton. split; [apply H; lia|ints].
  - apply map_Forall_empty.
  - apply map_Forall_singleton. split; [apply (H 7); lia|ints].
  - apply map_Forall_singleton. split; [exact I|ints].
  - apply map_Forall_singleton. split; [split; [apply (H 7); lia|apply (H 8); lia]|ints].
Qed.
Lemma effects_roundtrip_witness : Effects_of_value (Effects_value toy_effects) = Ok toy_effects.
Proof. apply effects_roundtrip, toy_effects_wf. Defined.

Definition toy_charged : ChargedState := {| cs_state := Null; charged_keys := RcMap_default |}.
Definition toy_context : QueryContext := QueryContext_new toy_charged (toy_hash 9).
(** Replace the state by a cell. *)
Definition toy_call : list (Op AlignedValue) := [Op_Pop; Op_Push true (Cell (av_of_u64 1))].
Definition toy_gas (written : Z) : RunningCost := mkRunningCost 1 (2 ^ 40) written 0.

Lemma toy_context_wf : QueryContext_wf toy_context.
Proof.
  assert (Hz : hash_wf HashOutput_default) by (apply (toy_hash_wf 0); ints).
  split; simpl; [constructor| |apply toy_hash_wf; ints|].
  - split; simpl; first [apply set_Forall_empty | apply map_Forall_empty].
  - assert (Hu : forall n, 0 <= n -> in_u n 0) by (intros; split; lia).
    split; [apply (Hu u64_max); ints|apply (Hu u32_max); ints|exact Hz|exact I
      |apply map_Forall_empty|apply map_Forall_empty|apply (Hu u64_max); ints].
Qed.
Lemma toy_arena_ok : arena_ok toy_charged.
Proof.
  intros new _. simpl. split; [by intros h [n Hn]|]. split; [split; [by eexists|set_solver]|]. split.
  - split; simpl; [done|done|]. intros k Hk. exfalso. vm_compute in Hk. set_solver.
  - intros A HA. vm_compute in HA. injection HA as <-. intros h. unfold indeg.
    etransitivity; [apply cnt_le_length|]. by vm_compute.
Qed.
Lemma toy_call_wf : Forall op_wf toy_call.
Proof. repeat apply List.Forall_cons; try apply List.Forall_nil; simpl; [done|]. by apply cell_u64; ints. Qed.

Lemma query_no_panic_witness : query toy_context toy_call (Some (toy_gas 1000)) INITIAL_COST_MODEL <> Panic.
Proof.
  apply query_no_panic; [apply INITIAL_COST_MODEL_wf|by vm_compute|apply toy_context_wf|apply toy_arena_ok|apply toy_call_wf].
Defined.

Definition toy_result : QueryResults StateValue :=
  match query toy_context toy_call (Some (toy_gas 1000)) INITIAL_COST_MODEL with
  | Ok r => r
  | _ => {| qr_context := toy_context; qr_events := []; qr_gas_cost := RunningCost_ZERO |}
  end.
Lemma toy_result_ok : query toy_context toy_call (Some (toy_gas 1000)) INITIAL_COST_MODEL = Ok toy_result.
Proof. vm_compute. reflexivity. Qed.
Lemma query_charges_new_state_witness :
  as_child (cs_state (qc_state (qr_context toy_result))) ∈ charged (charged_keys (qc_state (qr_context toy_result))).
Proof.
  destruct (query_charges_new_state toy_context toy_call (Some (toy_gas 1000)) INITIAL_COST_MODEL toy_result)
    as (_ & _ & Hr);
    [apply INITIAL_COST_MODEL_wf|by vm_compute|apply toy_context_wf|apply toy_arena_ok|apply toy_call_wf|apply toy_result_ok|].
  apply Hr. eexists. split; [left|constructor].
Defined.
(** 80 bytes are written under a limit of 0 bytes. *)
Lemma query_ignores_byte_limits_witness :
  query toy_context toy_call (Some (toy_gas 0)) INITIAL_COST_MODEL = Ok toy_result /\
  rc_bytes_written (qr_gas_cost toy_result) = 80.
Proof.
  split; [|vm_compute; reflexivity].
  apply (query_ignores_byte_limits toy_context toy_call (toy_gas 1000) INITIAL_COST_MODEL toy_result 0 0);
    [apply toy_result_ok|vm_compute; reflexivity].
Defined.
End witnesses.
