(* ===== verification/LedgerData.v ===== *)
(** * The data of the ledger ([ledger/src/structure.rs], [dust.rs])

    Unshielded outputs, Dust actions, contract actions, intents, transactions
    and parameters.  Verified transactions have their proofs and signatures
    erased, so the types below are the erased ones. *)
From S2P Require Import Prelude Time CostModel Fab FabSerial Scale MerkleTree TimeFilterMap Zswap StateValue VmOps Coin DeltaTracking Runtime.
From stdpp Require Import sorting.
#[local] Open Scope Z_scope.
Set Warnings "-register-all".

(** ** What comes from the cryptographic libraries *)
Class KeyTypes := {
  VerifyingKey : Type;
  VerifyingKey_eq_dec :: EqDecision VerifyingKey;
  VerifierKey : Type;
  VerifierKey_eq_dec :: EqDecision VerifierKey;
  SignatureT : Type;
  Pedersen : Type;
  CoinCiphertext : Type;
}.

(** [sorted_iter]: the entries by increasing key. *)
Definition key_le {A} (a b : Z * A) : Prop := a.1 <= b.1.
#[global] Instance key_le_dec {A} : RelDecision (@key_le A) := fun a b => decide (a.1 <= b.1).
Definition sorted_map {A} (m : gmap Z A) : list (Z * A) := merge_sort key_le (map_to_list m).
Abbreviation Segment := Z.
Definition GUARANTEED_SEGMENT : Segment := 0.
Abbreviation IntentHash := HashOutput.
Abbreviation InitialNonce := HashOutput.
Abbreviation DustPublicKey := Fr.
Abbreviation DustNullifier := Fr.
Abbreviation DustCommitment := Fr.
Abbreviation EntryPointBuf := (list Z).
Abbreviation TransactionHash := HashOutput.

(** ** Amounts *)
Definition STARS_PER_NIGHT : Z := 1000000.
Definition SPECKS_PER_DUST : Z := 1000000000000000.
Definition MAX_SUPPLY : Z := 24000000000 * STARS_PER_NIGHT.

(** ** Unshielded outputs *)
Record Utxo := {
  utxo_value : Z;
  utxo_owner : UserAddress;
  utxo_type : UnshieldedTokenType;
  utxo_intent_hash : IntentHash;
  utxo_output_no : Z
}.
#[global] Instance Utxo_eq_dec : EqDecision Utxo.
Proof. solve_decision. Defined.
#[global] Instance Utxo_countable : Countable Utxo.
Proof.
  apply (inj_countable' (fun u => (utxo_value u, utxo_owner u, utxo_type u, utxo_intent_hash u, utxo_output_no u))
    (fun '(a, b, c, d, e) => {| utxo_value := a; utxo_owner := b; utxo_type := c; utxo_intent_hash := d;
                               utxo_output_no := e |})). by intros [].
Defined.
Record UtxoOutput := { uout_value : Z; uout_owner : UserAddress; uout_type : UnshieldedTokenType }.
Record UtxoMeta := { meta_ctime : Z }.
Record UtxoState := { utxos : gmap Utxo UtxoMeta }.
Definition UtxoState_default : UtxoState := {| utxos := ∅ |}.
Definition utxo_insert (self : UtxoState) (utxo : Utxo) (meta : UtxoMeta) : UtxoState :=
  {| utxos := <[utxo := meta]> (utxos self) |}.
Definition utxo_remove (self : UtxoState) (utxo : Utxo) : UtxoState := {| utxos := delete utxo (utxos self) |}.

(** ** Dust parameters *)
Record DustParameters := {
  night_dust_ratio : Z;
  generation_decay_rate : Z;
  dust_grace_period : Z
}.
Definition time_to_cap (self : DustParameters) : Z :=
  if generation_decay_rate self =? 0 then i128_max
  else div_ceil (night_dust_ratio self) (generation_decay_rate self).
Definition INITIAL_DUST_PARAMETERS : DustParameters := {|
  night_dust_ratio := 5 * (SPECKS_PER_DUST / STARS_PER_NIGHT);
  generation_decay_rate := 8267;
  dust_grace_period := 3 * 3600 |}.

(** ** Ledger parameters *)
Record TransactionCostModel := {
  runtime_cost_model : VmCostModel;
  parallelism_factor : Z;
  baseline_cost : RunningCost
}.
Definition INITIAL_TRANSACTION_COST_MODEL : TransactionCostModel := {|
  runtime_cost_model := INITIAL_COST_MODEL;
  parallelism_factor := 4;
  baseline_cost := mkRunningCost 0 100000000 0 0 |}.
Record TransactionLimits := {
  transaction_byte_limit : Z;
  time_to_dismiss_per_byte : CostDuration;
  min_time_to_dismiss : CostDuration;
  block_limits : SyntheticCost;
  block_withdrawal_minimum_multiple : FixedPoint
}.
Definition INITIAL_LIMITS : TransactionLimits := {|
  transaction_byte_limit := Z.shiftl 1 20;
  time_to_dismiss_per_byte := 2000000;
  min_time_to_dismiss := 15000000000;
  block_limits := mkSyntheticCost CostDuration_SECOND CostDuration_SECOND 200000 50000 1000000;
  block_withdrawal_minimum_multiple := from_u64_div 1 2 |}.
Record LedgerParameters := {
  cost_model : TransactionCostModel;
  limits : TransactionLimits;
  dust_params : DustParameters;
  fee_prices : FeePrices;
  global_ttl : Z;
  cost_dimension_min_ratio : FixedPoint;
  price_adjustment_a_parameter : FixedPoint;
  cardano_to_midnight_bridge_fee_basis_points : Z;
  c_to_m_bridge_min_amount : Z
}.
Definition INITIAL_PARAMETERS : LedgerParameters := {|
  cost_model := INITIAL_TRANSACTION_COST_MODEL;
  limits := INITIAL_LIMITS;
  dust_params := INITIAL_DUST_PARAMETERS;
  fee_prices := mkFeePrices (from_u64_div 10 1) FixedPoint_ONE FixedPoint_ONE FixedPoint_ONE FixedPoint_ONE;
  global_ttl := 3600;
  cost_dimension_min_ratio := from_u64_div 1 4;
  price_adjustment_a_parameter := from_u64_div 100 1;
  cardano_to_midnight_bridge_fee_basis_points := 500;
  c_to_m_bridge_min_amount := 1000 |}.

(** Zswap offers with their proofs erased. *)
Abbreviation Offer := (ZswapOffer Pedersen unit CoinCiphertext ShieldedTokenType).

Section data.
Context `{KeyTypes}.

Record UtxoSpend := {
  us_value : Z;
  us_owner : VerifyingKey;
  us_type : UnshieldedTokenType;
  us_intent_hash : IntentHash;
  us_output_no : Z
}.
Record UnshieldedOffer := {
  uo_inputs : list UtxoSpend;
  uo_outputs : list UtxoOutput;
  uo_signatures : list unit
}.

(** ** Dust actions *)
Record DustSpend := {
  v_fee : Z;
  old_nullifier : DustNullifier;
  new_commitment : DustCommitment
}.
Record DustRegistration := {
  night_key : VerifyingKey;
  dust_address : option DustPublicKey;
  allow_fee_payment : Z
}.
Record DustActions := {
  spends : list DustSpend;
  registrations : list DustRegistration;
  da_ctime : Z
}.

(** ** Contracts *)
Record ContractMaintenanceAuthority := {
  committee : list VerifyingKey;
  threshold : Z;
  ma_counter : Z
}.
Definition ContractMaintenanceAuthority_new : ContractMaintenanceAuthority :=
  {| committee := []; threshold := 1; ma_counter := 0 |}.
Record ContractOperation := { co_v2 : option VerifierKey }.
#[global] Instance ContractOperation_eq_dec : EqDecision ContractOperation.
Proof. solve_decision. Defined.
Record ContractState := {
  cst_data : ChargedState;
  operations : gmap EntryPointBuf ContractOperation;
  maintenance_authority : ContractMaintenanceAuthority;
  cst_balance : gmap TokenType Z
}.
Definition ContractState_new `{StateArena} {E : Type} (data : StateValue) (ops : gmap EntryPointBuf ContractOperation)
    (auth : ContractMaintenanceAuthority) : outcome E ContractState :=
  cs ← ChargedState_new data;
  Ok {| cst_data := cs; operations := ops; maintenance_authority := auth; cst_balance := ∅ |}.
Definition ContractState_default `{StateArena} {E : Type} : outcome E ContractState :=
  ContractState_new Null ∅ ContractMaintenanceAuthority_new.

Record ContractCall := {
  call_address : ContractAddress;
  call_entry_point : EntryPointBuf;
  guaranteed_transcript : option Transcript;
  fallible_transcript : option Transcript;
  communication_commitment : Fr
}.
Record ContractDeploy := { initial_state : ContractState; deploy_nonce : HashOutput }.
Inductive ContractOperationVersion := V3.
Inductive ContractOperationVersionedVerifierKey := VK_V3 (vk : VerifierKey).
Definition version_has (self : ContractOperationVersion) (co : ContractOperation) : bool :=
  match self with V3 => bool_decide (is_Some (co_v2 co)) end.
Definition version_rm_from (self : ContractOperationVersion) (co : ContractOperation) : ContractOperation :=
  match self with V3 => {| co_v2 := None |} end.
Definition as_version (self : ContractOperationVersionedVerifierKey) : ContractOperationVersion :=
  match self with VK_V3 _ => V3 end.
Definition insert_into (self : ContractOperationVersionedVerifierKey) (co : ContractOperation) : ContractOperation :=
  match self with VK_V3 vk => {| co_v2 := Some vk |} end.
Inductive SingleUpdate :=
| ReplaceAuthority (auth : ContractMaintenanceAuthority)
| VerifierKeyRemove (ep : EntryPointBuf) (ver : ContractOperationVersion)
| VerifierKeyInsert (ep : EntryPointBuf) (vk : ContractOperationVersionedVerifierKey).
Record MaintenanceUpdate := {
  mu_address : ContractAddress;
  mu_updates : list SingleUpdate;
  mu_counter : Z;
  mu_signatures : list (Z * SignatureT)
}.
Inductive ContractAction :=
| Call (call : ContractCall)
| Deploy (deploy : ContractDeploy)
| Maintain (upd : MaintenanceUpdate).

(** ** Intents and transactions *)
Record Intent := {
  guaranteed_unshielded_offer : option UnshieldedOffer;
  fallible_unshielded_offer : option UnshieldedOffer;
  actions : list ContractAction;
  dust_actions : option DustActions;
  ttl : Z;
  binding_commitment : Pedersen
}.
Record StandardTransaction := {
  network_id : string;
  intents : gmap Segment Intent;
  guaranteed_coins : option Offer;
  fallible_coins : gmap Segment Offer;
  binding_randomness : Fr
}.
Inductive ClaimKind := Reward | CardanoBridge.
Record ClaimRewardsTransaction := {
  cr_network_id : string;
  cr_value : Z;
  cr_owner : VerifyingKey;
  cr_nonce : HashOutput;
  cr_kind : ClaimKind
}.
Inductive Transaction :=
| Standard (stx : StandardTransaction)
| ClaimRewards (rewards : ClaimRewardsTransaction).
Record VerifiedTransaction := { inner : Transaction; vt_hash : TransactionHash }.

(** [fallible_segments]: the distinct segments other than the guaranteed one, in order. *)
Definition fallible_segments (self : StandardTransaction) : list Segment :=
  merge_sort Z.le (elements ((dom (intents self) ∪ dom (fallible_coins self)) ∖ {[ GUARANTEED_SEGMENT ]} : gset Segment)).
Definition segments (self : StandardTransaction) : list Segment :=
  merge_sort Z.le (elements ({[ GUARANTEED_SEGMENT ]} ∪ dom (intents self) ∪ dom (fallible_coins self) : gset Segment)).

(** ** System transactions *)
Record OutputInstructionUnshielded := {
  oi_amount : Z;
  oi_target_address : UserAddress;
  oi_nonce : HashOutput
}.
Record OutputInstructionShielded := { ois_amount : Z; ois_target_key : HashOutput }.
Inductive CNightGeneratesDustActionType := Create | Destroy.
#[global] Instance CNightGeneratesDustActionType_eq_dec : EqDecision CNightGeneratesDustActionType.
Proof. solve_decision. Defined.
Record CNightGeneratesDustEvent := {
  cn_value : Z;
  cn_owner : DustPublicKey;
  cn_time : Z;
  cn_action : CNightGeneratesDustActionType;
  cn_nonce : InitialNonce
}.
Inductive SystemTransaction :=
| OverwriteParameters (new_params : LedgerParameters)
| DistributeNight (kind : ClaimKind) (outputs : list OutputInstructionUnshielded)
| PayBlockRewardsToTreasury (amount : Z)
| PayFromTreasuryShielded (outputs : list OutputInstructionShielded) (nonce : HashOutput) (token_type : ShieldedTokenType)
| PayFromTreasuryUnshielded (outputs : list OutputInstructionUnshielded) (token_type : UnshieldedTokenType)
| DistributeReserve (amount : Z)
| CNightGeneratesDustUpdate (events : list CNightGeneratesDustEvent).
End data.

(** ** Hashes of ledger data

    The serialized parts of an intent, the hash of a deployment and the address
    of a verifying key belong to serialization and signature code that is not
    modelled. *)
Class LedgerHashing `{KeyTypes} := {
  serialize_intent_parts : option UnshieldedOffer -> option UnshieldedOffer -> list ContractAction -> Z -> Pedersen -> list Z;
  deploy_address : ContractDeploy -> ContractAddress;
  vk_address : VerifyingKey -> UserAddress;
}.

Section hashes.
Context `{LedgerHashing} `{Hashing}.

(** [to_hash_data]: the Dust actions of the intent are not part of it. *)
Definition to_hash_data (intent : Intent) : list Z :=
  serialize_intent_parts (guaranteed_unshielded_offer intent) (fallible_unshielded_offer intent) (actions intent)
    (ttl intent) (binding_commitment intent).
(** [data_to_sign] and [intent_hash]. *)
Definition data_to_sign (self : Intent) (segment_id : Segment) : list Z :=
  ascii_bytes "midnight:hash-intent:" ++ to_le_bytes 2 segment_id ++ to_hash_data self.
Definition intent_hash (self : Intent) (segment_id : Segment) : IntentHash :=
  persistent_hash (data_to_sign self segment_id).

(** [OutputInstructionUnshielded::to_hash_data], [mk_intent_hash]; amounts are
    serialized as compact integers. *)
Definition output_instruction_hash_data (self : OutputInstructionUnshielded) (tt : UnshieldedTokenType) : list Z :=
  ascii_bytes "midnight:hash-output-instruction-unshielded:" ++ tt ++ uint_serialize 16 (oi_amount self) ++
  oi_target_address self ++ oi_nonce self.
Definition mk_intent_hash (self : OutputInstructionUnshielded) (tt : UnshieldedTokenType) : IntentHash :=
  persistent_hash (output_instruction_hash_data self tt).

(** [persistent_commit], [initial_nonce]. *)
Definition persistent_commit (value : list Z) (opening : HashOutput) : HashOutput :=
  persistent_hash (opening ++ value).
Definition initial_nonce (output_no : Z) (hash : IntentHash) : InitialNonce :=
  persistent_commit (to_le_bytes 4 output_no) hash.
Definition spend_initial_nonce (self : UtxoSpend) : InitialNonce := initial_nonce (us_output_no self) (us_intent_hash self).
Definition ep_hash (self : EntryPointBuf) : HashOutput :=
  persistent_commit self (ascii_bytes "midnight:entry-point" ++ replicate 12 0).

(** [From<UtxoSpend> for Utxo]. *)
Definition utxo_of_spend (x : UtxoSpend) : Utxo := {|
  utxo_value := us_value x; utxo_owner := vk_address (us_owner x); utxo_type := us_type x;
  utxo_intent_hash := us_intent_hash x; utxo_output_no := us_output_no x |}.
End hashes.
