(* ===== verification/LedgerCost.v ===== *)
(** * Transaction costs and fees ([ledger/src/structure.rs])

    The cost of a transaction is computed from its shape: what validating it
    costs, what applying its guaranteed and its fallible parts costs.  All
    additions saturate.  The maps are traversed in the order of their keys; the
    saturating sums do not depend on it. *)
From S2P Require Import Prelude Time CostModel Fab FabSerial MerkleTree TimeFilterMap Zswap StateValue VmOps Coin DeltaTracking Runtime LedgerData.
Set Warnings "-register-all".

Declare Scope cost_scope.
#[local] Infix "+" := RunningCost_add : cost_scope.
#[local] Notation "c * n" := (RunningCost_mul c n%Z) : cost_scope.
Delimit Scope cost_scope with cost.

(** ** What serialization provides

    Serialized sizes, the number of field elements of an opcode, and the node
    list of a stored value, each node with its data length and child count. *)
Class Sizes `{KeyTypes} := {
  tx_serialized_size : Transaction -> Z;
  (** The reward claim [min_claimable_rewards] prices. *)
  phantom_claim_size : Z;
  params_serialized_size : LedgerParameters -> Z;
  op_field_size : Op AlignedValue -> Z;
  contract_state_nodes : ContractState -> list (Z * Z);
  authority_nodes : ContractMaintenanceAuthority -> list (Z * Z);
}.

Definition VERIFIER_KEY_SIZE : Z := 2875.
Definition EXPECTED_CONTRACT_DEPTH : Z := 32.
Definition EXPECTED_UTXO_DEPTH : Z := 32.
Definition EXPECTED_GENERATION_DEPTH : Z := 32.
Definition EXPECTED_OPERATIONS_DEPTH : Z := 8.
Definition EXPECTED_TOKEN_TYPE_DEPTH : Z := 8.
Definition EXPECTED_TIME_FILTER_MAP_DEPTH : Z := 8.
Definition FRESH_DUST_COMMITMENT_HASHES : Z := 6.
Definition INPUT_PIS : Z := 68.
Definition OUTPUT_PIS : Z := 77.
Definition INPUT_PROOF_SIZE : Z := 4832.
Definition OUTPUT_PROOF_SIZE : Z := 4832.
Definition DUST_SPEND_PIS : Z := 138.
Definition DUST_SPEND_PROOF_SIZE : Z := 2912.
Definition PROOF_SIZE : Z := INPUT_PROOF_SIZE.
Definition HASH_BYTES : Z := Z.of_nat PERSISTENT_HASH_BYTES.
Definition DUST_GENERATION_INFO_SIZE : Z := 16 + FR_BYTES + HASH_BYTES + 8.
Definition UTXO_SIZE : Z := 16 + HASH_BYTES * 3 + 4.

(** ** Building blocks *)
Definition bytes_cost (written deleted : Z) : RunningCost := mkRunningCost 0 0 written deleted.
Section building_blocks.
Context (self : TransactionCostModel).
Let cm := runtime_cost_model self.

Definition cell_read (size : Z) : RunningCost := read_cell cm size true.
Definition cell_write (size : Z) (overwrite : bool) : RunningCost := bytes_cost size (if overwrite then size else 0).
Definition cell_delete (size : Z) : RunningCost := bytes_cost 0 size.
Definition map_index (log_size : Z) : RunningCost := read_map cm log_size true.
Definition proof_verify (size : Z) : RunningCost :=
  RunningCost_compute
    (CostDuration_add (cm_proof_verify_constant cm) (CostDuration_mul (cm_proof_verify_coeff_size cm) size)).
Definition map_insert (log_size : Z) (overwrite : bool) : RunningCost :=
  (cell_write (HASH_BYTES * 16) true * div_ceil log_size 4 + cell_write HASH_BYTES overwrite)%cost.
Definition map_remove (log_size : Z) (guaranteed_present : bool) : RunningCost :=
  (if guaranteed_present then map_insert log_size true else map_insert log_size true + map_index log_size)%cost.
Definition time_filter_map_lookup : RunningCost := (map_index 8 * 2)%cost.
Definition time_filter_map_insert (overwrite : bool) : RunningCost := (map_insert 8 overwrite * 2)%cost.
Definition merkle_tree_index (log_size : Z) : RunningCost := read_bmt cm log_size true.
Definition merkle_tree_insert_no_rehash (log_size : Z) (overwrite : bool) : RunningCost :=
  (cell_write FR_BYTES overwrite + cell_write (FR_BYTES * 3 + 2) true * log_size)%cost.
Definition merkle_tree_insert_unamortized (log_size : Z) (overwrite : bool) : RunningCost :=
  (RunningCost_compute (CostDuration_mul (cm_transient_hash cm) log_size)
   + merkle_tree_insert_no_rehash log_size overwrite)%cost.
Definition EXPECTED_AMORTIZE_HASHES : Z := 6.
Definition merkle_tree_insert_amortized (log_size : Z) (overwrite : bool) : RunningCost :=
  (RunningCost_compute (CostDuration_mul (cm_transient_hash cm) EXPECTED_AMORTIZE_HASHES)
   + merkle_tree_insert_no_rehash log_size overwrite)%cost.
(** [CostModel::tree_copy] on the node list of the value. *)
Definition tree_copy (nodes : list (Z * Z)) : RunningCost :=
  bytes_cost (trunc u64_max (foldr Z.add 0 ((fun n => n.1 + n.2 * HASH_BYTES) <$> nodes))) 0.

Definition EXPECTED_COM_INDICES : Z := 16.
Definition effects_maps (eff : Effects) : list (Z * Z) :=
  [(EXPECTED_COM_INDICES, HASH_BYTES);
   (Z.of_nat (size (claimed_nullifiers eff)), HASH_BYTES);
   (Z.of_nat (size (claimed_shielded_receives eff)), HASH_BYTES);
   (Z.of_nat (size (claimed_shielded_spends eff)), HASH_BYTES);
   (Z.of_nat (size (claimed_contract_calls eff)), HASH_BYTES * 2 + FR_BYTES + 8);
   (Z.of_nat (size (shielded_mints eff)), HASH_BYTES);
   (Z.of_nat (size (unshielded_mints eff)), HASH_BYTES);
   (Z.of_nat (size (unshielded_inputs eff)), HASH_BYTES + 1);
   (Z.of_nat (size (unshielded_outputs eff)), HASH_BYTES + 1);
   (Z.of_nat (size (claimed_unshielded_spends eff)), HASH_BYTES * 2 + 1)].
Definition stack_setup_cost_for_effects (eff : Effects) : RunningCost :=
  RunningCost_compute (CostDuration_sum ((fun '(n, key_len) =>
    CostDuration_add
      (CostDuration_add (cm_ins_map_constant cm)
         (CostDuration_mul (cm_ins_map_coeff_container_log_size cm) (Z.log2 (next_power_of_two n))))
      (CostDuration_mul (cm_ins_map_coeff_key_size cm) key_len)) <$> effects_maps eff)).
End building_blocks.

Inductive FeeCalculationError :=
| OutsideTimeToDismiss (time_to_dismiss allowed_time_to_dismiss : CostDuration) (size : Z)
| BlockLimitExceeded.

Definition count {A} (l : list A) : Z := Z.of_nat (length l).
Definition Zsum (l : list Z) : Z := foldr Z.add 0 l.
Definition add_compute (cost : RunningCost) (time : CostDuration) : RunningCost := {|
  rc_read_time := rc_read_time cost; rc_compute_time := CostDuration_add (rc_compute_time cost) time;
  rc_bytes_written := rc_bytes_written cost; rc_bytes_deleted := rc_bytes_deleted cost |}.

Section costs.
Context `{Sizes}.

(** ** The parts of a transaction *)
Definition intents_of (self : Transaction) : list (Segment * Intent) :=
  match self with Standard stx => sorted_map (intents stx) | ClaimRewards _ => [] end.
Definition intent_calls (intent : Intent) : list ContractCall :=
  omap (fun action => match action with Call call => Some call | _ => None end) (actions intent).
Definition calls_of (self : Transaction) : list ContractCall := intents_of self ≫= fun si => intent_calls si.2.
Definition offers_of (stx : StandardTransaction) : list (Segment * Offer) :=
  match guaranteed_coins stx with Some o => [(GUARANTEED_SEGMENT, o)] | None => [] end ++ sorted_map (fallible_coins stx).
Definition offer_input_count (o : Offer) : Z := count (offer_inputs o) + count (offer_transient o).
Definition offer_output_count (o : Offer) : Z := count (offer_outputs o) + count (offer_transient o).
Definition spend_count (intent : Intent) : Z :=
  match dust_actions intent with Some da => count (spends da) | None => 0 end.
Definition unshielded_offers (intent : Intent) : list UnshieldedOffer :=
  option_list (guaranteed_unshielded_offer intent) ++ option_list (fallible_unshielded_offer intent).

(** [estimated_tx_size] of a transaction without proofs: the proofs it would have are added. *)
Definition zswap_counts (self : Transaction) : Z * Z :=
  match self with
  | Standard stx =>
      (Zsum (offer_input_count ∘ snd <$> offers_of stx), Zsum (offer_output_count ∘ snd <$> offers_of stx))
  | ClaimRewards _ => (0, 0)
  end.
Definition est_size (self : Transaction) : Z :=
  trunc u64_max (tx_serialized_size self + count (calls_of self) * PROOF_SIZE
    + (zswap_counts self).1 * INPUT_PROOF_SIZE + (zswap_counts self).2 * OUTPUT_PROOF_SIZE
    + Zsum (spend_count ∘ snd <$> intents_of self) * DUST_SPEND_PROOF_SIZE).

(** [ContractCall::public_inputs_len]. *)
Definition public_inputs_len (call : ContractCall) : Z :=
  let program := (option_list (guaranteed_transcript call) ++ option_list (fallible_transcript call)) ≫= t_program in
  sat_add u64_max 2 (foldl (sat_add u64_max) 0 (op_field_size <$> program)).

(** ** Validation *)
Section validation.
Context (model : TransactionCostModel).
Let cm := runtime_cost_model model.

Definition action_validation (cost : RunningCost) (action : ContractAction) : RunningCost :=
  match action with
  | Call call =>
      (add_compute cost (cm_verifier_key_load cm) + proof_verify model (public_inputs_len call))%cost
  | Maintain upd => add_compute cost (CostDuration_mul (cm_signature_verify_constant cm) (count (mu_signatures upd)))
  | Deploy _ => cost
  end.
Definition intent_validation (cost : RunningCost) (intent : Intent) : RunningCost :=
  let cost := add_compute cost (cm_pedersen_valid cm) in
  let cost := add_compute cost (CostDuration_mul (cm_signature_verify_constant cm)
                (Zsum (count ∘ uo_signatures <$> unshielded_offers intent))) in
  let cost := foldl action_validation cost (actions intent) in
  match dust_actions intent with
  | Some da =>
      add_compute (cost + proof_verify model DUST_SPEND_PIS * count (spends da))%cost
        (CostDuration_mul (cm_signature_verify_constant cm) (count (registrations da)))
  | None => cost
  end.
(** [Transaction::validation_cost] for a given size estimate. *)
Definition validation_cost_of_size (tx_size : Z) (self : Transaction) : SyntheticCost :=
  match self with
  | Standard stx =>
      let vk_reads := Z.of_nat (size (list_to_set ((fun c => (call_address c, call_entry_point c)) <$> calls_of self)
                                       : gset (ContractAddress * EntryPointBuf))) in
      let cost := baseline_cost model in
      let cost := (cost + (cell_read model VERIFIER_KEY_SIZE + map_index model EXPECTED_CONTRACT_DEPTH
                           + map_index model EXPECTED_OPERATIONS_DEPTH) * vk_reads)%cost in
      let offers := (offers_of stx).*2 in
      let cost := (cost + proof_verify model INPUT_PIS * Zsum (offer_input_count <$> offers))%cost in
      let cost := (cost + proof_verify model OUTPUT_PIS * Zsum (offer_output_count <$> offers))%cost in
      let cost := foldl intent_validation cost (intents_of self).*2 in
      let cost := add_compute cost (CostDuration_mul (CostDuration_add (cm_hash_to_curve cm) (cm_ec_mul cm))
                    (Zsum (count ∘ offer_deltas <$> offers))) in
      let cost := add_compute cost (cm_ec_mul cm) in
      let res := SyntheticCost_of_running cost in
      {| sc_read_time := sc_read_time res; sc_compute_time := sc_compute_time res; sc_block_usage := tx_size;
         sc_bytes_written := sc_bytes_written res; sc_bytes_churned := sc_bytes_churned res |}
  | ClaimRewards _ =>
      SyntheticCost_of_running (RunningCost_compute (cm_signature_verify_constant cm) + baseline_cost model)%cost
  end.
Definition validation_cost (self : Transaction) : SyntheticCost := validation_cost_of_size (est_size self) self.
End validation.

(** ** Application

    The costs of the guaranteed and of the fallible part, [g_cost] and [f_cost]. *)
Section application.
Context (model : TransactionCostModel).
Let cm := runtime_cost_model model.
Abbreviation costs := (RunningCost * RunningCost)%type.

Definition unshielded_offer_cost (cost : RunningCost) (offer : UnshieldedOffer) : RunningCost :=
  let inputs := count (uo_inputs offer) in
  let outputs := count (uo_outputs offer) in
  let night_inputs := count (filter (fun i => us_type i = NIGHT) (uo_inputs offer)) in
  let night_outputs := count (filter (fun o => uout_type o = NIGHT) (uo_outputs offer)) in
  let cost := (cost + map_index model EXPECTED_UTXO_DEPTH * inputs)%cost in
  let cost := (cost + (map_remove model EXPECTED_UTXO_DEPTH true + cell_delete UTXO_SIZE) * inputs)%cost in
  let cost := (cost + (map_insert EXPECTED_UTXO_DEPTH false + cell_write UTXO_SIZE false) * outputs)%cost in
  let cost := (cost + (merkle_tree_insert_unamortized model 32 false
                       + cell_write DUST_GENERATION_INFO_SIZE false) * night_inputs)%cost in
  let cost := (cost + (map_index model EXPECTED_UTXO_DEPTH + cell_read model FR_BYTES) * night_outputs)%cost in
  let cost := (cost + (cell_read model 8 + cell_write 8 true) * night_outputs)%cost in
  let cost := (cost + (merkle_tree_insert_amortized model 32 false
                       + cell_write DUST_GENERATION_INFO_SIZE false) * night_outputs)%cost in
  let cost := (cost + (map_insert EXPECTED_UTXO_DEPTH false + cell_write 8 false) * night_outputs)%cost in
  let cost := (cost + (cell_read model 8 + cell_write 8 true) * night_outputs)%cost in
  let cost := (cost + (merkle_tree_insert_amortized model EXPECTED_UTXO_DEPTH false
                       + cell_write FR_BYTES false) * night_outputs)%cost in
  (cost + RunningCost_compute (CostDuration_mul
     (CostDuration_mul (cm_transient_hash cm) FRESH_DUST_COMMITMENT_HASHES) night_outputs))%cost.

Definition registration_cost (intent : Intent) (g_cost : RunningCost) (reg : DustRegistration) : RunningCost :=
  match dust_address reg with
  | None => (g_cost + (map_remove model EXPECTED_GENERATION_DEPTH true + cell_delete FR_BYTES))%cost
  | Some _ =>
      let g_cost := (g_cost + (map_insert EXPECTED_GENERATION_DEPTH false + cell_write FR_BYTES false))%cost in
      let night_inputs := count (filter (fun i => us_owner i = night_key reg /\ us_type i = NIGHT)
        (option_list (guaranteed_unshielded_offer intent) ≫= uo_inputs)) in
      let g_cost := (g_cost + (map_index model EXPECTED_UTXO_DEPTH + cell_read model 8) * night_inputs)%cost in
      (g_cost + (merkle_tree_index model EXPECTED_UTXO_DEPTH
                 + cell_read model DUST_GENERATION_INFO_SIZE) * night_inputs)%cost
  end.

Definition transcript_cost (cost : RunningCost) (transcript : option Transcript) : RunningCost :=
  match transcript with
  | Some t => (cost + t_gas t + stack_setup_cost_for_effects model (t_effects t))%cost
  | None => cost
  end.
Definition update_part_cost (f_cost : RunningCost) (part : SingleUpdate) : RunningCost :=
  match part with
  | ReplaceAuthority auth => (f_cost + (tree_copy (authority_nodes auth) + map_insert 1 true))%cost
  | VerifierKeyRemove _ _ =>
      (f_cost + (map_remove model EXPECTED_OPERATIONS_DEPTH true + cell_delete VERIFIER_KEY_SIZE + map_insert 1 true))%cost
  | VerifierKeyInsert _ _ =>
      (f_cost + (map_insert EXPECTED_OPERATIONS_DEPTH false + cell_write VERIFIER_KEY_SIZE false + map_insert 1 true))%cost
  end.
Definition action_cost (gf : costs) (action : ContractAction) : costs :=
  let '(g_cost, f_cost) := gf in
  match action with
  | Call call =>
      let base := (map_index model EXPECTED_CONTRACT_DEPTH + map_insert EXPECTED_CONTRACT_DEPTH true
                   + map_index model 1 + map_insert 1 true)%cost in
      let '(g_cost, f_cost) := match guaranteed_transcript call with
                               | Some _ => (g_cost + base, f_cost)%cost
                               | None => (g_cost, f_cost + base)%cost
                               end in
      (transcript_cost g_cost (guaranteed_transcript call), transcript_cost f_cost (fallible_transcript call))
  | Deploy deploy =>
      let f_cost := (f_cost + map_index model EXPECTED_CONTRACT_DEPTH)%cost in
      (g_cost, f_cost + (map_insert EXPECTED_CONTRACT_DEPTH false
                         + tree_copy (contract_state_nodes (initial_state deploy))))%cost
  | Maintain upd =>
      let f_cost := (f_cost + map_index model EXPECTED_CONTRACT_DEPTH)%cost in
      let f_cost := (f_cost + (map_index model 1 * 2 + map_insert 1 true * 2 + cell_read model 8 + cell_write 8 true))%cost in
      let f_cost := foldl update_part_cost f_cost (mu_updates upd) in
      (g_cost, f_cost + map_insert EXPECTED_CONTRACT_DEPTH true)%cost
  end.

Definition replay_protection_cost (cost : RunningCost) : RunningCost :=
  (cost + (time_filter_map_lookup model + cell_read model HASH_BYTES)
        + (time_filter_map_insert false + cell_write HASH_BYTES false))%cost.
Definition intent_cost (gf : costs) (intent : Intent) : costs :=
  let '(g_cost, f_cost) := gf in
  let g_cost := replay_protection_cost g_cost in
  let g_cost := foldl unshielded_offer_cost g_cost (option_list (guaranteed_unshielded_offer intent)) in
  let f_cost := foldl unshielded_offer_cost f_cost (option_list (fallible_unshielded_offer intent)) in
  let dust_spends := spend_count intent in
  let g_cost := (g_cost + map_index model 32 * dust_spends)%cost in
  let g_cost := (g_cost + (map_insert EXPECTED_UTXO_DEPTH false + cell_write FR_BYTES false) * dust_spends)%cost in
  let g_cost := (g_cost + (cell_read model 8 + cell_write 8 true) * dust_spends)%cost in
  let g_cost := (g_cost + (merkle_tree_insert_amortized model EXPECTED_UTXO_DEPTH false
                           + cell_write FR_BYTES false) * dust_spends)%cost in
  let g_cost := (g_cost + time_filter_map_lookup model * 2)%cost in
  let g_cost := foldl (registration_cost intent) g_cost (option_list (dust_actions intent) ≫= registrations) in
  foldl action_cost (g_cost, f_cost) (actions intent).

Definition zswap_offer_cost (offer : Offer) : RunningCost :=
  let inputs := offer_input_count offer in
  let outputs := offer_output_count offer in
  (RunningCost_ZERO + map_index model EXPECTED_TIME_FILTER_MAP_DEPTH * inputs
   + map_index model EXPECTED_UTXO_DEPTH * inputs
   + (map_insert EXPECTED_UTXO_DEPTH false + cell_write HASH_BYTES false) * inputs
   + map_index model EXPECTED_UTXO_DEPTH * outputs
   + map_insert EXPECTED_UTXO_DEPTH false * outputs
   + (cell_read model 8 + cell_write 8 true) * outputs
   + merkle_tree_insert_amortized model EXPECTED_UTXO_DEPTH false * outputs)%cost.
Definition segment_offer_cost (gf : costs) (so : Segment * Offer) : costs :=
  let offer_cost := zswap_offer_cost so.2 in
  if so.1 =? GUARANTEED_SEGMENT then (gf.1 + offer_cost, gf.2)%cost
  else (add_compute gf.1 (rc_compute_time offer_cost), gf.2 + offer_cost)%cost.

Definition application_costs (self : Transaction) : costs :=
  let gf := foldl intent_cost (baseline_cost model, RunningCost_ZERO) (intents_of self).*2 in
  match self with
  | Standard stx => foldl segment_offer_cost gf (offers_of stx)
  | ClaimRewards _ =>
      let g_cost := (gf.1 + map_index model EXPECTED_UTXO_DEPTH + map_insert EXPECTED_UTXO_DEPTH true)%cost in
      (replay_protection_cost g_cost + map_insert EXPECTED_UTXO_DEPTH false, gf.2)%cost
  end.
Definition application_cost (self : Transaction) : SyntheticCost * SyntheticCost :=
  let '(g_cost, f_cost) := application_costs self in
  (SyntheticCost_of_running g_cost, SyntheticCost_of_running (g_cost + f_cost)%cost).
End application.

(** ** Cost and fees

    The division by the parallelism factor panics when that is 0. *)
Definition parallel_validation {E : Type} (model : TransactionCostModel) (cost : SyntheticCost) : outcome E SyntheticCost :=
  time ← unwrap (CostDuration_div_u64 (sc_compute_time cost) (parallelism_factor model));
  Ok {| sc_read_time := sc_read_time cost; sc_compute_time := time; sc_block_usage := sc_block_usage cost;
        sc_bytes_written := sc_bytes_written cost; sc_bytes_churned := sc_bytes_churned cost |}.
Definition time_to_dismiss {E : Type} (self : Transaction) (model : TransactionCostModel) : outcome E CostDuration :=
  validation ← parallel_validation model (validation_cost model self);
  Ok (SyntheticCost_max_time (SyntheticCost_add (application_cost model self).1 validation)).

(** [Transaction::cost] for a given size estimate. *)
Definition cost_of_size (size : Z) (self : Transaction) (params : LedgerParameters) (enforce_time_to_dismiss : bool)
    : outcome FeeCalculationError SyntheticCost :=
  let model := cost_model params in
  validation ← parallel_validation model (validation_cost_of_size model size self);
  let '(guaranteed, application) := application_cost model self in
  let cost_to_dismiss := SyntheticCost_add guaranteed validation in
  let allowed := Z.max (CostDuration_mul (time_to_dismiss_per_byte (limits params)) size)
                       (min_time_to_dismiss (limits params)) in
  if enforce_time_to_dismiss && (allowed <? SyntheticCost_max_time cost_to_dismiss)
  then Err (OutsideTimeToDismiss (SyntheticCost_max_time cost_to_dismiss) allowed size)
  else Ok (SyntheticCost_add validation application).
Definition transaction_cost (self : Transaction) : LedgerParameters -> bool -> outcome FeeCalculationError SyntheticCost :=
  cost_of_size (est_size self) self.

Definition fees_of_size (size : Z) (self : Transaction) (params : LedgerParameters) (enforce_time_to_dismiss : bool)
    : outcome FeeCalculationError Z :=
  synthetic ← cost_of_size size self params enforce_time_to_dismiss;
  normalized ← ok_or (normalize synthetic (block_limits (limits params))) BlockLimitExceeded;
  Ok (into_atomic_units (overall_cost (fee_prices params) normalized) SPECKS_PER_DUST).
Definition fees (self : Transaction) : LedgerParameters -> bool -> outcome FeeCalculationError Z :=
  fees_of_size (est_size self) self.
Definition max_price_adjustment (self : LedgerParameters) : FixedPoint :=
  FixedPoint_add (price_adjustment_function FixedPoint_ONE (price_adjustment_a_parameter self)) FixedPoint_ONE.
(** [margin as i32] wraps. *)
Definition fees_with_margin (self : Transaction) (params : LedgerParameters) (margin : Z)
    : outcome FeeCalculationError Z :=
  synthetic ← transaction_cost self params false;
  normalized ← ok_or (normalize synthetic (block_limits (limits params))) BlockLimitExceeded;
  let fees_fixed_point := overall_cost (fee_prices params) normalized in
  let exp := (margin + 2 ^ 31) mod 2 ^ 32 - 2 ^ 31 in
  Ok (into_atomic_units (FixedPoint_mul fees_fixed_point (powi (max_price_adjustment params) exp)) SPECKS_PER_DUST).

(** [LedgerParameters::min_claimable_rewards]: the cost of a reward claim does
    not depend on its contents, only its size estimate does. *)
Definition min_claimable_rewards {E : Type} (self : LedgerParameters) (phantom : ClaimRewardsTransaction) : outcome E Z :=
  match cost_of_size phantom_claim_size (ClaimRewards phantom) self true with
  | Panic => Panic
  | Err _ => Ok u128_max
  | Ok synthetic_fee =>
      let real_dust_fee := match normalize synthetic_fee (block_limits (limits self)) with
                           | Some norm => overall_cost (fee_prices self) norm
                           | None => FixedPoint_MAX
                           end in
      let night_dust_fp := from_u64_div (night_dust_ratio (dust_params self)) (SPECKS_PER_DUST / STARS_PER_NIGHT) in
      let night_to_pay_at_cap := FixedPoint_div real_dust_fee night_dust_fp in
      let min_night_fp := FixedPoint_mul night_to_pay_at_cap (block_withdrawal_minimum_multiple (limits self)) in
      Ok (into_atomic_units min_night_fp STARS_PER_NIGHT)
  end.

(** ** System transactions *)
Section system.
Context (params : LedgerParameters).
Let model := cost_model params.
Let cm := runtime_cost_model model.

Definition commitment_insertion_cost : RunningCost :=
  ((cell_read model 8 + cell_write 8 true)
   + (merkle_tree_insert_amortized model EXPECTED_UTXO_DEPTH false + cell_write FR_BYTES false)
   + RunningCost_compute (CostDuration_mul (cm_transient_hash cm) FRESH_DUST_COMMITMENT_HASHES))%cost.
Definition treasury_update_cost : RunningCost :=
  ((cell_read model 16 + cell_write 16 true) + map_index model EXPECTED_TOKEN_TYPE_DEPTH
   + map_insert EXPECTED_TOKEN_TYPE_DEPTH true)%cost.
Definition cnight_create_cost : RunningCost :=
  ((map_index model EXPECTED_UTXO_DEPTH + cell_read model FR_BYTES)
   + (cell_read model 8 + cell_write 8 true)
   + (merkle_tree_insert_amortized model 32 false + cell_write DUST_GENERATION_INFO_SIZE false)
   + (map_insert EXPECTED_UTXO_DEPTH false + cell_write 8 false)
   + commitment_insertion_cost)%cost.
Definition cnight_destroy_cost : RunningCost :=
  (map_index model EXPECTED_GENERATION_DEPTH + merkle_tree_index model EXPECTED_GENERATION_DEPTH
   + merkle_tree_insert_unamortized model 32 true)%cost.

Definition system_transaction_cost (self : SystemTransaction) : SyntheticCost :=
  SyntheticCost_of_running match self with
  | OverwriteParameters new_params => cell_write (params_serialized_size new_params) true
  | DistributeNight _ outputs =>
      ((replay_protection_cost model RunningCost_ZERO + map_insert EXPECTED_GENERATION_DEPTH false
        + cell_write 16 false + commitment_insertion_cost) * count outputs)%cost
  | PayBlockRewardsToTreasury _ => treasury_update_cost
  | PayFromTreasuryShielded outputs _ _ =>
      ((RunningCost_compute (cm_transient_hash cm) + merkle_tree_insert_amortized model ZSWAP_TREE_HEIGHT false
        + (map_insert EXPECTED_UTXO_DEPTH false + cell_write HASH_BYTES false)) * count outputs
       + treasury_update_cost)%cost
  | PayFromTreasuryUnshielded outputs _ =>
      ((replay_protection_cost model RunningCost_ZERO + map_insert EXPECTED_UTXO_DEPTH false
        + cell_write UTXO_SIZE false) * count outputs
       + treasury_update_cost + commitment_insertion_cost)%cost
  | DistributeReserve _ => ((cell_read model 16 + cell_write 16 true) * 2)%cost
  | CNightGeneratesDustUpdate events =>
      let creates := count (filter (fun e => cn_action e = Create) events) in
      let destroys := count events - creates in
      (cnight_create_cost * creates + cnight_destroy_cost * destroys)%cost
  end.
End system.
End costs.
