(* ===== verification/Dust.v ===== *)
(** * Dust ([ledger/src/dust.rs])

    Dust pays for fees.  It is generated by Night: every Night output of a
    registered owner gets an entry in the generation tree and an initial Dust
    output in the commitment tree.  A Dust output grows until it reaches a cap
    and, once its Night is spent, decays to nothing. *)
From S2P Require Import Prelude Time CostModel Fab FabSerial MerkleTree FieldRepr TimeFilterMap Zswap StateValue VmOps Coin DeltaTracking Runtime LedgerData.
Set Warnings "-register-all".

Definition DUST_COMMITMENT_TREE_DEPTH : Z := 32.
Definition DUST_GENERATION_TREE_DEPTH : Z := 32.

(** ** Outputs and generation *)
Record DustOutput := {
  do_initial_value : Z;
  do_owner : DustPublicKey;
  do_nonce : Fr;
  do_seq : Z;
  do_ctime : Z
}.
Record QualifiedDustOutput := {
  qdo_output : DustOutput;
  backing_night : InitialNonce;
  qdo_mt_index : Z
}.
Record DustGenerationInfo := {
  gen_value : Z;
  gen_owner : DustPublicKey;
  gen_nonce : InitialNonce;
  gen_dtime : Z
}.
(** [DustGenerationUniquenessInfo]: value, owner, nonce. *)
Abbreviation DustGenerationUniquenessInfo := (Z * DustPublicKey * InitialNonce)%type.
Definition uniqueness_info (info : DustGenerationInfo) : DustGenerationUniquenessInfo :=
  (gen_value info, gen_owner info, gen_nonce info).

(** [DustOutput::updated_value]. *)
Definition updated_value (self : DustOutput) (gen_info : DustGenerationInfo) (now : Z) (params : DustParameters) : Z :=
  let vfull := sat_mul u128_max (gen_value gen_info) (night_dust_ratio params) in
  let rate := sat_mul u128_max (gen_value gen_info) (generation_decay_rate params) in
  let tend_phase_12 := Z.min (gen_dtime gen_info) now in
  let dt_phase_12 := Timestamp_diff tend_phase_12 (do_ctime self) in
  let dt_phase_12 := if 0 <=? dt_phase_12 then dt_phase_12 else 0 in
  let value_phase_1_unchecked := sat_add u128_max (sat_mul u128_max dt_phase_12 rate) (do_initial_value self) in
  let value_phase_12 := Z.min value_phase_1_unchecked vfull in
  let dt_phase_3 := Timestamp_diff now (gen_dtime gen_info) in
  let dt_phase_3 := if 0 <=? dt_phase_3 then dt_phase_3 else 0 in
  sat_sub value_phase_12 (sat_mul u128_max dt_phase_3 rate).

(** ** Hashes *)
Section hashes.
Context `{Hashing}.

(** [DustPreProjection::commitment]. *)
Definition dust_commitment (initial_value : Z) (owner : DustPublicKey) (nonce : Fr) (ctime : Z) : DustCommitment :=
  transient_commit [initial_value; owner; nonce; ctime] (from_le_bytes (ascii_bytes "mdn:dust:cm")).
(** [DustPreProjection::nullifier], [owner] being the secret key. *)
Definition dust_nullifier (initial_value : Z) (owner : Fr) (nonce : Fr) (ctime : Z) : DustNullifier :=
  transient_commit [initial_value; owner; nonce; ctime] (from_le_bytes (ascii_bytes "mdn:dust:nul")).
Definition dust_nonce (initial_nonce : InitialNonce) (seq : Z) (sk : Fr) : Fr :=
  transient_hash (hash_field_repr initial_nonce ++ [seq; sk]).
Definition dust_first_nonce (initial_nonce : InitialNonce) (dust_addr : DustPublicKey) : Fr :=
  transient_hash (hash_field_repr initial_nonce ++ [0; dust_addr]).
(** [DustGenerationInfo::merkle_hash]. *)
Definition merkle_hash (self : DustGenerationInfo) : HashOutput :=
  upgrade_from_transient (transient_hash
    ([gen_value self; gen_owner self] ++ hash_field_repr (gen_nonce self) ++ [gen_dtime self])).
End hashes.

(** ** Errors *)
Inductive DustStateError :=
| DSE_GenerationInfoAlreadyPresent (gen_info : DustGenerationInfo)
| DSE_MerkleTreeError (err : InvalidUpdate).
Inductive InvariantViolation := NightBalance (total : Z).
Inductive TransactionApplicationError :=
| IntentTtlExpired (ttl tblock : Z)
| IntentTtlTooFarInFuture (ttl limit : Z)
| IntentAlreadyExists.
Inductive BalanceOperation := Addition | Subtraction.
Inductive TransactionInvalid :=
| EffectsMismatch (declared actual : Effects)
| ContractAlreadyDeployed (addr : ContractAddress)
| ContractNotPresent (addr : ContractAddress)
| TI_Zswap (err : ZswapInvalid)
| TI_Transcript (err : TranscriptRejected)
| InsufficientClaimable (requested claimable : Z) (claimant : UserAddress) (kind : ClaimKind)
| VerifierKeyNotFound (ep : EntryPointBuf) (ver : ContractOperationVersion)
| VerifierKeyAlreadyPresent (ep : EntryPointBuf) (ver : ContractOperationVersion)
| ReplayCounterMismatch (addr : ContractAddress)
| ReplayProtectionViolation (err : TransactionApplicationError)
| BalanceCheckOutOfBounds (token_type : TokenType) (current_balance operation_value : Z) (operation : BalanceOperation)
| InputNotInUtxos (utxo : Utxo)
| DustDoubleSpend (nullifier : DustNullifier)
| DustDeregistrationNotRegistered (addr : UserAddress)
| TI_GenerationInfoAlreadyPresent (gen_info : DustGenerationInfo)
| TI_InvariantViolation (e : InvariantViolation)
| RewardTooSmall (claimed minimum : Z)
| DivideByZero
| TI_MerkleTreeError (err : InvalidUpdate).
(** [From<DustStateError> for TransactionInvalid]. *)
Definition dust_invalid (err : DustStateError) : TransactionInvalid :=
  match err with
  | DSE_GenerationInfoAlreadyPresent gen_info => TI_GenerationInfoAlreadyPresent gen_info
  | DSE_MerkleTreeError err => TI_MerkleTreeError err
  end.

(** ** State *)
Record DustUtxoState := {
  du_commitments : MerkleTreeNode unit;
  commitments_first_free : Z;
  du_nullifiers : gset DustNullifier;
  du_root_history : TimeFilterMap (Identity Fr) Fr
}.
Definition DustUtxoState_default : DustUtxoState := {|
  du_commitments := blank DUST_COMMITMENT_TREE_DEPTH; commitments_first_free := 0;
  du_nullifiers := ∅; du_root_history := tf_new |}.
Record DustGenerationState := {
  address_delegation : gmap UserAddress DustPublicKey;
  generating_tree : MerkleTreeNode DustGenerationInfo;
  generating_tree_first_free : Z;
  generating_set : gset DustGenerationUniquenessInfo;
  night_indices : gmap InitialNonce Z;
  dg_root_history : TimeFilterMap (Identity Fr) Fr
}.
Definition DustGenerationState_default : DustGenerationState := {|
  address_delegation := ∅; generating_tree := blank DUST_GENERATION_TREE_DEPTH;
  generating_tree_first_free := 0; generating_set := ∅; night_indices := ∅; dg_root_history := tf_new |}.
Record DustState := { du : DustUtxoState; generation : DustGenerationState }.
Definition DustState_default : DustState := {| du := DustUtxoState_default; generation := DustGenerationState_default |}.

(** ** Events

    Events are built when they are reported, not when they are pushed: [None]
    is one whose construction panics. *)
Inductive EventDetails `{KeyTypes} :=
| EZswapInput (nullifier : Nullifier) (contract : option ContractAddress)
| EZswapOutput (commitment : Commitment) (ciphertext : option CoinCiphertext) (contract : option ContractAddress)
    (mt_index : Z)
| EContractDeploy (address : ContractAddress) (initial_state : ContractState)
| EContractLog (address : ContractAddress) (entry_point : EntryPointBuf) (logged_item : StateValue)
| EParamChange (params : LedgerParameters)
| EDustInitialUtxo (output : QualifiedDustOutput) (generation : DustGenerationInfo) (generation_index block_time : Z)
| EDustGenerationDtimeUpdate (update : TreeInsertionPath DustGenerationInfo) (block_time : Z)
| EDustSpendProcessed (commitment : DustCommitment) (commitment_index : Z) (nullifier : DustNullifier)
    (v_fee declared_time block_time : Z).
Abbreviation Deferred := (list (option EventDetails)).

Section dust.
Context `{LedgerHashing} `{Hashing}.

Definition set_commitments (self : DustState) (tree : MerkleTreeNode unit) (first_free : Z) : DustState := {|
  du := {| du_commitments := tree; commitments_first_free := first_free;
           du_nullifiers := du_nullifiers (du self); du_root_history := du_root_history (du self) |};
  generation := generation self |}.
Definition set_generating_tree (self : DustState) (tree : MerkleTreeNode DustGenerationInfo) : DustState := {|
  du := du self;
  generation := {|
    address_delegation := address_delegation (generation self); generating_tree := tree;
    generating_tree_first_free := generating_tree_first_free (generation self);
    generating_set := generating_set (generation self); night_indices := night_indices (generation self);
    dg_root_history := dg_root_history (generation self) |} |}.
Definition set_delegation (self : DustState) (delegation : gmap UserAddress DustPublicKey) : DustState := {|
  du := du self;
  generation := {|
    address_delegation := delegation; generating_tree := generating_tree (generation self);
    generating_tree_first_free := generating_tree_first_free (generation self);
    generating_set := generating_set (generation self); night_indices := night_indices (generation self);
    dg_root_history := dg_root_history (generation self) |} |}.

(** [DustState::apply_spend]. *)
Definition apply_spend (self : DustState) (spend : DustSpend) (time : Z) (block_time : Z)
    : outcome TransactionInvalid (DustState * Deferred) :=
  let u := du self in
  if bool_decide (old_nullifier spend ∈ du_nullifiers u) then Err (DustDoubleSpend (old_nullifier spend))
  else
    tree ← map_err TI_MerkleTreeError
             (try_update_hash (du_commitments u) (commitments_first_free u)
                (upgrade_from_transient (new_commitment spend)) tt);
    Ok ({| du := {| du_commitments := tree;
                    commitments_first_free := trunc u64_max (commitments_first_free u + 1);
                    du_nullifiers := {[ old_nullifier spend ]} ∪ du_nullifiers u;
                    du_root_history := du_root_history u |};
           generation := generation self |},
        [Some (EDustSpendProcessed (new_commitment spend)
                 (trunc u64_max (trunc u64_max (commitments_first_free u + 1) - 1)) (old_nullifier spend)
                 (v_fee spend) time block_time)]).

(** [DustState::fresh_dust_output]. *)
Definition fresh_dust_output (self : DustState) (nonce : InitialNonce) (initial_value night_value : Z)
    (dust_addr : DustPublicKey) (tnow tblock : Z) : outcome DustStateError (DustState * Deferred) :=
  let u := du self in let g := generation self in
  let first_nonce := dust_first_nonce nonce dust_addr in
  commitments ← map_err DSE_MerkleTreeError
    (try_update_hash (du_commitments u) (commitments_first_free u)
       (upgrade_from_transient (dust_commitment initial_value dust_addr first_nonce tnow)) tt);
  let gen_info := {| gen_value := night_value; gen_owner := dust_addr; gen_nonce := nonce; gen_dtime := u64_max |} in
  if bool_decide (uniqueness_info gen_info ∈ generating_set g) then Err (DSE_GenerationInfoAlreadyPresent gen_info)
  else
    tree ← map_err DSE_MerkleTreeError
      (try_update_hash (generating_tree g) (generating_tree_first_free g) (merkle_hash gen_info) gen_info);
    let commitment_index := commitments_first_free u in
    let generation_index := generating_tree_first_free g in
    Ok ({| du := {| du_commitments := commitments;
                    commitments_first_free := trunc u64_max (commitment_index + 1);
                    du_nullifiers := du_nullifiers u; du_root_history := du_root_history u |};
           generation := {|
             address_delegation := address_delegation g; generating_tree := tree;
             generating_tree_first_free := trunc u64_max (generation_index + 1);
             generating_set := {[ uniqueness_info gen_info ]} ∪ generating_set g;
             night_indices := <[nonce := generation_index]> (night_indices g);
             dg_root_history := dg_root_history g |} |},
        [Some (EDustInitialUtxo
           {| qdo_output := {| do_initial_value := initial_value; do_owner := dust_addr; do_nonce := first_nonce;
                               do_seq := 0; do_ctime := tnow |};
              backing_night := nonce; qdo_mt_index := commitment_index |}
           gen_info generation_index tblock)]).

(** [DustState::generationless_fee_availability]: the Dust that Night inputs
    without a generation entry would have generated. *)
Definition generationless_input (self : DustState) (utxo_state : UtxoState) (params : DustParameters) (tend : Z)
    (i : UtxoSpend) : Z :=
  let vfull := sat_mul u128_max (us_value i) (night_dust_ratio params) in
  let rate := sat_mul u128_max (us_value i) (generation_decay_rate params) in
  match utxos utxo_state !! utxo_of_spend i with
  | None => 0
  | Some meta =>
      let dt := Timestamp_diff tend (meta_ctime meta) in
      let dt := if dt <? 0 then 0 else dt in
      Z.min (sat_mul u128_max dt rate) vfull
  end.
Definition generationless_fee_availability (self : DustState) (utxo_state : UtxoState) (parent_intent : Intent)
    (key : VerifyingKey) (params : DustParameters) : Z :=
  match dust_actions parent_intent with
  | None => 0
  | Some da =>
      let inputs := match guaranteed_unshielded_offer parent_intent with Some o => uo_inputs o | None => [] end in
      let inputs := filter (fun i => us_owner i = key /\ us_type i = NIGHT) inputs in
      let inputs := filter (fun i => spend_initial_nonce i ∉ dom (night_indices (generation self))) inputs in
      foldl (fun a i => sat_add u128_max a (generationless_input self utxo_state params (da_ctime da) i)) 0 inputs
  end.

Definition DISTRIBUTION_RESOLUTION : Z := 10000.
(** The share of [dust_out] of one output. *)
Definition distributed_value (value output_sum dust_out : Z) : option Z :=
  if output_sum =? 0 then None
  else
    let ratio := sat_mul u128_max value DISTRIBUTION_RESOLUTION / output_sum in
    Some (sat_mul u128_max ratio dust_out / DISTRIBUTION_RESOLUTION).
Definition owned_outputs (parent_intent : Intent) (night_address : UserAddress) : list (nat * UtxoOutput) :=
  filter (fun no => uout_owner no.2 = night_address /\ uout_type no.2 = NIGHT)
    (imap pair (match guaranteed_unshielded_offer parent_intent with Some o => uo_outputs o | None => [] end)).
Definition output_sum (outputs : list (nat * UtxoOutput)) : Z :=
  foldl (sat_add u128_max) 0 ((fun no => uout_value no.2) <$> outputs).

Definition registration_output (parent_intent : Intent) (dust_addr : DustPublicKey) (sum dust_out tnow tblock : Z)
    (acc : DustState * Deferred) (no : nat * UtxoOutput) : outcome TransactionInvalid (DustState * Deferred) :=
  initial_value ← ok_or (distributed_value (uout_value no.2) sum dust_out) DivideByZero;
  '(state, events) ← map_err dust_invalid
    (fresh_dust_output acc.1 (initial_nonce (trunc u32_max (Z.of_nat no.1)) (intent_hash parent_intent 0))
       initial_value (uout_value no.2) dust_addr tnow tblock);
  Ok (state, acc.2 ++ events).

(** [DustState::apply_registration]. *)
Definition apply_registration (self : DustState) (utxo : UtxoState) (fees_remaining : Z) (parent_intent : Intent)
    (registration : DustRegistration) (params : DustParameters) (tnow tblock : Z)
    : outcome TransactionInvalid (DustState * Z * Deferred) :=
  let night_address := vk_address (night_key registration) in
  let delegation := address_delegation (generation self) in
  state ← match dust_address registration with
          | None =>
              if bool_decide (night_address ∈ dom delegation)
              then Ok (set_delegation self (delete night_address delegation))
              else Err (DustDeregistrationNotRegistered night_address)
          | Some addr => Ok (set_delegation self (<[night_address := addr]> delegation))
          end;
  let outputs := owned_outputs parent_intent night_address in
  let dust_in := generationless_fee_availability self utxo parent_intent (night_key registration) params in
  let fee_paid := Z.min fees_remaining (Z.min (allow_fee_payment registration) dust_in) in
  let dust_out := dust_in - fee_paid in
  '(state, events) ← match dust_address registration with
    | Some addr =>
        try_fold (registration_output parent_intent addr (output_sum outputs) dust_out tnow tblock) (state, []) outputs
    | None => Ok (state, [])
    end;
  Ok (state, fees_remaining - fee_paid, events).

(** [DustState::apply_offer]: spent Night stops generating, new Night starts. *)
Definition set_dtime (gen_info : DustGenerationInfo) (dtime : Z) : DustGenerationInfo := {|
  gen_value := gen_value gen_info; gen_owner := gen_owner gen_info; gen_nonce := gen_nonce gen_info; gen_dtime := dtime |}.
Definition dtime_event (tree : outcome TransactionInvalid (MerkleTreeNode DustGenerationInfo)) (idx block_time : Z)
    : option EventDetails :=
  match tree with
  | Ok t => match insertion_evidence t idx with
            | Ok update => Some (EDustGenerationDtimeUpdate update block_time)
            | _ => None
            end
  | _ => None
  end.
Definition offer_input (tblock : Z) (acc : DustState * Deferred) (input : UtxoSpend)
    : outcome TransactionInvalid (DustState * Deferred) :=
  let g := generation acc.1 in
  match night_indices g !! spend_initial_nonce input with
  | None => Ok acc
  | Some idx =>
      match mt_index (generating_tree g) idx with
      | None => Ok acc
      | Some (_, gen_info) =>
          let gen_info := set_dtime gen_info tblock in
          tree ← map_err TI_MerkleTreeError (try_update_hash (generating_tree g) idx (merkle_hash gen_info) gen_info);
          Ok (set_generating_tree acc.1 tree, acc.2 ++ [dtime_event (rehash tree) idx tblock])
      end
  end.
Definition handled_by_registration (parent : Intent) (segment : Segment) (owner : UserAddress) : bool :=
  (segment =? 0) &&
  match dust_actions parent with
  | Some da => existsb (fun reg => bool_decide (owner = vk_address (night_key reg))) (registrations da)
  | None => false
  end.
Definition offer_output (parent : Intent) (segment : Segment) (tblock : Z) (acc : DustState * Deferred)
    (no : nat * UtxoOutput) : outcome TransactionInvalid (DustState * Deferred) :=
  match address_delegation (generation acc.1) !! uout_owner no.2 with
  | None => Ok acc
  | Some dust_addr =>
      if handled_by_registration parent segment (uout_owner no.2) then Ok acc
      else
        '(state, events) ← map_err dust_invalid
          (fresh_dust_output acc.1 (initial_nonce (trunc u32_max (Z.of_nat no.1)) (intent_hash parent segment))
             0 (uout_value no.2) dust_addr tblock tblock);
        Ok (state, acc.2 ++ events)
  end.
Definition dust_apply_offer (self : DustState) (offer : UnshieldedOffer) (parent : Intent) (segment : Segment)
    (tblock : Z) : outcome TransactionInvalid (DustState * Deferred) :=
  acc ← try_fold (offer_input tblock) (self, []) (filter (fun i => us_type i = NIGHT) (uo_inputs offer));
  try_fold (offer_output parent segment tblock) acc
    (filter (fun no => uout_type no.2 = NIGHT) (imap pair (uo_outputs offer))).

(** [DustState::post_block_update]. *)
Definition record_root (history : TimeFilterMap (Identity Fr) Fr) (tblock ttl : Z) (root : Fr)
    : TimeFilterMap (Identity Fr) Fr := tf_filter (tf_insert history tblock root) (Timestamp_sub tblock ttl).
Definition dust_post_block_update {E} (self : DustState) (tblock ttl : Z) : outcome E DustState :=
  let u := du self in let g := generation self in
  commitments ← rehash (du_commitments u);
  root ← unwrap (mt_root commitments);
  tree ← rehash (generating_tree g);
  gen_root ← unwrap (mt_root tree);
  Ok {| du := {| du_commitments := commitments; commitments_first_free := commitments_first_free u;
                 du_nullifiers := du_nullifiers u;
                 du_root_history := record_root (du_root_history u) tblock ttl root |};
        generation := {|
          address_delegation := address_delegation g; generating_tree := tree;
          generating_tree_first_free := generating_tree_first_free g; generating_set := generating_set g;
          night_indices := night_indices g;
          dg_root_history := record_root (dg_root_history g) tblock ttl gen_root |} |}.
End dust.
