(* ===== verification/Ledger.v ===== *)
(** * Ledger state transitions ([ledger/src/semantics.rs], [structure.rs])

    The ledger state, and how transactions, system transactions and the end of
    a block change it.  [u128] and [u64] sums written with [+] and [-] wrap, as
    in a release build; the ones the code writes with [saturating_] and
    [checked_] operations do not.  Deferred events are forced where the code
    calls them, and forcing one may panic. *)
From S2P Require Import Prelude Time CostModel Fab FabSerial MerkleTree TimeFilterMap Zswap.
From S2P Require Import StateValue VmOps Coin DeltaTracking Runtime LedgerData LedgerCost Dust.
Set Warnings "-register-all".

Record EventSource := {
  transaction_hash : TransactionHash;
  logical_segment : Segment;
  physical_segment : Segment
}.
Abbreviation Event := (EventSource * EventDetails)%type.
Abbreviation DeferredEvents := (list (option Event)).
Definition with_source `{KeyTypes} (source : EventSource) (events : Deferred) : DeferredEvents :=
  map (option_map (pair source)) events.
(** Forcing deferred events. *)
Definition force `{KeyTypes} {E : Type} (events : DeferredEvents) : outcome E (list Event) :=
  unwrap (mapM (M := option) id events).

Inductive SystemTransactionError :=
| IllegalPayout (claimed_amount : option Z) (supply : Z) (bridged_amount : option Z) (locked : Z)
| ReplayProtectionFailure (err : TransactionApplicationError)
| IllegalReserveDistribution (distributed_amount reserve_supply : Z)
| STE_GenerationInfoAlreadyPresent (gen_info : DustGenerationInfo)
| InvalidBasisPoints (points : Z)
| STE_InvariantViolation (e : InvariantViolation)
| TreasuryDisabled
| STE_MerkleTreeError (err : InvalidUpdate).
(** [From<DustStateError> for SystemTransactionError]. *)
Definition system_dust_error (err : DustStateError) : SystemTransactionError :=
  match err with
  | DSE_GenerationInfoAlreadyPresent gen_info => STE_GenerationInfoAlreadyPresent gen_info
  | DSE_MerkleTreeError err => STE_MerkleTreeError err
  end.

(** ** Replay protection *)
Record ReplayProtectionState := { time_filter_map : TimeFilterMap (gset IntentHash) IntentHash }.
Definition ReplayProtectionState_default : ReplayProtectionState := {| time_filter_map := tf_new |}.
Definition apply_member (self : ReplayProtectionState) (hash : IntentHash) (ttl tblock global_ttl : Z)
    : outcome TransactionApplicationError ReplayProtectionState :=
  if tf_contains (time_filter_map self) hash then Err IntentAlreadyExists
  else if ttl <? tblock then Err (IntentTtlExpired ttl tblock)
  else if Timestamp_add tblock global_ttl <? ttl
  then Err (IntentTtlTooFarInFuture ttl (Timestamp_add tblock global_ttl))
  else Ok {| time_filter_map := tf_upsert_one ∅ (∪) (time_filter_map self) ttl hash |}.
Definition replay_post_block_update (self : ReplayProtectionState) (tblock : Z) : ReplayProtectionState :=
  {| time_filter_map := tf_filter (time_filter_map self) tblock |}.

(** ** The ledger state *)
Record LedgerState `{KeyTypes} := {
  ls_network_id : string;
  parameters : LedgerParameters;
  locked_pool : Z;
  bridge_receiving : gmap UserAddress Z;
  reserve_pool : Z;
  block_reward_pool : Z;
  unclaimed_block_rewards : gmap UserAddress Z;
  treasury : gmap TokenType Z;
  zswap : ZswapState;
  contract : gmap ContractAddress ContractState;
  utxo : UtxoState;
  replay_protection : ReplayProtectionState;
  dust : DustState
}.
Section setters.
Context `{KeyTypes}.
Implicit Types self : LedgerState.

Definition with_pools self (locked : Z) (receiving : gmap UserAddress Z) (reserve reward : Z)
    (unclaimed : gmap UserAddress Z) (treas : gmap TokenType Z) : LedgerState := {|
  ls_network_id := ls_network_id self; parameters := parameters self; locked_pool := locked;
  bridge_receiving := receiving; reserve_pool := reserve; block_reward_pool := reward;
  unclaimed_block_rewards := unclaimed; treasury := treas; zswap := zswap self; contract := contract self;
  utxo := utxo self; replay_protection := replay_protection self; dust := dust self |}.
Definition with_parts self (params : LedgerParameters) (zs : ZswapState) (cs : gmap ContractAddress ContractState)
    (ut : UtxoState) (rp : ReplayProtectionState) (du : DustState) : LedgerState := {|
  ls_network_id := ls_network_id self; parameters := params; locked_pool := locked_pool self;
  bridge_receiving := bridge_receiving self; reserve_pool := reserve_pool self;
  block_reward_pool := block_reward_pool self; unclaimed_block_rewards := unclaimed_block_rewards self;
  treasury := treasury self; zswap := zs; contract := cs; utxo := ut; replay_protection := rp; dust := du |}.
Definition with_parameters self params :=
  with_parts self params (zswap self) (contract self) (utxo self) (replay_protection self) (dust self).
Definition with_zswap self zs :=
  with_parts self (parameters self) zs (contract self) (utxo self) (replay_protection self) (dust self).
Definition with_contract self cs :=
  with_parts self (parameters self) (zswap self) cs (utxo self) (replay_protection self) (dust self).
Definition with_utxo self ut :=
  with_parts self (parameters self) (zswap self) (contract self) ut (replay_protection self) (dust self).
Definition with_replay self rp :=
  with_parts self (parameters self) (zswap self) (contract self) (utxo self) rp (dust self).
Definition with_dust self du :=
  with_parts self (parameters self) (zswap self) (contract self) (utxo self) (replay_protection self) du.
End setters.

Record TransactionContext `{KeyTypes} := {
  ref_state : LedgerState;
  block_context : BlockContext;
  whitelist : option (gset ContractAddress)
}.
Inductive TransactionResult `{KeyTypes} :=
| Success (events : list Event)
| PartialSuccess (segments : gmap Segment (option TransactionInvalid)) (events : list Event)
| Failure (err : TransactionInvalid).

(** The hash of a system transaction comes from serialization. *)
Class SystemHashing `{KeyTypes} := { system_transaction_hash : SystemTransaction -> TransactionHash }.

(** ** Conservation of Night

    [NightAnn] annotates each map with the saturating sum of its Night. *)
Definition night_sum (l : list Z) : Z := foldl (sat_add u128_max) 0 l.
Section night.
Context `{KeyTypes}.
Definition utxo_night (u : Utxo) : Z := if decide (utxo_type u = NIGHT) then utxo_value u else 0.
Definition utxo_ann (self : UtxoState) : Z := night_sum (utxo_night <$> (map_to_list (utxos self)).*1).
Definition contract_night (c : ContractState) : Z := default 0 (cst_balance c !! Unshielded NIGHT).
Definition contract_ann (m : gmap ContractAddress ContractState) : Z := night_sum (contract_night <$> (map_to_list m).*2).
Definition rewards_ann (m : gmap UserAddress Z) : Z := night_sum (map_to_list m).*2.
Definition treasury_night (m : gmap TokenType Z) : Z := default 0 (m !! Unshielded NIGHT).
Definition total_night (self : LedgerState) : Z :=
  utxo_ann (utxo self) + locked_pool self + reserve_pool self + block_reward_pool self +
  treasury_night (treasury self) + rewards_ann (unclaimed_block_rewards self) + contract_ann (contract self).
Definition check_night_balance_invariant (self : LedgerState) : outcome InvariantViolation unit :=
  let total := trunc u128_max (total_night self) in
  if total =? MAX_SUPPLY then Ok tt else Err (NightBalance total).
End night.

Section ledger.
Context `{LedgerHashing} `{Hashing} `{!Sizes} `{!SystemHashing}
  {FO : FieldOrder} {SS : StateStorage} {SA : StateArena}.

(** ** Construction and contracts *)
Definition with_genesis_settings (network_id : string) (params : LedgerParameters) (locked reserve treas : Z)
    : outcome InvariantViolation LedgerState :=
  let result := {|
    ls_network_id := network_id; parameters := params; locked_pool := locked; bridge_receiving := ∅;
    reserve_pool := reserve; block_reward_pool := 0; unclaimed_block_rewards := ∅;
    treasury := {[ Unshielded NIGHT := treas ]}; zswap := ZswapState_default; contract := ∅;
    utxo := UtxoState_default; replay_protection := ReplayProtectionState_default; dust := DustState_default |} in
  check_night_balance_invariant result ≫= fun _ => Ok result.
Definition LedgerState_new {E : Type} (network_id : string) : outcome E LedgerState :=
  match with_genesis_settings network_id INITIAL_PARAMETERS 0 MAX_SUPPLY 0 with Ok s => Ok s | _ => Panic end.
(** [update_index]; a missing contract would be created from the default state. *)
Definition update_index {E : Type} (self : LedgerState) (address : ContractAddress) (state : ChargedState)
    (balance : gmap TokenType Z) : outcome E LedgerState :=
  c ← match contract self !! address with Some c => Ok c | None => ContractState_default end;
  Ok (with_contract self (<[address := {| cst_data := state; operations := operations c;
        maintenance_authority := maintenance_authority c; cst_balance := balance |}]> (contract self))).
Definition whitelist_matches (whitelist : option (gset ContractAddress)) (addr : ContractAddress) : bool :=
  match whitelist with Some wl => bool_decide (addr ∈ wl) | None => true end.

(** ** Unshielded offers *)
Definition spend_utxo (res : UtxoState) (input : UtxoSpend) : outcome TransactionInvalid UtxoState :=
  if bool_decide (utxo_of_spend input ∈ dom (utxos res)) then Ok (utxo_remove res (utxo_of_spend input))
  else Err (InputNotInUtxos (utxo_of_spend input)).
Definition offer_utxos (offer : UnshieldedOffer) (hash : IntentHash) : list Utxo :=
  imap (fun output_no o => {| utxo_value := uout_value o; utxo_owner := uout_owner o; utxo_type := uout_type o;
                              utxo_intent_hash := hash; utxo_output_no := trunc u32_max (Z.of_nat output_no) |})
    (uo_outputs offer).
Definition utxo_apply_offer (self : UtxoState) (offer : UnshieldedOffer) (parent : Intent) (segment_id : Segment)
    (tblock : Z) : outcome TransactionInvalid UtxoState :=
  res ← try_fold spend_utxo self (uo_inputs offer);
  Ok (foldl (fun res u => utxo_insert res u {| meta_ctime := tblock |}) res
        (offer_utxos offer (intent_hash parent segment_id))).

(** ** Replay protection of transactions *)
Definition apply_intent (self : ReplayProtectionState) (intent : Intent) (tblock global_ttl : Z)
    : outcome TransactionApplicationError ReplayProtectionState :=
  apply_member self (intent_hash intent 0) (ttl intent) tblock global_ttl.
Definition apply_tx (self : ReplayProtectionState) (stx : StandardTransaction) (tblock global_ttl : Z)
    : outcome TransactionApplicationError ReplayProtectionState :=
  try_fold (fun st si => apply_intent st si.2 tblock global_ttl) self (sorted_map (intents stx)).

(** ** Zswap offers *)
Definition zswap_input_events (offer : Offer) : list EventDetails :=
  ((fun i => EZswapInput (inp_nullifier i) (inp_contract_address i)) <$> offer_inputs offer) ++
  ((fun t => EZswapInput (tr_nullifier t) (tr_contract_address t)) <$> offer_transient offer).
Definition zswap_output_event {E : Type} (com_indices : gmap Commitment Z) (com : Commitment)
    (ciphertext : option CoinCiphertext) (contract : option ContractAddress) : outcome E EventDetails :=
  mt_index ← unwrap (com_indices !! com);
  Ok (EZswapOutput com ciphertext contract mt_index).
Definition zswap_output_events {E : Type} (com_indices : gmap Commitment Z) (offer : Offer) : outcome E (list EventDetails) :=
  try_fold (fun evs '(com, ciph, c) => e ← zswap_output_event com_indices com ciph c; Ok (evs ++ [e])) []
    (((fun o => (out_coin_com o, out_ciphertext o, out_contract_address o)) <$> offer_outputs offer) ++
     ((fun t => (tr_coin_com t, tr_ciphertext t, tr_contract_address t)) <$> offer_transient offer)).
Definition apply_zswap (self : LedgerState) (offer : Offer) (wl : option (gset ContractAddress)) (source : EventSource)
    : outcome TransactionInvalid (LedgerState * gmap Commitment Z * DeferredEvents) :=
  '(new_zswap, com_indices) ← map_err TI_Zswap (try_apply (zswap self) offer wl);
  outputs ← zswap_output_events com_indices offer;
  Ok (with_zswap self new_zswap, com_indices, with_source source (Some <$> (zswap_input_events offer ++ outputs))).

(** ** Contract actions *)
Definition claimed_calls (self : ContractCall) : list ClaimedContractCallsValue :=
  (option_list (guaranteed_transcript self) ++ option_list (fallible_transcript self)) ≫=
    fun t => elements (claimed_contract_calls (t_effects t)).
Definition calls (self callee : ContractCall) : bool :=
  existsb (fun c => bool_decide (ccv_address c = call_address callee /\ ccv_ep_hash c = ep_hash (call_entry_point callee) /\
                                 ccv_comm c = communication_commitment callee)) (claimed_calls self).
(** [ContractCall::context]: the caller is a contract of the intent that claims
    this call, or else the one owner of all its unshielded inputs. *)
Definition caller_contract (intent : Intent) (callee : ContractCall) : option PublicAddress :=
  (fun caller => PA_Contract (call_address caller)) <$>
    find (fun caller => calls caller callee) (intent_calls intent).
Definition caller_user (intent : Intent) : option PublicAddress :=
  match us_owner <$> (unshielded_offers intent ≫= uo_inputs) with
  | [] => None
  | owner :: owners => if forallb (fun o => bool_decide (owner = o)) owners then Some (PA_User (vk_address owner)) else None
  end.
Definition contract_call_context (self : ContractCall) (block : BlockContext) (intent : Intent) (state : ContractState)
    (indices : gmap Commitment Z) : CallContext := {|
  own_address := call_address self; cc_tblock := tblock block; cc_tblock_err := tblock_err block;
  cc_parent_block_hash := parent_block_hash block;
  caller := match caller_contract intent self with Some a => Some a | None => caller_user intent end;
  cc_balance := cst_balance state; com_indices := indices; cc_last_block_time := last_block_time block |}.

(** Balances are checked [u128]s.  The traversal order of the map only decides
    which of several errors is reported. *)
Definition balance_add (bal : gmap TokenType Z) (tv : TokenType * Z) : outcome TransactionInvalid (gmap TokenType Z) :=
  let b := default 0 (bal !! tv.1) in
  v ← ok_or (checked_add u128_max b tv.2) (BalanceCheckOutOfBounds tv.1 b tv.2 Addition);
  Ok (<[tv.1 := v]> bal).
Definition balance_sub (bal : gmap TokenType Z) (tv : TokenType * Z) : outcome TransactionInvalid (gmap TokenType Z) :=
  let b := default 0 (bal !! tv.1) in
  v ← ok_or (checked_sub b tv.2) (BalanceCheckOutOfBounds tv.1 b tv.2 Subtraction);
  Ok (<[tv.1 := v]> bal).

Definition apply_call (guaranteed : bool) (context : TransactionContext) (parent_intent : Intent)
    (indices : gmap Commitment Z) (source : EventSource) (cm : VmCostModel)
    (res : LedgerState) (call : ContractCall) : outcome TransactionInvalid (LedgerState * list Event) :=
  if negb (whitelist_matches (whitelist context) (call_address call)) then Ok (res, [])
  else match contract res !! call_address call with
  | None => Err (ContractNotPresent (call_address call))
  | Some cstate =>
      let qcontext := {|
        qc_state := cst_data cstate; qc_effects := Effects_default; qc_address := call_address call;
        call_context := contract_call_context call (block_context context) parent_intent cstate indices |} in
      match (if guaranteed then guaranteed_transcript call else fallible_transcript call) with
      | None => Ok (res, [])
      | Some transcript =>
          results ← map_err TI_Transcript (run_transcript qcontext transcript cm);
          let effects := qc_effects (qr_context results) in
          if bool_decide (effects = t_effects transcript) then
            bal ← try_fold balance_add (cst_balance cstate) (map_to_list (unshielded_inputs (t_effects transcript)));
            bal ← try_fold balance_sub bal (map_to_list (unshielded_outputs (t_effects transcript)));
            res ← update_index res (call_address call) (qc_state (qr_context results)) bal;
            Ok (res, (fun item => (source, EContractLog (call_address call) (call_entry_point call) item))
                       <$> qr_events results)
          else Err (EffectsMismatch (t_effects transcript) effects)
      end
  end.

Definition apply_deploy (guaranteed : bool) (context : TransactionContext) (source : EventSource)
    (res : LedgerState) (deploy : ContractDeploy) : outcome TransactionInvalid (LedgerState * list Event) :=
  let addr := deploy_address deploy in
  if negb (whitelist_matches (whitelist context) addr) || guaranteed then Ok (res, [])
  else if bool_decide (addr ∈ dom (contract res)) then Err (ContractAlreadyDeployed addr)
  else Ok (with_contract res (<[addr := initial_state deploy]> (contract res)),
           [(source, EContractDeploy addr (initial_state deploy))]).

Definition with_operations (c : ContractState) (ops : gmap EntryPointBuf ContractOperation) : ContractState := {|
  cst_data := cst_data c; operations := ops; maintenance_authority := maintenance_authority c; cst_balance := cst_balance c |}.
Definition with_authority (c : ContractState) (auth : ContractMaintenanceAuthority) : ContractState := {|
  cst_data := cst_data c; operations := operations c; maintenance_authority := auth; cst_balance := cst_balance c |}.
Definition apply_update (cstate : ContractState) (op : SingleUpdate) : outcome TransactionInvalid ContractState :=
  match op with
  | ReplaceAuthority auth => Ok (with_authority cstate auth)
  | VerifierKeyRemove ep ver =>
      op ← ok_or (operations cstate !! ep) (VerifierKeyNotFound ep ver);
      let op := version_rm_from ver op in
      Ok (with_operations cstate
            (if bool_decide (op = {| co_v2 := None |}) then delete ep (operations cstate)
             else <[ep := op]> (operations cstate)))
  | VerifierKeyInsert ep vk =>
      let op := default {| co_v2 := None |} (operations cstate !! ep) in
      if version_has (as_version vk) op then Err (VerifierKeyAlreadyPresent ep (as_version vk))
      else Ok (with_operations cstate (<[ep := insert_into vk op]> (operations cstate)))
  end.
Definition apply_maintain (guaranteed : bool) (context : TransactionContext) (res : LedgerState) (upd : MaintenanceUpdate)
    : outcome TransactionInvalid (LedgerState * list Event) :=
  let addr := mu_address upd in
  if negb (whitelist_matches (whitelist context) addr) || guaranteed then Ok (res, [])
  else
    cstate ← ok_or (contract res !! addr) (ContractNotPresent addr);
    let auth := maintenance_authority cstate in
    if ma_counter auth =? mu_counter upd then
      let auth := {| committee := committee auth; threshold := threshold auth;
                     ma_counter := sat_add u32_max (ma_counter auth) 1 |} in
      cstate ← try_fold apply_update (with_authority cstate auth) (mu_updates upd);
      Ok (with_contract res (<[addr := cstate]> (contract res)), [])
    else Err (ReplayCounterMismatch addr).

Definition apply_action (guaranteed : bool) (context : TransactionContext) (parent_intent : Intent)
    (indices : gmap Commitment Z) (source : EventSource) (cm : VmCostModel)
    (acc : LedgerState * list Event) (action : ContractAction) : outcome TransactionInvalid (LedgerState * list Event) :=
  '(res, events) ← match action with
    | Call call => apply_call guaranteed context parent_intent indices source cm acc.1 call
    | Deploy deploy => apply_deploy guaranteed context source acc.1 deploy
    | Maintain upd => apply_maintain guaranteed context acc.1 upd
    end;
  Ok (res, acc.2 ++ events).
Definition apply_actions (self : LedgerState) (acts : list ContractAction) (guaranteed : bool) (context : TransactionContext)
    (parent_intent : Intent) (indices : gmap Commitment Z) (source : EventSource)
    : outcome TransactionInvalid (LedgerState * list Event) :=
  try_fold (apply_action guaranteed context parent_intent indices source
              (runtime_cost_model (cost_model (parameters self)))) (self, []) acts.

(** ** Sections of a transaction

    The guaranteed section handles all intents at once, each fallible section
    one segment. *)
Definition apply_unshielded (state : LedgerState) (offer : UnshieldedOffer) (intent : Intent) (segment : Segment)
    (context : TransactionContext) (source : EventSource) : outcome TransactionInvalid (LedgerState * DeferredEvents) :=
  ut ← utxo_apply_offer (utxo state) offer intent segment (tblock (block_context context));
  '(du, events) ← dust_apply_offer (dust state) offer intent segment (tblock (block_context context));
  Ok (with_dust (with_utxo state ut) du, with_source source events).
Definition optional_unshielded (state : LedgerState) (offer : option UnshieldedOffer) (intent : Intent) (segment : Segment)
    (context : TransactionContext) (source : EventSource) : outcome TransactionInvalid (LedgerState * DeferredEvents) :=
  match offer with
  | Some offer => apply_unshielded state offer intent segment context source
  | None => Ok (state, [])
  end.
Definition optional_zswap (state : LedgerState) (offer : option Offer) (context : TransactionContext) (source : EventSource)
    : outcome TransactionInvalid (LedgerState * gmap Commitment Z * DeferredEvents) :=
  match offer with
  | Some offer => apply_zswap state offer (whitelist context) source
  | None => Ok (state, ∅, [])
  end.

Definition guaranteed_intent (hash : TransactionHash) (context : TransactionContext) (indices : gmap Commitment Z)
    (acc : LedgerState * DeferredEvents) (si : Segment * Intent) : outcome TransactionInvalid (LedgerState * DeferredEvents) :=
  let source := {| transaction_hash := hash; logical_segment := GUARANTEED_SEGMENT; physical_segment := si.1 |} in
  '(state, ev1) ← optional_unshielded acc.1 (guaranteed_unshielded_offer si.2) si.2 GUARANTEED_SEGMENT context source;
  '(state, ev2) ← apply_actions state (actions si.2) true context si.2 indices source;
  Ok (state, acc.2 ++ ev1 ++ (Some <$> ev2)).

(** Fees: Dust spends first, then registrations. *)
Definition intent_spends (si : Segment * Intent) : list (Segment * Z * DustSpend) :=
  option_list (dust_actions si.2) ≫= fun da => (fun s => (si.1, da_ctime da, s)) <$> spends da.
Definition spend_fees (hash : TransactionHash) (context : TransactionContext)
    (acc : DustState * Z * DeferredEvents) (s : Segment * Z * DustSpend)
    : outcome TransactionInvalid (DustState * Z * DeferredEvents) :=
  let '(du, fees_remaining, events) := acc in
  let '(phys_seg, time, spend) := s in
  let source := {| transaction_hash := hash; logical_segment := GUARANTEED_SEGMENT; physical_segment := phys_seg |} in
  '(du, ev) ← apply_spend du spend time (tblock (block_context context));
  Ok (du, sat_sub fees_remaining (v_fee spend), events ++ with_source source ev).
Definition intent_registrations (si : Segment * Intent) : list (Segment * Intent * Z * DustRegistration) :=
  option_list (dust_actions si.2) ≫= fun da => (fun r => (si.1, si.2, da_ctime da, r)) <$> registrations da.
Definition registration_fees (hash : TransactionHash) (params : DustParameters) (context : TransactionContext)
    (acc : DustState * Z * DeferredEvents) (r : Segment * Intent * Z * DustRegistration)
    : outcome TransactionInvalid (DustState * Z * DeferredEvents) :=
  let '(du, fees_remaining, events) := acc in
  let '(phys_seg, intent, ctime, reg) := r in
  let source := {| transaction_hash := hash; logical_segment := GUARANTEED_SEGMENT; physical_segment := phys_seg |} in
  '(du, fees_remaining, ev) ← apply_registration du (utxo (ref_state context)) fees_remaining intent reg params ctime
                                (tblock (block_context context));
  Ok (du, fees_remaining, events ++ with_source source ev).
Definition apply_fees (du : DustState) (params : DustParameters) (stx : StandardTransaction) (hash : TransactionHash)
    (fees_remaining : Z) (context : TransactionContext) : outcome TransactionInvalid (DustState * Z * DeferredEvents) :=
  let its := sorted_map (intents stx) in
  acc ← try_fold (spend_fees hash context) (du, fees_remaining, []) (its ≫= intent_spends);
  try_fold (registration_fees hash params context) acc (its ≫= intent_registrations).

Definition try_fallible_offers (zs : ZswapState) (stx : StandardTransaction) (wl : option (gset ContractAddress))
    : outcome TransactionInvalid ZswapState :=
  try_fold (fun st so => map_err TI_Zswap ('(st, _) ← try_apply st so.2 wl; Ok st)) zs (sorted_map (fallible_coins stx)).
(** [fees(..).unwrap_or(0)]. *)
Definition fees_or_zero {E : Type} (stx : StandardTransaction) (params : LedgerParameters) : outcome E Z :=
  match fees (Standard stx) params true with Ok f => Ok f | Err _ => Ok 0 | Panic => Panic end.

Definition guaranteed_section (self : LedgerState) (stx : StandardTransaction) (hash : TransactionHash)
    (context : TransactionContext) : outcome TransactionInvalid (LedgerState * DeferredEvents) :=
  let source := {| transaction_hash := hash; logical_segment := GUARANTEED_SEGMENT; physical_segment := GUARANTEED_SEGMENT |} in
  rp ← map_err ReplayProtectionViolation
         (apply_tx (replay_protection self) stx (tblock (block_context context)) (global_ttl (parameters self)));
  '(state, indices, ev) ← optional_zswap (with_replay self rp) (guaranteed_coins stx) context source;
  try_fallible_offers (zswap state) stx (whitelist context) ≫= fun _ =>
  '(state, ev) ← try_fold (guaranteed_intent hash context indices) (state, ev) (sorted_map (intents stx));
  fees_remaining ← fees_or_zero stx (parameters self);
  '(du, _, ev_fees) ← apply_fees (dust state) (dust_params (parameters state)) stx hash fees_remaining context;
  Ok (with_dust state du, ev ++ ev_fees).

Definition fallible_section (self : LedgerState) (stx : StandardTransaction) (hash : TransactionHash) (segment : Segment)
    (context : TransactionContext) : outcome TransactionInvalid (LedgerState * DeferredEvents) :=
  let zswap_source := {| transaction_hash := hash; logical_segment := segment; physical_segment := segment |} in
  '(state, indices, ev) ← optional_zswap self (fallible_coins stx !! segment) context zswap_source;
  match intents stx !! segment with
  | None => Ok (state, ev)
  | Some intent =>
      let source := {| transaction_hash := hash; logical_segment := GUARANTEED_SEGMENT; physical_segment := segment |} in
      '(state, ev1) ← optional_unshielded state (fallible_unshielded_offer intent) intent segment context source;
      '(state, ev2) ← apply_actions state (actions intent) false context intent indices source;
      Ok (state, ev ++ ev1 ++ (Some <$> ev2))
  end.
Definition apply_section (self : LedgerState) (stx : StandardTransaction) (hash : TransactionHash) (segment : Segment)
    (context : TransactionContext) : outcome TransactionInvalid (LedgerState * DeferredEvents) :=
  '(state, events) ← if segment =? GUARANTEED_SEGMENT then guaranteed_section self stx hash context
                      else fallible_section self stx hash segment context;
  map_err TI_InvariantViolation (check_night_balance_invariant state) ≫= fun _ => Ok (state, events).

(** ** Claims *)
Definition claim_unshielded (state : LedgerState) (tx : ClaimRewardsTransaction) (context : BlockContext) (source : EventSource)
    : outcome TransactionInvalid (LedgerState * list Event) :=
  let address := vk_address (cr_owner tx) in
  let pool := match cr_kind tx with CardanoBridge => bridge_receiving state | Reward => unclaimed_block_rewards state end in
  let claimable := default 0 (pool !! address) in
  if claimable <? cr_value tx then Err (InsufficientClaimable (cr_value tx) claimable address (cr_kind tx))
  else
    minimum ← match cr_kind tx with
              | Reward => min_claimable_rewards (parameters state) tx
              | CardanoBridge => Ok 0
              end;
    if cr_value tx <? minimum then Err (RewardTooSmall (cr_value tx) minimum)
    else
      let remaining := claimable - cr_value tx in
      let pool := if remaining =? 0 then delete address pool else <[address := remaining]> pool in
      let hash := mk_intent_hash {| oi_amount := cr_value tx; oi_target_address := address; oi_nonce := cr_nonce tx |} NIGHT in
      rp ← map_err ReplayProtectionViolation
        (apply_member (replay_protection state) hash
           (Timestamp_add (tblock context) (global_ttl (parameters state))) (tblock context) (global_ttl (parameters state)));
      let output := {| utxo_value := cr_value tx; utxo_owner := address; utxo_type := NIGHT; utxo_intent_hash := hash;
                       utxo_output_no := 0 |} in
      let ut := utxo_insert (utxo state) output {| meta_ctime := tblock context |} in
      let st := with_replay (with_utxo state ut) rp in
      let st := match cr_kind tx with
                | CardanoBridge => with_pools st (locked_pool st) pool (reserve_pool st) (block_reward_pool st)
                                     (unclaimed_block_rewards st) (treasury st)
                | Reward => with_pools st (locked_pool st) (bridge_receiving st) (reserve_pool st) (block_reward_pool st)
                              pool (treasury st)
                end in
      '(st, events) ← match address_delegation (generation (dust st)) !! address with
        | Some dust_addr =>
            '(du, ev) ← map_err dust_invalid
              (fresh_dust_output (dust st) (initial_nonce 0 hash) 0 (utxo_value output) dust_addr (tblock context) (tblock context));
            ev ← force (with_source source ev);
            Ok (with_dust st du, ev)
        | None => Ok (st, [])
        end;
      map_err TI_InvariantViolation (check_night_balance_invariant st) ≫= fun _ => Ok (st, events).

(** ** Transactions *)
Record GuaranteedApplyResult := {
  gr_state : LedgerState;
  gr_tx : VerifiedTransaction;
  gr_deferred_events : DeferredEvents
}.
Definition apply_guaranteed_only (self : LedgerState) (tx : VerifiedTransaction) (context : TransactionContext)
    : outcome TransactionInvalid GuaranteedApplyResult :=
  match inner tx with
  | Standard stx =>
      '(state, ev) ← apply_section self stx (vt_hash tx) GUARANTEED_SEGMENT context;
      Ok {| gr_state := state; gr_tx := tx; gr_deferred_events := ev |}
  | ClaimRewards rewards =>
      '(state, ev) ← claim_unshielded self rewards (block_context context)
        {| transaction_hash := vt_hash tx; logical_segment := GUARANTEED_SEGMENT; physical_segment := GUARANTEED_SEGMENT |};
      Ok {| gr_state := state; gr_tx := tx; gr_deferred_events := Some <$> ev |}
  end.

(** One fallible segment: an error leaves the state and is recorded. *)
Definition SegmentResults := (LedgerState * list Event * gmap Segment (option TransactionInvalid) * bool)%type.
Definition apply_segment {E : Type} (stx : StandardTransaction) (hash : TransactionHash) (context : TransactionContext)
    (acc : SegmentResults) (segment : Segment) : outcome E SegmentResults :=
  let '(st, events, res, total_success) := acc in
  match apply_section st stx hash segment context with
  | Panic => Panic
  | Ok (st, deferred) =>
      ev ← force deferred;
      Ok (st, events ++ ev, <[segment := None]> res, total_success)
  | Err e => Ok (st, events, <[segment := Some e]> res, false)
  end.
Definition apply_fallible {E : Type} (self : GuaranteedApplyResult) (context : TransactionContext)
    : outcome E (LedgerState * TransactionResult) :=
  events ← force (gr_deferred_events self);
  match inner (gr_tx self) with
  | ClaimRewards _ => Ok (gr_state self, Success events)
  | Standard stx =>
      '(st, events, res, total_success) ←
        try_fold (apply_segment stx (vt_hash (gr_tx self)) context)
          (gr_state self, events, {[ GUARANTEED_SEGMENT := None ]}, true) (fallible_segments stx);
      Ok (st, if total_success : bool then Success events else PartialSuccess res events)
  end.
Definition apply {E : Type} (self : LedgerState) (tx : VerifiedTransaction) (context : TransactionContext)
    : outcome E (LedgerState * TransactionResult) :=
  match apply_guaranteed_only self tx context with
  | Ok g => apply_fallible g context
  | Err e => Ok (self, Failure e)
  | Panic => Panic
  end.

(** ** Batches *)
Definition batch_apply_independant {E : Type} (self : LedgerState) (txs : list VerifiedTransaction) (context : TransactionContext)
    : outcome E (list TransactionResult) :=
  try_fold (fun res tx => '(_, r) ← apply self tx context; Ok (res ++ [r])) [] txs.
Definition batch_apply_all_or_nothing (self : LedgerState) (txs : list VerifiedTransaction) (context : TransactionContext)
    : outcome TransactionInvalid (LedgerState * list TransactionResult) :=
  try_fold (fun '(state, res) tx =>
    '(state2, txres) ← apply state tx context;
    match txres with Failure err => Err err | _ => Ok (state2, res ++ [txres]) end) (self, []) txs.
(** The error carries the state and results before the failure and the
    transactions from the failing one on. *)
Definition BatchFailure := (LedgerState * list TransactionResult * TransactionInvalid * list VerifiedTransaction)%type.
Fixpoint batch_loop (context : TransactionContext) (state : LedgerState) (res : list TransactionResult)
    (txs : list VerifiedTransaction) : outcome BatchFailure (LedgerState * list TransactionResult) :=
  match txs with
  | [] => Ok (state, res)
  | tx :: rest =>
      '(state2, txres) ← apply state tx context;
      match txres with
      | Failure err => Err (state, res, err, txs)
      | _ => batch_loop context state2 (res ++ [txres]) rest
      end
  end.
Definition batch_apply_until_first_failure (self : LedgerState) (txs : list VerifiedTransaction) (context : TransactionContext)
    : outcome BatchFailure (LedgerState * list TransactionResult) := batch_loop context self [] txs.

(** ** System transactions *)
(** The guard is the source's: basis points up to 10000 are refused. *)
Definition basis_points_of (points val : Z) : outcome SystemTransactionError Z :=
  if points <=? 10000 then Err (InvalidBasisPoints points)
  else Ok (trunc u128_max (trunc u128_max (val / 10000 * points) + trunc u128_max (val mod 10000 * points) / 10000)).
Definition checked_sum (l : list Z) : option Z :=
  foldl (fun s x => s ≫= fun s => checked_add u128_max s x) (Some 0) l.
Definition treasury_add (m : gmap TokenType Z) (amount : Z) : gmap TokenType Z :=
  <[Unshielded NIGHT := sat_add u128_max (treasury_night m) amount]> m.
Definition receive (m : gmap UserAddress Z) (addr : UserAddress) (amount : Z) : gmap UserAddress Z :=
  <[addr := sat_add u128_max (default 0 (m !! addr)) amount]> m.

(** Fees and payment of one bridged amount. *)
Definition bridge_split (params : LedgerParameters) (amount : Z) : outcome SystemTransactionError (Z * Z) :=
  if amount <? c_to_m_bridge_min_amount params then Ok (amount, 0)
  else
    fee ← basis_points_of (cardano_to_midnight_bridge_fee_basis_points params) amount;
    Ok (fee, trunc u128_max (amount - fee)).
Definition distribute_one (kind : ClaimKind) (params : LedgerParameters) (tblock : Z) (state : LedgerState)
    (o : OutputInstructionUnshielded) : outcome SystemTransactionError LedgerState :=
  rp ← map_err ReplayProtectionFailure
    (apply_member (replay_protection state) (mk_intent_hash o NIGHT) (Timestamp_add tblock (global_ttl params)) tblock
       (global_ttl params));
  match kind with
  | Reward =>
      Ok (with_replay (with_pools state (locked_pool state) (bridge_receiving state) (reserve_pool state)
            (block_reward_pool state) (receive (unclaimed_block_rewards state) (oi_target_address o) (oi_amount o))
            (treasury state)) rp)
  | CardanoBridge =>
      '(fees, post_fee_amount) ← bridge_split (parameters state) (oi_amount o);
      Ok (with_replay (with_pools state (locked_pool state)
            (receive (bridge_receiving state) (oi_target_address o) post_fee_amount) (reserve_pool state)
            (block_reward_pool state) (unclaimed_block_rewards state) (treasury_add (treasury state) fees)) rp)
  end.
Definition distribute_night (self : LedgerState) (kind : ClaimKind) (outputs : list OutputInstructionUnshielded) (tblock : Z)
    : outcome SystemTransactionError LedgerState :=
  let totals := (fun sum => match kind with Reward => (sum, 0) | CardanoBridge => (0, sum) end)
                  <$> checked_sum (oi_amount <$> outputs) in
  let illegal := IllegalPayout (fst <$> totals) (block_reward_pool self) (snd <$> totals) (locked_pool self) in
  match totals with
  | None => Err illegal
  | Some (claimed_total, bridged_total) =>
      if (claimed_total <=? block_reward_pool self) && (bridged_total <=? locked_pool self) then
        let state := with_pools self (locked_pool self - bridged_total) (bridge_receiving self) (reserve_pool self)
                       (block_reward_pool self - claimed_total) (unclaimed_block_rewards self) (treasury self) in
        state ← try_fold (distribute_one kind (parameters self) tblock) state outputs;
        map_err STE_InvariantViolation (check_night_balance_invariant state) ≫= fun _ => Ok state
      else Err illegal
  end.

Definition system_source (tx : SystemTransaction) : EventSource :=
  {| transaction_hash := system_transaction_hash tx; logical_segment := GUARANTEED_SEGMENT;
     physical_segment := GUARANTEED_SEGMENT |}.

(** [CNightGeneratesDustUpdate]; here the events are built as they are pushed. *)
Definition cnight_action (source : EventSource) (tblock : Z) (acc : DustState * list Event) (action : CNightGeneratesDustEvent)
    : outcome SystemTransactionError (DustState * list Event) :=
  match cn_action action with
  | Create =>
      '(du, ev) ← map_err system_dust_error
        (fresh_dust_output acc.1 (cn_nonce action) 0 (cn_value action) (cn_owner action) (cn_time action) tblock);
      ev ← force (with_source source ev);
      Ok (du, acc.2 ++ ev)
  | Destroy =>
      let g := generation acc.1 in
      match night_indices g !! cn_nonce action with
      | None => Ok acc
      | Some idx =>
          match mt_index (generating_tree g) idx with
          | None => Ok acc
          | Some (_, gen_info) =>
              let gen_info := set_dtime gen_info (cn_time action) in
              tree ← map_err STE_MerkleTreeError (try_update_hash (generating_tree g) idx (merkle_hash gen_info) gen_info);
              tree ← rehash tree;
              ev ← force (with_source source [dtime_event (Ok tree) idx tblock]);
              Ok (set_generating_tree acc.1 tree, acc.2 ++ ev)
          end
      end
  end.

Definition apply_system_tx (self : LedgerState) (tx : SystemTransaction) (tblock : Z)
    : outcome SystemTransactionError (LedgerState * list Event) :=
  match tx with
  | OverwriteParameters new_params =>
      if 10000 <? cardano_to_midnight_bridge_fee_basis_points new_params
      then Err (InvalidBasisPoints (cardano_to_midnight_bridge_fee_basis_points new_params))
      else Ok (with_parameters self new_params, [(system_source tx, EParamChange new_params)])
  | DistributeNight kind outputs => state ← distribute_night self kind outputs tblock; Ok (state, [])
  | PayBlockRewardsToTreasury amount =>
      if block_reward_pool self <? amount
      then Err (IllegalPayout (Some amount) (block_reward_pool self) None (locked_pool self))
      else Ok (with_pools self (locked_pool self) (bridge_receiving self) (reserve_pool self)
                 (block_reward_pool self - amount) (unclaimed_block_rewards self) (treasury_add (treasury self) amount), [])
  | PayFromTreasuryShielded _ _ _ | PayFromTreasuryUnshielded _ _ => Err TreasuryDisabled
  | CNightGeneratesDustUpdate acts =>
      '(du, events) ← try_fold (cnight_action (system_source tx) tblock) (dust self, []) acts;
      Ok (with_dust self du, events)
  | DistributeReserve amount =>
      if reserve_pool self <? amount then Err (IllegalReserveDistribution amount (reserve_pool self))
      else
        let new_st := with_pools self (locked_pool self) (bridge_receiving self) (reserve_pool self - amount)
                        (trunc u128_max (block_reward_pool self + amount)) (unclaimed_block_rewards self) (treasury self) in
        map_err STE_InvariantViolation (check_night_balance_invariant new_st) ≫= fun _ => Ok (new_st, [])
  end.

(** ** The end of a block *)
Inductive BlockLimitError := PostBlockLimitExceeded.
Definition prevalidate_post_block_update (detailed : NormalizedCost) (overall : FixedPoint) : outcome BlockLimitError unit :=
  if existsb (fun v => (v <? FixedPoint_ZERO) || (FixedPoint_ONE <? v))
       [nc_read_time detailed; nc_compute_time detailed; nc_block_usage detailed; nc_bytes_written detailed;
        nc_bytes_churned detailed; overall]
  then Err PostBlockLimitExceeded else Ok tt.
Definition set_fee_prices (p : LedgerParameters) (prices : FeePrices) : LedgerParameters := {|
  cost_model := cost_model p; limits := limits p; dust_params := dust_params p; fee_prices := prices;
  global_ttl := global_ttl p; cost_dimension_min_ratio := cost_dimension_min_ratio p;
  price_adjustment_a_parameter := price_adjustment_a_parameter p;
  cardano_to_midnight_bridge_fee_basis_points := cardano_to_midnight_bridge_fee_basis_points p;
  c_to_m_bridge_min_amount := c_to_m_bridge_min_amount p |}.
Definition apply_post_block_update {E : Type} (self : LedgerState) (tblock : Z) (detailed : NormalizedCost) (overall : FixedPoint)
    : outcome E LedgerState :=
  let p := parameters self in
  let prices := update_from_fullness (fee_prices p) detailed overall (cost_dimension_min_ratio p)
                  (price_adjustment_a_parameter p) in
  zs ← zswap_post_block_update (zswap self) tblock;
  du ← dust_post_block_update (dust self) tblock (global_ttl p);
  Ok (with_parts self (set_fee_prices p prices) zs (contract self) (utxo self)
        (replay_post_block_update (replay_protection self) tblock) du).
Definition post_block_update (self : LedgerState) (tblock : Z) (detailed : NormalizedCost) (overall : FixedPoint)
    : outcome BlockLimitError LedgerState :=
  prevalidate_post_block_update detailed overall ≫= fun _ => apply_post_block_update self tblock detailed overall.
End ledger.
