(* ===== verification/ToyLedger.v ===== *)
(** * Concrete ledgers

    Instances of the interfaces to evaluate ledger operations with: keys are
    numbers, hashes are the ones of the other examples, and an intent is
    identified by its time to live. *)
From S2P Require Import Prelude Time CostModel Fab FabSerial MerkleTree TimeFilterMap Zswap StateValue VmOps.
From S2P Require Import Coin DeltaTracking VmProps Runtime RuntimeProps LedgerData LedgerCost Dust Ledger.
Set Warnings "-register-all".

Definition toy_keys : KeyTypes := {|
  VerifyingKey := Z; VerifyingKey_eq_dec := Z.eq_dec; VerifierKey := Z; VerifierKey_eq_dec := Z.eq_dec;
  SignatureT := unit; Pedersen := unit; CoinCiphertext := unit |}.
#[export] Existing Instance toy_keys.
#[export] Existing Instance toy_hashing.
#[export] Existing Instance toy_storage.
#[export] Existing Instance toy_arena.
#[export] Existing Instance toy_field.
#[export] Instance toy_ledger_hashing : LedgerHashing := {|
  serialize_intent_parts _ _ _ t _ := to_le_bytes 8 t; deploy_address d := deploy_nonce d; vk_address k := toy_hash (k mod 256) |}.
#[export] Instance toy_sizes : Sizes := {|
  tx_serialized_size _ := 100; phantom_claim_size := 100; params_serialized_size _ := 100; op_field_size _ := 1;
  contract_state_nodes _ := []; authority_nodes _ := [] |}.
#[export] Instance toy_system_hashing : SystemHashing := {| system_transaction_hash _ := toy_hash 0 |}.

Definition toy_intent_with (offer : option UnshieldedOffer) (da : option DustActions) (t : Z) : Intent := {|
  guaranteed_unshielded_offer := offer; fallible_unshielded_offer := None; actions := []; dust_actions := da;
  ttl := t; binding_commitment := tt |}.
Definition toy_intent : Z -> Intent := toy_intent_with None None.
Definition toy_tx (its : gmap Segment Intent) : VerifiedTransaction := {|
  inner := Standard {| network_id := "toy"; intents := its; guaranteed_coins := None; fallible_coins := ∅;
                       binding_randomness := 0 |};
  vt_hash := toy_hash 1 |}.
Definition toy_claim (kind : ClaimKind) (value : Z) : VerifiedTransaction := {|
  inner := ClaimRewards {| cr_network_id := "toy"; cr_value := value; cr_owner := 7; cr_nonce := toy_hash 3; cr_kind := kind |};
  vt_hash := toy_hash 2 |}.
Definition toy_block (time : Z) : BlockContext :=
  {| tblock := time; tblock_err := 0; parent_block_hash := toy_hash 0; last_block_time := 0 |}.
Definition toy_genesis : LedgerState :=
  match LedgerState_new (E := Empty_set) "toy" with
  | Ok s => s
  | _ => {| ls_network_id := "toy"; parameters := INITIAL_PARAMETERS; locked_pool := 0; bridge_receiving := ∅; reserve_pool := 0;
            block_reward_pool := 0; unclaimed_block_rewards := ∅; treasury := ∅; zswap := ZswapState_default; contract := ∅;
            utxo := UtxoState_default; replay_protection := ReplayProtectionState_default; dust := DustState_default |}
  end.
Definition toy_tx_context (time : Z) : TransactionContext :=
  {| ref_state := toy_genesis; block_context := toy_block time; whitelist := None |}.
