(* ===== verification/DustProps.v ===== *)
(** * Properties of Dust ([ledger/src/dust.rs])

    The value of a Dust output over time, the trees behind the Dust state, and
    what registrations pay out. *)
From S2P Require Import Prelude Time CostModel Fab FabSerial MerkleTree FieldRepr TimeFilterMap Zswap.
From S2P Require Import StateValue VmOps Coin DeltaTracking Runtime LedgerData Dust.
Set Warnings "-register-all".

(** ** The value of a Dust output *)
Definition dust_params_wf (p : DustParameters) : Prop :=
  is_u64 (night_dust_ratio p) /\ 0 < generation_decay_rate p <= u32_max.
Definition output_wf (o : DustOutput) (g : DustGenerationInfo) : Prop :=
  is_u128 (do_initial_value o) /\ is_u64 (do_ctime o) /\ is_u128 (gen_value g) /\ is_u64 (gen_dtime g).
Definition dust_cap (g : DustGenerationInfo) (p : DustParameters) : Z :=
  sat_mul u128_max (gen_value g) (night_dust_ratio p).
Definition dust_rate (g : DustGenerationInfo) (p : DustParameters) : Z :=
  sat_mul u128_max (gen_value g) (generation_decay_rate p).

(** [updated_value] with the clamping written as [Z.max]. *)
Lemma updated_value_eq o g now p :
  updated_value o g now p =
  sat_sub (Z.min (sat_add u128_max (sat_mul u128_max (Z.max 0 (Z.min (gen_dtime g) now - do_ctime o)) (dust_rate g p))
                    (do_initial_value o)) (dust_cap g p))
          (sat_mul u128_max (Z.max 0 (now - gen_dtime g)) (dust_rate g p)).
Proof.
  unfold updated_value, dust_rate, dust_cap, Timestamp_diff.
  assert (Hm : forall x, (if 0 <=? x then x else 0) = Z.max 0 x) by (intros x; destruct (Z.leb_spec 0 x); lia).
  by rewrite !Hm.
Qed.
Lemma rate_range g p : dust_params_wf p -> is_u128 (gen_value g) -> is_u128 (dust_rate g p) /\ is_u128 (dust_cap g p).
Proof. intros [Hr Hd] Hg. split; apply sat_mul_in_u; try done; ints. Qed.
(** After [time_to_cap] seconds a rate has covered the whole cap. *)
Lemma cap_reached g p dt :
  dust_params_wf p -> is_u128 (gen_value g) -> time_to_cap p <= dt -> dust_cap g p <= sat_mul u128_max dt (dust_rate g p).
Proof.
  intros [Hr Hd] Hg Ht. unfold time_to_cap in Ht. rewrite (proj2 (Z.eqb_neq _ _)) in Ht by lia.
  unfold dust_cap, dust_rate, sat_mul.
  assert (Hdt : night_dust_ratio p <= dt * generation_decay_rate p).
  { apply (div_ceil_spec (night_dust_ratio p) (generation_decay_rate p) dt) in Ht; [done|lia]. }
  assert (0 <= dt) by (unfold in_u in Hr; nia).
  destruct (Z.le_gt_cases (gen_value g * generation_decay_rate p) u128_max) as [Hs|Hs].
  - rewrite (Z.min_r u128_max (gen_value g * generation_decay_rate p)) by done. unfold in_u in *. nia.
  - rewrite (Z.min_l u128_max (gen_value g * generation_decay_rate p)) by lia.
    destruct (Z.eq_dec dt 0) as [->|]; [|unfold in_u in *; nia].
    assert (night_dust_ratio p = 0) as -> by (unfold in_u in *; lia). rewrite Z.mul_0_r. unfold u128_max in *; lia.
Qed.
Lemma sat_mul_mono max a b c : 0 <= c -> a <= b -> sat_mul max a c <= sat_mul max b c.
Proof. intros Hc Hab. unfold sat_mul. apply Z.min_le_compat_l. nia. Qed.

(** The value of a Dust output over time: it never exceeds its cap; it does not
    shrink while its Night is unspent, and equals the cap once [time_to_cap] has
    passed since its creation; it does not grow after its Night is spent, and is
    zero once [time_to_cap] has passed since then, also for an output that is
    created only afterwards. *)
Theorem updated_value_phases o g p :
  dust_params_wf p -> output_wf o g ->
  (forall now, 0 <= updated_value o g now p <= dust_cap g p) /\
  (forall t1 t2, t1 <= t2 <= gen_dtime g -> updated_value o g t1 p <= updated_value o g t2 p) /\
  (forall now, do_ctime o + time_to_cap p <= now <= gen_dtime g -> updated_value o g now p = dust_cap g p) /\
  (forall t1 t2, gen_dtime g <= t1 <= t2 -> updated_value o g t2 p <= updated_value o g t1 p) /\
  (forall now, gen_dtime g + time_to_cap p <= now -> updated_value o g now p = 0).
Proof.
  intros Hp (Hi & Hc & Hv & Hd). destruct (rate_range g p Hp Hv) as [Hr Hcap].
  assert (Hmul0 : sat_mul u128_max 0 (dust_rate g p) = 0) by (unfold sat_mul, u128_max; lia).
  assert (Hpos : forall x, 0 <= sat_mul u128_max (Z.max 0 x) (dust_rate g p)).
  { intros x. unfold sat_mul, in_u, u128_max in *. nia. }
  split_and!; [intros now|intros t1 t2 Ht|intros now Ht|intros t1 t2 Ht|intros now Ht]; rewrite !updated_value_eq; unfold sat_sub.
  - pose proof (Hpos (now - gen_dtime g)). unfold in_u in *. lia.
  - rewrite (Z.max_l 0 (t1 - gen_dtime g)), (Z.max_l 0 (t2 - gen_dtime g)), Hmul0, !(Z.min_r (gen_dtime g)) by lia.
    pose proof (sat_mul_mono u128_max (Z.max 0 (t1 - do_ctime o)) (Z.max 0 (t2 - do_ctime o)) (dust_rate g p)
      ltac:(apply Hr) ltac:(lia)). unfold sat_add. lia.
  - rewrite (Z.max_l 0 (now - gen_dtime g)), Hmul0, (Z.min_r (gen_dtime g) now) by lia.
    pose proof (cap_reached g p (Z.max 0 (now - do_ctime o)) Hp Hv ltac:(lia)).
    unfold sat_add, in_u in *. lia.
  - pose proof (sat_mul_mono u128_max (Z.max 0 (t1 - gen_dtime g)) (Z.max 0 (t2 - gen_dtime g)) (dust_rate g p)
      ltac:(apply Hr) ltac:(lia)). rewrite !(Z.min_l (gen_dtime g)) by lia. lia.
  - pose proof (cap_reached g p (Z.max 0 (now - gen_dtime g)) Hp Hv ltac:(lia)). lia.
Qed.

(** ** Registrations *)
Definition zsum (l : list Z) : Z := foldr Z.add 0 l.
Lemma zsum_cons x l : zsum (x :: l) = x + zsum l.
Proof. done. Qed.
Lemma zsum_app l k : zsum (l ++ k) = zsum l + zsum k.
Proof. induction l as [|x l IH]; simpl; lia. Qed.
Lemma zsum_nonneg l : Forall (Z.le 0) l -> 0 <= zsum l.
Proof. induction 1; simpl; lia. Qed.
Lemma zsum_elem_le l v : Forall (Z.le 0) l -> v ∈ l -> v <= zsum l.
Proof.
  induction 1 as [|x l Hx Hl IH]; intros Hv; [by apply elem_of_nil in Hv|].
  rewrite zsum_cons. pose proof (zsum_nonneg _ Hl). apply elem_of_cons in Hv as [->|Hv]; [lia|]. apply IH in Hv. lia.
Qed.
(** A saturating sum that does not saturate. *)
Lemma sat_sum_eq max l acc : Forall (Z.le 0) l -> 0 <= acc -> acc + zsum l <= max -> foldl (sat_add max) acc l = acc + zsum l.
Proof.
  intros Hl. revert acc. induction Hl as [|x l Hx Hl IH]; intros acc Ha Hm; simpl in *; [lia|].
  pose proof (zsum_nonneg l Hl). unfold sat_add at 2. rewrite Z.min_r, IH by lia. lia.
Qed.
(** Floors of proportional shares add up to at most the whole. *)
Lemma floor_shares (l : list Z) s c :
  0 < s -> 0 <= c -> Forall (Z.le 0) l -> zsum ((fun v => v * c / s) <$> l) * s <= zsum l * c.
Proof.
  intros Hs Hc. induction 1 as [|x l Hx Hl IH]; [simpl; lia|].
  rewrite fmap_cons, !zsum_cons, !Z.mul_add_distr_r. pose proof (Z.mul_div_le (x * c) s Hs). lia.
Qed.
Lemma shares_nonneg l s c : 0 < s -> 0 <= c -> Forall (Z.le 0) l -> Forall (Z.le 0) ((fun v => v * c / s) <$> l).
Proof. intros Hs Hc. induction 1; simpl; constructor; [apply Z.div_pos; nia|done]. Qed.

Section registrations.
Context `{LedgerHashing} `{Hashing}.

Definition event_value (e : option EventDetails) : Z :=
  match e with Some (EDustInitialUtxo output _ _ _) => do_initial_value (qdo_output output) | _ => 0 end.
Definition events_value (ev : Deferred) : Z := zsum (map event_value ev).

Lemma fresh_dust_output_events self nonce v night addr tnow tb st ev :
  fresh_dust_output self nonce v night addr tnow tb = Ok (st, ev) -> events_value ev = v.
Proof.
  unfold fresh_dust_output. intros Hx. apply bind_Ok_inv in Hx as (c & _ & Hx). case_bool_decide; [done|].
  apply bind_Ok_inv in Hx as (t & _ & Hx). injection Hx as _ <-. unfold events_value. simpl. lia.
Qed.
Lemma registration_outputs_events intent addr sum out tnow tb l st0 ev0 st ev :
  try_fold (registration_output intent addr sum out tnow tb) (st0, ev0) l = Ok (st, ev) ->
  exists vs, mapM (fun no : nat * UtxoOutput => distributed_value (uout_value no.2) sum out) l = Some vs /\
    events_value ev = events_value ev0 + zsum vs.
Proof.
  revert st0 ev0. induction l as [|no l IH]; intros st0 ev0; [intros [= <- <-]; exists []; split; [done|simpl; lia]|].
  cbn [try_fold]. intros Hx. apply bind_Ok_inv in Hx as ([st1 ev1] & Hf & Hx). unfold registration_output in Hf.
  apply bind_Ok_inv in Hf as (v & Hv%ok_or_Ok_inv & Hf). apply bind_Ok_inv in Hf as ([st2 ev2] & Hf & He).
  injection He as -> <-. destruct (fresh_dust_output _ _ _ _ _ _ _) as [[st3 ev3]| |] eqn:Hfresh; try done.
  injection Hf as -> ->. apply fresh_dust_output_events in Hfresh. destruct (IH _ _ Hx) as (vs & Hvs & Hsum).
  exists (v :: vs). cbn [mapM]. rewrite Hv. simpl. rewrite Hvs. split; [done|].
  rewrite Hsum. unfold events_value in *. rewrite map_app, zsum_app. simpl. lia.
Qed.
(** The shares of the outputs, when nothing saturates. *)
Lemma distributed_values_bound (l : list (nat * UtxoOutput)) sum out vs :
  Forall (fun no => 0 <= uout_value no.2) l -> sum = zsum ((fun no => uout_value no.2) <$> l) ->
  DISTRIBUTION_RESOLUTION * sum <= u128_max -> 0 <= out -> DISTRIBUTION_RESOLUTION * out <= u128_max ->
  mapM (fun no : nat * UtxoOutput => distributed_value (uout_value no.2) sum out) l = Some vs -> 0 <= zsum vs <= out.
Proof.
  intros Hl Hsum Hs Ho Hout Hvs. unfold DISTRIBUTION_RESOLUTION in *.
  destruct (decide (sum = 0)) as [Hz|Hnz].
  { destruct l as [|no l]; [injection Hvs as <-; simpl; lia|]. exfalso. simpl in Hvs. unfold distributed_value in Hvs at 1. rewrite Hz in Hvs. by simpl in Hvs. }
  set (values := (fun no : nat * UtxoOutput => uout_value no.2) <$> l) in *.
  assert (Hpos : Forall (Z.le 0) values) by (unfold values; by apply Forall_fmap).
  pose proof (zsum_nonneg _ Hpos) as Hsp. rewrite <- Hsum in Hsp.
  assert (Hle : forall v, v ∈ values -> v <= sum) by (intros v Hv; rewrite Hsum; by apply zsum_elem_le).
  assert (Hvalues : vs = (fun r => r * out / 10000) <$> ((fun v => v * 10000 / sum) <$> values)).
  { assert (Hk : forall k, k ∈ l -> distributed_value (uout_value k.2) sum out = Some (uout_value k.2 * 10000 / sum * out / 10000)).
    { intros k Hk. unfold distributed_value. rewrite (proj2 (Z.eqb_neq _ _) Hnz). unfold DISTRIBUTION_RESOLUTION.
      assert (Hkv : uout_value k.2 ∈ values) by (apply (list_elem_of_fmap_2' _ _ k); done).
      pose proof (Hle _ Hkv). pose proof (proj1 (list.Forall_forall _ _) Hpos _ Hkv) as Hk0. simpl in Hk0.
      unfold sat_mul at 2. rewrite Z.min_r by lia.
      assert (uout_value k.2 * 10000 / sum <= 10000) by (apply Z.div_le_upper_bound; nia).
      unfold sat_mul. rewrite Z.min_r by nia. done. }
    clear -Hvs Hk. unfold values. rewrite <- !list_fmap_compose. revert vs Hvs. induction l as [|k l IH]; intros vs Hvs.
    { by injection Hvs as <-. }
    cbn [mapM] in Hvs. rewrite Hk in Hvs by left. simpl in Hvs.
    destruct (mapM _ l) as [vs'|] eqn:E; simpl in Hvs; [|done]. injection Hvs as <-. simpl. f_equal.
    apply IH; [|done]. intros x Hx. apply Hk. by right. }
  pose proof (floor_shares values sum 10000 ltac:(lia) ltac:(lia) Hpos) as H1'.
  pose proof (shares_nonneg values sum 10000 ltac:(lia) ltac:(lia) Hpos) as Hr.
  pose proof (floor_shares _ 10000 out ltac:(lia) Ho Hr) as H2'.
  pose proof (zsum_nonneg _ (shares_nonneg _ 10000 out ltac:(lia) Ho Hr)).
  rewrite <- Hvalues in *. rewrite <- Hsum in H1'. nia.
Qed.

(** The Night outputs a registration pays Dust to, and the Dust available. *)
Definition registration_night (intent : Intent) (reg : DustRegistration) : Z :=
  zsum ((fun no => uout_value no.2) <$> owned_outputs intent (vk_address (night_key reg))).

Lemma generationless_nonneg self ut intent key p :
  dust_params_wf p ->
  (forall i, i ∈ option_list (guaranteed_unshielded_offer intent) ≫= uo_inputs -> 0 <= us_value i) ->
  0 <= generationless_fee_availability self ut intent key p.
Proof.
  intros [Hr Hd] Hi. unfold generationless_fee_availability. destruct (dust_actions intent) as [da|]; [|done].
  set (l := filter _ (filter _ _)).
  assert (Hl : forall i, i ∈ l -> 0 <= generationless_input self ut p (da_ctime da) i).
  { intros i Hil. apply list_elem_of_filter in Hil as [_ Hil]. apply list_elem_of_filter in Hil as [_ Hil].
    assert (0 <= us_value i).
    { apply Hi. destruct (guaranteed_unshielded_offer intent); simpl; [by rewrite app_nil_r|done]. }
    unfold generationless_input, Timestamp_diff, sat_mul, in_u, u128_max in *.
    destruct (utxos ut !! utxo_of_spend i) as [m|]; [|done].
    destruct (Z.ltb_spec (da_ctime da - meta_ctime m) 0); nia. }
  clearbody l. assert (H0' : 0 <= 0) by lia. revert H0'. generalize 0 at 2 4.
  induction l as [|i l IH]; intros acc Ha; [done|]. simpl. apply IH; [intros; apply Hl; by right|].
  pose proof (Hl i ltac:(left)). unfold sat_add, u128_max. lia.
Qed.

(** A registration creates no Dust.  The fee it pays plus the initial values
    of all Dust outputs it makes are at most what the spent Night would have
    generated; the fee is at most what is still due and at most what the
    registration allows.  (Amounts small enough not to saturate.) *)
Theorem registration_conserves_dust self ut fees intent reg p tnow tb st fees' ev :
  dust_params_wf p ->
  (forall i, i ∈ option_list (guaranteed_unshielded_offer intent) ≫= uo_inputs -> 0 <= us_value i) ->
  Forall (fun no => 0 <= uout_value no.2) (owned_outputs intent (vk_address (night_key reg))) ->
  DISTRIBUTION_RESOLUTION * registration_night intent reg <= u128_max ->
  DISTRIBUTION_RESOLUTION * generationless_fee_availability self ut intent (night_key reg) p <= u128_max ->
  0 <= fees -> 0 <= allow_fee_payment reg ->
  apply_registration self ut fees intent reg p tnow tb = Ok (st, fees', ev) ->
  0 <= fees' <= fees /\ fees - fees' <= allow_fee_payment reg /\
  (fees - fees') + events_value ev <= generationless_fee_availability self ut intent (night_key reg) p.
Proof.
  intros Hp Hi Ho Hn Hd Hf Ha Hx. pose proof (generationless_nonneg self ut intent (night_key reg) p Hp Hi) as Hin.
  unfold apply_registration in Hx. set (dust_in := generationless_fee_availability _ _ _ _ _) in *.
  apply bind_Ok_inv in Hx as (st0 & _ & Hx). apply bind_Ok_inv in Hx as ([st1 ev1] & Hev & Hx).
  injection Hx as _ <- <-. split; [lia|]. split; [lia|].
  destruct (dust_address reg) as [addr|]; [|injection Hev as _ <-; unfold events_value; simpl; lia].
  apply registration_outputs_events in Hev as (vs & Hvs & ->).
  assert (Hsum : output_sum (owned_outputs intent (vk_address (night_key reg))) = registration_night intent reg).
  { unfold output_sum, registration_night in *. apply (sat_sum_eq u128_max _ 0); [by apply Forall_fmap|lia|].
    unfold DISTRIBUTION_RESOLUTION in Hn. pose proof (zsum_nonneg _ (proj2 (Forall_fmap _ _ _) Ho)).
    lia. }
  eapply distributed_values_bound in Hvs; [|done|exact Hsum|by rewrite Hsum|lia|unfold DISTRIBUTION_RESOLUTION in *; lia].
  unfold events_value at 1. simpl. lia.
Qed.
End registrations.

(** ** The trees behind the Dust state

    A tree filled from the left: genuine hashes, nothing collapsed, and exactly
    the leaves below [first_free] are used. *)
Definition filled {A} `{Hashing} (t : MerkleTreeNode A) (first_free : Z) : Prop :=
  mt_wf t /\ hash_ok t /\ mt_height t = 32 /\ 0 <= first_free <= 2 ^ 32 /\
  (forall j, 0 <= j < 2 ^ 32 -> mt_index t j = None <-> first_free <= j) /\
  (forall j, 0 <= j < 2 ^ 32 -> collapsed_at t j = false).
Section trees.
Context `{Hashing} {A : Type}.
Implicit Types t : MerkleTreeNode A.

Lemma filled_blank : filled (blank 32 : MerkleTreeNode A) 0.
Proof. split_and!; try done. intros j Hj. split; [lia|done]. Qed.
Lemma filled_append t ff leaf aux :
  filled t ff ->
  match try_update_hash t ff leaf aux with
  | Ok t' => ff < 2 ^ 32 /\ filled t' (ff + 1) /\ mt_index t' ff = Some (leaf, aux) /\
             (forall j, 0 <= j < 2 ^ 32 -> j <> ff -> mt_index t' j = mt_index t j)
  | Err e => ff = 2 ^ 32 /\ e = IndexOutOfTree ff
  | Panic => False
  end.
Proof.
  intros (Hwf & Hok & Hh & Hff & Hfree & Hcol).
  pose proof (try_update_hash_rec_spec (mt_size t) t ff leaf aux Hwf ltac:(lia) ltac:(lia) ltac:(lia)) as Hu.
  unfold try_update_hash. rewrite Hh in Hu. destruct (try_update_hash_rec _ _ _ _ _) as [t'|[]|]; try done.
  - destruct Hu as (Hlt & _ & Hwf' & Hh' & Hok' & Hidx & Hcol'). rewrite Hh in *. unfold filled. split_and!; auto; try lia.
    + intros j Hj. rewrite Hidx by done. case_decide as Hd; [subst; split; [done|lia]|]. rewrite Hfree by done. lia.
    + intros j Hj. rewrite Hcol' by done. by apply Hcol.
    + rewrite Hidx, decide_True by (done || lia). done.
    + intros j Hj Hne. rewrite Hidx, decide_False by done. done.
  - destruct Hu as [Hlt Hc]. rewrite Hcol in Hc by lia. done.
  - destruct Hu as [-> Hge]. split; [lia|done].
Qed.
Lemma filled_update t ff i leaf aux :
  filled t ff -> 0 <= i < ff ->
  exists t', try_update_hash t i leaf aux = Ok t' /\ filled t' ff /\
    (forall j, 0 <= j < 2 ^ 32 -> mt_index t' j = if decide (j = i) then Some (leaf, aux) else mt_index t j).
Proof.
  intros (Hwf & Hok & Hh & Hff & Hfree & Hcol) Hi.
  pose proof (try_update_hash_rec_spec (mt_size t) t i leaf aux Hwf ltac:(lia) ltac:(lia) ltac:(lia)) as Hu.
  unfold try_update_hash. rewrite Hh in Hu. destruct (try_update_hash_rec _ _ _ _ _) as [t'|[]|]; try done.
  - destruct Hu as (Hlt & _ & Hwf' & Hh' & Hok' & Hidx & Hcol'). rewrite Hh in *. exists t'. unfold filled. split_and!; auto; try lia.
    + intros j Hj. rewrite Hidx by done. case_decide as Hd; [subst; split; [done|lia]|]. by apply Hfree.
    + intros j Hj. rewrite Hcol' by done. by apply Hcol.
  - destruct Hu as [Hlt Hc]. rewrite Hcol in Hc by lia. done.
  - destruct Hu as [-> Hge]. lia.
Qed.
Lemma filled_rehash {E : Type} t ff :
  filled t ff ->
  exists t', rehash (E := E) t = Ok t' /\ filled t' ff /\ mt_root t' = Some (root_spec t) /\
    (forall j, mt_index t' j = mt_index t j).
Proof.
  intros (Hwf & Hok & Hh & Hff & Hfree & Hcol).
  destruct (rehash_spec (E := E) t) as (t' & -> & Hr & Hh' & Hwf' & Hok' & Hidx & Hcol').
  exists t'. unfold filled. split_and!; auto; try lia.
  - intros j Hj. rewrite Hidx. by apply Hfree.
  - intros j Hj. rewrite Hcol'. by apply Hcol.
Qed.
(** Evidence of an insertion exists for every used leaf. *)
Lemma path_loop_own t : forall i idx path lefts leaf,
  mt_wf t -> 1 <= mt_height t <= 63 -> 0 <= i < 2 ^ mt_height t -> mt_index t i = Some leaf ->
  exists p, path_loop t false idx i path lefts = Ok p.
Proof.
  induction t as [h0 a0|h0 a0|h0|x l IHl r IHr h]; intros i idx path lefts leaf Hwf Hh Hi Hidx; [simpl in Hh; lia|done|done|].
  apply mt_wf_node in Hwf as (Hge & Hl & Hr & _ & Hwl & Hwr). pose proof (pow2_split h Hge).
  cbn [mt_height] in *. cbn [mt_index] in Hidx. cbn [path_loop mt_height]. rewrite shl_u64_small in * by lia.
  destruct (Z.ltb_spec 1 h); [|by eexists].
  destruct (Z.ltb_spec i (2 ^ (h - 1))); [eapply IHl|eapply IHr]; try done; rewrite ?Hl, ?Hr; lia.
Qed.
Lemma filled_evidence t ff i leaf :
  filled t ff -> 0 <= i < 2 ^ 32 -> mt_index t i = Some leaf -> exists e, insertion_evidence t i = Ok e.
Proof.
  intros (Hwf & _ & Hh & _) Hi Hl. unfold insertion_evidence, path_for_index_internal. rewrite Hh. simpl.
  destruct (path_loop_own t i i [] [] leaf) as [[p l] ->]; try done; [rewrite Hh; lia..|]. simpl. rewrite Hl. by eexists.
Qed.
End trees.


(** ** The invariant of the Dust state *)
Section dust_invariant.
Context `{LedgerHashing} `{Hashing}.
Implicit Types d : DustState.

(** Both trees are filled from the left; every index in [night_indices] leads
    to the generation entry of that nonce; entries are stored under their own
    hash; [generating_set] is the set of the entries, as many as there are
    leaves, so that no two are the same. *)
Definition dust_wf d : Prop :=
  let u := du d in let g := generation d in
  filled (du_commitments u) (commitments_first_free u) /\
  filled (generating_tree g) (generating_tree_first_free g) /\
  (forall nonce idx, night_indices g !! nonce = Some idx ->
     0 <= idx < generating_tree_first_free g /\
     exists h info, mt_index (generating_tree g) idx = Some (h, info) /\ gen_nonce info = nonce) /\
  (forall idx h info, 0 <= idx < 2 ^ 32 -> mt_index (generating_tree g) idx = Some (h, info) ->
     h = merkle_hash info /\ uniqueness_info info ∈ generating_set g) /\
  (forall u, u ∈ generating_set g -> exists idx h info, 0 <= idx < generating_tree_first_free g /\
     mt_index (generating_tree g) idx = Some (h, info) /\ uniqueness_info info = u) /\
  Z.of_nat (size (generating_set g)) = generating_tree_first_free g.

Lemma dust_default_wf : dust_wf DustState_default.
Proof.
  unfold dust_wf. cbn [du generation DustState_default DustUtxoState_default DustGenerationState_default du_commitments
    commitments_first_free generating_tree generating_tree_first_free night_indices generating_set].
  split_and!; [apply filled_blank|apply filled_blank|done|done|set_solver|done].
Qed.
Definition forced (ev : Deferred) : Prop := Forall is_Some ev.
(** What every operation that succeeds guarantees. *)
Definition dust_post d (r : DustState * Deferred) : Prop :=
  dust_wf r.1 /\ forced r.2 /\ du_nullifiers (du d) ⊆ du_nullifiers (du r.1) /\
  (forall idx, 0 <= idx < generating_tree_first_free (generation d) ->
     mt_index (generating_tree (generation r.1)) idx = mt_index (generating_tree (generation d)) idx) /\
  generating_tree_first_free (generation d) <= generating_tree_first_free (generation r.1).

Lemma filled_trunc {A} (t : MerkleTreeNode A) ff : filled t (ff + 1) -> filled t (trunc u64_max (ff + 1)).
Proof. intros Hf. rewrite trunc_id; [done|]. destruct Hf as (_ & _ & _ & Hff & _). unfold in_u, u64_max. lia. Qed.

Lemma apply_spend_ok d spend time tb :
  dust_wf d ->
  safe (apply_spend d spend time tb) (fun r =>
    dust_post d r /\ (old_nullifier spend ∉ du_nullifiers (du d)) /\ old_nullifier spend ∈ du_nullifiers (du r.1)).
Proof.
  intros (Hc & Hrest). unfold apply_spend. case_bool_decide as Hn; [exact I|].
  pose proof (filled_append _ _ (upgrade_from_transient (new_commitment spend)) tt Hc) as Ha.
  destruct (try_update_hash _ _ _ _) as [t| |]; [|exact I|done]. destruct Ha as (_ & Ha & _). simpl.
  split; [|split; [done|set_solver]]. split; [split; [by apply filled_trunc|exact Hrest]|].
  split; [by repeat constructor|]. split; [set_solver|]. split; [done|apply Z.le_refl].
Qed.
Lemma fresh_dust_output_ok d nonce v night addr tnow tb :
  dust_wf d -> safe (fresh_dust_output d nonce v night addr tnow tb) (dust_post d).
Proof.
  intros (Hc & Hg & Hni & Hset & Hall & Hsize). unfold fresh_dust_output.
  set (info := {| gen_value := night; gen_owner := addr; gen_nonce := nonce; gen_dtime := u64_max |}).
  pose proof (filled_append _ _ (upgrade_from_transient (dust_commitment v addr (dust_first_nonce nonce addr) tnow)) tt Hc) as Ha.
  destruct (try_update_hash (du_commitments _) _ _ _) as [t| |]; [|exact I|done]. destruct Ha as (_ & Ha & _).
  cbn [map_err mbind outcome_bind]. case_bool_decide as Hn; [exact I|].
  pose proof (filled_append _ _ (merkle_hash info) info Hg) as Hb.
  destruct (try_update_hash (generating_tree _) _ _ _) as [gt| |]; [|exact I|done].
  destruct Hb as (Hlt & Hb & Hnew & Hold). pose proof Hg as (_ & _ & _ & Hff & _).
  assert (Htr : trunc u64_max (generating_tree_first_free (generation d) + 1) = generating_tree_first_free (generation d) + 1)
    by (apply trunc_id; unfold in_u, u64_max; lia).
  split; [|split; [by repeat constructor|split; [done|split]]].
  - unfold dust_wf. cbn [fst du generation du_commitments commitments_first_free generating_tree generating_tree_first_free
      night_indices generating_set]. rewrite Htr. split; [by apply filled_trunc|]. split; [done|]. split_and!.
    + intros n idx. destruct (decide (n = nonce)) as [->|Hne].
      * rewrite lookup_insert_eq. intros [= <-]. split; [lia|]. by eexists _, info.
      * rewrite lookup_insert_ne by done. intros Hx. destruct (Hni _ _ Hx) as (? & h & i & ? & ?).
        split; [lia|]. exists h, i. by rewrite Hold by lia.
    + intros idx h i Hidx Hx. destruct (decide (idx = generating_tree_first_free (generation d))) as [->|Hne].
      * rewrite Hnew in Hx. injection Hx as <- <-. split; [done|set_solver].
      * rewrite Hold in Hx by done. destruct (Hset _ _ _ Hidx Hx) as [-> ?]. split; [done|set_solver].
    + intros u. rewrite elem_of_union, elem_of_singleton. intros [->|Hu].
      * exists (generating_tree_first_free (generation d)), (merkle_hash info), info. split; [lia|done].
      * destruct (Hall u Hu) as (idx & h & i & Hr & Hi & Hx). exists idx, h, i. rewrite Hold by lia. split; [lia|done].
    + rewrite size_union, size_singleton by set_solver. lia.
  - intros idx Hidx. cbn. apply Hold; lia.
  - cbn. rewrite Htr. lia.
Qed.

(** Spending Night: its generation entry gets the block time as end time. *)
Definition dtime_set (tb : Z) d d' (nonce : InitialNonce) : Prop :=
  forall idx h info, night_indices (generation d) !! nonce = Some idx ->
    mt_index (generating_tree (generation d)) idx = Some (h, info) ->
    mt_index (generating_tree (generation d')) idx = Some (merkle_hash (set_dtime info tb), set_dtime info tb).
(** [d'] differs from [d] in end times only. *)
Definition dtimes_only (tb : Z) d d' : Prop :=
  du d' = du d /\ night_indices (generation d') = night_indices (generation d) /\
  address_delegation (generation d') = address_delegation (generation d) /\
  generating_tree_first_free (generation d') = generating_tree_first_free (generation d) /\
  forall idx, 0 <= idx < 2 ^ 32 ->
    mt_index (generating_tree (generation d')) idx = mt_index (generating_tree (generation d)) idx \/
    exists h info, mt_index (generating_tree (generation d)) idx = Some (h, info) /\
      mt_index (generating_tree (generation d')) idx = Some (merkle_hash (set_dtime info tb), set_dtime info tb).
Lemma dtimes_only_refl tb d : dtimes_only tb d d.
Proof. split_and!; try done. by left. Qed.
Lemma dtimes_only_trans tb d1 d2 d3 : dtimes_only tb d1 d2 -> dtimes_only tb d2 d3 -> dtimes_only tb d1 d3.
Proof.
  intros (E1 & E2 & E3 & E4 & I1) (F1 & F2 & F3 & F4 & I2). split_and!; [congruence..|].
  intros idx Hidx. destruct (I2 idx Hidx) as [->|(h & info & Hx & ->)]; [by apply I1|].
  destruct (I1 idx Hidx) as [E|(h' & info' & Hy & E)]; rewrite E in Hx; [right; by exists h, info|].
  injection Hx as _ <-. right. exists h', info'. by split.
Qed.
(** The end times set so far survive setting more of them. *)
Lemma dtime_set_keeps tb d d1 d2 nonce :
  dust_wf d -> dtimes_only tb d d1 -> dtimes_only tb d1 d2 -> dtime_set tb d d1 nonce -> dtime_set tb d d2 nonce.
Proof.
  intros (_ & Hg & Hni & _) _ (_ & _ & _ & _ & I2) Hs idx h info Hn Hi. pose proof (Hs _ _ _ Hn Hi) as Hx.
  destruct (Hni _ _ Hn) as [Hr _]. destruct Hg as (_ & _ & _ & Hff & _).
  destruct (I2 idx ltac:(lia)) as [->|(h' & info' & Hy & ->)]; [done|]. rewrite Hx in Hy. by injection Hy as _ <-.
Qed.
Lemma set_tree_wf d tree idx h0 info0 tb :
  dust_wf d -> filled tree (generating_tree_first_free (generation d)) ->
  mt_index (generating_tree (generation d)) idx = Some (h0, info0) -> 0 <= idx < 2 ^ 32 ->
  (forall j, 0 <= j < 2 ^ 32 -> mt_index tree j =
     if decide (j = idx) then Some (merkle_hash (set_dtime info0 tb), set_dtime info0 tb)
     else mt_index (generating_tree (generation d)) j) ->
  dust_wf (set_generating_tree d tree) /\ dtimes_only tb d (set_generating_tree d tree).
Proof.
  intros (Hc & Hg & Hni & Hset & Hall & Hsize) Ht Hi Hidx Hj. pose proof Hg as (_ & _ & _ & Hff & _). split.
  - unfold dust_wf. cbn. split; [done|]. split; [done|]. split_and!; [..|done].
    + intros n j Hn. destruct (Hni _ _ Hn) as (? & h & i & Hx & ?). split; [done|]. rewrite Hj by lia.
      destruct (decide (j = idx)) as [->|]; [|by exists h, i]. rewrite Hi in Hx. injection Hx as _ <-. by eexists _, _.
    + intros j h i Hjr. rewrite Hj by done. destruct (decide (j = idx)) as [->|]; [|by apply Hset].
      intros [= <- <-]. split; [done|]. by apply (Hset _ _ _ Hidx Hi).
    + intros u Hu. destruct (Hall u Hu) as (k & h & i & Hr & Hx & <-). exists k. rewrite Hj by lia.
      destruct (decide (k = idx)) as [->|]; [|by exists h, i]. rewrite Hi in Hx. injection Hx as -> ->. by eexists _, _.
  - split_and!; try done. intros j Hjr. cbn. rewrite Hj by done. destruct (decide (j = idx)) as [->|]; [|by left].
    right. by exists h0, info0.
Qed.

(** Replacing the entry at [idx] succeeds, and the evidence can be produced. *)
Lemma dtime_update_ok d idx h info tb :
  dust_wf d -> 0 <= idx < generating_tree_first_free (generation d) ->
  mt_index (generating_tree (generation d)) idx = Some (h, info) ->
  exists tree, try_update_hash (generating_tree (generation d)) idx (merkle_hash (set_dtime info tb)) (set_dtime info tb) = Ok tree /\
    forall tree', tree' = tree \/ (exists E, rehash (E := E) tree = Ok tree') ->
    dust_wf (set_generating_tree d tree') /\ dtimes_only tb d (set_generating_tree d tree') /\
    (forall nonce, night_indices (generation d) !! nonce = Some idx -> dtime_set tb d (set_generating_tree d tree') nonce) /\
    exists e, insertion_evidence tree' idx = Ok e.
Proof.
  intros Hwf Hidx Hi. pose proof Hwf as (_ & Hg & Hni & _). pose proof Hg as (_ & _ & _ & Hff & _).
  destruct (filled_update _ _ idx (merkle_hash (set_dtime info tb)) (set_dtime info tb) Hg Hidx) as (tree & -> & Ht & Hj).
  exists tree. split; [done|]. intros tree' Htree'.
  assert (Hf : filled tree' (generating_tree_first_free (generation d)) /\ forall j, mt_index tree' j = mt_index tree j).
  { destruct Htree' as [->|[E Hre]]; [done|]. destruct (filled_rehash (E := E) _ _ Ht) as (t2 & E2 & Hf & _ & Hx).
    rewrite Hre in E2. injection E2 as ->. done. }
  destruct Hf as [Hf Hx]. assert (Hj' : forall j, 0 <= j < 2 ^ 32 -> mt_index tree' j =
     if decide (j = idx) then Some (merkle_hash (set_dtime info tb), set_dtime info tb)
     else mt_index (generating_tree (generation d)) j) by (intros j Hjr; rewrite Hx; by apply Hj).
  destruct (set_tree_wf d tree' idx h info tb Hwf Hf Hi ltac:(lia) Hj') as [Hwf' Hd]. split_and!; [done|done| |].
  - intros nonce Hn idx' h' info' Hn' Hi'. rewrite Hn in Hn'. injection Hn' as <-. rewrite Hi in Hi'. injection Hi' as _ <-.
    cbn. rewrite Hj', decide_True by (done || lia). done.
  - eapply (filled_evidence tree'); [exact Hf|lia|]. rewrite Hj', decide_True by (done || lia). done.
Qed.

(** State and events after some of the inputs; [nonces] are the ones done. *)
Definition inputs_done (tb : Z) d (nonces : list InitialNonce) (acc : DustState * Deferred) : Prop :=
  dust_wf acc.1 /\ dtimes_only tb d acc.1 /\ forced acc.2 /\ Forall (dtime_set tb d acc.1) nonces.
Lemma offer_input_ok tb d nonces acc input :
  dust_wf d -> inputs_done tb d nonces acc ->
  safe (offer_input tb acc input) (inputs_done tb d (spend_initial_nonce input :: nonces)).
Proof.
  intros Hd (Hwf & Hdo & Hf & Hs). unfold offer_input.
  pose proof Hwf as (_ & Hg & Hni & _). pose proof Hg as (_ & _ & _ & Hff & _). pose proof Hdo as (_ & En & _ & _ & Hix).
  destruct (night_indices (generation acc.1) !! spend_initial_nonce input) as [idx|] eqn:Hn.
  2: { split_and!; try done. constructor; [|done]. intros idx h info Hx. rewrite <- En, Hn in Hx. done. }
  destruct (Hni _ _ Hn) as (Hidx & h & info & Hi & Hnonce). rewrite Hi.
  destruct (dtime_update_ok acc.1 idx h info tb Hwf Hidx Hi) as (tree & -> & Htree). cbn [map_err mbind outcome_bind].
  destruct (Htree tree (or_introl eq_refl)) as (Hwf' & Hdo' & Hset & _).
  assert (Hd2 : dtimes_only tb d (set_generating_tree acc.1 tree)) by (by eapply dtimes_only_trans).
  split; [done|]. split; [done|]. split.
  - apply Forall_app. split; [done|]. constructor; [|constructor]. unfold dtime_event.
    destruct (rehash_spec (E := TransactionInvalid) tree) as (t2 & E2 & _). rewrite E2.
    destruct (Htree t2) as (_ & _ & _ & e & ->); [right; by eexists|]. by eexists.
  - constructor.
    + intros idx' h' info' Hn' Hi'. rewrite <- En, Hn in Hn'. injection Hn' as <-.
      destruct (Hix idx ltac:(lia)) as [E|(h2 & info2 & E1 & E2)].
      * rewrite Hi, Hi' in E. injection E as -> ->. exact (Hset (spend_initial_nonce input) Hn idx _ _ Hn Hi).
      * rewrite Hi' in E1. injection E1 as -> ->. rewrite Hi in E2. injection E2 as _ ->.
        exact (Hset (spend_initial_nonce input) Hn idx _ _ Hn Hi).
    + eapply list.Forall_impl; [exact Hs|]. intros n Hdn.
      exact (dtime_set_keeps tb d acc.1 _ n Hd Hdo Hdo' Hdn).
Qed.
Lemma offer_inputs_ok tb d l nonces acc :
  dust_wf d -> inputs_done tb d nonces acc ->
  safe (try_fold (offer_input tb) acc l) (inputs_done tb d (reverse (spend_initial_nonce <$> l) ++ nonces)).
Proof.
  intros Hd. revert nonces acc. induction l as [|i l IH]; intros nonces acc Hacc; [done|].
  cbn [try_fold]. eapply safe_bind; [by apply offer_input_ok|]. intros acc' Hacc'.
  rewrite fmap_cons, reverse_cons, <- app_assoc. by apply IH.
Qed.

(** Appending entries keeps the ones there are. *)
Lemma dust_post_trans d acc r : dust_post d acc -> dust_post acc.1 (r.1, r.2) -> forall ev, forced ev -> dust_post d (r.1, ev).
Proof.
  intros (_ & _ & N1 & I1 & F1) (Hwf & _ & N2 & I2 & F2) ev Hev. split_and!; try done; [set_solver| |cbn in *; lia].
  intros idx Hidx. cbn in *. rewrite I2, I1 by lia. done.
Qed.
Lemma offer_output_ok parent seg tb d acc no :
  dust_post d acc -> safe (offer_output parent seg tb acc no) (dust_post d).
Proof.
  intros Hp. unfold offer_output. destruct (address_delegation _ !! _); [|done].
  destruct (handled_by_registration _ _ _); [done|]. eapply safe_bind.
  { apply safe_map_err, fresh_dust_output_ok. apply Hp. }
  intros [st ev] Hr. eapply (dust_post_trans d acc (st, ev)); [done|done|]. apply Forall_app. split; [apply Hp|apply Hr].
Qed.

(** Applying an offer: no panic, the invariant is kept, and every Night spent
    stops generating. *)
Lemma dust_apply_offer_ok d offer parent seg tb :
  dust_wf d ->
  safe (dust_apply_offer d offer parent seg tb) (fun r =>
    dust_wf r.1 /\ forced r.2 /\ du_nullifiers (du d) ⊆ du_nullifiers (du r.1) /\
    forall i, i ∈ uo_inputs offer -> us_type i = NIGHT -> dtime_set tb d r.1 (spend_initial_nonce i)).
Proof.
  intros Hd. unfold dust_apply_offer. eapply safe_bind.
  { apply (offer_inputs_ok tb d _ []); [done|]. split_and!; [done|apply dtimes_only_refl|constructor|constructor]. }
  intros acc (Hwf & Hdo & Hf & Hs). pose proof Hdo as (Edu & En & Ea & Eff & _). eapply safe_impl.
  { apply (safe_try_fold (dust_post acc.1)); [|intros a x; apply offer_output_ok]. split_and!; [done|done|done|done|lia]. }
  intros r (Hwf' & Hf' & Hn & Hi & _). split; [done|]. split; [done|]. split; [by rewrite <- Edu|].
  intros i Hin Ht idx h info Hidx Hx.
  assert (Hds : dtime_set tb d acc.1 (spend_initial_nonce i)).
  { rewrite app_nil_r in Hs. apply (proj1 (list.Forall_forall _ _) Hs). rewrite elem_of_reverse.
    apply list_elem_of_fmap_2. by apply list_elem_of_filter. }
  destruct Hd as (_ & _ & Hni & _). destruct (Hni _ _ Hidx) as [Hr _]. rewrite Hi by (rewrite Eff; lia). by apply (Hds idx h).
Qed.

(** Registrations and the end of a block. *)
Lemma apply_registration_ok d ut fees intent reg p tnow tb :
  dust_wf d ->
  safe (apply_registration d ut fees intent reg p tnow tb) (fun r =>
    dust_wf r.1.1 /\ forced r.2 /\ du_nullifiers (du d) ⊆ du_nullifiers (du r.1.1)).
Proof.
  intros Hd. unfold apply_registration. eapply (safe_bind _ _ (fun st => dust_post d (st, []))).
  { assert (Hdel : forall m, dust_post d (set_delegation d m, [])) by (intros m; split; [exact Hd|split; [constructor|split; [done|split; [done|apply Z.le_refl]]]]).
    destruct (dust_address reg); [apply Hdel|]. case_bool_decide; [apply Hdel|exact I]. }
  intros st Hst. eapply safe_bind.
  { instantiate (1 := dust_post d). destruct (dust_address reg) as [addr|]; [|done].
    apply safe_try_fold; [done|]. intros a no Ha. unfold registration_output. eapply (safe_bind _ _ (fun _ => True)); [by apply safe_ok_or|].
    intros v _. eapply safe_bind; [apply safe_map_err, fresh_dust_output_ok, Ha|].
    intros [st' ev] Hr. eapply (dust_post_trans d a (st', ev)); [done|done|]. apply Forall_app. split; [apply Ha|apply Hr]. }
  intros [st' ev] (Hwf & Hf & Hn & _). by split_and!.
Qed.
Lemma dust_post_block_ok {E : Type} d tb ttl :
  dust_wf d -> exists d', dust_post_block_update (E := E) d tb ttl = Ok d' /\ dust_wf d' /\ du_nullifiers (du d') = du_nullifiers (du d).
Proof.
  intros (Hc & Hg & Hni & Hset & Hall & Hsize). unfold dust_post_block_update.
  destruct (filled_rehash (E := E) _ _ Hc) as (t1 & -> & Hf1 & Hr1 & _). cbn [mbind outcome_bind]. rewrite Hr1.
  destruct (filled_rehash (E := E) _ _ Hg) as (t2 & E2 & Hf2 & Hr2 & Hi2). cbn [unwrap mbind outcome_bind]. rewrite E2.
  cbn [mbind outcome_bind]. rewrite Hr2. cbn [unwrap mbind outcome_bind].
  eexists. split; [reflexivity|]. split; [|done]. unfold dust_wf. cbn. split_and!; try done.
  - intros n idx Hn. destruct (Hni _ _ Hn) as (? & h & i & ? & ?). split; [done|]. exists h, i. by rewrite Hi2.
  - intros idx h i Hr. rewrite Hi2. by apply Hset.
  - intros u Hu. destruct (Hall u Hu) as (idx & h & i & ? & ? & ?). exists idx, h, i. by rewrite Hi2.
Qed.

(** Spending Night ends its Dust generation: in a well-formed Dust state, an
    unshielded offer that goes through sets the end time of the generation entry
    of every Night output it spends to the block time, and stores the entry under
    its new hash. *)
Theorem offer_stops_generation d offer parent seg tb d' ev i idx :
  dust_wf d -> dust_apply_offer d offer parent seg tb = Ok (d', ev) -> i ∈ uo_inputs offer -> us_type i = NIGHT ->
  night_indices (generation d) !! spend_initial_nonce i = Some idx ->
  exists info, gen_nonce info = spend_initial_nonce i /\
    mt_index (generating_tree (generation d')) idx = Some (merkle_hash (set_dtime info tb), set_dtime info tb).
Proof.
  intros Hwf Hx Hi Ht Hn. pose proof (dust_apply_offer_ok d offer parent seg tb Hwf) as Hs. rewrite Hx in Hs.
  destruct Hs as (_ & _ & _ & Hset). pose proof Hwf as (_ & _ & Hni & _). destruct (Hni _ _ Hn) as (_ & h & info & Hm & Hg).
  exists info. split; [done|]. exact (Hset i Hi Ht idx h info Hn Hm).
Qed.
End dust_invariant.

(** ** Examples *)
From S2P Require Import VmProps RuntimeProps LedgerCost Ledger ToyLedger.
(** Ten Night from time 1000 to time 5000. *)
Definition toy_night : Z := 10 * STARS_PER_NIGHT.
Definition toy_dust_output : DustOutput :=
  {| do_initial_value := 0; do_owner := 7; do_nonce := 1; do_seq := 0; do_ctime := 1000 |}.
Definition toy_generation : DustGenerationInfo :=
  {| gen_value := toy_night; gen_owner := 7; gen_nonce := toy_hash 1; gen_dtime := 5000 |}.

Lemma updated_value_phases_witness :
  updated_value toy_dust_output toy_generation 2000 INITIAL_DUST_PARAMETERS = 1000 * (toy_night * 8267) /\
  updated_value toy_dust_output toy_generation 2000 INITIAL_DUST_PARAMETERS <=
    updated_value toy_dust_output toy_generation 5000 INITIAL_DUST_PARAMETERS /\
  updated_value toy_dust_output toy_generation (5000 + time_to_cap INITIAL_DUST_PARAMETERS) INITIAL_DUST_PARAMETERS = 0.
Proof.
  destruct (updated_value_phases toy_dust_output toy_generation INITIAL_DUST_PARAMETERS) as (_ & Hgrow & _ & _ & Hzero).
  - unfold dust_params_wf, in_u. vm_compute. repeat split; discriminate.
  - unfold output_wf, in_u. vm_compute. repeat split; discriminate.
  - split; [vm_compute; reflexivity|]. split; [apply Hgrow; vm_compute; split; discriminate|].
    apply Hzero. vm_compute. discriminate.
Defined.

(** Ten Night created at time 0 are spent to one output at time 1000, which
    registers its owner: the Dust they would have made pays a fee of 50. *)
Definition toy_spend : UtxoSpend :=
  {| us_value := toy_night; us_owner := 7; us_type := NIGHT; us_intent_hash := toy_hash 5; us_output_no := 0 |}.
Definition toy_registration : DustRegistration := {| night_key := 7; dust_address := Some 70; allow_fee_payment := 50 |}.
Definition toy_registration_intent : Intent :=
  toy_intent_with
    (Some {| uo_inputs := [toy_spend]; uo_signatures := [];
             uo_outputs := [{| uout_value := toy_night; uout_owner := toy_hash 7; uout_type := NIGHT |}] |})
    (Some {| spends := []; registrations := [toy_registration]; da_ctime := 1000 |}) 1500.
Definition toy_utxos : UtxoState := utxo_insert UtxoState_default (utxo_of_spend toy_spend) {| meta_ctime := 0 |}.
Definition toy_registered : DustState * Z * Deferred :=
  match apply_registration DustState_default toy_utxos 80 toy_registration_intent toy_registration INITIAL_DUST_PARAMETERS 1000 1000 with
  | Ok r => r
  | _ => (DustState_default, 0, [])
  end.
Lemma registration_conserves_dust_witness :
  toy_registered.1.2 = 30 /\ events_value toy_registered.2 = 1000 * (toy_night * 8267) - 50 /\
  50 + events_value toy_registered.2 <=
    generationless_fee_availability DustState_default toy_utxos toy_registration_intent 7 INITIAL_DUST_PARAMETERS.
Proof.
  split; [vm_compute; reflexivity|]. split; [vm_compute; reflexivity|].
  destruct (registration_conserves_dust DustState_default toy_utxos 80 toy_registration_intent toy_registration
    INITIAL_DUST_PARAMETERS 1000 1000 toy_registered.1.1 30 toy_registered.2) as (_ & _ & Hsum).
  - unfold dust_params_wf, in_u. vm_compute. repeat split; discriminate.
  - intros i Hi. simpl in Hi. apply list_elem_of_singleton in Hi as ->. vm_compute. discriminate.
  - vm_compute. constructor; [discriminate|constructor].
  - vm_compute. discriminate.
  - vm_compute. discriminate.
  - lia.
  - vm_compute. discriminate.
  - vm_compute. reflexivity.
  - exact Hsum.
Defined.

(** The new output is spent again at time 2000. *)
Definition toy_respend : UtxoSpend :=
  {| us_value := toy_night; us_owner := 7; us_type := NIGHT; us_intent_hash := intent_hash toy_registration_intent 0; us_output_no := 0 |}.
Definition toy_offer : UnshieldedOffer := {| uo_inputs := [toy_respend]; uo_signatures := []; uo_outputs := [] |}.
Definition toy_stopped : DustState * Deferred :=
  match dust_apply_offer toy_registered.1.1 toy_offer (toy_intent 2500) 0 2000 with Ok r => r | _ => (DustState_default, []) end.
Lemma offer_stops_generation_witness :
  exists info, gen_nonce info = spend_initial_nonce toy_respend /\
    mt_index (generating_tree (generation toy_stopped.1)) 0 = Some (merkle_hash (set_dtime info 2000), set_dtime info 2000).
Proof.
  apply (offer_stops_generation toy_registered.1.1 toy_offer (toy_intent 2500) 0 2000 toy_stopped.1 toy_stopped.2).
  - pose proof (apply_registration_ok DustState_default toy_utxos 80 toy_registration_intent toy_registration
      INITIAL_DUST_PARAMETERS 1000 1000 dust_default_wf) as Hs.
    destruct (apply_registration _ _ _ _ _ _ _ _) as [r| |] eqn:E; [|discriminate E..].
    unfold toy_registered. rewrite E. apply Hs.
  - vm_compute. reflexivity.
  - left.
  - vm_compute. reflexivity.
  - vm_compute. reflexivity.
Defined.
