(* ===== verification/ReplayProps.v ===== *)
(** * Replay protection ([ledger/src/semantics.rs])

    An intent is recorded under its time to live when its transaction is
    applied, and stays recorded until that has passed; after that it is expired.
    So it can never be applied a second time, in whatever segment it reappears. *)
From S2P Require Import Prelude Time CostModel Fab FabSerial MerkleTree TimeFilterMap Zswap StateValue.
From S2P Require Import VmOps Coin DeltaTracking Runtime LedgerData LedgerCost Dust Ledger.
Set Warnings "-register-all".

(** ** Steps of the ledger

    What a node does to the state: apply a transaction, apply a system
    transaction, close a block. *)
Inductive LedgerAction `{KeyTypes} :=
| ApplyTx (tx : VerifiedTransaction) (context : TransactionContext)
| ApplySystem (tx : SystemTransaction) (time : Z)
| EndBlock (time : Z) (detailed : NormalizedCost) (overall : FixedPoint).
Definition action_time `{KeyTypes} (a : LedgerAction) : Z :=
  match a with
  | ApplyTx _ context => tblock (block_context context)
  | ApplySystem _ time | EndBlock time _ _ => time
  end.
Definition to_option {E A} (m : outcome E A) : option A := match m with Ok a => Some a | _ => None end.
Section steps.
Context `{LedgerHashing} `{Hashing} `{!Sizes} `{!SystemHashing} {FO : FieldOrder} {SS : StateStorage} {SA : StateArena}.

Definition ledger_step (s : LedgerState) (a : LedgerAction) : option LedgerState :=
  match a with
  | ApplyTx tx context => fst <$> to_option (apply (E := Empty_set) s tx context)
  | ApplySystem tx time => fst <$> to_option (apply_system_tx s tx time)
  | EndBlock time detailed overall => to_option (post_block_update s time detailed overall)
  end.
Fixpoint run (s : LedgerState) (acts : list LedgerAction) : option LedgerState :=
  match acts with
  | [] => Some s
  | a :: acts => ledger_step s a ≫= fun s => run s acts
  end.
Definition genesis (s : LedgerState) : Prop :=
  exists id params locked reserve treas, with_genesis_settings id params locked reserve treas = Ok s.
Definition reachable (s : LedgerState) : Prop := exists s0 acts, genesis s0 /\ run s0 acts = Some s.

Lemma run_app s acts1 acts2 : run s (acts1 ++ acts2) = run s acts1 ≫= fun s => run s acts2.
Proof. revert s. induction acts1 as [|a acts1 IH]; intros s; simpl; [done|]. destruct (ledger_step s a); simpl; auto. Qed.
(** Induction over reachable states. *)
Lemma run_ind (P : LedgerState -> Prop) s acts s' :
  P s -> (forall s a s', P s -> ledger_step s a = Some s' -> P s') -> run s acts = Some s' -> P s'.
Proof.
  intros Hs Hstep. revert s Hs. induction acts as [|a acts IH]; intros s Hs; simpl; [by intros [= <-]|].
  destruct (ledger_step s a) as [s1|] eqn:E; simpl; [|done]. apply IH. eauto.
Qed.
End steps.

(** ** The multiset and the map of a replay protection state *)
Section entries.
Implicit Types (f : TimeFilterMap (gset IntentHash) IntentHash) (h : IntentHash).

(** Each recorded hash has count one. *)
Definition counts_one f : Prop :=
  NoDup (tf_items f) /\ forall x, tf_set f !! x = if decide (x ∈ tf_items f) then Some 1 else None.
Definition entry f (t : Z) h : Prop := h ∈ default ∅ (tf_time_map f !! t).

Lemma counts_one_new : counts_one tf_new.
Proof. split; [constructor|]. intros x. by rewrite decide_False by (apply not_elem_of_nil). Qed.
Lemma entry_contains f t h : counts_one f -> entry f t h -> tf_contains f h = true.
Proof.
  intros [_ Hc] He. unfold tf_contains, ms_member. rewrite Hc, decide_True; [done|].
  apply map_items_elem. unfold entry in He. destruct (tf_time_map f !! t) as [c|] eqn:Ht; simpl in He; [|set_solver].
  exists t, c. split; [done|]. by apply elem_of_elements.
Qed.
Lemma upsert_items f t h :
  tf_contains f h = false -> counts_one f -> tf_items (tf_upsert_one ∅ (∪) f t h) ≡ₚ h :: tf_items f.
Proof.
  intros Hn Hc. assert (He : h ∉ default ∅ (tf_time_map f !! t)).
  { intros Hx. by rewrite (entry_contains f t h Hc Hx) in Hn. }
  unfold tf_items, tf_upsert_one, tf_upsert. cbn [tf_time_map].
  rewrite <- (insert_delete_eq (tf_time_map f)), map_items_insert by apply lookup_delete_eq.
  change (iter_items (default ∅ (tf_time_map f !! t) ∪ once h)) with (elements (default ∅ (tf_time_map f !! t) ∪ {[h]})).
  rewrite elements_disj_union, elements_singleton by set_solver.
  destruct (tf_time_map f !! t) as [xs|] eqn:Hxs; simpl.
  - rewrite (map_items_delete _ _ _ Hxs). change (iter_items xs) with (elements xs).
    rewrite <- app_assoc. simpl. by rewrite <- Permutation_middle.
  - rewrite elements_empty, delete_id by done. done.
Qed.
Lemma upsert_counts f t h : tf_contains f h = false -> counts_one f -> counts_one (tf_upsert_one ∅ (∪) f t h).
Proof.
  intros Hn Hc. pose proof (upsert_items f t h Hn Hc) as Hp.
  assert (Hh : h ∉ tf_items f).
  { unfold tf_contains, ms_member in Hn. destruct Hc as [_ Hc]. rewrite Hc in Hn. by destruct (decide (h ∈ tf_items f)). }
  split; [rewrite Hp; apply list.NoDup_cons; by split; [|apply Hc]|].
  intros x. unfold tf_upsert_one, tf_upsert. cbn [tf_set]. change (iter_items (once h)) with (elements ({[h]} : gset IntentHash)).
  rewrite elements_singleton. simpl. unfold ms_insert, ms_count. destruct Hc as [_ Hc].
  destruct (decide (x = h)) as [->|Hne].
  - rewrite lookup_insert_eq, decide_True by (rewrite Hp; left). rewrite Hc, decide_False by done. done.
  - rewrite lookup_insert_ne, Hc by done. apply decide_ext. rewrite Hp, elem_of_cons. tauto.
Qed.
Lemma upsert_entry f t h : entry (tf_upsert_one ∅ (∪) f t h) t h.
Proof.
  unfold entry, tf_upsert_one, tf_upsert. cbn [tf_time_map]. rewrite lookup_insert_eq. simpl.
  change (once h) with ({[h]} : gset IntentHash). set_solver.
Qed.
Lemma upsert_keeps f t h t' h' : entry f t' h' -> entry (tf_upsert_one ∅ (∪) f t h) t' h'.
Proof.
  unfold entry, tf_upsert_one, tf_upsert. cbn [tf_time_map]. intros He. destruct (decide (t' = t)) as [->|Hne].
  - rewrite lookup_insert_eq. simpl. set_solver.
  - by rewrite lookup_insert_ne.
Qed.
Lemma foldl_remove_ones (l : list IntentHash) (s : MultiSet IntentHash) :
  NoDup l -> (forall x, x ∈ l -> s !! x = Some 1) ->
  forall x, foldl ms_remove s l !! x = if decide (x ∈ l) then None else s !! x.
Proof.
  revert s. induction l as [|y l IH]; intros s Hnd Hs x; cbn [foldl].
  { destruct (decide (x ∈ [])) as [Hx|]; [by apply elem_of_nil in Hx|done]. }
  apply list.NoDup_cons in Hnd as [Hy Hnd].
  assert (Hr : ms_remove s y = delete y s).
  { unfold ms_remove, ms_remove_n, ms_count. by rewrite Hs by left. }
  rewrite Hr, IH; [|done|].
  - destruct (decide (x ∈ l)) as [Hx|Hx]; [rewrite decide_True by (by right); done|].
    destruct (decide (x = y)) as [->|Hne]; [rewrite decide_True by left; apply lookup_delete_eq|].
    rewrite decide_False by (rewrite elem_of_cons; tauto). by rewrite lookup_delete_ne.
  - intros z Hz. rewrite lookup_delete_ne by (intros ->; done). apply Hs. by right.
Qed.
Lemma filter_counts f cutoff : counts_one f -> counts_one (tf_filter f cutoff).
Proof.
  intros [Hnd Hc]. pose proof (map_items_split (tf_time_map f) cutoff) as Hp. fold (tf_items f) in Hp.
  unfold tf_filter. set (removed := filter (fun kv => kv.1 < cutoff) (tf_time_map f)) in *.
  set (kept := filter (fun kv => cutoff <= kv.1) (tf_time_map f)) in *.
  rewrite Hp in Hnd. apply list.NoDup_app in Hnd as (Hr & Hdis & Hk). split; [done|].
  intros x. cbn [tf_set]. unfold tf_items. cbn [tf_time_map]. rewrite foldl_remove_ones; [|done|].
  - destruct (decide (x ∈ map_items removed)) as [Hx|Hx]; [by rewrite decide_False by auto|].
    rewrite Hc. apply decide_ext. rewrite Hp, elem_of_app. tauto.
  - intros y Hy. rewrite Hc, decide_True; [done|]. rewrite Hp, elem_of_app. by left.
Qed.
Lemma filter_keeps f cutoff t h : cutoff <= t -> entry f t h -> entry (tf_filter f cutoff) t h.
Proof.
  unfold entry, tf_filter. cbn [tf_time_map]. intros Ht He. destruct (tf_time_map f !! t) as [c|] eqn:E; [|simpl in He; set_solver].
  by rewrite (map_lookup_filter_Some_2 _ _ t c).
Qed.
End entries.

(** ** Which parts of the state an operation changes *)
Section frames.
Context `{LedgerHashing} `{Hashing} `{!Sizes} `{!SystemHashing} {FO : FieldOrder} {SS : StateStorage} {SA : StateArena}.
Implicit Types s : LedgerState.

Lemma with_contract_id s : s = with_contract s (contract s).
Proof. by destruct s. Qed.
(** [s'] is [s] with other contracts. *)
Definition contracts_only s s' : Prop := exists cs, s' = with_contract s cs.
Lemma contracts_only_refl s : contracts_only s s.
Proof. exists (contract s). apply with_contract_id. Qed.
Lemma contracts_only_trans s1 s2 s3 : contracts_only s1 s2 -> contracts_only s2 s3 -> contracts_only s1 s3.
Proof. intros [c1 ->] [c2 ->]. by exists c2. Qed.

Lemma update_index_frame {E : Type} s addr st bal s' : update_index (E := E) s addr st bal = Ok s' -> contracts_only s s'.
Proof. unfold update_index. intros Hx. inv_binds. by eexists. Qed.
Lemma apply_call_frame g ctx it ind src cm s call s' ev :
  apply_call g ctx it ind src cm s call = Ok (s', ev) -> contracts_only s s'.
Proof.
  unfold apply_call. destruct (whitelist_matches _ _); simpl; [|intros [= <- _]; apply contracts_only_refl].
  destruct (contract s !! call_address call) as [c|]; [|done].
  destruct (if g then _ else _) as [tr|]; [|intros [= <- _]; apply contracts_only_refl].
  intros Hx. apply bind_Ok_inv in Hx as (r & _ & Hx). case_bool_decide; [|done].
  apply bind_Ok_inv in Hx as (b1 & _ & Hx). apply bind_Ok_inv in Hx as (b2 & _ & Hx).
  apply bind_Ok_inv in Hx as (s1 & Hu & Hx). injection Hx as <- _. by eapply update_index_frame.
Qed.
Lemma apply_deploy_frame g ctx src s d s' ev : apply_deploy g ctx src s d = Ok (s', ev) -> contracts_only s s'.
Proof.
  unfold apply_deploy. destruct (_ || g); [intros [= <- _]; apply contracts_only_refl|].
  case_bool_decide; [done|]. intros [= <- _]. by eexists.
Qed.
Lemma apply_maintain_frame g ctx s u s' ev : apply_maintain g ctx s u = Ok (s', ev) -> contracts_only s s'.
Proof.
  unfold apply_maintain. destruct (_ || g); [intros [= <- _]; apply contracts_only_refl|].
  intros Hx. apply bind_Ok_inv in Hx as (c & _ & Hx). destruct (_ =? _); [|done].
  apply bind_Ok_inv in Hx as (c' & _ & Hx). injection Hx as <- _. by eexists.
Qed.
Lemma apply_actions_frame s acts g ctx it ind src s' ev :
  apply_actions s acts g ctx it ind src = Ok (s', ev) -> contracts_only s s'.
Proof.
  unfold apply_actions. intros Hx.
  eapply (try_fold_inv (fun acc => contracts_only s acc.1)) in Hx; [exact Hx|apply contracts_only_refl|].
  intros [s1 e1] a [s2 e2] _ K1 K2. unfold apply_action in K2. apply bind_Ok_inv in K2 as ([s3 e3] & K3 & K2).
  injection K2 as <- _. simpl in *. eapply contracts_only_trans; [exact K1|].
  destruct a; [by eapply apply_call_frame|by eapply apply_deploy_frame|by eapply apply_maintain_frame].
Qed.

(** [s'] is [s] with other coins, contracts, outputs and Dust, and with [rp]. *)
Definition frame (rp : ReplayProtectionState) s s' : Prop :=
  exists zs cs ut du, s' = with_parts s (parameters s) zs cs ut rp du.
Lemma frame_refl s : frame (replay_protection s) s s.
Proof. exists (zswap s), (contract s), (utxo s), (dust s). by destruct s. Qed.
Lemma frame_trans rp s1 s2 s3 : frame rp s1 s2 -> frame (replay_protection s2) s2 s3 -> frame rp s1 s3.
Proof. intros (zs & cs & ut & du & ->) (zs' & cs' & ut' & du' & ->). by exists zs', cs', ut', du'. Qed.
Lemma contracts_only_frame s s' : contracts_only s s' -> frame (replay_protection s) s s'.
Proof. intros [cs ->]. by exists (zswap s), cs, (utxo s), (dust s). Qed.

Lemma optional_zswap_frame s o ctx src s' ind ev :
  optional_zswap s o ctx src = Ok (s', ind, ev) -> frame (replay_protection s) s s'.
Proof.
  destruct o as [o|]; simpl; [|intros [= <- _ _]; apply frame_refl].
  unfold apply_zswap. intros Hx. apply bind_Ok_inv in Hx as ([zs ci] & _ & Hx).
  apply bind_Ok_inv in Hx as (evs & _ & Hx). injection Hx as <- _ _. by exists zs, (contract s), (utxo s), (dust s).
Qed.
Lemma optional_unshielded_frame s o it seg ctx src s' ev :
  optional_unshielded s o it seg ctx src = Ok (s', ev) -> frame (replay_protection s) s s'.
Proof.
  destruct o as [o|]; simpl; [|intros [= <- _]; apply frame_refl].
  unfold apply_unshielded. intros Hx. apply bind_Ok_inv in Hx as (ut & _ & Hx).
  apply bind_Ok_inv in Hx as ([du evs] & _ & Hx). injection Hx as <- _. by exists (zswap s), (contract s), ut, du.
Qed.
Lemma guaranteed_intent_frame hash ctx ind s ev0 si s' ev :
  guaranteed_intent hash ctx ind (s, ev0) si = Ok (s', ev) -> frame (replay_protection s) s s'.
Proof.
  unfold guaranteed_intent. intros Hx. apply bind_Ok_inv in Hx as ([s1 e1] & K1 & Hx).
  apply bind_Ok_inv in Hx as ([s2 e2] & K2 & Hx). injection Hx as <- _.
  eapply frame_trans; [by eapply optional_unshielded_frame|].
  by eapply contracts_only_frame, apply_actions_frame.
Qed.
Lemma guaranteed_section_frame s stx hash ctx s' ev :
  guaranteed_section s stx hash ctx = Ok (s', ev) ->
  exists rp, apply_tx (replay_protection s) stx (tblock (block_context ctx)) (global_ttl (parameters s)) = Ok rp /\
             frame rp s s'.
Proof.
  unfold guaranteed_section. intros Hx. apply bind_Ok_inv in Hx as (rp & Hrp & Hx).
  destruct (apply_tx _ _ _ _) as [rp'| |] eqn:Ht; try done. injection Hrp as ->. exists rp. split; [done|].
  apply bind_Ok_inv in Hx as ([[s1 ind] e1] & K1 & Hx). apply bind_Ok_inv in Hx as (zs & _ & Hx).
  apply bind_Ok_inv in Hx as ([s2 e2] & K2 & Hx). apply bind_Ok_inv in Hx as (fee & _ & Hx).
  apply bind_Ok_inv in Hx as ([[du fr] e3] & _ & Hx). injection Hx as <- _.
  assert (F1 : frame rp s s1).
  { eapply (frame_trans rp s (with_replay s rp)); [by eexists _, _, _, _|]. by eapply optional_zswap_frame in K1. }
  assert (F2 : frame rp s s2).
  { eapply (try_fold_inv (fun acc => frame rp s acc.1)) in K2; [exact K2|exact F1|].
    intros [sa ea] x [sb eb] _ Ha Hb. simpl in *. eapply frame_trans; [exact Ha|]. by eapply guaranteed_intent_frame. }
  destruct F2 as (zs' & cs & ut & du' & ->). by eexists _, _, _, _.
Qed.
Lemma fallible_section_frame s stx hash seg ctx s' ev :
  fallible_section s stx hash seg ctx = Ok (s', ev) -> frame (replay_protection s) s s'.
Proof.
  unfold fallible_section. intros Hx. apply bind_Ok_inv in Hx as ([[s1 ind] e1] & K1 & Hx).
  apply optional_zswap_frame in K1. destruct (intents stx !! seg) as [it|]; [|by injection Hx as <- _].
  apply bind_Ok_inv in Hx as ([s2 e2] & K2 & Hx). apply bind_Ok_inv in Hx as ([s3 e3] & K3 & Hx).
  injection Hx as <- _. eapply frame_trans; [exact K1|]. eapply frame_trans; [by eapply optional_unshielded_frame|].
  by eapply contracts_only_frame, apply_actions_frame.
Qed.
(** The replay protection an applied section leaves. *)
Lemma apply_section_frame s stx hash seg ctx s' ev :
  apply_section s stx hash seg ctx = Ok (s', ev) ->
  (if seg =? GUARANTEED_SEGMENT
   then exists rp, apply_tx (replay_protection s) stx (tblock (block_context ctx)) (global_ttl (parameters s)) = Ok rp /\
                   frame rp s s'
   else frame (replay_protection s) s s') /\ check_night_balance_invariant s' = Ok tt.
Proof.
  unfold apply_section. intros Hx. apply bind_Ok_inv in Hx as ([s1 e1] & K1 & Hx).
  apply bind_Ok_inv in Hx as ([] & Hc & Hx). injection Hx as <- _.
  split; [|by destruct (check_night_balance_invariant s1) as [[]| |]].
  destruct (seg =? GUARANTEED_SEGMENT); [by eapply guaranteed_section_frame|by eapply fallible_section_frame].
Qed.
(** A claim that goes through. *)
Definition claim_pool (kind : ClaimKind) s : gmap UserAddress Z :=
  match kind with CardanoBridge => bridge_receiving s | Reward => unclaimed_block_rewards s end.
Definition claim_utxo (tx : ClaimRewardsTransaction) : Utxo :=
  let address := vk_address (cr_owner tx) in {|
  utxo_value := cr_value tx; utxo_owner := address; utxo_type := NIGHT;
  utxo_intent_hash := mk_intent_hash {| oi_amount := cr_value tx; oi_target_address := address; oi_nonce := cr_nonce tx |} NIGHT;
  utxo_output_no := 0 |}.
Lemma claim_inv s tx ctx src s' ev :
  claim_unshielded s tx ctx src = Ok (s', ev) ->
  let pool := claim_pool (cr_kind tx) s in
  let claimable := default 0 (pool !! vk_address (cr_owner tx)) in
  let pool' := if claimable - cr_value tx =? 0 then delete (vk_address (cr_owner tx)) pool
               else <[vk_address (cr_owner tx) := claimable - cr_value tx]> pool in
  cr_value tx <= claimable /\
  exists rp du,
    apply_member (replay_protection s) (utxo_intent_hash (claim_utxo tx))
      (Timestamp_add (tblock ctx) (global_ttl (parameters s))) (tblock ctx) (global_ttl (parameters s)) = Ok rp /\
    s' = with_pools (with_parts s (parameters s) (zswap s) (contract s)
                       (utxo_insert (utxo s) (claim_utxo tx) {| meta_ctime := tblock ctx |}) rp du)
           (locked_pool s) (match cr_kind tx with CardanoBridge => pool' | Reward => bridge_receiving s end)
           (reserve_pool s) (block_reward_pool s)
           (match cr_kind tx with CardanoBridge => unclaimed_block_rewards s | Reward => pool' end) (treasury s) /\
    check_night_balance_invariant s' = Ok tt.
Proof.
  unfold claim_unshielded. fold (claim_pool (cr_kind tx) s). cbn zeta.
  destruct (Z.ltb_spec (default 0 (claim_pool (cr_kind tx) s !! vk_address (cr_owner tx))) (cr_value tx)) as [|Hle]; [done|].
  intros Hx. split; [done|]. apply bind_Ok_inv in Hx as (mn & _ & Hx). destruct (_ <? mn); [done|].
  apply bind_Ok_inv in Hx as (rp & Hrp & Hx). apply bind_Ok_inv in Hx as ([s2 e2] & K2 & Hx).
  apply bind_Ok_inv in Hx as ([] & Hc & Hx). injection Hx as <- _.
  change (mk_intent_hash _ NIGHT) with (utxo_intent_hash (claim_utxo tx)) in *.
  destruct (apply_member _ _ _ _ _) as [rp'| |] eqn:Hm; try done. injection Hrp as ->.
  assert (Hc' : check_night_balance_invariant s2 = Ok tt) by (by destruct (check_night_balance_invariant s2) as [[]| |]).
  destruct (address_delegation _ !! _).
  - apply bind_Ok_inv in K2 as ([du ev1] & _ & K2). apply bind_Ok_inv in K2 as (ev2 & _ & K2).
    exists rp, du. split; [done|]. by destruct (cr_kind tx); injection K2 as <- _.
  - exists rp, (dust s). split; [done|]. by destruct (cr_kind tx); injection K2 as <- _.
Qed.
End frames.

(** ** Recorded intents *)
Section replay.
Context `{LedgerHashing} `{Hashing} `{!Sizes} `{!SystemHashing} {FO : FieldOrder} {SS : StateStorage} {SA : StateArena}.
Implicit Types (s : LedgerState) (rp : ReplayProtectionState).
Abbreviation tfm := time_filter_map.

(** [rp'] records what [rp] does, and counts stay exact. *)
Definition grows rp rp' : Prop :=
  counts_one (tfm rp) -> counts_one (tfm rp') /\ forall t h, entry (tfm rp) t h -> entry (tfm rp') t h.
Lemma grows_refl rp : grows rp rp.
Proof. by intros Hc. Qed.
Lemma grows_trans rp1 rp2 rp3 : grows rp1 rp2 -> grows rp2 rp3 -> grows rp1 rp3.
Proof. intros G1 G2 Hc. destruct (G1 Hc) as [Hc2 He2]. destruct (G2 Hc2) as [Hc3 He3]. auto. Qed.

Lemma apply_member_grows rp h t tb g rp' :
  apply_member rp h t tb g = Ok rp' -> grows rp rp' /\ entry (tfm rp') t h.
Proof.
  unfold apply_member. destruct (tf_contains _ _) eqn:Hn; [done|]. destruct (t <? tb); [done|].
  destruct (_ <? t); [done|]. intros [= <-]. split; [|apply upsert_entry].
  intros Hc. split; [by apply upsert_counts|]. intros t' h'. apply upsert_keeps.
Qed.
Lemma apply_member_no_panic rp h t tb g : apply_member rp h t tb g <> Panic.
Proof. unfold apply_member. by repeat case_match. Qed.

Lemma apply_tx_grows rp stx tb g rp' :
  apply_tx rp stx tb g = Ok rp' ->
  grows rp rp' /\
  (counts_one (tfm rp) -> forall si, si ∈ sorted_map (intents stx) -> entry (tfm rp') (ttl si.2) (intent_hash si.2 0)).
Proof.
  unfold apply_tx. generalize (sorted_map (intents stx)) as l. intros l. revert rp.
  induction l as [|si l IH]; intros rp; simpl; [intros [= ->]; split; [apply grows_refl|intros _ x Hx; by apply elem_of_nil in Hx]|].
  intros Hx. apply bind_Ok_inv in Hx as (rp1 & K1 & Hx). apply apply_member_grows in K1 as [G1 E1].
  destruct (IH _ Hx) as [G2 E2]. split; [by eapply grows_trans|].
  intros Hc x [->|Hin]%elem_of_cons; destruct (G1 Hc) as [Hc1 _]; [|by apply E2]. by apply (G2 Hc1).
Qed.
(** A recorded or expired intent stops the transaction. *)
Lemma apply_tx_rejects rp stx tb g si :
  counts_one (tfm rp) -> si ∈ sorted_map (intents stx) ->
  entry (tfm rp) (ttl si.2) (intent_hash si.2 0) \/ ttl si.2 < tb ->
  exists e, apply_tx rp stx tb g = Err e.
Proof.
  unfold apply_tx. generalize (sorted_map (intents stx)) as l. intros l. revert rp.
  induction l as [|x l IH]; intros rp Hc Hin Hr; [by apply elem_of_nil in Hin|]. simpl.
  destruct (apply_intent rp x.2 tb g) as [rp1|e|] eqn:K1; simpl; [|by eexists|by apply apply_member_no_panic in K1].
  apply elem_of_cons in Hin as [->|Hin].
  - exfalso. unfold apply_intent, apply_member in K1. destruct Hr as [Hr|Hr].
    + by rewrite (entry_contains _ _ _ Hc Hr) in K1.
    + rewrite (proj2 (Z.ltb_lt _ _) Hr) in K1. by destruct (tf_contains _ _).
  - apply apply_member_grows in K1 as [G1 _]. destruct (G1 Hc) as [Hc1 He]. apply IH; [done..|].
    destruct Hr as [Hr|Hr]; [left; by apply He|by right].
Qed.

(** ** Each step *)
Lemma apply_segments_replay {E : Type} stx hash ctx segs acc acc' :
  (forall seg, seg ∈ segs -> seg <> GUARANTEED_SEGMENT) ->
  try_fold (apply_segment (E := E) stx hash ctx) acc segs = Ok acc' ->
  replay_protection acc'.1.1.1 = replay_protection acc.1.1.1.
Proof.
  intros Hs Hx. eapply (try_fold_inv (fun a => replay_protection a.1.1.1 = replay_protection acc.1.1.1)) in Hx; [exact Hx|done|].
  intros [[[s e] r] b] seg [[[s' e'] r'] b'] Hin Ha K1. simpl in *.
  destruct (apply_section s stx hash seg ctx) as [[s2 ev]| |] eqn:K2; [|by injection K1 as <- _ _ _|done].
  apply bind_Ok_inv in K1 as (evs & _ & K1). injection K1 as <- _ _ _.
  apply apply_section_frame in K2 as [K2 _]. destruct (Z.eqb_spec seg GUARANTEED_SEGMENT) as [->|_]; [by apply Hs in Hin|].
  destruct K2 as (zs & cs & ut & du & ->). by rewrite <- Ha.
Qed.
Lemma fallible_segments_spec stx seg :
  seg ∈ fallible_segments stx <->
  seg <> GUARANTEED_SEGMENT /\ (seg ∈ dom (intents stx) \/ seg ∈ dom (fallible_coins stx)).
Proof.
  unfold fallible_segments. rewrite (sorting.merge_sort_Permutation Z.le), elem_of_elements. set_solver.
Qed.

(** Whether a transaction took effect. *)
Definition accepted (r : TransactionResult) : Prop := match r with Failure _ => False | _ => True end.
Definition standard_intents (tx : VerifiedTransaction) : list (Segment * Intent) := intents_of (inner tx).

Lemma apply_replay {E : Type} s tx ctx s' r :
  apply (E := E) s tx ctx = Ok (s', r) ->
  grows (replay_protection s) (replay_protection s') /\
  (counts_one (tfm (replay_protection s)) -> accepted r -> forall si, si ∈ standard_intents tx ->
     entry (tfm (replay_protection s')) (ttl si.2) (intent_hash si.2 0)).
Proof.
  unfold apply, apply_guaranteed_only, standard_intents. destruct (inner tx) as [stx|rw] eqn:Htx.
  - destruct (apply_section s stx (vt_hash tx) GUARANTEED_SEGMENT ctx) as [[s1 e1]|e|] eqn:K1; simpl; [|intros [= <- <-]|done].
    + apply apply_section_frame in K1 as [(rp & Hrp & zs & cs & ut & du & ->) _].
      unfold apply_fallible. intros Hx. apply bind_Ok_inv in Hx as (ev & _ & Hx). cbn [gr_tx gr_state] in Hx. rewrite Htx in Hx.
      apply bind_Ok_inv in Hx as ([[[s2 e2] res] b] & K2 & Hx). injection Hx as <- <-.
      apply apply_segments_replay in K2; [|intros seg; rewrite fallible_segments_spec; tauto]. simpl in K2. rewrite K2.
      destruct (apply_tx_grows _ _ _ _ _ Hrp) as [G1 G2]. split; [done|]. intros Hc _. by apply G2.
    + split; [apply grows_refl|]. by intros _ [].
  - destruct (claim_unshielded s rw (block_context ctx) _) as [[s1 e1]|e|] eqn:K1; simpl; [|intros [= <- <-]|done].
    + unfold apply_fallible. intros Hx. apply bind_Ok_inv in Hx as (ev & _ & Hx). cbn [gr_tx gr_state] in Hx. rewrite Htx in Hx.
      injection Hx as <- <-. split; [|by intros _ _ x Hx%elem_of_nil].
      apply claim_inv in K1 as (_ & rp & du & Hm & -> & _). by apply apply_member_grows in Hm as [G _].
    + split; [apply grows_refl|]. by intros _ [].
Qed.

Lemma distribute_one_replay kind params tb s o s' :
  distribute_one kind params tb s o = Ok s' -> grows (replay_protection s) (replay_protection s').
Proof.
  unfold distribute_one. intros Hx. apply bind_Ok_inv in Hx as (rp & Hrp & Hx).
  destruct (apply_member _ _ _ _ _) as [rp'| |] eqn:Hm; try done. injection Hrp as ->. apply apply_member_grows in Hm as [G _].
  destruct kind; [by injection Hx as <-|]. apply bind_Ok_inv in Hx as ([fee pay] & _ & Hx). by injection Hx as <-.
Qed.
Lemma apply_system_replay s tx tb s' ev :
  apply_system_tx s tx tb = Ok (s', ev) -> grows (replay_protection s) (replay_protection s').
Proof.
  destruct tx; simpl; try done.
  - destruct (_ <? _); [done|]. intros [= <- _]. apply grows_refl.
  - intros Hx. apply bind_Ok_inv in Hx as (s1 & K1 & Hx). injection Hx as <- _. unfold distribute_night in K1.
    destruct (_ <$> _) as [[c b]|]; [|done]. destruct (_ && _); [|done].
    apply bind_Ok_inv in K1 as (s2 & K2 & K1). apply bind_Ok_inv in K1 as (? & _ & K1). injection K1 as <-.
    eapply (try_fold_inv (fun st => grows (replay_protection s) (replay_protection st))) in K2; [exact K2|apply grows_refl|].
    intros sa out sb _ Ga K. eapply grows_trans; [exact Ga|]. by eapply distribute_one_replay.
  - destruct (_ <? _); [done|]. intros [= <- _]. apply grows_refl.
  - destruct (_ <? _); [done|]. intros Hx. apply bind_Ok_inv in Hx as (? & _ & Hx). injection Hx as <- _. apply grows_refl.
  - intros Hx. apply bind_Ok_inv in Hx as ([du e] & _ & Hx). injection Hx as <- _. apply grows_refl.
Qed.
Lemma post_block_replay s tb d o s' :
  post_block_update s tb d o = Ok s' -> replay_protection s' = replay_post_block_update (replay_protection s) tb.
Proof.
  unfold post_block_update, apply_post_block_update. intros Hx. apply bind_Ok_inv in Hx as (? & _ & Hx).
  apply bind_Ok_inv in Hx as (zs & _ & Hx). apply bind_Ok_inv in Hx as (du & _ & Hx). by injection Hx as <-.
Qed.
Lemma to_option_Some {E A : Type} (m : outcome E A) a : to_option m = Some a -> m = Ok a.
Proof. destruct m; simpl; congruence. Qed.
Lemma step_replay s a s' :
  ledger_step s a = Some s' -> counts_one (tfm (replay_protection s)) ->
  counts_one (tfm (replay_protection s')) /\
  forall t h, action_time a <= t -> entry (tfm (replay_protection s)) t h -> entry (tfm (replay_protection s')) t h.
Proof.
  destruct a as [tx ctx|tx tb|tb d o]; simpl; intros Hx Hc.
  - apply fmap_Some in Hx as ([s1 r] & Hx%to_option_Some & ->). apply apply_replay in Hx as [G _].
    destruct (G Hc) as [Hc' He]. split; [done|]. intros t h _. apply He.
  - apply fmap_Some in Hx as ([s1 r] & Hx%to_option_Some & ->). apply apply_system_replay in Hx as G.
    destruct (G Hc) as [Hc' He]. split; [done|]. intros t h _. apply He.
  - apply to_option_Some, post_block_replay in Hx as ->. split; [by apply filter_counts|].
    intros t h Ht. by apply filter_keeps.
Qed.
Lemma reachable_counts s : reachable s -> counts_one (tfm (replay_protection s)).
Proof.
  intros (s0 & acts & (id & p & l & r & t & Hg) & Hr). apply (run_ind (fun s => counts_one (tfm (replay_protection s))) _ _ _) in Hr; [done| |].
  - unfold with_genesis_settings in Hg. apply bind_Ok_inv in Hg as (? & _ & Hg). injection Hg as <-. apply counts_one_new.
  - intros s1 a s2 Hc Hs. by eapply step_replay.
Qed.
Lemma run_keeps_entry s acts s' t h :
  run s acts = Some s' -> Forall (fun a => action_time a <= t) acts -> counts_one (tfm (replay_protection s)) ->
  entry (tfm (replay_protection s)) t h ->
  counts_one (tfm (replay_protection s')) /\ entry (tfm (replay_protection s')) t h.
Proof.
  revert s. induction acts as [|a acts IH]; intros s; simpl; [by intros [= <-]|].
  destruct (ledger_step s a) as [s1|] eqn:Hs; simpl; [|done]. intros Hr [Ha Hf]%Forall_cons_1 Hc He.
  destruct (step_replay _ _ _ Hs Hc) as [Hc1 He1]. apply IH in Hr; auto.
Qed.

(** C2: No intent is ever applied twice.  Once a transaction with the intent was
    accepted, any transaction with the same intent, in the same or another
    segment, fails with a replay protection error and leaves the state alone,
    whatever happened in between, as long as block times do not go backwards. *)
Theorem ledger_no_replay s1 tx1 ctx1 s2 r1 acts s3 tx2 ctx2 seg1 seg2 intent :
  reachable s1 -> apply (E := Empty_set) s1 tx1 ctx1 = Ok (s2, r1) -> accepted r1 ->
  (seg1, intent) ∈ standard_intents tx1 ->
  run s2 acts = Some s3 -> Forall (fun a => action_time a <= tblock (block_context ctx2)) acts ->
  (seg2, intent) ∈ standard_intents tx2 ->
  exists e, apply (E := Empty_set) s3 tx2 ctx2 = Ok (s3, Failure (ReplayProtectionViolation e)).
Proof.
  intros Hre K1 Hac Hin1 Hrun Ht Hin2. pose proof (reachable_counts _ Hre) as Hc1.
  apply apply_replay in K1 as [G1 E1]. destruct (G1 Hc1) as [Hc2 _]. specialize (E1 Hc1 Hac _ Hin1). simpl in E1.
  assert (Hrej : counts_one (tfm (replay_protection s3)) /\
    (entry (tfm (replay_protection s3)) (ttl intent) (intent_hash intent 0) \/ ttl intent < tblock (block_context ctx2))).
  { destruct (Z.lt_ge_cases (ttl intent) (tblock (block_context ctx2))) as [Hlt|Hge].
    - split; [|by right]. apply (run_ind (fun s => counts_one (tfm (replay_protection s))) _ _ _ Hc2) in Hrun; [done|].
      intros sa a sb Hc Hs. by eapply step_replay.
    - edestruct (run_keeps_entry _ _ _ (ttl intent) (intent_hash intent 0) Hrun) as [? ?]; [|done..|by auto].
      eapply list.Forall_impl; [exact Ht|]. simpl. lia. }
  destruct Hrej as [Hc3 Hrej]. unfold standard_intents in Hin2. destruct (inner tx2) as [stx|] eqn:Htx; [|by apply elem_of_nil in Hin2].
  destruct (apply_tx_rejects _ stx _ (global_ttl (parameters s3)) _ Hc3 Hin2 Hrej) as [e He].
  exists e. unfold apply, apply_guaranteed_only. rewrite Htx. unfold apply_section, guaranteed_section. simpl.
  by rewrite He.
Qed.
End replay.

(** ** Examples *)
From S2P Require Import RuntimeProps ToyLedger.
Lemma toy_genesis_ok : genesis toy_genesis.
Proof. exists "toy", INITIAL_PARAMETERS, 0, MAX_SUPPLY, 0. vm_compute. reflexivity. Qed.

(** An intent in segment 1, and the same intent in segment 2 in the next block. *)
Definition toy_after : LedgerState :=
  default toy_genesis (ledger_step toy_genesis (ApplyTx (toy_tx {[ 1 := toy_intent 1500 ]}) (toy_tx_context 1000))).
Definition toy_acts : list LedgerAction := [EndBlock 1100 NormalizedCost_ZERO 0].
Definition toy_later : LedgerState := default toy_genesis (run toy_after toy_acts).

Lemma ledger_no_replay_witness :
  exists e, apply (E := Empty_set) toy_later (toy_tx {[ 2 := toy_intent 1500 ]}) (toy_tx_context 1200) =
    Ok (toy_later, Failure (ReplayProtectionViolation e)).
Proof.
  apply (ledger_no_replay toy_genesis (toy_tx {[ 1 := toy_intent 1500 ]}) (toy_tx_context 1000) toy_after (Success []) toy_acts
           toy_later (toy_tx {[ 2 := toy_intent 1500 ]}) (toy_tx_context 1200) 1 2 (toy_intent 1500)).
  - exists toy_genesis, []. split; [apply toy_genesis_ok|done].
  - vm_compute. reflexivity.
  - exact I.
  - vm_compute. left.
  - vm_compute. reflexivity.
  - repeat apply List.Forall_cons; [simpl; lia|constructor].
  - vm_compute. left.
Defined.
