(* ===== verification/LedgerProps.v ===== *)
(** * Properties of ledger runs ([ledger/src/semantics.rs])

    Conservation of Night, what a transaction's sections do to the state, the
    bridge, and the invariant of every state a ledger reaches. *)
From S2P Require Import Prelude Time CostModel Fab FabSerial MerkleTree TimeFilterMap Zswap ZswapProps StateValue.
From S2P Require Import VmOps Coin DeltaTracking Runtime LedgerData LedgerCost Dust DustProps Ledger ReplayProps.
From Stdlib Require Import Sorted.
Set Warnings "-register-all".

Section sections.
Context `{LedgerHashing} `{Hashing} `{!Sizes} `{!SystemHashing} {FO : FieldOrder} {SS : StateStorage} {SA : StateArena}.
Implicit Types s : LedgerState.

(** ** The segments of a transaction *)

(** Running the fallible segments one after the other: a segment that fails
    has no effect, and its error is recorded. *)
Inductive segments_run (stx : StandardTransaction) (hash : TransactionHash) (ctx : TransactionContext)
    : LedgerState -> list Segment -> list (Segment * option TransactionInvalid) -> LedgerState -> Prop :=
| segments_nil s : segments_run stx hash ctx s [] [] s
| segments_ok s seg s1 ev segs res s2 :
    apply_section s stx hash seg ctx = Ok (s1, ev) -> segments_run stx hash ctx s1 segs res s2 ->
    segments_run stx hash ctx s (seg :: segs) ((seg, None) :: res) s2
| segments_err s seg e segs res s2 :
    apply_section s stx hash seg ctx = Err e -> segments_run stx hash ctx s segs res s2 ->
    segments_run stx hash ctx s (seg :: segs) ((seg, Some e) :: res) s2.

Lemma segments_run_keys stx hash ctx s segs res s' : segments_run stx hash ctx s segs res s' -> res.*1 = segs.
Proof. induction 1; [done|..]; rewrite fmap_cons; by f_equal. Qed.
(** The loop of [apply_fallible]. *)
Lemma apply_segments_run {E : Type} stx hash ctx segs s ev res b s' ev' res' b' :
  try_fold (apply_segment (E := E) stx hash ctx) (s, ev, res, b) segs = Ok (s', ev', res', b') ->
  exists rs, segments_run stx hash ctx s segs rs s' /\
    res' = foldl (fun m kv => <[kv.1 := kv.2]> m) res rs /\ b' = b && forallb (fun kv => bool_decide (kv.2 = None)) rs.
Proof.
  revert s ev res b. induction segs as [|seg segs IH]; intros s ev res b; cbn [try_fold].
  { intros [= <- _ <- <-]. exists []. split_and!; [constructor|done|by rewrite andb_true_r]. }
  intros Hx. apply bind_Ok_inv in Hx as ([[[s1 ev1] res1] b1] & K1 & Hx). apply IH in Hx as (rs & Hrs & -> & ->).
  unfold apply_segment in K1. destruct (apply_section s stx hash seg ctx) as [[s2 e2]|e|] eqn:K2; [| |done].
  - apply bind_Ok_inv in K1 as (ev2 & _ & K1). injection K1 as <- _ <- <-. exists ((seg, None) :: rs).
    split_and!; [by eapply segments_ok|done|done].
  - injection K1 as <- _ <- <-. exists ((seg, Some e) :: rs). split_and!; [by eapply segments_err|done|]. simpl.
    by rewrite andb_false_r.
Qed.
Lemma foldl_insert_lookup (rs : list (Segment * option TransactionInvalid)) (m : gmap Segment (option TransactionInvalid)) k v :
  NoDup rs.*1 -> (k, v) ∈ rs -> foldl (fun m kv => <[kv.1 := kv.2]> m) m rs !! k = Some v.
Proof.
  assert (Hout : forall (rs : list (Segment * option TransactionInvalid)) (m : gmap Segment (option TransactionInvalid)) k, k ∉ rs.*1 -> foldl (fun m kv => <[kv.1 := kv.2]> m) m rs !! k = m !! k).
  { clear. induction rs as [|[k' v'] rs IH]; intros m k Hk; simpl in *; [done|]. apply not_elem_of_cons in Hk as [? ?].
    rewrite IH by done. by apply lookup_insert_ne. }
  revert m. induction rs as [|[k' v'] rs IH]; intros m Hnd Hin; [by apply elem_of_nil in Hin|].
  simpl in Hnd. apply list.NoDup_cons in Hnd as [Hk' Hnd]. apply elem_of_cons in Hin as [[= -> ->]|Hin]; simpl; [|by apply IH].
  rewrite Hout by done. apply lookup_insert_eq.
Qed.
Lemma foldl_insert_keys (rs : list (Segment * option TransactionInvalid)) (m : gmap Segment (option TransactionInvalid)) k v :
  foldl (fun m kv => <[kv.1 := kv.2]> m) m rs !! k = Some v -> (k, v) ∈ rs \/ m !! k = Some v.
Proof.
  revert m. induction rs as [|[k' v'] rs IH]; intros m Hk; simpl in *; [by right|]. destruct (IH _ Hk) as [?|Hm]; [left; by right|].
  apply lookup_insert_Some in Hm as [[-> ->]|[_ ?]]; [left; left|by right].
Qed.
(** The segments run in increasing order. *)
Lemma fallible_segments_sorted stx : StronglySorted Z.lt (fallible_segments stx).
Proof.
  assert (Hs : StronglySorted Z.le (fallible_segments stx)).
  { apply Sorted_StronglySorted; [intros ???; lia|]. apply sorting.Sorted_merge_sort. intros ??; lia. }
  assert (Hn : NoDup (fallible_segments stx)).
  { unfold fallible_segments. rewrite (sorting.merge_sort_Permutation Z.le). apply NoDup_elements. }
  induction Hs as [|a l _ IH Ha]; [constructor|]. apply list.NoDup_cons in Hn as [Hna Hn]. constructor; [auto|].
  apply list.Forall_forall. intros b Hb. eapply list.Forall_forall in Ha; [|exact Hb].
  assert (a <> b); [congruence|lia].
Qed.
Lemma fallible_segments_NoDup stx : NoDup (fallible_segments stx).
Proof. unfold fallible_segments. rewrite (sorting.merge_sort_Permutation Z.le). apply NoDup_elements. Qed.

(** The fallible segments of a transaction, each once and in increasing order:
    those of its intents and of its fallible offers. *)
Definition in_segment_order (stx : StandardTransaction) (segs : list Segment) : Prop :=
  StronglySorted Z.lt segs /\
  forall seg, seg ∈ segs <->
    seg <> GUARANTEED_SEGMENT /\ (seg ∈ dom (intents stx) \/ seg ∈ dom (fallible_coins stx)).

(** What applying a transaction comes to. *)
Definition standard_outcome s (stx : StandardTransaction) (hash : TransactionHash) (ctx : TransactionContext)
    (s' : LedgerState) (r : TransactionResult) : Prop :=
  match r with
  | Failure e => s' = s /\ apply_section s stx hash GUARANTEED_SEGMENT ctx = Err e
  | Success _ =>
      exists s1 ev rs, apply_section s stx hash GUARANTEED_SEGMENT ctx = Ok (s1, ev) /\
        segments_run stx hash ctx s1 rs.*1 rs s' /\ in_segment_order stx rs.*1 /\ Forall (fun kv => kv.2 = None) rs
  | PartialSuccess res _ =>
      exists s1 ev rs, apply_section s stx hash GUARANTEED_SEGMENT ctx = Ok (s1, ev) /\
        segments_run stx hash ctx s1 rs.*1 rs s' /\ in_segment_order stx rs.*1 /\ Exists (fun kv => kv.2 <> None) rs /\
        (forall seg v, res !! seg = Some v <-> (seg, v) ∈ (GUARANTEED_SEGMENT, None) :: rs)
  end.
Lemma apply_standard {E : Type} s tx stx ctx s' r :
  inner tx = Standard stx -> apply (E := E) s tx ctx = Ok (s', r) -> standard_outcome s stx (vt_hash tx) ctx s' r.
Proof.
  intros Htx. unfold apply, apply_guaranteed_only. rewrite Htx.
  destruct (apply_section s stx (vt_hash tx) GUARANTEED_SEGMENT ctx) as [[s1 ev1]|e|] eqn:K1; simpl; [|by intros [= <- <-]|done].
  unfold apply_fallible. cbn [gr_deferred_events gr_tx gr_state]. rewrite Htx. intros Hx.
  apply bind_Ok_inv in Hx as (ev & _ & Hx). apply bind_Ok_inv in Hx as ([[[s2 e2] res] b] & K2 & Hx).
  injection Hx as <- <-. apply apply_segments_run in K2 as (rs & Hrs & -> & ->). simpl.
  pose proof (segments_run_keys _ _ _ _ _ _ _ Hrs) as Hkeys. rewrite <- Hkeys in Hrs.
  assert (Hord : in_segment_order stx rs.*1).
  { rewrite Hkeys. split; [apply fallible_segments_sorted|intros seg; apply fallible_segments_spec]. }
  assert (Hnd : NoDup (GUARANTEED_SEGMENT :: rs.*1)).
  { rewrite Hkeys. apply list.NoDup_cons. split; [rewrite fallible_segments_spec; tauto|apply fallible_segments_NoDup]. }
  destruct (forallb _ rs) eqn:Hall; simpl.
  - exists s1, ev1, rs. split_and!; [done..|]. apply list.Forall_forall. intros kv Hkv.
    apply forallb_forall with (x := kv) in Hall; [by apply bool_decide_eq_true in Hall|by apply list_elem_of_In].
  - exists s1, ev1, rs. split_and!; [done..| |].
    + apply Exists_exists. assert (Hex : exists kv, kv ∈ rs /\ bool_decide (kv.2 = None) = false).
      { clear -Hall. induction rs as [|kv rs IH]; [done|]. simpl in Hall. destruct (bool_decide (kv.2 = None)) eqn:E.
        - destruct (IH Hall) as (x & ? & ?). exists x. split; [by right|done].
        - exists kv. split; [left|done]. }
      destruct Hex as (kv & Hkv & Hb). exists kv. split; [by apply list_elem_of_In|by apply bool_decide_eq_false in Hb].
    + intros seg v. split; [|by apply (foldl_insert_lookup ((GUARANTEED_SEGMENT, None) :: rs) ∅)].
      intros [?|?]%(foldl_insert_keys ((GUARANTEED_SEGMENT, None) :: rs) ∅); done.
Qed.

(** C5: Applying a transaction is atomic per section.  If the guaranteed section
    fails the state is unchanged and its error is the result; otherwise the
    fallible segments (those of the intents and of the fallible offers, each
    once) run in increasing order on the state the guaranteed section left,
    each failed one has no effect at all, and the result is a success if none
    failed; if one did, its map holds an entry for the guaranteed segment and
    for each segment that ran, with the error of those that failed, and no
    other entry. *)
Theorem apply_atomic_sections s tx stx ctx s' r :
  inner tx = Standard stx -> apply (E := Empty_set) s tx ctx = Ok (s', r) ->
  standard_outcome s stx (vt_hash tx) ctx s' r.
Proof. apply apply_standard. Qed.
End sections.

(** ** Conservation of Night *)
Section night.
Context `{LedgerHashing} `{Hashing} `{!Sizes} `{!SystemHashing} {FO : FieldOrder} {SS : StateStorage} {SA : StateArena}.
Implicit Types s : LedgerState.

(** The amounts are unsigned and their sum fits 128 bits. *)
Definition night_fits s : Prop :=
  Forall (Z.le 0) [utxo_ann (utxo s); locked_pool s; reserve_pool s; block_reward_pool s; treasury_night (treasury s);
                   rewards_ann (unclaimed_block_rewards s); contract_ann (contract s)] /\
  total_night s <= u128_max.

Lemma check_night_total s : night_fits s -> check_night_balance_invariant s = Ok tt <-> total_night s = MAX_SUPPLY.
Proof.
  intros [Hp Hm]. unfold check_night_balance_invariant. rewrite trunc_id.
  - destruct (Z.eqb_spec (total_night s) MAX_SUPPLY); split; intros; first [done|congruence].
  - repeat (apply Forall_cons_1 in Hp as [? Hp]). unfold total_night, in_u in *. lia.
Qed.
(** The total only depends on the pools, outputs and contracts. *)
Lemma frame_total rp s s' : frame rp s s' ->
  utxo s' = utxo s -> contract s' = contract s -> total_night s' = total_night s.
Proof. intros (zs & cs & ut & du & ->) Hu Hc. unfold total_night. cbn in *. by rewrite Hu, Hc. Qed.

Lemma segments_run_check stx hash ctx s segs res s' :
  segments_run stx hash ctx s segs res s' ->
  check_night_balance_invariant s = Ok tt -> check_night_balance_invariant s' = Ok tt.
Proof. induction 1 as [|s seg s1 ev segs res s2 Ha Hr IH|]; auto. intros _. apply IH. by apply apply_section_frame in Ha as [_ ?]. Qed.
Lemma apply_check {E : Type} s tx ctx s' r :
  apply (E := E) s tx ctx = Ok (s', r) -> check_night_balance_invariant s = Ok tt -> check_night_balance_invariant s' = Ok tt.
Proof.
  intros Hx Hc. destruct (inner tx) as [stx|rw] eqn:Htx.
  - apply (apply_standard _ _ _ _ _ _ Htx) in Hx. destruct r as [ev|res ev|e]; simpl in Hx.
    + destruct Hx as (s1 & ev1 & rs & Ha & Hr & _). apply apply_section_frame in Ha as [_ ?]. by eapply segments_run_check.
    + destruct Hx as (s1 & ev1 & rs & Ha & Hr & _). apply apply_section_frame in Ha as [_ ?]. by eapply segments_run_check.
    + by destruct Hx as [-> _].
  - unfold apply, apply_guaranteed_only in Hx. rewrite Htx in Hx.
    destruct (claim_unshielded _ _ _ _) as [[s1 e1]|e|] eqn:K1; simpl in Hx; [|by injection Hx as <- _|done].
    unfold apply_fallible in Hx. apply bind_Ok_inv in Hx as (ev & _ & Hx). cbn [gr_tx gr_state] in Hx. rewrite Htx in Hx.
    injection Hx as <- _. by apply claim_inv in K1 as (_ & rp & du & _ & _ & ?).
Qed.
Lemma system_check s tx tb s' ev :
  apply_system_tx s tx tb = Ok (s', ev) -> night_fits s -> check_night_balance_invariant s = Ok tt ->
  check_night_balance_invariant s' = Ok tt.
Proof.
  intros Hx Hf Hc. destruct tx; simpl in Hx; try done.
  - destruct (_ <? _); [done|]. by injection Hx as <- _.
  - apply bind_Ok_inv in Hx as (s1 & K1 & Hx). injection Hx as <- _. unfold distribute_night in K1.
    destruct (_ <$> _) as [[c b]|]; [|done]. destruct (_ && _); [|done].
    apply bind_Ok_inv in K1 as (s2 & _ & K1). apply bind_Ok_inv in K1 as ([] & Hc2 & K1). injection K1 as <-.
    by destruct (check_night_balance_invariant s2) as [[]| |].
  - destruct (Z.ltb_spec (block_reward_pool s) amount) as [|Hle]; [done|]. injection Hx as <- _.
    pose proof Hc as Ht. apply (check_night_total s Hf) in Ht. destruct Hf as [Hp Hm].
    repeat (apply Forall_cons_1 in Hp as [? Hp]). unfold total_night in Ht, Hm. unfold MAX_SUPPLY, STARS_PER_NIGHT in Ht.
    unfold check_night_balance_invariant in *. set (s' := with_pools _ _ _ _ _ _ _).
    replace (total_night s') with (total_night s); [done|]. unfold total_night. subst s'. cbn.
    unfold treasury_night at 2, treasury_add. rewrite lookup_insert_eq. simpl. unfold sat_add, u128_max. lia.
  - destruct (_ <? _); [done|]. apply bind_Ok_inv in Hx as ([] & Hc2 & Hx). injection Hx as <- _.
    by destruct (check_night_balance_invariant _) as [[]| |].
  - apply bind_Ok_inv in Hx as ([du e] & _ & Hx). by injection Hx as <- _.
Qed.
Lemma post_block_check s tb d o s' :
  post_block_update s tb d o = Ok s' -> check_night_balance_invariant s' = check_night_balance_invariant s.
Proof.
  unfold post_block_update, apply_post_block_update. intros Hx. apply bind_Ok_inv in Hx as (? & _ & Hx).
  apply bind_Ok_inv in Hx as (zs & _ & Hx). apply bind_Ok_inv in Hx as (du & _ & Hx). by injection Hx as <-.
Qed.

(** Runs all of whose states keep their sums within 128 bits. *)
Definition run_fits s0 (acts : list LedgerAction) : Prop :=
  forall acts1 acts2 s, acts = acts1 ++ acts2 -> run s0 acts1 = Some s -> night_fits s.

(** The same, evaluated. *)
Definition night_fitsb s : bool :=
  forallb (Z.leb 0) [utxo_ann (utxo s); locked_pool s; reserve_pool s; block_reward_pool s; treasury_night (treasury s);
                     rewards_ann (unclaimed_block_rewards s); contract_ann (contract s)] && (total_night s <=? u128_max).
Fixpoint run_fitsb s (acts : list LedgerAction) : bool :=
  night_fitsb s &&
  match acts with
  | [] => true
  | a :: acts => match ledger_step s a with Some s => run_fitsb s acts | None => true end
  end.
Lemma night_fitsb_ok s : night_fitsb s = true -> night_fits s.
Proof.
  unfold night_fitsb. intros [Hp Ht%Z.leb_le]%andb_true_iff. split; [|done]. apply list.Forall_forall. intros x Hx.
  rewrite forallb_forall in Hp. apply Z.leb_le, Hp. by apply list_elem_of_In.
Qed.
Lemma run_fitsb_ok s0 acts : run_fitsb s0 acts = true -> run_fits s0 acts.
Proof.
  intros Hb acts1. revert s0 acts Hb. induction acts1 as [|a acts1 IH]; intros s0 acts Hb acts2 s -> Hr.
  - injection Hr as <-. apply night_fitsb_ok. destruct acts2; simpl in Hb; by apply andb_true_iff in Hb as [? _].
  - simpl in *. apply andb_true_iff in Hb as [_ Hb]. destruct (ledger_step s0 a) as [s1|]; simpl in *; [|done].
    by apply (IH s1 (acts1 ++ acts2) Hb acts2).
Qed.

(** C1: Night is conserved.  In every state a ledger reaches from genesis by
    applying transactions and system transactions and ending blocks, whatever
    these contain, the Night in outputs, contracts, pools, treasury and rewards
    adds up to exactly the maximum supply, as long as the sums never overflow
    128 bits on the way. *)
Theorem night_conserved s0 acts s :
  genesis s0 -> run s0 acts = Some s -> run_fits s0 acts -> total_night s = MAX_SUPPLY.
Proof.
  intros (id & p & l & r & t & Hg) Hr Hfit.
  assert (Hc0 : check_night_balance_invariant s0 = Ok tt).
  { unfold with_genesis_settings in Hg. apply bind_Ok_inv in Hg as ([] & Hc & Hg). by injection Hg as <-. }
  apply (check_night_total s); [by apply (Hfit acts [] s); rewrite ?app_nil_r|]. clear Hg.
  revert s0 Hc0 Hr Hfit. induction acts as [|a acts IH]; intros s0 Hc0 Hr Hfit; simpl in Hr; [by injection Hr as <-|].
  destruct (ledger_step s0 a) as [s1|] eqn:Hs; simpl in Hr; [|done]. apply (IH s1); [|done|].
  - pose proof (Hfit [] (a :: acts) s0 eq_refl eq_refl) as Hf0. destruct a as [tx ctx|tx tb|tb d o]; simpl in Hs.
    + apply fmap_Some in Hs as ([s2 res] & Hx%to_option_Some & ->). by eapply apply_check.
    + apply fmap_Some in Hs as ([s2 res] & Hx%to_option_Some & ->). by eapply system_check.
    + apply to_option_Some, post_block_check in Hs. by rewrite Hs.
  - intros a1 a2 s2 -> Hr1. apply (Hfit (a :: a1) a2 s2); [done|]. simpl. by rewrite Hs.
Qed.
End night.

(** ** The Cardano bridge *)
Section bridge.
Context `{LedgerHashing} `{Hashing} `{!Sizes} `{!SystemHashing} {FO : FieldOrder} {SS : StateStorage} {SA : StateArena}.
Implicit Types s : LedgerState.

Definition bridge_empty s : Prop :=
  cardano_to_midnight_bridge_fee_basis_points (parameters s) <= 10000 /\ map_Forall (fun _ v => v = 0) (bridge_receiving s).
Definition same_bridge s s' : Prop := parameters s' = parameters s /\ bridge_receiving s' = bridge_receiving s.
Definition claims_unsigned (a : LedgerAction) : Prop :=
  match a with
  | ApplyTx tx _ => match inner tx with ClaimRewards rw => 0 <= cr_value rw | Standard _ => True end
  | _ => True
  end.

Lemma frame_bridge rp s s' : frame rp s s' -> same_bridge s s'.
Proof. by intros (zs & cs & ut & du & ->). Qed.
Lemma section_bridge s stx hash seg ctx s' ev : apply_section s stx hash seg ctx = Ok (s', ev) -> same_bridge s s'.
Proof.
  intros [Hf _]%apply_section_frame. destruct (seg =? GUARANTEED_SEGMENT); [destruct Hf as (rp & _ & Hf)|]; by eapply frame_bridge.
Qed.
Lemma segments_bridge stx hash ctx s segs res s' : segments_run stx hash ctx s segs res s' -> same_bridge s s'.
Proof.
  induction 1 as [s|s seg s1 ev segs res s2 Ha Hr [I1 I2]|]; [done| |done].
  apply section_bridge in Ha as [E1 E2]. split; congruence.
Qed.
Lemma bridge_split_small p amount r :
  cardano_to_midnight_bridge_fee_basis_points p <= 10000 -> bridge_split p amount = Ok r ->
  amount < c_to_m_bridge_min_amount p /\ r = (amount, 0).
Proof.
  intros Hp. unfold bridge_split. destruct (Z.ltb_spec amount (c_to_m_bridge_min_amount p)); [by intros [= <-]|].
  unfold basis_points_of. by rewrite (proj2 (Z.leb_le _ _) Hp).
Qed.
Lemma lookup_zero (m : gmap UserAddress Z) a : map_Forall (fun _ v => v = 0) m -> default 0 (m !! a) = 0.
Proof. intros Hm. destruct (m !! a) as [v|] eqn:E; simpl; [by apply (Hm a)|done]. Qed.
Lemma distribute_one_bridge kind p tb s o s' :
  distribute_one kind p tb s o = Ok s' -> bridge_empty s ->
  bridge_empty s' /\ parameters s' = parameters s /\
  (kind = CardanoBridge -> oi_amount o < c_to_m_bridge_min_amount (parameters s)).
Proof.
  unfold distribute_one. intros Hx [Hp Hm]. apply bind_Ok_inv in Hx as (rp & _ & Hx).
  destruct kind; [by injection Hx as <-|]. apply bind_Ok_inv in Hx as ([fee pay] & Hs & Hx).
  destruct (bridge_split_small _ _ _ Hp Hs) as [Hlt [= -> ->]]. injection Hx as <-. split; [|done]. split; [done|]. cbn.
  unfold receive. rewrite (lookup_zero _ _ Hm). by apply map_Forall_insert_2.
Qed.
Lemma distribute_all_bridge kind p tb outputs s s' :
  try_fold (distribute_one kind p tb) s outputs = Ok s' -> bridge_empty s ->
  bridge_empty s' /\ (kind = CardanoBridge -> forall o, o ∈ outputs -> oi_amount o < c_to_m_bridge_min_amount (parameters s)).
Proof.
  revert s. induction outputs as [|o outputs IH]; intros s Hx Hb; cbn [try_fold] in Hx.
  { injection Hx as <-. split; [done|]. by intros _ o Ho%elem_of_nil. }
  apply bind_Ok_inv in Hx as (s1 & K & Hx). destruct (distribute_one_bridge _ _ _ _ _ _ K Hb) as (Hb1 & Ep & Hlt).
  destruct (IH _ Hx Hb1) as [Hb2 Hall]. split; [done|]. intros Hk o' [->|Ho]%elem_of_cons; [auto|]. rewrite <- Ep. auto.
Qed.
Lemma step_bridge s a s' : ledger_step s a = Some s' -> claims_unsigned a -> bridge_empty s -> bridge_empty s'.
Proof.
  intros Hs Hu Hb. assert (Hsame : forall s1, same_bridge s s1 -> bridge_empty s1).
  { intros s1 [E1 E2]. unfold bridge_empty. by rewrite E1, E2. }
  destruct a as [tx ctx|tx tb|tb d o]; simpl in *.
  - apply fmap_Some in Hs as ([s1 r] & Hx%to_option_Some & ->). simpl. destruct (inner tx) as [stx|rw] eqn:Htx.
    + apply (apply_standard _ _ _ _ _ _ Htx) in Hx. destruct r as [ev|res ev|e]; simpl in Hx.
      1,2: destruct Hx as (s2 & ev2 & rs & [A1 A2]%section_bridge & [B1 B2]%segments_bridge & _); apply Hsame; split; congruence.
      by destruct Hx as [-> _].
    + unfold apply, apply_guaranteed_only in Hx. rewrite Htx in Hx.
      destruct (claim_unshielded _ _ _ _) as [[s2 e2]|e|] eqn:K1; simpl in Hx; [|by injection Hx as <- _|done].
      unfold apply_fallible in Hx. apply bind_Ok_inv in Hx as (ev & _ & Hx). cbn [gr_tx gr_state] in Hx. rewrite Htx in Hx.
      injection Hx as <- _. apply claim_inv in K1 as (Hle & rp & du & _ & -> & _). destruct Hb as [Hp Hm]. split; [done|]. cbn.
      destruct (cr_kind rw); [done|]. simpl in Hle. rewrite (lookup_zero _ _ Hm) in *.
      replace (cr_value rw) with 0 by lia. simpl. by apply map_Forall_delete.
  - apply fmap_Some in Hs as ([s1 r] & Hx%to_option_Some & ->). simpl. destruct tx; simpl in Hx; try done.
    + destruct (Z.ltb_spec 10000 (cardano_to_midnight_bridge_fee_basis_points new_params)); [done|]. injection Hx as <- _.
      split; [done|]. apply Hb.
    + apply bind_Ok_inv in Hx as (s2 & K1 & Hx). injection Hx as <- _. unfold distribute_night in K1.
      destruct (_ <$> _) as [[c b]|]; [|done]. destruct (_ && _); [|done].
      apply bind_Ok_inv in K1 as (s3 & K2 & K1). apply bind_Ok_inv in K1 as (? & _ & K1). injection K1 as <-.
      by apply distribute_all_bridge in K2 as [? _].
    + destruct (_ <? _); [done|]. by injection Hx as <- _.
    + destruct (_ <? _); [done|]. apply bind_Ok_inv in Hx as (? & _ & Hx). by injection Hx as <- _.
    + apply bind_Ok_inv in Hx as ([du e] & _ & Hx). by injection Hx as <- _.
  - apply to_option_Some in Hs. unfold post_block_update, apply_post_block_update in Hs.
    apply bind_Ok_inv in Hs as (? & _ & Hs). apply bind_Ok_inv in Hs as (zs & _ & Hs). apply bind_Ok_inv in Hs as (du & _ & Hs).
    by injection Hs as <-.
Qed.
Lemma run_bridge s acts s' : run s acts = Some s' -> Forall claims_unsigned acts -> bridge_empty s -> bridge_empty s'.
Proof.
  revert s. induction acts as [|a acts IH]; intros s; simpl; [by intros [= <-]|].
  destruct (ledger_step s a) as [s1|] eqn:Hs; simpl; [|done]. intros Hr [Ha Hf]%Forall_cons_1 Hb.
  apply (IH s1); try done. by eapply step_bridge.
Qed.

(** The Cardano bridge never pays out.  With at most 10000 basis points of
    fees, as [OverwriteParameters] enforces, a distribution that holds an amount
    of at least the bridge minimum is rejected, so in every reachable state all
    bridge balances are zero and every claim of a positive amount fails. *)
Theorem bridge_never_pays s0 acts s :
  genesis s0 -> cardano_to_midnight_bridge_fee_basis_points (parameters s0) <= 10000 ->
  run s0 acts = Some s -> Forall claims_unsigned acts ->
  map_Forall (fun _ v => v = 0) (bridge_receiving s) /\
  (forall outputs o tb r, o ∈ outputs -> c_to_m_bridge_min_amount (parameters s) <= oi_amount o ->
     apply_system_tx s (DistributeNight CardanoBridge outputs) tb <> Ok r) /\
  (forall tx rw ctx, inner tx = ClaimRewards rw -> cr_kind rw = CardanoBridge -> 0 < cr_value rw ->
     apply (E := Empty_set) s tx ctx =
       Ok (s, Failure (InsufficientClaimable (cr_value rw) 0 (vk_address (cr_owner rw)) CardanoBridge))).
Proof.
  intros (id & p & l & rs & t & Hg) Hp Hr Hu. assert (Hb0 : bridge_empty s0).
  { split; [done|]. unfold with_genesis_settings in Hg. apply bind_Ok_inv in Hg as (? & _ & Hg). injection Hg as <-.
    apply map_Forall_empty. }
  pose proof (run_bridge _ _ _ Hr Hu Hb0) as Hb. split; [apply Hb|]. split.
  - intros outputs o tb r Ho Hmin Hx. simpl in Hx. apply bind_Ok_inv in Hx as (s2 & K1 & _). unfold distribute_night in K1.
    destruct (_ <$> _) as [[c b]|]; [|done]. destruct (_ && _); [|done].
    apply bind_Ok_inv in K1 as (s3 & K2 & _). apply distribute_all_bridge in K2 as [_ Hall]; [|exact Hb].
    specialize (Hall eq_refl o Ho). cbn in Hall. lia.
  - intros tx rw ctx Htx Hk Hv. unfold apply, apply_guaranteed_only. rewrite Htx. unfold claim_unshielded. rewrite Hk.
    rewrite (lookup_zero _ _ (proj2 Hb)), (proj2 (Z.ltb_lt _ _) Hv). done.
Qed.
End bridge.

(** ** Examples *)
From S2P Require Import RuntimeProps ToyLedger.

(** Segment 2 updates a contract that does not exist. *)
Definition toy_update_intent : Intent := {|
  guaranteed_unshielded_offer := None; fallible_unshielded_offer := None; dust_actions := None; ttl := 1600; binding_commitment := tt;
  actions := [Maintain {| mu_address := toy_hash 4; mu_updates := []; mu_counter := 0; mu_signatures := [] |}] |}.
Definition toy_partial_tx : VerifiedTransaction := toy_tx {[ 1 := toy_intent 1500; 2 := toy_update_intent ]}.
Definition toy_partial : LedgerState * TransactionResult :=
  match apply (E := Empty_set) toy_genesis toy_partial_tx (toy_tx_context 1000) with Ok r => r | _ => (toy_genesis, Success []) end.
Definition toy_partial_stx : StandardTransaction := {|
  network_id := "toy"; intents := {[ 1 := toy_intent 1500; 2 := toy_update_intent ]}; guaranteed_coins := None;
  fallible_coins := ∅; binding_randomness := 0 |}.
Lemma apply_atomic_sections_witness :
  toy_partial.2 = PartialSuccess {[ 0 := None; 1 := None; 2 := Some (ContractNotPresent (toy_hash 4)) ]} [] /\
  standard_outcome toy_genesis toy_partial_stx (toy_hash 1) (toy_tx_context 1000) toy_partial.1 toy_partial.2.
Proof.
  split; [vm_compute; reflexivity|].
  apply (apply_atomic_sections toy_genesis toy_partial_tx toy_partial_stx (toy_tx_context 1000)); [reflexivity|].
  vm_compute. reflexivity.
Defined.

(** Night moves from the reserve to the block rewards of a user. *)
Definition toy_reward : Z := 10 ^ 12.
Definition toy_reward_acts : list LedgerAction :=
  [ApplySystem (DistributeReserve toy_reward) 10;
   ApplySystem (DistributeNight Reward [{| oi_amount := toy_reward; oi_target_address := toy_hash 7; oi_nonce := toy_hash 2 |}]) 10;
   EndBlock 20 NormalizedCost_ZERO 0].
Definition toy_rewarded : LedgerState := default toy_genesis (run toy_genesis toy_reward_acts).
Lemma night_conserved_witness : rewards_ann (unclaimed_block_rewards toy_rewarded) = toy_reward /\ total_night toy_rewarded = MAX_SUPPLY.
Proof.
  split; [vm_compute; reflexivity|]. apply (night_conserved toy_genesis toy_reward_acts); [apply toy_genesis_ok|vm_compute; reflexivity|].
  apply run_fitsb_ok. vm_compute. reflexivity.
Defined.

(** A bridge claim of one. *)
Lemma bridge_never_pays_witness :
  map_Forall (fun _ v => v = 0) (bridge_receiving toy_rewarded) /\
  apply (E := Empty_set) toy_rewarded (toy_claim CardanoBridge 1) (toy_tx_context 30) =
    Ok (toy_rewarded, Failure (InsufficientClaimable 1 0 (toy_hash 7) CardanoBridge)).
Proof.
  destruct (bridge_never_pays toy_genesis toy_reward_acts toy_rewarded) as (Hb & _ & Hc).
  - apply toy_genesis_ok.
  - vm_compute. discriminate.
  - vm_compute. reflexivity.
  - repeat apply List.Forall_cons; try exact I. constructor.
  - split; [exact Hb|].
    exact (Hc (toy_claim CardanoBridge 1) {| cr_network_id := "toy"; cr_value := 1; cr_owner := 7; cr_nonce := toy_hash 3;
      cr_kind := CardanoBridge |} (toy_tx_context 30) eq_refl eq_refl eq_refl).
Defined.
