(* ===== verification/LedgerInv.v ===== *)
(** * The invariant of the ledger, and panics ([ledger/src/semantics.rs])

    Every state a full node reaches has well-formed coin and Dust trees.  The
    lemmas on sections and transactions are stated for any condition [P] under
    which contract actions may panic and any predicate [K] of the contracts
    that they keep; [LedgerTotal] shows that there is no panic at all. *)
From S2P Require Import Prelude Time CostModel Fab FabSerial MerkleTree TimeFilterMap Zswap ZswapProps StateValue VmOps.
From S2P Require Import Coin DeltaTracking Runtime LedgerData LedgerCost Dust DustProps Ledger ReplayProps LedgerProps.
Set Warnings "-register-all".

Section invariant.
Context `{LedgerHashing} `{Hashing} `{!Sizes} `{!SystemHashing} {FO : FieldOrder} {SS : StateStorage} {SA : StateArena}.
Implicit Types s : LedgerState.

Definition ledger_wf (now : Z) s : Prop :=
  zswap_wf (zswap s) /\ roots_recent now (zswap s) /\ dust_wf (dust s) /\ coins_recorded (zswap s).
Definition params_ok (p : LedgerParameters) : Prop := parallelism_factor (cost_model p) <> 0.
(** The spent Dust outputs. *)
Definition dust_spent s : gset DustNullifier := du_nullifiers (du (dust s)).
(** Deferred events that can be built. *)
Definition all_forced (ev : DeferredEvents) : Prop := Forall is_Some ev.
Lemma force_ok {E : Type} ev : all_forced ev -> exists evs, force (E := E) ev = Ok evs.
Proof.
  intros Hf. unfold force. assert (Hm : is_Some (mapM (M := option) id ev)) by (by apply mapM_is_Some_2).
  destruct Hm as [evs ->]. by eexists.
Qed.
Lemma with_source_forced src ev : forced ev -> all_forced (with_source src ev).
Proof. unfold all_forced, with_source. intros Hf. induction Hf as [|e ev [x ->] Hev IH]; simpl; constructor; [by eexists|done]. Qed.
Lemma some_forced {A} (l : list A) : Forall is_Some (Some <$> l).
Proof. induction l; simpl; constructor; [by eexists|done]. Qed.

(** ** Coins *)
Lemma item_index {P0 C0 T0 : Type} (o : ZswapOffer P0 unit C0 T0) (st : ZswapState) (ix : gmap Commitment Z) :
  (forall k c a n, offer_items o !! k = Some (c, a, n) ->
     ix !! c = Some (first_free st + Z.of_nat k)) ->
  forall c, c ∈ offer_coms o -> is_Some (ix !! c).
Proof.
  intros Hk c Hc. rewrite <- offer_items_coms in Hc. apply list_elem_of_fmap_1 in Hc as ([[c' a] n] & -> & Hin).
  apply list_elem_of_lookup in Hin as [k Hin]. simpl. rewrite (Hk _ _ _ _ Hin). by eexists.
Qed.
(** The effect of an accepted offer on what later offers depend on. *)
Definition coins_added (o : Offer) (st st' : ZswapState) : Prop :=
  zswap_wf st' /\ past_roots st' = past_roots st /\
  nullifiers st' = list_to_set (offer_nulls o) ∪ nullifiers st /\
  coin_coms_set st' = list_to_set (offer_coms o) ∪ coin_coms_set st /\
  first_free st' = first_free st + Z.of_nat (length (offer_coms o)).
Lemma try_apply_ok (st : ZswapState) (o : Offer) :
  zswap_wf st ->
  match try_apply st o None with
  | Ok (st', ix) =>
      offer_applicable st o /\ coins_added o st st' /\ (forall c, c ∈ offer_coms o -> is_Some (ix !! c)) /\
      map_Forall (fun c i => 0 <= i < 2 ^ 32 /\ c ∈ offer_coms o) ix
  | Err _ => ~ offer_applicable st o
  | Panic => False
  end.
Proof.
  intros Hwf. pose proof (try_apply_spec st o Hwf) as Hs. destruct (try_apply st o None) as [[st' ix]|e|]; [|done..].
  destruct Hs as (Ha & Hwf' & Hn & Hc & Hff & Hp & _ & Hk & Hout). split; [done|]. split; [|split].
  - split_and!; [done|done|..].
    + rewrite Hn, offer_items_nulls. unfold offer_nulls. cbn [with_nulls nullifiers]. set_solver.
    + rewrite Hc, offer_items_coms. done.
    + rewrite Hff, offer_items_length. done.
  - apply (item_index o st). intros k c a n Hl. by apply (Hk k c a n).
  - intros c i Hi. destruct (decide (c ∈ item_coms (offer_items o))) as [Hin|Hno]; [|by rewrite (Hout c Hno) in Hi].
    split; [|by rewrite <- offer_items_coms]. apply list_elem_of_fmap_1 in Hin as ([[c' a] n] & -> & Hin).
    apply list_elem_of_lookup in Hin as [k Hl]. cbn in Hi. destruct (Hk _ _ _ _ Hl) as [_ Hk']. rewrite Hk' in Hi. injection Hi as <-.
    apply lookup_lt_Some in Hl. destruct Hwf as (_ & _ & _ & Hb0 & _), Hwf' as (_ & _ & _ & Hb1 & _). cbn in *. lia.
Qed.
Lemma zswap_output_events_ok {E : Type} (ix : gmap Commitment Z) (o : Offer) :
  (forall c, c ∈ offer_coms o -> is_Some (ix !! c)) -> exists evs, zswap_output_events (E := E) ix o = Ok evs.
Proof.
  intros Hc. unfold zswap_output_events. set (l := _ ++ _).
  assert (Hl : forall x, x ∈ l -> is_Some (ix !! x.1.1)).
  { intros x [Hx|Hx]%elem_of_app; apply list_elem_of_fmap_1 in Hx as (y & -> & Hy); apply Hc; unfold offer_coms;
      apply elem_of_app; [left|right]; [exact (list_elem_of_fmap_2 out_coin_com _ _ Hy)|exact (list_elem_of_fmap_2 tr_coin_com _ _ Hy)]. }
  clearbody l. generalize (@nil EventDetails) at 2 as evs0. induction l as [|[[c ci] a] l IH]; intros evs0; [by eexists|]. cbn [try_fold].
  destruct (Hl (c, ci, a)) as [i Hi]; [left|]. unfold zswap_output_event. cbn [fst] in Hi. cbn -[try_fold lookup].
  setoid_rewrite Hi. cbn -[try_fold lookup].
  apply IH. intros x Hx. apply Hl. by right.
Qed.
(** The indices that the calls of a section see: those of the new coins. *)
Definition offer_indices (o : option Offer) (ind : gmap Commitment Z) : Prop :=
  map_Forall (fun c i => 0 <= i < 2 ^ 32 /\ exists o', o = Some o' /\ c ∈ offer_coms o') ind.
Lemma optional_zswap_ok P now s o ctx src :
  ledger_wf now s -> whitelist ctx = None ->
  safe_or P (optional_zswap s o ctx src) (fun r => ledger_wf now r.1.1 /\ all_forced r.2 /\ dust_spent r.1.1 = dust_spent s /\
    contract r.1.1 = contract s /\ offer_indices o r.1.2).
Proof.
  intros (Hz & Hr & Hd & Hc) Hwl. destruct o as [o|]; simpl; [|by split_and!; [..|constructor| | |apply map_Forall_empty]]. unfold apply_zswap. rewrite Hwl.
  pose proof (try_apply_ok (zswap s) o Hz) as Ht. destruct (try_apply (zswap s) o None) as [[zs ix]|e|] eqn:Hap; [|exact I|done].
  destruct Ht as (_ & (Hz' & Hp & _) & Hix & Hof). simpl. destruct (zswap_output_events_ok (E := TransactionInvalid) ix o Hix) as [evs ->].
  simpl. split; [|split; [apply with_source_forced, some_forced|split_and!; [done|done|]]].
  - split_and!; [done| |done|exact (apply_recorded _ _ _ _ Hz Hap Hc)]. unfold roots_recent in *. cbn. by rewrite Hp.
  - intros c i Hi. destruct (Hof c i Hi) as [? ?]. split; [done|]. by exists o.
Qed.

(** ** Unshielded offers and actions *)
Lemma utxo_apply_offer_no_panic ut offer it seg tb : utxo_apply_offer ut offer it seg tb <> Panic.
Proof.
  unfold utxo_apply_offer. assert (Hs : safe (try_fold spend_utxo ut (uo_inputs offer)) (fun _ => True)).
  { apply safe_try_fold; [done|]. intros a x _. unfold spend_utxo. by case_bool_decide. }
  by destruct (try_fold spend_utxo ut (uo_inputs offer)).
Qed.
Lemma optional_unshielded_ok P now s o it seg ctx src :
  ledger_wf now s -> safe_or P (optional_unshielded s o it seg ctx src) (fun r => ledger_wf now r.1 /\ all_forced r.2 /\
    dust_spent s ⊆ dust_spent r.1 /\ contract r.1 = contract s).
Proof.
  intros (Hz & Hr & Hd & Hc). destruct o as [o|]; simpl; [|by split; [|split; [constructor|]]]. unfold apply_unshielded.
  eapply safe_or_bind; [apply safe_or_any, utxo_apply_offer_no_panic|]. intros ut _.
  eapply safe_or_bind; [apply safe_or_safe, dust_apply_offer_ok, Hd|]. intros [d ev] (Hd' & Hf & Hn & _).
  split; [by split_and!|]. split; [by apply with_source_forced|by split].
Qed.

(** ** Contract actions

    What a section needs to know of the contract actions of its transaction:
    they panic only if [P], and keep [K] of the contracts. *)
Definition tx_indices (stx : StandardTransaction) (ind : gmap Commitment Z) : Prop :=
  exists o, offer_indices o ind /\ (o = guaranteed_coins stx \/ exists seg, o = fallible_coins stx !! seg).
Definition actions_safe (P : Prop) (K : gmap ContractAddress ContractState -> Prop) (p : LedgerParameters)
    (stx : StandardTransaction) (ctx : TransactionContext) : Prop :=
  forall s si guar ind src,
    parameters s = p -> si ∈ sorted_map (intents stx) -> K (contract s) -> tx_indices stx ind ->
    safe_or P (apply_actions s (actions si.2) guar ctx si.2 ind src) (fun r => K (contract r.1)).

(** ** Sections *)
Lemma frame_params rp s s' : frame rp s s' -> parameters s' = parameters s.
Proof. by intros (zs & cs & ut & du & ->). Qed.
Section parametric.
Context (P : Prop) (K : gmap ContractAddress ContractState -> Prop).
(** A step that keeps the invariant and the parameters. *)
Definition section_post (now : Z) s (r : LedgerState * DeferredEvents) : Prop :=
  ledger_wf now r.1 /\ all_forced r.2 /\ parameters r.1 = parameters s /\ dust_spent s ⊆ dust_spent r.1 /\ K (contract r.1).
Lemma intent_part_ok now s o stx si seg guar ctx ind src ev0 :
  actions_safe P K (parameters s) stx ctx -> si ∈ sorted_map (intents stx) -> tx_indices stx ind -> section_post now s (s, ev0) ->
  safe_or P
    ('(state, ev1) ← optional_unshielded s o si.2 seg ctx src;
     '(state, ev2) ← apply_actions state (actions si.2) guar ctx si.2 ind src;
     Ok (state, ev0 ++ ev1 ++ (Some <$> ev2)))
    (section_post now s).
Proof.
  intros Hsafe Hsi Hind (Hwf & Hev & _ & _ & Hk). simpl in *. eapply safe_or_bind_eq; [by apply (optional_unshielded_ok _ now)|].
  intros [s1 e1] K1 (Hwf1 & He1 & Hn1 & Hc1). apply optional_unshielded_frame, frame_params in K1. simpl in *.
  eapply safe_or_bind_eq; [apply (Hsafe s1 si); [done|done|by rewrite Hc1|done]|]. intros [s2 e2] K2 Hk2.
  apply apply_actions_frame in K2 as [cs ->]. split_and!; [exact Hwf1| |exact K1|exact Hn1|done]. simpl.
  repeat apply Forall_app_2; try done. apply some_forced.
Qed.
Lemma try_fallible_offers_ok zs stx wl : zswap_wf zs -> wl = None -> safe_or P (try_fallible_offers zs stx wl) (fun _ => True).
Proof.
  intros Hz ->. apply (safe_or_mono P P _ (fun z => zswap_wf z) _); [|done..]. apply safe_or_try_fold; [done|].
  intros z o _ Hz'. apply safe_or_map_err. pose proof (try_apply_ok z o.2 Hz') as Ht.
  destruct (try_apply z o.2 None) as [[z1 ix]|e|]; simpl; [|done..]. apply Ht.
Qed.
Lemma parallel_validation_ok {E : Type} model c :
  parallelism_factor model <> 0 -> exists r, parallel_validation (E := E) model c = Ok r.
Proof.
  intros Hp. unfold parallel_validation, CostDuration_div_u64. rewrite (proj2 (Z.eqb_neq _ _) Hp). simpl. by eexists.
Qed.
Lemma cost_of_size_no_panic size tx p b : params_ok p -> cost_of_size size tx p b <> Panic.
Proof.
  intros Hp. unfold cost_of_size. destruct (parallel_validation_ok (E := FeeCalculationError) (cost_model p)
    (validation_cost_of_size (cost_model p) size tx) Hp) as [r ->]. cbn [mbind outcome_bind].
  destruct (application_cost _ _). by destruct (_ && _).
Qed.
Lemma fees_or_zero_ok {E : Type} stx p : params_ok p -> exists f, fees_or_zero (E := E) stx p = Ok f.
Proof.
  intros Hp. unfold fees_or_zero, fees, fees_of_size. pose proof (cost_of_size_no_panic (est_size (Standard stx)) (Standard stx) p true Hp).
  destruct (cost_of_size _ _ _ _) as [c|e|]; cbn [mbind outcome_bind]; [|by eexists|done].
  unfold ok_or. destruct (normalize _ _); simpl; by eexists.
Qed.
Lemma min_claimable_ok {E : Type} p tx : params_ok p -> exists m, min_claimable_rewards (E := E) p tx = Ok m.
Proof.
  intros Hp. unfold min_claimable_rewards. pose proof (cost_of_size_no_panic phantom_claim_size (ClaimRewards tx) p true Hp).
  destruct (cost_of_size _ _ _ _); [by eexists|by eexists|done].
Qed.

(** Fees: what paying them does to the Dust. *)
Definition fees_post (d : DustState) (r : DustState * Z * DeferredEvents) : Prop :=
  dust_wf r.1.1 /\ all_forced r.2 /\ du_nullifiers (du d) ⊆ du_nullifiers (du r.1.1).
Lemma spend_fees_ok hash ctx d acc x :
  fees_post d acc -> safe (spend_fees hash ctx acc x) (fun r =>
    fees_post d r /\ du_nullifiers (du acc.1.1) ⊆ du_nullifiers (du r.1.1) /\
    (old_nullifier x.2 ∉ du_nullifiers (du acc.1.1)) /\ old_nullifier x.2 ∈ du_nullifiers (du r.1.1)).
Proof.
  destruct acc as [[d1 f] ev]. destruct x as [[seg t] sp]. intros (Hd & Hf & Hn). simpl in *.
  pose proof (apply_spend_ok d1 sp t (tblock (block_context ctx)) Hd) as Hs.
  destruct (apply_spend _ _ _ _) as [[d2 e2]| |]; [|done..]. destruct Hs as ((Hd2 & Hf2 & Hn2 & _) & Hnew & Hin).
  simpl in *. split_and!; [|done..]. unfold fees_post. simpl. split_and!; [done| |by etrans].
  apply Forall_app_2; [done|]. by apply with_source_forced.
Qed.
Lemma registration_fees_ok hash p ctx d acc x :
  fees_post d acc -> safe (registration_fees hash p ctx acc x) (fees_post d).
Proof.
  destruct acc as [[d1 f] ev]. destruct x as [[[seg it] t] reg]. intros (Hd & Hf & Hn). simpl in *.
  pose proof (apply_registration_ok d1 (utxo (ref_state ctx)) f it reg p t (tblock (block_context ctx)) Hd) as Hs.
  destruct (apply_registration _ _ _ _ _ _ _ _) as [[[d2 f2] e2]| |]; [|done..]. destruct Hs as (Hd2 & Hf2 & Hn2).
  unfold fees_post. simpl in *. split_and!; [done| |by etrans]. apply Forall_app_2; [done|]. by apply with_source_forced.
Qed.
Lemma spends_ok hash ctx d l acc :
  fees_post d acc -> safe (try_fold (spend_fees hash ctx) acc l) (fun r =>
    fees_post d r /\ du_nullifiers (du acc.1.1) ⊆ du_nullifiers (du r.1.1) /\
    forall x, x ∈ l -> (old_nullifier x.2 ∉ du_nullifiers (du acc.1.1)) /\ old_nullifier x.2 ∈ du_nullifiers (du r.1.1)).
Proof.
  revert acc. induction l as [|x l IH]; intros acc Ha; cbn [try_fold].
  { split_and!; [done|done|]. by intros x Hx%elem_of_nil. }
  eapply safe_bind; [by apply spend_fees_ok|]. intros a1 (Ha1 & Hs1 & Hnew & Hin).
  pose proof (IH a1 Ha1) as Hl. destruct (try_fold _ a1 l) as [r| |]; [|done..]. destruct Hl as (Hr & Hs2 & Hall).
  split_and!; [done|by etrans|]. intros y [->|Hy]%elem_of_cons; [by split; [|apply Hs2]|].
  destruct (Hall y Hy) as [Hy1 Hy2]. split; [|done]. intros Hy0. by apply Hy1, Hs1.
Qed.
Lemma apply_fees_ok d p stx hash f ctx :
  dust_wf d -> safe (apply_fees d p stx hash f ctx) (fun r =>
    fees_post d r /\ forall x, x ∈ sorted_map (intents stx) ≫= intent_spends ->
      (old_nullifier x.2 ∉ du_nullifiers (du d)) /\ old_nullifier x.2 ∈ du_nullifiers (du r.1.1)).
Proof.
  intros Hd. unfold apply_fees. eapply safe_bind; [apply (spends_ok _ _ d); by split_and!; [|constructor|]|].
  intros acc (Ha & _ & Hall). simpl in Hall.
  assert (Hr : safe (try_fold (registration_fees hash p ctx) acc (sorted_map (intents stx) ≫= intent_registrations)) (fees_post acc.1.1)).
  { apply safe_try_fold; [split_and!; [apply Ha|apply Ha|done]|]. intros; by apply registration_fees_ok. }
  destruct (try_fold _ acc _) as [r| |]; [|done..]. destruct Hr as (Hd2 & Hf2 & Hn2). destruct Ha as (_ & _ & Hn). split.
  - split_and!; [done|done|by etrans].
  - intros x Hx. destruct (Hall x Hx) as [? ?]. split; [done|]. by apply Hn2.
Qed.
Definition tx_spends (stx : StandardTransaction) : list DustNullifier :=
  (fun x => old_nullifier x.2) <$> (sorted_map (intents stx) ≫= intent_spends).
Lemma section_post_trans now s s1 e1 r : section_post now s (s1, e1) -> section_post now s1 r -> section_post now s r.
Proof. intros (_ & _ & P1 & N1 & _) (W & F & P2 & N2 & C). split_and!; [done|done|by etrans|by etrans|done]. Qed.
(** The parameters can be divided by, or a panic is allowed. *)
Definition params_safe (p : LedgerParameters) : Prop := params_ok p \/ P.
Lemma params_safe_zero p : params_safe p -> parallelism_factor (cost_model p) = 0 -> P.
Proof. intros [Hp|?] Hz; [by destruct Hp|done]. Qed.
Lemma guaranteed_section_ok now s stx hash ctx :
  params_safe (parameters s) -> actions_safe P K (parameters s) stx ctx ->
  ledger_wf now s -> K (contract s) -> whitelist ctx = None ->
  safe_or P (guaranteed_section s stx hash ctx) (fun r =>
    section_post now s r /\ forall n, n ∈ tx_spends stx -> (n ∉ dust_spent s) /\ n ∈ dust_spent r.1).
Proof.
  intros Hps Hsafe Hwf Hk Hwl. unfold guaranteed_section.
  eapply (safe_or_bind _ _ _ (fun _ => True)).
  { apply safe_or_map_err, safe_or_safe, safe_try_fold; [done|]. intros rp si _. unfold apply_intent.
    pose proof (apply_member_no_panic rp (intent_hash si.2 0) (ttl si.2) (tblock (block_context ctx)) (global_ttl (parameters s))).
    by destruct (apply_member _ _ _ _ _). }
  intros rp _. eapply safe_or_bind_eq; [apply (optional_zswap_ok _ now); done|].
  intros [[s1 ind] e1] K1 (Hwf1 & He1 & Hn1 & Hc1 & Hi1). apply optional_zswap_frame, frame_params in K1. simpl in Hwf1, He1, Hn1, Hc1, Hi1, K1.
  eapply safe_or_bind; [apply try_fallible_offers_ok; [apply Hwf1|done]|]. intros _ _.
  eapply (safe_or_bind _ _ _ (section_post now s1)).
  { apply safe_or_try_fold; [split_and!; try done; cbn; by rewrite Hc1|]. intros [s2 e2] si Hin G2. unfold guaranteed_intent. cbn [fst snd].
    assert (Hp2 : parameters s2 = parameters s) by (destruct G2 as (_ & _ & Hp2 & _); simpl in Hp2; by rewrite Hp2).
    eapply safe_or_mono; [apply (intent_part_ok now s2 _ stx si); [by rewrite Hp2|done|eexists; by split; [|left]|]|done|].
    - destruct G2 as (? & ? & ? & ? & ?). by split_and!.
    - intros r _ Hr. by eapply section_post_trans. }
  intros [s2 e2] (Hwf2 & He2 & Hp2 & Hn2 & Hk2). simpl in *.
  eapply (safe_or_bind _ _ _ (fun _ => True)).
  { destruct (decide (parallelism_factor (cost_model (parameters s)) = 0)) as [Hz|Hp].
    - destruct (fees_or_zero _ _); simpl; [done|done|]. by eapply params_safe_zero.
    - by destruct (fees_or_zero_ok (E := TransactionInvalid) stx (parameters s) Hp) as [f ->]. }
  intros f _.
  eapply safe_or_bind; [apply safe_or_safe, apply_fees_ok, Hwf2|]. intros [[d f'] e3] [(Hd & He3 & Hn3) Hall]. simpl in *.
  assert (Hns : dust_spent s ⊆ dust_spent s2) by (unfold dust_spent in *; cbn in *; rewrite <- Hn1; done).
  split; [split_and!|].
  - destruct Hwf2 as (? & ? & _ & ?). by split_and!.
  - by apply Forall_app_2.
  - cbn. by rewrite Hp2, K1.
  - etrans; [exact Hns|exact Hn3].
  - exact Hk2.
  - intros n Hn. apply list_elem_of_fmap_1 in Hn as (x & -> & Hx). destruct (Hall x Hx) as [Hx1 Hx2]. split; [|done].
    intros Hs. by apply Hx1, Hns.
Qed.
Lemma fallible_section_ok now s stx hash seg ctx :
  actions_safe P K (parameters s) stx ctx -> ledger_wf now s -> K (contract s) -> whitelist ctx = None ->
  safe_or P (fallible_section s stx hash seg ctx) (section_post now s).
Proof.
  intros Hsafe Hwf Hk Hwl. unfold fallible_section. eapply safe_or_bind_eq; [apply (optional_zswap_ok _ now); done|].
  intros [[s1 ind] e1] K1 (Hwf1 & He1 & Hn1 & Hc1 & Hi1). apply optional_zswap_frame, frame_params in K1. simpl in Hwf1, He1, Hn1, Hc1, Hi1, K1.
  assert (H1' : section_post now s (s1, e1)) by (split_and!; try done; [by rewrite <- Hn1|cbn; by rewrite Hc1]).
  destruct (intents stx !! seg) as [it|] eqn:Hit; [|exact H1'].
  eapply safe_or_mono; [apply (intent_part_ok now s1 _ stx (seg, it)); [by rewrite K1| |eexists; split; [exact Hi1|right; by eexists]|]|done|].
  - unfold sorted_map. rewrite (sorting.merge_sort_Permutation key_le). by apply elem_of_map_to_list.
  - destruct H1' as (? & ? & ? & ? & ?). by split_and!.
  - intros r _ Hr. by eapply section_post_trans.
Qed.
Lemma apply_section_ok now s stx hash seg ctx :
  params_safe (parameters s) -> actions_safe P K (parameters s) stx ctx ->
  ledger_wf now s -> K (contract s) -> whitelist ctx = None ->
  safe_or P (apply_section s stx hash seg ctx) (fun r =>
    section_post now s r /\ (seg = GUARANTEED_SEGMENT -> forall n, n ∈ tx_spends stx -> (n ∉ dust_spent s) /\ n ∈ dust_spent r.1)).
Proof.
  intros Hps Hsafe Hwf Hk Hwl. unfold apply_section. eapply (safe_or_bind _ _ _ (fun r => section_post now s r /\
    (seg = GUARANTEED_SEGMENT -> forall n, n ∈ tx_spends stx -> (n ∉ dust_spent s) /\ n ∈ dust_spent r.1))).
  - destruct (Z.eqb_spec seg GUARANTEED_SEGMENT) as [->|Hne].
    + eapply safe_or_mono; [by apply (guaranteed_section_ok now)|done|]. intros r _ [? ?]. by split.
    + eapply safe_or_mono; [by apply (fallible_section_ok now)|done|]. intros r _ ?. by split.
  - intros [s1 e1] Hs. unfold check_night_balance_invariant. by destruct (_ =? _).
Qed.

(** ** Transactions *)
Definition spends_of (tx : VerifiedTransaction) : list DustNullifier :=
  match inner tx with Standard stx => tx_spends stx | ClaimRewards _ => [] end.
Definition tx_safe (p : LedgerParameters) (tx : VerifiedTransaction) (ctx : TransactionContext) : Prop :=
  match inner tx with Standard stx => actions_safe P K p stx ctx | ClaimRewards _ => True end.
(** The Dust a transaction that goes through spends was not spent before. *)
Definition apply_post (now : Z) s (tx : VerifiedTransaction) (sr : LedgerState * TransactionResult) : Prop :=
  ledger_wf now sr.1 /\ parameters sr.1 = parameters s /\ dust_spent s ⊆ dust_spent sr.1 /\ K (contract sr.1) /\
  (accepted sr.2 -> forall n, n ∈ spends_of tx -> (n ∉ dust_spent s) /\ n ∈ dust_spent sr.1).
Lemma segments_post {E : Type} now s stx hash ctx segs acc :
  params_safe (parameters s) -> actions_safe P K (parameters s) stx ctx ->
  whitelist ctx = None -> section_post now s (acc.1.1.1, []) ->
  safe_or P (try_fold (apply_segment (E := E) stx hash ctx) acc segs)
    (fun r => section_post now s (r.1.1.1, [])).
Proof.
  intros Hps Hsafe Hwl Ha. apply safe_or_try_fold; [done|]. clear acc Ha. intros [[[s1 e1] res] b] seg _ Ha. unfold apply_segment.
  cbn [fst snd] in *. assert (Hp : parameters s1 = parameters s) by apply Ha. rewrite <- Hp in Hps, Hsafe.
  pose proof (apply_section_ok now s1 stx hash seg ctx Hps Hsafe (proj1 Ha) (proj2 (proj2 (proj2 (proj2 Ha)))) Hwl) as Hs.
  destruct (apply_section s1 stx hash seg ctx) as [[s2 ev]| |]; simpl in Hs; [|exact Ha|exact Hs].
  destruct Hs as [Hs _]. destruct (force_ok (E := E) ev (proj1 (proj2 Hs))) as [evs ->]. cbn [mbind outcome_bind safe_or fst snd].
  pose proof (section_post_trans _ _ _ _ _ Ha Hs) as (? & ? & ? & ? & ?). split_and!; try done. constructor.
Qed.
Lemma claim_ok now s rw ctx src :
  params_safe (parameters s) -> ledger_wf now s ->
  safe_or P (claim_unshielded s rw ctx src)
    (fun r => ledger_wf now r.1 /\ parameters r.1 = parameters s /\ dust_spent s ⊆ dust_spent r.1 /\ contract r.1 = contract s).
Proof.
  intros Hps (Hz & Hr & Hd & Hc). unfold claim_unshielded. cbn zeta. destruct (_ <? cr_value rw); [done|].
  eapply (safe_or_bind _ _ _ (fun _ => True)).
  { destruct (cr_kind rw); [|done]. destruct (decide (parallelism_factor (cost_model (parameters s)) = 0)) as [Hp|Hp].
    - destruct (min_claimable_rewards _ _); simpl; [done|done|]. by eapply params_safe_zero.
    - by destruct (min_claimable_ok (E := TransactionInvalid) (parameters s) rw Hp) as [f ->]. }
  intros mn _. destruct (_ <? mn); [done|].
  eapply (safe_or_bind _ _ _ (fun _ => True)); [apply safe_or_map_err, safe_or_any, apply_member_no_panic|]. intros rp _.
  set (st := match cr_kind rw with CardanoBridge => _ | Reward => _ end).
  assert (Hst : zswap st = zswap s /\ parameters st = parameters s /\ dust st = dust s /\ contract st = contract s)
    by (unfold st; by destruct (cr_kind rw)).
  clearbody st. destruct Hst as (Ez & Ep & Ed & Ec).
  eapply (safe_or_bind _ _ _ (fun r => zswap r.1 = zswap s /\ parameters r.1 = parameters s /\ dust_wf (dust r.1) /\
    dust_spent s ⊆ dust_spent r.1 /\ contract r.1 = contract s)).
  - destruct (address_delegation _ !! _) as [a|]; [|unfold dust_spent; simpl; by rewrite Ed].
    eapply (safe_or_bind _ _ _ (dust_post (dust st))).
    { apply safe_or_map_err, safe_or_safe, fresh_dust_output_ok. by rewrite Ed. }
    intros [d ev] (Hd' & Hf & Hn & _).
    destruct (force_ok (E := TransactionInvalid) (with_source src ev) (with_source_forced _ _ Hf)) as [evs ->].
    unfold dust_spent. simpl. rewrite <- Ed. by split_and!.
  - intros [s1 e1] (Ez1 & Ep1 & Hd1 & Hn1 & Hc1). unfold check_night_balance_invariant. destruct (_ =? _); [|done].
    simpl in *. split_and!; try done. unfold ledger_wf. rewrite Ez1. by split_and!.
Qed.
Lemma apply_ok {E : Type} now s tx ctx :
  params_safe (parameters s) -> tx_safe (parameters s) tx ctx ->
  ledger_wf now s -> K (contract s) -> whitelist ctx = None ->
  safe_or P (apply (E := E) s tx ctx) (apply_post now s tx).
Proof.
  intros Hps Hsafe Hwf Hk Hwl. unfold tx_safe in Hsafe. unfold apply, apply_guaranteed_only, apply_post, spends_of.
  destruct (inner tx) as [stx|rw] eqn:Htx.
  - pose proof (apply_section_ok now s stx (vt_hash tx) GUARANTEED_SEGMENT ctx Hps Hsafe Hwf Hk Hwl) as Hs.
    destruct (apply_section _ _ _ _ _) as [[s1 ev]| |]; simpl in Hs; [|simpl; by split_and!|exact Hs].
    destruct Hs as [Hs Hsp]. specialize (Hsp eq_refl). unfold apply_fallible. cbn [mbind outcome_bind gr_deferred_events gr_tx gr_state].
    destruct (force_ok (E := E) ev (proj1 (proj2 Hs))) as [evs ->]. cbn [mbind outcome_bind]. rewrite Htx.
    destruct Hs as (Hwf1 & _ & Hp1 & Hn1 & Hk1). simpl in *. rewrite <- Hp1 in Hps, Hsafe |- *.
    eapply safe_or_bind; [apply (segments_post now s1); [done..|]; split_and!; [done|constructor|done|done|done]|].
    intros [[[s2 e2] res] b] (Hwf2 & _ & Hp2 & Hn2 & Hk2). simpl in *. split_and!; [done|done|by etrans|done|].
    intros _ n Hn. destruct (Hsp n Hn). split; [done|]. by apply Hn2.
  - pose proof (claim_ok now s rw (block_context ctx) {| transaction_hash := vt_hash tx; logical_segment := GUARANTEED_SEGMENT;
      physical_segment := GUARANTEED_SEGMENT |} Hps Hwf) as Hs.
    destruct (claim_unshielded _ _ _ _) as [[s1 ev]| |]; simpl in Hs; [|simpl; by split_and!|exact Hs].
    destruct Hs as (? & ? & ? & Hc). unfold apply_fallible. cbn [mbind outcome_bind gr_deferred_events gr_tx gr_state].
    destruct (force_ok (E := E) (Some <$> ev) (some_forced _)) as [evs ->]. cbn [mbind outcome_bind]. rewrite Htx.
    simpl. split_and!; try done; [by rewrite Hc|]. by intros _ n Hn%elem_of_nil.
Qed.
End parametric.
(** Without knowing what the contracts do. *)
Lemma apply_keeps {E : Type} now s tx ctx sr :
  ledger_wf now s -> whitelist ctx = None -> apply (E := E) s tx ctx = Ok sr -> apply_post (fun _ => True) now s tx sr.
Proof.
  intros Hwf Hwl Hx. pose proof (apply_ok (E := E) True (fun _ => True) now s tx ctx) as Hs. rewrite Hx in Hs.
  apply Hs; [by right| |done..]. unfold tx_safe. destruct (inner tx); [|done]. intros s1 si g ind src _ _ _ _. by destruct (apply_actions _ _ _ _ _ _ _).
Qed.

(** ** System transactions and block ends *)
Definition cnight_post (d : DustState) (r : DustState * list Event) : Prop :=
  dust_wf r.1 /\ du_nullifiers (du d) ⊆ du_nullifiers (du r.1).
Lemma cnight_action_ok src tb d acc a : cnight_post d acc -> safe (cnight_action src tb acc a) (cnight_post d).
Proof.
  intros (Hwf & Hn). unfold cnight_action. destruct (cn_action a).
  - pose proof (fresh_dust_output_ok acc.1 (cn_nonce a) 0 (cn_value a) (cn_owner a) (cn_time a) tb Hwf) as Hs.
    destruct (fresh_dust_output _ _ _ _ _ _ _) as [[d' ev]| |]; [|done..]. destruct Hs as (Hd & Hf & Hn' & _). simpl in *.
    destruct (force_ok (E := SystemTransactionError) _ (with_source_forced src ev Hf)) as [evs ->]. split; [done|by etrans].
  - destruct (night_indices _ !! cn_nonce a) as [idx|] eqn:Hi; [|by split].
    pose proof Hwf as (_ & _ & Hni & _). destruct (Hni _ _ Hi) as (Hidx & h & info & Hm & _). rewrite Hm.
    destruct (dtime_update_ok acc.1 idx h info (cn_time a) Hwf Hidx Hm) as (tree & -> & Htree). cbn [map_err mbind outcome_bind].
    destruct (rehash_spec (E := SystemTransactionError) tree) as (t2 & E2 & _). rewrite E2. cbn [mbind outcome_bind].
    destruct (Htree t2) as (Hwf' & (Edu & _) & _ & e & He); [right; by eexists|]. unfold dtime_event. rewrite He.
    split; [done|]. by rewrite <- Edu in Hn.
Qed.
Lemma distribute_one_keeps kind p tb s o :
  safe (distribute_one kind p tb s o) (fun s' => zswap s' = zswap s /\ dust s' = dust s /\ contract s' = contract s /\ parameters s' = parameters s).
Proof.
  unfold distribute_one. eapply (safe_bind _ _ (fun _ => True)).
  { set (h := mk_intent_hash _ _). set (t := Timestamp_add _ _).
    pose proof (apply_member_no_panic (replay_protection s) h t tb (global_ttl p)). by destruct (apply_member _ _ _ _ _). }
  intros rp _. destruct kind; [done|]. unfold bridge_split, basis_points_of. destruct (_ <? _); [done|]. by destruct (_ <=? _).
Qed.
Lemma apply_system_ok now s tx tb :
  ledger_wf now s ->
  safe (apply_system_tx s tx tb) (fun r => ledger_wf now r.1 /\ dust_spent s ⊆ dust_spent r.1 /\ contract r.1 = contract s /\
    (parameters r.1 = parameters s \/ exists p, tx = OverwriteParameters p /\ parameters r.1 = p)).
Proof.
  intros Hwf. pose proof Hwf as (Hz & Hr & Hd & Hc). destruct tx as [p|kind outs|amt| | |acts|amt]; simpl; try done.
  - destruct (_ <? _); [done|]. split_and!; try done. right. by eexists.
  - unfold distribute_night. destruct (_ <$> _) as [[c b]|]; [|done]. destruct (_ && _); [|done].
    set (s1 := with_pools _ _ _ _ _ _ _).
    assert (Hf : safe (try_fold (distribute_one kind (parameters s) tb) s1 outs)
      (fun s' => zswap s' = zswap s /\ dust s' = dust s /\ contract s' = contract s /\ parameters s' = parameters s)).
    { apply safe_try_fold; [done|]. intros sa o Ea. pose proof (distribute_one_keeps kind (parameters s) tb sa o) as Ho.
      destruct (distribute_one _ _ _ _ _); [|done..]. simpl in *. destruct Ho as (-> & -> & -> & ->). done. }
    destruct (try_fold _ s1 outs) as [s2| |]; [|done..]. destruct Hf as (Ez & Ed & Ec & Ep). cbn [mbind outcome_bind].
    unfold check_night_balance_invariant. destruct (_ =? _); [|done]. simpl. unfold ledger_wf, dust_spent. rewrite Ez, Ed. by split_and!; [..|left].
  - destruct (_ <? _); [done|]. by split_and!; [..|left].
  - destruct (_ <? _); [done|]. unfold check_night_balance_invariant. destruct (_ =? _); [|done]. by split_and!; [..|left].
  - eapply (safe_bind _ _ (cnight_post (dust s))); [apply safe_try_fold; [by split|apply cnight_action_ok]|].
    intros [d ev] [Hd' Hn]. by split_and!; [..|left].
Qed.
Lemma post_block_ok now s tb det ov :
  ledger_wf now s -> now <= tb ->
  safe (post_block_update s tb det ov) (fun s' => ledger_wf tb s' /\ dust_spent s' = dust_spent s /\ contract s' = contract s /\
    cost_model (parameters s') = cost_model (parameters s)).
Proof.
  intros (Hz & Hr & Hd & Hc) Hle. unfold post_block_update, prevalidate_post_block_update. destruct (existsb _ _); [done|].
  cbn [mbind outcome_bind]. unfold apply_post_block_update.
  destruct (post_block_spec (E := BlockLimitError) (zswap s) now tb Hz Hr Hle) as (zs & Ezs & Hz' & Hr' & _).
  pose proof (post_block_recorded _ _ _ _ Hz Hr Hle Ezs Hc). rewrite Ezs. cbn [mbind outcome_bind].
  destruct (dust_post_block_ok (E := BlockLimitError) (dust s) tb (global_ttl (parameters s)) Hd) as (d & -> & Hd' & Hn).
  by split_and!.
Qed.

(** ** Runs of a node

    Transactions without a whitelist, system transactions, and block ends at
    times that do not decrease. *)
Definition node_action (now : Z) (a : LedgerAction) : Prop :=
  match a with ApplyTx _ ctx => whitelist ctx = None | ApplySystem _ _ => True | EndBlock t _ _ => now <= t end.
Definition next_time (now : Z) (a : LedgerAction) : Z := match a with EndBlock t _ _ => t | _ => now end.
Inductive node_step : Z * LedgerState -> Z * LedgerState -> Prop :=
| node_step_intro now s a s' : node_action now a -> ledger_step s a = Some s' -> node_step (now, s) (next_time now a, s').
Definition node_reachable (ns : Z * LedgerState) : Prop := exists s0, genesis s0 /\ rtc node_step (0, s0) ns.

Lemma node_step_ok ns ns' :
  node_step ns ns' -> ledger_wf ns.1 ns.2 -> ledger_wf ns'.1 ns'.2 /\ dust_spent ns.2 ⊆ dust_spent ns'.2.
Proof.
  destruct 1 as [now s a s' Ha Hs]; simpl. intros Hwf. destruct a as [tx ctx|tx tb|tb d o]; simpl in *.
  - apply fmap_Some in Hs as ([s1 r] & Hx%to_option_Some & ->). destruct (apply_keeps now s tx ctx _ Hwf Ha Hx) as (? & _ & ? & _).
    by split.
  - apply fmap_Some in Hs as ([s1 r] & Hx%to_option_Some & ->). pose proof (apply_system_ok now s tx tb Hwf) as Hp.
    rewrite Hx in Hp. by destruct Hp as (? & ? & _).
  - apply to_option_Some in Hs. pose proof (post_block_ok now s tb d o Hwf Ha) as Hp. rewrite Hs in Hp.
    destruct Hp as (? & -> & _). by split.
Qed.
Lemma node_run_ok ns ns' :
  rtc node_step ns ns' -> ledger_wf ns.1 ns.2 -> ledger_wf ns'.1 ns'.2 /\ dust_spent ns.2 ⊆ dust_spent ns'.2.
Proof.
  induction 1 as [ns|n1 n2 n3 K1 _ IH]; intros Hwf; [by split|].
  destruct (node_step_ok _ _ K1 Hwf) as [Hwf2 Hn]. destruct (IH Hwf2) as [? ?]. split; [done|by etrans].
Qed.
Lemma node_reachable_ok ns : node_reachable ns -> ledger_wf ns.1 ns.2.
Proof.
  intros (s0 & (id & p & l & r & t & Hg) & Hr). apply (node_run_ok _ _ Hr). unfold with_genesis_settings in Hg.
  apply bind_Ok_inv in Hg as (? & _ & Hg). injection Hg as <-. unfold ledger_wf. simpl.
  split_and!; [apply zswap_default_wf|by intros ts [? [=]]|apply dust_default_wf|apply default_recorded].
Qed.

(** C6: Every state a node that records everything (no whitelist) reaches is
    well-formed.  The coin tree holds genuine hashes and is filled from the
    left: every leaf below [first_free] holds a commitment of the coin set, no
    leaf from there on is occupied, and each commitment of the set is at
    exactly one leaf.  Both Dust trees are filled from the left in the same
    way and agree with the sets and indices kept beside them, and no recorded
    coin root is from the future. *)
Theorem ledger_invariant now s : node_reachable (now, s) -> ledger_wf now s.
Proof. apply (node_reachable_ok (now, s)). Qed.

(** C3: No Dust output is spent twice by a node that records everything (no
    whitelist).  Once a transaction that spends the nullifier was accepted, any later transaction that spends it too fails and
    leaves the state as it is, however many blocks passed in between. *)
Theorem dust_no_double_spend now1 s1 tx1 ctx1 s2 r1 now3 s3 tx2 ctx2 s4 r2 n :
  node_reachable (now1, s1) -> whitelist ctx1 = None -> apply (E := Empty_set) s1 tx1 ctx1 = Ok (s2, r1) -> accepted r1 ->
  n ∈ spends_of tx1 -> rtc node_step (now1, s2) (now3, s3) ->
  whitelist ctx2 = None -> apply (E := Empty_set) s3 tx2 ctx2 = Ok (s4, r2) -> n ∈ spends_of tx2 ->
  s4 = s3 /\ exists e, r2 = Failure e.
Proof.
  intros Hwf%node_reachable_ok Hw1 K1 Ha Hn1 Hrun Hw2 K2 Hn2. simpl in Hwf.
  destruct (apply_keeps _ _ _ _ _ Hwf Hw1 K1) as (Hwf2 & _ & _ & _ & Hsp).
  destruct (Hsp Ha n Hn1) as [_ Hin]. destruct (node_run_ok _ _ Hrun Hwf2) as [Hwf3 Hsub]. simpl in *. apply Hsub in Hin.
  destruct (apply_keeps _ _ _ _ _ Hwf3 Hw2 K2) as (_ & _ & _ & _ & Hsp2).
  destruct r2 as [ev|res ev|e]; [by destruct (Hsp2 I n Hn2)..|]. split; [|by eexists].
  unfold spends_of in Hn2. destruct (inner tx2) as [stx|] eqn:Htx; [|by apply elem_of_nil in Hn2].
  pose proof (apply_standard _ _ _ _ _ _ Htx K2) as Hf. apply Hf.
Qed.
End invariant.

(** ** Examples *)
From S2P Require Import RuntimeProps ToyLedger.

(** A transaction that spends a Dust output, a block end, and another
    transaction that spends the same output. *)
Definition toy_dust_tx (t : Z) : VerifiedTransaction :=
  toy_tx {[ 1 := toy_intent_with None
                   (Some {| spends := [{| v_fee := 10; old_nullifier := 5; new_commitment := t |}]; registrations := []; da_ctime := t |}) t ]}.
Definition toy_result (s : LedgerState) (t : Z) : LedgerState * TransactionResult :=
  match apply (E := Empty_set) s (toy_dust_tx (t + 500)) (toy_tx_context t) with Ok r => r | _ => (s, Success []) end.
Definition toy_spent : LedgerState := (toy_result toy_genesis 1000).1.
Definition toy_next : LedgerState := default toy_spent (ledger_step toy_spent (EndBlock 1100 NormalizedCost_ZERO 0)).
Lemma toy_spent_reachable : node_reachable (0, toy_spent).
Proof.
  exists toy_genesis. split; [apply toy_genesis_ok|]. apply rtc_once.
  apply (node_step_intro 0 toy_genesis (ApplyTx (toy_dust_tx 1500) (toy_tx_context 1000))); [reflexivity|vm_compute; reflexivity].
Qed.
Lemma toy_next_step : node_step (0, toy_spent) (1100, toy_next).
Proof. apply (node_step_intro 0 toy_spent (EndBlock 1100 NormalizedCost_ZERO 0)); [vm_compute; discriminate|vm_compute; reflexivity]. Qed.
Lemma toy_next_reachable : node_reachable (1100, toy_next).
Proof.
  destruct toy_spent_reachable as (s0 & Hg & Hr). exists s0. split; [done|]. eapply rtc_r; [exact Hr|apply toy_next_step].
Qed.

Lemma ledger_invariant_witness : bool_decide (5 ∈ dust_spent toy_next) = true /\ ledger_wf 1100 toy_next.
Proof. split; [vm_compute; reflexivity|]. apply (ledger_invariant 1100 toy_next), toy_next_reachable. Defined.
Lemma dust_no_double_spend_witness :
  (toy_result toy_next 1200).1 = toy_next /\ exists e, (toy_result toy_next 1200).2 = Failure e.
Proof.
  apply (dust_no_double_spend 0 toy_genesis (toy_dust_tx 1500) (toy_tx_context 1000) toy_spent (toy_result toy_genesis 1000).2
           1100 toy_next (toy_dust_tx 1700) (toy_tx_context 1200) (toy_result toy_next 1200).1 (toy_result toy_next 1200).2 5).
  - exists toy_genesis. split; [apply toy_genesis_ok|apply rtc_refl].
  - reflexivity.
  - vm_compute. reflexivity.
  - vm_compute. exact I.
  - vm_compute. left.
  - apply rtc_once, toy_next_step.
  - reflexivity.
  - vm_compute. reflexivity.
  - vm_compute. left.
Defined.
