(* ===== verification/LedgerTotal.v ===== *)
(** * The ledger does not panic ([ledger/src/semantics.rs])

    Contract calls run in the context that [ContractCall::context] builds from
    the ledger, the block and the intent.  That context is well-formed, so that
    the virtual machine does not panic, and every state a call writes back is
    again one the next call can start from. *)
From S2P Require Import Prelude Time CostModel Fab FabSerial MerkleTree TimeFilterMap Zswap ZswapProps StateValue VmOps Vm VmSafety.
From S2P Require Import VmProps Coin DeltaTracking DeltaProps Runtime RuntimeProps LedgerData LedgerCost Dust DustProps Ledger.
From S2P Require Import ReplayProps LedgerProps LedgerInv.
Set Warnings "-register-all".

(** What the ledger relies on: the hash of a verifying key is a hash, and the
    arena keeps the nodes that a state is charged for, so that reference counts
    that are exact where the state was written are so wherever the next state is
    allocated. *)
Class LedgerLaws `{LedgerHashing} {SA : StateArena} : Prop := {
  vk_address_wf k : hash_wf (vk_address k);
  arena_keeps m new cs : vwf new -> rc_exact (arena_nodes m new) (charged_keys cs) -> arena_ok cs }.

Section total.
Context `{LedgerHashing} `{Hashing} `{!Sizes} `{!SystemHashing} {FO : FieldOrder} {FL : FieldOrderLaws}.
Context {SS : StateStorage} {SSL : StateStorageLaws SS} {SA : StateArena} {LL : LedgerLaws}.
Implicit Types s : LedgerState.
#[local] Set Default Proof Using "All".

(** ** Values of the types of the code

    Fields of records hold values in the range of their machine type, programs
    hold well-formed literals, and the reference counts of a deployed state are
    those of its nodes. *)
Definition contract_ok (c : ContractState) : Prop :=
  vwf (cs_state (cst_data c)) /\ arena_ok (cst_data c) /\
  map_Forall (fun k v => TokenType_wf k /\ is_u128 v) (cst_balance c).
Definition contracts_ok (cs : gmap ContractAddress ContractState) : Prop := map_Forall (fun _ => contract_ok) cs.
Definition params_typed (p : LedgerParameters) : Prop := params_ok p /\ cm_wf (runtime_cost_model (cost_model p)).
Definition transcript_typed (t : Transcript) : Prop :=
  Forall op_wf (t_program t) /\ within (Some (t_gas t)) RunningCost_ZERO /\ Effects_wf (t_effects t).
Definition call_typed (c : ContractCall) : Prop :=
  hash_wf (call_address c) /\
  forall t, guaranteed_transcript c = Some t \/ fallible_transcript c = Some t -> transcript_typed t.
Definition action_typed (a : ContractAction) : Prop :=
  match a with Call c => call_typed c | Deploy d => contract_ok (initial_state d) | Maintain _ => True end.
Definition block_typed (b : BlockContext) : Prop :=
  is_u64 (tblock b) /\ is_u32 (tblock_err b) /\ hash_wf (parent_block_hash b) /\ is_u64 (last_block_time b).
Definition offer_typed (o : option Offer) : Prop := forall o', o = Some o' -> Forall hash_wf (offer_coms o').
Definition standard_typed (stx : StandardTransaction) : Prop :=
  map_Forall (fun _ it => Forall action_typed (actions it)) (intents stx) /\
  offer_typed (guaranteed_coins stx) /\ forall seg, offer_typed (fallible_coins stx !! seg).
Definition tx_typed (tx : VerifiedTransaction) : Prop :=
  match inner tx with Standard stx => standard_typed stx | ClaimRewards _ => True end.

(** ** One call *)
Lemma tx_indices_wf stx ind : standard_typed stx -> tx_indices stx ind -> map_Forall (fun c i => hash_wf c /\ is_u64 i) ind.
Proof.
  intros (_ & Hg & Hf) (o & Ho & Hin) c i Hi. destruct (Ho c i Hi) as (Hr & o' & -> & Hc).
  assert (Hall : Forall hash_wf (offer_coms o')) by (destruct Hin as [E|[seg E]]; [by apply Hg|by apply (Hf seg)]).
  split; [by eapply list.Forall_forall in Hall|]. unfold is_u64, in_u, u64_max. lia.
Qed.
Lemma caller_wf it call :
  Forall action_typed (actions it) ->
  match (match caller_contract it call with Some a => Some a | None => caller_user it end) with Some a => PublicAddress_wf a | None => True end.
Proof.
  intros Hty. unfold caller_contract. destruct (find _ _) as [c|] eqn:Hf; cbn.
  - apply find_some in Hf as [Hin%list_elem_of_In _]. unfold intent_calls in Hin. apply list_elem_of_omap in Hin as (a & Ha & Hc).
    eapply list.Forall_forall in Hty; [|exact Ha]. destruct a; try done. injection Hc as ->. apply Hty.
  - unfold caller_user. destruct (us_owner <$> _) as [|k ks]; [done|]. destruct (forallb _ _); [|done]. apply vk_address_wf.
Qed.
Lemma balance_fold_ok (f : gmap TokenType Z -> TokenType * Z -> outcome TransactionInvalid (gmap TokenType Z)) m b :
  (forall b tv, map_Forall (fun k v => TokenType_wf k /\ is_u128 v) b -> TokenType_wf tv.1 -> is_u128 tv.2 ->
     safe (f b tv) (map_Forall (fun k v => TokenType_wf k /\ is_u128 v))) ->
  map_Forall (fun k v => TokenType_wf k /\ is_u128 v) m -> map_Forall (fun k v => TokenType_wf k /\ is_u128 v) b ->
  safe (try_fold f b (map_to_list m)) (map_Forall (fun k v => TokenType_wf k /\ is_u128 v)).
Proof.
  intros Hf Hm%map_Forall_to_list Hb. revert b Hb. induction Hm as [|[k v] l [Hk Hv] _ IH]; intros b Hb; [done|]. cbn [try_fold].
  eapply safe_bind; [by apply Hf|exact IH].
Qed.
Lemma balance_default_u128 (b : gmap TokenType Z) k :
  map_Forall (fun k v => TokenType_wf k /\ is_u128 v) b -> is_u128 (default 0 (b !! k)).
Proof. intros Hb. destruct (b !! k) eqn:E; [by apply Hb in E as [_ ?]|]. cbn. ints. Qed.
Lemma balance_add_ok b tv :
  map_Forall (fun k v => TokenType_wf k /\ is_u128 v) b -> TokenType_wf tv.1 -> is_u128 tv.2 ->
  safe (balance_add b tv) (map_Forall (fun k v => TokenType_wf k /\ is_u128 v)).
Proof.
  intros Hb Hk Hv. pose proof (balance_default_u128 b tv.1 Hb) as Hd. unfold balance_add, checked_add.
  destruct (Z.leb_spec (default 0 (b !! tv.1) + tv.2) u128_max) as [Hle|]; cbn; [|done].
  apply map_Forall_insert_2; [|done]. split; [done|]. unfold is_u128, in_u in *. lia.
Qed.
Lemma balance_sub_ok b tv :
  map_Forall (fun k v => TokenType_wf k /\ is_u128 v) b -> TokenType_wf tv.1 -> is_u128 tv.2 ->
  safe (balance_sub b tv) (map_Forall (fun k v => TokenType_wf k /\ is_u128 v)).
Proof.
  intros Hb Hk Hv. pose proof (balance_default_u128 b tv.1 Hb) as Hd. unfold balance_sub, checked_sub.
  destruct (Z.leb_spec tv.2 (default 0 (b !! tv.1))) as [Hle|]; cbn; [|done].
  apply map_Forall_insert_2; [|done]. split; [done|]. unfold is_u128, in_u in *. lia.
Qed.

(** The context a call runs in is well-formed. *)
Lemma call_context_wf it call b c ind :
  Forall action_typed (actions it) -> block_typed b -> contract_ok c -> map_Forall (fun c i => hash_wf c /\ is_u64 i) ind ->
  CallContext_wf (contract_call_context call b it c ind).
Proof.
  intros Hty (? & ? & ? & ?) (_ & _ & ?) ?. split; cbn; try done. by apply caller_wf.
Qed.
(** The charged state a query returns comes from the update of the old one. *)
Lemma run_transcript_ok qc t cm :
  cm_wf cm -> transcript_typed t -> QueryContext_wf qc -> arena_ok (qc_state qc) ->
  safe (run_transcript qc t cm) (fun r => let cs := qc_state (qr_context r) in vwf (cs_state cs) /\ arena_ok cs).
Proof.
  intros Hcm (Hp & Hl & _) Hq Har. pose proof (query_safe qc (t_program t) (Some (t_gas t)) cm Hcm Hl Hq Har Hp) as Hs.
  unfold run_transcript. destruct (query _ _ _ _) as [r| |]; [|done..]. destruct Hs as (Hv & Hex & _). split; [done|].
  by eapply arena_keeps.
Qed.
Lemma apply_call_ok g ctx it ind src cm s call :
  cm_wf cm -> Forall action_typed (actions it) -> call_typed call -> block_typed (block_context ctx) ->
  map_Forall (fun c i => hash_wf c /\ is_u64 i) ind -> contracts_ok (contract s) ->
  safe (apply_call g ctx it ind src cm s call) (fun r => contracts_ok (contract r.1)).
Proof.
  intros Hcm Hty [Ha Ht] Hb Hi Hcs. unfold apply_call. destruct (whitelist_matches _ _); cbn [negb]; [|done].
  destruct (contract s !! call_address call) as [c|] eqn:Hc; [|done]. pose proof (Hcs _ _ Hc) as Hok.
  destruct (if g then _ else _) as [t|] eqn:Htr; [|done]. assert (Htt : transcript_typed t) by (apply Ht; destruct g; auto).
  pose proof Hok as (Hv & Har & Hbal). pose proof Htt as (_ & _ & Heff).
  eapply safe_bind; [apply safe_map_err, run_transcript_ok; [done|done| |done]|].
  { split; cbn; [done| |done|by apply call_context_wf]. split; cbn; first [apply set_Forall_empty|apply map_Forall_empty]. }
  intros r [Hv' Har']. case_bool_decide; [|done].
  eapply safe_bind; [apply (balance_fold_ok balance_add); [apply balance_add_ok|apply Heff|exact Hbal]|]. intros b1 Hb1.
  eapply safe_bind; [apply (balance_fold_ok balance_sub); [apply balance_sub_ok|apply Heff|exact Hb1]|]. intros b2 Hb2.
  unfold update_index. rewrite Hc. cbn. apply map_Forall_insert_2; [|done]. by split_and!.
Qed.
Lemma apply_update_ok c u : contract_ok c -> safe (apply_update c u) contract_ok.
Proof.
  intros Hc. destruct u as [a|ep v|ep vk]; cbn; [done| |].
  - unfold ok_or. by destruct (operations c !! ep).
  - by destruct (version_has _ _).
Qed.
Lemma apply_maintain_ok g ctx s u :
  contracts_ok (contract s) -> safe (apply_maintain g ctx s u) (fun r => contracts_ok (contract r.1)).
Proof.
  intros Hcs. unfold apply_maintain. destruct (_ || g); [done|]. unfold ok_or.
  destruct (contract s !! mu_address u) as [c|] eqn:Hc; cbn [mbind outcome_bind]; [|done]. destruct (_ =? _); [|done].
  eapply (safe_bind _ _ contract_ok); [apply safe_try_fold; [exact (Hcs _ _ Hc)|intros; by apply apply_update_ok]|].
  intros c' Hc'. cbn. by apply map_Forall_insert_2.
Qed.
(** The contract actions of a typed transaction never panic and leave contracts
    that the next ones can run on. *)
Lemma actions_total p stx ctx :
  params_typed p -> standard_typed stx -> block_typed (block_context ctx) -> actions_safe False contracts_ok p stx ctx.
Proof.
  intros [_ Hcm] Hty Hb s si g ind src <- Hsi Hcs Hind%(tx_indices_wf _ _ Hty).
  assert (Hit : Forall action_typed (actions si.2)).
  { destruct Hty as [Hty _]. destruct si as [seg it]. unfold sorted_map in Hsi.
    rewrite (sorting.merge_sort_Permutation key_le), elem_of_map_to_list in Hsi. exact (Hty _ _ Hsi). }
  apply safe_or_safe. unfold apply_actions.
  assert (Hfold : forall acts acc, Forall action_typed acts -> contracts_ok (contract acc.1) ->
    safe (try_fold (apply_action g ctx si.2 ind src (runtime_cost_model (cost_model (parameters s)))) acc acts) (fun r => contracts_ok (contract r.1))).
  { induction acts as [|a acts IH]; intros acc Hacts Hacc; [done|]. apply Forall_cons_1 in Hacts as [Ha Hacts]. cbn [try_fold].
    eapply (safe_bind _ _ (fun r => contracts_ok (contract r.1))); [|by intros r Hr; apply IH]. unfold apply_action.
    eapply (safe_bind _ _ (fun r => contracts_ok (contract r.1))); [|by intros [s1 e1] Hr]. destruct a as [c|d|u].
    - by apply apply_call_ok.
    - unfold apply_deploy. destruct (_ || g); [done|]. case_bool_decide; [done|]. cbn. by apply map_Forall_insert_2.
    - by apply apply_maintain_ok. }
  by apply Hfold.
Qed.

(** ** Runs *)
Definition typed_action (a : LedgerAction) : Prop :=
  match a with
  | ApplyTx tx ctx => tx_typed tx /\ block_typed (block_context ctx)
  | ApplySystem tx _ => match tx with OverwriteParameters p => params_typed p | _ => True end
  | EndBlock _ _ _ => True
  end.
Inductive typed_step : Z * LedgerState -> Z * LedgerState -> Prop :=
| typed_step_intro now s a s' :
    node_action now a -> typed_action a -> ledger_step s a = Some s' -> typed_step (now, s) (next_time now a, s').
(** The states a node that records everything reaches from a genesis by
    actions of the types of the code. *)
Definition typed_reachable (ns : Z * LedgerState) : Prop :=
  exists s0, genesis s0 /\ params_typed (parameters s0) /\ rtc typed_step (0, s0) ns.
Definition total_inv (ns : Z * LedgerState) : Prop :=
  ledger_wf ns.1 ns.2 /\ contracts_ok (contract ns.2) /\ params_typed (parameters ns.2).

Lemma apply_total {E : Type} now s tx ctx :
  total_inv (now, s) -> whitelist ctx = None -> tx_typed tx -> block_typed (block_context ctx) ->
  safe_or False (apply (E := E) s tx ctx) (fun sr => total_inv (now, sr.1)).
Proof.
  intros (Hwf & Hcs & Hp) Hwl Htx Hb. eapply safe_or_mono; [apply (apply_ok False contracts_ok now s tx ctx)|done|].
  - left. apply Hp.
  - unfold tx_safe, tx_typed in *. destruct (inner tx); [by apply actions_total|done].
  - done.
  - done.
  - done.
  - intros sr _ (? & Hpp & _ & ? & _). split_and!; [done|done|]. cbn in *. by rewrite Hpp.
Qed.
Lemma system_total now s tx tb :
  total_inv (now, s) -> typed_action (ApplySystem tx tb) -> safe (apply_system_tx s tx tb) (fun r => total_inv (now, r.1)).
Proof.
  intros (Hwf & Hcs & Hp) Hty. pose proof (apply_system_ok now s tx tb Hwf) as Hs.
  destruct (apply_system_tx s tx tb) as [[s1 ev]| |]; [|done..]. destruct Hs as (? & _ & Hc & Hpp). cbn in *.
  split_and!; [done|by cbn; rewrite Hc|]. cbn. destruct Hpp as [->|(p & -> & ->)]; done.
Qed.
Lemma block_total now s tb d o :
  total_inv (now, s) -> now <= tb -> safe (post_block_update s tb d o) (fun s' => total_inv (tb, s')).
Proof.
  intros (Hwf & Hcs & Hp) Hle. pose proof (post_block_ok now s tb d o Hwf Hle) as Hs.
  destruct (post_block_update s tb d o) as [s1| |]; [|done..]. destruct Hs as (? & _ & Hc & Hm).
  split_and!; [done|by cbn; rewrite Hc|]. unfold params_typed, params_ok in *. cbn in *. by rewrite Hm.
Qed.
Lemma typed_step_inv ns ns' : typed_step ns ns' -> total_inv ns -> total_inv ns'.
Proof.
  destruct 1 as [now s a s' Ha Hty Hs]. intros Hi. destruct a as [tx ctx|tx tb|tb d o]; cbn [ledger_step next_time] in *.
  - apply fmap_Some in Hs as ([s1 r] & Hx%to_option_Some & ->). destruct Hty as [Htx Hb].
    pose proof (apply_total (E := Empty_set) now s tx ctx Hi Ha Htx Hb) as Hp. by rewrite Hx in Hp.
  - apply fmap_Some in Hs as ([s1 r] & Hx%to_option_Some & ->). pose proof (system_total now s tx tb Hi Hty) as Hp. by rewrite Hx in Hp.
  - apply to_option_Some in Hs. pose proof (block_total now s tb d o Hi Ha) as Hp. by rewrite Hs in Hp.
Qed.
Lemma typed_reachable_inv ns : typed_reachable ns -> total_inv ns.
Proof.
  intros (s0 & Hg & Hp & Hrun). assert (Hi : total_inv (0, s0)).
  { split; [apply (node_reachable_ok (0, s0)); exists s0; by split|]. split; [|done].
    destruct Hg as (id & p & l & r & t & Hg). unfold with_genesis_settings in Hg. apply bind_Ok_inv in Hg as (? & _ & Hg).
    injection Hg as <-. apply map_Forall_empty. }
  clear Hg Hp. remember (0, s0) as n0 eqn:E. clear E. induction Hrun as [|n1 n2 n3 K1 _ IH]; [done|]. by apply IH, (typed_step_inv n1).
Qed.

End total.

(** ** Examples *)
From S2P Require Import ToyLedger.
#[local] Existing Instance toy_storage_laws.
#[local] Existing Instance toy_field_laws.

(** In the arena of the examples no node is ever referred to. *)
Lemma empty_kids k : loadable (∅ : Backend) k -> kids ∅ k = [].
Proof.
  intros [_ Hk]. destruct (kids ∅ k) as [|h l]; [done|]. destruct (Hk h) as [n Hn]; [left|]. by rewrite lookup_empty in Hn.
Qed.
Lemma toy_laws : LedgerLaws.
Proof.
  split.
  - intros k. cbn. apply toy_hash_wf. unfold is_u8, in_u, u8_max. pose proof (Z.mod_pos_bound k 256). lia.
  - intros m new0 cs _ Hex new _. cbn [as_child arena_nodes toy_arena] in *.
    assert (Hl : loadable (∅ : Backend) (AK_Direct [] [] [])) by (split; [by eexists|set_solver]).
    assert (Hcl : backend_closed (∅ : Backend)) by (by intros h [n Hn]). split_and!; [done..|].
    intros A HA h. destruct (get_writes_ok (E := TranscriptRejected) ∅ (charged_keys cs) [AK_Direct [] [] []] Hcl (Forall_singleton_2 _ _ Hl)) as (A' & HA' & Hin).
    rewrite HA' in HA. injection HA as <-. destruct (Z.lt_ge_cases 0 (indeg ∅ (charged (charged_keys cs) ∪ A') h)) as [Hpos|]; [|ints].
    apply indeg_pos in Hpos as (k & [Hk|Hk]%elem_of_union & Hh); exfalso.
    + rewrite (empty_kids k) in Hh by (by apply (re_load _ _ Hex)). by apply elem_of_nil in Hh.
    + apply Hin in Hk. rewrite (empty_kids k) in Hh; [by apply elem_of_nil in Hh|]. clear Hh.
      induction Hk as [k Hr%list_elem_of_singleton _|k c _ IH (h' & -> & Hc) _]; [by subst|]. by apply (kid_loadable _ h' k).
Qed.
#[local] Existing Instance toy_laws.

(** A contract is deployed and then called: the call replaces its state by a
    cell. *)
Definition toy_empty_contract : ContractState := {|
  cst_data := toy_charged; operations := ∅; maintenance_authority := ContractMaintenanceAuthority_new; cst_balance := ∅ |}.
Definition toy_action_tx (a : ContractAction) (t : Z) : VerifiedTransaction :=
  toy_tx {[ 1 := {| guaranteed_unshielded_offer := None; fallible_unshielded_offer := None; actions := [a]; dust_actions := None;
                    ttl := t; binding_commitment := tt |} ]}.
Definition toy_deploy_tx : VerifiedTransaction := toy_action_tx (Deploy {| initial_state := toy_empty_contract; deploy_nonce := toy_hash 9 |}) 1500.
Definition toy_transcript : Transcript := {|
  t_gas := toy_gas 1000; t_effects := Effects_default; t_program := toy_call; t_version := None |}.
Definition toy_call_tx : VerifiedTransaction := toy_action_tx (Call {|
  call_address := toy_hash 9; call_entry_point := []; guaranteed_transcript := Some toy_transcript;
  fallible_transcript := None; communication_commitment := 0 |}) 1600.
Definition toy_with_contract : LedgerState := default toy_genesis (ledger_step toy_genesis (ApplyTx toy_deploy_tx (toy_tx_context 1000))).
Lemma toy_empty_contract_ok : contract_ok toy_empty_contract.
Proof. split_and!; [constructor|apply toy_arena_ok|apply map_Forall_empty]. Qed.
Lemma toy_transcript_typed : transcript_typed toy_transcript.
Proof.
  split_and!; [apply toy_call_wf|by vm_compute|]. split; cbn; first [apply set_Forall_empty|apply map_Forall_empty].
Qed.
Lemma toy_action_typed a t : action_typed a -> tx_typed (toy_action_tx a t).
Proof.
  intros Ha. split_and!; cbn; [|by intros o|by intros seg o; rewrite lookup_empty]. apply map_Forall_singleton. by apply Forall_singleton_2.
Qed.
Lemma toy_block_typed t : is_u64 t -> block_typed (toy_block t).
Proof. intros Ht. split_and!; cbn; [done|ints|apply toy_hash_wf; ints|ints]. Qed.
Lemma toy_with_contract_reachable : typed_reachable (0, toy_with_contract).
Proof.
  exists toy_genesis. split; [apply toy_genesis_ok|]. split; [split; [vm_compute; discriminate|apply INITIAL_COST_MODEL_wf]|]. apply rtc_once.
  apply (typed_step_intro 0 toy_genesis (ApplyTx toy_deploy_tx (toy_tx_context 1000))); [done| |by vm_compute].
  split; [apply toy_action_typed, toy_empty_contract_ok|apply toy_block_typed; ints].
Qed.
Definition toy_called : LedgerState := default toy_with_contract (ledger_step toy_with_contract (ApplyTx toy_call_tx (toy_tx_context 1100))).
