(* ===== verification/VerifyData.v ===== *)
(** * Transactions with proofs and signatures ([ledger/src/structure.rs], [error.rs])

    Well-formedness is checked on sealed transactions, which carry proofs,
    signatures and binding commitments; what is applied is their erased form.
    Error values carry the offending item; the collections printed in messages
    are left out. *)
From S2P Require Import Prelude Time CostModel Fab FabSerial Scale MerkleTree TimeFilterMap Zswap StateValue VmOps.
From S2P Require Import Coin DeltaTracking Runtime LedgerData LedgerCost Dust Ledger.
Set Warnings "-register-all".

(** ** Cryptography

    Curve points, proofs and signatures belong to external libraries.  The
    derived orders on them are only used to require sorted lists. *)
Class ProofSystem `{KeyTypes} := {
  Proof : Type;
  Binding : Type;
  Proof_eq_dec :: EqDecision Proof;
  Pedersen_eq_dec :: EqDecision Pedersen;
  CoinCiphertext_eq_dec :: EqDecision CoinCiphertext;
  proof_compare : Proof -> Proof -> comparison;
  pedersen_compare : Pedersen -> Pedersen -> comparison;
  ciphertext_compare : CoinCiphertext -> CoinCiphertext -> comparison;
  key_compare : VerifyingKey -> VerifyingKey -> comparison;
  pedersen_zero : Pedersen;
  pedersen_add : Pedersen -> Pedersen -> Pedersen;
  pedersen_neg : Pedersen -> Pedersen;
  pedersen_mul : Pedersen -> Z -> Pedersen;
  pedersen_generator : Pedersen;
  (** [hash_to_curve] of a token type and a segment. *)
  token_base : ShieldedTokenType -> Segment -> Pedersen;
  (** [PedersenDowngradeable] for [PureGeneratorPedersen]. *)
  downgrade : Binding -> Pedersen;
  binding_valid : Binding -> list Z -> bool;
  signature_verify : list Z -> VerifyingKey -> SignatureT -> bool;
  vk_verify : VerifierKey -> Proof -> list Fr -> bool;
  zswap_spend_vk : VerifierKey;
  zswap_output_vk : VerifierKey;
  dust_spend_vk : VerifierKey;
}.

(** ** Errors *)
Inductive MalformedOffer `{KeyTypes} :=
| InvalidOfferProof
| ContractSentCiphertext (address : ContractAddress) (ciphertext : CoinCiphertext)
| NonDisjointCoinMerge
| OfferNotNormalized.
Inductive MalformedContractDeploy :=
| NonZeroBalance (balance : gmap TokenType Z)
| IncorrectChargedState.
Inductive SequencingCheckError :=
| CallSequencingViolation (call_predecessor call_successor : Z) (predecessor_address successor_address : ContractAddress)
| SequencingCorrelationViolation (address_1 address_2 : ContractAddress) (call_position_1 call_position_2 : Z)
| GuaranteedInFallibleContextViolation (caller callee : Z) (caller_address callee_address : ContractAddress)
| FallibleInGuaranteedContextViolation (caller callee : Z) (caller_address callee_address : ContractAddress)
| CausalityConstraintViolation (call_predecessor call_successor : Z) (predecessor_address successor_address : ContractAddress)
    (segment_predecessor segment_successor : Segment)
| CallHasEmptyTranscripts (segment_id : Segment) (addr : ContractAddress) (call_index : Z).
Inductive DisjointCheckError :=
| ShieldedInputsDisjointFailure
| ShieldedOutputsDisjointFailure
| UnshieldedInputsDisjointFailure.
Inductive EffectsCheckError :=
| RealCallsSubsetCheckFailure
| AllCommitmentsSubsetCheckFailure
| RealUnshieldedSpendsSubsetCheckFailure
| ClaimedUnshieldedSpendsUniquenessFailure
| ClaimedCallsUniquenessFailure
| NullifiersNEClaimedNullifiers
| CommitmentsNEClaimedShieldedReceives.
(** The variants that verification and merging return. *)
Inductive MalformedTransaction `{KeyTypes} :=
| InvalidNetworkId (expected found : string)
| VerifierKeyNotSet (address : ContractAddress) (operation : EntryPointBuf)
| TransactionTooLarge (tx_size limit : Z)
| VerifierKeyNotPresent (address : ContractAddress) (operation : EntryPointBuf)
| MT_ContractNotPresent (address : ContractAddress)
| InvalidProof
| NotNormalized
| FallibleWithoutCheckpoint
| IllegallyDeclaredGuaranteed
| InvalidSchnorrProof
| MT_Zswap (err : MalformedOffer)
| FeeCalculation (err : FeeCalculationError)
| CantMergeTypes
| KeyNotInCommittee (address : ContractAddress) (key_id : Z)
| InvalidCommitteeSignature (address : ContractAddress) (key_id : Z)
| InvalidDustRegistrationSignature (registration : DustRegistration)
| InvalidDustSpendProof (declared_time : Z) (dust_spend : DustSpend)
| OutOfDustValidityWindow (dust_ctime validity_start validity_end : Z)
| MultipleDustRegistrationsForKey (key : VerifyingKey)
| InsufficientDustForRegistrationFee (registration : DustRegistration) (available_dust : Z)
| ThresholdMissed (address : ContractAddress) (signatures threshold : Z)
| MT_ContractDeploy (err : MalformedContractDeploy)
| IntentSignatureVerificationFailure
| IntentSegmentIdCollision (segment : Segment)
| IntentAtGuaranteedSegmentId
| GuaranteedTranscriptVersion
| FallibleTranscriptVersion
| MT_TransactionApplicationError (err : TransactionApplicationError)
| MT_BalanceCheckOutOfBounds (token_type : TokenType) (segment : Segment) (current_balance operation_value : Z)
    (operation : BalanceOperation)
| BalanceCheckConversionFailure (token_type : TokenType) (segment : Segment) (operation_value : Z)
| PedersenCheckFailure (expected calculated : Pedersen)
| BalanceCheckOverspend (token_type : TokenType) (segment : Segment) (overspent_value : Z)
| EffectsCheckFailure (err : EffectsCheckError)
| DisjointCheckFailure (err : DisjointCheckError)
| SequencingCheckFailure (err : SequencingCheckError)
| InputsNotSorted (inputs : list UtxoSpend)
| OutputsNotSorted (outputs : list UtxoOutput)
| DuplicateInputs (inputs : list UtxoSpend)
| InputsSignaturesLengthMismatch (inputs : list UtxoSpend).
Abbreviation check := (outcome MalformedTransaction unit).

(** A check without a result: [iter.try_for_each]. *)
Fixpoint try_for_each {E A} (f : A -> outcome E unit) (l : list A) : outcome E unit :=
  match l with
  | [] => Ok tt
  | x :: l => f x ≫= fun _ => try_for_each f l
  end.
Definition require {E} (b : bool) (e : E) : outcome E unit := if b then Ok tt else Err e.

(** ** Sealed data *)
Section sealed.
Context `{ProofSystem}.

Abbreviation SealedOffer := (ZswapOffer Pedersen Proof CoinCiphertext ShieldedTokenType).
Record SealedUnshieldedOffer := {
  suo_inputs : list UtxoSpend;
  suo_outputs : list UtxoOutput;
  suo_signatures : list SignatureT
}.
Record SealedDustSpend := { sds_spend : DustSpend; sds_proof : Proof }.
Record SealedDustRegistration := { sdr_registration : DustRegistration; sdr_signature : option SignatureT }.
Record SealedDustActions := {
  sda_spends : list SealedDustSpend;
  sda_registrations : list SealedDustRegistration;
  sda_ctime : Z
}.
Record SealedCall := { scl_call : ContractCall; scl_proof : Proof }.
Inductive SealedAction :=
| SealedCallAction (call : SealedCall)
| SealedDeployAction (deploy : ContractDeploy)
| SealedMaintainAction (upd : MaintenanceUpdate).
Record SealedIntent := {
  si_guaranteed_offer : option SealedUnshieldedOffer;
  si_fallible_offer : option SealedUnshieldedOffer;
  si_actions : list SealedAction;
  si_dust_actions : option SealedDustActions;
  si_ttl : Z;
  si_binding : Binding
}.
Record SealedStandard := {
  ss_network_id : string;
  ss_intents : gmap Segment SealedIntent;
  ss_guaranteed_coins : option SealedOffer;
  ss_fallible_coins : gmap Segment SealedOffer;
  ss_binding_randomness : Fr
}.
Record SealedClaim := { sc_claim : ClaimRewardsTransaction; sc_signature : SignatureT }.
Inductive SealedTransaction :=
| SealedStandardTx (stx : SealedStandard)
| SealedClaimTx (claim : SealedClaim).

(** [erase_proofs] and [erase_signatures]. *)
Definition erase_input (i : ZswapInput Pedersen Proof) : ZswapInput Pedersen unit := {|
  inp_nullifier := inp_nullifier i; inp_value_commitment := inp_value_commitment i;
  inp_contract_address := inp_contract_address i; inp_merkle_tree_root := inp_merkle_tree_root i; inp_proof := tt |}.
Definition erase_output (o : ZswapOutput Pedersen Proof CoinCiphertext)
    : ZswapOutput Pedersen unit CoinCiphertext := {|
  out_coin_com := out_coin_com o; out_value_commitment := out_value_commitment o;
  out_contract_address := out_contract_address o; out_ciphertext := out_ciphertext o; out_proof := tt |}.
Definition erase_transient (t : ZswapTransient Pedersen Proof CoinCiphertext)
    : ZswapTransient Pedersen unit CoinCiphertext := {|
  tr_nullifier := tr_nullifier t; tr_coin_com := tr_coin_com t; tr_value_commitment_input := tr_value_commitment_input t;
  tr_value_commitment_output := tr_value_commitment_output t; tr_contract_address := tr_contract_address t;
  tr_ciphertext := tr_ciphertext t; tr_proof_input := tt; tr_proof_output := tt |}.
Definition erase_offer (o : SealedOffer) : Offer := {|
  offer_inputs := erase_input <$> offer_inputs o; offer_outputs := erase_output <$> offer_outputs o;
  offer_transient := erase_transient <$> offer_transient o; offer_deltas := offer_deltas o |}.
Definition erase_unshielded (o : SealedUnshieldedOffer) : UnshieldedOffer := {|
  uo_inputs := suo_inputs o; uo_outputs := suo_outputs o; uo_signatures := [] |}.
Definition erase_dust_actions (da : SealedDustActions) : DustActions := {|
  spends := sds_spend <$> sda_spends da; registrations := sdr_registration <$> sda_registrations da; da_ctime := sda_ctime da |}.
Definition erase_action (a : SealedAction) : ContractAction :=
  match a with
  | SealedCallAction call => Call (scl_call call)
  | SealedDeployAction deploy => Deploy deploy
  | SealedMaintainAction upd => Maintain upd
  end.
Definition erase_intent (i : SealedIntent) : Intent := {|
  guaranteed_unshielded_offer := erase_unshielded <$> si_guaranteed_offer i;
  fallible_unshielded_offer := erase_unshielded <$> si_fallible_offer i; actions := erase_action <$> si_actions i;
  dust_actions := erase_dust_actions <$> si_dust_actions i; ttl := si_ttl i; binding_commitment := downgrade (si_binding i) |}.
Definition erase_standard (stx : SealedStandard) : StandardTransaction := {|
  network_id := ss_network_id stx; intents := erase_intent <$> ss_intents stx;
  guaranteed_coins := erase_offer <$> ss_guaranteed_coins stx; fallible_coins := erase_offer <$> ss_fallible_coins stx;
  binding_randomness := ss_binding_randomness stx |}.
Definition erase_transaction (tx : SealedTransaction) : Transaction :=
  match tx with
  | SealedStandardTx stx => Standard (erase_standard stx)
  | SealedClaimTx claim => ClaimRewards (sc_claim claim)
  end.
(** What the cost of a sealed transaction depends on, its size apart: the
    signatures of the unshielded offers are counted. *)
Definition costed_unshielded (o : SealedUnshieldedOffer) : UnshieldedOffer := {|
  uo_inputs := suo_inputs o; uo_outputs := suo_outputs o; uo_signatures := (fun _ => tt) <$> suo_signatures o |}.
Definition costed_intent (i : SealedIntent) : Intent := {|
  guaranteed_unshielded_offer := costed_unshielded <$> si_guaranteed_offer i;
  fallible_unshielded_offer := costed_unshielded <$> si_fallible_offer i; actions := erase_action <$> si_actions i;
  dust_actions := erase_dust_actions <$> si_dust_actions i; ttl := si_ttl i; binding_commitment := downgrade (si_binding i) |}.
Definition costed_transaction (tx : SealedTransaction) : Transaction :=
  match tx with
  | SealedStandardTx stx => Standard {|
      network_id := ss_network_id stx; intents := costed_intent <$> ss_intents stx;
      guaranteed_coins := erase_offer <$> ss_guaranteed_coins stx; fallible_coins := erase_offer <$> ss_fallible_coins stx;
      binding_randomness := ss_binding_randomness stx |}
  | SealedClaimTx claim => ClaimRewards (sc_claim claim)
  end.
End sealed.
Abbreviation SealedOffer := (ZswapOffer Pedersen Proof CoinCiphertext ShieldedTokenType).
Abbreviation SealedInput := (ZswapInput Pedersen Proof).
Abbreviation SealedOutput := (ZswapOutput Pedersen Proof CoinCiphertext).
Abbreviation SealedTransient := (ZswapTransient Pedersen Proof CoinCiphertext).

(** The statements that proofs are about, serialized sizes, and the data that
    signatures and binding commitments cover, are encodings of the data above. *)
Class Statements `{ProofSystem} := {
  input_statement : SealedInput -> Segment -> list Fr;
  output_statement : SealedOutput -> Segment -> list Fr;
  dust_spend_statement : DustSpend -> Segment -> Pedersen -> Z -> DustParameters -> Fr -> Fr -> list Fr;
  call_public_inputs : ContractCall -> Pedersen -> list Fr;
  challenge_pre : list ContractAction -> list Z;
  serialize_updates : list SingleUpdate -> list Z;
  serialize_verifying_key : VerifyingKey -> list Z;
  sealed_size : SealedTransaction -> Z;
  sealed_hash : SealedTransaction -> TransactionHash;
}.

(** ** Derived orders *)
Definition then_cmp (c d : comparison) : comparison := match c with Eq => d | _ => c end.
Fixpoint bytes_compare (a b : list Z) : comparison :=
  match a, b with
  | [], [] => Eq
  | [], _ :: _ => Lt
  | _ :: _, [] => Gt
  | x :: a, y :: b => then_cmp (x ?= y) (bytes_compare a b)
  end.
Definition option_compare {A} (cmp : A -> A -> comparison) (a b : option A) : comparison :=
  match a, b with
  | None, None => Eq
  | None, Some _ => Lt
  | Some _, None => Gt
  | Some x, Some y => cmp x y
  end.
(** [slice.windows(2).all(..)]. *)
Fixpoint windows_all {A} (p : A -> A -> bool) (l : list A) : bool :=
  match l with
  | x :: (y :: _) as l' => p x y && windows_all p l'
  | _ => true
  end.
Definition not_greater (c : comparison) : bool := match c with Gt => false | _ => true end.
Definition is_sorted {A} (cmp : A -> A -> comparison) (l : list A) : bool := windows_all (fun x y => not_greater (cmp x y)) l.
Section orders.
Context `{ProofSystem}.

Definition spend_compare (a b : UtxoSpend) : comparison :=
  then_cmp (us_value a ?= us_value b) (then_cmp (key_compare (us_owner a) (us_owner b))
    (then_cmp (bytes_compare (us_type a) (us_type b)) (then_cmp (bytes_compare (us_intent_hash a) (us_intent_hash b))
      (us_output_no a ?= us_output_no b)))).
Definition output_compare (a b : UtxoOutput) : comparison :=
  then_cmp (uout_value a ?= uout_value b) (then_cmp (bytes_compare (uout_owner a) (uout_owner b))
    (bytes_compare (uout_type a) (uout_type b))).
Definition zswap_input_compare (a b : SealedInput) : comparison :=
  then_cmp (bytes_compare (inp_nullifier a) (inp_nullifier b))
    (then_cmp (pedersen_compare (inp_value_commitment a) (inp_value_commitment b))
      (then_cmp (option_compare bytes_compare (inp_contract_address a) (inp_contract_address b))
        (then_cmp (inp_merkle_tree_root a ?= inp_merkle_tree_root b) (proof_compare (inp_proof a) (inp_proof b))))).
Definition zswap_output_compare (a b : SealedOutput) : comparison :=
  then_cmp (bytes_compare (out_coin_com a) (out_coin_com b))
    (then_cmp (pedersen_compare (out_value_commitment a) (out_value_commitment b))
      (then_cmp (option_compare bytes_compare (out_contract_address a) (out_contract_address b))
        (then_cmp (option_compare ciphertext_compare (out_ciphertext a) (out_ciphertext b))
          (proof_compare (out_proof a) (out_proof b))))).
Definition zswap_transient_compare (a b : SealedTransient) : comparison :=
  then_cmp (bytes_compare (tr_nullifier a) (tr_nullifier b))
    (then_cmp (bytes_compare (tr_coin_com a) (tr_coin_com b))
      (then_cmp (pedersen_compare (tr_value_commitment_input a) (tr_value_commitment_input b))
        (then_cmp (pedersen_compare (tr_value_commitment_output a) (tr_value_commitment_output b))
          (then_cmp (option_compare bytes_compare (tr_contract_address a) (tr_contract_address b))
            (then_cmp (option_compare ciphertext_compare (tr_ciphertext a) (tr_ciphertext b))
              (then_cmp (proof_compare (tr_proof_input a) (tr_proof_input b))
                (proof_compare (tr_proof_output a) (tr_proof_output b)))))))).
End orders.
