(* ===== verification/Balance.v ===== *)
(** * The balance of a transaction ([ledger/src/verify.rs])

    What a transaction brings in and pays out, per token type and segment, and
    the checks that use it: no token is overspent in any segment, and the value
    commitments of the Zswap parts open to the declared deltas. *)
From S2P Require Import Prelude Time CostModel Fab FabSerial Scale MerkleTree TimeFilterMap Zswap StateValue VmOps.
From S2P Require Import Coin DeltaTracking Runtime LedgerData LedgerCost Dust Ledger VerifyData.
From stdpp Require Import sorting.
Set Warnings "-register-all".
#[local] Open Scope Z_scope.

Abbreviation BalanceKey := (TokenType * Segment)%type.
Abbreviation BalanceMap := (gmap (TokenType * Segment) Z).
Definition FEE_TOKEN : TokenType := DustToken.
(** [WellFormedStrictness]; proofs are verified, never mocked. *)
Record WellFormedStrictness := {
  enforce_balancing : bool;
  verify_native_proofs : bool;
  verify_contract_proofs : bool;
  verify_signatures : bool;
  enforce_limits : bool
}.
Definition WellFormedStrictness_default : WellFormedStrictness := {|
  enforce_balancing := true; verify_native_proofs := true; verify_contract_proofs := true;
  verify_signatures := true; enforce_limits := true |}.

(** [ContractAddress::custom_token_type]. *)
Definition custom_token_type `{Hashing} (self : ContractAddress) (domain_sep : HashOutput) : HashOutput :=
  persistent_commit (domain_sep ++ self) (ascii_bytes "midnight:derive_token" ++ replicate 11 0).

Section balance.
Context `{Hashing} `{KeyTypes}.

(** [interpret] on [i128]. *)
Definition interpret (operation : BalanceOperation) (x y : Z) : option Z :=
  let r := match operation with Addition => x + y | Subtraction => x - y end in
  if (i128_min <=? r) && (r <=? i128_max) then Some r else None.
Record BalanceEntry := { be_token : TokenType; be_segment : Segment; be_value : Z; be_operation : BalanceOperation }.
Definition update_balance (res : BalanceMap) (e : BalanceEntry) : outcome MalformedTransaction BalanceMap :=
  let '{| be_token := token_type; be_segment := segment; be_value := value; be_operation := operation |} := e in
  let current_balance := default 0 (res !! (token_type, segment)) in
  if i128_max <? value then Err (BalanceCheckConversionFailure token_type segment value)
  else
    bal ← ok_or (interpret operation current_balance value)
            (MT_BalanceCheckOutOfBounds token_type segment current_balance value operation);
    Ok (<[(token_type, segment) := bal]> res).

(** ** The updates, in the order of the code

    Hash maps of effects are visited in an order of their own. *)
Abbreviation gain t s v := {| be_token := t; be_segment := s; be_value := v; be_operation := Addition |}.
Abbreviation lose t s v := {| be_token := t; be_segment := s; be_value := v; be_operation := Subtraction |}.
Definition dust_entries (intent : Intent) : list BalanceEntry :=
  match dust_actions intent with
  | Some da => ((fun sp => gain DustToken 0 (v_fee sp)) <$> spends da)
               ++ ((fun reg => gain DustToken 0 (allow_fee_payment reg)) <$> registrations da)
  | None => []
  end.
Definition unshielded_entries (segment : Segment) (offer : option UnshieldedOffer) : list BalanceEntry :=
  match offer with
  | Some o => ((fun inp => gain (Unshielded (us_type inp)) segment (us_value inp)) <$> uo_inputs o)
              ++ ((fun out => lose (Unshielded (uout_type out)) segment (uout_value out)) <$> uo_outputs o)
  | None => []
  end.
Definition call_transcripts (segment : Segment) (call : ContractCall) : list (Segment * Transcript) :=
  match guaranteed_transcript call with Some t => [(0, t)] | None => [] end
  ++ match fallible_transcript call with Some t => [(segment, t)] | None => [] end.
Definition transcript_entries (address : ContractAddress) (segment : Segment) (transcript : Transcript) : list BalanceEntry :=
  let eff := t_effects transcript in
  ((fun '(pre, val) => gain (Shielded (custom_token_type address pre)) segment val) <$> map_to_list (shielded_mints eff))
  ++ ((fun '(pre, val) => gain (Unshielded (custom_token_type address pre)) segment val) <$> map_to_list (unshielded_mints eff))
  ++ ((fun '(ty, val) => lose ty segment val) <$> map_to_list (unshielded_inputs eff))
  ++ ((fun '(ty, val) => gain ty segment val) <$> map_to_list (unshielded_outputs eff)).
Definition call_entries (segment : Segment) (call : ContractCall) : list BalanceEntry :=
  call_transcripts segment call ≫= fun '(seg, t) => transcript_entries (call_address call) seg t.
Definition intent_entries (deltas_only : bool) (segment : Segment) (intent : Intent) : list BalanceEntry :=
  dust_entries intent ++ unshielded_entries 0 (guaranteed_unshielded_offer intent)
  ++ unshielded_entries segment (fallible_unshielded_offer intent)
  ++ if deltas_only then [] else intent_calls intent ≫= call_entries segment.
Definition delta_entry (segment : Segment) (delta : @ZswapDelta ShieldedTokenType) : BalanceEntry :=
  if delta_value delta <? 0 then lose (Shielded (delta_token_type delta)) segment (- delta_value delta)
  else gain (Shielded (delta_token_type delta)) segment (delta_value delta).
Definition coin_offers (stx : StandardTransaction) : list (Segment * Offer) :=
  sorted_map (fallible_coins stx) ++ match guaranteed_coins stx with Some o => [(0, o)] | None => [] end.
Definition balance_entries (self : StandardTransaction) (fees : option Z) (deltas_only : bool) : list BalanceEntry :=
  match fees with Some fee => [lose FEE_TOKEN 0 fee] | None => [] end
  ++ (sorted_map (intents self) ≫= fun '(segment, intent) => intent_entries deltas_only segment intent)
  ++ (coin_offers self ≫= fun '(segment, offer) => delta_entry segment <$> offer_deltas offer).

Definition balance_maybe_deltas_only (self : StandardTransaction) (fees : option Z) (deltas_only : bool)
    : outcome MalformedTransaction BalanceMap :=
  try_fold update_balance ∅ (balance_entries self fees deltas_only).
Definition balance (self : StandardTransaction) (fees : option Z) : outcome MalformedTransaction BalanceMap :=
  balance_maybe_deltas_only self fees false.
Definition transaction_balance (self : Transaction) (fees : option Z) : outcome MalformedTransaction BalanceMap :=
  match self with Standard stx => balance stx fees | ClaimRewards _ => Ok ∅ end.

Definition balancing_check (self : StandardTransaction) (strictness : WellFormedStrictness) (fees : Z) : check :=
  bal ← balance self (Some fees);
  try_for_each (fun '((token_type, segment), bal) =>
    require (negb ((bal <? 0) && enforce_balancing strictness)) (BalanceCheckOverspend token_type segment bal)) (map_to_list bal).

(** [ttl_check_weak]. *)
Definition ttl_check_weak (self : StandardTransaction) (tblock : Z) (global_ttl : Z) : outcome TransactionApplicationError unit :=
  try_for_each (fun '(_, intent) =>
    if ttl intent <? tblock then Err (IntentTtlExpired (ttl intent) tblock)
    else if Timestamp_add tblock global_ttl <? ttl intent
    then Err (IntentTtlTooFarInFuture (ttl intent) (Timestamp_add tblock global_ttl)) else Ok tt)
    (sorted_map (intents self)).
End balance.

(** ** The opening of the commitments *)
Section pedersen.
Context `{Hashing} `{ProofSystem}.

Definition offer_commitments (offer : Offer) : list Pedersen :=
  (inp_value_commitment <$> offer_inputs offer) ++ (pedersen_neg ∘ out_value_commitment <$> offer_outputs offer)
  ++ (tr_value_commitment_input <$> offer_transient offer)
  ++ (pedersen_neg ∘ tr_value_commitment_output <$> offer_transient offer).
Definition pedersen_check (self : StandardTransaction) : check :=
  let comm_parts := (binding_commitment ∘ snd <$> sorted_map (intents self))
                    ++ (offers_of self ≫= fun so => offer_commitments so.2) in
  let comm := foldl pedersen_add pedersen_zero comm_parts in
  bal ← balance_maybe_deltas_only self None true;
  let expected := foldl pedersen_add (pedersen_mul pedersen_generator (binding_randomness self))
    (omap (fun '((ty, segment), value) =>
      match ty with Shielded t => Some (pedersen_mul (token_base t segment) value) | _ => None end) (map_to_list bal)) in
  require (bool_decide (comm = expected)) (PedersenCheckFailure expected comm).
End pedersen.

(** ** What flows in and out

    The flows of one token type in one segment, from the contents of the
    transaction. *)
Definition at_key (k k' : BalanceKey) (v : Z) : Z := if decide (k = k') then v else 0.
Definition sum_of {A} (f : A -> Z) (l : list A) : Z := Zsum (f <$> l).
Definition opt_sum {A} (f : A -> Z) (o : option A) : Z := match o with Some a => f a | None => 0 end.

Section flows.
Context `{Hashing} `{KeyTypes}.

Definition dust_paid (da : DustActions) : Z := sum_of v_fee (spends da) + sum_of allow_fee_payment (registrations da).
Definition unshielded_in (k : BalanceKey) (segment : Segment) (o : UnshieldedOffer) : Z :=
  sum_of (fun inp => at_key k (Unshielded (us_type inp), segment) (us_value inp)) (uo_inputs o).
Definition unshielded_out (k : BalanceKey) (segment : Segment) (o : UnshieldedOffer) : Z :=
  sum_of (fun out => at_key k (Unshielded (uout_type out), segment) (uout_value out)) (uo_outputs o).
Definition contract_in (k : BalanceKey) (address : ContractAddress) (segment : Segment) (t : Transcript) : Z :=
  sum_of (fun pv => at_key k (Shielded (custom_token_type address pv.1), segment) pv.2) (map_to_list (shielded_mints (t_effects t)))
  + sum_of (fun pv => at_key k (Unshielded (custom_token_type address pv.1), segment) pv.2) (map_to_list (unshielded_mints (t_effects t)))
  + sum_of (fun tv => at_key k (tv.1, segment) tv.2) (map_to_list (unshielded_outputs (t_effects t))).
Definition contract_out (k : BalanceKey) (segment : Segment) (t : Transcript) : Z :=
  sum_of (fun tv => at_key k (tv.1, segment) tv.2) (map_to_list (unshielded_inputs (t_effects t))).
(** A positive delta is what a Zswap offer provides, a negative one what it takes. *)
Definition delta_in (k : BalanceKey) (segment : Segment) (o : Offer) : Z :=
  sum_of (fun d => at_key k (Shielded (delta_token_type d), segment) (Z.max 0 (delta_value d))) (offer_deltas o).
Definition delta_out (k : BalanceKey) (segment : Segment) (o : Offer) : Z :=
  sum_of (fun d => at_key k (Shielded (delta_token_type d), segment) (Z.max 0 (- delta_value d))) (offer_deltas o).

Definition intent_in (k : BalanceKey) (segment : Segment) (i : Intent) : Z :=
  at_key k (DustToken, 0) (opt_sum dust_paid (dust_actions i))
  + opt_sum (unshielded_in k 0) (guaranteed_unshielded_offer i) + opt_sum (unshielded_in k segment) (fallible_unshielded_offer i)
  + sum_of (fun c => opt_sum (contract_in k (call_address c) 0) (guaranteed_transcript c)
                     + opt_sum (contract_in k (call_address c) segment) (fallible_transcript c)) (intent_calls i).
Definition intent_out (k : BalanceKey) (segment : Segment) (i : Intent) : Z :=
  opt_sum (unshielded_out k 0) (guaranteed_unshielded_offer i) + opt_sum (unshielded_out k segment) (fallible_unshielded_offer i)
  + sum_of (fun c => opt_sum (contract_out k 0) (guaranteed_transcript c)
                     + opt_sum (contract_out k segment) (fallible_transcript c)) (intent_calls i).
Definition inflow (k : BalanceKey) (stx : StandardTransaction) : Z :=
  sum_of (fun si => intent_in k si.1 si.2) (sorted_map (intents stx))
  + sum_of (fun so => delta_in k so.1 so.2) (coin_offers stx).
Definition outflow (k : BalanceKey) (fees : Z) (stx : StandardTransaction) : Z :=
  at_key k (DustToken, 0) fees
  + sum_of (fun si => intent_out k si.1 si.2) (sorted_map (intents stx))
  + sum_of (fun so => delta_out k so.1 so.2) (coin_offers stx).
End flows.

(** *** Sums *)
Lemma Zsum_app l1 l2 : Zsum (l1 ++ l2) = Zsum l1 + Zsum l2.
Proof. induction l1; simpl; lia. Qed.
Lemma sum_of_app {A} (f : A -> Z) l1 l2 : sum_of f (l1 ++ l2) = sum_of f l1 + sum_of f l2.
Proof. unfold sum_of. by rewrite fmap_app, Zsum_app. Qed.
Lemma sum_of_cons {A} (f : A -> Z) x l : sum_of f (x :: l) = f x + sum_of f l.
Proof. done. Qed.
Lemma sum_of_fmap {A B} (f : B -> Z) (g : A -> B) l : sum_of f (g <$> l) = sum_of (fun x => f (g x)) l.
Proof. unfold sum_of. by rewrite <-list_fmap_compose. Qed.
Lemma sum_of_bind {A B} (f : B -> Z) (g : A -> list B) l : sum_of f (l ≫= g) = sum_of (fun x => sum_of f (g x)) l.
Proof. induction l as [|x l IH]; [done|]. by rewrite bind_cons, sum_of_app, IH. Qed.
Lemma sum_of_ext {A} (f g : A -> Z) l : (forall x, f x = g x) -> sum_of f l = sum_of g l.
Proof. intros Hfg. induction l as [|x l IH]; [done|]. by rewrite !sum_of_cons, Hfg, IH. Qed.
Lemma sum_of_sub {A} (f g : A -> Z) l : sum_of (fun x => f x - g x) l = sum_of f l - sum_of g l.
Proof. induction l as [|x l IH]; [done|]. rewrite !sum_of_cons. lia. Qed.
Lemma sum_of_opp {A} (f : A -> Z) l : sum_of (fun x => - f x) l = - sum_of f l.
Proof. induction l as [|x l IH]; [done|]. rewrite !sum_of_cons. lia. Qed.
Lemma at_key_opp k k' v : at_key k k' (- v) = - at_key k k' v.
Proof. unfold at_key. case_decide; lia. Qed.
Lemma at_key_sum {A} k k' (f : A -> Z) l : sum_of (fun x => at_key k k' (f x)) l = at_key k k' (sum_of f l).
Proof. unfold at_key. case_decide; [done|]. induction l as [|x l IH]; [done|]. rewrite sum_of_cons. lia. Qed.
Lemma at_key_add k k' a b : at_key k k' (a + b) = at_key k k' a + at_key k k' b.
Proof. unfold at_key. case_decide; lia. Qed.

(** *** The entries add up to the flows *)
Definition signed_value (e : BalanceEntry) : Z := match be_operation e with Addition => be_value e | Subtraction => - be_value e end.
Definition entry_at (k : BalanceKey) (e : BalanceEntry) : Z := at_key k (be_token e, be_segment e) (signed_value e).
Definition net (k : BalanceKey) (l : list BalanceEntry) : Z := sum_of (entry_at k) l.

Section exact.
Context `{Hashing} `{KeyTypes}.

Lemma net_app k l1 l2 : net k (l1 ++ l2) = net k l1 + net k l2.
Proof. apply sum_of_app. Qed.
Lemma net_bind {A} k (g : A -> list BalanceEntry) l : net k (l ≫= g) = sum_of (fun x => net k (g x)) l.
Proof. apply sum_of_bind. Qed.
Lemma net_gain {A} k (ty : A -> TokenType) s (v : A -> Z) (l : list A) :
  net k ((fun x => {| be_token := ty x; be_segment := s; be_value := v x; be_operation := Addition |}) <$> l)
  = sum_of (fun x => at_key k (ty x, s) (v x)) l.
Proof. apply sum_of_fmap. Qed.
Lemma net_lose {A} k (ty : A -> TokenType) s (v : A -> Z) (l : list A) :
  net k ((fun x => {| be_token := ty x; be_segment := s; be_value := v x; be_operation := Subtraction |}) <$> l)
  = - sum_of (fun x => at_key k (ty x, s) (v x)) l.
Proof. unfold net. rewrite sum_of_fmap, <-sum_of_opp. apply sum_of_ext. intros x. apply at_key_opp. Qed.
Lemma fmap_pair {A B C} (f : A -> B -> C) (l : list (A * B)) : ((fun '(a, b) => f a b) <$> l) = ((fun p => f p.1 p.2) <$> l).
Proof. apply list_fmap_ext. by intros ? [] _. Qed.
Lemma bind_pair {A B C} (f : A -> B -> list C) (l : list (A * B)) : (l ≫= fun '(a, b) => f a b) = (l ≫= fun p => f p.1 p.2).
Proof. induction l as [|[a b] l IH]; [done|]. by rewrite !bind_cons, IH. Qed.

Lemma dust_net k i : net k (dust_entries i) = at_key k (DustToken, 0) (opt_sum dust_paid (dust_actions i)).
Proof.
  unfold dust_entries. destruct (dust_actions i) as [da|]; cbn [opt_sum]; [|unfold at_key; by case_decide].
  rewrite net_app, (net_gain k (fun _ => DustToken)), (net_gain k (fun _ => DustToken)), !at_key_sum. unfold dust_paid.
  by rewrite at_key_add.
Qed.
Lemma unshielded_net k s o :
  net k (unshielded_entries s o) = opt_sum (unshielded_in k s) o - opt_sum (unshielded_out k s) o.
Proof.
  destruct o as [o|]; [|done]. cbn [unshielded_entries opt_sum].
  rewrite net_app, (net_gain k (fun x => Unshielded (us_type x))), (net_lose k (fun x => Unshielded (uout_type x))). done.
Qed.
Lemma transcript_net k a s t : net k (transcript_entries a s t) = contract_in k a s t - contract_out k s t.
Proof.
  unfold transcript_entries. rewrite !net_app, !fmap_pair. rewrite (net_gain k (fun x => Shielded (custom_token_type a x.1))),
    (net_gain k (fun x => Unshielded (custom_token_type a x.1))), (net_lose k fst), (net_gain k fst).
  unfold contract_in, contract_out. lia.
Qed.
Lemma call_net k s c : net k (call_entries s c) =
  (opt_sum (contract_in k (call_address c) 0) (guaranteed_transcript c) + opt_sum (contract_in k (call_address c) s) (fallible_transcript c))
  - (opt_sum (contract_out k 0) (guaranteed_transcript c) + opt_sum (contract_out k s) (fallible_transcript c)).
Proof.
  unfold call_entries. rewrite bind_pair, net_bind. unfold call_transcripts. rewrite sum_of_app.
  destruct (guaranteed_transcript c), (fallible_transcript c); unfold sum_of; cbn; rewrite ?transcript_net; lia.
Qed.
Lemma intent_net k s i : net k (intent_entries false s i) = intent_in k s i - intent_out k s i.
Proof.
  unfold intent_entries. rewrite !net_app, dust_net, !unshielded_net, net_bind.
  rewrite (sum_of_ext _ _ _ (call_net k s)), sum_of_sub. unfold intent_in, intent_out. lia.
Qed.
Lemma delta_net k s o : net k (delta_entry s <$> offer_deltas o) = delta_in k s o - delta_out k s o.
Proof.
  unfold net, delta_in, delta_out. rewrite sum_of_fmap, <-sum_of_sub. apply sum_of_ext. intros [ty v].
  unfold delta_entry, entry_at, signed_value, at_key; cbn. destruct (v <? 0) eqn:Hv; cbn; repeat case_decide; lia.
Qed.
Lemma entries_net k stx fees : net k (balance_entries stx (Some fees) false) = inflow k stx - outflow k fees stx.
Proof.
  unfold balance_entries. rewrite !net_app, !bind_pair, !net_bind.
  rewrite (sum_of_ext _ _ _ (fun si => intent_net k si.1 si.2)), (sum_of_ext _ _ _ (fun so => delta_net k so.1 so.2)), !sum_of_sub.
  change (net k [_]) with (at_key k (DustToken, 0) (- fees) + 0). rewrite at_key_opp. unfold inflow, outflow. lia.
Qed.

(** *** The map holds the sums *)
Lemma update_balance_Ok res e res' : update_balance res e = Ok res' ->
  res' = <[(be_token e, be_segment e) := default 0 (res !! (be_token e, be_segment e)) + signed_value e]> res
  /\ is_i128 (default 0 (res !! (be_token e, be_segment e)) + signed_value e).
Proof.
  destruct e as [ty s v op]. unfold update_balance, interpret, signed_value. cbn. case_match; [done|].
  intros Hu. inv_binds. destruct op; case_match eqn:Hb; simplify_eq; (split; [f_equal; lia|unfold is_i128; lia]).
Qed.
Lemma fold_balance_exact l res res' k : try_fold update_balance res l = Ok res' ->
  default 0 (res' !! k) = default 0 (res !! k) + net k l.
Proof.
  revert res. induction l as [|e l IH]; intros res; cbn [try_fold].
  - intros [= ->]. unfold net, sum_of. simpl. lia.
  - intros Hf. inv_bind. apply IH in Hf as ->. apply update_balance_Ok in E as [-> _].
    unfold net. rewrite sum_of_cons. unfold entry_at, at_key. case_decide as Hk.
    + subst k. rewrite lookup_insert_eq. simpl. lia.
    + rewrite lookup_insert_ne by done. lia.
Qed.
Lemma balance_exact stx fees bal k : balance stx (Some fees) = Ok bal ->
  default 0 (bal !! k) = inflow k stx - outflow k fees stx.
Proof. intros Hb. apply fold_balance_exact with (k := k) in Hb. rewrite Hb, lookup_empty, entries_net. done. Qed.

Lemma try_for_each_Ok {E A} (f : A -> outcome E unit) l : try_for_each f l = Ok tt <-> forall x, x ∈ l -> f x = Ok tt.
Proof.
  induction l as [|x l IH]; cbn [try_for_each]; [split; [|done]; by intros _ ? ?%elem_of_nil|].
  setoid_rewrite elem_of_cons. destruct (f x) as [[]| |] eqn:Hx; cbn.
  - rewrite IH. split; [intros Hl ? [->|]; auto|auto].
  - split; [done|]. intros Hl. rewrite Hl in Hx by auto. done.
  - split; [done|]. intros Hl. rewrite Hl in Hx by auto. done.
Qed.
Lemma require_Ok {E} b (e : E) : require b e = Ok tt <-> b = true.
Proof. by destruct b. Qed.

Lemma overspend_check_iff (bal : BalanceMap) strictness : enforce_balancing strictness = true ->
  try_for_each (fun '((token_type, segment), b) =>
    require (negb ((b <? 0) && enforce_balancing strictness)) (BalanceCheckOverspend token_type segment b)) (map_to_list bal) = Ok tt
  <-> forall k, 0 <= default 0 (bal !! k).
Proof.
  intros Hs. rewrite try_for_each_Ok. split.
  - intros Hb k. destruct (bal !! k) as [b|] eqn:Hk; [|done]. specialize (Hb (k, b)). destruct k as [ty s].
    rewrite elem_of_map_to_list, require_Ok, Hs in Hb. specialize (Hb Hk). cbn. lia.
  - intros Hk [[ty s] b] Hb%elem_of_map_to_list. specialize (Hk (ty, s)). rewrite Hb in Hk. cbn in Hk.
    rewrite require_Ok, Hs. lia.
Qed.

(** No token is overspent. *)
Lemma balancing_check_sound stx strictness fees k :
  balancing_check stx strictness fees = Ok tt -> enforce_balancing strictness = true ->
  outflow k fees stx <= inflow k stx.
Proof.
  unfold balancing_check. intros Hc Hs. inv_bind. apply overspend_check_iff with (k := k) in Hc; [|done].
  rewrite (balance_exact _ _ _ k E) in Hc. lia.
Qed.

Lemma net_bound k l : Forall (fun e => 0 <= be_value e) l -> Z.abs (net k l) <= sum_of be_value l.
Proof.
  induction 1 as [|e l He _ IH]; [done|]. unfold net in *. rewrite !sum_of_cons. unfold entry_at, at_key, signed_value in *.
  case_decide; [destruct (be_operation e)|]; lia.
Qed.
Lemma fold_balance_total l res done :
  Forall (fun e => 0 <= be_value e) l -> 0 <= done -> done + sum_of be_value l <= i128_max ->
  (forall k, Z.abs (default 0 (res !! k)) <= done) -> exists res', try_fold update_balance res l = Ok res'.
Proof.
  intros Hl. revert res done. induction Hl as [|e l He Hl IH]; intros res d Hd Hsum Hres; cbn [try_fold]; [by eexists|].
  rewrite sum_of_cons in Hsum. assert (0 <= sum_of be_value l) as Hpos by (pose proof (net_bound (DustToken, 0) l Hl); lia).
  set (b := default 0 (res !! (be_token e, be_segment e)) + signed_value e).
  assert (Z.abs b <= d + be_value e) as Hb.
  { unfold b, signed_value. specialize (Hres (be_token e, be_segment e)). destruct (be_operation e); lia. }
  assert (update_balance res e = Ok (<[(be_token e, be_segment e) := b]> res)) as ->.
  { unfold b, signed_value in *. destruct e as [ty s v op]. unfold update_balance, interpret. cbn in *.
    rewrite (proj2 (Z.ltb_ge _ _)) by lia. destruct op; (rewrite (proj2 (andb_true_iff _ _)); [done|]);
      split; apply Z.leb_le; unfold i128_min, i128_max in *; lia. }
  cbn [mbind outcome_bind]. apply (IH _ (d + be_value e)); [lia|lia|]. intros k. destruct (decide (k = (be_token e, be_segment e))) as [->|Hk].
  - by rewrite lookup_insert_eq.
  - rewrite lookup_insert_ne by done. specialize (Hres k). lia.
Qed.

Lemma balancing_check_iff stx strictness fees :
  Forall (fun e => 0 <= be_value e) (balance_entries stx (Some fees) false) ->
  sum_of be_value (balance_entries stx (Some fees) false) <= i128_max -> enforce_balancing strictness = true ->
  balancing_check stx strictness fees = Ok tt <-> forall k, outflow k fees stx <= inflow k stx.
Proof.
  intros Hpos Hsum Hs. split; [intros Hc k; by eapply balancing_check_sound|]. intros Hk.
  destruct (fold_balance_total _ ∅ 0 Hpos) as [bal Hbal]; [done|lia|by intros k; rewrite lookup_empty|].
  unfold balancing_check. change (balance stx (Some fees) = Ok bal) in Hbal. rewrite Hbal. cbn [mbind outcome_bind].
  apply overspend_check_iff; [done|]. intros k. rewrite (balance_exact _ _ _ k Hbal). specialize (Hk k). lia.
Qed.

(** The balancing check is exact.  When the gross volume of a transaction
    fits into an [i128] and balancing is enforced, it accepts exactly the
    transactions in which, for every token type and segment, what is paid out
    (outputs, deposits into contracts, negative Zswap deltas and, for Dust in
    segment 0, the fees) is at most what is brought in (inputs, mints,
    withdrawals from contracts, positive deltas, Dust spent or allowed). *)
Theorem balancing_check_exact stx strictness fees :
  Forall (fun e => 0 <= be_value e) (balance_entries stx (Some fees) false) ->
  sum_of be_value (balance_entries stx (Some fees) false) <= i128_max -> enforce_balancing strictness = true ->
  balancing_check stx strictness fees = Ok tt <-> forall k, outflow k fees stx <= inflow k stx.
Proof. apply balancing_check_iff. Qed.
End exact.

(** ** Examples *)
From S2P Require Import RuntimeProps ToyLedger.

(** A payment of 100 Night out of 120, with 10 of Dust for fees of 8. *)
Definition toy_payment : StandardTransaction := {|
  network_id := "toy";
  intents := {[ 1 := toy_intent_with
    (Some {| uo_inputs := [{| us_value := 120; us_owner := 7; us_type := NIGHT; us_intent_hash := toy_hash 9; us_output_no := 0 |}];
             uo_outputs := [{| uout_value := 100; uout_owner := toy_hash 8; uout_type := NIGHT |}]; uo_signatures := [] |})
    (Some {| spends := [{| v_fee := 10; old_nullifier := 5; new_commitment := 6 |}]; registrations := []; da_ctime := 0 |}) 500 ]};
  guaranteed_coins := None; fallible_coins := ∅; binding_randomness := 0 |}.
Example toy_payment_overspends :
  balancing_check toy_payment WellFormedStrictness_default 11 = Err (BalanceCheckOverspend DustToken 0 (-1)).
Proof. vm_compute. reflexivity. Qed.
Lemma balancing_check_exact_witness :
  balancing_check toy_payment WellFormedStrictness_default 8 = Ok tt /\
  outflow (Unshielded NIGHT, 0) 8 toy_payment = 100 /\ inflow (Unshielded NIGHT, 0) toy_payment = 120 /\
  outflow (DustToken, 0) 8 toy_payment <= inflow (DustToken, 0) toy_payment.
Proof.
  assert (balancing_check toy_payment WellFormedStrictness_default 8 = Ok tt) as Hok by (vm_compute; reflexivity).
  split; [done|]. split; [vm_compute; reflexivity|]. split; [vm_compute; reflexivity|].
  apply (balancing_check_exact toy_payment WellFormedStrictness_default 8); [|vm_compute; discriminate|reflexivity|done].
  vm_compute. repeat constructor; discriminate.
Defined.
