(* ===== verification/EffectsCheck.v ===== *)
(** * Effects and disjointness ([ledger/src/verify.rs], [primitive.rs])

    Contracts claim coins, calls and payments in their effects; the effects
    check matches these claims against the rest of the transaction.  The
    disjoint check requires the parts of a transaction to spend different
    coins. *)
From S2P Require Import Prelude Time CostModel Fab FabSerial Scale MerkleTree TimeFilterMap Zswap StateValue VmOps.
From S2P Require Import Coin DeltaTracking Runtime LedgerData LedgerCost Dust Ledger VerifyData Balance.
From stdpp Require Import sorting gmultiset.
Set Warnings "-register-all".
#[local] Open Scope Z_scope.

(** Successful [require]s. *)
Ltac inv_requires := repeat match goal with
  | H : require _ _ = Ok ?u |- _ => destruct u; apply require_Ok in H
  | H : bool_decide _ = true |- _ => apply bool_decide_eq_true in H
  end.

(** ** Multisets

    A map from the elements to how often they occur. *)
Module MultiSet.
Section multiset.
Context {T : Type} `{Countable T}.

Record MultiSet := { elems : gmap T Z }.
Definition multi_new : MultiSet := {| elems := ∅ |}.
Definition multi_count (self : MultiSet) (element : T) : Z := default 0 (elems self !! element).
Definition multi_insert (self : MultiSet) (element : T) : MultiSet := {| elems := <[element := multi_count self element + 1]> (elems self) |}.
Definition has_subset (self other : MultiSet) : bool :=
  forallb (fun '(element, other_count) => negb (multi_count self element <? other_count)) (map_to_list (elems other)).
Definition from_iter (l : list T) : MultiSet := foldl multi_insert multi_new l.
#[global] Instance MultiSet_eq_dec : EqDecision MultiSet.
Proof. solve_decision. Defined.
(** The elements that occur more than once. *)
Definition duplicates (self : MultiSet) : list (T * Z) := filter (fun ec => 1 < ec.2) (map_to_list (elems self)).

(** *** Laws: a multiset is a list up to order *)
Definition mult (l : list T) (x : T) : nat := multiplicity x (list_to_set_disj l : gmultiset T).

Lemma elements_list_to_set_disj (l : list T) : elements (list_to_set_disj l : gmultiset T) ≡ₚ l.
Proof.
  induction l as [|x l IH]; [done|].
  by rewrite list_to_set_disj_cons, gmultiset_elements_disj_union, gmultiset_elements_singleton, IH.
Qed.
Lemma perm_mult (l1 l2 : list T) : l1 ≡ₚ l2 <-> forall x, mult l1 x = mult l2 x.
Proof.
  split; [by intros Hp x; unfold mult; rewrite Hp|]. intros Hm.
  rewrite <-(elements_list_to_set_disj l1), <-(elements_list_to_set_disj l2).
  by assert ((list_to_set_disj l1 : gmultiset T) = list_to_set_disj l2) as -> by (by apply gmultiset_eq).
Qed.
Lemma submseteq_mult (l1 l2 : list T) : l1 ⊆+ l2 <-> forall x, (mult l1 x <= mult l2 x)%nat.
Proof.
  split.
  - intros [k Hk]%submseteq_Permutation x. rewrite (proj1 (perm_mult _ _) Hk). unfold mult.
    rewrite list_to_set_disj_app, multiplicity_disj_union. lia.
  - intros Hm. rewrite <-(elements_list_to_set_disj l1), <-(elements_list_to_set_disj l2).
    by apply gmultiset_elements_submseteq.
Qed.
Lemma mult_cons (l : list T) x y : mult (x :: l) y = ((if decide (x = y) then 1 else 0) + mult l y)%nat.
Proof.
  unfold mult. rewrite list_to_set_disj_cons, multiplicity_disj_union. case_decide as Hx.
  - subst. by rewrite multiplicity_singleton_eq.
  - by rewrite multiplicity_singleton_ne.
Qed.
Lemma mult_elem_of (l : list T) x : x ∈ l <-> (0 < mult l x)%nat.
Proof. unfold mult. by rewrite <-(elem_of_list_to_set_disj (A := T)), elem_of_multiplicity. Qed.
Lemma NoDup_mult (l : list T) : NoDup l <-> forall x, (mult l x <= 1)%nat.
Proof.
  induction l as [|x l IH]; [split; [intros _ y; unfold mult; simpl; multiset_solver|by constructor]|].
  rewrite list.NoDup_cons, IH, mult_elem_of. setoid_rewrite mult_cons. split.
  - intros [Hx Hl] y. specialize (Hl y). case_decide; [subst; lia|lia].
  - intros Hl. split.
    + specialize (Hl x). rewrite decide_True in Hl by done. lia.
    + intros y. specialize (Hl y). lia.
Qed.

Lemma foldl_insert_spec (l : list T) self x :
  elems (foldl multi_insert self l) !! x =
    match elems self !! x with
    | Some c => Some (c + Z.of_nat (mult l x))
    | None => if decide (x ∈ l) then Some (Z.of_nat (mult l x)) else None
    end.
Proof.
  revert self. induction l as [|y l IH]; intros self; cbn [foldl].
  - unfold mult. cbn. rewrite multiplicity_empty. destruct (elems self !! x); [f_equal; lia|]. by rewrite decide_False by apply not_elem_of_nil.
  - rewrite IH, mult_cons. cbn [multi_insert elems]. unfold multi_count. destruct (decide (y = x)) as [->|Hy].
    + rewrite lookup_insert_eq, (decide_True _ _ (list_elem_of_here _ _)). destruct (elems self !! x); cbn; f_equal; lia.
    + rewrite lookup_insert_ne by done. destruct (elems self !! x); [f_equal; lia|].
      destruct (decide (x ∈ l)) as [Hx|Hx].
      * rewrite decide_True by (by right). f_equal; lia.
      * rewrite decide_False; [done|]. intros [?|?]%elem_of_cons; congruence.
Qed.
Lemma from_iter_spec (l : list T) x :
  elems (from_iter l) !! x = if decide (x ∈ l) then Some (Z.of_nat (mult l x)) else None.
Proof. unfold from_iter. by rewrite foldl_insert_spec. Qed.
Lemma from_iter_count (l : list T) x : multi_count (from_iter l) x = Z.of_nat (mult l x).
Proof.
  unfold multi_count. rewrite from_iter_spec. case_decide as Hx; [done|]. rewrite mult_elem_of in Hx. cbn. lia.
Qed.

Lemma from_iter_eq (l1 l2 : list T) : from_iter l1 = from_iter l2 <-> l1 ≡ₚ l2.
Proof.
  rewrite perm_mult. split.
  - intros Heq x. assert (multi_count (from_iter l1) x = multi_count (from_iter l2) x) as Hc by (by rewrite Heq).
    rewrite !from_iter_count in Hc. lia.
  - intros Hm. destruct (from_iter l1) as [e1] eqn:H1', (from_iter l2) as [e2] eqn:H2'. f_equal. apply map_eq. intros x.
    pose proof (from_iter_spec l1 x) as S1. pose proof (from_iter_spec l2 x) as S2. rewrite H1' in S1. rewrite H2' in S2.
    cbn in S1, S2. rewrite S1, S2, Hm. repeat case_decide; try done; rewrite mult_elem_of, ?Hm in *; done.
Qed.
Lemma has_subset_iff (l1 l2 : list T) : has_subset (from_iter l1) (from_iter l2) = true <-> l2 ⊆+ l1.
Proof.
  rewrite submseteq_mult. unfold has_subset. rewrite forallb_forall. setoid_rewrite <-list_elem_of_In. split.
  - intros Hall x. destruct (decide (x ∈ l2)) as [Hx|Hx]; [|rewrite mult_elem_of in Hx; lia].
    specialize (Hall (x, Z.of_nat (mult l2 x))). rewrite elem_of_map_to_list, from_iter_spec, decide_True in Hall by done.
    specialize (Hall eq_refl). cbn in Hall. rewrite from_iter_count in Hall. lia.
  - intros Hm [x c] Hx%elem_of_map_to_list. rewrite from_iter_spec in Hx. case_decide; simplify_eq. rewrite from_iter_count.
    specialize (Hm x). lia.
Qed.
Lemma duplicates_nil (l : list T) : duplicates (from_iter l) = [] <-> NoDup l.
Proof.
  rewrite NoDup_mult. split.
  - intros Hd x. destruct (decide (x ∈ l)) as [Hx|Hx]; [|rewrite mult_elem_of in Hx; lia].
    destruct (decide (1 < Z.of_nat (mult l x))) as [H1|]; [|lia].
    assert ((x, Z.of_nat (mult l x)) ∈ duplicates (from_iter l)) as Hin; [|rewrite Hd in Hin; by apply elem_of_nil in Hin].
    apply list_elem_of_filter. split; [done|]. by rewrite elem_of_map_to_list, from_iter_spec, decide_True.
  - intros Hm. apply list.elem_of_nil_inv. intros [x c] [Hc Hx]%list_elem_of_filter. cbn in Hc.
    rewrite elem_of_map_to_list, from_iter_spec in Hx. case_decide; simplify_eq. specialize (Hm x). lia.
Qed.
End multiset.
End MultiSet.
Arguments MultiSet.MultiSet T {_ _}.

(** ** The effects check *)
Record PlacedTranscript := {
  pt_segment : Segment;          (* the intent the transcript is in *)
  pt_logical : Segment;          (* the segment it executes in *)
  pt_transcript : Transcript;
  pt_address : ContractAddress
}.
Abbreviation CallId := (ContractAddress * HashOutput * Fr)%type.
Abbreviation SpendId := ((Segment * bool) * ((TokenType * PublicAddress) * Z))%type.

Section effects.
Context `{Hashing} `{KeyTypes}.

Definition segment_calls (self : StandardTransaction) : list (Segment * ContractCall) :=
  sorted_map (intents self) ≫= fun '(segment, intent) => (pair segment) <$> intent_calls intent.
Definition placed_transcripts (self : StandardTransaction) : list PlacedTranscript :=
  segment_calls self ≫= fun '(segment, call) =>
    ((fun t => {| pt_segment := segment; pt_logical := 0; pt_transcript := t; pt_address := call_address call |})
       <$> option_list (guaranteed_transcript call))
    ++ ((fun t => {| pt_segment := segment; pt_logical := segment; pt_transcript := t; pt_address := call_address call |})
       <$> option_list (fallible_transcript call)).
(** A map by segment: an offer of [fallible_coins] takes the place of the guaranteed one. *)
Definition offer_map (self : StandardTransaction) : gmap Segment Offer :=
  fallible_coins self ∪ match guaranteed_coins self with Some o => {[ 0 := o ]} | None => ∅ end.

Definition offer_contract_commitments (offer : Offer) : list (Commitment * ContractAddress) :=
  omap (fun o => (pair (out_coin_com o)) <$> out_contract_address o) (offer_outputs offer)
  ++ omap (fun t => (pair (tr_coin_com t)) <$> tr_contract_address t) (offer_transient offer).
Definition offer_contract_nullifiers (offer : Offer) : list (Nullifier * ContractAddress) :=
  omap (fun i => (pair (inp_nullifier i)) <$> inp_contract_address i) (offer_inputs offer)
  ++ omap (fun t => (pair (tr_nullifier t)) <$> tr_contract_address t) (offer_transient offer).
Definition offer_commitments_all (offer : Offer) : list Commitment :=
  (out_coin_com <$> offer_outputs offer) ++ (tr_coin_com <$> offer_transient offer).

Definition commitments (self : StandardTransaction) : list (Segment * Commitment * ContractAddress) :=
  sorted_map (offer_map self) ≫= fun '(s, o) => (fun ca => (s, ca.1, ca.2)) <$> offer_contract_commitments o.
Definition nullifiers_of (self : StandardTransaction) : list (Segment * Nullifier * ContractAddress) :=
  sorted_map (offer_map self) ≫= fun '(s, o) => (fun na => (s, na.1, na.2)) <$> offer_contract_nullifiers o.
Definition all_commitments (self : StandardTransaction) : list (Segment * Commitment) :=
  sorted_map (offer_map self) ≫= fun '(s, o) => (pair s) <$> offer_commitments_all o.
Definition nullifier_claims (self : StandardTransaction) : list (Segment * Nullifier * ContractAddress) :=
  placed_transcripts self ≫= fun pt =>
    (fun n => (pt_logical pt, n, pt_address pt)) <$> elements (claimed_nullifiers (t_effects (pt_transcript pt))).
Definition receive_claims (self : StandardTransaction) : list (Segment * Commitment * ContractAddress) :=
  placed_transcripts self ≫= fun pt =>
    (fun c => (pt_logical pt, c, pt_address pt)) <$> elements (claimed_shielded_receives (t_effects (pt_transcript pt))).
Definition spend_claims (self : StandardTransaction) : list (Segment * Commitment) :=
  placed_transcripts self ≫= fun pt =>
    (fun c => (pt_logical pt, c)) <$> elements (claimed_shielded_spends (t_effects (pt_transcript pt))).
Definition call_claims (self : StandardTransaction) : list (Segment * CallId) :=
  placed_transcripts self ≫= fun pt =>
    (fun c => (pt_segment pt, (ccv_address c, ccv_ep_hash c, ccv_comm c)))
      <$> elements (claimed_contract_calls (t_effects (pt_transcript pt))).
Definition real_calls (self : StandardTransaction) : list (Segment * CallId) :=
  (fun '(segment, call) => (segment, (call_address call, ep_hash (call_entry_point call), communication_commitment call)))
    <$> segment_calls self.
Definition payment_claims (self : StandardTransaction) : list SpendId :=
  placed_transcripts self ≫= fun pt =>
    (fun kv => ((pt_segment pt, pt_logical pt =? 0), ((cus_token kv.1, cus_address kv.1), kv.2)))
      <$> map_to_list (claimed_unshielded_spends (t_effects (pt_transcript pt))).
Definition contract_deposits (self : StandardTransaction) : list SpendId :=
  placed_transcripts self ≫= fun pt =>
    (fun kv => ((pt_segment pt, pt_logical pt =? 0), ((kv.1, PA_Contract (pt_address pt)), kv.2)))
      <$> map_to_list (unshielded_inputs (t_effects (pt_transcript pt))).
Definition offer_outputs_of (offer : option UnshieldedOffer) : list UtxoOutput :=
  match offer with Some o => uo_outputs o | None => [] end.
Definition user_payments (self : StandardTransaction) : list SpendId :=
  sorted_map (intents self) ≫= fun '(segment, intent) =>
    (fun '(guaranteed, output) =>
       ((segment, guaranteed), ((Unshielded (uout_type output), PA_User (uout_owner output)), uout_value output)))
    <$> (((pair true) <$> offer_outputs_of (guaranteed_unshielded_offer intent))
         ++ ((pair false) <$> offer_outputs_of (fallible_unshielded_offer intent))).

#[local] Abbreviation multi := MultiSet.from_iter.
Definition effects_check (self : StandardTransaction) : check :=
  let fail e := EffectsCheckFailure e in
  _ ← require (bool_decide (multi (nullifiers_of self) = multi (nullifier_claims self))) (fail NullifiersNEClaimedNullifiers);
  _ ← require (bool_decide (multi (commitments self) = multi (receive_claims self))) (fail CommitmentsNEClaimedShieldedReceives);
  let claimed_shielded_spends := multi (spend_claims self) in
  _ ← require (bool_decide (MultiSet.duplicates claimed_shielded_spends = [])) (fail ClaimedUnshieldedSpendsUniquenessFailure);
  _ ← require (MultiSet.has_subset (multi (all_commitments self)) claimed_shielded_spends) (fail AllCommitmentsSubsetCheckFailure);
  let claimed_calls := multi (call_claims self) in
  _ ← require (bool_decide (MultiSet.duplicates claimed_calls = [])) (fail ClaimedCallsUniquenessFailure);
  _ ← require (MultiSet.has_subset (multi (real_calls self)) claimed_calls) (fail RealCallsSubsetCheckFailure);
  require (MultiSet.has_subset (multi (contract_deposits self ++ user_payments self)) (multi (payment_claims self)))
    (fail RealUnshieldedSpendsSubsetCheckFailure).
End effects.

(** ** The disjoint check

    Sets of sealed inputs and outputs, by their derived equality. *)
Section disjoint.
Context `{Hashing} `{ProofSystem}.

#[global] Instance SealedInput_eq_dec : EqDecision SealedInput.
Proof. solve_decision. Defined.
#[global] Instance SealedOutput_eq_dec : EqDecision SealedOutput.
Proof. solve_decision. Defined.
#[global] Instance UtxoSpend_eq_dec : EqDecision UtxoSpend.
Proof. solve_decision. Defined.

(** [Transient::as_input]: the root is that of a tree with the coin as its only leaf. *)
Definition as_input {E} (self : SealedTransient) : outcome E SealedInput :=
  match try_update_hash (blank ZSWAP_TREE_HEIGHT) 0 (tr_coin_com self) tt with
  | Ok tree =>
      root ← rehashed_root tree;
      Ok {| inp_nullifier := tr_nullifier self; inp_value_commitment := tr_value_commitment_input self;
            inp_contract_address := tr_contract_address self; inp_merkle_tree_root := root; inp_proof := tr_proof_input self |}
  | _ => Panic
  end.
Definition as_output (self : SealedTransient) : SealedOutput := {|
  out_coin_com := tr_coin_com self; out_value_commitment := tr_value_commitment_output self;
  out_contract_address := tr_contract_address self; out_ciphertext := tr_ciphertext self; out_proof := tr_proof_output self |}.

Definition is_disjoint {A} `{EqDecision A} (a b : list A) : bool := forallb (fun x => bool_decide (x ∉ a)) b.
Definition sealed_offers (self : SealedStandard) : list SealedOffer :=
  option_list (ss_guaranteed_coins self) ++ (snd <$> sorted_map (ss_fallible_coins self)).
Definition shielded_disjoint (seen : list SealedInput * list SealedOutput) (offer : SealedOffer)
    : outcome MalformedTransaction (list SealedInput * list SealedOutput) :=
  let '(shielded_inputs, shielded_outputs) := seen in
  transient_inputs ← mapM as_input (offer_transient offer);
  let inputs := offer_inputs offer ++ transient_inputs in
  let outputs := offer_outputs offer ++ (as_output <$> offer_transient offer) in
  _ ← require (is_disjoint shielded_inputs inputs) (DisjointCheckFailure ShieldedInputsDisjointFailure);
  _ ← require (is_disjoint shielded_outputs outputs) (DisjointCheckFailure ShieldedOutputsDisjointFailure);
  Ok (shielded_inputs ++ inputs, shielded_outputs ++ outputs).
Definition unshielded_disjoint (unshielded_inputs inputs : list UtxoSpend) : outcome MalformedTransaction (list UtxoSpend) :=
  _ ← require (is_disjoint unshielded_inputs inputs) (DisjointCheckFailure UnshieldedInputsDisjointFailure);
  Ok (unshielded_inputs ++ inputs).
(** The inputs of each unshielded offer. *)
Definition unshielded_input_lists (self : SealedStandard) : list (list UtxoSpend) :=
  sorted_map (ss_intents self) ≫= fun '(_, intent) =>
    [from_option suo_inputs [] (si_guaranteed_offer intent); from_option suo_inputs [] (si_fallible_offer intent)].
Definition disjoint_check (self : SealedStandard) : check :=
  _ ← try_fold shielded_disjoint ([], []) (sealed_offers self);
  _ ← try_fold unshielded_disjoint [] (unshielded_input_lists self);
  Ok tt.

(** *** Their meaning *)
Lemma is_disjoint_iff {A} `{EqDecision A} (a b : list A) : is_disjoint a b = true <-> a ## b.
Proof.
  unfold is_disjoint. rewrite forallb_forall. setoid_rewrite <-list_elem_of_In. setoid_rewrite bool_decide_eq_true.
  set_solver.
Qed.
Lemma as_input_Ok {E} t : exists root, @as_input E t = Ok {| inp_nullifier := tr_nullifier t;
  inp_value_commitment := tr_value_commitment_input t; inp_contract_address := tr_contract_address t;
  inp_merkle_tree_root := root; inp_proof := tr_proof_input t |}.
Proof.
  unfold as_input, try_update_hash.
  pose proof (try_update_hash_rec_spec _ (blank ZSWAP_TREE_HEIGHT) 0 (tr_coin_com t) tt ltac:(by cbn) ltac:(by cbn) ltac:(done)
    (Nat.le_refl _)) as Hs.
  destruct (try_update_hash_rec _ _ _ _ _) as [tree|e|]; [|destruct e; cbn in Hs; (lia || by destruct Hs as [? ?]) || done|done].
  rewrite rehashed_root_spec. cbn. by eexists.
Qed.
Lemma unshielded_disjoint_Ok ls acc r : NoDup acc -> Forall NoDup ls ->
  try_fold unshielded_disjoint acc ls = Ok r -> NoDup r /\ r = acc ++ concat ls.
Proof.
  intros Hacc Hls. revert acc Hacc. induction Hls as [|l ls Hl _ IH]; intros acc Hacc; cbn [try_fold concat].
  - intros [= <-]. by rewrite app_nil_r.
  - intros Hf. inv_bind. unfold unshielded_disjoint in E. destruct (is_disjoint acc l) eqn:Hd; [|done]. cbn in E. injection E as <-.
    apply is_disjoint_iff in Hd. apply IH in Hf as [Hr ->]; [by rewrite app_assoc|]. apply list.NoDup_app.
    split; [done|]. split; [|done]. intros x Hx Hx'. by apply (Hd x).
Qed.

(** The unshielded inputs of all offers are different when those of each offer are. *)
Lemma disjoint_check_NoDup self :
  disjoint_check self = Ok tt -> Forall NoDup (unshielded_input_lists self) -> NoDup (concat (unshielded_input_lists self)).
Proof.
  unfold disjoint_check. intros Hd Hl. inv_binds. apply (unshielded_disjoint_Ok _ [] _) in E0 as [Hr ->]; [done|constructor|done].
Qed.
End disjoint.

Section effects_spec.
Context `{Hashing} `{KeyTypes}.

(** Claimed calls are made. *)
Lemma effects_check_calls (stx : StandardTransaction) : effects_check stx = Ok tt -> call_claims stx ⊆+ real_calls stx.
Proof. unfold effects_check. intros Hc. inv_binds. inv_requires. by apply MultiSet.has_subset_iff. Qed.

(** The check as a comparison of multisets. *)
Lemma effects_check_multisets (stx : StandardTransaction) :
  effects_check stx = Ok tt <->
  nullifiers_of stx ≡ₚ nullifier_claims stx /\ commitments stx ≡ₚ receive_claims stx /\
  NoDup (spend_claims stx) /\ spend_claims stx ⊆+ all_commitments stx /\
  NoDup (call_claims stx) /\ call_claims stx ⊆+ real_calls stx /\
  payment_claims stx ⊆+ contract_deposits stx ++ user_payments stx.
Proof.
  unfold effects_check. rewrite <-!MultiSet.from_iter_eq, <-!MultiSet.duplicates_nil, <-!MultiSet.has_subset_iff. split.
  - intros Hc. inv_binds. inv_requires. done.
  - intros (? & ? & ? & ? & ? & ? & ?). repeat (rewrite bool_decide_eq_true_2 by done; cbn [require mbind outcome_bind]).
    by repeat match goal with H : MultiSet.has_subset _ _ = true |- _ => rewrite H; clear H; cbn [require mbind outcome_bind] end.
Qed.

(** *** The specification, by counting

    What a transaction contains of a coin, a call or a payment, and how often
    its transcripts claim it. *)
Definition tally {A} (p : A -> bool) (l : list A) : nat := sum_list_with (fun x => if p x then 1 else 0)%nat l.
Definition once (P : Prop) `{Decision P} : nat := if decide P then 1%nat else 0%nat.

(** The offer of a segment: the guaranteed one is in segment 0, unless a fallible
    one takes its place. *)
Definition offer_at (stx : StandardTransaction) (seg : Segment) : option Offer :=
  match fallible_coins stx !! seg with
  | Some o => Some o
  | None => if decide (seg = GUARANTEED_SEGMENT) then guaranteed_coins stx else None
  end.
(** Coins of a contract that a segment spends or creates, and all coins it creates. *)
Definition contract_spends stx seg (n : Nullifier) (a : ContractAddress) : nat :=
  from_option (fun o =>
    tally (fun i => bool_decide (inp_nullifier i = n /\ inp_contract_address i = Some a)) (offer_inputs o) +
    tally (fun t => bool_decide (tr_nullifier t = n /\ tr_contract_address t = Some a)) (offer_transient o))%nat 0%nat (offer_at stx seg).
Definition contract_receives stx seg (c : Commitment) (a : ContractAddress) : nat :=
  from_option (fun o =>
    tally (fun i => bool_decide (out_coin_com i = c /\ out_contract_address i = Some a)) (offer_outputs o) +
    tally (fun t => bool_decide (tr_coin_com t = c /\ tr_contract_address t = Some a)) (offer_transient o))%nat 0%nat (offer_at stx seg).
Definition coins_created stx seg (c : Commitment) : nat :=
  from_option (fun o =>
    tally (fun i => bool_decide (out_coin_com i = c)) (offer_outputs o) +
    tally (fun t => bool_decide (tr_coin_com t = c)) (offer_transient o))%nat 0%nat (offer_at stx seg).

(** Sums over the calls of all intents, and over the guaranteed transcripts of
    the intents in [guar] and the fallible ones of those in [fall]. *)
Definition sum_calls (stx : StandardTransaction) (f : Segment -> ContractCall -> nat) : nat :=
  sum_list_with (fun si => sum_list_with (fun a => match a with Call c => f si.1 c | _ => 0%nat end) (actions si.2))
    (map_to_list (intents stx)).
Definition in_transcript (f : Effects -> nat) (t : option Transcript) : nat := from_option (fun t => f (t_effects t)) 0%nat t.
Definition transcript_claims stx (guar fall : Segment -> bool) (f : ContractCall -> Effects -> nat) : nat :=
  sum_calls stx (fun s c =>
    (if guar s then in_transcript (f c) (guaranteed_transcript c) else 0) +
    (if fall s then in_transcript (f c) (fallible_transcript c) else 0))%nat.
(** Transcripts that run in a segment: the guaranteed ones in segment 0, the
    fallible ones in that of their intent.  Transcripts of an intent, and those
    of its guaranteed or fallible part. *)
Definition claims_in_segment stx (seg : Segment) := transcript_claims stx (fun _ => seg =? GUARANTEED_SEGMENT) (fun s => seg =? s).
Definition claims_of_intent stx (seg : Segment) := transcript_claims stx (fun s => seg =? s) (fun s => seg =? s).
Definition claims_of_part stx (seg : Segment) (guaranteed : bool) :=
  transcript_claims stx (fun s => (seg =? s) && guaranteed) (fun s => (seg =? s) && eqb guaranteed (seg =? GUARANTEED_SEGMENT)).

Definition calls_made stx (seg : Segment) (x : CallId) : nat :=
  sum_calls stx (fun s c =>
    once (s = seg /\ (call_address c, ep_hash (call_entry_point c), communication_commitment c) = x)).
Definition calls_claimed stx (seg : Segment) (x : CallId) : nat :=
  claims_of_intent stx seg (fun _ e =>
    tally (fun v => bool_decide ((ccv_address v, ccv_ep_hash v, ccv_comm v) = x)) (elements (claimed_contract_calls e))).
Definition outputs_to stx (seg : Segment) (guaranteed : bool) (tok : TokenType) (payee : PublicAddress) (v : Z) : nat :=
  from_option (fun i =>
    from_option (fun o => tally (fun u => bool_decide (Unshielded (uout_type u) = tok /\ PA_User (uout_owner u) = payee /\ uout_value u = v)) (uo_outputs o))
      0%nat (if guaranteed then guaranteed_unshielded_offer i else fallible_unshielded_offer i)) 0%nat (intents stx !! seg).

Definition effects_ok (stx : StandardTransaction) : Prop :=
  (forall seg n a, contract_spends stx seg n a =
     claims_in_segment stx seg (fun c e => once (call_address c = a /\ n ∈ claimed_nullifiers e))) /\
  (forall seg cm a, contract_receives stx seg cm a =
     claims_in_segment stx seg (fun c e => once (call_address c = a /\ cm ∈ claimed_shielded_receives e))) /\
  (forall seg cm, let claimed := claims_in_segment stx seg (fun _ e => once (cm ∈ claimed_shielded_spends e)) in
     claimed <= 1 /\ claimed <= coins_created stx seg cm)%nat /\
  (forall seg x, calls_claimed stx seg x <= 1 /\ calls_claimed stx seg x <= calls_made stx seg x)%nat /\
  (forall seg guaranteed tok payee v,
     claims_of_part stx seg guaranteed (fun _ e => once (claimed_unshielded_spends e !! Build_ClaimedUnshieldedSpendsKey tok payee = Some v)) <=
     claims_of_part stx seg guaranteed (fun c e => once (payee = PA_Contract (call_address c) /\ unshielded_inputs e !! tok = Some v)) +
     outputs_to stx seg guaranteed tok payee v)%nat.

(** *** Counting in the lists of the check *)
Lemma sum_list_with_ext {A} (f g : A -> nat) l : (forall x, x ∈ l -> f x = g x) -> sum_list_with f l = sum_list_with g l.
Proof.
  induction l as [|x l IH]; intros Hf; [done|]. cbn. rewrite Hf by left. f_equal. apply IH. intros y Hy. apply Hf. by right.
Qed.
Lemma sum_list_with_0 {A} (f : A -> nat) l : (forall x, x ∈ l -> f x = 0%nat) -> sum_list_with f l = 0%nat.
Proof. intros Hf. rewrite (sum_list_with_ext f (fun _ => 0%nat)) by done. clear Hf. by induction l as [|? l IH]; [|cbn; rewrite IH]. Qed.
Lemma tally_ext {A} (p q : A -> bool) l : (forall x, p x = q x) -> tally p l = tally q l.
Proof. intros Hp. apply sum_list_with_ext. intros x _. by rewrite Hp. Qed.
Lemma tally_false {A} (l : list A) : tally (fun _ => false) l = 0%nat.
Proof. by apply sum_list_with_0. Qed.
Lemma mult_app {A} `{Countable A} (l1 l2 : list A) x : MultiSet.mult (l1 ++ l2) x = (MultiSet.mult l1 x + MultiSet.mult l2 x)%nat.
Proof. unfold MultiSet.mult. by rewrite list_to_set_disj_app, multiplicity_disj_union. Qed.
Lemma mult_bind {A B} `{Countable B} (f : A -> list B) l x : MultiSet.mult (l ≫= f) x = sum_list_with (fun y => MultiSet.mult (f y) x) l.
Proof. induction l as [|y l IH]; [done|]. rewrite bind_cons, mult_app, IH. done. Qed.
Lemma mult_fmap {A B} `{Countable B} (f : A -> B) l x : MultiSet.mult (f <$> l) x = tally (fun y => bool_decide (f y = x)) l.
Proof.
  induction l as [|y l IH]; [done|]. rewrite fmap_cons, MultiSet.mult_cons, IH. unfold tally. cbn [sum_list_with].
  by destruct (decide (f y = x)); [rewrite bool_decide_true|rewrite bool_decide_false].
Qed.
Lemma mult_omap {A B} `{Countable B} (f : A -> option B) l x : MultiSet.mult (omap f l) x = tally (fun y => bool_decide (f y = Some x)) l.
Proof.
  induction l as [|y l IH]; [done|]. cbn [omap list_omap]. unfold tally. cbn [sum_list_with]. destruct (f y) as [z|].
  - rewrite MultiSet.mult_cons. fold (omap f l). rewrite IH. destruct (decide (z = x)); [rewrite bool_decide_true by congruence|rewrite bool_decide_false by congruence]; done.
  - by rewrite bool_decide_false.
Qed.
Lemma mult_NoDup {A} `{Countable A} (l : list A) x : NoDup l -> MultiSet.mult l x = once (x ∈ l).
Proof.
  intros Hn. pose proof (proj1 (MultiSet.NoDup_mult l) Hn x) as Hx1. unfold once. destruct (decide (x ∈ l)) as [Hx|Hx]; rewrite MultiSet.mult_elem_of in Hx; lia.
Qed.
Lemma tally_fmap {A B} (f : A -> B) (p : B -> bool) l : tally p (f <$> l) = tally (fun x => p (f x)) l.
Proof. induction l as [|y l IH]; [done|]. unfold tally in *. cbn. by rewrite IH. Qed.
Lemma tally_NoDup {A} `{EqDecision A} (l : list A) x : NoDup l -> tally (fun y => bool_decide (y = x)) l = once (x ∈ l).
Proof.
  induction 1 as [|y l Hy _ IH]; [unfold once; by rewrite decide_False by apply not_elem_of_nil|]. unfold tally in *. cbn [sum_list_with]. rewrite IH. unfold once.
  destruct (decide (y = x)) as [->|Hne].
  - rewrite bool_decide_true, decide_False, decide_True by (done || left). done.
  - rewrite bool_decide_false by done. destruct (decide (x ∈ l)), (decide (x ∈ y :: l)); try done; [by destruct n; right|by apply elem_of_cons in e as [?|?]; congruence].
Qed.
(** A sum over a map in which only one key counts. *)
Lemma sum_at {V} (g : Segment * V -> nat) (m : gmap Segment V) (l : list (Segment * V)) s : l ≡ₚ map_to_list m ->
  (forall s' v, s' <> s -> g (s', v) = 0%nat) -> sum_list_with g l = from_option (fun v => g (s, v)) 0%nat (m !! s).
Proof.
  intros Hl Hg. rewrite Hl. clear Hl. destruct (m !! s) as [v|] eqn:Hs; cbn.
  - rewrite <- (insert_delete_id m s v Hs), map_to_list_insert by apply lookup_delete_eq. cbn.
    rewrite (sum_list_with_0 g); [lia|]. intros [s' v'] Hin%elem_of_map_to_list. apply lookup_delete_Some in Hin as [? _]. by apply Hg.
  - apply sum_list_with_0. intros [s' v'] Hin%elem_of_map_to_list. apply Hg. congruence.
Qed.
Lemma sorted_entries_perm {V} (m : gmap Segment V) : sorted_map m ≡ₚ map_to_list m.
Proof. apply merge_sort_Permutation. Qed.

Lemma offer_map_lookup stx seg : offer_map stx !! seg = offer_at stx seg.
Proof.
  unfold offer_map, offer_at. rewrite lookup_union. destruct (fallible_coins stx !! seg) as [o|]; cbn.
  - by destruct (_ !! seg).
  - rewrite (left_id_L None _). unfold GUARANTEED_SEGMENT. destruct (guaranteed_coins stx) as [o|], (decide (seg = 0)) as [->|Hne];
      rewrite ?lookup_empty, ?lookup_singleton_eq, ?lookup_singleton_ne by congruence; done.
Qed.
(** A list that tags what it takes from each offer with the segment. *)
Lemma mult_offers {X K} `{Countable X} `{Countable K} (f : Offer -> list X) (tag : Segment -> X -> K) stx seg (x : X) (key : K) :
  (forall s y, tag s y = key <-> s = seg /\ y = x) ->
  MultiSet.mult (sorted_map (offer_map stx) ≫= fun '(s, o) => tag s <$> f o) key = from_option (fun o => MultiSet.mult (f o) x) 0%nat (offer_at stx seg).
Proof.
  intros Ht. rewrite mult_bind, (sum_at _ (offer_map stx) _ seg (sorted_entries_perm _)).
  - rewrite offer_map_lookup. destruct (offer_at stx seg) as [o|]; [|done]. cbn. rewrite mult_fmap. rewrite <- (list_fmap_id (f o)) at 2.
    rewrite mult_fmap. apply tally_ext. intros y. apply bool_decide_ext. rewrite Ht. naive_solver.
  - intros s o Hne. rewrite mult_fmap. rewrite (tally_ext _ (fun _ => false)); [apply tally_false|]. intros y. apply bool_decide_false. rewrite Ht. tauto.
Qed.
Lemma mult_nullifiers stx seg n a : MultiSet.mult (nullifiers_of stx) (seg, n, a) = contract_spends stx seg n a.
Proof.
  unfold nullifiers_of. rewrite (mult_offers offer_contract_nullifiers (fun s na => (s, na.1, na.2)) stx seg (n, a)) by (intros s []; naive_solver).
  unfold contract_spends. destruct (offer_at stx seg) as [o|]; [|done]. cbn. unfold offer_contract_nullifiers. rewrite mult_app, !mult_omap.
  f_equal; apply tally_ext; intros i; apply bool_decide_ext; [destruct (inp_contract_address i)|destruct (tr_contract_address i)]; cbn; naive_solver.
Qed.
Lemma mult_commitments stx seg c a : MultiSet.mult (commitments stx) (seg, c, a) = contract_receives stx seg c a.
Proof.
  unfold commitments. rewrite (mult_offers offer_contract_commitments (fun s na => (s, na.1, na.2)) stx seg (c, a)) by (intros s []; naive_solver).
  unfold contract_receives. destruct (offer_at stx seg) as [o|]; [|done]. cbn. unfold offer_contract_commitments. rewrite mult_app, !mult_omap.
  f_equal; apply tally_ext; intros i; apply bool_decide_ext; [destruct (out_contract_address i)|destruct (tr_contract_address i)]; cbn; naive_solver.
Qed.
Lemma mult_all_commitments stx seg c : MultiSet.mult (all_commitments stx) (seg, c) = coins_created stx seg c.
Proof.
  unfold all_commitments. rewrite (mult_offers offer_commitments_all pair stx seg c) by naive_solver.
  unfold coins_created. destruct (offer_at stx seg) as [o|]; [|done]. cbn. unfold offer_commitments_all. by rewrite mult_app, !mult_fmap.
Qed.

Lemma sum_bind {A B} (f : A -> list B) (g : B -> nat) l : sum_list_with g (l ≫= f) = sum_list_with (fun x => sum_list_with g (f x)) l.
Proof. induction l as [|x l IH]; [done|]. rewrite bind_cons, sum_list_with_app, IH. done. Qed.
Lemma sum_fmap {A B} (f : A -> B) (g : B -> nat) l : sum_list_with g (f <$> l) = sum_list_with (fun x => g (f x)) l.
Proof. induction l as [|x l IH]; [done|]. cbn. by rewrite IH. Qed.
Lemma sum_intent_calls (g : ContractCall -> nat) i :
  sum_list_with g (intent_calls i) = sum_list_with (fun a => match a with Call c => g c | _ => 0%nat end) (actions i).
Proof. unfold intent_calls. induction (actions i) as [|[c|d|u] l IH]; [done|..]; cbn; by rewrite IH. Qed.
Lemma sum_calls_ext stx f g : (forall s c, f s c = g s c) -> sum_calls stx f = sum_calls stx g.
Proof. intros Hf. apply sum_list_with_ext. intros [s i] _. apply sum_list_with_ext. intros [] _; cbn; auto. Qed.
Lemma sum_segment_calls stx (g : Segment * ContractCall -> nat) : sum_list_with g (segment_calls stx) = sum_calls stx (fun s c => g (s, c)).
Proof.
  unfold segment_calls, sum_calls. rewrite sum_bind, sorted_entries_perm. apply sum_list_with_ext. intros [s i] _. by rewrite sum_fmap, sum_intent_calls.
Qed.
(** What the transcripts claim, call by call. *)
Lemma mult_placed {K} `{Countable K} stx (F : PlacedTranscript -> list K) x :
  MultiSet.mult (placed_transcripts stx ≫= F) x = sum_calls stx (fun s c =>
    from_option (fun t => MultiSet.mult (F {| pt_segment := s; pt_logical := 0; pt_transcript := t; pt_address := call_address c |}) x) 0 (guaranteed_transcript c) +
    from_option (fun t => MultiSet.mult (F {| pt_segment := s; pt_logical := s; pt_transcript := t; pt_address := call_address c |}) x) 0 (fallible_transcript c))%nat.
Proof.
  rewrite mult_bind. unfold placed_transcripts. rewrite sum_bind, sum_segment_calls. apply sum_calls_ext. intros s c.
  rewrite sum_list_with_app, !sum_fmap. by destruct (guaranteed_transcript c), (fallible_transcript c); cbn; lia.
Qed.
(** The claims of a transcript count if its place is the one asked for. *)
Lemma mult_claims {K} `{Countable K} (stx : StandardTransaction) (F : PlacedTranscript -> list K) x (guar fall : Segment -> bool) f :
  (forall s t (c : ContractCall), MultiSet.mult (F {| pt_segment := s; pt_logical := 0; pt_transcript := t; pt_address := call_address c |}) x =
     if guar s then f c (t_effects t) else 0%nat) ->
  (forall s t (c : ContractCall), MultiSet.mult (F {| pt_segment := s; pt_logical := s; pt_transcript := t; pt_address := call_address c |}) x =
     if fall s then f c (t_effects t) else 0%nat) ->
  MultiSet.mult (placed_transcripts stx ≫= F) x = transcript_claims stx guar fall f.
Proof.
  intros Hg Hf. rewrite mult_placed. apply sum_calls_ext. intros s c. unfold in_transcript.
  destruct (guaranteed_transcript c), (fallible_transcript c); cbn; rewrite ?Hg, ?Hf; by destruct (guar s), (fall s).
Qed.
(** A set of claims, each tagged with the place of its transcript. *)
Lemma mult_tagged {A K} `{Countable A} `{Countable K} (l : list A) (tag : A -> K) (key : K) (here : bool) (n : A) :
  NoDup l -> (forall y, tag y = key <-> here = true /\ y = n) -> MultiSet.mult (tag <$> l) key = if here then once (n ∈ l) else 0%nat.
Proof.
  intros Hl Ht. rewrite mult_fmap. destruct here.
  - rewrite <- tally_NoDup by done. apply tally_ext. intros y. apply bool_decide_ext. rewrite Ht. tauto.
  - rewrite (tally_ext _ (fun _ => false)); [apply tally_false|]. intros y. apply bool_decide_false. rewrite Ht. by intros [? _].
Qed.
Lemma once_ext (P Q : Prop) `{Decision P} `{Decision Q} : (P <-> Q) -> once P = once Q.
Proof. intros HPQ. unfold once. destruct (decide P), (decide Q); tauto. Qed.
Lemma if_once (b : bool) (P Q : Prop) `{Decision P} `{Decision Q} : (b = true /\ P <-> Q) -> (if b then once P else 0%nat) = once Q.
Proof. intros HPQ. unfold once. destruct b, (decide P), (decide Q); naive_solver. Qed.

(** Claims that name the contract of the transcript. *)
Lemma mult_contract_claims (claimed : Effects -> gset HashOutput) stx seg n a :
  MultiSet.mult (placed_transcripts stx ≫= fun pt => (fun n => (pt_logical pt, n, pt_address pt)) <$> elements (claimed (t_effects (pt_transcript pt)))) (seg, n, a) =
  claims_in_segment stx seg (fun c e => once (call_address c = a /\ n ∈ claimed e)).
Proof.
  apply mult_claims; intros s t c; cbn [pt_logical pt_address pt_transcript].
  - rewrite (mult_tagged _ _ _ ((seg =? 0) && bool_decide (call_address c = a)) n); [|apply NoDup_elements|].
    2: { intros y. rewrite andb_true_iff, Z.eqb_eq, bool_decide_eq_true. naive_solver. }
    unfold GUARANTEED_SEGMENT. destruct (seg =? 0); cbn [andb]; [|done]. apply if_once. rewrite bool_decide_eq_true, elem_of_elements. done.
  - rewrite (mult_tagged _ _ _ ((seg =? s) && bool_decide (call_address c = a)) n); [|apply NoDup_elements|].
    2: { intros y. rewrite andb_true_iff, Z.eqb_eq, bool_decide_eq_true. naive_solver. }
    destruct (seg =? s); cbn [andb]; [|done]. apply if_once. rewrite bool_decide_eq_true, elem_of_elements. done.
Qed.
Lemma mult_spend_claims stx seg cm : MultiSet.mult (spend_claims stx) (seg, cm) =
  claims_in_segment stx seg (fun _ e => once (cm ∈ claimed_shielded_spends e)).
Proof.
  apply mult_claims; intros s t c; cbn [pt_logical pt_address pt_transcript].
  - rewrite (mult_tagged _ _ _ (seg =? 0) cm); [|apply NoDup_elements|intros y; rewrite Z.eqb_eq; naive_solver].
    unfold GUARANTEED_SEGMENT. destruct (seg =? 0); [|done]. apply once_ext, elem_of_elements.
  - rewrite (mult_tagged _ _ _ (seg =? s) cm); [|apply NoDup_elements|intros y; rewrite Z.eqb_eq; naive_solver].
    destruct (seg =? s); [|done]. apply once_ext, elem_of_elements.
Qed.
(** Tagged with the segment, some entries of a list. *)
Lemma mult_pair {A B} `{Countable B} (f : A -> B) l (s seg : Segment) x :
  MultiSet.mult ((fun y => (s, f y)) <$> l) (seg, x) = if seg =? s then tally (fun y => bool_decide (f y = x)) l else 0%nat.
Proof.
  rewrite mult_fmap. destruct (Z.eqb_spec seg s) as [->|Hne].
  - apply tally_ext. intros y. apply bool_decide_ext. naive_solver.
  - rewrite (tally_ext _ (fun _ => false)); [apply tally_false|]. intros y. apply bool_decide_false. congruence.
Qed.
Lemma mult_call_claims stx seg x : MultiSet.mult (call_claims stx) (seg, x) = calls_claimed stx seg x.
Proof. unfold calls_claimed. apply mult_claims; intros s t c; cbn [pt_segment pt_transcript]; apply mult_pair. Qed.
Lemma mult_real_calls stx seg x : MultiSet.mult (real_calls stx) (seg, x) = calls_made stx seg x.
Proof.
  unfold real_calls, calls_made. rewrite mult_fmap. unfold tally. rewrite sum_segment_calls. apply sum_calls_ext. intros s c. unfold once.
  case_bool_decide as Hb; destruct (decide (s = seg /\ _)) as [Hd|Hd]; try done; naive_solver.
Qed.

(** Payments, by intent and part. *)
Lemma mult_entries {K} `{Countable K} (m : gmap K Z) (tag : K * Z -> SpendId) key (here : bool) k v :
  (forall y, tag y = key <-> here = true /\ y = (k, v)) ->
  MultiSet.mult (tag <$> map_to_list m) key = if here then once (m !! k = Some v) else 0%nat.
Proof.
  intros Ht. rewrite (mult_tagged _ _ _ here (k, v)); [|apply NoDup_map_to_list|done]. destruct here; [|done].
  apply once_ext, elem_of_map_to_list.
Qed.
Lemma mult_payment_claims stx seg g tok payee v : MultiSet.mult (payment_claims stx) (seg, g, (tok, payee, v)) =
  claims_of_part stx seg g (fun _ e => once (claimed_unshielded_spends e !! Build_ClaimedUnshieldedSpendsKey tok payee = Some v)).
Proof.
  apply mult_claims; intros s t c; cbn [pt_segment pt_logical pt_transcript].
  - apply mult_entries. intros [[tk py] w]. cbn. rewrite andb_true_iff, Z.eqb_eq. naive_solver.
  - apply mult_entries. intros [[tk py] w]. cbn. unfold GUARANTEED_SEGMENT. rewrite andb_true_iff, Z.eqb_eq, eqb_true_iff. naive_solver.
Qed.
Lemma mult_deposits stx seg g tok payee v : MultiSet.mult (contract_deposits stx) (seg, g, (tok, payee, v)) =
  claims_of_part stx seg g (fun c e => once (payee = PA_Contract (call_address c) /\ unshielded_inputs e !! tok = Some v)).
Proof.
  apply mult_claims; intros s t c; cbn [pt_segment pt_logical pt_transcript pt_address].
  - rewrite (mult_entries _ _ _ ((seg =? s) && g && bool_decide (payee = PA_Contract (call_address c))) tok v).
    2: { intros [tk w]. cbn. rewrite !andb_true_iff, Z.eqb_eq, bool_decide_eq_true. naive_solver. }
    destruct ((seg =? s) && g); cbn [andb]; [|done]. apply if_once. by rewrite bool_decide_eq_true.
  - rewrite (mult_entries _ _ _ ((seg =? s) && eqb g (seg =? GUARANTEED_SEGMENT) && bool_decide (payee = PA_Contract (call_address c))) tok v).
    2: { intros [tk w]. cbn. unfold GUARANTEED_SEGMENT. rewrite !andb_true_iff, Z.eqb_eq, eqb_true_iff, bool_decide_eq_true. naive_solver. }
    destruct ((seg =? s) && _); cbn [andb]; [|done]. apply if_once. by rewrite bool_decide_eq_true.
Qed.
Lemma mult_user_payments stx seg g tok payee v : MultiSet.mult (user_payments stx) (seg, g, (tok, payee, v)) = outputs_to stx seg g tok payee v.
Proof.
  unfold user_payments, outputs_to. rewrite mult_bind, (sum_at _ (intents stx) _ seg (sorted_entries_perm _)).
  - destruct (intents stx !! seg) as [i|]; [|done]. cbn. rewrite fmap_app, mult_app, <- !list_fmap_compose, !mult_fmap.
    destruct g.
    + rewrite (tally_ext _ (fun _ => false) (offer_outputs_of (fallible_unshielded_offer i))), tally_false, Nat.add_0_r by (intros u; by apply bool_decide_false).
      unfold offer_outputs_of. destruct (guaranteed_unshielded_offer i) as [o|]; [|done]. cbn. apply tally_ext. intros u. apply bool_decide_ext. cbn. naive_solver.
    + rewrite (tally_ext _ (fun _ => false) (offer_outputs_of (guaranteed_unshielded_offer i))), tally_false, Nat.add_0_l by (intros u; by apply bool_decide_false).
      unfold offer_outputs_of. destruct (fallible_unshielded_offer i) as [o|]; [|done]. cbn. apply tally_ext. intros u. apply bool_decide_ext. cbn. naive_solver.
  - intros s i Hne. rewrite mult_fmap, (tally_ext _ (fun _ => false)); [apply tally_false|]. intros [g' u]. apply bool_decide_false. congruence.
Qed.

(** C35: The effects check accepts a standard transaction exactly when its
    transcripts claim what it contains, counted coin by coin, call by call and
    payment by payment.  In every segment, the inputs (outputs) and transients
    with a nullifier (commitment) and a contract are as many as the transcripts
    of that contract which run in the segment and claim it; an output is claimed
    as sent at most once, and not more often than outputs and transients
    of the segment create it; in every intent a call is claimed at most once, and
    not more often than it is made there; and in each part of an intent a
    payment is claimed at most as often as UTXO outputs and deposits into
    contracts make it.  Guaranteed transcripts run in segment 0 and fallible ones
    in the segment of their intent. *)
Theorem effects_check_iff (stx : StandardTransaction) : effects_check stx = Ok tt <-> effects_ok stx.
Proof.
  rewrite effects_check_multisets, !MultiSet.perm_mult, !MultiSet.NoDup_mult, !MultiSet.submseteq_mult. unfold effects_ok. split.
  - intros (Hn & Hc & Hs1 & Hs2 & Hl1 & Hl2 & Hp). split_and!.
    + intros seg n a. specialize (Hn (seg, n, a)). rewrite mult_nullifiers in Hn. rewrite Hn. apply mult_contract_claims.
    + intros seg c a. specialize (Hc (seg, c, a)). rewrite mult_commitments in Hc. rewrite Hc. apply mult_contract_claims.
    + intros seg c. cbv zeta. rewrite <- mult_spend_claims, <- mult_all_commitments. auto.
    + intros seg x. rewrite <- mult_call_claims, <- mult_real_calls. auto.
    + intros seg g tok payee v. rewrite <- mult_payment_claims, <- mult_deposits, <- mult_user_payments, <- mult_app. auto.
  - intros (Hn & Hc & Hs & Hl & Hp). split_and!.
    + intros [[seg n] a]. rewrite mult_nullifiers, Hn. symmetry. apply mult_contract_claims.
    + intros [[seg c] a]. rewrite mult_commitments, Hc. symmetry. apply mult_contract_claims.
    + intros [seg c]. rewrite mult_spend_claims. apply Hs.
    + intros [seg c]. rewrite mult_spend_claims, mult_all_commitments. apply Hs.
    + intros [seg x]. rewrite mult_call_claims. apply Hl.
    + intros [seg x]. rewrite mult_call_claims, mult_real_calls. apply Hl.
    + intros [[seg g] [[tok payee] v]]. rewrite mult_app, mult_payment_claims, mult_deposits, mult_user_payments. apply Hp.
Qed.
End effects_spec.
