(* ===== verification/Sequencing.v ===== *)
(** * The order of contract calls ([ledger/src/verify.rs])

    All guaranteed transcripts of a transaction run before its fallible ones.
    The sequencing check makes sure that this order agrees with the causal one:
    a call comes after the calls to the same contract before it, and after the
    call that makes it. *)
From S2P Require Import Prelude Time CostModel Fab FabSerial Scale MerkleTree TimeFilterMap Zswap StateValue VmOps.
From S2P Require Import Coin DeltaTracking Runtime LedgerData LedgerCost Dust Ledger VerifyData Balance EffectsCheck.
From stdpp Require Import sorting.
Set Warnings "-register-all".
#[local] Open Scope Z_scope.

Record CallNode := { node_segment : Segment; node_addr : ContractAddress; node_index : Z }.
#[global] Instance CallNode_eq_dec : EqDecision CallNode.
Proof. solve_decision. Defined.
#[global] Instance CallNode_countable : Countable CallNode.
Proof.
  apply (inj_countable' (fun n => (node_segment n, node_addr n, node_index n))
    (fun '(a, b, c) => {| node_segment := a; node_addr := b; node_index := c |})). by intros [].
Defined.
(** [CallKey]: address, hash of the entry point, communication commitment. *)
Abbreviation CallKey := CallId.

(** [map.entry(k).or_default().push(x)]. *)
Definition push {K A} `{Countable K} (k : K) (x : A) (m : gmap K (list A)) : gmap K (list A) :=
  <[k := default [] (m !! k) ++ [x]]> m.
(** [as_indexed]: positions are [u32]. *)
Definition as_indexed {V} (v : list V) : gmap Z V :=
  foldl (fun m '(i, x) => <[trunc u32_max (Z.of_nat i) := x]> m) ∅ (zip (seq 0 (length v)) v).
(** [windows(2)]. *)
Fixpoint windows2 {A} (l : list A) : list (A * A) :=
  match l with
  | x :: (y :: _) as l' => (x, y) :: windows2 l'
  | _ => []
  end.

Record SeqState := {
  guaranteed_calls : gset CallNode;
  fallible_calls : gset CallNode;
  calls_by_address : gmap ContractAddress (list CallNode);
  adjacencies : gmap CallNode (list CallNode)
}.
Definition SeqState_new : SeqState := {|
  guaranteed_calls := ∅; fallible_calls := ∅; calls_by_address := ∅; adjacencies := ∅ |}.
Abbreviation Callers := (gmap CallKey (list (CallNode * bool))).
Abbreviation SubCall := (Z * Z * ContractAddress)%type.

Section sequencing.
Context `{Hashing} `{KeyTypes}.

Definition violation (e : SequencingCheckError) : MalformedTransaction := SequencingCheckFailure e.
Definition call_key (call : ContractCall) : CallKey :=
  (call_address call, ep_hash (call_entry_point call), communication_commitment call).
Definition claim_key (c : ClaimedContractCallsValue) : CallKey := (ccv_address c, ccv_ep_hash c, ccv_comm c).

Definition causality_check (guaranteed fallible : gset CallNode) (adj : gmap CallNode (list CallNode)) : check :=
  try_for_each (fun curr =>
    try_for_each (fun succ =>
      require (negb (bool_decide (succ ∈ guaranteed)))
        (violation (CausalityConstraintViolation (node_index curr) (node_index succ) (node_addr curr) (node_addr succ)
                      (node_segment curr) (node_segment succ)))) (default [] (adj !! curr)))
    (elements fallible).

Definition call_sequencing_check (context_call_position : Z) (contextual_call : ContractCall)
    (call_lookup : gmap CallKey (list Z)) : outcome MalformedTransaction (list SubCall) :=
  try_fold (fun subs claimed =>
    try_fold (fun subs cid2 =>
      if cid2 <=? context_call_position
      then Err (violation (CallSequencingViolation context_call_position cid2 (call_address contextual_call) (ccv_address claimed)))
      else Ok (subs ++ [(cid2, ccv_seq claimed, ccv_address claimed)]))
      subs (default [] (call_lookup !! claim_key claimed)))
    [] (claimed_calls contextual_call).

(** Sub-calls by sequence number, then position. *)
Definition sub_le (a b : SubCall) : Prop := a.1.2 < b.1.2 \/ a.1.2 = b.1.2 /\ a.1.1 <= b.1.1.
#[global] Instance sub_le_dec : RelDecision sub_le.
Proof. intros a b. unfold sub_le. apply _. Defined.
Definition sequencing_correlation_check (contextual_call_address : ContractAddress) (sequenced_sub_calls : list SubCall) : check :=
  try_for_each (fun '((cid_a, seq_a, addr_a), (cid_b, seq_b, _)) =>
    require ((seq_a <? seq_b) && (cid_a <? cid_b))
      (violation (SequencingCorrelationViolation contextual_call_address addr_a cid_a cid_b)))
    (windows2 (merge_sort sub_le sequenced_sub_calls)).

(** Claims with the part they are made in: guaranteed ones first. *)
Definition claims_by_part (call : ContractCall) : list (ClaimedContractCallsValue * bool) :=
  (option_list (guaranteed_transcript call) ≫= fun t => (fun c => (c, true)) <$> elements (claimed_contract_calls (t_effects t)))
  ++ (option_list (fallible_transcript call) ≫= fun t => (fun c => (c, false)) <$> elements (claimed_contract_calls (t_effects t))).
Definition node_of (segment_id : Segment) (cid : Z) (call : ContractCall) : CallNode :=
  {| node_segment := segment_id; node_addr := call_address call; node_index := cid |}.

Definition context_step (segment_id : Segment) (callers : Callers) (adj : gmap CallNode (list CallNode)) (entry : Z * ContractCall)
    : outcome MalformedTransaction (gmap CallNode (list CallNode)) :=
  let '(cid, call) := entry in
  try_fold (fun adj '(caller, caller_guar) =>
    if caller_guar && bool_decide (is_Some (fallible_transcript call))
    then Err (violation (FallibleInGuaranteedContextViolation (node_index caller) cid (node_addr caller) (call_address call)))
    else if negb caller_guar && bool_decide (is_Some (guaranteed_transcript call))
    then Err (violation (GuaranteedInFallibleContextViolation (node_index caller) cid (node_addr caller) (call_address call)))
    else Ok (push caller (node_of segment_id cid call) adj))
    adj (default [] (callers !! call_key call)).
Definition sequencing_context_check (adj : gmap CallNode (list CallNode)) (segment_id : Segment) (calls_in_intent : gmap Z ContractCall)
    (callers_for_addr : Callers) : outcome MalformedTransaction (gmap CallNode (list CallNode)) :=
  try_fold (context_step segment_id callers_for_addr) adj (sorted_map calls_in_intent).

Definition relate_step (segment_id : Segment) (st : SeqState * Callers) (entry : Z * ContractCall)
    : outcome MalformedTransaction (SeqState * Callers) :=
  let '(self, callers) := st in
  let '(cid, call) := entry in
  let this_node := node_of segment_id cid call in
  let is_guaranteed := bool_decide (is_Some (guaranteed_transcript call)) in
  let is_fallible := bool_decide (is_Some (fallible_transcript call)) in
  if negb (is_guaranteed || is_fallible)
  then Err (violation (CallHasEmptyTranscripts segment_id (call_address call) cid))
  else
    Ok ({| guaranteed_calls := (if is_guaranteed then {[ this_node ]} else ∅) ∪ guaranteed_calls self;
           fallible_calls := (if is_fallible then {[ this_node ]} else ∅) ∪ fallible_calls self;
           calls_by_address := push (call_address call) this_node (calls_by_address self);
           adjacencies := match last (default [] (calls_by_address self !! call_address call)) with
                          | Some prev_node => push prev_node this_node (adjacencies self)
                          | None => adjacencies self
                          end |},
        foldl (fun callers '(claimed, part) => push (claim_key claimed) (this_node, part) callers) callers (claims_by_part call)).
Definition relate_nodes (self : SeqState) (segment_id : Segment) (calls_in_intent : gmap Z ContractCall)
    : outcome MalformedTransaction (SeqState * Callers) :=
  try_fold (relate_step segment_id) (self, ∅) (sorted_map calls_in_intent).

(** The body of the loop over the intents. *)
Definition sequence_intent (self : SeqState) (entry : Segment * Intent) : outcome MalformedTransaction SeqState :=
  let '(segment_id, intent) := entry in
  let calls_in_intent := as_indexed (intent_calls intent) in
  let call_lookup := foldl (fun m '(cid, call) => push (call_key call) cid m) ∅ (sorted_map calls_in_intent) in
  _ ← try_for_each (fun '(cid1, call1) =>
        sequenced_sub_calls ← call_sequencing_check cid1 call1 call_lookup;
        sequencing_correlation_check (call_address call1) sequenced_sub_calls) (sorted_map calls_in_intent);
  '(self, callers_for_addr) ← relate_nodes self segment_id calls_in_intent;
  adj ← sequencing_context_check (adjacencies self) segment_id calls_in_intent callers_for_addr;
  Ok {| guaranteed_calls := guaranteed_calls self; fallible_calls := fallible_calls self;
        calls_by_address := calls_by_address self; adjacencies := adj |}.
Definition sequencing_check (self : StandardTransaction) : check :=
  st ← try_fold sequence_intent SeqState_new (sorted_map (intents self));
  causality_check (guaranteed_calls st) (fallible_calls st) (adjacencies st).
End sequencing.

(** ** Causal precedence

    The relation the documentation describes, on call sites: the position of a
    call among the calls of the intent of a segment. *)
Section spec.
Context `{Hashing} `{KeyTypes}.

Record Site := { site_segment : Segment; site_index : nat; site_call : ContractCall }.
Definition call_site (stx : StandardTransaction) (x : Site) : Prop :=
  exists intent, intents stx !! site_segment x = Some intent /\ intent_calls intent !! site_index x = Some (site_call x).
(** [claims a b part seq]: transcript [part] of [a] claims the call [b] with sequence number [seq]. *)
Definition claims (a b : ContractCall) (guaranteed : bool) (seq : Z) : Prop :=
  exists c, (c, guaranteed) ∈ claims_by_part a /\ claim_key c = call_key b /\ ccv_seq c = seq.
(** A call precedes the calls it makes, and the later calls to its contract. *)
Definition precedes (stx : StandardTransaction) (x y : Site) : Prop :=
  call_site stx x /\ call_site stx y /\
  ((site_segment x = site_segment y /\ exists guaranteed seq, claims (site_call x) (site_call y) guaranteed seq)
   \/ (call_address (site_call x) = call_address (site_call y) /\
       (site_segment x < site_segment y \/ site_segment x = site_segment y /\ (site_index x < site_index y)%nat))).
(** Positions fit into the [u32] they are stored in. *)
Definition indexable (stx : StandardTransaction) : Prop :=
  forall s intent, intents stx !! s = Some intent -> Z.of_nat (length (intent_calls intent)) <= u32_max.
End spec.

(** ** Buckets *)
Definition bucket {K A} `{Countable K} (m : gmap K (list A)) (k : K) : list A := default [] (m !! k).
Lemma bucket_push {K A} `{Countable K} (m : gmap K (list A)) k k' x :
  bucket (push k x m) k' = if decide (k = k') then bucket m k ++ [x] else bucket m k'.
Proof.
  unfold bucket, push. case_decide as Hk; [subst; by rewrite lookup_insert_eq|by rewrite lookup_insert_ne].
Qed.
Lemma elem_of_bucket_push {K A} `{Countable K} (m : gmap K (list A)) k k' (x y : A) :
  y ∈ bucket (push k x m) k' <-> (k = k' /\ y = x) \/ y ∈ bucket m k'.
Proof. rewrite bucket_push. case_decide; subst; [rewrite elem_of_app, list_elem_of_singleton|]; naive_solver. Qed.
(** Pushing many values. *)
Lemma elem_of_bucket_foldl {K A B} `{Countable K} (key : B -> K) (val : B -> A) (l : list B) (m : gmap K (list A)) k y :
  y ∈ bucket (foldl (fun m b => push (key b) (val b) m) m l) k <-> y ∈ bucket m k \/ exists b, b ∈ l /\ key b = k /\ val b = y.
Proof.
  revert m. induction l as [|b l IH]; intros m; cbn [foldl].
  - split; [auto|]. intros [?|(b & []%elem_of_nil & _)]; done.
  - rewrite IH, elem_of_bucket_push. setoid_rewrite elem_of_cons. split.
    + intros [[[<- ->]|Hy]|(b' & Hb & Hk)]; [right; exists b; auto|auto|right; exists b'; auto].
    + intros [Hy|(b' & [->|Hb] & Hk & Hv)]; [auto|left; left; auto|right; exists b'; auto].
Qed.

(** ** Indexed calls *)
Lemma as_indexed_snoc {V} (v : list V) x : as_indexed (v ++ [x]) = <[trunc u32_max (Z.of_nat (length v)) := x]> (as_indexed v).
Proof.
  unfold as_indexed. rewrite length_app, Nat.add_1_r, seq_S, zip_with_app by (by rewrite length_seq). by rewrite foldl_app.
Qed.
Lemma as_indexed_Some {V} (v : list V) k x : Z.of_nat (length v) <= u32_max ->
  as_indexed v !! k = Some x <-> exists i, k = Z.of_nat i /\ v !! i = Some x.
Proof.
  induction v as [|y v IH] using rev_ind; intros Hlen.
  - split; [done|]. by intros (i & _ & ?).
  - rewrite length_app in Hlen. cbn in Hlen. rewrite as_indexed_snoc, trunc_id by (unfold in_u; lia). specialize (IH ltac:(lia)).
    destruct (decide (k = Z.of_nat (length v))) as [->|Hk].
    + rewrite lookup_insert_eq. split.
      * intros [= ->]. exists (length v). split; [done|]. by apply list_lookup_middle.
      * intros (i & Hi & Hx). assert (i = length v) as -> by lia. by rewrite list_lookup_middle in Hx.
    + rewrite lookup_insert_ne by done. rewrite IH. split; intros (i & -> & Hx); exists i; (split; [done|]).
      * by apply lookup_app_l_Some.
      * apply lookup_app_Some in Hx as [Hx|[Hi Hx]]; [done|]. apply list_lookup_singleton_Some in Hx as [? _]. lia.
Qed.
Lemma elem_of_sorted_map {A} (m : gmap Z A) k x : (k, x) ∈ sorted_map m <-> m !! k = Some x.
Proof. unfold sorted_map. by rewrite merge_sort_Permutation, elem_of_map_to_list. Qed.
Lemma sorted_map_strict {A} (m : gmap Z A) : StronglySorted (fun a b => a.1 < b.1) (sorted_map m).
Proof.
  assert (StronglySorted key_le (sorted_map m)) as Hs.
  { apply Sorted_StronglySorted; [intros [] [] []; unfold key_le; cbn; lia|]. apply Sorted_merge_sort.
    intros [] []; unfold key_le; cbn; lia. }
  assert (NoDup (sorted_map m).*1) as Hn.
  { unfold sorted_map. rewrite merge_sort_Permutation. apply NoDup_fst_map_to_list. }
  induction Hs as [|a l _ IH Ha]; [constructor|]. cbn in Hn. apply list.NoDup_cons in Hn as [Hna Hn]. constructor; [auto|].
  apply list.Forall_forall. intros b Hb. eapply list.Forall_forall in Ha; [|exact Hb]. unfold key_le in Ha.
  assert (a.1 <> b.1); [|lia]. intros Heq. apply Hna. rewrite Heq. by apply list_elem_of_fmap_2.
Qed.

(** ** Lists in order *)
Lemma StronglySorted_total {A} (R : relation A) (l : list A) x y : StronglySorted R l -> x ∈ l -> y ∈ l -> x = y \/ R x y \/ R y x.
Proof.
  induction 1 as [|a l _ IH Ha]; [by intros ?%elem_of_nil|]. rewrite list.Forall_forall in Ha.
  intros [->|Hx]%elem_of_cons [->|Hy]%elem_of_cons; auto.
Qed.
Lemma StronglySorted_impl {A} (R S : relation A) l : StronglySorted R l -> (forall x y, x ∈ l -> y ∈ l -> R x y -> S x y) -> StronglySorted S l.
Proof.
  induction 1 as [|a l _ IH Ha]; intros HRS; [constructor|]. constructor.
  - apply IH. intros x y Hx Hy. apply HRS; by right.
  - rewrite list.Forall_forall in Ha |- *. intros x Hx. apply HRS; [left|by right|auto].
Qed.
Lemma StronglySorted_both {A} (R S : relation A) l :
  StronglySorted R l -> StronglySorted S l -> StronglySorted (fun x y => R x y /\ S x y) l.
Proof.
  induction 1 as [|a l _ IH Ha]; intros HS; [constructor|]. apply StronglySorted_cons in HS as [HSa HS]. constructor; [auto|].
  rewrite list.Forall_forall in *. auto.
Qed.
Lemma StronglySorted_filter {A} (R : relation A) (P : A -> Prop) `{forall x, Decision (P x)} l :
  StronglySorted R l -> StronglySorted R (filter P l).
Proof.
  induction 1 as [|a l _ IH Ha]; [constructor|]. rewrite filter_cons. case_decide; [|done]. constructor; [done|].
  rewrite list.Forall_forall in *. intros x [_ Hx]%list_elem_of_filter. auto.
Qed.
Lemma Sorted_impl {A} (R S : relation A) l : (forall x y, R x y -> S x y) -> Sorted R l -> Sorted S l.
Proof. intros HRS. induction 1 as [|a l _ IH Hd]; constructor; [done|]. destruct Hd; constructor; auto. Qed.
(** Consecutive elements are linked, so any two are connected. *)
Lemma Sorted_connected {A} (R : relation A) l : Sorted R l -> StronglySorted (tc R) l.
Proof.
  intros Hs. apply Sorted_StronglySorted; [intros x y z; apply tc_transitive|]. revert Hs. apply Sorted_impl. intros; by constructor.
Qed.

(** ** What the loops record *)
Section invariant.
Context `{Hashing} `{KeyTypes}.

(** A visited call: its segment, position and contents. *)
Abbreviation Visit := (Segment * (Z * ContractCall))%type.
Definition vcall (v : Visit) : ContractCall := v.2.2.
Definition vnode (v : Visit) : CallNode := node_of v.1 v.2.1 v.2.2.
Definition link (adj : gmap CallNode (list CallNode)) (x y : Visit) : Prop := vnode y ∈ bucket adj (vnode x).
Definition adj_grows (adj adj' : gmap CallNode (list CallNode)) : Prop := forall n m, m ∈ bucket adj n -> m ∈ bucket adj' n.
Definition to_address (a : ContractAddress) (l : list Visit) : list Visit := filter (fun v => call_address (vcall v) = a) l.
Record Related (st : SeqState) (visited : list Visit) : Prop := {
  related_guaranteed v : v ∈ visited -> is_Some (guaranteed_transcript (vcall v)) -> vnode v ∈ guaranteed_calls st;
  related_fallible v : v ∈ visited -> is_Some (fallible_transcript (vcall v)) -> vnode v ∈ fallible_calls st;
  related_nonempty v : v ∈ visited -> is_Some (guaranteed_transcript (vcall v)) \/ is_Some (fallible_transcript (vcall v));
  related_address a : bucket (calls_by_address st) a = vnode <$> to_address a visited;
  related_chain a : Sorted (link (adjacencies st)) (to_address a visited);
}.

Lemma adj_grows_push n m adj : adj_grows adj (push n m adj).
Proof. intros n' m'. rewrite elem_of_bucket_push. auto. Qed.
Lemma adj_grows_trans a b c : adj_grows a b -> adj_grows b c -> adj_grows a c.
Proof. unfold adj_grows. auto. Qed.
Lemma chain_grows adj adj' l : adj_grows adj adj' -> Sorted (link adj) l -> Sorted (link adj') l.
Proof. intros Hg. apply Sorted_impl. unfold link. auto. Qed.
Lemma link_grows adj adj' x y : adj_grows adj adj' -> link adj x y -> link adj' x y.
Proof. unfold link. auto. Qed.
Lemma Related_new : Related SeqState_new [].
Proof. split; try (by intros ? ?%elem_of_nil); [done|constructor]. Qed.

Lemma relate_step_related s st callers entry st' callers' visited :
  Related st visited -> relate_step s (st, callers) entry = Ok (st', callers') ->
  Related st' (visited ++ [(s, entry)]) /\ adj_grows (adjacencies st) (adjacencies st') /\
  callers' = foldl (fun m b => push (claim_key b.1) (vnode (s, entry), b.2) m) callers (claims_by_part entry.2).
Proof.
  intros [Hg Hf Hn Ha Hc]. destruct entry as [cid call]. unfold relate_step. case_match eqn:Hne; [done|]. intros [= <- <-].
  assert (adj_grows (adjacencies st) match last (default [] (calls_by_address st !! call_address call)) with
            | Some prev => push prev (node_of s cid call) (adjacencies st) | None => adjacencies st end) as Hgr.
  { case_match; [apply adj_grows_push|by intros ??]. }
  split; [|split; [exact Hgr|]].
  - split; cbn [guaranteed_calls fallible_calls calls_by_address adjacencies].
    + intros v [Hv|Hv%list_elem_of_singleton]%elem_of_app Hs; [set_solver|subst v]. rewrite bool_decide_eq_true_2 by done. set_solver.
    + intros v [Hv|Hv%list_elem_of_singleton]%elem_of_app Hs; [set_solver|subst v]. rewrite bool_decide_eq_true_2 by done. set_solver.
    + intros v [Hv|Hv%list_elem_of_singleton]%elem_of_app; [auto|subst v]. cbn.
      apply negb_false_iff, orb_true_iff in Hne. by rewrite !bool_decide_eq_true in Hne.
    + intros a. rewrite bucket_push. unfold to_address. rewrite filter_app, fmap_app, filter_cons, filter_nil. cbn [vcall snd].
      rewrite !Ha. unfold to_address. repeat case_decide; simplify_eq; rewrite ?app_nil_r; done.
    + intros a. unfold to_address. rewrite filter_app, filter_cons, filter_nil. cbn [vcall snd]. case_decide as Hca.
      * apply Sorted_snoc; [eapply chain_grows; [exact Hgr|apply Hc]|]. fold (to_address a visited). subst a.
        specialize (Ha (call_address call)). unfold bucket in Ha. rewrite Ha. rewrite fmap_last.
        destruct (last (to_address (call_address call) visited)) as [p|] eqn:Hlast.
        -- apply last_Some in Hlast as [l' ->]. constructor. unfold link. apply elem_of_bucket_push. auto.
        -- apply last_None in Hlast as ->. constructor.
      * rewrite app_nil_r. eapply chain_grows; [exact Hgr|apply Hc].
  - cbn [snd]. revert callers. induction (claims_by_part call) as [|[c p] l IH]; intros m; [reflexivity|]. cbn [foldl]. apply IH.
Qed.

(** All calls of an intent, and all the claims they make. *)
Lemma relate_fold_related s entries st callers st' callers' visited :
  Related st visited -> try_fold (relate_step s) (st, callers) entries = Ok (st', callers') ->
  Related st' (visited ++ (pair s <$> entries)) /\ adj_grows (adjacencies st) (adjacencies st') /\
  (forall k y, y ∈ bucket callers k -> y ∈ bucket callers' k) /\
  (forall e c part, e ∈ entries -> (c, part) ∈ claims_by_part e.2 -> (vnode (s, e), part) ∈ bucket callers' (claim_key c)).
Proof.
  revert st callers visited. induction entries as [|e entries IH]; intros st callers visited Hr; cbn [try_fold fmap list_fmap].
  - intros [= <- <-]. rewrite app_nil_r. split; [done|]. split; [by intros ??|]. split; [done|]. by intros ? ? ? ?%elem_of_nil.
  - intros Hf. apply bind_Ok_inv in Hf as ([st1 callers1] & E & Hf).
    apply relate_step_related with (visited := visited) in E as (Hr1 & Hg1 & ->); [|done].
    apply IH with (visited := visited ++ [(s, e)]) in Hf as (Hr2 & Hg2 & Hk2 & Hc2); [|done].
    rewrite <-app_assoc in Hr2. split; [done|]. split; [by eapply adj_grows_trans|]. split.
    + intros k y Hy. apply Hk2. apply (elem_of_bucket_foldl (fun b => claim_key b.1) (fun b => (vnode (s, e), b.2))). auto.
    + intros e' c part [->|He]%elem_of_cons Hc; [|by apply Hc2]. apply Hk2.
      apply (elem_of_bucket_foldl (fun b => claim_key b.1) (fun b => (vnode (s, e), b.2))). right. by exists (c, part).
Qed.

(** A callee runs in the part of the transaction its caller claims it in. *)
Definition in_context (call : ContractCall) (part : bool) : Prop :=
  if part then fallible_transcript call = None else guaranteed_transcript call = None.
Lemma context_callers_ok s entry callers adj adj' :
  try_fold (fun adj '(caller, caller_guar) =>
    if caller_guar && bool_decide (is_Some (fallible_transcript (snd entry)))
    then Err (violation (FallibleInGuaranteedContextViolation (node_index caller) (fst entry) (node_addr caller) (call_address (snd entry))))
    else if negb caller_guar && bool_decide (is_Some (guaranteed_transcript (snd entry)))
    then Err (violation (GuaranteedInFallibleContextViolation (node_index caller) (fst entry) (node_addr caller) (call_address (snd entry))))
    else Ok (push caller (node_of s (fst entry) (snd entry)) adj)) adj callers = Ok adj' ->
  adj_grows adj adj' /\ forall caller part, (caller, part) ∈ callers -> vnode (s, entry) ∈ bucket adj' caller /\ in_context (snd entry) part.
Proof.
  revert adj. induction callers as [|[n part] l IH]; intros adj; cbn [try_fold].
  - intros [= <-]. split; [by intros ??|]. by intros ? ? ?%elem_of_nil.
  - intros Hf. inv_bind. apply IH in Hf as [Hg Hl]. destruct (part && _) eqn:E1; [done|].
    destruct (negb part && _) eqn:E2; [done|]. injection E as <-. split; [eapply adj_grows_trans; [apply adj_grows_push|done]|].
    intros caller part' [[= -> ->]|Hc]%elem_of_cons; [|by apply Hl]. split.
    + apply Hg, elem_of_bucket_push. auto.
    + destruct part; cbn in E1, E2; apply bool_decide_eq_false, eq_None_not_Some in E1 || apply bool_decide_eq_false, eq_None_not_Some in E2; done.
Qed.
Lemma context_check_ok s entries callers adj adj' : try_fold (context_step s callers) adj entries = Ok adj' ->
  adj_grows adj adj' /\ forall e caller part, e ∈ entries -> (caller, part) ∈ bucket callers (call_key e.2) ->
    vnode (s, e) ∈ bucket adj' caller /\ in_context e.2 part.
Proof.
  revert adj. induction entries as [|e entries IH]; intros adj; cbn [try_fold].
  - intros [= <-]. split; [by intros ??|]. by intros ? ? ? ?%elem_of_nil.
  - intros Hf. inv_bind. apply IH in Hf as [Hg Hl]. destruct e as [cid call].
    apply (context_callers_ok s (cid, call)) in E as [Hg1 Hl1]. split; [by eapply adj_grows_trans|].
    intros e' caller part [->|He]%elem_of_cons Hc; [|by apply Hl]. apply Hl1 in Hc as [Hc ?]. auto.
Qed.

(** *** Positions and sequence numbers *)
Lemma claims_by_part_claimed call c part : (c, part) ∈ claims_by_part call -> c ∈ claimed_calls call.
Proof.
  unfold claims_by_part, claimed_calls. rewrite bind_app, !elem_of_app, !list_elem_of_bind.
  intros [(t & Ht & Ho)|(t & Ht & Ho)]; apply list_elem_of_fmap in Ht as (c' & [= -> _] & Hc); eauto.
Qed.
Lemma sub_fold_ok ctx (seq : Z) (addr : ContractAddress) err cids subs subs' :
  try_fold (fun (subs : list SubCall) cid2 => if cid2 <=? ctx then Err (err cid2 : MalformedTransaction) else Ok (subs ++ [(cid2, seq, addr)])) subs cids = Ok subs' ->
  (forall x, x ∈ subs -> x ∈ subs') /\ forall cid, cid ∈ cids -> ctx < cid /\ (cid, seq, addr) ∈ subs'.
Proof.
  revert subs. induction cids as [|cid cids IH]; intros subs; cbn [try_fold].
  - intros [= ->]. split; [done|]. by intros ? ?%elem_of_nil.
  - intros Hf. inv_bind. destruct (Z.leb_spec cid ctx); [done|]. injection E as <-. apply IH in Hf as [Hs Hc]. split.
    + intros x Hx. apply Hs, elem_of_app. auto.
    + intros cid' [->|Hcid]%elem_of_cons; [|by apply Hc]. split; [done|]. apply Hs, elem_of_app. right. left.
Qed.
Lemma call_sequencing_ok ctx call lookup subs : call_sequencing_check ctx call lookup = Ok subs ->
  forall c cid, c ∈ claimed_calls call -> cid ∈ bucket lookup (claim_key c) -> ctx < cid /\ (cid, ccv_seq c, ccv_address c) ∈ subs.
Proof.
  unfold call_sequencing_check. match goal with |- try_fold ?g _ _ = _ -> _ => set (step := g) end.
  generalize (@nil SubCall), (claimed_calls call).
  intros init l Hf. assert ((forall x, x ∈ init -> x ∈ subs) /\ forall c cid, c ∈ l -> cid ∈ bucket lookup (claim_key c) ->
    ctx < cid /\ (cid, ccv_seq c, ccv_address c) ∈ subs) as [_ Hr]; [|exact Hr].
  revert init Hf. induction l as [|c l IH]; intros init; cbn [try_fold].
  - intros [= ->]. split; [done|]. by intros ? ? ?%elem_of_nil.
  - intros Hf. inv_bind. unfold step in E. apply (sub_fold_ok _ _ _ (fun cid2 => violation (CallSequencingViolation ctx cid2 (call_address call) (ccv_address c)))) in E as [Hs Hc].
    apply IH in Hf as [Hs' Hc']. split; [auto|]. intros c' cid [->|Hl]%elem_of_cons Hb; [|by apply Hc']. apply Hc in Hb as [? ?]. auto.
Qed.
Lemma windows2_Sorted {A} (R : relation A) l : (forall p, p ∈ windows2 l -> R p.1 p.2) -> Sorted R l.
Proof.
  induction l as [|x [|y l] IH]; intros Hw; [constructor|repeat constructor|]. cbn [windows2] in Hw. constructor.
  - apply IH. intros p Hp. apply Hw. by right.
  - constructor. apply (Hw (x, y)). left.
Qed.
Lemma correlation_ok addr subs : sequencing_correlation_check addr subs = Ok tt ->
  forall a b, a ∈ subs -> b ∈ subs -> a.1.2 < b.1.2 <-> a.1.1 < b.1.1.
Proof.
  unfold sequencing_correlation_check. rewrite try_for_each_Ok. intros Hw a b Ha Hb.
  assert (StronglySorted (fun x y : SubCall => x.1.2 < y.1.2 /\ x.1.1 < y.1.1) (merge_sort sub_le subs)) as Hs.
  { apply Sorted_StronglySorted; [intros x y z; lia|]. apply windows2_Sorted. intros [[[ca sa] aa] [[cb sb] ab]] Hp. apply Hw in Hp.
    apply require_Ok in Hp. cbn. lia. }
  rewrite <-(merge_sort_Permutation sub_le subs) in Ha, Hb. destruct (StronglySorted_total _ _ _ _ Hs Ha Hb) as [->|[?|?]]; lia.
Qed.

(** *** One intent *)
Definition visits (entry : Segment * Intent) : list Visit := pair entry.1 <$> sorted_map (as_indexed (intent_calls entry.2)).
Record Sequenced (adj : gmap CallNode (list CallNode)) (entry : Segment * Intent) : Prop := {
  sequenced_link x y part seq : x ∈ visits entry -> y ∈ visits entry -> claims (vcall x) (vcall y) part seq -> link adj x y;
  sequenced_order x y part seq : x ∈ visits entry -> y ∈ visits entry -> claims (vcall x) (vcall y) part seq ->
    x.2.1 < y.2.1 /\ in_context (vcall y) part;
  sequenced_corr x y z p q p' q' : x ∈ visits entry -> y ∈ visits entry -> z ∈ visits entry ->
    claims (vcall x) (vcall y) p q -> claims (vcall x) (vcall z) p' q' -> q < q' <-> y.2.1 < z.2.1;
}.
Lemma Sequenced_grows adj adj' entry : adj_grows adj adj' -> Sequenced adj entry -> Sequenced adj' entry.
Proof. intros Hg [Hl Ho Hc]. split; [|done|done]. intros. eapply link_grows; [done|]. by eapply Hl. Qed.

Lemma sequence_intent_ok st entry st' visited : Related st visited -> sequence_intent st entry = Ok st' ->
  Related st' (visited ++ visits entry) /\ adj_grows (adjacencies st) (adjacencies st') /\ Sequenced (adjacencies st') entry.
Proof.
  destruct entry as [s intent]. intros Hr. unfold sequence_intent, visits. cbn [fst snd].
  set (calls := sorted_map (as_indexed (intent_calls intent))). intros Hs.
  apply bind_Ok_inv in Hs as ([] & Hseq & Hs). apply bind_Ok_inv in Hs as ([st1 callers] & Hrel & Hs).
  apply bind_Ok_inv in Hs as (adj & Hctx & [= <-]). cbn [adjacencies].
  unfold relate_nodes in Hrel. apply (relate_fold_related _ _ _ _ _ _ visited Hr) in Hrel as (Hr1 & Hg1 & _ & Hcallers).
  unfold sequencing_context_check in Hctx. apply context_check_ok in Hctx as [Hg2 Hctx]. fold calls in Hcallers, Hctx, Hr1.
  split; [|split; [by eapply adj_grows_trans|]].
  - destruct Hr1 as [? ? ? ? Hch]. split; [done..|]. intros a. by apply (chain_grows (adjacencies st1)).
  - assert (forall x y part seq, x ∈ calls -> y ∈ calls -> claims x.2 y.2 part seq ->
      link adj (s, x) (s, y) /\ in_context y.2 part) as Hlink.
    { intros x y part seq Hx Hy (c & Hc & Hk & _). apply Hctx; [done|]. rewrite <-Hk. by apply Hcallers. }
    assert (forall x y part seq, x ∈ calls -> y ∈ calls -> claims x.2 y.2 part seq -> exists subs addr a,
      call_sequencing_check x.1 x.2 (foldl (fun m '(cid, call) => push (call_key call) cid m) ∅ calls) = Ok subs /\
      sequencing_correlation_check addr subs = Ok tt /\ x.1 < y.1 /\ (y.1, seq, a) ∈ subs) as Hsub.
    { intros [cx x] [cy y] part seq Hx Hy (c & Hc & Hk & <-). pose proof (proj1 (try_for_each_Ok _ _) Hseq _ Hx) as Hok.
      cbn in Hok. apply bind_Ok_inv in Hok as (subs & Hsub & Hcorr). exists subs, (call_address x), (ccv_address c).
      split; [done|]. split; [done|]. cbn. apply (call_sequencing_ok _ _ _ _ Hsub); [by eapply claims_by_part_claimed|].
      rewrite Hk. fold calls.
      assert (forall m, foldl (fun m '(cid, call) => push (call_key call) cid m) m calls
        = foldl (fun m b => push (call_key b.2) b.1 m) m calls) as ->.
      { clear. induction calls as [|[k v] l IH]; intros m; [done|]. apply IH. }
      apply (elem_of_bucket_foldl (fun b => call_key b.2) fst). right. by exists (cy, y). }
    split.
    + intros x y part seq (x' & -> & Hx)%list_elem_of_fmap (y' & -> & Hy)%list_elem_of_fmap Hc. exact (proj1 (Hlink _ _ _ _ Hx Hy Hc)).
    + intros x y part seq (x' & -> & Hx)%list_elem_of_fmap (y' & -> & Hy)%list_elem_of_fmap Hc. split; [|exact (proj2 (Hlink _ _ _ _ Hx Hy Hc))].
      by destruct (Hsub _ _ _ _ Hx Hy Hc) as (? & ? & ? & _ & _ & ? & _).
    + intros x y z p q p' q' (x' & -> & Hx)%list_elem_of_fmap (y' & -> & Hy)%list_elem_of_fmap (z' & -> & Hz)%list_elem_of_fmap Hc Hc'.
      destruct (Hsub _ _ _ _ Hx Hy Hc) as (subs & addr & a & Hs1 & Hcorr & _ & Hin).
      destruct (Hsub _ _ _ _ Hx Hz Hc') as (subs' & addr' & a' & Hs2 & _ & _ & Hin'). rewrite Hs1 in Hs2. injection Hs2 as <-.
      apply (correlation_ok _ _ Hcorr _ _ Hin Hin').
Qed.
Lemma sequence_fold_ok l st st' visited : Related st visited -> try_fold sequence_intent st l = Ok st' ->
  Related st' (visited ++ (l ≫= visits)) /\ adj_grows (adjacencies st) (adjacencies st') /\
  forall entry, entry ∈ l -> Sequenced (adjacencies st') entry.
Proof.
  revert st visited. induction l as [|e l IH]; intros st visited Hr; cbn [try_fold].
  - intros [= <-]. cbn. rewrite app_nil_r. split; [done|]. split; [by intros ??|]. by intros ? ?%elem_of_nil.
  - intros Hf. apply bind_Ok_inv in Hf as (st1 & E & Hf). apply (sequence_intent_ok _ _ _ visited Hr) in E as (Hr1 & Hg1 & Hs1).
    apply (IH _ _ Hr1) in Hf as (Hr2 & Hg2 & Hs2). rewrite bind_cons, app_assoc. split; [done|]. split; [by eapply adj_grows_trans|].
    intros e' [->|He]%elem_of_cons; [by eapply Sequenced_grows|auto].
Qed.
End invariant.

(** ** The sequencing check *)
Section causality.
Context `{Hashing} `{KeyTypes}.

Definition visit_of (x : Site) : Segment * (Z * ContractCall) := (site_segment x, (Z.of_nat (site_index x), site_call x)).
Definition all_visits (stx : StandardTransaction) : list (Segment * (Z * ContractCall)) := sorted_map (intents stx) ≫= visits.
Definition visit_lt (a b : Segment * (Z * ContractCall)) : Prop := a.1 < b.1 \/ a.1 = b.1 /\ a.2.1 < b.2.1.

Lemma call_site_visit stx x : indexable stx -> call_site stx x ->
  exists intent, (site_segment x, intent) ∈ sorted_map (intents stx) /\ visit_of x ∈ visits (site_segment x, intent).
Proof.
  intros Hix (intent & Hi & Hc). exists intent. split; [by apply elem_of_sorted_map|]. unfold visit_of, visits. cbn [fst snd].
  apply (list_elem_of_fmap_2 (pair (site_segment x))), elem_of_sorted_map.
  apply as_indexed_Some; [by eapply Hix|]. eauto.
Qed.
Lemma visit_of_all stx x : indexable stx -> call_site stx x -> visit_of x ∈ all_visits stx.
Proof. intros Hix Hx. destruct (call_site_visit _ _ Hix Hx) as (i & Hi & Hv). apply list_elem_of_bind. eauto. Qed.
Lemma all_visits_sorted stx : StronglySorted visit_lt (all_visits stx).
Proof.
  unfold all_visits. induction (sorted_map_strict (intents stx)) as [|[s i] l _ IH Hs]; [constructor|].
  rewrite bind_cons. apply StronglySorted_app_2; [|eapply StronglySorted_fmap; [|apply sorted_map_strict]|done].
  - intros x y (x' & -> & _)%list_elem_of_fmap ([s' i'] & (y' & -> & _)%list_elem_of_fmap & Hl)%list_elem_of_bind.
    rewrite list.Forall_forall in Hs. left. exact (Hs _ Hl).
  - intros x y Hxy. right. done.
Qed.
Lemma Sorted_impl_in {A} (R S : relation A) l : (forall x y, x ∈ l -> y ∈ l -> R x y -> S x y) -> Sorted R l -> Sorted S l.
Proof.
  intros HRS Hs. induction Hs as [|a l _ IH Hd]; constructor.
  - apply IH. intros x y Hx Hy. apply HRS; by right.
  - destruct Hd; constructor. apply HRS; [left|right; left|done].
Qed.

(** Calls connected by recorded adjacencies. *)
Definition connected (adj : gmap CallNode (list CallNode)) (all : list (Segment * (Z * ContractCall))) : relation (Segment * (Z * ContractCall)) :=
  tc (fun x y => x ∈ all /\ y ∈ all /\ link adj x y).
Lemma precedes_connected stx st x y : indexable stx -> Related st (all_visits stx) ->
  (forall entry, entry ∈ sorted_map (intents stx) -> Sequenced (adjacencies st) entry) ->
  precedes stx x y -> connected (adjacencies st) (all_visits stx) (visit_of x) (visit_of y).
Proof.
  intros Hix Hr Hseq (Hx & Hy & Hxy).
  pose proof (visit_of_all _ _ Hix Hx) as Hvx. pose proof (visit_of_all _ _ Hix Hy) as Hvy. destruct Hxy as [(Hs & g & q & Hc)|(Ha & Hlt)].
  - destruct (call_site_visit _ _ Hix Hx) as (i & Hi & Hvi), (call_site_visit _ _ Hix Hy) as (j & Hj & Hvj). rewrite <-Hs in Hj, Hvj.
    assert (i = j) as <- by (apply elem_of_sorted_map in Hi, Hj; congruence).
    constructor. split; [done|]. split; [done|]. by eapply (sequenced_link _ _ (Hseq _ Hi)).
  - assert (StronglySorted (fun a b => connected (adjacencies st) (all_visits stx) a b /\ visit_lt a b)
      (to_address (call_address (site_call y)) (all_visits stx))) as Hss.
    { apply StronglySorted_both; [|apply StronglySorted_filter, all_visits_sorted]. apply Sorted_connected.
      eapply Sorted_impl_in; [|apply (related_chain _ _ Hr)]. intros a b [_ Hin]%list_elem_of_filter [_ Hin']%list_elem_of_filter. auto. }
    destruct (StronglySorted_total _ _ (visit_of x) (visit_of y) Hss) as [Heq|[[Hc _]|[_ Hlt']]].
    + by apply list_elem_of_filter.
    + by apply list_elem_of_filter.
    + injection Heq. intros. lia.
    + done.
    + unfold visit_lt in Hlt'. cbn in Hlt'. lia.
Qed.

(** A fallible call only connects to calls without a guaranteed part. *)
Lemma connected_late stx st x y : Related st (all_visits stx) ->
  causality_check (guaranteed_calls st) (fallible_calls st) (adjacencies st) = Ok tt ->
  connected (adjacencies st) (all_visits stx) x y -> is_Some (fallible_transcript (vcall x)) ->
  guaranteed_transcript (vcall y) = None /\ is_Some (fallible_transcript (vcall y)).
Proof.
  intros Hr Hc. unfold causality_check in Hc. rewrite try_for_each_Ok in Hc.
  assert (forall x y, x ∈ all_visits stx /\ y ∈ all_visits stx /\ link (adjacencies st) x y -> is_Some (fallible_transcript (vcall x)) ->
    guaranteed_transcript (vcall y) = None /\ is_Some (fallible_transcript (vcall y))) as Hstep.
  { intros a b (Ha & Hb & Hl) Hf. specialize (Hc (vnode a)). rewrite elem_of_elements, try_for_each_Ok in Hc.
    specialize (Hc (related_fallible _ _ Hr _ Ha Hf) _ Hl). apply require_Ok, negb_true_iff, bool_decide_eq_false in Hc.
    destruct (guaranteed_transcript (vcall b)) eqn:Hg.
    - destruct Hc. apply (related_guaranteed _ _ Hr); [done|]. by rewrite Hg.
    - split; [done|]. destruct (related_nonempty _ _ Hr _ Hb) as [Hs|Hs]; [|done]. rewrite Hg in Hs. by destruct Hs. }
  intros Hxy. induction Hxy as [a b Hab|a b c Hab _ IH]; intros Hf; [by eapply Hstep|]. apply IH. by eapply Hstep.
Qed.
Lemma sequencing_check_inv stx : sequencing_check stx = Ok tt -> exists st, Related st (all_visits stx) /\
  (forall entry, entry ∈ sorted_map (intents stx) -> Sequenced (adjacencies st) entry) /\
  causality_check (guaranteed_calls st) (fallible_calls st) (adjacencies st) = Ok tt.
Proof.
  unfold sequencing_check. intros (st & Hf & Hc)%bind_Ok_inv. apply (sequence_fold_ok _ _ _ [] Related_new) in Hf as (Hr & _ & Hs). eauto.
Qed.

(** A claimed callee comes later and consists of the part it is claimed in. *)
Definition only_part (call : ContractCall) (part : bool) : Prop :=
  if part then is_Some (guaranteed_transcript call) /\ fallible_transcript call = None
  else guaranteed_transcript call = None /\ is_Some (fallible_transcript call).
Lemma sequenced_callee stx x y part seq : sequencing_check stx = Ok tt -> indexable stx -> call_site stx x -> call_site stx y ->
  site_segment x = site_segment y -> claims (site_call x) (site_call y) part seq ->
  (site_index x < site_index y)%nat /\ only_part (site_call y) part.
Proof.
  intros Hc Hix Hx Hy Hxy Hcl. destruct (sequencing_check_inv _ Hc) as (st & Hr & Hs & _).
  pose proof (visit_of_all _ _ Hix Hy) as Hall.
  destruct (call_site_visit _ _ Hix Hx) as (i & Hi & Hvx), (call_site_visit _ _ Hix Hy) as (j & Hj & Hvy). rewrite <-Hxy in Hj, Hvy.
  assert (i = j) as <- by (apply elem_of_sorted_map in Hi, Hj; congruence).
  destruct (sequenced_order _ _ (Hs _ Hi) _ _ part seq Hvx Hvy Hcl) as [Hlt Hin]. cbn in Hlt. split; [lia|].
  destruct (related_nonempty _ _ Hr _ Hall) as [Hn|Hn]; unfold only_part; destruct part; cbn in Hin, Hn; rewrite ?Hin in Hn;
    (split; [done|done]) || by destruct Hn.
Qed.

(** C9: Causal precedence is respected.  A call causally precedes the calls it
    makes in its intent and all later calls to the same contract, and
    transitively what those precede.  If a transaction passes the sequencing
    check and [x] causally precedes [y], then [x] has no fallible part or [y]
    has no guaranteed part, so that no part of [y] runs before a part of [x].
    Recording only the last call to each contract as predecessor, as the code
    does, is enough. *)
Theorem causal_precedence_respected stx x y :
  sequencing_check stx = Ok tt -> indexable stx -> tc (precedes stx) x y ->
  fallible_transcript (site_call x) = None \/ guaranteed_transcript (site_call y) = None.
Proof.
  intros Hc Hix Hxy. destruct (sequencing_check_inv _ Hc) as (st & Hr & Hs & Hcc).
  assert (connected (adjacencies st) (all_visits stx) (visit_of x) (visit_of y)) as Hconn.
  { induction Hxy as [a b Hab|a b c Hab _ IH]; [by eapply precedes_connected|].
    eapply tc_transitive; [|exact IH]. by eapply precedes_connected. }
  destruct (fallible_transcript (site_call x)) eqn:Hf; [right|by left].
  eapply (connected_late _ _ _ _ Hr Hcc) in Hconn as [Hg _]; [done|]. cbn. by rewrite Hf.
Qed.

(** Calls nest as their claims say.  In an intent of a transaction that
    passes the sequencing check, a call comes before the calls it claims; a
    callee claimed in the guaranteed part of its caller has only a guaranteed
    part, one claimed in the fallible part only a fallible one; and the callees
    of a call come in the order of their sequence numbers. *)
Theorem calls_nest stx x y z gy sy gz sz :
  sequencing_check stx = Ok tt -> indexable stx -> call_site stx x -> call_site stx y -> call_site stx z ->
  site_segment x = site_segment y -> site_segment x = site_segment z ->
  claims (site_call x) (site_call y) gy sy -> claims (site_call x) (site_call z) gz sz ->
  (site_index x < site_index y)%nat /\ in_context (site_call y) gy /\ (sy < sz <-> (site_index y < site_index z)%nat).
Proof.
  intros Hc Hix Hx Hy Hz Hxy Hxz Hcy Hcz. destruct (sequencing_check_inv _ Hc) as (st & _ & Hs & _).
  destruct (call_site_visit _ _ Hix Hx) as (i & Hi & Hvx), (call_site_visit _ _ Hix Hy) as (j & Hj & Hvy),
    (call_site_visit _ _ Hix Hz) as (k & Hk & Hvz). rewrite <-Hxy in Hj, Hvy. rewrite <-Hxz in Hk, Hvz.
  assert (i = j) as <- by (apply elem_of_sorted_map in Hi, Hj; congruence).
  assert (i = k) as <- by (apply elem_of_sorted_map in Hi, Hk; congruence). specialize (Hs _ Hi).
  destruct (sequenced_order _ _ Hs _ _ gy sy Hvx Hvy Hcy) as [Hlt Hin]. cbn in Hlt. split; [lia|]. split; [done|].
  pose proof (sequenced_corr _ _ Hs _ _ _ _ _ _ _ Hvx Hvy Hvz Hcy Hcz) as Hcorr. cbn in Hcorr. rewrite Hcorr. lia.
Qed.
End causality.

(** ** Examples *)
From S2P Require Import RuntimeProps ToyLedger.

(** In segment 1, contract 1 calls contracts 2 and 3 in its guaranteed part; in
    segment 2, contract 2 is called with a fallible part only. *)
Definition toy_claim_of (n seq : Z) : ClaimedContractCallsValue := {|
  ccv_seq := seq; ccv_address := toy_hash n; ccv_ep_hash := ep_hash []; ccv_comm := n |}.
Definition toy_transcript (callees : list ClaimedContractCallsValue) : Transcript := {|
  t_gas := RunningCost_ZERO; t_program := []; t_version := Some (2, 3);
  t_effects := {| claimed_nullifiers := ∅; claimed_shielded_receives := ∅; claimed_shielded_spends := ∅;
    claimed_contract_calls := list_to_set callees; shielded_mints := ∅; unshielded_mints := ∅; unshielded_inputs := ∅;
    unshielded_outputs := ∅; claimed_unshielded_spends := ∅ |} |}.
Definition toy_call (n : Z) (g f : option Transcript) : ContractCall := {|
  call_address := toy_hash n; call_entry_point := []; guaranteed_transcript := g; fallible_transcript := f; communication_commitment := n |}.
Definition toy_calls (l : list ContractCall) : Intent := {|
  guaranteed_unshielded_offer := None; fallible_unshielded_offer := None; actions := Call <$> l; dust_actions := None; ttl := 500;
  binding_commitment := tt |}.
Definition toy_caller : ContractCall := toy_call 1 (Some (toy_transcript [toy_claim_of 2 0; toy_claim_of 3 1])) None.
Definition toy_callee (n : Z) : ContractCall := toy_call n (Some (toy_transcript [])) None.
Definition toy_later : ContractCall := toy_call 2 None (Some (toy_transcript [])).
Definition toy_sequence (first second : Intent) : StandardTransaction := {|
  network_id := "toy"; intents := {[ 1 := first; 2 := second ]}; guaranteed_coins := None; fallible_coins := ∅; binding_randomness := 0 |}.
Definition toy_sequenced : StandardTransaction :=
  toy_sequence (toy_calls [toy_caller; toy_callee 2; toy_callee 3]) (toy_calls [toy_later]).
Definition toy_site (s : Segment) (i : nat) (c : ContractCall) : Site := {| site_segment := s; site_index := i; site_call := c |}.

(** A later call to contract 2 with a guaranteed part is rejected if the first has a fallible one. *)
Example toy_unsequenced :
  sequencing_check (toy_sequence (toy_calls [toy_later]) (toy_calls [toy_callee 2])) =
  Err (SequencingCheckFailure (CausalityConstraintViolation 0 0 (toy_hash 2) (toy_hash 2) 1 2)).
Proof. vm_compute. reflexivity. Qed.
(** Two calls of one intent are ordered like calls of different intents. *)
Example toy_same_intent :
  sequencing_check (toy_sequence (toy_calls [toy_later; toy_callee 2]) (toy_calls [])) =
  Err (SequencingCheckFailure (CausalityConstraintViolation 0 1 (toy_hash 2) (toy_hash 2) 1 1)).
Proof. vm_compute. reflexivity. Qed.

Lemma toy_indexable : indexable toy_sequenced.
Proof.
  intros s intent Hi. unfold toy_sequenced, toy_sequence in Hi. cbn in Hi.
  apply lookup_insert_Some in Hi as [[_ <-]|[_ [_ <-]%lookup_singleton_Some]]; vm_compute; discriminate.
Qed.
Lemma toy_intents : intents toy_sequenced !! 1 = Some (toy_calls [toy_caller; toy_callee 2; toy_callee 3]) /\
  intents toy_sequenced !! 2 = Some (toy_calls [toy_later]).
Proof.
  unfold toy_sequenced, toy_sequence. cbn [intents]. split; [apply lookup_insert_eq|].
  rewrite lookup_insert_ne by done. apply lookup_singleton_eq.
Qed.
Lemma toy_claims n seq : (n, seq) = (2, 0) \/ (n, seq) = (3, 1) -> claims toy_caller (toy_callee n) true seq.
Proof.
  intros Hn. exists (toy_claim_of n seq). split; [|split; [by destruct Hn as [[= -> ->]|[= -> ->]]|done]].
  apply elem_of_app. left. cbn. rewrite app_nil_r. apply list_elem_of_fmap. exists (toy_claim_of n seq). split; [done|].
  rewrite elem_of_elements. destruct Hn as [[= -> ->]|[= -> ->]]; set_solver.
Qed.
Lemma toy_sequenced_ok : sequencing_check toy_sequenced = Ok tt.
Proof. vm_compute. reflexivity. Qed.
Lemma toy_sites : call_site toy_sequenced (toy_site 1 0 toy_caller) /\ call_site toy_sequenced (toy_site 1 1 (toy_callee 2)) /\
  call_site toy_sequenced (toy_site 1 2 (toy_callee 3)) /\ call_site toy_sequenced (toy_site 2 0 toy_later).
Proof. destruct toy_intents as [I1 I2]. repeat split; eexists; (split; [exact I1 || exact I2|reflexivity]). Qed.
Lemma toy_precedes : tc (precedes toy_sequenced) (toy_site 1 0 toy_caller) (toy_site 2 0 toy_later).
Proof.
  destruct toy_sites as (S1 & S2 & _ & S4). apply tc_l with (toy_site 1 1 (toy_callee 2)); [|apply tc_once].
  - split; [done|]. split; [done|]. left. split; [done|]. exists true, 0. apply toy_claims. by left.
  - split; [done|]. split; [done|]. right. split; [done|]. by left.
Qed.
Lemma causal_precedence_respected_witness :
  fallible_transcript toy_caller = None \/ guaranteed_transcript toy_later = None.
Proof.
  exact (causal_precedence_respected toy_sequenced (toy_site 1 0 toy_caller) (toy_site 2 0 toy_later) toy_sequenced_ok
    toy_indexable toy_precedes).
Defined.
Lemma calls_nest_witness : (0 < 1)%nat /\ in_context (toy_callee 2) true /\ (0 < 1 <-> (1 < 2)%nat).
Proof.
  destruct toy_sites as (S1 & S2 & S3 & _).
  exact (calls_nest toy_sequenced (toy_site 1 0 toy_caller) (toy_site 1 1 (toy_callee 2)) (toy_site 1 2 (toy_callee 3)) true 0 true 1
    toy_sequenced_ok toy_indexable S1 S2 S3 eq_refl eq_refl (toy_claims 2 0 (or_introl eq_refl)) (toy_claims 3 1 (or_intror eq_refl))).
Defined.
