(* ===== verification/WellFormed.v ===== *)
(** * Well-formedness of transactions ([ledger/src/verify.rs], [dust.rs], [zswap/src/verify.rs])

    The checks a transaction passes before it is applied, against a possibly
    older reference state.  Sealed transactions are modelled: they carry
    signatures, proofs and binding commitments with proofs of exponent.  Proofs
    are checked as with the feature [proof-verifying]. *)
From S2P Require Import Prelude Time CostModel Fab FabSerial Scale MerkleTree TimeFilterMap Zswap StateValue VmOps.
From S2P Require Import Coin DeltaTracking Runtime LedgerData LedgerCost Dust Ledger VerifyData Balance EffectsCheck Sequencing.
From stdpp Require Import sorting.
Set Warnings "-register-all".
#[local] Open Scope Z_scope.

(** ** Equality of parameters *)
#[global] Instance FeePrices_eq_dec : EqDecision FeePrices.
Proof. solve_decision. Defined.
#[global] Instance SyntheticCost_eq_dec : EqDecision SyntheticCost.
Proof. solve_decision. Defined.
#[global] Instance VmCostModel_eq_dec : EqDecision VmCostModel.
Proof. solve_decision. Defined.
#[global] Instance TransactionCostModel_eq_dec : EqDecision TransactionCostModel.
Proof. solve_decision. Defined.
#[global] Instance TransactionLimits_eq_dec : EqDecision TransactionLimits.
Proof. solve_decision. Defined.
#[global] Instance DustParameters_eq_dec : EqDecision DustParameters.
Proof. solve_decision. Defined.
#[global] Instance LedgerParameters_eq_dec : EqDecision LedgerParameters.
Proof. solve_decision. Defined.
#[global] Instance RcMap_eq_dec : EqDecision RcMap.
Proof. solve_decision. Defined.
#[global] Instance ContractMaintenanceAuthority_eq_dec `{KeyTypes} : EqDecision ContractMaintenanceAuthority.
Proof. solve_decision. Defined.

(** ** Reference states

    [StateReference]: how a check reaches the state.  A full check looks at one
    state; revalidation skips what was established against an older one and did
    not change. *)
Class StateReference `{KeyTypes} (R : Type) := {
  stateless_check : R -> check -> check;
  param_check : R -> bool -> (LedgerParameters -> check) -> check;
  op_check : R -> ContractAddress -> EntryPointBuf -> (ContractOperation -> check) -> check;
  maintenance_check : R -> ContractAddress -> (ContractMaintenanceAuthority -> check) -> check;
  fee_availability_check : R -> Intent -> VerifyingKey -> (Z -> check) -> check;
  dust_spend_check : R -> Z -> (DustParameters -> Fr -> Fr -> check) -> check;
  network_check : R -> string -> check;
}.

Section references.
Context `{Hashing} `{LedgerHashing}.

Definition get_op (state : LedgerState) (address : ContractAddress) (entry_point : EntryPointBuf)
    : outcome MalformedTransaction ContractOperation :=
  cstate ← ok_or (contract state !! address) (MT_ContractNotPresent address);
  ok_or (operations cstate !! entry_point) (VerifierKeyNotPresent address entry_point).
Definition get_authority (state : LedgerState) (address : ContractAddress) : outcome MalformedTransaction ContractMaintenanceAuthority :=
  cstate ← ok_or (contract state !! address) (MT_ContractNotPresent address);
  Ok (maintenance_authority cstate).
Definition fee_availability (state : LedgerState) (parent_intent : Intent) (night_key : VerifyingKey) : Z :=
  generationless_fee_availability (dust state) (utxo state) parent_intent night_key (dust_params (parameters state)).
(** Dust parameters and the roots associated with a time; a missing root is the default one. *)
Definition dust_roots (state : LedgerState) (ctime : Z) : DustParameters * Fr * Fr :=
  (dust_params (parameters state), default 0 (tf_get (du_root_history (du (dust state))) ctime),
   default 0 (tf_get (dg_root_history (generation (dust state))) ctime)).
Definition network_is (state : LedgerState) (network : string) : check :=
  require (bool_decide (ls_network_id state = network)) (InvalidNetworkId (ls_network_id state) network).

#[global] Instance LedgerState_reference : StateReference LedgerState := {|
  stateless_check _ c := c;
  param_check self _ c := c (parameters self);
  op_check self address entry_point c := op ← get_op self address entry_point; c op;
  maintenance_check self address c := auth ← get_authority self address; c auth;
  fee_availability_check self intent key c := c (fee_availability self intent key);
  dust_spend_check self ctime c := let '(params, commitment_root, generation_root) := dust_roots self ctime in
    c params commitment_root generation_root;
  network_check := network_is |}.

Record RevalidationReference := { previously_validated_state : LedgerState; new_state : LedgerState }.
#[global] Instance RevalidationReference_reference : StateReference RevalidationReference := {|
  stateless_check _ _ := Ok tt;
  param_check self always c :=
    if always || negb (bool_decide (parameters (previously_validated_state self) = parameters (new_state self)))
    then c (parameters (new_state self)) else Ok tt;
  op_check self address entry_point c :=
    old_op ← get_op (previously_validated_state self) address entry_point;
    new_op ← get_op (new_state self) address entry_point;
    if bool_decide (old_op = new_op) then Ok tt else c new_op;
  maintenance_check self address c :=
    auth_old ← get_authority (previously_validated_state self) address;
    auth_new ← get_authority (new_state self) address;
    if bool_decide (auth_old = auth_new) then Ok tt else c auth_new;
  fee_availability_check self intent key c := c (fee_availability (new_state self) intent key);
  dust_spend_check self ctime c :=
    if bool_decide (dust_roots (previously_validated_state self) ctime = dust_roots (new_state self) ctime) then Ok tt
    else let '(params, commitment_root, generation_root) := dust_roots (new_state self) ctime in
      c params commitment_root generation_root;
  network_check self := network_is (new_state self) |}.
End references.

(** ** Zswap offers ([zswap/src/verify.rs]) *)
Section zswap_offers.
Context `{Hashing} `{Statements}.
Abbreviation offer_check := (outcome MalformedOffer unit).

Definition input_well_formed (self : SealedInput) (segment : Segment) : offer_check :=
  require (vk_verify zswap_spend_vk (inp_proof self) (input_statement self segment)) InvalidOfferProof.
Definition output_well_formed (self : SealedOutput) (segment : Segment) : offer_check :=
  match out_contract_address self, out_ciphertext self with
  | Some address, Some ciphertext => Err (ContractSentCiphertext address ciphertext)
  | _, _ => require (vk_verify zswap_output_vk (out_proof self) (output_statement self segment)) InvalidOfferProof
  end.
Definition transient_well_formed (self : SealedTransient) (segment : Segment) : offer_check :=
  input ← as_input self;
  _ ← input_well_formed input segment;
  output_well_formed (as_output self) segment.
Definition pedersen_sub (a b : Pedersen) : Pedersen := pedersen_add a (pedersen_neg b).
(** [Pedersen::commit] with randomness 0. *)
Definition delta_commit (d : @ZswapDelta ShieldedTokenType) (segment : Segment) : Pedersen :=
  pedersen_add (pedersen_mul pedersen_generator 0) (pedersen_mul (token_base (delta_token_type d) segment) (delta_value d)).
Definition offer_normalized (offer : SealedOffer) : bool :=
  is_sorted zswap_input_compare (offer_inputs offer) && is_sorted zswap_output_compare (offer_outputs offer)
  && is_sorted zswap_transient_compare (offer_transient offer)
  && windows_all (fun a b => match bytes_compare (delta_token_type a) (delta_token_type b) with Lt => true | _ => false end)
       (offer_deltas offer)
  && forallb (fun d => negb (delta_value d =? 0)) (offer_deltas offer).
Definition offer_well_formed_common (offer : SealedOffer) (segment : Segment) : outcome MalformedOffer Pedersen :=
  if negb (offer_normalized offer) then Err OfferNotNormalized
  else
    let io_com := foldl pedersen_add pedersen_zero
      ((inp_value_commitment <$> offer_inputs offer) ++ (pedersen_neg ∘ out_value_commitment <$> offer_outputs offer)
       ++ ((fun io => pedersen_sub (tr_value_commitment_input io) (tr_value_commitment_output io)) <$> offer_transient offer)) in
    let deltas_com := foldl pedersen_add pedersen_zero ((fun d => delta_commit d segment) <$> offer_deltas offer) in
    Ok (pedersen_sub io_com deltas_com).
Definition offer_well_formed (self : SealedOffer) (segment : Segment) : outcome MalformedOffer Pedersen :=
  _ ← try_for_each (fun i => input_well_formed i segment) (offer_inputs self);
  _ ← try_for_each (fun o => output_well_formed o segment) (offer_outputs self);
  _ ← try_for_each (fun t => transient_well_formed t segment) (offer_transient self);
  offer_well_formed_common self segment.
End zswap_offers.

(** ** Contracts *)
Section contracts.
Context `{Hashing} `{LedgerHashing} `{!ProofSystem} `{!Statements} `{StateArena}.

(** [ContractOperationExt::well_formed]. *)
Definition operation_well_formed (self : ContractOperation) (address : ContractAddress) (operation : EntryPointBuf) : check :=
  match co_v2 self with Some _ => Ok tt | None => Err (VerifierKeyNotSet address operation) end.
(** [ContractStateExt::well_formed]. *)
Definition contract_state_well_formed (self : ContractState) (address : ContractAddress) : check :=
  _ ← try_for_each (fun '(name, op) => operation_well_formed op address name) (map_to_list (operations self));
  require (ma_counter (maintenance_authority self) =? 0) NotNormalized.
(** [ContractDeploy::well_formed]; the states compared differ at most in what is charged. *)
Definition deploy_well_formed (self : ContractDeploy) : check :=
  let state := initial_state self in
  _ ← contract_state_well_formed state (deploy_address self);
  if existsb (fun bal => 0 <? bal.2) (map_to_list (cst_balance state))
  then Err (MT_ContractDeploy (NonZeroBalance (cst_balance state)))
  else
    rechecked_state ← ChargedState_new (cs_state (cst_data state));
    require (bool_decide (charged_keys rechecked_state = charged_keys (cst_data state))) (MT_ContractDeploy IncorrectChargedState).

(** [MaintenanceUpdate::data_to_sign] and [well_formed]. *)
Definition update_data_to_sign (self : MaintenanceUpdate) : list Z :=
  ascii_bytes "midnight:contract-update:" ++ mu_address self ++ serialize_updates (mu_updates self)
  ++ uint_serialize 4 (mu_counter self).
Definition bad_counter (counter : Z) (up : SingleUpdate) : bool :=
  match up with ReplaceAuthority new_auth => negb (ma_counter new_auth =? sat_add u32_max counter 1) | _ => false end.
Definition committee_signature (self : MaintenanceUpdate) (strictness : WellFormedStrictness) (authority : ContractMaintenanceAuthority)
    (entry : Z * SignatureT) : check :=
  let '(idx, sig) := entry in
  vk ← ok_or (committee authority !! Z.to_nat idx) (KeyNotInCommittee (mu_address self) idx);
  require (negb (verify_signatures strictness && negb (signature_verify (update_data_to_sign self) vk sig)))
    (InvalidCommitteeSignature (mu_address self) idx).
Definition authority_check (self : MaintenanceUpdate) (strictness : WellFormedStrictness) (authority : ContractMaintenanceAuthority) : check :=
  _ ← require (windows_all (fun a b => a.1 <? b.1) (mu_signatures self)) NotNormalized;
  _ ← require (negb (existsb (bad_counter (mu_counter self)) (mu_updates self))) NotNormalized;
  _ ← try_for_each (committee_signature self strictness authority) (mu_signatures self);
  require (negb (count (mu_signatures self) <? threshold authority))
    (ThresholdMissed (mu_address self) (count (mu_signatures self)) (threshold authority)).
Definition update_well_formed {R} `{!StateReference R} (self : MaintenanceUpdate) (ref_state : R) (strictness : WellFormedStrictness) : check :=
  maintenance_check ref_state (mu_address self) (authority_check self strictness).

(** [proof_verify] of [ProofMarker]. *)
Definition call_proof_verify (op : ContractOperation) (proof : Proof) (pis : list Fr) (call : ContractCall) : check :=
  vk ← ok_or (co_v2 op) (VerifierKeyNotPresent (call_address call) (call_entry_point call));
  require (vk_verify vk proof pis) InvalidProof.
Definition version_ok (t : Transcript) : bool :=
  match t_version t with Some (major, minor) => (major =? 2) && (minor <=? 3) | None => false end.
Definition transcript_normalized (t : Transcript) : bool :=
  windows_all (fun a b => match a, b with Op_Noop _, Op_Noop _ => false | _, _ => true end) (t_program t).
Definition starts_with_ckpt (t : Transcript) : bool :=
  match t_program t with Op_Ckpt :: _ => true | _ => false end.
Definition opt_all {A} (p : A -> bool) (o : option A) : bool := match o with Some a => p a | None => true end.
(** [ContractCall::well_formed]. *)
Definition call_operation_check (self : SealedCall) (parent : Intent) (op : ContractOperation) : check :=
  let call := scl_call self in
  _ ← (if bool_decide (is_Some (co_v2 op)) then
         _ ← require (opt_all version_ok (guaranteed_transcript call)) GuaranteedTranscriptVersion;
         require (opt_all version_ok (fallible_transcript call)) FallibleTranscriptVersion
       else Ok tt);
  call_proof_verify op (scl_proof self) (call_public_inputs call (binding_commitment parent)) call.
Definition call_well_formed {R} `{!StateReference R} (self : SealedCall) (ref_state : R) (strictness : WellFormedStrictness)
    (parent : Intent) : check :=
  let call := scl_call self in
  _ ← require (opt_all starts_with_ckpt (fallible_transcript call) || negb (bool_decide (is_Some (guaranteed_transcript call))))
        FallibleWithoutCheckpoint;
  _ ← try_for_each (fun t => require (transcript_normalized t) NotNormalized)
        (option_list (guaranteed_transcript call) ++ option_list (fallible_transcript call));
  if verify_contract_proofs strictness
  then op_check ref_state (call_address call) (call_entry_point call) (call_operation_check self parent) else Ok tt.
Definition action_well_formed {R} `{!StateReference R} (ref_state : R) (strictness : WellFormedStrictness) (parent : Intent)
    (self : SealedAction) : check :=
  match self with
  | SealedCallAction call => call_well_formed call ref_state strictness parent
  | SealedDeployAction deploy => deploy_well_formed deploy
  | SealedMaintainAction upd => update_well_formed upd ref_state strictness
  end.
End contracts.

(** ** Intents *)
Section intents.
Context `{Hashing} `{LedgerHashing} `{!ProofSystem} `{!Statements} `{StateArena}.

(** [no_duplicates]: each element is new to the set of those before it. *)
Fixpoint no_duplicates {A} `{EqDecision A} (seen l : list A) : bool :=
  match l with
  | [] => true
  | x :: l => bool_decide (x ∉ seen) && no_duplicates (x :: seen) l
  end.
(** The signature at the index of each input. *)
Fixpoint input_signatures (data : list Z) (inputs : list UtxoSpend) (signatures : list SignatureT) (i : nat) : check :=
  match inputs with
  | [] => Ok tt
  | inp :: inputs =>
      sig ← ok_or (signatures !! i) IntentSignatureVerificationFailure;
      _ ← require (signature_verify data (us_owner inp) sig) IntentSignatureVerificationFailure;
      input_signatures data inputs signatures (S i)
  end.
(** [UnshieldedOffer::well_formed], with the check that it returns. *)
Definition unshielded_well_formed (self : SealedUnshieldedOffer) (segment_id : Segment) (parent : Intent) : check :=
  _ ← require (is_sorted spend_compare (suo_inputs self)) (InputsNotSorted (suo_inputs self));
  _ ← require (is_sorted output_compare (suo_outputs self)) (OutputsNotSorted (suo_outputs self));
  _ ← require (no_duplicates [] (suo_inputs self)) (DuplicateInputs (suo_inputs self));
  _ ← require (bool_decide (length (suo_inputs self) = length (suo_signatures self))) (InputsSignaturesLengthMismatch (suo_inputs self));
  input_signatures (data_to_sign parent segment_id) (suo_inputs self) (suo_signatures self) 0.

Definition opt_check {A} (f : A -> check) (o : option A) : check := match o with Some a => f a | None => Ok tt end.

(** *** Dust ([dust.rs]) *)
Definition spend_well_formed {R} `{!StateReference R} (ref_state : R) (segment_id : Segment) (binding : Pedersen)
    (strictness : WellFormedStrictness) (ctime : Z) (self : SealedDustSpend) : check :=
  if verify_native_proofs strictness then
    dust_spend_check ref_state ctime (fun params commitment_root generation_root =>
      require (vk_verify dust_spend_vk (sds_proof self)
                 (dust_spend_statement (sds_spend self) segment_id binding ctime params commitment_root generation_root))
        (InvalidDustSpendProof ctime (sds_spend self)))
  else Ok tt.
Definition registration_well_formed (segment_id : Segment) (parent : Intent) (strictness : WellFormedStrictness)
    (self : SealedDustRegistration) : check :=
  require (negb (verify_signatures strictness)
           || match sdr_signature self with
              | Some sig => signature_verify (data_to_sign parent segment_id) (night_key (sdr_registration self)) sig
              | None => false
              end)
    (InvalidDustRegistrationSignature (sdr_registration self)).
(** The first key registered twice, in key order. *)
Definition key_leb (a b : VerifyingKey) : Prop := key_compare a b <> Gt.
#[global] Instance key_leb_dec : RelDecision key_leb.
Proof. intros a b. unfold key_leb. destruct (key_compare a b); [left|left|right]; naive_solver. Defined.
Definition duplicate_key (keys : list VerifyingKey) : option VerifyingKey :=
  fst <$> find (fun w => bool_decide (w.1 = w.2)) (windows2 (merge_sort key_leb keys)).
Definition fee_allowance_check {R} `{!StateReference R} (ref_state : R) (parent : Intent) (reg : DustRegistration) : check :=
  fee_availability_check ref_state parent (night_key reg) (fun available =>
    require (negb (available <? allow_fee_payment reg)) (InsufficientDustForRegistrationFee reg available)).
Definition dust_window (self : SealedDustActions) (tblock : Z) (params : LedgerParameters) : check :=
  let grace := dust_grace_period (dust_params params) in
  require (negb ((tblock <? sda_ctime self) || (Timestamp_add (sda_ctime self) grace <? tblock)))
    (OutOfDustValidityWindow (sda_ctime self) (Timestamp_sub tblock grace) tblock).
Definition dust_well_formed {R} `{!StateReference R} (ref_state : R) (strictness : WellFormedStrictness) (segment_id : Segment)
    (parent : Intent) (tblock : Z) (self : SealedDustActions) : check :=
  let regs := sdr_registration <$> sda_registrations self in
  _ ← require (negb (bool_decide (sda_spends self = []) && bool_decide (sda_registrations self = []))) NotNormalized;
  _ ← try_for_each (spend_well_formed ref_state segment_id (binding_commitment parent) strictness (sda_ctime self)) (sda_spends self);
  _ ← try_for_each (fun reg => stateless_check ref_state (registration_well_formed segment_id parent strictness reg))
        (sda_registrations self);
  _ ← param_check ref_state true (dust_window self tblock);
  _ ← stateless_check ref_state
        (match duplicate_key (night_key <$> regs) with Some key => Err (MultipleDustRegistrationsForKey key) | None => Ok tt end);
  if enforce_balancing strictness
  then try_for_each (fee_allowance_check ref_state parent) (filter (fun reg => 0 < allow_fee_payment reg) regs) else Ok tt.

(** *** Intents *)
Definition challenge_pre_for (self : SealedIntent) (segment_id : Segment) : list Z :=
  challenge_pre (erase_action <$> si_actions self) ++ to_le_bytes 2 segment_id.
Definition intent_stateless (self : SealedIntent) (segment_id : Segment) : check :=
  let erased := erase_intent self in
  _ ← opt_check (fun offer => unshielded_well_formed offer segment_id erased) (si_guaranteed_offer self);
  _ ← opt_check (fun offer => unshielded_well_formed offer segment_id erased) (si_fallible_offer self);
  require (binding_valid (si_binding self) (challenge_pre_for self segment_id)) InvalidSchnorrProof.
Definition intent_well_formed {R} `{!StateReference R} (self : SealedIntent) (segment_id : Segment) (ref_state : R)
    (strictness : WellFormedStrictness) (tblock : Z) : check :=
  let erased := erase_intent self in
  if segment_id =? GUARANTEED_SEGMENT then Err IntentAtGuaranteedSegmentId
  else
    _ ← stateless_check ref_state (intent_stateless self segment_id);
    _ ← try_for_each (action_well_formed ref_state strictness erased) (si_actions self);
    opt_check (dust_well_formed ref_state strictness segment_id erased tblock) (si_dust_actions self).
End intents.

(** ** Transactions *)
Section transactions.
Context `{Hashing} `{LedgerHashing} `{!ProofSystem} `{!Statements} `{StateArena} `{!Sizes}.

(** [ClaimRewardsTransaction::data_to_sign] and [well_formed]. *)
Definition claim_data_to_sign (self : ClaimRewardsTransaction) : list Z :=
  ascii_bytes "midnight:sig-claim_rewards_transaction:" ++ uint_serialize 16 (cr_value self)
  ++ serialize_verifying_key (cr_owner self) ++ cr_nonce self.
Definition claim_well_formed (self : SealedClaim) : check :=
  require (signature_verify (claim_data_to_sign (sc_claim self)) (cr_owner (sc_claim self)) (sc_signature self))
    IntentSignatureVerificationFailure.

Definition size_check (self : SealedTransaction) (strictness : WellFormedStrictness) (params : LedgerParameters) : check :=
  let limit := transaction_byte_limit (limits params) in
  require (negb (enforce_limits strictness && (limit <? sealed_size self))) (TransactionTooLarge (sealed_size self) limit).
(** The checks that look at nothing but the transaction. *)
Definition standard_stateless (stx : SealedStandard) : check :=
  let erased := erase_standard stx in
  _ ← opt_check (fun o => map_err MT_Zswap (_ ← offer_well_formed o GUARANTEED_SEGMENT; Ok tt)) (ss_guaranteed_coins stx);
  _ ← try_for_each (fun '(segment, o) =>
        if segment =? GUARANTEED_SEGMENT then Err IllegallyDeclaredGuaranteed
        else map_err MT_Zswap (_ ← offer_well_formed o segment; Ok tt)) (sorted_map (ss_fallible_coins stx));
  _ ← disjoint_check stx;
  _ ← effects_check erased;
  _ ← sequencing_check erased;
  pedersen_check erased.
(** Fees are those of the sealed transaction; when balancing is not enforced, fees that cannot be computed count as 0. *)
Definition fee_check (self : SealedTransaction) (stx : SealedStandard) (strictness : WellFormedStrictness) (params : LedgerParameters) : check :=
  fees ← match fees_of_size (sealed_size self) (costed_transaction self) params true with
         | Ok fees => Ok fees
         | Err e => if enforce_balancing strictness then Err (FeeCalculation e) else Ok 0
         | Panic => Panic
         end;
  balancing_check (erase_standard stx) strictness fees.
Definition standard_well_formed {R} `{!StateReference R} (self : SealedTransaction) (stx : SealedStandard) (ref_state : R)
    (strictness : WellFormedStrictness) (tblock : Z) : check :=
  _ ← network_check ref_state (ss_network_id stx);
  _ ← param_check ref_state true (fun params =>
        map_err MT_TransactionApplicationError (ttl_check_weak (erase_standard stx) tblock (global_ttl params)));
  _ ← stateless_check ref_state (standard_stateless stx);
  _ ← param_check ref_state false (fee_check self stx strictness);
  try_for_each (fun '(segment, intent) =>
    if segment =? GUARANTEED_SEGMENT then Err IllegallyDeclaredGuaranteed
    else intent_well_formed intent segment ref_state strictness tblock) (sorted_map (ss_intents stx)).
(** [Transaction::well_formed]. *)
Definition well_formed {R} `{!StateReference R} (self : SealedTransaction) (ref_state : R) (strictness : WellFormedStrictness)
    (tblock : Z) : outcome MalformedTransaction VerifiedTransaction :=
  _ ← param_check ref_state false (size_check self strictness);
  _ ← match self with
      | SealedStandardTx stx => standard_well_formed self stx ref_state strictness tblock
      | SealedClaimTx claim =>
          _ ← network_check ref_state (cr_network_id (sc_claim claim));
          stateless_check ref_state (claim_well_formed claim)
      end;
  Ok {| inner := erase_transaction self; vt_hash := sealed_hash self |}.
End transactions.
