(* ===== verification/ToyVerify.v ===== *)
(** * Concrete sealed transactions

    Instances of the cryptographic interfaces to evaluate the checks with: the
    curve is the additive group of the integers, positive keys sign anything,
    and even proofs are valid. *)
From S2P Require Import Prelude Time CostModel Fab FabSerial MerkleTree TimeFilterMap Zswap StateValue VmOps.
From S2P Require Import Coin DeltaTracking VmProps Runtime RuntimeProps LedgerData LedgerCost Dust Ledger ToyLedger.
From S2P Require Import VerifyData Balance EffectsCheck Sequencing WellFormed.
Set Warnings "-register-all".

#[export] Instance toy_proofs : ProofSystem := {|
  Proof := Z; Binding := unit; proof_compare := Z.compare; pedersen_compare _ _ := Eq; ciphertext_compare _ _ := Eq;
  key_compare := Z.compare; pedersen_zero := tt; pedersen_add _ _ := tt; pedersen_neg _ := tt; pedersen_mul _ _ := tt;
  pedersen_generator := tt; token_base _ _ := tt; downgrade _ := tt; binding_valid _ _ := true;
  signature_verify _ k _ := 0 <? k; vk_verify _ p _ := Z.even p; zswap_spend_vk := 1; zswap_output_vk := 2; dust_spend_vk := 3 |}.
#[export] Instance toy_statements : Statements := {|
  input_statement _ _ := []; output_statement _ _ := []; dust_spend_statement _ _ _ _ _ _ _ := []; call_public_inputs _ _ := [];
  challenge_pre _ := []; serialize_updates _ := []; serialize_verifying_key k := to_le_bytes 32 k; sealed_size _ := 20000;
  sealed_hash _ := toy_hash 1 |}.

(** An intent that moves 100 Night from two outputs of key 7 and pays fees with a Dust spend. *)
Definition toy_input (value : Z) : UtxoSpend := {|
  us_value := value; us_owner := 7; us_type := NIGHT; us_intent_hash := toy_hash 9; us_output_no := value |}.
Definition toy_sealed_offer : SealedUnshieldedOffer := {|
  suo_inputs := [toy_input 40; toy_input 60];
  suo_outputs := [{| uout_value := 100; uout_owner := toy_hash 8; uout_type := NIGHT |}];
  suo_signatures := [tt; tt] |}.
Definition toy_registration : SealedDustRegistration := {|
  sdr_registration := {| night_key := 7; dust_address := Some 11; allow_fee_payment := 0 |}; sdr_signature := Some tt |}.
Definition toy_dust_actions (t : Z) : SealedDustActions := {|
  sda_spends := [{| sds_spend := {| v_fee := SPECKS_PER_DUST * 1000; old_nullifier := 5; new_commitment := 6 |}; sds_proof := 2 |}];
  sda_registrations := [toy_registration]; sda_ctime := t |}.
Definition toy_sealed_intent (t : Z) : SealedIntent := {|
  si_guaranteed_offer := Some toy_sealed_offer; si_fallible_offer := None; si_actions := [];
  si_dust_actions := Some (toy_dust_actions t); si_ttl := t + 500; si_binding := tt |}.
Definition toy_stx (t : Z) : SealedStandard := {|
  ss_network_id := "toy"; ss_intents := {[ 1 := toy_sealed_intent t ]}; ss_guaranteed_coins := None; ss_fallible_coins := ∅;
  ss_binding_randomness := 0 |}.
Definition toy_sealed (t : Z) : SealedTransaction := SealedStandardTx (toy_stx t).
Example toy_sealed_well_formed :
  is_ok (well_formed (toy_sealed 1000) toy_genesis WellFormedStrictness_default 1000) = true.
Proof. vm_compute. reflexivity. Qed.

(** A state with other parameters. *)
Definition toy_other_state : LedgerState := with_parameters toy_genesis {|
  cost_model := cost_model INITIAL_PARAMETERS; limits := limits INITIAL_PARAMETERS; dust_params := dust_params INITIAL_PARAMETERS;
  fee_prices := fee_prices INITIAL_PARAMETERS; global_ttl := 7200;
  cost_dimension_min_ratio := cost_dimension_min_ratio INITIAL_PARAMETERS;
  price_adjustment_a_parameter := price_adjustment_a_parameter INITIAL_PARAMETERS;
  cardano_to_midnight_bridge_fee_basis_points := 500; c_to_m_bridge_min_amount := 1000 |}.
