(* ===== verification/WellFormedProps.v ===== *)
(** * What well-formedness guarantees

    Revalidation against a newer state gives the result of a full check; the
    owners of all spent outputs signed the intent; contract updates carry enough
    signatures of the committee; the Dust address of a registration is not
    covered by any signature. *)
From S2P Require Import Prelude Time CostModel Fab FabSerial Scale MerkleTree TimeFilterMap Zswap StateValue VmOps.
From S2P Require Import Coin DeltaTracking Runtime LedgerData LedgerCost Dust Ledger VerifyData Balance EffectsCheck Sequencing WellFormed.
From stdpp Require Import sorting.
Set Warnings "-register-all".
#[local] Open Scope Z_scope.

(** ** Checks that agree once an earlier one passed *)
Section agreement.
Context {E : Type}.

Definition agrees (o r n : outcome E unit) : Prop := o = Ok tt -> r = n.
Lemma agrees_bind o r n o' r' n' : agrees o r n -> agrees o' r' n' -> agrees (_ ← o; o') (_ ← r; r') (_ ← n; n').
Proof. intros Ho Ho' Hb. inv_bind. destruct a. rewrite (Ho E0), (Ho' Hb). done. Qed.
Lemma agrees_same o c : agrees o c c.
Proof. by intros _. Qed.
Lemma agrees_self c : agrees c (Ok tt) c.
Proof. by intros ->. Qed.
Lemma agrees_try_for_each {A} (f g h : A -> outcome E unit) l :
  (forall x, agrees (f x) (g x) (h x)) -> agrees (try_for_each f l) (try_for_each g l) (try_for_each h l).
Proof. intros Hx. induction l as [|x l IH]; [by intros _|]. apply (agrees_bind _ _ _ _ _ _ (Hx x) IH). Qed.
Lemma agrees_if (b : bool) o r n o' r' n' : agrees o r n -> agrees o' r' n' ->
  agrees (if b then o else o') (if b then r else r') (if b then n else n').
Proof. by destruct b. Qed.
End agreement.
Create HintDb agree.
#[export] Hint Resolve agrees_bind agrees_try_for_each agrees_if | 2 : agree.
#[export] Hint Resolve agrees_same | 5 : agree.

Section revalidation.
Context `{Hashing} `{LedgerHashing} `{!ProofSystem} `{!Statements} `{StateArena} `{!Sizes}.
Context (old new : LedgerState).
Abbreviation rv := ({| previously_validated_state := old; new_state := new |}).

Lemma stateless_agrees c : agrees (stateless_check old c) (stateless_check rv c) (stateless_check new c).
Proof. apply agrees_self. Qed.
Lemma param_agrees c : agrees (param_check old false c) (param_check rv false c) (param_check new false c).
Proof. cbn. intros Hc. case_bool_decide as Hp; [|done]. cbn. by rewrite <-Hp. Qed.
Lemma param_always_agrees o c : agrees o (param_check rv true c) (param_check new true c).
Proof. by intros _. Qed.
Lemma op_agrees a e c : agrees (op_check old a e c) (op_check rv a e c) (op_check new a e c).
Proof.
  cbn. intros Hc. inv_bind. rewrite E. cbn. destruct (get_op new a e) as [op| |]; cbn; [|done|done]. by case_bool_decide; subst.
Qed.
Lemma maintenance_agrees a c : agrees (maintenance_check old a c) (maintenance_check rv a c) (maintenance_check new a c).
Proof.
  cbn. intros Hc. inv_bind. rewrite E. cbn. destruct (get_authority new a) as [auth| |]; cbn; [|done|done]. by case_bool_decide; subst.
Qed.
Lemma dust_spend_agrees t c : agrees (dust_spend_check old t c) (dust_spend_check rv t c) (dust_spend_check new t c).
Proof.
  unfold agrees. cbn [dust_spend_check LedgerState_reference RevalidationReference_reference previously_validated_state new_state].
  intros Hc. case_bool_decide as Hr; [|done]. rewrite Hr in Hc. by destruct (dust_roots new t) as [[? ?] ?].
Qed.
Lemma fee_agrees o i k c : agrees o (fee_availability_check rv i k c) (fee_availability_check new i k c).
Proof. by intros _. Qed.
Lemma network_agrees o n : agrees o (network_check rv n) (network_check new n).
Proof. by intros _. Qed.
#[local] Hint Resolve stateless_agrees param_agrees param_always_agrees op_agrees maintenance_agrees dust_spend_agrees fee_agrees
  network_agrees | 0 : agree.

Lemma action_agrees st p a :
  agrees (action_well_formed old st p a) (action_well_formed rv st p a) (action_well_formed new st p a).
Proof.
  destruct a as [call|deploy|upd]; cbn [action_well_formed].
  - unfold call_well_formed. auto 10 with agree.
  - apply agrees_same.
  - unfold update_well_formed. auto with agree.
Qed.
Lemma spend_agrees s b st t sp :
  agrees (spend_well_formed old s b st t sp) (spend_well_formed rv s b st t sp) (spend_well_formed new s b st t sp).
Proof. unfold spend_well_formed. auto with agree. Qed.
Lemma allowance_agrees p r : agrees (fee_allowance_check old p r) (fee_allowance_check rv p r) (fee_allowance_check new p r).
Proof. unfold fee_allowance_check. auto with agree. Qed.
#[local] Hint Resolve action_agrees spend_agrees allowance_agrees | 0 : agree.
Lemma dust_agrees st s p t0 t da :
  agrees (dust_well_formed old st s p t0 da) (dust_well_formed rv st s p t da) (dust_well_formed new st s p t da).
Proof. unfold dust_well_formed. auto 10 with agree. Qed.
Lemma intent_agrees i s st t0 t :
  agrees (intent_well_formed i s old st t0) (intent_well_formed i s rv st t) (intent_well_formed i s new st t).
Proof.
  unfold intent_well_formed. apply agrees_if; [apply agrees_same|]. apply agrees_bind; [auto with agree|].
  apply agrees_bind; [auto with agree|]. destruct (si_dust_actions i); cbn [opt_check]; [apply dust_agrees|apply agrees_same].
Qed.
Lemma standard_agrees tx stx st t0 t :
  agrees (standard_well_formed tx stx old st t0) (standard_well_formed tx stx rv st t) (standard_well_formed tx stx new st t).
Proof.
  unfold standard_well_formed. repeat (apply agrees_bind; [auto with agree|]). apply agrees_try_for_each. intros [s i].
  apply agrees_if; [apply agrees_same|apply intent_agrees].
Qed.

(** C11: Revalidation is sound and complete: a transaction that was well-formed
    against an older state, at any block time, has against the pair of the old
    and a new state the same result, error included, as a full check against
    the new state, although revalidation skips all the stateless checks and
    every proof whose operation, authority, parameters or roots are unchanged. *)
Theorem revalidation_equivalent tx strictness t0 t v :
  well_formed tx old strictness t0 = Ok v -> well_formed tx rv strictness t = well_formed tx new strictness t.
Proof.
  unfold well_formed. intros Hw. apply bind_Ok_inv in Hw as ([] & Hsize & Hw). apply bind_Ok_inv in Hw as ([] & Hw & _).
  rewrite (param_agrees _ Hsize). destruct (param_check new false _) as [[]| |]; [|done|done]. cbn [mbind outcome_bind].
  destruct tx as [stx|claim]; [by rewrite (standard_agrees _ _ _ _ _ Hw)|].
  assert (forall o r n o' r' n', @agrees MalformedTransaction o r n -> agrees o' r' n' -> agrees (_ ← o; o') (_ ← r; r') (_ ← n; n')) as Hb
    by apply agrees_bind.
  by rewrite (Hb _ _ _ _ _ _ (network_agrees _ _) (stateless_agrees _) Hw).
Qed.
End revalidation.

(** ** Spent outputs *)
Section authorization.
Context `{Hashing} `{LedgerHashing} `{!ProofSystem} `{!Statements} `{StateArena} `{!Sizes}.

Lemma no_duplicates_NoDup {A} `{EqDecision A} (seen l : list A) : no_duplicates seen l = true ->
  NoDup l /\ forall x, x ∈ l -> x ∉ seen.
Proof.
  revert seen. induction l as [|x l IH]; intros seen; cbn [no_duplicates].
  - split; [constructor|]. by intros ? ?%elem_of_nil.
  - intros [Hx%bool_decide_eq_true Hl]%andb_true_iff. apply IH in Hl as [Hn Hs]. split.
    + constructor; [|done]. intros Hin. apply (Hs x Hin). left.
    + intros y [->|Hy]%elem_of_cons; [done|]. intros Hin. apply (Hs y Hy). by right.
Qed.
Lemma input_signatures_Ok data inputs sigs k : input_signatures data inputs sigs k = Ok tt ->
  forall i inp, inputs !! i = Some inp -> exists sig, sigs !! (k + i)%nat = Some sig /\ signature_verify data (us_owner inp) sig = true.
Proof.
  revert k. induction inputs as [|x inputs IH]; intros k; cbn [input_signatures]; [done|].
  intros Hs i inp Hi. inv_binds. inv_requires. destruct i as [|i].
  - injection Hi as ->. rewrite Nat.add_0_r. eauto.
  - rewrite Nat.add_succ_r, <-Nat.add_succ_l. by apply IH.
Qed.
Lemma unshielded_well_formed_Ok offer s parent : unshielded_well_formed offer s parent = Ok tt ->
  NoDup (suo_inputs offer) /\ forall i inp, suo_inputs offer !! i = Some inp -> exists sig,
    suo_signatures offer !! i = Some sig /\ signature_verify (data_to_sign parent s) (us_owner inp) sig = true.
Proof.
  unfold unshielded_well_formed. intros Hu. inv_binds. inv_requires. split; [by eapply no_duplicates_NoDup|].
  intros i inp Hi. exact (input_signatures_Ok _ _ _ _ Hu i inp Hi).
Qed.
(** What is verified is the erased transaction. *)
Lemma well_formed_is_ok {R} `{!StateReference R} tx (ref_state : R) strictness t :
  is_ok (well_formed tx ref_state strictness t) = true ->
  well_formed tx ref_state strictness t = Ok {| inner := erase_transaction tx; vt_hash := sealed_hash tx |}.
Proof.
  unfold well_formed. destruct (param_check _ _ _) as [[]| |]; [|done|done]. cbn [mbind outcome_bind].
  by destruct (match tx with SealedStandardTx _ => _ | SealedClaimTx _ => _ end) as [[]| |].
Qed.
(** The parts of a standard transaction that passed. *)
Lemma well_formed_standard stx (state : LedgerState) strictness t v :
  well_formed (SealedStandardTx stx) state strictness t = Ok v ->
  standard_stateless stx = Ok tt /\
  fee_check (SealedStandardTx stx) stx strictness (parameters state) = Ok tt /\
  (forall s i, ss_intents stx !! s = Some i -> intent_well_formed i s state strictness t = Ok tt).
Proof.
  unfold well_formed, standard_well_formed. cbn [stateless_check param_check LedgerState_reference].
  intros Hw. apply bind_Ok_inv in Hw as ([] & _ & Hw). apply bind_Ok_inv in Hw as ([] & Hw & _).
  apply bind_Ok_inv in Hw as ([] & _ & Hw). apply bind_Ok_inv in Hw as ([] & _ & Hw).
  apply bind_Ok_inv in Hw as ([] & Hs & Hw). apply bind_Ok_inv in Hw as ([] & Hf & Hw). split; [done|]. split; [done|].
  intros s i Hi. rewrite try_for_each_Ok in Hw. specialize (Hw (s, i)). rewrite elem_of_sorted_map in Hw. specialize (Hw Hi). cbn in Hw.
  by destruct (s =? GUARANTEED_SEGMENT).
Qed.
Lemma intent_offers i s (state : LedgerState) strictness t : intent_well_formed i s state strictness t = Ok tt ->
  forall offer, Some offer = si_guaranteed_offer i \/ Some offer = si_fallible_offer i ->
  unshielded_well_formed offer s (erase_intent i) = Ok tt.
Proof.
  unfold intent_well_formed. destruct (s =? GUARANTEED_SEGMENT); [done|]. cbn [stateless_check LedgerState_reference]. intros Hi offer Ho.
  apply bind_Ok_inv in Hi as ([] & Hi & _). unfold intent_stateless in Hi.
  apply bind_Ok_inv in Hi as ([] & Hg & Hi). apply bind_Ok_inv in Hi as ([] & Hf & _).
  destruct Ho as [Ho|Ho]; [rewrite <-Ho in Hg|rewrite <-Ho in Hf]; done.
Qed.
Lemma unshielded_lists_NoDup stx : (forall s i, ss_intents stx !! s = Some i -> forall offer,
    Some offer = si_guaranteed_offer i \/ Some offer = si_fallible_offer i -> NoDup (suo_inputs offer)) ->
  Forall NoDup (unshielded_input_lists stx).
Proof.
  intros Hn. apply list.Forall_forall. intros l ([s i] & Hl & Hi)%list_elem_of_bind. rewrite elem_of_sorted_map in Hi.
  rewrite !elem_of_cons, elem_of_nil in Hl. destruct Hl as [->|[->|[]]].
  - destruct (si_guaranteed_offer i) eqn:Ho; cbn; [eapply (Hn s i Hi); by left|constructor].
  - destruct (si_fallible_offer i) eqn:Ho; cbn; [eapply (Hn s i Hi); by right|constructor].
Qed.


(** C7: With balancing enforced, a well-formed transaction is balanced: its fees
    under the parameters of the reference state are defined, and no token is
    overspent in any segment, the fees counted as Dust paid in segment 0. *)
Theorem well_formed_balanced stx (state : LedgerState) strictness t v :
  well_formed (SealedStandardTx stx) state strictness t = Ok v -> enforce_balancing strictness = true ->
  exists fees, fees_of_size (sealed_size (SealedStandardTx stx)) (costed_transaction (SealedStandardTx stx)) (parameters state) true = Ok fees /\
    forall k, outflow k fees (erase_standard stx) <= inflow k (erase_standard stx).
Proof.
  intros (_ & Hf & _)%well_formed_standard Hb. unfold fee_check in Hf. rewrite Hb in Hf.
  destruct (fees_of_size _ _ _ _) as [fees| |] eqn:Hfees; cbn in Hf; [|done|done]. exists fees. split; [done|].
  intros k. by eapply balancing_check_sound.
Qed.

Lemma placed_transcript stx x intent part tr : intents stx !! site_segment x = Some intent ->
  intent_calls intent !! site_index x = Some (site_call x) ->
  tr ∈ option_list (if part : bool then guaranteed_transcript (site_call x) else fallible_transcript (site_call x)) ->
  {| pt_segment := site_segment x; pt_logical := if part then 0 else site_segment x; pt_transcript := tr;
     pt_address := call_address (site_call x) |} ∈ placed_transcripts stx.
Proof.
  intros Hi Hx Ht. apply list_elem_of_bind. exists (site_segment x, site_call x). split.
  - apply elem_of_app. destruct part; [left|right]; apply list_elem_of_fmap; eauto.
  - apply list_elem_of_bind. exists (site_segment x, intent). split; [|by apply elem_of_sorted_map].
    by apply (list_elem_of_fmap_2 (pair (site_segment x))), list_elem_of_lookup_2 with (i := site_index x).
Qed.
Lemma claimed_call_exists stx x c part : effects_check stx = Ok tt -> call_site stx x -> (c, part) ∈ claims_by_part (site_call x) ->
  exists y, call_site stx y /\ site_segment x = site_segment y /\ claim_key c = call_key (site_call y).
Proof.
  intros He%effects_check_calls (intent & Hi & Hx) Hc.
  assert ((site_segment x, claim_key c) ∈ call_claims stx) as Hin.
  { unfold claims_by_part in Hc. rewrite elem_of_app, !list_elem_of_bind in Hc.
    destruct Hc as [(t & Ht & Ho)|(t & Ht & Ho)]; apply list_elem_of_fmap in Ht as (c' & [= -> ->] & Ht); apply list_elem_of_bind.
    - eexists. split; [|apply (placed_transcript stx x intent true t Hi Hx Ho)]. apply list_elem_of_fmap. by exists c'.
    - eexists. split; [|apply (placed_transcript stx x intent false t Hi Hx Ho)]. apply list_elem_of_fmap. by exists c'. }
  eapply elem_of_submseteq in Hin; [|exact He]. unfold real_calls, segment_calls in Hin.
  apply list_elem_of_fmap in Hin as ([s call] & [= Hs Hk1 Hk2 Hk3] & Hin). apply list_elem_of_bind in Hin as ([s' intent'] & Hin & Hi').
  apply list_elem_of_fmap in Hin as (call' & [= -> ->] & Hin). apply elem_of_sorted_map in Hi'. apply list_elem_of_lookup_1 in Hin as [n Hn].
  exists {| site_segment := s'; site_index := n; site_call := call' |}. split; [by exists intent'|]. split; [done|].
  unfold claim_key, call_key. cbn. congruence.
Qed.

(** C10: In a well-formed transaction, calls happen as claimed.  If the
    guaranteed (fallible) transcript of a call claims another call, then the
    same intent has such a call, at a later position, and that call consists of
    a guaranteed (fallible) transcript only: it runs in the same atomic section
    as its caller, so the caller does not succeed without it. *)
Theorem claimed_calls_run stx (state : LedgerState) strictness t v x c part :
  well_formed (SealedStandardTx stx) state strictness t = Ok v -> indexable (erase_standard stx) ->
  call_site (erase_standard stx) x -> (c, part) ∈ claims_by_part (site_call x) ->
  exists y, call_site (erase_standard stx) y /\ site_segment x = site_segment y /\ call_key (site_call y) = claim_key c /\
    (site_index x < site_index y)%nat /\ only_part (site_call y) part.
Proof.
  intros (Hs & _ & _)%well_formed_standard Hix Hx Hc. unfold standard_stateless in Hs.
  repeat (let Hp := fresh "Hp" in apply bind_Ok_inv in Hs as ([] & Hp & Hs)).
  destruct (claimed_call_exists _ _ _ _ Hp2 Hx Hc) as (y & Hy & Hxy & Hk).
  assert (claims (site_call x) (site_call y) part (ccv_seq c)) as Hcl by (by exists c).
  destruct (sequenced_callee _ _ _ _ _ Hp3 Hix Hx Hy Hxy Hcl) as [Hlt Hpart]. by exists y.
Qed.
End authorization.

(** ** Contract maintenance *)
Section maintenance.
Context `{Hashing} `{LedgerHashing} `{!ProofSystem} `{!Statements} `{StateArena}.

Lemma windows_all_Sorted {A} (p : A -> A -> bool) l : windows_all p l = true -> Sorted (fun a b => p a b = true) l.
Proof.
  induction l as [|x [|y l] IH]; [constructor|repeat constructor|]. cbn [windows_all]. intros [Hxy Hl]%andb_true_iff.
  constructor; [by apply IH|by constructor].
Qed.

(** A maintenance update that is well-formed with signatures verified is
    backed by the committee: there are as many different positions of the
    current committee as the threshold demands, the key at each of which signed
    this update. *)
Theorem committee_threshold upd (state : LedgerState) strictness :
  update_well_formed upd state strictness = Ok tt -> verify_signatures strictness = true ->
  Forall (fun e => 0 <= e.1) (mu_signatures upd) ->
  exists auth members, maintenance_authority <$> contract state !! mu_address upd = Some auth /\ NoDup members /\
    threshold auth <= Z.of_nat (length members) /\
    Forall (fun i : nat => exists vk sig, committee auth !! i = Some vk /\ signature_verify (update_data_to_sign upd) vk sig = true) members.
Proof.
  unfold update_well_formed. cbn [maintenance_check LedgerState_reference]. intros Hu Hs Hpos. inv_bind. unfold get_authority in E. inv_binds.
  unfold authority_check in Hu. inv_binds. inv_requires. exists (maintenance_authority a0), ((fun e => Z.to_nat e.1) <$> mu_signatures upd).
  rewrite E0. split; [done|]. rewrite length_fmap. split; [|split; [unfold count in Hu; lia|]].
  - assert (StronglySorted (fun a b : Z * SignatureT => a.1 < b.1) (mu_signatures upd)) as Hsort.
    { apply Sorted_StronglySorted; [intros x y z; lia|]. eapply Sorted_impl; [|by apply windows_all_Sorted]. cbn. intros; lia. }
    clear -Hsort Hpos. induction Hsort as [|e l _ IH Hl]; [constructor|]. apply Forall_cons_1 in Hpos as [He Hpos].
    rewrite list.Forall_forall in Hl, Hpos. cbn. apply list.NoDup_cons. split; [|by apply IH, list.Forall_forall].
    intros (e' & Heq & He')%list_elem_of_fmap. specialize (Hl _ He'). specialize (Hpos _ He'). lia.
  - apply list.Forall_forall. intros i ([idx sig] & -> & Hin)%list_elem_of_fmap.
    match goal with Hc : try_for_each _ _ = Ok ?u |- _ => destruct u; rename Hc into Hsig end.
    rewrite try_for_each_Ok in Hsig. specialize (Hsig _ Hin). cbn in Hsig. inv_binds. inv_requires. rewrite Hs in Hsig. cbn in Hsig.
    rewrite negb_involutive in Hsig. eauto.
Qed.
End maintenance.

(** ** Registrations

    The signatures of an intent cover its offers, actions, time to live and
    binding commitment, but not its Dust actions. *)
Section redirection.
Context `{Hashing} `{LedgerHashing} `{!ProofSystem} `{!Statements} `{StateArena}.
Context (addr : option DustPublicKey).

Definition redirect (reg : DustRegistration) : DustRegistration := {|
  night_key := night_key reg; dust_address := addr; allow_fee_payment := allow_fee_payment reg |}.
Definition redirect_sealed (reg : SealedDustRegistration) : SealedDustRegistration := {|
  sdr_registration := redirect (sdr_registration reg); sdr_signature := sdr_signature reg |}.
Definition redirect_actions (da : SealedDustActions) : SealedDustActions := {|
  sda_spends := sda_spends da; sda_registrations := redirect_sealed <$> sda_registrations da; sda_ctime := sda_ctime da |}.
(** The intent with all its registrations redirected to [addr]. *)
Definition redirect_intent (i : SealedIntent) : SealedIntent := {|
  si_guaranteed_offer := si_guaranteed_offer i; si_fallible_offer := si_fallible_offer i; si_actions := si_actions i;
  si_dust_actions := redirect_actions <$> si_dust_actions i; si_ttl := si_ttl i; si_binding := si_binding i |}.

Lemma bind_unit_Ok {E} (o o' : outcome E unit) : (_ ← o; o') = Ok tt <-> o = Ok tt /\ o' = Ok tt.
Proof. destruct o as [[]| |]; cbn; naive_solver. Qed.
Lemma try_for_each_fmap_Ok {E A B} (f : B -> outcome E unit) (g : A -> outcome E unit) (h : A -> B) l :
  (forall x, f (h x) = Ok tt <-> g x = Ok tt) -> try_for_each f (h <$> l) = Ok tt <-> try_for_each g l = Ok tt.
Proof.
  intros Hfg. induction l as [|x l IH]; [done|]. cbn [fmap list_fmap try_for_each]. by rewrite !bind_unit_Ok, Hfg, IH.
Qed.
Lemma redirect_availability i (state : LedgerState) key :
  fee_availability state (erase_intent (redirect_intent i)) key = fee_availability state (erase_intent i) key.
Proof. unfold fee_availability, generationless_fee_availability. cbn. by destruct (si_dust_actions i). Qed.
Lemma redirect_allowances i (state : LedgerState) regs :
  try_for_each (fee_allowance_check state (erase_intent (redirect_intent i)))
    (filter (fun reg => 0 < allow_fee_payment reg) (sdr_registration <$> (redirect_sealed <$> regs))) = Ok tt <->
  try_for_each (fee_allowance_check state (erase_intent i)) (filter (fun reg => 0 < allow_fee_payment reg) (sdr_registration <$> regs)) = Ok tt.
Proof.
  induction regs as [|r regs IH]; [done|]. cbn [fmap list_fmap]. rewrite !filter_cons. cbn [redirect_sealed sdr_registration redirect allow_fee_payment].
  destruct (decide (0 < allow_fee_payment (sdr_registration r))); [|done]. cbn [try_for_each]. rewrite !bind_unit_Ok, IH.
  unfold fee_allowance_check. cbn [fee_availability_check LedgerState_reference redirect night_key allow_fee_payment].
  by rewrite redirect_availability, !require_Ok.
Qed.
Lemma redirect_dust i s (state : LedgerState) strictness t da :
  dust_well_formed state strictness s (erase_intent (redirect_intent i)) t (redirect_actions da) = Ok tt <->
  dust_well_formed state strictness s (erase_intent i) t da = Ok tt.
Proof.
  unfold dust_well_formed. cbn [redirect_actions sda_spends sda_registrations sda_ctime]. rewrite !bind_unit_Ok.
  assert ((redirect_sealed <$> sda_registrations da = []) <-> sda_registrations da = []) as Hnil by (by destruct (sda_registrations da)).
  rewrite (bool_decide_ext _ _ Hnil).
  assert ((night_key <$> (sdr_registration <$> (redirect_sealed <$> sda_registrations da)))
    = (night_key <$> (sdr_registration <$> sda_registrations da))) as -> by (by rewrite <-!list_fmap_compose).
  rewrite (try_for_each_fmap_Ok _ (fun reg => stateless_check state (registration_well_formed s (erase_intent i) strictness reg)) redirect_sealed).
  - destruct (enforce_balancing strictness); [|done]. by rewrite redirect_allowances.
  - intros reg. cbn [stateless_check LedgerState_reference]. unfold registration_well_formed. by rewrite !require_Ok.
Qed.

(** C36: The Dust address of a registration is not authenticated: replacing it,
    in every registration of an intent, by any other address (or by none)
    leaves the well-formedness of the intent as it was.  The signature of the
    owner of the Night remains valid. *)
Theorem dust_address_unsigned i s (state : LedgerState) strictness t :
  intent_well_formed (redirect_intent i) s state strictness t = Ok tt <-> intent_well_formed i s state strictness t = Ok tt.
Proof.
  unfold intent_well_formed. destruct (s =? GUARANTEED_SEGMENT); [done|]. rewrite !bind_unit_Ok.
  assert (stateless_check state (intent_stateless (redirect_intent i) s) = stateless_check state (intent_stateless i s)) as -> by reflexivity.
  cbn [redirect_intent si_actions si_dust_actions].
  assert (forall l, try_for_each (action_well_formed state strictness (erase_intent (redirect_intent i))) l
    = try_for_each (action_well_formed state strictness (erase_intent i)) l) as ->.
  { induction l as [|a l IH]; [done|]. cbn [try_for_each]. rewrite IH. by destruct a. }
  destruct (si_dust_actions i) as [da|] eqn:Hda; [|done]. cbn [fmap option_fmap option_map opt_check].
  by rewrite redirect_dust.
Qed.
End redirection.

(** ** Examples *)
From S2P Require Import RuntimeProps ToyLedger ToyVerify.

Definition toy_verified : VerifiedTransaction := {| inner := erase_transaction (toy_sealed 1000); vt_hash := sealed_hash (toy_sealed 1000) |}.
Lemma toy_sealed_ok : well_formed (toy_sealed 1000) toy_genesis WellFormedStrictness_default 1000 = Ok toy_verified.
Proof. apply (well_formed_is_ok (toy_sealed 1000) toy_genesis WellFormedStrictness_default 1000). vm_compute. reflexivity. Qed.
Lemma toy_other_ok : well_formed (toy_sealed 1000) toy_other_state WellFormedStrictness_default 1200 = Ok toy_verified.
Proof. apply (well_formed_is_ok (toy_sealed 1000) toy_other_state WellFormedStrictness_default 1200). vm_compute. reflexivity. Qed.
Lemma revalidation_equivalent_witness :
  well_formed (toy_sealed 1000) {| previously_validated_state := toy_genesis; new_state := toy_other_state |}
    WellFormedStrictness_default 1200 = Ok toy_verified.
Proof.
  rewrite (revalidation_equivalent toy_genesis toy_other_state (toy_sealed 1000) WellFormedStrictness_default 1000 1200 toy_verified
    toy_sealed_ok). exact toy_other_ok.
Defined.
Lemma well_formed_balanced_witness : exists fees,
  fees_of_size 20000 (costed_transaction (SealedStandardTx (toy_stx 1000))) INITIAL_PARAMETERS true = Ok fees /\
  forall k, outflow k fees (erase_standard (toy_stx 1000)) <= inflow k (erase_standard (toy_stx 1000)).
Proof.
  exact (well_formed_balanced (toy_stx 1000) toy_genesis WellFormedStrictness_default 1000 toy_verified toy_sealed_ok eq_refl).
Defined.

(** A contract with three keys, two of which have to sign. *)
Definition toy_authority : ContractMaintenanceAuthority := {| committee := [7; 8; 9]; threshold := 2; ma_counter := 0 |}.
Definition toy_governed : LedgerState := with_contract toy_genesis {[ toy_hash 4 := {|
  cst_data := {| cs_state := Null; charged_keys := RcMap_default |}; operations := ∅; maintenance_authority := toy_authority;
  cst_balance := ∅ |} ]}.
Definition toy_update (signers : list Z) : MaintenanceUpdate := {|
  mu_address := toy_hash 4; mu_updates := []; mu_counter := 0; mu_signatures := (fun i => (i, tt)) <$> signers |}.
Example toy_update_repeated : update_well_formed (toy_update [1; 1]) toy_governed WellFormedStrictness_default = Err NotNormalized.
Proof. vm_compute. reflexivity. Qed.
Example toy_update_missed :
  update_well_formed (toy_update [1]) toy_governed WellFormedStrictness_default = Err (ThresholdMissed (toy_hash 4) 1 2).
Proof. vm_compute. reflexivity. Qed.
Lemma toy_update_ok : update_well_formed (toy_update [0; 2]) toy_governed WellFormedStrictness_default = Ok tt.
Proof. vm_compute. reflexivity. Qed.
Lemma committee_threshold_witness : exists auth members,
  maintenance_authority <$> contract toy_governed !! toy_hash 4 = Some auth /\ NoDup members /\
  threshold auth <= Z.of_nat (length members) /\
  Forall (fun i : nat => exists vk sig, committee auth !! i = Some vk /\
    signature_verify (update_data_to_sign (toy_update [0; 2])) vk sig = true) members.
Proof.
  apply (committee_threshold (toy_update [0; 2]) toy_governed WellFormedStrictness_default toy_update_ok eq_refl).
  repeat constructor; discriminate.
Defined.

(** The calls of contract 1 to contracts 2 and 3, sealed, and the state they are checked against. *)
Definition toy_seal (c : ContractCall) : SealedAction := SealedCallAction {| scl_call := c; scl_proof := 4 |}.
Definition toy_calling : SealedStandard := {|
  ss_network_id := "toy";
  ss_intents := {[ 1 := {| si_guaranteed_offer := None; si_fallible_offer := None;
    si_actions := toy_seal <$> [toy_caller; toy_callee 2; toy_callee 3]; si_dust_actions := Some (toy_dust_actions 1000); si_ttl := 1500;
    si_binding := tt |} ]};
  ss_guaranteed_coins := None; ss_fallible_coins := ∅; ss_binding_randomness := 0 |}.
Definition toy_contract : ContractState := {|
  cst_data := {| cs_state := Null; charged_keys := RcMap_default |}; operations := {[ [] := {| co_v2 := Some 1 |} ]};
  maintenance_authority := toy_authority; cst_balance := ∅ |}.
Definition toy_deployed : LedgerState :=
  with_contract toy_genesis {[ toy_hash 1 := toy_contract; toy_hash 2 := toy_contract; toy_hash 3 := toy_contract ]}.
Definition toy_calling_verified : VerifiedTransaction := {| inner := erase_transaction (SealedStandardTx toy_calling); vt_hash := sealed_hash (SealedStandardTx toy_calling) |}.
Lemma toy_calling_ok :
  well_formed (SealedStandardTx toy_calling) toy_deployed WellFormedStrictness_default 1000 = Ok toy_calling_verified.
Proof. apply (well_formed_is_ok (SealedStandardTx toy_calling) toy_deployed WellFormedStrictness_default 1000). vm_compute. reflexivity. Qed.
Lemma toy_calling_intents s intent : intents (erase_standard toy_calling) !! s = Some intent ->
  s = 1 /\ intent_calls intent = [toy_caller; toy_callee 2; toy_callee 3].
Proof.
  unfold toy_calling, erase_standard. cbn [intents ss_intents]. rewrite map_fmap_singleton.
  by intros [<- <-]%lookup_singleton_Some.
Qed.
Lemma toy_calling_site : call_site (erase_standard toy_calling) (toy_site 1 0 toy_caller).
Proof.
  unfold toy_calling, erase_standard, call_site. cbn [intents ss_intents toy_site site_segment site_index site_call].
  rewrite map_fmap_singleton, lookup_singleton_eq. by eexists.
Qed.
Lemma toy_calling_indexable : indexable (erase_standard toy_calling).
Proof. intros s intent [_ ->]%toy_calling_intents. vm_compute. discriminate. Qed.
Lemma toy_calling_claim : (toy_claim_of 3 1, true) ∈ claims_by_part toy_caller.
Proof.
  apply elem_of_app. left. cbn. rewrite app_nil_r.
  apply list_elem_of_fmap. exists (toy_claim_of 3 1). split; [done|]. rewrite elem_of_elements. set_solver.
Qed.
Lemma effects_check_iff_witness : effects_ok (erase_standard toy_calling).
Proof. apply (effects_check_iff (erase_standard toy_calling)). vm_compute. reflexivity. Defined.
Lemma claimed_calls_run_witness : exists y, call_site (erase_standard toy_calling) y /\ 1 = site_segment y /\
  call_key (site_call y) = claim_key (toy_claim_of 3 1) /\ (0 < site_index y)%nat /\ only_part (site_call y) true.
Proof.
  exact (claimed_calls_run toy_calling toy_deployed WellFormedStrictness_default 1000 toy_calling_verified (toy_site 1 0 toy_caller)
    (toy_claim_of 3 1) true toy_calling_ok toy_calling_indexable toy_calling_site toy_calling_claim).
Defined.
