(* ===== verification/StorageDb.v ===== *)
(** * Under the storage back end: the LRU cache and the database

    [storage-core/src/cache.rs], [storage-core/src/db.rs] and the objects of
    [storage-core/src/backend.rs].  The back end keeps two LRU caches in front
    of a database of nodes of a Merkle DAG.

    - [LruCache] is the [lru] crate, a parameter: its operations with the
      documented effect of each on the list of entries, most recently used
      first.  [ListLru] is a model of it.  [Cache_*] is the wrapper of cache.rs.
    - [DB] is the trait of the same name; [DBLaws] is what the back end relies
      on, in terms of the nodes and the root counts a database holds.
      [InMemoryDB] implements it.
    - [bfs_get_nodes] is the breadth-first search the trait provides. *)
From stdpp Require Import sorting.
From S2P Require Import Prelude CostModel DeltaTracking.

(** Rust's [HashMap] and [HashSet] iterate in an unspecified order. *)
Class HashOrder := { hash_iter : forall {A : Type}, list A -> list A }.
Class HashOrderLaws `{HashOrder} : Prop := {
  hash_iter_perm : forall A (l : list A), hash_iter l ≡ₚ l }.

(** ** The LRU cache of the [lru] crate *)
Section entries.
Context {K V : Type} `{EqDecision K}.
Fixpoint assoc_find (k : K) (l : list (K * V)) : option V :=
  match l with
  | [] => None
  | (k', v) :: l => if decide (k = k') then Some v else assoc_find k l
  end.
Definition assoc_without (k : K) (l : list (K * V)) : list (K * V) := filter (fun p => p.1 <> k) l.
Definition assoc_replace (k : K) (v : V) (l : list (K * V)) : list (K * V) :=
  map (fun p => if decide (p.1 = k) then (k, v) else p) l.
End entries.

Class LruCache (K V C : Type) := {
  lru_unbounded : C;
  lru_new : nat -> C;
  lru_resize : C -> nat -> C;
  lru_push : C -> K -> V -> C * option (K * V);
  lru_put : C -> K -> V -> C * option V;
  lru_pop_entry : C -> K -> C * option (K * V);
  lru_get : C -> K -> C * option V;
  lru_peek : C -> K -> option V;
  (** A mutable reference is the value with the effect of writing through it. *)
  lru_peek_mut : C -> K -> option (V * (V -> C));
  lru_promote : C -> K -> C * bool;
  lru_contains : C -> K -> bool;
  lru_clear : C -> C;
  lru_iter : C -> list (K * V);
  lru_len : C -> nat;
  lru_pop_lru : C -> C * option (K * V);
  (** [LruCache::cap]; [None] when unbounded. *)
  lru_cap : C -> option nat }.

Definition lru_full `{LruCache K V C} (c : C) : Prop :=
  match lru_cap c with Some n => (n <= length (lru_iter c))%nat | None => False end.
#[global] Instance lru_full_dec `{LruCache K V C} (c : C) : Decision (lru_full c).
Proof. unfold lru_full. destruct (lru_cap c); apply _. Defined.

Class LruLaws (K V C : Type) `{EqDecision K} `{LruCache K V C} : Prop := {
  lru_iter_unbounded : lru_iter lru_unbounded = [];
  lru_cap_unbounded : lru_cap lru_unbounded = None;
  lru_iter_new n : lru_iter (lru_new n) = [];
  (** Resizing an empty cache only changes its capacity. *)
  lru_iter_resize c n : lru_iter c = [] -> lru_iter (lru_resize c n) = [];
  lru_cap_resize c n : lru_cap (lru_resize c n) = Some n;
  lru_iter_nodup c : NoDup (lru_iter c).*1;
  lru_peek_find c k : lru_peek c k = assoc_find k (lru_iter c);
  (** [push] returns the old entry of the key, or the entry that falls off. *)
  lru_push_old c k v old : assoc_find k (lru_iter c) = Some old ->
    lru_iter (lru_push c k v).1 = (k, v) :: assoc_without k (lru_iter c) /\ (lru_push c k v).2 = Some (k, old);
  lru_push_evict c k v l e : assoc_find k (lru_iter c) = None -> lru_full c -> lru_iter c = l ++ [e] ->
    lru_iter (lru_push c k v).1 = (k, v) :: l /\ (lru_push c k v).2 = Some e;
  lru_push_new c k v : assoc_find k (lru_iter c) = None -> ~ lru_full c ->
    lru_iter (lru_push c k v).1 = (k, v) :: lru_iter c /\ (lru_push c k v).2 = None;
  lru_cap_push c k v : lru_cap (lru_push c k v).1 = lru_cap c;
  lru_put_old c k v old : assoc_find k (lru_iter c) = Some old ->
    lru_iter (lru_put c k v).1 = (k, v) :: assoc_without k (lru_iter c);
  lru_cap_put c k v : lru_cap (lru_put c k v).1 = lru_cap c;
  lru_iter_pop_entry c k : lru_iter (lru_pop_entry c k).1 = assoc_without k (lru_iter c);
  lru_pop_entry_ret c k : (lru_pop_entry c k).2 = (fun v => (k, v)) <$> assoc_find k (lru_iter c);
  lru_cap_pop_entry c k : lru_cap (lru_pop_entry c k).1 = lru_cap c;
  lru_peek_mut_find c k : fst <$> lru_peek_mut c k = assoc_find k (lru_iter c);
  lru_iter_peek_mut c k v put v' : lru_peek_mut c k = Some (v, put) ->
    lru_iter (put v') = assoc_replace k v' (lru_iter c);
  lru_cap_peek_mut c k v put v' : lru_peek_mut c k = Some (v, put) -> lru_cap (put v') = lru_cap c;
  lru_promote_old c k v : assoc_find k (lru_iter c) = Some v ->
    lru_iter (lru_promote c k).1 = (k, v) :: assoc_without k (lru_iter c) /\ (lru_promote c k).2 = true;
  lru_promote_none c k : assoc_find k (lru_iter c) = None ->
    lru_iter (lru_promote c k).1 = lru_iter c /\ (lru_promote c k).2 = false;
  lru_cap_promote c k : lru_cap (lru_promote c k).1 = lru_cap c;
  lru_contains_find c k : lru_contains c k = bool_decide (is_Some (assoc_find k (lru_iter c)));
  lru_iter_clear c : lru_iter (lru_clear c) = [];
  lru_cap_clear c : lru_cap (lru_clear c) = lru_cap c;
  lru_len_iter c : lru_len c = length (lru_iter c);
  lru_pop_lru_snoc c l e : lru_iter c = l ++ [e] ->
    lru_iter (lru_pop_lru c).1 = l /\ (lru_pop_lru c).2 = Some e;
  lru_cap_pop_lru c : lru_cap (lru_pop_lru c).1 = lru_cap c }.

(** *** A model of it: the entries in order, with the capacity *)
Module ListLru.
Section list_lru.
Context {K V : Type} `{EqDecision K}.
Record t := { entries : list (K * V); cap : option nat }.

Fixpoint dedup (l : list (K * V)) : list (K * V) :=
  match l with [] => [] | (k, v) :: l => (k, v) :: assoc_without k (dedup l) end.
Definition iter (c : t) : list (K * V) := dedup (entries c).
Definition over (c : t) (l : list (K * V)) : t := {| entries := l; cap := cap c |}.
Definition front (c : t) (k : K) (v : V) : t := over c ((k, v) :: assoc_without k (iter c)).
Definition full (c : t) : bool :=
  match cap c with Some n => bool_decide (n <= length (iter c))%nat | None => false end.
Definition push (c : t) (k : K) (v : V) : t * option (K * V) :=
  match assoc_find k (iter c) with
  | Some old => (front c k v, Some (k, old))
  | None =>
      match full c, list.last (iter c) with
      | true, Some e => (over c ((k, v) :: removelast (iter c)), Some e)
      | _, _ => (front c k v, None)
      end
  end.

#[global] Instance list_lru : LruCache K V t := {|
  lru_unbounded := {| entries := []; cap := None |};
  lru_new n := {| entries := []; cap := Some n |};
  lru_resize c n := {| entries := take n (iter c); cap := Some n |};
  lru_push := push;
  lru_put c k v := ((push c k v).1, assoc_find k (iter c));
  lru_pop_entry c k := (over c (assoc_without k (iter c)), (fun v => (k, v)) <$> assoc_find k (iter c));
  lru_get c k := match assoc_find k (iter c) with Some v => (front c k v, Some v) | None => (c, None) end;
  lru_peek c k := assoc_find k (iter c);
  lru_peek_mut c k := (fun v => (v, fun v' => over c (assoc_replace k v' (iter c)))) <$> assoc_find k (iter c);
  lru_promote c k := match assoc_find k (iter c) with Some v => (front c k v, true) | None => (c, false) end;
  lru_contains c k := bool_decide (is_Some (assoc_find k (iter c)));
  lru_clear c := over c [];
  lru_iter := iter;
  lru_len c := length (iter c);
  lru_pop_lru c := (over c (removelast (iter c)), list.last (iter c));
  lru_cap := cap |}.
End list_lru.
Arguments t : clear implicits.
End ListLru.

(** ** [Cache]: the wrapper of cache.rs *)
Section cache.
Context {K V C : Type} `{EqDecision K} `{LruCache K V C}.

(** [NonZeroUsize::new(capacity).expect(..)] *)
Definition Cache_new (capacity : nat) : may_panic C :=
  match capacity with O => Panic | S _ => Ok (lru_resize (lru_new 1024) capacity) end.
Definition Cache_unbounded : C := lru_unbounded.
Definition Cache_promote (self : C) (key : K) : C * bool := lru_promote self key.
Definition Cache_set (self : C) (key : K) (value : V) : C * option (K * V) :=
  let '(self, evicted) := lru_push self key value in
  (self, match evicted with
         | Some (k, v) => if decide (k = key) then None else Some (k, v)
         | None => None
         end).
Definition Cache_update_in_place (self : C) (key : K) (value : V) : may_panic C :=
  _ ← assert_that (lru_contains self key); Ok (lru_put self key value).1.
Definition Cache_remove (self : C) (key : K) : C * option (K * V) := lru_pop_entry self key.
Definition Cache_peek (self : C) (key : K) : option V := lru_peek self key.
Definition Cache_peek_mut (self : C) (key : K) : option (V * (V -> C)) := lru_peek_mut self key.
Definition Cache_clear (self : C) : C := lru_clear self.
Definition Cache_iter (self : C) : list (K * V) := lru_iter self.
Definition Cache_len (self : C) : nat := lru_len self.
Definition Cache_pop_lru (self : C) : C * option (K * V) := lru_pop_lru self.
End cache.

(** ** Objects and the database *)

(** [OnDiskObject]; under the [layout-v2] feature it has no [ref_count], which
    the model keeps at 0 there. *)
Record OnDiskObject := { od_data : list Z; ref_count : Z; od_children : list ArenaKey }.
#[global] Instance OnDiskObject_eq_dec : EqDecision OnDiskObject.
Proof. solve_decision. Defined.
(** [children.iter().flat_map(ArenaKey::refs)] *)
Definition flat_refs (children : list ArenaKey) : list ArenaHash := concat (map refs children).

(** [Update] of db.rs. *)
Inductive DbUpdate := InsertNode (o : OnDiskObject) | DeleteNode | SetRootCount (count : Z).

Class DB (D Handle : Type) := {
  get_node : D -> ArenaHash -> option OnDiskObject;
  get_unreachable_keys : D -> list ArenaHash;
  insert_node : D -> ArenaHash -> OnDiskObject -> D;
  delete_node : D -> ArenaHash -> D;
  batch_update : D -> list (ArenaHash * DbUpdate) -> D;
  batch_get_nodes : D -> list ArenaHash -> list (ArenaHash * option OnDiskObject);
  get_root_count : D -> ArenaHash -> Z;
  set_root_count : D -> ArenaHash -> Z -> D;
  get_roots : D -> gmap ArenaHash Z;
  db_size : D -> Z;
  scan : D -> option Handle -> nat -> list (ArenaHash * OnDiskObject) * option Handle }.

(** [dubious_batch_update], [dubious_batch_get_nodes] *)
Definition apply_db_update `{DB D Handle} (db : D) (u : ArenaHash * DbUpdate) : D :=
  match u with
  | (k, InsertNode value) => insert_node db k value
  | (k, DeleteNode) => delete_node db k
  | (k, SetRootCount count) => set_root_count db k count
  end.
Definition dubious_batch_update `{DB D Handle} (db : D) (iter : list (ArenaHash * DbUpdate)) : D :=
  foldl apply_db_update db iter.
Definition dubious_batch_get_nodes `{DB D Handle} (db : D) (keys : list ArenaHash)
    : list (ArenaHash * option OnDiskObject) :=
  map (fun k => (k, get_node db k)) keys.

(** The effect of an update on the nodes and on the root counts. *)
Definition nodes_after (u : ArenaHash * DbUpdate) (nodes : gmap ArenaHash OnDiskObject) : gmap ArenaHash OnDiskObject :=
  match u with
  | (k, InsertNode o) => <[k := o]> nodes
  | (k, DeleteNode) => delete k nodes
  | (_, SetRootCount _) => nodes
  end.
Definition roots_after (u : ArenaHash * DbUpdate) (roots : gmap ArenaHash Z) : gmap ArenaHash Z :=
  match u with
  | (k, SetRootCount n) => if 0 <? n then <[k := n]> roots else delete k roots
  | _ => roots
  end.

(** What the back end relies on: a database is a map of nodes with a map of
    positive root counts; a scan returns stored nodes, and rounds of a scan
    with a positive batch size, each followed by the deletion of some of the
    nodes it returned, end and pass over every node. *)
Class DBLaws (D Handle : Type) `{DB D Handle} := {
  db_nodes : D -> gmap ArenaHash OnDiskObject;
  db_roots : D -> gmap ArenaHash Z;
  get_node_spec d k : get_node d k = db_nodes d !! k;
  get_unreachable_keys_spec d k :
    k ∈ get_unreachable_keys d <-> exists o, db_nodes d !! k = Some o /\ ref_count o = 0 /\ db_roots d !! k = None;
  get_unreachable_keys_nodup d : NoDup (get_unreachable_keys d);
  insert_node_nodes d k o : db_nodes (insert_node d k o) = <[k := o]> (db_nodes d);
  insert_node_roots d k o : db_roots (insert_node d k o) = db_roots d;
  delete_node_nodes d k : db_nodes (delete_node d k) = delete k (db_nodes d);
  delete_node_roots d k : db_roots (delete_node d k) = db_roots d;
  set_root_count_nodes d k n : db_nodes (set_root_count d k n) = db_nodes d;
  set_root_count_roots d k n :
    db_roots (set_root_count d k n) = if 0 <? n then <[k := n]> (db_roots d) else delete k (db_roots d);
  batch_update_nodes d us : db_nodes (batch_update d us) = foldl (fun m u => nodes_after u m) (db_nodes d) us;
  batch_update_roots d us : db_roots (batch_update d us) = foldl (fun m u => roots_after u m) (db_roots d) us;
  batch_get_nodes_spec d ks : batch_get_nodes d ks = map (fun k => (k, db_nodes d !! k)) ks;
  get_root_count_spec d k : get_root_count d k = default 0 (db_roots d !! k);
  get_roots_spec d : get_roots d = db_roots d;
  db_size_spec d : db_size d = Z.of_nat (size (db_nodes d));
  (** The nodes a scan that resumes from [h] has still to return. *)
  scan_rest : D -> option Handle -> gset ArenaHash;
  scan_rest_start d : scan_rest d None = dom (db_nodes d);
  scan_rest_delete d h ks :
    scan_rest (batch_update d (map (fun k => (k, DeleteNode)) ks)) h = scan_rest d h ∖ list_to_set ks;
  scan_nodes d h n : Forall (fun p => db_nodes d !! p.1 = Some p.2) (scan d h n).1;
  scan_split d h n : (0 < n)%nat -> scan_rest d h = list_to_set (scan d h n).1.*1 ∪
    match (scan d h n).2 with Some h' => scan_rest d (Some h') | None => ∅ end;
  scan_progress d h n h' : (0 < n)%nat -> (scan d h n).2 = Some h' ->
    (size (scan_rest d (Some h')) < size (scan_rest d h))%nat }.

(** *** [DB::bfs_get_nodes] *)
Section bfs.
Context {D Handle : Type} `{DB D Handle}.
Context (self : D) (cache_get : ArenaHash -> option OnDiskObject) (truncate : bool).

(** The first loop of a level, over its keys: visited keys, children of cached
    nodes and keys that are not cached. *)
Definition bfs_visit (acc : gset ArenaHash * list ArenaHash * list ArenaHash) (k : ArenaHash)
    : gset ArenaHash * list ArenaHash * list ArenaHash :=
  let '(visited, next_keys, unknown_keys) := acc in
  if bool_decide (k ∈ visited) then acc
  else
    let visited := {[ k ]} ∪ visited in
    match cache_get k with
    | Some node =>
        (visited, if truncate then next_keys else next_keys ++ flat_refs (od_children node), unknown_keys)
    | None => (visited, next_keys, unknown_keys ++ [k])
    end.

(** The second loop, over the nodes read from the database. *)
Definition bfs_read (current_depth : nat) (acc : list ArenaHash * list (ArenaHash * OnDiskObject))
    (kv : ArenaHash * option OnDiskObject) : may_panic (list ArenaHash * list (ArenaHash * OnDiskObject)) :=
  let '(next_keys, kvs) := acc in
  match kv with
  | (k, Some node) => Ok (next_keys ++ flat_refs (od_children node), kvs ++ [(k, node)])
  | (_, None) => if (0 <? current_depth)%nat then Panic else Ok acc
  end.

Definition limit_unknown (max_count : option nat) (found : nat) (unknown_keys : list ArenaHash) : list ArenaHash :=
  match max_count with Some max_count => take (max_count - found) unknown_keys | None => unknown_keys end.

Fixpoint bfs_loop (fuel : nat) (max_depth max_count : option nat) (current_depth : nat)
    (visited : gset ArenaHash) (current_keys : list ArenaHash) (kvs : list (ArenaHash * OnDiskObject))
    : may_panic (list (ArenaHash * OnDiskObject)) :=
  if bool_decide (current_keys <> []) && match max_depth with Some d => (current_depth <=? d)%nat | None => true end
  then
    match fuel with
    | O => Panic
    | S fuel =>
        let '(visited, next_keys, unknown_keys) := foldl bfs_visit (visited, [], []) current_keys in
        let unknown_keys := limit_unknown max_count (length kvs) unknown_keys in
        '(next_keys, kvs) ← try_fold (bfs_read current_depth) (next_keys, kvs) (batch_get_nodes self unknown_keys);
        bfs_loop fuel max_depth max_count (S current_depth) visited next_keys kvs
    end
  else Ok kvs.
End bfs.

(** A level with a key that was not visited adds it to the visited keys; the
    others end the search.  [known] bounds the number of nodes, in the database
    and in memory, so that the search ends within [known + 2] levels. *)
Definition bfs_get_nodes `{DB D Handle} (self : D) (key : ArenaHash) (cache_get : ArenaHash -> option OnDiskObject)
    (truncate : bool) (max_depth max_count : option nat) (known : nat) : may_panic (list (ArenaHash * OnDiskObject)) :=
  bfs_loop self cache_get truncate
    (match max_depth with Some d => S d | None => S (S known) end) max_depth max_count 0 ∅ [key] [].

(** ** [InMemoryDB] *)
Module InMemoryDB.
Record t := { nodes : gmap ArenaHash OnDiskObject; roots : gmap ArenaHash Z }.
Definition empty : t := {| nodes := ∅; roots := ∅ |}.

(** The order of the keys of a [BTreeMap], the one of their bytes. *)
Fixpoint hash_leb (a b : ArenaHash) : bool :=
  match a, b with
  | [], _ => true
  | _ :: _, [] => false
  | x :: a, y :: b => (x <? y) || ((x =? y) && hash_leb a b)
  end.
Definition entry_le (p q : ArenaHash * OnDiskObject) : Prop := hash_leb p.1 q.1 = true.
#[global] Instance entry_le_dec : RelDecision entry_le := fun p q => decide (hash_leb p.1 q.1 = true).
Definition sorted_nodes (self : t) : list (ArenaHash * OnDiskObject) := merge_sort entry_le (map_to_list (nodes self)).

Definition get_unreachable_keys (self : t) : list ArenaHash :=
  (filter (fun p => ref_count p.2 = 0 /\ roots self !! p.1 = None) (sorted_nodes self)).*1.
Definition set_root_count (self : t) (key : ArenaHash) (count : Z) : t :=
  {| nodes := nodes self; roots := if 0 <? count then <[key := count]> (roots self) else delete key (roots self) |}.
Definition after (handle : option ArenaHash) (p : ArenaHash * OnDiskObject) : bool :=
  match handle with Some h => negb (hash_leb p.1 h) | None => true end.
Definition scan (self : t) (resume_from : option ArenaHash) (batch_size : nat)
    : list (ArenaHash * OnDiskObject) * option ArenaHash :=
  let batch := take batch_size (filter (fun p => after resume_from p = true) (sorted_nodes self)) in
  (batch, fst <$> list.last batch).

Definition insert_node (self : t) (key : ArenaHash) (object : OnDiskObject) : t :=
  {| nodes := <[key := object]> (nodes self); roots := roots self |}.
Definition delete_node (self : t) (key : ArenaHash) : t :=
  {| nodes := delete key (nodes self); roots := roots self |}.
Definition get_node (self : t) (key : ArenaHash) : option OnDiskObject := nodes self !! key.
Definition get_root_count (self : t) (key : ArenaHash) : Z := default 0 (roots self !! key).
Definition update (self : t) (u : ArenaHash * DbUpdate) : t :=
  match u with
  | (k, InsertNode value) => insert_node self k value
  | (k, DeleteNode) => delete_node self k
  | (k, SetRootCount count) => set_root_count self k count
  end.
Definition batch_get_nodes (self : t) (keys : list ArenaHash) : list (ArenaHash * option OnDiskObject) :=
  map (fun k => (k, get_node self k)) keys.

#[global] Instance in_memory_db : DB t ArenaHash := {|
  StorageDb.get_node := get_node;
  StorageDb.get_unreachable_keys := get_unreachable_keys;
  StorageDb.insert_node := insert_node;
  StorageDb.delete_node := delete_node;
  StorageDb.batch_update := foldl update;
  StorageDb.batch_get_nodes := batch_get_nodes;
  StorageDb.get_root_count := get_root_count;
  StorageDb.set_root_count := set_root_count;
  StorageDb.get_roots := roots;
  StorageDb.db_size self := Z.of_nat (size (nodes self));
  StorageDb.scan := scan |}.

Lemma batch_update_dubious self us : StorageDb.batch_update self us = dubious_batch_update self us.
Proof. reflexivity. Qed.
End InMemoryDB.

(** ** Entries of a cache *)
#[local] Set Default Proof Using "Type*".
Section entry_lemmas.
Context {K V : Type} `{Countable K}.
Implicit Types (l : list (K * V)).

Lemma assoc_find_lookup l k : assoc_find k l = (list_to_map l : gmap K V) !! k.
Proof.
  induction l as [|[k' v] l IH]; cbn; [by rewrite lookup_empty|].
  case_decide; subst; [by rewrite lookup_insert_eq|]. by rewrite lookup_insert_ne.
Qed.
Lemma assoc_find_None l k : assoc_find k l = None <-> k ∉ l.*1.
Proof. rewrite assoc_find_lookup. symmetry. apply not_elem_of_list_to_map. Qed.

Lemma without_keys l k k' : k' ∈ (assoc_without k l).*1 <-> k' <> k /\ k' ∈ l.*1.
Proof.
  unfold assoc_without. rewrite !list_elem_of_fmap. setoid_rewrite list_elem_of_filter. naive_solver.
Qed.
Lemma without_nodup l k : NoDup l.*1 -> NoDup (assoc_without k l).*1.
Proof.
  induction l as [|p l IH]; [done|]. rewrite fmap_cons, list.NoDup_cons. intros [Hp Hl].
  unfold assoc_without. rewrite filter_cons. case_decide; [|by apply IH].
  rewrite fmap_cons, list.NoDup_cons. split; [|by apply IH].
  intros Hin. apply Hp. by apply without_keys in Hin as [_ ?].
Qed.
Lemma without_id l k : k ∉ l.*1 -> assoc_without k l = l.
Proof.
  unfold assoc_without. induction l as [|p l IH]; [done|]. rewrite fmap_cons, not_elem_of_cons. intros [Hne Hk].
  rewrite filter_cons, decide_True by congruence. by rewrite IH.
Qed.
Lemma without_map l k : (list_to_map (assoc_without k l) : gmap K V) = delete k (list_to_map l).
Proof.
  unfold assoc_without. induction l as [|[k' v] l IH]; [cbn; by rewrite delete_empty|].
  rewrite filter_cons, list_to_map_cons. cbn [fst snd]. case_decide as E; [rewrite list_to_map_cons; cbn [fst snd]|].
  - rewrite IH. by rewrite delete_insert_ne by done.
  - subst. rewrite IH. by rewrite delete_insert_eq.
Qed.
Lemma replace_keys l k v : (assoc_replace k v l).*1 = l.*1.
Proof. unfold assoc_replace. induction l as [|p l IH]; [done|]. cbn. rewrite IH. case_decide; by subst. Qed.
Lemma replace_map l k v : k ∈ l.*1 -> NoDup l.*1 ->
  (list_to_map (assoc_replace k v l) : gmap K V) = <[k := v]> (list_to_map l).
Proof.
  unfold assoc_replace. induction l as [|[k' v'] l IH]; cbn; [by intros ?%elem_of_nil|].
  rewrite elem_of_cons, list.NoDup_cons. intros Hin [Hk' Hnd]. case_decide as E; cbn.
  - subst. rewrite insert_insert_eq. f_equal. fold (assoc_replace k v l). apply map_eq. intros i.
    destruct (decide (i = k)) as [->|Hne]; rewrite <- !assoc_find_lookup.
    + rewrite (proj2 (assoc_find_None l k) Hk'). apply assoc_find_None. by rewrite replace_keys.
    + clear -Hne. unfold assoc_replace. induction l as [|[j w] l IH]; [done|]. cbn.
      destruct (decide (j = k)) as [->|]; cbn; [by rewrite !decide_False by done|]. by case_decide.
  - rewrite IH by (by destruct Hin || done). by rewrite insert_insert_ne by congruence.
Qed.
End entry_lemmas.

Section list_lru_laws.
Context {K V : Type} `{Countable K}.
Import ListLru.
Implicit Types (l : list (K * V)) (c : t K V).

Lemma dedup_nodup l : NoDup (dedup l).*1.
Proof.
  induction l as [|[k v] l IH]; cbn; [constructor|]. apply list.NoDup_cons. split; [|by apply without_nodup].
  by intros [? _]%without_keys.
Qed.
Lemma dedup_id l : NoDup l.*1 -> dedup l = l.
Proof.
  induction l as [|[k v] l IH]; cbn; [done|]. intros [Hk Hl]%list.NoDup_cons. by rewrite IH, without_id.
Qed.
Lemma iter_over c l : NoDup l.*1 -> iter (over c l) = l.
Proof. apply dedup_id. Qed.
Lemma iter_front c k v : iter (front c k v) = (k, v) :: assoc_without k (iter c).
Proof.
  apply iter_over. cbn. apply list.NoDup_cons. split; [by intros [? _]%without_keys|apply without_nodup, dedup_nodup].
Qed.
Lemma full_spec c : full c = true <-> lru_full c.
Proof.
  unfold full, lru_full. cbn. destruct (cap c); [by rewrite bool_decide_eq_true|]. by split.
Qed.

Lemma snoc_inits l (e : K * V) c : iter c = l ++ [e] -> removelast (iter c) = l /\ list.last (iter c) = Some e.
Proof. intros ->. by rewrite removelast_last, last_snoc. Qed.
Lemma inits_nodup l (e : K * V) c k v : iter c = l ++ [e] -> assoc_find k (iter c) = None -> NoDup ((k, v) :: l).*1.
Proof.
  intros E Hk. pose proof (dedup_nodup (entries c)) as Hnd. fold (iter c) in Hnd. apply assoc_find_None in Hk.
  rewrite E, fmap_app in Hnd, Hk. apply list.NoDup_app in Hnd as [Hnd _]. cbn. apply list.NoDup_cons. set_solver.
Qed.

#[global] Instance list_lru_laws : LruLaws K V (t K V).
Proof.
  constructor; cbn -[iter assoc_without assoc_replace dedup]; try done.
  - intros c n E. unfold iter at 1. cbn -[iter dedup]. by rewrite E, take_nil.
  - intros c. apply dedup_nodup.
  - intros c k v old E. unfold push. rewrite E. cbn [fst snd]. split; [apply iter_front|done].
  - intros c k v l e E Hf Hl. unfold push. rewrite E, (proj2 (full_spec c) Hf).
    destruct (snoc_inits l e c Hl) as [-> ->]. cbn [fst snd]. split; [|done]. apply iter_over. by eapply inits_nodup.
  - intros c k v E Hf. unfold push. rewrite E. destruct (full c) eqn:Ef; [by apply full_spec in Ef|]. cbn [fst snd].
    rewrite iter_front, without_id; [done|]. by apply assoc_find_None.
  - intros c k v. unfold push. repeat case_match; done.
  - intros c k v old E. unfold push. rewrite E. apply iter_front.
  - intros c k v. unfold push. repeat case_match; done.
  - intros c k. apply iter_over, without_nodup, dedup_nodup.
  - intros c k. by destruct (assoc_find k (iter c)).
  - intros c k v put v' E. apply fmap_Some in E as (v0 & _ & [= _ ->]). apply iter_over.
    rewrite replace_keys. apply dedup_nodup.
  - intros c k v put v' E. by apply fmap_Some in E as (v0 & _ & [= _ ->]).
  - intros c k v ->. split; [apply iter_front|done].
  - by intros c k ->.
  - intros c k. by destruct (assoc_find k (iter c)).
  - intros c l e E. destruct (snoc_inits l e c E) as [-> ->]. split; [|done]. apply iter_over.
    pose proof (dedup_nodup (entries c)) as Hnd. fold (iter c) in Hnd. rewrite E, fmap_app in Hnd.
    by apply list.NoDup_app in Hnd as [? _].
Qed.
End list_lru_laws.

(** ** [InMemoryDB] keeps the promises of a database *)
Module InMemoryDBLaws.
Import InMemoryDB.

Lemma hash_leb_refl a : hash_leb a a = true.
Proof. induction a as [|x a IH]; cbn; [done|]. by rewrite Z.ltb_irrefl, Z.eqb_refl, IH. Qed.
Lemma hash_leb_total a b : hash_leb a b = true \/ hash_leb b a = true.
Proof.
  revert b. induction a as [|x a IH]; intros [|y b]; cbn; auto.
  destruct (Z.lt_trichotomy x y) as [Hl|[->|Hl]].
  - left. by rewrite (proj2 (Z.ltb_lt _ _) Hl).
  - rewrite Z.ltb_irrefl, Z.eqb_refl. apply IH.
  - right. by rewrite (proj2 (Z.ltb_lt _ _) Hl).
Qed.
Lemma hash_leb_cons x a y b : hash_leb (x :: a) (y :: b) = true <-> x < y \/ (x = y /\ hash_leb a b = true).
Proof. cbn. rewrite orb_true_iff, andb_true_iff, Z.ltb_lt, Z.eqb_eq. done. Qed.
Lemma hash_leb_trans a b c : hash_leb a b = true -> hash_leb b c = true -> hash_leb a c = true.
Proof.
  revert b c. induction a as [|x a IH]; intros [|y b] [|z c]; try done.
  rewrite !hash_leb_cons. intros [?|[-> Hab]] [?|[-> Hbc]]; eauto; left; lia.
Qed.
Lemma hash_leb_antisym a b : hash_leb a b = true -> hash_leb b a = true -> a = b.
Proof.
  revert b. induction a as [|x a IH]; intros [|y b]; try done.
  rewrite !hash_leb_cons. intros [?|[Ex Hab]] [?|[Ey Hba]]; try lia. by rewrite Ex, (IH b Hab Hba).
Qed.
#[global] Instance entry_le_total : Total entry_le.
Proof. intros p q. apply hash_leb_total. Qed.
#[global] Instance entry_le_trans : Transitive entry_le.
Proof. intros p q r. apply hash_leb_trans. Qed.

Lemma sorted_nodes_perm d : sorted_nodes d ≡ₚ map_to_list (nodes d).
Proof. apply merge_sort_Permutation. Qed.
Lemma elem_sorted_nodes d p : p ∈ sorted_nodes d <-> nodes d !! p.1 = Some p.2.
Proof. rewrite sorted_nodes_perm. destruct p. by rewrite elem_of_map_to_list. Qed.
Lemma sorted_nodes_nodup d : NoDup (sorted_nodes d).*1.
Proof. rewrite sorted_nodes_perm. apply NoDup_fst_map_to_list. Qed.
Lemma sorted_nodes_sorted d : StronglySorted entry_le (sorted_nodes d).
Proof. apply (StronglySorted_merge_sort entry_le). Qed.

Definition rest (d : t) (h : option ArenaHash) : list (ArenaHash * OnDiskObject) :=
  filter (fun p => after h p = true) (sorted_nodes d).
Lemma rest_sorted d h : StronglySorted entry_le (rest d h).
Proof.
  unfold rest. pose proof (sorted_nodes_sorted d) as Hs. induction Hs as [|p l Hl IH Hp]; [constructor|].
  rewrite filter_cons. case_decide; [|done]. constructor; [done|].
  rewrite list.Forall_forall in *. intros q [_ Hq]%list_elem_of_filter. auto.
Qed.
Lemma rest_nodup d h : NoDup (rest d h).*1.
Proof.
  unfold rest. pose proof (sorted_nodes_nodup d) as Hn. induction (sorted_nodes d) as [|p l IH]; [constructor|].
  rewrite filter_cons. apply list.NoDup_cons in Hn as [Hp Hl]. case_decide; [|by apply IH].
  apply list.NoDup_cons. split; [|by apply IH]. intros Hin. apply Hp.
  apply list_elem_of_fmap in Hin as (q & E & [_ Hq]%list_elem_of_filter). rewrite E. by apply list_elem_of_fmap_2.
Qed.
Lemma elem_rest d h p : p ∈ rest d h <-> after h p = true /\ nodes d !! p.1 = Some p.2.
Proof. unfold rest. by rewrite list_elem_of_filter, elem_sorted_nodes. Qed.
Lemma after_trans h p q : after h p = true -> entry_le p q -> after h q = true.
Proof.
  destruct h as [h|]; cbn; [|done]. rewrite !negb_true_iff, <- !not_true_iff_false. unfold entry_le.
  intros Hp Hpq Hq. apply Hp. by eapply hash_leb_trans.
Qed.

(** In a sorted list without duplicates, the entries after one are the ones to
    the right of it. *)
Lemma rest_after d h l e r : rest d h = l ++ e :: r -> forall p, p ∈ rest d (Some e.1) <-> p ∈ r.
Proof.
  intros E p. pose proof (rest_sorted d h) as Hs. pose proof (rest_nodup d h) as Hn. rewrite E in Hs, Hn.
  assert (e ∈ rest d h) as [He1 He2]%elem_rest by (rewrite E; set_solver).
  assert (forall q, q ∈ l -> entry_le q e) as Hle.
  { intros q Hq. eapply StronglySorted_app_1_elem_of; [exact Hs|done|left]. }
  assert (forall q, q ∈ r -> entry_le e q) as Hge.
  { apply StronglySorted_app_1_r, StronglySorted_cons in Hs as [Hs _]. by rewrite list.Forall_forall in Hs. }
  rewrite elem_rest. split.
  - intros [Ha Hd]. cbn in Ha. rewrite negb_true_iff, <- not_true_iff_false in Ha.
    assert (entry_le e p) as Hep by (by destruct (hash_leb_total p.1 e.1)).
    assert (p ∈ rest d h) as Hp by (apply elem_rest; split; [by eapply after_trans|done]).
    rewrite E, elem_of_app, elem_of_cons in Hp. destruct Hp as [Hp|[->|Hp]]; [|by rewrite hash_leb_refl in Ha|done].
    by apply Hle in Hp.
  - intros Hr. assert (p ∈ rest d h) as [_ Hp]%elem_rest by (rewrite E; set_solver). split; [|done].
    cbn. rewrite negb_true_iff, <- not_true_iff_false. intros Hpe.
    rewrite fmap_app, fmap_cons in Hn. apply list.NoDup_app in Hn as (_ & _ & Hn%list.NoDup_cons).
    destruct Hn as [Hn _]. apply Hn. rewrite (hash_leb_antisym e.1 p.1 (Hge p Hr) Hpe). by apply list_elem_of_fmap_2.
Qed.

Definition rest_set (d : t) (h : option ArenaHash) : gset ArenaHash := list_to_set (rest d h).*1.
Lemma elem_rest_set d h k :
  k ∈ rest_set d h <-> exists o, after h (k, o) = true /\ nodes d !! k = Some o.
Proof.
  unfold rest_set. rewrite elem_of_list_to_set, list_elem_of_fmap. split.
  - intros ([k' o] & -> & Hp%elem_rest). eauto.
  - intros (o & Hp). exists (k, o). split; [done|]. by apply elem_rest.
Qed.

Lemma nodes_batch us d : nodes (foldl update d us) = foldl (fun m u => nodes_after u m) (nodes d) us.
Proof. revert d. induction us as [|[k [o| |n]] us IH]; intros d; cbn; by rewrite ?IH. Qed.
Lemma roots_batch us d : roots (foldl update d us) = foldl (fun m u => roots_after u m) (roots d) us.
Proof. revert d. induction us as [|[k [o| |n]] us IH]; intros d; cbn; by rewrite ?IH. Qed.
Lemma nodes_delete (ks : list ArenaHash) (m : gmap ArenaHash OnDiskObject) k :
  foldl (fun m u => nodes_after u m) m (map (fun k => (k, DeleteNode)) ks) !! k
  = if decide (k ∈ ks) then None else m !! k.
Proof.
  revert m. induction ks as [|k' ks IH]; intros m; cbn; [done|]. rewrite IH.
  destruct (decide (k ∈ ks)), (decide (k ∈ k' :: ks)); try done; try set_solver.
  - assert (k = k') as -> by set_solver. apply lookup_delete_eq.
  - rewrite lookup_delete_ne; [done|]. set_solver.
Qed.

Lemma scan_cases d h n : (0 < n)%nat ->
  (rest d h = [] /\ scan d h n = ([], None)) \/
  (exists l e r, rest d h = l ++ e :: r /\ scan d h n = (l ++ [e], Some e.1)).
Proof.
  intros Hn. unfold scan. fold (rest d h). destruct (rest d h) as [|p ps] eqn:E; [left; by rewrite take_nil|right].
  destruct n as [|n]; [lia|]. rewrite firstn_cons.
  destruct (exists_last (l := p :: take n ps)) as (l & e & El); [done|].
  exists l, e, (drop n ps). rewrite El, last_snoc. split; [|done].
  transitivity ((p :: take n ps) ++ drop n ps); [cbn; by rewrite take_drop|]. by rewrite El, <- app_assoc.
Qed.

#[global] Instance in_memory_db_laws : DBLaws t ArenaHash.
Proof.
  refine {| db_nodes := nodes; db_roots := roots; scan_rest := rest_set |}; try done.
  - intros d k. cbn. unfold get_unreachable_keys. rewrite list_elem_of_fmap. split.
    + intros ([k' o] & -> & [[Hr Hz] Hd%elem_sorted_nodes]%list_elem_of_filter). eauto.
    + intros (o & Hd & Hr & Hz). exists (k, o). split; [done|]. apply list_elem_of_filter.
      by rewrite elem_sorted_nodes.
  - intros d. cbn. unfold get_unreachable_keys. pose proof (sorted_nodes_nodup d) as Hn.
    induction (sorted_nodes d) as [|p l IH]; [constructor|]. apply list.NoDup_cons in Hn as [Hp Hl].
    rewrite filter_cons. case_decide; [|by apply IH]. apply list.NoDup_cons. split; [|by apply IH].
    intros Hin. apply Hp. apply list_elem_of_fmap in Hin as (q & E & [_ Hq]%list_elem_of_filter).
    rewrite E. by apply list_elem_of_fmap_2.
  - intros d us. apply nodes_batch.
  - intros d us. apply roots_batch.
  - intros d. apply set_eq. intros k. rewrite elem_rest_set, elem_of_dom. cbn.
    split; [intros (o & _ & ->); eauto|intros [o E]; eauto].
  - intros d h ks. apply set_eq. intros k. rewrite elem_of_difference, elem_of_list_to_set, !elem_rest_set. cbn.
    rewrite nodes_batch, nodes_delete. split.
    + intros (o & Ha & Hd). case_decide; [done|]. eauto.
    + intros [(o & Ha & Hd) Hk]. exists o. by rewrite decide_False.
  - intros d h n. apply list.Forall_forall. intros p Hp. cbn in Hp. unfold scan in Hp. cbn in Hp.
    apply elem_of_take in Hp as (i & Hi & _). apply list_elem_of_lookup_2 in Hi. by apply elem_rest in Hi as [_ ?].
  - intros d h n Hn. change (StorageDb.scan d h n) with (scan d h n). unfold rest_set. destruct (scan_cases d h n Hn) as [[E ->]|(l & e & r & E & ->)].
    + rewrite E. cbn. set_solver.
    + cbn. apply set_eq. intros k. rewrite E.
      rewrite elem_of_union, !elem_of_list_to_set, !fmap_app, fmap_cons, !elem_of_app, elem_of_cons.
      assert (k ∈ (rest d (Some e.1)).*1 <-> k ∈ r.*1) as ->; [|cbn; set_solver].
      rewrite !list_elem_of_fmap. by setoid_rewrite (rest_after d h l e r E).
  - intros d h n h' Hn Hs. change (StorageDb.scan d h n) with (scan d h n) in Hs. unfold rest_set.
    destruct (scan_cases d h n Hn) as [[E Es]|(l & e & r & E & Es)]; rewrite Es in Hs; simplify_eq/=.
    rewrite E. rewrite !size_list_to_set by (apply rest_nodup || (rewrite <- E; apply rest_nodup)).
    assert (rest d (Some e.1) ≡ₚ r) as ->; [|rewrite !length_fmap, length_app; cbn; lia].
    pose proof (rest_nodup d h) as Hnd. rewrite E, fmap_app, fmap_cons in Hnd.
    apply list.NoDup_app in Hnd as (_ & _ & [_ Hnd]%list.NoDup_cons).
    apply NoDup_Permutation; [by apply (NoDup_fmap_1 fst), rest_nodup|by apply (NoDup_fmap_1 fst)|].
    apply (rest_after d h l e r E).
Defined.
End InMemoryDBLaws.
