(* ===== verification/Gc.v ===== *)
(** * The incremental garbage collector of the storage layer ([storage-core/src/gc.rs])

    [GcState::run] marks what the roots reach, first through the nodes in
    memory, then in batches through the database, and when nothing is left to
    mark it scans the database in batches and deletes what is not marked.  A
    run stops when its time is used up and the next run goes on where it
    stopped, while the caller changes the roots, the caches and the database
    between the runs.

    How many nodes a batch has depends on clocks and on floating-point averages
    of past batches ([RunningBenchmark]); it is a parameter of the model: a run
    takes the sizes of the batches it gets before its time is used up, one list
    for the mark phase and one for the sweep. *)
From S2P Require Import Prelude CostModel DeltaTracking StorageDb.

Section gc.
Context {D Handle : Type} `{DB D Handle} `{HashOrder}.

Record GcState := {
  rescan : bool;
  last_roots : gset ArenaHash;
  grey_set : gset ArenaHash;
  mark_set : gset ArenaHash;
  sweep_resume : option Handle }.

Definition GcState_default : GcState :=
  {| rescan := true; last_roots := ∅; grey_set := ∅; mark_set := ∅; sweep_resume := None |}.
Definition force_rescan (self : GcState) : GcState :=
  {| rescan := true; last_roots := last_roots self; grey_set := grey_set self; mark_set := mark_set self;
     sweep_resume := sweep_resume self |}.
Definition with_colours (self : GcState) (grey mark : gset ArenaHash) : GcState :=
  {| rescan := rescan self; last_roots := last_roots self; grey_set := grey; mark_set := mark;
     sweep_resume := sweep_resume self |}.
Definition with_resume (self : GcState) (resume : option Handle) : GcState :=
  {| rescan := rescan self; last_roots := last_roots self; grey_set := grey_set self; mark_set := mark_set self;
     sweep_resume := resume |}.

(** The new roots become grey; [db_roots] is only consulted for a rescan. *)
Definition add_root (self : GcState) (root : ArenaHash) : GcState :=
  if bool_decide (root ∈ last_roots self) then self
  else {| rescan := rescan self; last_roots := {[ root ]} ∪ last_roots self; grey_set := {[ root ]} ∪ grey_set self;
          mark_set := mark_set self; sweep_resume := sweep_resume self |}.
Definition update_roots (self : GcState) (roots : list ArenaHash) (db_roots : D -> list ArenaHash) (db : D) : GcState :=
  if rescan self then
    let last := list_to_set (roots ++ db_roots db) in
    {| rescan := false; last_roots := last;
       grey_set := grey_set self ∪ (last ∖ mark_set self);
       mark_set := mark_set self; sweep_resume := sweep_resume self |}
  else foldl add_root self roots.

(** *** The mark phase in memory *)
Definition grey_child (acc : GcState * gset ArenaHash) (child : ArenaHash) : GcState * gset ArenaHash :=
  let '(self, next) := acc in
  if bool_decide ((child ∉ mark_set self) /\ (child ∉ grey_set self))
  then (with_colours self ({[ child ]} ∪ grey_set self) (mark_set self), {[ child ]} ∪ next)
  else acc.
Definition mark_cached_key (cache_read : ArenaHash -> option OnDiskObject) (acc : GcState * gset ArenaHash)
    (hash : ArenaHash) : GcState * gset ArenaHash :=
  let '(self, next) := acc in
  match cache_read hash with
  | Some obj =>
      let self := with_colours self (grey_set self ∖ {[ hash ]}) ({[ hash ]} ∪ mark_set self) in
      foldl grey_child (self, next) (flat_refs (od_children obj))
  | None => acc
  end.
Fixpoint mark_cached (fuel : nat) (cache_read : ArenaHash -> option OnDiskObject) (self : GcState)
    (to_process : gset ArenaHash) : may_panic GcState :=
  if bool_decide (to_process = ∅) then Ok self
  else
    match fuel with
    | O => Panic
    | S fuel =>
        let '(self, next) := foldl (mark_cached_key cache_read) (self, ∅) (hash_iter (elements to_process)) in
        mark_cached fuel cache_read self next
    end.

(** *** The mark phase on disk; [reads] are the sizes of the batches *)
Definition mark_read (self : GcState) (kv : ArenaHash * option OnDiskObject) : GcState :=
  let '(parent, obj) := kv in
  let self := with_colours self (grey_set self ∖ {[ parent ]}) ({[ parent ]} ∪ mark_set self) in
  (foldl grey_child (self, ∅) (match obj with Some o => flat_refs (od_children o) | None => [] end)).1.
Definition mark_batch (self : GcState) (db : D) (batch_size : nat) : GcState :=
  let batch := take batch_size (hash_iter (elements (grey_set self))) in
  let batch_read := batch_get_nodes db batch in
  foldl mark_read (with_colours self (grey_set self) (list_to_set batch ∪ mark_set self)) batch_read.
Fixpoint mark_disk (self : GcState) (db : D) (reads : list nat) : GcState :=
  match reads with
  | [] => self
  | batch_size :: reads =>
      if bool_decide (grey_set self = ∅) then self else mark_disk (mark_batch self db batch_size) db reads
  end.

(** *** The sweep; [scans] are the sizes of the batches *)
Definition delete_nodes (db : D) (to_delete : list ArenaHash) : D :=
  batch_update db (map (fun k => (k, DeleteNode)) to_delete).
Fixpoint sweep (self : GcState) (db : D) (cull_set : list ArenaHash) (scans : list nat)
    : GcState * D * list ArenaHash :=
  match scans with
  | [] => (self, db, cull_set)
  | batch_size :: scans =>
      let '(nodes, handle) := scan db (sweep_resume self) batch_size in
      let self := with_resume self handle in
      let to_delete := filter (fun k => (k ∉ mark_set self)) nodes.*1 in
      let db := delete_nodes db to_delete in
      let cull_set := cull_set ++ to_delete in
      match sweep_resume self with
      | None => (self, db, cull_set)
      | Some _ => sweep self db cull_set scans
      end
  end.

(** [GcState::run].  The loop in memory marks a key that was not marked in every
    round but the first, so that [cached + 2] rounds are enough where [cached]
    bounds the number of nodes in memory. *)
Definition run (self : GcState) (roots : list ArenaHash) (reads scans : list nat) (db : D)
    (cache_read : ArenaHash -> option OnDiskObject) (db_roots : D -> list ArenaHash) (cached : nat)
    : may_panic (GcState * D * list ArenaHash) :=
  let self := update_roots self roots db_roots db in
  self ← mark_cached (S (S cached)) cache_read self (grey_set self);
  let self := mark_disk self db reads in
  if bool_decide (grey_set self <> ∅) then Ok (self, db, [])
  else
    let '(self, db, cull_set) := sweep self db [] scans in
    match sweep_resume self with
    | Some _ => Ok (self, db, cull_set)
    | None =>
        Ok ({| rescan := true; last_roots := ∅; grey_set := grey_set self; mark_set := ∅;
               sweep_resume := sweep_resume self |}, db, cull_set)
    end.

(** [db.get_roots().keys().cloned().collect()], as [StorageBackend::gc] passes it. *)
Definition db_root_keys (db : D) : list ArenaHash := hash_iter (map_to_list (get_roots db)).*1.
End gc.
Arguments GcState : clear implicits.
