(* ===== verification/GcProps.v ===== *)
(** * The garbage collector deletes only garbage, and with enough time all of it

    The objects of the storage layer are content-addressed: what a key refers
    to is a function of the key, [links] below.  A node is needed when a root
    reaches it along [links].  The collector's invariant is the tri-colour one:
    a marked node refers only to marked and grey nodes. *)
From S2P Require Import Prelude CostModel DeltaTracking StorageDb Gc.

(** ** Reachability *)
Section reach.
Context (links : ArenaHash -> list ArenaHash).

Inductive reach (S : gset ArenaHash) : ArenaHash -> Prop :=
  | reach_root k : k ∈ S -> reach S k
  | reach_link k c : reach S k -> c ∈ links k -> reach S c.

Lemma reach_mono (S T : gset ArenaHash) k : S ⊆ T -> reach S k -> reach T k.
Proof. intros HS. induction 1; eauto using reach. Qed.
Lemma reach_closed (S T : gset ArenaHash) k :
  S ⊆ T -> (forall a c, a ∈ T -> c ∈ links a -> c ∈ T) -> reach S k -> k ∈ T.
Proof. intros HS HT. induction 1; eauto. Qed.
Lemma reach_within (S T : gset ArenaHash) k : (forall s, s ∈ S -> reach T s) -> reach S k -> reach T k.
Proof. intros HS. induction 1; eauto using reach. Qed.
End reach.

(** ** Greying the children of a node *)
Section colours.
Context {D Handle : Type} `{DB D Handle} `{HashOrder}.
Implicit Types (self : GcState Handle) (next : gset ArenaHash).

Definition same_rest (self self' : GcState Handle) : Prop :=
  rescan self' = rescan self /\ last_roots self' = last_roots self /\ sweep_resume self' = sweep_resume self.
Lemma same_rest_refl self : same_rest self self.
Proof. done. Qed.
Lemma same_rest_trans s1 s2 s3 : same_rest s1 s2 -> same_rest s2 s3 -> same_rest s1 s3.
Proof. unfold same_rest. intuition congruence. Qed.

Lemma grey_children cs self next self' next' :
  foldl grey_child (self, next) cs = (self', next') ->
  same_rest self self' /\ mark_set self' = mark_set self /\
  grey_set self' = grey_set self ∪ (list_to_set cs ∖ mark_set self) /\
  next' = next ∪ (list_to_set cs ∖ (mark_set self ∪ grey_set self)).
Proof.
  revert self next. induction cs as [|c cs IH]; intros self next; cbn.
  - intros [= <- <-]. split_and!; [done..|set_solver|set_solver].
  - case_bool_decide as Hc; intros (Hs & Hm & Hg & Hn)%IH; cbn in *.
    + destruct Hc. split_and!; [done..| |].
      * rewrite Hg. apply set_eq. intros x. destruct (decide (x = c)); set_solver.
      * rewrite Hn. apply set_eq. intros x. destruct (decide (x = c)); set_solver.
    + assert (c ∈ mark_set self ∪ grey_set self) as Hin.
      { destruct (decide (c ∈ mark_set self)); [set_solver|]. destruct (decide (c ∈ grey_set self)); set_solver. }
      split_and!; [done..| |].
      * rewrite Hg. apply set_eq. intros x. destruct (decide (x = c)) as [->|]; set_solver.
      * rewrite Hn. apply set_eq. intros x. destruct (decide (x = c)) as [->|]; set_solver.
Qed.
End colours.

(** ** The tri-colour invariant *)
Section tri_colour.
Context {Handle : Type} (links : ArenaHash -> list ArenaHash).
Implicit Types (self : GcState Handle).

Definition coloured self : gset ArenaHash := mark_set self ∪ grey_set self.
(** Marked nodes outside [P] refer to coloured nodes only. *)
Definition closed_but (P : list ArenaHash) self : Prop :=
  forall k c, k ∈ mark_set self -> k ∉ P -> c ∈ links k -> c ∈ coloured self.

(** A step of the mark phase: node [k] turns black. *)
Definition blackens (k : ArenaHash) self self' : Prop :=
  same_rest self self' /\ mark_set self' = {[ k ]} ∪ mark_set self /\
  grey_set self' = (grey_set self ∖ {[ k ]}) ∪ (list_to_set (links k) ∖ ({[ k ]} ∪ mark_set self)).

Lemma blackens_coloured k self self' : blackens k self self' -> coloured self ⊆ coloured self'.
Proof. intros (_ & Hm & Hg) x. unfold coloured. rewrite Hm, Hg. destruct (decide (x = k)); set_solver. Qed.
Lemma blackens_closed k self self' P :
  blackens k self self' -> closed_but (k :: P) self -> closed_but P self'.
Proof.
  intros Hb Hc a c Ha HP Hl. pose proof (blackens_coloured _ _ _ Hb) as Hcol. destruct Hb as (_ & Hm & Hg).
  destruct (decide (a = k)) as [->|Hne].
  - unfold coloured. rewrite Hm, Hg. destruct (decide (c = k)), (decide (c ∈ mark_set self)); set_solver.
  - apply Hcol. eapply (Hc a); [|set_solver|done]. rewrite Hm in Ha. set_solver.
Qed.
Lemma closed_but_weaken P Q self : P ⊆ Q -> closed_but P self -> closed_but Q self.
Proof. intros HP Hc k c Hk HQ. apply Hc; [done|]. set_solver. Qed.

(** What the mark phases keep: the tri-colour invariant but for the nodes in
    [P], the roots in [R] and that grey nodes satisfy [G]. *)
Record marking (P : list ArenaHash) (R : gset ArenaHash) (G : ArenaHash -> Prop) self : Prop := {
  marking_closed : closed_but P self;
  marking_roots : R ⊆ coloured self;
  marking_grey k : k ∈ grey_set self -> G k }.

Lemma blackens_marking G P R k self self' : (forall k c, G k -> c ∈ links k -> G c) ->
  G k -> blackens k self self' -> marking (k :: P) R G self -> marking P R G self'.
Proof.
  intros G_links Hk Hb [Hc HR HG]. split.
  - by eapply blackens_closed.
  - etrans; [done|]. by eapply blackens_coloured.
  - destruct Hb as (_ & _ & Hg). intros x. rewrite Hg, elem_of_union, elem_of_difference, elem_of_difference.
    intros [[? _]|[Hx%elem_of_list_to_set _]]; eauto.
Qed.
Lemma marking_weaken P Q R G self : P ⊆ Q -> marking P R G self -> marking Q R G self.
Proof. intros HP [Hc HR HG]. split; [by eapply closed_but_weaken|done..]. Qed.
Lemma marking_mono P R R' (G G' : ArenaHash -> Prop) self :
  R' ⊆ R -> (forall k, G k -> G' k) -> marking P R G self -> marking P R' G' self.
Proof. intros HR HG [Hc HR' HG']. split; [done|set_solver|auto]. Qed.
End tri_colour.

Lemma hash_elements `{HashOrderLaws} (s : gset ArenaHash) k : k ∈ hash_iter (elements s) <-> k ∈ s.
Proof. by rewrite hash_iter_perm, elem_of_elements. Qed.
Lemma hash_elements_nodup `{HashOrderLaws} (s : gset ArenaHash) : NoDup (hash_iter (elements s)).
Proof. rewrite hash_iter_perm. apply NoDup_elements. Qed.

(** ** Marking *)
Section marking.
Context {D Handle : Type} `{DBLaws D Handle}.
Context (links : ArenaHash -> list ArenaHash) (cache_read : ArenaHash -> option OnDiskObject) (db : D).

(** Content addressing, in memory and in the database. *)
Class ContentAddressed : Prop := {
  cached_links k o : cache_read k = Some o -> flat_refs (od_children o) = links k;
  stored_links k o : db_nodes db !! k = Some o -> flat_refs (od_children o) = links k }.
Context {CA : ContentAddressed}.
Implicit Types (self : GcState Handle) (next : gset ArenaHash).

Definition cached (k : ArenaHash) : Prop := is_Some (cache_read k).
Definition present (k : ArenaHash) : Prop := cached k \/ k ∈ dom (db_nodes db).

Lemma mark_cached_key_cases self next h self' next' :
  mark_cached_key cache_read (self, next) h = (self', next') ->
  (~ cached h /\ self' = self /\ next' = next) \/
  (cached h /\ blackens links h self self' /\
   next' = next ∪ (list_to_set (links h) ∖ (({[ h ]} ∪ mark_set self) ∪ (grey_set self ∖ {[ h ]})))).
Proof using CA.
  cbn. unfold cached. destruct (cache_read h) as [o|] eqn:E.
  - intros (Hs & Hm & Hg & Hn)%grey_children. cbn in *. rewrite (cached_links _ _ E) in Hg, Hn.
    right. split_and!; [by eexists| |done]. split_and!; done.
  - intros [= <- <-]. left. split_and!; [|done..]. by intros [? ?].
Qed.
Lemma mark_read_blackens self k : k ∈ dom (db_nodes db) ->
  blackens links k self (mark_read self (k, db_nodes db !! k)).
Proof using CA.
  intros [o E]%elem_of_dom. unfold mark_read. rewrite E.
  destruct (foldl grey_child _ _) as [self' next'] eqn:Ef. apply grey_children in Ef as (Hs & Hm & Hg & _).
  cbn in *. rewrite (stored_links _ _ E) in Hg. split_and!; done.
Qed.

(** A round that greys a node marks a cached one. *)
Lemma mark_cached_fold L self next self' next' :
  foldl (mark_cached_key cache_read) (self, next) L = (self', next') ->
  mark_set self ⊆ mark_set self' /\ (next' = next \/ exists h, h ∈ L /\ cached h /\ h ∈ mark_set self').
Proof using CA.
  revert self next. induction L as [|h L IH]; intros self next; [cbn; intros [= <- <-]; auto|]. cbn [foldl].
  destruct (mark_cached_key cache_read (self, next) h) as [self1 next1] eqn:E1. intros [Hsub Hn]%IH.
  apply mark_cached_key_cases in E1 as [(Hh & -> & ->)|(Hh & Hb & Hn1)].
  - split; [done|]. destruct Hn as [->|(a & ? & ? & ?)]; [by left|right]. exists a. split_and!; [by right|done..].
  - destruct Hb as (_ & Hm & _). rewrite Hm in Hsub. split; [set_solver|].
    right. exists h. split_and!; [left|done|set_solver].
Qed.

Lemma mark_cached_next L self self' next' :
  NoDup L -> (forall k, k ∈ L -> k ∈ grey_set self) ->
  foldl (mark_cached_key cache_read) (self, ∅) L = (self', next') ->
  forall k, k ∈ next' -> (k ∉ mark_set self') /\ k ∈ grey_set self'.
Proof using CA.
  intros Hnd HL.
  assert (forall k, k ∈ (∅ : gset ArenaHash) -> (k ∉ mark_set self) /\ k ∈ grey_set self /\ (k ∉ L)) as Hn by set_solver.
  revert Hn. generalize (∅ : gset ArenaHash) as next. revert self Hnd HL.
  induction L as [|h L IH]; intros self Hnd HL next Hn; [cbn; intros [= <- <-]; set_solver|].
  apply list.NoDup_cons in Hnd as [Hh Hnd]. cbn [foldl].
  destruct (mark_cached_key cache_read (self, next) h) as [self1 next1] eqn:E1. apply IH; [done| |];
  apply mark_cached_key_cases in E1 as [(_ & -> & ->)|(_ & (_ & Hm & Hg) & Hx)]; [set_solver| |set_solver|].
  - intros k Hk. rewrite Hg. assert (k <> h) by set_solver. set_solver.
  - intros k Hk. rewrite Hx in Hk. rewrite Hm, Hg. apply elem_of_union in Hk as [Hk%Hn|Hk]; set_solver.
Qed.

Context (G : ArenaHash -> Prop) (G_links : forall k c, G k -> c ∈ links k -> G c).

(** *** In memory *)

(** The state of a round with the keys [L] still to be processed. *)
Record round (R : gset ArenaHash) (L : list ArenaHash) self next : Prop := {
  round_marking : marking links [] R G self;
  round_grey k : k ∈ L -> G k;
  round_cached k : k ∈ grey_set self -> cached k -> k ∈ L \/ k ∈ next;
  round_next k : k ∈ next -> (k ∈ grey_set self) /\ (k ∉ mark_set self) /\ (k ∉ L) }.

Lemma round_step R h L self next self' next' :
  h ∉ L -> (forall k, k ∈ L -> k ∈ grey_set self) ->
  mark_cached_key cache_read (self, next) h = (self', next') ->
  round R (h :: L) self next ->
  round R L self' next' /\ same_rest self self' /\ (forall k, k ∈ L -> k ∈ grey_set self').
Proof using CA G_links.
  intros HhL HLg [(Hh & -> & ->)|(Hh & Hb & Hn)]%mark_cached_key_cases [Hm HL Hc Hx].
  - split_and!; [|done..]. split; [done|set_solver| |set_solver].
    intros k Hk Hck. destruct (Hc k Hk Hck) as [[->|?]%elem_of_cons|?]; auto. done.
  - assert (G h) as HG by (apply HL; left).
    assert (marking links [] R G self') as Hm'.
    { eapply blackens_marking; [done..|]. eapply marking_weaken, Hm. set_solver. }
    destruct Hb as (Hs & Hbm & Hg). split_and!; [|done|set_solver]. split; [done|set_solver| |].
    + intros k Hk Hck. rewrite Hg in Hk. rewrite Hn.
      destruct (decide (k ∈ grey_set self)) as [Hkg|Hkg]; [|set_solver].
      destruct (decide (k = h)) as [->|]; [set_solver|]. destruct (Hc k Hkg Hck) as [?|?]; set_solver.
    + intros k Hk. rewrite Hn in Hk. rewrite Hg, Hbm. apply elem_of_union in Hk as [Hk%Hx|Hk]; set_solver.
Qed.
Lemma round_fold R L self next self' next' :
  NoDup L -> (forall k, k ∈ L -> k ∈ grey_set self) ->
  foldl (mark_cached_key cache_read) (self, next) L = (self', next') ->
  round R L self next -> round R [] self' next' /\ same_rest self self'.
Proof using CA G_links.
  revert self next. induction L as [|h L IH]; intros self next Hnd HL.
  - cbn. intros [= <- <-]. done.
  - apply list.NoDup_cons in Hnd as [Hh Hnd]. cbn [foldl].
    destruct (mark_cached_key cache_read (self, next) h) as [self1 next1] eqn:E1. intros Ef Hr.
    eapply round_step in E1 as (Hr1 & Hs1 & HL1); [|done|set_solver|done].
    destruct (IH _ _ Hnd HL1 Ef Hr1) as [Hr2 Hs2]. split; [done|]. by eapply same_rest_trans.
Qed.

Context `{HashOrderLaws}.

Lemma mark_cached_spec fuel R self to_process self' :
  mark_cached fuel cache_read self to_process = Ok self' -> marking links [] R G self ->
  to_process ⊆ grey_set self -> (forall k, k ∈ grey_set self -> cached k -> k ∈ to_process) ->
  marking links [] R G self' /\ same_rest self self' /\ (forall k, k ∈ grey_set self' -> ~ cached k).
Proof using All.
  revert self to_process. induction fuel as [|fuel IH]; intros self to_process; cbn [mark_cached];
    (case_bool_decide as Ht; [intros [= <-] Hm _ Hc; subst; split_and!; [done..|set_solver]|]); [done|].
  destruct (foldl _ _ _) as [self1 next] eqn:Ef. intros Hok Hm Hsub Hc.
  apply (round_fold R) in Ef as [[Hm1 _ Hc1 Hn1] Hs1].
  - destruct (IH _ _ Hok Hm1) as (Hm2 & Hs2 & Hc2); [set_solver| |].
    + intros k Hk Hck. destruct (Hc1 k Hk Hck); [set_solver|done].
    + split_and!; [done|by eapply same_rest_trans|done].
  - apply hash_elements_nodup.
  - intros k Hk%hash_elements. set_solver.
  - split; [done| | |set_solver].
    + intros k Hk%hash_elements. eapply (marking_grey _ _ _ _ _ Hm). set_solver.
    + intros k Hk Hck. left. apply hash_elements. auto.
Qed.

(** The loop ends: every round but the first marks a cached node that was not
    marked before. *)
Context (Ks : gset ArenaHash) (Ks_cached : forall k, cached k -> k ∈ Ks).

Lemma mark_cached_ends n self to_process :
  (size (Ks ∖ mark_set self) <= n)%nat -> (forall k, k ∈ to_process -> k ∉ mark_set self) ->
  to_process ⊆ grey_set self -> exists self', mark_cached (S n) cache_read self to_process = Ok self'.
Proof using All.
  revert self to_process. induction n as [|n IH]; intros self to_process Hn Hd Hg; cbn [mark_cached];
    (case_bool_decide as Ht; [eauto|]);
    destruct (foldl _ _ _) as [self1 next] eqn:Ef; pose proof Ef as Ef';
    apply mark_cached_fold in Ef' as [Hsub Hnext];
    assert (forall k, k ∈ next -> (k ∉ mark_set self1) /\ k ∈ grey_set self1) as Hx
      by (apply (mark_cached_next _ _ _ _ (hash_elements_nodup to_process)
                   (fun k Hk => Hg k (proj1 (hash_elements _ _) Hk)) Ef)).
  - destruct Hnext as [->|(h & Hh%hash_elements & Hch & Hmh)]; [rewrite bool_decide_true by done; eauto|].
    exfalso. assert (h ∈ Ks ∖ mark_set self) as Hin by (specialize (Hd h Hh); specialize (Ks_cached h Hch); set_solver).
    assert (size (Ks ∖ mark_set self) = 0%nat) as E%size_empty_iff by lia. set_solver.
  - destruct Hnext as [->|(h & Hh%hash_elements & Hch & Hmh)]; [cbn; rewrite bool_decide_true by done; eauto|].
    apply IH; [|intros k Hk; by apply Hx|intros k Hk; by apply Hx].
    assert (size (Ks ∖ mark_set self1) < size (Ks ∖ mark_set self))%nat; [|lia].
    apply subset_size. specialize (Hd h Hh). specialize (Ks_cached h Hch). set_solver.
Qed.
Lemma mark_cached_total n self :
  (size Ks <= n)%nat -> exists self', mark_cached (S (S n)) cache_read self (grey_set self) = Ok self'.
Proof using All.
  intros Hn. cbn [mark_cached]. case_bool_decide as Ht; [eauto|].
  destruct (foldl _ _ _) as [self1 next] eqn:Ef.
  pose proof (mark_cached_next _ _ _ _ (hash_elements_nodup (grey_set self))
                (fun k => proj1 (hash_elements _ k)) Ef) as Hx.
  apply mark_cached_ends; [|intros k Hk; by apply Hx|intros k Hk; by apply Hx]. etrans; [|exact Hn]. apply subseteq_size. set_solver.
Qed.
End marking.

(** *** On disk *)
Section disk.
Context {D Handle : Type} `{DBLaws D Handle}.
Context (links : ArenaHash -> list ArenaHash) (db : D).
Context (db_links : forall k o, db_nodes db !! k = Some o -> flat_refs (od_children o) = links k).
Implicit Types (self : GcState Handle).

Lemma read_blackens self k : k ∈ dom (db_nodes db) -> blackens links k self (mark_read self (k, db_nodes db !! k)).
Proof using db_links. apply (mark_read_blackens links (fun _ => None) db (CA := ltac:(split; [done|exact db_links]))). Qed.

Context (G : ArenaHash -> Prop) (G_links : forall k c, G k -> c ∈ links k -> G c).
Context (G_stored : forall k, G k -> k ∈ dom (db_nodes db)).

Lemma mark_reads R L self :
  (forall k, k ∈ L -> G k) -> marking links L R G self ->
  let self' := foldl mark_read self (map (fun k => (k, db_nodes db !! k)) L) in
  marking links [] R G self' /\ same_rest self self' /\ mark_set self ⊆ mark_set self'.
Proof using All.
  revert self. induction L as [|k L IH]; intros self HL Hm; [done|]. cbn.
  pose proof (read_blackens self k (G_stored _ (HL k ltac:(left)))) as Hb.
  destruct (IH (mark_read self (k, db_nodes db !! k))) as (Hm' & Hs' & Hsub).
  - intros a Ha. apply HL. by right.
  - eapply blackens_marking; [done|apply HL; left|done|done].
  - destruct Hb as (Hs & Hbm & _). split_and!; [done|by eapply same_rest_trans|set_solver].
Qed.

Context `{HashOrderLaws}.

Lemma mark_batch_spec R n self : marking links [] R G self ->
  let self' := mark_batch self db n in
  marking links [] R G self' /\ same_rest self self' /\
  list_to_set (take n (hash_iter (elements (grey_set self)))) ∪ mark_set self ⊆ mark_set self'.
Proof using All.
  intros [Hc HR HG]. unfold mark_batch. rewrite batch_get_nodes_spec.
  set (batch := take n _). assert (forall k, k ∈ batch -> k ∈ grey_set self) as Hb.
  { intros k (i & Hi & _)%elem_of_take. apply list_elem_of_lookup_2 in Hi. by apply hash_elements in Hi. }
  destruct (mark_reads R batch (with_colours self (grey_set self) (list_to_set batch ∪ mark_set self)))
    as (Hm' & Hs' & Hsub); [auto| |done].
  split; [|unfold coloured in *; cbn; set_solver|done].
  intros k c. unfold coloured. cbn. intros Hk Hkb Hl. specialize (Hc k c). unfold coloured in Hc. set_solver.
Qed.

Lemma mark_disk_spec R reads self : marking links [] R G self ->
  let self' := mark_disk self db reads in
  marking links [] R G self' /\ same_rest self self' /\ mark_set self ⊆ mark_set self'.
Proof using All.
  revert self. induction reads as [|n reads IH]; intros self Hm; cbn; [done|].
  case_bool_decide; [done|]. destruct (mark_batch_spec R n self Hm) as (Hm1 & Hs1 & Hsub1).
  destruct (IH _ Hm1) as (Hm2 & Hs2 & Hsub2). split_and!; [done|by eapply same_rest_trans|set_solver].
Qed.

Definition disjoint_but (P : list ArenaHash) self : Prop :=
  forall k, k ∈ grey_set self -> k ∈ mark_set self -> k ∈ P.
Lemma mark_reads_disjoint L self :
  (forall k, k ∈ L -> G k) -> disjoint_but L self ->
  disjoint_but [] (foldl mark_read self (map (fun k => (k, db_nodes db !! k)) L)).
Proof using db_links G_stored.
  revert self. induction L as [|k L IH]; intros self HL Hd; [done|]. cbn [map foldl]. apply IH; [intros a Ha; apply HL; by right|].
  destruct (read_blackens self k (G_stored _ (HL k ltac:(left)))) as (_ & Hm & Hg).
  intros x. rewrite Hm, Hg. clear Hm Hg. intros Hx1 Hx2. specialize (Hd x). clear -Hx1 Hx2 Hd. set_solver.
Qed.
Lemma mark_batch_disjoint n self : (forall k, k ∈ grey_set self -> G k) ->
  disjoint_but [] self -> disjoint_but [] (mark_batch self db n).
Proof using All.
  intros HG Hd. unfold mark_batch. rewrite batch_get_nodes_spec. apply mark_reads_disjoint.
  - intros k (i & Hi & _)%elem_of_take. apply list_elem_of_lookup_2, hash_elements in Hi. auto.
  - intros k Hg Hm. cbn in *. apply elem_of_union in Hm as [Hm|Hm]; [by apply elem_of_list_to_set in Hm|].
    destruct (not_elem_of_nil k). by apply (Hd k).
Qed.

(** A positive batch size for every stored node that is not marked is enough to
    mark everything. *)
Lemma mark_disk_ends reads R self : marking links [] R G self -> Forall (fun n => 0 < n)%nat reads ->
  disjoint_but [] self -> (size (dom (db_nodes db) ∖ mark_set self) <= length reads)%nat ->
  grey_set (mark_disk self db reads) = ∅.
Proof using All.
  revert self. induction reads as [|n reads IH]; intros self Hm Hpos Hd Hsz; cbn.
  - cbn in Hsz. assert (size (dom (db_nodes db) ∖ mark_set self) = 0%nat) as E%size_empty_iff by lia.
    apply set_eq. intros k. split; [|set_solver]. intros Hk. specialize (Hd k Hk).
    pose proof (G_stored k (marking_grey _ _ _ _ _ Hm k Hk)). set_solver.
  - case_bool_decide as Hg; [done|]. apply list.Forall_cons in Hpos as [Hn Hpos].
    destruct (mark_batch_spec R n self Hm) as (Hm1 & _ & Hsub). apply IH; [done..| |].
    + apply mark_batch_disjoint; [|done]. apply Hm.
    + cbn in Hsz. enough (size (dom (db_nodes db) ∖ mark_set (mark_batch self db n))
                           < size (dom (db_nodes db) ∖ mark_set self))%nat by lia.
      apply subset_size. destruct (hash_iter (elements (grey_set self))) as [|x l] eqn:E.
      { exfalso. apply Hg. apply set_eq. intros k. rewrite <- hash_elements, E. set_solver. }
      assert (x ∈ grey_set self) as Hx by (apply hash_elements; rewrite E; left).
      pose proof (G_stored x (marking_grey _ _ _ _ _ Hm x Hx)). specialize (Hd x Hx).
      destruct n as [|n]; [lia|]. cbn in Hsub. set_solver.
Qed.
End disk.

(** ** Sweeping *)
Section sweeping.
Context {D Handle : Type} `{DBLaws D Handle}.
Implicit Types (self : GcState Handle) (db : D).

Lemma delete_nodes_nodes db ks :
  db_nodes (delete_nodes db ks) = filter (fun p => (p.1 ∉ ks)) (db_nodes db).
Proof.
  unfold delete_nodes. rewrite batch_update_nodes. apply map_eq. intros k. rewrite InMemoryDBLaws.nodes_delete.
  case_decide; symmetry.
  - apply map_lookup_filter_None. right. intros o _ Hn. by apply Hn.
  - destruct (db_nodes db !! k) as [o|] eqn:E; [by apply map_lookup_filter_Some|].
    apply map_lookup_filter_None. by left.
Qed.
Lemma delete_nodes_roots db ks : db_roots (delete_nodes db ks) = db_roots db.
Proof. unfold delete_nodes. rewrite batch_update_roots. induction ks; [done|]. cbn. done. Qed.

Record swept self db (cull : list ArenaHash) self' db' cull' (del : list ArenaHash) : Prop := {
  swept_cull : cull' = cull ++ del;
  swept_unmarked : Forall (fun k => (k ∉ mark_set self) /\ k ∈ dom (db_nodes db)) del;
  swept_nodes : db_nodes db' = filter (fun p => (p.1 ∉ del)) (db_nodes db);
  swept_roots : db_roots db' = db_roots db;
  swept_state : self' = with_resume self (sweep_resume self') }.

Lemma sweep_spec scans self db cull self' db' cull' :
  sweep self db cull scans = (self', db', cull') -> exists del, swept self db cull self' db' cull' del.
Proof.
  revert self db cull. induction scans as [|n scans IH]; intros self db cull; cbn [sweep].
  - intros [= <- <- <-]. exists []. split; [by rewrite app_nil_r|constructor| |done|by destruct self].
    symmetry. apply map_filter_id. set_solver.
  - destruct (scan db (sweep_resume self) n) as [nodes handle] eqn:Es. cbn [sweep_resume with_resume mark_set].
    set (del := filter _ nodes.*1).
    assert (Forall (fun k => (k ∉ mark_set self) /\ k ∈ dom (db_nodes db)) del) as Hdel.
    { apply list.Forall_forall. intros k [Hk Hin]%list_elem_of_filter. split; [done|].
      pose proof (scan_nodes db (sweep_resume self) n) as Hs. rewrite Es in Hs. cbn in Hs.
      apply list_elem_of_fmap in Hin as (p & -> & Hp). rewrite list.Forall_forall in Hs. apply elem_of_dom. eauto. }
    assert (swept self db cull (with_resume self handle) (delete_nodes db del) (cull ++ del) del) as Hstep.
    { split; [done|done|apply delete_nodes_nodes|apply delete_nodes_roots|done]. }
    destruct handle as [h|]; [|intros [= <- <- <-]; eauto].
    intros (del' & [Hc Hu Hn Hr Hst])%IH. exists (del ++ del'). split.
    + by rewrite Hc, app_assoc.
    + apply list.Forall_app. split; [done|]. eapply list.Forall_impl; [exact Hu|]. cbn. intros k [Hk Hd]. split; [done|].
      rewrite delete_nodes_nodes in Hd. eapply dom_filter_subseteq, Hd.
    + rewrite Hn, delete_nodes_nodes, map_filter_filter. apply map_filter_ext. cbn. intros k o _. set_solver.
    + by rewrite Hr, delete_nodes_roots.
    + by rewrite Hst.
Qed.

(** Enough batches sweep everything. *)
Lemma sweep_complete scans self db cull self' db' cull' :
  sweep self db cull scans = (self', db', cull') -> Forall (fun n => 0 < n)%nat scans ->
  (size (scan_rest db (sweep_resume self)) < length scans)%nat ->
  sweep_resume self' = None /\
  (forall k, k ∈ scan_rest db (sweep_resume self) -> k ∉ mark_set self -> k ∈ cull').
Proof.
  revert self db cull. induction scans as [|n scans IH]; intros self db cull; cbn [sweep length]; [lia|].
  intros Hs [Hn Hpos]%list.Forall_cons Hsz.
  pose proof (scan_split db (sweep_resume self) n Hn) as Hsplit.
  pose proof (fun h' => scan_progress db (sweep_resume self) n h' Hn) as Hprog.
  destruct (scan db (sweep_resume self) n) as [nodes handle]. cbn [fst snd] in *.
  cbn [sweep_resume with_resume mark_set] in Hs. set (del := filter _ nodes.*1) in Hs.
  assert (forall k, k ∈ (list_to_set nodes.*1 : gset ArenaHash) -> k ∉ mark_set self -> k ∈ del) as Hdel.
  { intros k Hk Hm. apply list_elem_of_filter. split; [done|]. by apply elem_of_list_to_set in Hk. }
  destruct handle as [h|].
  - destruct (sweep_spec _ _ _ _ _ _ _ Hs) as (del' & Hsw). apply IH in Hs; [|done|].
    + destruct Hs as [Hnone Hin]. split; [done|]. intros k Hk Hm. rewrite Hsplit in Hk.
      rewrite (swept_cull _ _ _ _ _ _ _ Hsw). cbn in Hin. unfold delete_nodes in Hin. rewrite scan_rest_delete in Hin.
      rewrite (swept_cull _ _ _ _ _ _ _ Hsw) in Hin.
      destruct (decide (k ∈ del)) as [|Hkd]; [set_solver|]. apply Hin; [|done].
      apply elem_of_union in Hk as [Hk|Hk]; [by apply Hdel in Hk|]. set_solver.
    + cbn. unfold delete_nodes. rewrite scan_rest_delete. specialize (Hprog h eq_refl).
      assert (size (scan_rest db (Some h) ∖ list_to_set del) <= size (scan_rest db (Some h)))%nat; [|lia].
      apply subseteq_size. set_solver.
  - injection Hs as <- <- <-. split; [done|]. intros k Hk Hm. rewrite Hsplit in Hk. specialize (Hdel k). set_solver.
Qed.
End sweeping.

(** ** A run of the collector *)
Section run.
#[local] Set Default Proof Using "All".
Context {D Handle : Type} `{DBLaws D Handle} `{HashOrderLaws}.
Context (links : ArenaHash -> list ArenaHash).
Implicit Types (self : GcState Handle) (db : D).

Definition root_set (roots : list ArenaHash) (db : D) : gset ArenaHash := list_to_set roots ∪ dom (db_roots db).

Lemma elem_db_root_keys db k : k ∈ db_root_keys db <-> k ∈ dom (db_roots db).
Proof.
  unfold db_root_keys. rewrite hash_iter_perm, get_roots_spec, list_elem_of_fmap, elem_of_dom. split.
  - intros ([k' n] & -> & Hk%elem_of_map_to_list). by eexists.
  - intros [n Hn]. exists (k, n). split; [done|]. by apply elem_of_map_to_list.
Qed.

(** What holds of the collector's state between two runs. *)
Record gc_inv self db : Prop := {
  inv_closed : closed_but links [] self;
  inv_last : rescan self = false -> last_roots self ⊆ coloured self;
  inv_roots : rescan self = false -> dom (db_roots db) ⊆ coloured self;
  inv_grey k : reach links (grey_set self) k -> k ∈ dom (db_nodes db) }.

(** Every node that a root reaches is in memory or in the database, and what a
    stored one refers to is stored. *)
Record sound_storage (cache_read : ArenaHash -> option OnDiskObject) db (roots : list ArenaHash) : Prop := {
  sound_addressed : ContentAddressed links cache_read db;
  sound_present k : reach links (root_set roots db) k -> present cache_read db k;
  sound_disk k c : reach links (root_set roots db) k -> k ∈ dom (db_nodes db) -> c ∈ links k -> c ∈ dom (db_nodes db) }.

Lemma gc_inv_default db : gc_inv GcState_default db.
Proof.
  split; cbn; try done. intros k Hk. exfalso. induction Hk; set_solver.
Qed.

Lemma add_roots roots self :
  let self' := foldl add_root self roots in
  rescan self' = rescan self /\ mark_set self' = mark_set self /\ sweep_resume self' = sweep_resume self /\
  last_roots self' = last_roots self ∪ list_to_set roots /\
  grey_set self' = grey_set self ∪ (list_to_set roots ∖ last_roots self).
Proof.
  revert self. induction roots as [|r roots IH]; intros self; cbn.
  - split_and!; [done..|set_solver|set_solver].
  - destruct (IH (add_root self r)) as (-> & -> & -> & -> & ->). unfold add_root.
    case_bool_decide; cbn; split_and!; try done; apply set_eq; intros x; destruct (decide (x = r)); set_solver.
Qed.

Lemma update_roots_spec self roots db :
  gc_inv self db ->
  let self' := update_roots self roots db_root_keys db in
  rescan self' = false /\ mark_set self' = mark_set self /\ sweep_resume self' = sweep_resume self /\
  marking links [] (root_set roots db ∪ last_roots self')
    (fun k => k ∈ grey_set self \/ k ∈ root_set roots db) self' /\
  (disjoint_but [] self -> rescan self = true -> disjoint_but [] self').
Proof using All.
  intros [Hc Hl Hr _]. unfold update_roots. destruct (rescan self) eqn:Er.
  - cbn. assert (list_to_set (roots ++ db_root_keys db) = root_set roots db) as ->.
    { apply set_eq. intros k. unfold root_set. rewrite list_to_set_app_L, elem_of_union, elem_of_union, !elem_of_list_to_set.
      by rewrite elem_db_root_keys. }
    split_and!; [done..| |]; [split|]; unfold coloured, disjoint_but in *; cbn.
    + intros k c Hk HP Hkc. specialize (Hc k c Hk HP Hkc). unfold coloured in *. cbn in *. set_solver.
    + intros k. destruct (decide (k ∈ mark_set self)); set_solver.
    + set_solver.
    + set_solver.
  - destruct (add_roots roots self) as (-> & -> & -> & El & Eg). rewrite Er. split_and!; [done..| |done].
    specialize (Hl eq_refl). specialize (Hr eq_refl). unfold coloured in *.
    destruct (add_roots roots self) as (_ & Em & _). split; unfold coloured in *; rewrite ?Em, ?El, ?Eg.
    + intros k c. unfold coloured. rewrite Em, Eg. intros Hk HP Hkc. specialize (Hc k c Hk HP Hkc).
      unfold coloured in Hc. set_solver.
    + unfold root_set. intros k. destruct (decide (k ∈ last_roots self)); set_solver.
    + unfold root_set. set_solver.
Qed.
(** The mark phases of a run, up to the sweep. *)
Definition marked_state (cache_read : ArenaHash -> option OnDiskObject) self db (roots : list ArenaHash)
    (reads : list nat) (cached : nat) : may_panic (GcState Handle) :=
  let self := update_roots self roots db_root_keys db in
  self ← mark_cached (S (S cached)) cache_read self (grey_set self);
  Ok (mark_disk self db reads).

Section mark_phases.
Context (cache_read : ArenaHash -> option OnDiskObject) (db : D) (roots : list ArenaHash).
Context (Hs : sound_storage cache_read db roots).

(** The nodes a run may colour. *)
Definition wanted self (k : ArenaHash) : Prop := reach links (grey_set self) k \/ reach links (root_set roots db) k.
Lemma wanted_links self k c : wanted self k -> c ∈ links k -> wanted self c.
Proof. intros [Hk|Hk] Hc; [left|right]; by eapply reach_link. Qed.
Definition wanted_stored self (k : ArenaHash) : Prop := wanted self k /\ k ∈ dom (db_nodes db).
Lemma wanted_stored_links self k c : gc_inv self db -> wanted_stored self k -> c ∈ links k -> wanted_stored self c.
Proof.
  intros Hi [Hk Hd] Hc. split; [by eapply wanted_links|]. destruct Hk as [Hk|Hk].
  - eapply inv_grey; [done|]. by eapply reach_link.
  - by eapply sound_disk.
Qed.

Lemma cached_phase self cached self2 :
  gc_inv self db ->
  let self1 := update_roots self roots db_root_keys db in
  mark_cached (S (S cached)) cache_read self1 (grey_set self1) = Ok self2 ->
  marking links [] (root_set roots db ∪ last_roots self1) (wanted_stored self) self2 /\ same_rest self1 self2.
Proof.
  intros Hi self1 E. destruct (update_roots_spec self roots db Hi) as (_ & _ & _ & Hk1 & _). fold self1 in Hk1.
  pose proof (sound_addressed _ _ _ Hs) as CA.
  eapply (mark_cached_spec links cache_read db (wanted self)) in E as ([Hc2' HR2 HG2] & Hs2 & Hc2);
    [|intros k c; apply wanted_links|exact _| |done|auto].
  2: { eapply marking_mono; [reflexivity| |exact Hk1]. intros k [Hk|Hk]; [left|right]; by apply reach_root. }
  split; [|done]. split; [done..|]. intros k Hk. split; [auto|].
  destruct (HG2 k Hk) as [Hw|Hw]; [by eapply inv_grey|].
  destruct (sound_present _ _ _ Hs k Hw) as [Hck|]; [|done]. by apply Hc2 in Hck.
Qed.

Lemma marked_state_spec self reads cached self' :
  gc_inv self db -> marked_state cache_read self db roots reads cached = Ok self' ->
  rescan self' = false /\ sweep_resume self' = sweep_resume self /\
  marking links [] (root_set roots db ∪ last_roots self') (wanted_stored self) self'.
Proof.
  intros Hi. unfold marked_state. destruct (update_roots_spec self roots db Hi) as (Hr1 & _ & Hw1 & _).
  intros E. inv_binds. apply cached_phase in E0 as [Hk2 (Er2 & El2 & Ew2)]; [|done].
  pose proof (sound_addressed _ _ _ Hs) as CA.
  destruct (mark_disk_spec links db (stored_links _ _ _ (ContentAddressed := CA)) (wanted_stored self)
              (fun k c => wanted_stored_links self k c Hi) (fun k Hk => proj2 Hk) _ reads a Hk2)
    as (Hk3 & (Er3 & El3 & Ew3) & _).
  split_and!; congruence.
Qed.
End mark_phases.

Lemma run_unfold cache_read self db roots reads scans cached :
  run self roots reads scans db cache_read db_root_keys cached =
  (self ← marked_state cache_read self db roots reads cached;
   if bool_decide (grey_set self <> ∅) then Ok (self, db, [])
   else
     let '(self, db, cull_set) := sweep self db [] scans in
     match sweep_resume self with
     | Some _ => Ok (self, db, cull_set)
     | None =>
         Ok ({| rescan := true; last_roots := ∅; grey_set := grey_set self; mark_set := ∅;
                sweep_resume := sweep_resume self |}, db, cull_set)
     end).
Proof. unfold run, marked_state. by destruct (mark_cached _ _ _ _). Qed.

(** What a run does to the database and to the state. *)
Record run_result self db self' db' (roots culled : list ArenaHash) : Prop := {
  run_safe k : k ∈ culled -> ~ reach links (root_set roots db) k;
  run_deleted : db_nodes db' = filter (fun p => (p.1 ∉ culled)) (db_nodes db);
  run_stored k : k ∈ culled -> k ∈ dom (db_nodes db);
  run_roots : db_roots db' = db_roots db;
  run_inv : gc_inv self' db' }.

Lemma run_spec cache_read self db roots reads scans cached self' db' culled :
  sound_storage cache_read db roots -> gc_inv self db ->
  run self roots reads scans db cache_read db_root_keys cached = Ok (self', db', culled) ->
  run_result self db self' db' roots culled.
Proof.
  intros Hs Hi. rewrite run_unfold. intros E. inv_binds.
  destruct (marked_state_spec cache_read db roots Hs self reads cached a Hi E0) as (Hr & _ & [Hc HR HG]).
  assert (dom (db_roots db) ⊆ coloured a) as HR1 by (etrans; [|exact HR]; unfold root_set; set_solver).
  case_bool_decide as Hgrey.
  - injection E as <- <- <-. split; [set_solver| |set_solver|done|].
    + symmetry. apply map_filter_id. set_solver.
    + split; [done|intros _; set_solver|done|]. intros k Hk.
      enough (wanted_stored db roots self k) as [_ ?] by done.
      induction Hk as [k Hk|k c _ IH Hkc]; [auto|]. by eapply wanted_stored_links.
  - destruct (sweep a db [] scans) as [[a' db1] cull] eqn:Es.
    apply sweep_spec in Es as (del & [Hcull Hun Hnodes Hroots Hst]). cbn in Hcull. subst del.
    assert (coloured a = mark_set a) as Hcol by (unfold coloured; rewrite Hgrey; set_solver).
    assert (forall k, k ∈ cull -> ~ reach links (root_set roots db) k) as Hsafe.
    { intros k Hk Hre. rewrite list.Forall_forall in Hun. apply (Hun k Hk). eapply reach_closed; [|..|exact Hre].
      - rewrite <- Hcol. etrans; [|exact HR]. set_solver.
      - intros x c Hx Hxc. rewrite <- Hcol. eapply Hc; [done|set_solver|done]. }
    assert (forall k, k ∈ cull -> k ∈ dom (db_nodes db)) as Hstored by (rewrite list.Forall_forall in Hun; naive_solver).
    destruct (sweep_resume a') as [h|] eqn:Eh; injection E as <- <- <-; (split; [done..|]).
    + rewrite Hst. split; cbn; unfold coloured; cbn.
      * intros k c. apply Hc.
      * intros _. etrans; [|exact HR]. set_solver.
      * intros _. by rewrite Hroots.
      * rewrite Hgrey. intros k Hk. exfalso. induction Hk; set_solver.
    + rewrite Hst. split; cbn; try done. rewrite Hgrey. intros k Hk. exfalso. induction Hk; set_solver.
Qed.

(** A run always ends, with [cached] at least the number of nodes in memory. *)
Lemma run_total (cache_read : ArenaHash -> option OnDiskObject) (Ks : gset ArenaHash) self db roots reads scans cached :
  (forall k, is_Some (cache_read k) -> k ∈ Ks) -> (size Ks <= cached)%nat ->
  ContentAddressed links cache_read db ->
  exists self' db' culled, run self roots reads scans db cache_read db_root_keys cached = Ok (self', db', culled).
Proof.
  intros HK Hsz CA. unfold run.
  destruct (mark_cached_total links cache_read db (fun _ => True) ltac:(done) Ks HK cached
              (update_roots self roots db_root_keys db) Hsz) as [self1 ->]. cbn.
  case_bool_decide; [eauto|]. destruct (sweep _ _ _ _) as [[? ?] ?]. destruct (sweep_resume _); eauto.
Qed.
End run.

(** ** The collector and its caller, interleaved *)
Section worlds.
#[local] Set Default Proof Using "All".
Context {D Handle : Type} `{DBLaws D Handle} `{HashOrderLaws}.
Context (links : ArenaHash -> list ArenaHash).

(** The collector's state, the database, the nodes the caller holds and the
    caches. *)
Record world := World {
  w_gc : GcState Handle;
  w_db : D;
  w_live : list ArenaHash;
  w_cache : ArenaHash -> option OnDiskObject }.
Definition sound_world (w : world) : Prop := sound_storage links (w_cache w) (w_db w) (w_live w).
(** Nodes that the caller or a stored root needs. *)
Definition needed (w : world) (k : ArenaHash) : Prop := reach links (root_set (w_live w) (w_db w)) k.
Definition loadable (w : world) (k : ArenaHash) : Prop := present (w_cache w) (w_db w) k.

(** Runs with any budget, and steps of the caller, which may change the caches
    and what it holds, add nodes, and change root counts if it asks for a
    rescan; the label of a run is what it deleted. *)
Inductive gc_step : world -> option (list ArenaHash) -> world -> Prop :=
  | step_run gc db live cache reads scans cached gc' db' culled :
      run gc live reads scans db cache db_root_keys cached = Ok (gc', db', culled) ->
      gc_step (World gc db live cache) (Some culled)
        (World gc' db' live (fun k => if bool_decide (k ∈ culled) then None else cache k))
  | step_caller gc db live cache gc' db' live' cache' :
      dom (db_nodes db) ⊆ dom (db_nodes db') ->
      (gc' = gc /\ db_roots db' = db_roots db) \/ gc' = force_rescan gc ->
      sound_world (World gc' db' live' cache') ->
      gc_step (World gc db live cache) None (World gc' db' live' cache').

Inductive gc_reachable : world -> Prop :=
  | gc_start db live cache :
      sound_world (World GcState_default db live cache) -> gc_reachable (World GcState_default db live cache)
  | gc_next w l w' : gc_reachable w -> gc_step w l w' -> gc_reachable w'.

Lemma run_kept self db self' db' roots culled k :
  run_result links self db self' db' roots culled -> reach links (root_set roots db) k ->
  k ∈ dom (db_nodes db) -> k ∈ dom (db_nodes db').
Proof.
  intros Hr Hk [o Ho]%elem_of_dom. apply elem_of_dom. exists o. rewrite (run_deleted _ _ _ _ _ _ _ Hr).
  apply map_lookup_filter_Some. split; [done|]. cbn. intros Hc. by eapply run_safe in Hc.
Qed.
Lemma run_root_set self db self' db' roots culled :
  run_result links self db self' db' roots culled -> root_set roots db' = root_set roots db.
Proof. intros Hr. unfold root_set. by rewrite (run_roots _ _ _ _ _ _ _ Hr). Qed.

Lemma step_inv w l w' :
  gc_step w l w' -> sound_world w -> gc_inv links (w_gc w) (w_db w) ->
  sound_world w' /\ gc_inv links (w_gc w') (w_db w') /\
  (forall culled, l = Some culled ->
     (forall k, k ∈ culled -> ~ needed w k) /\ (forall k, needed w k -> needed w' k /\ loadable w' k)).
Proof.
  intros Hstep Hs Hi. destruct Hstep as [gc db live cache reads scans cached gc' db' culled Hrun|
    gc db live cache gc' db' live' cache' Hdom Hroots Hs'].
  - apply (run_spec links cache) in Hrun as Hr; [|done..]. pose proof Hr as [Hsafe Hdel Hst Hro Hi']. clear Hrun. cbn in *.
    pose proof (run_root_set _ _ _ _ _ _ Hr) as Hroot.
    assert (forall k, needed (World gc db live cache) k ->
              present (fun k => if bool_decide (k ∈ culled) then None else cache k) db' k) as Hload.
    { intros k Hk. destruct (sound_present _ _ _ _ Hs k Hk) as [Hc|Hd].
      - left. unfold GcProps.cached. rewrite bool_decide_false; [done|]. intros Hin. by apply (Hsafe k).
      - right. by eapply run_kept. }
    split_and!; [|done|intros ? [= <-]; split; [done|]; intros k Hk; split; [|by apply Hload]; unfold needed; cbn; by rewrite Hroot].
    split.
    + destruct (sound_addressed _ _ _ _ Hs) as [Hc Hd]. split.
      * intros k o. cbn. case_bool_decide as Hk; [intros [=]|]. apply Hc.
      * cbn. rewrite Hdel. intros k o [Ho _]%map_lookup_filter_Some. by eapply Hd.
    + cbn. rewrite Hroot. intros k Hk. by apply Hload.
    + cbn. rewrite Hroot. intros k c Hk Hd Hkc. eapply run_kept; [done|by eapply reach_link|].
      eapply (sound_disk _ _ _ _ Hs); [exact Hk| |done]. cbn. rewrite Hdel in Hd. by eapply dom_filter_subseteq, Hd.
  - split_and!; [done| |done]. cbn in *. destruct Hi as [Hc Hl Hr Hg].
    destruct Hroots as [[-> Hro]| ->].
    + split; [done..| |]; [by rewrite Hro|]. intros k Hk. apply Hdom. auto.
    + split; cbn; try done. intros k Hk. apply Hdom. auto.
Qed.

Lemma reachable_inv w : gc_reachable w -> sound_world w /\ gc_inv links (w_gc w) (w_db w).
Proof.
  induction 1 as [db live cache Hs|w l w' _ [Hs Hi] Hst]; [split; [done|apply gc_inv_default]|].
  by apply step_inv in Hst as (? & ? & _).
Qed.

(** C13: the garbage collector does not lose data as long as the caller keeps the
    storage sound: after each of its steps every needed node (one that a live
    node or a stored root reaches) is in memory or stored, and what a needed
    stored node refers to is stored, as it is after a flush of all changes but
    not after every flush of the evictions.  Then in every interleaving of runs,
    with any time budgets, with such steps, which may add nodes, change what the
    caller holds, its caches or (asking for a rescan) the stored roots, a run
    deletes no needed node, and every needed node can still be loaded after it. *)
Theorem gc_keeps_needed (w w' : world) (culled : list ArenaHash) :
  gc_reachable w -> gc_step w (Some culled) w' ->
  (forall k, k ∈ culled -> ~ needed w k) /\ (forall k, needed w k -> needed w' k /\ loadable w' k).
Proof. intros [Hs Hi]%reachable_inv Hst. apply step_inv in Hst as (_ & _ & Hc); [|done..]. by apply Hc. Qed.
End worlds.

(** ** A run with enough time *)
Section complete.
#[local] Set Default Proof Using "All".
Context {D Handle : Type} `{DBLaws D Handle} `{HashOrderLaws}.
Context (links : ArenaHash -> list ArenaHash) (cache_read : ArenaHash -> option OnDiskObject) (db : D).
Context {CA : ContentAddressed links cache_read db}.
Context (S : ArenaHash -> Prop) (S_links : forall k c, S k -> c ∈ links k -> S c).
Implicit Types (self : GcState Handle).

(** Only nodes in [S] are coloured, and none is both marked and grey. *)
Definition within self : Prop := (forall k, k ∈ coloured self -> S k) /\ disjoint_but [] self.

Lemma blackens_within k self self' : S k -> blackens links k self self' -> within self -> within self'.
Proof.
  intros Hk (_ & Hm & Hg) [Hw Hd]. unfold within, coloured, disjoint_but in *. rewrite Hm, Hg. split.
  - intros x. rewrite !elem_of_union, !elem_of_difference, elem_of_singleton, elem_of_list_to_set.
    intros [[->|Hx]|[[Hx _]|[Hx _]]]; [done|apply Hw; set_solver|apply Hw; set_solver|by eapply S_links].
  - intros x Hx1 Hx2. specialize (Hd x). set_solver.
Qed.

Lemma mark_cached_fold_within L self next self' next' :
  foldl (mark_cached_key cache_read) (self, next) L = (self', next') ->
  (forall k, k ∈ L -> S k) -> (forall k, k ∈ next -> S k) -> within self ->
  within self' /\ (forall k, k ∈ next' -> S k).
Proof.
  revert self next. induction L as [|h L IH]; intros self next; [cbn; by intros [= <- <-]|]. cbn [foldl].
  destruct (mark_cached_key cache_read (self, next) h) as [self1 next1] eqn:E1. intros Ef HL Hn Hw.
  assert (S h) as Hh by (apply HL; left). assert (forall k, k ∈ L -> S k) as HL' by (intros k Hk; apply HL; by right).
  apply (mark_cached_key_cases links cache_read db) in E1 as [(_ & -> & ->)|(_ & Hb & Hx)]; [by eapply IH|].
  eapply IH; [exact Ef|done| |by eapply blackens_within]. intros k. rewrite Hx.
  rewrite elem_of_union, elem_of_difference, elem_of_list_to_set. intros [?|[? _]]; eauto.
Qed.
Lemma mark_cached_within fuel self to_process self' :
  mark_cached fuel cache_read self to_process = Ok self' ->
  (forall k, k ∈ to_process -> S k) -> within self -> within self'.
Proof.
  revert self to_process. induction fuel as [|fuel IH]; intros self to_process; cbn [mark_cached];
    (case_bool_decide; [by intros [= <-]|]); [done|].
  destruct (foldl _ _ _) as [self1 next] eqn:Ef. intros Hok Htp Hw.
  apply mark_cached_fold_within in Ef as [Hw1 Hn1]; [by eapply IH| |set_solver|done].
  intros k Hk%hash_elements. auto.
Qed.

Lemma mark_reads_coloured L self :
  (forall k, k ∈ L -> S k /\ k ∈ dom (db_nodes db)) -> (forall k, k ∈ coloured self -> S k) ->
  forall k, k ∈ coloured (foldl mark_read self (map (fun k => (k, db_nodes db !! k)) L)) -> S k.
Proof.
  revert self. induction L as [|a L IH]; intros self HL Hw; [done|]. cbn [map foldl].
  destruct (HL a) as [Ha Hd]; [left|]. apply IH; [intros k Hk; apply HL; by right|].
  destruct (mark_read_blackens links cache_read db self a Hd) as (_ & Hm & Hg).
  intros x. unfold coloured in *. rewrite Hm, Hg.
  rewrite !elem_of_union, !elem_of_difference, elem_of_singleton, elem_of_list_to_set.
  intros [[->|Hx]|[[Hx _]|[Hx _]]]; [done|apply Hw; set_solver|apply Hw; set_solver|by eapply S_links].
Qed.

Context (G : ArenaHash -> Prop) (G_links : forall k c, G k -> c ∈ links k -> G c).
Context (G_stored : forall k, G k -> k ∈ dom (db_nodes db)).
Lemma mark_disk_within R reads self : marking links [] R G self -> within self -> within (mark_disk self db reads).
Proof.
  revert self. induction reads as [|n reads IH]; intros self Hm Hw; cbn; [done|]. case_bool_decide; [done|].
  pose proof (mark_batch_spec links db (stored_links _ _ _ (ContentAddressed := CA)) G G_links G_stored R n self Hm)
    as (Hm1 & _ & _).
  apply IH; [done|]. split.
  - unfold mark_batch. rewrite batch_get_nodes_spec. destruct Hw as [Hw _].
    assert (forall k, k ∈ take n (hash_iter (elements (grey_set self))) -> k ∈ grey_set self) as Hb.
    { intros k (i & Hi & _)%elem_of_take. by apply list_elem_of_lookup_2, hash_elements in Hi. }
    apply mark_reads_coloured.
    + intros k Hk%Hb. split; [apply Hw; unfold coloured; set_solver|]. by eapply G_stored, (marking_grey _ _ _ _ _ Hm).
    + unfold coloured in *. cbn. intros k. rewrite !elem_of_union, elem_of_list_to_set.
      intros [[Hk%Hb|?]|?]; apply Hw; set_solver.
  - apply (mark_batch_disjoint links db (stored_links _ _ _ (ContentAddressed := CA)) G G_links G_stored);
      [apply Hm|apply Hw].
Qed.
End complete.

Section collects.
#[local] Set Default Proof Using "All".
Context {D Handle : Type} `{DBLaws D Handle} `{HashOrderLaws}.
Context (links : ArenaHash -> list ArenaHash).
Abbreviation start := (GcState_default (Handle := Handle)).

(** The mark phases of a complete run mark exactly what the roots reach. *)
Lemma marked_exactly (cache_read : ArenaHash -> option OnDiskObject) (Ks : gset ArenaHash) (db : D) roots reads cached :
  sound_storage links cache_read db roots -> (forall k, is_Some (cache_read k) -> k ∈ Ks) -> (size Ks <= cached)%nat ->
  Forall (fun n => 0 < n)%nat reads -> (size (db_nodes db) <= length reads)%nat ->
  exists self, marked_state cache_read start db roots reads cached = Ok self /\
    grey_set self = ∅ /\ sweep_resume self = None /\ (forall k, k ∈ mark_set self <-> reach links (root_set roots db) k).
Proof.
  intros Hs HK Hsz Hpos Hlen. pose proof (sound_addressed _ _ _ _ Hs) as CA.
  pose proof (gc_inv_default (Handle := Handle) links db) as Hi.
  destruct (update_roots_spec links start roots db Hi) as (_ & Hm1 & _ & Hk1 & Hd1).
  destruct (mark_cached_total links cache_read db (fun _ => True) ltac:(done) Ks HK cached
              (update_roots start roots db_root_keys db) Hsz) as [self2 E2].
  assert (marked_state cache_read start db roots reads cached = Ok (mark_disk self2 db reads)) as E
    by (unfold marked_state; by rewrite E2).
  destruct (marked_state_spec links cache_read db roots Hs start reads cached _ Hi E) as (_ & Hw & [Hc3 HR3 _]).
  destruct (cached_phase links cache_read db roots Hs start cached self2 Hi E2) as [Hk2 _].
  set (S := reach links (root_set roots db)). assert (forall k c, S k -> c ∈ links k -> S c) as HS by apply reach_link.
  assert (within S self2) as Hw2.
  { assert (forall k, k ∈ grey_set (update_roots start roots db_root_keys db) -> S k) as Hg1.
    { intros k Hk. destruct (marking_grey _ _ _ _ _ Hk1 k Hk) as [Hk'|Hk']; [set_solver|by apply reach_root]. }
    eapply (mark_cached_within links cache_read db S HS); [exact E2|done|]. split; [|apply Hd1; set_solver].
    intros k. unfold coloured. rewrite Hm1. intros [Hk|Hk]%elem_of_union; [set_solver|auto]. }
  pose proof (fun k c => wanted_stored_links links cache_read db roots Hs start k c Hi) as Hlinks.
  pose proof (stored_links _ _ _ (ContentAddressed := CA)) as Hdb.
  pose proof (mark_disk_within links cache_read db S HS _ Hlinks (fun k Hk => proj2 Hk) _ reads self2 Hk2 Hw2) as Hw3.
  pose proof (mark_disk_ends links db Hdb _ Hlinks (fun k Hk => proj2 Hk) reads _ self2 Hk2 Hpos (proj2 Hw2)) as Hend.
  assert (grey_set (mark_disk self2 db reads) = ∅) as Hg.
  { apply Hend. etrans; [|exact Hlen]. rewrite <- size_dom. apply subseteq_size. set_solver. }
  assert (coloured (mark_disk self2 db reads) = mark_set (mark_disk self2 db reads)) as Hcol
    by (unfold coloured; rewrite Hg; set_solver).
  exists (mark_disk self2 db reads). split_and!; [done|done|done|]. intros k. split.
  - intros Hk. apply Hw3. by rewrite Hcol.
  - apply reach_closed; [rewrite <- Hcol; set_solver|]. intros x c Hx Hxc. rewrite <- Hcol. eapply Hc3; [done|set_solver|done].
Qed.

(** C15: with enough time a run on sound storage deletes all the garbage and
    nothing else.  Sound storage, as a flush of all changes leaves it: every node
    that a live node or a stored root reaches is in memory or stored, and what
    such a stored node refers to is stored.  Then a run that is started afresh,
    with a batch for every stored node, ends, the stored nodes left are exactly
    those that a live node or a stored root reaches, and the collector is ready
    for the next cycle. *)
Theorem gc_collects_garbage (cache_read : ArenaHash -> option OnDiskObject) (Ks : gset ArenaHash) (db : D)
    (roots : list ArenaHash) (reads scans : list nat) (cached : nat) :
  sound_storage links cache_read db roots -> (forall k, is_Some (cache_read k) -> k ∈ Ks) -> (size Ks <= cached)%nat ->
  Forall (fun n => 0 < n)%nat reads -> Forall (fun n => 0 < n)%nat scans ->
  (size (db_nodes db) <= length reads)%nat -> (size (db_nodes db) < length scans)%nat ->
  exists db' culled,
    run start roots reads scans db cache_read db_root_keys cached = Ok (start, db', culled) /\
    (forall k o, db_nodes db' !! k = Some o <->
                 db_nodes db !! k = Some o /\ reach links (root_set roots db) k) /\
    db_roots db' = db_roots db.
Proof.
  intros Hs HK Hsz Hpr Hps Hlr Hls.
  destruct (marked_exactly cache_read Ks db roots reads cached Hs HK Hsz Hpr Hlr) as (self & E & Hg & Hres & Hmark).
  rewrite (run_unfold links), E. cbn. rewrite bool_decide_false by (by intros []).
  destruct (sweep self db [] scans) as [[self' db'] culled] eqn:Es.
  apply sweep_complete in Es as Hcomp; [|done|rewrite Hres, scan_rest_start, size_dom; done].
  destruct Hcomp as [Hnone Hall]. rewrite Hres, scan_rest_start in Hall.
  apply sweep_spec in Es as (del & [Hcull Hun Hnodes Hroots Hst]). cbn in Hcull. subst del.
  rewrite Hnone. exists db', culled. split_and!; [|intros k o|done].
  - do 3 f_equal. unfold GcState_default. rewrite Hst. cbn. by rewrite Hg.
  - rewrite Hnodes, map_lookup_filter_Some, <- Hmark. cbn. rewrite list.Forall_forall in Hun. split.
    + intros [Ho Hk]. split; [done|]. destruct (decide (k ∈ mark_set self)) as [|Hn]; [done|]. destruct Hk.
      apply Hall; [|done]. by apply elem_of_dom_2 in Ho.
    + intros [Ho Hk]. split; [done|]. intros Hc. by apply Hun in Hc as [? _].
Qed.

(** A run that has finished marking when its time is used up starts over:
    it reports success without having looked at a single stored node, and the
    marks are thrown away, so that the next run marks everything again. *)
Theorem gc_without_sweep_time_starts_over (cache_read : ArenaHash -> option OnDiskObject) (Ks : gset ArenaHash) (db : D)
    (roots : list ArenaHash) (reads : list nat) (cached : nat) :
  sound_storage links cache_read db roots -> (forall k, is_Some (cache_read k) -> k ∈ Ks) -> (size Ks <= cached)%nat ->
  Forall (fun n => 0 < n)%nat reads -> (size (db_nodes db) <= length reads)%nat ->
  run start roots reads [] db cache_read db_root_keys cached = Ok (start, db, []).
Proof.
  intros Hs HK Hsz Hpr Hlr.
  destruct (marked_exactly cache_read Ks db roots reads cached Hs HK Hsz Hpr Hlr) as (self & E & Hg & Hres & Hmark).
  rewrite (run_unfold links), E. cbn. rewrite bool_decide_false by (by intros []). rewrite Hres. by rewrite Hg.
Qed.
End collects.
