(* ===== verification/Backend.v ===== *)
(** * The storage back end ([storage-core/src/backend.rs])

    [StorageBackend] sits between the arena and the database: a bounded read
    cache of objects that equal the stored ones, an unbounded write cache of
    pending changes, the set of live inserts, and the collector's state.  Every
    method that changes it is a function on [StorageBackend]; [Panic] is a
    failed [assert!], [expect] or [unwrap].

    The crate has two layouts, chosen by the [layout-v2] and [gc-v1] features:
    the first keeps reference counts in the stored objects and collects by
    them, the second keeps none and collects by marking ([Gc]).  [Features] says
    which one is built.  [debug_assert!]s are left out: they are not compiled in
    a release build.  Deltas are [i32] with wrap-around. *)
From S2P Require Import Prelude CostModel DeltaTracking StorageDb Gc.

Class Features := { layout_v2 : bool; gc_v1 : bool }.

(** [x as i32], and the sum of two [i32]s. *)
Definition wrap_i32 (x : Z) : Z := (x + 2 ^ 31) mod 2 ^ 32 - 2 ^ 31.

(** ** [Delta] *)
Record Delta := { ref_delta : Z; root_delta : Z }.
#[global] Instance Delta_eq_dec : EqDecision Delta.
Proof. solve_decision. Defined.
Definition new_ref_delta (n : Z) : may_panic Delta :=
  _ ← assert_that (negb (n =? 0)); Ok {| ref_delta := n; root_delta := 0 |}.
Definition new_root_delta (n : Z) : may_panic Delta :=
  _ ← assert_that (negb (n =? 0)); Ok {| ref_delta := 0; root_delta := n |}.
Definition combine (self other : Delta) : option Delta :=
  let ref_delta := wrap_i32 (ref_delta self + ref_delta other) in
  let root_delta := wrap_i32 (root_delta self + root_delta other) in
  if (ref_delta =? 0) && (root_delta =? 0) then None
  else Some {| ref_delta := ref_delta; root_delta := root_delta |}.

(** ** [CacheValue] *)
Inductive CacheValue :=
  | CVRead (obj : OnDiskObject)
  | CVUpdate (delta : Delta)
  | CVReadAndUpdate (delta : Delta) (obj : OnDiskObject)
  | CVCreate (obj : OnDiskObject)
  | CVCreateAndUpdate (obj : OnDiskObject) (delta : Delta)
  | CVCreateAndDelete (obj : OnDiskObject) (delta : Delta)
  | CVDummy.
#[global] Instance CacheValue_eq_dec : EqDecision CacheValue.
Proof. solve_decision. Defined.

Definition get_obj (self : CacheValue) : option OnDiskObject :=
  match self with
  | CVUpdate _ | CVDummy => None
  | CVRead obj | CVReadAndUpdate _ obj | CVCreate obj | CVCreateAndUpdate obj _ | CVCreateAndDelete obj _ => Some obj
  end.
Definition is_pending (self : CacheValue) : bool :=
  match self with
  | CVRead _ | CVDummy => false
  | CVUpdate _ | CVReadAndUpdate _ _ | CVCreate _ | CVCreateAndUpdate _ _ | CVCreateAndDelete _ _ => true
  end.

(** [OnDiskObject::apply_delta]; [checked_add_signed(..).expect(..)] *)
Definition apply_delta (self : OnDiskObject) (delta : Delta) : may_panic OnDiskObject :=
  let ref_count := ref_count self + ref_delta delta in
  if (0 <=? ref_count) && (ref_count <=? u64_max)
  then Ok {| od_data := od_data self; ref_count := ref_count; od_children := od_children self |}
  else Panic.
(** [output_size] is the length of a hash. *)
Definition obj_size (output_size : Z) (self : OnDiskObject) : Z :=
  Z.of_nat (length (od_data self)) + 4 + Z.of_nat (length (od_children self)) * output_size.

Record StorageBackendStats := { get_cache_hits : Z; get_cache_misses : Z }.

Record StorageBackend (D Handle C : Type) := {
  database : D;
  cache_size : nat;
  read_cache : C;
  write_cache : C;
  live_inserts : gset ArenaHash;
  stats : StorageBackendStats;
  gc_state : GcState Handle }.
Arguments database {D Handle C} _.
Arguments cache_size {D Handle C} _.
Arguments read_cache {D Handle C} _.
Arguments write_cache {D Handle C} _.
Arguments live_inserts {D Handle C} _.
Arguments stats {D Handle C} _.
Arguments gc_state {D Handle C} _.
Arguments Build_StorageBackend {D Handle C} _ _ _ _ _ _ _.

Section backend.
Context {D Handle C : Type} `{Features} `{DB D Handle} `{LruCache ArenaHash CacheValue C} `{HashOrder}.
Abbreviation Backend := (StorageBackend D Handle C).

Definition with_caches (self : Backend) (read write : C) : Backend :=
  Build_StorageBackend (database self) (cache_size self) read write (live_inserts self) (stats self) (gc_state self).
Definition with_database (self : Backend) (db : D) : Backend :=
  Build_StorageBackend db (cache_size self) (read_cache self) (write_cache self) (live_inserts self) (stats self) (gc_state self).
Definition with_live (self : Backend) (live : gset ArenaHash) : Backend :=
  Build_StorageBackend (database self) (cache_size self) (read_cache self) (write_cache self) live (stats self) (gc_state self).
Definition with_stats (self : Backend) (stats : StorageBackendStats) : Backend :=
  Build_StorageBackend (database self) (cache_size self) (read_cache self) (write_cache self) (live_inserts self) stats (gc_state self).
Definition with_gc (self : Backend) (gc : GcState Handle) : Backend :=
  Build_StorageBackend (database self) (cache_size self) (read_cache self) (write_cache self) (live_inserts self) (stats self) gc.

Definition StorageBackend_new (cache_size : nat) (database : D) : may_panic Backend :=
  read_cache ← match cache_size with O => Ok Cache_unbounded | S _ => Cache_new cache_size end;
  Ok (Build_StorageBackend database cache_size read_cache Cache_unbounded ∅
        {| get_cache_hits := 0; get_cache_misses := 0 |} GcState_default).

(** ** The caches *)
Definition peek_from_memory (self : Backend) (key : ArenaHash) : option CacheValue :=
  match Cache_peek (write_cache self) key with
  | Some value => Some value
  | None => Cache_peek (read_cache self) key
  end.
Definition peek_mut_from_memory (self : Backend) (key : ArenaHash) : option (CacheValue * (CacheValue -> Backend)) :=
  match Cache_peek_mut (write_cache self) key with
  | Some (value, put) => Some (value, fun v => with_caches self (read_cache self) (put v))
  | None =>
      match Cache_peek_mut (read_cache self) key with
      | Some (value, put) => Some (value, fun v => with_caches self (put v) (write_cache self))
      | None => None
      end
  end.
Definition remove_from_memory (self : Backend) (key : ArenaHash) : may_panic (Backend * CacheValue) :=
  let '(write, removed) := Cache_remove (write_cache self) key in
  match removed with
  | Some (_, v) => Ok (with_caches self (read_cache self) write, v)
  | None =>
      let '(read, removed) := Cache_remove (read_cache self) key in
      match removed with
      | Some (_, v) => Ok (with_caches self read write, v)
      | None => Panic
      end
  end.
Definition promote (self : Backend) (key : ArenaHash) : Backend :=
  let '(write, promoted) := Cache_promote (write_cache self) key in
  if promoted then with_caches self (read_cache self) write
  else with_caches self (Cache_promote (read_cache self) key).1 write.
Definition cache_insert_new_key (self : Backend) (key : ArenaHash) (value : CacheValue) : may_panic Backend :=
  if is_pending value then
    let '(write, evicted) := Cache_set (write_cache self) key value in
    match evicted with None => Ok (with_caches self (read_cache self) write) | Some _ => Panic end
  else Ok (with_caches self (Cache_set (read_cache self) key value).1 (write_cache self)).

(** [obj.apply_delta(delta)] where the layout has reference counts. *)
Definition count_delta (obj : OnDiskObject) (delta : Delta) : may_panic OnDiskObject :=
  if layout_v2 then Ok obj else apply_delta obj delta.

(** ** Reading *)
Definition count_hit (self : Backend) : Backend :=
  with_stats self {| get_cache_hits := get_cache_hits (stats self) + 1; get_cache_misses := get_cache_misses (stats self) |}.
Definition count_miss (self : Backend) : Backend :=
  with_stats self {| get_cache_hits := get_cache_hits (stats self); get_cache_misses := get_cache_misses (stats self) + 1 |}.

Definition get (self : Backend) (key : ArenaHash) : may_panic (Backend * option OnDiskObject) :=
  match peek_from_memory self key ≫= get_obj with
  | Some _ =>
      '(self, value) ← remove_from_memory (count_hit self) key;
      value ← match value with CVUpdate _ => Panic | _ => Ok value end;
      self ← cache_insert_new_key self key value;
      value ← unwrap (peek_from_memory self key);
      obj ← unwrap (get_obj value);
      Ok (self, Some obj)
  | None =>
      let self := count_miss self in
      self ← match get_node (database self) key with
             | Some obj =>
                 '(self, cache_value) ← match peek_from_memory self key with
                                        | Some (CVUpdate delta) =>
                                            '(self, _) ← remove_from_memory self key;
                                            obj ← count_delta obj delta;
                                            Ok (self, CVReadAndUpdate delta obj)
                                        | _ => Ok (self, CVRead obj)
                                        end;
                 cache_insert_new_key self key cache_value
             | None => Ok self
             end;
      Ok (self, peek_from_memory self key ≫= get_obj)
  end.

Definition mem_root_delta (value : option CacheValue) : Z :=
  match value with
  | Some (CVUpdate delta) | Some (CVReadAndUpdate delta _) | Some (CVCreateAndUpdate _ delta)
  | Some (CVCreateAndDelete _ delta) => root_delta delta
  | Some (CVRead _) | Some (CVCreate _) | None | Some CVDummy => 0
  end.
Definition backend_root_count (self : Backend) (key : ArenaHash) : may_panic Z :=
  let root_count := wrap_i32 (wrap_i32 (get_root_count (database self) key)
                              + mem_root_delta (peek_from_memory self key)) in
  _ ← assert_that (0 <=? root_count); Ok root_count.
Definition backend_roots (self : Backend) : may_panic (gmap ArenaHash Z) :=
  try_fold (fun roots_map '(key, _) =>
              root_count ← backend_root_count self key;
              Ok (if 0 <? root_count then <[key := root_count]> roots_map else delete key roots_map))
    (get_roots (database self)) (Cache_iter (write_cache self)).

(** ** Reference and root counts *)
Inductive Action := Replace (value : CacheValue) | Remove | RemoveWithChildren (obj : OnDiskObject).
Definition count_action (value : CacheValue) (delta : Delta) : may_panic Action :=
  match value with
  | CVRead obj => obj ← count_delta obj delta; Ok (Replace (CVReadAndUpdate delta obj))
  | CVUpdate old_delta =>
      match combine delta old_delta with Some delta => Ok (Replace (CVUpdate delta)) | None => Ok Remove end
  | CVReadAndUpdate old_delta obj =>
      obj ← count_delta obj delta;
      match combine delta old_delta with
      | Some delta => Ok (Replace (CVReadAndUpdate delta obj))
      | None => Ok (Replace (CVRead obj))
      end
  | CVCreate obj => obj ← count_delta obj delta; Ok (Replace (CVCreateAndUpdate obj delta))
  | CVCreateAndUpdate obj old_delta =>
      obj ← count_delta obj delta;
      match combine delta old_delta with
      | Some delta => Ok (Replace (CVCreateAndUpdate obj delta))
      | None => Ok (Replace (CVCreate obj))
      end
  | CVCreateAndDelete obj old_delta =>
      obj ← count_delta obj delta;
      match combine delta old_delta with
      | Some delta => Ok (Replace (CVCreateAndDelete obj delta))
      | None => Ok (RemoveWithChildren obj)
      end
  | CVDummy => Ok Remove
  end.

(** The body of the loop of [update_counts] for one key; [rec] is the recursive
    call for the children of an object that is dropped. *)
Definition update_count (rec : Backend -> list ArenaHash -> Delta -> may_panic Backend)
    (delta : Delta) (self : Backend) (key : ArenaHash) : may_panic Backend :=
  match peek_mut_from_memory self key with
  | Some (tmp, put) =>
      let was_pending := is_pending tmp in
      action ← count_action tmp delta;
      match action with
      | Replace value =>
          let self := put value in
          if negb (eqb was_pending (is_pending value)) then
            '(self, value) ← remove_from_memory self key;
            cache_insert_new_key self key value
          else Ok (promote self key)
      | Remove => '(self, _) ← remove_from_memory (put CVDummy) key; Ok self
      | RemoveWithChildren obj =>
          '(self, _) ← remove_from_memory (put CVDummy) key;
          delta ← new_ref_delta (-1);
          rec self (flat_refs (od_children obj)) delta
      end
  | None => cache_insert_new_key self key (CVUpdate delta)
  end.
Fixpoint update_refs (fuel : nat) (self : Backend) (keys : list ArenaHash) (delta : Delta) : may_panic Backend :=
  match fuel with
  | O => Panic
  | S fuel => try_fold (update_count (update_refs fuel) delta) self keys
  end.
(** A recursive call follows the removal of a [CreateAndDelete] entry, and no
    step makes a new one: their number bounds the depth of the calls. *)
Definition is_create_and_delete (value : CacheValue) : bool :=
  match value with CVCreateAndDelete _ _ => true | _ => false end.
Definition create_and_deletes (self : Backend) : nat :=
  length (filter (fun p => is_create_and_delete p.2 = true) (Cache_iter (write_cache self))).
Definition update_counts (self : Backend) (children : list ArenaKey) (delta : Delta) : may_panic Backend :=
  update_refs (S (create_and_deletes self)) self (flat_refs children) delta.

Definition persist (self : Backend) (key : ArenaHash) : may_panic Backend :=
  delta ← new_root_delta 1; update_counts self [AK_Ref key] delta.
Definition unpersist (self : Backend) (key : ArenaHash) : may_panic Backend :=
  delta ← new_root_delta (-1); update_counts self [AK_Ref key] delta.

(** ** Caching and uncaching *)
Definition cache_new (self : Backend) (key : ArenaHash) (data : list Z) (children : list ArenaKey) : may_panic Backend :=
  delta ← new_ref_delta 1;
  self ← update_counts self children delta;
  let obj := {| od_data := data; ref_count := 0; od_children := children |} in
  '(self, cache_value) ←
    if layout_v2 then
      match peek_from_memory self key with
      | Some (CVUpdate delta) => '(self, _) ← remove_from_memory self key; Ok (self, CVCreateAndUpdate obj delta)
      | _ => Ok (self, CVCreate obj)
      end
    else Ok (self, CVCreate obj);
  cache_insert_new_key self key cache_value.
Definition cache (self : Backend) (key : ArenaHash) (data : list Z) (children : list ArenaKey) : may_panic Backend :=
  _ ← assert_that (negb (bool_decide (key ∈ live_inserts self)));
  let self := with_live self ({[ key ]} ∪ live_inserts self) in
  match peek_from_memory self key ≫= get_obj with
  | Some _ =>
      '(self, value) ← remove_from_memory self key;
      value ← match value with
              | CVCreateAndDelete obj delta => Ok (CVCreateAndUpdate obj delta)
              | CVUpdate _ => Panic
              | _ => Ok value
              end;
      cache_insert_new_key self key value
  | None =>
      match (if layout_v2 then None else get_node (database self) key) with
      | Some obj =>
          cache_value ← match peek_from_memory self key with
                        | Some (CVUpdate delta) => obj ← apply_delta obj delta; Ok (CVReadAndUpdate delta obj)
                        | _ => Ok (CVRead obj)
                        end;
          cache_insert_new_key self key cache_value
      | None => cache_new self key data children
      end
  end.
Definition cache_lazy (self : Backend) (key : ArenaHash) : Backend :=
  with_live self ({[ key ]} ∪ live_inserts self).

Definition uncache (self : Backend) (key : ArenaHash) : may_panic Backend :=
  _ ← assert_that (bool_decide (key ∈ live_inserts self));
  let self := with_live self (live_inserts self ∖ {[ key ]}) in
  match peek_from_memory self key with
  | Some (CVCreate obj) =>
      _ ← assert_that (layout_v2 || (ref_count obj =? 0));
      '(self, _) ← remove_from_memory self key;
      delta ← new_ref_delta (-1);
      update_counts self (od_children obj) delta
  | Some (CVCreateAndUpdate obj delta) =>
      write ← Cache_update_in_place (write_cache self) key (CVCreateAndDelete obj delta);
      Ok (with_caches self (read_cache self) write)
  | _ => Ok self
  end.

(** ** Pre-fetching *)
Definition memory_len (self : Backend) : nat := (Cache_len (write_cache self) + Cache_len (read_cache self))%nat.
Definition pre_fetch (self : Backend) (key : ArenaHash) (max_depth : option nat) (truncate : bool) : may_panic Backend :=
  let max_count := match cache_size self with O => None | S n => Some (S n) end in
  kvs ← bfs_get_nodes (database self) key (fun key => peek_from_memory self key ≫= get_obj) truncate max_depth max_count
          (memory_len self + Z.to_nat (db_size (database self)));
  try_fold (fun self '(k, v) => cache_insert_new_key self k (CVRead v)) self (reverse kvs).

(** ** Flushing *)
Definition flushed_root_count (self : Backend) (k : ArenaHash) (delta : Delta) : may_panic Z :=
  let root_count := wrap_i32 (wrap_i32 (get_root_count (database self) k) + root_delta delta) in
  _ ← assert_that (0 <=? root_count); Ok root_count.
Definition rescan_gc (self : Backend) : Backend :=
  if gc_v1 then with_gc self (force_rescan (gc_state self)) else self.
Definition set_root (self : Backend) (k : ArenaHash) (root_count : Z) (updates : list (ArenaHash * DbUpdate))
    : Backend * list (ArenaHash * DbUpdate) :=
  (rescan_gc self, updates ++ [(k, SetRootCount root_count)]).

(** The database updates a pending value stands for. *)
Definition flush_updates (self : Backend) (updates : list (ArenaHash * DbUpdate)) (k : ArenaHash) (v : CacheValue)
    : may_panic (Backend * list (ArenaHash * DbUpdate)) :=
  match v with
  | CVRead _ => Panic
  | CVReadAndUpdate delta obj =>
      let updates := if negb layout_v2 && negb (ref_delta delta =? 0) then updates ++ [(k, InsertNode obj)] else updates in
      if negb (root_delta delta =? 0) then
        root_count ← flushed_root_count self k delta; Ok (set_root self k root_count updates)
      else Ok (self, updates)
  | CVCreateAndUpdate obj delta | CVCreateAndDelete obj delta =>
      let updates := updates ++ [(k, InsertNode obj)] in
      if negb (root_delta delta =? 0) then
        root_count ← if layout_v2 then flushed_root_count self k delta
                     else (_ ← assert_that (0 <? root_delta delta); Ok (root_delta delta));
        Ok (set_root self k root_count updates)
      else Ok (self, updates)
  | CVCreate obj => Ok (self, updates ++ [(k, InsertNode obj)])
  | CVUpdate delta =>
      if layout_v2 && negb (root_delta delta =? 0) then
        root_count ← flushed_root_count self k delta; Ok (set_root self k root_count updates)
      else Ok (self, updates)
  | CVDummy => Ok (self, updates)
  end.
Definition flush_one (acc : Backend * list (ArenaHash * DbUpdate)) (kv : ArenaHash * CacheValue)
    : may_panic (Backend * list (ArenaHash * DbUpdate)) :=
  let '(self, updates) := acc in
  let '(k, v) := kv in
  _ ← match v with CVRead _ => Panic | _ => Ok tt end;
  if layout_v2 then
    self ← match get_obj v with Some obj => cache_insert_new_key self k (CVRead obj) | None => Ok self end;
    flush_updates self updates k v
  else
    v ← match v with
        | CVUpdate delta =>
            obj ← unwrap (get_node (database self) k);
            obj ← apply_delta obj delta;
            Ok (CVReadAndUpdate delta obj)
        | _ => Ok v
        end;
    obj ← unwrap (get_obj v);
    self ← cache_insert_new_key self k (CVRead obj);
    flush_updates self updates k v.
Definition flush_to_db (self : Backend) (writes : list (ArenaHash * CacheValue)) : may_panic Backend :=
  '(self, updates) ← try_fold flush_one (self, []) writes;
  Ok (with_database self (batch_update (database self) updates)).

Definition flush_all_changes_to_db (self : Backend) : may_panic Backend :=
  let writes := Cache_iter (write_cache self) in
  flush_to_db (with_caches self (read_cache self) (Cache_clear (write_cache self))) writes.

(** [while len > cache_size { pop_lru }]; each round shortens the cache. *)
Fixpoint pop_evictions (fuel : nat) (cache_size : nat) (write : C) (evictions : list (ArenaHash * CacheValue))
    : may_panic (C * list (ArenaHash * CacheValue)) :=
  if (cache_size <? Cache_len write)%nat then
    match fuel with
    | O => Panic
    | S fuel =>
        let '(write, popped) := Cache_pop_lru write in
        kv ← unwrap popped;
        pop_evictions fuel cache_size write (evictions ++ [kv])
    end
  else Ok (write, evictions).
Definition flush_cache_evictions_to_db (self : Backend) : may_panic Backend :=
  match cache_size self with
  | O => Ok self
  | S _ =>
      '(write, evictions) ← pop_evictions (Cache_len (write_cache self)) (cache_size self) (write_cache self) [];
      flush_to_db (with_caches self (read_cache self) write) (hash_iter evictions)
  end.

Definition get_write_cache_len (self : Backend) : nat := Cache_len (write_cache self).
Definition get_write_cache_obj_bytes (output_size : Z) (self : Backend) : Z :=
  foldr Z.add 0 (omap (fun p => obj_size output_size <$> get_obj p.2) (Cache_iter (write_cache self))).

(** ** Garbage collection *)

(** [gc_override_gc_roots] and [gc] of the [gc-v1] feature. *)
Definition gc_read (self : Backend) (key : ArenaHash) : option OnDiskObject :=
  match Cache_peek (write_cache self) key with
  | Some v => get_obj v
  | None => Cache_peek (read_cache self) key ≫= get_obj
  end.
Definition drop_keys (self : Backend) (keys : list ArenaHash) : Backend :=
  foldl (fun self hash => with_caches self (Cache_remove (read_cache self) hash).1 (Cache_remove (write_cache self) hash).1)
    self keys.
Definition gc_override_gc_roots (self : Backend) (reads scans : list nat) (roots : D -> list ArenaHash)
    : may_panic (Backend * nat) :=
  '(gc, db, culled) ← run (gc_state self) (hash_iter (elements (live_inserts self))) reads scans (database self)
                        (gc_read self) roots (memory_len self);
  let self := drop_keys (with_gc (with_database self db) gc) culled in
  Ok (self, length culled).
Definition gc (self : Backend) (reads scans : list nat) : may_panic (Backend * nat) :=
  gc_override_gc_roots self reads scans db_root_keys.

(** [gc] of the first layout, by reference counts.  The stack of unreachable
    keys is a list whose last element is its top; [fuel] bounds the number of
    keys processed. *)
Definition gc_count_child (root_keys : gset ArenaHash) (acc : Backend * list ArenaHash) (child_key : ArenaHash)
    : may_panic (Backend * list ArenaHash) :=
  let '(self, unreachable_keys) := acc in
  '(self, found) ← get self child_key;
  child ← unwrap found;
  Ok (self, if (ref_count child =? 0) && negb (bool_decide (child_key ∈ root_keys))
            then unreachable_keys ++ [child_key] else unreachable_keys).
Definition gc_key (root_keys : gset ArenaHash) (self : Backend) (unreachable_keys : list ArenaHash) (key : ArenaHash)
    : may_panic (Backend * list ArenaHash) :=
  self ← pre_fetch self key (Some 1%nat) false;
  value ← unwrap (peek_from_memory self key);
  match get_obj value with
  | Some node =>
      delta ← new_ref_delta (-1);
      self ← update_counts self (od_children node) delta;
      try_fold (gc_count_child root_keys) (self, unreachable_keys) (flat_refs (od_children node))
  | None => Ok (self, unreachable_keys)
  end.
Fixpoint gc_count_loop (fuel : nat) (root_keys : gset ArenaHash) (self : Backend) (unreachable_keys keys_to_delete : list ArenaHash)
    : may_panic (Backend * list ArenaHash) :=
  match list.last unreachable_keys with
  | None => Ok (self, keys_to_delete)
  | Some key =>
      match fuel with
      | O => Panic
      | S fuel =>
          '(self, unreachable_keys) ← gc_key root_keys self (removelast unreachable_keys) key;
          gc_count_loop fuel root_keys self unreachable_keys (keys_to_delete ++ [key])
      end
  end.
Definition gc_by_counts (fuel : nat) (self : Backend) : may_panic Backend :=
  let db_unreachable_keys := get_unreachable_keys (database self) in
  let mem_unreachable_keys :=
    (filter (fun p => ref_count <$> get_obj p.2 = Some 0) (Cache_iter (write_cache self))).*1 in
  roots ← backend_roots self;
  let root_keys := dom roots ∪ live_inserts self in
  let unreachable_keys := filter (fun k => (k ∉ root_keys)) (db_unreachable_keys ++ mem_unreachable_keys) in
  '(self, keys_to_delete) ← gc_count_loop fuel root_keys self unreachable_keys [];
  let self := drop_keys self keys_to_delete in
  Ok (with_database self (batch_update (database self) (map (fun k => (k, DeleteNode)) keys_to_delete))).
End backend.
