(* ===== verification/BackendInv.v ===== *)
(** * The storage back end as a store of objects

    What the back end stands for is a map of objects and a map of root counts:
    an object is what the write cache says, or else the database ([objects]).
    [coherent] relates the caches to the database: the read cache only repeats
    stored objects, the write cache holds pending changes in the state that fits
    the database.  Reading and flushing keep the store, and after a full flush
    the database is the store. *)
From S2P Require Import Prelude CostModel DeltaTracking StorageDb Gc Backend.

#[local] Set Default Proof Using "Type*".

(** ** The entries of a cache as a map *)
Section cache_maps.
Context {V C : Type} `{LruCache ArenaHash V C} `{!LruLaws ArenaHash V C}.
Implicit Types (c : C) (k : ArenaHash) (v : V).

Definition entries (c : C) : gmap ArenaHash V := list_to_map (lru_iter c).

Lemma Cache_peek_entries c k : Cache_peek c k = entries c !! k.
Proof. unfold Cache_peek. by rewrite lru_peek_find, assoc_find_lookup. Qed.
Lemma elem_iter c k v : (k, v) ∈ Cache_iter c <-> entries c !! k = Some v.
Proof. unfold entries. apply elem_of_list_to_map, lru_iter_nodup. Qed.
Lemma entries_unbounded : entries (Cache_unbounded (C := C)) = ∅.
Proof. unfold entries, Cache_unbounded. by rewrite lru_iter_unbounded. Qed.
Lemma entries_new n c : Cache_new n = Ok c -> entries c = ∅ /\ lru_cap c = Some n.
Proof.
  destruct n; cbn; [done|]. intros [= <-]. unfold entries. rewrite lru_iter_resize by apply lru_iter_new.
  by rewrite lru_cap_resize.
Qed.
Lemma entries_clear c : entries (Cache_clear c) = ∅.
Proof. unfold entries, Cache_clear. by rewrite lru_iter_clear. Qed.
Lemma entries_remove c k : entries (Cache_remove c k).1 = delete k (entries c).
Proof. unfold entries, Cache_remove. by rewrite lru_iter_pop_entry, without_map. Qed.
Lemma Cache_remove_ret c k : (Cache_remove c k).2 = (fun v => (k, v)) <$> entries c !! k.
Proof. unfold entries, Cache_remove. by rewrite lru_pop_entry_ret, assoc_find_lookup. Qed.

Lemma front_entries c k v :
  (list_to_map ((k, v) :: assoc_without k (lru_iter c)) : gmap ArenaHash V) = <[k := v]> (entries c).
Proof. cbn. rewrite without_map. apply insert_delete_eq. Qed.
Lemma entries_promote c k : entries (Cache_promote c k).1 = entries c.
Proof.
  unfold Cache_promote, entries. destruct (assoc_find k (lru_iter c)) as [v|] eqn:E.
  - rewrite (proj1 (lru_promote_old c k v E)), front_entries. apply insert_id. by rewrite <- assoc_find_lookup.
  - by rewrite (proj1 (lru_promote_none c k E)).
Qed.
Lemma Cache_promote_ret c k : (Cache_promote c k).2 = bool_decide (is_Some (entries c !! k)).
Proof.
  unfold Cache_promote, entries. rewrite <- assoc_find_lookup. destruct (assoc_find k (lru_iter c)) as [v|] eqn:E.
  - rewrite (proj2 (lru_promote_old c k v E)). by rewrite bool_decide_true by eauto.
  - rewrite (proj2 (lru_promote_none c k E)). symmetry. apply bool_decide_false. by intros [? ?].
Qed.
Lemma entries_peek_mut c k v put v' : Cache_peek_mut c k = Some (v, put) ->
  entries c !! k = Some v /\ entries (put v') = <[k := v']> (entries c).
Proof.
  intros E. pose proof (lru_peek_mut_find c k) as Hf. unfold Cache_peek_mut in E. rewrite E in Hf. cbn in Hf.
  rewrite assoc_find_lookup in Hf. symmetry in Hf. unfold entries. split; [done|].
  rewrite (lru_iter_peek_mut c k v put v' E). apply replace_map; [|apply lru_iter_nodup].
  apply (elem_of_list_to_map_2 (M := gmap ArenaHash)) in Hf as Hin. by apply (list_elem_of_fmap_2 fst) in Hin.
Qed.
Lemma Cache_peek_mut_None c k : Cache_peek_mut c k = None -> entries c !! k = None.
Proof.
  intros E. pose proof (lru_peek_mut_find c k) as Hf. unfold Cache_peek_mut in E. rewrite E in Hf. cbn in Hf.
  by rewrite assoc_find_lookup in Hf.
Qed.
Lemma entries_update_in_place c k v c' : Cache_update_in_place c k v = Ok c' -> entries c' = <[k := v]> (entries c).
Proof.
  unfold Cache_update_in_place, assert_that. rewrite lru_contains_find. case_bool_decide as Hc; [|done].
  destruct Hc as [old Hold]. intros [= <-]. unfold entries. by rewrite (lru_put_old c k v old Hold), front_entries.
Qed.
Lemma Cache_update_in_place_total c k v : is_Some (entries c !! k) -> exists c', Cache_update_in_place c k v = Ok c'.
Proof.
  intros Hk. unfold Cache_update_in_place, assert_that. rewrite lru_contains_find, bool_decide_true; [cbn; eauto|].
  by rewrite assoc_find_lookup.
Qed.

Lemma entries_set_unbounded c k v : lru_cap c = None ->
  entries (Cache_set c k v).1 = <[k := v]> (entries c) /\ (Cache_set c k v).2 = None.
Proof.
  intros Hcap. unfold Cache_set. destruct (lru_push c k v) as [c' ev] eqn:Ep. cbn.
  destruct (assoc_find k (lru_iter c)) as [old|] eqn:E.
  - destruct (lru_push_old c k v old E) as [Hi Hr]. rewrite Ep in Hi, Hr. cbn in *. unfold entries.
    rewrite Hi, front_entries, Hr. split; [done|]. by rewrite decide_True by done.
  - destruct (lru_push_new c k v E) as [Hi Hr]; [unfold lru_full; rewrite Hcap; tauto|]. rewrite Ep in Hi, Hr. cbn in *.
    unfold entries. by rewrite Hi, Hr.
Qed.
(** Setting a key in a bounded cache may drop another entry. *)
Lemma entries_set c k v : lru_cap c <> Some 0%nat ->
  entries (Cache_set c k v).1 !! k = Some v /\ entries (Cache_set c k v).1 ⊆ <[k := v]> (entries c).
Proof.
  intros Hcap. unfold Cache_set. destruct (lru_push c k v) as [c' ev] eqn:Ep. cbn.
  destruct (assoc_find k (lru_iter c)) as [old|] eqn:E.
  - destruct (lru_push_old c k v old E) as [Hi _]. rewrite Ep in Hi. cbn in *. unfold entries.
    rewrite Hi, front_entries. split; [apply lookup_insert_eq|done].
  - destruct (decide (lru_full c)) as [Hf|Hf].
    + destruct (exists_last (l := lru_iter c)) as (l & e & El).
      { intros En. unfold lru_full in Hf. rewrite En in Hf. destruct (lru_cap c) as [[|n]|]; cbn in *; [done|lia|done]. }
      destruct (lru_push_evict c k v l e E Hf El) as [Hi _]. rewrite Ep in Hi. cbn in *. unfold entries.
      rewrite Hi. cbn. split; [apply lookup_insert_eq|]. apply insert_mono. rewrite El.
      pose proof (lru_iter_nodup c) as Hnd. rewrite El, fmap_app in Hnd.
      rewrite list_to_map_app. apply map_union_subseteq_l.
    + destruct (lru_push_new c k v E Hf) as [Hi _]. rewrite Ep in Hi. cbn in *. unfold entries. rewrite Hi. cbn.
      split; [apply lookup_insert_eq|done].
Qed.
Lemma cap_set c k v : lru_cap (Cache_set c k v).1 = lru_cap c.
Proof. unfold Cache_set. pose proof (lru_cap_push c k v) as E. by destruct (lru_push c k v). Qed.
Lemma cap_remove c k : lru_cap (Cache_remove c k).1 = lru_cap c.
Proof. apply lru_cap_pop_entry. Qed.
Lemma cap_promote c k : lru_cap (Cache_promote c k).1 = lru_cap c.
Proof. apply lru_cap_promote. Qed.
Lemma cap_clear c : lru_cap (Cache_clear c) = lru_cap c.
Proof. apply lru_cap_clear. Qed.
Lemma cap_peek_mut c k v put v' : Cache_peek_mut c k = Some (v, put) -> lru_cap (put v') = lru_cap c.
Proof. apply lru_cap_peek_mut. Qed.
Lemma cap_update_in_place c k v c' : Cache_update_in_place c k v = Ok c' -> lru_cap c' = lru_cap c.
Proof. unfold Cache_update_in_place, assert_that. destruct (lru_contains c k); [|done]. intros [= <-]. apply lru_cap_put. Qed.
End cache_maps.

#[local] Arguments cache_insert_new_key : simpl never.
#[local] Arguments remove_from_memory : simpl never.

(** ** The store a back end stands for *)
Section store.
Context {D Handle C : Type} `{Features} `{DBLaws D Handle} `{LruCache ArenaHash CacheValue C} `{!LruLaws ArenaHash CacheValue C}.
Context `{HashOrder}.
Abbreviation B := (StorageBackend D Handle C).
Implicit Types (b : B) (k : ArenaHash) (o : OnDiskObject) (delta : Delta).

Definition writes b : gmap ArenaHash CacheValue := entries (write_cache b).
Definition reads b : gmap ArenaHash CacheValue := entries (read_cache b).
Definition stored b : gmap ArenaHash OnDiskObject := db_nodes (database b).

(** An object with a delta added to its reference count, where it has one. *)
Definition bump delta o : OnDiskObject :=
  if layout_v2 then o
  else {| od_data := od_data o; ref_count := ref_count o + ref_delta delta; od_children := od_children o |}.
Definition value_obj (w : option CacheValue) (d : option OnDiskObject) : option OnDiskObject :=
  match w with
  | None => d
  | Some (CVUpdate delta) => bump delta <$> d
  | Some v => get_obj v
  end.
Definition objects b : gmap ArenaHash OnDiskObject := merge value_obj (writes b) (stored b).
Definition root_count b k : Z := default 0 (db_roots (database b) !! k) + mem_root_delta (writes b !! k).

(** ** Coherence of the caches *)
Definition nontrivial delta : Prop := ref_delta delta <> 0 \/ root_delta delta <> 0.
(** A new object with [n] references: not stored, or, without reference counts,
    equal to the stored one. *)
Definition fresh (d : option OnDiskObject) o (n : Z) : Prop :=
  if layout_v2 then ref_count o = 0 /\ forall o', d = Some o' -> o' = o
  else d = None /\ ref_count o = n.
Definition entry_ok (live : gset ArenaHash) k (v : CacheValue) (d : option OnDiskObject) : Prop :=
  match v with
  | CVRead _ | CVDummy => False
  | CVUpdate delta => nontrivial delta /\ (layout_v2 = false -> is_Some d)
  | CVReadAndUpdate delta o => nontrivial delta /\ exists o0, d = Some o0 /\ o = bump delta o0
  | CVCreate o => fresh d o 0 /\ k ∈ live
  | CVCreateAndUpdate o delta => nontrivial delta /\ fresh d o (ref_delta delta) /\ k ∈ live
  | CVCreateAndDelete o delta => nontrivial delta /\ fresh d o (ref_delta delta)
  end.
Record coherent b : Prop := {
  co_write_cap : lru_cap (write_cache b) = None;
  co_read_cap : lru_cap (read_cache b) <> Some 0%nat;
  co_read k v : reads b !! k = Some v -> writes b !! k = None /\ exists o, v = CVRead o /\ stored b !! k = Some o;
  co_write k v : writes b !! k = Some v -> entry_ok (live_inserts b) k v (stored b !! k) }.

(** Nothing but the caches changes. *)
Definition frame b b' : Prop :=
  database b' = database b /\ cache_size b' = cache_size b /\ live_inserts b' = live_inserts b /\
  stats b' = stats b /\ gc_state b' = gc_state b.
Lemma same_frame_refl b : frame b b.
Proof. done. Qed.
Lemma same_frame_trans b1 b2 b3 : frame b1 b2 -> frame b2 b3 -> frame b1 b3.
Proof. unfold frame. intuition congruence. Qed.
Lemma frame_stored b b' : frame b b' -> stored b' = stored b.
Proof. intros (E & _). unfold stored. by rewrite E. Qed.
Lemma frame_caches b read write : frame b (with_caches b read write).
Proof. done. Qed.

Lemma objects_lookup b k : objects b !! k = value_obj (writes b !! k) (stored b !! k).
Proof. unfold objects. rewrite lookup_merge. by destruct (writes b !! k) as [[]|], (stored b !! k). Qed.

(** *** Looking up *)
Lemma peek_spec b k :
  peek_from_memory b k = match writes b !! k with Some v => Some v | None => reads b !! k end.
Proof. unfold peek_from_memory. by rewrite !Cache_peek_entries. Qed.

Lemma peek_obj b k : coherent b ->
  forall o, peek_from_memory b k ≫= get_obj = Some o -> objects b !! k = Some o.
Proof.
  intros Hco o. rewrite peek_spec, objects_lookup. destruct (writes b !! k) as [v|] eqn:Ew.
  - by destruct v.
  - cbn. destruct (reads b !! k) as [v|] eqn:Er; [|done].
    destruct (co_read _ Hco _ _ Er) as (_ & o' & -> & Hd). cbn. congruence.
Qed.
Lemma peek_no_obj b k : coherent b -> peek_from_memory b k ≫= get_obj = None ->
  reads b !! k = None /\ (writes b !! k = None \/ exists delta, writes b !! k = Some (CVUpdate delta)).
Proof.
  intros Hco. rewrite peek_spec. destruct (writes b !! k) as [v|] eqn:Ew.
  - intros Hn. split.
    + destruct (reads b !! k) as [v'|] eqn:Er; [|done]. apply co_read in Er as [? _]; [|done]. congruence.
    + right. pose proof (co_write _ Hco _ _ Ew) as He. destruct v; cbn in *; try done. eauto.
  - destruct (reads b !! k) as [v|] eqn:Er; [|auto]. apply co_read in Er as (_ & o & -> & _); done.
Qed.

(** *** Moving entries *)
Lemma insert_pending b k v : lru_cap (write_cache b) = None -> is_pending v = true ->
  exists b', cache_insert_new_key b k v = Ok b' /\ frame b b' /\
    writes b' = <[k := v]> (writes b) /\ reads b' = reads b /\
    lru_cap (write_cache b') = lru_cap (write_cache b) /\ lru_cap (read_cache b') = lru_cap (read_cache b).
Proof.
  intros Hco Hp. unfold cache_insert_new_key. rewrite Hp.
  destruct (entries_set_unbounded (write_cache b) k v Hco) as [Hw Hn].
  pose proof (cap_set (write_cache b) k v) as Hcap.
  destruct (Cache_set (write_cache b) k v) as [c ev]. cbn in *. subst ev. eexists. split; [done|].
  split_and!; try done.
Qed.
Lemma insert_read b k o : lru_cap (read_cache b) <> Some 0%nat ->
  exists b', cache_insert_new_key b k (CVRead o) = Ok b' /\ frame b b' /\
    writes b' = writes b /\ reads b' !! k = Some (CVRead o) /\ reads b' ⊆ <[k := CVRead o]> (reads b) /\
    lru_cap (write_cache b') = lru_cap (write_cache b) /\ lru_cap (read_cache b') = lru_cap (read_cache b).
Proof.
  intros Hco. unfold cache_insert_new_key. cbn.
  destruct (entries_set (read_cache b) k (CVRead o) Hco) as [Hk Hs].
  pose proof (cap_set (read_cache b) k (CVRead o)) as Hcap.
  eexists. split; [done|]. split_and!; done.
Qed.
Lemma remove_memory_spec b k v : peek_from_memory b k = Some v -> (writes b !! k = None \/ reads b !! k = None) ->
  exists b', remove_from_memory b k = Ok (b', v) /\ frame b b' /\
    writes b' = delete k (writes b) /\ reads b' = delete k (reads b) /\
    lru_cap (write_cache b') = lru_cap (write_cache b) /\ lru_cap (read_cache b') = lru_cap (read_cache b).
Proof.
  rewrite peek_spec. intros Hv Hd. unfold remove_from_memory.
  pose proof (entries_remove (write_cache b) k) as Hw. pose proof (Cache_remove_ret (write_cache b) k) as Hwr.
  pose proof (cap_remove (write_cache b) k) as Hwc. fold (writes b) in Hw, Hwr.
  destruct (Cache_remove (write_cache b) k) as [cw rw]. cbn in *. subst rw.
  destruct (writes b !! k) as [v'|] eqn:Ew; cbn.
  - injection Hv as <-. eexists. split; [done|]. destruct Hd as [?|Hd]; [done|].
    split_and!; try done. symmetry. by apply delete_id.
  - pose proof (entries_remove (read_cache b) k) as Hr. pose proof (Cache_remove_ret (read_cache b) k) as Hrr.
    pose proof (cap_remove (read_cache b) k) as Hrc. fold (reads b) in Hr, Hrr.
    destruct (Cache_remove (read_cache b) k) as [cr rr]. cbn in *. subst rr. rewrite Hv. cbn.
    eexists. split; [done|]. split_and!; done.
Qed.
Lemma promote_spec b k : frame b (promote b k) /\ writes (promote b k) = writes b /\ reads (promote b k) = reads b /\
  lru_cap (write_cache (promote b k)) = lru_cap (write_cache b) /\
  lru_cap (read_cache (promote b k)) = lru_cap (read_cache b).
Proof.
  unfold promote. pose proof (entries_promote (write_cache b) k) as Hw. pose proof (cap_promote (write_cache b) k) as Hc.
  destruct (Cache_promote (write_cache b) k) as [cw p]. cbn in *.
  destruct p; (split_and!; try done); unfold reads; cbn; [apply entries_promote|apply cap_promote].
Qed.

(** *** Coherence after a change of one entry *)
Record changes b b' (w r : gmap ArenaHash CacheValue) : Prop := {
  ch_frame : frame b b';
  ch_write : writes b' = w;
  ch_read : reads b' ⊆ r;
  ch_write_cap : lru_cap (write_cache b') = lru_cap (write_cache b);
  ch_read_cap : lru_cap (read_cache b') = lru_cap (read_cache b) }.

Lemma coherent_put b b' k v : coherent b ->
  changes b b' (<[k := v]> (writes b)) (delete k (reads b)) ->
  entry_ok (live_inserts b) k v (stored b !! k) -> coherent b'.
Proof.
  intros [Hc1 Hc2 Hr Hw] [Hf Ew Er Ec1 Ec2] He. pose proof (frame_stored _ _ Hf) as Hs.
  destruct Hf as (_ & _ & Hl & _). split; try congruence.
  - intros j u Hj. eapply lookup_weaken in Hj; [|exact Er]. apply lookup_delete_Some in Hj as [Hne Hj].
    rewrite Ew, Hs, lookup_insert_ne by done. eauto.
  - intros j u. rewrite Ew, Hs, Hl. destruct (decide (j = k)) as [->|].
    + rewrite lookup_insert_eq. by intros [= <-].
    + rewrite lookup_insert_ne by done. apply Hw.
Qed.
Lemma coherent_drop b b' k (r : gmap ArenaHash CacheValue) : coherent b ->
  changes b b' (delete k (writes b)) r ->
  (forall j v, j <> k -> r !! j = Some v -> reads b !! j = Some v) ->
  (forall v, r !! k = Some v -> exists o, v = CVRead o /\ stored b !! k = Some o) -> coherent b'.
Proof.
  intros [Hc1 Hc2 Hr Hw] [Hf Ew Er Ec1 Ec2] Hother Hk. pose proof (frame_stored _ _ Hf) as Hs.
  destruct Hf as (_ & _ & Hl & _). split; try congruence.
  - intros j u Hj. eapply lookup_weaken in Hj; [|exact Er]. rewrite Ew, Hs. destruct (decide (j = k)) as [->|].
    + split; [apply lookup_delete_eq|]. eauto.
    + rewrite lookup_delete_ne by done. apply Hr. eauto.
  - intros j u. rewrite Ew, Hs, Hl. intros [_ Hj]%lookup_delete_Some. eauto.
Qed.

Lemma objects_put b b' k v : frame b b' -> writes b' = <[k := v]> (writes b) ->
  objects b' = partial_alter (fun _ => value_obj (Some v) (stored b !! k)) k (objects b).
Proof.
  intros Hf Ew. apply map_eq. intros j. rewrite objects_lookup, Ew, (frame_stored _ _ Hf).
  destruct (decide (j = k)) as [->|].
  - by rewrite lookup_insert_eq, lookup_partial_alter_eq.
  - by rewrite lookup_insert_ne, lookup_partial_alter_ne, objects_lookup by done.
Qed.
Lemma objects_drop b b' k : frame b b' -> writes b' = delete k (writes b) ->
  objects b' = partial_alter (fun _ => stored b !! k) k (objects b).
Proof.
  intros Hf Ew. apply map_eq. intros j. rewrite objects_lookup, Ew, (frame_stored _ _ Hf).
  destruct (decide (j = k)) as [->|].
  - by rewrite lookup_delete_eq, lookup_partial_alter_eq.
  - by rewrite lookup_delete_ne, lookup_partial_alter_ne, objects_lookup by done.
Qed.
Lemma partial_alter_same {A} (m : gmap ArenaHash A) k x : m !! k = x -> partial_alter (fun _ => x) k m = m.
Proof. intros <-. apply partial_alter_self. Qed.

(** ** Reading *)

(** Reference counts are in the range of their type. *)
Definition in_range b : Prop :=
  layout_v2 = false -> forall k o, objects b !! k = Some o -> is_u64 (ref_count o).
(** Two back ends stand for the same store. *)
Definition same_store b b' : Prop :=
  objects b' = objects b /\ (forall k, root_count b' k = root_count b k) /\ live_inserts b' = live_inserts b.
Lemma same_store_refl b : same_store b b.
Proof. done. Qed.
Lemma same_store_trans b1 b2 b3 : same_store b1 b2 -> same_store b2 b3 -> same_store b1 b3.
Proof. intros (E1 & E2 & E3) (F1 & F2 & F3). split_and!; try congruence. Qed.

Lemma count_delta_spec o delta : (layout_v2 = false -> is_u64 (ref_count o + ref_delta delta)) ->
  count_delta o delta = Ok (bump delta o).
Proof.
  unfold count_delta, bump, apply_delta. destruct layout_v2; [done|]. intros Hr. destruct (Hr eq_refl).
  rewrite (proj2 (Z.leb_le _ _)), (proj2 (Z.leb_le _ _)) by lia. done.
Qed.
Lemma in_range_update b k delta o : in_range b -> writes b !! k = Some (CVUpdate delta) -> stored b !! k = Some o ->
  count_delta o delta = Ok (bump delta o).
Proof.
  intros Hr Hw Hd. apply count_delta_spec. intros El. specialize (Hr El k). rewrite objects_lookup, Hw, Hd in Hr.
  cbn in Hr. specialize (Hr _ eq_refl). unfold bump in Hr. rewrite El in Hr. done.
Qed.

Lemma root_count_put b b' k v : frame b b' -> writes b' = <[k := v]> (writes b) ->
  mem_root_delta (Some v) = mem_root_delta (writes b !! k) -> forall j, root_count b' j = root_count b j.
Proof.
  intros (Hd & _) Ew Em j. unfold root_count. rewrite Hd, Ew. destruct (decide (j = k)) as [->|].
  - by rewrite lookup_insert_eq, Em.
  - by rewrite lookup_insert_ne by done.
Qed.
Lemma root_count_same b b' : database b' = database b -> writes b' = writes b -> forall j, root_count b' j = root_count b j.
Proof. intros Hd Hw j. unfold root_count. by rewrite Hd, Hw. Qed.

Lemma disjoint_at b k : coherent b -> writes b !! k = None \/ reads b !! k = None.
Proof.
  intros Hco. destruct (reads b !! k) as [v|] eqn:Er; [|auto]. apply co_read in Er as [? _]; auto.
Qed.

(** Taking an entry out and putting a pending one in. *)
Lemma replace_pending b k v v' : coherent b -> peek_from_memory b k = Some v -> is_pending v' = true ->
  entry_ok (live_inserts b) k v' (stored b !! k) ->
  exists b1 b2, remove_from_memory b k = Ok (b1, v) /\ cache_insert_new_key b1 k v' = Ok b2 /\
    changes b b2 (<[k := v']> (writes b)) (delete k (reads b)) /\ coherent b2.
Proof.
  intros Hco Hv Hp He. destruct (remove_memory_spec b k v Hv (disjoint_at b k Hco)) as (b1 & E1 & Hf1 & Hw1 & Hr1 & Hc1 & Hd1).
  destruct (insert_pending b1 k v') as (b2 & E2 & Hf2 & Hw2 & Hr2 & Hc2 & Hd2);
    [by rewrite Hc1, (co_write_cap _ Hco)|done|].
  assert (changes b b2 (<[k := v']> (writes b)) (delete k (reads b))) as Hch.
  { split; [by eapply same_frame_trans|by rewrite Hw2, Hw1, insert_delete_eq|by rewrite Hr2, Hr1|congruence..]. }
  exists b1, b2. split_and!; [done..|]. by eapply coherent_put.
Qed.
(** Taking an entry out and putting the stored object in the read cache. *)
Lemma replace_read b k v o : coherent b -> peek_from_memory b k = Some v -> stored b !! k = Some o ->
  exists b1 b2, remove_from_memory b k = Ok (b1, v) /\ cache_insert_new_key b1 k (CVRead o) = Ok b2 /\
    changes b b2 (delete k (writes b)) (<[k := CVRead o]> (reads b)) /\ coherent b2 /\ reads b2 !! k = Some (CVRead o).
Proof.
  intros Hco Hv Hd. destruct (remove_memory_spec b k v Hv (disjoint_at b k Hco)) as (b1 & E1 & Hf1 & Hw1 & Hr1 & Hc1 & Hd1).
  destruct (insert_read b1 k o) as (b2 & E2 & Hf2 & Hw2 & Hk2 & Hr2 & Hc2 & Hd2);
    [rewrite Hd1; apply (co_read_cap _ Hco)|].
  assert (changes b b2 (delete k (writes b)) (<[k := CVRead o]> (reads b))) as Hch.
  { split; [by eapply same_frame_trans|congruence| |congruence..]. rewrite Hr1, insert_delete_eq in Hr2. done. }
  exists b1, b2. split_and!; [done..| |done]. eapply coherent_drop; [done..| |].
  - intros j u Hne. by rewrite lookup_insert_ne.
  - intros u. rewrite lookup_insert_eq. intros [= <-]. eauto.
Qed.
Lemma insert_stored b k o : coherent b -> writes b !! k = None -> stored b !! k = Some o ->
  exists b', cache_insert_new_key b k (CVRead o) = Ok b' /\
    changes b b' (writes b) (<[k := CVRead o]> (reads b)) /\ coherent b' /\ reads b' !! k = Some (CVRead o).
Proof.
  intros Hco Hw Hd. destruct (insert_read b k o (co_read_cap _ Hco)) as (b' & E & Hf & Hw' & Hk & Hr & Hc & Hc').
  assert (changes b b' (writes b) (<[k := CVRead o]> (reads b))) as Hch by done.
  exists b'. split_and!; [done..| |done]. eapply (coherent_drop b b' k); [done| | |].
  - by rewrite delete_id.
  - intros j u Hne. by rewrite lookup_insert_ne.
  - intros u. rewrite lookup_insert_eq. intros [= <-]. eauto.
Qed.

Lemma same_store_caches b b' : frame b b' -> writes b' = writes b -> same_store b b'.
Proof.
  intros Hf Hw. pose proof Hf as (Hd & _ & Hl & _). split_and!; [|by apply root_count_same|done].
  apply map_eq. intros j. by rewrite !objects_lookup, Hw, (frame_stored _ _ Hf).
Qed.

Lemma coherent_stats b s : coherent b -> coherent (with_stats b s).
Proof. intros [? ? ? ?]. by split. Qed.
Lemma coherent_live b live : coherent b -> live_inserts b ⊆ live -> coherent (with_live b live).
Proof.
  intros [Hc1 Hc2 Hr Hw] Hl. split; [done..|]. intros k v Hv. specialize (Hw k v Hv). cbn.
  destruct v; cbn in *; intuition auto.
Qed.

(** A step that keeps the store and the database. *)
Record keeps b b' : Prop := {
  keeps_coherent : coherent b';
  keeps_store : same_store b b';
  keeps_database : database b' = database b;
  keeps_gc : gc_state b' = gc_state b;
  keeps_size : cache_size b' = cache_size b }.
Lemma keeps_trans b1 b2 b3 : keeps b1 b2 -> keeps b2 b3 -> keeps b1 b3.
Proof. intros [] []. split; try congruence. by eapply same_store_trans. Qed.
Lemma keeps_stats b s : coherent b -> keeps b (with_stats b s).
Proof. intros Hco. split; [by apply coherent_stats|done..]. Qed.
Lemma keeps_changes b b' w r : changes b b' w r -> w = writes b -> coherent b' -> keeps b b'.
Proof.
  intros Hch -> Hco. pose proof (ch_frame _ _ _ _ Hch) as Hf. pose proof Hf as (Hd & Hs & Hl & _ & Hg).
  split; try done. apply same_store_caches; [done|]. apply Hch.
Qed.

(** An object in memory moves to the front. *)
Lemma get_hit b k v o : coherent b -> peek_from_memory b k = Some v -> get_obj v = Some o ->
  exists b1 b2, remove_from_memory b k = Ok (b1, v) /\ cache_insert_new_key b1 k v = Ok b2 /\
    keeps b b2 /\ peek_from_memory b2 k = Some v.
Proof.
  intros Hco Ev Ho. pose proof Ev as Ev'. rewrite peek_spec in Ev'. destruct (writes b !! k) as [v'|] eqn:Ew.
  - injection Ev' as ->. pose proof (co_write _ Hco _ _ Ew) as He.
    destruct (replace_pending b k v v) as (b1 & b2 & E1 & E2 & Hch & Hco2); [done|done|by destruct v|done|].
    exists b1, b2. split_and!; [done..| |].
    + eapply keeps_changes; [done|by apply insert_id|done].
    + by rewrite peek_spec, (ch_write _ _ _ _ Hch), lookup_insert_eq.
  - destruct (co_read _ Hco _ _ Ev') as (_ & o' & -> & Hd).
    destruct (replace_read b k (CVRead o') o') as (b1 & b2 & E1 & E2 & Hch & Hco2 & Hk); [done..|].
    exists b1, b2. split_and!; [done..| |].
    + eapply keeps_changes; [done|by apply delete_id|done].
    + by rewrite peek_spec, (ch_write _ _ _ _ Hch), lookup_delete_eq.
Qed.
(** A pending update meets the stored object. *)
Lemma read_update b k delta o : coherent b -> writes b !! k = Some (CVUpdate delta) -> stored b !! k = Some o ->
  exists b1 b2, remove_from_memory b k = Ok (b1, CVUpdate delta) /\
    cache_insert_new_key b1 k (CVReadAndUpdate delta (bump delta o)) = Ok b2 /\ keeps b b2 /\
    writes b2 = <[k := CVReadAndUpdate delta (bump delta o)]> (writes b).
Proof.
  intros Hco Ew Ed. pose proof (co_write _ Hco _ _ Ew) as [Hnt _].
  destruct (replace_pending b k (CVUpdate delta) (CVReadAndUpdate delta (bump delta o)))
    as (b1 & b2 & E1 & E2 & Hch & Hco2); [done|by rewrite peek_spec, Ew|done|split; eauto|].
  pose proof (ch_frame _ _ _ _ Hch) as Hf. pose proof (ch_write _ _ _ _ Hch) as Hw. pose proof Hf as (Hd & Hs & Hl & _ & Hg).
  exists b1, b2. split_and!; [done..| |done]. split; try done. split_and!; [| |done].
  - rewrite (objects_put b b2 k _ Hf Hw). apply partial_alter_same. by rewrite objects_lookup, Ew, Ed.
  - apply (root_count_put b b2 k _ Hf Hw). by rewrite Ew.
Qed.
(** An object that is not in memory is read from the database. *)
Lemma get_miss b k : coherent b -> in_range b -> peek_from_memory b k ≫= get_obj = None ->
  exists b', keeps b b' /\ peek_from_memory b' k ≫= get_obj = objects b !! k /\
    match stored b !! k with
    | Some obj =>
        '(self, cache_value) ← match peek_from_memory b k with
                               | Some (CVUpdate delta) =>
                                   '(self, _) ← remove_from_memory b k;
                                   obj ← count_delta obj delta;
                                   Ok (self, CVReadAndUpdate delta obj)
                               | _ => Ok (b, CVRead obj)
                               end;
        cache_insert_new_key self k cache_value
    | None => Ok b
    end = Ok b'.
Proof.
  intros Hco Hran Ep. destruct (peek_no_obj b k Hco Ep) as [Er [Ew|[delta Ew]]];
    rewrite objects_lookup; rewrite (peek_spec b), Ew in *; cbn; destruct (stored b !! k) as [o|] eqn:Ed.
  - rewrite Er. destruct (insert_stored b k o Hco Ew Ed) as (b' & E & Hch & Hco' & Hk).
    exists b'. split_and!; [by eapply keeps_changes| |done].
    by rewrite peek_spec, (ch_write _ _ _ _ Hch), Ew, Hk.
  - exists b. rewrite peek_spec, Ew, Er. done.
  - destruct (read_update b k delta o Hco Ew Ed) as (b1 & b2 & E1 & E2 & Hk & Hw).
    rewrite E1. cbn. rewrite (in_range_update b k delta o Hran Ew Ed). exists b2.
    split_and!; [done| |done]. by rewrite peek_spec, Hw, lookup_insert_eq.
  - exists b. rewrite peek_spec, Ew. done.
Qed.

(** [get] returns the object of the store, and keeps the store. *)
Lemma get_spec b k : coherent b -> in_range b ->
  exists b', get b k = Ok (b', objects b !! k) /\ keeps b b'.
Proof.
  intros Hco Hran. unfold get. destruct (peek_from_memory b k ≫= get_obj) as [o|] eqn:Ep.
  - rewrite (peek_obj b k Hco o Ep). destruct (peek_from_memory b k) as [v|] eqn:Ev; [|done]. cbn in Ep.
    destruct (get_hit (count_hit b) k v o) as (b1 & b2 & -> & E2 & Hk & Hp); [by apply coherent_stats|done..|]. cbn.
    replace (match v with CVUpdate _ => Panic | _ => Ok v end) with (Ok (E := Empty_set) v) by (by destruct v). cbn.
    rewrite E2. cbn. rewrite Hp. cbn. rewrite Ep. exists b2. split; [done|]. eapply keeps_trans, Hk. by apply keeps_stats.
  - cbn zeta. destruct (get_miss (count_miss b) k) as (b' & Hk & Hp & E); [by apply coherent_stats|done..|].
    change (database (count_miss b)) with (database b) in *. rewrite get_node_spec. fold (stored b).
    change (stored (count_miss b)) with (stored b) in E. rewrite E. cbn. exists b'. rewrite Hp. split; [done|].
    eapply keeps_trans, Hk. by apply keeps_stats.
Qed.
End store.

(** ** Changing counts *)
Section counts.
Context {D Handle C : Type} `{Features} `{DBLaws D Handle} `{LruCache ArenaHash CacheValue C} `{!LruLaws ArenaHash CacheValue C}.
Abbreviation B := (StorageBackend D Handle C).
Implicit Types (b : B) (k : ArenaHash) (o : OnDiskObject) (delta : Delta).

Definition no_delta : Delta := {| ref_delta := 0; root_delta := 0 |}.
Definition plus (d1 d2 : Delta) : Delta :=
  {| ref_delta := ref_delta d1 + ref_delta d2; root_delta := root_delta d1 + root_delta d2 |}.
(** The pending delta of an entry of the write cache. *)
Definition pending (w : option CacheValue) : Delta :=
  match w with
  | Some (CVUpdate delta) | Some (CVReadAndUpdate delta _) | Some (CVCreateAndUpdate _ delta)
  | Some (CVCreateAndDelete _ delta) => delta
  | _ => no_delta
  end.
(** The references of an object that the write cache creates. *)
Definition new_refs (v : CacheValue) : list ArenaHash :=
  match v with
  | CVCreate o | CVCreateAndUpdate o _ | CVCreateAndDelete o _ => flat_refs (od_children o)
  | _ => []
  end.
Definition in_i32 (x : Z) : Prop := - 2 ^ 31 <= x < 2 ^ 31.
Definition no_wrap delta (w : option CacheValue) : Prop :=
  in_i32 (ref_delta (plus delta (pending w))) /\ in_i32 (root_delta (plus delta (pending w))).

Lemma wrap_i32_id x : in_i32 x -> wrap_i32 x = x.
Proof. unfold in_i32, wrap_i32. intros Hx. rewrite Z.mod_small; lia. Qed.
Lemma mem_root_pending w : mem_root_delta w = root_delta (pending w).
Proof. by destruct w as [[]|]. Qed.
Lemma combine_spec delta old : in_i32 (ref_delta (plus delta old)) -> in_i32 (root_delta (plus delta old)) ->
  (combine delta old = None /\ plus delta old = no_delta) \/
  (combine delta old = Some (plus delta old) /\ nontrivial (plus delta old)).
Proof.
  unfold combine, plus, nontrivial, no_delta. cbn. intros Hi1 Hi2. rewrite !wrap_i32_id by done.
  destruct (Z.eqb_spec (ref_delta delta + ref_delta old) 0) as [E1|E1],
    (Z.eqb_spec (root_delta delta + root_delta old) 0) as [E2|E2]; cbn; auto.
  left. split; [done|]. by rewrite E1, E2.
Qed.
Lemma bump_bump delta old o : bump delta (bump old o) = bump (plus delta old) o.
Proof. unfold bump. destruct layout_v2; [done|]. cbn. f_equal. lia. Qed.
Lemma bump_no_delta o : bump no_delta o = o.
Proof. unfold bump. destruct layout_v2; [done|]. destruct o; cbn. f_equal. lia. Qed.
Lemma fresh_bump d o n delta : fresh d o n -> fresh d (bump delta o) (ref_delta delta + n).
Proof. unfold fresh, bump. destruct layout_v2; [done|]. cbn. intros [-> ->]. split; [done|lia]. Qed.
Lemma bump_children delta o : od_children (bump delta o) = od_children o.
Proof. unfold bump. by destruct layout_v2. Qed.

Definition has_room delta (x : option OnDiskObject) : Prop :=
  layout_v2 = false -> forall o, x = Some o -> is_u64 (ref_count o + ref_delta delta).
Lemma count_delta_room o delta : has_room delta (Some o) -> count_delta o delta = Ok (bump delta o).
Proof. intros Hr. apply count_delta_spec. intros El. by apply Hr. Qed.

(** What [count_action] does to an entry of the write cache. *)
Lemma count_action_spec live k v d delta :
  entry_ok live k v d -> nontrivial delta -> no_wrap delta (Some v) -> has_room delta (value_obj (Some v) d) ->
  exists act, count_action v delta = Ok act /\
    match act with
    | Replace v' =>
        (is_pending v' = true /\ entry_ok live k v' d /\ value_obj (Some v') d = bump delta <$> value_obj (Some v) d /\
         pending (Some v') = plus delta (pending (Some v)) /\ new_refs v' = new_refs v /\
         (is_create_and_delete v' = true -> is_create_and_delete v = true)) \/
        (exists o, v' = CVRead o /\ d = Some o /\ d = bump delta <$> value_obj (Some v) d /\
           no_delta = plus delta (pending (Some v)) /\ is_pending v = true /\ new_refs v = [])
    | Remove => d = bump delta <$> value_obj (Some v) d /\ no_delta = plus delta (pending (Some v)) /\ new_refs v = []
    | RemoveWithChildren o =>
        exists o0 old, v = CVCreateAndDelete o0 old /\ o = bump delta o0 /\ no_delta = plus delta (pending (Some v))
    end.
Proof.
  intros He Hnt [Hw1 Hw2] Hroom. destruct v as [o|old|old o|o|o old|o old|]; cbn -[plus] in *; try done.
  - destruct He as [_ Hd]. destruct (combine_spec delta old Hw1 Hw2) as [[-> Ez]|[-> Hn]];
      (eexists; split; [done|]); cbn -[plus].
    + split; [|done]. destruct d as [o|]; cbn; [|done]. by rewrite bump_bump, Ez, bump_no_delta.
    + left. split_and!; cbn [new_refs]; rewrite ?bump_children; try done. destruct d as [o|]; cbn; [|done]. by rewrite bump_bump.
  - destruct He as (_ & o0 & -> & ->). rewrite count_delta_room by done. cbn.
    destruct (combine_spec delta old Hw1 Hw2) as [[-> Ez]|[-> Hn]]; (eexists; split; [done|]); cbn -[plus];
      rewrite bump_bump.
    + right. exists o0. by rewrite Ez, bump_no_delta.
    + left. split_and!; cbn [new_refs]; rewrite ?bump_children; try done. eauto.
  - destruct He as [Hf Hl]. rewrite count_delta_room by done. cbn. eexists. split; [done|]. left.
    apply (fresh_bump _ _ _ delta) in Hf. replace (ref_delta delta + 0) with (ref_delta delta) in Hf by lia.
    split_and!; cbn [new_refs]; rewrite ?bump_children; try done. destruct delta; unfold plus; cbn. f_equal; lia.
  - destruct He as (_ & Hf & Hl). rewrite count_delta_room by done. cbn. apply (fresh_bump _ _ _ delta) in Hf.
    destruct (combine_spec delta old Hw1 Hw2) as [[-> Ez]|[-> Hn]]; (eexists; split; [done|]); cbn -[plus]; left.
    + pose proof (f_equal ref_delta Ez) as E1. cbn in E1. rewrite E1 in Hf. split_and!; cbn [new_refs]; rewrite ?bump_children; done.
    + split_and!; cbn [new_refs]; rewrite ?bump_children; done.
  - destruct He as (_ & Hf). rewrite count_delta_room by done. cbn. apply (fresh_bump _ _ _ delta) in Hf.
    destruct (combine_spec delta old Hw1 Hw2) as [[-> Ez]|[-> Hn]]; (eexists; split; [done|]); cbn -[plus].
    + eauto.
    + left. split_and!; cbn [new_refs]; rewrite ?bump_children; done.
Qed.

Lemma peek_mut_Some b k v put : peek_mut_from_memory b k = Some (v, put) ->
  peek_from_memory b k = Some v /\
  forall v', frame b (put v') /\
    lru_cap (write_cache (put v')) = lru_cap (write_cache b) /\ lru_cap (read_cache (put v')) = lru_cap (read_cache b) /\
    match writes b !! k with
    | Some _ => writes (put v') = <[k := v']> (writes b) /\ reads (put v') = reads b
    | None => writes (put v') = writes b /\ reads (put v') = <[k := v']> (reads b)
    end.
Proof.
  unfold peek_mut_from_memory. rewrite peek_spec. destruct (Cache_peek_mut (write_cache b) k) as [[v1 put1]|] eqn:E1.
  - intros [= <- <-]. destruct (entries_peek_mut _ _ _ _ CVDummy E1) as [Hk _]. fold (writes b) in Hk. rewrite Hk.
    split; [done|]. intros v'. split_and!; try done.
    + cbn. by apply (cap_peek_mut _ _ _ _ v') in E1.
    + unfold writes. cbn. by apply (entries_peek_mut _ _ _ _ v') in E1 as [_ ?].
  - apply Cache_peek_mut_None in E1. fold (writes b) in E1. rewrite E1.
    destruct (Cache_peek_mut (read_cache b) k) as [[v2 put2]|] eqn:E2; [|done]. intros [= <- <-].
    destruct (entries_peek_mut _ _ _ _ CVDummy E2) as [Hk _]. fold (reads b) in Hk.
    split; [done|]. intros v'. split_and!; try done.
    + cbn. by apply (cap_peek_mut _ _ _ _ v') in E2.
    + unfold reads. cbn. by apply (entries_peek_mut _ _ _ _ v') in E2 as [_ ?].
Qed.
Lemma peek_mut_None b k : peek_mut_from_memory b k = None -> writes b !! k = None /\ reads b !! k = None.
Proof.
  unfold peek_mut_from_memory. destruct (Cache_peek_mut (write_cache b) k) as [[v1 put1]|] eqn:E1; [done|].
  destruct (Cache_peek_mut (read_cache b) k) as [[v2 put2]|] eqn:E2; [done|]. intros _.
  by apply Cache_peek_mut_None in E1, E2.
Qed.

(** The entry of [k] becomes [v]; the others stay. *)
Record updated b b' k delta : Prop := {
  up_coherent : coherent b';
  up_frame : frame b b';
  up_objects : objects b' = alter (bump delta) k (objects b);
  up_others j : j <> k -> writes b' !! j = writes b !! j;
  up_pending : pending (writes b' !! k) = plus delta (pending (writes b !! k));
  up_new : from_option new_refs [] (writes b' !! k) = from_option new_refs [] (writes b !! k);
  up_deleted : from_option is_create_and_delete false (writes b' !! k) = true ->
               from_option is_create_and_delete false (writes b !! k) = true }.

Lemma updated_put b b' k delta v : coherent b ->
  changes b b' (<[k := v]> (writes b)) (delete k (reads b)) -> entry_ok (live_inserts b) k v (stored b !! k) ->
  value_obj (Some v) (stored b !! k) = bump delta <$> objects b !! k ->
  pending (Some v) = plus delta (pending (writes b !! k)) ->
  new_refs v = from_option new_refs [] (writes b !! k) ->
  (is_create_and_delete v = true -> from_option is_create_and_delete false (writes b !! k) = true) ->
  updated b b' k delta.
Proof.
  intros Hco Hch He Hv Hp Hn Hd. pose proof (ch_write _ _ _ _ Hch) as Hw. pose proof (ch_frame _ _ _ _ Hch) as Hf.
  split; try done.
  - by eapply coherent_put.
  - rewrite (objects_put b b' k v Hf Hw), Hv. apply map_eq. intros j. destruct (decide (j = k)) as [->|].
    + by rewrite lookup_partial_alter_eq, lookup_alter_eq.
    + by rewrite lookup_partial_alter_ne, lookup_alter_ne by done.
  - intros j Hj. by rewrite Hw, lookup_insert_ne by done.
  - by rewrite Hw, lookup_insert_eq.
  - by rewrite Hw, lookup_insert_eq.
  - by rewrite Hw, lookup_insert_eq.
Qed.
Lemma updated_drop b b' k delta r : coherent b -> coherent b' -> changes b b' (delete k (writes b)) r ->
  stored b !! k = bump delta <$> objects b !! k -> no_delta = plus delta (pending (writes b !! k)) ->
  from_option new_refs [] (writes b !! k) = [] -> updated b b' k delta.
Proof.
  intros Hco Hco' Hch Hv Hp Hn. pose proof (ch_write _ _ _ _ Hch) as Hw. pose proof (ch_frame _ _ _ _ Hch) as Hf.
  split; try done.
  - rewrite (objects_drop b b' k Hf Hw), Hv. apply map_eq. intros j. destruct (decide (j = k)) as [->|].
    + by rewrite lookup_partial_alter_eq, lookup_alter_eq.
    + by rewrite lookup_partial_alter_ne, lookup_alter_ne by done.
  - intros j Hj. by rewrite Hw, lookup_delete_ne by done.
  - by rewrite Hw, lookup_delete_eq.
  - by rewrite Hw, lookup_delete_eq.
  - by rewrite Hw, lookup_delete_eq.
Qed.

(** An object that is only in memory loses its last reference. *)
Record dropped b b1 k delta o : Prop := {
  dr_entry : exists old, writes b !! k = Some (CVCreateAndDelete o old) /\ no_delta = plus delta old;
  dr_coherent : coherent b1;
  dr_frame : frame b b1;
  dr_writes : writes b1 = delete k (writes b) }.

Lemma remove_dummy b k v put : coherent b -> peek_mut_from_memory b k = Some (v, put) ->
  exists b1, remove_from_memory (put CVDummy) k = Ok (b1, CVDummy) /\
    changes b b1 (delete k (writes b)) (delete k (reads b)) /\ coherent b1.
Proof.
  intros Hco E. destruct (peek_mut_Some b k v put E) as [Hv Hput]. destruct (Hput CVDummy) as (Hf & Hc1 & Hc2 & Hm).
  rewrite peek_spec in Hv. pose proof (disjoint_at b k Hco) as Hdis.
  destruct (remove_memory_spec (put CVDummy) k CVDummy) as (b1 & E1 & Hf1 & Hw1 & Hr1 & Hc3 & Hc4).
  - rewrite peek_spec. destruct (writes b !! k) eqn:Ew; destruct Hm as [Hm1 Hm2]; rewrite ?Hm1, ?Hm2; [by rewrite lookup_insert_eq|].
    by rewrite Ew, lookup_insert_eq.
  - destruct (writes b !! k) eqn:Ew; destruct Hm as [Hm1 Hm2]; rewrite ?Hm1, ?Hm2; [right|left; done]. by destruct Hdis.
  - assert (changes b b1 (delete k (writes b)) (delete k (reads b))) as Hch.
    { split; [by eapply same_frame_trans|rewrite Hw1|rewrite Hr1|congruence|congruence];
        destruct (writes b !! k) eqn:Ew; destruct Hm as [Hm1 Hm2]; rewrite ?Hm1, ?Hm2; by rewrite ?delete_insert_eq. }
    exists b1. split_and!; [done..|]. eapply coherent_drop; [done..| |].
    + intros j u Hne. by rewrite lookup_delete_ne by done.
    + intros u. by rewrite lookup_delete_eq.
Qed.

(** A pending entry is replaced by a pending entry, in place. *)
Lemma put_promote b k v put v' : coherent b -> peek_mut_from_memory b k = Some (v, put) -> is_Some (writes b !! k) ->
  changes b (promote (put v') k) (<[k := v']> (writes b)) (delete k (reads b)).
Proof.
  intros Hco E [v0 Ew]. destruct (peek_mut_Some b k v put E) as [_ Hput]. destruct (Hput v') as (Hf & Hc1 & Hc2 & Hm).
  rewrite Ew in Hm. destruct Hm as [Hw Hr]. destruct (promote_spec (put v') k) as (Hpf & Hpw & Hpr & Hpc1 & Hpc2).
  split; [by eapply same_frame_trans|congruence| |congruence..]. rewrite Hpr, Hr, delete_id; [done|].
  destruct (disjoint_at b k Hco); congruence.
Qed.
(** An entry moves to the other cache. *)
Lemma put_peek b k v put v' : coherent b -> peek_mut_from_memory b k = Some (v, put) ->
  peek_from_memory (put v') k = Some v' /\ (writes (put v') !! k = None \/ reads (put v') !! k = None) /\
  frame b (put v') /\ delete k (writes (put v')) = delete k (writes b) /\ delete k (reads (put v')) = delete k (reads b) /\
  lru_cap (write_cache (put v')) = lru_cap (write_cache b) /\ lru_cap (read_cache (put v')) = lru_cap (read_cache b).
Proof.
  intros Hco E. destruct (peek_mut_Some b k v put E) as [Hv Hput]. destruct (Hput v') as (Hf & Hc1 & Hc2 & Hm).
  pose proof (disjoint_at b k Hco) as Hdis. rewrite peek_spec in *.
  destruct (writes b !! k) eqn:Ew; destruct Hm as [Hm1 Hm2]; rewrite ?Hm1, ?Hm2; rewrite ?lookup_insert_eq, ?Ew, ?delete_insert_eq;
    split_and!; try done; auto. right. by destruct Hdis.
Qed.
Lemma move_to_write b k v put v' : coherent b -> peek_mut_from_memory b k = Some (v, put) -> is_pending v' = true ->
  exists b1 b2, remove_from_memory (put v') k = Ok (b1, v') /\ cache_insert_new_key b1 k v' = Ok b2 /\
    changes b b2 (<[k := v']> (writes b)) (delete k (reads b)).
Proof.
  intros Hco E Hp. destruct (put_peek b k v put v' Hco E) as (Hpk & Hdis & Hf & Hdw & Hdr & Hc1 & Hc2).
  destruct (remove_memory_spec (put v') k v' Hpk Hdis) as (b1 & E1 & Hf1 & Hw1 & Hr1 & Hc3 & Hc4).
  destruct (insert_pending b1 k v') as (b2 & E2 & Hf2 & Hw2 & Hr2 & Hc5 & Hc6); [|done|].
  { rewrite Hc3, Hc1. apply (co_write_cap _ Hco). }
  exists b1, b2. split_and!; [done..|]. split; [by do 2 (eapply same_frame_trans; [done|])| | |congruence..].
  - by rewrite Hw2, Hw1, Hdw, insert_delete_eq.
  - by rewrite Hr2, Hr1, Hdr.
Qed.
Lemma move_to_read b k v put o : coherent b -> peek_mut_from_memory b k = Some (v, put) -> stored b !! k = Some o ->
  exists b1 b2, remove_from_memory (put (CVRead o)) k = Ok (b1, CVRead o) /\ cache_insert_new_key b1 k (CVRead o) = Ok b2 /\
    changes b b2 (delete k (writes b)) (<[k := CVRead o]> (reads b)) /\ coherent b2.
Proof.
  intros Hco E Hd. destruct (put_peek b k v put (CVRead o) Hco E) as (Hpk & Hdis & Hf & Hdw & Hdr & Hc1 & Hc2).
  destruct (remove_memory_spec (put (CVRead o)) k (CVRead o) Hpk Hdis) as (b1 & E1 & Hf1 & Hw1 & Hr1 & Hc3 & Hc4).
  destruct (insert_read b1 k o) as (b2 & E2 & Hf2 & Hw2 & Hk2 & Hr2 & Hc5 & Hc6).
  { rewrite Hc4, Hc2. apply (co_read_cap _ Hco). }
  assert (changes b b2 (delete k (writes b)) (<[k := CVRead o]> (reads b))) as Hch.
  { split; [by do 2 (eapply same_frame_trans; [done|])|congruence| |congruence..].
    by rewrite Hr1, Hdr, insert_delete_eq in Hr2. }
  exists b1, b2. split_and!; [done..|]. eapply coherent_drop; [done..| |].
  - intros j u Hne. by rewrite lookup_insert_ne.
  - intros u. rewrite lookup_insert_eq. intros [= <-]. eauto.
Qed.

(** One key of [update_counts]: its count changes, or an object that is only in
    memory is dropped and its children are counted down. *)
Lemma update_count_spec rec b k delta : coherent b -> nontrivial delta -> no_wrap delta (writes b !! k) ->
  has_room delta (objects b !! k) -> (layout_v2 = false -> is_Some (objects b !! k)) ->
  (exists b', update_count rec delta b k = Ok b' /\ updated b b' k delta) \/
  (exists b1 o, dropped b b1 k delta o /\
     update_count rec delta b k = rec b1 (flat_refs (od_children o)) {| ref_delta := -1; root_delta := 0 |}).
Proof.
  intros Hco Hnt Hnw Hroom Hknown. unfold update_count. rewrite objects_lookup in Hroom, Hknown.
  destruct (peek_mut_from_memory b k) as [[v put]|] eqn:E.
  - destruct (peek_mut_Some b k v put E) as [Hv _]. rewrite peek_spec in Hv.
    destruct (writes b !! k) as [v0|] eqn:Ew.
    + injection Hv as ->. pose proof (co_write _ Hco _ _ Ew) as He.
      destruct (count_action_spec _ _ _ _ delta He Hnt Hnw Hroom) as (act & -> & Hact). cbn [mbind outcome_bind].
      destruct act as [v'| |o].
      * destruct Hact as [(Hp & He' & Hvo & Hpe & Hnr & Hcd)|(o & -> & Hd & Hvo & Hpe & Hp & Hnr)]; left.
        -- assert (is_pending v = true) as -> by (by destruct v). rewrite Hp. cbn. eexists. split; [done|].
           eapply updated_put; [done|by apply (put_promote b k v)|done|by rewrite objects_lookup, Ew|by rewrite Ew..].
        -- rewrite Hp. cbn. destruct (move_to_read b k v put o Hco E Hd) as (b1 & b2 & -> & E2 & Hch & Hco2).
           cbn. rewrite E2. exists b2. split; [done|]. eapply updated_drop; [done..| | |]; rewrite ?objects_lookup, Ew; done.
      * destruct Hact as (Hvo & Hpe & Hnr). left.
        destruct (remove_dummy b k v put Hco E) as (b1 & -> & Hch & Hco1). cbn. exists b1. split; [done|].
        eapply updated_drop; [done..| | |]; rewrite ?objects_lookup, Ew; done.
      * destruct Hact as (o0 & old & -> & -> & Hpe). right.
        destruct (remove_dummy b k _ put Hco E) as (b1 & -> & Hch & Hco1). cbn. exists b1, o0.
        split; [|by rewrite bump_children]. split; [eauto|done|apply Hch|apply Hch].
    + destruct (co_read _ Hco _ _ Hv) as (_ & o & -> & Hd). rewrite Hd in Hroom. left. cbn.
      rewrite count_delta_room by done. cbn.
      destruct (move_to_write b k _ put (CVReadAndUpdate delta (bump delta o)) Hco E) as (b1 & b2 & -> & E2 & Hch); [done|].
      cbn. rewrite E2. exists b2. split; [done|]. eapply updated_put; [done..| | | |by rewrite Ew|done].
      * split; [done|]. eauto.
      * by rewrite objects_lookup, Ew, Hd.
      * rewrite Ew. destruct delta; unfold plus; cbn. f_equal; lia.
  - apply peek_mut_None in E as [Ew Er]. rewrite Ew in *. left.
    destruct (insert_pending b k (CVUpdate delta)) as (b' & E & Hf & Hw & Hr & Hc1 & Hc2); [apply Hco|done|].
    exists b'. split; [done|]. eapply (updated_put b b' k delta (CVUpdate delta)); [done| | | | |by rewrite Ew|done].
    + split; try done. by rewrite Hr, delete_id.
    + split; [done|]. exact Hknown.
    + by rewrite objects_lookup, Ew.
    + rewrite Ew. destruct delta; unfold plus; cbn. f_equal; lia.
Qed.
End counts.
