(* ===== verification/BackendCounts.v ===== *)
(** * Reference counts of the storage back end are exact

    In the layout with reference counts, the count of an object is the number
    of references to it from all objects, in memory and stored.  Every method
    of the back end but the collector keeps that, none panics when it is used
    as its contract says, and the store changes as intended: caching adds an
    object, uncaching and unpersisting drop the objects that were never stored
    and that nothing refers to any more. *)
From S2P Require Import Prelude CostModel DeltaTracking StorageDb Gc Backend BackendInv.

#[local] Set Default Proof Using "Type*".

(** ** Sums over a map *)
Section map_sum.
Context {A : Type} (f : A -> Z).
Implicit Types (m : gmap ArenaHash A).
Definition map_sum m : Z := map_fold (fun _ x acc => f x + acc) 0 m.
Lemma map_sum_empty : map_sum ∅ = 0.
Proof. unfold map_sum. by rewrite map_fold_empty. Qed.
Lemma map_sum_insert m k x : m !! k = None -> map_sum (<[k := x]> m) = f x + map_sum m.
Proof. intros Hk. unfold map_sum. rewrite map_fold_insert_L; [done|intros; lia|done]. Qed.
Lemma map_sum_delete m k : map_sum m = from_option f 0 (m !! k) + map_sum (delete k m).
Proof.
  destruct (m !! k) as [x|] eqn:E; cbn.
  - rewrite <- (insert_delete_id m k x E) at 1. by rewrite map_sum_insert by apply lookup_delete_eq.
  - by rewrite delete_id.
Qed.
(** Two maps that differ in one key. *)
Lemma map_sum_update m m' k : (forall j, j <> k -> m' !! j = m !! j) ->
  map_sum m' = map_sum m - from_option f 0 (m !! k) + from_option f 0 (m' !! k).
Proof.
  intros Hj. rewrite (map_sum_delete m k), (map_sum_delete m' k). replace (delete k m') with (delete k m); [lia|].
  apply map_eq. intros j. destruct (decide (j = k)) as [->|]; [by rewrite !lookup_delete_eq|].
  rewrite !lookup_delete_ne by done. symmetry. auto.
Qed.
Lemma map_sum_nonneg m : (forall x, 0 <= f x) -> 0 <= map_sum m.
Proof.
  intros Hf. induction m as [|k x m Hk IH] using map_ind; [by rewrite map_sum_empty|].
  rewrite map_sum_insert by done. specialize (Hf x). lia.
Qed.
Lemma map_sum_ge m k x : (forall x, 0 <= f x) -> m !! k = Some x -> f x <= map_sum m.
Proof.
  intros Hf Hk. rewrite (map_sum_delete m k), Hk. cbn. pose proof (map_sum_nonneg (delete k m) Hf). lia.
Qed.
End map_sum.

(** ** Counting references *)
Definition occ (k : ArenaHash) (l : list ArenaHash) : Z := Z.of_nat (length (filter (fun x => x = k) l)).
Lemma occ_nil k : occ k [] = 0.
Proof. done. Qed.
Lemma occ_cons k x l : occ k (x :: l) = (if decide (x = k) then 1 else 0) + occ k l.
Proof. unfold occ. rewrite filter_cons. case_decide; cbn [length]; lia. Qed.
Lemma occ_nonneg k l : 0 <= occ k l.
Proof. unfold occ. lia. Qed.
Lemma occ_le k l : occ k l <= Z.of_nat (length l).
Proof. unfold occ. pose proof (length_filter (fun x => x = k) l). lia. Qed.
Lemma occ_pos k l : k ∈ l -> 1 <= occ k l.
Proof.
  induction l as [|x l IH]; [by intros ?%elem_of_nil|]. rewrite occ_cons. pose proof (occ_nonneg k l).
  intros [->|Hin]%elem_of_cons; [rewrite decide_True by done; lia|]. specialize (IH Hin). case_decide; lia.
Qed.
Lemma occ_none k l : k ∉ l -> occ k l = 0.
Proof.
  induction l as [|x l IH]; [done|]. rewrite not_elem_of_cons, occ_cons. intros [Hne Hl].
  rewrite decide_False, IH by done. done.
Qed.

Definition obj_refs (o : OnDiskObject) : list ArenaHash := flat_refs (od_children o).
(** The number of references to [k] from all objects. *)
Definition refs_to (k : ArenaHash) (m : gmap ArenaHash OnDiskObject) : Z := map_sum (fun o => occ k (obj_refs o)) m.
Definition rc (m : gmap ArenaHash OnDiskObject) (k : ArenaHash) : Z := from_option ref_count 0 (m !! k).

Lemma refs_to_nonneg k m : 0 <= refs_to k m.
Proof. apply map_sum_nonneg. intros. apply occ_nonneg. Qed.
Lemma refs_to_ge k m p o : m !! p = Some o -> occ k (obj_refs o) <= refs_to k m.
Proof. intros Hp. apply (map_sum_ge (fun o => occ k (obj_refs o)) m p o); [intros; apply occ_nonneg|done]. Qed.
(** Changing a count changes no reference. *)
Lemma refs_to_alter (g : OnDiskObject -> OnDiskObject) m k j : (forall o, obj_refs (g o) = obj_refs o) ->
  refs_to k (alter g j m) = refs_to k m.
Proof.
  intros Hg. unfold refs_to. rewrite (map_sum_update _ m (alter g j m) j), lookup_alter_eq.
  - destruct (m !! j) as [o|]; cbn; rewrite ?Hg; lia.
  - intros i Hi. by rewrite lookup_alter_ne.
Qed.
Lemma refs_to_delete m k j o : m !! j = Some o -> refs_to k (delete j m) = refs_to k m - occ k (obj_refs o).
Proof. intros Hj. unfold refs_to. rewrite (map_sum_delete _ m j), Hj. cbn. lia. Qed.
Lemma refs_to_insert m k j o : m !! j = None -> refs_to k (<[j := o]> m) = refs_to k m + occ k (obj_refs o).
Proof. intros Hj. unfold refs_to. rewrite map_sum_insert by done. lia. Qed.

(** The layout with reference counts. *)
Class Counted `{Features} : Prop := { counted : layout_v2 = false }.

Section exact.
Context {D Handle C : Type} `{F : Features} `{DBLaws D Handle} `{LruCache ArenaHash CacheValue C} `{!LruLaws ArenaHash CacheValue C}.
Context {CT : Counted}.
#[local] Set Default Proof Using "All".
Abbreviation B := (StorageBackend D Handle C).
Implicit Types (b : B) (k : ArenaHash) (o : OnDiskObject) (delta : Delta).

(** By how much the count of [k] exceeds the references to it. *)
Definition excess b k : Z := rc (objects b) k - refs_to k (objects b).

(** The pending deltas and the references of new objects in memory. *)
Definition entry_weight (v : CacheValue) : Z :=
  Z.abs (ref_delta (pending (Some v))) + Z.abs (root_delta (pending (Some v))) + Z.of_nat (length (new_refs v)).
Definition weight b : Z := map_sum entry_weight (writes b).
Definition deleted_entries b : Z := map_sum (fun v => if is_create_and_delete v then 1 else 0) (writes b).

Lemma deleted_entries_spec b : deleted_entries b = Z.of_nat (create_and_deletes b).
Proof.
  unfold deleted_entries, create_and_deletes, writes, entries, Cache_iter. pose proof (lru_iter_nodup (write_cache b)) as Hnd.
  induction (lru_iter (write_cache b)) as [|[k v] l IH]; cbn -[filter]; [by rewrite map_sum_empty|].
  cbn in Hnd. apply list.NoDup_cons in Hnd as [Hk Hnd]. rewrite map_sum_insert by (by apply not_elem_of_list_to_map_1).
  rewrite IH by done. rewrite filter_cons. cbn [snd]. destruct (is_create_and_delete v); cbn [length].
  - rewrite decide_True by done. cbn [length]. lia.
  - rewrite decide_False by done. lia.
Qed.

Lemma deleted_entries_nonneg b : 0 <= deleted_entries b.
Proof. apply map_sum_nonneg. intros v. destruct (is_create_and_delete v); lia. Qed.
Lemma weight_update b b' k : (forall j, j <> k -> writes b' !! j = writes b !! j) ->
  weight b' = weight b - from_option entry_weight 0 (writes b !! k) + from_option entry_weight 0 (writes b' !! k).
Proof. apply map_sum_update. Qed.
Lemma entry_weight_nonneg v : 0 <= entry_weight v.
Proof. unfold entry_weight. lia. Qed.
Lemma pending_weight b k :
  Z.abs (ref_delta (pending (writes b !! k))) + Z.abs (root_delta (pending (writes b !! k))) <= weight b.
Proof.
  destruct (writes b !! k) as [v|] eqn:E.
  - pose proof (map_sum_ge entry_weight _ _ _ entry_weight_nonneg E). unfold weight, entry_weight in *. lia.
  - cbn. apply map_sum_nonneg, entry_weight_nonneg.
Qed.
Lemma bump_refs delta o : obj_refs (bump delta o) = obj_refs o.
Proof. unfold obj_refs. by rewrite bump_children. Qed.
Lemma bump_count delta o : ref_count (bump delta o) = ref_count o + ref_delta delta.
Proof. unfold bump. by rewrite counted. Qed.

(** *** One key *)
Definition unit_delta delta : Prop := Z.abs (ref_delta delta) + Z.abs (root_delta delta) = 1.
Definition at_key k j (n : Z) : Z := if decide (j = k) then n else 0.

Lemma unit_nontrivial delta : unit_delta delta -> nontrivial delta.
Proof. unfold unit_delta, nontrivial. lia. Qed.
Lemma no_wrap_weight b k delta : unit_delta delta -> weight b + 1 < 2 ^ 31 -> no_wrap delta (writes b !! k).
Proof.
  unfold unit_delta, no_wrap, in_i32, plus. cbn. pose proof (pending_weight b k). lia.
Qed.

Lemma updated_weight b b' k delta : unit_delta delta -> updated b b' k delta -> weight b' <= weight b + 1.
Proof.
  intros Hu Hup. rewrite (weight_update b b' k (up_others _ _ _ _ Hup)).
  pose proof (up_pending _ _ _ _ Hup) as Hp. pose proof (up_new _ _ _ _ Hup) as Hn. unfold unit_delta in Hu.
  assert (forall w, from_option entry_weight 0 w =
    Z.abs (ref_delta (pending w)) + Z.abs (root_delta (pending w)) + Z.of_nat (length (from_option new_refs [] w))) as Hw
    by (by intros [v|]).
  rewrite !Hw, Hp, Hn. unfold plus. cbn. lia.
Qed.
Lemma updated_deleted b b' k delta : updated b b' k delta -> deleted_entries b' <= deleted_entries b.
Proof.
  intros Hup. unfold deleted_entries. rewrite (map_sum_update _ (writes b) (writes b') k (up_others _ _ _ _ Hup)).
  pose proof (up_deleted _ _ _ _ Hup) as Hd. destruct (writes b' !! k) as [v'|], (writes b !! k) as [v|]; cbn in *;
    try destruct (is_create_and_delete v'); try destruct (is_create_and_delete v); try lia; by specialize (Hd eq_refl).
Qed.
Lemma updated_rc b b' k delta j : updated b b' k delta -> is_Some (objects b !! k) ->
  rc (objects b') j = rc (objects b) j + at_key k j (ref_delta delta).
Proof.
  intros Hup [o Ho]. rewrite (up_objects _ _ _ _ Hup). unfold rc, at_key. destruct (decide (j = k)) as [->|].
  - rewrite lookup_alter_eq, Ho. cbn. apply bump_count.
  - rewrite lookup_alter_ne by done. lia.
Qed.
Lemma updated_refs b b' k delta j : updated b b' k delta -> refs_to j (objects b') = refs_to j (objects b).
Proof. intros Hup. rewrite (up_objects _ _ _ _ Hup). apply refs_to_alter. intros. apply bump_refs. Qed.
Lemma root_count_pending b k :
  root_count b k = default 0 (db_roots (database b) !! k) + root_delta (pending (writes b !! k)).
Proof. unfold root_count. by rewrite mem_root_pending. Qed.
Lemma updated_roots b b' k delta j : updated b b' k delta ->
  root_count b' j = root_count b j + at_key k j (root_delta delta).
Proof.
  intros Hup. rewrite !root_count_pending. destruct (up_frame _ _ _ _ Hup) as (-> & _). unfold at_key.
  destruct (decide (j = k)) as [->|]; [rewrite (up_pending _ _ _ _ Hup); unfold plus; cbn; lia|].
  rewrite (up_others _ _ _ _ Hup) by done. lia.
Qed.

Lemma dropped_stored b b1 k delta o : coherent b -> dropped b b1 k delta o ->
  stored b !! k = None /\ objects b !! k = Some o /\ ref_count o = - ref_delta delta.
Proof.
  intros Hco [(old & Hw & Hp) _ _ _]. pose proof (co_write _ Hco _ _ Hw) as [_ Hf]. unfold fresh in Hf. rewrite counted in Hf.
  destruct Hf as [Hd Hr]. split_and!; [done|by rewrite objects_lookup, Hw|].
  apply (f_equal ref_delta) in Hp. unfold plus in Hp. cbn in Hp. lia.
Qed.
Lemma dropped_objects b b1 k delta o : coherent b -> dropped b b1 k delta o -> objects b1 = delete k (objects b).
Proof.
  intros Hco Hdr. destruct (dropped_stored _ _ _ _ _ Hco Hdr) as (Hs & _ & _).
  rewrite (objects_drop b b1 k (dr_frame _ _ _ _ _ Hdr) (dr_writes _ _ _ _ _ Hdr)), Hs. done.
Qed.
Lemma dropped_weight b b1 k delta o : dropped b b1 k delta o -> unit_delta delta ->
  weight b1 + Z.of_nat (length (obj_refs o)) + 1 <= weight b.
Proof.
  intros [(old & Hw & Hp) _ _ Hwr] Hu. rewrite (weight_update b b1 k), Hwr, lookup_delete_eq, Hw; cbn.
  - unfold entry_weight. cbn. unfold obj_refs. pose proof (f_equal ref_delta Hp) as E1. pose proof (f_equal root_delta Hp) as E2.
    unfold plus, unit_delta in *. cbn in *. lia.
  - intros j Hj. by rewrite Hwr, lookup_delete_ne.
Qed.
Lemma dropped_deleted b b1 k delta o : dropped b b1 k delta o -> deleted_entries b1 = deleted_entries b - 1.
Proof.
  intros [(old & Hw & _) _ _ Hwr]. unfold deleted_entries.
  rewrite (map_sum_update _ (writes b) (writes b1) k), Hwr, lookup_delete_eq, Hw; cbn; [lia|].
  intros j Hj. by rewrite Hwr, lookup_delete_ne.
Qed.
Lemma dropped_excess b b1 k delta o j : coherent b -> dropped b b1 k delta o ->
  excess b1 j = excess b j + at_key k j (ref_delta delta) + occ j (obj_refs o).
Proof.
  intros Hco Hdr. destruct (dropped_stored _ _ _ _ _ Hco Hdr) as (Hs & Ho & Hr). unfold excess.
  rewrite (dropped_objects _ _ _ _ _ Hco Hdr), (refs_to_delete _ _ _ o) by done. unfold rc, at_key.
  destruct (decide (j = k)) as [->|]; [rewrite lookup_delete_eq, Ho; cbn; lia|].
  rewrite lookup_delete_ne by done. lia.
Qed.
Lemma dropped_roots b b1 k delta o j : dropped b b1 k delta o ->
  root_count b1 j = root_count b j + at_key k j (root_delta delta).
Proof.
  intros [(old & Hw & Hp) _ (Hd & _) Hwr]. rewrite !root_count_pending, Hd, Hwr. unfold at_key.
  destruct (decide (j = k)) as [->|]; [|rewrite lookup_delete_ne by done; lia].
  rewrite lookup_delete_eq, Hw. cbn. apply (f_equal root_delta) in Hp. unfold plus in Hp. cbn in *. lia.
Qed.

(** *** Counting down *)
Definition same_content o o' : Prop := od_data o' = od_data o /\ od_children o' = od_children o.
(** The objects of [b'] are objects of [b], and those that are gone were never
    stored. *)
Record fewer b b' : Prop := {
  fewer_kept j o' : objects b' !! j = Some o' -> exists o, objects b !! j = Some o /\ same_content o o';
  fewer_gone j : is_Some (objects b !! j) -> objects b' !! j = None -> stored b !! j = None }.
Lemma fewer_same b b' : objects b' = objects b -> fewer b b'.
Proof. intros E. split; intros j; rewrite E; [intros o Ho; by exists o|]. intros [o Ho]. congruence. Qed.
Lemma fewer_refl b : fewer b b.
Proof. by apply fewer_same. Qed.
Lemma fewer_trans b1 b2 b3 : stored b2 = stored b1 -> fewer b1 b2 -> fewer b2 b3 -> fewer b1 b3.
Proof.
  intros Hf [Hk1 Hg1] [Hk2 Hg2]. split.
  - intros j o (o2 & Ho2 & Hd2 & Hc2)%Hk2. apply Hk1 in Ho2 as (o1 & Ho1 & Hd1 & Hc1). exists o1. split; [done|].
    split; congruence.
  - intros j Hj Hn. destruct (objects b2 !! j) as [o2|] eqn:E; [|auto].
    rewrite <- Hf. apply Hg2; [by rewrite E|done].
Qed.
Lemma updated_fewer b b' k delta : updated b b' k delta -> fewer b b'.
Proof.
  intros Hup. split; intros j; rewrite (up_objects _ _ _ _ Hup); destruct (decide (j = k)) as [->|].
  - rewrite lookup_alter_eq. intros o' (o & Ho & ->)%fmap_Some. exists o. split; [done|].
    unfold same_content, bump. by destruct layout_v2.
  - rewrite lookup_alter_ne by done. intros o Ho. by exists o.
  - rewrite lookup_alter_eq. by intros [o ->].
  - rewrite lookup_alter_ne by done. intros [o Ho]. congruence.
Qed.
Lemma dropped_fewer b b1 k delta o : coherent b -> dropped b b1 k delta o -> fewer b b1.
Proof.
  intros Hco Hdr. split; intros j; rewrite (dropped_objects _ _ _ _ _ Hco Hdr); destruct (decide (j = k)) as [->|].
  - by rewrite lookup_delete_eq.
  - rewrite lookup_delete_ne by done. intros o' Ho. by exists o'.
  - intros _ _. by destruct (dropped_stored _ _ _ _ _ Hco Hdr).
  - rewrite lookup_delete_ne by done. intros [o' Ho]. congruence.
Qed.

Lemma in_range_rc b k o : in_range b -> objects b !! k = Some o -> is_u64 (rc (objects b) k).
Proof. intros Hr Ho. unfold rc. rewrite Ho. by apply (Hr counted k). Qed.
Lemma updated_range b b' k delta : in_range b -> has_room delta (objects b !! k) -> updated b b' k delta -> in_range b'.
Proof.
  intros Hr Hroom Hup _ j o. rewrite (up_objects _ _ _ _ Hup). destruct (decide (j = k)) as [->|].
  - rewrite lookup_alter_eq. intros (o0 & Ho0 & ->)%fmap_Some. rewrite bump_count. by apply (Hroom counted).
  - rewrite lookup_alter_ne by done. by apply (Hr counted).
Qed.
Lemma dropped_range b b1 k delta o : coherent b -> in_range b -> dropped b b1 k delta o -> in_range b1.
Proof.
  intros Hco Hr Hdr _ j o'. rewrite (dropped_objects _ _ _ _ _ Hco Hdr). intros [_ Ho]%lookup_delete_Some. by eapply (Hr counted).
Qed.

Record counted_down b b' (keys : list ArenaHash) : Prop := {
  cd_coherent : coherent b';
  cd_frame : frame b b';
  cd_range : in_range b';
  cd_excess j : excess b' j = excess b j - occ j keys;
  cd_weight : weight b' <= weight b + Z.of_nat (length keys);
  cd_deleted : deleted_entries b' <= deleted_entries b;
  cd_roots j : root_count b' j = root_count b j;
  cd_fewer : fewer b b' }.

Abbreviation minus_ref := {| ref_delta := -1; root_delta := 0 |}.

Lemma unit_minus_ref : unit_delta minus_ref.
Proof. unfold unit_delta. cbn. lia. Qed.
Lemma counted_down_nil b : coherent b -> in_range b -> counted_down b b [].
Proof. intros Hco Hr. split; try done; [intros j; rewrite occ_nil; lia|cbn; lia|apply fewer_refl]. Qed.
Lemma counted_down_step b b1 b2 k keys :
  frame b b1 -> fewer b b1 -> (forall j, excess b1 j = excess b j + at_key k j (-1)) ->
  (forall j, root_count b1 j = root_count b j) -> weight b1 <= weight b + 1 -> deleted_entries b1 <= deleted_entries b ->
  counted_down b1 b2 keys -> counted_down b b2 (k :: keys).
Proof.
  intros Hf Hfe He Hro Hw Hd [Hco2 Hf2 Hr2 He2 Hw2 Hd2 Hro2 Hfe2]. split; try done.
  - by eapply same_frame_trans.
  - intros j. rewrite He2, He, occ_cons. unfold at_key. destruct (decide (j = k)), (decide (k = j)); try congruence; lia.
  - cbn [length]. lia.
  - lia.
  - intros j. by rewrite Hro2.
  - eapply fewer_trans; [by apply frame_stored|done..].
Qed.

(** A key to be counted down is known and its count is positive. *)
Lemma count_down_key b k keys : in_range b -> (forall j, occ j (k :: keys) <= excess b j) ->
  is_Some (objects b !! k) /\ has_room minus_ref (objects b !! k) /\
  (forall j, occ j keys <= excess b j + at_key k j (-1)).
Proof.
  intros Hr Hex. assert (1 <= rc (objects b) k) as Hpos.
  { specialize (Hex k). rewrite occ_cons, decide_True in Hex by done. pose proof (occ_nonneg k keys).
    pose proof (refs_to_nonneg k (objects b)). unfold excess in Hex. lia. }
  assert (is_Some (objects b !! k)) as [o Ho].
  { unfold rc in Hpos. destruct (objects b !! k); [eauto|cbn in Hpos; lia]. }
  split_and!; [by rewrite Ho| |].
  - rewrite Ho. intros _ o' [= <-]. pose proof (in_range_rc b k o Hr Ho) as Hu. unfold rc in *. rewrite Ho in *. cbn in *.
    unfold in_u in *. lia.
  - intros j. specialize (Hex j). rewrite occ_cons in Hex. unfold at_key.
    destruct (decide (j = k)), (decide (k = j)); try congruence; lia.
Qed.

Lemma count_down_spec fuel : forall keys b,
  coherent b -> in_range b -> (forall j, occ j keys <= excess b j) ->
  weight b + Z.of_nat (length keys) < 2 ^ 31 -> deleted_entries b < Z.of_nat fuel ->
  exists b', update_refs fuel b keys minus_ref = Ok b' /\ counted_down b b' keys.
Proof.
  induction fuel as [|fuel IHf]; intros keys b Hco Hr Hex Hw Hd.
  { pose proof (deleted_entries_nonneg b). lia. }
  cbn [update_refs]. revert b Hco Hr Hex Hw Hd. induction keys as [|k keys IHk]; intros b Hco Hr Hex Hw Hd.
  { exists b. split; [done|]. by apply counted_down_nil. }
  cbn [try_fold]. cbn [length] in Hw.
  destruct (count_down_key b k keys Hr Hex) as (Hknown & Hroom & Hrest).
  destruct (update_count_spec (update_refs fuel) b k minus_ref) as [(b1 & -> & Hup)|(b1 & o1 & Hdr & ->)];
    [done|apply unit_nontrivial, unit_minus_ref|apply no_wrap_weight; [apply unit_minus_ref|lia]|done|done| |]; cbn [mbind outcome_bind].
  - assert (forall j, excess b1 j = excess b j + at_key k j (-1)) as He1.
    { intros j. unfold excess. rewrite (updated_rc _ _ _ _ j Hup), (updated_refs _ _ _ _ j Hup) by done. cbn. lia. }
    pose proof (updated_weight _ _ _ _ unit_minus_ref Hup) as Hw1. pose proof (updated_deleted _ _ _ _ Hup) as Hd1.
    destruct (IHk b1) as (b2 & E2 & H2); [apply Hup|by eapply updated_range|intros j; by rewrite He1|lia|lia|].
    exists b2. split; [done|]. eapply counted_down_step; [apply Hup|by eapply updated_fewer|done| |done|done|done].
    intros j. rewrite (updated_roots _ _ _ _ j Hup). unfold at_key. case_decide; cbn; lia.
  - pose proof (fun j => dropped_excess _ _ _ _ _ j Hco Hdr) as He1. cbn in He1.
    pose proof (dropped_weight _ _ _ _ _ Hdr unit_minus_ref) as Hw1. pose proof (dropped_deleted _ _ _ _ _ Hdr) as Hd1.
    destruct (IHf (obj_refs o1) b1) as (b2 & E2 & H2);
      [apply Hdr|by eapply dropped_range| |lia|lia|].
    { intros j. rewrite He1. specialize (Hrest j). pose proof (occ_nonneg j keys). lia. }
    change (flat_refs (od_children o1)) with (obj_refs o1). rewrite E2. cbn [mbind outcome_bind].
    pose proof (cd_weight _ _ _ H2) as Hw2. pose proof (cd_deleted _ _ _ H2) as Hd2.
    destruct (IHk b2) as (b3 & E3 & H3); [apply H2|apply H2| |lia|lia|].
    { intros j. rewrite (cd_excess _ _ _ H2), He1. specialize (Hrest j). lia. }
    exists b3. split; [done|]. eapply (counted_down_step b b2); [| | | |lia|lia|done].
    + eapply same_frame_trans; [apply (dr_frame _ _ _ _ _ Hdr)|apply H2].
    + eapply fewer_trans; [apply frame_stored, (dr_frame _ _ _ _ _ Hdr)|by eapply dropped_fewer|apply H2].
    + intros j. rewrite (cd_excess _ _ _ H2), He1. lia.
    + intros j. rewrite (cd_roots _ _ _ H2), (dropped_roots _ _ _ _ _ j Hdr). unfold at_key. case_decide; cbn; lia.
Qed.

(** *** Counting up *)
Abbreviation plus_ref := {| ref_delta := 1; root_delta := 0 |}.
Lemma unit_plus_ref : unit_delta plus_ref.
Proof. unfold unit_delta. cbn. lia. Qed.

Record counted_up b b' (keys : list ArenaHash) : Prop := {
  cu_coherent : coherent b';
  cu_frame : frame b b';
  cu_range : in_range b';
  cu_rc j : rc (objects b') j = rc (objects b) j + occ j keys;
  cu_refs j : refs_to j (objects b') = refs_to j (objects b);
  cu_weight : weight b' <= weight b + Z.of_nat (length keys);
  cu_roots j : root_count b' j = root_count b j;
  cu_dom j : is_Some (objects b' !! j) <-> is_Some (objects b !! j);
  cu_content : fewer b b' }.

Lemma updated_dom b b' k delta j : updated b b' k delta -> is_Some (objects b' !! j) <-> is_Some (objects b !! j).
Proof. intros Hup. rewrite (up_objects _ _ _ _ Hup). apply lookup_alter_is_Some. Qed.

Lemma count_up_spec fuel : forall keys b,
  coherent b -> in_range b -> (forall j, j ∈ keys -> is_Some (objects b !! j)) ->
  (forall j, rc (objects b) j + occ j keys <= u64_max) ->
  weight b + Z.of_nat (length keys) < 2 ^ 31 ->
  exists b', update_refs (S fuel) b keys plus_ref = Ok b' /\ counted_up b b' keys.
Proof.
  cbn [update_refs]. induction keys as [|k keys IH]; intros b Hco Hr Hkn Hmax Hw.
  { exists b. split; [done|]. split; try done; [intros j; rewrite occ_nil; lia|cbn; lia|apply fewer_refl]. }
  cbn [try_fold]. cbn [length] in Hw. destruct (Hkn k) as [o Ho]; [left|].
  assert (has_room plus_ref (objects b !! k)) as Hroom.
  { rewrite Ho. intros _ o' [= <-]. pose proof (in_range_rc b k o Hr Ho) as Hu. specialize (Hmax k).
    rewrite occ_cons, decide_True in Hmax by done. pose proof (occ_nonneg k keys).
    unfold rc in *. rewrite Ho in *. cbn in *. unfold in_u in *. lia. }
  destruct (update_count_spec (update_refs fuel) b k plus_ref) as [(b1 & -> & Hup)|(b1 & o1 & Hdr & _)];
    [done|apply unit_nontrivial, unit_plus_ref|apply no_wrap_weight; [apply unit_plus_ref|lia]|done|by rewrite Ho| |];
    cbn [mbind outcome_bind].
  - pose proof (fun j => updated_rc _ _ _ _ j Hup ltac:(by rewrite Ho)) as Hrc. cbn in Hrc.
    pose proof (updated_weight _ _ _ _ unit_plus_ref Hup) as Hw1.
    destruct (IH b1) as (b2 & E2 & [Hco2 Hf2 Hr2 Hrc2 Hre2 Hw2 Hro2 Hd2 Hc2]);
      [apply Hup|by eapply updated_range| | |lia|].
    { intros j Hj. apply (updated_dom _ _ _ _ j Hup), Hkn. by right. }
    { intros j. specialize (Hmax j). rewrite occ_cons in Hmax. rewrite Hrc. unfold at_key.
      destruct (decide (j = k)), (decide (k = j)); try congruence; lia. }
    exists b2. split; [done|]. split; [done| |done| | | | | |].
    + eapply same_frame_trans; [apply (up_frame _ _ _ _ Hup)|done].
    + intros j. rewrite Hrc2, Hrc, occ_cons. unfold at_key. destruct (decide (j = k)), (decide (k = j)); try congruence; lia.
    + intros j. by rewrite Hre2, (updated_refs _ _ _ _ j Hup).
    + cbn [length]. lia.
    + intros j. rewrite Hro2, (updated_roots _ _ _ _ j Hup). unfold at_key. case_decide; cbn; lia.
    + intros j. by rewrite Hd2, (updated_dom _ _ _ _ j Hup).
    + eapply fewer_trans; [apply frame_stored, (up_frame _ _ _ _ Hup)|by eapply updated_fewer|done].
  - destruct (dropped_stored _ _ _ _ _ Hco Hdr) as (_ & Ho1 & Hc). pose proof (in_range_rc b k o1 Hr Ho1) as Hu.
    unfold rc in Hu. rewrite Ho1 in Hu. cbn in *. unfold in_u in Hu. lia.
Qed.

(** ** The operations *)

(** Root counts fit, and only known objects are roots in the database. *)
Record roots_ok b : Prop := {
  ro_bounds k : 0 <= root_count b k < 2 ^ 31;
  ro_stored k n : db_roots (database b) !! k = Some n -> 0 < n < 2 ^ 31 /\ is_Some (stored b !! k) }.

(** The invariant: coherent caches, exact counts, root counts in range. *)
Record exact b : Prop := {
  ex_coherent : coherent b;
  ex_range : in_range b;
  ex_counts k : rc (objects b) k = refs_to k (objects b);
  ex_roots : roots_ok b }.

(** All references in the store, and in memory. *)
Definition total_refs b : Z := map_sum (fun o => Z.of_nat (length (obj_refs o))) (objects b).

Lemma refs_to_total b k : refs_to k (objects b) <= total_refs b.
Proof.
  unfold refs_to, total_refs. induction (objects b) as [|j o m Hj IH] using map_ind; [by rewrite !map_sum_empty|].
  rewrite !map_sum_insert by done. pose proof (occ_le k (obj_refs o)). lia.
Qed.
Lemma exact_excess b k : exact b -> excess b k = 0.
Proof. intros Hex. unfold excess. rewrite (ex_counts _ Hex). lia. Qed.
(** References point to objects of the store. *)
Lemma exact_refs_closed b p o k : exact b -> objects b !! p = Some o -> k ∈ obj_refs o -> is_Some (objects b !! k).
Proof.
  intros Hex Hp Hk. pose proof (refs_to_ge k _ p o Hp). pose proof (occ_pos k _ Hk). pose proof (ex_counts _ Hex k) as Hc.
  unfold rc in Hc. destruct (objects b !! k); [eauto|]. cbn in Hc. lia.
Qed.
Lemma roots_ok_frame b b' : frame b b' -> (forall k, root_count b' k = root_count b k) -> roots_ok b -> roots_ok b'.
Proof.
  intros Hf Hr [Hb Hs]. pose proof Hf as (Hd & _). split.
  - intros k. by rewrite Hr.
  - intros k n. rewrite Hd, (frame_stored _ _ Hf). apply Hs.
Qed.
End exact.
