(* ===== verification/BackendOps.v ===== *)
(** * The operations of the storage back end, in the layout with reference counts

    Each operation, used as its contract says, returns, keeps the reference
    counts exact, and changes the store as intended. *)
From S2P Require Import Prelude CostModel DeltaTracking StorageDb Gc Backend BackendInv BackendCounts.

#[local] Arguments cache_insert_new_key : simpl never.
#[local] Arguments remove_from_memory : simpl never.

Section ops.
Context {D Handle C : Type} `{F : Features} `{DBLaws D Handle} `{LruCache ArenaHash CacheValue C} `{!LruLaws ArenaHash CacheValue C}.
Context {CT : Counted}.
#[local] Set Default Proof Using "All".
Abbreviation B := (StorageBackend D Handle C).
Implicit Types (b : B) (k : ArenaHash) (o : OnDiskObject) (delta : Delta).

(** ** Roots *)
Abbreviation root_delta_of n := {| ref_delta := 0; root_delta := n |}.

Lemma bump_root n o : bump (root_delta_of n) o = o.
Proof. unfold bump. destruct layout_v2; [done|]. destruct o. cbn. f_equal. lia. Qed.
Lemma alter_id {A} (g : A -> A) k (m : gmap ArenaHash A) : (forall x, g x = x) -> alter g k m = m.
Proof.
  intros Hg. apply map_eq. intros j. destruct (decide (j = k)) as [->|]; [|by rewrite lookup_alter_ne].
  rewrite lookup_alter_eq. destruct (m !! k); cbn; by rewrite ?Hg.
Qed.
Lemma updated_root_objects b b' k n : updated b b' k (root_delta_of n) -> objects b' = objects b.
Proof. intros Hup. rewrite (up_objects _ _ _ _ Hup). apply alter_id, bump_root. Qed.
Lemma root_room b k n : in_range b -> has_room (root_delta_of n) (objects b !! k).
Proof. intros Hr _ o Ho. cbn. pose proof (Hr counted k o Ho). unfold in_u in *. lia. Qed.

(** What one key with a root delta does. *)
Lemma root_update rec b k n : exact b -> is_Some (objects b !! k) -> Z.abs n = 1 -> weight b + 1 < 2 ^ 31 ->
  (exists b', update_count rec (root_delta_of n) b k = Ok b' /\ updated b b' k (root_delta_of n)) \/
  (exists b1 o, dropped b b1 k (root_delta_of n) o /\ n = - root_count b k /\
     update_count rec (root_delta_of n) b k = rec b1 (obj_refs o) {| ref_delta := -1; root_delta := 0 |}).
Proof.
  intros Hex Hkn Hn Hw. assert (unit_delta (root_delta_of n)) as Hu by (unfold unit_delta; cbn; lia).
  destruct (update_count_spec rec b k (root_delta_of n)) as [?|(b1 & o & Hdr & E)];
    [apply Hex|by apply unit_nontrivial|by apply no_wrap_weight|apply root_room, Hex|done|by left|].
  right. exists b1, o. split_and!; [done| |done].
  destruct (dropped_stored _ _ _ _ _ (ex_coherent _ Hex) Hdr) as (Hs & _ & _).
  destruct Hdr as [(old & Hwr & Hp) _ _ _]. rewrite root_count_pending, Hwr.
  destruct (db_roots (database b) !! k) as [m|] eqn:Em; [destruct (ro_stored _ (ex_roots _ Hex) _ _ Em) as [_ [? ?]]; congruence|].
  apply (f_equal root_delta) in Hp. unfold plus in Hp. cbn in *. lia.
Qed.

Lemma exact_root_update b b' k n : exact b -> updated b b' k (root_delta_of n) ->
  0 <= root_count b k + n < 2 ^ 31 -> exact b'.
Proof.
  intros [Hco Hr Hc Hro] Hup Hb. pose proof (updated_root_objects _ _ _ _ Hup) as Ho. split.
  - apply Hup.
  - intros El k' o'. rewrite Ho. by apply Hr.
  - intros j. by rewrite Ho.
  - destruct Hro as [Hb1 Hs]. pose proof (up_frame _ _ _ _ Hup) as Hf. pose proof Hf as (Hd & _). split.
    + intros j. rewrite (updated_roots _ _ _ _ j Hup). unfold at_key. specialize (Hb1 j). case_decide; subst; cbn; lia.
    + intros j m. rewrite Hd, (frame_stored _ _ Hf). apply Hs.
Qed.

(** Marking a root adds one to its root count and changes nothing else. *)
Lemma persist_spec b k : exact b -> is_Some (objects b !! k) -> weight b + 1 < 2 ^ 31 -> root_count b k + 1 < 2 ^ 31 ->
  exists b', persist b k = Ok b' /\ exact b' /\ frame b b' /\ objects b' = objects b /\ weight b' <= weight b + 1 /\
    (forall j, root_count b' j = root_count b j + at_key k j 1).
Proof.
  intros Hex Hkn Hw Hb. pose proof (ro_bounds _ (ex_roots _ Hex) k) as Hb0. unfold persist, update_counts. cbn.
  destruct (root_update (update_refs (create_and_deletes b)) b k 1) as [(b' & -> & Hup)|(b1 & o & _ & Hn & _)]; [done..| |lia].
  cbn. exists b'. split_and!; [done|eapply (exact_root_update b b' k 1); [done|done|lia]|apply Hup|by eapply updated_root_objects| |].
  - eapply updated_weight, Hup. unfold unit_delta. cbn. lia.
  - intros j. by rewrite (updated_roots _ _ _ _ j Hup).
Qed.

(** The state after counting down the children of a removed object. *)
Lemma exact_counted_down b1 b2 refs : roots_ok b1 -> (forall j, excess b1 j = occ j refs) ->
  counted_down b1 b2 refs -> exact b2.
Proof.
  intros Hro He [Hco2 Hf2 Hr2 He2 Hw2 Hd2 Hro2 Hfe2]. split; [done..| |by eapply roots_ok_frame].
  intros j. specialize (He2 j). rewrite He in He2. unfold excess in He2. lia.
Qed.

(** Unmarking a root takes one from its root count; an object that was never
    stored is dropped with its last reference. *)
Lemma unpersist_spec b k : exact b -> 1 <= root_count b k -> is_Some (objects b !! k) -> weight b + 1 < 2 ^ 31 ->
  exists b', unpersist b k = Ok b' /\ exact b' /\ frame b b' /\ fewer b b' /\
    (forall j, root_count b' j = root_count b j - at_key k j 1).
Proof.
  intros Hex Hb Hkn Hw. pose proof (ro_bounds _ (ex_roots _ Hex)) as Hb0. unfold unpersist, update_counts. cbn.
  destruct (root_update (update_refs (create_and_deletes b)) b k (-1)) as [(b' & -> & Hup)|(b1 & o & Hdr & Hn & ->)]; [done..| |].
  - cbn. exists b'. split_and!; [done| |apply Hup|by eapply updated_fewer|].
    + eapply exact_root_update; [done..|]. specialize (Hb0 k). lia.
    + intros j. rewrite (updated_roots _ _ _ _ j Hup). unfold at_key. case_decide; cbn; lia.
  - pose proof (ex_coherent _ Hex) as Hco. assert (unit_delta (root_delta_of (-1))) as Hu by (unfold unit_delta; cbn; lia).
    pose proof (dropped_weight _ _ _ _ _ Hdr Hu) as Hw1. pose proof (dropped_deleted _ _ _ _ _ Hdr) as Hd1.
    rewrite (deleted_entries_spec b) in Hd1.
    assert (forall j, excess b1 j = occ j (obj_refs o)) as He1.
    { intros j. rewrite (dropped_excess _ _ _ _ _ j Hco Hdr), exact_excess by done. unfold at_key. case_decide; cbn; lia. }
    pose proof (fun j => dropped_roots _ _ _ _ _ j Hdr) as Hro1. cbn in Hro1.
    destruct (count_down_spec (create_and_deletes b) (obj_refs o) b1) as (b2 & E2 & Hcd);
      [apply Hdr|eapply dropped_range; [done|apply Hex|done]|intros j; rewrite He1; lia|lia|lia|]. rewrite E2. cbn.
    assert (roots_ok b1) as Hrok1.
    { pose proof (dr_frame _ _ _ _ _ Hdr) as Hf1. pose proof Hf1 as (Hd & _). split.
      - intros j. rewrite Hro1. specialize (Hb0 j). unfold at_key. case_decide; subst; lia.
      - intros j m. rewrite Hd, (frame_stored _ _ Hf1). apply (ro_stored _ (ex_roots _ Hex)). }
    exists b2. split_and!; [done|by eapply exact_counted_down| | |].
    { eapply same_frame_trans; [apply (dr_frame _ _ _ _ _ Hdr)|apply Hcd]. }
    { eapply fewer_trans; [apply frame_stored, (dr_frame _ _ _ _ _ Hdr)|by eapply dropped_fewer|apply Hcd]. }
    intros j. rewrite (cd_roots _ _ _ Hcd), Hro1. unfold at_key. case_decide; lia.
Qed.

(** ** Caching *)

Lemma exact_live b live : exact b -> live_inserts b ⊆ live -> exact (with_live b live).
Proof. intros [Hco Hr Hc [Hb Hs]] Hl. split; [by apply coherent_live|exact Hr|exact Hc|by split]. Qed.
Lemma exact_same b b' : exact b -> coherent b' -> same_store b b' -> database b' = database b -> exact b'.
Proof.
  intros [Hco Hr Hc [Hb Hs]] Hco' (Ho & Hro & Hl) Hd. split; [done| | |].
  - intros El k o. rewrite Ho. by apply Hr.
  - intros k. by rewrite Ho.
  - split; [intros k; by rewrite Hro|]. intros k n. unfold stored. rewrite Hd. apply Hs.
Qed.
Lemma exact_keeps b b' : exact b -> keeps b b' -> exact b'.
Proof. intros Hex Hk. by eapply exact_same; [| |apply Hk|apply Hk]; [|apply Hk]. Qed.

(** A pending entry replaced by one for the same object and root delta. *)
Lemma same_store_put b b' k v : frame b b' -> writes b' = <[k := v]> (writes b) ->
  value_obj (Some v) (stored b !! k) = objects b !! k -> mem_root_delta (Some v) = mem_root_delta (writes b !! k) ->
  same_store b b'.
Proof.
  intros Hf Hw Hv Hm. pose proof Hf as (_ & _ & Hl & _). split_and!; [| |done].
  - rewrite (objects_put b b' k v Hf Hw). by apply partial_alter_same.
  - by apply (root_count_put b b' k v Hf Hw).
Qed.

(** The object is in memory: it moves to the front, and if it was on its way
    out it stays. *)
Lemma cache_in_memory b k v o : coherent b -> k ∈ live_inserts b -> peek_from_memory b k = Some v -> get_obj v = Some o ->
  exists b1 b2 v', remove_from_memory b k = Ok (b1, v) /\
    match v with
    | CVCreateAndDelete obj delta => Ok (CVCreateAndUpdate obj delta)
    | CVUpdate _ => Panic
    | _ => Ok v
    end = Ok (E := Empty_set) v' /\ cache_insert_new_key b1 k v' = Ok b2 /\
    coherent b2 /\ same_store b b2 /\ database b2 = database b.
Proof.
  intros Hco Hl Ev Ep. destruct (is_create_and_delete v) eqn:Ecd.
  - destruct v as [| | | | |o' delta|]; try done. cbn in Ep. injection Ep as ->.
    pose proof Ev as Ew. rewrite peek_spec in Ew. destruct (writes b !! k) as [v0|] eqn:Ew0.
    2: { destruct (co_read _ Hco _ _ Ew) as (_ & ? & ? & _). done. }
    injection Ew as ->. pose proof (co_write _ Hco _ _ Ew0) as [Hnt Hf].
    destruct (replace_pending b k _ (CVCreateAndUpdate o delta) Hco Ev) as (b1 & b2 & E1 & E2 & Hch & Hco2); [done|done|].
    exists b1, b2, (CVCreateAndUpdate o delta). split_and!; try done; [|apply (ch_frame _ _ _ _ Hch)].
    eapply same_store_put; [apply Hch|apply Hch|by rewrite objects_lookup, Ew0|by rewrite Ew0].
  - destruct (get_hit b k v o Hco Ev Ep) as (b1 & b2 & E1 & E2 & Hk & _).
    exists b1, b2, v. split_and!; [done|by destruct v|done|apply Hk|apply Hk|apply Hk].
Qed.
(** The object is stored: it is read into memory. *)
Lemma cache_stored b k : coherent b -> in_range b -> peek_from_memory b k ≫= get_obj = None -> is_Some (objects b !! k) ->
  exists obj v b2, stored b !! k = Some obj /\
    match peek_from_memory b k with
    | Some (CVUpdate delta) => obj ← apply_delta obj delta; Ok (CVReadAndUpdate delta obj)
    | _ => Ok (CVRead obj)
    end = Ok v /\ cache_insert_new_key b k v = Ok b2 /\ coherent b2 /\ same_store b b2 /\ database b2 = database b.
Proof.
  intros Hco Hr Ep [o Ho]. rewrite objects_lookup in Ho.
  destruct (peek_no_obj b k Hco Ep) as [Er [Ew|[delta Ew]]]; rewrite Ew in Ho; cbn in Ho.
  - destruct (insert_stored b k o Hco Ew Ho) as (b' & E & Hch & Hco' & _). exists o, (CVRead o), b'.
    assert (keeps b b') as Hk by (by eapply keeps_changes). rewrite peek_spec, Ew, Er.
    split_and!; [done..|apply Hk|apply Hk].
  - apply fmap_Some in Ho as (o0 & Hs & _). pose proof (in_range_update b k delta o0 Hr Ew Hs) as Eb.
    unfold count_delta in Eb. rewrite counted in Eb. pose proof (co_write _ Hco _ _ Ew) as [Hnt _].
    destruct (insert_pending b k (CVReadAndUpdate delta (bump delta o0))) as (b' & E & Hf & Hw & Hrd & Hc1 & Hc2);
      [apply Hco|done|].
    exists o0, (CVReadAndUpdate delta (bump delta o0)), b'. rewrite peek_spec, Ew, Eb.
    split_and!; [done..| |eapply same_store_put; [done|done|by rewrite objects_lookup, Ew, Hs|by rewrite Ew]|apply Hf].
    apply (coherent_put b b' k (CVReadAndUpdate delta (bump delta o0))); [done| |cbn; eauto].
    split; try done. by rewrite Hrd, delete_id.
Qed.

(** A known object is not created again. *)
Lemma cache_known b k data children : exact b -> k ∉ live_inserts b -> is_Some (objects b !! k) ->
  exists b', cache b k data children = Ok b' /\ exact b' /\ objects b' = objects b /\
    (forall j, root_count b' j = root_count b j) /\ live_inserts b' = {[ k ]} ∪ live_inserts b /\ database b' = database b.
Proof.
  intros Hex Hl Hkn. unfold cache. rewrite bool_decide_false by done. cbn [negb assert_that mbind outcome_bind].
  set (b0 := with_live b ({[ k ]} ∪ live_inserts b)).
  assert (exact b0) as Hex0 by (apply exact_live; [done|set_solver]). pose proof (ex_coherent _ Hex0) as Hco0.
  enough (exists b', match peek_from_memory b0 k ≫= get_obj with
    | Some _ => '(self, value) ← remove_from_memory b0 k;
        value ← match value with
                | CVCreateAndDelete obj delta => Ok (CVCreateAndUpdate obj delta) | CVUpdate _ => Panic | _ => Ok value end;
        cache_insert_new_key self k value
    | None => match (if layout_v2 then None else get_node (database b0) k) with
        | Some obj => cache_value ← match peek_from_memory b0 k with
                        | Some (CVUpdate delta) => obj ← apply_delta obj delta; Ok (CVReadAndUpdate delta obj)
                        | _ => Ok (CVRead obj) end;
            cache_insert_new_key b0 k cache_value
        | None => cache_new b0 k data children end
    end = Ok b' /\ coherent b' /\ same_store b0 b' /\ database b' = database b0) as (b' & E & Hco' & Hss & Hd).
  { exists b'. split_and!; [done|by eapply exact_same|apply Hss..|done]. }
  destruct (peek_from_memory b0 k ≫= get_obj) as [o|] eqn:Ep.
  - destruct (peek_from_memory b0 k) as [v|] eqn:Ev; [|done].
    destruct (cache_in_memory b0 k v o Hco0) as (b1 & b2 & v' & -> & Ev' & E2 & H2); [cbn; set_solver|done|done|].
    cbn [mbind outcome_bind]. rewrite Ev'. cbn [mbind outcome_bind]. rewrite E2. eauto.
  - destruct (cache_stored b0 k Hco0 (ex_range _ Hex0) Ep Hkn) as (o & v & b2 & Hs & Ev & E2 & H2).
    rewrite counted, get_node_spec. fold (stored b0). rewrite Hs, Ev. cbn [mbind outcome_bind]. rewrite E2. eauto.
Qed.

(** *** A new object *)
Lemma unknown b k : coherent b -> objects b !! k = None ->
  writes b !! k = None /\ stored b !! k = None /\ reads b !! k = None.
Proof.
  intros Hco Ho. rewrite objects_lookup in Ho. destruct (writes b !! k) as [v|] eqn:Ew.
  - pose proof (co_write _ Hco _ _ Ew) as He. destruct v; cbn in *; try done.
    destruct He as [_ He]. destruct (He counted) as [o Hs]. by rewrite Hs in Ho.
  - cbn in Ho. split_and!; [done..|]. destruct (reads b !! k) as [v|] eqn:Er; [|done].
    destruct (co_read _ Hco _ _ Er) as (_ & o & _ & Hs). congruence.
Qed.

(** A new object without references is put into the write cache. *)
Lemma insert_new b k o : coherent b -> objects b !! k = None -> k ∈ live_inserts b -> ref_count o = 0 ->
  exists b', cache_insert_new_key b k (CVCreate o) = Ok b' /\ coherent b' /\ frame b b' /\
    objects b' = <[k := o]> (objects b) /\ (forall j, root_count b' j = root_count b j) /\
    weight b' = weight b + Z.of_nat (length (obj_refs o)).
Proof.
  intros Hco Ho Hl Hz. destruct (unknown b k Hco Ho) as (Hw & Hs & Hr).
  destruct (insert_pending b k (CVCreate o)) as (b' & E & Hf & Hw' & Hr' & Hc1 & Hc2); [apply Hco|done|].
  exists b'. split_and!; [done| |done| | |].
  - apply (coherent_put b b' k (CVCreate o)); [done|split; try done; by rewrite Hr', delete_id|].
    cbn. unfold fresh. by rewrite counted.
  - rewrite (objects_put b b' k _ Hf Hw'). done.
  - apply (root_count_put b b' k _ Hf Hw'). by rewrite Hw.
  - rewrite (weight_update b b' k), Hw, Hw', lookup_insert_eq; [unfold entry_weight; cbn; unfold obj_refs; lia|].
    intros j Hj. by rewrite Hw', lookup_insert_ne.
Qed.

Lemma exact_insert b b1 b2 k o refs : exact b -> counted_up b b1 refs -> frame b1 b2 -> coherent b2 ->
  objects b !! k = None -> objects b2 = <[k := o]> (objects b1) -> (forall j, root_count b2 j = root_count b1 j) ->
  obj_refs o = refs -> ref_count o = 0 -> k ∉ refs -> exact b2.
Proof.
  intros Hex [Hco1 Hf1 Hr1 Hrc1 Hre1 _ Hro1 Hd1 _] Hf2 Hco2 Hk Ho2 Hro2 <- Hz Hnk.
  assert (objects b1 !! k = None) as Hk1 by (apply eq_None_not_Some; rewrite Hd1, Hk; by intros [? ?]).
  split; [done| | |].
  - intros El j oj. rewrite Ho2. destruct (decide (j = k)) as [->|].
    + rewrite lookup_insert_eq. intros [= <-]. rewrite Hz. ints.
    + rewrite lookup_insert_ne by done. by apply Hr1.
  - intros j. rewrite Ho2, refs_to_insert, Hre1 by done. unfold rc. destruct (decide (j = k)) as [->|].
    + rewrite lookup_insert_eq. cbn. rewrite Hz, (occ_none k) by done. pose proof (ex_counts _ Hex k) as Hc.
      unfold rc in Hc. rewrite Hk in Hc. cbn in Hc. lia.
    + rewrite lookup_insert_ne by done. fold (rc (objects b1) j). rewrite Hrc1, (ex_counts _ Hex). lia.
  - eapply (roots_ok_frame b b2); [by eapply same_frame_trans| |apply Hex]. intros j. by rewrite Hro2, Hro1.
Qed.

(** Caching an unknown object adds it, without references, and counts its
    children up. *)
Lemma cache_fresh b k data children : exact b -> k ∉ live_inserts b -> objects b !! k = None ->
  let o := {| od_data := data; ref_count := 0; od_children := children |} in
  (forall c, c ∈ obj_refs o -> is_Some (objects b !! c)) ->
  weight b + 2 * Z.of_nat (length (obj_refs o)) < 2 ^ 31 -> total_refs b + Z.of_nat (length (obj_refs o)) <= u64_max ->
  exists b', cache b k data children = Ok b' /\ exact b' /\ objects b' !! k = Some o /\
    (forall j, j <> k -> rc (objects b') j = rc (objects b) j + occ j (obj_refs o)) /\
    (forall j, j <> k -> is_Some (objects b' !! j) <-> is_Some (objects b !! j)) /\
    (forall j, root_count b' j = root_count b j) /\ live_inserts b' = {[ k ]} ∪ live_inserts b /\ database b' = database b.
Proof.
  intros Hex Hl Hk o Hch Hw Ht. unfold cache. rewrite bool_decide_false by done. cbn [negb assert_that mbind outcome_bind].
  set (b0 := with_live b ({[ k ]} ∪ live_inserts b)).
  assert (exact b0) as Hex0 by (apply exact_live; [done|set_solver]). pose proof (ex_coherent _ Hex0) as Hco0.
  change (objects b) with (objects b0) in *. destruct (unknown b0 k Hco0 Hk) as (Hw0 & Hs0 & Hr0).
  rewrite !peek_spec, Hw0, Hr0, counted, get_node_spec. fold (stored b0). rewrite Hs0. cbn [mbind option_bind].
  unfold cache_new, update_counts. cbn [new_ref_delta assert_that negb Z.eqb mbind outcome_bind].
  destruct (count_up_spec (create_and_deletes b0) (obj_refs o) b0) as (b1 & E1 & Hup);
    [done|apply Hex0|done| |change (weight b0) with (weight b); lia|].
  { intros j. rewrite (ex_counts _ Hex0). pose proof (refs_to_total b0 j). pose proof (occ_le j (obj_refs o)).
    change (total_refs b) with (total_refs b0) in Ht. lia. }
  change (flat_refs children) with (obj_refs o). rewrite E1, counted. cbn [mbind outcome_bind].
  assert (objects b1 !! k = None) as Hk1 by (apply eq_None_not_Some; rewrite (cu_dom _ _ _ Hup), Hk; by intros [? ?]).
  destruct (insert_new b1 k o (cu_coherent _ _ _ Hup) Hk1) as (b2 & E2 & Hco2 & Hf2 & Ho2 & Hro2 & _); [|done|].
  { destruct (cu_frame _ _ _ Hup) as (_ & _ & -> & _). cbn. set_solver. }
  fold o. rewrite E2. pose proof (same_frame_trans _ _ _ (cu_frame _ _ _ Hup) Hf2) as (Hd & _ & Hli & _).
  assert (k ∉ obj_refs o) as Hnk by (intros Hin; destruct (Hch k Hin); congruence).
  exists b2. split_and!; [done|by eapply exact_insert|by rewrite Ho2, lookup_insert_eq| | | |done|done].
  - intros j Hj. unfold rc. rewrite Ho2, lookup_insert_ne by done. apply (cu_rc _ _ _ Hup).
  - intros j Hj. rewrite Ho2, lookup_insert_ne by done. apply (cu_dom _ _ _ Hup).
  - intros j. by rewrite Hro2, (cu_roots _ _ _ Hup).
Qed.

(** ** Uncaching *)
Definition needs_live (v : CacheValue) : bool :=
  match v with CVCreate _ | CVCreateAndUpdate _ _ => true | _ => false end.
(** A key stops being live after its entry has changed. *)
Lemma coherent_unlive b b' k : coherent b ->
  changes (with_live b (live_inserts b ∖ {[ k ]})) b' (writes b') (reads b) ->
  (forall j, j <> k -> writes b' !! j = writes b !! j) ->
  (forall v, writes b' !! k = Some v -> needs_live v = false /\ entry_ok (live_inserts b) k v (stored b !! k)) ->
  (forall v, reads b' !! k = Some v -> writes b' !! k = None) -> coherent b'.
Proof.
  intros [Hc1 Hc2 Hr Hw] [Hf _ Er Ec1 Ec2] Hj Hk Hrk. pose proof (frame_stored _ _ Hf) as Hs.
  destruct Hf as (_ & _ & Hl & _). change (stored (with_live b (live_inserts b ∖ {[ k ]}))) with (stored b) in Hs.
  split; [by rewrite Ec1|by rewrite Ec2| |].
  - intros j v Hv. eapply lookup_weaken in Hv as Hv'; [|exact Er]. destruct (Hr j v Hv') as (Hn & o & -> & Ho).
    rewrite Hs. split; [|eauto]. destruct (decide (j = k)) as [->|]; [by eapply Hrk|by rewrite Hj].
  - intros j v Hv. rewrite Hs, Hl. cbn. destruct (decide (j = k)) as [->|Hne].
    + destruct (Hk v Hv) as [Hnl He]. destruct v; cbn in *; done.
    + rewrite Hj in Hv by done. specialize (Hw j v Hv). destruct v; cbn in *; try done; set_solver.
Qed.

(** Nothing to do but to forget the key. *)
Lemma uncache_kept b k : exact b ->
  (forall v, writes b !! k = Some v -> needs_live v = false) -> exact (with_live b (live_inserts b ∖ {[ k ]})).
Proof.
  intros Hex Hn. pose proof (ex_coherent _ Hex) as Hco.
  assert (coherent (with_live b (live_inserts b ∖ {[ k ]}))) as Hco'.
  { apply (coherent_unlive b _ k Hco); try done.
    - intros v Hv. split; [by apply Hn|by apply (co_write _ Hco)].
    - intros v Hv. by apply (co_read _ Hco) in Hv as [? _]. }
  destruct Hex as [_ Hr Hc [Hb Hs]]. split; [done|exact Hr|exact Hc|by split].
Qed.

(** A referenced new object is kept until its last reference goes. *)
Lemma uncache_referenced b k o delta : exact b -> writes b !! k = Some (CVCreateAndUpdate o delta) ->
  exists write, Cache_update_in_place (write_cache b) k (CVCreateAndDelete o delta) = Ok write /\
    let b' := with_caches (with_live b (live_inserts b ∖ {[ k ]})) (read_cache b) write in
    exact b' /\ objects b' = objects b /\ (forall j, root_count b' j = root_count b j).
Proof.
  intros Hex Hw. pose proof (ex_coherent _ Hex) as Hco.
  destruct (Cache_update_in_place_total (write_cache b) k (CVCreateAndDelete o delta)) as [write E]; [by exists (CVCreateAndUpdate o delta)|].
  exists write. split; [done|]. cbn zeta.
  set (b0 := with_live b (live_inserts b ∖ {[ k ]})). set (b' := with_caches b0 (read_cache b) write).
  assert (writes b' = <[k := CVCreateAndDelete o delta]> (writes b)) as Hw' by (by apply entries_update_in_place in E).
  destruct (co_write _ Hco _ _ Hw) as (Hnt & Hf & _).
  assert (coherent b') as Hco'.
  { apply (coherent_unlive b b' k Hco).
    - split; try done. cbn. by apply cap_update_in_place in E.
    - intros j Hj. by rewrite Hw', lookup_insert_ne.
    - intros v. rewrite Hw', lookup_insert_eq. by intros [= <-].
    - intros v Hv. change (reads b') with (reads b) in Hv. apply (co_read _ Hco) in Hv as [? _]. congruence. }
  assert (frame b0 b') as Hfr by done.
  assert (objects b' = objects b) as Ho.
  { rewrite (objects_put b0 b' k _ Hfr Hw'). change (objects b0) with (objects b). apply partial_alter_same.
    by rewrite objects_lookup, Hw. }
  assert (forall j, root_count b' j = root_count b j) as Hro.
  { intros j. rewrite (root_count_put b0 b' k _ Hfr Hw'); [done|]. change (writes b0) with (writes b). by rewrite Hw. }
  destruct Hex as [_ Hr Hc [Hb Hs]]. split_and!; [|done..]. split; [done| | |].
  - intros El j oj. rewrite Ho. by apply Hr.
  - intros j. by rewrite Ho.
  - split; [intros j; by rewrite Hro|exact Hs].
Qed.

(** A new object without references is dropped, and its children counted down. *)
Lemma uncache_unreferenced b k o : exact b -> weight b < 2 ^ 31 -> writes b !! k = Some (CVCreate o) ->
  ref_count o = 0 /\ exists b1 b2, remove_from_memory (with_live b (live_inserts b ∖ {[ k ]})) k = Ok (b1, CVCreate o) /\
    update_counts b1 (od_children o) {| ref_delta := -1; root_delta := 0 |} = Ok b2 /\
    exact b2 /\ fewer b b2 /\ (forall j, root_count b2 j = root_count b j) /\
    live_inserts b2 = live_inserts b ∖ {[ k ]} /\ database b2 = database b.
Proof.
  intros Hex Hwt Hw. pose proof (ex_coherent _ Hex) as Hco. destruct (co_write _ Hco _ _ Hw) as [Hf _].
  unfold fresh in Hf. rewrite counted in Hf. destruct Hf as [Hs Hz]. split; [done|].
  set (b0 := with_live b (live_inserts b ∖ {[ k ]})).
  destruct (remove_memory_spec b0 k (CVCreate o)) as (b1 & E1 & Hf1 & Hw1 & Hr1 & Hc1 & Hd1);
    [by rewrite peek_spec; change (writes b0) with (writes b); rewrite Hw|apply (disjoint_at b k Hco)|].
  assert (coherent b1) as Hco1.
  { apply (coherent_unlive b b1 k Hco).
    - split; try done. rewrite Hr1. apply delete_subseteq.
    - intros j Hj. by rewrite Hw1, lookup_delete_ne.
    - intros v. by rewrite Hw1, lookup_delete_eq.
    - intros v. by rewrite Hr1, lookup_delete_eq. }
  assert (objects b1 = delete k (objects b)) as Ho1.
  { rewrite (objects_drop b0 b1 k Hf1 Hw1). change (stored b0) with (stored b). by rewrite Hs. }
  assert (objects b !! k = Some o) as Ho by (by rewrite objects_lookup, Hw).
  assert (forall j, excess b1 j = occ j (obj_refs o)) as He1.
  { intros j. unfold excess. rewrite Ho1, (refs_to_delete _ _ _ o), <- (ex_counts _ Hex) by done. unfold rc.
    destruct (decide (j = k)) as [->|]; [rewrite lookup_delete_eq, Ho; cbn; lia|rewrite lookup_delete_ne by done; lia]. }
  assert (weight b1 = weight b - Z.of_nat (length (obj_refs o))) as Hwt1.
  { rewrite (weight_update b b1 k), Hw, Hw1, lookup_delete_eq; [unfold entry_weight; cbn; unfold obj_refs; lia|].
    intros j Hj. by rewrite Hw1, lookup_delete_ne. }
  assert (in_range b1) as Hr1'.
  { intros El j oj. rewrite Ho1. intros [_ Hj]%lookup_delete_Some. by apply (ex_range _ Hex El j). }
  destruct (count_down_spec (S (create_and_deletes b1)) (obj_refs o) b1) as (b2 & E2 & Hcd);
    [done|done|intros j; rewrite He1; lia|lia|rewrite deleted_entries_spec; lia|].
  pose proof (cd_frame _ _ _ Hcd) as (Hd2 & _ & Hl2 & _). pose proof Hf1 as (Hd0 & _ & Hl0 & _).
  assert (forall j, root_count b1 j = root_count b j) as Hro1.
  { intros j. rewrite !root_count_pending, Hd0, Hw1. change (database b0) with (database b). change (writes b0) with (writes b).
    destruct (decide (j = k)) as [->|]; [by rewrite lookup_delete_eq, Hw|by rewrite lookup_delete_ne]. }
  exists b1, b2. split_and!; [done|exact E2| | | |by rewrite Hl2, Hl0|by rewrite Hd2, Hd0].
  - eapply exact_counted_down; [|done..]. destruct (ex_roots _ Hex) as [Hb Hst]. split; [intros j; by rewrite Hro1|].
    intros j n. unfold stored. rewrite Hd0. apply Hst.
  - eapply (fewer_trans b b1 b2); [unfold stored; by rewrite Hd0| |apply Hcd]. split; intros j; rewrite Ho1.
    + intros o' [_ Hj]%lookup_delete_Some. by exists o'.
    + destruct (decide (j = k)) as [->|]; [by rewrite lookup_delete_eq|]. rewrite lookup_delete_ne by done. intros [? ?]. congruence.
  - intros j. by rewrite (cd_roots _ _ _ Hcd), Hro1.
Qed.

(** Uncaching forgets a key: a new object that nothing refers to is dropped with
    the objects that only it kept in memory, the others stay. *)
Lemma uncache_spec b k : exact b -> k ∈ live_inserts b -> weight b < 2 ^ 31 ->
  exists b', uncache b k = Ok b' /\ exact b' /\ fewer b b' /\ (forall j, root_count b' j = root_count b j) /\
    live_inserts b' = live_inserts b ∖ {[ k ]} /\ database b' = database b.
Proof.
  intros Hex Hl Hwt. unfold uncache. rewrite bool_decide_true by done. cbn [assert_that mbind outcome_bind].
  set (b0 := with_live b (live_inserts b ∖ {[ k ]})). rewrite peek_spec.
  change (writes b0) with (writes b). change (reads b0) with (reads b).
  assert ((forall v, writes b !! k = Some v -> needs_live v = false) -> exists b', Ok (E := Empty_set) b0 = Ok b' /\ exact b' /\
    fewer b b' /\ (forall j, root_count b' j = root_count b j) /\ live_inserts b' = live_inserts b ∖ {[ k ]} /\
    database b' = database b) as Hkept.
  { intros Hn. exists b0. split_and!; try done; [by apply uncache_kept|by apply fewer_same]. }
  destruct (writes b !! k) as [v|] eqn:Ew.
  - destruct v as [o|delta|delta o|o|o delta|o delta|]; try (apply Hkept; by intros ? [= <-]).
    + destruct (uncache_unreferenced b k o Hex Hwt Ew) as (Hz & b1 & b2 & E1 & E2 & Hrest).
      rewrite Hz, orb_true_r. cbn [assert_that mbind outcome_bind]. fold b0 in E1. rewrite E1. cbn. exists b2. done.
    + destruct (uncache_referenced b k o delta Hex Ew) as (write & E & Hex' & Ho & Hro).
      change (write_cache b0) with (write_cache b). rewrite E. eexists. split; [done|].
      split_and!; try done. by apply fewer_same.
  - destruct (reads b !! k) as [v|] eqn:Er; [|apply Hkept; done].
    destruct (co_read _ (ex_coherent _ Hex) _ _ Er) as (_ & o & -> & _). apply Hkept. done.
Qed.
End ops.
