(* ===== verification/BackendFlush.v ===== *)
(** * Flushing the storage back end

    Writing pending changes to the database keeps the store: every object and
    every root count stays what it was.  A full flush leaves nothing pending, so
    that the database holds the whole store; a flush of evictions shrinks the
    write cache to its bound.  Both hold in both layouts. *)
From S2P Require Import Prelude CostModel DeltaTracking StorageDb Gc Backend BackendInv.

#[local] Arguments cache_insert_new_key : simpl never.

Section flush.
Context {D Handle C : Type} `{Features} `{DBLaws D Handle} `{LruCache ArenaHash CacheValue C} `{!LruLaws ArenaHash CacheValue C}.
#[local] Set Default Proof Using "Type*".
Abbreviation B := (StorageBackend D Handle C).
Implicit Types (b self : B) (k : ArenaHash) (o : OnDiskObject) (delta : Delta).

(** Root counts are in range, and where objects have counts only stored objects
    are stored roots. *)
Record roots_fit b : Prop := {
  rf_bounds k : 0 <= root_count b k < 2 ^ 31;
  rf_stored k n : db_roots (database b) !! k = Some n -> 0 < n < 2 ^ 31 /\ (layout_v2 = false -> is_Some (stored b !! k)) }.

Definition apply_nodes (us : list (ArenaHash * DbUpdate)) (m : gmap ArenaHash OnDiskObject) : gmap ArenaHash OnDiskObject :=
  foldl (fun m u => nodes_after u m) m us.
Definition apply_roots (us : list (ArenaHash * DbUpdate)) (m : gmap ArenaHash Z) : gmap ArenaHash Z :=
  foldl (fun m u => roots_after u m) m us.
Lemma apply_nodes_app us1 us2 m : apply_nodes (us1 ++ us2) m = apply_nodes us2 (apply_nodes us1 m).
Proof. apply foldl_app. Qed.
Lemma apply_roots_app us1 us2 m : apply_roots (us1 ++ us2) m = apply_roots us2 (apply_roots us1 m).
Proof. apply foldl_app. Qed.

(** The updates of one entry make its object and its root count the stored ones. *)
Record flushes b k (v : CacheValue) (us : list (ArenaHash * DbUpdate)) : Prop := {
  fl_nodes m j : m !! k = stored b !! k ->
    apply_nodes us m !! j = if decide (j = k) then objects b !! k else m !! j;
  fl_roots m j : m !! k = db_roots (database b) !! k ->
    apply_roots us m !! j = if decide (j = k) then (if 0 <? root_count b k then Some (root_count b k) else None) else m !! j }.

Lemma db_root_default b k : roots_fit b ->
  let n := default 0 (db_roots (database b) !! k) in
  0 <= n < 2 ^ 31 /\ db_roots (database b) !! k = if 0 <? n then Some n else None.
Proof.
  intros Hr. destruct (db_roots (database b) !! k) as [n|] eqn:E; cbn; [|done].
  destruct (rf_stored _ Hr _ _ E) as [Hn _]. split; [lia|]. by rewrite (proj2 (Z.ltb_lt _ _)) by lia.
Qed.
Lemma flushed_root_ok b self k delta : roots_fit b -> database self = database b ->
  root_delta delta = mem_root_delta (writes b !! k) ->
  flushed_root_count self k delta = Ok (root_count b k).
Proof.
  intros Hr Hd Hm. unfold flushed_root_count. rewrite Hd, get_root_count_spec, Hm. fold (root_count b k).
  destruct (db_root_default b k Hr) as [Hn _]. pose proof (rf_bounds _ Hr k) as Hb. unfold root_count in *.
  rewrite (wrap_i32_id (default 0 _)) by (unfold in_i32; lia). rewrite wrap_i32_id by (unfold in_i32; lia).
  by rewrite (proj2 (Z.leb_le _ _)) by lia.
Qed.

(** The updates: an object, if it has to be written, and a root count, if it
    changed. *)
Definition node_update k (write : bool) o : list (ArenaHash * DbUpdate) := if write then [(k, InsertNode o)] else [].
Definition root_update_list k (changed : bool) (n : Z) : list (ArenaHash * DbUpdate) :=
  if changed then [(k, SetRootCount n)] else [].
Lemma flushes_intro b k v o (write changed : bool) : roots_fit b -> writes b !! k = Some v ->
  (if write then objects b !! k = Some o else objects b !! k = stored b !! k) ->
  (changed = false -> mem_root_delta (Some v) = 0) ->
  flushes b k v (node_update k write o ++ root_update_list k changed (root_count b k)).
Proof.
  intros Hr Hw Ho Hc. split; intros m j Hm.
  - rewrite apply_nodes_app. destruct write, changed; cbn; destruct (decide (j = k)) as [->|];
      rewrite ?lookup_insert_eq, ?lookup_insert_ne by done; congruence.
  - rewrite apply_roots_app. assert (apply_roots (node_update k write o) m = m) as -> by (by destruct write).
    destruct changed; cbn.
    + destruct (0 <? root_count b k), (decide (j = k)) as [->|];
        by rewrite ?lookup_insert_eq, ?lookup_insert_ne, ?lookup_delete_eq, ?lookup_delete_ne.
    + destruct (decide (j = k)) as [->|]; [|done]. unfold root_count. rewrite Hw, Hc by done.
      destruct (db_root_default b k Hr) as [_ E]. cbn in E. rewrite Hm, E at 1. by rewrite Z.add_0_r.
Qed.

(** ** One entry *)
Definition sets_root (us : list (ArenaHash * DbUpdate)) : bool :=
  existsb (fun u => match u.2 with SetRootCount _ => true | _ => false end) us.
(** The collector is told to look at the roots again when they change. *)
Definition told (gc gc' : GcState Handle) (us : list (ArenaHash * DbUpdate)) : Prop :=
  gc' = if gc_v1 && sets_root us then force_rescan gc else gc.
Lemma told_trans gc1 gc2 gc3 us1 us2 : told gc1 gc2 us1 -> told gc2 gc3 us2 -> told gc1 gc3 (us1 ++ us2).
Proof.
  unfold told, sets_root. intros -> ->. rewrite existsb_app. destruct gc_v1; cbn; [|done].
  by destruct (existsb _ us1), (existsb _ us2).
Qed.

(** What flushing changes besides the updates it collects. *)
Record collects self self' : Prop := {
  col_database : database self' = database self;
  col_writes : writes self' = writes self;
  col_reads : reads self' = reads self;
  col_size : cache_size self' = cache_size self;
  col_live : live_inserts self' = live_inserts self;
  col_stats : stats self' = stats self;
  col_write_cap : lru_cap (write_cache self') = lru_cap (write_cache self);
  col_read_cap : lru_cap (read_cache self') = lru_cap (read_cache self) }.
Lemma collects_rescan self : collects self (rescan_gc self).
Proof. unfold rescan_gc. by destruct gc_v1. Qed.

(** The value that is flushed: an update meets its object first. *)
Definition flushed_value (d : option OnDiskObject) (v : CacheValue) : CacheValue :=
  match v, d with
  | CVUpdate delta, Some o => if layout_v2 then v else CVReadAndUpdate delta (bump delta o)
  | _, _ => v
  end.

Lemma flush_root_part b self k v delta (ups : list (ArenaHash * DbUpdate)) o (write : bool) :
  roots_fit b -> writes b !! k = Some v -> database self = database b -> root_delta delta = mem_root_delta (Some v) ->
  (if write then objects b !! k = Some o else objects b !! k = stored b !! k) ->
  exists self' us,
    (if negb (root_delta delta =? 0) then
       root_count ← flushed_root_count self k delta; Ok (set_root self k root_count (ups ++ node_update k write o))
     else Ok (self, ups ++ node_update k write o)) = Ok (self', ups ++ us) /\
    flushes b k v us /\ collects self self' /\ told (gc_state self) (gc_state self') us.
Proof.
  intros Hr Hw Hd Hm Ho. pose proof (flushes_intro b k v o write (negb (root_delta delta =? 0)) Hr Hw Ho) as Hfl.
  destruct (Z.eqb_spec (root_delta delta) 0) as [E|E]; cbn [negb] in *.
  - exists self, (node_update k write o ++ root_update_list k false (root_count b k)). cbn. rewrite app_nil_r in *.
    split_and!; [done|apply Hfl; congruence|done|]. unfold told, sets_root. destruct write; cbn; by rewrite andb_false_r.
  - rewrite (flushed_root_ok b) by (done || by rewrite Hw). cbn [mbind outcome_bind].
    exists (rescan_gc self), (node_update k write o ++ root_update_list k true (root_count b k)).
    split_and!; [by rewrite app_assoc|by apply Hfl|apply collects_rescan|].
    unfold told, rescan_gc, sets_root. rewrite existsb_app. cbn. rewrite orb_true_r, andb_true_r. by destruct gc_v1.
Qed.

Lemma app_if (ups : list (ArenaHash * DbUpdate)) k (write : bool) o :
  (if write then ups ++ [(k, InsertNode o)] else ups) = ups ++ node_update k write o.
Proof. destruct write; [done|]. cbn. by rewrite app_nil_r. Qed.
Lemma bump_no_ref delta o : ref_delta delta = 0 -> bump delta o = o.
Proof. intros E. unfold bump. destruct layout_v2; [done|]. destruct o. cbn. rewrite E. f_equal. lia. Qed.

(** The four kinds of pending values. *)
Lemma flush_read_and_update b self k v delta o ups : roots_fit b -> writes b !! k = Some v -> database self = database b ->
  root_delta delta = mem_root_delta (Some v) -> stored b !! k = Some o -> objects b !! k = Some (bump delta o) ->
  exists self' us, flush_updates self ups k (CVReadAndUpdate delta (bump delta o)) = Ok (self', ups ++ us) /\
    flushes b k v us /\ collects self self' /\ told (gc_state self) (gc_state self') us.
Proof.
  intros Hr Hw Hd Hm Hs Ho. cbn [flush_updates]. rewrite app_if. apply (flush_root_part b); try done.
  destruct (Z.eqb_spec (ref_delta delta) 0) as [E|E]; [|destruct layout_v2 eqn:El]; cbn.
  - rewrite andb_false_r. by rewrite Ho, Hs, bump_no_ref.
  - rewrite Ho, Hs. unfold bump. by rewrite El.
  - done.
Qed.
Lemma created_root b k v o delta : coherent b -> roots_fit b -> writes b !! k = Some v -> layout_v2 = false ->
  fresh (stored b !! k) o (ref_delta delta) -> root_delta delta = mem_root_delta (Some v) -> root_delta delta <> 0 ->
  (_ ← assert_that (0 <? root_delta delta); Ok (root_delta delta)) = Ok (E := Empty_set) (root_count b k).
Proof.
  intros Hco Hr Hw El Hf Hm Hne. unfold fresh in Hf. rewrite El in Hf. destruct Hf as [Hs _].
  pose proof (rf_bounds _ Hr k) as Hb. unfold root_count in *. rewrite Hw, <- Hm in *.
  destruct (db_roots (database b) !! k) as [n|] eqn:En.
  { destruct (rf_stored _ Hr _ _ En) as [_ Hst]. destruct (Hst El). congruence. }
  cbn in *. by rewrite (proj2 (Z.ltb_lt _ _)) by lia.
Qed.
Lemma flush_created b self k v delta o ups : coherent b -> roots_fit b -> writes b !! k = Some v -> database self = database b ->
  root_delta delta = mem_root_delta (Some v) -> fresh (stored b !! k) o (ref_delta delta) -> objects b !! k = Some o ->
  exists self' us,
    (let updates := ups ++ [(k, InsertNode o)] in
     if negb (root_delta delta =? 0) then
       root_count ← if layout_v2 then flushed_root_count self k delta
                    else (_ ← assert_that (0 <? root_delta delta); Ok (root_delta delta));
       Ok (set_root self k root_count updates)
     else Ok (self, updates)) = Ok (self', ups ++ us) /\
    flushes b k v us /\ collects self self' /\ told (gc_state self) (gc_state self') us.
Proof.
  intros Hco Hr Hw Hd Hm Hf Ho.
  destruct (flush_root_part b self k v delta ups o true Hr Hw Hd Hm Ho) as (self' & us & E & Hrest).
  exists self', us. split; [|done]. rewrite <- E. cbn [node_update].
  destruct (Z.eqb_spec (root_delta delta) 0) as [E0|E0]; cbn [negb]; [done|].
  destruct layout_v2 eqn:El; [done|]. rewrite (created_root b k v o delta Hco Hr Hw El Hf Hm E0).
  by rewrite (flushed_root_ok b) by (done || by rewrite Hw).
Qed.

Lemma flush_updates_spec b self k v ups : coherent b -> roots_fit b -> writes b !! k = Some v -> database self = database b ->
  exists self' us, flush_updates self ups k (flushed_value (stored b !! k) v) = Ok (self', ups ++ us) /\
    flushes b k v us /\ collects self self' /\ told (gc_state self) (gc_state self') us.
Proof.
  intros Hco Hr Hw Hd. pose proof (co_write _ Hco _ _ Hw) as He. pose proof (objects_lookup b k) as Ho. rewrite Hw in Ho.
  destruct v as [o|delta|delta o|o|o delta|o delta|]; cbn [entry_ok value_obj get_obj] in *; try done.
  - destruct He as [Hnt He]. unfold flushed_value. destruct layout_v2 eqn:El.
    + assert (objects b !! k = stored b !! k) as Ho'.
      { rewrite Ho. destruct (stored b !! k); [cbn; unfold bump; by rewrite El|done]. }
      set (unused := {| od_data := []; ref_count := 0; od_children := [] |}).
      destruct (flush_root_part b self k _ delta ups unused false Hr Hw Hd eq_refl Ho') as (self' & us & E & Hrest).
      exists self', us. split; [|done]. cbn in E. rewrite app_nil_r in E.
      destruct (stored b !! k); cbn [flush_updates]; rewrite El; exact E.
    + destruct (He eq_refl) as [o Hs]. rewrite Hs in *. by apply flush_read_and_update.
  - destruct He as (Hnt & o0 & Hs & ->). by apply flush_read_and_update.
  - destruct He as [Hf Hl]. exists self, (node_update k true o ++ root_update_list k false (root_count b k)).
    split_and!; [by rewrite app_nil_r|by apply flushes_intro|done|]. unfold told. cbn. by rewrite andb_false_r.
  - destruct He as (Hnt & Hf & Hl). by apply flush_created.
  - destruct He as (Hnt & Hf). by apply flush_created.
Qed.

(** The back end while the entries of the keys [ks] of [b] are flushed. *)
Record flushing b (ks : list ArenaHash) self self' : Prop := {
  fg_database : database self' = database self;
  fg_writes : writes self' = writes self;
  fg_reads j v : reads self' !! j = Some v ->
    reads self !! j = Some v \/ (j ∈ ks /\ exists o, v = CVRead o /\ objects b !! j = Some o);
  fg_size : cache_size self' = cache_size self;
  fg_live : live_inserts self' = live_inserts self;
  fg_write_cap : lru_cap (write_cache self') = lru_cap (write_cache self);
  fg_read_cap : lru_cap (read_cache self') = lru_cap (read_cache self) }.
Lemma flushing_trans b ks1 ks2 s1 s2 s3 :
  flushing b ks1 s1 s2 -> flushing b ks2 s2 s3 -> flushing b (ks1 ++ ks2) s1 s3.
Proof.
  intros [] []. split; try congruence. intros j v Hv. destruct (fg_reads1 j v Hv) as [Hv'|[Hj ?]]; [|set_solver].
  destruct (fg_reads0 j v Hv') as [?|[Hj ?]]; [by left|set_solver].
Qed.
Lemma flushing_collects b k self self1 self' :
  flushing b [k] self self1 -> collects self1 self' -> flushing b [k] self self'.
Proof. intros [] []. split; try congruence. intros j v. rewrite col_reads0. auto. Qed.

Lemma flushing_insert b self k o : lru_cap (read_cache self) <> Some 0%nat -> objects b !! k = Some o ->
  exists self1, cache_insert_new_key self k (CVRead o) = Ok self1 /\ flushing b [k] self self1 /\ gc_state self1 = gc_state self.
Proof.
  intros Hcap Ho. destruct (insert_read self k o Hcap) as (self1 & E & (Hd & Hs & Hl & _ & Hg) & Hw & _ & Hr & Hc1 & Hc2).
  exists self1. split_and!; [done| |done]. split; try done. intros j v Hv. eapply lookup_weaken in Hv; [|exact Hr].
  apply lookup_insert_Some in Hv as [[<- <-]|[_ Hv]]; [right; set_solver|by left].
Qed.

Lemma flush_one_spec b self k v ups : coherent b -> in_range b -> roots_fit b -> writes b !! k = Some v ->
  database self = database b -> lru_cap (read_cache self) <> Some 0%nat ->
  exists self' us, flush_one (self, ups) (k, v) = Ok (self', ups ++ us) /\ flushes b k v us /\
    flushing b [k] self self' /\ told (gc_state self) (gc_state self') us.
Proof.
  intros Hco Hr Hrf Hw Hd Hcap. pose proof (co_write _ Hco _ _ Hw) as He.
  pose proof (objects_lookup b k) as Ho. rewrite Hw in Ho.
  assert (forall self1, flushing b [k] self self1 -> gc_state self1 = gc_state self ->
    exists self' us, flush_updates self1 ups k (flushed_value (stored b !! k) v) = Ok (self', ups ++ us) /\
      flushes b k v us /\ flushing b [k] self self' /\ told (gc_state self) (gc_state self') us) as Hups.
  { intros self1 Hfg Hg.
    destruct (flush_updates_spec b self1 k v ups Hco Hrf Hw) as (self' & us & E & Hfl & Hcol & Ht);
      [rewrite (fg_database _ _ _ _ Hfg); done|]. exists self', us. rewrite Hg in Ht.
    split_and!; [done|done|by eapply flushing_collects|done]. }
  unfold flush_one. assert (match v with CVRead _ => Panic | _ => Ok tt end = Ok (E := Empty_set) tt) as -> by (by destruct v).
  cbn [mbind outcome_bind]. destruct layout_v2 eqn:El.
  - assert (flushed_value (stored b !! k) v = v) as Ev by (unfold flushed_value; rewrite El; destruct v, (stored b !! k); done).
    rewrite Ev in Hups. destruct (get_obj v) as [o|] eqn:Eg.
    + destruct (flushing_insert b self k o Hcap) as (self1 & -> & Hfg & Hg); [rewrite Ho; by destruct v|].
      by apply Hups.
    + apply Hups; [|done]. by split; auto.
  - assert (match v with
            | CVUpdate delta => obj ← unwrap (get_node (database self) k); obj ← apply_delta obj delta; Ok (CVReadAndUpdate delta obj)
            | _ => Ok v end = Ok (flushed_value (stored b !! k) v)) as ->.
    { destruct v as [|delta| | | | |]; try done. cbn in He. destruct He as [_ Hs]. destruct (Hs El) as [o Hs'].
      rewrite Hd, get_node_spec. fold (stored b). rewrite Hs'. cbn [unwrap mbind outcome_bind].
      pose proof (in_range_update b k delta o Hr Hw Hs') as Eb. unfold count_delta in Eb. rewrite El in Eb. rewrite Eb.
      unfold flushed_value. by rewrite El. }
    cbn [mbind outcome_bind].
    assert (exists o, get_obj (flushed_value (stored b !! k) v) = Some o /\ objects b !! k = Some o) as (o & Eg & Ho').
    { destruct v as [|delta| | | | |]; cbn in *; try done; eauto. destruct He as [_ Hs]. destruct (Hs El) as [o Hs'].
      rewrite Hs' in *. rewrite El. cbn in *. eauto. }
    rewrite Eg. cbn [unwrap mbind outcome_bind].
    destruct (flushing_insert b self k o Hcap Ho') as (self1 & -> & Hfg & Hg). by apply Hups.
Qed.

(** ** All entries of a list *)
Lemma flush_fold b L : forall self ups, coherent b -> in_range b -> roots_fit b ->
  NoDup L.*1 -> Forall (fun p => writes b !! p.1 = Some p.2) L ->
  database self = database b -> lru_cap (read_cache self) <> Some 0%nat ->
  exists self' us, try_fold flush_one (self, ups) L = Ok (self', ups ++ us) /\
    flushing b L.*1 self self' /\ told (gc_state self) (gc_state self') us /\
    (forall m j, (forall k, k ∈ L.*1 -> m !! k = stored b !! k) ->
       apply_nodes us m !! j = if decide (j ∈ L.*1) then objects b !! j else m !! j) /\
    (forall m j, (forall k, k ∈ L.*1 -> m !! k = db_roots (database b) !! k) ->
       apply_roots us m !! j = if decide (j ∈ L.*1) then (if 0 <? root_count b j then Some (root_count b j) else None) else m !! j).
Proof.
  induction L as [|[k v] L IH]; intros self ups Hco Hr Hrf Hnd Hw Hd Hcap; cbn [try_fold].
  - exists self, []. rewrite app_nil_r. split_and!; try done; [by split; auto|].
    unfold told, sets_root. cbn. by rewrite andb_false_r.
  - cbn in Hnd. apply list.NoDup_cons in Hnd as [Hk Hnd]. apply list.Forall_cons in Hw as [Hv Hw]. cbn in Hv.
    destruct (flush_one_spec b self k v ups Hco Hr Hrf Hv Hd Hcap) as (self1 & us1 & -> & [Hn1 Hr1] & Hf1 & Ht1).
    cbn [mbind outcome_bind].
    destruct (IH self1 (ups ++ us1)) as (self2 & us2 & E2 & Hf2 & Ht2 & Hn2 & Hr2);
      [done..|by rewrite (fg_database _ _ _ _ Hf1)|by rewrite (fg_read_cap _ _ _ _ Hf1)|].
    exists self2, (us1 ++ us2). rewrite E2, <- app_assoc. split_and!; [done| |by eapply told_trans| |].
    + exact (flushing_trans b [k] L.*1 self self1 self2 Hf1 Hf2).
    + intros m j Hm. cbn in Hm. rewrite apply_nodes_app, Hn2.
      * destruct (decide (j ∈ L.*1)); [rewrite decide_True; [done|set_solver]|]. rewrite Hn1 by (apply Hm; set_solver).
        cbn. destruct (decide (j = k)) as [->|]; [by rewrite decide_True by set_solver|]. rewrite decide_False; [done|set_solver].
      * intros i Hi. rewrite Hn1 by (apply Hm; set_solver). rewrite decide_False by set_solver. apply Hm. set_solver.
    + intros m j Hm. cbn in Hm. rewrite apply_roots_app, Hr2.
      * destruct (decide (j ∈ L.*1)); [rewrite decide_True; [done|set_solver]|]. rewrite Hr1 by (apply Hm; set_solver).
        cbn. destruct (decide (j = k)) as [->|]; [by rewrite decide_True by set_solver|]. rewrite decide_False; [done|set_solver].
      * intros i Hi. rewrite Hr1 by (apply Hm; set_solver). rewrite decide_False by set_solver. apply Hm. set_solver.
Qed.

(** The back end whose entries for the keys [ks] have been taken out of the
    write cache. *)
Record taken b (ks : list ArenaHash) b0 : Prop := {
  tk_database : database b0 = database b;
  tk_reads : reads b0 = reads b;
  tk_writes j : writes b0 !! j = if decide (j ∈ ks) then None else writes b !! j;
  tk_size : cache_size b0 = cache_size b;
  tk_live : live_inserts b0 = live_inserts b;
  tk_gc : gc_state b0 = gc_state b;
  tk_write_cap : lru_cap (write_cache b0) = lru_cap (write_cache b);
  tk_read_cap : lru_cap (read_cache b0) = lru_cap (read_cache b) }.

(** The result of a flush. *)
Record flushed b (ks : list ArenaHash) b' : Prop := {
  fd_coherent : coherent b';
  fd_store : same_store b b';
  fd_roots_fit : roots_fit b';
  fd_stored j : stored b' !! j = if decide (j ∈ ks) then objects b !! j else stored b !! j;
  fd_db_roots j : db_roots (database b') !! j =
    if decide (j ∈ ks) then (if 0 <? root_count b j then Some (root_count b j) else None) else db_roots (database b) !! j;
  fd_writes j : writes b' !! j = if decide (j ∈ ks) then None else writes b !! j;
  fd_size : cache_size b' = cache_size b;
  fd_gc : gc_v1 = true ->
    (gc_state b' = gc_state b /\ db_roots (database b') = db_roots (database b)) \/ gc_state b' = force_rescan (gc_state b) }.

Lemma entry_object b j v : coherent b -> layout_v2 = false -> writes b !! j = Some v -> is_Some (objects b !! j).
Proof.
  intros Hco El Hw. pose proof (co_write _ Hco _ _ Hw) as He. rewrite objects_lookup, Hw.
  destruct v; cbn in *; try done; eauto. destruct He as [_ Hs]. by apply fmap_is_Some, Hs.
Qed.
Lemma apply_roots_none us m : sets_root us = false -> apply_roots us m = m.
Proof.
  revert m. induction us as [|[k u] us IH]; intros m; cbn; [done|]. rewrite orb_false_iff. intros [Hu Hus].
  destruct u; cbn in *; try done; by apply IH.
Qed.

(** What a flush of a list of entries leaves, from the updates it made. *)
Lemma flushed_intro b b' (ks : list ArenaHash) : coherent b -> roots_fit b -> (forall k, k ∈ ks -> is_Some (writes b !! k)) ->
  (forall j, stored b' !! j = if decide (j ∈ ks) then objects b !! j else stored b !! j) ->
  (forall j, db_roots (database b') !! j =
    if decide (j ∈ ks) then (if 0 <? root_count b j then Some (root_count b j) else None) else db_roots (database b) !! j) ->
  (forall j, writes b' !! j = if decide (j ∈ ks) then None else writes b !! j) ->
  (forall j v, reads b' !! j = Some v -> reads b !! j = Some v \/ (j ∈ ks /\ exists o, v = CVRead o /\ objects b !! j = Some o)) ->
  live_inserts b' = live_inserts b -> lru_cap (write_cache b') = lru_cap (write_cache b) ->
  lru_cap (read_cache b') = lru_cap (read_cache b) ->
  coherent b' /\ same_store b b' /\ roots_fit b'.
Proof.
  intros Hco Hrf Hks Hs Hdr Hw Hr Hl Hc1 Hc2.
  assert (forall j, root_count b' j = root_count b j) as Hro.
  { intros j. unfold root_count at 1. rewrite Hdr, Hw. pose proof (rf_bounds _ Hrf j). destruct (decide (j ∈ ks)); [|done].
    destruct (Z.ltb_spec 0 (root_count b j)); cbn; lia. }
  split_and!.
  - split; [by rewrite Hc1; apply Hco|by rewrite Hc2; apply Hco| |].
    + intros j v Hv. rewrite Hs, Hw. destruct (Hr j v Hv) as [Hv'|(Hj & o & -> & Ho)].
      * destruct (co_read _ Hco _ _ Hv') as (Hn & o & -> & Ho). rewrite !decide_False; [eauto|..];
          (intros Hj; destruct (Hks j Hj); congruence).
      * rewrite !decide_True by done. eauto.
    + intros j v. rewrite Hw, Hs, Hl. destruct (decide (j ∈ ks)); [done|]. apply Hco.
  - split_and!; [|done|done]. apply map_eq. intros j. rewrite objects_lookup, Hw, Hs. destruct (decide (j ∈ ks)); [done|].
    by rewrite objects_lookup.
  - split; [intros j; rewrite Hro; apply Hrf|]. intros j n. rewrite Hdr, Hs. destruct (decide (j ∈ ks)) as [Hj|]; [|apply Hrf].
    pose proof (rf_bounds _ Hrf j). destruct (Z.ltb_spec 0 (root_count b j)); [|done]. intros [= <-]. split; [lia|].
    intros El. destruct (Hks j Hj) as [v Hv]. by eapply entry_object.
Qed.

Lemma flush_to_db_spec b b0 L : coherent b -> in_range b -> roots_fit b ->
  NoDup L.*1 -> Forall (fun p => writes b !! p.1 = Some p.2) L -> taken b L.*1 b0 ->
  exists b', flush_to_db b0 L = Ok b' /\ flushed b L.*1 b'.
Proof.
  intros Hco Hr Hrf Hnd HL [Td Tr Tw Ts Tl Tg Tc1 Tc2].
  destruct (flush_fold b L b0 [] Hco Hr Hrf Hnd HL Td) as (self & us & E & Hfg & Ht & Hn & Hro);
    [rewrite Tc2; apply Hco|].
  unfold flush_to_db. rewrite E. cbn [mbind outcome_bind app].
  assert (database self = database b) as Hd by (rewrite (fg_database _ _ _ _ Hfg); done).
  set (b' := with_database self (batch_update (database self) us)). exists b'. split; [done|].
  assert (forall j, stored b' !! j = if decide (j ∈ L.*1) then objects b !! j else stored b !! j) as Hs'.
  { intros j. unfold stored at 1. cbn. rewrite batch_update_nodes, Hd. by apply Hn. }
  assert (forall j, db_roots (database b') !! j = if decide (j ∈ L.*1) then
    (if 0 <? root_count b j then Some (root_count b j) else None) else db_roots (database b) !! j) as Hdr'.
  { intros j. cbn. rewrite batch_update_roots, Hd. by apply Hro. }
  assert (forall j, writes b' !! j = if decide (j ∈ L.*1) then None else writes b !! j) as Hw'.
  { intros j. change (writes b') with (writes self). by rewrite (fg_writes _ _ _ _ Hfg). }
  destruct (flushed_intro b b' L.*1) as (Hco' & Hss & Hrf'); try done.
  - intros k (p & -> & Hp)%list_elem_of_fmap. rewrite list.Forall_forall in HL. rewrite (HL p Hp). eauto.
  - intros j v Hv. rewrite <- Tr. by apply (fg_reads _ _ _ _ Hfg).
  - change (live_inserts b') with (live_inserts self). by rewrite (fg_live _ _ _ _ Hfg).
  - change (write_cache b') with (write_cache self). by rewrite (fg_write_cap _ _ _ _ Hfg).
  - change (read_cache b') with (read_cache self). by rewrite (fg_read_cap _ _ _ _ Hfg).
  - split; try done.
    + change (cache_size b') with (cache_size self). by rewrite (fg_size _ _ _ _ Hfg).
    + intros Eg. change (gc_state b') with (gc_state self). unfold told in Ht. rewrite Eg, Tg in Ht. cbn [andb] in Ht.
      destruct (sets_root us) eqn:Es; [by right|left]. split; [done|].
      cbn. rewrite batch_update_roots, Hd. by apply apply_roots_none.
Qed.

(** ** Flushing everything, and the evictions *)
Lemma flush_all_spec b : coherent b -> in_range b -> roots_fit b ->
  exists b', flush_all_changes_to_db b = Ok b' /\ flushed b (Cache_iter (write_cache b)).*1 b' /\
    writes b' = ∅ /\ stored b' = objects b.
Proof.
  intros Hco Hr Hrf. unfold flush_all_changes_to_db.
  assert (forall j, j ∈ (Cache_iter (write_cache b)).*1 <-> is_Some (writes b !! j)) as Hin.
  { intros j. rewrite list_elem_of_fmap. split.
    - intros ([k v] & -> & Hp%elem_iter). by exists v.
    - intros [v Hv]. exists (j, v). split; [done|]. by apply elem_iter. }
  destruct (flush_to_db_spec b (with_caches b (read_cache b) (Cache_clear (write_cache b))) (Cache_iter (write_cache b)))
    as (b' & E & Hfl); try done.
  - apply lru_iter_nodup.
  - apply list.Forall_forall. intros [k v] Hp. by apply elem_iter.
  - split; try done.
    + intros j. unfold writes at 1. cbn. rewrite entries_clear, lookup_empty. case_decide as Hj; [done|].
      symmetry. apply eq_None_not_Some. by rewrite <- Hin.
    + cbn. by rewrite cap_clear.
  - assert (writes b' = ∅) as Hw.
    { apply map_eq. intros j. rewrite (fd_writes _ _ _ Hfl), lookup_empty. case_decide as Hj; [done|].
      apply eq_None_not_Some. by rewrite <- Hin. }
    exists b'. split_and!; [done..|]. apply map_eq. intros j. destruct (fd_store _ _ _ Hfl) as (Ho & _).
    rewrite <- Ho, objects_lookup, Hw, lookup_empty. done.
Qed.

Lemma pop_evictions_spec fuel n : forall (w : C) acc, (length (lru_iter w) <= n + fuel)%nat ->
  exists w' popped, pop_evictions fuel n w acc = Ok (w', acc ++ popped) /\
    lru_iter w = lru_iter w' ++ reverse popped /\ (length (lru_iter w') <= n)%nat /\ lru_cap w' = lru_cap w.
Proof.
  induction fuel as [|fuel IH]; intros w acc Hlen; cbn [pop_evictions]; unfold Cache_len; rewrite lru_len_iter.
  - rewrite (proj2 (Nat.ltb_ge _ _)) by lia. exists w, []. rewrite !app_nil_r. split_and!; try done. lia.
  - destruct (Nat.ltb_spec n (length (lru_iter w))) as [Hlt|Hge].
    2: { exists w, []. rewrite !app_nil_r. done. }
    destruct (exists_last (l := lru_iter w)) as (l & e & El); [intros En; rewrite En in Hlt; cbn in Hlt; lia|].
    destruct (lru_pop_lru_snoc w l e El) as [Hi Hp]. pose proof (lru_cap_pop_lru w) as Hc. unfold Cache_pop_lru.
    destruct (lru_pop_lru w) as [w1 popped]. cbn [fst snd] in *. subst popped. cbn [unwrap mbind outcome_bind].
    destruct (IH w1 (acc ++ [e])) as (w' & popped & E & Hw' & Hlen' & Hcap); [rewrite El, length_app in Hlen; rewrite Hi; cbn in Hlen; lia|].
    exists w', (e :: popped). rewrite E, <- app_assoc. split_and!; [done| |done|congruence].
    rewrite El, <- Hi, Hw', reverse_cons, app_assoc. done.
Qed.

Context `{HashOrderLaws}.

(** Entries at the end of the write cache are taken out. *)
Lemma taken_evictions b w' popped : lru_iter (write_cache b) = lru_iter w' ++ reverse popped ->
  lru_cap w' = lru_cap (write_cache b) ->
  NoDup popped.*1 /\ Forall (fun p => writes b !! p.1 = Some p.2) popped /\
  taken b popped.*1 (with_caches b (read_cache b) w').
Proof.
  intros Hi Hc. pose proof (lru_iter_nodup (write_cache b)) as Hnd. rewrite Hi, fmap_app in Hnd.
  apply list.NoDup_app in Hnd as (Hnd1 & Hdis & Hnd2).
  assert (popped.*1 ≡ₚ (reverse popped).*1) as Hperm by (by rewrite reverse_Permutation).
  split_and!; [by rewrite Hperm| |].
  - apply list.Forall_forall. intros [k v] Hp. apply elem_iter. unfold Cache_iter. rewrite Hi. apply elem_of_app. right.
    by rewrite reverse_Permutation.
  - split; try done. intros j. change (writes (with_caches b (read_cache b) w')) with (entries w').
    unfold writes, entries. rewrite Hi, list_to_map_app. case_decide as Hj.
    + apply not_elem_of_list_to_map_1. intros Hj'. apply (Hdis j Hj'). by rewrite <- Hperm.
    + destruct ((list_to_map (lru_iter w') : gmap ArenaHash CacheValue) !! j) as [v|] eqn:Ev.
      * symmetry. by apply lookup_union_Some_l.
      * rewrite lookup_union_r by done. symmetry. apply not_elem_of_list_to_map_1. by rewrite <- Hperm.
Qed.

Lemma decide_perm {A} (l1 l2 : list ArenaHash) j (x y : A) : l1 ≡ₚ l2 ->
  (if decide (j ∈ l1) then x else y) = (if decide (j ∈ l2) then x else y).
Proof. intros Hp. apply decide_ext. by rewrite Hp. Qed.
Lemma taken_perm b ks ks' b0 : ks ≡ₚ ks' -> taken b ks b0 -> taken b ks' b0.
Proof. intros Hp [Td Tr Tw Ts Tl Tg Tc1 Tc2]. split; try done. intros j. rewrite Tw. by apply decide_perm. Qed.
Lemma flushed_nil b : coherent b -> roots_fit b -> flushed b [] b.
Proof. intros Hco Hr. split; try done. auto. Qed.
Lemma size_entries (w : C) : size (entries w) = length (lru_iter w).
Proof.
  unfold entries. rewrite <- length_map_to_list. apply Permutation_length, map_to_list_to_map, lru_iter_nodup.
Qed.

Lemma flush_evictions_spec b : coherent b -> in_range b -> roots_fit b ->
  exists b' ks, flush_cache_evictions_to_db b = Ok b' /\ flushed b ks b' /\
    (cache_size b <> 0%nat -> (size (writes b') <= cache_size b)%nat).
Proof.
  intros Hco Hr Hrf. unfold flush_cache_evictions_to_db. destruct (cache_size b) as [|n] eqn:En.
  - exists b, []. split_and!; [done|by apply flushed_nil|done].
  - destruct (pop_evictions_spec (Cache_len (write_cache b)) (S n) (write_cache b) [])
      as (w' & popped & -> & Hi & Hlen & Hc); [unfold Cache_len; rewrite lru_len_iter; lia|]. cbn [mbind outcome_bind app].
    destruct (taken_evictions b w' popped Hi Hc) as (Hnd & Hall & Ht).
    pose proof (hash_iter_perm _ popped) as Hperm.
    assert ((hash_iter popped).*1 ≡ₚ popped.*1) as Hperm1 by (by rewrite Hperm).
    destruct (flush_to_db_spec b (with_caches b (read_cache b) w') (hash_iter popped)) as (b' & E & Hfl); try done.
    + by rewrite Hperm1.
    + by rewrite Hperm.
    + by eapply taken_perm.
    + exists b', (hash_iter popped).*1. split_and!; [done..|]. intros _.
      assert (writes b' = entries w') as ->; [|by rewrite size_entries].
      apply map_eq. intros j. rewrite (fd_writes _ _ _ Hfl). rewrite (decide_perm _ _ _ _ _ Hperm1).
      symmetry. apply (tk_writes _ _ _ Ht j).
Qed.
End flush.
