(* ===== verification/BackendFetch.v ===== *)
(** * Pre-fetching ([storage-core/src/backend.rs], [db.rs])

    The breadth-first search of [pre_fetch] ends within the levels its model
    allows, does not panic and only returns stored nodes that are not in memory,
    so that adding them to the read cache keeps the store. *)
From S2P Require Import Prelude CostModel DeltaTracking StorageDb Gc Backend BackendInv BackendCounts BackendOps BackendFlush.

#[local] Set Default Proof Using "Type*".

(** ** The search *)
Section search.
Context {D Handle : Type} `{DBLaws D Handle} (db : D) (cache_get : ArenaHash -> option OnDiskObject) (truncate : bool).
Implicit Types (k : ArenaHash) (ks : list ArenaHash).

(** The keys in [known] include every reference, and those that are not in the
    cache are stored. *)
Definition closed_under (known : gset ArenaHash) : Prop :=
  (forall k n c, cache_get k = Some n -> c ∈ flat_refs (od_children n) -> c ∈ known) /\
  (forall k n c, cache_get k = None -> db_nodes db !! k = Some n -> c ∈ flat_refs (od_children n) -> c ∈ known) /\
  (forall k, k ∈ known -> cache_get k = None -> is_Some (db_nodes db !! k)).

Lemma visit_spec ks visited next unknown visited' next' unknown' :
  foldl (bfs_visit cache_get truncate) (visited, next, unknown) ks = (visited', next', unknown') ->
  visited' = visited ∪ list_to_set ks /\
  (forall c, c ∈ next' -> c ∈ next \/ exists k n, cache_get k = Some n /\ c ∈ flat_refs (od_children n)) /\
  (forall k, k ∈ unknown' -> k ∈ unknown \/ (k ∈ ks /\ cache_get k = None)) /\
  ((forall k, k ∈ ks -> k ∈ visited) -> next' = next /\ unknown' = unknown).
Proof.
  revert visited next unknown. induction ks as [|k ks IH]; intros visited next unknown; cbn [foldl].
  { intros [= <- <- <-]. split_and!; [set_solver|auto..]. }
  unfold bfs_visit at 2. case_bool_decide as Hv; intros E.
  - apply IH in E as (-> & Hn & Hu & Hsame). split_and!; [set_solver|done| |].
    + intros j Hj. destruct (Hu j Hj) as [?|[? ?]]; [auto|right; split; [by right|done]].
    + intros Hall. apply Hsame. intros j Hj. apply Hall. by right.
  - destruct (cache_get k) as [n|] eqn:En; apply IH in E as (-> & Hn & Hu & Hsame); split_and!.
    + set_solver.
    + intros c Hc. destruct (Hn c Hc) as [Hc'|?]; [|auto]. destruct truncate; [auto|].
      apply elem_of_app in Hc' as [?|?]; [auto|right; eauto].
    + intros j Hj. destruct (Hu j Hj) as [?|[? ?]]; [auto|right; split; [by right|done]].
    + intros Hall. destruct Hv. apply Hall. left.
    + set_solver.
    + done.
    + intros j Hj. destruct (Hu j Hj) as [[?| ->%list_elem_of_singleton]%elem_of_app|[? ?]]; [auto|right; split; [left|done]|right; split; [by right|done]].
    + intros Hall. destruct Hv. apply Hall. left.
Qed.

(** What the search returns. *)
Definition found (kvs : list (ArenaHash * OnDiskObject)) : Prop :=
  Forall (fun kv => cache_get kv.1 = None /\ db_nodes db !! kv.1 = Some kv.2) kvs.
Lemma read_spec depth ks next kvs :
  (forall k, k ∈ ks -> cache_get k = None) -> (depth = 0%nat \/ forall k, k ∈ ks -> is_Some (db_nodes db !! k)) -> found kvs ->
  exists next' kvs', try_fold (bfs_read depth) (next, kvs) (batch_get_nodes db ks) = Ok (next', kvs') /\ found kvs' /\
    (forall c, c ∈ next' -> c ∈ next \/ exists k n, cache_get k = None /\ db_nodes db !! k = Some n /\ c ∈ flat_refs (od_children n)) /\
    (ks = [] -> next' = next).
Proof.
  rewrite batch_get_nodes_spec. revert next kvs. induction ks as [|k ks IH]; intros next kvs Hc Hd Hf; cbn [map try_fold].
  { eexists _, _. split; [done|]. split_and!; auto. }
  assert (Hc' : forall j, j ∈ ks -> cache_get j = None) by (intros; apply Hc; by right).
  assert (Hd' : depth = 0%nat \/ forall j, j ∈ ks -> is_Some (db_nodes db !! j)) by (destruct Hd as [?|Hd]; [auto|right; intros; apply Hd; by right]).
  destruct (db_nodes db !! k) as [n|] eqn:En.
  - change (bfs_read depth (next, kvs) (k, Some n)) with (Ok (E := Empty_set) (next ++ flat_refs (od_children n), kvs ++ [(k, n)])). cbn [mbind outcome_bind].
    destruct (IH (next ++ flat_refs (od_children n)) (kvs ++ [(k, n)])) as (next' & kvs' & -> & Hf' & Hn & _); [done|done| |].
    + apply list.Forall_app. split; [done|]. apply list.Forall_singleton. split; [apply Hc; left|done].
    + eexists _, _. split; [done|]. split_and!; [done| |done]. intros c Hcn. destruct (Hn c Hcn) as [[?|?]%elem_of_app|?]; [auto| |auto].
      right. exists k, n. split_and!; [apply Hc; left|done..].
  - destruct Hd as [->|Hd]; [|destruct (Hd k) as [? ?]; [left|congruence]].
    change (bfs_read 0 (next, kvs) (k, None)) with (Ok (E := Empty_set) (next, kvs)). cbn [mbind outcome_bind].
    destruct (IH next kvs) as (next' & kvs' & -> & Hf' & Hn & _); [done..|]. eexists _, _. split; [done|]. by split_and!.
Qed.
Lemma limit_unknown_sub max_count n ks k : k ∈ limit_unknown max_count n ks -> k ∈ ks.
Proof. destruct max_count; cbn; [|done]. intros Hk. rewrite <- (take_drop (n0 - n) ks). apply elem_of_app. by left. Qed.

(** The levels left: until the depth limit, or until all known keys are visited. *)
Definition enough (key : ArenaHash) (known : gset ArenaHash) (max_depth : option nat) (fuel depth : nat)
    (visited : gset ArenaHash) ks : Prop :=
  match max_depth with
  | Some d => (S d <= fuel + depth)%nat
  | None => ks = [] \/ (S (size (({[ key ]} ∪ known) ∖ visited)) <= fuel)%nat
  end.
Lemma bfs_loop_ok key known max_depth max_count fuel depth visited ks kvs :
  closed_under known -> enough key known max_depth fuel depth visited ks ->
  (forall k, k ∈ ks -> k ∈ known \/ (depth = 0%nat /\ k = key)) -> found kvs ->
  exists kvs', bfs_loop db cache_get truncate fuel max_depth max_count depth visited ks kvs = Ok kvs' /\ found kvs'.
Proof.
  intros Hcl. revert depth visited ks kvs. induction fuel as [|fuel IH]; intros depth visited ks kvs Hen Hks Hf; cbn [bfs_loop].
  - case_bool_decide as Hne; cbn [andb]; [|eauto]. destruct max_depth as [d|]; cbn in Hen; [|by destruct Hen; [|lia]].
    destruct (Nat.leb_spec depth d); [lia|eauto].
  - case_bool_decide as Hne; cbn [andb]; [|eauto]. destruct (match max_depth with Some d => _ | None => true end) eqn:Hdep; [|eauto].
    destruct (foldl _ _ ks) as [[visited' next] unknown] eqn:Ev. apply visit_spec in Ev as (-> & Hnext & Hunk & Hsame).
    set (unk := limit_unknown max_count (length kvs) unknown).
    assert (Hunk' : forall k, k ∈ unk -> k ∈ ks /\ cache_get k = None).
    { intros k Hk%limit_unknown_sub. by destruct (Hunk k Hk) as [?%elem_of_nil|?]. }
    destruct (read_spec depth unk next kvs) as (next' & kvs' & -> & Hf' & Hn' & Hnil); [intros; by apply Hunk'| |done|].
    { destruct depth; [by left|right]. intros k Hk. destruct (Hunk' k Hk) as [Hin Hno]. destruct (Hks k Hin) as [Hkn|[[=] _]].
      by apply (proj2 (proj2 Hcl)). }
    cbn [mbind outcome_bind]. apply IH; [| |done].
    + destruct max_depth as [d|]; cbn in *; [lia|]. destruct Hen as [->|Hen]; [done|].
      destruct (decide (Forall (fun k => k ∈ visited) ks)) as [Hall|Hex].
      * rewrite list.Forall_forall in Hall. destruct (Hsame Hall) as [-> ->]. left. apply Hnil. unfold unk. by destruct max_count; cbn; rewrite ?take_nil.
      * right. apply not_Forall_Exists, list.Exists_exists in Hex as (k & Hk & Hnv); [|apply _].
        assert (size (({[ key ]} ∪ known) ∖ (visited ∪ list_to_set ks)) < size (({[ key ]} ∪ known) ∖ visited))%nat; [|lia].
        apply subset_size. split; [set_solver|]. intros Hsub.
        assert (k ∈ ({[ key ]} ∪ known) ∖ visited) as Hin.
        { apply elem_of_difference. split; [|done]. apply elem_of_union. destruct (Hks k Hk) as [?|[_ ->]]; [by right|left; by apply elem_of_singleton]. }
        apply Hsub, elem_of_difference in Hin as [_ Hin]. apply Hin, elem_of_union. right. by apply elem_of_list_to_set.
    + intros c Hc. left. destruct (Hn' c Hc) as [Hcn|(k & n & Hk & Hd & Hcr)].
      * destruct (Hnext c Hcn) as [?%elem_of_nil|(k & n & Hk & Hcr)]; [done|]. by eapply (proj1 Hcl).
      * by eapply (proj1 (proj2 Hcl)).
Qed.
Lemma bfs_get_nodes_ok key known max_depth max_count n :
  closed_under known -> (size known <= n)%nat ->
  exists kvs, bfs_get_nodes db key cache_get truncate max_depth max_count n = Ok kvs /\ found kvs.
Proof.
  intros Hcl Hn. unfold bfs_get_nodes. apply (bfs_loop_ok key known); [done| | |constructor].
  - destruct max_depth; cbn; [lia|]. right. rewrite difference_empty_L. pose proof (size_union_alt {[ key ]} known) as E.
    pose proof (subseteq_size (known ∖ {[ key ]}) known ltac:(set_solver)). rewrite size_singleton in E. lia.
  - intros k Hk%list_elem_of_singleton. by right.
Qed.
End search.

(** ** Filling the read cache *)
Section fetch.
Context {D Handle C : Type} `{F : Features} `{DBLaws D Handle} `{LruCache ArenaHash CacheValue C} `{!LruLaws ArenaHash CacheValue C}.
Abbreviation B := (StorageBackend D Handle C).
Implicit Types (b : B) (k : ArenaHash).

Lemma memory_len_size b : (size (dom (writes b) ∪ dom (reads b)) <= memory_len b)%nat.
Proof.
  rewrite size_union_alt. unfold memory_len, Cache_len. rewrite !lru_len_iter, <- !size_entries. fold (writes b) (reads b).
  pose proof (subseteq_size (dom (reads b) ∖ dom (writes b)) (dom (reads b)) ltac:(set_solver)) as Hle.
  rewrite !size_dom in *. lia.
Qed.
Lemma objects_size b : (size (dom (objects b)) <= memory_len b + Z.to_nat (db_size (database b)))%nat.
Proof.
  rewrite db_size_spec, Nat2Z.id. fold (stored b). pose proof (memory_len_size b).
  assert (dom (objects b) ⊆ (dom (writes b) ∪ dom (reads b)) ∪ dom (stored b)) as Hsub.
  { intros k [o Ho]%elem_of_dom. rewrite objects_lookup in Ho. destruct (writes b !! k) eqn:Ew.
    - apply elem_of_union_l, elem_of_union_l. by eapply elem_of_dom_2.
    - apply elem_of_union_r. by eapply elem_of_dom_2. }
  apply subseteq_size in Hsub. rewrite size_union_alt in Hsub.
  pose proof (subseteq_size (dom (stored b) ∖ (dom (writes b) ∪ dom (reads b))) (dom (stored b)) ltac:(set_solver)) as Hle.
  rewrite (size_dom (stored b)) in Hle. lia.
Qed.

(** No pending update waits for its object. *)
Definition no_blind_update b : Prop :=
  map_Forall (fun _ v => match v with CVUpdate _ => False | _ => True end) (writes b).
#[global] Instance no_blind_update_dec b : Decision (no_blind_update b).
Proof. apply map_Forall_dec. intros k []; apply _. Defined.

Context {CT : Counted}.
#[local] Set Default Proof Using "All".
(** The references of known objects are known, and a known object that is not
    in memory is stored. *)
Lemma objects_closed b : exact b ->
  closed_under (database b) (fun k => peek_from_memory b k ≫= get_obj) (dom (objects b)).
Proof.
  intros Hex. pose proof (ex_coherent _ Hex) as Hco.
  assert (Hrefs : forall p o c, objects b !! p = Some o -> c ∈ flat_refs (od_children o) -> c ∈ dom (objects b)).
  { intros p o c Hp Hc. apply elem_of_dom. by eapply exact_refs_closed. }
  split_and!.
  - intros k n c Hk. apply (Hrefs k). by apply peek_obj.
  - intros k n c Hk Hd. fold (stored b) in Hd. destruct (peek_no_obj b k Hco Hk) as [_ [Ew|[delta Ew]]].
    + apply (Hrefs k). by rewrite objects_lookup, Ew.
    + rewrite <- (bump_children delta n). apply (Hrefs k). by rewrite objects_lookup, Ew, Hd.
  - intros k [o Ho]%elem_of_dom Hk. fold (stored b). rewrite objects_lookup in Ho.
    destruct (peek_no_obj b k Hco Hk) as [_ [Ew|[delta Ew]]]; rewrite Ew in Ho; cbn in Ho; [eauto|].
    by apply fmap_Some in Ho as (o' & -> & _).
Qed.

Lemma insert_reads kvs b :
  coherent b -> Forall (fun kv => writes b !! kv.1 = None /\ stored b !! kv.1 = Some kv.2) kvs ->
  exists b', try_fold (fun self '(k, v) => cache_insert_new_key self k (CVRead v)) b kvs = Ok b' /\ keeps b b'.
Proof.
  revert b. induction kvs as [|[k o] kvs IH]; intros b Hco Hall; cbn [try_fold].
  { exists b. split; [done|]. by split. }
  apply Forall_cons_1 in Hall as [[Ew Ed] Hall]. cbn in Ew, Ed.
  destruct (insert_stored b k o Hco Ew Ed) as (b1 & -> & Hch & Hco1 & _). cbn [mbind outcome_bind].
  destruct (IH b1 Hco1) as (b2 & -> & Hk2).
  - eapply list.Forall_impl; [exact Hall|]. intros kv [? ?]. rewrite (ch_write _ _ _ _ Hch), (frame_stored _ _ (ch_frame _ _ _ _ Hch)). done.
  - exists b2. split; [done|]. eapply keeps_trans; [|exact Hk2]. by eapply keeps_changes.
Qed.

Lemma pre_fetch_spec b key max_depth truncate : exact b -> no_blind_update b ->
  exists b', pre_fetch b key max_depth truncate = Ok b' /\ keeps b b'.
Proof.
  intros Hex Hnb. pose proof (ex_coherent _ Hex) as Hco. unfold pre_fetch. cbv zeta.
  set (max_count := match cache_size b with O => None | S n => Some (S n) end).
  destruct (bfs_get_nodes_ok (database b) (fun k => peek_from_memory b k ≫= get_obj) truncate key (dom (objects b)) max_depth max_count
    (memory_len b + Z.to_nat (db_size (database b))) (objects_closed b Hex) (objects_size b)) as (kvs & -> & Hf).
  cbn [mbind outcome_bind]. apply insert_reads; [done|]. apply Forall_reverse. eapply list.Forall_impl; [exact Hf|].
  intros [k o] [Hk Hd]. cbn in *. split; [|exact Hd]. destruct (peek_no_obj b k Hco Hk) as [_ [?|[delta Ew]]]; [done|].
  by apply Hnb in Ew.
Qed.
End fetch.
