(* ===== verification/BackendProps.v ===== *)
(** * What the storage back end promises

    The theorems of the back end: its reference counts are exact in every state
    its operations other than the garbage collections lead to and none of these
    panics, reading and flushing keep
    the store, and a run of the garbage collector keeps every object that is
    needed.  The last section runs the back end on small inputs where it loses
    data. *)
From S2P Require Import Prelude CostModel DeltaTracking StorageDb Gc GcProps Backend BackendInv BackendCounts BackendOps.
From S2P Require Import BackendFetch BackendFlush.

(** ** The operations and their contracts

    All but the garbage collections, which are apart: by marking
    ([backend_gc_keeps_reachable] below) and by counts ([gc_by_counts]). *)
Inductive backend_op :=
  | OpGet (k : ArenaHash)
  | OpCache (k : ArenaHash) (data : list Z) (children : list ArenaKey)
  | OpCacheLazy (k : ArenaHash)
  | OpUncache (k : ArenaHash)
  | OpPersist (k : ArenaHash)
  | OpUnpersist (k : ArenaHash)
  | OpPreFetch (k : ArenaHash) (max_depth : option nat) (truncate : bool)
  | OpFlushAll
  | OpFlushEvictions.

Section traces.
Context {D Handle C : Type} `{F : Features} `{DBLaws D Handle} `{LruCache ArenaHash CacheValue C} `{!LruLaws ArenaHash CacheValue C}.
Context `{HashOrderLaws}.
#[local] Set Default Proof Using "All".
Abbreviation B := (StorageBackend D Handle C).
Implicit Types (b : B) (k : ArenaHash).

Definition backend_step b (op : backend_op) : may_panic B :=
  match op with
  | OpGet k => '(b, _) ← get b k; Ok b
  | OpCache k data children => cache b k data children
  | OpCacheLazy k => Ok (cache_lazy b k)
  | OpUncache k => uncache b k
  | OpPersist k => persist b k
  | OpUnpersist k => unpersist b k
  | OpPreFetch k max_depth truncate => pre_fetch b k max_depth truncate
  | OpFlushAll => flush_all_changes_to_db b
  | OpFlushEvictions => flush_cache_evictions_to_db b
  end.

(** The contract of an operation: an object is cached once and after its
    children, uncached after it was cached, unpersisted after it was persisted;
    there are fewer than [2^31] pending references; and nodes are pre-fetched
    while no pending count change waits for an object that is not in memory. *)
Definition backend_allowed b (op : backend_op) : Prop :=
  match op with
  | OpGet _ | OpCacheLazy _ | OpFlushAll | OpFlushEvictions => True
  | OpCache k data children =>
      (k ∉ live_inserts b) /\
      (objects b !! k = None ->
         Forall (fun c => is_Some (objects b !! c)) (flat_refs children) /\
         weight b + 2 * Z.of_nat (length (flat_refs children)) < 2 ^ 31 /\
         total_refs b + Z.of_nat (length (flat_refs children)) <= u64_max)
  | OpUncache k => k ∈ live_inserts b /\ weight b < 2 ^ 31
  | OpPersist k => is_Some (objects b !! k) /\ weight b + 1 < 2 ^ 31 /\ root_count b k + 1 < 2 ^ 31
  | OpUnpersist k => 1 <= root_count b k /\ weight b + 1 < 2 ^ 31
  | OpPreFetch _ _ _ => no_blind_update b
  end.

(** The states that operations lead to, from a back end on an empty database. *)
Inductive backend_reachable : B -> Prop :=
  | reachable_new n db b :
      db_nodes db = ∅ -> db_roots db = ∅ -> StorageBackend_new n db = Ok b -> backend_reachable b
  | reachable_step b op b' :
      backend_reachable b -> backend_allowed b op -> backend_step b op = Ok b' -> backend_reachable b'.

#[global] Instance backend_allowed_dec b op : Decision (backend_allowed b op).
Proof. destruct op; cbn; apply _. Defined.
(** A sequence of allowed operations. *)
Fixpoint run_trace b (ops : list backend_op) : option B :=
  match ops with
  | [] => Some b
  | op :: ops =>
      if decide (backend_allowed b op)
      then match backend_step b op with Ok b => run_trace b ops | _ => None end else None
  end.
Lemma run_trace_reachable ops b b' : run_trace b ops = Some b' -> backend_reachable b -> backend_reachable b'.
Proof.
  revert b. induction ops as [|op ops IH]; intros b; cbn; [by intros [= <-]|].
  case_decide as Hal; [|done]. destruct (backend_step b op) as [b1| |] eqn:E; [|done..].
  intros Ht Hre. eapply IH; [done|]. by eapply reachable_step.
Qed.

Section counted.
Context {CT : Counted}.

Lemma exact_new n db b : db_nodes db = ∅ -> db_roots db = ∅ -> StorageBackend_new n db = Ok b -> exact b.
Proof.
  intros Hn Hr E. unfold StorageBackend_new in E. inv_binds.
  set (b := Build_StorageBackend _ _ _ _ _ _ _).
  assert (reads b = ∅ /\ lru_cap (read_cache b) <> Some 0%nat) as [Hrd Hcap].
  { unfold reads. cbn. destruct n; [injection E0 as <-|].
    - rewrite entries_unbounded. unfold Cache_unbounded. by rewrite lru_cap_unbounded.
    - apply entries_new in E0 as [-> ->]. done. }
  assert (writes b = ∅) as Hw by apply entries_unbounded. assert (stored b = ∅) as Hs by done.
  assert (objects b = ∅) as Ho.
  { apply map_eq. intros k. by rewrite objects_lookup, Hw, Hs, lookup_empty. }
  split.
  - split; [apply lru_cap_unbounded|done| |].
    + intros k v. by rewrite Hrd, lookup_empty.
    + intros k v. by rewrite Hw, lookup_empty.
  - intros _ k o. by rewrite Ho, lookup_empty.
  - intros k. unfold rc, refs_to. rewrite Ho, lookup_empty, map_sum_empty. done.
  - split.
    + intros k. unfold root_count. cbn. rewrite Hr, Hw, !lookup_empty. cbn. lia.
    + intros k m. cbn. by rewrite Hr, lookup_empty.
Qed.

Lemma exact_roots_fit b : exact b -> roots_fit b.
Proof. intros [_ _ _ [Hb Hs]]. split; [done|]. intros k n Hn. destruct (Hs k n Hn). done. Qed.
Lemma exact_flushed b ks b' : exact b -> flushed b ks b' -> exact b'.
Proof.
  intros [Hco Hr Hc _] Hfl. destruct (fd_store _ _ _ Hfl) as (Ho & Hro & _). split; [apply Hfl| | |].
  - intros El k o. rewrite Ho. by apply Hr.
  - intros k. by rewrite Ho.
  - destruct (fd_roots_fit _ _ _ Hfl) as [Hb Hs]. split; [done|]. intros k n Hn. destruct (Hs k n Hn) as [? Hi].
    split; [done|]. apply Hi, counted.
Qed.
Lemma root_known b k : exact b -> 1 <= root_count b k -> is_Some (objects b !! k).
Proof.
  intros Hex Hr. destruct (objects b !! k) as [o|] eqn:Ho; [eauto|].
  destruct (unknown b k (ex_coherent _ Hex) Ho) as (Hw & Hs & _). unfold root_count in Hr. rewrite Hw in Hr.
  destruct (db_roots (database b) !! k) as [n|] eqn:En; [|cbn in Hr; lia].
  destruct (ro_stored _ (ex_roots _ Hex) _ _ En) as [_ [o Hso]]. congruence.
Qed.

(** Every operation that is used as its contract says returns, and keeps the
    counts exact. *)
Lemma backend_step_exact b op : exact b -> backend_allowed b op -> exists b', backend_step b op = Ok b' /\ exact b'.
Proof.
  intros Hex Hal. destruct op as [k|k data children|k|k|k|k|k depth truncate| |]; cbn in *.
  - destruct (get_spec b k (ex_coherent _ Hex) (ex_range _ Hex)) as (b' & -> & Hk). cbn. exists b'.
    split; [done|]. by eapply exact_keeps.
  - destruct Hal as [Hl Hnew]. destruct (objects b !! k) as [o|] eqn:Ho.
    + destruct (cache_known b k data children Hex Hl) as (b' & E & Hex' & _); [by rewrite Ho|eauto].
    + destruct (Hnew eq_refl) as (Hch & Hw & Ht). rewrite list.Forall_forall in Hch.
      destruct (cache_fresh b k data children Hex Hl Ho Hch Hw Ht) as (b' & E & Hex' & _). eauto.
  - exists (cache_lazy b k). split; [done|]. apply exact_live; [done|set_solver].
  - destruct Hal. destruct (uncache_spec b k) as (b' & E & Hex' & _); eauto.
  - destruct Hal as (Hk & Hw & Hr). destruct (persist_spec b k) as (b' & E & Hex' & _); eauto.
  - destruct Hal as (Hr & Hw). destruct (unpersist_spec b k) as (b' & E & Hex' & _); [done|done|by apply root_known|done|eauto].
  - destruct (pre_fetch_spec b k depth truncate Hex Hal) as (b' & -> & Hk). exists b'. split; [done|]. by eapply exact_keeps.
  - destruct (flush_all_spec b (ex_coherent _ Hex) (ex_range _ Hex) (exact_roots_fit b Hex)) as (b' & E & Hfl & _).
    exists b'. split; [done|]. by eapply exact_flushed.
  - destruct (flush_evictions_spec b (ex_coherent _ Hex) (ex_range _ Hex) (exact_roots_fit b Hex)) as (b' & ks & E & Hfl & _).
    exists b'. split; [done|]. by eapply exact_flushed.
Qed.
Lemma reachable_exact b : backend_reachable b -> exact b.
Proof.
  induction 1 as [n db b Hn Hr E|b op b' _ IH Hal E]; [by eapply exact_new|].
  destruct (backend_step_exact b op IH Hal) as (b1 & E1 & Hex1). congruence.
Qed.

End counted.

(** C14: reading and flushing keep the store, in both layouts, from any back end
    whose caches are coherent with the database and whose reference and root
    counts are in the range of their types: [get] returns the object the back end stands for, a full flush leaves nothing pending and a
    database that holds every object and every root count, and a flush of the
    evictions brings the write cache down to its bound. *)
Theorem backend_keeps_store b : coherent b -> in_range b -> roots_fit b ->
  (forall k, exists b', get b k = Ok (b', objects b !! k) /\ coherent b' /\ same_store b b') /\
  (exists b', flush_all_changes_to_db b = Ok b' /\ coherent b' /\ same_store b b' /\
     writes b' = ∅ /\ stored b' = objects b /\
     (forall k, default 0 (db_roots (database b') !! k) = root_count b k)) /\
  (exists b', flush_cache_evictions_to_db b = Ok b' /\ coherent b' /\ same_store b b' /\
     (cache_size b <> 0%nat -> (size (writes b') <= cache_size b)%nat)).
Proof.
  intros Hco Hr Hrf. split_and!.
  - intros k. destruct (get_spec b k Hco Hr) as (b' & E & Hk). exists b'. split_and!; [done|apply Hk..].
  - destruct (flush_all_spec b Hco Hr Hrf) as (b' & E & Hfl & Hw & Hs). exists b'.
    split_and!; [done|apply Hfl..|done|done|]. intros k. destruct (fd_store _ _ _ Hfl) as (_ & Hro & _).
    rewrite <- Hro. unfold root_count. rewrite Hw, lookup_empty. cbn. lia.
  - destruct (flush_evictions_spec b Hco Hr Hrf) as (b' & ks & E & Hfl & Hsz). exists b'. split_and!; [done|apply Hfl..|done].
Qed.

(** ** Garbage collection of the back end *)
Lemma dropped_lookup {A} (m m0 : gmap ArenaHash A) k ks j :
  m !! j = (if decide (j ∈ ks) then None else m0 !! j) -> forall m1, m0 = delete k m1 ->
  m !! j = if decide (j ∈ k :: ks) then None else m1 !! j.
Proof.
  intros -> m1 ->. destruct (decide (j ∈ ks)) as [Hj|Hj]; [by rewrite decide_True by (by right)|].
  destruct (decide (j = k)) as [->|Hne]; [by rewrite lookup_delete_eq, decide_True by left|].
  rewrite lookup_delete_ne, decide_False by (rewrite ?elem_of_cons; naive_solver). done.
Qed.
Lemma drop_keys_spec ks b :
  database (drop_keys b ks) = database b /\ gc_state (drop_keys b ks) = gc_state b /\
  (forall j, writes (drop_keys b ks) !! j = if decide (j ∈ ks) then None else writes b !! j).
Proof.
  revert b. induction ks as [|k ks IH]; intros b; [by split_and!|].
  set (b1 := with_caches b (Cache_remove (read_cache b) k).1 (Cache_remove (write_cache b) k).1).
  change (drop_keys b (k :: ks)) with (drop_keys b1 ks). destruct (IH b1) as (Hd & Hg & Hw).
  split_and!; [exact Hd|exact Hg|]. intros j. eapply dropped_lookup; [apply Hw|]. apply entries_remove.
Qed.

Definition gc_roots b : gset ArenaHash := live_inserts b ∪ dom (db_roots (database b)).
Lemma root_set_live b : root_set (hash_iter (elements (live_inserts b))) (database b) = gc_roots b.
Proof.
  unfold root_set, gc_roots. f_equal. apply set_eq. intros k. by rewrite elem_of_list_to_set, hash_elements.
Qed.
Lemma gc_read_memory b k : is_Some (gc_read b k) -> k ∈ dom (writes b) ∪ dom (reads b).
Proof.
  unfold gc_read. rewrite !Cache_peek_entries. fold (writes b) (reads b). rewrite elem_of_union, !elem_of_dom.
  destruct (writes b !! k); [eauto|]. destruct (reads b !! k); [eauto|]. by intros [? ?].
Qed.

(** A flush of all changes makes the storage sound for the collector, if every
    reference, live key and root is an object of the store: everything needed is
    then stored. *)
Lemma flush_all_sound (links : ArenaHash -> list ArenaHash) b b' :
  coherent b -> in_range b -> roots_fit b ->
  (forall k o, objects b !! k = Some o -> flat_refs (od_children o) = links k) ->
  (forall k o c, objects b !! k = Some o -> c ∈ flat_refs (od_children o) -> is_Some (objects b !! c)) ->
  (forall k, k ∈ live_inserts b \/ 0 < root_count b k -> is_Some (objects b !! k)) ->
  flush_all_changes_to_db b = Ok b' ->
  sound_storage links (gc_read b') (database b') (hash_iter (elements (live_inserts b'))).
Proof.
  intros Hco Hr Hrf Hca Hcl Hroot E. destruct (flush_all_spec b Hco Hr Hrf) as (b1 & E1 & Hfl & Hw & Hs).
  rewrite E in E1. injection E1 as <-. destruct (fd_store _ _ _ Hfl) as (_ & Hrc & Hlive).
  assert (Hin : forall k, reach links (gc_roots b') k -> is_Some (objects b !! k)).
  { induction 1 as [k Hk|k c _ [o Ho] Hc]; [|apply (Hcl k o); [done|by rewrite (Hca k o Ho)]].
    apply Hroot. unfold gc_roots in Hk. rewrite Hlive in Hk. apply elem_of_union in Hk as [?|[n Hn]%elem_of_dom]; [by left|right].
    destruct (rf_stored _ (fd_roots_fit _ _ _ Hfl) _ _ Hn) as [Hpos _]. rewrite <- Hrc. unfold root_count. rewrite Hn, Hw, lookup_empty. cbn. lia. }
  split; rewrite ?root_set_live.
  - split; [|intros k o; fold (stored b'); rewrite Hs; apply Hca]. intros k o. unfold gc_read. rewrite !Cache_peek_entries.
    fold (writes b') (reads b'). rewrite Hw, lookup_empty. destruct (reads b' !! k) as [v|] eqn:Er; [|done].
    destruct (co_read _ (fd_coherent _ _ _ Hfl) _ _ Er) as (_ & o' & -> & Ho'). intros [= <-]. rewrite Hs in Ho'. by apply Hca.
  - intros k Hk. right. fold (stored b'). rewrite Hs. by apply elem_of_dom, Hin.
  - intros k c Hk _ Hc. fold (stored b'). rewrite Hs. apply elem_of_dom, Hin. by eapply reach_link.
Qed.
(** A run of the garbage collector of the back end, with any budget, ends,
    and every object that a live key or a stored root reaches stays in the
    store as it was, given that the stored nodes a root reaches refer to stored
    nodes and that the collector's invariant holds, which it does again after
    the run. *)
Theorem backend_gc_keeps_reachable (links : ArenaHash -> list ArenaHash) b (batches scans : list nat) :
  sound_storage links (gc_read b) (database b) (hash_iter (elements (live_inserts b))) ->
  gc_inv links (gc_state b) (database b) ->
  exists b' n, gc b batches scans = Ok (b', n) /\
    (forall k, reach links (gc_roots b) k -> objects b' !! k = objects b !! k /\ root_count b' k = root_count b k) /\
    gc_inv links (gc_state b') (database b').
Proof.
  intros Hs Hi. unfold gc, gc_override_gc_roots.
  destruct (run_total links (gc_read b) (dom (writes b) ∪ dom (reads b)) (gc_state b) (database b)
    (hash_iter (elements (live_inserts b))) batches scans (memory_len b)) as (gc' & db' & culled & E);
    [apply gc_read_memory|apply memory_len_size|apply Hs|].
  rewrite E. cbn [mbind outcome_bind]. apply (run_spec links (gc_read b)) in E as [Hsafe Hdel Hst Hro Hi']; [|done..].
  rewrite root_set_live in Hsafe. eexists _, _. split; [done|].
  destruct (drop_keys_spec culled (with_gc (with_database b db') gc')) as (Hd & Hg & Hw). split.
  - intros k Hk. assert (k ∉ culled) as Hnk by (intros Hc; by apply (Hsafe k)).
    rewrite !objects_lookup, !Hw, decide_False by done. unfold root_count, stored. rewrite Hd, Hw, decide_False by done. cbn.
    rewrite Hro, Hdel. split; [|done]. f_equal.
    destruct (db_nodes (database b) !! k) as [o|] eqn:Eo; [by apply map_lookup_filter_Some|].
    apply map_lookup_filter_None. by left.
  - rewrite Hd, Hg. done.
Qed.
End traces.
