(* ===== verification/ToyStorage.v ===== *)
(** * Small back ends

    The storage back end on an in-memory database with list-based caches, in
    both layouts: the inputs of the witnesses, and traces of allowed operations
    after which a garbage collection loses data that is still needed. *)
From S2P Require Import Prelude CostModel DeltaTracking StorageDb Gc GcProps Backend BackendInv BackendCounts BackendOps BackendFlush BackendProps.

(** Decides a closed goal by evaluation. *)
Ltac vm_decide := match goal with |- ?P => refine (bool_decide_eq_true_1 P _); vm_compute; reflexivity end.

#[global] Instance plain_order : HashOrder := {| hash_iter := fun A l => l |}.
#[global] Instance plain_order_laws : HashOrderLaws.
Proof. split. done. Qed.

Definition counted_layout : Features := {| layout_v2 := false; gc_v1 := false |}.
Definition marking_layout : Features := {| layout_v2 := true; gc_v1 := true |}.
Lemma counted_layout_counted : @Counted counted_layout.
Proof. by split. Qed.

Abbreviation toy_cache := (ListLru.t ArenaHash CacheValue).
Abbreviation toy_backend := (StorageBackend InMemoryDB.t ArenaHash toy_cache).
Definition toy_empty : toy_backend :=
  Build_StorageBackend InMemoryDB.empty 0 lru_unbounded lru_unbounded ∅
    {| get_cache_hits := 0; get_cache_misses := 0 |} GcState_default.
Lemma toy_empty_new : StorageBackend_new 0 InMemoryDB.empty = Ok toy_empty.
Proof. reflexivity. Qed.
Lemma toy_empty_reachable `{Features} : backend_reachable toy_empty.
Proof. eapply (reachable_new 0 InMemoryDB.empty); [reflexivity..|apply toy_empty_new]. Qed.

Definition ref (k : Z) : ArenaKey := AK_Ref [k].

(** Node 1 holds node 2 twice, nodes 2 and 4 hold node 3; 4 stays persisted, 1
    does not. *)
Definition shared_trace : list backend_op :=
  [OpCache [3] [] []; OpCache [2] [] [ref 3]; OpCache [1] [] [ref 2; ref 2]; OpCache [4] [] [ref 3];
   OpPersist [4]; OpPersist [1]; OpFlushAll; OpUncache [1]; OpUncache [2]; OpUncache [3]; OpUncache [4];
   OpUnpersist [1]; OpFlushAll].
(** Node 3 is stored without references; then a live node 1 refers to it. *)
Definition pending_trace : list backend_op :=
  [OpCache [3] [] []; OpPersist [3]; OpFlushAll; OpUnpersist [3]; OpFlushAll; OpCache [1] [] [ref 3]; OpUncache [3]].
(** Node 3 is only in memory and only node 1 refers to it; a lazy reference to
    it is made, then 1 goes. *)
Definition lazy_trace : list backend_op :=
  [OpCache [3] [] []; OpCache [1] [] [ref 3]; OpUncache [3]; OpCacheLazy [3]; OpUncache [1]].

(** Node 3 is stored without references; a persisted node 1 that is not flushed
    refers to it, and nothing is live. *)
Definition unflushed_trace : list backend_op :=
  [OpCache [3] [] []; OpPersist [3]; OpFlushAll; OpUnpersist [3]; OpFlushAll;
   OpCache [1] [] [ref 3]; OpPersist [1]; OpUncache [1]; OpUncache [3]].
(** The persisted node 1 is evicted to the database, its child 2 is not, and the
    child 3 of that one is stored. *)
Definition evicted_trace : list backend_op :=
  [OpCache [3] [] []; OpPersist [3]; OpFlushAll; OpUnpersist [3]; OpFlushAll;
   OpCache [2] [] [ref 3]; OpCache [1] [] [ref 2]; OpPersist [1]; OpGet [2]; OpFlushEvictions; OpGet [3];
   OpUncache [1]; OpUncache [2]; OpUncache [3]].

Definition toy_small : toy_backend :=
  default toy_empty (match StorageBackend_new 1 InMemoryDB.empty with Ok b => Some b | _ => None end).
Lemma toy_small_new : StorageBackend_new 1 InMemoryDB.empty = Ok toy_small.
Proof. reflexivity. Qed.
Lemma toy_small_reachable `{Features} : backend_reachable toy_small.
Proof. eapply (reachable_new 1 InMemoryDB.empty); [reflexivity..|apply toy_small_new]. Qed.
Definition toy_run `{Features} (b : toy_backend) (ops : list backend_op) : toy_backend := default b (run_trace b ops).
Lemma toy_run_reachable `{Features} b ops : backend_reachable b -> backend_reachable (toy_run b ops).
Proof. intros Hb. unfold toy_run. destruct (run_trace b ops) eqn:E; [by eapply run_trace_reachable|done]. Qed.

(** ** Data lost to a garbage collection *)

(** The object [c] is missing although the live or persisted object [r] reaches
    it. *)
Definition object_links `{Features} (b : toy_backend) (k : ArenaHash) : list ArenaHash :=
  default [] (obj_refs <$> objects b !! k).
Definition missing `{Features} (b : toy_backend) (r c : ArenaHash) : Prop :=
  (r ∈ live_inserts b \/ 0 < root_count b r) /\ reach (object_links b) {[ r ]} c /\ objects b !! c = None.
Definition collected (r : may_panic (toy_backend * nat)) : toy_backend :=
  match r with Ok (b, _) => b | _ => toy_empty end.
Definition collected_by_counts (r : may_panic toy_backend) : toy_backend :=
  match r with Ok b => b | _ => toy_empty end.

Lemma missing_child `{Features} b r c :
  bool_decide (r ∈ live_inserts b \/ 0 < root_count b r) = true -> bool_decide (c ∈ object_links b r) = true ->
  objects b !! c = None -> missing b r c.
Proof.
  rewrite !bool_decide_eq_true. intros Hr Hc Hn. split_and!; [done| |done].
  eapply reach_link; [|exact Hc]. apply reach_root. set_solver.
Qed.
Lemma missing_grandchild `{Features} b r k c :
  bool_decide (r ∈ live_inserts b \/ 0 < root_count b r) = true -> bool_decide (k ∈ object_links b r) = true ->
  bool_decide (c ∈ object_links b k) = true -> objects b !! c = None -> missing b r c.
Proof.
  rewrite !bool_decide_eq_true. intros Hr Hk Hc Hn. split_and!; [done| |done].
  eapply reach_link; [|exact Hc]. eapply reach_link; [|exact Hk]. apply reach_root. set_solver.
Qed.

Section counted_loss.
#[local] Existing Instance counted_layout.
Definition shared_store : toy_backend := toy_run toy_empty shared_trace.
Definition pending_store : toy_backend := toy_run toy_empty pending_trace.

(** C38: collection by reference counts loses data in states where every count is
    exact: a garbage node that refers to one child twice makes the collector
    take the references of that child away twice, so that a persisted object
    loses a child it shares with it; and a stored object that only a pending
    reference from a live object keeps is deleted. *)
Theorem gc_by_counts_loses_data :
  (exists b b', backend_reachable b /\ gc_by_counts 20 b = Ok b' /\ 0 < root_count b' [4] /\ missing b' [4] [3]) /\
  (exists b b', backend_reachable b /\ gc_by_counts 20 b = Ok b' /\ [1] ∈ live_inserts b' /\ missing b' [1] [3]).
Proof.
  split.
  - exists shared_store, (collected_by_counts (gc_by_counts 20 shared_store)).
    split_and!; [apply toy_run_reachable, toy_empty_reachable|vm_compute; reflexivity..|].
    apply missing_child; vm_compute; reflexivity.
  - exists pending_store, (collected_by_counts (gc_by_counts 20 pending_store)).
    split_and!; [apply toy_run_reachable, toy_empty_reachable|vm_compute; reflexivity|vm_decide|].
    apply missing_child; vm_compute; reflexivity.
Qed.

(** A lazily loaded object does not count as referenced: it goes with the last
    object that refers to it. *)
Definition lazy_store : toy_backend := toy_run toy_empty lazy_trace.
Lemma cache_lazy_loses_data : backend_reachable lazy_store /\ [3] ∈ live_inserts lazy_store /\ objects lazy_store !! [3] = None.
Proof.
  split_and!; [apply toy_run_reachable, toy_empty_reachable|vm_decide|vm_compute; reflexivity].
Qed.
End counted_loss.

Section marking_loss.
#[local] Existing Instance marking_layout.
Definition unflushed_store : toy_backend := toy_run toy_empty unflushed_trace.
Definition evicted_store : toy_backend := toy_run toy_small evicted_trace.

(** C39: collection by marking loses data where the database is behind the
    caches: the children of an object that is persisted but not flushed are not
    marked, because the roots are those of the database; and a stored object
    that a persisted one reaches only through an object in the write cache is
    deleted, because references on disk are taken to be on disk. *)
Theorem gc_loses_data_behind_caches :
  (exists b b' n, backend_reachable b /\ gc b [5; 5; 5]%nat [5; 5; 5]%nat = Ok (b', n) /\
     0 < root_count b' [1] /\ missing b' [1] [3]) /\
  (exists b b' n, backend_reachable b /\ gc b [5; 5; 5]%nat [5; 5; 5]%nat = Ok (b', n) /\
     [1] ∈ dom (db_roots (database b)) /\ missing b' [1] [3]).
Proof.
  split.
  - exists unflushed_store, (collected (gc unflushed_store [5; 5; 5]%nat [5; 5; 5]%nat)), 1%nat.
    split_and!; [apply toy_run_reachable, toy_empty_reachable|vm_compute; reflexivity..|].
    apply missing_child; vm_compute; reflexivity.
  - exists evicted_store, (collected (gc evicted_store [5; 5; 5]%nat [5; 5; 5]%nat)), 1%nat.
    split_and!; [apply toy_run_reachable, toy_small_reachable|vm_compute; reflexivity|vm_decide|].
    apply (missing_grandchild _ _ [2]); vm_compute; reflexivity.
Qed.
End marking_loss.

(** ** Inputs of the collector *)

(** Node 1 refers to node 2, node 3 is garbage; node 1 is live. *)
Definition toy_node (children : list ArenaKey) : OnDiskObject := {| od_data := []; ref_count := 0; od_children := children |}.
Definition toy_db : InMemoryDB.t :=
  batch_update InMemoryDB.empty
    [([1], InsertNode (toy_node [ref 2])); ([2], InsertNode (toy_node [])); ([3], InsertNode (toy_node []))].
Definition db_links (d : InMemoryDB.t) (k : ArenaHash) : list ArenaHash :=
  default [] (obj_refs <$> InMemoryDB.nodes d !! k).
Definition no_cache (k : ArenaHash) : option OnDiskObject := None.
Abbreviation toy_start := (GcState_default (Handle := ArenaHash)).

Lemma db_links_addressed d cache :
  (forall k o, cache k = Some o -> InMemoryDB.nodes d !! k = Some o) -> ContentAddressed (db_links d) cache d.
Proof.
  intros Hc. assert (forall k o, InMemoryDB.nodes d !! k = Some o -> flat_refs (od_children o) = db_links d k) as Hd
    by (intros k o E; unfold db_links; by rewrite E).
  split; [intros k o Ho; by apply Hd, Hc|exact Hd].
Qed.
(** A set of stored nodes that holds the roots and is closed under references. *)
Definition closed_set (d : InMemoryDB.t) (roots : list ArenaHash) (T : gset ArenaHash) : Prop :=
  root_set roots d ⊆ T /\ T ⊆ dom (InMemoryDB.nodes d) /\ set_Forall (fun k => Forall (fun c => c ∈ T) (db_links d k)) T.
#[global] Instance closed_set_dec d roots T : Decision (closed_set d roots T).
Proof. unfold closed_set. apply _. Defined.
Lemma closed_sound d cache roots T :
  (forall k o, cache k = Some o -> InMemoryDB.nodes d !! k = Some o) -> closed_set d roots T ->
  sound_storage (db_links d) cache d roots.
Proof.
  intros Hc (Hr & Hst & Hl). assert (forall k, reach (db_links d) (root_set roots d) k -> k ∈ T) as HT.
  { intros k. apply reach_closed; [done|]. intros a c Ha. apply Hl in Ha. rewrite list.Forall_forall in Ha. auto. }
  split; [by apply db_links_addressed|intros k Hk; right; apply Hst, HT, Hk|].
  intros k c Hk _ Hkc. apply Hst, HT. by eapply reach_link.
Qed.
Lemma toy_db_sound : sound_storage (db_links toy_db) no_cache toy_db [[1]].
Proof. apply (closed_sound _ _ _ {[ [1]; [2] ]}); [done|vm_decide]. Qed.
Lemma toy_db_world : gc_reachable (db_links toy_db) (World toy_start toy_db [[1]] no_cache).
Proof. apply gc_start, toy_db_sound. Qed.
Lemma toy_db_garbage : ~ needed (db_links toy_db) (World toy_start toy_db [[1]] no_cache) [3].
Proof.
  intros Hn. assert ([3] ∈ ({[ [1]; [2] ]} : gset ArenaHash)) as Hin; [|revert Hin; vm_decide].
  revert Hn. apply reach_closed; [vm_decide|].
  assert (set_Forall (fun k => Forall (fun c => c ∈ ({[ [1]; [2] ]} : gset ArenaHash)) (db_links toy_db k))
            ({[ [1]; [2] ]} : gset ArenaHash)) as Hl by vm_decide.
  intros a c Ha. apply Hl in Ha. rewrite list.Forall_forall in Ha. auto.
Qed.

(** A run with two reads and three scans deletes node 3. *)
Definition toy_swept : world (D := InMemoryDB.t) (Handle := ArenaHash) :=
  match run toy_start [[1]] [1; 1; 1]%nat [2; 2; 2; 2]%nat toy_db no_cache db_root_keys 0 with
  | Ok (g, d, culled) => World g d [[1]] (fun k => if bool_decide (k ∈ culled) then None else no_cache k)
  | _ => World toy_start toy_db [[1]] no_cache
  end.
Lemma toy_sweep : gc_step (db_links toy_db) (World toy_start toy_db [[1]] no_cache) (Some [[3]]) toy_swept.
Proof.
  apply (step_run _ toy_start toy_db [[1]] no_cache [1; 1; 1]%nat [2; 2; 2; 2]%nat 0). vm_compute. reflexivity.
Qed.

Lemma gc_keeps_needed_witness :
  ~ needed (db_links toy_db) (World toy_start toy_db [[1]] no_cache) [3] /\ loadable toy_swept [2].
Proof.
  split.
  - apply (gc_keeps_needed (db_links toy_db) _ _ _ toy_db_world toy_sweep). left.
  - apply (gc_keeps_needed (db_links toy_db) _ _ _ toy_db_world toy_sweep).
    apply (reach_link _ _ [1]); [apply reach_root|]; vm_decide.
Defined.

Lemma gc_collects_garbage_witness : exists d culled,
  run toy_start [[1]] [1; 1; 1]%nat [1; 1; 1; 1]%nat toy_db no_cache db_root_keys 0 = Ok (toy_start, d, culled) /\
  InMemoryDB.nodes d !! [3] = None.
Proof.
  destruct (gc_collects_garbage (db_links toy_db) no_cache ∅ toy_db [[1]] [1; 1; 1]%nat [1; 1; 1; 1]%nat 0)
    as (d & culled & E & Hd & _); [apply toy_db_sound|by intros k [? ?]|vm_decide..|].
  exists d, culled. split; [exact E|]. destruct (InMemoryDB.nodes d !! [3]) as [o|] eqn:Eo; [|reflexivity].
  apply Hd in Eo as [_ Hn]. destruct (toy_db_garbage Hn).
Defined.

Lemma gc_without_sweep_time_starts_over_witness :
  run toy_start [[1]] [1; 1; 1]%nat [] toy_db no_cache db_root_keys 0 = Ok (toy_start, toy_db, []).
Proof.
  apply (gc_without_sweep_time_starts_over (db_links toy_db) no_cache ∅ toy_db [[1]] [1; 1; 1]%nat 0);
    [apply toy_db_sound|by intros k [? ?]|vm_decide..].
Defined.

(** ** Inputs of the back end *)
Section counted_inputs.
#[local] Existing Instance counted_layout.
#[local] Existing Instance counted_layout_counted.


Lemma backend_keeps_store_witness : exists b,
  flush_all_changes_to_db pending_store = Ok b /\ writes b = ∅ /\ stored b = objects pending_store.
Proof.
  assert (exact pending_store) as Hex by apply reachable_exact, toy_run_reachable, toy_empty_reachable.
  destruct (backend_keeps_store pending_store (ex_coherent _ Hex) (ex_range _ Hex) (exact_roots_fit _ Hex))
    as (_ & (b & E & _ & _ & Hw & Hs & _) & _).
  exists b. auto.
Defined.
End counted_inputs.

Section marking_inputs.
#[local] Existing Instance marking_layout.
(** Node 1 with its child 2 is persisted and live, node 3 is garbage. *)
Definition tidy_trace : list backend_op :=
  [OpCache [3] [] []; OpPersist [3]; OpCache [2] [] []; OpCache [1] [] [ref 2]; OpPersist [1]; OpFlushAll;
   OpUnpersist [3]; OpFlushAll; OpUncache [3]; OpUncache [2]].
Definition tidy_store : toy_backend := toy_run toy_empty tidy_trace.
Definition memory (b : toy_backend) : gmap ArenaHash CacheValue := entries (write_cache b) ∪ entries (read_cache b).
Definition memory_stored (b : toy_backend) : Prop :=
  map_Forall (fun k v => get_obj v = None \/ get_obj v = InMemoryDB.nodes (database b) !! k) (memory b).
Lemma gc_read_stored b k o : memory_stored b -> gc_read b k = Some o -> InMemoryDB.nodes (database b) !! k = Some o.
Proof.
  intros Hm. unfold gc_read. rewrite !Cache_peek_entries. specialize (Hm k). unfold memory in Hm.
  rewrite lookup_union in Hm.
  destruct (entries (write_cache b) !! k) as [v|], (entries (read_cache b) !! k) as [w|]; cbn in *;
    intros Ho; try done; destruct (Hm _ eq_refl); congruence.
Qed.
Lemma tidy_sound :
  sound_storage (db_links (database tidy_store)) (gc_read tidy_store) (database tidy_store)
    (hash_iter (elements (live_inserts tidy_store))).
Proof. apply (closed_sound _ _ _ {[ [1]; [2] ]}); [intros k o; apply gc_read_stored; vm_decide|vm_decide]. Qed.
Lemma tidy_inv : gc_inv (db_links (database tidy_store)) (gc_state tidy_store) (database tidy_store).
Proof.
  assert (gc_state tidy_store = GcState_default) as -> by (vm_compute; reflexivity). apply gc_inv_default.
Qed.

Lemma backend_gc_keeps_reachable_witness : exists b n,
  gc tidy_store [1; 1]%nat [2; 2]%nat = Ok (b, n) /\ objects b !! [2] = objects tidy_store !! [2].
Proof.
  destruct (backend_gc_keeps_reachable (db_links (database tidy_store)) tidy_store [1; 1]%nat [2; 2]%nat
              tidy_sound tidy_inv) as (b & n & E & Hk & _).
  exists b, n. split; [exact E|]. apply Hk. apply (reach_link _ _ [1]); [apply reach_root|]; vm_decide.
Defined.
End marking_inputs.
