(* ===== verification/Zkir.v ===== *)
(** * The circuit intermediate representation ([zkir/src/ir.rs], [zkir/src/ir_vm.rs])

    A contract circuit is a straight-line program over a memory of field
    elements that only grows.  It is run twice: [preprocess] outside of the
    circuit, on the inputs and transcripts of a call, to check its constraints
    and to compute the public inputs; and [circuit], which lays the same
    program out as constraints.  Both are translated here.

    The gadgets of the proof library are the parameter [ZkStdLib]: what a gadget
    computes from the values of its cells, or that its constraints cannot be
    satisfied; [StdLibLaws] is what their documentation says.  The circuit is
    laid out for a known witness, as the prover does it. *)
From S2P Require Import Prelude Fab Coin MerkleTree FieldRepr.

(** ** Data *)
Abbreviation Index := nat.
Inductive Instruction :=
  | Assert (cond : Index)
  | CondSelect (bit a b : Index)
  | ConstrainBits (var : Index) (bits : nat)
  | ConstrainEq (a b : Index)
  | ConstrainToBoolean (var : Index)
  | Copy (var : Index)
  | DeclarePubInput (var : Index)
  | PiSkip (guard : option Index) (count : nat)
  | EcAdd (a_x a_y b_x b_y : Index)
  | EcMul (a_x a_y scalar : Index)
  | EcMulGenerator (scalar : Index)
  | HashToCurve (inputs : list Index)
  | LoadImm (imm : Fr)
  | DivModPowerOfTwo (var : Index) (bits : nat)
  | ReconstituteField (divisor modulus : Index) (bits : nat)
  | Output (var : Index)
  | TransientHash (inputs : list Index)
  | PersistentHash (alignment : Alignment) (inputs : list Index)
  | TestEq (a b : Index)
  | Add (a b : Index)
  | Mul (a b : Index)
  | Neg (a : Index)
  | Not (a : Index)
  | LessThan (a b : Index) (bits : nat)
  | PublicInput (guard : option Index)
  | PrivateInput (guard : option Index).

Inductive IrMinorVersion := V0 | V1.
#[global] Instance IrMinorVersion_eq_dec : EqDecision IrMinorVersion.
Proof. solve_decision. Defined.
Record IrSource := {
  version : IrMinorVersion;
  num_inputs : nat;
  do_communications_commitment : bool;
  instructions : list Instruction }.
Record OldIrSource := {
  old_num_inputs : nat;
  old_do_communications_commitment : bool;
  old_instructions : list Instruction }.
Definition IrSource_from_old (value : OldIrSource) : IrSource :=
  {| version := V0; num_inputs := old_num_inputs value;
     do_communications_commitment := old_do_communications_commitment value;
     instructions := old_instructions value |}.
Definition OldIrSource_try_from (value : IrSource) : option OldIrSource :=
  if decide (version value = V0)
  then Some {| old_num_inputs := num_inputs value;
               old_do_communications_commitment := do_communications_commitment value;
               old_instructions := instructions value |}
  else None.

(** The [key_location] only selects the keys. *)
Record ProofPreimage := {
  inputs : list Fr;
  private_transcript : list Fr;
  public_transcript_inputs : list Fr;
  public_transcript_outputs : list Fr;
  binding_input : Fr;
  communications_commitment : option (Fr * Fr) }.
Record Preprocessed := {
  pp_memory : list Fr;
  pp_pis : list Fr;
  pp_pi_skips : list (option nat);
  pp_binding_input : Fr;
  pp_comm_comm : option (Fr * Fr) }.

(** The messages of [preprocess]. *)
Inductive ProvingError :=
  | WrongInputs (expected received : nat)
  | ExpectedCommitment
  | IndexOutOfBounds (i : Index)
  | ExpectedBoolean (val : Fr)
  | NotOnCurve (x y : Fr)
  | ExcessiveBitBound
  | BitBoundFailed (val : Fr) (n : nat)
  | EqualityFailed (a b : Fr)
  | AssertionFailed
  | RanOutOfPublicOutputs
  | RanOutOfPrivateOutputs
  | ExcessiveBitCount
  | ReconstitutedOverflow
  | AlignmentMismatch
  | TranscriptMismatch (idx : Z)
  | NotFullyConsumed
  | CommitmentMismatch.

(** ** The embedded curve *)
Class EmbeddedCurve := {
  point : Type;
  embedded_order : Z;
  affine_from_xy : Fr -> Fr -> option point;
  coordinates : point -> option (Fr * Fr);
  point_add : point -> point -> point;
  point_mul : point -> Z -> point;
  point_generator : point;
  curve_hash : list Fr -> point }.
Class CurveLaws `{FieldOrder} `{EmbeddedCurve} : Prop := {
  embedded_order_pos : 0 < embedded_order;
  coordinates_total p : exists x y, coordinates p = Some (x, y) /\ fr_wf x /\ fr_wf y;
  coordinates_from_xy x y p : affine_from_xy x y = Some p -> coordinates p = Some (x, y) }.

Section curve.
Context `{EmbeddedCurve}.
(** [EmbeddedGroupAffine::{new, x, y}] *)
Definition EmbeddedGroupAffine_new (x y : Fr) : option point := affine_from_xy x y.
Definition point_x (p : point) : option Fr := fst <$> coordinates p.
Definition point_y (p : point) : option Fr := snd <$> coordinates p.
(** [Mul<Fr> for EmbeddedGroupAffine]: the scalar is brought below the order of
    the embedded field by repeated subtraction. *)
Fixpoint reduce_scalar (fuel : nat) (rhs : Z) : Z :=
  match fuel with
  | O => rhs
  | S fuel => if embedded_order <=? rhs then reduce_scalar fuel (rhs - embedded_order) else rhs
  end.
Definition point_mul_fr (p : point) (rhs : Fr) : point :=
  point_mul p (reduce_scalar (Z.to_nat (rhs / embedded_order)) rhs).
End curve.

(** ** Running a program outside of the circuit *)
Section preprocess.
Context `{FieldOrder} `{Hashing} `{EmbeddedCurve}.
Abbreviation result A := (outcome ProvingError A).

Definition idx (memory : list Fr) (i : Index) : result Fr := ok_or (memory !! i) (IndexOutOfBounds i).
Definition idx_bool (memory : list Fr) (i : Index) : result bool :=
  val ← idx memory i;
  if val =? 0 then Ok false else if val =? 1 then Ok true else Err (ExpectedBoolean val).
Definition idx_point (memory : list Fr) (x y : Index) : result point :=
  x ← idx memory x;
  y ← idx memory y;
  ok_or (EmbeddedGroupAffine_new x y) (NotOnCurve x y).
(** The bits of the 32 bytes of an element, lowest first. *)
Definition byte_bits (b : Z) : list bool := map (fun i => Z.testbit b (Z.of_nat i)) (seq 0 8).
Definition element_bits (val : Fr) : list bool := concat (map byte_bits (as_le_bytes val)).
Definition idx_bits (memory : list Fr) (i : Index) (constrain : option nat) : result (list bool) :=
  val ← idx memory i;
  let bits := element_bits val in
  match constrain with
  | Some n =>
      if (FR_BITS <=? n)%nat then Err ExcessiveBitBound
      else if existsb id (drop n bits) then Err (BitBoundFailed val n)
      else Ok (take n bits)
  | None => Ok bits
  end.
Definition from_point (p : point) : list Fr := [default 0 (point_x p); default 0 (point_y p)].
Definition from_bits (bits : list bool) : Fr :=
  foldl (fun acc bit => fr_add (fr_mul acc 2) (fr_from_bool bit)) 0 (reverse bits).
(** The order of two bit strings, highest bit first. *)
Definition bits_compare (l r : list bool) : comparison :=
  foldl (fun prefix '(ab, max) => match prefix with Eq => match ab, max with
                                                        | false, true => Lt | true, false => Gt | _, _ => Eq end
                                  | _ => prefix end)
    Eq (zip_with pair (reverse l) (reverse r)).
Definition pow2 (bits : nat) : Fr := Nat.iter bits (fun acc => fr_mul (fr_from 2) acc) (fr_from 1).

Record PreState := {
  memory : list Fr;
  pis : list Fr;
  pi_skips : list (option nat);
  public_transcript_inputs_idx : Z;
  public_transcript_outputs_idx : nat;
  private_transcript_outputs_idx : nat;
  outputs : list Fr }.
Definition push (st : PreState) (vals : list Fr) : PreState :=
  {| memory := memory st ++ vals; pis := pis st; pi_skips := pi_skips st;
     public_transcript_inputs_idx := public_transcript_inputs_idx st;
     public_transcript_outputs_idx := public_transcript_outputs_idx st;
     private_transcript_outputs_idx := private_transcript_outputs_idx st; outputs := outputs st |}.
(** Indices are [usize] and wrap around. *)
Definition declare (st : PreState) (val : Fr) : PreState :=
  {| memory := memory st; pis := pis st ++ [val]; pi_skips := pi_skips st;
     public_transcript_inputs_idx := trunc u64_max (public_transcript_inputs_idx st + 1);
     public_transcript_outputs_idx := public_transcript_outputs_idx st;
     private_transcript_outputs_idx := private_transcript_outputs_idx st; outputs := outputs st |}.
Definition read_public (st : PreState) (val : Fr) : PreState :=
  {| memory := memory st ++ [val]; pis := pis st; pi_skips := pi_skips st;
     public_transcript_inputs_idx := public_transcript_inputs_idx st;
     public_transcript_outputs_idx := S (public_transcript_outputs_idx st);
     private_transcript_outputs_idx := private_transcript_outputs_idx st; outputs := outputs st |}.
Definition read_private (st : PreState) (val : Fr) : PreState :=
  {| memory := memory st ++ [val]; pis := pis st; pi_skips := pi_skips st;
     public_transcript_inputs_idx := public_transcript_inputs_idx st;
     public_transcript_outputs_idx := public_transcript_outputs_idx st;
     private_transcript_outputs_idx := S (private_transcript_outputs_idx st); outputs := outputs st |}.
Definition skip (st : PreState) (count : option nat) (inputs_idx : Z) : PreState :=
  {| memory := memory st; pis := pis st; pi_skips := pi_skips st ++ [count];
     public_transcript_inputs_idx := inputs_idx;
     public_transcript_outputs_idx := public_transcript_outputs_idx st;
     private_transcript_outputs_idx := private_transcript_outputs_idx st; outputs := outputs st |}.
Definition output (st : PreState) (val : Fr) : PreState :=
  {| memory := memory st; pis := pis st; pi_skips := pi_skips st;
     public_transcript_inputs_idx := public_transcript_inputs_idx st;
     public_transcript_outputs_idx := public_transcript_outputs_idx st;
     private_transcript_outputs_idx := private_transcript_outputs_idx st; outputs := outputs st ++ [val] |}.

Definition guarded (memory : list Fr) (guard : option Index) : result bool :=
  match guard with Some guard => idx_bool memory guard | None => Ok true end.
(** The loop over an active group of public inputs. *)
Definition check_public_input (preimage : ProofPreimage) (st : PreState) (count i : nat) : result unit :=
  let idx := trunc u64_max (trunc u64_max (public_transcript_inputs_idx st - Z.of_nat count) + Z.of_nat i) in
  let expected := public_transcript_inputs preimage !! Z.to_nat idx in
  computed ← unwrap (pis st !! Z.to_nat (trunc u64_max (trunc u64_max (Z.of_nat (length (pis st)) - Z.of_nat count) + Z.of_nat i)));
  if bool_decide (expected = Some computed) then Ok tt else Err (TranscriptMismatch idx).
Definition binary_of (value : AlignedValue) : result (list Z) :=
  match binary_repr_unchecked (av_value value) (av_alignment value) with Ok repr => Ok repr | _ => Panic end.
Definition idxs (memory : list Fr) (vars : list Index) : result (list Fr) :=
  try_fold (fun acc i => v ← idx memory i; Ok (acc ++ [v])) [] vars.

Definition preprocess_step (preimage : ProofPreimage) (st : PreState) (ins : Instruction) : result PreState :=
  let memory := memory st in
  match ins with
  | Add a b => x ← idx memory a; y ← idx memory b; Ok (push st [fr_add x y])
  | Mul a b => x ← idx memory a; y ← idx memory b; Ok (push st [fr_mul x y])
  | Neg a => x ← idx memory a; Ok (push st [fr_neg x])
  | Not a => x ← idx_bool memory a; Ok (push st [fr_from_bool (negb x)])
  | ConstrainEq a b =>
      x ← idx memory a; y ← idx memory b;
      if x =? y then Ok st else Err (EqualityFailed x y)
  | CondSelect bit a b =>
      bit ← idx_bool memory bit; a ← idx memory a; b ← idx memory b;
      Ok (push st [if bit : bool then a else b])
  | Assert cond => x ← idx_bool memory cond; if x : bool then Ok st else Err AssertionFailed
  | TestEq a b => x ← idx memory a; y ← idx memory b; Ok (push st [fr_from_bool (x =? y)])
  | PublicInput guard =>
      active ← guarded memory guard;
      if active : bool
      then val ← ok_or (public_transcript_outputs preimage !! public_transcript_outputs_idx st) RanOutOfPublicOutputs;
           Ok (read_public st val)
      else Ok (push st [0])
  | DeclarePubInput var => x ← idx memory var; Ok (declare st x)
  | PrivateInput guard =>
      active ← guarded memory guard;
      if active : bool
      then val ← ok_or (private_transcript preimage !! private_transcript_outputs_idx st) RanOutOfPrivateOutputs;
           Ok (read_private st val)
      else Ok (push st [0])
  | Copy var => x ← idx memory var; Ok (push st [x])
  | ConstrainToBoolean var => _ ← idx_bool memory var; Ok st
  | ConstrainBits var bits => _ ← idx_bits memory var (Some bits); Ok st
  | DivModPowerOfTwo var bits =>
      if (FR_BYTES_STORED * 8 <? bits)%nat then Err ExcessiveBitCount
      else
        var_bits ← idx_bits memory var None;
        Ok (push st [from_bits (drop bits var_bits); from_bits (take bits var_bits)])
  | ReconstituteField divisor modulus bits =>
      if (FR_BYTES_STORED * 8 <? bits)%nat then Err ExcessiveBitCount
      else
        let max_bits := element_bits (fr_from (-1)) in
        modulus_bits ← idx_bits memory modulus (Some bits);
        divisor_bits ← idx_bits memory divisor (Some (FR_BITS - bits)%nat);
        match bits_compare (modulus_bits ++ divisor_bits) (take FR_BITS max_bits) with
        | Gt => Err ReconstitutedOverflow
        | _ =>
            divisor ← idx memory divisor; modulus ← idx memory modulus;
            Ok (push st [fr_add (fr_mul (pow2 bits) divisor) modulus])
        end
  | LessThan a b bits =>
      x ← idx_bits memory a (Some bits);
      y ← idx_bits memory b (Some bits);
      Ok (push st [fr_from_bool (from_bits x <? from_bits y)])
  | TransientHash inputs => vals ← idxs memory inputs; Ok (push st [transient_hash vals])
  | PersistentHash alignment inputs =>
      vals ← idxs memory inputs;
      value ← ok_or (parse_field_repr alignment vals) AlignmentMismatch;
      repr ← binary_of value;
      Ok (push st (hash_field_repr (persistent_hash repr)))
  | PiSkip guard count =>
      active ← guarded memory guard;
      if active : bool
      then _ ← try_fold (fun _ i => check_public_input preimage st count i) tt (seq 0 count);
           Ok (skip st None (public_transcript_inputs_idx st))
      else Ok (skip st (Some count) (trunc u64_max (public_transcript_inputs_idx st - Z.of_nat count)))
  | LoadImm imm => Ok (push st [imm])
  | Output var => x ← idx memory var; Ok (output st x)
  | EcAdd a_x a_y b_x b_y =>
      a ← idx_point memory a_x a_y; b ← idx_point memory b_x b_y;
      Ok (push st (from_point (point_add a b)))
  | HashToCurve inputs => vals ← idxs memory inputs; Ok (push st (from_point (curve_hash vals)))
  | EcMul a_x a_y scalar =>
      a ← idx_point memory a_x a_y; s ← idx memory scalar;
      Ok (push st (from_point (point_mul_fr a s)))
  | EcMulGenerator scalar => s ← idx memory scalar; Ok (push st (from_point (point_mul_fr point_generator s)))
  end.

Definition initial_pis (self : IrSource) (preimage : ProofPreimage) : result (list Fr) :=
  if do_communications_commitment self
  then '(comm, _) ← ok_or (communications_commitment preimage) ExpectedCommitment; Ok [binding_input preimage; comm]
  else Ok [binding_input preimage].
Definition fully_consumed (preimage : ProofPreimage) (st : PreState) : bool :=
  (Z.of_nat (length (public_transcript_inputs preimage)) =? public_transcript_inputs_idx st) &&
  (length (public_transcript_outputs preimage) =? public_transcript_outputs_idx st)%nat &&
  (length (private_transcript preimage) =? private_transcript_outputs_idx st)%nat.
Definition check_commitment (self : IrSource) (preimage : ProofPreimage) (st : PreState) : result unit :=
  if do_communications_commitment self
  then '(comm, rand) ← ok_or (communications_commitment preimage) ExpectedCommitment;
       if comm =? transient_commit (inputs preimage ++ outputs st) rand then Ok tt else Err CommitmentMismatch
  else Ok tt.
Definition initial_pre_state (preimage : ProofPreimage) (pis : list Fr) : PreState :=
  {| memory := inputs preimage; pis := pis; pi_skips := []; public_transcript_inputs_idx := 0;
     public_transcript_outputs_idx := 0; private_transcript_outputs_idx := 0; outputs := [] |}.
Definition preprocess (self : IrSource) (preimage : ProofPreimage) : result Preprocessed :=
  if negb (length (inputs preimage) =? num_inputs self)%nat
  then Err (WrongInputs (num_inputs self) (length (inputs preimage)))
  else
    pis0 ← initial_pis self preimage;
    st ← try_fold (preprocess_step preimage) (initial_pre_state preimage pis0) (instructions self);
    if negb (fully_consumed preimage st) then Err NotFullyConsumed
    else
      _ ← check_commitment self preimage st;
      Ok {| pp_memory := memory st; pp_pis := pis st; pp_pi_skips := pi_skips st;
            pp_binding_input := binding_input preimage; pp_comm_comm := communications_commitment preimage |}.
(** [Zkir::check]. *)
Definition check (self : IrSource) (preimage : ProofPreimage) : result (list (option nat)) :=
  pp ← preprocess self preimage; Ok (pp_pi_skips pp).
End preprocess.

(** ** The circuit *)

(** Why a layout fails: an error of the layout itself, a cell whose value is not
    the one [preprocess] computed, or constraints that the values violate. *)
Inductive CircuitError := Synthesis | Misaligned | Unsatisfied.
Abbreviation gadget A := (outcome CircuitError A).

Class ZkStdLib `{EmbeddedCurve} := {
  assert_non_zero : Fr -> gadget unit;
  assert_equal : Fr -> Fr -> gadget unit;
  is_zero : Fr -> gadget bool;
  is_equal : Fr -> Fr -> gadget bool;
  bit_of_native : Fr -> gadget bool;
  native_of_bit : bool -> gadget Fr;
  native_of_byte : Z -> gadget Fr;
  select : bool -> Fr -> Fr -> gadget Fr;
  bit_or : list bool -> gadget bool;
  assign_fixed : Fr -> gadget Fr;
  std_add : Fr -> Fr -> gadget Fr;
  std_mul : Fr -> Fr -> gadget Fr;
  std_neg : Fr -> gadget Fr;
  mul_by_constant : Fr -> Fr -> gadget Fr;
  linear_combination : list (Fr * Fr) -> Fr -> gadget Fr;
  assigned_to_le_bits : Fr -> option nat -> bool -> gadget (list bool);
  assigned_from_le_bits : list bool -> gadget Fr;
  assigned_to_le_bytes : Fr -> option nat -> gadget (list Z);
  assert_lower_than_fixed : Fr -> Z -> gadget unit;
  lower_than : Fr -> Fr -> nat -> gadget bool;
  poseidon : list Fr -> gadget Fr;
  sha2_256 : list Z -> gadget (list Z);
  jubjub_assign : point -> gadget point;
  jubjub_assign_fixed : point -> gadget point;
  jubjub_add : point -> point -> gadget point;
  jubjub_scalar : Fr -> gadget Z;
  jubjub_msm : Z -> point -> gadget point;
  x_coordinate : point -> Fr;
  y_coordinate : point -> Fr;
  std_hash_to_curve : list Fr -> gadget point }.

Section circuit.
Context `{FieldOrder} `{Hashing} `{ZkStdLib}.

Record CircuitState := { cells : list Fr; public_inputs : list Fr; circuit_outputs : list Fr }.

Definition cell (memory : list Fr) (i : Index) : gadget Fr := ok_or (memory !! i) Synthesis.
Definition cell_list (memory : list Fr) (vars : list Index) : gadget (list Fr) :=
  try_fold (fun acc i => v ← cell memory i; Ok (acc ++ [v])) [] vars.
Definition seq_push (expected mem : list Fr) (v : Fr) : gadget (list Fr) :=
  match expected !! length mem with
  | Some e => if e =? v then Ok (mem ++ [v]) else Err Misaligned
  | None => Ok (mem ++ [v])
  end.
Definition mem_push (preproc : Preprocessed) (st : CircuitState) (v : Fr) : gadget CircuitState :=
  mem ← seq_push (pp_memory preproc) (cells st) v;
  Ok {| cells := mem; public_inputs := public_inputs st; circuit_outputs := circuit_outputs st |}.
Definition pi_push (preproc : Preprocessed) (st : CircuitState) (v : Fr) : gadget CircuitState :=
  pis ← seq_push (pp_pis preproc) (public_inputs st) v;
  Ok {| cells := cells st; public_inputs := pis; circuit_outputs := circuit_outputs st |}.
Definition out_push (st : CircuitState) (v : Fr) : CircuitState :=
  {| cells := cells st; public_inputs := public_inputs st; circuit_outputs := circuit_outputs st ++ [v] |}.

Definition lnot (a : Fr) : gadget Fr := bit ← is_zero a; native_of_bit bit.
Definition decode_atom (align : AlignmentAtom) (vals : list Fr) : gadget (list Z * list Fr) :=
  match align with
  | Field =>
      match vals with
      | value :: vals => bytes ← assigned_to_le_bytes value None; Ok (bytes, vals)
      | [] => Err Synthesis
      end
  | Bytes length =>
      let stray := (Z.to_nat length mod FR_BYTES_STORED)%nat in
      let chunks := (Z.to_nat length / FR_BYTES_STORED)%nat in
      let expected_size := (chunks + if stray =? 0 then 0 else 1)%nat in
      if (List.length vals <? expected_size)%nat then Err Synthesis
      else
        '(res_vec, vals) ←
          (if (0 <? stray)%nat
           then f ← unwrap (head vals);
                repr ← assigned_to_le_bytes f (Some stray);
                Ok (take stray repr, drop 1 vals)
           else Ok ([], vals));
        res ← try_fold (fun res f =>
                          repr ← assigned_to_le_bytes f (Some FR_BYTES_STORED);
                          Ok (res ++ take FR_BYTES_STORED repr))
                [] (reverse (take chunks vals));
        Ok (res ++ res_vec, drop chunks vals)
  | Compress => Err Synthesis
  end.
(** [fab_decode_to_bytes]; the count that its loop accumulates is not used. *)
Fixpoint fab_decode_to_bytes (align : Alignment) (vals : list Fr) : gadget (list Z) :=
  match align with
  | [] => Ok []
  | Atom atom :: align =>
      '(bytes, vals) ← decode_atom atom vals;
      rest ← fab_decode_to_bytes align vals;
      Ok (bytes ++ rest)
  | Option _ :: _ => Err Synthesis
  end.
Definition assemble_bytes (bytes : list Z) : gadget Fr :=
  powers ← try_fold (fun acc '(i, byte) =>
                       b ← native_of_byte byte;
                       if (i =? 0)%nat then Ok (acc ++ [b])
                       else (p ← mul_by_constant b (Nat.iter (i * 8) (fun acc => fr_mul acc (fr_from 2)) (fr_from 1)); Ok (acc ++ [p])))
             [] (imap pair bytes);
  match powers with
  | [] => Panic
  | p :: powers => try_fold std_add p powers
  end.
Definition ecc_from_parts (x y : Fr) : gadget point :=
  match EmbeddedGroupAffine_new x y with
  | None => Err Synthesis
  | Some p =>
      point_var ← jubjub_assign p;
      _ ← assert_equal x (x_coordinate point_var);
      _ ← assert_equal y (y_coordinate point_var);
      Ok point_var
  end.
Definition push_point (preproc : Preprocessed) (st : CircuitState) (p : point) : gadget CircuitState :=
  st ← mem_push preproc st (x_coordinate p); mem_push preproc st (y_coordinate p).

(** In [ReconstituteField] the subtraction from [FR_BITS] must not underflow. *)
Definition circuit_step (self : IrSource) (preproc : Preprocessed) (st : CircuitState) (ins : Instruction)
    : gadget CircuitState :=
  let memory := cells st in
  match ins with
  | Assert cond => c ← cell memory cond; _ ← assert_non_zero c; Ok st
  | CondSelect bit a b =>
      bit ← cell memory bit;
      if decide (version self = V0) then
        bit ← is_zero bit; b ← cell memory b; a ← cell memory a;
        result ← select bit b a; mem_push preproc st result
      else
        bit ← bit_of_native bit; a ← cell memory a; b ← cell memory b;
        result ← select bit a b; mem_push preproc st result
  | ConstrainBits var bits =>
      if decide (version self = V0) then
        x ← cell memory var;
        _ ← assigned_to_le_bits x (Some bits) (FR_BITS <=? bits)%nat; Ok st
      else if (bits <? FR_BITS)%nat then
        x ← cell memory var; _ ← assert_lower_than_fixed x (2 ^ Z.of_nat bits); Ok st
      else Ok st
  | ConstrainEq a b => x ← cell memory a; y ← cell memory b; _ ← assert_equal x y; Ok st
  | ConstrainToBoolean var => x ← cell memory var; _ ← bit_of_native x; Ok st
  | Copy var => x ← cell memory var; mem_push preproc st x
  | DeclarePubInput var => x ← cell memory var; pi_push preproc st x
  | PiSkip _ _ => Ok st
  | LoadImm imm => x ← assign_fixed imm; mem_push preproc st x
  | Output var => x ← cell memory var; Ok (out_push st x)
  | TransientHash inputs => vals ← cell_list memory inputs; h ← poseidon vals; mem_push preproc st h
  | PersistentHash alignment inputs =>
      vals ← cell_list memory inputs;
      bytes ← fab_decode_to_bytes alignment vals;
      res_bytes ← sha2_256 bytes;
      last ← unwrap (res_bytes !! 31%nat);
      hi ← native_of_byte last;
      st ← mem_push preproc st hi;
      lo ← assemble_bytes (take 31 res_bytes);
      mem_push preproc st lo
  | TestEq a b => x ← cell memory a; y ← cell memory b; bit ← is_equal x y; v ← native_of_bit bit; mem_push preproc st v
  | Add a b => x ← cell memory a; y ← cell memory b; v ← std_add x y; mem_push preproc st v
  | Mul a b => x ← cell memory a; y ← cell memory b; v ← std_mul x y; mem_push preproc st v
  | Neg a => x ← cell memory a; v ← std_neg x; mem_push preproc st v
  | Not a => x ← cell memory a; v ← lnot x; mem_push preproc st v
  | LessThan a b bits =>
      x ← cell memory a; y ← cell memory b;
      bit ← lower_than x y (Nat.max (bits + bits mod 2) 4);
      v ← native_of_bit bit; mem_push preproc st v
  | PublicInput guard | PrivateInput guard =>
      guard ← match guard with Some guard => g ← cell memory guard; Ok (Some g) | None => Ok None end;
      if (length (pp_memory preproc) <? length memory)%nat then Err Synthesis
      else
        value_cell ← unwrap (pp_memory preproc !! length memory);
        _ ← match guard with
            | Some guard =>
                value_is_zero ← is_zero value_cell;
                guard_bit ← bit_of_native guard;
                is_ok ← bit_or [value_is_zero; guard_bit];
                is_ok_field ← native_of_bit is_ok;
                assert_non_zero is_ok_field
            | None => Ok tt
            end;
        mem_push preproc st value_cell
  | DivModPowerOfTwo var bits =>
      x ← cell memory var;
      var_bits ← assigned_to_le_bits x None true;
      if (length var_bits <? bits)%nat then Panic
      else
        modulus ← assigned_from_le_bits (take bits var_bits);
        divisor ← assigned_from_le_bits (drop bits var_bits);
        st ← mem_push preproc st divisor;
        mem_push preproc st modulus
  | ReconstituteField divisor modulus bits =>
      if (FR_BITS <? bits)%nat then Panic
      else if decide (version self = V0) then
        d ← cell memory divisor;
        divisor_bits ← assigned_to_le_bits d (Some (FR_BITS - bits)%nat) (FR_BITS <=? bits)%nat;
        m ← cell memory modulus;
        modulus_bits ← assigned_to_le_bits m (Some bits) true;
        reconstituted ← assigned_from_le_bits (modulus_bits ++ divisor_bits);
        mem_push preproc st reconstituted
      else
        m ← cell memory modulus; d ← cell memory divisor;
        _ ← assert_lower_than_fixed d (2 ^ (Z.of_nat FR_BITS - Z.of_nat bits));
        _ ← assert_lower_than_fixed m (2 ^ Z.of_nat bits);
        reconstituted ← linear_combination [(1, m); (fr_from (2 ^ Z.of_nat bits), d)] 0;
        mem_push preproc st reconstituted
  | EcAdd a_x a_y b_x b_y =>
      ax ← cell memory a_x; ay ← cell memory a_y; a ← ecc_from_parts ax ay;
      bx ← cell memory b_x; by' ← cell memory b_y; b ← ecc_from_parts bx by';
      c ← jubjub_add a b; push_point preproc st c
  | EcMul a_x a_y scalar =>
      ax ← cell memory a_x; ay ← cell memory a_y; a ← ecc_from_parts ax ay;
      s ← cell memory scalar; s ← jubjub_scalar s;
      b ← jubjub_msm s a; push_point preproc st b
  | EcMulGenerator scalar =>
      g ← jubjub_assign_fixed point_generator;
      s ← cell memory scalar; s ← jubjub_scalar s;
      b ← jubjub_msm s g; push_point preproc st b
  | HashToCurve inputs => vals ← cell_list memory inputs; p ← std_hash_to_curve vals; push_point preproc st p
  end.

(** [Relation::circuit]: the values constrained as public inputs. *)
Definition circuit (self : IrSource) (preproc : Preprocessed) : gadget (list Fr) :=
  inputs ← (if (num_inputs self <=? length (pp_memory preproc))%nat
            then Ok (take (num_inputs self) (pp_memory preproc)) else Panic);
  st ← pi_push preproc {| cells := inputs; public_inputs := []; circuit_outputs := [] |} (pp_binding_input preproc);
  st ← (if do_communications_commitment self
        then '(comm, _) ← unwrap (pp_comm_comm preproc); pi_push preproc st comm
        else Ok st);
  st ← try_fold (circuit_step self preproc) st (instructions self);
  _ ← (if do_communications_commitment self
       then '(_, rand) ← unwrap (pp_comm_comm preproc);
            comm_comm ← poseidon (rand :: inputs ++ circuit_outputs st);
            second ← unwrap (public_inputs st !! 1%nat);
            assert_equal comm_comm second
       else Ok tt);
  Ok (public_inputs st).
End circuit.
