(* ===== verification/ZkirProps.v ===== *)
(** * The circuit agrees with the run outside of it

    When [preprocess] accepts the inputs and transcripts of a call, every
    constraint that [circuit] lays out holds for the values it computed, and the
    public inputs are the ones [preprocess] returned.  The converse fails for
    [ReconstituteField], whose constraints do not exclude an overflow. *)
From S2P Require Import Prelude Fab Coin MerkleTree FieldRepr Zkir.

(** ** Bits of integers *)
Definition bits_of (n : nat) (x : Z) : list bool := map (fun i => Z.testbit x (Z.of_nat i)) (seq 0 n).
Fixpoint Z_of_bits (l : list bool) : Z :=
  match l with [] => 0 | b :: l => fr_from_bool b + 2 * Z_of_bits l end.

Lemma length_bits_of n x : length (bits_of n x) = n.
Proof. unfold bits_of. by rewrite length_map, length_seq. Qed.
Lemma bits_of_cons n x : bits_of (S n) x = Z.odd x :: bits_of n (x / 2).
Proof.
  unfold bits_of. cbn [seq map]. rewrite Z.bit0_odd. f_equal. rewrite <- seq_shift, map_map. apply map_ext. intros i.
  rewrite Nat2Z.inj_succ, <- Z.div2_div, Z.div2_spec, Z.shiftr_spec, Z.add_1_r by lia. done.
Qed.
Lemma Z_of_bits_range l : 0 <= Z_of_bits l < 2 ^ Z.of_nat (length l).
Proof.
  induction l as [|b l IH]; cbn [Z_of_bits length]; [lia|]. rewrite Nat2Z.inj_succ, Z.pow_succ_r by lia. destruct b; cbn; lia.
Qed.
Lemma Z_of_bits_of n x : Z_of_bits (bits_of n x) = x mod 2 ^ Z.of_nat n.
Proof.
  revert x. induction n as [|n IH]; intros x; [cbn; by rewrite Z.mod_1_r|].
  rewrite bits_of_cons. cbn [Z_of_bits]. rewrite IH, Nat2Z.inj_succ, Z.pow_succ_r by lia.
  rewrite Z.rem_mul_r by lia. f_equal. rewrite Zmod_odd. by destruct (Z.odd x).
Qed.
Lemma Z_of_bits_app l r : Z_of_bits (l ++ r) = Z_of_bits l + 2 ^ Z.of_nat (length l) * Z_of_bits r.
Proof.
  induction l as [|b l IH]; cbn [Z_of_bits app length]; [cbn; lia|]. rewrite IH, Nat2Z.inj_succ, Z.pow_succ_r by lia. lia.
Qed.
Lemma bits_of_app n m x : bits_of (n + m) x = bits_of n x ++ bits_of m (x / 2 ^ Z.of_nat n).
Proof.
  revert x. induction n as [|n IH]; intros x; [cbn; by rewrite Z.div_1_r|].
  cbn [Nat.add]. rewrite !bits_of_cons, IH. cbn. do 2 f_equal.
  rewrite Nat2Z.inj_succ, Z.pow_succ_r, Z.div_div by lia. done.
Qed.
Lemma take_bits_of n m x : (n <= m)%nat -> take n (bits_of m x) = bits_of n x.
Proof.
  intros Hn. replace m with (n + (m - n))%nat by lia. rewrite bits_of_app. apply take_app_length'. symmetry. apply length_bits_of.
Qed.
Lemma drop_bits_of n m x : (n <= m)%nat -> drop n (bits_of m x) = bits_of (m - n) (x / 2 ^ Z.of_nat n).
Proof.
  intros Hn. replace m with (n + (m - n))%nat at 1 by lia. rewrite bits_of_app. apply drop_app_length'. symmetry. apply length_bits_of.
Qed.
Lemma element_bits_of x n : concat (map byte_bits (to_le_bytes n x)) = bits_of (n * 8) x.
Proof.
  revert x. induction n as [|n IH]; intros x; [done|]. cbn [to_le_bytes map]. change (concat (?a :: ?b)) with (a ++ concat b).
  rewrite IH. change (S n * 8)%nat with (8 + n * 8)%nat. rewrite bits_of_app. f_equal.
  unfold byte_bits, bits_of. apply map_ext_in. intros i Hi%in_seq. change 256 with (2 ^ 8). by rewrite Z.mod_pow2_bits_low by lia.
Qed.
Lemma no_high_bits n x : existsb id (bits_of n x) = false -> x mod 2 ^ Z.of_nat n = 0.
Proof.
  revert x. induction n as [|n IH]; intros x; [intros _; apply Z.mod_1_r|]. rewrite bits_of_cons. cbn [existsb id].
  intros [Ho Hr]%orb_false_iff. apply IH in Hr. rewrite Nat2Z.inj_succ, Z.pow_succ_r, Z.rem_mul_r, Hr by lia.
  rewrite Zmod_odd, Ho. lia.
Qed.

(** ** Field elements *)
Section values.
Context `{FieldOrderLaws} {FB : FrBits}.
#[local] Set Default Proof Using "All".

Lemma modulus_pos : 0 < fr_modulus.
Proof. pose proof fr_bits. lia. Qed.
Lemma fr_from_wf x : fr_wf (fr_from x).
Proof. apply Z.mod_pos_bound, modulus_pos. Qed.
Lemma fr_from_small x : fr_wf x -> fr_from x = x.
Proof. apply Z.mod_small. Qed.
Lemma element_bits_spec x : element_bits x = bits_of 256 x.
Proof. apply element_bits_of. Qed.
Lemma fr_lt_256 x : fr_wf x -> 0 <= x < 2 ^ 255.
Proof. pose proof fr_bits. unfold fr_wf. lia. Qed.
Lemma from_bits_spec l : from_bits l = fr_from (Z_of_bits l).
Proof.
  unfold from_bits. induction l as [|b l IH]; [cbn; by rewrite fr_from_small by (split; [lia|apply modulus_pos])|].
  rewrite reverse_cons, foldl_app. cbn [foldl Z_of_bits]. rewrite IH. unfold fr_add, fr_mul, fr_from.
  rewrite Zmult_mod_idemp_l, Zplus_mod_idemp_l. f_equal. lia.
Qed.
Lemma pow2_spec n : pow2 n = fr_from (2 ^ Z.of_nat n).
Proof.
  unfold pow2. induction n as [|n IH]; [done|]. rewrite Nat.iter_succ, IH. unfold fr_mul, fr_from.
  rewrite Zmult_mod_idemp_l, Zmult_mod_idemp_r, Nat2Z.inj_succ, Z.pow_succ_r by lia. done.
Qed.

Lemma idx_Ok mem i x : idx mem i = Ok x -> mem !! i = Some x.
Proof. apply ok_or_Ok_inv. Qed.
Lemma idx_wf mem i x : Forall fr_wf mem -> idx mem i = Ok x -> fr_wf x.
Proof. intros Hm Hi%idx_Ok. by eapply Forall_lookup_1. Qed.
Lemma idx_bool_Ok mem i b : idx_bool mem i = Ok b -> mem !! i = Some (fr_from_bool b).
Proof.
  unfold idx_bool. intros E. inv_binds. apply idx_Ok in E0. destruct (Z.eqb_spec a 0); [injection E as <-; by subst|].
  destruct (Z.eqb_spec a 1); [injection E as <-; by subst|done].
Qed.
(** The bits of an element that fits in [n] of them. *)
Lemma idx_bits_Some mem i n l : Forall fr_wf mem -> idx_bits mem i (Some n) = Ok l ->
  (n < FR_BITS)%nat /\ exists x, mem !! i = Some x /\ 0 <= x < 2 ^ Z.of_nat n /\ l = bits_of n x.
Proof.
  intros Hm. unfold idx_bits. intros E. inv_binds. pose proof (idx_wf _ _ _ Hm E0) as Hw. apply idx_Ok in E0.
  destruct (Nat.leb_spec FR_BITS n) as [|Hn]; [done|]. split; [done|]. exists a.
  destruct (existsb _ _) eqn:Eb; [done|]. injection E as <-. rewrite element_bits_spec in *.
  unfold FR_BITS in Hn. rewrite take_bits_of by lia. split_and!; try done; [apply fr_lt_256 in Hw; lia|].
  rewrite drop_bits_of in Eb by lia. apply no_high_bits in Eb. apply fr_lt_256 in Hw.
  assert (0 <= a / 2 ^ Z.of_nat n) by (apply Z.div_pos; lia).
  assert (a / 2 ^ Z.of_nat n < 2 ^ Z.of_nat (256 - n)) as Hlt.
  { apply Z.div_lt_upper_bound; [lia|]. rewrite <- Z.pow_add_r by lia. replace (Z.of_nat n + Z.of_nat (256 - n)) with 256 by lia. lia. }
  rewrite Z.mod_small in Eb by lia. apply Z.div_small_iff in Eb; lia.
Qed.
End values.

(** ** Well-formed states *)
Section states.
Context `{FieldOrderLaws} {FB : FrBits}.
#[local] Set Default Proof Using "All".
Implicit Types (st : PreState).

Definition wf_state st : Prop := Forall fr_wf (memory st).
Lemma push_push st l1 l2 : push (push st l1) l2 = push st (l1 ++ l2).
Proof. unfold push. cbn. by rewrite app_assoc. Qed.
Lemma bool_wf b : fr_wf (fr_from_bool b).
Proof. pose proof fr_bits. unfold fr_wf. destruct b; cbn; lia. Qed.
Lemma fr_op_wf x : fr_wf (x mod fr_modulus).
Proof. apply (fr_from_wf x). Qed.
Lemma fr_add_wf x y : fr_wf (fr_add x y).
Proof. apply fr_op_wf. Qed.
Lemma fr_mul_wf x y : fr_wf (fr_mul x y).
Proof. apply fr_op_wf. Qed.
Lemma fr_neg_wf x : fr_wf (fr_neg x).
Proof. apply fr_op_wf. Qed.
Lemma if_wf (b : bool) x y : fr_wf x -> fr_wf y -> fr_wf (if b then x else y).
Proof. by destruct b. Qed.
Lemma from_bits_wf l : fr_wf (from_bits l).
Proof. rewrite from_bits_spec. apply fr_from_wf. Qed.
Lemma zero_wf : fr_wf 0.
Proof. apply (bool_wf false). Qed.
Lemma lookup_wf l i x : Forall fr_wf l -> l !! i = Some x -> fr_wf x.
Proof. apply Forall_lookup_1. Qed.
Lemma push_wf st l : wf_state st -> Forall fr_wf l -> wf_state (push st l).
Proof. intros Hs Hl. unfold wf_state. cbn. by apply list.Forall_app. Qed.
Lemma wf_one x : fr_wf x -> Forall fr_wf [x].
Proof. intros Hx. by apply list.Forall_singleton. Qed.
Lemma wf_two x y : fr_wf x -> fr_wf y -> Forall fr_wf [x; y].
Proof. intros Hx Hy. by apply list.Forall_cons_2, wf_one. Qed.

Lemma read_public_wf st x : wf_state st -> fr_wf x -> wf_state (read_public st x).
Proof. intros Hs Hx. by apply (push_wf st [x]), wf_one. Qed.
Lemma read_private_wf st x : wf_state st -> fr_wf x -> wf_state (read_private st x).
Proof. intros Hs Hx. by apply (push_wf st [x]), wf_one. Qed.

End states.

(** ** What the gadgets do *)
Class HashShapes `{FieldOrder} `{Hashing} : Prop := {
  transient_hash_wf l : fr_wf (transient_hash l);
  persistent_hash_wf l : hash_wf (persistent_hash l) }.

Definition constrained (b : bool) : gadget unit := if b then Ok tt else Err Unsatisfied.
Class StdLibLaws `{FieldOrder} `{Hashing} `{ZkStdLib} : Prop := {
  law_assert_non_zero x : assert_non_zero x = constrained (negb (x =? 0));
  law_assert_equal x y : assert_equal x y = constrained (x =? y);
  law_is_zero x : is_zero x = Ok (x =? 0);
  law_is_equal x y : is_equal x y = Ok (x =? y);
  law_bit_of_native x : bit_of_native x = (_ ← constrained ((x =? 0) || (x =? 1)); Ok (x =? 1));
  law_native_of_bit b : native_of_bit b = Ok (fr_from_bool b);
  law_native_of_byte b : is_u8 b -> native_of_byte b = Ok b;
  law_select b x y : select b x y = Ok (if b then x else y);
  law_bit_or l : bit_or l = Ok (existsb id l);
  law_assign_fixed x : assign_fixed x = Ok x;
  law_add x y : std_add x y = Ok (fr_add x y);
  law_mul x y : std_mul x y = Ok (fr_mul x y);
  law_neg x : std_neg x = Ok (fr_neg x);
  law_mul_by_constant x c : mul_by_constant x c = Ok (fr_mul x c);
  law_linear_combination l c :
    linear_combination l c = Ok (fr_from (foldr (fun '(a, x) acc => a * x + acc) c l));
  law_to_le_bits_all x : fr_wf x -> assigned_to_le_bits x None true = Ok (bits_of FR_BITS x);
  law_to_le_bits x n canonical : fr_wf x -> (n < FR_BITS)%nat ->
    assigned_to_le_bits x (Some n) canonical = (_ ← constrained (x <? 2 ^ Z.of_nat n); Ok (bits_of n x));
  law_from_le_bits l : assigned_from_le_bits l = Ok (fr_from (Z_of_bits l));
  law_to_le_bytes_all x : fr_wf x -> assigned_to_le_bytes x None = Ok (as_le_bytes x);
  law_to_le_bytes x k : fr_wf x -> (k <= FR_BYTES_STORED)%nat ->
    assigned_to_le_bytes x (Some k) = (_ ← constrained (x <? 256 ^ Z.of_nat k); Ok (to_le_bytes k x));
  law_assert_lower_than_fixed x bound : assert_lower_than_fixed x bound = constrained (x <? bound);
  law_lower_than x y n : fr_wf x -> fr_wf y -> (4 <= n < FR_BITS)%nat -> (n mod 2 = 0)%nat ->
    lower_than x y n = (_ ← constrained ((x <? 2 ^ Z.of_nat n) && (y <? 2 ^ Z.of_nat n)); Ok (x <? y));
  law_poseidon l : poseidon l = Ok (transient_hash l);
  law_sha2_256 l : sha2_256 l = Ok (persistent_hash l);
  law_jubjub_assign p : jubjub_assign p = Ok p;
  law_jubjub_assign_fixed p : jubjub_assign_fixed p = Ok p;
  law_jubjub_add p q : jubjub_add p q = Ok (point_add p q);
  law_jubjub_scalar x : jubjub_scalar x = Ok x;
  law_jubjub_msm s p : jubjub_msm s p = Ok (point_mul p (s mod embedded_order));
  law_x_coordinate p : x_coordinate p = default 0 (point_x p);
  law_y_coordinate p : y_coordinate p = default 0 (point_y p);
  law_hash_to_curve l : std_hash_to_curve l = Ok (curve_hash l) }.

(** ** The simulation *)
Create HintDb wf.
Section simulation.
Context `{FieldOrderLaws} {FB : FrBits} `{Hashing} `{!HashShapes} `{EmbeddedCurve} `{!CurveLaws} `{!ZkStdLib} {SL : StdLibLaws}.
#[local] Set Default Proof Using "All".
Implicit Types (st : PreState) (preproc : Preprocessed).

(** The circuit's view of a state of [preprocess]. *)
Definition in_circuit st : CircuitState :=
  {| cells := memory st; public_inputs := pis st; circuit_outputs := outputs st |}.
(** [preproc] is the result of a run that goes through [st]. *)
Definition leads_to st preproc : Prop := memory st `prefix_of` pp_memory preproc /\ pis st `prefix_of` pp_pis preproc.

Lemma cell_idx mem i x : mem !! i = Some x -> cell mem i = Ok x.
Proof. unfold cell. by intros ->. Qed.
Lemma idx_cell mem i x : idx mem i = Ok x -> cell mem i = Ok x.
Proof. intros Hi%idx_Ok. by apply cell_idx. Qed.
Lemma idxs_cells mem vars vals : idxs mem vars = Ok vals -> cell_list mem vars = Ok vals.
Proof.
  unfold idxs, cell_list.
  enough (forall acc, try_fold (fun acc i => v ← idx mem i; Ok (acc ++ [v])) acc vars = Ok vals ->
            try_fold (fun acc i => v ← cell mem i; Ok (acc ++ [v])) acc vars = Ok vals) by auto.
  induction vars as [|v vars IH]; intros acc; cbn [try_fold]; [by intros [= ->]|].
  intros E. inv_binds. apply idx_cell in E1. rewrite E1. cbn. by apply IH.
Qed.
Lemma idxs_wf mem vars vals : Forall fr_wf mem -> idxs mem vars = Ok vals -> Forall fr_wf vals.
Proof.
  intros Hm. unfold idxs. apply (try_fold_inv (Forall fr_wf)); [constructor|]. intros a x a' _ Ha E. inv_binds.
  apply list.Forall_app. split; [done|]. constructor; [by apply (idx_wf mem x)|constructor].
Qed.

Lemma seq_push_prefix expected mem v : (mem ++ [v]) `prefix_of` expected -> seq_push expected mem v = Ok (mem ++ [v]).
Proof.
  intros [l ->]. unfold seq_push. rewrite <- app_assoc, lookup_app_r, Nat.sub_diag by done. cbn. by rewrite Z.eqb_refl.
Qed.
Lemma mem_push_one preproc st v : leads_to (push st [v]) preproc ->
  mem_push preproc (in_circuit st) v = Ok (in_circuit (push st [v])).
Proof. intros [Hm _]. unfold mem_push. cbn in Hm |- *. by rewrite seq_push_prefix. Qed.
Lemma leads_to_push preproc st l1 l2 : leads_to (push st (l1 ++ l2)) preproc -> leads_to (push st l1) preproc.
Proof.
  intros [Hm Hp]. split; [|done]. cbn in *. etrans; [|exact Hm]. exists l2. by rewrite <- app_assoc.
Qed.
Lemma mem_push_two preproc st x y : leads_to (push st [x; y]) preproc ->
  (st' ← mem_push preproc (in_circuit st) x; mem_push preproc st' y) = Ok (in_circuit (push st [x; y])).
Proof.
  intros Hl. rewrite mem_push_one by (by apply (leads_to_push _ _ [x] [y])). cbn [mbind outcome_bind].
  change [x; y] with ([x] ++ [y]) in *. rewrite <- push_push in *. by apply mem_push_one.
Qed.

(** *** Points *)
Lemma reduce_scalar_mod fuel rhs : 0 <= rhs -> rhs / embedded_order = Z.of_nat fuel -> reduce_scalar fuel rhs = rhs mod embedded_order.
Proof.
  pose proof embedded_order_pos as Ho. revert rhs. induction fuel as [|fuel IH]; intros rhs Hr Hq; cbn [reduce_scalar].
  - rewrite Z.mod_eq, Hq by lia. lia.
  - assert (embedded_order <= rhs) as Hle.
    { pose proof (Z.mul_div_le rhs embedded_order Ho). nia. }
    destruct (Z.leb_spec embedded_order rhs); [|lia]. rewrite IH.
    + replace (rhs - embedded_order) with (rhs + (-1) * embedded_order) by lia. apply Z_mod_plus_full.
    + lia.
    + replace (rhs - embedded_order) with (rhs + (-1) * embedded_order) by lia. rewrite Z.div_add by lia. lia.
Qed.
Lemma point_mul_fr_mod p s : fr_wf s -> point_mul_fr p s = point_mul p (s mod embedded_order).
Proof.
  intros [Hs _]. unfold point_mul_fr. rewrite reduce_scalar_mod; [done|done|].
  rewrite Z2Nat.id; [done|]. apply Z.div_pos; [done|apply embedded_order_pos].
Qed.
Lemma from_point_wf p : Forall fr_wf (from_point p).
Proof.
  destruct (coordinates_total p) as (x & y & E & Hx & Hy). unfold from_point, point_x, point_y. rewrite E. cbn. by rewrite !list.Forall_cons, list.Forall_nil.
Qed.
Lemma from_parts mem i j x y p : idx_point mem i j = Ok p -> cell mem i = Ok x -> cell mem j = Ok y -> ecc_from_parts x y = Ok p.
Proof.
  intros E Hx Hy. unfold idx_point in E. inv_binds. apply idx_cell in E0, E1. rewrite Hx in E0. rewrite Hy in E1.
  injection E0 as <-. injection E1 as <-. unfold ecc_from_parts. rewrite E, law_jubjub_assign. cbn [mbind outcome_bind].
  rewrite law_x_coordinate, law_y_coordinate, !law_assert_equal. unfold point_x, point_y.
  rewrite (coordinates_from_xy _ _ _ E). cbn. by rewrite !Z.eqb_refl.
Qed.
Lemma idx_point_cells mem i j p : idx_point mem i j = Ok p -> exists x y, cell mem i = Ok x /\ cell mem j = Ok y.
Proof. unfold idx_point. intros E. inv_binds. apply idx_cell in E0, E1. eauto. Qed.
Lemma push_point_spec preproc st p : leads_to (push st (from_point p)) preproc ->
  push_point preproc (in_circuit st) p = Ok (in_circuit (push st (from_point p))).
Proof. intros Hl. unfold push_point. rewrite law_x_coordinate, law_y_coordinate. by apply mem_push_two. Qed.

(** *** Hashes *)
Lemma hash_field_repr_wf h : hash_wf h -> Forall fr_wf (hash_field_repr h).
Proof.
  intros Hh. rewrite hash_field_repr_spec by done. destruct Hh as [Hl Hb]. unfold PERSISTENT_HASH_BYTES in Hl.
  rewrite !list.Forall_cons, list.Forall_nil. split_and!; try done; (apply short_bytes_wf; [by apply Forall_drop || by apply Forall_take|rewrite ?length_drop, ?length_take; lia]).
Qed.

Lemma byte_power i : Nat.iter (i * 8) (fun acc => fr_mul acc (fr_from 2)) (fr_from 1) = fr_from (256 ^ Z.of_nat i).
Proof.
  assert (forall n, Nat.iter n (fun acc => fr_mul acc (fr_from 2)) (fr_from 1) = fr_from (2 ^ Z.of_nat n)) as ->.
  { intros n. induction n as [|n IH]; [done|]. rewrite Nat.iter_succ, IH. unfold fr_mul, fr_from.
    rewrite Zmult_mod_idemp_l, Zmult_mod_idemp_r, Nat2Z.inj_succ, Z.pow_succ_r by lia. f_equal. lia. }
  f_equal. change 256 with (2 ^ 8). rewrite <- Z.pow_mul_r by lia. f_equal. lia.
Qed.
Lemma weighted_byte i b : is_u8 b -> (i < 31)%nat -> fr_mul b (fr_from (256 ^ Z.of_nat i)) = b * 256 ^ Z.of_nat i.
Proof.
  intros Hb Hi. unfold fr_mul, fr_from. rewrite Zmult_mod_idemp_r. apply Z.mod_small. pose proof fr_bits.
  assert (256 ^ Z.of_nat i <= 256 ^ 30) as Hp by (apply Z.pow_le_mono_r; lia). assert (0 < 256 ^ Z.of_nat i) by lia.
  change (256 ^ 30) with (2 ^ 240) in Hp. autounfold with ints in Hb. nia.
Qed.
Definition weigh (k : nat) (l : list Z) : list Z := imap (fun i b => b * 256 ^ Z.of_nat (k + i)) l.
Lemma weigh_cons k b l : weigh k (b :: l) = b * 256 ^ Z.of_nat k :: weigh (S k) l.
Proof.
  unfold weigh. rewrite imap_cons. f_equal; [by rewrite Nat.add_0_r|]. apply imap_ext. intros i x _. cbn. by rewrite Nat.add_succ_r.
Qed.
Lemma weigh_powers k l acc : bytes_wf l -> (k + length l <= 31)%nat ->
  try_fold (fun acc '(i, byte) =>
              b ← native_of_byte byte;
              if (i =? 0)%nat then Ok (acc ++ [b])
              else (p ← mul_by_constant b (Nat.iter (i * 8) (fun acc => fr_mul acc (fr_from 2)) (fr_from 1)); Ok (acc ++ [p])))
    acc (imap (fun i b => (k + i, b)%nat) l) = Ok (acc ++ weigh k l).
Proof.
  revert k acc. induction l as [|b l IH]; intros k acc Hw Hl; [cbn; by rewrite app_nil_r|].
  apply list.Forall_cons in Hw as [Hb Hw]. rewrite imap_cons, weigh_cons. cbn [try_fold length] in *. rewrite Nat.add_0_r.
  rewrite law_native_of_byte by done. cbn [mbind outcome_bind].
  assert ((if (k =? 0)%nat then Ok (acc ++ [b])
           else p ← mul_by_constant b (Nat.iter (k * 8) (fun acc => fr_mul acc (fr_from 2)) (fr_from 1)); Ok (acc ++ [p]))
          = Ok (E := CircuitError) (acc ++ [b * 256 ^ Z.of_nat k])) as ->.
  { destruct (Nat.eqb_spec k 0) as [->|]; [by rewrite Z.mul_1_r|]. rewrite law_mul_by_constant, byte_power, weighted_byte by (done || lia). done. }
  cbn [mbind outcome_bind]. specialize (IH (S k) (acc ++ [b * 256 ^ Z.of_nat k]) Hw ltac:(lia)).
  rewrite <- app_assoc in IH. cbn [app] in IH. etrans; [|exact IH]. f_equal.
  apply imap_ext. intros i x _. cbn. by rewrite Nat.add_succ_r.
Qed.

Lemma weigh_sum k l : foldr Z.add 0 (weigh k l) = 256 ^ Z.of_nat k * from_le_bytes l.
Proof.
  revert k. induction l as [|b l IH]; intros k; [cbn; lia|]. rewrite weigh_cons. cbn [foldr from_le_bytes]. rewrite IH.
  rewrite Nat2Z.inj_succ, Z.pow_succ_r by lia. lia.
Qed.
Lemma sum_cells l acc : Forall (fun x => 0 <= x) l -> 0 <= acc -> acc + foldr Z.add 0 l < fr_modulus ->
  try_fold std_add acc l = Ok (acc + foldr Z.add 0 l).
Proof.
  intros Hl. revert acc. induction Hl as [|x l Hx Hl IH]; intros acc Ha Hs; [cbn; f_equal; lia|]. cbn [try_fold foldr] in *.
  assert (0 <= foldr Z.add 0 l) by (clear -Hl; induction Hl; cbn; lia).
  rewrite law_add. cbn [mbind outcome_bind]. unfold fr_add. rewrite Z.mod_small by lia. rewrite IH by lia. f_equal. lia.
Qed.
Lemma weigh_nonneg k l : bytes_wf l -> Forall (fun x => 0 <= x) (weigh k l).
Proof.
  intros Hl. revert k. induction Hl as [|b l Hb _ IH]; intros k; [constructor|]. rewrite weigh_cons. constructor; [|apply IH].
  autounfold with ints in Hb. assert (0 < 256 ^ Z.of_nat k) by lia. nia.
Qed.
Lemma assemble_bytes_spec l : bytes_wf l -> (0 < length l <= 31)%nat -> assemble_bytes l = Ok (from_le_bytes l).
Proof.
  intros Hw Hl. unfold assemble_bytes.
  change (imap pair l) with (imap (fun i b => (0 + i, b)%nat) l). rewrite (weigh_powers 0 l [] Hw ltac:(lia)). cbn [mbind outcome_bind app].
  pose proof (weigh_sum 0 l) as Hs. pose proof (weigh_nonneg 0 l Hw) as Hn. pose proof (short_bytes_wf l Hw ltac:(lia)) as [_ Hlt].
  destruct (weigh 0 l) as [|p ps] eqn:E.
  { destruct l; [cbn in Hl; lia|]. by rewrite weigh_cons in E. }
  cbn [foldr] in Hs. apply list.Forall_cons in Hn as [Hp Hn].
  rewrite sum_cells by (done || lia). f_equal. lia.
Qed.

(** *** Decoding bytes *)
Lemma bytes_from_gadget k f b : (k <= FR_BYTES_STORED)%nat -> fr_wf f -> bytes_from k f = Some b ->
  exists repr, assigned_to_le_bytes f (Some k) = Ok repr /\ take k repr = b.
Proof.
  intros Hk Hf Hb. apply bytes_from_spec in Hb as (Hl & Hv & Hw); [|unfold FR_BYTES_STORED, FR_BYTE_LEN in *; lia|done].
  rewrite law_to_le_bytes by done. pose proof (from_le_bytes_bound b Hw) as Hbd. rewrite Hl, Hv in Hbd.
  unfold constrained. destruct (Z.ltb_spec f (256 ^ Z.of_nat k)); [|lia]. cbn. eexists. split; [done|].
  rewrite take_ge by (by rewrite length_to_le_bytes). rewrite <- Hv, to_from_padded by (done || lia).
  by rewrite Hl, Nat.sub_diag, app_nil_r.
Qed.
Lemma mapM_gadget fs res acc : Forall fr_wf fs -> mapM (bytes_from FR_BYTES_STORED) fs = Some res ->
  try_fold (fun res f => repr ← assigned_to_le_bytes f (Some FR_BYTES_STORED); Ok (res ++ take FR_BYTES_STORED repr)) acc fs
  = Ok (acc ++ concat res).
Proof.
  intros Hf E%mapM_Some_1. revert acc Hf. induction E as [|f b fs res Hb _ IH]; intros acc Hf; [cbn; by rewrite app_nil_r|].
  apply list.Forall_cons in Hf as [Hf1 Hf]. cbn [try_fold].
  destruct (bytes_from_gadget FR_BYTES_STORED f b (Nat.le_refl _) Hf1 Hb) as (repr & -> & <-). cbn [mbind outcome_bind].
  rewrite IH by done. by rewrite <- app_assoc.
Qed.
Lemma decode_atom_spec a vals v rest : plain_segment (Atom a) -> Forall fr_wf vals -> atom_parse_field_repr a vals = Some (v, rest) ->
  exists bytes, decode_atom a vals = Ok (bytes, rest) /\ atom_binary_repr_unchecked v a = Ok bytes.
Proof.
  intros Ha Hw. destruct a as [|n|]; cbn [atom_parse_field_repr]; [done| |].
  - intros E. cbn in Ha. pose proof (bytes_from_field_repr_spec vals (Z.to_nat n) v rest Hw E) as (_ & _ & _ & Hlv & _ & _).
    exists v. split.
    + unfold bytes_from_field_repr in E. cbn [decode_atom]. set (stray := (Z.to_nat n mod FR_BYTES_STORED)%nat) in *.
      assert (stray < FR_BYTES_STORED)%nat by (apply Nat.mod_upper_bound; unfold FR_BYTES_STORED; lia).
      set (chunks := (Z.to_nat n / FR_BYTES_STORED)%nat) in *. clearbody stray chunks.
      destruct (length vals <? _)%nat; [done|]. apply bind_Some in E as ([tl vals'] & E & E').
      apply bind_Some in E' as (res & Er & [= <- <-]).
      assert ((if (0 <? stray)%nat then f ← unwrap (list.head vals); repr ← assigned_to_le_bytes f (Some stray); Ok (take stray repr, drop 1 vals)
               else Ok ([], vals)) = Ok (E := CircuitError) (tl, vals')) as ->.
      { destruct (0 <? stray)%nat; [|by injection E as <- <-]. apply bind_Some in E as (f & Hf & E). rewrite Hf.
        apply bind_Some in E as (t & Ht & [= <- <-]). cbn [unwrap mbind outcome_bind].
        destruct (bytes_from_gadget stray f t) as (repr & -> & <-); [lia| |done|done].
        destruct vals as [|? ?]; [done|]. injection Hf as <-. by apply list.Forall_cons in Hw as [? _]. }
      cbn [mbind outcome_bind]. rewrite (mapM_gadget _ res []); [done| |done].
      apply Forall_reverse, Forall_take. destruct (0 <? stray)%nat; [|by injection E as <- <-].
      apply bind_Some in E as (f & Hf & E). apply bind_Some in E as (t & Ht & [= <- <-]). by apply Forall_drop.
    + cbn [atom_binary_repr_unchecked]. rewrite Hlv. destruct (Z.leb_spec (Z.of_nat (Z.to_nat n)) n); [|lia].
      by rewrite Nat.sub_diag, app_nil_r.
  - destruct vals as [|x vals]; [done|]. intros [= <- <-]. apply list.Forall_cons in Hw as [Hx _].
    exists (as_le_bytes x). cbn [decode_atom atom_binary_repr_unchecked]. rewrite law_to_le_bytes_all, field_atom_value by done. done.
Qed.
Lemma decode_spec al vals v rest : Forall plain_segment al -> Forall fr_wf vals ->
  parse_loop parse_field_repr_segment al vals = Some (v, rest) ->
  exists bytes, fab_decode_to_bytes al vals = Ok bytes /\
    forall atoms, traverse_loop (traverse_segment atom_binary_repr_unchecked bin_len 0) al (v ++ atoms) = Ok (bytes, atoms).
Proof.
  intros Hal. revert vals v rest. induction Hal as [|s al Hs _ IH]; intros vals v rest Hw; cbn [parse_loop].
  - intros [= <- <-]. by exists [].
  - destruct s as [a|]; [|done]. cbn [parse_field_repr_segment].
    intros ([v1 r1] & ([x r] & E1 & [= <- <-])%bind_Some & ([v2 r2] & E2 & [= <- <-])%bind_Some)%bind_Some.
    destruct (atom_parse_sound a vals x r Hw E1) as (used & Hu & _). subst vals.
    apply decode_atom_spec in E1 as (b1 & Hd1 & Hb1); [|done..]. apply list.Forall_app in Hw as [_ Hw].
    apply IH in E2 as (b2 & Hd2 & Hb2); [|done]. exists (b1 ++ b2). cbn [fab_decode_to_bytes]. rewrite Hd1. cbn [mbind outcome_bind].
    rewrite Hd2. split; [done|]. intros atoms. cbn [traverse_loop app traverse_segment]. rewrite Hb1. cbn [mbind outcome_bind].
    by rewrite Hb2.
Qed.

(** *** One instruction *)

(** Immediates are field elements, and hashed data has no alternatives. *)
Definition ins_ok (ins : Instruction) : Prop :=
  match ins with LoadImm imm => fr_wf imm | PersistentHash al _ => Forall plain_segment al | _ => True end.
Definition preimage_wf (preimage : ProofPreimage) : Prop :=
  Forall fr_wf (inputs preimage) /\ Forall fr_wf (private_transcript preimage) /\
  Forall fr_wf (public_transcript_outputs preimage).

#[local] Hint Resolve push_wf read_public_wf read_private_wf lookup_wf wf_one wf_two bool_wf if_wf fr_add_wf fr_mul_wf fr_neg_wf fr_from_wf from_bits_wf zero_wf transient_hash_wf from_point_wf
  hash_field_repr_wf persistent_hash_wf idx_wf : wf.
Lemma step_wf preimage st ins st' : preimage_wf preimage -> ins_ok ins -> wf_state st -> preprocess_step preimage st ins = Ok st' -> wf_state st'.
Proof.
  intros (_ & Hpriv & Hpub) Hi Hs E. destruct ins; cbn [preprocess_step] in E; inv_binds;
    repeat match type of E with (if ?b then _ else _) = _ => destruct b; inv_binds
           | match bits_compare ?x ?y with _ => _ end = _ => destruct (bits_compare x y); inv_binds end; simplify_eq; eauto 6 with wf.
Qed.

(** The cases that need an argument of their own. *)
Lemma read_transcript self preproc st guard v st' : leads_to st' preproc -> memory st' = memory st ++ [v] -> pis st' = pis st -> outputs st' = outputs st ->
  guarded (memory st) guard = Ok true \/ (guarded (memory st) guard = Ok false /\ v = 0) ->
  circuit_step self preproc (in_circuit st) (PublicInput guard) = Ok (in_circuit st').
Proof.
  intros [[l Hm] _] Em Ep Eo Hg. cbn [circuit_step]. cbn [in_circuit cells].
  assert (pp_memory preproc !! length (memory st) = Some v) as Hv.
  { rewrite Hm, Em, <- app_assoc, lookup_app_r, Nat.sub_diag by done. done. }
  destruct (Nat.ltb_spec (length (pp_memory preproc)) (length (memory st))) as [Hlt|_].
  { apply lookup_lt_Some in Hv. lia. }
  assert (mem_push preproc (in_circuit st) v = Ok (in_circuit st')) as Hpush.
  { unfold mem_push. rewrite seq_push_prefix by (rewrite Hm, Em; by apply prefix_app_r). cbn. unfold in_circuit. by rewrite Em, Ep, Eo. }
  destruct guard as [g|]; cbn [guarded] in Hg.
  - assert (exists b, memory st !! g = Some (fr_from_bool b) /\ (b = true \/ v = 0)) as (b & Hc & Hb).
    { destruct Hg as [Hg|[Hg ?]]; apply idx_bool_Ok in Hg; eauto. }
    rewrite (cell_idx _ _ _ Hc). cbn [mbind outcome_bind]. rewrite Hv. cbn [unwrap mbind outcome_bind].
    rewrite law_is_zero, law_bit_of_native. cbn [mbind outcome_bind].
    replace (_ ← constrained ((fr_from_bool b =? 0) || (fr_from_bool b =? 1)); Ok (fr_from_bool b =? 1))
      with (Ok (E := CircuitError) b) by (by destruct b).
    cbn [mbind outcome_bind]. rewrite law_bit_or. cbn [mbind outcome_bind]. rewrite law_native_of_bit. cbn [mbind outcome_bind].
    rewrite law_assert_non_zero.
    destruct Hb as [-> | ->]; cbn; [rewrite orb_true_r|]; cbn; exact Hpush.
  - cbn [mbind outcome_bind]. rewrite Hv. cbn [unwrap mbind outcome_bind]. exact Hpush.
Qed.

Lemma native_of_bool b : bit_of_native (fr_from_bool b) = Ok b.
Proof. rewrite law_bit_of_native. by destruct b. Qed.
Lemma fits_in_bits x n : x < 2 ^ Z.of_nat n -> constrained (x <? 2 ^ Z.of_nat n) = Ok tt.
Proof. intros Hx. unfold constrained. by destruct (Z.ltb_spec x (2 ^ Z.of_nat n)); [|lia]. Qed.
Lemma from_bits_of n x : fr_wf x -> 0 <= x < 2 ^ Z.of_nat n -> from_bits (bits_of n x) = x.
Proof. intros Hw Hx. rewrite from_bits_spec, Z_of_bits_of, Z.mod_small by done. by apply fr_from_small. Qed.

Lemma step_persistent_hash self preimage preproc st alignment vars st' : wf_state st -> Forall plain_segment alignment ->
  leads_to st' preproc -> preprocess_step preimage st (PersistentHash alignment vars) = Ok st' ->
  circuit_step self preproc (in_circuit st) (PersistentHash alignment vars) = Ok (in_circuit st').
Proof.
  intros Hs Hal Hl E. cbn [preprocess_step] in E. inv_binds. rename a into vals, a0 into value, a1 into bytes.
  pose proof (idxs_wf _ _ _ Hs E0) as Hv. apply idxs_cells in E0.
  unfold parse_field_repr in E1. apply bind_Some in E1 as ([v rest] & Ep & [= <-]). unfold parse_field_repr_inner in Ep.
  apply decode_spec in Ep as (b & Hd & Hb); [|done..]. specialize (Hb []). rewrite app_nil_r in Hb.
  unfold binary_of, binary_repr_unchecked, repr_traverse in E2. cbn [av_value av_alignment] in E2. rewrite Hb in E2. injection E2 as <-.
  pose proof (persistent_hash_wf b) as Hh. rewrite hash_field_repr_spec in Hl |- * by done. destruct Hh as [Hlen Hwf]. unfold PERSISTENT_HASH_BYTES in Hlen.
  destruct (drop 31 (persistent_hash b)) as [|last [|]] eqn:Ed; apply (f_equal length) in Ed as El; rewrite length_drop in El; cbn in El; try lia.
  assert (persistent_hash b !! 31%nat = Some last) as Hlast.
  { rewrite <- (Nat.add_0_r 31), <- lookup_drop, Ed. done. }
  assert (is_u8 last) as Hu by (by eapply Forall_lookup_1).
  cbn [from_le_bytes] in Hl |- *. rewrite Z.mul_0_r, Z.add_0_r in *.
  cbn [circuit_step]. cbn [in_circuit cells]. rewrite E0. cbn [mbind outcome_bind]. rewrite Hd. cbn [mbind outcome_bind].
  rewrite law_sha2_256. cbn [mbind outcome_bind]. rewrite Hlast. cbn [unwrap mbind outcome_bind].
  rewrite law_native_of_byte by done. cbn [mbind outcome_bind].
  rewrite assemble_bytes_spec by (by apply Forall_take || (rewrite length_take; lia)). cbn [mbind outcome_bind].
  apply (mem_push_two preproc st last). done.
Qed.
Lemma step_divmod self preimage preproc st var bits st' : wf_state st -> leads_to st' preproc ->
  preprocess_step preimage st (DivModPowerOfTwo var bits) = Ok st' ->
  circuit_step self preproc (in_circuit st) (DivModPowerOfTwo var bits) = Ok (in_circuit st').
Proof.
  intros Hs Hl E. cbn [preprocess_step] in E. destruct (Nat.ltb_spec (FR_BYTES_STORED * 8) bits) as [|Hb]; [done|].
  unfold FR_BYTES_STORED in Hb. unfold idx_bits in E. apply bind_Ok_inv in E as (bs & (x & E0 & [= <-])%bind_Ok_inv & [= <-]).
  pose proof (idx_wf _ _ _ Hs E0) as Hw. apply idx_cell in E0. pose proof (fr_lt_256 _ Hw) as Hx.
  cbn [circuit_step]. cbn [in_circuit cells]. rewrite E0. cbn [mbind outcome_bind]. rewrite law_to_le_bits_all by done. cbn [mbind outcome_bind].
  rewrite length_bits_of. destruct (Nat.ltb_spec FR_BITS bits); [unfold FR_BITS in *; lia|].
  rewrite !law_from_le_bits. cbn [mbind outcome_bind]. rewrite element_bits_spec, !from_bits_spec in *.
  rewrite !take_bits_of, !drop_bits_of, !Z_of_bits_of in * by (unfold FR_BITS in *; lia).
  rewrite !(Z.mod_small (x / _)) in *; [by apply mem_push_two|..].
  all: split; [apply Z.div_pos; lia|]; apply Z.div_lt_upper_bound; [lia|]; rewrite <- Z.pow_add_r by lia;
    eapply Z.lt_le_trans; [apply Hx|]; apply Z.pow_le_mono_r; unfold FR_BITS in *; lia.
Qed.
Lemma reconstitute_gadgets self preproc cst divisor modulus bits d m : (0 < bits < FR_BITS)%nat ->
  cells cst !! divisor = Some d -> cells cst !! modulus = Some m -> fr_wf d -> fr_wf m ->
  m < 2 ^ Z.of_nat bits -> d < 2 ^ Z.of_nat (FR_BITS - bits) ->
  circuit_step self preproc cst (ReconstituteField divisor modulus bits) = mem_push preproc cst (fr_from (m + 2 ^ Z.of_nat bits * d)).
Proof.
  intros Hb Ed Em Hwd Hwm Hm Hd. cbn [circuit_step]. destruct (Nat.ltb_spec FR_BITS bits); [lia|].
  rewrite (cell_idx _ _ _ Em), (cell_idx _ _ _ Ed). cbn [mbind outcome_bind]. destruct Hwd as [? ?], Hwm as [? ?].
  destruct (decide _).
  - rewrite !law_to_le_bits by (done || lia). rewrite !fits_in_bits by lia. cbn [mbind outcome_bind]. rewrite law_from_le_bits. cbn [mbind outcome_bind].
    by rewrite Z_of_bits_app, !Z_of_bits_of, length_bits_of, !Z.mod_small by lia.
  - rewrite !law_assert_lower_than_fixed. replace (Z.of_nat FR_BITS - Z.of_nat bits) with (Z.of_nat (FR_BITS - bits)) by lia.
    rewrite !fits_in_bits by lia. cbn [mbind outcome_bind]. rewrite law_linear_combination. cbn [mbind outcome_bind foldr]. f_equal.
    unfold fr_from. by rewrite Z.add_0_r, Z.mul_1_l, <- (Zplus_mod_idemp_r (_ mod _ * d)), Zmult_mod_idemp_l, Zplus_mod_idemp_r.
Qed.
Lemma step_reconstitute self preimage preproc st divisor modulus bits st' : wf_state st -> leads_to st' preproc ->
  preprocess_step preimage st (ReconstituteField divisor modulus bits) = Ok st' ->
  circuit_step self preproc (in_circuit st) (ReconstituteField divisor modulus bits) = Ok (in_circuit st').
Proof.
  intros Hs Hl E. cbn [preprocess_step] in E. destruct (Nat.ltb_spec (FR_BYTES_STORED * 8) bits) as [|Hb]; [done|].
  unfold FR_BYTES_STORED in Hb. inv_binds. apply idx_bits_Some in E0 as (Hb1 & m & Em & Hm & ->); [|done].
  apply idx_bits_Some in E1 as (Hb2 & d & Ed & Hd & ->); [|done].
  assert (E' : (d' ← idx (memory st) divisor; m' ← idx (memory st) modulus; Ok (push st [fr_add (fr_mul (pow2 bits) d') m'])) = Ok (E := ProvingError) st').
  { destruct (bits_compare _ _); done. }
  clear E. unfold idx in E'. rewrite Ed, Em in E'. cbn in E'. injection E' as <-.
  rewrite (reconstitute_gadgets _ _ _ _ _ _ d m) by (done || by eapply lookup_wf || lia).
  assert (fr_from (m + 2 ^ Z.of_nat bits * d) = fr_add (fr_mul (pow2 bits) d) m) as ->; [|by apply mem_push_one].
  rewrite pow2_spec. unfold fr_add, fr_mul, fr_from. rewrite Zmult_mod_idemp_l, Zplus_mod_idemp_l. f_equal. lia.
Qed.
Lemma step_less_than self preimage preproc st a b bits st' : wf_state st -> leads_to st' preproc ->
  preprocess_step preimage st (LessThan a b bits) = Ok st' ->
  circuit_step self preproc (in_circuit st) (LessThan a b bits) = Ok (in_circuit st').
Proof.
  intros Hs Hl E. cbn [preprocess_step] in E. inv_binds. apply idx_bits_Some in E0 as (Hb & x & Ex & Hx & ->); [|done].
  apply idx_bits_Some in E1 as (_ & y & Ey & Hy & ->); [|done].
  pose proof (lookup_wf _ _ _ Hs Ex) as Hwx. pose proof (lookup_wf _ _ _ Hs Ey) as Hwy. rewrite !from_bits_of in * by done.
  cbn [circuit_step]. cbn [in_circuit cells]. rewrite (cell_idx _ _ _ Ex), (cell_idx _ _ _ Ey). cbn [mbind outcome_bind].
  set (n := Nat.max (bits + bits mod 2) 4).
  assert ((4 <= n < FR_BITS)%nat /\ (n mod 2 = 0)%nat /\ (bits <= n)%nat) as (Hn & He & Hle).
  { pose proof (Nat.div_mod_eq bits 2). pose proof (Nat.mod_upper_bound bits 2 ltac:(lia)).
    assert ((bits + bits mod 2) = (bits / 2 + bits mod 2) * 2)%nat as Heven by lia.
    unfold n, FR_BITS in *. split_and!; [lia..| |lia]. destruct (Nat.max_spec (bits + bits mod 2) 4) as [[_ ->]|[_ ->]]; [done|].
    rewrite Heven. apply Nat.Div0.mod_mul. }
  assert (2 ^ Z.of_nat bits <= 2 ^ Z.of_nat n) by (apply Z.pow_le_mono_r; lia).
  rewrite law_lower_than by done. unfold constrained.
  destruct (Z.ltb_spec x (2 ^ Z.of_nat n)), (Z.ltb_spec y (2 ^ Z.of_nat n)); try lia. cbn [andb mbind outcome_bind].
  rewrite law_native_of_bit. cbn [mbind outcome_bind]. by apply mem_push_one.
Qed.

(** Memory and public inputs only grow. *)
Lemma step_grows preimage st ins st' : preprocess_step preimage st ins = Ok st' ->
  memory st `prefix_of` memory st' /\ pis st `prefix_of` pis st'.
Proof.
  intros E. destruct ins; cbn [preprocess_step] in E; inv_binds;
    repeat match type of E with (if ?b then _ else _) = _ => destruct b; inv_binds
           | match bits_compare ?x ?y with _ => _ end = _ => destruct (bits_compare x y); inv_binds end; simplify_eq;
    cbn; split; by (apply prefix_app_r || done).
Qed.

Ltac cells_of := repeat match goal with
  | E : idx _ _ = Ok _ |- _ => apply idx_cell in E
  | E : idxs _ _ = Ok _ |- _ => apply idxs_cells in E
  | E : idx_bool _ _ = Ok _ |- _ => apply idx_bool_Ok, cell_idx in E end.
Ltac run_gadgets := cbn [circuit_step]; cbn [in_circuit cells];
  repeat first [progress cbn [mbind outcome_bind] | match goal with E : cell _ _ = Ok _ |- _ => rewrite E end | match goal with E : cell_list _ _ = Ok _ |- _ => rewrite E end
    | rewrite law_add | rewrite law_mul | rewrite law_neg | rewrite law_assign_fixed | rewrite law_poseidon | rewrite law_hash_to_curve
    | rewrite law_is_equal | rewrite law_is_zero | rewrite law_native_of_bit | rewrite native_of_bool | rewrite law_select
    | rewrite law_assert_non_zero | rewrite law_assert_equal | rewrite law_jubjub_add | rewrite law_jubjub_scalar | rewrite law_jubjub_msm
    | rewrite law_jubjub_assign_fixed ].
Lemma step_constrain_bits self preimage preproc st var bits st' : wf_state st ->
  preprocess_step preimage st (ConstrainBits var bits) = Ok st' ->
  circuit_step self preproc (in_circuit st) (ConstrainBits var bits) = Ok (in_circuit st').
Proof.
  intros Hs E. cbn [preprocess_step] in E. inv_binds. apply idx_bits_Some in E0 as (Hb & x & Ex & Hx & ->); [|done].
  pose proof (lookup_wf _ _ _ Hs Ex) as Hw. apply cell_idx in Ex. run_gadgets. destruct (Nat.ltb_spec bits FR_BITS); [|lia].
  destruct (decide _).
  - rewrite law_to_le_bits, fits_in_bits by (done || lia). done.
  - rewrite law_assert_lower_than_fixed, fits_in_bits by lia. done.
Qed.
Lemma step_ec self preimage preproc st ins st' : wf_state st -> leads_to st' preproc ->
  match ins with EcAdd _ _ _ _ | EcMul _ _ _ | EcMulGenerator _ => True | _ => False end ->
  preprocess_step preimage st ins = Ok st' -> circuit_step self preproc (in_circuit st) ins = Ok (in_circuit st').
Proof.
  intros Hs Hl Hi E. destruct ins; try done; cbn [preprocess_step] in E; inv_binds.
  - destruct (idx_point_cells _ _ _ _ E0) as (x & y & ? & ?), (idx_point_cells _ _ _ _ E1) as (x' & y' & ? & ?).
    run_gadgets. rewrite (from_parts _ _ _ x y _ E0), (from_parts _ _ _ x' y' _ E1) by done. run_gadgets. by apply push_point_spec.
  - destruct (idx_point_cells _ _ _ _ E0) as (? & ? & ? & ?). pose proof (idx_wf _ _ _ Hs E1) as Hw. cells_of.
    run_gadgets. rewrite (from_parts _ _ _ _ _ _ E0) by done. rewrite point_mul_fr_mod in * by done. run_gadgets. by apply push_point_spec.
  - pose proof (idx_wf _ _ _ Hs E0) as Hw. cells_of. rewrite point_mul_fr_mod in * by done. run_gadgets. by apply push_point_spec.
Qed.
Lemma step_read self preimage preproc st guard st' : leads_to st' preproc ->
  preprocess_step preimage st (PublicInput guard) = Ok st' \/ preprocess_step preimage st (PrivateInput guard) = Ok st' ->
  circuit_step self preproc (in_circuit st) (PublicInput guard) = Ok (in_circuit st').
Proof.
  intros Hl [E|E]; cbn [preprocess_step] in E; inv_binds; destruct a; inv_binds;
    (eapply read_transcript; [done|reflexivity|done|done|auto]).
Qed.
Lemma circuit_step_follows self preimage preproc st ins st' : wf_state st -> ins_ok ins -> leads_to st' preproc ->
  preprocess_step preimage st ins = Ok st' -> circuit_step self preproc (in_circuit st) ins = Ok (in_circuit st').
Proof.
  intros Hs Hi Hl E.
  destruct ins;
    first [by apply (step_divmod self preimage) | by apply (step_reconstitute self preimage) | by apply (step_less_than self preimage) | by apply (step_persistent_hash self preimage)
          | by apply (step_constrain_bits self preimage) | by apply (step_ec self preimage) | apply (step_read self preimage preproc st guard st' Hl); by auto | idtac]; cbn [preprocess_step] in E.
  all: try (inv_binds; cells_of; run_gadgets; first [done | by apply mem_push_one | by apply push_point_spec]).
  - inv_binds. destruct a; [|done]. inv_binds. cells_of. by run_gadgets.
  - inv_binds. cells_of. run_gadgets. destruct (decide _); run_gadgets; destruct a0; by apply mem_push_one.
  - inv_binds. cells_of. run_gadgets. destruct (a0 =? a1); [|done]. by inv_binds.
  - inv_binds. cells_of. run_gadgets. destruct Hl as [_ Hp]. unfold pi_push. cbn in Hp |- *. by rewrite seq_push_prefix.
  - inv_binds. run_gadgets. destruct a; by inv_binds.
  - inv_binds. cells_of. run_gadgets. unfold lnot. run_gadgets. destruct a0; by apply mem_push_one.
Qed.

(** *** Whole programs *)
Lemma run_grows preimage l st st' : try_fold (preprocess_step preimage) st l = Ok st' ->
  memory st `prefix_of` memory st' /\ pis st `prefix_of` pis st'.
Proof.
  apply (try_fold_inv (fun s => memory st `prefix_of` memory s /\ pis st `prefix_of` pis s)); [done|].
  intros s ins s' _ [Hm Hp] [Hm' Hp']%step_grows. split; by etrans.
Qed.
Lemma circuit_follows self preimage preproc l st st' : preimage_wf preimage -> Forall ins_ok l -> wf_state st -> leads_to st' preproc ->
  try_fold (preprocess_step preimage) st l = Ok st' -> try_fold (circuit_step self preproc) (in_circuit st) l = Ok (in_circuit st').
Proof.
  intros Hp Hl. revert st. induction Hl as [|ins l Hi _ IH]; intros st Hs Hto E; cbn [try_fold] in *; [by injection E as ->|].
  inv_binds. rename a into st1. assert (leads_to st1 preproc).
  { apply run_grows in E as [Hm Hpi]. destruct Hto as [Hm' Hpi']. split; by etrans. }
  rewrite (circuit_step_follows self preimage _ _ _ st1) by done. apply IH; [by eapply step_wf|done|done].
Qed.

(** C26: Completeness of the circuits.  If [preprocess] accepts the inputs,
    transcripts and commitment of a call to a program whose hashed data has no
    alternatives, then every constraint that [circuit] lays out for the program,
    in either minor version, holds of the values that [preprocess] computed, no
    cell is misaligned, and the values constrained as public inputs are exactly
    the ones that [preprocess] returned. *)
Theorem circuit_accepts_preprocessed self preimage preproc : preimage_wf preimage -> Forall ins_ok (instructions self) ->
  preprocess self preimage = Ok preproc -> circuit self preproc = Ok (pp_pis preproc).
Proof.
  intros Hp Hl E. unfold preprocess in E. destruct (Nat.eqb_spec (length (inputs preimage)) (num_inputs self)) as [Hn|]; [|done].
  cbn [negb] in E. inv_binds. rename a into pis0, a0 into st. destruct (fully_consumed preimage st); [|done]. cbn [negb] in E. inv_binds. rename E2 into Ec.
  set (preproc := Build_Preprocessed _ _ _ _ _). assert (leads_to st preproc) as Hto by done.
  pose proof (run_grows _ _ _ _ E1) as [[mem Hmem] [pi Hpi]]. cbn in Hmem, Hpi.
  pose proof (circuit_follows self preimage preproc _ (initial_pre_state preimage pis0) _ Hp Hl (proj1 Hp) Hto E1) as Hrun.
  unfold in_circuit in Hrun. cbn [initial_pre_state memory pis outputs] in Hrun.
  assert (pp_memory preproc = memory st /\ pp_pis preproc = pis st /\ pp_binding_input preproc = binding_input preimage /\
          pp_comm_comm preproc = communications_commitment preimage) as (Epm & Epp & Epb & Epc) by done. clearbody preproc.
  unfold circuit. rewrite Epm, Epb, Epc, Epp, Hmem, length_app.
  destruct (Nat.leb_spec (num_inputs self) (length (inputs preimage) + length mem)); [|lia].
  rewrite take_app_length' by done. cbn [mbind outcome_bind]. unfold pi_push. cbn [public_inputs cells circuit_outputs]. rewrite Epp.
  unfold initial_pis in E0. unfold check_commitment in Ec. destruct (do_communications_commitment self).
  - apply bind_Ok_inv in E0 as ([comm rand] & Hcomm%ok_or_Ok_inv & [= <-]). rewrite Hcomm in Ec |- *. cbn in Ec.
    rewrite seq_push_prefix by (rewrite Hpi; by exists (comm :: pi)). cbn [mbind outcome_bind unwrap public_inputs cells circuit_outputs].
    rewrite seq_push_prefix by (rewrite Hpi; by exists pi).
    cbn [mbind outcome_bind app]. rewrite Hrun. cbn [mbind outcome_bind circuit_outputs public_inputs].
    rewrite law_poseidon. cbn [mbind outcome_bind]. rewrite Hpi. cbn [app lookup list_lookup unwrap mbind outcome_bind].
    rewrite law_assert_equal. unfold transient_commit in Ec. destruct (Z.eqb_spec comm (transient_hash (rand :: inputs preimage ++ outputs st))) as [<-|]; [|done].
    by rewrite Z.eqb_refl.
  - injection E0 as <-. rewrite seq_push_prefix by (rewrite Hpi; by exists pi). cbn [mbind outcome_bind app]. by rewrite Hrun.
Qed.
End simulation.

(** ** Reconstituting a field element *)
Lemma bits_compare_spec l r : length l = length r -> bits_compare l r = (Z_of_bits l ?= Z_of_bits r).
Proof.
  revert r. induction l as [|b l IH]; intros [|c r] Hl; try done. injection Hl as Hl. unfold bits_compare.
  rewrite !reverse_cons, zip_with_app by (by rewrite !length_reverse). rewrite foldl_app.
  change (foldl _ Eq (zip_with pair (reverse l) (reverse r))) with (bits_compare l r). rewrite IH by done. cbn [zip_with foldl Z_of_bits].
  destruct (Z.compare_spec (Z_of_bits l) (Z_of_bits r)) as [->|Hlt|Hgt]; destruct b, c; cbn [fr_from_bool]; symmetry;
    first [apply Z.compare_eq_iff | apply Z.compare_lt_iff | apply Z.compare_gt_iff]; lia.
Qed.

Section reconstitute.
Context `{FieldOrderLaws} {FB : FrBits} `{Hashing} `{EmbeddedCurve}.
#[local] Set Default Proof Using "All".

Lemma max_bits : take FR_BITS (element_bits (fr_from (-1))) = bits_of FR_BITS (fr_modulus - 1).
Proof.
  rewrite element_bits_spec, take_bits_of by (unfold FR_BITS; lia). f_equal. pose proof fr_bits. unfold fr_from.
  symmetry. apply (Zmod_unique _ _ (-1)); lia.
Qed.
(** What [preprocess] computes for an element given as two parts. *)
Lemma reconstitute_spec preimage st divisor modulus bits d m : wf_state st -> (0 < bits <= 248)%nat ->
  memory st !! divisor = Some d -> memory st !! modulus = Some m -> 0 <= m < 2 ^ Z.of_nat bits -> 0 <= d < 2 ^ Z.of_nat (FR_BITS - bits) ->
  preprocess_step preimage st (ReconstituteField divisor modulus bits) =
    if m + 2 ^ Z.of_nat bits * d <? fr_modulus then Ok (push st [m + 2 ^ Z.of_nat bits * d]) else Err ReconstitutedOverflow.
Proof.
  intros Hs Hb Ed Em Hm Hd. cbn [preprocess_step]. unfold FR_BYTES_STORED. destruct (Nat.ltb_spec (31 * 8) bits); [lia|].
  assert (forall i x n, memory st !! i = Some x -> 0 <= x < 2 ^ Z.of_nat n -> (n < FR_BITS)%nat -> idx_bits (memory st) i (Some n) = Ok (bits_of n x)) as Hbits.
  { intros i x n Hi Hx Hn. unfold idx_bits, idx. rewrite Hi. cbn [ok_or mbind outcome_bind]. destruct (Nat.leb_spec FR_BITS n); [lia|].
    unfold FR_BITS in Hn. rewrite element_bits_spec, take_bits_of, drop_bits_of, Z.div_small by lia.
    replace (existsb id (bits_of (256 - n) 0)) with false; [done|]. symmetry. apply not_true_is_false. rewrite existsb_exists.
    intros (b & (i' & <- & _)%in_map_iff & Hb'). by rewrite Z.bits_0 in Hb'. }
  rewrite (Hbits modulus m), (Hbits divisor d), max_bits by (done || unfold FR_BITS in *; lia). cbn [mbind outcome_bind].
  rewrite bits_compare_spec by (rewrite length_app, !length_bits_of; unfold FR_BITS; lia).
  rewrite Z_of_bits_app, !Z_of_bits_of, length_bits_of, !Z.mod_small by (pose proof fr_bits; done || (unfold FR_BITS; cbn; lia)).
  unfold idx. rewrite Ed, Em. cbn [ok_or mbind outcome_bind].
  destruct (Z.ltb_spec (m + 2 ^ Z.of_nat bits * d) fr_modulus) as [Hlt|Hge].
  - assert (fr_add (fr_mul (pow2 bits) d) m = m + 2 ^ Z.of_nat bits * d) as ->.
    { rewrite pow2_spec. unfold fr_add, fr_mul, fr_from. rewrite Zmult_mod_idemp_l, Zplus_mod_idemp_l, Z.mod_small by nia. lia. }
    destruct (Z.compare_spec (m + 2 ^ Z.of_nat bits * d) (fr_modulus - 1)); try done. lia.
  - destruct (Z.compare_spec (m + 2 ^ Z.of_nat bits * d) (fr_modulus - 1)); [lia..|done].
Qed.
(** [ReconstituteField] undoes [DivModPowerOfTwo]: dividing any element of
    the memory by a power of two of 1 to 248 bits succeeds, and reconstituting
    the two results succeeds and gives the element back. *)
Theorem divmod_reconstitute preimage st var x bits : wf_state st -> memory st !! var = Some x -> (0 < bits <= 248)%nat ->
  let n := length (memory st) in
  (preprocess_step preimage st (DivModPowerOfTwo var bits) ≫= fun st => preprocess_step preimage st (ReconstituteField n (S n) bits))
  = Ok (push st [x / 2 ^ Z.of_nat bits; x mod 2 ^ Z.of_nat bits; x]).
Proof.
  intros Hs Hx Hb n. pose proof (lookup_wf _ _ _ Hs Hx) as Hw. pose proof (fr_lt_256 _ Hw) as Hlt.
  assert (0 <= x / 2 ^ Z.of_nat bits < 2 ^ Z.of_nat (FR_BITS - bits)) as Hd.
  { split; [apply Z.div_pos; lia|]. apply Z.div_lt_upper_bound; [lia|]. rewrite <- Z.pow_add_r by lia.
    replace (Z.of_nat bits + Z.of_nat (FR_BITS - bits)) with 255 by (unfold FR_BITS; lia). lia. }
  pose proof (Z.mod_pos_bound x (2 ^ Z.of_nat bits) ltac:(lia)) as Hm.
  pose proof (Z.div_mod x (2 ^ Z.of_nat bits) ltac:(lia)) as Hdm.
  assert (preprocess_step preimage st (DivModPowerOfTwo var bits) = Ok (push st [x / 2 ^ Z.of_nat bits; x mod 2 ^ Z.of_nat bits])) as ->.
  { cbn [preprocess_step]. unfold FR_BYTES_STORED. destruct (Nat.ltb_spec (31 * 8) bits); [lia|].
    unfold idx_bits, idx. rewrite Hx. cbn [ok_or mbind outcome_bind].
    rewrite element_bits_spec, take_bits_of, drop_bits_of, !from_bits_spec, !Z_of_bits_of by lia.
    assert (2 ^ Z.of_nat (FR_BITS - bits) <= 2 ^ Z.of_nat (256 - bits)) by (apply Z.pow_le_mono_r; unfold FR_BITS; lia).
    rewrite (Z.mod_small (x / _)) by lia. destruct Hw as [Hw1 Hw2]. rewrite !fr_from_small; [done|split; nia..]. }
  cbn [mbind outcome_bind]. rewrite (reconstitute_spec _ _ _ _ _ (x / 2 ^ Z.of_nat bits) (x mod 2 ^ Z.of_nat bits)); try done.
  - rewrite Z.add_comm, <- Hdm. destruct Hw as [_ Hw]. destruct (Z.ltb_spec x fr_modulus); [|lia]. by rewrite push_push.
  - apply push_wf; [done|]. destruct Hw. apply wf_two; split; nia.
  - cbn. by rewrite lookup_app_r, Nat.sub_diag by done.
  - cbn. rewrite lookup_app_r by (unfold n; lia). by replace (S n - length (memory st))%nat with 1%nat by (unfold n; lia).
Qed.

End reconstitute.

Section overflow.
Context `{FieldOrderLaws} {FB : FrBits} `{Hashing} `{!HashShapes} `{EmbeddedCurve} `{!CurveLaws} `{!ZkStdLib} {SL : StdLibLaws}.
#[local] Set Default Proof Using "All".
Definition reconstitute_program (v : IrMinorVersion) : IrSource :=
  {| version := v; num_inputs := 2; do_communications_commitment := false; instructions := [ReconstituteField 0 1 8] |}.
(** C40: The circuit of [ReconstituteField] does not exclude an overflow of the
    field, in either minor version: for a divisor and a modulus whose
    combination exceeds the field, [preprocess] rejects every call, yet the
    constraints hold for a witness whose result is the combination wrapped
    around the field's order. *)
Theorem reconstitute_overflow_provable v : exists d m,
  fr_wf d /\ fr_wf m /\ 0 <= m < 2 ^ 8 /\ fr_modulus <= m + 2 ^ 8 * d /\
  (forall preimage, inputs preimage = [d; m] -> preprocess (reconstitute_program v) preimage = Err ReconstitutedOverflow) /\
  forall binding, let overflowed := m + 2 ^ 8 * d - fr_modulus in
    circuit (reconstitute_program v) {| pp_memory := [d; m; overflowed]; pp_pis := [binding]; pp_pi_skips := []; pp_binding_input := binding; pp_comm_comm := None |}
    = Ok [binding].
Proof.
  pose proof fr_bits as Hp. exists (2 ^ 247 - 1), 255. assert (255 + 2 ^ 8 * (2 ^ 247 - 1) = 2 ^ 255 - 1) as Hsum by reflexivity.
  assert (fr_wf (2 ^ 247 - 1)) as Hwd by (split; lia). assert (fr_wf 255) as Hwm by (split; lia).
  split_and!; try done; try lia.
  - intros preimage Hi. unfold preprocess, reconstitute_program. rewrite Hi. cbn [length Nat.eqb negb num_inputs]. unfold initial_pis.
    cbn [do_communications_commitment mbind outcome_bind instructions try_fold].
    assert (memory (initial_pre_state preimage [binding_input preimage]) = [2 ^ 247 - 1; 255]) as Hm by (by cbn).
    rewrite (reconstitute_spec _ _ _ _ _ (2 ^ 247 - 1) 255); rewrite ?Hm; [|unfold wf_state; rewrite Hm; by apply wf_two|lia|done|done|done|done].
    change (Z.of_nat 8) with 8. rewrite Hsum. destruct (Z.ltb_spec (2 ^ 255 - 1) fr_modulus); [lia|done].
  - intros binding. rewrite Hsum. unfold circuit, reconstitute_program. cbn [num_inputs pp_memory length Nat.leb take mbind outcome_bind].
    unfold pi_push, seq_push. cbn [pp_pis public_inputs length lookup list_lookup pp_binding_input]. rewrite Z.eqb_refl.
    cbn [mbind outcome_bind do_communications_commitment instructions try_fold public_inputs cells circuit_outputs app].
    rewrite (reconstitute_gadgets _ _ _ _ _ _ (2 ^ 247 - 1) 255) by (done || (unfold FR_BITS; cbn; lia)).
    assert (fr_from (255 + 2 ^ Z.of_nat 8 * (2 ^ 247 - 1)) = 2 ^ 255 - 1 - fr_modulus) as -> by (symmetry; apply (Zmod_unique _ _ 1); [lia|cbn; lia]).
    unfold mem_push, seq_push. cbn [cells length pp_memory lookup list_lookup]. by rewrite Z.eqb_refl.
Qed.
End overflow.

(** ** A reference implementation of the gadgets *)

#[local] Existing Instance bls_order.
#[local] Existing Instance bls_order_laws.
#[local] Existing Instance bls_order_bits.
(** The two points of order at most two of a twisted Edwards curve. *)
Definition small_curve : EmbeddedCurve :=
  {| point := bool; embedded_order := 2;
     affine_from_xy := fun x y => if x =? 0 then if y =? 1 then Some false else if y =? fr_modulus - 1 then Some true else None else None;
     coordinates := fun p => Some (0, if p : bool then fr_modulus - 1 else 1);
     point_add := xorb; point_mul := fun p s => if Z.odd s then p else false; point_generator := true;
     curve_hash := fun l => Nat.odd (length l) |}.
#[local] Existing Instance small_curve.
#[local] Instance small_curve_laws : CurveLaws.
Proof.
  split; [done| |].
  - intros p. eexists 0, _. split; [done|]. split; [done|]. by destruct p.
  - intros x y p. cbn. destruct (Z.eqb_spec x 0) as [->|]; [|done]. destruct (Z.eqb_spec y 1) as [->|]; [by intros [= <-]|].
    match goal with |- (if ?y =? ?q then _ else _) = _ -> _ => destruct (Z.eqb_spec y q) as [->|] end; [by intros [= <-]|done].
Qed.
(** Sums in place of the hash functions. *)
Definition mixing_hashing : Hashing :=
  {| transient_hash := fun l => fr_from (foldr (fun x acc => x + 31 * acc) 7 l);
     persistent_hash := fun l => to_le_bytes 32 (foldr (fun x acc => x + 31 * acc) 7 l) |}.
#[local] Existing Instance mixing_hashing.
#[local] Instance mixing_hash_shapes : HashShapes.
Proof.
  split; [intros l; apply fr_from_wf|]. intros l. split; [apply length_to_le_bytes|].
  unfold persistent_hash, mixing_hashing. generalize (foldr (fun x acc => x + 31 * acc) 7 l). generalize 32%nat.
  intros n. induction n as [|n IH]; intros x; [constructor|]. cbn [to_le_bytes]. apply list.Forall_cons. split; [|apply IH].
  autounfold with ints. pose proof (Z.mod_pos_bound x 256). lia.
Qed.
(** Each gadget computes what it is documented to. *)
Definition reference_gadgets : ZkStdLib :=
  {| assert_non_zero := fun x => constrained (negb (x =? 0));
     assert_equal := fun x y => constrained (x =? y);
     is_zero := fun x => Ok (x =? 0);
     is_equal := fun x y => Ok (x =? y);
     bit_of_native := fun x => _ ← constrained ((x =? 0) || (x =? 1)); Ok (x =? 1);
     native_of_bit := fun b => Ok (fr_from_bool b);
     native_of_byte := fun b => Ok b;
     select := fun b x y => Ok (if b : bool then x else y);
     bit_or := fun l => Ok (existsb id l);
     assign_fixed := fun x => Ok x;
     std_add := fun x y => Ok (fr_add x y);
     std_mul := fun x y => Ok (fr_mul x y);
     std_neg := fun x => Ok (fr_neg x);
     mul_by_constant := fun x c => Ok (fr_mul x c);
     linear_combination := fun l c => Ok (fr_from (foldr (fun '(a, x) acc => a * x + acc) c l));
     assigned_to_le_bits := fun x n _ =>
       match n with None => Ok (bits_of FR_BITS x) | Some n => _ ← constrained (x <? 2 ^ Z.of_nat n); Ok (bits_of n x) end;
     assigned_from_le_bits := fun l => Ok (fr_from (Z_of_bits l));
     assigned_to_le_bytes := fun x n =>
       match n with None => Ok (as_le_bytes x) | Some k => _ ← constrained (x <? 256 ^ Z.of_nat k); Ok (to_le_bytes k x) end;
     assert_lower_than_fixed := fun x bound => constrained (x <? bound);
     lower_than := fun x y n => _ ← constrained ((x <? 2 ^ Z.of_nat n) && (y <? 2 ^ Z.of_nat n)); Ok (x <? y);
     poseidon := fun l => Ok (transient_hash l);
     sha2_256 := fun l => Ok (persistent_hash l);
     jubjub_assign := fun p => Ok p;
     jubjub_assign_fixed := fun p => Ok p;
     jubjub_add := fun p q => Ok (point_add p q);
     jubjub_scalar := fun x => Ok x;
     jubjub_msm := fun s p => Ok (point_mul p (s mod embedded_order));
     x_coordinate := fun p => default 0 (point_x p);
     y_coordinate := fun p => default 0 (point_y p);
     std_hash_to_curve := fun l => Ok (curve_hash l) |}.
#[local] Existing Instance reference_gadgets.
#[local] Instance reference_gadget_laws : StdLibLaws.
Proof. by split. Qed.

(** A program with a guarded read, arithmetic, both hashes and a point. *)
Definition sample_program : IrSource :=
  {| version := V1; num_inputs := 2; do_communications_commitment := true;
     instructions := [Add 0 1; LoadImm 1; PublicInput (Some 3%nat); PrivateInput None; LessThan 0 1 8; CondSelect 6 0 1;
       ConstrainBits 2 9; DivModPowerOfTwo 2 3; ReconstituteField 8 9 3; ConstrainEq 10 2; Assert 6;
       PersistentHash [Atom Field; Atom (Bytes 33)] [0; 1; 2]%nat; EcMulGenerator 5; EcAdd 13 14 13 14;
       HashToCurve [0; 1]%nat; Not 6; TransientHash [11; 12]%nat; DeclarePubInput 10; PiSkip (Some 3%nat) 1; Output 19] |}.
Definition sample_outputs : list Fr := [0].
Definition sample_preimage : ProofPreimage :=
  {| inputs := [100; 200]; private_transcript := [41]; public_transcript_inputs := [300]; public_transcript_outputs := [5];
     binding_input := 17; communications_commitment := Some (transient_commit ([100; 200] ++ sample_outputs) 9, 9) |}.
Lemma sample_preimage_wf : preimage_wf sample_preimage.
Proof. split_and!; repeat (apply list.Forall_cons; split; [split; vm_compute; congruence|]); constructor. Qed.
Lemma sample_program_ok : Forall ins_ok (instructions sample_program).
Proof. repeat (apply list.Forall_cons; split; [done || (split; vm_compute; congruence) || (repeat constructor; vm_compute; congruence)|]). constructor. Qed.
Lemma sample_preprocessed : exists p, preprocess sample_program sample_preimage = Ok p /\ pp_pis p = [17; 6659956; 300].
Proof. eexists. split; vm_compute; reflexivity. Qed.
Lemma circuit_accepts_preprocessed_witness : exists p,
  preprocess sample_program sample_preimage = Ok p /\ circuit sample_program p = Ok [17; 6659956; 300].
Proof.
  destruct sample_preprocessed as (p & Hp & Hpis). exists p. split; [exact Hp|]. rewrite <- Hpis.
  exact (circuit_accepts_preprocessed sample_program sample_preimage p sample_preimage_wf sample_program_ok Hp).
Defined.
Lemma divmod_reconstitute_witness :
  (preprocess_step sample_preimage (initial_pre_state sample_preimage []) (DivModPowerOfTwo 1 3) ≫=
    fun st => preprocess_step sample_preimage st (ReconstituteField 2 3 3))
  = Ok (push (initial_pre_state sample_preimage []) [25; 0; 200]).
Proof.
  exact (divmod_reconstitute sample_preimage (initial_pre_state sample_preimage []) 1 200 3 (proj1 sample_preimage_wf)
    eq_refl ltac:(split; lia)).
Defined.
Lemma reconstitute_overflow_provable_witness : exists d m, fr_modulus <= m + 2 ^ 8 * d /\
  circuit (reconstitute_program V1) {| pp_memory := [d; m; m + 2 ^ 8 * d - fr_modulus]; pp_pis := [17]; pp_pi_skips := []; pp_binding_input := 17; pp_comm_comm := None |}
  = Ok [17].
Proof.
  destruct (reconstitute_overflow_provable V1) as (d & m & _ & _ & _ & Hover & _ & Hc). exists d, m. split; [exact Hover|]. exact (Hc 17).
Defined.
