(* ===== verification/CoinKeys.v ===== *)
(** * Shielded coins, keys and their encryption ([coin-structure/src/coin.rs],
    [coin-structure/src/transfer.rs], [transient-crypto/src/encryption.rs],
    [zswap/src/keys.rs], [zswap/src/structure.rs])

    A shielded coin is a nonce, a token type and a value.  Its commitment hides
    it under the key of its recipient, its nullifier is derived with the secret
    of its owner, and a sender encrypts it for the recipient.  The randomness
    that the source draws is an argument here. *)
From S2P Require Import Prelude Fab Coin MerkleTree FieldRepr Zkir.

(** ** Coins *)
Abbreviation Nonce := HashOutput.
Abbreviation CoinSecretKey := HashOutput.
Abbreviation CoinPublicKey := HashOutput.
Abbreviation Seed := (list Z).
Record CoinInfo := { ci_nonce : Nonce; ci_type : ShieldedTokenType; ci_value : Z }.
Record QualifiedCoinInfo := { qci_nonce : Nonce; qci_type : ShieldedTokenType; qci_value : Z; qci_mt_index : Z }.
#[global] Instance CoinInfo_eq_dec : EqDecision CoinInfo.
Proof. solve_decision. Defined.
#[global] Instance QualifiedCoinInfo_eq_dec : EqDecision QualifiedCoinInfo.
Proof. solve_decision. Defined.
Definition qualify (self : CoinInfo) (mt_index : Z) : QualifiedCoinInfo :=
  {| qci_nonce := ci_nonce self; qci_type := ci_type self; qci_value := ci_value self; qci_mt_index := mt_index |}.
Definition info_of_qualified (qi : QualifiedCoinInfo) : CoinInfo :=
  {| ci_nonce := qci_nonce qi; ci_type := qci_type qi; ci_value := qci_value qi |}.

Inductive Recipient := R_User (pk : CoinPublicKey) | R_Contract (addr : HashOutput).
Inductive SenderEvidence := SE_User (sk : CoinSecretKey) | SE_Contract (addr : HashOutput).

(** Derived representations: the fields in order. *)
Definition CoinInfo_binary_repr (self : CoinInfo) : list Z :=
  ci_nonce self ++ ci_type self ++ to_le_bytes 16 (ci_value self).
Definition CoinInfo_field_repr `{FieldOrder} (self : CoinInfo) : list Fr :=
  hash_field_repr (ci_nonce self) ++ hash_field_repr (ci_type self) ++ [fr_from (ci_value self)].
Definition Recipient_field_repr (self : Recipient) : list Fr :=
  match self with
  | R_User pk => fr_from_bool true :: hash_field_repr pk ++ hash_field_repr (replicate 32 0)
  | R_Contract addr => fr_from_bool false :: hash_field_repr (replicate 32 0) ++ hash_field_repr addr
  end.
Definition SenderEvidence_field_repr (self : SenderEvidence) : list Fr :=
  match self with
  | SE_User sk => fr_from_bool true :: hash_field_repr sk ++ hash_field_repr (replicate 32 0)
  | SE_Contract addr => fr_from_bool false :: hash_field_repr (replicate 32 0) ++ hash_field_repr addr
  end.

(** [FromFieldRepr]: a field of a structure takes as many elements as its type
    has, and nothing may be left. *)
Definition take_field {A} (size : nat) (parse : list Fr -> option A) (repr : list Fr) : option (A * list Fr) :=
  if (length repr <? size)%nat then None
  else a ← parse (take size repr); Some (a, drop size repr).
Definition nothing_left {A} (a : A) (repr : list Fr) : option A :=
  match repr with [] => Some a | _ => None end.
Definition HashOutput_from_field_repr (repr : list Fr) : option HashOutput :=
  '(h, repr) ← take_field 2 bytes32_from_field_repr repr; nothing_left h repr.
(** [TryFrom<Fr> for u128]: the upper 16 bytes are zero. *)
Definition u128_try_from_fr (f : Fr) : option Z :=
  let repr := as_le_bytes f in
  if existsb (fun b => negb (b =? 0)) (drop 16 repr) then None else Some (from_le_bytes (take 16 repr)).
Definition u128_from_field_repr (repr : list Fr) : option Z :=
  match repr with [f] => u128_try_from_fr f | _ => None end.
Definition CoinInfo_from_field_repr (repr : list Fr) : option CoinInfo :=
  '(nonce, repr) ← take_field 2 HashOutput_from_field_repr repr;
  '(type_, repr) ← take_field 2 HashOutput_from_field_repr repr;
  '(value, repr) ← take_field 1 u128_from_field_repr repr;
  nothing_left {| ci_nonce := nonce; ci_type := type_; ci_value := value |} repr.

Section coins.
Context `{FieldOrder} `{Hashing}.

Definition public_key (self : CoinSecretKey) : CoinPublicKey :=
  persistent_hash (ascii_bytes "midnight:zswap-pk[v1]" ++ self).
Definition recipient_of (se : SenderEvidence) : Recipient :=
  match se with SE_User sk => R_User (public_key sk) | SE_Contract addr => R_Contract addr end.
Definition owner_binary_repr (user : bool) (owner : HashOutput) : list Z := fr_from_bool user :: owner.
Definition commitment (self : CoinInfo) (recipient : Recipient) : HashOutput :=
  persistent_hash (ascii_bytes "midnight:zswap-cc[v1]" ++ CoinInfo_binary_repr self ++
    match recipient with
    | R_User d => owner_binary_repr true d
    | R_Contract d => owner_binary_repr false d
    end).
Definition nullifier (self : CoinInfo) (se : SenderEvidence) : HashOutput :=
  persistent_hash (ascii_bytes "midnight:zswap-cn[v1]" ++ CoinInfo_binary_repr self ++
    match se with
    | SE_User d => owner_binary_repr true d
    | SE_Contract d => owner_binary_repr false d
    end).

(** The domain separator must be a field element. *)
Definition evolve_from (self : CoinInfo) (domain_sep : list Z) (value : Z) (type_ : ShieldedTokenType) : may_panic CoinInfo :=
  d ← unwrap (fr_from_le_bytes domain_sep);
  Ok {| ci_nonce := upgrade_from_transient (transient_hash [d; degrade_to_transient (ci_nonce self)]);
        ci_type := type_; ci_value := value |}.

(** ** Keys derived from a seed *)
Definition derive_coin_secret_key (self : Seed) : CoinSecretKey := persistent_hash (ascii_bytes "midnight:csk" ++ self).
Definition seed_round (self : Seed) (domain_separator : list Z) (round : Z) : HashOutput :=
  persistent_hash (domain_separator ++ persistent_hash (to_le_bytes 8 round ++ self)).
Definition sample_bytes (self : Seed) (no_of_bytes : nat) (domain_separator : list Z) : list Z :=
  let rounds := Z.to_nat (div_ceil (Z.of_nat no_of_bytes) 32) in
  concat (map (fun round => take (Nat.min 32 (no_of_bytes - round * 32)) (seed_round self domain_separator (Z.of_nat round)))
            (seq 0 rounds)).
End coins.

(** ** Encryption *)

(** The identity of the embedded group; no point is at infinity. *)
Class CurveIdentity `{EmbeddedCurve} := { is_identity : point -> bool }.
Class CurveActs `{EmbeddedCurve} : Prop := {
  point_mul_comm p x y : point_mul (point_mul p x) y = point_mul (point_mul p y) x }.

Section encryption.
Context `{FieldOrder} `{Hashing} `{EmbeddedCurve} `{!CurveIdentity}.

Definition is_infinity (p : point) : bool := false.
Record Ciphertext := { c : point; ciph : list Fr }.
Abbreviation EncSecretKey := Z.
Abbreviation EncPublicKey := point.
Definition enc_public_key (self : EncSecretKey) : EncPublicKey := point_mul point_generator self.
(** [SecretKey::from_uniform_bytes] and the key of a seed. *)
Definition secret_from_uniform_bytes (bytes : list Z) : EncSecretKey := from_le_bytes bytes mod embedded_order.
Definition derive_encryption_secret_key (self : Seed) : EncSecretKey :=
  secret_from_uniform_bytes (sample_bytes self 64 (ascii_bytes "midnight:esk")).

Definition shared_key (k_star : point) : may_panic Fr :=
  '(x, y) ← (if is_infinity k_star then Ok (0, 0)
             else x ← unwrap (point_x k_star); y ← unwrap (point_y k_star); Ok (x, y));
  Ok (transient_hash [x; y]).
(** The key stream of the counter mode. *)
Definition pad (k : Fr) (ctr : nat) : Fr := transient_hash [k; Z.of_nat ctr].
Definition fr_sub (x y : Fr) : Fr := (x - y) mod fr_modulus.
Definition encrypt (self : EncPublicKey) (y : Z) (msg : list Fr) : may_panic Ciphertext :=
  k ← shared_key (point_mul self y);
  Ok {| c := point_mul point_generator y; ciph := imap (fun ctr msg => fr_add (pad k ctr) msg) (0 :: msg) |}.
Definition decrypt {T} (from_field_repr : list Fr -> option T) (self : EncSecretKey) (ct : Ciphertext) : may_panic (option T) :=
  if is_identity (c ct) then Ok None
  else
    k ← shared_key (point_mul (c ct) self);
    let plain := imap (fun ctr ciph => fr_sub ciph (pad k ctr)) (ciph ct) in
    match plain with
    | [] => Ok None
    | z :: msg => if z =? 0 then Ok (from_field_repr msg) else Ok None
    end.

(** ** Coin ciphertexts: six elements *)
Definition COIN_CIPHERTEXT_LEN : nat := 6.
Abbreviation CoinCiphertext := Ciphertext.
Definition coin_ciphertext_try_from (ct : Ciphertext) : option CoinCiphertext :=
  if (length (ciph ct) =? COIN_CIPHERTEXT_LEN)%nat then Some ct else None.
Definition CoinCiphertext_new (coin : CoinInfo) (pk : EncPublicKey) (y : Z) : may_panic CoinCiphertext :=
  ct ← encrypt pk y (CoinInfo_field_repr coin); unwrap (coin_ciphertext_try_from ct).

Record SecretKeys := { coin_secret_key : CoinSecretKey; encryption_secret_key : EncSecretKey }.
Definition keys_of_seed (seed : Seed) : SecretKeys :=
  {| coin_secret_key := derive_coin_secret_key seed; encryption_secret_key := derive_encryption_secret_key seed |}.
Definition coin_public_key (self : SecretKeys) : CoinPublicKey := public_key (coin_secret_key self).
Definition try_decrypt (self : SecretKeys) (msg : CoinCiphertext) : may_panic (option CoinInfo) :=
  decrypt CoinInfo_from_field_repr (encryption_secret_key self) msg.

(** ** Pedersen commitments to a value of a type in a segment *)
Definition hash_to_curve (value : list Fr) : point := curve_hash value.
Definition Pedersen_commit (type_ : list Fr) (v r : Z) : point :=
  point_add (point_mul point_generator r) (point_mul (hash_to_curve type_) v).
Definition token_field_repr (type_ : ShieldedTokenType) (segment : Z) : list Fr := hash_field_repr type_ ++ [fr_from segment].
End encryption.
Arguments Ciphertext {_}.

(** ** What is encrypted for a key is decrypted with it *)
Definition coin_wf (coin : CoinInfo) : Prop := hash_wf (ci_nonce coin) /\ hash_wf (ci_type coin) /\ is_u128 (ci_value coin).

Section roundtrip.
Context `{FieldOrderLaws} {FB : FrBits} `{Hashing} `{EmbeddedCurve} `{!CurveLaws} `{!CurveActs} `{!CurveIdentity}.
#[local] Set Default Proof Using "All".

Lemma padded_zeros n b : bytes_wf b -> (length b <= n)%nat -> to_le_bytes n (from_le_bytes b) = b ++ replicate (n - length b) 0.
Proof. apply to_from_padded. Qed.
Lemma hash_field_roundtrip h : hash_wf h -> HashOutput_from_field_repr (hash_field_repr h) = Some h.
Proof.
  intros Hh. rewrite hash_field_repr_spec by done. destruct Hh as [Hl Hw]. unfold PERSISTENT_HASH_BYTES in Hl.
  unfold HashOutput_from_field_repr, take_field. cbn [length Nat.ltb Nat.leb take drop].
  unfold bytes32_from_field_repr, as_le_bytes, FR_BYTE_LEN.
  rewrite !padded_zeros by (by apply Forall_drop || by apply Forall_take || (rewrite ?length_drop, ?length_take; lia)).
  rewrite length_drop, length_take, Hl. cbn [Nat.sub Nat.min].
  rewrite (drop_app_length' (drop 31 h) _ 1), (drop_app_length' (take 31 h) _ 31), (take_app_length' (take 31 h) _ 31),
    (take_app_length' (drop 31 h) _ 1) by (rewrite ?length_drop, ?length_take; lia).
  rewrite !existsb_replicate. cbn. by rewrite take_drop.
Qed.
Lemma u128_field_roundtrip v : is_u128 v -> u128_from_field_repr [fr_from v] = Some v.
Proof.
  intros Hv. pose proof fr_bits. autounfold with ints in Hv. unfold fr_from. rewrite Z.mod_small by lia.
  assert (from_le_bytes (to_le_bytes 16 v) = v) as Hb by (apply from_to_le_bytes; change (256 ^ Z.of_nat 16) with (2 ^ 128); lia).
  assert (as_le_bytes v = to_le_bytes 16 v ++ replicate 16 0) as Hr.
  { rewrite <- Hb at 1. unfold as_le_bytes. rewrite padded_zeros by (apply to_le_bytes_wf || (rewrite length_to_le_bytes; unfold FR_BYTE_LEN; lia)).
    by rewrite length_to_le_bytes. }
  unfold u128_from_field_repr, u128_try_from_fr. rewrite Hr.
  rewrite (drop_app_length' (to_le_bytes 16 v) _ 16), (take_app_length' (to_le_bytes 16 v) _ 16) by (by rewrite length_to_le_bytes).
  by rewrite existsb_replicate, Hb.
Qed.
Lemma coin_field_roundtrip coin : coin_wf coin -> CoinInfo_from_field_repr (CoinInfo_field_repr coin) = Some coin.
Proof.
  intros (Hn & Ht & Hv). unfold CoinInfo_from_field_repr, CoinInfo_field_repr, take_field.
  assert (forall h, hash_wf h -> length (hash_field_repr h) = 2%nat) as Hlen by (intros h Hh; by rewrite hash_field_repr_spec).
  rewrite !length_app, !Hlen by done. cbn [length Nat.add Nat.ltb Nat.leb].
  rewrite (take_app_length' (hash_field_repr (ci_nonce coin)) _ 2), (drop_app_length' (hash_field_repr (ci_nonce coin)) _ 2) by (by rewrite Hlen).
  rewrite hash_field_roundtrip by done. cbn [mbind option_bind]. rewrite length_app, Hlen by done. cbn [length Nat.add Nat.ltb Nat.leb].
  rewrite (take_app_length' (hash_field_repr (ci_type coin)) _ 2), (drop_app_length' (hash_field_repr (ci_type coin)) _ 2) by (by rewrite Hlen).
  rewrite hash_field_roundtrip by done. cbn [mbind option_bind length Nat.ltb Nat.leb take drop].
  rewrite u128_field_roundtrip by done. cbn. by destruct coin.
Qed.
Lemma coin_field_wf coin : coin_wf coin -> Forall fr_wf (CoinInfo_field_repr coin) /\ length (CoinInfo_field_repr coin) = 5%nat.
Proof.
  intros (Hn & Ht & Hv). unfold CoinInfo_field_repr. rewrite !hash_field_repr_spec by done. split; [|done].
  destruct Hn as [Hln Hwn], Ht as [Hlt Hwt]. unfold PERSISTENT_HASH_BYTES in *.
  repeat (apply list.Forall_cons; split); try apply list.Forall_nil; try done;
    try (apply short_bytes_wf; [by apply Forall_drop || by apply Forall_take|rewrite ?length_drop, ?length_take; lia]).
  apply Z.mod_pos_bound. pose proof fr_bits. lia.
Qed.

Lemma shared_key_ok p : exists k, shared_key p = Ok k.
Proof.
  unfold shared_key, is_infinity, point_x, point_y. destruct (coordinates_total p) as (x & y & -> & _). cbn. eauto.
Qed.
Lemma unpad k ctr m : fr_wf m -> fr_sub (fr_add (pad k ctr) m) (pad k ctr) = m.
Proof.
  intros Hm. unfold fr_sub, fr_add. rewrite Zminus_mod_idemp_l. replace (pad k ctr + m - pad k ctr) with m by lia. by apply Z.mod_small.
Qed.
(** Decryption undoes encryption for any message of field elements. *)
Lemma decrypt_encrypt {T} (from_field_repr : list Fr -> option T) sk y msg : Forall fr_wf msg ->
  is_identity (point_mul point_generator y) = false ->
  exists ct, encrypt (enc_public_key sk) y msg = Ok ct /\ length (ciph ct) = S (length msg) /\
    decrypt from_field_repr sk ct = Ok (from_field_repr msg).
Proof.
  intros Hm Hy. unfold encrypt, decrypt, enc_public_key. rewrite point_mul_comm.
  destruct (shared_key_ok (point_mul (point_mul point_generator y) sk)) as [k Hk]. rewrite Hk. cbn [mbind outcome_bind].
  eexists. split; [done|]. cbn [ciph c]. split; [by rewrite length_imap|]. rewrite Hy, Hk. cbn [mbind outcome_bind].
  assert (Forall fr_wf (0 :: msg)) as Hw.
  { apply list.Forall_cons. split; [|done]. pose proof fr_bits. split; lia. }
  assert (forall l, Forall fr_wf l -> imap (fun ctr ct => fr_sub ct (pad k ctr)) (imap (fun ctr m => fr_add (pad k ctr) m) l) = l) as ->; [|done|done].
  intros l Hl. apply list_eq. intros i. rewrite !list_lookup_imap. destruct (l !! i) as [m|] eqn:Hi; cbn; [|done].
  by rewrite unpad by (by eapply Forall_lookup_1).
Qed.

(** C33: A coin encrypted for an encryption key reaches its owner: unless the
    sender draws a multiple of the group's order, the ciphertext has the
    expected length (so [CoinCiphertext::new] does not panic), and decryption
    with the matching secret key gives exactly the coin back. *)
Theorem coin_ciphertext_roundtrip (keys : SecretKeys) (coin : CoinInfo) (y : Z) : coin_wf coin ->
  is_identity (point_mul point_generator y) = false ->
  exists ct, CoinCiphertext_new coin (enc_public_key (encryption_secret_key keys)) y = Ok ct /\ try_decrypt keys ct = Ok (Some coin).
Proof.
  intros Hc Hy. destruct (coin_field_wf coin Hc) as [Hw Hl].
  destruct (decrypt_encrypt CoinInfo_from_field_repr (encryption_secret_key keys) y _ Hw Hy) as (ct & He & Hlen & Hd).
  exists ct. unfold CoinCiphertext_new, try_decrypt. rewrite He, Hd, coin_field_roundtrip by done. cbn [mbind outcome_bind].
  unfold coin_ciphertext_try_from. rewrite Hlen, Hl. done.
Qed.
End roundtrip.
