(* ===== verification/Wallet.v ===== *)
(** * The Zswap wallet ([zswap/src/local.rs], [zswap/src/construct.rs])

    A wallet follows the ledger's commitment tree by applying the same offers.
    It keeps the leaves of its own coins and collapses the others, and spends a
    coin with a membership path in its own copy of the tree.  Random scalars
    are arguments; the preimages of the proofs are left out, as the erased
    transactions of the ledger do. *)
From S2P Require Import Prelude Fab Coin MerkleTree TimeFilterMap Zswap FieldRepr Zkir CoinKeys.

(** [zswap::error::OfferCreationFailed], without proving errors. *)
Inductive OfferCreationFailed :=
  | CreationInvalidIndex (e : InvalidIndex)
  | NotContractOwned
  | TreeNotRehashed
  | CreationMerkleTreeError (e : InvalidUpdate).

(** [State]. *)
Record WalletState := {
  coins : gmap Nullifier QualifiedCoinInfo;
  pending_spends : gmap Nullifier QualifiedCoinInfo;
  pending_outputs : gmap Commitment CoinInfo;
  merkle_tree : MerkleTreeNode unit;
  wallet_first_free : Z }.
Definition set_tree (w : WalletState) (t : MerkleTreeNode unit) (ff : Z) : WalletState :=
  {| coins := coins w; pending_spends := pending_spends w; pending_outputs := pending_outputs w;
     merkle_tree := t; wallet_first_free := ff |}.
Definition set_coins (w : WalletState) (m : gmap Nullifier QualifiedCoinInfo) : WalletState :=
  {| coins := m; pending_spends := pending_spends w; pending_outputs := pending_outputs w;
     merkle_tree := merkle_tree w; wallet_first_free := wallet_first_free w |}.
Definition set_pending (w : WalletState) (spends : gmap Nullifier QualifiedCoinInfo) (outputs : gmap Commitment CoinInfo) : WalletState :=
  {| coins := coins w; pending_spends := spends; pending_outputs := outputs;
     merkle_tree := merkle_tree w; wallet_first_free := wallet_first_free w |}.

Definition wallet_new : WalletState :=
  {| coins := ∅; pending_spends := ∅; pending_outputs := ∅; merkle_tree := blank ZSWAP_TREE_HEIGHT; wallet_first_free := 0 |}.

(** [AuthorizedClaim], without its proof. *)
Record AuthorizedClaim := { claim_coin : CoinInfo; claim_recipient : CoinPublicKey }.

Section wallet.
Context `{FieldOrder} `{Hashing} `{EmbeddedCurve} `{!CurveIdentity} {Proof : Type}.
Abbreviation Offer := (ZswapOffer point Proof Ciphertext ShieldedTokenType).
Implicit Types self : WalletState.

Definition wallet_apply_collapsed_update self (update : MerkleTreeCollapsedUpdate) : outcome InvalidUpdate WalletState :=
  tree ← apply_collapsed_update (merkle_tree self) update;
  tree ← rehash tree;
  Ok (set_tree self tree (Z.max (wallet_first_free self) (trunc u64_max (mcu_end update + 1)))).

Definition insert_coin self (secret_keys : SecretKeys) (coin : CoinInfo) : outcome InvalidUpdate WalletState :=
  let qcoin := qualify coin (wallet_first_free self) in
  let nul := nullifier coin (SE_User (coin_secret_key secret_keys)) in
  tree ← try_update_hash (merkle_tree self) (wallet_first_free self) (commitment coin (R_User (coin_public_key secret_keys))) tt;
  tree ← rehash tree;
  Ok (set_coins (set_tree self tree (trunc u64_max (wallet_first_free self + 1))) (<[nul := qcoin]> (coins self))).

Definition remove_coin_by_nullifier self (nul : Nullifier) : WalletState :=
  set_pending (set_coins self (delete nul (coins self))) (delete nul (pending_spends self)) (pending_outputs self).

(** The collapsed tree is not used here. *)
Definition apply_claim self (secret_keys : SecretKeys) (tx : AuthorizedClaim) : outcome InvalidUpdate WalletState :=
  let ff := wallet_first_free self in
  tree ← try_update_hash (merkle_tree self) ff (commitment (claim_coin tx) (R_User (claim_recipient tx))) tt;
  tree ← rehash tree;
  let res := set_tree self tree (trunc u64_max (ff + 1)) in
  if bool_decide (coin_public_key secret_keys = claim_recipient tx)
  then Ok (set_coins res (<[nullifier (claim_coin tx) (SE_User (coin_secret_key secret_keys)) := qualify (claim_coin tx) ff]> (coins self)))
  else _ ← collapse tree ff ff; Ok res.

(** The commitments of an offer with their ciphertexts, and its nullifiers. *)
Definition offer_ciphertexts (tx : Offer) : list (Commitment * option Ciphertext) :=
  map (fun o => (out_coin_com o, out_ciphertext o)) (offer_outputs tx) ++
  map (fun io => (tr_coin_com io, tr_ciphertext io)) (offer_transient tx).
Definition offer_nullifiers (tx : Offer) : list Nullifier :=
  map inp_nullifier (offer_inputs tx) ++ map tr_nullifier (offer_transient tx).

Definition apply_failed self (tx : Offer) : WalletState :=
  let res := foldl (fun res nul => set_pending res (delete nul (pending_spends res)) (pending_outputs res)) self (offer_nullifiers tx) in
  foldl (fun res com => set_pending res (pending_spends res) (delete com (pending_outputs res))) res (map fst (offer_ciphertexts tx)).

Definition try_decrypt_opt (secret_keys : SecretKeys) (ciph : option Ciphertext) : outcome InvalidUpdate (option CoinInfo) :=
  match ciph with
  | Some ciph => match try_decrypt secret_keys ciph with Ok r => Ok r | _ => Panic end
  | None => Ok None
  end.
Definition receive self (secret_keys : SecretKeys) (qci : QualifiedCoinInfo) (coin_com : Commitment) : WalletState :=
  let res := set_coins self (<[nullifier (info_of_qualified qci) (SE_User (coin_secret_key secret_keys)) := qci]> (coins self)) in
  set_pending res (pending_spends res) (delete coin_com (pending_outputs res)).
(** One output of [apply]. *)
Definition apply_new_coin (secret_keys : SecretKeys) self (item : Commitment * option Ciphertext) : outcome InvalidUpdate WalletState :=
  let '(coin_com, ciph) := item in
  let ff := wallet_first_free self in
  tree ← try_update_hash (merkle_tree self) ff coin_com tt;
  let res := set_tree self tree ff in
  decrypted ← try_decrypt_opt secret_keys ciph;
  res ← match decrypted with
        | Some ci =>
            if bool_decide (commitment ci (R_User (coin_public_key secret_keys)) = coin_com)
            then Ok (receive res secret_keys (qualify ci ff) coin_com) else Ok res
        | None =>
            match pending_outputs res !! coin_com with
            | Some coin => Ok (receive res secret_keys (qualify coin ff) coin_com)
            | None => tree ← collapse tree ff ff; Ok (set_tree res tree ff)
            end
        end;
  Ok (set_tree res (merkle_tree res) (trunc u64_max (ff + 1))).
Definition apply_nullifier self (nul : Nullifier) : WalletState :=
  let res := if bool_decide (is_Some (coins self !! nul)) then set_coins self (delete nul (coins self)) else self in
  if bool_decide (is_Some (pending_spends res !! nul))
  then set_pending res (delete nul (pending_spends res)) (pending_outputs res) else res.
Definition wallet_apply self (secret_keys : SecretKeys) (tx : Offer) : outcome InvalidUpdate WalletState :=
  res ← try_fold (apply_new_coin secret_keys) self (offer_ciphertexts tx);
  let res := foldl apply_nullifier res (offer_nullifiers tx) in
  tree ← rehash (merkle_tree res);
  Ok (set_tree res tree (wallet_first_free res)).

(** [Input::new_from_secret_key]. *)
Definition new_from_secret_key {A} (rc : Z) (coin : QualifiedCoinInfo) (segment : option Z) (sk : SenderEvidence) (tree : MerkleTreeNode A)
    : outcome OfferCreationFailed (ZswapInput point unit * MerklePath HashOutput) :=
  let info := info_of_qualified coin in
  let hash := commitment info (recipient_of sk) in
  root ← ok_or (mt_root tree) TreeNotRehashed;
  path ← map_err CreationInvalidIndex (path_for_leaf tree (qci_mt_index coin) hash);
  Ok ({| inp_nullifier := nullifier info sk;
         inp_value_commitment := Pedersen_commit (token_field_repr (qci_type coin) (default 0 segment)) (qci_value coin) rc;
         inp_contract_address := match sk with SE_Contract addr => Some addr | SE_User _ => None end;
         inp_merkle_tree_root := root; inp_proof := tt |}, path).
Definition new_contract_owned {A} (rc : Z) (coin : QualifiedCoinInfo) (segment : option Z) (contract : ContractAddress) (tree : MerkleTreeNode A) :=
  new_from_secret_key rc coin segment (SE_Contract contract) tree.
(** [Output::new_for_recipient]. *)
Definition new_for_recipient (rc : Z) (coin : CoinInfo) (segment : option Z) (recipient : Recipient) (ciphertext : option Ciphertext)
    : ZswapOutput point unit Ciphertext :=
  {| out_coin_com := commitment coin recipient;
     out_value_commitment := Pedersen_commit (token_field_repr (ci_type coin) (default 0 segment)) (ci_value coin) rc;
     out_contract_address := match recipient with R_Contract addr => Some addr | R_User _ => None end;
     out_ciphertext := ciphertext; out_proof := tt |}.
Definition Output_new (rc y : Z) (coin : CoinInfo) (segment : option Z) (target_cpk : CoinPublicKey) (target_epk : option point)
    : may_panic (ZswapOutput point unit Ciphertext) :=
  ciphertext ← match target_epk with Some epk => ct ← CoinCiphertext_new coin epk y; Ok (Some ct) | None => Ok None end;
  Ok (new_for_recipient rc coin segment (R_User target_cpk) ciphertext).
Definition Output_new_contract_owned (rc : Z) (coin : CoinInfo) (segment : option Z) (contract : ContractAddress)
    : ZswapOutput point unit Ciphertext := new_for_recipient rc coin segment (R_Contract contract) None.

(** [State::spend_from_tree], [spend] and [spend_from_output]. *)
Definition spend_from_tree self (rc : Z) (secret_keys : SecretKeys) (coin : QualifiedCoinInfo) (segment : option Z) (tree : MerkleTreeNode unit)
    : outcome OfferCreationFailed (WalletState * (ZswapInput point unit * MerklePath HashOutput)) :=
  '(inp, path) ← new_from_secret_key rc coin segment (SE_User (coin_secret_key secret_keys)) tree;
  Ok (set_pending self (<[inp_nullifier inp := coin]> (pending_spends self)) (pending_outputs self), (inp, path)).
Definition spend self (rc : Z) (secret_keys : SecretKeys) (coin : QualifiedCoinInfo) (segment : option Z) :=
  spend_from_tree self rc secret_keys coin segment (merkle_tree self).
Definition single_leaf_tree (com : Commitment) : outcome OfferCreationFailed (MerkleTreeNode unit) :=
  tree ← map_err CreationMerkleTreeError (try_update_hash (blank ZSWAP_TREE_HEIGHT) 0 com tt); rehash tree.
Definition transient_of {P} (input : ZswapInput point P) (output : ZswapOutput point P Ciphertext) : ZswapTransient point P Ciphertext :=
  {| tr_nullifier := inp_nullifier input; tr_coin_com := out_coin_com output;
     tr_value_commitment_input := inp_value_commitment input; tr_value_commitment_output := out_value_commitment output;
     tr_contract_address := out_contract_address output; tr_ciphertext := out_ciphertext output;
     tr_proof_input := inp_proof input; tr_proof_output := out_proof output |}.
Definition spend_from_output self (rc : Z) (secret_keys : SecretKeys) (coin : QualifiedCoinInfo) (segment : option Z)
    (output : ZswapOutput point unit Ciphertext) : outcome OfferCreationFailed (WalletState * ZswapTransient point unit Ciphertext) :=
  tree ← single_leaf_tree (out_coin_com output);
  '(res, (input, _)) ← spend_from_tree self rc secret_keys coin segment tree;
  Ok (res, transient_of input output).
(** [Transient::new_from_contract_owned_output]. *)
Definition new_from_contract_owned_output (rc : Z) (coin : QualifiedCoinInfo) (segment : option Z) (output : ZswapOutput point unit Ciphertext)
    : outcome OfferCreationFailed (ZswapTransient point unit Ciphertext) :=
  tree ← single_leaf_tree (out_coin_com output);
  addr ← ok_or (out_contract_address output) NotContractOwned;
  '(input, _) ← new_contract_owned rc coin segment addr tree;
  Ok (transient_of input output).
(** [AuthorizedClaim::new]. *)
Definition authorize_claim (secret_keys : SecretKeys) (coin : CoinInfo) : outcome OfferCreationFailed AuthorizedClaim :=
  match recipient_of (SE_User (coin_secret_key secret_keys)) with
  | R_User pk => Ok {| claim_coin := coin; claim_recipient := pk |}
  | R_Contract _ => Panic
  end.
Definition watch_for self (coin_public_key : CoinPublicKey) (coin : CoinInfo) : WalletState :=
  set_pending self (pending_spends self) (<[commitment coin (R_User coin_public_key) := coin]> (pending_outputs self)).
End wallet.
