(* ===== verification/WalletProps.v ===== *)
(** * The wallet follows the ledger

    The wallet's tree differs from the ledger's only in what is collapsed: all
    subtrees the two have in common have the same root ([same_tree]).  So the
    roots agree, and a coin that the wallet holds can be spent. *)
From S2P Require Import Prelude Fab Coin MerkleTree TimeFilterMap Zswap ZswapProps FieldRepr Zkir ZkirProps CoinKeys Wallet.

(** ** Trees that differ in what is collapsed *)
Fixpoint same_tree `{Hashing} {A B} (t1 : MerkleTreeNode A) (t2 : MerkleTreeNode B) : Prop :=
  mt_height t1 = mt_height t2 /\ root_spec t1 = root_spec t2 /\
  match t1, t2 with
  | Node _ l1 r1 _, Node _ l2 r2 _ => same_tree l1 l2 /\ same_tree r1 r2
  | Stub _, Stub _ => True
  | Stub _, _ | _, Stub _ => False
  | _, _ => True
  end.

Section same_tree.
Context `{Hashing} {A B : Type}.
Implicit Types (t : MerkleTreeNode A) (u : MerkleTreeNode B).

Lemma same_height t u : same_tree t u -> mt_height t = mt_height u.
Proof. destruct t; cbn; tauto. Qed.
Lemma same_root t u : same_tree t u -> root_spec t = root_spec u.
Proof. destruct t; cbn; tauto. Qed.
(** Opened stubs and nodes correspond child by child. *)
Lemma same_open t u : same_tree t u -> mt_wf t -> mt_wf u -> 1 <= mt_height t -> is_collapsed t = false -> is_collapsed u = false ->
  exists h1 h2 l1 r1 l2 r2 h, open_stub None t = Node h1 l1 r1 h /\ open_stub None u = Node h2 l2 r2 h /\ h = mt_height t /\
    same_tree l1 l2 /\ same_tree r1 r2 /\ mt_wf l1 /\ mt_wf r1 /\ mt_wf l2 /\ mt_wf r2 /\ mt_height l1 = h - 1 /\ mt_height r1 = h - 1.
Proof.
  intros Hs Ht Hu Hh Hct Hcu.
  destruct t as [|? ?|h|hash l r h]; try done; destruct u as [|? ?|h'|hash' l' r' h']; try done; cbn in Hs.
  all: destruct Hs as (Eh & _ & Hc); try done.
  - cbn in Hh, Eh. subst h'. eexists _, _, _, _, _, _, _. split; [done|]. split; [done|]. cbn. split_and!; done || lia.
  - apply mt_wf_node in Ht as (? & ? & _). lia.
  - subst h'. destruct Hc as [Hl Hr]. apply mt_wf_node in Ht as (? & ? & ? & ? & ? & ?), Hu as (? & ? & ? & ? & ? & ?).
    eexists _, _, _, _, _, _, _. split; [done|]. split; [done|]. by split_and!.
Qed.
Lemma same_update n1 n2 : forall t u i leaf a b t', mt_wf t -> mt_wf u -> same_tree t u -> mt_height t <= 63 -> 0 <= i ->
  (mt_size u <= n2)%nat -> collapsed_at u i = false -> try_update_hash_rec n1 t i leaf a = Ok t' ->
  exists u', try_update_hash_rec n2 u i leaf b = Ok u' /\ same_tree t' u'.
Proof.
  revert n2. induction n1 as [|n1 IH]; intros n2 t u i leaf a b t' Ht Hu Hs Hh Hi Hn Hc E; [done|].
  destruct n2 as [|n2]; [destruct u; cbn in Hn; lia|]. cbn [try_update_hash_rec] in *.
  pose proof (same_height _ _ Hs) as Hhe. rewrite <- Hhe. destruct (shl_u128 (mt_height t) <=? i) eqn:Er; [done|].
  destruct (is_collapsed t) eqn:Ect; [done|]. assert (is_collapsed u = false) as -> by (by destruct u).
  pose proof (mt_height_nonneg t Ht) as Hpos.
  destruct (Z.eqb_spec (mt_height t) 0) as [Hz|Hz]; [injection E as <-; eexists; split; [done|]; by split_and!|].
  destruct (same_open t u) as (h1 & h2 & l1 & r1 & l2 & r2 & h & Eo1 & Eo2 & -> & Sl & Sr & ? & ? & ? & ? & Hl & Hr); [done..|lia|done|by destruct u|].
  destruct (open_stub_spec None u Hu) as (h2' & l2' & r2' & h' & Eo & Hh' & _ & Hsl & Hsr & _ & Hcx & _); [lia|by destruct u|].
  rewrite Eo in Eo2. injection Eo2 as -> -> -> ->. rewrite Eo1 in E. rewrite Eo.
  specialize (Hcx i). rewrite Eo, Hc in Hcx. cbn [collapsed_at] in Hcx. rewrite shl_u64_small in * by lia.
  destruct (Z.ltb_spec i (2 ^ (mt_height t - 1))).
  - apply bind_Ok_inv in E as (l1' & E & [= <-]). destruct (IH n2 l1 l2 i leaf a b l1') as (l2' & -> & Sl'); try done; [lia..|].
    eexists. split; [done|]. cbn. by rewrite (same_root _ _ Sl'), (same_root _ _ Sr).
  - apply bind_Ok_inv in E as (r1' & E & [= <-]). destruct (IH n2 r1 r2 (i - 2 ^ (mt_height t - 1)) leaf a b r1') as (r2' & -> & Sr'); try done; [lia..|].
    eexists. split; [done|]. cbn. by rewrite (same_root _ _ Sl), (same_root _ _ Sr').
Qed.
(** Collapsing a leaf of [u]. *)
Lemma same_collapse {E} n : forall t u i x u', mt_wf u -> same_tree t u -> mt_height u <= 63 -> 0 <= i < 2 ^ mt_height u -> (mt_size u <= n)%nat ->
  mt_index u i = Some x -> collapse_rec (E := E) n u i i = Ok u' -> same_tree t u'.
Proof.
  induction n as [|n IH]; intros t u i x u' Hu Hs Hh Hi Hn Hx Ec; [done|].
  destruct (collapse_rec_spec (E := E) (S n) u i i) as (u1 & Eu1 & Hu1); [done|done|lia..|].
  rewrite Ec in Eu1. injection Eu1 as <-. destruct Hu1 as (_ & Hhu & Hru & _).
  destruct u as [hash aux|hash h|h|hash l r h]; try done.
  { injection Ec as <-. destruct t; cbn in Hs |- *; tauto. }
  apply mt_wf_node in Hu as (Hge & Hl & Hr & _ & Hwl & Hwr). cbn [mt_height] in *. pose proof (pow2_split h Hge) as Hpow.
  cbn [mt_index] in Hx. cbn [collapse_rec open_stub mt_height] in Ec. rewrite !shl_u64_small in * by lia.
  destruct (_ && _) eqn:Eb.
  { assert (0 < 2 ^ (h - 1)) by lia. lia. }
  assert (exists l' r' : MerkleTreeNode B, (forall tl : MerkleTreeNode A, same_tree tl l -> same_tree tl l') /\
    (forall tr : MerkleTreeNode A, same_tree tr r -> same_tree tr r') /\
    (u' = Node hash l' r' h \/ exists x, u' = Collapsed x h)) as (l' & r' & Sl & Sr & Hu').
  { cbn [mt_size] in Hn. destruct (Z.ltb_spec i (2 ^ (h - 1))).
    - apply bind_Ok_inv in Ec as (l' & El & Ec). rewrite Z.min_l in El by lia. destruct (Z.leb_spec (2 ^ (h - 1)) i); [lia|].
      cbn [mbind outcome_bind] in Ec. exists l', r. split_and!; [|done|].
      + intros tl Htl. eapply (IH tl l i x l'); try done; rewrite ?Hl; lia.
      + destruct (is_collapsed l' && is_collapsed r); [apply bind_Ok_inv in Ec as (y & _ & [= <-]); eauto|injection Ec as <-; auto].
    - apply bind_Ok_inv in Ec as (l' & [= <-] & Ec). destruct (Z.leb_spec (2 ^ (h - 1)) i); [|lia].
      apply bind_Ok_inv in Ec as (r' & Er & Ec). unfold sat_sub in Er. rewrite Z.max_r in Er by lia. exists l, r'. split_and!; [done| |].
      + intros tr Htr. eapply (IH tr r (i - 2 ^ (h - 1)) x r'); try done; rewrite ?Hr; lia.
      + destruct (is_collapsed l && is_collapsed r'); [apply bind_Ok_inv in Ec as (y & _ & [= <-]); eauto|injection Ec as <-; auto]. }
  destruct t as [th ta|th tht|tht|th tl tr tht]; cbn [same_tree] in Hs; destruct Hs as (Eh & Er & Hc); try done;
    destruct Hu' as [-> | [y ->]]; cbn [same_tree]; rewrite Hru; (split_and!; try done; cbn [mt_height] in *; try congruence).
  - apply Sl. tauto.
  - apply Sr. tauto.
Qed.
Lemma same_rehash {E} : forall t u u', same_tree t u -> rehash (E := E) u = Ok u' -> same_tree t u'.
Proof.
  intros t u. revert t. induction u as [hash aux|hash h|h|[x|] l IHl r IHr h]; intros t u' Hs Er; try (injection Er as <-; done).
  destruct (rehash_spec (E := E) (Node None l r h)) as (u1 & Eu1 & Hroot & _). rewrite Er in Eu1. injection Eu1 as <-.
  apply root_spec_root in Hroot. cbn [rehash] in Er. inv_binds.
  destruct t as [th ta|th tht|tht|th tl tr tht]; cbn [same_tree] in Hs |- *; rewrite Hroot; try tauto.
  destruct Hs as (? & ? & ? & ?). split_and!; eauto.
Qed.
End same_tree.
Lemma same_tree_sym `{Hashing} {A B} (t : MerkleTreeNode A) (u : MerkleTreeNode B) : same_tree t u -> same_tree u t.
Proof.
  revert u. induction t as [? ?|? ?|?|? l IHl r IHr h]; intros [? ?|? ?|?|? l' r' h']; cbn; intros; destruct_and?; split_and!; auto.
Qed.

(** ** The invariant of a wallet *)
Section wallet_props.
Context `{FieldOrderLaws} {FB : FrBits} `{Hashing} `{EmbeddedCurve} `{!CurveLaws} `{!CurveIdentity} {Proof : Type} (keys : SecretKeys).
#[local] Set Default Proof Using "All".
Local Abbreviation Offer := (ZswapOffer point Proof Ciphertext ShieldedTokenType).
Implicit Types (w : WalletState) (t : MerkleTreeNode unit).

Definition own_commitment (coin : CoinInfo) : Commitment := commitment coin (R_User (coin_public_key keys)).
Definition own_nullifier (coin : CoinInfo) : Nullifier := nullifier coin (SE_User (coin_secret_key keys)).

(** The leaves from [ff] on are free. *)
Definition tree_free t (ff : Z) : Prop :=
  mt_wf t /\ hash_ok t /\ mt_height t = ZSWAP_TREE_HEIGHT /\ 0 <= ff <= 2 ^ 32 /\
  (forall j, ff <= j < 2 ^ 32 -> mt_index t j = None /\ collapsed_at t j = false).
(** Every coin is stored under its nullifier and its commitment is in the tree. *)
Definition coins_ok (m : gmap Nullifier QualifiedCoinInfo) t (ff : Z) : Prop := forall n q, m !! n = Some q ->
  n = own_nullifier (info_of_qualified q) /\ 0 <= qci_mt_index q < ff /\
  mt_index t (qci_mt_index q) = Some (own_commitment (info_of_qualified q), tt).
Definition pending_ok (m : gmap Commitment CoinInfo) : Prop := forall com coin, m !! com = Some coin -> com = own_commitment coin.
Definition wallet_ok w : Prop :=
  tree_free (merkle_tree w) (wallet_first_free w) /\ coins_ok (coins w) (merkle_tree w) (wallet_first_free w) /\ pending_ok (pending_outputs w).

Lemma wallet_new_ok : wallet_ok wallet_new.
Proof. by split_and!. Qed.

Lemma tree_free_update t ff com : tree_free t ff -> ff < 2 ^ 32 ->
  exists t', try_update_hash t ff com tt = Ok t' /\ tree_free t' (ff + 1) /\ mt_index t' ff = Some (com, tt) /\
    forall j, 0 <= j < 2 ^ 32 -> j <> ff -> mt_index t' j = mt_index t j.
Proof.
  intros (Hw & Hok & Hh & Hff & Hfree) Hlt. unfold ZSWAP_TREE_HEIGHT in *.
  pose proof (try_update_hash_rec_spec (mt_size t) t ff com tt Hw ltac:(lia) ltac:(lia) ltac:(lia)) as Hu. unfold try_update_hash.
  rewrite Hh in Hu. destruct (try_update_hash_rec _ _ _ _ _) as [t1|[]|]; try done.
  2: { destruct (Hfree ff) as [_ Hc]; [lia|]. destruct Hu as [_ Hc']. congruence. }
  2: { lia. }
  destruct Hu as (_ & _ & Hw1 & Hh1 & Hok1 & Hidx & Hcol). rewrite Hh in *. exists t1. split; [done|].
  split; [|split].
  - unfold tree_free, ZSWAP_TREE_HEIGHT. split_and!; auto; try lia.
    intros j Hj. rewrite Hidx, Hcol, decide_False by lia. apply Hfree. lia.
  - by rewrite Hidx, decide_True by lia.
  - intros j Hj Hne. by rewrite Hidx, decide_False by lia.
Qed.
Lemma tree_free_collapse {E} t ff : tree_free t (ff + 1) -> 0 <= ff -> 
  exists t', collapse (E := E) t ff ff = Ok t' /\ tree_free t' (ff + 1) /\
    forall j, 0 <= j < 2 ^ 32 -> j <> ff -> mt_index t' j = mt_index t j.
Proof.
  intros (Hw & Hok & Hh & Hff & Hfree) Hpos. unfold ZSWAP_TREE_HEIGHT in *. unfold collapse.
  destruct (collapse_rec_spec (E := E) (mt_size t) t ff ff) as (t' & Ec & Hw' & Hh' & _ & _ & _ & Hok' & Hidx & Hcol); try (done || rewrite ?Hh; lia).
  rewrite Hh in *. exists t'. split; [done|]. split.
  - unfold tree_free, ZSWAP_TREE_HEIGHT. split_and!; auto; try lia.
    intros j Hj. rewrite Hidx, Hcol, decide_False, bool_decide_eq_false_2 by lia. apply Hfree. lia.
  - intros j Hj Hne. by rewrite Hidx, decide_False by lia.
Qed.

Lemma decrypt_total ct : exists r, try_decrypt_opt keys ct = Ok r /\ (forall c, ct = Some c -> try_decrypt keys c = Ok r).
Proof.
  destruct ct as [c|]; [|by exists None].
  assert (exists r, try_decrypt keys c = Ok r) as [r Hr]; [|exists r; cbn; rewrite Hr; split; [done|by intros ? [= <-]]].
  unfold try_decrypt, decrypt. destruct (is_identity _); [eauto|].
  assert (exists k, shared_key (point_mul (CoinKeys.c c) (encryption_secret_key keys)) = Ok k) as [k ->].
  { unfold shared_key, is_infinity, point_x, point_y. destruct (coordinates_total (point_mul (CoinKeys.c c) (encryption_secret_key keys))) as (x & y & -> & _). cbn. eauto. }
  cbn [mbind outcome_bind]. destruct (imap _ _) as [|z l]; [eauto|]. destruct (z =? 0); eauto.
Qed.
Lemma coins_ok_mono m t t' ff : coins_ok m t ff -> ff < 2 ^ 32 -> (forall j, 0 <= j < 2 ^ 32 -> j <> ff -> mt_index t' j = mt_index t j) -> coins_ok m t' (ff + 1).
Proof.
  intros Hc Hlt Ht n q Hq. destruct (Hc n q Hq) as (Hn & Hi & Hx). split_and!; try done; try lia. rewrite Ht by lia. done.
Qed.
Lemma receive_ok w t' coin com : coins_ok (coins w) (merkle_tree w) (wallet_first_free w) -> pending_ok (pending_outputs w) ->
  wallet_first_free w < 2 ^ 32 -> tree_free t' (wallet_first_free w + 1) ->
  mt_index t' (wallet_first_free w) = Some (com, tt) -> com = own_commitment coin ->
  (forall j, 0 <= j < 2 ^ 32 -> j <> wallet_first_free w -> mt_index t' j = mt_index (merkle_tree w) j) -> 0 <= wallet_first_free w ->
  wallet_ok (set_tree (receive (set_tree w t' (wallet_first_free w)) keys (qualify coin (wallet_first_free w)) com) t' (wallet_first_free w + 1)).
Proof.
  intros Hc Hp Hlt Ht Hx -> Ho Hpos. split_and!; cbn; [done| |].
  - intros n q [[<- <-]|[_ Hq]]%lookup_insert_Some; cbn.
    + split_and!; [by destruct coin|lia..|]. rewrite Hx. by destruct coin.
    + by apply (coins_ok_mono _ _ _ _ Hc Hlt Ho).
  - intros c coin' [_ Hl]%lookup_delete_Some. by apply Hp.
Qed.

(** What applying one output does. *)
Definition coin_added w (com : Commitment) (ct : option Ciphertext) w' : Prop :=
  wallet_ok w' /\ wallet_first_free w' = wallet_first_free w + 1 /\
  (forall A (u u' : MerkleTreeNode A) a, mt_wf u -> same_tree u (merkle_tree w) -> mt_height u <= 63 ->
     try_update_hash u (wallet_first_free w) com a = Ok u' -> same_tree u' (merkle_tree w')) /\
  (forall n, is_Some (coins w !! n) -> is_Some (coins w' !! n)) /\
  (forall c coin, ct = Some c -> try_decrypt keys c = Ok (Some coin) -> own_commitment coin = com -> is_Some (coins w' !! own_nullifier coin)).
Lemma apply_new_coin_spec w com ct : wallet_ok w -> wallet_first_free w < 2 ^ 32 ->
  exists w', apply_new_coin keys w (com, ct) = Ok w' /\ coin_added w com ct w'.
Proof.
  intros (Ht & Hc & Hp) Hlt. set (ff := wallet_first_free w) in *.
  assert (0 <= ff) as Hpos by (destruct Ht as (_ & _ & _ & ? & _); lia).
  destruct (tree_free_update _ ff com Ht Hlt) as (t1 & Eu & Ht1 & Hx & Ho).
  assert (Hsame : forall A (u u' : MerkleTreeNode A) a, mt_wf u -> same_tree u (merkle_tree w) -> mt_height u <= 63 ->
    try_update_hash u ff com a = Ok u' -> same_tree u' t1).
  { intros A u u' a Hu Hs Hh E. destruct Ht as (Hw & _ & _ & _ & Hfree).
    destruct (same_update (mt_size u) (mt_size (merkle_tree w)) u (merkle_tree w) ff com a tt u') as (t2 & E2 & Hs2); try done; [apply Hfree; lia|].
    unfold try_update_hash in Eu. rewrite Eu in E2. by injection E2 as ->. }
  destruct (decrypt_total ct) as (r & Hr & Hdec). unfold apply_new_coin. fold ff. rewrite Eu. cbn [mbind outcome_bind]. rewrite Hr. cbn [mbind outcome_bind].
  rewrite trunc_id by (autounfold with ints; lia).
  destruct r as [ci|].
  - destruct (decide (commitment ci (R_User (coin_public_key keys)) = com)) as [Hcom|Hcom].
    + rewrite bool_decide_eq_true_2 by done. eexists. split; [done|]. split_and!; [by apply receive_ok|done|exact Hsame| |].
      * intros n Hn. cbn. apply lookup_insert_is_Some. destruct (decide (nullifier (info_of_qualified (qualify ci ff)) (SE_User (coin_secret_key keys)) = n)); auto.
      * intros c coin -> Hd Hcoin. rewrite (Hdec c eq_refl) in Hd. injection Hd as ->. cbn. apply lookup_insert_is_Some. left. by destruct coin.
    + rewrite bool_decide_eq_false_2 by done. eexists. split; [done|]. split_and!; [|done|exact Hsame|done|].
      * split_and!; cbn; [done| |done]. by apply (coins_ok_mono _ _ _ _ Hc Hlt).
      * intros c coin -> Hd Hcoin. rewrite (Hdec c eq_refl) in Hd. injection Hd as ->. done.
  - cbn [pending_outputs set_tree]. destruct (pending_outputs w !! com) as [coin|] eqn:Ep.
    + eexists. split; [done|]. split_and!; [by apply receive_ok; auto|done|exact Hsame| |].
      * intros n Hn. cbn. apply lookup_insert_is_Some. destruct (decide (nullifier (info_of_qualified (qualify coin ff)) (SE_User (coin_secret_key keys)) = n)); auto.
      * intros c coin' -> Hd. by rewrite (Hdec c eq_refl) in Hd.
    + destruct (tree_free_collapse (E := InvalidUpdate) t1 ff Ht1 Hpos) as (t2 & Ec & Ht2 & Ho2). rewrite Ec. cbn [mbind outcome_bind].
      eexists. split; [done|]. split_and!; [|done| |done|].
      * split_and!; cbn; [done| |done]. apply (coins_ok_mono _ _ _ _ Hc Hlt). intros j Hj Hne. by rewrite Ho2, Ho by lia.
      * intros A u u' a Hu Hs Hh E. cbn. destruct Ht1 as (Hw1 & _ & Hh1 & _ & _). unfold ZSWAP_TREE_HEIGHT in Hh1.
        eapply (same_collapse (mt_size t1) u' t1 ff (com, tt)); [done|by eapply Hsame|rewrite Hh1; lia|rewrite Hh1; lia|done|done|exact Ec].
      * intros c coin' -> Hd. by rewrite (Hdec c eq_refl) in Hd.
Qed.

(** ** Following the ledger *)
Implicit Types st : ZswapState.
Definition tracks st w : Prop := first_free st = wallet_first_free w /\ same_tree (coin_coms st) (merkle_tree w).
Lemma tracks_new : tracks ZswapState_default wallet_new.
Proof. by split_and!. Qed.

Lemma apply_item_tree st ix i st' ix' : apply_item (st, ix) i = Ok (st', ix') ->
  try_update_hash (coin_coms st) (first_free st) i.1.1 i.1.2 = Ok (coin_coms st') /\ first_free st' = trunc u64_max (first_free st + 1).
Proof.
  assert (forall st0 com a r, add_commitment st0 com a None = Ok r ->
    try_update_hash (coin_coms st0) (first_free st0) com a = Ok (coin_coms r.1.1) /\ first_free r.1.1 = trunc u64_max (first_free st0 + 1)) as Hadd.
  { intros st0 com a r E. unfold add_commitment in E. destruct (try_update_hash _ _ _ _) as [tree| |]; try done. cbn in E. by injection E as <-. }
  unfold apply_item. intros ([[st1 com] index] & E & [= <- <-])%bind_Ok_inv. case_bool_decide; [done|].
  destruct i.2 as [n|]; [case_bool_decide; [done|]|]; apply Hadd in E; exact E.
Qed.
Lemma follow_items items : forall cts st ix w st' ix', zswap_wf st -> wallet_ok w -> tracks st w -> map fst cts = item_coms items ->
  try_fold apply_item (st, ix) items = Ok (st', ix') ->
  exists w', try_fold (apply_new_coin keys) w cts = Ok w' /\ wallet_ok w' /\ tracks st' w' /\
    (forall n, is_Some (coins w !! n) -> is_Some (coins w' !! n)) /\
    (forall com c coin, (com, Some c) ∈ cts -> try_decrypt keys c = Ok (Some coin) -> own_commitment coin = com -> is_Some (coins w' !! own_nullifier coin)).
Proof.
  induction items as [|[[com a] n] items IH]; intros [|[com' ct] cts] st ix w st' ix' Hst Hw Htr Hcoms E; try done.
  { injection E as <- <-. exists w. split_and!; try done. by intros ? ? ? ?%elem_of_nil. }
  injection Hcoms as -> Hcoms. cbn [try_fold] in E. apply bind_Ok_inv in E as ([st1 ix1] & E1 & E).
  pose proof (apply_item_spec st ix com a n Hst) as Hspec. rewrite E1 in Hspec. destruct Hspec as [(_ & _ & _ & _ & Hroom) (Hst1 & _)].
  apply apply_item_tree in E1 as [Eu Eff]. cbn [fst snd] in Eu. destruct Htr as [Hff Hsame]. cbn [length] in Hroom.
  destruct (apply_new_coin_spec w com ct Hw) as (w1 & Ew1 & Hw1 & Hff1 & Hs1 & Hm1 & Hr1); [lia|].
  assert (tracks st1 w1) as Htr1.
  { destruct Hst as (Ht & _ & Hh & Hffb & _). unfold ZSWAP_TREE_HEIGHT in Hh. split.
    - rewrite Eff, trunc_id, Hff1 by (autounfold with ints; lia). lia.
    - apply (Hs1 _ (coin_coms st) (coin_coms st1) a); [done|done|lia|by rewrite <- Hff]. }
  destruct (IH cts st1 ix1 w1 st' ix' Hst1 Hw1 Htr1 Hcoms E) as (w' & Ew' & Hw' & Htr' & Hm' & Hr').
  exists w'. cbn [try_fold]. rewrite Ew1. cbn [mbind outcome_bind]. split_and!; try done; [by auto|].
  intros com0 c coin [[= -> <-]|Hin]%elem_of_cons Hd Hcom; [apply Hm'; by eapply Hr1|by eapply Hr'].
Qed.

Lemma apply_nullifiers_spec l w : let w' := foldl apply_nullifier w l in
  merkle_tree w' = merkle_tree w /\ wallet_first_free w' = wallet_first_free w /\ pending_outputs w' = pending_outputs w /\
  forall n, coins w' !! n = if bool_decide (n ∈ l) then None else coins w !! n.
Proof.
  revert w. induction l as [|x l IH]; intros w; [by split_and!|]. cbn [foldl]. destruct (IH (apply_nullifier w x)) as (-> & -> & -> & Hc).
  assert (merkle_tree (apply_nullifier w x) = merkle_tree w /\ wallet_first_free (apply_nullifier w x) = wallet_first_free w /\
    pending_outputs (apply_nullifier w x) = pending_outputs w /\ coins (apply_nullifier w x) = delete x (coins w)) as (-> & -> & -> & Hx).
  { unfold apply_nullifier. destruct (decide (is_Some (coins w !! x))) as [Hs|Hs];
      [rewrite (bool_decide_eq_true_2 (is_Some (coins w !! x))) by done|rewrite (bool_decide_eq_false_2 (is_Some (coins w !! x))) by done];
      case_bool_decide; cbn; split_and!; try done; symmetry; apply delete_id, eq_None_not_Some, Hs. }
  split_and!; try done. intros n. rewrite Hc, Hx. destruct (decide (n = x)) as [->|Hne].
  - rewrite lookup_delete_eq, (bool_decide_eq_true_2 (x ∈ x :: l)) by (by left). by case_bool_decide.
  - rewrite lookup_delete_ne by done. rewrite (bool_decide_ext (n ∈ l) (n ∈ x :: l)); [done|]. rewrite elem_of_cons. naive_solver.
Qed.
Lemma offer_ciphertexts_coms (o : Offer) : map fst (offer_ciphertexts o) = item_coms (offer_items o).
Proof.
  unfold offer_ciphertexts, offer_items, item_coms. rewrite map_app, fmap_app, !map_map. f_equal; unfold fmap, list_fmap; by rewrite map_map.
Qed.
Lemma wallet_follows st w (o : Offer) st' ix : zswap_wf st -> wallet_ok w -> tracks st w -> try_apply st o None = Ok (st', ix) ->
  exists w', wallet_apply w keys o = Ok w' /\ wallet_ok w' /\ tracks st' w' /\ mt_root (merkle_tree w') = Some (root_spec (coin_coms st')) /\
    (forall n, is_Some (coins w !! n) -> n ∉ offer_nullifiers o -> is_Some (coins w' !! n)) /\
    (forall n, n ∈ offer_nullifiers o -> coins w' !! n = None) /\
    (forall com c coin, (com, Some c) ∈ offer_ciphertexts o -> try_decrypt keys c = Ok (Some coin) -> own_commitment coin = com ->
       own_nullifier coin ∉ offer_nullifiers o -> is_Some (coins w' !! own_nullifier coin)).
Proof.
  intros Hst Hw Htr E. rewrite try_apply_items in E. apply bind_Ok_inv in E as (st1 & E1 & E).
  pose proof (apply_inputs_spec (offer_inputs o) st) as Hi. rewrite E1 in Hi. destruct Hi as [_ ->].
  destruct (follow_items (offer_items o) (offer_ciphertexts o) (with_nulls st (inp_nullifier <$> offer_inputs o)) ∅ w st' ix)
    as (w1 & Ew1 & (Ht1 & Hc1 & Hp1) & [Hff1 Hs1] & Hm & Hr); [done..|apply offer_ciphertexts_coms|done|].
  unfold wallet_apply. rewrite Ew1. cbn [mbind outcome_bind].
  destruct (apply_nullifiers_spec (offer_nullifiers o) w1) as (Ht2 & Hff2 & Hp2 & Hc2). set (w2 := foldl _ _ _) in *. clearbody w2.
  destruct (rehash_spec (E := InvalidUpdate) (merkle_tree w2)) as (t3 & Er & Hroot & Hh3 & Hw3 & Hok3 & Hi3 & Hcol3). rewrite Er. cbn [mbind outcome_bind].
  eexists. split; [done|]. rewrite Ht2 in *. split; [split; [|split]|split; [split|]]; cbn.
  - rewrite Hff2. destruct Ht1 as (? & ? & ? & ? & Hfree). split; [auto|]. split; [auto|]. split; [congruence|]. split; [lia|].
    intros j Hj. rewrite Hi3, Hcol3. by apply Hfree.
  - intros n q Hq. rewrite Hc2 in Hq. case_bool_decide; [done|]. rewrite Hff2, Hi3. by apply Hc1.
  - by rewrite Hp2.
  - by rewrite Hff2.
  - by eapply (same_rehash (E := InvalidUpdate)).
  - split_and!.
    + by rewrite Hroot, (same_root _ _ Hs1).
    + intros n Hn Hin. rewrite Hc2, bool_decide_eq_false_2 by done. by apply Hm.
    + intros n Hin. by rewrite Hc2, bool_decide_eq_true_2.
    + intros com c coin Hin Hd Hcom Hnot. rewrite Hc2, bool_decide_eq_false_2 by done. by eapply Hr.
Qed.

(** ** Runs of a ledger and of a wallet that follows it *)
Inductive joint_step : Z * ZswapState * WalletState -> Z * ZswapState * WalletState -> Prop :=
| joint_offer now st w (o : Offer) st' ix w' :
    try_apply st o None = Ok (st', ix) -> wallet_apply w keys o = Ok w' -> joint_step (now, st, w) (now, st', w')
| joint_block now st w tblock st' :
    now <= tblock -> zswap_post_block_update (E := ZswapInvalid) st tblock = Ok st' -> joint_step (now, st, w) (tblock, st', w)
| joint_failed now st w (o : Offer) : joint_step (now, st, w) (now, st, apply_failed w o)
| joint_watch now st w coin : joint_step (now, st, w) (now, st, watch_for w (coin_public_key keys) coin)
| joint_spend now st w rc q segment w' r : spend w rc keys q segment = Ok (w', r) -> joint_step (now, st, w) (now, st, w')
| joint_remove now st w n : joint_step (now, st, w) (now, st, remove_coin_by_nullifier w n).
Definition joint_reachable : Z * ZswapState * WalletState -> Prop := rtc joint_step (0, ZswapState_default, wallet_new).

Definition joint_ok (s : Z * ZswapState * WalletState) : Prop :=
  let '(now, st, w) := s in
  zswap_wf st /\ roots_recent now st /\ 0 <= now /\ wallet_ok w /\ tracks st w /\ is_Some (mt_root (merkle_tree w)).

(** Wallet operations that leave the tree alone. *)
Lemma joint_same_tree now st w w' : joint_ok (now, st, w) -> merkle_tree w' = merkle_tree w -> wallet_first_free w' = wallet_first_free w ->
  coins w' ⊆ coins w -> pending_ok (pending_outputs w') -> joint_ok (now, st, w').
Proof.
  intros (Hst & Hr & Hn & (Ht & Hc & _) & [Hff Hs] & Hroot) Et Ef Hsub Hp. split; [done|]. split; [done|]. split; [done|].
  unfold wallet_ok, tracks. rewrite Et, Ef. split; [|done]. split; [done|]. split; [|done].
  intros n q Hq. apply Hc. by eapply lookup_weaken.
Qed.
Lemma failed_pending (o : Offer) w : let w' := apply_failed w o in
  merkle_tree w' = merkle_tree w /\ wallet_first_free w' = wallet_first_free w /\ coins w' = coins w /\ pending_outputs w' ⊆ pending_outputs w.
Proof.
  unfold apply_failed.
  assert (forall l w0, let w1 := foldl (fun res nul => set_pending res (delete nul (pending_spends res)) (pending_outputs res)) w0 l in
    merkle_tree w1 = merkle_tree w0 /\ wallet_first_free w1 = wallet_first_free w0 /\ coins w1 = coins w0 /\ pending_outputs w1 = pending_outputs w0) as Hspends.
  { induction l as [|n l IH]; intros w0; [by split_and!|]. cbn [foldl]. destruct (IH (set_pending w0 (delete n (pending_spends w0)) (pending_outputs w0))) as (-> & -> & -> & ->). by split_and!. }
  assert (forall l w0, let w1 := foldl (fun res com => set_pending res (pending_spends res) (delete com (pending_outputs res))) w0 l in
    merkle_tree w1 = merkle_tree w0 /\ wallet_first_free w1 = wallet_first_free w0 /\ coins w1 = coins w0 /\ pending_outputs w1 ⊆ pending_outputs w0) as Houts.
  { induction l as [|com l IH]; intros w0; [by split_and!|]. cbn [foldl]. destruct (IH (set_pending w0 (pending_spends w0) (delete com (pending_outputs w0)))) as (-> & -> & -> & Hsub).
    split_and!; try done. etrans; [exact Hsub|]. apply delete_subseteq. }
  destruct (Hspends (offer_nullifiers o) w) as (E1 & E2 & E3 & E4).
  destruct (Houts (map fst (offer_ciphertexts o)) (foldl (fun res nul => set_pending res (delete nul (pending_spends res)) (pending_outputs res)) w (offer_nullifiers o)))
    as (-> & -> & -> & Hsub). rewrite E1, E2, E3. split_and!; try done. by rewrite <- E4.
Qed.
Lemma pending_ok_mono m m' : m' ⊆ m -> pending_ok m -> pending_ok m'.
Proof. intros Hsub Hp com coin Hl. apply Hp. by eapply lookup_weaken. Qed.
Lemma joint_step_ok s s' : joint_step s s' -> joint_ok s -> joint_ok s'.
Proof.
  intros Hstep Hok. destruct Hstep as [now st w o st' ix w' Ea Ew|now st w tblock st' Hle Eb|now st w o|now st w coin|now st w rc q segment w' r Es|now st w n].
  - destruct Hok as (Hst & Hr & Hn & Hw & Htr & _).
    destruct (wallet_follows st w o st' ix Hst Hw Htr Ea) as (w1 & Ew1 & Hw1 & Htr1 & Hroot & _). rewrite Ew in Ew1. injection Ew1 as <-.
    pose proof (try_apply_spec st o Hst) as Hs. rewrite Ea in Hs. destruct Hs as (_ & Hst' & _ & _ & _ & Hp & _).
    split; [done|]. split; [by unfold roots_recent; rewrite Hp|]. split; [done|]. split; [done|]. split; [done|]. by rewrite Hroot.
  - destruct Hok as (Hst & Hr & Hn & Hw & [Hff Hs] & Hroot).
    destruct (post_block_spec (E := ZswapInvalid) st now tblock Hst Hr Hle) as (st2 & E2 & Hst2 & Hr2 & _ & _ & Hff2 & _).
    rewrite Eb in E2. injection E2 as <-. split; [done|]. split; [done|]. split; [lia|]. split; [done|]. split; [split|done].
    + by rewrite Hff2.
    + unfold zswap_post_block_update in Eb. apply bind_Ok_inv in Eb as (t & Et & Eb). apply bind_Ok_inv in Eb as (root & _ & [= <-]). cbn.
      apply same_tree_sym. eapply (same_rehash (E := ZswapInvalid)); [by apply same_tree_sym|exact Et].
  - destruct (failed_pending o w) as (E1 & E2 & E3 & E4). apply (joint_same_tree now st w); try done; [by rewrite E3|].
    eapply pending_ok_mono; [exact E4|]. destruct Hok as (_ & _ & _ & (_ & _ & Hp) & _). exact Hp.
  - apply (joint_same_tree now st w); try done. destruct Hok as (_ & _ & _ & (_ & _ & Hp) & _). intros com c' Hl. cbn in Hl.
    apply lookup_insert_Some in Hl as [[<- <-]|[_ Hl]]; [done|by apply Hp].
  - unfold spend, spend_from_tree in Es. apply bind_Ok_inv in Es as ([inp path] & _ & [= <- _]).
    apply (joint_same_tree now st w); try done. destruct Hok as (_ & _ & _ & (_ & _ & Hp) & _). exact Hp.
  - apply (joint_same_tree now st w); try done; [apply delete_subseteq|]. destruct Hok as (_ & _ & _ & (_ & _ & Hp) & _). exact Hp.
Qed.
Lemma joint_reachable_ok s : joint_reachable s -> joint_ok s.
Proof.
  intros Hs. assert (forall s0, joint_ok s0 -> rtc joint_step s0 s -> joint_ok s) as Hrun.
  { clear Hs. intros s0 H0' Hr. induction Hr as [|s1 s2 s3 H12 _ IH]; [done|]. apply IH. by eapply joint_step_ok. }
  eapply Hrun; [|exact Hs]. split; [apply zswap_default_wf|]. split; [by intros ts [? [=]]|]. split; [done|]. split; [apply wallet_new_ok|]. split; [apply tracks_new|done].
Qed.

(** C27: A wallet never falls behind a ledger that records every coin (no
    whitelist): whatever offer the ledger accepts in a reachable joint state, the wallet applies it too; its next free index and the
    root of its tree are then the ledger's, and coins whose nullifiers the offer
    reveals are gone.  A coin that the offer sends to the wallet's keys, with a
    ciphertext that the wallet can decrypt and the commitment of that coin, is
    then held unless the same offer spends it. *)
Theorem wallet_follows_ledger now st w (o : Offer) st' ix : joint_reachable (now, st, w) -> try_apply st o None = Ok (st', ix) ->
  exists w', wallet_apply w keys o = Ok w' /\ wallet_first_free w' = first_free st' /\
    mt_root (merkle_tree w') = Some (root_spec (coin_coms st')) /\
    (forall n, n ∈ offer_nullifiers o -> coins w' !! n = None) /\
    (forall n, is_Some (coins w !! n) -> n ∉ offer_nullifiers o -> is_Some (coins w' !! n)) /\
    (forall com c coin, (com, Some c) ∈ offer_ciphertexts o -> try_decrypt keys c = Ok (Some coin) -> own_commitment coin = com ->
       own_nullifier coin ∉ offer_nullifiers o -> is_Some (coins w' !! own_nullifier coin)).
Proof.
  intros (Hst & _ & _ & Hw & Htr & _)%joint_reachable_ok E.
  destruct (wallet_follows st w o st' ix Hst Hw Htr E) as (w' & Ew & _ & [Hff _] & Hroot & Hk & Hs & Hr).
  exists w'. by split_and!.
Qed.

(** C28: What a wallet holds it can spend.  In every joint run of a ledger that
    records every coin (no whitelist) and a wallet that watches for its own coins, after the end of the next block, [spend] succeeds for each coin of
    the wallet; the path it uses has 32 entries and leads from the coin's
    commitment to the root in the input, and the ledger applies the input
    unless its nullifier has been revealed before. *)
Theorem wallet_coins_spendable now st w tblock n q rc segment : joint_reachable (now, st, w) -> now <= tblock -> coins w !! n = Some q ->
  exists st' w' inp path, zswap_post_block_update (E := ZswapInvalid) st tblock = Ok st' /\
    spend w rc keys q segment = Ok (w', (inp, path)) /\ pending_spends w' = <[n := q]> (pending_spends w) /\
    inp_nullifier inp = n /\ length (mp_path path) = 32%nat /\
    inp_merkle_tree_root inp = foldl path_step (degrade_to_transient (own_commitment (info_of_qualified q))) (mp_path path) /\
    (n ∉ nullifiers st -> apply_input st' inp None = Ok (with_nulls st' [n])).
Proof.
  intros (Hst & Hr & Hn & Hw & [Hff Hs] & [root Hroot])%joint_reachable_ok Hle Hq.
  destruct (post_block_spec (E := ZswapInvalid) st now tblock Hst Hr Hle) as (st' & Eb & _ & _ & _ & Hnul & _).
  destruct Hw as ((Hwf & Hok & Hh & Hb & _) & Hc & _). destruct (Hc n q Hq) as (-> & Hi & Hx). unfold ZSWAP_TREE_HEIGHT in Hh.
  destruct (path_for_leaf_ok 32 (merkle_tree w) (qci_mt_index q) (own_commitment (info_of_qualified q)) (own_commitment (info_of_qualified q)) tt root)
    as (p & Ep & _ & Hlen & Hpath); try done; [lia|].
  unfold spend, spend_from_tree, new_from_secret_key. cbn [recipient_of]. rewrite Hroot. cbn [ok_or mbind outcome_bind].
  change (commitment (info_of_qualified q) (R_User (public_key (coin_secret_key keys)))) with (own_commitment (info_of_qualified q)).
  rewrite Ep. cbn [map_err mbind outcome_bind]. eexists st', _, _, p. split; [done|]. split; [done|]. cbn. split_and!; try done.
  intros Hfresh. rewrite apply_input_unfold. cbn. rewrite <- (root_spec_root _ _ Hroot), <- (same_root _ _ Hs).
  rewrite (post_block_root (E := ZswapInvalid) st now tblock) by done. cbn. rewrite bool_decide_eq_false_2 by (by rewrite Hnul). done.
Qed.

(** A ciphertext that decrypts to another coin hides a coin the wallet watches
    for: the pending outputs are only consulted when decryption fails. *)
Lemma watched_coin_missed w coin other ct : wallet_ok w -> wallet_first_free w < 2 ^ 32 ->
  pending_outputs w !! own_commitment coin = Some coin -> try_decrypt keys ct = Ok (Some other) -> own_commitment other <> own_commitment coin ->
  exists w', apply_new_coin keys w (own_commitment coin, Some ct) = Ok w' /\ coins w' = coins w /\
    pending_outputs w' !! own_commitment coin = Some coin.
Proof.
  intros (Ht & _) Hlt Hp Hd Hne. unfold apply_new_coin, try_decrypt_opt.
  destruct (tree_free_update _ _ (own_commitment coin) Ht Hlt) as (t1 & -> & _). cbn [mbind outcome_bind]. rewrite Hd. cbn [mbind outcome_bind].
  rewrite bool_decide_eq_false_2 by done. eexists. split; [reflexivity|]. by split.
Qed.
End wallet_props.

(** ** Witnesses: a coin is sent to a wallet and spent *)
#[local] Existing Instance bls_order.
#[local] Existing Instance bls_order_laws.
#[local] Existing Instance bls_order_bits.
#[local] Existing Instance small_curve.
#[local] Existing Instance small_curve_laws.
#[local] Existing Instance mixing_hashing.
#[local] Instance small_curve_identity : CurveIdentity := {| is_identity := negb |}.
#[local] Instance small_curve_acts : CurveActs.
Proof. split. intros p x y. cbn. by destruct (Z.odd x), (Z.odd y). Qed.

Definition wallet_keys : SecretKeys := {| coin_secret_key := replicate 32 1; encryption_secret_key := 1 |}.
Definition toy_coin : CoinInfo := {| ci_nonce := replicate 32 7; ci_type := replicate 32 0; ci_value := 1000 |}.
Lemma toy_coin_wf : coin_wf toy_coin.
Proof. split; [|split]; [| |done]; (split; [done|]); by apply Forall_replicate. Qed.
Lemma coin_ciphertext_roundtrip_witness : exists ct,
  CoinCiphertext_new toy_coin (enc_public_key (encryption_secret_key wallet_keys)) 5 = Ok ct /\ try_decrypt wallet_keys ct = Ok (Some toy_coin).
Proof. exact (coin_ciphertext_roundtrip wallet_keys toy_coin 5 toy_coin_wf eq_refl). Defined.

Definition toy_ciphertext : Ciphertext :=
  match CoinCiphertext_new toy_coin (enc_public_key 1) 5 with Ok ct => ct | _ => {| c := true; ciph := [] |} end.
Definition coin_offer : ZswapOffer point unit Ciphertext ShieldedTokenType :=
  {| offer_inputs := []; offer_transient := []; offer_deltas := [];
     offer_outputs := [new_for_recipient 3 toy_coin None (R_User (coin_public_key wallet_keys)) (Some toy_ciphertext)] |}.
Definition toy_st : ZswapState := match try_apply ZswapState_default coin_offer None with Ok (st, _) => st | _ => ZswapState_default end.
Definition toy_ix : gmap Commitment Z := match try_apply ZswapState_default coin_offer None with Ok (_, ix) => ix | _ => ∅ end.
Definition toy_wallet : WalletState := match wallet_apply wallet_new wallet_keys coin_offer with Ok w => w | _ => wallet_new end.
Definition toy_n : Nullifier := own_nullifier wallet_keys toy_coin.
Lemma toy_applied : try_apply ZswapState_default coin_offer None = Ok (toy_st, toy_ix).
Proof.
  unfold toy_st, toy_ix. assert (is_ok (try_apply ZswapState_default coin_offer None) = true) as Hok by (vm_compute; reflexivity).
  by destruct (try_apply ZswapState_default coin_offer None) as [[? ?]| |].
Qed.
Lemma toy_followed : wallet_apply wallet_new wallet_keys coin_offer = Ok toy_wallet.
Proof.
  unfold toy_wallet. assert (is_ok (wallet_apply wallet_new wallet_keys coin_offer) = true) as Hok by (vm_compute; reflexivity).
  by destruct (wallet_apply wallet_new wallet_keys coin_offer).
Qed.
Lemma toy_joint : joint_reachable (Proof := unit) wallet_keys (0, toy_st, toy_wallet).
Proof. apply rtc_once. eapply joint_offer; [apply toy_applied|apply toy_followed]. Qed.
Lemma toy_held : coins toy_wallet !! toy_n = Some (qualify toy_coin 0).
Proof. vm_compute; reflexivity. Qed.

Lemma wallet_follows_ledger_witness : exists w', wallet_apply wallet_new wallet_keys coin_offer = Ok w' /\ wallet_first_free w' = first_free toy_st.
Proof.
  destruct (wallet_follows_ledger (Proof := unit) wallet_keys 0 ZswapState_default wallet_new coin_offer toy_st toy_ix) as (w' & Ew & Hff & _);
    [apply rtc_refl|exact toy_applied|]. exists w'. split; [exact Ew|exact Hff].
Defined.
Lemma wallet_coins_spendable_witness : exists st' w' inp path,
  zswap_post_block_update (E := ZswapInvalid) toy_st 5000 = Ok st' /\
  spend toy_wallet 4 wallet_keys (qualify toy_coin 0) None = Ok (w', (inp, path)) /\ inp_nullifier inp = toy_n.
Proof.
  destruct (wallet_coins_spendable (Proof := unit) wallet_keys 0 toy_st toy_wallet 5000 toy_n (qualify toy_coin 0) 4 None toy_joint)
    as (st' & w' & inp & path & Hb & Hs & _ & Hn & _); [lia|exact toy_held|].
  exists st', w', inp, path. split; [exact Hb|]. split; [exact Hs|exact Hn].
Defined.
