(* ===== verification/WorkerPool.v ===== *)
(** * The worker pool of the proof server ([proof-server/src/worker_pool.rs])

    Requests are jobs in a table behind a lock; their work goes through an
    unbounded channel to a fixed number of workers.  The tasks of the runtime
    interleave between two acquisitions of the lock, so a submission, a
    cancellation and the loop of a worker are sequences of the atomic steps
    below.  The work of a job is what its closure returns; a panic inside is a
    join error.  Times are in nanoseconds. *)
From S2P Require Import Prelude.

Abbreviation Uuid := N.
Inductive WorkError := BadInput (msg : string) | InternalError (msg : string) | CancelledUnexpectedly | JoinError.
Inductive WorkerPoolError := JobQueueFull | ChannelClosed | JobMissing (id : Uuid) | JobNotPending (id : Uuid).
Inductive JobStatus := Pending | Processing | Cancelled | JobError (e : WorkError) | Success (res : list Z).
Abbreviation Work := (outcome WorkError (list Z)).
Record WorkItem := { item_id : Uuid; item_work : Work }.
(** [updates] are the statuses in the job's channel that no receiver took yet,
    oldest first. *)
Record Job := { status : JobStatus; updates : list JobStatus; timeout : Z }.

(** The statuses its receiver delivers until the channel is closed. *)
Fixpoint wait_for_success (updates : list JobStatus) : outcome WorkError (list Z) :=
  match updates with
  | [] => Err (InternalError "failed to complete job")
  | Success res :: _ => Ok res
  | JobError e :: _ => Err e
  | Cancelled :: _ => Err CancelledUnexpectedly
  | _ :: updates => wait_for_success updates
  end.
Definition Job_new (now ttl : Z) : Job := {| status := Pending; updates := []; timeout := now + ttl |}.

Record Requests := { capacity : nat; job_ttl : Z; reqs : gmap Uuid Job }.
Definition Requests_new (capacity : nat) (job_ttl : Z) : Requests := {| capacity := capacity; job_ttl := job_ttl; reqs := ∅ |}.
Definition is_pending (j : Job) : bool := match status j with Pending => true | _ => false end.
Definition is_processing (j : Job) : bool := match status j with Processing => true | _ => false end.
Definition count_jobs (f : Job -> bool) (self : Requests) : nat := size (filter (fun '(_, j) => f j = true) (reqs self)).
Definition processing_count : Requests -> nat := count_jobs is_processing.
Definition pending_count : Requests -> nat := count_jobs is_pending.
Definition is_full (self : Requests) : bool := negb (capacity self =? 0)%nat && (capacity self <=? pending_count self)%nat.
Definition with_reqs (self : Requests) (m : gmap Uuid Job) : Requests := {| capacity := capacity self; job_ttl := job_ttl self; reqs := m |}.
(** A job in the table keeps the receiver of its channel alive. *)
Definition set_status (self : Requests) (id : Uuid) (st : JobStatus) : Requests :=
  match reqs self !! id with
  | Some req => with_reqs self (<[id := {| status := st; updates := updates req ++ [st]; timeout := timeout req |}]> (reqs self))
  | None => self
  end.
(** The second half of [new_req], after [is_full]. *)
Definition insert_req (self : Requests) (now : Z) (id : Uuid) : Requests :=
  with_reqs self (<[id := Job_new now (job_ttl self)]> (reqs self)).
Definition get (self : Requests) (id : Uuid) : option Job := reqs self !! id.
Definition pool_gc (self : Requests) (now : Z) : Requests :=
  with_reqs self (filter (fun '(_, j) => ~ timeout j < now) (reqs self)).

(** ** Tasks *)

(** Where a worker is in its loop: waiting for work, with an item whose status
    it has not read, about to mark it as processing, running it, about to
    record its result. *)
Inductive Worker := Idle | Received (w : WorkItem) | Accepted (w : WorkItem) | Working (w : WorkItem) | Finished (id : Uuid) (st : JobStatus).
(** Where a client is: past the capacity check, past the insertion into the
    table, past the check of a cancellation. *)
Inductive Task := Cleared (w : Work) | Registered (w : WorkItem) | Cancelling (id : Uuid).
(** [issued] remembers the work of every identifier and [ran] the ones whose
    work was run; the code does not keep them. *)
Record Pool := {
  requests : Requests;
  queue : list WorkItem;
  workers : list Worker;
  tasks : list Task;
  now : Z;
  issued : gmap Uuid Work;
  ran : list Uuid }.
Definition WorkerPool_new (num_workers job_capacity : nat) (job_ttl : Z) : Pool :=
  {| requests := Requests_new job_capacity job_ttl; queue := []; workers := replicate num_workers Idle; tasks := [];
     now := 0; issued := ∅; ran := [] |}.

(** The result that [spawn_blocking] reports. *)
Definition status_of_result (r : Work) : JobStatus :=
  match r with Ok res => Success res | Err e => JobError e | Panic => JobError JoinError end.
(** One step of a worker: the table, the channel, its own place and the jobs it ran. *)
Definition worker_step (p : Pool) (wk : Worker) : option (Requests * list WorkItem * Worker * list Uuid) :=
  match wk with
  | Idle => match queue p with w :: q => Some (requests p, q, Received w, []) | [] => None end
  | Received w =>
      Some (requests p, queue p,
            match get (requests p) (item_id w) with
            | None => Idle
            | Some j => match status j with Cancelled => Idle | _ => Accepted w end
            end, [])
  | Accepted w => Some (set_status (requests p) (item_id w) Processing, queue p, Working w, [])
  | Working w => Some (requests p, queue p, Finished (item_id w) (status_of_result (item_work w)), [item_id w])
  | Finished id st => Some (set_status (requests p) id st, queue p, Idle, [])
  end.
(** One step of a client; [id] is the fresh identifier of [Uuid::new_v4]. *)
Definition task_step (p : Pool) (t : Task) (id : Uuid) : Requests * list WorkItem * list Task * gmap Uuid Work :=
  match t with
  | Cleared w => (insert_req (requests p) (now p) id, queue p, [Registered {| item_id := id; item_work := w |}], <[id := w]> (issued p))
  | Registered w => (requests p, queue p ++ [w], [], issued p)
  | Cancelling id => (set_status (requests p) id Cancelled, queue p, [], issued p)
  end.
(** [submit] and [cancel] up to their first wait. *)
Definition submit_begin (p : Pool) (w : Work) : outcome WorkerPoolError Task :=
  if is_full (requests p) then Err JobQueueFull else Ok (Cleared w).
Definition cancel_begin (p : Pool) (id : Uuid) : outcome WorkerPoolError Task :=
  match get (requests p) id with
  | Some job => match status job with Pending => Ok (Cancelling id) | _ => Err (JobNotPending id) end
  | None => Err (JobMissing id)
  end.
Definition poll (p : Pool) (id : Uuid) : option JobStatus :=
  job ← get (requests p) id; if timeout job <? now p then None else Some (status job).
(** The receiver of the channel of a job, one that all its subscribers share: a
    status that one of them takes is gone for the others.  A job that left the
    table has no sender any more; what is left in its channel does not concern
    the pool. *)
Abbreviation Receiver := Uuid.
Definition subscribe (p : Pool) (id : Uuid) : outcome WorkerPoolError Receiver :=
  job ← ok_or (get (requests p) id) (JobMissing id);
  if timeout job <? now p then Err (JobMissing id) else Ok id.
(** A status arrives at a subscriber. *)
Definition recv (self : Requests) (r : Receiver) : option (Requests * JobStatus) :=
  job ← get self r;
  match updates job with
  | [] => None
  | st :: rest => Some (with_reqs self (<[r := {| status := status job; updates := rest; timeout := timeout job |}]> (reqs self)), st)
  end.

Definition after_worker (p : Pool) (l r : list Worker) (rq : Requests) (q : list WorkItem) (wk : Worker) (done_ : list Uuid) : Pool :=
  {| requests := rq; queue := q; workers := l ++ wk :: r; tasks := tasks p; now := now p; issued := issued p; ran := done_ ++ ran p |}.
Definition after_task (p : Pool) (l r : list Task) (rq : Requests) (q : list WorkItem) (ts : list Task) (iss : gmap Uuid Work) : Pool :=
  {| requests := rq; queue := q; workers := workers p; tasks := l ++ ts ++ r; now := now p; issued := iss; ran := ran p |}.
Inductive internal_step : Pool -> Pool -> Prop :=
| step_worker p l wk r rq q wk' done_ : workers p = l ++ wk :: r -> worker_step p wk = Some (rq, q, wk', done_) ->
    internal_step p (after_worker p l r rq q wk' done_)
| step_task p l t r id rq q ts iss : tasks p = l ++ t :: r -> issued p !! id = None -> task_step p t id = (rq, q, ts, iss) ->
    internal_step p (after_task p l r rq q ts iss).
Definition add_task (p : Pool) (t : Task) : Pool :=
  {| requests := requests p; queue := queue p; workers := workers p; tasks := tasks p ++ [t]; now := now p;
     issued := issued p; ran := ran p |}.
Inductive pool_step : Pool -> Pool -> Prop :=
| step_internal p p' : internal_step p p' -> pool_step p p'
| step_submit p w t : submit_begin p w = Ok t -> pool_step p (add_task p t)
| step_cancel p id t : cancel_begin p id = Ok t -> pool_step p (add_task p t)
| step_gc p : pool_step p {| requests := pool_gc (requests p) (now p); queue := queue p; workers := workers p; tasks := tasks p;
                             now := now p; issued := issued p; ran := ran p |}
| step_time p t : pool_step p {| requests := requests p; queue := queue p; workers := workers p; tasks := tasks p;
                             now := t; issued := issued p; ran := ran p |}
| step_recv p r rq st : recv (requests p) r = Some (rq, st) ->
    pool_step p {| requests := rq; queue := queue p; workers := workers p; tasks := tasks p; now := now p; issued := issued p; ran := ran p |}.
Definition pool_reachable (num_workers job_capacity : nat) (job_ttl : Z) : Pool -> Prop :=
  rtc pool_step (WorkerPool_new num_workers job_capacity job_ttl).
