(* ===== verification/PoolProps.v ===== *)
(** * Properties of the worker pool

    Every identifier is in at most one place on its way from a client through
    the channel to a worker, a job that is not finished is in such a place, and
    its work is run at most once. *)
From S2P Require Import Prelude WorkerPool.

(** ** Counting identifiers *)
Fixpoint times (x : Uuid) (l : list Uuid) : nat :=
  match l with [] => 0 | y :: l => (if decide (x = y) then 1 else 0) + times x l end%nat.
Lemma times_app x l r : times x (l ++ r) = (times x l + times x r)%nat.
Proof. induction l as [|y l IH]; cbn; [done|]. lia. Qed.
Lemma times_elem x l : x ∈ l <-> (0 < times x l)%nat.
Proof.
  induction l as [|y l IH]; cbn [times]; [rewrite elem_of_nil; lia|]. rewrite elem_of_cons, IH. destruct (decide (x = y)); naive_solver lia.
Qed.
Lemma times_nodup l : NoDup l <-> forall x, (times x l <= 1)%nat.
Proof.
  induction l as [|y l IH]; [split; [cbn; lia|constructor]|]. rewrite list.NoDup_cons, IH, times_elem. cbn [times]. split.
  - intros [Hy Hl] x. specialize (Hl x). destruct (decide (x = y)) as [->|]; lia.
  - intros Hx. split; [specialize (Hx y); destruct (decide (y = y)); [lia|done]|]. intros x. specialize (Hx x). lia.
Qed.

(** ** Where identifiers are *)
Definition reg_ids (t : Task) : list Uuid := match t with Registered w => [item_id w] | _ => [] end.
Definition wait_ids (wk : Worker) : list Uuid := match wk with Received w | Accepted w => [item_id w] | _ => [] end.
Definition work_ids (wk : Worker) : list Uuid := match wk with Working w => [item_id w] | _ => [] end.
Definition done_ids (wk : Worker) : list Uuid := match wk with Finished id _ => [id] | _ => [] end.
Definition waiting (p : Pool) : list Uuid :=
  concat (map reg_ids (tasks p)) ++ map item_id (queue p) ++ concat (map wait_ids (workers p)).
Definition working (p : Pool) : list Uuid := concat (map work_ids (workers p)).
Definition finishing (p : Pool) : list Uuid := concat (map done_ids (workers p)).

Lemma times_concat {A} (f : A -> list Uuid) x l a r :
  times x (concat (map f (l ++ a :: r))) = (times x (f a) + times x (concat (map f (l ++ r))))%nat.
Proof. rewrite !map_app, !concat_app, !times_app. cbn [map]. change (concat (?a :: ?b)) with (a ++ concat b). rewrite times_app. lia. Qed.
Lemma times_concat_app {A} (f : A -> list Uuid) x l r : times x (concat (map f (l ++ r))) = (times x (concat (map f l)) + times x (concat (map f r)))%nat.
Proof. by rewrite map_app, concat_app, times_app. Qed.

(** ** The invariant *)
Definition item_ok (p : Pool) (w : WorkItem) : Prop := issued p !! item_id w = Some (item_work w).
Definition worker_ok (p : Pool) (wk : Worker) : Prop :=
  match wk with
  | Idle => True
  | Received w | Accepted w | Working w => item_ok p w
  | Finished id st => id ∈ ran p /\ exists w, issued p !! id = Some w /\ st = status_of_result w
  end.
Definition task_ok (p : Pool) (t : Task) : Prop := match t with Registered w => item_ok p w | _ => True end.
(** What a status says about its job. *)
Definition status_ok (p : Pool) (id : Uuid) (st : JobStatus) : Prop :=
  match st with
  | Pending => id ∈ waiting p
  | Processing => id ∈ working p \/ id ∈ finishing p
  | Cancelled => True
  | JobError _ | Success _ => id ∈ ran p /\ exists w, issued p !! id = Some w /\ st = status_of_result w
  end.
Record pool_ok (p : Pool) : Prop := {
  ok_once x : (times x (waiting p) + times x (working p) + times x (finishing p) <= 1)%nat;
  ok_ran x : (times x (ran p) + times x (waiting p) + times x (working p) <= 1)%nat;
  ok_issued x : issued p !! x = None -> (times x (waiting p) + times x (working p) + times x (finishing p) + times x (ran p) = 0)%nat;
  ok_queue : Forall (item_ok p) (queue p);
  ok_workers : Forall (worker_ok p) (workers p);
  ok_tasks : Forall (task_ok p) (tasks p);
  ok_jobs id j : reqs (requests p) !! id = Some j -> is_Some (issued p !! id) /\ status_ok p id (status j) }.

Lemma pool_new_ok n c ttl : pool_ok (WorkerPool_new n c ttl).
Proof.
  assert (forall f : Worker -> list Uuid, f Idle = [] -> concat (map f (replicate n Idle)) = []) as Hr.
  { intros f Hf. induction n as [|n IH]; [done|]. cbn. by rewrite Hf, IH. }
  split; unfold waiting, working, finishing; cbn; rewrite ?Hr by done; cbn; try (intros; lia); try constructor.
  - by apply Forall_replicate.
  - done.
  - done.
Qed.

Lemma set_status_lookup rq id st i j : reqs (set_status rq id st) !! i = Some j ->
  (i = id /\ is_Some (reqs rq !! id) /\ status j = st) \/ (i <> id /\ reqs rq !! i = Some j).
Proof.
  unfold set_status. destruct (reqs rq !! id) as [req|] eqn:E; cbn.
  - intros [[<- <-]|[Hne Hj]]%lookup_insert_Some; [left|right]; by split_and!.
  - intros Hj. right. split; [|done]. intros ->. by rewrite E in Hj.
Qed.
Lemma recv_lookup rq r rq' st i j : recv rq r = Some (rq', st) -> reqs rq' !! i = Some j -> exists j0, reqs rq !! i = Some j0 /\ status j = status j0.
Proof.
  unfold recv, get. destruct (reqs rq !! r) as [job|] eqn:E; [|done]. cbn. destruct (updates job) as [|s rest]; [done|].
  intros [= <- <-]. cbn. intros [[<- <-]|[_ Hj]]%lookup_insert_Some; eauto.
Qed.
(** What holds of a job transfers to a later state in which its places are kept. *)
Lemma status_ok_mono p p' id st : status_ok p id st -> (forall w, issued p !! id = Some w -> issued p' !! id = Some w) ->
  (times id (waiting p) <= times id (waiting p'))%nat -> (times id (ran p) <= times id (ran p'))%nat ->
  (times id (working p) + times id (finishing p) <= times id (working p') + times id (finishing p'))%nat -> status_ok p' id st.
Proof.
  intros Hs Hi Hw Hr Ha. destruct st; cbn in *; rewrite ?times_elem in *; try done.
  - lia.
  - lia.
  - destruct Hs as [Hran (w & Hw' & ->)]. split; [lia|]. eauto.
  - destruct Hs as [Hran (w & Hw' & ->)]. split; [lia|]. eauto.
Qed.
Lemma worker_ok_mono p p' wk : worker_ok p wk -> issued p' = issued p -> (forall x, x ∈ ran p -> x ∈ ran p') -> worker_ok p' wk.
Proof. intros Hw Hi Hr. destruct wk; cbn in *; unfold item_ok in *; rewrite ?Hi; try done. destruct Hw as [? ?]. split; auto. Qed.

(** *** Steps of a worker *)
Ltac places H := cbn [times map wait_ids work_ids done_ids reg_ids] in H.
Lemma worker_counts p l wk r rq q wk' done_ x (p' := after_worker p l r rq q wk' done_) : workers p = l ++ wk :: r ->
  exists a b c d, (times x (waiting p) = a + times x (map item_id (queue p)) + (times x (wait_ids wk) + b) /\
    times x (waiting p') = a + times x (map item_id q) + (times x (wait_ids wk') + b) /\
    times x (working p) = times x (work_ids wk) + c /\ times x (working p') = times x (work_ids wk') + c /\
    times x (finishing p) = times x (done_ids wk) + d /\ times x (finishing p') = times x (done_ids wk') + d /\
    times x (ran p') = times x done_ + times x (ran p))%nat.
Proof.
  intros Ew. exists (times x (concat (map reg_ids (tasks p)))), (times x (concat (map wait_ids (l ++ r)))),
    (times x (concat (map work_ids (l ++ r)))), (times x (concat (map done_ids (l ++ r)))).
  unfold p', waiting, working, finishing. cbn [after_worker tasks queue workers ran]. rewrite Ew, !times_app, !times_concat. split_and!; lia.
Qed.
(** An item that is dropped is not in the table, or cancelled. *)
Lemma received_spec rq w : exists gone : bool,
  match get rq (item_id w) with Some j => match status j with Cancelled => Idle | _ => Accepted w end | None => Idle end = (if gone then Idle else Accepted w) /\
  ((forall j, reqs rq !! item_id w = Some j -> status j = Cancelled) <-> gone = true).
Proof.
  unfold get. destruct (reqs rq !! item_id w) as [j|]; [destruct (status j) eqn:Est|];
    [exists false|exists false|exists true|exists false|exists false|exists true]; (split; [done|]); split; try done;
    try (intros H; specialize (H j eq_refl); congruence); intros _ j' Hj'; by simplify_eq.
Qed.
Lemma worker_step_times p l wk r rq q wk' done_ (p' := after_worker p l r rq q wk' done_) :
  workers p = l ++ wk :: r -> worker_step p wk = Some (rq, q, wk', done_) -> forall x,
  (times x (waiting p') + times x (working p') + times x (finishing p') <= times x (waiting p) + times x (working p) + times x (finishing p) /\
   times x (ran p') + times x (waiting p') + times x (working p') <= times x (ran p) + times x (waiting p) + times x (working p) /\
   times x (waiting p') + times x (working p') + times x (finishing p') + times x (ran p') <=
     2 * (times x (waiting p) + times x (working p) + times x (finishing p) + times x (ran p)))%nat.
Proof.
  intros Ew Es x. destruct (worker_counts p l wk r rq q wk' done_ x Ew) as (a & b & c & d & Hc). fold p' in Hc.
  destruct wk as [|w|w|w|id st]; cbn [worker_step] in Es; [destruct (queue p) as [|w q0] eqn:Eq; [done|]|..]; injection Es as <- <- <- <-; places Hc; try lia.
  destruct (received_spec (requests p) w) as (gone & Eg & _). rewrite Eg in Hc. destruct gone; places Hc; lia.
Qed.
Lemma worker_step_items p l wk r rq q wk' done_ : Forall (item_ok p) (queue p) -> worker_ok p wk -> worker_step p wk = Some (rq, q, wk', done_) ->
  Forall (item_ok p) q /\ worker_ok (after_worker p l r rq q wk' done_) wk'.
Proof.
  intros Hq Hw Es. destruct wk as [|w|w|w|id st]; cbn [worker_step] in Es; [destruct (queue p) as [|w q0] eqn:Eq; [done|]|..]; injection Es as <- <- <- <-; try done.
  - by apply list.Forall_cons in Hq as [? ?].
  - split; [done|]. destruct (received_spec (requests p) w) as (gone & -> & _). by destruct gone.
  - split; [done|]. split; [apply elem_of_cons; by left|]. by eexists.
Qed.
Lemma worker_step_jobs p l wk r rq q wk' done_ (p' := after_worker p l r rq q wk' done_) :
  workers p = l ++ wk :: r -> worker_ok p wk -> worker_step p wk = Some (rq, q, wk', done_) ->
  (forall id j, reqs (requests p) !! id = Some j -> is_Some (issued p !! id) /\ status_ok p id (status j)) ->
  forall id j, reqs rq !! id = Some j -> is_Some (issued p !! id) /\ status_ok p' id (status j).
Proof.
  intros Ew Hw Es Hj id j Hid. destruct (worker_counts p l wk r rq q wk' done_ id Ew) as (a & b & c & d & Hc). fold p' in Hc.
  assert (Hkeep : reqs (requests p) !! id = Some j -> (status j = Cancelled \/ (times id (waiting p) <= times id (waiting p') /\
     times id (ran p) <= times id (ran p') /\ times id (working p) + times id (finishing p) <= times id (working p') + times id (finishing p'))%nat) ->
     is_Some (issued p !! id) /\ status_ok p' id (status j)).
  { intros Hid0 Hle. destruct (Hj id j Hid0) as [Hi Hs]. split; [done|]. destruct Hle as [->|(? & ? & ?)]; [done|]. by eapply status_ok_mono. }
  destruct wk as [|w|w|w|i st]; cbn [worker_step] in Es; [destruct (queue p) as [|w q0] eqn:Eq; [done|]|..]; injection Es as <- <- <- <-; places Hc.
  - apply Hkeep; [done|right; lia].
  - destruct (received_spec (requests p) w) as (gone & Eg & Hg). rewrite Eg in Hc. apply Hkeep; [done|]. destruct gone; places Hc; [|right; lia].
    destruct (decide (id = item_id w)) as [->|]; [left; by apply Hg|right; lia].
  - apply set_status_lookup in Hid as [(-> & [j0 Hj0] & ->)|[Hne Hid]].
    + rewrite decide_True in Hc by done. split; [by apply (Hj _ _ Hj0)|]. left. apply times_elem. lia.
    + rewrite decide_False in Hc by done. apply Hkeep; [done|right; lia].
  - apply Hkeep; [done|right; lia].
  - apply set_status_lookup in Hid as [(-> & [j0 Hj0] & ->)|[Hne Hid]].
    + split; [by apply (Hj _ _ Hj0)|]. destruct Hw as [Hin (w & Hw & ->)]. destruct w; cbn; (split; [done|]); by eexists.
    + rewrite decide_False in Hc by done. apply Hkeep; [done|right; lia].
Qed.
Lemma worker_step_ok p l wk r rq q wk' done_ : pool_ok p -> workers p = l ++ wk :: r -> worker_step p wk = Some (rq, q, wk', done_) ->
  pool_ok (after_worker p l r rq q wk' done_).
Proof.
  intros [Honce Hran Hiss Hq Hwk Ht Hj] Ew Es. pose proof Hwk as Hwk'. rewrite Ew, list.Forall_app, list.Forall_cons in Hwk'. destruct Hwk' as (Hl & Hw & Hr).
  pose proof (worker_step_times p l wk r rq q wk' done_ Ew Es) as Hx. destruct (worker_step_items p l wk r rq q wk' done_ Hq Hw Es) as [Hq' Hw'].
  split; try done.
  - intros x. destruct (Hx x) as (? & _ & _). specialize (Honce x). lia.
  - intros x. destruct (Hx x) as (_ & ? & _). specialize (Hran x). lia.
  - intros x Hn. destruct (Hx x) as (_ & _ & ?). specialize (Hiss x Hn). lia.
  - cbn [workers after_worker]. rewrite list.Forall_app, list.Forall_cons.
    split; [|split; [done|]]; (eapply list.Forall_impl; [eassumption|]; intros wk0 H0; eapply worker_ok_mono; [done|done|]; intros x Hin; apply elem_of_app; by right).
  - by apply (worker_step_jobs p l wk r rq q wk' done_ Ew).
Qed.

(** *** Steps of a client, and the others *)
Lemma task_counts p l t r rq q ts iss x (p' := after_task p l r rq q ts iss) : tasks p = l ++ t :: r ->
  exists a b, (times x (waiting p) = times x (reg_ids t) + a + times x (map item_id (queue p)) + b /\
    times x (waiting p') = times x (concat (map reg_ids ts)) + a + times x (map item_id q) + b)%nat.
Proof.
  intros Et. exists (times x (concat (map reg_ids (l ++ r)))), (times x (concat (map wait_ids (workers p)))).
  unfold p', waiting. cbn [after_task tasks queue workers]. rewrite Et, !times_app, !times_concat, !times_concat_app. split; lia.
Qed.
Lemma item_ok_mono p p' w : (forall i v, issued p !! i = Some v -> issued p' !! i = Some v) -> item_ok p w -> item_ok p' w.
Proof. unfold item_ok. auto. Qed.
Lemma task_step_ok p l t r id rq q ts iss : pool_ok p -> tasks p = l ++ t :: r -> issued p !! id = None -> task_step p t id = (rq, q, ts, iss) ->
  pool_ok (after_task p l r rq q ts iss).
Proof.
  intros [Honce Hran Hiss Hq Hwk Ht Hj] Et Hid Es. set (p' := after_task p l r rq q ts iss).
  assert (Hi : forall i v, issued p !! i = Some v -> iss !! i = Some v).
  { destruct t; injection Es as <- <- <- <-; try done. intros i v Hv. rewrite lookup_insert_ne; [done|]. intros ->. by rewrite Hid in Hv. }
  assert (Hw : forall x, (times x (waiting p') = times x (waiting p) + if decide (x = id) then times x (concat (map reg_ids ts)) else 0)%nat).
  { intros x. destruct (task_counts p l t r rq q ts iss x Et) as (a & b & Hc). fold p' in Hc.
    destruct t; injection Es as <- <- <- <-; rewrite ?map_app, ?times_app in Hc; cbn in Hc |- *; try (destruct (decide (x = id)); lia). }
  assert (Hreg : (times id (concat (map reg_ids ts)) <= 1)%nat /\ (iss !! id = None -> times id (concat (map reg_ids ts)) = 0%nat)).
  { destruct t; injection Es as <- <- <- <-; cbn; [|lia..]. rewrite decide_True, lookup_insert, decide_True by done. split; [lia|done]. }
  rewrite Et, list.Forall_app, list.Forall_cons in Ht. destruct Ht as (Htl & Ht & Htr).
  assert (Htm : forall t0, task_ok p t0 -> task_ok p' t0) by (intros []; cbn; eauto using item_ok_mono).
  assert (Hzero : forall x, x = id -> (times x (waiting p) + times x (working p) + times x (finishing p) + times x (ran p) = 0)%nat) by (intros x ->; auto).
  split.
  - intros x. change (working p') with (working p). change (finishing p') with (finishing p). rewrite Hw. specialize (Honce x).
    destruct (decide (x = id)) as [->|]; [specialize (Hzero id eq_refl)|]; lia.
  - intros x. change (working p') with (working p). change (ran p') with (ran p). rewrite Hw. specialize (Hran x).
    destruct (decide (x = id)) as [->|]; [specialize (Hzero id eq_refl)|]; lia.
  - intros x Hx. change (working p') with (working p). change (finishing p') with (finishing p). change (ran p') with (ran p). rewrite Hw.
    destruct (decide (x = id)) as [->|]; [specialize (Hzero id eq_refl); destruct Hreg as [_ Hreg]; specialize (Hreg Hx); lia|].
    assert (issued p !! x = None) as Hn by (destruct (issued p !! x) eqn:E; [|done]; cbn in Hx; by rewrite (Hi _ _ E) in Hx). specialize (Hiss x Hn). lia.
  - cbn [queue p' after_task]. destruct t; injection Es as <- <- <- <-; rewrite ?list.Forall_app, ?list.Forall_singleton;
      try (split; [|by apply (Htm (Registered w))]); (eapply list.Forall_impl; [exact Hq|]; intros ?; by apply item_ok_mono).
  - eapply list.Forall_impl; [exact Hwk|]. intros [] H0; cbn in *; eauto using item_ok_mono. destruct H0 as [? (w & Hww & ->)]. eauto.
  - cbn [tasks p' after_task]. rewrite !list.Forall_app. split; [eapply list.Forall_impl; eauto|]. split; [|eapply list.Forall_impl; eauto].
    destruct t; injection Es as <- <- <- <-; rewrite ?list.Forall_singleton; try constructor; cbn; [|done..]. unfold item_ok. cbn. by rewrite lookup_insert, decide_True.
  - assert (Hkeep : forall i j, reqs (requests p) !! i = Some j -> is_Some (issued p' !! i) /\ status_ok p' i (status j)).
    { intros i j Hij. destruct (Hj i j Hij) as [[v Hv] Hs]. split; [eauto|]. eapply status_ok_mono; [exact Hs|eauto|rewrite Hw; lia|done|done]. }
    intros i j. destruct t; injection Es as <- <- <- <-; cbn [requests p' after_task]; try apply Hkeep.
    + cbn. intros [[<- <-]|[Hne Hij]]%lookup_insert_Some; [|by apply Hkeep]. rewrite lookup_insert, decide_True by done. split; [done|].
      cbn. apply times_elem. rewrite Hw, decide_True by done. cbn. rewrite decide_True by done. lia.
    + intros [(-> & [j0 Hj0] & ->)|[Hne Hij]]%set_status_lookup; [|by apply Hkeep]. split; [by apply (Hkeep _ _ Hj0)|done].
Qed.
Lemma add_task_ok p t : pool_ok p -> reg_ids t = [] -> pool_ok (add_task p t).
Proof.
  intros [Honce Hran Hiss Hq Hwk Ht Hj] Hr.
  assert (Hw : waiting (add_task p t) = waiting p).
  { unfold waiting. cbn. rewrite map_app, concat_app. cbn. by rewrite Hr, !app_nil_r. }
  assert (Hs : forall i st, status_ok p i st -> status_ok (add_task p t) i st) by (intros i []; cbn [status_ok]; rewrite ?Hw; done).
  split; rewrite ?Hw; try done.
  - cbn. rewrite list.Forall_app, list.Forall_singleton. split; [done|]. by destruct t.
  - intros i j Hij. destruct (Hj i j Hij). split; [done|]. by apply Hs.
Qed.
Lemma pool_step_ok p p' : pool_ok p -> pool_step p p' -> pool_ok p'.
Proof.
  intros Hok Hs. destruct Hs as [p p' [? ? ? ? ? ? ? ? ? ?|]|p w t Hb|p id t Hb|p|p t|p r rq st Hb].
  - by eapply worker_step_ok.
  - by eapply task_step_ok.
  - apply add_task_ok; [done|]. unfold submit_begin in Hb. destruct (is_full _); by simplify_eq.
  - apply add_task_ok; [done|]. unfold cancel_begin in Hb. destruct (get _ id) as [j|]; [destruct (status j)|]; by simplify_eq.
  - destruct Hok as [? ? ? ? ? ? Hj]. split; try done. intros i j [Hij _]%map_lookup_filter_Some. by apply (Hj i j).
  - by destruct Hok.
  - destruct Hok as [? ? ? ? ? ? Hj]. split; try done. intros i j (j0 & Hij & ->)%(recv_lookup _ _ _ _ _ _ Hb). by apply (Hj i j0).
Qed.
Lemma pool_reachable_ok n c ttl p : pool_reachable n c ttl p -> pool_ok p.
Proof.
  unfold pool_reachable. pose proof (pool_new_ok n c ttl) as Hok. intros Hr. induction Hr; [done|]. eauto using pool_step_ok.
Qed.

(** ** Results are those of the work, which runs once *)
(** C29: in every reachable state of the pool, whatever the interleaving of
    clients, workers and the collector: no work was run twice; a job that polls
    as successful (failed) was run and its closure returned that result (that
    error, or it panicked and the error is the join error); a pending job is
    still on its way from its client through the channel to a worker, and a
    processing one is in the hands of a worker, so no accepted job is lost. *)
Theorem pool_runs_once n c ttl p : pool_reachable n c ttl p ->
  NoDup (ran p) /\
  forall id st, poll p id = Some st ->
    match st with
    | Success res => id ∈ ran p /\ issued p !! id = Some (Ok res)
    | JobError e => id ∈ ran p /\ (issued p !! id = Some (Err e) \/ issued p !! id = Some Panic /\ e = JoinError)
    | Pending => id ∈ waiting p
    | Processing => id ∈ working p \/ id ∈ finishing p
    | Cancelled => is_Some (issued p !! id)
    end.
Proof.
  intros [_ Hran _ _ _ _ Hj]%pool_reachable_ok. split; [apply times_nodup; intros x; specialize (Hran x); lia|].
  intros id st Hp. unfold poll in Hp. destruct (get (requests p) id) as [j|] eqn:E; [|done]. cbn in Hp. destruct (timeout j <? now p); [done|].
  injection Hp as <-. destruct (Hj id j E) as [Hi Hs]. destruct (status j); cbn in Hs; try done;
    destruct Hs as [? (w & Hw & Ew)]; destruct w; try done; injection Ew as <-; auto.
Qed.

(** ** A job cancelled in the queue *)
(** No place of [id] leads to its work. *)
Definition accepted_ids (wk : Worker) : list Uuid := match wk with Accepted w => [item_id w] | _ => [] end.
Record dead (id : Uuid) (p : Pool) : Prop := {
  dead_issued : is_Some (issued p !! id);
  dead_job j : reqs (requests p) !! id = Some j -> status j = Cancelled;
  dead_ran : id ∉ ran p;
  dead_workers : Forall (fun wk => (id ∉ accepted_ids wk) /\ (id ∉ work_ids wk) /\ (id ∉ done_ids wk)) (workers p) }.
Lemma dead_worker id p l wk r rq q wk' done_ : dead id p -> workers p = l ++ wk :: r -> worker_step p wk = Some (rq, q, wk', done_) ->
  dead id (after_worker p l r rq q wk' done_).
Proof.
  intros [Hi Hj Hr Hw] Ew Es. rewrite Ew, list.Forall_app, list.Forall_cons in Hw. destruct Hw as (Hl & (Ha & Hk & Hd) & Hrr).
  assert (Hset : forall i st j, i <> id -> reqs (set_status (requests p) i st) !! id = Some j -> status j = Cancelled).
  { intros i st j Hne [(-> & _ & _)|[_ Hij]]%set_status_lookup; [done|eauto]. }
  destruct wk as [|w|w|w|i st]; cbn [worker_step] in Es; [destruct (queue p) as [|w q0]; [done|]|..]; injection Es as <- <- <- <-;
    cbn [accepted_ids work_ids done_ids] in *; rewrite ?list_elem_of_singleton in *;
    (split; [done| |cbn; rewrite ?elem_of_cons; naive_solver|cbn [after_worker workers]; rewrite list.Forall_app, list.Forall_cons; split; [done|split; [|done]]]);
    try done; try (intros j; apply Hset; congruence); cbn [accepted_ids work_ids done_ids]; rewrite ?list_elem_of_singleton;
    try (split_and!; try done; apply not_elem_of_nil).
  destruct (received_spec (requests p) w) as (gone & -> & Hg). destruct gone; cbn [accepted_ids work_ids done_ids]; split_and!; try apply not_elem_of_nil.
  rewrite list_elem_of_singleton. intros ->. by apply Hg in Hj.
Qed.
Lemma dead_task id p l t r i rq q ts iss : dead id p -> issued p !! i = None -> task_step p t i = (rq, q, ts, iss) -> dead id (after_task p l r rq q ts iss).
Proof.
  intros [[v Hi] Hj Hr Hw] Hfresh Es. assert (i <> id) as Hne by (intros ->; by rewrite Hfresh in Hi).
  destruct t as [w|w|i']; injection Es as <- <- <- <-; split; try done; cbn; rewrite ?lookup_insert_ne by done; try done.
  intros j [(-> & _ & ->)|[_ Hij]]%set_status_lookup; [done|eauto].
Qed.
Lemma dead_step id p p' : dead id p -> pool_step p p' -> dead id p'.
Proof.
  intros Hd Hs. destruct Hs as [p p' []|p w t Hb|p i t Hb|p|p t|p r rq st Hb]; [by eapply dead_worker|by eapply dead_task|by destruct Hd..| |by destruct Hd|].
  - destruct Hd as [? Hj ? ?]. split; try done. intros j [Hij _]%map_lookup_filter_Some. by apply Hj.
  - destruct Hd as [? Hj ? ?]. split; try done. intros j (j0 & Hij & ->)%(recv_lookup _ _ _ _ _ _ Hb). by apply Hj.
Qed.

(** C31: a job whose cancellation is recorded while its work is still in the
    channel is never run, and never reported as anything but cancelled,
    whatever happens afterwards. *)
Theorem cancelled_job_never_runs n c ttl p id j p' : pool_reachable n c ttl p -> WorkerPool.get (requests p) id = Some j -> status j = Cancelled ->
  id ∈ map item_id (queue p) -> rtc pool_step p p' ->
  (id ∉ ran p') /\ forall st, poll p' id = Some st -> st = Cancelled.
Proof.
  intros Hok%pool_reachable_ok Hg Hc Hq Hrun. assert (dead id p) as Hd.
  { destruct Hok as [Honce Hran _ _ _ _ Hj]. specialize (Honce id). specialize (Hran id). destruct (Hj id j Hg) as [Hi _].
    apply times_elem in Hq. unfold waiting, working, finishing in *. rewrite !times_app in *.
    split; [done| |rewrite times_elem; lia|].
    - intros j' Hj'. unfold WorkerPool.get in Hg. congruence.
    - rewrite list.Forall_forall. intros wk (l & r & Ew)%list_elem_of_split. rewrite Ew, !times_concat in *. rewrite !times_elem.
      destruct wk; cbn in *; lia. }
  assert (dead id p') as [_ Hj Hr _] by (clear -Hd Hrun; induction Hrun; eauto using dead_step). split; [done|].
  intros st. unfold poll, WorkerPool.get. destruct (reqs (requests p') !! id) as [j'|] eqn:E; [|done]. cbn. destruct (timeout j' <? now p'); [done|].
  intros [= <-]. by apply Hj.
Qed.

(** ** The pool drains *)
Definition task_work (t : Task) : nat := match t with Cleared _ => 7 | Registered _ => 6 | Cancelling _ => 1 end.
Definition worker_work (wk : Worker) : nat :=
  match wk with Idle => 0 | Received _ => 4 | Accepted _ => 3 | Working _ => 2 | Finished _ _ => 1 end.
(** The steps that the accepted requests still need. *)
Definition work_left (p : Pool) : nat := (sum_list_with task_work (tasks p) + 5 * length (queue p) + sum_list_with worker_work (workers p))%nat.
Lemma internal_step_work p p' : internal_step p p' -> (work_left p' < work_left p)%nat /\ length (workers p') = length (workers p).
Proof.
  intros [p0 l wk r rq q wk' done_ Ew Es|p0 l t r id rq q ts iss Et _ Es]; unfold work_left.
  - rewrite Ew. cbn [after_worker tasks queue workers]. rewrite !sum_list_with_app, !length_app. cbn [length sum_list_with]. split; [|lia].
    destruct wk as [|w|w|w|i st]; cbn [worker_step] in Es; [destruct (queue p0) as [|w q0]; [done|]|..]; injection Es as <- <- <- <-; cbn; try lia.
    destruct (received_spec (requests p0) w) as (gone & -> & _). destruct gone; cbn; lia.
  - rewrite Et. cbn [after_task tasks queue workers]. rewrite !sum_list_with_app. split; [|done].
    destruct t; injection Es as <- <- <- <-; rewrite ?length_app; cbn; lia.
Qed.
Lemma internal_progress p : (0 < length (workers p))%nat -> (0 < work_left p)%nat -> exists p', internal_step p p'.
Proof.
  intros Hw Hl. destruct (tasks p) as [|t ts] eqn:Et.
  2: { set (id := fresh (dom (issued p))). destruct (task_step p t id) as [[[rq q] ts'] iss] eqn:Es. eexists. eapply (step_task p [] t ts id); [done| |done].
       apply not_elem_of_dom, is_fresh. }
  destruct (decide (Forall (fun wk => worker_work wk = 0%nat) (workers p))) as [Hi|Hi].
  - destruct (workers p) as [|wk wks] eqn:Ew; [cbn in Hw; lia|]. destruct (queue p) as [|w q] eqn:Eq.
    + exfalso. unfold work_left in Hl. rewrite Et, Eq, Ew in Hl. cbn [sum_list_with length] in Hl.
      assert (sum_list_with worker_work (wk :: wks) = 0%nat) as E by (clear -Hi; induction Hi as [|? ? E ? IH]; [done|]; cbn; by rewrite E, IH). cbn in E, Hl. lia.
    + apply list.Forall_cons in Hi as [Hi _]. destruct wk; try done. eexists. eapply (step_worker p [] Idle wks); [done|]. cbn. by rewrite Eq.
  - apply not_Forall_Exists, list.Exists_exists in Hi as (wk & (l & r & Ew)%list_elem_of_split & Hne); [|intros ?; apply _].
    assert (is_Some (worker_step p wk)) as [[[[rq q] wk'] d] Es] by (destruct wk; cbn in *; done).
    eexists. by eapply (step_worker p l wk r).
Qed.
Definition settled (st : JobStatus) : bool := match st with Pending | Processing => false | _ => true end.
Definition drained (p : Pool) : Prop :=
  tasks p = [] /\ queue p = [] /\ Forall (eq Idle) (workers p) /\ forall id j, WorkerPool.get (requests p) id = Some j -> settled (status j) = true.
Lemma work_left_drained p : pool_ok p -> work_left p = 0%nat -> drained p.
Proof.
  intros [_ _ _ _ _ _ Hj] H0. unfold work_left in H0.
  assert (tasks p = []) as Et by (destruct (tasks p) as [|[] ?]; cbn in H0; [done|lia..]).
  assert (queue p = []) as Eq by (destruct (queue p); cbn in H0; [done|lia]).
  assert (Forall (eq Idle) (workers p)) as Hw.
  { assert (sum_list_with worker_work (workers p) = 0%nat) as H1 by lia. clear -H1. induction (workers p) as [|[] l IH]; cbn in H1; constructor; auto; lia. }
  split_and!; try done. intros id j Hg. destruct (Hj id j Hg) as [_ Hs].
  assert (forall f : Worker -> list Uuid, f Idle = [] -> concat (map f (workers p)) = []) as Hn.
  { intros f Hf. clear -Hw Hf. induction Hw as [|? ? <- ? IH]; [done|]. cbn. by rewrite Hf, IH. }
  unfold status_ok, waiting, working, finishing in Hs. rewrite Et, Eq, !Hn in Hs by done. cbn in Hs.
  destruct (status j); try done; [by apply not_elem_of_nil in Hs|]. destruct Hs as [Hs|Hs]; by apply not_elem_of_nil in Hs.
Qed.
Lemma reachable_workers n c ttl p : pool_reachable n c ttl p -> length (workers p) = n.
Proof.
  intros Hr. assert (length (workers (WorkerPool_new n c ttl)) = n) as H0 by apply length_replicate.
  unfold pool_reachable in Hr. revert H0. induction Hr as [|p q r Hs _ IH]; [done|]. intros H0. apply IH. rewrite <- H0.
  destruct Hs as [p p' Hi| | | | |]; try done. by apply internal_step_work.
Qed.
Lemma internal_ok p p' : pool_ok p -> rtc internal_step p p' -> pool_ok p' /\ length (workers p') = length (workers p).
Proof.
  intros Hok Hr. induction Hr as [|p q r Hs _ IH]; [done|]. destruct IH as [? ?]; [eapply pool_step_ok; [done|by constructor]|].
  split; [done|]. apply internal_step_work in Hs. lia.
Qed.
Lemma internal_terminates m : forall p, (work_left p <= m)%nat -> (0 < length (workers p))%nat -> exists p', rtc internal_step p p' /\ work_left p' = 0%nat.
Proof.
  induction m as [|m IH]; intros p Hm Hw; [exists p; split; [done|lia]|].
  destruct (decide (work_left p = 0%nat)) as [|Hne]; [by exists p|]. destruct (internal_progress p Hw) as [p' Hs]; [lia|].
  destruct (internal_step_work p p' Hs) as [Hlt Hl]. destruct (IH p') as (p'' & Hr & H0); [lia..|]. exists p''. split; [by eapply rtc_l|done].
Qed.
Lemma internal_run_bounded k : forall p p', nsteps internal_step k p p' -> (k + work_left p' <= work_left p)%nat.
Proof.
  induction k as [|k IH]; intros p p' Hn; inversion Hn as [|? ? q ? Hs Hn']; subst; [done|]. apply IH in Hn'. apply internal_step_work in Hs. lia.
Qed.

(** C30: a pool with at least one worker finishes what it accepted.  From any
    reachable state, without new requests, every run of its workers and of the
    clients inside a call takes at most [work_left] steps; it cannot stop
    earlier than when nothing is left to do; and then every channel is empty,
    every worker idle and every job of the table is cancelled, failed or
    successful. *)
Theorem pool_drains n c ttl p : (0 < n)%nat -> pool_reachable n c ttl p ->
  (exists p', rtc internal_step p p' /\ drained p') /\
  (forall k p', nsteps internal_step k p p' -> (k <= work_left p)%nat) /\
  (forall p', rtc internal_step p p' -> (forall p'', ~ internal_step p' p'') -> drained p').
Proof.
  intros Hn Hr. pose proof (pool_reachable_ok _ _ _ _ Hr) as Hok. pose proof (reachable_workers _ _ _ _ Hr) as Hw.
  split_and!.
  - destruct (internal_terminates (work_left p) p) as (p' & Hrun & H0); [lia..|]. exists p'. split; [done|].
    apply work_left_drained; [|done]. by eapply internal_ok.
  - intros k p' Hk. apply internal_run_bounded in Hk. lia.
  - intros p' Hrun Hstop. destruct (internal_ok p p' Hok Hrun) as [Hok' Hw']. apply work_left_drained; [done|].
    destruct (decide (work_left p' = 0%nat)); [done|]. exfalso. destruct (internal_progress p') as [p'' Hs]; [lia..|]. by apply (Hstop p'').
Qed.

(** ** Schedules *)
(** An executable scheduler, to exhibit states that are reached. *)
Inductive Event := Submit (w : Work) | Cancel (id : Uuid) | RunWorker (k : nat) | RunTask (k : nat) (id : Uuid) | Collect | Tick (t : Z) | Receive (r : Receiver).
Definition perform (p : Pool) (e : Event) : option Pool :=
  match e with
  | Submit w => match submit_begin p w with Ok t => Some (add_task p t) | _ => None end
  | Cancel id => match cancel_begin p id with Ok t => Some (add_task p t) | _ => None end
  | RunWorker k =>
      wk ← workers p !! k; '(rq, q, wk', d) ← worker_step p wk;
      Some (after_worker p (take k (workers p)) (drop (S k) (workers p)) rq q wk' d)
  | RunTask k id =>
      t ← tasks p !! k;
      if decide (issued p !! id = None)
      then let '(rq, q, ts, iss) := task_step p t id in Some (after_task p (take k (tasks p)) (drop (S k) (tasks p)) rq q ts iss)
      else None
  | Collect => Some {| requests := pool_gc (requests p) (now p); queue := queue p; workers := workers p; tasks := tasks p;
                       now := now p; issued := issued p; ran := ran p |}
  | Tick t => Some {| requests := requests p; queue := queue p; workers := workers p; tasks := tasks p; now := t; issued := issued p; ran := ran p |}
  | Receive r =>
      '(rq, _) ← recv (requests p) r;
      Some {| requests := rq; queue := queue p; workers := workers p; tasks := tasks p; now := now p; issued := issued p; ran := ran p |}
  end.
Definition schedule (p : Pool) (es : list Event) : option Pool := foldl (fun r e => p ← r; perform p e) (Some p) es.
Lemma perform_step p e p' : perform p e = Some p' -> pool_step p p'.
Proof.
  destruct e; cbn; intros Hp.
  - destruct (submit_begin p w) eqn:E; simplify_eq. by econstructor.
  - destruct (cancel_begin p id) eqn:E; simplify_eq. by econstructor.
  - destruct (workers p !! k) as [wk|] eqn:Ek; [|done]. cbn in Hp. destruct (worker_step p wk) as [[[[rq q] wk'] d]|] eqn:Es; [|done]. cbn in Hp. simplify_eq.
    constructor. eapply step_worker; [|done]. symmetry. by apply take_drop_middle.
  - destruct (tasks p !! k) as [t|] eqn:Ek; [|done]. cbn in Hp. case_decide; [|done]. destruct (task_step p t id) as [[[rq q] ts] iss] eqn:Es. simplify_eq.
    constructor. eapply step_task; [|done|done]. symmetry. by apply take_drop_middle.
  - simplify_eq. apply step_gc.
  - simplify_eq. apply step_time.
  - destruct (recv _ r) as [[rq st]|] eqn:E; [|done]. cbn in Hp. simplify_eq. by eapply step_recv.
Qed.
Lemma schedule_run es : forall p p', schedule p es = Some p' -> rtc pool_step p p'.
Proof.
  unfold schedule. induction es as [|e es IH]; cbn; intros p p' Hs; [by simplify_eq|]. destruct (perform p e) as [q|] eqn:E.
  - eapply rtc_l; [by eapply perform_step|]. by apply IH.
  - exfalso. revert Hs. clear. induction es; cbn; [done|]. done.
Qed.

(** Two workers, room for one pending job, ten seconds to live. *)
Definition pool0 : Pool := WorkerPool_new 2 1 10000000000.
Definition submit_job (id : Uuid) (w : Work) : list Event := [Submit w; RunTask 0 id; RunTask 0 99].
Definition scheduled (es : list Event) : Pool := default pool0 (schedule pool0 es).
Lemma scheduled_reachable es : is_Some (schedule pool0 es) -> pool_reachable 2 1 10000000000 (scheduled es).
Proof. intros [p Hp]. unfold scheduled. rewrite Hp. by apply schedule_run in Hp. Qed.
Definition busy_schedule : list Event :=
  submit_job 1 (Ok [7]) ++ [RunWorker 0; RunWorker 0; RunWorker 0] ++ submit_job 2 (Err (BadInput "x")) ++ [RunWorker 0; Cancel 2; RunTask 0 99; RunWorker 0].
Lemma busy_ran : is_Some (schedule pool0 busy_schedule).
Proof. vm_compute. by eexists. Qed.

Lemma pool_runs_once_witness : exists p, pool_reachable 2 1 10000000000 p /\ poll p 1 = Some (Success [7]) /\ ran p = [1%N] /\ NoDup (ran p) /\ issued p !! 1%N = Some (Ok [7]).
Proof.
  exists (scheduled busy_schedule). pose proof (scheduled_reachable _ busy_ran) as Hr.
  assert (poll (scheduled busy_schedule) 1 = Some (Success [7])) as Hp by (vm_compute; reflexivity).
  destruct (pool_runs_once _ _ _ _ Hr) as [Hn Hall]. split; [exact Hr|]. split; [exact Hp|]. split; [vm_compute; reflexivity|]. split; [exact Hn|]. exact (proj2 (Hall 1%N _ Hp)).
Defined.
Lemma cancelled_job_never_runs_witness : exists p p', pool_reachable 2 1 10000000000 p /\ rtc pool_step p p' /\ queue p' = [] /\ (2%N ∉ ran p').
Proof.
  set (es := [RunWorker 1; RunWorker 1]). set (p' := default pool0 (schedule (scheduled busy_schedule) es)).
  assert (rtc pool_step (scheduled busy_schedule) p') as Hrun by (apply (schedule_run es); vm_compute; reflexivity).
  exists (scheduled busy_schedule), p'. pose proof (scheduled_reachable _ busy_ran) as Hr. split; [exact Hr|]. split; [exact Hrun|]. split; [vm_compute; reflexivity|].
  refine (proj1 (cancelled_job_never_runs _ _ _ _ 2%N {| status := Cancelled; updates := [Cancelled]; timeout := 10000000000 |} _ Hr _ eq_refl _ Hrun)).
  - vm_compute; reflexivity.
  - apply times_elem. vm_compute. lia.
Defined.
Lemma pool_drains_witness : exists p, pool_reachable 2 1 10000000000 p /\ work_left p = 5%nat /\ exists p', rtc internal_step p p' /\ drained p'.
Proof.
  exists (scheduled busy_schedule). pose proof (scheduled_reachable _ busy_ran) as Hr. split; [exact Hr|]. split; [vm_compute; reflexivity|].
  refine (proj1 (pool_drains 2 _ _ _ _ Hr)). lia.
Defined.

(** ** Races *)
(** The capacity check and the insertion are two acquisitions of the lock: two
    submissions that interleave leave two pending jobs in a pool of capacity 1. *)
Lemma capacity_exceeded : exists p, pool_reachable 2 1 10000000000 p /\ capacity (requests p) = 1%nat /\ pending_count (requests p) = 2%nat.
Proof.
  exists (scheduled [Submit (Ok [1]); Submit (Ok [2]); RunTask 0 1; RunTask 1 2]).
  split; [apply scheduled_reachable; vm_compute; by eexists|]. by vm_compute.
Qed.
(** So are the check and the update of a cancellation: a job that was pending at
    the check can be run and succeed before it is marked as cancelled.  The
    caller of [cancel] is told that the job was cancelled, a subscriber gets
    its result, and polling says that it was cancelled. *)
Lemma cancel_overwrites_success : exists p j, pool_reachable 2 1 10000000000 p /\ WorkerPool.get (requests p) 1 = Some j /\ status j = Cancelled /\
  (1%N ∈ ran p) /\ updates j = [Processing; Success [7]; Cancelled] /\ wait_for_success (updates j) = Ok [7] /\ poll p 1 = Some Cancelled.
Proof.
  exists (scheduled (submit_job 1 (Ok [7]) ++ [Cancel 1; RunWorker 0; RunWorker 0; RunWorker 0; RunWorker 0; RunWorker 0; RunTask 0 99])).
  exists {| status := Cancelled; updates := [Processing; Success [7]; Cancelled]; timeout := 10000000000 |}.
  split; [apply scheduled_reachable; vm_compute; by eexists|]. split_and!; try (by vm_compute). apply times_elem. vm_compute. lia.
Qed.
