(* ===== verification/Merge.v ===== *)
(** * Merging transactions ([zswap/src/structure.rs], [ledger/src/structure.rs])

    Two transactions are merged by joining their intents, merging the Zswap
    offers of each segment and adding up the binding randomness.  Merging offers
    joins their coins as ordered sets and normalizes the deltas. *)
From S2P Require Import Prelude Time CostModel Fab FabSerial MerkleTree TimeFilterMap Zswap StateValue VmOps.
From S2P Require Import Coin DeltaTracking Runtime LedgerData LedgerCost Dust Ledger VerifyData.
Set Warnings "-register-all".

(** ** Ordered collections of the standard library *)
Section ordered.
Context {A : Type} (cmp : A -> A -> comparison).
(** [BTreeSet::insert]: an element that is present stays. *)
Fixpoint btree_insert (x : A) (s : list A) : list A :=
  match s with
  | [] => [x]
  | y :: s => match cmp x y with Lt => x :: y :: s | Eq => y :: s | Gt => y :: btree_insert x s end
  end.
Definition btree_set (l : list A) : list A := foldl (fun s x => btree_insert x s) [] l.
Definition btree_contains (s : list A) (x : A) : bool := existsb (fun y => match cmp x y with Eq => true | _ => false end) s.
Definition btree_disjoint (s t : list A) : bool := forallb (fun x => negb (btree_contains t x)) s.
(** [Itertools::sorted], a stable sort. *)
Fixpoint sort_insert (x : A) (l : list A) : list A :=
  match l with
  | [] => [x]
  | y :: l => match cmp x y with Gt => y :: sort_insert x l | _ => x :: y :: l end
  end.
Definition sorted (l : list A) : list A := foldr sort_insert [] l.
End ordered.

(** ** Deltas *)
Definition saturating_add_i128 (a b : Z) : Z := Z.max i128_min (Z.min i128_max (a + b)).
Abbreviation TokenDelta := (HashOutput * Z)%type.
(** [map.entry(k).or_insert(0)] and the addition to it, in a [BTreeMap]. *)
Fixpoint entry_add (map : list TokenDelta) (kv : TokenDelta) : list TokenDelta :=
  match map with
  | [] => [(kv.1, saturating_add_i128 0 kv.2)]
  | (k, v) :: map =>
      match bytes_compare kv.1 k with
      | Lt => (kv.1, saturating_add_i128 0 kv.2) :: (k, v) :: map
      | Eq => (k, saturating_add_i128 v kv.2) :: map
      | Gt => (k, v) :: entry_add map kv
      end
  end.
Definition delta_pair_compare (a b : TokenDelta) : comparison := then_cmp (bytes_compare a.1 b.1) (a.2 ?= b.2).
Definition normalize_deltas (deltas : list TokenDelta) : list TokenDelta :=
  sorted delta_pair_compare (filter (fun kv => kv.2 <> 0) (foldl entry_add [] deltas)).

(** The order of the field of binding randomness ([EmbeddedFr]). *)
Class EmbeddedField := { embedded_fr_modulus : Z }.
Section merge.
Context `{ProofSystem} `{EmbeddedField}.

Definition delta_pair (d : @ZswapDelta ShieldedTokenType) : TokenDelta := (delta_token_type d, delta_value d).
Definition pair_delta (kv : TokenDelta) : @ZswapDelta ShieldedTokenType := {| delta_token_type := kv.1; delta_value := kv.2 |}.
Definition offer_normalize (self : SealedOffer) : SealedOffer := {|
  offer_inputs := sorted zswap_input_compare (offer_inputs self);
  offer_outputs := sorted zswap_output_compare (offer_outputs self);
  offer_transient := sorted zswap_transient_compare (offer_transient self);
  offer_deltas := pair_delta <$> normalize_deltas (delta_pair <$> offer_deltas self) |}.
Definition offer_merge (self other : SealedOffer) : outcome MalformedOffer SealedOffer :=
  let inputs1 := btree_set zswap_input_compare (offer_inputs self) in
  let inputs2 := btree_set zswap_input_compare (offer_inputs other) in
  let outputs1 := btree_set zswap_output_compare (offer_outputs self) in
  let outputs2 := btree_set zswap_output_compare (offer_outputs other) in
  let transient1 := btree_set zswap_transient_compare (offer_transient self) in
  let transient2 := btree_set zswap_transient_compare (offer_transient other) in
  if btree_disjoint zswap_input_compare inputs1 inputs2 && btree_disjoint zswap_output_compare outputs1 outputs2
     && btree_disjoint zswap_transient_compare transient1 transient2
  then Ok (offer_normalize {| offer_inputs := inputs1 ++ inputs2; offer_outputs := outputs1 ++ outputs2;
                        offer_transient := transient1 ++ transient2; offer_deltas := offer_deltas self ++ offer_deltas other |})
  else Err NonDisjointCoinMerge.

(** ** Transactions

    The maps are visited by increasing segment; only the segment that a
    collision names depends on the order. *)
Definition insert_intent (acc : gmap Segment SealedIntent) (kv : Segment * SealedIntent)
    : outcome MalformedTransaction (gmap Segment SealedIntent) :=
  match acc !! kv.1 with
  | Some _ => Err (IntentSegmentIdCollision kv.1)
  | None => Ok (<[kv.1 := kv.2]> acc)
  end.
Definition merge_coins (self other : option SealedOffer) : outcome MalformedTransaction (option SealedOffer) :=
  match self, other with
  | Some gc1, Some gc2 => gc ← map_err MT_Zswap (offer_merge gc1 gc2); Ok (Some gc)
  | Some gc, None | None, Some gc => Ok (Some gc)
  | None, None => Ok None
  end.
Definition insert_offer (result : gmap Segment SealedOffer) (kv : Segment * SealedOffer)
    : outcome MalformedTransaction (gmap Segment SealedOffer) :=
  match result !! kv.1 with
  | Some offer1 => offer ← map_err MT_Zswap (offer_merge offer1 kv.2); Ok (<[kv.1 := offer]> result)
  | None => Ok (<[kv.1 := kv.2]> result)
  end.
Definition standard_merge (stx1 stx2 : SealedStandard) : outcome MalformedTransaction SealedStandard :=
  if bool_decide (ss_network_id stx1 <> ss_network_id stx2)
  then Err (InvalidNetworkId (ss_network_id stx1) (ss_network_id stx2))
  else
    intents ← try_fold insert_intent ∅ (sorted_map (ss_intents stx1) ++ sorted_map (ss_intents stx2));
    guaranteed_coins ← merge_coins (ss_guaranteed_coins stx1) (ss_guaranteed_coins stx2);
    fallible_coins ← try_fold insert_offer (ss_fallible_coins stx1) (sorted_map (ss_fallible_coins stx2));
    Ok {| ss_network_id := ss_network_id stx1; ss_intents := intents; ss_guaranteed_coins := guaranteed_coins;
          ss_fallible_coins := fallible_coins;
          ss_binding_randomness := (ss_binding_randomness stx1 + ss_binding_randomness stx2) mod embedded_fr_modulus |}.
Definition transaction_merge (self other : SealedTransaction) : outcome MalformedTransaction SealedTransaction :=
  match self, other with
  | SealedStandardTx stx1, SealedStandardTx stx2 => stx ← standard_merge stx1 stx2; Ok (SealedStandardTx stx)
  | _, _ => Err CantMergeTypes
  end.
End merge.
