(* ===== verification/MergeProps.v ===== *)
(** * Merged transactions

    Merged offers are normalized and keep their proofs; balances and value
    commitments add up, so what each part could pay for the whole can. *)
From S2P Require Import Prelude Time CostModel Fab FabSerial MerkleTree TimeFilterMap Zswap StateValue VmOps.
From S2P Require Import Coin DeltaTracking Runtime LedgerData LedgerCost Dust Ledger VerifyData Balance EffectsCheck Sequencing WellFormed Merge.
From stdpp Require Import sorting.
Set Warnings "-register-all".
#[local] Open Scope Z_scope.

(** ** Orders *)
Class TotalOrder {A} (cmp : A -> A -> comparison) : Prop := {
  cmp_eq x y : cmp x y = Eq <-> x = y;
  cmp_opp x y : cmp y x = CompOpp (cmp x y);
  cmp_trans x y z : cmp x y = Lt -> cmp y z = Lt -> cmp x z = Lt }.
#[export] Instance Zcompare_order : TotalOrder Z.compare.
Proof.
  split; [apply Z.compare_eq_iff|intros x y; apply Z.compare_antisym|]. intros x y z. rewrite !Z.compare_lt_iff. lia.
Qed.
(** Lexicographic orders, through the tuple of what is compared. *)
Definition lex_compare {A B} (ca : A -> A -> comparison) (cb : B -> B -> comparison) (x y : A * B) : comparison :=
  then_cmp (ca x.1 y.1) (cb x.2 y.2).
#[export] Instance lex_order {A B} (ca : A -> A -> comparison) (cb : B -> B -> comparison) :
  TotalOrder ca -> TotalOrder cb -> TotalOrder (lex_compare ca cb).
Proof.
  intros Ha Hb. unfold lex_compare. split.
  - intros [a b] [a' b']. cbn. destruct (ca a a') eqn:E; cbn; [apply cmp_eq in E as ->; rewrite cmp_eq; split; congruence|..];
      (split; [done|]; intros [= -> ->]; rewrite (proj2 (cmp_eq a' a') eq_refl) in E; done).
  - intros [a b] [a' b']. cbn. rewrite (cmp_opp a a'). destruct (ca a a'); cbn; [apply cmp_opp|done..].
  - intros [a b] [a' b'] [a'' b'']. cbn. destruct (ca a a') eqn:E; cbn; try done.
    + apply cmp_eq in E as ->. destruct (ca a' a''); cbn; try done. apply cmp_trans.
    + intros _. destruct (ca a' a'') eqn:E'; cbn; try done; intros _; [apply cmp_eq in E' as <-; by rewrite E|]. by rewrite (cmp_trans _ _ _ E E').
Qed.
Lemma order_by_inj {A B} (f : A -> B) (cmp : B -> B -> comparison) (cmp' : A -> A -> comparison) : TotalOrder cmp -> Inj (=) (=) f ->
  (forall x y, cmp' x y = cmp (f x) (f y)) -> TotalOrder cmp'.
Proof.
  intros Ho Hf He. split.
  - intros x y. rewrite He, cmp_eq. split; [apply Hf|congruence].
  - intros x y. rewrite !He. apply cmp_opp.
  - intros x y z. rewrite !He. apply cmp_trans.
Qed.
#[export] Instance bytes_order : TotalOrder bytes_compare.
Proof.
  split.
  - induction x as [|a x IH]; intros [|b y]; cbn; [done..|]. destruct (Z.compare_spec a b) as [->|?|?]; cbn; [rewrite IH; split; congruence|..];
      (split; [done|]; intros [= -> ->]; lia).
  - induction x as [|a x IH]; intros [|b y]; cbn; [done..|]. rewrite (Z.compare_antisym a b). destruct (Z.compare a b); cbn; [apply IH|done..].
  - induction x as [|a x IH]; intros [|b y] [|c z]; cbn; try done.
    destruct (Z.compare_spec a b) as [->|?|?]; cbn; try done.
    + destruct (Z.compare_spec b c); cbn; try done. apply IH.
    + intros _. destruct (Z.compare_spec b c) as [->|?|?]; cbn; try done; intros _; by rewrite (proj2 (Z.compare_lt_iff a c)) by lia.
Qed.
#[export] Instance option_order {A} (cmp : A -> A -> comparison) : TotalOrder cmp -> TotalOrder (option_compare cmp).
Proof.
  intros Ho. split.
  - intros [x|] [y|]; cbn; [rewrite cmp_eq; split; congruence|done..].
  - intros [x|] [y|]; cbn; [apply cmp_opp|done..].
  - intros [x|] [y|] [z|]; cbn; try done. apply cmp_trans.
Qed.

Section ordered.
Context {A : Type} (cmp : A -> A -> comparison) `{!TotalOrder cmp}.
#[local] Set Default Proof Using "All".
Lemma cmp_refl x : cmp x x = Eq.
Proof. by apply cmp_eq. Qed.
Lemma cmp_gt x y : cmp x y = Gt -> cmp y x = Lt.
Proof. intros E. by rewrite cmp_opp, E. Qed.
Definition lt_all (x : A) (l : list A) : Prop := Forall (fun y => cmp x y = Lt) l.
Fixpoint strict (l : list A) : Prop := match l with [] => True | x :: l => lt_all x l /\ strict l end.
Lemma lt_all_trans x y l : cmp x y = Lt -> lt_all y l -> lt_all x l.
Proof. intros Hxy Hl. eapply list.Forall_impl; [exact Hl|]. intros z. by apply cmp_trans. Qed.

Lemma btree_insert_elem x s y : strict s -> y ∈ btree_insert cmp x s <-> y = x \/ y ∈ s.
Proof.
  induction s as [|z s IH]; cbn [btree_insert strict]; [by rewrite list_elem_of_singleton, elem_of_nil; naive_solver|]. intros [_ Hs].
  destruct (cmp x z) eqn:E; rewrite !elem_of_cons; [apply cmp_eq in E as ->; naive_solver|naive_solver|]. rewrite IH by done. naive_solver.
Qed.
Lemma btree_insert_strict x s : strict s -> strict (btree_insert cmp x s).
Proof.
  induction s as [|z s IH]; cbn [btree_insert strict]; [intros _; split; [constructor|done]|]. intros [Hz Hs]. destruct (cmp x z) eqn:E; cbn [strict]; [done| |].
  - split; [|done]. constructor; [done|]. by eapply lt_all_trans.
  - split; [|by apply IH]. apply list.Forall_forall. intros y [->|Hy]%btree_insert_elem; [by apply cmp_gt| |done].
    by apply (proj1 (list.Forall_forall _ _) Hz).
Qed.
Lemma btree_set_spec l : strict (btree_set cmp l) /\ forall x, x ∈ btree_set cmp l <-> x ∈ l.
Proof.
  unfold btree_set. assert (forall s, strict s -> strict (foldl (fun s x => btree_insert cmp x s) s l) /\
    forall x, x ∈ foldl (fun s x => btree_insert cmp x s) s l <-> x ∈ s \/ x ∈ l) as Hg.
  { induction l as [|y l IH]; cbn; intros s Hs; [split; [done|]; intros x; rewrite elem_of_nil; naive_solver|].
    destruct (IH _ (btree_insert_strict y s Hs)) as [Hst Hel]. split; [done|]. intros x. rewrite Hel, btree_insert_elem, elem_of_cons by done. naive_solver. }
  destruct (Hg []) as [Hs He]; [done|]. split; [done|]. intros x. rewrite He, elem_of_nil. naive_solver.
Qed.
Lemma strict_NoDup s : strict s -> NoDup s.
Proof.
  induction s as [|x s IH]; cbn; [constructor|]. intros [Hl Hs]. constructor; [|by apply IH]. intros Hx.
  pose proof (proj1 (list.Forall_forall _ _) Hl x Hx) as E. cbn in E. by rewrite cmp_refl in E.
Qed.
Lemma btree_set_perm l : NoDup l -> btree_set cmp l ≡ₚ l.
Proof. intros Hn. destruct (btree_set_spec l) as [Hs He]. apply NoDup_Permutation; [by apply strict_NoDup|done|done]. Qed.
Lemma btree_contains_iff s x : btree_contains cmp s x = true <-> x ∈ s.
Proof.
  unfold btree_contains. rewrite existsb_exists. setoid_rewrite <- list_elem_of_In. split.
  - intros (y & Hy & E). destruct (cmp x y) eqn:Ec; [|done..]. apply cmp_eq in Ec as ->. done.
  - intros Hx. exists x. by rewrite cmp_refl.
Qed.
Lemma btree_disjoint_iff s t : btree_disjoint cmp s t = true <-> s ## t.
Proof.
  unfold btree_disjoint. rewrite forallb_forall. setoid_rewrite <- list_elem_of_In. split.
  - intros Hd x Hx Hy. specialize (Hd x Hx). apply btree_contains_iff in Hy. by rewrite Hy in Hd.
  - intros Hd x Hx. destruct (btree_contains cmp t x) eqn:E; [|done]. apply btree_contains_iff in E. by destruct (Hd x).
Qed.

Fixpoint weak (l : list A) : Prop := match l with [] => True | x :: l => Forall (fun y => cmp x y <> Gt) l /\ weak l end.
Lemma sort_insert_perm x l : sort_insert cmp x l ≡ₚ x :: l.
Proof. induction l as [|y l IH]; cbn; [done|]. destruct (cmp x y); [done|done|]. rewrite IH. apply Permutation_swap. Qed.
Lemma sorted_perm l : sorted cmp l ≡ₚ l.
Proof. unfold sorted. induction l as [|x l IH]; cbn; [done|]. by rewrite sort_insert_perm, IH. Qed.
Lemma not_gt_trans x y z : cmp x y <> Gt -> cmp y z <> Gt -> cmp x z <> Gt.
Proof.
  destruct (cmp x y) eqn:E; [apply cmp_eq in E as ->; done| |done]. intros _. destruct (cmp y z) eqn:E'; [apply cmp_eq in E' as <-; by rewrite E| |done].
  by rewrite (cmp_trans _ _ _ E E').
Qed.
Lemma sort_insert_weak x l : weak l -> weak (sort_insert cmp x l).
Proof.
  induction l as [|y l IH]; cbn [sort_insert weak]; [done|]. intros [Hy Hl].
  assert (cmp x y <> Gt -> weak (x :: y :: l)) as Hhead.
  { intros Hxy. split; [|done]. constructor; [done|]. eapply list.Forall_impl; [exact Hy|]. intros z. by apply not_gt_trans. }
  destruct (cmp x y) eqn:E; try (by apply Hhead). split; [|by apply IH]. rewrite sort_insert_perm. constructor; [|done]. apply cmp_gt in E. by rewrite E.
Qed.
Lemma sorted_weak l : weak (sorted cmp l).
Proof. unfold sorted. induction l as [|x l IH]; cbn; [done|]. by apply sort_insert_weak. Qed.
Lemma weak_is_sorted l : weak l -> is_sorted cmp l = true.
Proof.
  unfold is_sorted. induction l as [|x [|y l] IH]; cbn; [done..|]. intros [Hx Hl]. apply andb_true_iff. split; [|by apply IH].
  apply list.Forall_cons in Hx as [Hx _]. unfold not_greater. by destruct (cmp x y).
Qed.
Lemma weak_unique l1 l2 : weak l1 -> weak l2 -> l1 ≡ₚ l2 -> l1 = l2.
Proof.
  revert l2. induction l1 as [|x l1 IH]; intros l2 H1 H2 Hp; [by apply Permutation_nil_l in Hp as ->|].
  destruct l2 as [|y l2]; [by apply Permutation_nil_r in Hp|]. destruct H1 as [Hx H1], H2 as [Hy H2].
  assert (x = y) as ->.
  { assert (x ∈ y :: l2) as [->|Hin]%elem_of_cons by (rewrite <- Hp; apply elem_of_cons; by left); [done|].
    assert (y ∈ x :: l1) as [->|Hin']%elem_of_cons by (rewrite Hp; apply elem_of_cons; by left); [done|].
    pose proof (proj1 (list.Forall_forall _ _) Hx y Hin') as E1. pose proof (proj1 (list.Forall_forall _ _) Hy x Hin) as E2. cbn in E1, E2.
    rewrite cmp_opp in E2. destruct (cmp x y) eqn:E; cbn in E2; [by apply cmp_eq|done..]. }
  f_equal. apply IH; try done. by apply Permutation_cons_inv in Hp.
Qed.
Lemma sorted_unique l1 l2 : l1 ≡ₚ l2 -> sorted cmp l1 = sorted cmp l2.
Proof. intros Hp. apply weak_unique; [apply sorted_weak..|]. by rewrite !sorted_perm. Qed.
End ordered.

(** ** Sums in commutative monoids *)
Class CommMonoid {G : Type} (op : G -> G -> G) (e : G) : Prop := {
  op_assoc a b c : op a (op b c) = op (op a b) c;
  op_comm a b : op a b = op b a;
  op_unit a : op e a = a }.
#[export] Instance Zplus_monoid : CommMonoid Z.add 0.
Proof. split; intros; lia. Qed.
Definition msum {G A} (op : G -> G -> G) (e : G) (f : A -> G) (l : list A) : G := foldr (fun x acc => op (f x) acc) e l.
Section sums.
Context {G : Type} (op : G -> G -> G) (e : G) `{!CommMonoid op e}.
#[local] Set Default Proof Using "All".
Lemma op_unit_l a : op e a = a.
Proof. apply op_unit. Qed.
Lemma op_unit_r a : op a e = a.
Proof. by rewrite op_comm, op_unit. Qed.
Lemma op_swap a b c d : op (op a b) (op c d) = op (op a c) (op b d).
Proof. rewrite <- !op_assoc. f_equal. rewrite !op_assoc. f_equal. apply op_comm. Qed.
Lemma op_swap3 a b c a' b' c' : op (op a a') (op (op b b') (op c c')) = op (op a (op b c)) (op a' (op b' c')).
Proof. by rewrite (op_swap b), op_swap. Qed.
Lemma op_swap4 a b c d a' b' c' d' :
  op (op a a') (op (op b b') (op (op c c') (op d d'))) = op (op a (op b (op c d))) (op a' (op b' (op c' d'))).
Proof. by rewrite (op_swap c), (op_swap b), op_swap. Qed.
Lemma msum_app {A} (f : A -> G) l1 l2 : msum op e f (l1 ++ l2) = op (msum op e f l1) (msum op e f l2).
Proof. induction l1 as [|x l1 IH]; cbn; [by rewrite op_unit|]. unfold msum in IH. by rewrite IH, op_assoc. Qed.
Lemma msum_perm {A} (f : A -> G) l1 l2 : l1 ≡ₚ l2 -> msum op e f l1 = msum op e f l2.
Proof.
  induction 1 as [|x l1 l2 _ IH|x y l|l1 l2 l3 _ IH1 _ IH2]; [done|unfold msum in *; cbn; by rewrite IH| |by rewrite IH1].
  unfold msum. cbn. rewrite !op_assoc. f_equal. apply op_comm.
Qed.
Lemma msum_op {A} (f g : A -> G) l : msum op e (fun x => op (f x) (g x)) l = op (msum op e f l) (msum op e g l).
Proof. induction l as [|x l IH]; cbn; [by rewrite op_unit|]. unfold msum in IH. by rewrite IH, op_swap. Qed.
Lemma msum_fmap {A B} (f : B -> G) (g : A -> B) l : msum op e f (g <$> l) = msum op e (fun x => f (g x)) l.
Proof. induction l as [|x l IH]; [done|]. unfold msum in *. cbn. by rewrite IH. Qed.
Lemma msum_ext {A} (f g : A -> G) l : (forall x, x ∈ l -> f x = g x) -> msum op e f l = msum op e g l.
Proof.
  induction l as [|x l IH]; [done|]. intros Hfg. unfold msum in *. cbn. rewrite Hfg, IH; [done|intros y Hy; apply Hfg|]; apply elem_of_cons; auto.
Qed.
Lemma foldl_msum l : forall a, foldl op a l = op a (msum op e id l).
Proof. induction l as [|x l IH]; intros a; cbn; [by rewrite op_unit_r|]. by rewrite IH, op_assoc. Qed.
End sums.

(** ** Deltas *)
Definition volume (l : list TokenDelta) : Z := sum_of (fun kv => Z.abs kv.2) l.
Lemma volume_nonneg l : 0 <= volume l.
Proof. unfold volume. induction l; [done|]. rewrite sum_of_cons. lia. Qed.
Lemma volume_app l1 l2 : volume (l1 ++ l2) = volume l1 + volume l2.
Proof. apply sum_of_app. Qed.
Lemma saturating_add_small a b : Z.abs a + Z.abs b <= i128_max -> saturating_add_i128 a b = a + b.
Proof. unfold saturating_add_i128, i128_min, i128_max. lia. Qed.
Lemma entry_add_keys m kv x : x ∈ (entry_add m kv).*1 <-> x = kv.1 \/ x ∈ m.*1.
Proof.
  induction m as [|[k v] m IH]; cbn [entry_add fmap list_fmap fst]; [rewrite list_elem_of_singleton, elem_of_nil; naive_solver|].
  destruct (bytes_compare kv.1 k) eqn:E; cbn [fmap list_fmap fst]; rewrite !elem_of_cons; [apply cmp_eq in E as ->; naive_solver|naive_solver|].
  change (x = k \/ x ∈ (entry_add m kv).*1 <-> x = kv.1 \/ x = k \/ x ∈ m.*1). rewrite IH. naive_solver.
Qed.
Lemma entry_add_strict m kv : strict bytes_compare m.*1 -> strict bytes_compare (entry_add m kv).*1.
Proof.
  induction m as [|[k v] m IH]; cbn [entry_add]; [intros _; split; [constructor|done]|]. intros [Hk Hm].
  destruct (bytes_compare kv.1 k) eqn:E; cbn.
  - by split.
  - split; [|by split]. constructor; [done|]. by eapply (lt_all_trans bytes_compare).
  - split; [|by apply IH]. apply list.Forall_forall. intros y [->|Hy]%entry_add_keys; [by apply (cmp_gt bytes_compare)|].
    by apply (proj1 (list.Forall_forall _ _) Hk).
Qed.
(** The entries of the map hold the sums, in any group that amounts are mapped to. *)
Section totals.
Context {G : Type} (op : G -> G -> G) (e : G) `{!CommMonoid op e} (f : HashOutput -> Z -> G).
Context (f_add : forall k a b, f k (a + b) = op (f k a) (f k b)) (f_0 : forall k, f k 0 = e).
#[local] Set Default Proof Using "All".
Definition total (l : list TokenDelta) : G := msum op e (fun kv => f kv.1 kv.2) l.
Lemma entry_add_total m kv : volume m + Z.abs kv.2 <= i128_max ->
  total (entry_add m kv) = op (total m) (f kv.1 kv.2) /\ volume (entry_add m kv) <= volume m + Z.abs kv.2.
Proof.
  unfold total, volume. induction m as [|[k v] m IH]; cbn [entry_add].
  - intros Hb. unfold sum_of in *. cbn in *. rewrite saturating_add_small by lia. split; [by rewrite Z.add_0_l, op_comm|lia].
  - rewrite !sum_of_cons. pose proof (volume_nonneg m) as Hn. unfold volume in Hn. cbn [fst snd] in *. intros Hb.
    destruct (bytes_compare kv.1 k) eqn:E; rewrite ?sum_of_cons; cbn [fst snd msum foldr].
    + apply cmp_eq in E as Ek. rewrite Ek, saturating_add_small by lia. split; [|lia]. rewrite f_add, <- !op_assoc. f_equal. apply op_comm.
    + rewrite saturating_add_small by lia. split; [|lia]. apply op_comm.
    + destruct IH as [IH1 IH2]; [lia|]. unfold msum in IH1. rewrite IH1. split; [|lia]. by rewrite op_assoc.
Qed.
Lemma entry_fold_total l : forall m, volume m + volume l <= i128_max -> total (foldl entry_add m l) = op (total m) (total l).
Proof.
  induction l as [|kv l IH]; intros m; cbn [foldl]; [intros _; change (total []) with e; by rewrite (op_unit_r op e)|]. unfold volume at 2. rewrite sum_of_cons. fold (volume l).
  intros Hb. pose proof (volume_nonneg l). destruct (entry_add_total m kv) as [H1 H2]; [lia|]. rewrite IH, H1 by lia.
  change (total (kv :: l)) with (op (f kv.1 kv.2) (total l)). by rewrite op_assoc.
Qed.
Lemma filter_total l : total (filter (fun kv => kv.2 <> 0) l) = total l.
Proof.
  unfold total. induction l as [|kv l IH]; [done|]. rewrite filter_cons. unfold msum in *. case_decide as Hz; cbn; rewrite IH; [done|].
  destruct (decide (kv.2 = 0)) as [E|]; [|done]. by rewrite E, f_0, op_unit.
Qed.
End totals.
Lemma entry_fold_strict l : forall m, strict bytes_compare m.*1 -> strict bytes_compare (foldl entry_add m l).*1.
Proof. induction l as [|kv l IH]; intros m Hm; [done|]. by apply IH, entry_add_strict. Qed.
Lemma strict_filter (P : TokenDelta -> Prop) `{!forall x, Decision (P x)} l : strict bytes_compare l.*1 -> strict bytes_compare (filter P l).*1.
Proof.
  induction l as [|kv l IH]; [done|]. intros [Hk Hl]. rewrite filter_cons. case_decide; [|by apply IH]. split; [|by apply IH].
  apply list.Forall_forall. intros y (z & -> & Hz)%list_elem_of_fmap. apply list_elem_of_filter in Hz as [_ Hz].
  apply (proj1 (list.Forall_forall _ _) Hk). apply list_elem_of_fmap. by exists z.
Qed.
#[local] Instance delta_pair_order : TotalOrder delta_pair_compare.
Proof. apply (order_by_inj id (lex_compare bytes_compare Z.compare)); [apply _|by intros ? ?|done]. Qed.
Lemma strict_weak l : strict bytes_compare l.*1 -> weak delta_pair_compare l.
Proof.
  induction l as [|kv l IH]; [done|]. intros [Hk Hl]. split; [|by apply IH]. apply list.Forall_forall. intros y Hy.
  unfold delta_pair_compare. rewrite (proj1 (list.Forall_forall _ _) Hk y.1); [done|]. apply list_elem_of_fmap. by exists y.
Qed.
Lemma normalize_deltas_eq l : normalize_deltas l = filter (fun kv => kv.2 <> 0) (foldl entry_add [] l).
Proof.
  apply (weak_unique delta_pair_compare); [apply sorted_weak, _|apply strict_weak, strict_filter; by apply entry_fold_strict|apply sorted_perm, _].
Qed.
Lemma normalize_deltas_strict l : strict bytes_compare (normalize_deltas l).*1 /\ Forall (fun kv => kv.2 <> 0) (normalize_deltas l).
Proof.
  rewrite normalize_deltas_eq. split; [by apply strict_filter, entry_fold_strict|]. apply list.Forall_forall. by intros kv [? _]%list_elem_of_filter.
Qed.
Lemma normalize_deltas_total {G} (op : G -> G -> G) (e : G) `{!CommMonoid op e} f l :
  (forall k a b, f k (a + b) = op (f k a) (f k b)) -> (forall k, f k 0 = e) -> volume l <= i128_max -> total op e f (normalize_deltas l) = total op e f l.
Proof.
  intros Hf H0 Hv. rewrite normalize_deltas_eq, filter_total by done. rewrite entry_fold_total by done. by rewrite op_unit.
Qed.

(** ** What is relied on of curves and the orders on external types *)
Class SealedOrders `{ProofSystem} : Prop := {
  proof_order :: TotalOrder proof_compare;
  pedersen_order :: TotalOrder pedersen_compare;
  ciphertext_order :: TotalOrder ciphertext_compare }.
(** Commitments form a commutative group on which scalars act, modulo the order of the embedded field. *)
Class PedersenGroup `{ProofSystem} `{EmbeddedField} : Prop := {
  pedersen_monoid :: CommMonoid pedersen_add pedersen_zero;
  pedersen_neg_r p : pedersen_add p (pedersen_neg p) = pedersen_zero;
  pedersen_mul_add p a b : pedersen_mul p (a + b) = pedersen_add (pedersen_mul p a) (pedersen_mul p b);
  pedersen_mul_0 p : pedersen_mul p 0 = pedersen_zero;
  pedersen_mul_mod p a : pedersen_mul p (a mod embedded_fr_modulus) = pedersen_mul p a }.

Section orders.
Context `{ProofSystem} `{!SealedOrders}.
#[local] Set Default Proof Using "All".
#[export] Instance zswap_input_order : TotalOrder zswap_input_compare.
Proof.
  apply (order_by_inj (fun i => (inp_nullifier i, (inp_value_commitment i, (inp_contract_address i, (inp_merkle_tree_root i, inp_proof i)))))
    (lex_compare bytes_compare (lex_compare pedersen_compare (lex_compare (option_compare bytes_compare) (lex_compare Z.compare proof_compare)))));
    [apply _| |done]. intros [] []; cbn; congruence.
Qed.
#[export] Instance zswap_output_order : TotalOrder zswap_output_compare.
Proof.
  apply (order_by_inj (fun o => (out_coin_com o, (out_value_commitment o, (out_contract_address o, (out_ciphertext o, out_proof o)))))
    (lex_compare bytes_compare (lex_compare pedersen_compare (lex_compare (option_compare bytes_compare) (lex_compare (option_compare ciphertext_compare) proof_compare)))));
    [apply _| |done]. intros [] []; cbn; congruence.
Qed.
#[export] Instance zswap_transient_order : TotalOrder zswap_transient_compare.
Proof.
  apply (order_by_inj (fun t => (tr_nullifier t, (tr_coin_com t, (tr_value_commitment_input t, (tr_value_commitment_output t,
      (tr_contract_address t, (tr_ciphertext t, (tr_proof_input t, tr_proof_output t))))))))
    (lex_compare bytes_compare (lex_compare bytes_compare (lex_compare pedersen_compare (lex_compare pedersen_compare
      (lex_compare (option_compare bytes_compare) (lex_compare (option_compare ciphertext_compare) (lex_compare proof_compare proof_compare))))))));
    [apply _| |done]. intros [] []; cbn; congruence.
Qed.
End orders.

(** ** Offers *)
Section offers.
Context `{Hashing} `{Statements} `{!SealedOrders}.
#[local] Set Default Proof Using "All".
(** The coins of an offer are different; its deltas do not saturate. *)
Definition coins_distinct (o : SealedOffer) : Prop := NoDup (offer_inputs o) /\ NoDup (offer_outputs o) /\ NoDup (offer_transient o).
Definition offer_volume (o : SealedOffer) : Z := volume (delta_pair <$> offer_deltas o).
Record merged (o1 o2 o : SealedOffer) : Prop := {
  merged_inputs : offer_inputs o ≡ₚ offer_inputs o1 ++ offer_inputs o2;
  merged_outputs : offer_outputs o ≡ₚ offer_outputs o1 ++ offer_outputs o2;
  merged_transient : offer_transient o ≡ₚ offer_transient o1 ++ offer_transient o2;
  merged_deltas : offer_deltas o = pair_delta <$> normalize_deltas (delta_pair <$> offer_deltas o1 ++ offer_deltas o2);
  merged_normalized : offer_normalized o = true }.
Lemma pair_delta_pair d : pair_delta (delta_pair d) = d.
Proof. by destruct d. Qed.
Lemma delta_pair_fmap (l : list TokenDelta) : delta_pair <$> (pair_delta <$> l) = l.
Proof. induction l as [|[k v] l IH]; [done|]. cbn. by rewrite IH. Qed.
Lemma normalize_normalized o : offer_normalized (offer_normalize o) = true.
Proof.
  unfold offer_normalized, offer_normalize. cbn [offer_inputs offer_outputs offer_transient offer_deltas].
  rewrite !(weak_is_sorted _ _ (sorted_weak _ _)). cbn [andb].
  destruct (normalize_deltas_strict (delta_pair <$> offer_deltas o)) as [Hs Hz]. generalize dependent (normalize_deltas (delta_pair <$> offer_deltas o)).
  intros l Hs Hz. apply andb_true_iff. split.
  - clear Hz. induction l as [|a [|b l] IH]; [done..|]. destruct Hs as [Ha Hs]. cbn. apply list.Forall_cons in Ha as [Ha _]. cbn in Ha. rewrite Ha. by apply IH.
  - induction Hz as [|a l Ha _ IH]; [done|]. cbn. destruct Hs as [_ Hs]. rewrite IH by done. destruct (Z.eqb_spec a.2 0); done.
Qed.
Lemma offer_merge_ok o1 o2 : coins_distinct o1 -> coins_distinct o2 ->
  (exists o, offer_merge o1 o2 = Ok o /\ merged o1 o2 o) /\ offer_inputs o1 ## offer_inputs o2 /\ offer_outputs o1 ## offer_outputs o2 /\
    offer_transient o1 ## offer_transient o2 \/
  offer_merge o1 o2 = Err NonDisjointCoinMerge /\
    ~ (offer_inputs o1 ## offer_inputs o2 /\ offer_outputs o1 ## offer_outputs o2 /\ offer_transient o1 ## offer_transient o2).
Proof.
  intros (Hi1 & Ho1 & Ht1) (Hi2 & Ho2 & Ht2). unfold offer_merge.
  assert (forall A (cmp : A -> A -> comparison) `{!TotalOrder cmp} (l1 l2 : list A),
    reflect (l1 ## l2) (btree_disjoint cmp (btree_set cmp l1) (btree_set cmp l2))) as Hd.
  { intros A cmp Hc l1 l2. apply iff_reflect. rewrite btree_disjoint_iff by done. destruct (btree_set_spec cmp l1) as [_ E1], (btree_set_spec cmp l2) as [_ E2].
    split; intros Hx x; specialize (Hx x); rewrite ?E1, ?E2 in *; done. }
  destruct (Hd _ zswap_input_compare _ (offer_inputs o1) (offer_inputs o2)) as [Di|Di], (Hd _ zswap_output_compare _ (offer_outputs o1) (offer_outputs o2)) as [Do|Do],
    (Hd _ zswap_transient_compare _ (offer_transient o1) (offer_transient o2)) as [Dt|Dt]; cbn [andb]; try (right; split; [done|]; tauto).
  left. split; [|done]. eexists. split; [done|]. split; cbn [offer_normalize offer_inputs offer_outputs offer_transient offer_deltas].
  1-3: rewrite sorted_perm by apply _; by rewrite !btree_set_perm by (done || apply _).
  - done.
  - apply normalize_normalized.
Qed.
End offers.

Section commitments.
Context `{Hashing} `{Statements} `{!SealedOrders} `{EmbeddedField} `{!PedersenGroup}.
#[local] Set Default Proof Using "All".
Abbreviation psum := (msum pedersen_add pedersen_zero).
Lemma pedersen_cancel a b c : pedersen_add a b = pedersen_add a c -> b = c.
Proof.
  intros E. rewrite <- (op_unit b), <- (op_unit c), <- (pedersen_neg_r a), (op_comm a), <- !op_assoc. by rewrite E.
Qed.
Lemma pedersen_neg_add a b : pedersen_neg (pedersen_add a b) = pedersen_add (pedersen_neg a) (pedersen_neg b).
Proof.
  apply (pedersen_cancel (pedersen_add a b)). rewrite pedersen_neg_r. rewrite (op_swap pedersen_add pedersen_zero), !pedersen_neg_r. by rewrite op_unit.
Qed.
Lemma pedersen_sub_add a b c d : pedersen_sub (pedersen_add a b) (pedersen_add c d) = pedersen_add (pedersen_sub a c) (pedersen_sub b d).
Proof. unfold pedersen_sub. by rewrite pedersen_neg_add, (op_swap pedersen_add pedersen_zero). Qed.
(** The contribution of the deltas to the commitments. *)
Abbreviation delta_point segment := (fun t v => pedersen_mul (token_base t segment) v).
Lemma delta_commits segment l : psum (fun d => delta_commit d segment) l = total pedersen_add pedersen_zero (delta_point segment) (delta_pair <$> l).
Proof.
  unfold total. rewrite (msum_fmap pedersen_add pedersen_zero). apply (msum_ext pedersen_add pedersen_zero). intros d _. unfold delta_commit. by rewrite pedersen_mul_0, op_unit.
Qed.
Lemma merged_delta_commits segment o1 o2 o : merged o1 o2 o -> offer_volume o1 + offer_volume o2 <= i128_max ->
  psum (fun d => delta_commit d segment) (offer_deltas o)
  = pedersen_add (psum (fun d => delta_commit d segment) (offer_deltas o1)) (psum (fun d => delta_commit d segment) (offer_deltas o2)).
Proof.
  intros Hm Hv. rewrite !delta_commits, (merged_deltas _ _ _ Hm), delta_pair_fmap, (normalize_deltas_total pedersen_add pedersen_zero).
  - unfold total. by rewrite fmap_app, (msum_app pedersen_add pedersen_zero).
  - intros. apply pedersen_mul_add.
  - intros. apply pedersen_mul_0.
  - unfold offer_volume in Hv. by rewrite fmap_app, volume_app.
Qed.
Lemma merged_coins_commit (f : SealedInput -> Pedersen) (g : SealedOutput -> Pedersen) (h : SealedTransient -> Pedersen) o1 o2 o : merged o1 o2 o ->
  let io o := psum id ((f <$> offer_inputs o) ++ (g <$> offer_outputs o) ++ (h <$> offer_transient o)) in io o = pedersen_add (io o1) (io o2).
Proof.
  intros Hm io. unfold io. rewrite !(msum_app pedersen_add pedersen_zero), !(msum_fmap pedersen_add pedersen_zero).
  rewrite (msum_perm pedersen_add pedersen_zero _ _ _ (merged_inputs _ _ _ Hm)), (msum_perm pedersen_add pedersen_zero _ _ _ (merged_outputs _ _ _ Hm)),
    (msum_perm pedersen_add pedersen_zero _ _ _ (merged_transient _ _ _ Hm)), !(msum_app pedersen_add pedersen_zero).
  apply (op_swap3 pedersen_add pedersen_zero).
Qed.
Lemma try_for_each_merged {E A} (f : A -> outcome E unit) l1 l2 l : l ≡ₚ l1 ++ l2 -> try_for_each f l1 = Ok tt -> try_for_each f l2 = Ok tt -> try_for_each f l = Ok tt.
Proof. rewrite !try_for_each_Ok. intros Hp Hw1 Hw2 x Hx. rewrite Hp, elem_of_app in Hx. naive_solver. Qed.

Lemma offer_merge_merged o1 o2 o : coins_distinct o1 -> coins_distinct o2 -> offer_merge o1 o2 = Ok o -> merged o1 o2 o.
Proof. intros Hw1 Hw2 Hm. destruct (offer_merge_ok o1 o2 Hw1 Hw2) as [((o' & E & Hmm) & _)|[E _]]; rewrite Hm in E; by simplify_eq. Qed.

Lemma merged_well_formed o1 o2 o segment c1 c2 : merged o1 o2 o -> offer_volume o1 + offer_volume o2 <= i128_max ->
  offer_well_formed o1 segment = Ok c1 -> offer_well_formed o2 segment = Ok c2 -> offer_well_formed o segment = Ok (pedersen_add c1 c2).
Proof.
  intros Hm Hv Hw1 Hw2. unfold offer_well_formed in *. inv_binds. repeat match goal with x : unit |- _ => destruct x end.
  rewrite (try_for_each_merged _ _ _ _ (merged_inputs _ _ _ Hm)) by done. cbn [mbind outcome_bind].
  rewrite (try_for_each_merged _ _ _ _ (merged_outputs _ _ _ Hm)) by done. cbn [mbind outcome_bind].
  rewrite (try_for_each_merged _ _ _ _ (merged_transient _ _ _ Hm)) by done. cbn [mbind outcome_bind].
  unfold offer_well_formed_common in *. rewrite (merged_normalized _ _ _ Hm). destruct (negb (offer_normalized o1)); [done|]. destruct (negb (offer_normalized o2)); [done|].
  simplify_eq. cbn [negb]. f_equal. rewrite !(foldl_msum pedersen_add pedersen_zero), !(op_unit_l pedersen_add pedersen_zero), <- pedersen_sub_add. f_equal.
  - by apply merged_coins_commit.
  - rewrite !(msum_fmap pedersen_add pedersen_zero). by apply merged_delta_commits.
Qed.

(** C24: Merging keeps offers well-formed.  Two offers whose proofs verify and
    that are normalized merge, unless they share a coin, into an offer with the
    coins of both whose proofs verify and which is normalized; its commitment,
    the part that binding randomness has to explain, is the sum of theirs.
    (Coins within an offer are different, and the deltas stay within an i128.) *)
Theorem merge_keeps_offers o1 o2 segment c1 c2 : coins_distinct o1 -> coins_distinct o2 -> offer_volume o1 + offer_volume o2 <= i128_max ->
  offer_well_formed o1 segment = Ok c1 -> offer_well_formed o2 segment = Ok c2 ->
  offer_inputs o1 ## offer_inputs o2 -> offer_outputs o1 ## offer_outputs o2 -> offer_transient o1 ## offer_transient o2 ->
  exists o, offer_merge o1 o2 = Ok o /\ offer_inputs o ≡ₚ offer_inputs o1 ++ offer_inputs o2 /\ offer_outputs o ≡ₚ offer_outputs o1 ++ offer_outputs o2 /\
    offer_transient o ≡ₚ offer_transient o1 ++ offer_transient o2 /\ offer_well_formed o segment = Ok (pedersen_add c1 c2).
Proof.
  intros Hd1 Hd2 Hv Hw1 Hw2 Hi Ho Ht. destruct (offer_merge_ok o1 o2 Hd1 Hd2) as [((o & E & Hm) & _)|[_ Hn]]; [|by destruct Hn].
  exists o. split; [done|]. destruct Hm as [Mi Mo Mt Md Mn] eqn:Em. split; [done|]. split; [done|]. split; [done|].
  by apply (merged_well_formed o1 o2 o segment c1 c2 Hm).
Qed.
End commitments.

(** ** Sums over the segments of a transaction *)
Definition osum {G A} (e : G) (f : A -> G) (o : option A) : G := match o with Some a => f a | None => e end.
Definition mapsum {G A} (op : G -> G -> G) (e : G) (f : Segment -> A -> G) (m : gmap Segment A) : G := msum op e (fun p => f p.1 p.2) (sorted_map m).
Lemma sorted_map_perm {A} (m : gmap Segment A) : sorted_map m ≡ₚ map_to_list m.
Proof. apply (merge_sort_Permutation key_le). Qed.
Section mapsums.
Context {G A : Type} (op : G -> G -> G) (e : G) `{!CommMonoid op e} (f : Segment -> A -> G).
#[local] Set Default Proof Using "All".
Lemma mapsum_to_list m : mapsum op e f m = msum op e (fun p => f p.1 p.2) (map_to_list m).
Proof. apply (msum_perm op e), sorted_map_perm. Qed.
Lemma mapsum_insert m k x : m !! k = None -> mapsum op e f (<[k := x]> m) = op (f k x) (mapsum op e f m).
Proof. intros Hk. rewrite !mapsum_to_list. by rewrite (msum_perm op e _ _ _ (map_to_list_insert _ _ _ Hk)). Qed.
Lemma mapsum_update m k x0 x y : m !! k = Some x0 -> f k x = op (f k x0) y -> mapsum op e f (<[k := x]> m) = op (mapsum op e f m) y.
Proof.
  intros Hk Hf. rewrite <- (insert_delete_id m k x0 Hk) at 2. rewrite <- insert_delete_eq, !mapsum_insert by apply lookup_delete_eq.
  rewrite Hf, <- !op_assoc. f_equal. apply op_comm.
Qed.
End mapsums.

Section maps.
Context `{Hashing} `{Statements} `{!SealedOrders} `{EmbeddedField} `{!PedersenGroup}.
#[local] Set Default Proof Using "All".
Lemma intents_sum {G} (op : G -> G -> G) (e : G) `{!CommMonoid op e} (f : Segment -> SealedIntent -> G) l : forall acc m,
  try_fold insert_intent acc l = Ok m -> mapsum op e f m = op (mapsum op e f acc) (msum op e (fun p => f p.1 p.2) l).
Proof.
  induction l as [|[k i] l IH]; intros acc m; cbn [try_fold].
  - intros [= ->]. by rewrite (op_unit_r op e).
  - intros Hf. inv_bind. unfold insert_intent in E. cbn in E. destruct (acc !! k) eqn:Ek; [done|]. injection E as <-. apply IH in Hf as ->.
    rewrite (mapsum_insert op e f) by done. unfold msum. cbn. rewrite op_assoc. f_equal. apply op_comm.
Qed.
Definition mergeable (o1 o2 : SealedOffer) : Prop := coins_distinct o1 /\ coins_distinct o2 /\ offer_volume o1 + offer_volume o2 <= i128_max.
Lemma offers_sum {G} (op : G -> G -> G) (e : G) `{!CommMonoid op e} (f : Segment -> SealedOffer -> G) :
  (forall k o1 o2 o, mergeable o1 o2 -> merged o1 o2 o -> f k o = op (f k o1) (f k o2)) -> forall l acc m, NoDup l.*1 ->
  (forall k o1 o2, acc !! k = Some o1 -> (k, o2) ∈ l -> mergeable o1 o2) ->
  try_fold insert_offer acc l = Ok m -> mapsum op e f m = op (mapsum op e f acc) (msum op e (fun p => f p.1 p.2) l).
Proof.
  intros Hf. induction l as [|[k o2] l IH]; intros acc m Hn Hok; cbn [try_fold].
  - intros [= ->]. by rewrite (op_unit_r op e).
  - intros Ht. inv_bind. apply list.NoDup_cons in Hn as [Hk Hn]. unfold insert_offer in E. cbn [fst snd] in E.
    assert (forall o, (forall k' o1' o2', <[k := o]> acc !! k' = Some o1' -> (k', o2') ∈ l -> mergeable o1' o2')) as Hok'.
    { intros o k' o1' o2' Ha Hin. assert (k' <> k) as Hne by (intros ->; apply Hk, list_elem_of_fmap; by exists (k, o2')).
      rewrite lookup_insert_ne in Ha by done. eapply Hok; [done|apply elem_of_cons; by right]. }
    assert (mapsum op e f a = op (mapsum op e f acc) (f k o2)) as Ha.
    { destruct (acc !! k) as [o1|] eqn:Ek; [|injection E as <-; rewrite (mapsum_insert op e f) by done; apply op_comm].
      inv_bind. injection E as <-. apply (mapsum_update op e f) with (x0 := o1); [done|].
      assert (mergeable o1 o2) as Hm by (eapply Hok; [done|apply elem_of_cons; by left]). apply Hf; [done|].
      apply offer_merge_merged; [apply Hm..|]. by destruct (offer_merge o1 o2) eqn:Eo; cbn in E0; simplify_eq. }
    apply IH in Ht as ->; [|done|destruct (acc !! k); [inv_bind|]; injection E as <-; apply Hok'].
    rewrite Ha. unfold msum. cbn. by rewrite op_assoc.
Qed.

(** What the intents and the offers contribute, in any commutative monoid. *)
Definition tx_sum {G} (op : G -> G -> G) (e : G) (fi : Segment -> SealedIntent -> G) (fo : Segment -> SealedOffer -> G) (stx : SealedStandard) : G :=
  op (mapsum op e fi (ss_intents stx)) (op (osum e (fo GUARANTEED_SEGMENT) (ss_guaranteed_coins stx)) (mapsum op e fo (ss_fallible_coins stx))).
(** The offers that have to be merged can be. *)
Record parts_fit (stx1 stx2 : SealedStandard) : Prop := {
  fit_guaranteed o1 o2 : ss_guaranteed_coins stx1 = Some o1 -> ss_guaranteed_coins stx2 = Some o2 -> mergeable o1 o2;
  fit_fallible k o1 o2 : ss_fallible_coins stx1 !! k = Some o1 -> ss_fallible_coins stx2 !! k = Some o2 -> mergeable o1 o2 }.
Lemma standard_merge_sum {G} (op : G -> G -> G) (e : G) `{!CommMonoid op e} fi fo stx1 stx2 stx :
  (forall k o1 o2 o, mergeable o1 o2 -> merged o1 o2 o -> fo k o = op (fo k o1) (fo k o2)) -> parts_fit stx1 stx2 ->
  standard_merge stx1 stx2 = Ok stx -> tx_sum op e fi fo stx = op (tx_sum op e fi fo stx1) (tx_sum op e fi fo stx2).
Proof.
  intros Hfo [Hg Hfal] Hm. unfold standard_merge in Hm. case_bool_decide; [done|]. inv_binds. unfold tx_sum. cbn [ss_intents ss_guaranteed_coins ss_fallible_coins].
  apply (intents_sum op e fi) in E as ->. rewrite (msum_app op e).
  apply (offers_sum op e fo Hfo) in E1 as ->.
  - fold (mapsum op e fi (ss_intents stx1)). fold (mapsum op e fi (ss_intents stx2)). fold (mapsum op e fo (ss_fallible_coins stx2)).
    change (mapsum op e fi ∅) with e. rewrite (op_unit_l op e), <- (op_swap3 op e). f_equal. f_equal. unfold merge_coins in E0.
    destruct (ss_guaranteed_coins stx1) as [o1|] eqn:E1, (ss_guaranteed_coins stx2) as [o2|] eqn:E2; cbn [osum];
      [|injection E0 as <-; cbn [osum]; by rewrite ?(op_unit_l op e), ?(op_unit_r op e)..].
    inv_bind. injection E0 as <-. assert (mergeable o1 o2) as Hok by auto. apply Hfo; [done|]. apply offer_merge_merged; [apply Hok..|].
    by destruct (offer_merge o1 o2) eqn:Eo; cbn in E; simplify_eq.
  - assert ((sorted_map (ss_fallible_coins stx2)).*1 ≡ₚ (map_to_list (ss_fallible_coins stx2)).*1) as -> by (by rewrite sorted_map_perm).
    apply NoDup_fst_map_to_list.
  - intros k o1 o2 Hk Hin. rewrite sorted_map_perm in Hin. apply elem_of_map_to_list in Hin. eauto.
Qed.

(** *** Balances add up *)
Abbreviation delta_amount k s := (fun t v => at_key k (Shielded t, s) v).
Lemma delta_entries_total k s (l : list (@ZswapDelta ShieldedTokenType)) : net k (delta_entry s <$> l) = total Z.add 0 (delta_amount k s) (delta_pair <$> l).
Proof.
  unfold net, total. rewrite sum_of_fmap, (msum_fmap Z.add 0). induction l as [|d l IH]; [done|]. rewrite sum_of_cons, IH. unfold msum. cbn. f_equal.
  unfold entry_at, signed_value, delta_entry, at_key. destruct (delta_value d <? 0); cbn; case_decide; lia.
Qed.
Lemma merged_delta_net k s o1 o2 o : mergeable o1 o2 -> merged o1 o2 o ->
  net k (delta_entry s <$> offer_deltas o) = net k (delta_entry s <$> offer_deltas o1) + net k (delta_entry s <$> offer_deltas o2).
Proof.
  intros (_ & _ & Hv) Hm. rewrite !delta_entries_total, (merged_deltas _ _ _ Hm), delta_pair_fmap, (normalize_deltas_total Z.add 0).
  - unfold total. by rewrite fmap_app, (msum_app Z.add 0).
  - intros. apply at_key_add.
  - intros. unfold at_key. by case_decide.
  - unfold offer_volume in Hv. by rewrite fmap_app, volume_app.
Qed.
Definition fee_entries (fees : option Z) : list BalanceEntry :=
  match fees with Some fee => [{| be_token := FEE_TOKEN; be_segment := 0; be_value := fee; be_operation := Subtraction |}] | None => [] end.
Abbreviation intent_amount k d := (fun s i => net k (intent_entries d s (erase_intent i))).
Abbreviation offer_amount k := (fun s (o : SealedOffer) => net k (delta_entry s <$> offer_deltas o)).
Lemma sum_of_msum {A} (f : A -> Z) l : sum_of f l = msum Z.add 0 f l.
Proof. induction l as [|x l IH]; [done|]. rewrite sum_of_cons, IH. done. Qed.
Lemma sum_sorted_fmap {A B} (f : Segment * B -> Z) (g : A -> B) (m : gmap Segment A) :
  sum_of f (sorted_map (g <$> m)) = mapsum Z.add 0 (fun s a => f (s, g a)) m.
Proof.
  rewrite mapsum_to_list, sum_of_msum, (msum_perm Z.add 0 _ _ _ (sorted_map_perm _)), map_to_list_fmap, (msum_fmap Z.add 0) by apply _.
  apply (msum_ext Z.add 0). by intros [] _.
Qed.
Lemma entries_sum k stx fees d : net k (balance_entries (erase_standard stx) fees d) =
  net k (fee_entries fees) + tx_sum Z.add 0 (intent_amount k d) (offer_amount k) stx.
Proof.
  unfold balance_entries. rewrite !net_app, !bind_pair, !net_bind. f_equal. unfold tx_sum. f_equal.
  - cbn [erase_standard intents]. by rewrite sum_sorted_fmap.
  - unfold coin_offers. cbn [erase_standard fallible_coins guaranteed_coins]. rewrite sum_of_app, sum_sorted_fmap. rewrite Z.add_comm. f_equal.
    destruct (ss_guaranteed_coins stx); cbn [fmap option_fmap option_map osum]; [|reflexivity]. rewrite sum_of_cons. cbn [fst snd erase_offer offer_deltas]. unfold sum_of at 1. cbn. apply Z.add_0_r.
Qed.
Lemma net_merge k stx1 stx2 stx d : parts_fit stx1 stx2 -> standard_merge stx1 stx2 = Ok stx ->
  net k (balance_entries (erase_standard stx) None d)
  = net k (balance_entries (erase_standard stx1) None d) + net k (balance_entries (erase_standard stx2) None d).
Proof.
  intros Hfit Hm. rewrite !entries_sum. rewrite (standard_merge_sum Z.add 0 _ _ stx1 stx2 stx); [unfold net, sum_of; cbn; lia| |done|done].
  intros s o1 o2 o. apply merged_delta_net.
Qed.
Lemma net_fees k stx fee d : net k (balance_entries (erase_standard stx) (Some fee) d) = net k (balance_entries (erase_standard stx) None d) - at_key k (DustToken, 0) fee.
Proof. rewrite !entries_sum. unfold net, sum_of, entry_at, signed_value. cbn. rewrite at_key_opp. unfold FEE_TOKEN. lia. Qed.
End maps.

(** *** Sums over balances *)
Section balances.
Context {G : Type} (op : G -> G -> G) (e : G) `{!CommMonoid op e} (f : BalanceKey -> Z -> G).
Context (f_add : forall k a b, f k (a + b) = op (f k a) (f k b)) (f_0 : forall k, f k 0 = e).
#[local] Set Default Proof Using "All".
Definition balance_sum (m : BalanceMap) : G := msum op e (fun kv => f kv.1 kv.2) (map_to_list m).
Lemma balance_sum_keys m : forall D : gset BalanceKey, dom m ⊆ D -> balance_sum m = msum op e (fun k => f k (default 0 (m !! k))) (elements D).
Proof.
  unfold balance_sum. induction m as [|k x m Hk IH] using map_ind; intros D HD.
  - rewrite map_to_list_empty. generalize (elements D) as l. induction l as [|k l IHl]; [done|]. unfold msum in *. cbn. rewrite <- IHl.
    rewrite lookup_empty. cbn. by rewrite f_0, op_unit.
  - rewrite (msum_perm op e _ _ _ (map_to_list_insert _ _ _ Hk)). assert (k ∈ D) as HkD by set_solver.
    assert (elements D ≡ₚ k :: elements (D ∖ {[k]})) as ->%(msum_perm op e (fun k0 => f k0 (default 0 (<[k:=x]> m !! k0)))).
    { rewrite <- elements_union_singleton by set_solver. f_equiv. rewrite <- union_difference_singleton_L by done. done. }
    unfold msum at 1 2. cbn. rewrite lookup_insert_eq. cbn. f_equal. change (foldr _ e ?l) with (msum op e (fun kv => f kv.1 kv.2) l) at 1.
    rewrite (IH (D ∖ {[k]})); [|intros k' Hk'; apply elem_of_difference; split; [set_solver|]; intros ->%elem_of_singleton; by apply not_elem_of_dom in Hk].
    apply (msum_ext op e). intros k' Hk'. rewrite lookup_insert_ne; [done|]. set_solver.
Qed.
Lemma balance_sum_add m1 m2 m : (forall k, default 0 (m !! k) = default 0 (m1 !! k) + default 0 (m2 !! k)) ->
  balance_sum m = op (balance_sum m1) (balance_sum m2).
Proof.
  intros Hk. set (D := dom m ∪ dom m1 ∪ dom m2). rewrite !(balance_sum_keys _ D) by (unfold D; set_solver).
  rewrite <- (msum_op op e). apply (msum_ext op e). intros k _. by rewrite Hk, f_add.
Qed.
End balances.

Section checks.
Context `{Hashing} `{Statements} `{!SealedOrders} `{EmbeddedField} `{!PedersenGroup}.
#[local] Set Default Proof Using "All".
Abbreviation padd := pedersen_add (only parsing).
Abbreviation pzero := pedersen_zero (only parsing).
Abbreviation offer_point := (fun (_ : Segment) (o : SealedOffer) => msum pedersen_add pedersen_zero id (offer_commitments (erase_offer o))).
Abbreviation intent_point := (fun (_ : Segment) (i : SealedIntent) => downgrade (si_binding i)).
Definition balance_point (k : BalanceKey) (v : Z) : Pedersen :=
  match k.1 with Shielded t => pedersen_mul (token_base t k.2) v | _ => pedersen_zero end.
Lemma merged_offer_point s o1 o2 o : mergeable o1 o2 -> merged o1 o2 o -> offer_point s o = padd (offer_point s o1) (offer_point s o2).
Proof.
  intros _ [Hi Ho Ht _ _]. unfold offer_commitments. cbn [erase_offer offer_inputs offer_outputs offer_transient].
  assert (forall A B (f : B -> Pedersen) (g : A -> B) (l1 l2 l : list A), l ≡ₚ l1 ++ l2 ->
    msum padd pzero id (f <$> (g <$> l)) = padd (msum padd pzero id (f <$> (g <$> l1))) (msum padd pzero id (f <$> (g <$> l2)))) as Hpart.
  { intros A B f g l1 l2 l Hp. rewrite <- (msum_app padd pzero), <- !fmap_app. apply (msum_perm padd pzero). by rewrite Hp. }
  rewrite !(msum_app padd pzero). rewrite (Hpart _ _ _ _ _ _ _ Hi), (Hpart _ _ _ _ _ _ _ Ho), !(Hpart _ _ _ _ _ _ _ Ht).
  apply (op_swap4 padd pzero).
Qed.
Lemma comm_parts_sum stx :
  foldl padd pzero ((binding_commitment ∘ snd <$> sorted_map (intents (erase_standard stx))) ++ (offers_of (erase_standard stx) ≫= fun so => offer_commitments so.2))
  = tx_sum padd pzero intent_point offer_point stx.
Proof.
  assert (forall (l : list (Segment * Offer)), msum padd pzero id (l ≫= fun so => offer_commitments so.2)
    = msum padd pzero (fun so => msum padd pzero id (offer_commitments so.2)) l) as Hbind.
  { induction l as [|so l IH]; [done|]. rewrite bind_cons, (msum_app padd pzero), IH. done. }
  assert (forall A B (f : Segment * B -> Pedersen) (g : A -> B) (m : gmap Segment A), msum padd pzero f (sorted_map (g <$> m))
    = mapsum padd pzero (fun s a => f (s, g a)) m) as Hmap.
  { intros A B f g m. rewrite (mapsum_to_list padd pzero), (msum_perm padd pzero _ _ _ (sorted_map_perm _)), map_to_list_fmap, (msum_fmap padd pzero).
    apply (msum_ext padd pzero). by intros [] _. }
  rewrite (foldl_msum padd pzero), (op_unit_l padd pzero), (msum_app padd pzero), (msum_fmap padd pzero), Hbind. unfold tx_sum, offers_of.
  cbn [erase_standard intents guaranteed_coins fallible_coins]. rewrite (msum_app padd pzero), !Hmap. f_equal. f_equal.
  destruct (ss_guaranteed_coins stx); [|done]. cbn. by rewrite (op_unit_r padd pzero).
Qed.
Lemma expected_sum (bal : BalanceMap) r :
  foldl padd r (omap (fun '((ty, segment), value) => match ty with Shielded t => Some (pedersen_mul (token_base t segment) value) | _ => None end) (map_to_list bal))
  = padd r (balance_sum padd pzero balance_point bal).
Proof.
  rewrite (foldl_msum padd pzero). f_equal. unfold balance_sum. induction (map_to_list bal) as [|[[ty s] v] l IH]; [done|].
  assert (forall p x q, p = q -> padd x p = padd x q) as Hcong by congruence.
  destruct ty; [etransitivity; [exact IH|]; symmetry; apply (op_unit_l padd pzero)|apply Hcong, IH|etransitivity; [exact IH|]; symmetry; apply (op_unit_l padd pzero)].
Qed.
Lemma pedersen_check_iff stx bal : balance_maybe_deltas_only (erase_standard stx) None true = Ok bal ->
  pedersen_check (erase_standard stx) = Ok tt <->
  tx_sum padd pzero intent_point offer_point stx
  = padd (pedersen_mul pedersen_generator (ss_binding_randomness stx)) (balance_sum padd pzero balance_point bal).
Proof.
  intros Hb. unfold pedersen_check. rewrite Hb. cbn [mbind outcome_bind]. rewrite comm_parts_sum, expected_sum, require_Ok. cbn [erase_standard binding_randomness].
  apply bool_decide_eq_true.
Qed.
(** The gross volume of a transaction fits into an [i128]. *)
Definition volume_fits (stx : SealedStandard) (fees : Z) : Prop :=
  Forall (fun entry => 0 <= be_value entry) (balance_entries (erase_standard stx) (Some fees) false) /\
  sum_of be_value (balance_entries (erase_standard stx) (Some fees) false) <= i128_max.
Lemma sublist_bind {A B} (g h : A -> list B) l : (forall x, g x `sublist_of` h x) -> (l ≫= g) `sublist_of` (l ≫= h).
Proof. intros Hs. induction l as [|x l IH]; [done|]. rewrite !bind_cons. by apply sublist_app. Qed.
Lemma deltas_sublist (stx : StandardTransaction) fees : balance_entries stx None true `sublist_of` balance_entries stx (Some fees) false.
Proof.
  unfold balance_entries. apply sublist_app; [apply sublist_nil_l|]. apply sublist_app; [|done]. rewrite !bind_pair. apply sublist_bind. intros [s i]. cbn.
  unfold intent_entries. do 3 (apply sublist_app; [done|]). apply sublist_nil_l.
Qed.
Lemma deltas_fit stx fees : volume_fits stx fees -> exists bal, balance_maybe_deltas_only (erase_standard stx) None true = Ok bal.
Proof.
  intros [Hpos Hsum]. pose proof (deltas_sublist (erase_standard stx) fees) as Hs.
  assert (forall l l', l `sublist_of` l' -> Forall (fun entry => 0 <= be_value entry) l' ->
    Forall (fun entry => 0 <= be_value entry) l /\ sum_of be_value l <= sum_of be_value l') as Hsub.
  { clear. induction 1 as [|x l l' _ IH|x l l' _ IH]; intros Hf; [done|..]; apply list.Forall_cons in Hf as [Hx Hf]; destruct (IH Hf) as [H6 H7];
      rewrite ?sum_of_cons; (split; [first [done|by constructor]|lia]). }
  destruct (Hsub _ _ Hs Hpos) as [Hp Hle]. apply (fold_balance_total _ ∅ 0 Hp); [done|lia|]. intros k. by rewrite lookup_empty.
Qed.
Lemma balance_point_add k a b : balance_point k (a + b) = padd (balance_point k a) (balance_point k b).
Proof. unfold balance_point. destruct k.1; [by rewrite (op_unit_l padd pzero)|apply pedersen_mul_add|by rewrite (op_unit_l padd pzero)]. Qed.
Lemma balance_point_0 k : balance_point k 0 = pzero.
Proof. unfold balance_point. destruct k.1; [done|apply pedersen_mul_0|done]. Qed.
Lemma deltas_exact stx bal k : balance_maybe_deltas_only (erase_standard stx) None true = Ok bal ->
  default 0 (bal !! k) = net k (balance_entries (erase_standard stx) None true).
Proof. intros Hb. apply fold_balance_exact with (k := k) in Hb. by rewrite Hb, lookup_empty. Qed.

(** C25: Merging keeps transactions balanced and bound.  When two sealed
    transactions each pass the balancing check for their fees and the check of
    their value commitments, the transaction they merge into passes the
    balancing check for the sum of the fees, and its value commitments open to
    its deltas under the sum of the binding randomness.  (Coins within an offer
    are different, and volumes stay within an i128.) *)
Theorem merge_keeps_balance stx1 stx2 stx strictness f1 f2 : enforce_balancing strictness = true ->
  balancing_check (erase_standard stx1) strictness f1 = Ok tt -> pedersen_check (erase_standard stx1) = Ok tt ->
  balancing_check (erase_standard stx2) strictness f2 = Ok tt -> pedersen_check (erase_standard stx2) = Ok tt ->
  standard_merge stx1 stx2 = Ok stx -> parts_fit stx1 stx2 -> volume_fits stx (f1 + f2) ->
  balancing_check (erase_standard stx) strictness (f1 + f2) = Ok tt /\ pedersen_check (erase_standard stx) = Ok tt.
Proof.
  intros Hs Hb1 Hp1 Hb2 Hp2 Hm Hfit Hvol. split.
  - apply balancing_check_iff; [apply Hvol..|done|]. intros k. pose proof (balancing_check_sound _ _ _ k Hb1 Hs) as Hk1. pose proof (balancing_check_sound _ _ _ k Hb2 Hs) as Hk2.
    pose proof (net_merge k stx1 stx2 stx false Hfit Hm) as Hn.
    pose proof (net_fees k stx (f1 + f2) false) as Hf. pose proof (net_fees k stx1 f1 false) as Hf1. pose proof (net_fees k stx2 f2 false) as Hf2.
    rewrite entries_net in Hf, Hf1, Hf2. rewrite at_key_add in Hf. lia.
  - destruct (deltas_fit stx _ Hvol) as [bal Hbal].
    assert (exists bal1, balance_maybe_deltas_only (erase_standard stx1) None true = Ok bal1) as [bal1 Hbal1].
    { unfold pedersen_check in Hp1. destruct (balance_maybe_deltas_only (erase_standard stx1) None true); cbn in Hp1; by eauto || done. }
    assert (exists bal2, balance_maybe_deltas_only (erase_standard stx2) None true = Ok bal2) as [bal2 Hbal2].
    { unfold pedersen_check in Hp2. destruct (balance_maybe_deltas_only (erase_standard stx2) None true); cbn in Hp2; by eauto || done. }
    apply (pedersen_check_iff stx1 bal1 Hbal1) in Hp1. apply (pedersen_check_iff stx2 bal2 Hbal2) in Hp2. apply (pedersen_check_iff stx bal Hbal).
    rewrite (standard_merge_sum padd pzero _ _ stx1 stx2 stx merged_offer_point Hfit Hm), Hp1, Hp2.
    rewrite (balance_sum_add padd pzero balance_point balance_point_add balance_point_0 bal1 bal2 bal).
    + assert (ss_binding_randomness stx = (ss_binding_randomness stx1 + ss_binding_randomness stx2) mod embedded_fr_modulus) as ->.
      { unfold standard_merge in Hm. case_bool_decide; [done|]. by inv_binds. }
      rewrite pedersen_mul_mod, pedersen_mul_add. apply (op_swap padd pzero).
    + intros k. rewrite (deltas_exact stx bal k Hbal), (deltas_exact stx1 bal1 k Hbal1), (deltas_exact stx2 bal2 k Hbal2). by apply net_merge.
Qed.
End checks.

(** ** An example over the group of two elements *)
From S2P Require Import RuntimeProps ToyLedger.
#[local] Instance bit_keys : KeyTypes := {|
  VerifyingKey := Z; VerifierKey := Z; SignatureT := unit; Pedersen := bool; CoinCiphertext := unit |}.
#[local] Instance bit_proofs : ProofSystem := {|
  Proof := Z; Binding := bool; proof_compare := Z.compare; pedersen_compare := Bool.compare; ciphertext_compare _ _ := Eq;
  key_compare := Z.compare; pedersen_zero := false; pedersen_add := xorb; pedersen_neg := id; pedersen_mul p a := Z.odd a && p;
  pedersen_generator := true; token_base _ _ := true; downgrade := id; binding_valid _ _ := true;
  signature_verify _ k _ := 0 <? k; vk_verify _ p _ := Z.even p; zswap_spend_vk := 1; zswap_output_vk := 2; dust_spend_vk := 3 |}.
#[local] Instance bit_statements : Statements := {|
  input_statement _ _ := []; output_statement _ _ := []; dust_spend_statement _ _ _ _ _ _ _ := []; call_public_inputs _ _ := [];
  challenge_pre _ := []; serialize_updates _ := []; serialize_verifying_key k := to_le_bytes 32 k; sealed_size _ := 20000;
  sealed_hash _ := toy_hash 1 |}.
#[local] Instance bit_field : EmbeddedField := {| embedded_fr_modulus := 2 |}.
#[local] Instance bit_orders : SealedOrders.
Proof. split; [apply _|split; [by intros [] []|by intros [] []|by intros [] [] []]|split; [by intros [] []|done|done]]. Qed.
#[local] Instance bit_group : PedersenGroup.
Proof.
  split.
  - split; [by intros [] [] []|by intros [] []|by intros []].
  - by intros [].
  - intros p a b. cbn. rewrite Z.odd_add. by destruct p, (Z.odd a), (Z.odd b).
  - done.
  - intros p a. cbn. f_equal. pose proof (Z.div_mod a 2 ltac:(lia)) as E. rewrite E at 2. by rewrite Z.odd_add, Z.odd_mul.
Qed.
Definition bit_input (n : Z) (vc : bool) : SealedInput := {|
  inp_nullifier := toy_hash n; inp_value_commitment := vc; inp_contract_address := None; inp_merkle_tree_root := 0; inp_proof := 2 |}.
Definition bit_offer (n : Z) (vc : bool) (v : Z) : SealedOffer := {|
  offer_inputs := [bit_input n vc]; offer_outputs := []; offer_transient := [];
  offer_deltas := [{| delta_token_type := toy_hash 3; delta_value := v |}] |}.
Definition bit_intent : SealedIntent := {|
  si_guaranteed_offer := None; si_fallible_offer := None; si_actions := []; si_dust_actions := None; si_ttl := 500; si_binding := true |}.
Definition bit_stx (s n : Z) (vc : bool) (v : Z) : SealedStandard := {|
  ss_network_id := "toy"; ss_intents := {[ s := bit_intent ]}; ss_guaranteed_coins := Some (bit_offer n vc v); ss_fallible_coins := ∅;
  ss_binding_randomness := 1 |}.
Lemma bit_offer_distinct n vc v : coins_distinct (bit_offer n vc v).
Proof. split; [apply NoDup_singleton|split; constructor]. Qed.
Lemma merge_keeps_offers_witness : exists o, offer_merge (bit_offer 1 true 5) (bit_offer 2 false 2) = Ok o /\ offer_well_formed o 0 = Ok false /\
  offer_deltas o = [{| delta_token_type := toy_hash 3; delta_value := 7 |}].
Proof.
  destruct (merge_keeps_offers (bit_offer 1 true 5) (bit_offer 2 false 2) 0 false false) as (o & Hm & _ & _ & _ & Hw);
    [apply bit_offer_distinct..|vm_compute; discriminate|vm_compute; reflexivity|vm_compute; reflexivity| | | |].
  - intros x Hx%list_elem_of_singleton Hy%list_elem_of_singleton. by subst.
  - intros x Hx%elem_of_nil. done.
  - intros x Hx%elem_of_nil. done.
  - exists o. split; [exact Hm|]. split; [exact Hw|]. vm_compute in Hm. by injection Hm as <-.
Defined.
Lemma merge_keeps_balance_witness : exists stx, standard_merge (bit_stx 1 1 true 5) (bit_stx 2 2 false 2) = Ok stx /\
  balancing_check (erase_standard stx) WellFormedStrictness_default 0 = Ok tt /\ pedersen_check (erase_standard stx) = Ok tt.
Proof.
  destruct (standard_merge (bit_stx 1 1 true 5) (bit_stx 2 2 false 2)) as [stx| |] eqn:E; [|vm_compute in E; discriminate..].
  exists stx. split; [reflexivity|].
  refine (merge_keeps_balance (bit_stx 1 1 true 5) (bit_stx 2 2 false 2) stx WellFormedStrictness_default 0 0 _ _ _ _ _ E _ _);
    [vm_compute; reflexivity..| |].
  - split; [|by intros k o1 o2 Hk]. intros o1 o2 [= <-] [= <-]. split; [apply bit_offer_distinct|]. split; [apply bit_offer_distinct|]. vm_compute. discriminate.
  - vm_compute in E. injection E as <-. split; [vm_compute; repeat constructor; discriminate|vm_compute; discriminate].
Defined.
