(* ===== verification/VmGas.v ===== *)
(** * A gas limit of what a run costs is enough

    Gas only grows during a run, so a program that runs without a limit runs
    with the same result under any limit that covers its final cost. *)
From S2P Require Import Prelude CostModel Fab FabSerial MerkleTree StateValue VmOps Vm VmSafety.
Set Warnings "-register-all".

Lemma safe_Ok {E A} (m : outcome E A) Q a : safe m Q -> m = Ok a -> Q a.
Proof. by intros Hs ->. Qed.

Section enough.
  Context `{Hashing} {S : StateStorage} {SL : StateStorageLaws S}.
  Context {R Event : Type} {M : ResultMode R Event} {ML : ResultModeLaws M}.
  Context (l : RunningCost) (cm : VmCostModel) (Hcm : cm_wf cm).

(** If the first call returns, its gas [gas a] is at least [g], and the second
    returns the same unless that exceeds the limit. *)
Definition grow {A} (gas : A -> RunningCost) (g : RunningCost) (m1 m2 : vm_result A) : Prop :=
  forall a, m1 = Ok a -> RunningCost_wf (gas a) /\ RunningCost_le g (gas a) /\ (within (Some l) (gas a) -> m2 = Ok a).

Lemma grow_ret {A} (gas : A -> RunningCost) a : RunningCost_wf (gas a) -> grow gas (gas a) (Ok a) (Ok a).
Proof. intros Hw ? [= <-]. split; [done|]. by split. Qed.
Lemma grow_err {A} (gas : A -> RunningCost) g e m : grow gas g (Err e) m.
Proof. by intros ?. Qed.
Lemma grow_panic {A} (gas : A -> RunningCost) g m : grow gas g Panic m.
Proof. by intros ?. Qed.
Lemma grow_bind {A B} (gas1 : A -> RunningCost) (gas : B -> RunningCost) g m1 m2 f1 f2 : grow gas1 g m1 m2 ->
  (forall x, m1 = Ok x -> RunningCost_wf (gas1 x) -> grow gas (gas1 x) (f1 x) (f2 x)) -> grow gas g (m1 ≫= f1) (m2 ≫= f2).
Proof.
  intros Hm Hf b Hb. apply bind_Ok_inv in Hb as (a & Ha & Hb). destruct (Hm a Ha) as (Hw & Hle & He).
  destruct (Hf a Ha Hw b Hb) as (Hw' & Hle' & He'). split; [done|]. split; [by etransitivity|]. intros Hl.
  assert (within (Some l) (gas1 a)) as Hl1 by (destruct Hl, Hle' as (? & ? & _); split; lia).
  rewrite (He Hl1). cbn. by apply He'.
Qed.
Lemma grow_pure {A B} (gas : B -> RunningCost) g (m : vm_result A) f1 f2 : (forall x, m = Ok x -> grow gas g (f1 x) (f2 x)) -> grow gas g (m ≫= f1) (m ≫= f2).
Proof. intros Hf b Hb. apply bind_Ok_inv in Hb as (a & Ha & Hb). rewrite Ha in *. cbn. by apply (Hf a). Qed.
Lemma grow_assoc {A B C} (gas : C -> RunningCost) g (m1 m2 : vm_result A) (f1 f2 : A -> vm_result B) k1 k2 :
  grow gas g (m1 ≫= fun x => f1 x ≫= k1) (m2 ≫= fun x => f2 x ≫= k2) -> grow gas g ((m1 ≫= f1) ≫= k1) ((m2 ≫= f2) ≫= k2).
Proof. by destruct m1, m2. Qed.
Lemma grow_incr_full g by_ : RunningCost_wf g -> RunningCost_wf by_ -> grow id g (incr_gas_full None g by_) (incr_gas_full (Some l) g by_).
Proof.
  intros Hg Hb a [= <-]. split; [by apply RunningCost_add_wf|]. split; [by apply RunningCost_le_add|]. intros [Hc Hr]. unfold id in *. cbn in Hc, Hr.
  unfold incr_gas_full. by rewrite !(proj2 (Z.ltb_ge _ _)) by done.
Qed.
Lemma grow_bind_incr_full {A} (gas : A -> RunningCost) g by_ f1 f2 : RunningCost_wf g -> RunningCost_wf by_ ->
  (forall g', RunningCost_wf g' -> grow gas g' (f1 g') (f2 g')) -> grow gas g (incr_gas_full None g by_ ≫= f1) (incr_gas_full (Some l) g by_ ≫= f2).
Proof. intros Hg Hb Hf. eapply grow_bind; [by apply grow_incr_full|]. intros x _. apply Hf. Qed.
Lemma grow_bind_incr {A} (gas : A -> RunningCost) g by_ f1 f2 : RunningCost_wf g -> is_u64 by_ ->
  (forall g', RunningCost_wf g' -> grow gas g' (f1 g') (f2 g')) -> grow gas g (incr_gas None g by_ ≫= f1) (incr_gas (Some l) g by_ ≫= f2).
Proof. intros Hg Hb Hf. apply grow_bind_incr_full; [done|by apply compute_only_wf|done]. Qed.

(** One step of a proof, driven by the shape of the code. *)
#[local] Ltac grow_step :=
  cbv beta iota;
  lazymatch goal with
  | |- grow _ _ (Ok _) _ => apply grow_ret; assumption
  | |- grow _ _ (Err _) _ => apply grow_err
  | |- grow _ _ Panic _ => apply grow_panic
  | |- grow _ _ (mbind _ (incr_gas _ _ _)) _ => apply grow_bind_incr; [assumption|eauto 4 with vm|intros ? ?]
  | |- grow _ _ (mbind _ (incr_gas_full _ _ _)) _ => apply grow_bind_incr_full; [assumption|eauto 4 with vm|intros ? ?]
  | |- grow _ _ (mbind ?f (Ok ?a)) _ => cbn [mbind outcome_bind]
  | |- grow _ _ (mbind ?f (Err ?a)) _ => apply grow_err
  | |- grow _ _ (mbind _ (mbind _ _)) _ => apply grow_assoc
  | |- grow _ _ (mbind _ (if ?b then _ else _)) _ => destruct b
  | |- grow _ _ (mbind _ (match ?x with _ => _ end)) _ => destruct x
  | |- grow _ _ (mbind _ ?m) (mbind _ ?m) => apply grow_pure; intros ? ?
  | |- grow _ _ (if ?b then _ else _) _ => destruct b
  | |- grow _ _ (match ?x with _ => _ end) _ => destruct x
  end.
#[local] Ltac grow_go := repeat grow_step.

Lemma idx_loop_grow cached push keys n : forall curr stack cache g,
  Forall (fun k => vwf (vm_value k)) keys -> entry_ok n curr -> length cache = n -> RunningCost_wf g ->
  grow snd g (idx_loop None cm cached push keys curr stack cache g) (idx_loop (Some l) cm cached push keys curr stack cache g).
Proof using Hcm SL.
  induction keys as [|key keys IH]; intros curr stack cache g Hk [Hcv Hck] Hc Hg; cbn [idx_loop]; [by apply (grow_ret snd)|].
  apply Forall_cons_1 in Hk as [Hkey Hk].
  assert (Hunc : forall (b : bool) g by_, RunningCost_wf g -> RunningCost_wf by_ ->
    grow id g (if b then incr_gas_full None g by_ else Ok g) (if b then incr_gas_full (Some l) g by_ else Ok g)).
  { intros b g' by_ Hg' Hb. destruct b; [by apply grow_incr_full|by apply (grow_ret id)]. }
  apply grow_bind_incr; [done|apply access_cost_u64; [by apply idx_costs_u64|done]|intros g1 Hg1].
  eapply grow_bind; [apply Hunc; [done|by apply read_container_wf]|intros g2 _ Hg2]. unfold id in *.
  apply grow_pure. intros key_val Hkv. apply grow_pure. intros [curr' cache'] Hidx.
  destruct (safe_Ok _ _ _ (safe_as_cell _ Hkey) Hkv) as [Hcell _].
  destruct (safe_Ok _ _ _ (safe_vm_idx n curr key_val cache cached Hcv Hck Hcell Hc) Hidx) as [Hcurr' Hc']. cbn in Hcurr', Hc'.
  eapply grow_bind; [apply Hunc; [done|]|intros g3 _ Hg3].
  { apply read_cell_wf; [done|]. destruct (vm_value curr'.1); try lia. apply aligned_size_nonneg. }
  by apply IH.
Qed.

Lemma ins_loop_grow cached k n : forall curr stack cache g,
  entry_ok n curr -> Forall (entry_ok n) stack -> length cache = n -> RunningCost_wf g ->
  grow snd g (ins_loop None cm cached k curr stack cache g) (ins_loop (Some l) cm cached k curr stack cache g).
Proof using Hcm SL.
  induction k as [|k IH]; intros curr stack cache g [Hcv Hck] Hs Hc Hg; cbn [ins_loop]; [by apply (grow_ret snd)|].
  apply grow_pure. intros [ek stack1] E1. destruct stack as [|ek' stack']; [done|]. injection E1 as -> ->. apply Forall_cons_1 in Hs as [[Hek Hekk] Hs].
  apply grow_pure. intros [container stack2] E2. destruct stack1 as [|c' stack'']; [done|]. injection E2 as -> ->. apply Forall_cons_1 in Hs as [[Hct Hctk] Hs].
  apply grow_bind_incr; [done|apply access_cost_u64; [by apply ins_costs_u64|done]|intros g1 Hg1].
  eapply (grow_bind id); [destruct (negb cached); [apply grow_incr_full; [done|by apply read_container_wf]|by apply (grow_ret id)]|intros g2 _ Hg2]. unfold id in *.
  apply grow_pure. intros key_cell Hkc. destruct (safe_Ok _ _ _ (safe_as_cell _ Hek) Hkc) as [Hcell _].
  apply grow_pure. intros [cache' hit] Hv. assert (length cache' = n) as Hc'.
  { rewrite <- Hc in *. apply (safe_Ok _ _ _ (safe_visit cache _ (key_ok_push _ _ _ Hctk)) Hv). }
  destruct (_ && _); [apply grow_err|]. apply grow_pure. intros next Hn. apply IH; try done.
  split; [|done]. cbn. exact (safe_Ok _ _ _ (safe_ins_value _ _ _ Hct Hcell Hcv) Hn).
Qed.

Implicit Types st : VmState Event.
Lemma exec_op_grow n (op : Op R) st : op_wf op -> Forall (entry_ok n) (st_stack st) -> length (st_cache st) = n -> RunningCost_wf (st_gas st) ->
  (stack_req op <= length (st_stack st))%nat -> grow st_gas (st_gas st) (exec_op None cm op st) (exec_op (Some l) cm op st).
Proof using Hcm SL.
  destruct st as [stack ev ca g]. cbn [st_stack st_cache st_gas]. intros Hop Hs Hn Hg Hr.
  destruct op; cbn [exec_op op_wf stack_req] in *;
    unfold charge, exec_lt, exec_eq, exec_type, exec_size, exec_new, exec_bool2, exec_neg,
      exec_root, exec_pop, exec_popeq, exec_addi, exec_subi, exec_push, exec_add, exec_sub, exec_concat, exec_dup, exec_swap;
    cbn [st_stack st_events st_cache st_gas]; try (grow_go; fail).
  - grow_go. apply affine_u64; [cm_field|cm_field|ints].
  - unfold exec_log. cbn [st_stack st_events st_cache st_gas]. apply grow_pure. intros [e rest] _. apply grow_pure. intros nodes Hnodes.
    assert (is_u64 (foldr Z.add 0 (map (fun n => Z.of_nat PERSISTENT_HASH_BYTES + n) nodes))) as Hsz.
    { apply (log_sum_bound (vm_value e.1)). by destruct (serialize_to_node_list_bounded _ _); simplify_eq/=. }
    apply grow_bind_incr; [done|apply log_cost_u64; [done|ints]|intros g1 Hg1]. apply grow_bind_incr_full; [done| |intros g2 Hg2; grow_go].
    unfold RunningCost_wf, CostDuration_ZERO. cbn. split_and!; try done; ints.
  - grow_go. destruct storage, value; cbn [push_cost]; auto with vm.
  - grow_go. apply affine_u64; [cm_field|cm_field|ints].
  - grow_go. apply affine_u64; [cm_field|cm_field|ints].
  - grow_go. apply affine_u64; [cm_field|cm_field|]. match goal with |- 0 <= AlignedValue_serialized_size ?a + AlignedValue_serialized_size ?b =>
      pose proof (aligned_size_nonneg a); pose proof (aligned_size_nonneg b) end. lia.
  - unfold exec_member. cbn [st_stack st_events st_cache st_gas]. destruct stack as [|ek [|em rest]]; try (cbn in Hr; lia).
    apply Forall_cons_1 in Hs as [_ Hs]. apply Forall_cons_1 in Hs as [[Hem _] _]. pose proof (log_size_nonneg _ _ Hem) as Hlog.
    cbn [pop mbind outcome_bind]. grow_go.
  - unfold exec_rem. cbn [st_stack st_events st_cache st_gas]. destruct stack as [|ek [|em rest]]; try (cbn in Hr; lia).
    apply Forall_cons_1 in Hs as [_ Hs]. apply Forall_cons_1 in Hs as [[Hem _] _]. pose proof (log_size_nonneg _ _ Hem) as Hlog.
    cbn [pop mbind outcome_bind]. apply grow_pure. intros key _. cbn [mbind outcome_bind].
    apply grow_bind_incr; [done| |intros g1 Hg1].
    { destruct (vm_value em.1); cbn [rem_cost]; auto with vm. }
    eapply (grow_bind id); [destruct (negb cached); [apply grow_incr_full; [done|destruct (vm_value em.1); auto with vm]|by apply (grow_ret id)]|].
    intros g2 _ Hg2. unfold id in *. grow_go.
  - unfold exec_idx. cbn [st_stack st_events st_cache st_gas]. apply grow_pure. intros [keys rest] Hk.
    destruct (safe_Ok _ _ _ (safe_pop_keys n path stack Hop Hs Hr) Hk) as (Hkeys & Hrest & _). cbn in Hkeys, Hrest.
    apply grow_pure. intros [curr rest'] Hp. destruct rest as [|c r]; [done|]. injection Hp as -> ->. apply Forall_cons_1 in Hrest as [Hcurr _].
    eapply (grow_bind snd); [by apply (idx_loop_grow _ _ _ n)|]. intros [[[curr' stack'] cache'] g'] _ Hg'. cbn in Hg' |- *. by apply (grow_ret st_gas).
  - unfold exec_ins. cbn [st_stack st_events st_cache st_gas]. apply grow_pure. intros [curr rest] Hp. destruct stack as [|c r]; [done|]. injection Hp as -> ->.
    apply Forall_cons_1 in Hs as [Hcurr Hs].
    eapply (grow_bind snd); [by apply (ins_loop_grow _ _ n)|]. intros [[[curr' stack'] cache'] g'] _ Hg'. cbn in Hg' |- *. by apply (grow_ret st_gas).
Qed.

Lemma run_loop_grow n fuel step_limit : forall steps (program : list (Op R)) st,
  Forall op_wf program -> Forall (entry_ok n) (st_stack st) -> length (st_cache st) = n -> RunningCost_wf (st_gas st) ->
  grow st_gas (st_gas st) (run_loop None cm fuel step_limit steps program st) (run_loop (Some l) cm fuel step_limit steps program st).
Proof using Hcm SL ML.
  induction fuel as [|fuel IH]; intros steps program st Hp Hs Hn Hg; destruct program as [|op rest]; cbn [run_loop]; try (by apply grow_ret).
  - destruct (match step_limit with Some _ => _ | None => _ end); [by apply grow_ret|apply grow_panic].
  - destruct (match step_limit with Some _ => _ | None => _ end); [by apply grow_ret|]. pose proof (Forall_cons_1 _ _ _ Hp) as [Hop _].
    assert (state_ok None n st) as Hok by (by split_and!).
    eapply (grow_bind (fun r => st_gas r.2)).
    + unfold vm_step. destruct (Nat.ltb_spec (length (st_stack st)) (stack_req op)) as [|Hr]; [apply grow_err|].
      eapply grow_bind; [by apply (exec_op_grow n)|]. intros st1 _ Hg1. apply grow_pure. intros [skip st2] Hskip.
      assert (st_gas st2 = st_gas st1) as Heq.
      { destruct op; cbn [next_skip] in Hskip; try (by injection Hskip as _ <-). inv_binds. by destruct a; inv_binds. }
      rewrite <- Heq in *. destruct (_ <? skip); [apply grow_err|]. destruct (_ <? _)%nat; [apply grow_err|]. by apply (grow_ret (fun r : list (Op R) * VmState Event => st_gas r.2)).
    + intros [program' st'] Hstep Hg'. cbn in Hg' |- *.
      destruct (safe_Ok _ _ _ (vm_step_safe None cm Hcm n op (op :: rest) st Hop Hok) Hstep) as ([(Hs' & Hn' & _) _] & _ & k & _ & Hprog). cbn in Hs', Hn', Hprog. subst program'.
      apply IH; try done. by apply Forall_drop.
Qed.

(** A run under a limit that covers what it costs without one. *)
Lemma run_program_enough initial (program : list (Op R)) res :
  Forall (fun v => vwf (vm_value v)) initial -> Forall op_wf program ->
  run_program None cm initial program = Ok res -> within (Some l) (res_gas_cost res) -> run_program (Some l) cm initial program = Ok res.
Proof using Hcm SL ML.
  intros Hi Hp Hrun Hl. unfold run_program, run_program_step_limited in *. apply bind_Ok_inv in Hrun as (st & Hst & [= <-]).
  destruct (initial_state_ok (Event := Event) None initial Hi I) as (Hs & Hn & Hg & _).
  destruct (run_loop_grow _ _ _ _ _ _ Hp Hs Hn Hg st Hst) as (_ & _ & He). by rewrite He.
Qed.
End enough.
