(* ===== verification/Partition.v ===== *)
(** * Splitting calls into guaranteed and fallible transcripts ([ledger/src/construct.rs])

    [partition_transcripts] takes the programs of a set of calls, finds out
    which call makes which other one by running them, and decides how many
    sections of each program, separated by checkpoints, fit into the budget of
    the guaranteed part of a transaction.  The heuristics use [f64]s. *)
From S2P Require Import Prelude Time CostModel Fab FabSerial MerkleTree FieldRepr TimeFilterMap Zswap StateValue VmOps Vm.
From S2P Require Import Coin DeltaTracking Runtime LedgerData LedgerCost Dust Ledger VerifyData.
Set Warnings "-register-all".
#[local] Open Scope Z_scope.

(** ** Floating point

    The non-negative doubles in the range of normal numbers: [(m, e)] stands
    for [m * 2^e] with a mantissa of at most 53 bits. *)
Abbreviation f64 := (Z * Z)%type.
(** [m / 2^d], to the nearest, ties to even. *)
Definition round_even (m d : Z) : Z :=
  let q := m / 2 ^ d in let r := m mod 2 ^ d in
  if (2 ^ d <? 2 * r) || ((2 * r =? 2 ^ d) && Z.odd q) then q + 1 else q.
Definition f64_round (m e : Z) : f64 :=
  let d := Z.log2 m - 52 in if d <=? 0 then (m, e) else (round_even m d, e + d).
Definition f64_of_u64 (x : Z) : f64 := f64_round x 0.
Definition f64_mul (a b : f64) : f64 := f64_round (a.1 * b.1) (a.2 + b.2).
(** [1.0 / n]: the quotient to more bits than are kept, and a sticky bit. *)
Definition f64_recip (n : Z) : f64 :=
  let k := 56 + Z.log2 n in
  f64_round (2 * (2 ^ k / n) + (if 2 ^ k mod n =? 0 then 0 else 1)) (- k - 1).
Definition f64_1_2 : f64 := (5404319552844595, -52).
(** [as u64]: towards zero, saturating. *)
Definition f64_to_u64 (x : f64) : Z := Z.min u64_max (if 0 <=? x.2 then x.1 * 2 ^ x.2 else x.1 / 2 ^ (- x.2)).
Definition f64_ceil_to_u64 (x : f64) : Z := Z.min u64_max (if 0 <=? x.2 then x.1 * 2 ^ x.2 else div_ceil x.1 (2 ^ (- x.2))).

(** [Mul<f64>] for [CostDuration] and [RunningCost]. *)
Definition CostDuration_mul_f64 (self : CostDuration) (rhs : f64) : CostDuration := f64_to_u64 (f64_mul (f64_of_u64 self) rhs).
Definition RunningCost_mul_f64 (self : RunningCost) (rhs : f64) : RunningCost := {|
  rc_read_time := CostDuration_mul_f64 (rc_read_time self) rhs; rc_compute_time := CostDuration_mul_f64 (rc_compute_time self) rhs;
  rc_bytes_written := f64_ceil_to_u64 (f64_mul (f64_of_u64 (rc_bytes_written self)) rhs);
  rc_bytes_deleted := f64_ceil_to_u64 (f64_mul (f64_of_u64 (rc_bytes_deleted self)) rhs) |}.

Declare Scope partition_scope.
#[local] Infix "+" := RunningCost_add : partition_scope.
#[local] Notation "c * n" := (RunningCost_mul c n%Z) : partition_scope.
Delimit Scope partition_scope with pc.

Inductive PartitionFailure `{KeyTypes} :=
| PF_Transcript (err : TranscriptRejected)
| NonForest
| GuaranteedOnlyUnsatisfied
| IllegalSegmentZero
| PF_Merge (err : MalformedOffer).

Definition MIN_PROOF_SIZE : Z := DUST_SPEND_PROOF_SIZE.
(** The serialized size of an address, empty effects, a program and a commitment. *)
Class PreTranscriptSizes := { pre_transcript_size : list (Op AlignedValue) -> option Fr -> Z }.

Section partition.
Context `{Hashing} {FO : FieldOrder} {SS : StateStorage} {SA : StateArena} `{KeyTypes} `{!Sizes} `{!PreTranscriptSizes}.
Abbreviation Results := (QueryResults StateValue).

Record PreTranscript := { pt_context : QueryContext; pt_program : list (Op AlignedValue); comm_comm : option Fr }.
Definition is_ckpt (op : Op AlignedValue) : bool := match op with Op_Ckpt => true | _ => false end.
Definition no_checkpoints (self : PreTranscript) : nat := length (List.filter is_ckpt (pt_program self)).
(** The operations before the [n]-th checkpoint, counted from 1. *)
Fixpoint take_to_ckpt (n : nat) (program : list (Op AlignedValue)) : list (Op AlignedValue) :=
  match program with
  | [] => []
  | op :: program =>
      if is_ckpt op then match (n - 1)%nat with O => [] | n' => op :: take_to_ckpt n' program end else op :: take_to_ckpt n program
  end.
Definition runtime_model (params : LedgerParameters) : VmCostModel := runtime_cost_model (cost_model params).
Definition run_to_ckpt_no (self : PreTranscript) (n : nat) (params : LedgerParameters) : tr_result Results :=
  query (pt_context self) (take_to_ckpt (S n) (pt_program self)) None (runtime_model params).
Definition guaranteed_budget (self : PreTranscript) (params : LedgerParameters) : CostDuration :=
  CostDuration_mul (time_to_dismiss_per_byte (limits params)) (MIN_PROOF_SIZE + pre_transcript_size (pt_program self) (comm_comm self)).

(** ** Estimates *)
Definition parallel_compute {E} (model : TransactionCostModel) (validation : RunningCost) : outcome E RunningCost :=
  time ← unwrap (CostDuration_div_u64 (rc_compute_time validation) (parallelism_factor model));
  Ok {| rc_read_time := rc_read_time validation; rc_compute_time := time; rc_bytes_written := rc_bytes_written validation;
        rc_bytes_deleted := rc_bytes_deleted validation |}.
Definition gas_heuristic {E} (self : Results) (params : LedgerParameters) (include_external : bool) (public_input_count : Z)
    : outcome E RunningCost :=
  let transcript_gas_cost_with_overhead := RunningCost_mul_f64 (qr_gas_cost self) f64_1_2 in
  if negb include_external then Ok transcript_gas_cost_with_overhead
  else
    let model := cost_model params in
    let validation := (RunningCost_ZERO + (cell_read model VERIFIER_KEY_SIZE + map_index model EXPECTED_CONTRACT_DEPTH
                       + map_index model EXPECTED_OPERATIONS_DEPTH))%pc in
    let validation := if 0 <? public_input_count
      then add_compute (validation + proof_verify model public_input_count)%pc (cm_verifier_key_load (runtime_cost_model model)) else validation in
    validation ← parallel_compute model validation;
    let application := (RunningCost_ZERO + (map_index model EXPECTED_CONTRACT_DEPTH + map_insert EXPECTED_CONTRACT_DEPTH true
                        + map_index model 1 + map_insert 1 true) + stack_setup_cost_for_effects model (qc_effects (qr_context self)))%pc in
    Ok (transcript_gas_cost_with_overhead + validation + application)%pc.

Definition effects_of (r : Results) : Effects := qc_effects (qr_context r).
Definition map_count {K V} `{Countable K} (m : gmap K V) : Z := Z.of_nat (size m).
Definition set_count {K} `{Countable K} (s : gset K) : Z := Z.of_nat (size s).
Definition has_night {V} (m : gmap TokenType V) : bool := bool_decide (is_Some (m !! Unshielded NIGHT)).
Definition per_tx_cost_reserve {E} (full_runs : list Results) (model : TransactionCostModel) : outcome E CostDuration :=
  let cm := runtime_cost_model model in
  let zswap_inputs := Zsum ((fun r => set_count (claimed_nullifiers (effects_of r))) <$> full_runs) in
  let zswap_outputs := Zsum ((fun r => set_count (claimed_shielded_receives (effects_of r))) <$> full_runs) in
  let n_inputs := Zsum ((fun r => map_count (unshielded_inputs (effects_of r))) <$> full_runs) in
  let n_outputs := Zsum ((fun r => (map_count (unshielded_outputs (effects_of r)) + map_count (unshielded_mints (effects_of r)))%Z) <$> full_runs) in
  let night_inputs := Z.b2z (existsb (fun r => has_night (unshielded_inputs (effects_of r))) full_runs) in
  let night_outputs := Z.b2z (existsb (fun r => has_night (unshielded_outputs (effects_of r))) full_runs) in
  let validation := baseline_cost model in
  let validation := (validation + proof_verify model INPUT_PIS * zswap_inputs)%pc in
  let validation := (validation + proof_verify model OUTPUT_PIS * zswap_outputs)%pc in
  let validation := if 0 <? zswap_inputs + zswap_outputs
    then add_compute (add_compute validation (cm_pedersen_valid cm)) (cm_ec_mul cm) else validation in
  let validation := add_compute validation (CostDuration_mul (cm_signature_verify_constant cm) n_inputs) in
  let validation := (validation + proof_verify model DUST_SPEND_PIS)%pc in
  validation ← parallel_compute model validation;
  let application := replay_protection_cost model (baseline_cost model) in
  let application := (application + (map_index model EXPECTED_UTXO_DEPTH + map_remove model EXPECTED_UTXO_DEPTH true + cell_delete UTXO_SIZE) * n_inputs)%pc in
  let application := (application + (map_insert EXPECTED_UTXO_DEPTH false + cell_write UTXO_SIZE false) * n_outputs)%pc in
  let application := (application + (merkle_tree_insert_unamortized model 32 false + cell_write DUST_GENERATION_INFO_SIZE false) * night_inputs)%pc in
  let application := (application + (map_index model EXPECTED_UTXO_DEPTH + cell_read model FR_BYTES) * night_outputs)%pc in
  let application := (application + (cell_read model 8 + cell_write 8 true) * night_outputs)%pc in
  let application := (application + (merkle_tree_insert_amortized model 32 false + cell_write DUST_GENERATION_INFO_SIZE false) * night_outputs)%pc in
  let application := (application + (map_insert EXPECTED_UTXO_DEPTH false + cell_write 8 false) * night_outputs)%pc in
  let application := (application + (cell_read model 8 + cell_write 8 true) * night_outputs)%pc in
  let application := (application + (merkle_tree_insert_amortized model EXPECTED_UTXO_DEPTH false + cell_write FR_BYTES false) * night_outputs)%pc in
  let application := (application + RunningCost_compute (CostDuration_mul (CostDuration_mul (cm_transient_hash cm) FRESH_DUST_COMMITMENT_HASHES) night_outputs))%pc in
  let application := (application + (map_index model 32 + map_insert EXPECTED_UTXO_DEPTH false + cell_write FR_BYTES false + cell_read model 8
    + cell_write 8 true + merkle_tree_insert_amortized model EXPECTED_UTXO_DEPTH false + cell_write FR_BYTES false + time_filter_map_lookup model * 2))%pc in
  let total := (validation + application)%pc in
  Ok (Z.max (rc_compute_time total) (rc_read_time total)).

(** ** Splitting a program *)
Fixpoint split_program (n : nat) (program : list (Op AlignedValue)) : list (Op AlignedValue) * list (Op AlignedValue) :=
  match program with
  | [] => ([], [])
  | op :: program =>
      let n := if (0 <? n)%nat && is_ckpt op then (n - 1)%nat else n in
      let '(prog_guaranteed, prog_fallible) := split_program n program in
      if (n =? 0)%nat then (prog_guaranteed, op :: prog_fallible) else (op :: prog_guaranteed, prog_fallible)
  end.
Definition mk_transcript {E} (params : LedgerParameters) (prog : list (Op AlignedValue)) (res : Results) : outcome E (option Transcript) :=
  match prog with
  | [] => Ok None
  | _ => gas ← gas_heuristic res params false 0;
         Ok (Some {| t_gas := gas; t_effects := effects_of res; t_program := prog; t_version := Some Transcript_VERSION |})
  end.
Definition with_effects (c : QueryContext) (eff : Effects) : QueryContext := {|
  qc_state := qc_state c; qc_effects := eff; qc_address := qc_address c; call_context := call_context c |}.
Abbreviation TranscriptPair := (option Transcript * option Transcript)%type.
Definition split_at (self : PreTranscript) (n : nat) (params : LedgerParameters) : tr_result TranscriptPair :=
  let '(prog_guaranteed, prog_fallible) := split_program n (pt_program self) in
  guaranteed_res ← query (pt_context self) prog_guaranteed None (runtime_model params);
  let continuation_context := with_effects (qr_context guaranteed_res) Effects_default in
  fallible_res ← query continuation_context prog_fallible None (runtime_model params);
  g ← mk_transcript params prog_guaranteed guaranteed_res;
  f ← mk_transcript params prog_fallible fallible_res;
  Ok (g, f).

(** ** The call graph

    [g !! i] lists the calls that call [i] makes.  The vectors that are popped
    are kept with their last element first. *)
Abbreviation Graph := (list (list nat)).
Definition callees (g : Graph) (i : nat) : list nat := default [] (g !! i).
Definition claimed_commitments (r : Results) : list Fr := ccv_comm <$> elements (claimed_contract_calls (effects_of r)).
(** The calls whose commitment is claimed. *)
Definition claimed_idx (calls : list PreTranscript) (r : Results) : list nat :=
  List.filter (fun i => match calls !! i ≫= comm_comm with Some comm => bool_decide (comm ∈ claimed_commitments r) | None => false end)
    (seq 0 (length calls)).
(** A walk from [i] that fails when it reaches a node twice. *)
Fixpoint acyclic_from (fuel : nat) (g : Graph) (visited reachable : list nat) : outcome PartitionFailure unit :=
  match reachable with
  | [] => Ok tt
  | next :: rest =>
      if bool_decide (next ∈ visited) then Err NonForest
      else match fuel with O => Panic | S fuel => acyclic_from fuel g (next :: visited) (rev (callees g next) ++ rest) end
  end.
(** The nodes in the order in which they are popped from a frontier. *)
Fixpoint walk {E} (fuel : nat) (g : Graph) (frontier : list nat) : outcome E (list nat) :=
  match frontier with
  | [] => Ok []
  | item :: rest =>
      match fuel with
      | O => Panic
      | S fuel => visited ← walk fuel g (rev (callees g item) ++ rest); Ok (item :: visited)
      end
  end.
Definition n_callers (g : Graph) (n i : nat) : nat := length (filter (fun j => i ∈ callees g j) (seq 0 n)).
Definition root_nodes (g : Graph) (n : nat) : list nat := filter (fun i => n_callers g n i = 0%nat) (seq 0 n).

Fixpoint try_map {E A B} (f : A -> outcome E B) (l : list A) : outcome E (list B) :=
  match l with
  | [] => Ok []
  | x :: l => y ← f x; ys ← try_map f l; Ok (y :: ys)
  end.
Definition check_forest (g : Graph) (n : nat) : outcome PartitionFailure unit :=
  _ ← try_for_each (fun i => acyclic_from n g [i] (rev (callees g i))) (seq 0 n);
  require (forallb (fun i => (n_callers g n i <=? 1)%nat) (seq 0 n)) NonForest.
(** Enough for walks over a forest of [n] nodes from at most [n] of them. *)
Definition walk_fuel (n : nat) : nat := (n * n + n)%nat.

(** ** Partitioning *)
Definition program_field_size (program : list (Op AlignedValue)) : Z := Zsum (op_field_size <$> program).
Definition max_time_of {E} (r : Results) (params : LedgerParameters) (public_input_count : Z) : outcome E CostDuration :=
  gas ← gas_heuristic r params true public_input_count; Ok (RunningCost_max_time gas).
(** What it takes to have the sections of [root] up to a run in the guaranteed part, with the calls they make. *)
Definition required_budget (params : LedgerParameters) (full_runs : list Results) (g : Graph) (public_input_count : Z)
    (partial_res : Results) (claimed : list nat) : outcome PartitionFailure CostDuration :=
  own ← max_time_of partial_res params public_input_count;
  nodes ← walk (walk_fuel (length full_runs)) g (rev claimed);
  try_fold (fun acc next => r ← unwrap (full_runs !! next); t ← max_time_of r params public_input_count; Ok (CostDuration_add acc t)) own nodes.
(** The most sections of [root] that fit, from [k] downwards, and the calls they make. *)
Fixpoint most_sections (calls : list PreTranscript) (params : LedgerParameters) (full_runs : list Results) (g : Graph)
    (call : PreTranscript) (budget : CostDuration) (k : nat) : outcome PartitionFailure (nat * list nat) :=
  match k with
  | O => Ok (0%nat, [])
  | S k' =>
      partial_res ← map_err PF_Transcript (run_to_ckpt_no call k' params);
      let claimed := claimed_idx calls partial_res in
      required ← required_budget params full_runs g (program_field_size (pt_program call) + 2) partial_res claimed;
      if required <=? budget then Ok (k, claimed) else most_sections calls params full_runs g call budget k'
  end.
Definition closure_budgets (calls : list PreTranscript) (params : LedgerParameters) (full_runs : list Results) (closures : list (list nat))
    : outcome PartitionFailure (list CostDuration) :=
  let budgets := (fun closure => CostDuration_sum ((fun i => from_option (fun c => guaranteed_budget c params) 0 (calls !! i)) <$> closure)) <$> closures in
  tx_reserve ← per_tx_cost_reserve full_runs (cost_model params);
  let spare := CostDuration_sub (CostDuration_sub (min_time_to_dismiss (limits params)) tx_reserve) (CostDuration_sum budgets) in
  Ok ((fun budget => CostDuration_add budget (CostDuration_mul_f64 spare (f64_recip (count closures)))) <$> budgets).
(** The sections of one root and of everything it calls in them. *)
Definition mark_sections (calls : list PreTranscript) (g : Graph) (sections : list nat) (rs : nat * (nat * list nat))
    : outcome PartitionFailure (list nat) :=
  let '(root, (n, claimed)) := rs in
  nodes ← walk (walk_fuel (length calls)) g (rev claimed);
  Ok (foldl (fun s next => <[next := (from_option no_checkpoints 0%nat (calls !! next) + 1)%nat]> s) (<[root := n]> sections) nodes).
Definition call_graph (calls : list PreTranscript) (full_runs : list Results) : Graph := claimed_idx calls <$> full_runs.
Definition sections_in_guaranteed (calls : list PreTranscript) (params : LedgerParameters) : outcome PartitionFailure (list nat) :=
  let n := length calls in
  full_runs ← map_err PF_Transcript (try_map (fun pt => run_to_ckpt_no pt (no_checkpoints pt) params) calls);
  let g := call_graph calls full_runs in
  _ ← check_forest g n;
  let roots := root_nodes g n in
  closures ← try_map (fun r => walk (walk_fuel n) g [r]) roots;
  budgets ← closure_budgets calls params full_runs closures;
  preliminary ← try_map (fun '(root, budget) =>
      call ← unwrap (calls !! root);
      most_sections calls params full_runs g call budget (no_checkpoints call + 1)%nat) (zip roots budgets);
  try_fold (mark_sections calls g) (replicate n 0%nat) (zip roots preliminary).
Definition partition_transcripts (calls : list PreTranscript) (params : LedgerParameters) : outcome PartitionFailure (list TranscriptPair) :=
  sections ← sections_in_guaranteed calls params;
  map_err PF_Transcript (try_map (fun '(call, n) => split_at call n params) (zip calls sections)).
End partition.
