(* ===== verification/PartitionProps.v ===== *)
(** * Properties of partitioned transcripts

    The split programs are the original ones, cut at checkpoints; each part
    runs, with the gas it declares, to the effects it declares; calls made in a
    guaranteed part are guaranteed and calls made in a fallible part fallible. *)
From S2P Require Import Prelude Time CostModel Fab FabSerial MerkleTree FieldRepr TimeFilterMap Zswap StateValue VmOps Vm VmSafety VmGas.
From S2P Require Import Coin DeltaTracking Runtime VmProps RuntimeProps LedgerData LedgerCost Dust Ledger VerifyData Balance WellFormed Partition.
Set Warnings "-register-all".
#[local] Open Scope Z_scope.

(** ** The overhead factor never lowers a cost *)
Lemma round_even_below m d : 0 <= m -> 0 <= d -> 2 * m <= 2 * (round_even m d * 2 ^ d) + 2 ^ d /\ 0 <= round_even m d.
Proof.
  intros Hm Hd. unfold round_even. assert (0 < 2 ^ d) as Hp by lia. pose proof (Z.div_mod m (2 ^ d) ltac:(lia)) as E.
  pose proof (Z.mod_pos_bound m (2 ^ d) Hp) as Hr. pose proof (Z.div_pos m (2 ^ d) Hm Hp) as Hq.
  destruct (Z.ltb_spec (2 ^ d) (2 * (m mod 2 ^ d))); cbn [orb]; [split; nia|].
  destruct ((2 * (m mod 2 ^ d) =? 2 ^ d) && Z.odd (m / 2 ^ d)); split; nia.
Qed.
(** Rounding loses at most the relative precision of a double. *)
Lemma f64_round_below m e : 0 <= m -> exists d, 0 <= d /\ (f64_round m e).2 = e + d /\ 0 <= (f64_round m e).1 /\
  m * (2 ^ 53 - 1) <= (f64_round m e).1 * 2 ^ d * 2 ^ 53.
Proof.
  intros Hm. unfold f64_round. destruct (Z.leb_spec (Z.log2 m - 52) 0) as [Hle|Hgt].
  - exists 0. cbn [fst snd]. rewrite Z.pow_0_r. split_and!; lia.
  - set (d := Z.log2 m - 52) in *. exists d. cbn [fst snd]. destruct (round_even_below m d Hm ltac:(lia)) as [Hb Hn]. split_and!; [lia|lia|done|].
    assert (2 ^ d * 2 ^ 52 <= m) as Hlog.
    { rewrite <- Z.pow_add_r by lia. replace (d + 52) with (Z.log2 m) by lia. apply Z.log2_spec. destruct (Z.eq_dec m 0) as [->|]; [cbn in d; lia|lia]. }
    nia.
Qed.
Lemma scale_value x : 0 <= x -> let v := f64_mul (f64_of_u64 x) f64_1_2 in
  exists d, 0 <= d /\ v.2 = d - 52 /\ 0 <= v.1 /\ x * 2 ^ 52 <= v.1 * 2 ^ d.
Proof.
  intros Hx v. destruct (f64_round_below x 0 Hx) as (d1 & Hd1 & E1 & Hm1 & Hb1). fold (f64_of_u64 x) in *. set (a := f64_of_u64 x) in *.
  assert (0 <= a.1 * f64_1_2.1) as Hp by (unfold f64_1_2; cbn [fst]; nia).
  destruct (f64_round_below (a.1 * f64_1_2.1) (a.2 + f64_1_2.2) Hp) as (d2 & Hd2 & E2 & Hm2 & Hb2). fold v in E2, Hm2, Hb2. fold (f64_mul a f64_1_2) in *. fold v in E2, Hm2, Hb2.
  exists (d1 + d2). split; [lia|]. split; [rewrite E2, E1; unfold f64_1_2; cbn [snd]; lia|]. split; [done|]. rewrite Z.pow_add_r by lia.
  unfold f64_1_2 in *. cbn [fst] in *. set (p1 := 2 ^ d1) in *. set (p2 := 2 ^ d2) in *. assert (0 < p1) by (unfold p1; lia). assert (0 < p2) by (unfold p2; lia).
  assert (x * 2 ^ 52 * 2 ^ 106 <= v.1 * p2 * p1 * 2 ^ 106) as Hfin; [|nia].
  assert (x * (5404319552844595 * (2 ^ 53 - 1) * (2 ^ 53 - 1)) <= v.1 * p2 * p1 * 2 ^ 106) as Hmid by nia.
  assert (2 ^ 52 * 2 ^ 106 <= 5404319552844595 * (2 ^ 53 - 1) * (2 ^ 53 - 1)) as Hnum by (vm_compute; discriminate). nia.
Qed.
Lemma to_u64_ge x v d : 0 <= x <= u64_max -> 0 <= d -> v.2 = d - 52 -> x * 2 ^ 52 <= v.1 * 2 ^ d -> x <= f64_to_u64 v /\ x <= f64_ceil_to_u64 v.
Proof.
  intros Hx Hd E Hv. unfold f64_to_u64, f64_ceil_to_u64. rewrite E. destruct (Z.leb_spec 0 (d - 52)) as [Hle|Hlt].
  - assert (2 ^ d = 2 ^ (d - 52) * 2 ^ 52) as Hpow by (rewrite <- Z.pow_add_r by lia; f_equal; lia). rewrite Hpow in Hv. assert (x <= v.1 * 2 ^ (d - 52)) by nia. lia.
  - assert (2 ^ 52 = 2 ^ (- (d - 52)) * 2 ^ d) as Hpow by (rewrite <- Z.pow_add_r by lia; f_equal; lia). rewrite Hpow in Hv.
    assert (0 < 2 ^ d) by lia. assert (0 < 2 ^ (- (d - 52))) as Hpos by lia. assert (x * 2 ^ (- (d - 52)) <= v.1) as Hq by nia.
    assert (x <= v.1 / 2 ^ (- (d - 52))) as Hfl by (apply Z.div_le_lower_bound; lia). split; [lia|].
    apply Z.min_glb; [lia|]. etransitivity; [exact Hfl|]. unfold div_ceil. apply Z.div_le_mono; lia.
Qed.
Lemma overhead_covers c : RunningCost_wf c -> RunningCost_le c (RunningCost_mul_f64 c f64_1_2).
Proof.
  assert (forall x, is_u64 x -> x <= f64_to_u64 (f64_mul (f64_of_u64 x) f64_1_2) /\ x <= f64_ceil_to_u64 (f64_mul (f64_of_u64 x) f64_1_2)) as Hs.
  { intros x Hx. destruct (scale_value x) as (d & Hd & E & _ & Hv); [ints|]. apply (to_u64_ge x _ d); [ints|done|done|done]. }
  intros (H1 & H2 & H3 & H4). unfold RunningCost_le, RunningCost_mul_f64, CostDuration_mul_f64. cbn. split_and!; by apply Hs.
Qed.

(** ** Queries with enough gas *)
(** Sizes are unsigned. *)
Class ArenaSizes `{StateArena} : Prop := {
  direct_key_size_nonneg k : 0 <= direct_key_size k;
  arena_node_size_nonneg m v h n : arena_nodes m v !! h = Some n -> 0 <= node_size n }.

Section queries.
Context `{Hashing} {FO : FieldOrder} {FL : FieldOrderLaws} {SS : StateStorage} {SSL : StateStorageLaws SS}.
Context {SA : StateArena} {SL : StateArenaLaws} {SZ : ArenaSizes}.
#[local] Set Default Proof Using "All".
Lemma compute_bytes_nonneg m v keys n : compute_bytes_from_keys (E := TranscriptRejected) (arena_nodes m v) direct_key_size keys = Ok n -> 0 <= n.
Proof.
  unfold compute_bytes_from_keys. assert (0 <= 0) as H0 by lia. revert H0. generalize 0 at 2 3 as acc. generalize (elements keys) as l.
  induction l as [|k l IH]; intros acc Ha; cbn [try_fold]; [intros [= <-]; done|]. intros Hf. inv_bind. apply IH in Hf; [done|].
  destruct k as [h|? ? ?]; [destruct (arena_nodes m v !! h) as [nd|]; cbn in E; [|done]|]; injection E as <-; unfold trunc; by apply Z.mod_pos_bound.
Qed.
Lemma update_cost_wf cs new cm cs' cost : cm_wf cm ->
  ChargedState_update (E := TranscriptRejected) cs new (update_cpu_cost cm) (update_gc_limit cm) = Ok (cs', cost) -> cs_state cs' = new /\ RunningCost_wf cost.
Proof.
  intros Hcm Hu. unfold ChargedState_update in Hu. inv_binds. split; [done|]. unfold incremental_write_delete_costs in E. inv_binds. destruct a2 as [k1 keys_removed].
  unfold WriteDeleteResults_new in E. inv_binds. apply compute_bytes_nonneg in E3, E4.
  assert (RunningCost_wf (update_cpu_cost cm (Z.of_nat (size a0)) (Z.of_nat (size keys_removed)))) as (Hr & Hc & Hw & Hd).
  { apply compute_only_wf. repeat apply CostDuration_add_u64; auto with vm. }
  unfold wd_running_cost, RunningCost_wf, RunningCost_add, CostDuration_add, sat_add. cbn [wd_bytes_written wd_bytes_deleted wd_processing_cost rc_read_time rc_compute_time rc_bytes_written rc_bytes_deleted].
  split_and!; ints.
Qed.
Lemma query_inv self (program : list (Op AlignedValue)) limit cm r : cm_wf cm -> within limit RunningCost_ZERO -> QueryContext_wf self -> Forall op_wf program ->
  query self program limit cm = Ok r ->
  exists res state_cost, run_program limit cm (to_vm_stack self) program = Ok res /\ qr_gas_cost r = RunningCost_add (res_gas_cost res) state_cost /\
    RunningCost_wf (res_gas_cost res) /\ RunningCost_wf state_cost /\ vwf (cs_state (qc_state (qr_context r))) /\
    qc_address (qr_context r) = qc_address self /\ call_context (qr_context r) = call_context self.
Proof.
  intros Hcm Hw Hq Hp Hx. unfold query in Hx. apply bind_Ok_inv in Hx as (res & Hrun & Hx).
  destruct (run_program limit cm (to_vm_stack self) program) as [res0| |] eqn:Hres; cbn in Hrun; try done. injection Hrun as ->.
  pose proof (run_program_safe limit cm Hcm (to_vm_stack self) program None (to_vm_stack_wf self Hq) Hp Hw) as Hs. unfold run_program in Hres. rewrite Hres in Hs.
  destruct Hs as (Hst & Hg & _). destruct (res_stack res) as [|v0 [|v1 [|v2 [|]]]]; try done. destruct (vm_strength v2); [done|].
  apply bind_Ok_inv in Hx as (eff & He & Hx). apply bind_Ok_inv in Hx as ([cs' cost] & Hu & Hx). cbn in Hx.
  destruct (update_cost_wf _ _ _ _ _ Hcm Hu) as [Hcs Hcw]. assert (Hv2 : vwf (vm_value v2)) by (by apply (proj1 (Forall_lookup _ _) Hst 2%nat)).
  exists res, cost. destruct limit as [lim|]; [destruct (RunningCost_gt _ lim); [done|]|]; injection Hx as <-; cbn; rewrite Hcs; by split_and!.
Qed.
(** A query that succeeds without a limit succeeds under one that covers its cost. *)
Lemma query_enough self (program : list (Op AlignedValue)) lim cm r : cm_wf cm -> QueryContext_wf self -> Forall op_wf program ->
  query self program None cm = Ok r -> RunningCost_le (qr_gas_cost r) lim -> query self program (Some lim) cm = Ok r.
Proof.
  intros Hcm Hq Hp Hx Hle. destruct (query_inv self program None cm r Hcm I Hq Hp Hx) as (res & cost & Hrun & Hg & Hgw & Hcw & _).
  assert (run_program (Some lim) cm (to_vm_stack self) program = Ok res) as Hrun'.
  { eapply run_program_enough; [done|by apply to_vm_stack_wf|done|done|]. destruct (RunningCost_le_add _ _ Hgw Hcw) as (? & ? & _), Hle as (? & ? & _). rewrite Hg in *. split; lia. }
  unfold query in *. rewrite Hrun in Hx. rewrite Hrun'. cbn in *. destruct (res_stack res) as [|v0 [|v1 [|v2 [|]]]]; try done. destruct (vm_strength v2); [done|].
  apply bind_Ok_inv in Hx as (eff & He & Hx). rewrite He. cbn. apply bind_Ok_inv in Hx as ([cs' cost'] & Hu & Hx). rewrite Hu. cbn in *. injection Hx as <-. cbn in Hle.
  destruct Hle as (H1 & H2 & H3 & H4). unfold RunningCost_gt. rewrite !(proj2 (Z.ltb_ge _ _)) by done. by rewrite !andb_false_r.
Qed.
Lemma query_gas_wf self (program : list (Op AlignedValue)) cm r : cm_wf cm -> QueryContext_wf self -> Forall op_wf program ->
  query self program None cm = Ok r -> RunningCost_wf (qr_gas_cost r).
Proof. intros Hcm Hq Hp Hx. destruct (query_inv self program None cm r Hcm I Hq Hp Hx) as (res & cost & _ & -> & Hgw & Hcw & _). by apply RunningCost_add_wf. Qed.
End queries.

(** ** Splitting *)
Lemma split_program_0 p : split_program 0 p = ([], p).
Proof. induction p as [|op p IH]; [done|]. cbn [split_program]. cbn. by rewrite IH. Qed.
Lemma split_program_spec n p : (split_program n p).1 ++ (split_program n p).2 = p /\
  (n = 0%nat \/ forall op rest, (split_program n p).2 = op :: rest -> op = Op_Ckpt).
Proof.
  revert n. induction p as [|op p IH]; intros n; cbn [split_program]; [split; [done|]; right; by intros|].
  destruct n as [|n]; [cbn [Nat.ltb Nat.leb andb]; rewrite split_program_0; cbn; split; [done|by left]|].
  destruct (is_ckpt op) eqn:Ec.
  - cbn [Nat.ltb Nat.leb andb]. replace (S n - 1)%nat with n by lia. destruct n as [|n].
    + rewrite split_program_0. cbn. split; [done|]. right. intros op' rest [= <- <-]. by destruct op.
    + destruct (IH (S n)) as [IH1 IH2], (split_program (S n) p) as [g f]. cbn in *. split; [by f_equal|]. destruct IH2 as [|IH2]; [done|by right].
  - rewrite andb_false_r. destruct (IH (S n)) as [IH1 IH2], (split_program (S n) p) as [g f]. cbn in *. split; [by f_equal|]. destruct IH2 as [|IH2]; [done|by right].
Qed.
Lemma try_map_Ok {E A B} (f : A -> outcome E B) l r : try_map f l = Ok r <-> Forall2 (fun x y => f x = Ok y) l r.
Proof.
  revert r. induction l as [|x l IH]; intros r; cbn [try_map].
  - split; [intros [= <-]; constructor|intros Hr; by inversion Hr].
  - split.
    + intros Hf. inv_binds. constructor; [done|]. by apply IH.
    + intros Hf. inversion Hf as [|? y ? ys Hy Hys]; subst. rewrite Hy. cbn. apply IH in Hys. by rewrite Hys.
Qed.

(** ** Walks over the call graph *)
Lemma elem_of_rev {A} (l : list A) x : x ∈ rev l <-> x ∈ l.
Proof. rewrite !list_elem_of_In. symmetry. apply in_rev. Qed.
Definition edge (g : list (list nat)) (x y : nat) : Prop := y ∈ callees g x.
Lemma walk_spec {E} g fuel : forall frontier nodes, walk (E := E) fuel g frontier = Ok nodes ->
  forall y, y ∈ nodes <-> exists x, x ∈ frontier /\ rtc (edge g) x y.
Proof.
  induction fuel as [|fuel IH]; intros [|item rest] nodes; cbn [walk]; try done.
  1,2: intros [= <-] y; split; [by intros ?%elem_of_nil|by intros (x & ?%elem_of_nil & _)].
  intros Hw. apply bind_Ok_inv in Hw as (vs & Hw & [= <-]). intros y. specialize (IH _ _ Hw y). rewrite elem_of_cons, IH. split.
  - intros [->|(x & Hx & Hr)]; [by exists item; split; [left|]|]. apply elem_of_app in Hx as [Hx%(proj1 (elem_of_rev _ _))|Hx]; [exists item|exists x].
    + split; [by left|]. exact (rtc_l _ _ _ _ Hx Hr).
    + split; [by right|done].
  - intros (x & Hx & Hr). apply elem_of_cons in Hx as [->|Hx].
    + inversion Hr as [|? z ? Hz Hzy]; subst; [by left|right]. exists z. split; [|done]. apply elem_of_app. left. by apply elem_of_rev.
    + right. exists x. split; [|done]. apply elem_of_app. by right.
Qed.
(** A walk that meets no node twice visits as many as it has fuel for at most. *)
Lemma acyclic_walk {E} `{KeyTypes} g fuel : forall visited reach, acyclic_from fuel g visited reach = Ok tt -> exists nodes, walk (E := E) fuel g reach = Ok nodes.
Proof.
  induction fuel as [|fuel IH]; intros visited [|next rest]; cbn [acyclic_from walk]; try (intros; by eexists); case_bool_decide; try done.
  intros Ha. destruct (IH _ _ Ha) as [nodes ->]. cbn. by eexists.
Qed.
Lemma walk_more {E} g fuel : forall k frontier nodes, walk (E := E) fuel g frontier = Ok nodes -> walk (E := E) (fuel + k) g frontier = Ok nodes.
Proof.
  induction fuel as [|fuel IH]; intros k [|item rest] nodes; cbn [walk Nat.add]; try done; [by destruct k|]. intros Hw. inv_bind. by rewrite (IH k _ _ E0).
Qed.
Lemma walk_app {E} g f1 : forall f2 l1 l2 n1 n2, walk (E := E) f1 g l1 = Ok n1 -> walk (E := E) f2 g l2 = Ok n2 -> walk (E := E) (f1 + f2) g (l1 ++ l2) = Ok (n1 ++ n2).
Proof.
  induction f1 as [|f1 IH]; intros f2 [|item rest] l2 n1 n2; cbn [walk]; try done.
  - by intros [= <-] Hw2.
  - intros [= <-] Hw2. cbn [app]. rewrite Nat.add_comm. by apply walk_more.
  - intros Hw1 Hw2. apply bind_Ok_inv in Hw1 as (vs & Hw1 & [= <-]). cbn [app Nat.add walk]. rewrite app_assoc. by rewrite (IH f2 _ l2 _ _ Hw1 Hw2).
Qed.
Lemma acyclic_no_panic `{KeyTypes} g n fuel : (forall i j, j ∈ callees g i -> (j < n)%nat) -> forall visited reach,
  NoDup visited -> Forall (fun i => (i < n)%nat) visited -> Forall (fun i => (i < n)%nat) reach -> (n < length visited + fuel)%nat -> acyclic_from fuel g visited reach <> Panic.
Proof.
  intros Hg. induction fuel as [|fuel IH]; intros visited [|next rest] Hn Hv Hr Hl; cbn [acyclic_from]; try done; case_bool_decide as Hin; try done.
  - exfalso. assert (length visited <= n)%nat; [|lia]. rewrite <- (length_seq n 0). apply submseteq_length, NoDup_submseteq; [done|].
    intros x Hx. apply elem_of_seq. pose proof (proj1 (list.Forall_forall _ _) Hv x Hx). cbn in *. lia.
  - apply list.Forall_cons in Hr as [Hnx Hr]. apply IH.
    + by apply list.NoDup_cons.
    + by constructor.
    + apply list.Forall_app. split; [|done]. apply list.Forall_forall. intros j Hj%(proj1 (elem_of_rev _ _)). by apply (Hg next).
    + cbn. lia.
Qed.

Section transcripts.
Context `{Hashing} {FO : FieldOrder} {FL : FieldOrderLaws} {SS : StateStorage} {SSL : StateStorageLaws SS}.
Context {SA : StateArena} {SL : StateArenaLaws} {SZ : ArenaSizes} `{KeyTypes} `{!Sizes} `{!PreTranscriptSizes}.
#[local] Set Default Proof Using "All".

Definition program_of (t : option Transcript) : list (Op AlignedValue) := from_option t_program [] t.
Definition pre_wf (c : PreTranscript) : Prop := QueryContext_wf (pt_context c) /\ Forall op_wf (pt_program c).
(** What a pair of transcripts has to do with its call. *)
Record runs_as (params : LedgerParameters) (call : PreTranscript) (pair : option Transcript * option Transcript) : Prop := {
  runs_program : program_of pair.1 ++ program_of pair.2 = pt_program call;
  runs_ckpt : opt_all starts_with_ckpt pair.2 || negb (bool_decide (is_Some pair.1)) = true;
  runs_version : opt_all version_ok pair.1 && opt_all version_ok pair.2 = true;
  runs_effects : exists rg, query (pt_context call) (program_of pair.1) None (runtime_model params) = Ok rg /\
    (forall t, pair.1 = Some t -> run_transcript (pt_context call) t (runtime_model params) = Ok rg /\ t_effects t = effects_of rg) /\
    (forall t, pair.2 = Some t -> exists rf,
      run_transcript (with_effects (qr_context rg) Effects_default) t (runtime_model params) = Ok rf /\ t_effects t = effects_of rf) }.
Lemma Effects_default_wf : Effects_wf Effects_default.
Proof. split; cbn; try apply map_Forall_empty; try (intros ? ?; set_solver); set_solver. Qed.
Lemma mk_transcript_spec {E} params prog res t : mk_transcript (E := E) params prog res = Ok t -> program_of t = prog /\ opt_all version_ok t = true /\
  (forall t', t = Some t' -> prog <> [] /\ t_program t' = prog /\ t_effects t' = effects_of res /\ t_gas t' = RunningCost_mul_f64 (qr_gas_cost res) f64_1_2).
Proof. destruct prog as [|op prog]; cbn; intros [= <-]; (split; [done|split; [done|]]); intros t' [= <-]. by split_and!. Qed.
Lemma split_at_runs call n params pair : cm_wf (runtime_model params) -> pre_wf call -> split_at call n params = Ok pair -> runs_as params call pair.
Proof.
  intros Hcm [Hq Hop] Hs. unfold split_at in Hs. destruct (split_program_spec n (pt_program call)) as [Happ Hck].
  assert (n = 0%nat -> (split_program n (pt_program call)).1 = []) as Hg0 by (intros ->; by rewrite split_program_0).
  destruct (split_program n (pt_program call)) as [pg pf]. cbn [fst snd] in *. rewrite <- Happ in Hop. apply list.Forall_app in Hop as [Hpg Hpf].
  apply bind_Ok_inv in Hs as (rg & Hrg & Hs). apply bind_Ok_inv in Hs as (rf & Hrf & Hs). apply bind_Ok_inv in Hs as (g & Hg & Hs). apply bind_Ok_inv in Hs as (f & Hf & [= <-]).
  apply mk_transcript_spec in Hg as (Eg & Vg & Hg), Hf as (Ef & Vf & Hf).
  destruct (query_inv _ _ None _ _ Hcm I Hq Hpg Hrg) as (_ & _ & _ & _ & _ & _ & Hv & Ha & Hc).
  assert (QueryContext_wf (with_effects (qr_context rg) Effects_default)) as Hq'.
  { destruct Hq as [_ _ Hadr Hctx]. split; cbn; [done|apply Effects_default_wf|by rewrite Ha|by rewrite Hc]. }
  split; cbn [fst snd].
  - by rewrite Eg, Ef.
  - destruct f as [tf|]; cbn [opt_all orb]; [|done]. destruct (Hf tf eq_refl) as (Hne & Ep & _). destruct Hck as [->|Hck].
    + rewrite (Hg0 eq_refl) in Hg. destruct g as [tg|]; [by destruct (Hg tg eq_refl) as [? _]|]. apply orb_true_r.
    + unfold starts_with_ckpt. rewrite Ep. destruct pf as [|op rest]; [done|]. by rewrite (Hck op rest eq_refl).
  - by rewrite Vg, Vf.
  - exists rg. rewrite Eg. split; [done|]. split.
    + intros t Ht. destruct (Hg t Ht) as (_ & Ep & Ee & Egas). split; [|done]. unfold run_transcript. rewrite Ep, Egas.
      apply query_enough; try done. apply overhead_covers. exact (query_gas_wf _ _ _ _ Hcm Hq Hpg Hrg).
    + intros t Ht. destruct (Hf t Ht) as (_ & Ep & Ee & Egas). exists rf. split; [|done]. unfold run_transcript. rewrite Ep, Egas.
      apply query_enough; try done. apply overhead_covers. exact (query_gas_wf _ _ _ _ Hcm Hq' Hpf Hrf).
Qed.
Lemma map_err_Ok {E F A} (f : E -> F) (m : outcome E A) r : map_err f m = Ok r <-> m = Ok r.
Proof. destruct m; cbn; split; congruence. Qed.
Lemma marks_length (f : nat -> nat) nodes : forall s, length (foldl (fun s next => <[next := f next]> s) s nodes) = length s.
Proof. induction nodes as [|x nodes IH]; intros s; [done|]. cbn [foldl]. by rewrite IH, length_insert. Qed.
Lemma mark_sections_length calls g s rs s' : mark_sections calls g s rs = Ok s' -> length s' = length s.
Proof.
  destruct rs as [root [n claimed]]. unfold mark_sections. intros Hm. apply bind_Ok_inv in Hm as (nodes & _ & [= <-]). by rewrite marks_length, length_insert.
Qed.
Lemma sections_length calls params s : sections_in_guaranteed calls params = Ok s -> length s = length calls.
Proof.
  unfold sections_in_guaranteed. intros Hs. do 5 apply bind_Ok_inv in Hs as (? & _ & Hs).
  eapply (try_fold_inv (fun s => length s = length calls)); [| |exact Hs].
  - apply length_replicate.
  - intros a rs a' _ Ha Hm. by rewrite (mark_sections_length _ _ _ _ _ Hm).
Qed.
(** C21: When [partition_transcripts] succeeds it returns one pair of transcripts for every call, in order.
    The programs of a pair together are the program of the call; a fallible
    transcript that follows a guaranteed one starts with a checkpoint, and both
    have a version the ledger accepts.  Run by the ledger, with the gas they
    declare as a limit, the guaranteed transcript in the context of the call and
    the fallible one in the context this leaves, with empty effects, both
    succeed, and have exactly the effects that they declare. *)
Theorem partition_transcripts_run calls params pairs : cm_wf (runtime_model params) -> Forall pre_wf calls ->
  partition_transcripts calls params = Ok pairs -> Forall2 (runs_as params) calls pairs.
Proof.
  intros Hcm Hwf Hp. unfold partition_transcripts in Hp. apply bind_Ok_inv in Hp as (s & Hs & Hp). apply sections_length in Hs.
  apply map_err_Ok, try_map_Ok in Hp. revert s pairs Hs Hp. induction Hwf as [|c calls Hc Hwf IH]; intros [|n s] pairs Hs Hp; try done.
  - inversion Hp. constructor.
  - cbn in Hp. inversion Hp as [|? pair ? rest Hx Hrest]; subst. constructor; [by eapply split_at_runs|]. eapply IH; [|exact Hrest]. by injection Hs.
Qed.

(** ** Calls and their callers *)
Lemma take_split n p : (0 < n)%nat -> (split_program n p).1 = take_to_ckpt n p.
Proof.
  revert n. induction p as [|op p IH]; intros [|n] Hn; try done; [lia|]. cbn [split_program take_to_ckpt]. destruct (is_ckpt op).
  - cbn [Nat.ltb Nat.leb andb]. replace (S n - 1)%nat with n by lia. destruct n as [|n]; [by rewrite split_program_0|].
    rewrite <- IH by lia. by destruct (split_program (S n) p).
  - rewrite andb_false_r. rewrite <- IH by lia. by destruct (split_program (S n) p).
Qed.
Lemma split_all p : forall n, (length (List.filter is_ckpt p) < n)%nat -> split_program n p = (p, []).
Proof.
  induction p as [|op p IH]; intros [|n] Hn; cbn [split_program List.filter length] in *; try done; [lia|]. destruct (is_ckpt op); cbn [length] in Hn.
  - cbn [Nat.ltb Nat.leb andb]. replace (S n - 1)%nat with n by lia. rewrite IH by lia. by destruct n; [lia|].
  - rewrite andb_false_r. by rewrite IH.
Qed.
(** The commitments that a program claims in parts are those that it claims as a whole, each in one part. *)
Record claims_accumulate (params : LedgerParameters) (call : PreTranscript) : Prop := {
  accumulate_prefix k full rg : run_to_ckpt_no call (no_checkpoints call) params = Ok full ->
    query (pt_context call) (split_program k (pt_program call)).1 None (runtime_model params) = Ok rg ->
    claimed_commitments rg ⊆ claimed_commitments full;
  accumulate_rest k full rg rf : run_to_ckpt_no call (no_checkpoints call) params = Ok full ->
    query (pt_context call) (split_program k (pt_program call)).1 None (runtime_model params) = Ok rg ->
    query (with_effects (qr_context rg) Effects_default) (split_program k (pt_program call)).2 None (runtime_model params) = Ok rf ->
    claimed_commitments rf ⊆ claimed_commitments full /\ claimed_commitments rg ## claimed_commitments rf }.
Definition commitment_of (calls : list PreTranscript) (j : nat) (comm : Fr) : Prop := calls !! j ≫= comm_comm = Some comm.
Definition effects_claim (eff : Effects) (comm : Fr) : Prop := comm ∈ ccv_comm <$> elements (claimed_contract_calls eff).
Lemma claimed_idx_spec calls r j : j ∈ claimed_idx calls r <-> exists comm, commitment_of calls j comm /\ comm ∈ claimed_commitments r.
Proof.
  unfold claimed_idx, commitment_of. rewrite list_elem_of_In, filter_In, <- list_elem_of_In, elem_of_seq. split.
  - intros [_ Hm]. destruct (calls !! j ≫= comm_comm) as [comm|]; [|done]. exists comm. split; [done|by apply bool_decide_eq_true in Hm].
  - intros (comm & Hc & Hin). split; [|rewrite Hc; by apply bool_decide_eq_true]. destruct (calls !! j) as [c|] eqn:Ej; [|done]. apply lookup_lt_Some in Ej. lia.
Qed.
Lemma claimed_idx_lt calls r j : j ∈ claimed_idx calls r -> (j < length calls)%nat.
Proof. rewrite claimed_idx_spec. unfold commitment_of. intros (comm & Hc & _). destruct (calls !! j) as [c|] eqn:Ej; [|done]. by apply lookup_lt_Some in Ej. Qed.
Lemma most_sections_spec calls params runs g call budget k m claimed : most_sections calls params runs g call budget k = Ok (m, claimed) ->
  m = 0%nat /\ claimed = [] \/
  exists res, (0 < m)%nat /\ query (pt_context call) (split_program m (pt_program call)).1 None (runtime_model params) = Ok res /\ claimed = claimed_idx calls res.
Proof.
  induction k as [|k IH]; cbn [most_sections]; [intros [= <- <-]; by left|]. intros Hm. apply bind_Ok_inv in Hm as (res & Hr & Hm).
  apply bind_Ok_inv in Hm as (req & _ & Hm). destruct (req <=? budget); [|by apply IH]. injection Hm as <- <-. right. exists res.
  split; [lia|split; [|done]]. rewrite take_split by lia. by apply map_err_Ok in Hr.
Qed.
Lemma root_nodes_spec g n i : i ∈ root_nodes g n <-> (i < n)%nat /\ forall j, (j < n)%nat -> i ∉ callees g j.
Proof.
  unfold root_nodes, n_callers. rewrite list_elem_of_filter, elem_of_seq, length_zero_iff_nil. split.
  - intros [Hf Hi]. split; [lia|]. intros j Hj Hin. assert (j ∈ filter (fun j => i ∈ callees g j) (seq 0 n)) as Hx; [|by rewrite Hf in Hx; apply elem_of_nil in Hx].
    apply list_elem_of_filter. split; [done|]. apply elem_of_seq. lia.
  - intros [Hi Hj]. split; [|lia]. destruct (filter _ _) as [|j l] eqn:E; [done|]. assert (j ∈ j :: l) as Hx by left. rewrite <- E in Hx.
    apply list_elem_of_filter in Hx as [Hx Hs]. apply elem_of_seq in Hs. by destruct (Hj j); [lia|].
Qed.
Lemma check_forest_spec g n i j k : check_forest g n = Ok tt -> (i < n)%nat -> (j < n)%nat -> k ∈ callees g i -> k ∈ callees g j -> (k < n)%nat -> i = j.
Proof.
  unfold check_forest. intros Hf Hi Hj Hki Hkj Hk. apply bind_Ok_inv in Hf as (u & _ & Hf). unfold require in Hf. case_match eqn:E; [|done].
  rewrite forallb_forall in E. specialize (E k). rewrite <- list_elem_of_In, elem_of_seq in E. specialize (E ltac:(lia)). apply Nat.leb_le in E. unfold n_callers in E.
  assert (forall x, (x < n)%nat -> k ∈ callees g x -> x ∈ filter (fun j => k ∈ callees g j) (seq 0 n)) as Hin.
  { intros x Hx Hkx. apply list_elem_of_filter. split; [done|]. apply elem_of_seq. lia. }
  pose proof (Hin i Hi Hki) as H1'. pose proof (Hin j Hj Hkj) as H2'. destruct (filter _ _) as [|x [|]]; cbn in E; [by apply elem_of_nil in H1'| |lia].
  apply list_elem_of_singleton in H1', H2'. congruence.
Qed.

Definition reaches (g : list (list nat)) (claimed : list nat) (j : nat) : Prop := exists x, x ∈ claimed /\ rtc (edge g) x j.
Definition all_sections (calls : list PreTranscript) (j : nat) : nat := (from_option no_checkpoints 0%nat (calls !! j) + 1)%nat.
Lemma marks_lookup (f : nat -> nat) nodes : forall s j, (j < length s)%nat ->
  foldl (fun s next => <[next := f next]> s) s nodes !! j = if bool_decide (j ∈ nodes) then Some (f j) else s !! j.
Proof.
  induction nodes as [|x nodes IH]; intros s j Hj; cbn [foldl]; [done|]. rewrite IH by (by rewrite length_insert).
  destruct (decide (j ∈ nodes)) as [Hin|Hin]; [by rewrite !bool_decide_eq_true_2 by (try right; done)|]. rewrite (bool_decide_eq_false_2 _ Hin).
  destruct (decide (j = x)) as [->|Hne]; [rewrite list_lookup_insert_eq by done; by rewrite bool_decide_eq_true_2 by left|].
  rewrite list_lookup_insert_ne by done. by rewrite bool_decide_eq_false_2 by (rewrite elem_of_cons; tauto).
Qed.
Lemma mark_sections_spec calls g s root n claimed s' j : mark_sections calls g s (root, (n, claimed)) = Ok s' -> (j < length s)%nat ->
  (reaches g claimed j /\ s' !! j = Some (all_sections calls j)) \/
  (~ reaches g claimed j /\ s' !! j = if decide (j = root) then Some n else s !! j).
Proof.
  unfold mark_sections. intros Hm Hj. apply bind_Ok_inv in Hm as (nodes & Hw & [= <-]). rewrite (marks_lookup (all_sections calls)) by (by rewrite length_insert).
  assert (j ∈ nodes <-> reaches g claimed j) as Hr.
  { rewrite (walk_spec _ _ _ _ Hw). unfold reaches. split; intros (x & Hx & Hxj); exists x; split; try done; [by apply (proj1 (elem_of_rev _ _))|by apply (proj2 (elem_of_rev _ _))]. }
  case_bool_decide as Hin; [left|right]; (split; [tauto|]); [done|]. destruct (decide (j = root)) as [->|Hne]; [by apply list_lookup_insert_eq|by apply list_lookup_insert_ne].
Qed.
Lemma marked_other calls g l : forall s s' j, try_fold (mark_sections calls g) s l = Ok s' -> (j < length s)%nat -> j ∉ l.*1 ->
  (Exists (fun e => reaches g e.2.2 j) l /\ s' !! j = Some (all_sections calls j)) \/ (Forall (fun e => ~ reaches g e.2.2 j) l /\ s' !! j = s !! j).
Proof.
  induction l as [|[root [n claimed]] l IH]; intros s s' j Hf Hj Hn; cbn [try_fold] in Hf; [injection Hf as <-; by right|].
  apply bind_Ok_inv in Hf as (s1 & Hm & Hf). cbn in Hn. apply not_elem_of_cons in Hn as [Hne Hn].
  destruct (IH _ _ j Hf ltac:(by rewrite (mark_sections_length _ _ _ _ _ Hm)) Hn) as [[He ->]|[Ha ->]]; [left; split; [by right|done]|].
  destruct (mark_sections_spec _ _ _ _ _ _ _ j Hm Hj) as [[Hr ->]|[Hr ->]]; [left; split; [by left|done]|right]. rewrite decide_False by done. split; [by constructor|done].
Qed.
Lemma marked_root calls g l : forall s s' root n claimed, try_fold (mark_sections calls g) s l = Ok s' -> (root < length s)%nat -> NoDup l.*1 ->
  (root, (n, claimed)) ∈ l -> Forall (fun e => ~ reaches g e.2.2 root) l -> s' !! root = Some n.
Proof.
  induction l as [|[r [m c]] l IH]; intros s s' root n claimed Hf Hr Hd Hin Ha; [by apply elem_of_nil in Hin|]. cbn [try_fold] in Hf.
  apply bind_Ok_inv in Hf as (s1 & Hm & Hf). cbn in Hd. apply list.NoDup_cons in Hd as [Hnr Hd]. apply list.Forall_cons in Ha as [Hx Ha].
  pose proof (mark_sections_length _ _ _ _ _ Hm) as Hlen. apply elem_of_cons in Hin as [[= -> -> ->]|Hin].
  - destruct (marked_other _ _ _ _ _ r Hf ltac:(lia) Hnr) as [[He _]|[_ ->]].
    + exfalso. apply list.Exists_exists in He as (e & He & Hre). by apply (proj1 (list.Forall_forall _ _) Ha e He).
    + destruct (mark_sections_spec _ _ _ _ _ _ _ r Hm Hr) as [[? _]|[_ ->]]; [done|]. by rewrite decide_True.
  - eapply IH; try done. lia.
Qed.

(** What [sections_in_guaranteed] has found: the runs, and the sections and callees of each root. *)
Record sectioned (calls : list PreTranscript) (params : LedgerParameters) (runs : list (QueryResults StateValue)) (found : list (nat * (nat * list nat)))
    (s : list nat) : Prop := {
  sectioned_runs : Forall2 (fun c r => run_to_ckpt_no c (no_checkpoints c) params = Ok r) calls runs;
  sectioned_forest : check_forest (call_graph calls runs) (length calls) = Ok tt;
  sectioned_roots : found.*1 = root_nodes (call_graph calls runs) (length calls);
  sectioned_found root m claimed : (root, (m, claimed)) ∈ found -> exists call, calls !! root = Some call /\
    (m = 0%nat /\ claimed = [] \/
     exists res, (0 < m)%nat /\ query (pt_context call) (split_program m (pt_program call)).1 None (runtime_model params) = Ok res /\ claimed = claimed_idx calls res);
  sectioned_marks : try_fold (mark_sections calls (call_graph calls runs)) (replicate (length calls) 0%nat) found = Ok s }.
Lemma sections_inv calls params s : sections_in_guaranteed calls params = Ok s -> exists runs found, sectioned calls params runs found s.
Proof.
  unfold sections_in_guaranteed. intros Hs. apply bind_Ok_inv in Hs as (runs & Hr & Hs). apply map_err_Ok, try_map_Ok in Hr.
  apply bind_Ok_inv in Hs as ([] & Hf & Hs). apply bind_Ok_inv in Hs as (closures & Hc & Hs). apply try_map_Ok, list.Forall2_length in Hc.
  apply bind_Ok_inv in Hs as (budgets & Hb & Hs). apply bind_Ok_inv in Hb as (reserve & _ & [= Hb]). apply bind_Ok_inv in Hs as (prelim & Hp & Hs). apply try_map_Ok in Hp.
  set (roots := root_nodes (call_graph calls runs) (length calls)) in *.
  assert (length budgets = length roots) as Hlb by (subst budgets; by rewrite !length_fmap).
  pose proof (list.Forall2_length _ _ _ Hp) as Hlp. rewrite length_zip_with, Hlb, Nat.min_id in Hlp.
  exists runs, (zip roots prelim). split; try done; [by rewrite fst_zip by lia|].
  intros root m claimed Hin. apply list_elem_of_lookup in Hin as [i Hi]. apply lookup_zip_with_Some in Hi as (r' & pr & [= <- <-] & Hri & Hpi).
  destruct (lookup_lt_is_Some_2 budgets i) as [b Hbi]; [rewrite Hlb; by eapply lookup_lt_Some|].
  assert (zip roots budgets !! i = Some (root, b)) as Hz by (apply lookup_zip_with_Some; by eexists _, _).
  pose proof (list.Forall2_lookup_lr _ _ _ _ _ _ Hp Hz Hpi) as Hx. cbn beta iota in Hx. apply bind_Ok_inv in Hx as (call & Hcall & Hx). exists call.
  split; [by destruct (calls !! root); [injection Hcall as ->|]|]. by eapply most_sections_spec.
Qed.

Section sequencing.
Variables (calls : list PreTranscript) (params : LedgerParameters) (runs : list (QueryResults StateValue)) (found : list (nat * (nat * list nat))) (s : list nat).
Hypothesis (Hs : sectioned calls params runs found s) (Hacc : Forall (claims_accumulate params) calls).
#[local] Abbreviation g := (call_graph calls runs).
Lemma callees_of i call full : calls !! i = Some call -> runs !! i = Some full -> run_to_ckpt_no call (no_checkpoints call) params = Ok full /\ callees g i = claimed_idx calls full.
Proof.
  intros Hc Hr. split; [exact (list.Forall2_lookup_lr _ _ _ _ _ _ (sectioned_runs _ _ _ _ _ Hs) Hc Hr)|].
  unfold callees, call_graph. by rewrite list_lookup_fmap, Hr.
Qed.
Lemma run_of i call : calls !! i = Some call -> exists full, runs !! i = Some full.
Proof.
  intros Hc. apply lookup_lt_is_Some_2. rewrite <- (list.Forall2_length _ _ _ (sectioned_runs _ _ _ _ _ Hs)). by eapply lookup_lt_Some.
Qed.
Lemma callees_lt i j : j ∈ callees g i -> (i < length calls)%nat /\ (j < length calls)%nat.
Proof.
  unfold callees, call_graph. rewrite list_lookup_fmap. destruct (runs !! i) as [r|] eqn:E; cbn; [|by intros ?%elem_of_nil].
  intros Hj. split; [|by eapply claimed_idx_lt]. rewrite (list.Forall2_length _ _ _ (sectioned_runs _ _ _ _ _ Hs)). by eapply lookup_lt_Some.
Qed.
Lemma called_in i call comm j part : calls !! i = Some call -> commitment_of calls j comm -> comm ∈ part ->
  (forall full, run_to_ckpt_no call (no_checkpoints call) params = Ok full -> part ⊆ claimed_commitments full) -> j ∈ callees g i.
Proof.
  intros Hc Hj Hp Hsub. destruct (run_of i call Hc) as [full Hr]. destruct (callees_of i call full Hc Hr) as [Hrun ->].
  apply claimed_idx_spec. exists comm. split; [done|]. by apply (Hsub full Hrun).
Qed.
Lemma accumulates i call : calls !! i = Some call -> claims_accumulate params call.
Proof. intros Hc. exact (list.Forall_lookup_1 _ _ _ _ Hacc Hc). Qed.
Lemma found_callees root m claimed j : (root, (m, claimed)) ∈ found -> j ∈ claimed -> j ∈ callees g root.
Proof.
  intros Hf Hj. destruct (sectioned_found _ _ _ _ _ Hs _ _ _ Hf) as (call & Hc & [[_ ->]|(res & _ & Hq & ->)]); [by apply elem_of_nil in Hj|].
  apply claimed_idx_spec in Hj as (comm & Hj & Hin). eapply called_in; try done. intros full Hfull. by eapply (accumulate_prefix _ _ (accumulates _ _ Hc)).
Qed.
Lemma reached_called e j : e ∈ found -> reaches g e.2.2 j -> exists i, j ∈ callees g i /\ (i = e.1 /\ j ∈ e.2.2 \/ reaches g e.2.2 i).
Proof.
  destruct e as [root [m claimed]]. cbn [fst snd]. intros Hf (x & Hx & Hr). destruct (rtc_inv_r _ _ Hr) as [->|(y & Hxy & Hyj)].
  - exists root. split; [by eapply found_callees|by left].
  - exists y. split; [done|]. right. by exists x.
Qed.
Lemma called_no_root i j : j ∈ callees g i -> j ∉ found.*1.
Proof.
  intros Hj. rewrite (sectioned_roots _ _ _ _ _ Hs). intros [_ Hr]%root_nodes_spec. apply (Hr i); [exact (proj1 (callees_lt _ _ Hj))|done].
Qed.
Lemma root_unreached root : root ∈ found.*1 -> Forall (fun e => ~ reaches g e.2.2 root) found.
Proof.
  intros Hr. apply list.Forall_forall. intros e He Hre. destruct (reached_called _ _ He Hre) as (i & Hi & _). by apply (called_no_root _ _ Hi).
Qed.
Lemma section_root root m claimed : (root, (m, claimed)) ∈ found -> s !! root = Some m.
Proof.
  intros Hf. pose proof (sectioned_roots _ _ _ _ _ Hs) as Hroots. assert (root ∈ found.*1) as Hr by (apply list_elem_of_fmap; by exists (root, (m, claimed))).
  eapply marked_root; [exact (sectioned_marks _ _ _ _ _ Hs)| | |exact Hf|by apply root_unreached].
  - rewrite length_replicate. rewrite Hroots in Hr. by apply root_nodes_spec in Hr as [? _].
  - rewrite Hroots. apply list.NoDup_filter, NoDup_seq.
Qed.
Lemma section_other j : (j < length calls)%nat -> j ∉ found.*1 ->
  (Exists (fun e => reaches g e.2.2 j) found /\ s !! j = Some (all_sections calls j)) \/ (Forall (fun e => ~ reaches g e.2.2 j) found /\ s !! j = Some 0%nat).
Proof.
  intros Hj Hn. pose proof (marked_other _ _ _ _ _ j (sectioned_marks _ _ _ _ _ Hs)) as Hm. rewrite length_replicate in Hm.
  by rewrite lookup_replicate_2 in Hm by done; apply Hm.
Qed.
(** What a call makes in its sections of the guaranteed part is guaranteed as a whole, and what it makes in the others is fallible as a whole. *)
Lemma guaranteed_callee i call n rg j comm : calls !! i = Some call -> s !! i = Some n -> n <> 0%nat ->
  query (pt_context call) (split_program n (pt_program call)).1 None (runtime_model params) = Ok rg ->
  commitment_of calls j comm -> comm ∈ claimed_commitments rg -> s !! j = Some (all_sections calls j).
Proof.
  intros Hc Hn Hnz Hq Hj Hin. assert (j ∈ callees g i) as Hij.
  { eapply called_in; try done. intros full Hfull. by eapply (accumulate_prefix _ _ (accumulates _ _ Hc)). }
  destruct (callees_lt _ _ Hij) as [Hi Hjn]. destruct (section_other j Hjn (called_no_root _ _ Hij)) as [[_ ?]|[Ha _]]; [done|exfalso].
  rewrite list.Forall_forall in Ha. destruct (decide (i ∈ found.*1)) as [Hroot|Hroot].
  - apply list_elem_of_fmap in Hroot as ([root [m claimed]] & -> & Hf). cbn [fst] in *. pose proof (section_root _ _ _ Hf) as Hm.
    assert (m = n) as -> by congruence. apply (Ha _ Hf). destruct (sectioned_found _ _ _ _ _ Hs _ _ _ Hf) as (call' & Hc' & [[? _]|(res & _ & Hq' & ->)]); [done|].
    exists j. split; [|done]. apply claimed_idx_spec. exists comm. split; [done|]. assert (call' = call) as -> by congruence. assert (res = rg) as -> by congruence. done.
  - destruct (section_other i Hi Hroot) as [[He _]|[_ ?]]; [|congruence]. apply list.Exists_exists in He as (e & He & x & Hx & Hxi).
    apply (Ha e He). exists x. split; [done|]. by eapply rtc_r.
Qed.
Lemma fallible_callee i call n rg rf j comm : calls !! i = Some call -> s !! i = Some n -> (n < all_sections calls i)%nat ->
  query (pt_context call) (split_program n (pt_program call)).1 None (runtime_model params) = Ok rg ->
  query (with_effects (qr_context rg) Effects_default) (split_program n (pt_program call)).2 None (runtime_model params) = Ok rf ->
  commitment_of calls j comm -> comm ∈ claimed_commitments rf -> s !! j = Some 0%nat.
Proof.
  intros Hc Hn Hlt Hg Hq Hj Hin. destruct (run_of i call Hc) as [full Hr]. destruct (callees_of i call full Hc Hr) as [Hfull Hcal].
  destruct (accumulate_rest _ _ (accumulates _ _ Hc) n full rg rf Hfull Hg Hq) as [Hsub Hdis].
  assert (j ∈ callees g i) as Hij by (rewrite Hcal; apply claimed_idx_spec; exists comm; split; [done|by apply Hsub]).
  destruct (callees_lt _ _ Hij) as [Hi Hjn]. destruct (section_other j Hjn (called_no_root _ _ Hij)) as [[He _]|[_ ?]]; [exfalso|done].
  apply list.Exists_exists in He as (e & He & Hre). destruct (reached_called e j He Hre) as (i' & Hi'j & Hcase). destruct (callees_lt _ _ Hi'j) as [Hi' _].
  assert (i' = i) as -> by (by eapply (check_forest_spec _ _ _ _ j (sectioned_forest _ _ _ _ _ Hs))).
  destruct Hcase as [[-> Hje]|Hri].
  - destruct e as [root [m claimed]]. cbn [fst snd] in *. pose proof (section_root _ _ _ He) as Hm. assert (m = n) as -> by congruence.
    destruct (sectioned_found _ _ _ _ _ Hs _ _ _ He) as (call' & Hc' & [[_ ->]|(res & _ & Hq' & ->)]); [by apply elem_of_nil in Hje|].
    apply claimed_idx_spec in Hje as (comm' & Hj' & Hin'). assert (call' = call) as -> by congruence. assert (res = rg) as -> by congruence.
    unfold commitment_of in *. assert (comm' = comm) as -> by congruence. by apply (Hdis comm).
  - destruct (reached_called e i He Hri) as (p & Hp & _). destruct (section_other i Hi (called_no_root _ _ Hp)) as [[_ Hall]|[Ha _]].
    + assert (n = all_sections calls i) by congruence. lia.
    + rewrite list.Forall_forall in Ha. by apply (Ha e He).
Qed.
End sequencing.
Lemma partition_inv calls params pairs : partition_transcripts calls params = Ok pairs -> exists s, sections_in_guaranteed calls params = Ok s /\
  forall i pair, pairs !! i = Some pair -> exists call n, calls !! i = Some call /\ s !! i = Some n /\ split_at call n params = Ok pair.
Proof.
  unfold partition_transcripts. intros Hp. apply bind_Ok_inv in Hp as (s & Hs & Hp). exists s. split; [done|]. apply map_err_Ok, try_map_Ok in Hp.
  intros i pair Hi. destruct (list.Forall2_lookup_r _ _ _ _ _ Hp Hi) as ([call n] & Hz & Hx). apply lookup_zip_with_Some in Hz as (? & ? & [= <- <-] & Hc & Hn).
  by exists call, n.
Qed.
Lemma split_at_inv call n params pair : split_at call n params = Ok pair -> exists rg rf,
  query (pt_context call) (split_program n (pt_program call)).1 None (runtime_model params) = Ok rg /\
  query (with_effects (qr_context rg) Effects_default) (split_program n (pt_program call)).2 None (runtime_model params) = Ok rf /\
  (forall t, pair.1 = Some t -> (split_program n (pt_program call)).1 <> [] /\ t_effects t = effects_of rg) /\
  (forall t, pair.2 = Some t -> (split_program n (pt_program call)).2 <> [] /\ t_effects t = effects_of rf).
Proof.
  unfold split_at. destruct (split_program n (pt_program call)) as [pg pf]. intros Hs.
  apply bind_Ok_inv in Hs as (rg & Hrg & Hs). apply bind_Ok_inv in Hs as (rf & Hrf & Hs). apply bind_Ok_inv in Hs as (g & Hg & Hs). apply bind_Ok_inv in Hs as (f & Hf & [= <-]).
  apply mk_transcript_spec in Hg as (_ & _ & Hg), Hf as (_ & _ & Hf). exists rg, rf. cbn [fst snd].
  split_and!; try done; intros t Ht; [destruct (Hg t Ht) as (? & _ & ? & _)|destruct (Hf t Ht) as (? & _ & ? & _)]; done.
Qed.
(** C22: The transcripts that [partition_transcripts] returns keep a call on the side of the part that makes it:
    when the guaranteed transcript of one call claims the commitment of another
    one, that call has no fallible transcript, and when the fallible transcript
    claims it, that call has no guaranteed transcript.  The programs have to
    claim in parts what they claim as a whole, each call in one part. *)
Theorem partition_keeps_callees calls params pairs : Forall (claims_accumulate params) calls -> partition_transcripts calls params = Ok pairs ->
  forall i j t comm pi pj, pairs !! i = Some pi -> pairs !! j = Some pj -> commitment_of calls j comm -> effects_claim (t_effects t) comm ->
  (pi.1 = Some t -> pj.2 = None) /\ (pi.2 = Some t -> pj.1 = None).
Proof.
  intros Hacc Hp i j t comm pi pj Hi Hj Hcomm Hcl. destruct (partition_inv _ _ _ Hp) as (s & Hs & Hpairs). destruct (sections_inv _ _ _ Hs) as (runs & found & Hsec).
  destruct (Hpairs i pi Hi) as (call & n & Hc & Hn & Hsp), (Hpairs j pj Hj) as (callj & nj & Hcj & Hnj & Hspj).
  destruct (split_at_inv _ _ _ _ Hsp) as (rg & rf & Hrg & Hrf & Hg & Hf). destruct (split_at_inv _ _ _ _ Hspj) as (rgj & rfj & _ & _ & Hgj & Hfj).
  destruct pj as [gj fj]. cbn [fst snd] in *. split; intros Ht.
  - destruct (Hg t Ht) as [Hne He]. unfold effects_claim in Hcl. rewrite He in Hcl. assert (n <> 0%nat) as Hnz by (intros ->; by rewrite split_program_0 in Hne).
    pose proof (guaranteed_callee _ _ _ _ _ Hsec Hacc _ _ _ _ _ _ Hc Hn Hnz Hrg Hcomm Hcl) as Hall. destruct fj as [t'|]; [|done].
    destruct (Hfj t' eq_refl) as [Hne' _]. rewrite split_all in Hne'; [done|]. assert (nj = all_sections calls j) as -> by congruence. unfold all_sections. rewrite Hcj. cbn. unfold no_checkpoints. lia.
  - destruct (Hf t Ht) as [Hne He]. unfold effects_claim in Hcl. rewrite He in Hcl. assert (n < all_sections calls i)%nat as Hlt.
    { destruct (Nat.lt_ge_cases n (all_sections calls i)) as [|Hge]; [done|]. rewrite split_all in Hne; [done|]. unfold all_sections in Hge. rewrite Hc in Hge. cbn in Hge. unfold no_checkpoints in Hge. lia. }
    pose proof (fallible_callee _ _ _ _ _ Hsec Hacc _ _ _ _ _ _ _ Hc Hn Hlt Hrg Hrf Hcomm Hcl) as Hz. assert (nj = 0%nat) as -> by congruence.
    destruct gj as [t'|]; [|done]. destruct (Hgj t' eq_refl) as [Hne' _]. by rewrite split_program_0 in Hne'.
Qed.

(** ** Every walk ends *)
Lemma bind_no_panic_eq {E A B} (m : outcome E A) (f : A -> outcome E B) : m <> Panic -> (forall a, m = Ok a -> f a <> Panic) -> (m ≫= f) <> Panic.
Proof. destruct m; cbn; auto. Qed.
Lemma try_map_no_panic {E A B} (f : A -> outcome E B) l : (forall x, x ∈ l -> f x <> Panic) -> try_map f l <> Panic.
Proof.
  induction l as [|x l IH]; intros Hf; cbn [try_map]; [done|]. apply bind_no_panic; [apply Hf; left|]. intros y.
  apply bind_no_panic; [apply IH; intros; apply Hf; by right|done].
Qed.
Lemma try_for_each_no_panic {E A} (f : A -> outcome E unit) l : (forall x, x ∈ l -> f x <> Panic) -> try_for_each f l <> Panic.
Proof.
  induction l as [|x l IH]; intros Hf; [done|]. cbn. apply bind_no_panic; [apply Hf; left|]. intros _. apply IH. intros; apply Hf; by right.
Qed.
Lemma try_for_each_all {E A} (f : A -> outcome E unit) l u : try_for_each f l = Ok u -> forall x, x ∈ l -> f x = Ok tt.
Proof.
  induction l as [|y l IH]; intros Hf x Hx; [by apply elem_of_nil in Hx|]. cbn in Hf. apply bind_Ok_inv in Hf as ([] & Hy & Hf).
  apply elem_of_cons in Hx as [->|Hx]; [done|by apply IH].
Qed.
Definition graph_wf (g : list (list nat)) (n : nat) : Prop := forall i j, j ∈ callees g i -> (j < n)%nat.
Lemma check_forest_no_panic g n : graph_wf g n -> check_forest g n <> Panic.
Proof.
  intros Hg. unfold check_forest. apply bind_no_panic; [|intros; unfold require; by case_match].
  apply try_for_each_no_panic. intros i Hi%elem_of_seq. apply (acyclic_no_panic g n); [done| | | |cbn; lia].
  - apply list.NoDup_singleton.
  - apply list.Forall_singleton; lia.
  - apply list.Forall_forall. intros j Hj%(proj1 (elem_of_rev _ _)). by eapply Hg.
Qed.
Lemma forest_walk {E} g n l : check_forest g n = Ok tt -> Forall (fun i => (i < n)%nat) l -> exists nodes, walk (E := E) (length l * S n) g l = Ok nodes.
Proof.
  intros Hf Hl. unfold check_forest in Hf. apply bind_Ok_inv in Hf as (u & Hf & _). induction Hl as [|i l Hi Hl [ns IH]]; [by eexists|].
  pose proof (try_for_each_all _ _ _ Hf i ltac:(apply elem_of_seq; lia)) as Ha. apply (acyclic_walk (E := E)) in Ha as [ni Hi']. eexists.
  apply (walk_app g (S n) (length l * S n) [i] l (i :: ni) ns); [|done]. cbn [walk]. by rewrite app_nil_r, Hi'.
Qed.
Lemma walk_fuel_enough {E} g n l : check_forest g n = Ok tt -> Forall (fun i => (i < n)%nat) l -> (length l <= n)%nat -> walk (E := E) (walk_fuel n) g l <> Panic.
Proof.
  intros Hf Hl Hlen. destruct (forest_walk (E := E) g n l Hf Hl) as [nodes Hw].
  replace (walk_fuel n) with (length l * S n + (walk_fuel n - length l * S n))%nat by (unfold walk_fuel; nia). by rewrite (walk_more _ _ _ _ _ Hw).
Qed.
Lemma walk_lt {E} g n fuel l nodes : graph_wf g n -> Forall (fun i => (i < n)%nat) l -> walk (E := E) fuel g l = Ok nodes -> forall i, i ∈ nodes -> (i < n)%nat.
Proof.
  intros Hg Hl Hw i Hi. apply (walk_spec _ _ _ _ Hw) in Hi as (x & Hx & Hr). destruct (rtc_inv_r _ _ Hr) as [->|(y & _ & Hy)]; [|by eapply Hg].
  exact (proj1 (list.Forall_forall _ _) Hl i Hx).
Qed.

(** The arena holds what the states of a call, at its start and after its first sections, refer to. *)
Record pre_arena_ok (params : LedgerParameters) (call : PreTranscript) : Prop := {
  arena_start : arena_ok (qc_state (pt_context call));
  arena_after k rg : query (pt_context call) (split_program k (pt_program call)).1 None (runtime_model params) = Ok rg -> arena_ok (qc_state (qr_context rg)) }.
Lemma call_graph_wf calls rs : graph_wf (call_graph calls rs) (length calls).
Proof.
  intros i j. unfold callees, call_graph. rewrite list_lookup_fmap. destruct (rs !! i) as [r|]; cbn; [by apply claimed_idx_lt|by intros ?%elem_of_nil].
Qed.
Section termination.
Variables (calls : list PreTranscript) (params : LedgerParameters).
Hypothesis (Hcm : cm_wf (runtime_model params)) (Hfactor : parallelism_factor (cost_model params) <> 0).
Hypothesis (Hwf : Forall pre_wf calls) (Harena : Forall (pre_arena_ok params) calls).
Lemma prefix_wf call k : pre_wf call -> Forall op_wf (split_program k (pt_program call)).1 /\ Forall op_wf (split_program k (pt_program call)).2.
Proof. intros [_ Hop]. destruct (split_program_spec k (pt_program call)) as [Happ _]. rewrite <- Happ in Hop. by apply list.Forall_app in Hop. Qed.
Lemma prefix_no_panic call k : call ∈ calls -> query (pt_context call) (split_program k (pt_program call)).1 None (runtime_model params) <> Panic.
Proof.
  intros Hc Hx. pose proof (proj1 (list.Forall_forall _ _) Hwf _ Hc) as Hw. pose proof (proj1 (list.Forall_forall _ _) Harena _ Hc) as Har.
  pose proof (query_safe (pt_context call) (split_program k (pt_program call)).1 None _ Hcm I (proj1 Hw) (arena_start _ _ Har) (proj1 (prefix_wf call k Hw))) as Hsafe.
  by rewrite Hx in Hsafe.
Qed.
Lemma run_no_panic call n : call ∈ calls -> run_to_ckpt_no call n params <> Panic.
Proof. intros Hc. unfold run_to_ckpt_no. rewrite <- take_split by lia. by apply prefix_no_panic. Qed.
Lemma mk_transcript_no_panic {E} prog res : mk_transcript (E := E) params prog res <> Panic.
Proof. by destruct prog. Qed.
Lemma split_at_no_panic call n : call ∈ calls -> split_at call n params <> Panic.
Proof.
  intros Hc. pose proof (prefix_no_panic call n Hc) as Hpre. pose proof (proj1 (list.Forall_forall _ _) Hwf _ Hc) as Hw. pose proof (proj1 (list.Forall_forall _ _) Harena _ Hc) as Har.
  pose proof (arena_after _ _ Har n) as Hafter. destruct (prefix_wf call n Hw) as [Hpg Hpf]. unfold split_at. destruct (split_program n (pt_program call)) as [pg pf]. cbn [fst snd] in *.
  apply bind_no_panic_eq; [done|]. intros rg Hrg. apply bind_no_panic; [|intros rf; repeat (apply bind_no_panic; [apply mk_transcript_no_panic|intros]); done].
  destruct (query_inv _ _ None _ _ Hcm I (proj1 Hw) Hpg Hrg) as (_ & _ & _ & _ & _ & _ & Hv & Ha & Hctx). destruct Hw as [[_ _ Hadr Hcc] _].
  assert (QueryContext_wf (with_effects (qr_context rg) Effects_default)) as Hq' by (split; cbn; [done|apply Effects_default_wf|by rewrite Ha|by rewrite Hctx]).
  intros Hx. pose proof (query_safe _ pf None _ Hcm I Hq' (Hafter rg Hrg) Hpf) as Hsafe. by rewrite Hx in Hsafe.
Qed.
Lemma max_time_no_panic {E} r n : max_time_of (E := E) r params n <> Panic.
Proof.
  unfold max_time_of, gas_heuristic, parallel_compute, CostDuration_div_u64. cbn [negb]. by rewrite (proj2 (Z.eqb_neq _ _) Hfactor).
Qed.
Lemma claimed_walk r : Forall (fun i => (i < length calls)%nat) (rev (claimed_idx calls r)) /\ (length (rev (claimed_idx calls r)) <= length calls)%nat.
Proof.
  split; [apply list.Forall_forall; intros j Hj%(proj1 (elem_of_rev _ _)); by eapply claimed_idx_lt|].
  rewrite length_rev. unfold claimed_idx. etransitivity; [apply filter_length_le|]. by rewrite length_seq.
Qed.
Variable (runs : list (QueryResults StateValue)).
Hypothesis (Hruns : length runs = length calls) (Hforest : check_forest (call_graph calls runs) (length calls) = Ok tt).
Lemma required_no_panic n partial_res : required_budget params runs (call_graph calls runs) n partial_res (claimed_idx calls partial_res) <> Panic.
Proof.
  unfold required_budget. rewrite Hruns. destruct (claimed_walk partial_res) as [Hlt Hlen]. apply bind_no_panic; [apply max_time_no_panic|]. intros own.
  apply bind_no_panic_eq; [by apply walk_fuel_enough|]. intros nodes Hw. pose proof (walk_lt _ _ _ _ _ (call_graph_wf calls runs) Hlt Hw) as Hn. clear Hw.
  revert own. induction nodes as [|x nodes IH]; intros own; [done|]. cbn [try_fold]. destruct (lookup_lt_is_Some_2 runs x) as [r ->]; [rewrite Hruns; apply Hn; left|]. cbn.
  apply bind_no_panic; [apply bind_no_panic; [apply max_time_no_panic|done]|]. intros acc. apply IH. intros i Hi. apply Hn. by right.
Qed.
Lemma most_sections_no_panic call budget k : call ∈ calls -> most_sections calls params runs (call_graph calls runs) call budget k <> Panic.
Proof.
  intros Hc. induction k as [|k IH]; cbn [most_sections]; [done|]. apply bind_no_panic; [by apply map_err_no_panic, run_no_panic|]. intros r.
  apply bind_no_panic; [apply required_no_panic|]. intros req. by destruct (req <=? budget).
Qed.
Lemma mark_no_panic s e : (e.2.2 = [] \/ exists r, e.2.2 = claimed_idx calls r) -> mark_sections calls (call_graph calls runs) s e <> Panic.
Proof.
  destruct e as [root [m claimed]]. cbn [snd]. intros Hcl. unfold mark_sections. apply bind_no_panic; [|done].
  destruct Hcl as [->|[r ->]]; [by destruct (walk_fuel _)|]. by apply walk_fuel_enough; [|apply claimed_walk..].
Qed.
End termination.
(** C23: [partition_transcripts] returns: for well-formed calls, a well-formed cost model and a parallelism factor that
    is not zero, it gives a partition or an error, and never panics.  The walks
    over the call graph, which the code does with a stack and no other bound,
    all end: the first of them finds every cycle, and no index is out of range. *)
Theorem partition_transcripts_returns calls params : cm_wf (runtime_model params) -> parallelism_factor (cost_model params) <> 0 ->
  Forall pre_wf calls -> Forall (pre_arena_ok params) calls -> partition_transcripts calls params <> Panic.
Proof.
  intros Hcm Hf Hwf Har. unfold partition_transcripts. apply bind_no_panic_eq.
  2:{ intros s Hs. apply map_err_no_panic, try_map_no_panic. intros [call n] Hin. apply list_elem_of_lookup in Hin as [i Hi].
      apply lookup_zip_with_Some in Hi as (? & ? & [= <- <-] & Hc & _). apply (split_at_no_panic calls); try done. by eapply list_elem_of_lookup_2. }
  unfold sections_in_guaranteed. apply bind_no_panic_eq; [apply map_err_no_panic, try_map_no_panic; intros; by apply (run_no_panic calls)|].
  intros runs Hr. apply map_err_Ok, try_map_Ok, list.Forall2_length in Hr as Hlen. symmetry in Hlen. apply bind_no_panic_eq; [apply check_forest_no_panic, call_graph_wf|].
  intros [] Hforest. set (roots := root_nodes (call_graph calls runs) (length calls)).
  assert (forall r, r ∈ roots -> (r < length calls)%nat) as Hroots by (intros r Hr'; by apply root_nodes_spec in Hr' as [? _]).
  apply bind_no_panic_eq.
  { apply try_map_no_panic. intros r Hin. pose proof (Hroots r Hin). apply walk_fuel_enough; [done|by apply list.Forall_singleton|cbn; lia]. }
  intros closures _. apply bind_no_panic_eq.
  { unfold closure_budgets, per_tx_cost_reserve, parallel_compute, CostDuration_div_u64. by rewrite (proj2 (Z.eqb_neq _ _) Hf). }
  intros budgets _. apply bind_no_panic_eq.
  { apply try_map_no_panic. intros [root b] Hin. apply list_elem_of_lookup in Hin as [i Hi]. apply lookup_zip_with_Some in Hi as (? & ? & [= <- <-] & Hi & _).
    destruct (lookup_lt_is_Some_2 calls root) as [call Hc]; [apply Hroots; by eapply list_elem_of_lookup_2|]. rewrite Hc. cbn.
    apply most_sections_no_panic; try done. by eapply list_elem_of_lookup_2. }
  intros prelim Hp. apply try_map_Ok in Hp. assert (forall e, e ∈ zip roots prelim -> e.2.2 = [] \/ exists r, e.2.2 = claimed_idx calls r) as Hcl.
  { intros [root [m claimed]] Hin. apply list_elem_of_lookup in Hin as [i Hi]. apply lookup_zip_with_Some in Hi as (? & ? & [= <- <-] & _ & Hi).
    destruct (list.Forall2_lookup_r _ _ _ _ _ Hp Hi) as ([root' b] & _ & Hx). cbn beta iota in Hx. apply bind_Ok_inv in Hx as (call & _ & Hx).
    apply most_sections_spec in Hx as [[_ ->]|(res & _ & _ & ->)]; [by left|right; by eexists]. }
  clear Hp. generalize (replicate (length calls) 0%nat) as s. induction (zip roots prelim) as [|e l IH]; intros s; [done|]. cbn [try_fold].
  apply bind_no_panic; [apply (mark_no_panic calls params); try done; apply Hcl; left|]. intros s'. apply IH. intros e' He'. apply Hcl. by right.
Qed.
End transcripts.

(** ** A call and the call it makes, in two sections each *)
From S2P Require Import ToyLedger.
#[local] Existing Instance toy_storage_laws.
#[local] Existing Instance toy_arena_laws.
#[local] Existing Instance toy_field_laws.
#[local] Instance toy_pre_sizes : PreTranscriptSizes := {| pre_transcript_size _ _ := 1000 |}.
#[local] Instance toy_arena_sizes : ArenaSizes.
Proof. split; [by intros|]. intros m v h n Hn. by vm_compute in Hn. Qed.
Definition toy_parts : list (Op AlignedValue) := toy_call ++ [Op_Ckpt] ++ toy_call.
Definition toy_caller : PreTranscript := {| pt_context := with_effects toy_context toy_effects; pt_program := toy_parts; comm_comm := None |}.
Definition toy_callee : PreTranscript := {| pt_context := toy_context; pt_program := toy_parts; comm_comm := Some 12345 |}.
Definition toy_pairs : list (option Transcript * option Transcript) :=
  match partition_transcripts [toy_caller; toy_callee] INITIAL_PARAMETERS with Ok pairs => pairs | _ => [] end.
Lemma toy_pairs_ok : partition_transcripts [toy_caller; toy_callee] INITIAL_PARAMETERS = Ok toy_pairs.
Proof. by vm_compute. Qed.
Lemma toy_parts_wf : Forall op_wf toy_parts.
Proof. apply list.Forall_app. split; [apply toy_call_wf|]. apply list.Forall_cons. split; [done|apply toy_call_wf]. Qed.
Lemma toy_pre_wf : Forall pre_wf [toy_caller; toy_callee].
Proof.
  destruct toy_context_wf as [Hs He Ha Hc]. repeat apply List.Forall_cons; try apply List.Forall_nil; (split; [|apply toy_parts_wf]); split; try done; apply toy_effects_wf.
Qed.
Lemma toy_splits (P : list (Op AlignedValue) * list (Op AlignedValue) -> Prop) k :
  P (split_program 0 toy_parts) -> P (split_program 1 toy_parts) -> P (split_program 2 toy_parts) -> P (split_program k toy_parts).
Proof. by destruct k as [|[|k]]. Qed.
(** The states are held directly, so that no node is referred to. *)
Definition toy_held : RcMap := {| rc_ge_1 := ∅; rc_0 := {[ AK_Direct [] [] [] ]} |}.
Lemma toy_held_ok cs : charged_keys cs = RcMap_default \/ charged_keys cs = toy_held -> arena_ok cs.
Proof.
  pose proof toy_arena_ok as Hok. unfold arena_ok in *. intros [->| ->]; [exact Hok|]. intros new _. cbn. split; [by intros h [n Hn]|]. split; [split; [by eexists|set_solver]|]. split.
  - split; cbn; [done|done|]. intros k Hk. apply elem_of_union in Hk as [Hk|Hk]; [exfalso; vm_compute in Hk; set_solver|]. cbn [rc_0 toy_held] in Hk. apply elem_of_singleton in Hk as ->. split; [by eexists|set_solver].
  - intros A HA. vm_compute in HA. injection HA as <-. intros h. unfold DeltaProps.indeg. etransitivity; [apply DeltaProps.cnt_le_length|]. by vm_compute.
Qed.
Lemma toy_pre_arena : Forall (pre_arena_ok INITIAL_PARAMETERS) [toy_caller; toy_callee].
Proof.
  repeat apply List.Forall_cons; try apply List.Forall_nil; (split; [apply toy_held_ok; by left|]); intros k rg Hq; apply toy_held_ok; right; revert Hq; cbn [pt_program toy_caller toy_callee].
  all: apply (toy_splits (fun sp => query _ sp.1 _ _ = Ok rg -> _)); intros Hq; vm_compute in Hq; injection Hq as <-; by vm_compute.
Qed.
Lemma toy_accumulate : Forall (claims_accumulate INITIAL_PARAMETERS) [toy_caller; toy_callee].
Proof.
  repeat apply List.Forall_cons; try apply List.Forall_nil; split.
  all: intros k full rg; cbn [pt_program toy_caller toy_callee].
  1,3: apply (toy_splits (fun sp => _ -> query _ sp.1 _ _ = Ok rg -> _)); intros Hf Hg; vm_compute in Hf, Hg; injection Hf as <-; injection Hg as <-; by vm_compute.
  all: intros rf; apply (toy_splits (fun sp => _ -> query _ sp.1 _ _ = Ok rg -> query _ sp.2 _ _ = Ok rf -> _)); intros Hf Hg Hr; vm_compute in Hf, Hg;
    injection Hf as <-; injection Hg as <-; vm_compute in Hr; injection Hr as <-; (split; [by intros x ?%elem_of_nil|by intros x _ ?%elem_of_nil]).
Qed.
Lemma toy_model_wf : cm_wf (runtime_model INITIAL_PARAMETERS).
Proof. apply INITIAL_COST_MODEL_wf. Qed.
Lemma partition_transcripts_run_witness : Forall2 (runs_as INITIAL_PARAMETERS) [toy_caller; toy_callee] toy_pairs.
Proof. apply partition_transcripts_run; [apply toy_model_wf|apply toy_pre_wf|apply toy_pairs_ok]. Defined.
Lemma partition_transcripts_returns_witness : partition_transcripts [toy_caller; toy_callee] INITIAL_PARAMETERS <> Panic.
Proof. apply partition_transcripts_returns; [apply toy_model_wf|by vm_compute|apply toy_pre_wf|apply toy_pre_arena]. Defined.
(** The caller claims the callee in its guaranteed transcript, so that the callee is guaranteed as a whole. *)
Lemma partition_keeps_callees_witness : exists t g f, (toy_pairs !! 0%nat) = Some (Some t, None) /\ effects_claim (t_effects t) 12345 /\ toy_pairs !! 1%nat = Some (g, f) /\ f = None.
Proof.
  destruct (toy_pairs !! 0%nat) as [[[t|] [f'|]]|] eqn:E0; try (exfalso; vm_compute in E0; discriminate E0).
  destruct (toy_pairs !! 1%nat) as [[g f]|] eqn:E1; [|exfalso; vm_compute in E1; discriminate E1].
  assert (effects_claim (t_effects t) 12345) as Hcl by (vm_compute in E0; injection E0 as <-; vm_compute; left).
  exists t, g, f. split; [done|]. split; [done|]. split; [done|].
  exact (proj1 (partition_keeps_callees [toy_caller; toy_callee] INITIAL_PARAMETERS toy_pairs toy_accumulate toy_pairs_ok 0%nat 1%nat t 12345 (Some t, None) (g, f) E0 E1 eq_refl Hcl) eq_refl).
Defined.
